(* ===== verification/_CoqProject ===== *)
-Q . S2P
Prelude.v
Utf8.v
FindCrlf.v
Buffers.v
Argv.v
Encode.v
Request.v
RequestBorrowed.v
F64.v
ReplyParse.v
Civil.v
ElectWire.v
Elector.v
ElectSafety.v
RankTree.v
RankTreeSpec.v
RankIter.v
Ring.v
Scope.v
Hash.v
Map.v
MapSpec.v
Glob.v
StoreUtil.v
Store.v
StoreString.v
MapRefine.v
MapScan.v
MapTable.v
MapSum.v
StoreSpec.v
StoreRefine.v
StoreCommands.v
StoreAccounts.v
StoreTable.v
Huff.v
Lz.v
Compress.v
Crc32c.v
AofRecord.v
AofReplay.v
AofSpec.v
Vlog.v
VlogSpec.v
VlogCompact.v
VlogOwner.v
PackedRow.v
SmallHash.v
TierCodec.v
Tier.v
TierSpec.v
TierGauges.v
TierRun.v
Results.v
Words.v
Fe25519.v
Poly1305.v
Aead.v
Blake2s.v
Noise.v
NoiseRun.v
ReplWire.v
Repl.v
ReplPump.v
ReplSpec.v
