(* ===== verification/Prelude.v ===== *)
(** * kevy: a verification development

    kevy is a Redis-compatible server in Rust: clients send RESP commands,
    reactor threads parse them, a shard's keyspace answers, replicas follow and
    elect a primary, scopes decide which node takes a write, a log of the commands
    survives crashes, cold values go to a compressed log, and nodes talk over a
    Noise channel.  This development models the parts that carry that logic
    as executable Rocq functions, translated from the files named below, and
    proves what makes them correct.

    ** Files, and what they model (paths under src/crates)

    - [Prelude]: bytes, machine integers, buffers, panicking computations
      ([exec]), the lemmas and tactics on them.
    - RESP.  [FindCrlf] is kevy-bytes/src/find_crlf.rs, its SWAR, AVX2 and NEON
      kernels; [CrlfScanner] is the interface the parsers use, and every kernel
      an instance.  [Argv] is kevy-resp argv.rs, inline_ranges.rs and
      argv_borrowed.rs; [Encode] reply_encode.rs and reply_encode_resp3.rs;
      [Request] request.rs, [RequestBorrowed] request_borrowed.rs, [ReplyParse]
      reply.rs and reply_parse.rs, with [F64] and [Utf8] for what they use of
      the standard library.
    - Time.  [Civil] is kevy-time/src/lib.rs.
    - Elections.  [ElectWire] is kevy-elect message.rs and wire.rs, [Elector]
      elector.rs, elector_tick.rs, elector_inbound.rs, config.rs, persist.rs;
      [ElectSafety] runs electors in a cluster ([step], [reachable]).
    - Ordered sets.  [RankTree] is kevy-ranktree node.rs, insert.rs, remove.rs,
      lib.rs; [RankTreeSpec] its invariant and refinement; [RankIter] ranks,
      ranges and iter.rs.
    - Threads.  [Ring] is kevy-ring/src/lib.rs, as functions and access by access.
    - Scopes.  [Scope] is kevy-scope scope.rs, ownership.rs, routing.rs,
      migration.rs, and kevy/src/state/scope.rs [route_write].
    - Keyspace.  [Hash] is kevy-hash lib.rs, crc16.rs, hashtag.rs.  [Map] is the
      table of kevy-map (map.rs, map_keyed.rs, group.rs, grow.rs, alloc.rs,
      aux.rs, raw_entry.rs, iter.rs, clone.rs, scan.rs); [MapSpec], [MapRefine]
      and [MapScan] its invariant, refinement and walks.  [Glob] and
      [StoreUtil] are kevy-store util.rs and clock.rs; [Store] entry.rs,
      entry_weight.rs, accounting.rs, store_admin.rs, keyspace.rs, evict.rs and
      notify.rs as far as the string commands use them; [StoreString]
      string.rs, string_set.rs, string_rmw.rs.  [StoreSpec], [StoreRefine],
      [StoreCommands] and [StoreAccounts] are their theorems; [MapTable] and
      [StoreTable] put the store on the table of [Map].
    - Compression.  [Huff], [Lz] and [Compress] are kevy-compress: huff.rs;
      encode.rs, decode.rs, tag.rs; lib.rs and dict.rs.
    - The append-only file.  [AofRecord] is kevy-persist record.rs,
      record_pieces.rs, log_base.rs, replay_txn.rs, [write_multibulk] of
      rewrite_fmt.rs and the markers of aof_txn.rs; [AofReplay] is replay.rs,
      replay_walk.rs, replay_resync.rs, replay_report.rs, aof_util.rs and
      [prepare_file] of aof.rs, on the bytes of a file; [AofSpec] their theorems.
    - The value log.  [Crc32c] is kevy-sys/src/checksum.rs and kevy-persist's
      crc32c.rs; [Vlog] is kevy-vlog (lib.rs, record.rs, accounting.rs,
      stats.rs, compact.rs) over a directory, its open files and the outcomes of
      the system calls to come ([World]); [VlogSpec] its invariant and appends,
      [VlogCompact] compaction against any lawful owner, [VlogOwner] what an
      owner does between compactions.
    - Rows and tiers.  [Buffers] is what the codecs use of slices; [PackedRow]
      is kevy-store packed_row.rs, [SmallHash] small_hash.rs, [TierCodec]
      tier_codec.rs and packed_row/store_ops.rs, [Tier] tier.rs, tier_state.rs,
      tier_demote.rs, tier_serve.rs and value_cold.rs; [TierSpec] proves the tier
      transparent, [TierGauges] its gauges exact, [TierRun] is a run of it.
      [MapSum] has the sums over a map that both accountings use.
    - The secure channel.  [Words] is what kevy-crypto uses of machine words;
      [Fe25519] is fe25519.rs and x25519.rs, [Poly1305] poly1305.rs, [Aead]
      chacha20.rs, aead.rs and [ct_eq] of lib.rs, [Blake2s] blake2s.rs and
      hkdf.rs; [Noise] is kevy-noise symmetric.rs, handshake.rs and transport.rs;
      [NoiseRun] runs a handshake in full on the key pairs of RFC 7748, the ladder
      evaluated on big machine numbers.
      [Results] is the error monad of [Noise] and of replication.
    - Replication.  [ReplWire] is kevy-replicate wire.rs and wire_snapshot.rs;
      [Repl] source.rs, feed.rs, slot.rs, replica_decode.rs and what they use of
      replica.rs, replica_event.rs and replica_error.rs; [ReplPump] is the
      primary's side of a link in kevy-rt: replication_pump.rs, the states of
      replication.rs, [replica_writable] of replication_io.rs, the retention tick
      of shard_tick.rs and the count WAIT uses in exec_replwait.rs; [ReplSpec]
      runs a feed, a link and its socket as steps ([link_step]) and has the theorems.

    ** How state and operations correspond

    A struct is a [Record] with the source's fields; a [&mut self] method takes
    the record and returns the new one with its result.  An enum is an
    [Inductive].  An integer is a [Z] (a position that is only an index, a
    [nat]), with its wrap-around, cast or check written where the code has it.
    A fallible function returns [option] or a sum of its own ([parsed],
    [decoding], [outcome]), in which a panic, or memory the code must not
    touch, is a constructor of its own that the theorems exclude.  A clock
    reading is an argument.  A [HashMap] or set is a [gmap] or [gset]; the
    store's own table is modelled slot by slot in [Map].

    Interfaces: [CrlfScanner] (the parsers on the scanner), [ElectorPersist]
    with [DurablePersist] (the elector on its backend), [TableShape] with
    [TableLaws] (the store's accounting on the table; [kevy_table] and
    [kevy_laws] of [MapTable] discharge it with the table of [Map]),
    [CompactOwner] with [OwnerLaws] (compaction on whoever holds the references;
    [store_owner] and [store_owner_laws] discharge it with the keyspace's stubs
    and rename pointers), [VecGrowth] (the capacity a growing [Vec] takes, which
    the standard library leaves open).

    ** What the theorems show

    - The request and reply parsers accept a grammar, are stable under later
      bytes and never panic; the one integer text the reply parser does not take
      is that of [i64::MIN] ([int_min_not_read_back]).  The zero-copy request
      parser refines the owned one, errors included, but for a negative zero
      length, which it refuses ([negative_zero]).  What the encoders write is
      read back.
    - Votes are unique per node and epoch through crashes; elections whose
      winners kept to their own epoch are unique; [split_brain] is how a
      candidate that gives its vote away is elected by its old tally, and a run
      without restarts that ends with two primaries of one epoch.
    - Every sequence of string and key commands on a store is a sequence of
      one-line functions on a finite map with deadlines; the memory gauge is
      the table plus the weights, up to a drift only INCR adds, and the side
      words are the collections' weights; the store runs on the table of
      kevy-map with exactly its keys in it and no panic, up to 2^55 slots.
    - The table is a finite map, its probes end within one turn, its growth
      and removal lose nothing, and a SCAN that meets a table grown between
      calls misses no key that stays.
    - The rank tree is a sorted list with its invariant kept; its iterators
      yield what they should within their stack.
    - The ring never touches a live slot under any interleaving and stale
      cursor; alone it is a queue.
    - A key has one writer; migrations redirect; [commit_window_accepts_locally]
      shows the window between two locks.
    - Frames decode to what was encoded, at both levels and with either form
      of dictionary, never expand, and any bytes decode without a panic, within
      the memory reserved; [trained_dictionary_refuses_its_frames] shows the
      one kind of dictionary for which the compaction level is not inverted.
    - The two CRC-32C instruction sets and the sliced tables are one function,
      which sees every burst of 32 bits.  An appended record that
      leaves six bytes of the limit reads back, then and after later appends; a
      compaction step, at any budget and whatever fails, moves such records
      without losing one, and panics only where a counter ran out; the drain
      ends at every threshold; a pinned file survives its retirement;
      [append_accepts_unreadable] is a record acknowledged past the size limit.
    - A log cut at any byte replays exactly what the transactions and commands
      whole before the cut commit; up to four changed bytes in a record are
      always noticed; resynchronising past a damaged command outside a
      transaction, with none behind it, replays what the log without it commits.
      [resync_replays_payload], [resync_ignores_brackets],
      [oversized_record_ends_log] and [torn_magic_loses_checksums] are its limits.
    - A packed row is its columns and answers each edit, an inline hash its pairs; the cold codec is
      inverted in every form and never panics; a shard with a tier answers as
      one without, through demotions, promotions, renames of cold keys and
      compaction, and its gauges are sums over its stubs.
    - X25519 on its limbs overflows nowhere and is the Montgomery ladder modulo
      2^255 - 19; Poly1305 in pieces is the polynomial modulo 2^130 - 5, and
      sealed messages open while any other tag is refused; BLAKE2s, HMAC and HKDF
      in pieces are those of the whole.  A handshake leaves both sides with one
      hash and crossed keys at nonce zero, or stops at a point of small order; any bytes from a
      peer are answered without a panic; the channel delivers what was sealed, in
      order, however the stream is cut.
    - A replica follows its primary: whatever the primary writes, drops, flushes,
      ships and sends in part, the replica reads events without a gap and holds
      the history up to the offset sent; any stream is survived; the backlog
      serves its history or says it cannot; the retention tick keeps what any
      consumer needs.  [oversized_frame_stalls] is a write no streaming link gets
      past, [wait_counts_stale_acks] an acknowledgement counted across a FLUSHALL.
    - The calendar is the Gregorian one; CRC16 is the shift register; glob
      matching is the recursive reading of a pattern, in quadratic time.

    ** Fuel and bounds

    Recursion that is not structural runs on fuel, and running out is a panic
    that the theorems exclude, or the bound is exact: the request parser and
    the frame decoders take the length of the buffer, since every turn consumes
    a byte, and so do the events of a replica and the lines of its
    acknowledgements; the reply parser [S (length buf)], since a nested element
    starts after its header; a probe the table's capacity, and a sixteenth is proved
    enough; the glob loop [(|s|+1)(|p|+2)] rounds; the match finder the length
    of the input; a compaction step the victim's bytes, since a record is at
    least a header long; the drain the number of files at its start; a cold
    hash the length of its payload; a replay and a resynchronisation one turn
    more than the bytes of the file; a hash update the length of its data, since
    every turn takes a byte; rebalancing the Kraft sum, which falls at every
    turn; the rank tree its height.  Theorems on frames bound lengths by 2^35, where the
    length field ends, and 2^50 for arbitrary bytes, more than an address space
    holds; those on a handshake bound messages by 2^61 bytes.

    ** Not modelled

    Sockets, fsync and the writer's buffering, threads, mmap and allocation failure; the allocator
    (kevy-alloc), the reactor (kevy-rt, kevy-uring, kevy-sys) and the language
    bindings; a replica's connecting and handshake, and its link under the secure
    channel; XXH3 and the [Hasher] adapter of kevy-hash; the text [encode_double]
    writes and the stack depth of nested replies; [Duration]s above 584 years;
    counts above 2^64; the collection commands of kevy-store (a collection is
    its kind and its weight), eviction, active expiry, the row recorder and the
    background drop thread; the tier's victim sampler, its batches and row
    segments, batched cold reads, and the tier's counters at their width; the
    24-byte layout of [SmallBytes]; the time a primitive takes.  That the two
    computations of a shared secret agree is a property of the curve's group,
    which the handshake's theorem has as a hypothesis ([agree]), and that a tag
    cannot be forged is not a statement about functions.  The store's theorems assume its gauges fit an [i64], as the
    code's casts do.

    Plan, in order: the writer of the append-only file with its fsync windows,
    snapshots and their pairing with a log (kevy-persist); the replication
    handshake; demotion batches and segment files (kevy-seg); the
    collections, eviction and active expiry of kevy-store; kevy-config,
    kevy-window, kevy-geo. *)

From Stdlib Require Import ZArith Lia Bool.
From Stdlib Require Import Strings.Byte Strings.String.
From stdpp Require Import base tactics list numbers countable option.

#[local] Open Scope Z_scope.

(** ** Bytes

    A Rust [u8] is a [Byte.byte]; [bz] is its value and [zb] the truncating
    cast [as u8]. *)

Definition bz (b : byte) : Z := Z.of_N (Byte.to_N b).

Definition zb (z : Z) : byte :=
  match Byte.of_N (Z.to_N (z mod 256)) with
  | Some b => b
  | None => x00
  end.

#[global] Instance byte_eq_dec : EqDecision byte := Byte.byte_eq_dec.

#[global] Program Instance byte_countable : Countable byte :=
  inj_countable Byte.to_N Byte.of_N _.
Next Obligation. intros b. apply Byte.of_to_N. Qed.

Lemma bz_range b : 0 <= bz b < 256.
Proof.
  unfold bz. pose proof (Byte.to_N_bounded b). lia.
Qed.

Lemma bz_inj b c : bz b = bz c -> b = c.
Proof.
  unfold bz. intros H. apply N2Z.inj in H.
  apply (f_equal Byte.of_N) in H. rewrite !Byte.of_to_N in H. congruence.
Qed.

Lemma bz_zb z : bz (zb z) = z mod 256.
Proof.
  unfold zb, bz. pose proof (Z.mod_pos_bound z 256 ltac:(lia)).
  destruct (Byte.of_N (Z.to_N (z mod 256))) as [b|] eqn:E.
  - apply Byte.to_of_N in E. rewrite E. lia.
  - apply Byte.of_N_None_iff in E. lia.
Qed.

Lemma zb_bz b : zb (bz b) = b.
Proof.
  apply bz_inj. rewrite bz_zb. apply Z.mod_small, bz_range.
Qed.

Lemma byte_eqb_spec b c : reflect (b = c) (Byte.eqb b c).
Proof.
  apply iff_reflect. split; intros H.
  - subst. apply Byte.byte_dec_lb. reflexivity.
  - apply Byte.byte_dec_bl in H. exact H.
Qed.

(** ** Literals and notations *)

Declare Scope kevy_scope.
Delimit Scope kevy_scope with kevy.

(** [bs "GET"] is the byte-string literal [b"GET"]. *)
Definition bs (s : string) : list byte := list_byte_of_string s.

Definition CR : byte := x0d.
Definition LF : byte := x0a.
Definition CRLF : list byte := [CR; LF].

Notation "a =b c" := (Byte.eqb a c) (at level 70, no associativity) : kevy_scope.

(** ** Machine integers

    Integers are [Z]; the Rust width is written out where it matters. *)

Definition i64_min : Z := - 2 ^ 63.
Definition i64_max : Z := 2 ^ 63 - 1.
Definition u64_max : Z := 2 ^ 64 - 1.

Definition in_i64 (z : Z) : bool := (i64_min <=? z) && (z <=? i64_max).

(** [checked_add] / [checked_mul] on [i64]: the mathematical result when it
    fits, [None] otherwise. *)
Definition checked_i64 (z : Z) : option Z := if in_i64 z then Some z else None.

(** [as u32] from a wider unsigned integer. *)
Definition as_u32 (z : Z) : Z := z mod 2 ^ 32.

(** [as i64] from a wider integer. *)
Definition as_i64 (z : Z) : Z := (z + 2 ^ 63) mod 2 ^ 64 - 2 ^ 63.

Lemma in_i64_iff z : in_i64 z = true <-> i64_min <= z <= i64_max.
Proof. unfold in_i64. rewrite andb_true_iff, !Z.leb_le. reflexivity. Qed.

Lemma checked_i64_Some z r : checked_i64 z = Some r <-> r = z /\ i64_min <= z <= i64_max.
Proof.
  unfold checked_i64. destruct (in_i64 z) eqn:E.
  - apply in_i64_iff in E. split; [intros [= <-]; auto | intros [-> _]; reflexivity].
  - split; [discriminate|]. intros [_ H%in_i64_iff]. congruence.
Qed.

Lemma checked_i64_None z : checked_i64 z = None <-> ~ (i64_min <= z <= i64_max).
Proof.
  unfold checked_i64. destruct (in_i64 z) eqn:E.
  - apply in_i64_iff in E. split; [discriminate | tauto].
  - split; [|reflexivity]. intros _ H%in_i64_iff. congruence.
Qed.

Lemma checked_i64_ok z : i64_min <= z <= i64_max -> checked_i64 z = Some z.
Proof. intros H. apply checked_i64_Some. auto. Qed.

Lemma as_i64_id z : i64_min <= z <= i64_max -> as_i64 z = z.
Proof. unfold as_i64, i64_min, i64_max. intros H. rewrite Z.mod_small; lia. Qed.

Lemma as_u32_id z : 0 <= z < 2 ^ 32 -> as_u32 z = z.
Proof. unfold as_u32. intros H. apply Z.mod_small. lia. Qed.

(** ** Buffers

    A [&[u8]] is a [list byte]; positions and lengths are [Z]. *)

Definition blen {A} (l : list A) : Z := Z.of_nat (length l).

(** [buf.get(i)] *)
Definition get {A} (l : list A) (i : Z) : option A := l !! Z.to_nat i.

(** [buf[s..]] and [buf[s..e]] (in range) *)
Definition from {A} (l : list A) (s : Z) : list A := drop (Z.to_nat s) l.
Definition slice {A} (l : list A) (s e : Z) : list A :=
  take (Z.to_nat (e - s)) (drop (Z.to_nat s) l).

Lemma blen_nonneg {A} (l : list A) : 0 <= blen l.
Proof. unfold blen. lia. Qed.

Lemma blen_nil {A} : blen (@nil A) = 0.
Proof. reflexivity. Qed.

Lemma blen_cons {A} (x : A) l : blen (x :: l) = 1 + blen l.
Proof. unfold blen. cbn [length]. lia. Qed.

Lemma blen_app {A} (l k : list A) : blen (l ++ k) = blen l + blen k.
Proof. unfold blen. rewrite length_app. lia. Qed.

Lemma blen_CRLF : blen CRLF = 2.
Proof. reflexivity. Qed.

Create Rewrite HintDb blen.
#[export] Hint Rewrite @blen_app @blen_cons @blen_nil blen_CRLF : blen.

(** Every [blen] in sight is a non-negative number. *)
Ltac blen_pos :=
  repeat match goal with
  | |- context [blen ?l] =>
      lazymatch goal with _ : 0 <= blen l |- _ => fail | _ => pose proof (blen_nonneg l) end
  | _ : context [blen ?l] |- _ =>
      lazymatch goal with _ : 0 <= blen l |- _ => fail | _ => pose proof (blen_nonneg l) end
  end.

(** Arithmetic about lengths of concatenations. *)
Ltac blen_lia := autorewrite with blen in *; blen_pos; lia.

Lemma blen_to_nat {A} (l : list A) : Z.to_nat (blen l) = length l.
Proof. unfold blen. lia. Qed.

Lemma get_None {A} (l : list A) i : 0 <= i -> get l i = None <-> blen l <= i.
Proof. intros. unfold get, blen. rewrite lookup_ge_None. lia. Qed.

Lemma get_Some_lt {A} (l : list A) i x : 0 <= i -> get l i = Some x -> i < blen l.
Proof. intros ? H. unfold get, blen in *. apply lookup_lt_Some in H. lia. Qed.

Lemma get_lt_Some {A} (l : list A) i : 0 <= i < blen l -> exists x, get l i = Some x.
Proof.
  intros H. unfold get, blen in *.
  destruct (lookup_lt_is_Some_2 l (Z.to_nat i)) as [x Hx]; [lia | eauto].
Qed.

Lemma get_app_l {A} (l k : list A) i : 0 <= i < blen l -> get (l ++ k) i = get l i.
Proof. intros. unfold get, blen in *. apply lookup_app_l. lia. Qed.

Lemma get_app_r {A} (l k : list A) i : blen l <= i -> get (l ++ k) i = get k (i - blen l).
Proof.
  intros. unfold get, blen in *. rewrite lookup_app_r by lia. f_equal. lia.
Qed.

Lemma from_cons_get {A} (l : list A) i x :
  0 <= i -> get l i = Some x -> from l i = x :: from l (i + 1).
Proof.
  intros ? H. unfold from, get in *. rewrite (drop_S _ _ _ H).
  f_equal. f_equal. lia.
Qed.

Lemma from_ge {A} (l : list A) i : blen l <= i -> from l i = [].
Proof. intros. apply drop_ge. unfold blen in *. lia. Qed.

Lemma from_0 {A} (l : list A) : from l 0 = l.
Proof. reflexivity. Qed.

Lemma from_from {A} (l : list A) i j : 0 <= i -> 0 <= j -> from (from l i) j = from l (i + j).
Proof. intros. unfold from. rewrite drop_drop. f_equal. lia. Qed.

Lemma blen_from {A} (l : list A) i : 0 <= i <= blen l -> blen (from l i) = blen l - i.
Proof. intros. unfold blen, from in *. rewrite length_drop. lia. Qed.

Lemma from_app_l {A} (l k : list A) i : 0 <= i <= blen l -> from (l ++ k) i = from l i ++ k.
Proof. intros. unfold blen, from in *. apply drop_app_le. lia. Qed.

Lemma from_app_len {A} (l k : list A) : from (l ++ k) (blen l) = k.
Proof. unfold from. rewrite blen_to_nat. apply drop_app_length. Qed.

Lemma slice_from {A} (l : list A) s e : slice l s e = take (Z.to_nat (e - s)) (from l s).
Proof. reflexivity. Qed.

Lemma slice_app_l {A} (l k : list A) s e :
  0 <= s -> s <= e <= blen l -> slice (l ++ k) s e = slice l s e.
Proof.
  intros. rewrite !slice_from, from_app_l by lia. apply take_app_le.
  pose proof (blen_from l s). unfold blen in *. lia.
Qed.

Lemma blen_slice {A} (l : list A) s e :
  0 <= s -> s <= e <= blen l -> blen (slice l s e) = e - s.
Proof.
  intros. unfold blen, slice in *. rewrite length_take, length_drop. lia.
Qed.

Lemma slice_from_app {A} (l k : list A) : slice (l ++ k) 0 (blen l) = l.
Proof.
  unfold slice. rewrite Z.sub_0_r, blen_to_nat. cbn. apply take_app_length.
Qed.

Lemma get_from {A} (l : list A) i j : 0 <= i -> 0 <= j -> get (from l i) j = get l (i + j).
Proof. intros. unfold get, from. rewrite lookup_drop. f_equal. lia. Qed.

Lemma slice_slice_from {A} (l : list A) i s e :
  0 <= i -> 0 <= s -> slice (from l i) s e = slice l (i + s) (i + e).
Proof.
  intros. unfold slice, from. rewrite drop_drop. f_equal; [|f_equal]; lia.
Qed.

(** ** Panicking computations

    [exec A] is a Rust expression that may panic (an out-of-range index, a
    failed [expect]). *)

Inductive exec (A : Type) : Type :=
| Ret (a : A)
| Panic.
Arguments Ret {A} a.
Arguments Panic {A}.

#[global] Instance exec_ret : MRet exec := @Ret.
#[global] Instance exec_bind : MBind exec := fun A B f m =>
  match m with Ret a => f a | Panic => Panic end.

(** [&l[s..e]]: panics unless [s <= e <= l.len()]. *)
Definition index_range {A} (l : list A) (s e : Z) : exec (list A) :=
  if (s <=? e) && (e <=? blen l) then Ret (slice l s e) else Panic.

(** [l[i]]: panics out of range. *)
Definition index {A} (l : list A) (i : Z) : exec A :=
  match get l i with Some x => Ret x | None => Panic end.

(** [o.expect(..)] *)
Definition expect {A} (o : option A) : exec A :=
  match o with Some x => Ret x | None => Panic end.

(** [(0..n).map(f).collect()], left to right, stopping at the first panic. *)
Fixpoint collect {A} (f : Z -> exec A) (i : Z) (n : nat) : exec (list A) :=
  match n with
  | O => Ret []
  | S n' => x ← f i; r ← collect f (i + 1) n'; Ret (x :: r)
  end.

Lemma index_range_ok {A} (l : list A) s e :
  s <= e <= blen l -> index_range l s e = Ret (slice l s e).
Proof.
  intros H. unfold index_range.
  destruct (Z.leb_spec s e), (Z.leb_spec e (blen l)); cbn; lia || reflexivity.
Qed.

Lemma collect_ok {A} (f : Z -> exec A) (l : list A) : forall i,
  (forall k x, l !! k = Some x -> f (i + Z.of_nat k) = Ret x) ->
  collect f i (length l) = Ret l.
Proof.
  induction l as [|x l IH]; intros i H; [reflexivity|]. cbn.
  pose proof (H O x eq_refl) as H0. rewrite Z.add_0_r in H0. rewrite H0. cbn.
  rewrite IH; [reflexivity|]. intros k y Hk.
  replace (i + 1 + Z.of_nat k) with (i + Z.of_nat (S k)) by lia. apply H. exact Hk.
Qed.

(** *** Reading inside [pre ++ x ++ rest] *)

Lemma slice_mid {A} (pre x rest : list A) :
  slice (pre ++ x ++ rest) (blen pre) (blen pre + blen x) = x.
Proof.
  rewrite slice_from, from_app_len. replace (_ + _ - _) with (blen x) by lia.
  rewrite blen_to_nat. apply take_app_length.
Qed.

Lemma get_mid {A} (pre : list A) x rest : get (pre ++ x :: rest) (blen pre) = Some x.
Proof. unfold get. rewrite blen_to_nat. apply list_lookup_middle. reflexivity. Qed.

(** A buffer split at position [p]. *)
Lemma split_at {A} (l : list A) p :
  0 <= p <= blen l -> exists pre, l = pre ++ from l p /\ blen pre = p.
Proof.
  intros H. exists (take (Z.to_nat p) l). unfold from, blen in *.
  rewrite take_drop, length_take. split; [reflexivity | lia].
Qed.

Lemma slice_0_take {A} (l : list A) e : slice l 0 e = take (Z.to_nat e) l.
Proof. unfold slice. rewrite Z.sub_0_r. reflexivity. Qed.
