(* ===== verification/Utf8.v ===== *)
(** * UTF-8 as the standard library reads it

    [str::from_utf8] (a validity check) and [String::from_utf8_lossy], which
    the reply parser and the election wire format apply to bytes from the
    network. *)

From Stdlib Require Import ZArith Lia Bool Strings.Byte.
From stdpp Require Import base list.
From S2P Require Import Prelude.

#[local] Open Scope list_scope.
#[local] Open Scope Z_scope.

Definition between (lo hi : Z) (b : byte) : bool := (lo <=? bz b) && (bz b <=? hi).

Definition cont (b : byte) : bool := between 128 191 b.

(** Lead bytes of two-byte sequences; second bytes that may follow the lead
    of a three- and of a four-byte sequence (the Unicode standard's table of
    well-formed sequences). *)
Definition lead2 (a : byte) : bool := between 194 223 a.
Definition second3 (a b : byte) : bool :=
  (between 224 224 a && between 160 191 b)
  || ((between 225 236 a || between 238 239 a) && cont b)
  || (between 237 237 a && between 128 159 b).
Definition second4 (a b : byte) : bool :=
  (between 240 240 a && between 144 191 b)
  || (between 241 243 a && cont b)
  || (between 244 244 a && between 128 143 b).

(** [str::from_utf8(l).is_ok()] *)
Fixpoint is_utf8 (l : list byte) : bool :=
  match l with
  | [] => true
  | a :: r =>
      if bz a <? 128 then is_utf8 r
      else
        match r with
        | [] => false
        | b :: r =>
            if lead2 a then cont b && is_utf8 r
            else
              match r with
              | [] => false
              | c :: r =>
                  if second3 a b then cont c && is_utf8 r
                  else
                    match r with
                    | [] => false
                    | d :: r => second4 a b && cont c && cont d && is_utf8 r
                    end
              end
        end
  end.

(** [u8::to_ascii_lowercase], [eq_ignore_ascii_case] *)
Definition to_ascii_lowercase (b : byte) : byte :=
  if between 65 90 b then zb (bz b + 32) else b.
Definition eq_ignore_ascii_case (x y : list byte) : bool :=
  bool_decide (to_ascii_lowercase <$> x = to_ascii_lowercase <$> y).

(** U+FFFD, the replacement character. *)
Definition REPLACEMENT : list byte := [xef; xbf; xbd].

(** [String::from_utf8_lossy]: a lead byte and the continuation bytes that
    are valid after it, when they do not complete a character, become one
    replacement character. *)
Fixpoint from_utf8_lossy (l : list byte) : list byte :=
  match l with
  | [] => []
  | a :: r =>
      if bz a <? 128 then a :: from_utf8_lossy r
      else
        match r with
        | [] => REPLACEMENT
        | b :: r1 =>
            if lead2 a then
              if cont b then a :: b :: from_utf8_lossy r1 else REPLACEMENT ++ from_utf8_lossy r
            else if second3 a b then
              match r1 with
              | [] => REPLACEMENT
              | c :: r2 =>
                  if cont c then a :: b :: c :: from_utf8_lossy r2
                  else REPLACEMENT ++ from_utf8_lossy r1
              end
            else if second4 a b then
              match r1 with
              | [] => REPLACEMENT
              | c :: r2 =>
                  if cont c then
                    match r2 with
                    | [] => REPLACEMENT
                    | d :: r3 =>
                        if cont d then a :: b :: c :: d :: from_utf8_lossy r3
                        else REPLACEMENT ++ from_utf8_lossy r2
                    end
                  else REPLACEMENT ++ from_utf8_lossy r1
              end
            else REPLACEMENT ++ from_utf8_lossy r
        end
  end.

(** A valid string is read as it is. *)
Lemma from_utf8_lossy_valid l : is_utf8 l = true -> from_utf8_lossy l = l.
Proof.
  remember (length l) as n eqn:Hn. assert (Hle : (length l <= n)%nat) by lia. clear Hn. revert l Hle.
  induction n as [|n IH]; intros [|a r] Hle H; try reflexivity; [cbn in Hle; lia|].
  cbn [is_utf8 from_utf8_lossy length] in *. destruct (bz a <? 128); [f_equal; apply IH; [lia | exact H]|].
  destruct r as [|b r]; [discriminate|]. cbn [length] in Hle. destruct (lead2 a).
  { apply andb_true_iff in H as [-> H]. do 2 f_equal. apply IH; [lia | exact H]. }
  destruct r as [|c r]; [discriminate|]. cbn [length] in Hle. destruct (second3 a b).
  { apply andb_true_iff in H as [-> H]. do 3 f_equal. apply IH; [lia | exact H]. }
  destruct r as [|d r]; [discriminate|]. cbn [length] in Hle.
  apply andb_true_iff in H as [[[-> ->]%andb_true_iff ->]%andb_true_iff H].
  do 4 f_equal. apply IH; [lia | exact H].
Qed.
