(* ===== verification/FindCrlf.v ===== *)
(** * The CRLF scanner ([crates/kevy-bytes/src/find_crlf.rs])

    Every RESP frame is cut at a [\r\n]; the request and reply parsers reach it
    through [kevy_bytes::find_crlf], which has three kernels: a portable [u64]
    SWAR loop, a 32-byte AVX2 loop and a 16-byte NEON loop.  Each kernel is
    modelled at the width of the machine words it works on and proved equal to
    [crlf_from], the plain left-to-right scan.  [CrlfScanner] is the interface
    the parsers are verified against; every dispatch outcome is an instance. *)

From Stdlib Require Import ZArith Lia Bool Strings.Byte Strings.String.
From stdpp Require Import base list.
From S2P Require Import Prelude.

#[local] Open Scope list_scope.
#[local] Open Scope Z_scope.
#[local] Open Scope kevy_scope.

(** ** Reference scan *)

(** The index of the first [\r\n] in [l], whose first byte sits at index [i]. *)
Fixpoint crlf_from (l : list byte) (i : Z) : option Z :=
  match l with
  | c1 :: ((c2 :: _) as tl) =>
      if (c1 =b CR) && (c2 =b LF) then Some i else crlf_from tl (i + 1)
  | _ => None
  end.

(** What a scanner promises to the parsers that call it. *)
Class CrlfScanner := {
  find_crlf : list byte -> Z -> option Z;
  find_crlf_ok : forall buf start,
      0 <= start -> find_crlf buf start = crlf_from (from buf start) start
}.

(** ** Machine words *)

Definition CR_BCAST : Z := 0x0D0D0D0D0D0D0D0D.
Definition ONES : Z := 0x0101010101010101.
Definition HIGH : Z := 0x8080808080808080.

(** [u64::from_le_bytes] *)
Fixpoint from_le_bytes (l : list byte) : Z :=
  match l with
  | [] => 0
  | b :: r => bz b + 256 * from_le_bytes r
  end.

(** [u64::wrapping_sub] and [!x] *)
Definition wrapping_sub64 (a b : Z) : Z := (a - b) mod 2 ^ 64.
Definition not64 (a : Z) : Z := 2 ^ 64 - 1 - a.

(** [trailing_zeros] of a non-zero word of at most [w] bits ([w] itself for 0). *)
Fixpoint trailing_zeros (w : nat) (z : Z) : Z :=
  match w with
  | O => 0
  | S w' => if Z.odd z then 0 else 1 + trailing_zeros w' (z / 2)
  end.

(** The SWAR test word: a byte's top bit is set when the byte is a CR (and
    possibly also above the first CR, by borrow). *)
Definition swar_zeroed (word : Z) : Z :=
  let x := Z.lxor word CR_BCAST in
  Z.land (Z.land (wrapping_sub64 x ONES) (not64 x)) HIGH.

(** ** [find_crlf_swar] *)

(** The scalar tail loop [while i + 1 < n]. *)
Fixpoint swar_tail (fuel : nat) (buf : list byte) (i : Z) : option Z :=
  match fuel with
  | O => None
  | S fuel' =>
      if i + 1 <? blen buf then
        match get buf i, get buf (i + 1) with
        | Some a, Some b =>
            if (a =b CR) && (b =b LF) then Some i else swar_tail fuel' buf (i + 1)
        | _, _ => None
        end
      else None
  end.

(** The word loop [while i + 8 < n]. *)
Fixpoint swar_words (fuel : nat) (buf : list byte) (i : Z) : option Z :=
  match fuel with
  | O => None
  | S fuel' =>
      if i + 8 <? blen buf then
        let zeroed := swar_zeroed (from_le_bytes (slice buf i (i + 8))) in
        if negb (zeroed =? 0) then
          let bit_idx := trailing_zeros 64 zeroed in
          let pos := i + bit_idx / 8 in
          match get buf (pos + 1) with
          | Some b => if b =b LF then Some pos else swar_words fuel' buf (pos + 1)
          | None => None
          end
        else swar_words fuel' buf (i + 8)
      else swar_tail fuel buf i
  end.

Definition find_crlf_swar (buf : list byte) (start : Z) : option Z :=
  if blen buf <=? start + 1 then None
  else swar_words (S (length buf)) buf start.

(** ** [find_crlf_avx2] *)

(** [_mm256_movemask_epi8 (_mm256_cmpeq_epi8 chunk cr)]: bit [j] is set when
    byte [j] of the chunk is a CR. *)
Fixpoint movemask_cr (l : list byte) : Z :=
  match l with
  | [] => 0
  | b :: r => (if b =b CR then 1 else 0) + 2 * movemask_cr r
  end.

Fixpoint avx2_loop (fuel : nat) (buf : list byte) (i : Z) : option Z :=
  match fuel with
  | O => None
  | S fuel' =>
      if i + 32 <? blen buf then
        let mask := movemask_cr (slice buf i (i + 32)) in
        if negb (mask =? 0) then
          let pos := i + trailing_zeros 32 mask in
          match get buf (pos + 1) with
          | Some b => if b =b LF then Some pos else avx2_loop fuel' buf (pos + 1)
          | None => None
          end
        else avx2_loop fuel' buf (i + 32)
      else find_crlf_swar buf i
  end.

Definition find_crlf_avx2 (buf : list byte) (start : Z) : option Z :=
  if blen buf <=? start + 1 then None
  else avx2_loop (S (length buf)) buf start.

(** ** [find_crlf_neon] *)

(** The scalar scan [for j in 0..16] over a chunk known to hold a CR. *)
Fixpoint neon_scan (js : nat) (buf : list byte) (p : Z) : option (option Z) :=
  match js with
  | O => None
  | S js' =>
      match get buf p with
      | Some a =>
          if a =b CR then
            match get buf (p + 1) with
            | Some b =>
                Some (if b =b LF then Some p else find_crlf_swar buf (p + 1))
            | None => Some None
            end
          else neon_scan js' buf (p + 1)
      | None => None
      end
  end.

(** [vmaxvq_u8 (vceqq_u8 chunk cr) != 0] *)
Definition any_cr (l : list byte) : bool := existsb (fun b => b =b CR) l.

Fixpoint neon_loop (fuel : nat) (buf : list byte) (i : Z) : option Z :=
  match fuel with
  | O => None
  | S fuel' =>
      if i + 16 <? blen buf then
        if any_cr (slice buf i (i + 16)) then
          match neon_scan 16 buf i with
          | Some r => r
          | None => neon_loop fuel' buf (i + 16)
          end
        else neon_loop fuel' buf (i + 16)
      else find_crlf_swar buf i
  end.

Definition find_crlf_neon (buf : list byte) (start : Z) : option Z :=
  if blen buf <=? start + 1 then None
  else neon_loop (S (length buf)) buf start.

(** ** Dispatch *)

Inductive cpu := X86_64 (has_avx2 : bool) | Aarch64 | OtherArch.

Definition find_crlf_on (c : cpu) (buf : list byte) (start : Z) : option Z :=
  match c with
  | X86_64 true => find_crlf_avx2 buf start
  | Aarch64 => find_crlf_neon buf start
  | _ => find_crlf_swar buf start
  end.

(** ** The scan on suffixes *)

Lemma crlf_short buf i : 0 <= i -> blen buf <= i + 1 -> crlf_from (from buf i) i = None.
Proof.
  intros Hi H. destruct (from buf i) as [|a [|b r]] eqn:E; try reflexivity.
  assert (Hl : blen (from buf i) >= 2)
    by (rewrite E, !blen_cons; pose proof (blen_nonneg r); lia).
  destruct (Z.le_gt_cases i (blen buf)).
  - rewrite blen_from in Hl by lia. lia.
  - rewrite from_ge in E by lia. discriminate.
Qed.

Lemma crlf_unfold buf i a b :
  0 <= i -> get buf i = Some a -> get buf (i + 1) = Some b ->
  crlf_from (from buf i) i =
    if (a =b CR) && (b =b LF) then Some i else crlf_from (from buf (i + 1)) (i + 1).
Proof.
  intros Hi Ha Hb. rewrite (from_cons_get _ _ _ Hi Ha).
  rewrite (from_cons_get buf (i + 1) b) by (auto; lia). reflexivity.
Qed.

Lemma crlf_skip_one buf i a :
  0 <= i -> i + 1 < blen buf -> get buf i = Some a -> a <> CR ->
  crlf_from (from buf i) i = crlf_from (from buf (i + 1)) (i + 1).
Proof.
  intros Hi Hn Ha Hne. destruct (get_lt_Some buf (i + 1)) as [b Hb]; [lia|].
  rewrite (crlf_unfold _ _ _ _ Hi Ha Hb).
  destruct (byte_eqb_spec a CR); [contradiction | reflexivity].
Qed.

Lemma crlf_skip buf (k : nat) : forall i,
  0 <= i -> i + Z.of_nat k < blen buf ->
  (forall j, i <= j < i + Z.of_nat k -> get buf j <> Some CR) ->
  crlf_from (from buf i) i = crlf_from (from buf (i + Z.of_nat k)) (i + Z.of_nat k).
Proof.
  induction k as [|k IH]; intros i Hi Hn Hno.
  - rewrite Z.add_0_r. reflexivity.
  - destruct (get_lt_Some buf i) as [a Ha]; [lia|].
    assert (a <> CR) by (intros ->; apply (Hno i); [lia | exact Ha]).
    rewrite (crlf_skip_one buf i a) by (auto; lia).
    rewrite (IH (i + 1)); [|lia|lia|intros j Hj; apply Hno; lia].
    f_equal; [f_equal|]; lia.
Qed.

Lemma crlf_at_cr buf p b :
  0 <= p -> get buf p = Some CR -> get buf (p + 1) = Some b ->
  crlf_from (from buf p) p =
    if b =b LF then Some p else crlf_from (from buf (p + 1)) (p + 1).
Proof. intros Hp Hc Hb. rewrite (crlf_unfold _ _ _ _ Hp Hc Hb). reflexivity. Qed.

(** The first CR of a chunk decides the scan. *)
Lemma crlf_first buf i (j : nat) b :
  0 <= i -> get buf (i + Z.of_nat j) = Some CR -> get buf (i + Z.of_nat j + 1) = Some b ->
  (forall q, i <= q < i + Z.of_nat j -> get buf q <> Some CR) ->
  crlf_from (from buf i) i =
    if b =b LF then Some (i + Z.of_nat j)
    else crlf_from (from buf (i + Z.of_nat j + 1)) (i + Z.of_nat j + 1).
Proof.
  intros Hi Hc Hb Hno.
  pose proof (get_Some_lt buf (i + Z.of_nat j) CR ltac:(lia) Hc).
  rewrite (crlf_skip buf j i) by (auto; lia). apply crlf_at_cr; auto; lia.
Qed.

Lemma get_slice {A} (l : list A) s e j :
  0 <= s -> 0 <= j < e - s -> get (slice l s e) j = get l (s + j).
Proof.
  intros. unfold get, slice. rewrite lookup_take_lt by lia. rewrite lookup_drop. f_equal. lia.
Qed.

(** ** First CR of a byte list *)

Fixpoint first_cr (l : list byte) : option nat :=
  match l with
  | [] => None
  | b :: r => if b =b CR then Some O else S <$> first_cr r
  end.

Lemma first_cr_Some l j :
  first_cr l = Some j ->
  l !! j = Some CR /\ (forall k, (k < j)%nat -> l !! k <> Some CR) /\ (j < length l)%nat.
Proof.
  revert j. induction l as [|b l IH]; intros j H; [discriminate|]. cbn in H.
  destruct (byte_eqb_spec b CR) as [->|Hne].
  - injection H as <-. cbn. repeat split; auto; lia.
  - destruct (first_cr l) as [j'|]; [|discriminate]. injection H as <-.
    destruct (IH j' eq_refl) as (H1 & H2 & H3). cbn. repeat split; auto; [|lia].
    intros [|k] Hk; cbn; [congruence | apply H2; lia].
Qed.

Lemma first_cr_None l : first_cr l = None -> forall k, l !! k <> Some CR.
Proof.
  induction l as [|b l IH]; intros H k; [destruct k; discriminate|]. cbn in H.
  destruct (byte_eqb_spec b CR) as [->|Hne]; [discriminate|].
  destruct (first_cr l) eqn:E; [discriminate|].
  destruct k; cbn; [congruence | apply IH; reflexivity].
Qed.

(** A chunk of [w] bytes at [i], with a byte left after it: the scan either
    jumps over the chunk or is decided at its first CR. *)
Lemma crlf_chunk buf i (w : nat) :
  0 <= i -> i + Z.of_nat w < blen buf ->
  match first_cr (slice buf i (i + Z.of_nat w)) with
  | None => crlf_from (from buf i) i = crlf_from (from buf (i + Z.of_nat w)) (i + Z.of_nat w)
  | Some j =>
      (j < w)%nat /\ exists b, get buf (i + Z.of_nat j + 1) = Some b /\
      get buf (i + Z.of_nat j) = Some CR /\
      (forall q, i <= q < i + Z.of_nat j -> get buf q <> Some CR) /\
      crlf_from (from buf i) i =
        if b =b LF then Some (i + Z.of_nat j)
        else crlf_from (from buf (i + Z.of_nat j + 1)) (i + Z.of_nat j + 1)
  end.
Proof.
  intros Hi Hn.
  assert (Hg : forall k, (k < w)%nat ->
            slice buf i (i + Z.of_nat w) !! k = get buf (i + Z.of_nat k)).
  { intros k Hk. rewrite <- (get_slice buf i (i + Z.of_nat w)) by lia.
    unfold get. f_equal. lia. }
  assert (Hl : length (slice buf i (i + Z.of_nat w)) = w).
  { pose proof (blen_slice buf i (i + Z.of_nat w)). unfold blen in *. lia. }
  destruct (first_cr _) as [j|] eqn:E.
  - destruct (first_cr_Some _ _ E) as (Hj & Hno & Hlt). rewrite Hl in Hlt. split; [lia|].
    destruct (get_lt_Some buf (i + Z.of_nat j + 1)) as [b Hb]; [lia|].
    assert (Hq : forall q, i <= q < i + Z.of_nat j -> get buf q <> Some CR).
    { intros q Hq. specialize (Hno (Z.to_nat (q - i))). rewrite Hg in Hno by lia.
      rewrite Z2Nat.id in Hno by lia. replace (i + (q - i)) with q in Hno by lia.
      apply Hno. lia. }
    rewrite Hg in Hj by lia.
    exists b. repeat split; auto. apply crlf_first; auto.
  - apply crlf_skip; auto. intros q Hq.
    pose proof (first_cr_None _ E (Z.to_nat (q - i))) as H. rewrite Hg in H by lia.
    rewrite Z2Nat.id in H by lia. replace (i + (q - i)) with q in H by lia. exact H.
Qed.

(** ** The SWAR word test *)

Lemma testbit_digit_high a n : 0 <= a < 256 -> 8 <= n -> Z.testbit a n = false.
Proof.
  intros Ha Hn. rewrite <- (Z.mod_small a (2 ^ 8)) by lia.
  apply Z.mod_pow2_bits_high. lia.
Qed.

Lemma testbit_digit a A n :
  0 <= a < 256 -> 0 <= n ->
  Z.testbit (a + 256 * A) n = if n <? 8 then Z.testbit a n else Z.testbit A (n - 8).
Proof.
  intros Ha Hn.
  assert (E : a + 256 * A = Z.lor a (Z.shiftl A 8)).
  { rewrite Z.shiftl_mul_pow2 by lia. pose proof (Z.add_lor_land a (A * 2 ^ 8)).
    enough (Z.land a (A * 2 ^ 8) = 0) by lia.
    apply Z.bits_inj'. intros m Hm. rewrite Z.land_spec, Z.bits_0.
    destruct (Z.lt_ge_cases m 8).
    - rewrite Z.mul_pow2_bits_low by lia. apply andb_false_r.
    - rewrite testbit_digit_high by lia. reflexivity. }
  rewrite E, Z.lor_spec, Z.shiftl_spec by lia.
  destruct (Z.ltb_spec n 8).
  - rewrite (Z.testbit_neg_r A) by lia. apply orb_false_r.
  - rewrite testbit_digit_high by lia. reflexivity.
Qed.

Lemma byte_range_check (P : Z -> bool) :
  forallb (fun n => P (Z.of_nat n)) (seq 0 256) = true -> forall a, 0 <= a < 256 -> P a = true.
Proof.
  intros H a Ha. rewrite forallb_forall in H. specialize (H (Z.to_nat a)).
  rewrite Z2Nat.id in H by lia. apply H. apply in_seq. lia.
Qed.

Lemma land_range a b : 0 <= a < 256 -> 0 <= b < 256 -> 0 <= Z.land a b < 256.
Proof.
  intros Ha Hb. split; [apply Z.land_nonneg; lia|].
  assert (H : Z.land a b = Z.land a b mod 256); [|rewrite H; apply Z.mod_pos_bound; lia].
  change 256 with (2 ^ 8). rewrite <- Z.land_ones, <- Z.land_assoc by lia. f_equal.
  rewrite Z.land_ones by lia. symmetry. apply Z.mod_small. lia.
Qed.

Lemma lxor_range a b : 0 <= a < 256 -> 0 <= b < 256 -> 0 <= Z.lxor a b < 256.
Proof.
  intros Ha Hb. split; [apply Z.lxor_nonneg; lia|].
  assert (H : Z.lxor a b = Z.lxor a b mod 256); [|rewrite H; apply Z.mod_pos_bound; lia].
  change 256 with (2 ^ 8). rewrite <- Z.land_ones by lia. symmetry.
  apply Z.bits_inj'. intros n Hn. rewrite Z.land_spec, Z.testbit_ones_nonneg by lia.
  destruct (Z.ltb_spec n 8); [apply andb_true_r|]. rewrite andb_false_r, Z.lxor_spec.
  rewrite !testbit_digit_high by lia. reflexivity.
Qed.

Lemma land_digit a A b B :
  0 <= a < 256 -> 0 <= b < 256 ->
  Z.land (a + 256 * A) (b + 256 * B) = Z.land a b + 256 * Z.land A B.
Proof.
  intros Ha Hb. apply Z.bits_inj'. intros n Hn.
  pose proof (land_range a b Ha Hb).
  rewrite Z.land_spec, !testbit_digit by lia.
  destruct (n <? 8); rewrite Z.land_spec; reflexivity.
Qed.

Lemma lxor_digit a A b B :
  0 <= a < 256 -> 0 <= b < 256 ->
  Z.lxor (a + 256 * A) (b + 256 * B) = Z.lxor a b + 256 * Z.lxor A B.
Proof.
  intros Ha Hb. apply Z.bits_inj'. intros n Hn.
  pose proof (lxor_range a b Ha Hb).
  rewrite Z.lxor_spec, !testbit_digit by lia.
  destruct (n <? 8); rewrite Z.lxor_spec; reflexivity.
Qed.

(** The first [p] of [l]. *)
Fixpoint first_byte (p : byte) (l : list byte) : option nat :=
  match l with
  | [] => None
  | b :: r => if b =b p then Some O else S <$> first_byte p r
  end.

(** The test word for [p] over [k] bytes; [swar_zeroed] is the case of CR and
    [k = 8]. *)
Definition zeroed (p : byte) (k : nat) (word : Z) : Z :=
  let x := Z.lxor word (from_le_bytes (replicate k p)) in
  Z.land (Z.land ((x - from_le_bytes (replicate k x01)) mod 256 ^ Z.of_nat k)
                 (256 ^ Z.of_nat k - 1 - x))
         (from_le_bytes (replicate k x80)).

Lemma swar_zeroed_8 word : swar_zeroed word = zeroed CR 8 word.
Proof. reflexivity. Qed.

Lemma mod_digit a A M : 0 <= a < 256 -> 0 < M -> (a + 256 * A) mod (256 * M) = a + 256 * (A mod M).
Proof.
  intros Ha HM. rewrite Z.rem_mul_r by lia.
  replace (a + 256 * A) with (a + A * 256) by lia.
  rewrite Z.mod_add, Z.div_add, (Z.mod_small a 256), (Z.div_small a 256) by lia.
  rewrite Z.add_0_l. reflexivity.
Qed.

Lemma mark_bits : bz x01 = 1 /\ bz x80 = 128.
Proof. repeat split. Qed.

Lemma lxor_byte_zero p b : Z.lxor (bz b) (bz p) = 0 <-> b = p.
Proof.
  rewrite Z.lxor_eq_0_iff. split; [|intros ->; reflexivity].
  intros H. by apply bz_inj.
Qed.

Lemma zeroed_cons_other p k b word :
  b <> p -> zeroed p (S k) (bz b + 256 * word) = 256 * zeroed p k word.
Proof.
  intros Hne. unfold zeroed. cbn [replicate from_le_bytes].
  destruct mark_bits as (-> & ->). pose proof (bz_range b). pose proof (bz_range p).
  rewrite lxor_digit by lia. pose proof (lxor_range (bz b) (bz p) ltac:(lia) ltac:(lia)) as Hr.
  pose proof (lxor_byte_zero p b). set (x := Z.lxor (bz b) (bz p)) in *.
  assert (Hx : x <> 0) by tauto.
  set (X := Z.lxor word _). set (O := from_le_bytes (replicate k x01)).
  rewrite Nat2Z.inj_succ, Z.pow_succ_r by lia. set (M := 256 ^ Z.of_nat k).
  assert (0 < M) by (apply Z.pow_pos_nonneg; lia).
  replace (x + 256 * X - (1 + 256 * O)) with ((x - 1) + 256 * (X - O)) by lia.
  rewrite mod_digit by lia.
  replace (256 * M - 1 - (x + 256 * X)) with ((255 - x) + 256 * (M - 1 - X)) by lia.
  rewrite !land_digit; try apply land_range; try lia.
  assert (Z.land (Z.land (x - 1) (255 - x)) 128 = 0) as ->; [|lia].
  apply Z.eqb_eq.
  refine (_ (byte_range_check
    (fun a => (a =? 0) || (Z.land (Z.land (a - 1) (255 - a)) 128 =? 0)) eq_refl x Hr)).
  intros [Ez | Ez]%orb_true_iff; [apply Z.eqb_eq in Ez; contradiction | exact Ez].
Qed.

Lemma zeroed_cons_hit p k word :
  exists Y, zeroed p (S k) (bz p + 256 * word) = 128 + 256 * Y.
Proof.
  unfold zeroed. cbn [replicate from_le_bytes].
  destruct mark_bits as (-> & ->). pose proof (bz_range p).
  rewrite lxor_digit, Z.lxor_nilpotent by lia.
  set (X := Z.lxor word _). set (O := from_le_bytes (replicate k x01)).
  rewrite Nat2Z.inj_succ, Z.pow_succ_r by lia. set (M := 256 ^ Z.of_nat k).
  assert (0 < M) by (apply Z.pow_pos_nonneg; lia).
  replace (0 + 256 * X - (1 + 256 * O)) with (255 + 256 * (X - O - 1)) by lia.
  rewrite mod_digit by lia.
  replace (256 * M - 1 - (0 + 256 * X)) with (255 + 256 * (M - 1 - X)) by lia.
  rewrite (land_digit 255 _ 255) by lia. change (Z.land 255 255) with 255.
  rewrite (land_digit 255 _ 128) by lia. eexists. reflexivity.
Qed.

Lemma trailing_zeros_step (w : nat) y :
  trailing_zeros (S w) (2 * y) = 1 + trailing_zeros w y.
Proof.
  cbn [trailing_zeros]. rewrite Z.odd_mul. cbn [Z.odd andb].
  rewrite (Z.mul_comm 2), Z.div_mul by lia. reflexivity.
Qed.

Lemma trailing_zeros_256 (w : nat) y :
  trailing_zeros (8 + w) (256 * y) = 8 + trailing_zeros w y.
Proof.
  replace (256 * y) with (2 * (2 * (2 * (2 * (2 * (2 * (2 * (2 * y)))))))) by lia.
  cbn [Nat.add]. rewrite !trailing_zeros_step. lia.
Qed.

Lemma trailing_zeros_128 (w : nat) y : trailing_zeros (8 + w) (128 + 256 * y) = 7.
Proof.
  replace (128 + 256 * y) with (2 * (2 * (2 * (2 * (2 * (2 * (2 * (1 + 2 * y)))))))) by lia.
  cbn [Nat.add]. rewrite !trailing_zeros_step. cbn [trailing_zeros].
  rewrite Z.odd_add_mul_2. reflexivity.
Qed.

(** The lowest set bit of the test word lies in the first [p] of the word. *)
Lemma zeroed_first p l :
  match first_byte p l with
  | None => zeroed p (length l) (from_le_bytes l) = 0
  | Some j => zeroed p (length l) (from_le_bytes l) <> 0 /\
              trailing_zeros (8 * length l) (zeroed p (length l) (from_le_bytes l))
              = 8 * Z.of_nat j + 7
  end.
Proof.
  induction l as [|b l IH]; [reflexivity|]. cbn [first_byte from_le_bytes length].
  replace (8 * S (length l))%nat with (8 + 8 * length l)%nat by lia.
  destruct (byte_eqb_spec b p) as [->|Hne].
  - destruct (zeroed_cons_hit p (length l) (from_le_bytes l)) as [Y ->].
    rewrite trailing_zeros_128. lia.
  - rewrite zeroed_cons_other by assumption.
    destruct (first_byte p l) as [j|]; cbn [fmap option_fmap option_map].
    + destruct IH as [IH1 IH2]. rewrite trailing_zeros_256, IH2. lia.
    + rewrite IH. reflexivity.
Qed.

Lemma first_cr_byte l : first_cr l = first_byte CR l.
Proof. induction l as [|b l IH]; cbn; [reflexivity|]. by rewrite IH. Qed.

Lemma movemask_first_cr l :
  match first_cr l with
  | None => movemask_cr l = 0
  | Some j => 0 < movemask_cr l /\ trailing_zeros (length l) (movemask_cr l) = Z.of_nat j
  end.
Proof.
  induction l as [|b l IH]; [reflexivity|].
  assert (Hn : forall r, 0 <= movemask_cr r)
    by (induction r as [|c r IHr]; cbn; [lia | destruct (c =b CR); lia]).
  cbn [first_cr movemask_cr length]. destruct (byte_eqb_spec b CR) as [->|Hne].
  - split; [specialize (Hn l); lia|]. cbn [trailing_zeros].
    rewrite Z.odd_add_mul_2. reflexivity.
  - rewrite Z.add_0_l. destruct (first_cr l) as [j|]; cbn [fmap option_fmap option_map].
    + destruct IH as [IH1 IH2]. rewrite trailing_zeros_step, IH2. lia.
    + lia.
Qed.

(** ** The kernels equal the reference scan *)

Lemma swar_tail_ok buf (fuel : nat) : forall i,
  0 <= i -> blen buf - i < Z.of_nat fuel -> swar_tail fuel buf i = crlf_from (from buf i) i.
Proof.
  induction fuel as [|fuel IH]; intros i Hi Hf; cbn [swar_tail].
  - rewrite crlf_short; auto; lia.
  - destruct (Z.ltb_spec (i + 1) (blen buf)); [|rewrite crlf_short; auto].
    destruct (get_lt_Some buf i) as [a Ha]; [lia|].
    destruct (get_lt_Some buf (i + 1)) as [b Hb]; [lia|].
    rewrite Ha, Hb, (crlf_unfold _ _ _ _ Hi Ha Hb).
    destruct (_ && _); [reflexivity | apply IH; lia].
Qed.

Lemma swar_words_ok buf (fuel : nat) : forall i,
  0 <= i -> blen buf - i < Z.of_nat fuel -> swar_words fuel buf i = crlf_from (from buf i) i.
Proof.
  induction fuel as [|fuel IH]; intros i Hi Hf; [rewrite crlf_short; auto; lia|].
  cbn [swar_words]. destruct (Z.ltb_spec (i + 8) (blen buf)) as [Hw|Hw];
    [|apply swar_tail_ok; lia].
  pose proof (crlf_chunk buf i 8 Hi Hw) as Hc.
  pose proof (zeroed_first CR (slice buf i (i + 8))) as Hz. rewrite <- first_cr_byte in Hz.
  assert (Hl : length (slice buf i (i + 8)) = 8%nat)
    by (pose proof (blen_slice buf i (i + 8)); unfold blen in *; lia).
  rewrite Hl, <- swar_zeroed_8 in Hz. change (Z.of_nat 8) with 8 in Hc.
  destruct (first_cr _) as [j|].
  - destruct Hc as (Hj & b & Hb & Hcr & _ & ->), Hz as [Hz1 Hz2].
    destruct (Z.eqb_spec (swar_zeroed (from_le_bytes (slice buf i (i + 8)))) 0); [contradiction|].
    cbn [negb]. change (8 * 8)%nat with 64%nat in Hz2. rewrite Hz2.
    replace ((8 * Z.of_nat j + 7) / 8) with (Z.of_nat j)
      by (rewrite Z.mul_comm, Z.div_add_l by lia; change (7 / 8) with 0; lia).
    rewrite Hb. destruct (b =b LF); [reflexivity | apply IH; lia].
  - rewrite Hz, Hc. cbn [Z.eqb negb]. apply IH; lia.
Qed.

Lemma find_crlf_swar_ok buf start :
  0 <= start -> find_crlf_swar buf start = crlf_from (from buf start) start.
Proof.
  intros H. unfold find_crlf_swar. destruct (Z.leb_spec (blen buf) (start + 1)).
  - rewrite crlf_short; auto.
  - apply swar_words_ok; auto. unfold blen in *. lia.
Qed.

Lemma avx2_loop_ok buf (fuel : nat) : forall i,
  0 <= i -> blen buf - i < Z.of_nat fuel -> avx2_loop fuel buf i = crlf_from (from buf i) i.
Proof.
  induction fuel as [|fuel IH]; intros i Hi Hf; [rewrite crlf_short; auto; lia|].
  cbn [avx2_loop]. destruct (Z.ltb_spec (i + 32) (blen buf)) as [Hw|Hw];
    [|apply find_crlf_swar_ok; lia].
  pose proof (crlf_chunk buf i 32 Hi Hw) as Hc.
  pose proof (movemask_first_cr (slice buf i (i + 32))) as Hz.
  assert (Hl : length (slice buf i (i + 32)) = 32%nat)
    by (pose proof (blen_slice buf i (i + 32)); unfold blen in *; lia).
  rewrite Hl in Hz. change (Z.of_nat 32) with 32 in Hc.
  destruct (first_cr _) as [j|].
  - destruct Hc as (Hj & b & Hb & Hcr & _ & ->), Hz as [Hz1 Hz2].
    destruct (Z.eqb_spec (movemask_cr (slice buf i (i + 32))) 0); [lia|].
    cbn [negb]. rewrite Hz2, Hb. destruct (b =b LF); [reflexivity | apply IH; lia].
  - rewrite Hz, Hc. cbn [Z.eqb negb]. apply IH; lia.
Qed.

Lemma neon_scan_ok buf (js : nat) : forall p (j : nat) b,
  0 <= p -> (j < js)%nat ->
  get buf (p + Z.of_nat j) = Some CR -> get buf (p + Z.of_nat j + 1) = Some b ->
  (forall q, p <= q < p + Z.of_nat j -> get buf q <> Some CR) ->
  neon_scan js buf p =
    Some (if b =b LF then Some (p + Z.of_nat j)
          else crlf_from (from buf (p + Z.of_nat j + 1)) (p + Z.of_nat j + 1)).
Proof.
  induction js as [|js IH]; intros p j b Hp Hj Hc Hb Hno; [lia|]. cbn [neon_scan].
  destruct j as [|j].
  - rewrite Z.add_0_r in *. rewrite Hc, Hb. cbn [Byte.eqb].
    destruct (byte_eqb_spec CR CR); [|congruence].
    destruct (b =b LF); [reflexivity|]. rewrite find_crlf_swar_ok by lia. reflexivity.
  - replace (p + Z.of_nat (S j)) with (p + 1 + Z.of_nat j) in * by lia.
    pose proof (get_Some_lt buf (p + 1 + Z.of_nat j) CR ltac:(lia) Hc).
    destruct (get_lt_Some buf p) as [a Ha]; [lia|]. rewrite Ha.
    destruct (byte_eqb_spec a CR) as [->|]; [destruct (Hno p); [lia | exact Ha]|].
    apply IH; auto; [lia | lia | intros q Hq; apply Hno; lia].
Qed.

Lemma any_cr_first l : any_cr l = match first_cr l with Some _ => true | None => false end.
Proof.
  induction l as [|b l IH]; [reflexivity|]. unfold any_cr in *. cbn. rewrite IH.
  destruct (b =b CR); [reflexivity|]. destruct (first_cr l); reflexivity.
Qed.

Lemma neon_loop_ok buf (fuel : nat) : forall i,
  0 <= i -> blen buf - i < Z.of_nat fuel -> neon_loop fuel buf i = crlf_from (from buf i) i.
Proof.
  induction fuel as [|fuel IH]; intros i Hi Hf; [rewrite crlf_short; auto; lia|].
  cbn [neon_loop]. destruct (Z.ltb_spec (i + 16) (blen buf)) as [Hw|Hw];
    [|apply find_crlf_swar_ok; lia].
  pose proof (crlf_chunk buf i 16 Hi Hw) as Hc. change (Z.of_nat 16) with 16 in Hc.
  rewrite any_cr_first. destruct (first_cr _) as [j|].
  - destruct Hc as (Hj & b & Hb & Hcr & Hno & ->).
    rewrite (neon_scan_ok buf 16 i j b); auto.
  - rewrite Hc. apply IH; lia.
Qed.

(** ** Instances: each dispatch outcome is a correct scanner *)

Lemma find_crlf_on_ok (c : cpu) buf start :
  0 <= start -> find_crlf_on c buf start = crlf_from (from buf start) start.
Proof.
  intros H. destruct c as [[]| |]; cbn [find_crlf_on];
    try (apply find_crlf_swar_ok; exact H).
  - unfold find_crlf_avx2. destruct (Z.leb_spec (blen buf) (start + 1)).
    + rewrite crlf_short; auto.
    + apply avx2_loop_ok; auto. unfold blen in *. lia.
  - unfold find_crlf_neon. destruct (Z.leb_spec (blen buf) (start + 1)).
    + rewrite crlf_short; auto.
    + apply neon_loop_ok; auto. unfold blen in *. lia.
Qed.

Definition scanner_on (c : cpu) : CrlfScanner :=
  {| find_crlf := find_crlf_on c; find_crlf_ok := find_crlf_on_ok c |}.

(** [p] is the first position at or after [start] that holds [\r\n]. *)
Definition first_crlf (buf : list byte) (start p : Z) : Prop :=
  start <= p /\ get buf p = Some CR /\ get buf (p + 1) = Some LF /\
  forall q, start <= q < p -> ~ (get buf q = Some CR /\ get buf (q + 1) = Some LF).

Lemma crlf_from_first l : forall buf i p,
  0 <= i -> l = from buf i -> crlf_from l i = Some p -> first_crlf buf i p.
Proof.
  induction l as [|a l IH]; intros buf i p Hi El H; [discriminate|].
  destruct l as [|b l]; [discriminate|]. cbn in H.
  assert (Ha : get buf i = Some a).
  { rewrite <- (Z.add_0_r i), <- get_from, <- El by lia. reflexivity. }
  assert (Hb : get buf (i + 1) = Some b).
  { rewrite <- get_from, <- El by lia. reflexivity. }
  assert (Hl : b :: l = from buf (i + 1)).
  { rewrite <- from_from, <- El by lia. reflexivity. }
  destruct (byte_eqb_spec a CR) as [->|Hne], (byte_eqb_spec b LF) as [->|Hne2];
    cbn in H; [injection H as <-; repeat split; auto; lia|..];
    destruct (IH buf (i + 1) p ltac:(lia) Hl H) as (H1 & H2 & H3 & H4);
    repeat split; auto; try lia; intros q Hq [Hq1 Hq2];
    (destruct (Z.eq_dec q i) as [->|]; [congruence | apply (H4 q); auto; lia]).
Qed.

Lemma crlf_from_none l : forall buf i,
  0 <= i -> l = from buf i -> crlf_from l i = None ->
  forall q, i <= q -> ~ (get buf q = Some CR /\ get buf (q + 1) = Some LF).
Proof.
  induction l as [|a l IH]; intros buf i Hi El H q Hq [Hq1 Hq2].
  - pose proof (get_Some_lt buf q CR ltac:(lia) Hq1).
    pose proof (blen_from buf i ltac:(lia)) as Hb. rewrite <- El, blen_nil in Hb. lia.
  - assert (Hl : l = from buf (i + 1)).
    { rewrite <- from_from, <- El by lia. reflexivity. }
    assert (Ha : get buf i = Some a).
    { rewrite <- (Z.add_0_r i), <- get_from, <- El by lia. reflexivity. }
    assert (Hne : forall b, get buf (i + 1) = Some b -> a = CR -> b <> LF).
    { intros b Hb -> ->. assert (Hh : get l 0 = Some LF).
      { rewrite Hl, get_from, Z.add_0_r by lia. exact Hb. }
      destruct l as [|b l]; [discriminate|]. injection Hh as ->. discriminate. }
    destruct (Z.eq_dec q i) as [->|]; [apply (Hne LF); congruence|].
    apply (IH buf (i + 1) ltac:(lia) Hl) with (q := q); auto; [|lia].
    destruct l as [|b l]; [reflexivity|]. cbn in H.
    destruct ((a =b CR) && (b =b LF)); [discriminate | exact H].
Qed.

(** whatever kernel the dispatcher picks (AVX2, NEON or the [u64] SWAR
    fallback), [find_crlf] returns the first [\r\n] at or after [start], and
    [None] only when there is none. *)
Theorem find_crlf_finds_first (c : cpu) (buf : list byte) (start : Z) (H : 0 <= start) :
  match find_crlf_on c buf start with
  | Some p => first_crlf buf start p
  | None => forall q, start <= q -> ~ (get buf q = Some CR /\ get buf (q + 1) = Some LF)
  end.
Proof.
  rewrite find_crlf_on_ok by exact H.
  destruct (crlf_from _ start) as [p|] eqn:E.
  - eapply crlf_from_first; eauto.
  - eapply crlf_from_none; eauto.
Qed.

Lemma find_crlf_finds_first_witness :
  find_crlf_on (X86_64 true) (bs "SET key 0123456789012345678901234567890" ++ CR :: CRLF) 4
  = Some 40 /\
  first_crlf (bs "SET key 0123456789012345678901234567890" ++ CR :: CRLF) 4 40.
Proof.
  split; [vm_compute; reflexivity|].
  pose proof (find_crlf_finds_first (X86_64 true)
    (bs "SET key 0123456789012345678901234567890" ++ CR :: CRLF) 4 ltac:(lia)) as H.
  replace (find_crlf_on _ _ _) with (Some 40) in H by (vm_compute; reflexivity).
  exact H.
Defined.

(** ** Lines

    [line_ok h]: the first [\r\n] of [h ++ CRLF] is the final one, so a scan
    that starts at [h] stops exactly after [h]. *)
Definition line_ok (h : list byte) : Prop := crlf_from (h ++ CRLF) 0 = Some (blen h).

Lemma crlf_from_cons2 a b l i :
  crlf_from (a :: b :: l) i =
    if (a =b CR) && (b =b LF) then Some i else crlf_from (b :: l) (i + 1).
Proof. reflexivity. Qed.

Lemma crlf_from_shift l : forall i, crlf_from l i = (fun p => i + p) <$> crlf_from l 0.
Proof.
  induction l as [|a l IH]; intros i; [reflexivity|].
  destruct l as [|b l]; [reflexivity|]. rewrite !crlf_from_cons2.
  destruct (_ && _); cbn [fmap option_fmap option_map]; [f_equal; lia|].
  rewrite (IH (i + 1)), (IH (0 + 1)). destruct (crlf_from (b :: l) 0); [|reflexivity].
  cbn. f_equal. lia.
Qed.

Lemma crlf_from_extend l more : forall i p,
  crlf_from l i = Some p -> crlf_from (l ++ more) i = Some p.
Proof.
  induction l as [|a l IH]; intros i p H; [discriminate|].
  destruct l as [|b l]; [discriminate|]. cbn [app]. rewrite crlf_from_cons2 in *.
  destruct (_ && _); [exact H|]. apply (IH _ _ H).
Qed.

Lemma line_ok_scan h rest i :
  line_ok h -> crlf_from (h ++ CRLF ++ rest) i = Some (i + blen h).
Proof.
  intros H. rewrite app_assoc, crlf_from_shift.
  rewrite (crlf_from_extend _ rest _ _ H). reflexivity.
Qed.

Lemma line_ok_nil : line_ok [].
Proof. reflexivity. Qed.

Lemma line_ok_cons a h :
  line_ok h -> (a = CR -> head (h ++ CRLF) <> Some LF) -> line_ok (a :: h).
Proof.
  intros H Ha. unfold line_ok in *. cbn [app].
  destruct (h ++ CRLF) as [|b r] eqn:E; [discriminate|]. rewrite crlf_from_cons2.
  destruct (byte_eqb_spec a CR) as [->|], (byte_eqb_spec b LF) as [->|]; cbn [andb];
    try (rewrite crlf_from_shift, H; cbn; f_equal; rewrite blen_cons; lia).
  exfalso. apply Ha; reflexivity.
Qed.

Lemma crlf_from_split l : forall i p,
  crlf_from l i = Some p ->
  exists h rest, l = h ++ CRLF ++ rest /\ line_ok h /\ p = i + blen h.
Proof.
  induction l as [|a l IH]; intros i p H; [discriminate|].
  destruct l as [|b l]; [discriminate|]. rewrite crlf_from_cons2 in H.
  destruct ((a =b CR) && (b =b LF)) eqn:E.
  - apply andb_true_iff in E as [E1 E2].
    destruct (byte_eqb_spec a CR) as [->|]; [|discriminate].
    destruct (byte_eqb_spec b LF) as [->|]; [|discriminate].
    injection H as <-. exists [], l. repeat split. rewrite blen_nil. lia.
  - destruct (IH _ _ H) as (h & rest & El & Hok & ->). exists (a :: h), rest.
    rewrite El. repeat split; [|rewrite blen_cons; lia].
    apply line_ok_cons; [exact Hok|]. intros -> Hh.
    assert (b = LF) as ->; [|discriminate E].
    destruct h; injection El as -> _; injection Hh as ->; reflexivity.
Qed.
