(* ===== verification/Buffers.v ===== *)
(** * Byte buffers

    Fixed-width little-endian integers, and the writes Rust makes into a
    [&mut [u8]]: one byte, [copy_from_slice], [copy_within] and [fill], each of
    which panics outside the buffer.  Every write is a [splice], and a slice of
    a spliced buffer is either inside the written bytes or untouched. *)

From Stdlib Require Import ZArith Lia Bool Strings.Byte.
From stdpp Require Import base tactics list numbers.
From S2P Require Import Prelude FindCrlf.

#[local] Open Scope list_scope.
#[local] Open Scope Z_scope.

(** ** Little-endian integers *)

(** [(z as u32).to_le_bytes()] is [to_le_bytes 4 z]. *)
Fixpoint to_le_bytes (n : nat) (z : Z) : list byte :=
  match n with
  | O => []
  | S n => zb z :: to_le_bytes n (z / 256)
  end.

Lemma to_le_bytes_blen n z : blen (to_le_bytes n z) = Z.of_nat n.
Proof. revert z. induction n as [|n IH]; intros z; cbn [to_le_bytes]; [done|]. rewrite blen_cons, IH. lia. Qed.

Lemma from_to_le_bytes n : forall z, 0 <= z -> from_le_bytes (to_le_bytes n z) = z mod 256 ^ Z.of_nat n.
Proof.
  induction n as [|n IH]; intros z Hz; cbn [to_le_bytes from_le_bytes]; [by rewrite Z.mod_1_r|].
  rewrite bz_zb, IH by (apply Z.div_pos; lia). rewrite Nat2Z.inj_succ, Z.pow_succ_r by lia.
  rewrite Z.rem_mul_r by (try apply Z.pow_pos_nonneg; lia). done.
Qed.

Lemma from_to_u32 z : 0 <= z < 2 ^ 32 -> from_le_bytes (to_le_bytes 4 z) = z.
Proof. intros H. rewrite from_to_le_bytes by lia. apply Z.mod_small. exact H. Qed.

Lemma from_to_u16 z : 0 <= z < 2 ^ 16 -> from_le_bytes (to_le_bytes 2 z) = z.
Proof. intros H. rewrite from_to_le_bytes by lia. apply Z.mod_small. exact H. Qed.

Lemma from_le_bytes_nonneg l : 0 <= from_le_bytes l.
Proof. induction l as [|b l IH]; cbn; [lia|]. pose proof (bz_range b). lia. Qed.

Lemma from_le_bytes_app l k : from_le_bytes (l ++ k) = from_le_bytes l + 2 ^ (8 * blen l) * from_le_bytes k.
Proof.
  induction l as [|b l IH]; cbn [app from_le_bytes]; [change (blen (@nil byte)) with 0; lia|].
  pose proof (blen_nonneg l). rewrite IH, blen_cons. replace (8 * (1 + blen l)) with (8 + 8 * blen l) by lia.
  rewrite Z.pow_add_r by lia. change (2 ^ 8) with 256. lia.
Qed.

Lemma from_le_bytes_range l : 0 <= from_le_bytes l < 256 ^ blen l.
Proof.
  induction l as [|b l IH]; [by cbn|]. cbn [from_le_bytes]. rewrite blen_cons, Z.pow_add_r by (blen_pos; lia).
  pose proof (bz_range b). change (256 ^ 1) with 256. nia.
Qed.

Lemma from_le_bytes_inj l : forall k, length l = length k -> from_le_bytes l = from_le_bytes k -> l = k.
Proof.
  induction l as [|b l IH]; intros [|c k] L E; try discriminate L; [done|]. cbn [from_le_bytes] in E.
  pose proof (bz_range b). pose proof (bz_range c). f_equal; [apply bz_inj; lia|]. apply IH; [by injection L|lia].
Qed.

Lemma lor_shift_add a b n : 0 <= n -> 0 <= a < 2 ^ n -> Z.lor a (Z.shiftl b n) = a + 2 ^ n * b.
Proof.
  intros Hn Ha. rewrite Z.shiftl_mul_pow2 by lia.
  assert (D : Z.land a (b * 2 ^ n) = 0).
  { apply Z.bits_inj'. intros j Hj. rewrite Z.land_spec, Z.bits_0. destruct (Z.lt_ge_cases j n).
    - rewrite Z.mul_pow2_bits_low by lia. apply andb_false_r.
    - replace a with (a mod 2 ^ n) by (apply Z.mod_small; lia). by rewrite Z.mod_pow2_bits_high by lia. }
  rewrite <- Z.lxor_lor, <- Z.add_nocarry_lxor by exact D. lia.
Qed.

Lemma lxor_bound n a b : 0 <= n -> 0 <= a < 2 ^ n -> 0 <= b < 2 ^ n -> 0 <= Z.lxor a b < 2 ^ n.
Proof.
  intros Hn Ha Hb. enough (Z.lxor a b = Z.lxor a b mod 2 ^ n) as -> by (apply Z.mod_pos_bound; lia).
  apply Z.bits_inj'. intros i Hi. destruct (Z.lt_ge_cases i n); [by rewrite Z.mod_pow2_bits_low by lia|].
  rewrite (Z.mod_pow2_bits_high (Z.lxor a b)), Z.lxor_spec, <- (Z.mod_small a (2 ^ n)), <- (Z.mod_small b (2 ^ n)), !Z.mod_pow2_bits_high by lia. done.
Qed.

(** A slice is some digits of the whole. *)
Lemma from_le_bytes_slice b i n : 0 <= i -> 0 <= n -> i + n <= blen b -> from_le_bytes (slice b i (i + n)) = (from_le_bytes b / 256 ^ i) mod 256 ^ n.
Proof.
  intros Hi Hn Hl. assert (E : b = take (Z.to_nat i) b ++ slice b i (i + n) ++ from b (i + n)).
  { rewrite <- (take_drop (Z.to_nat i) b) at 1. f_equal. rewrite slice_from. replace (i + n - i) with n by lia. unfold from. replace (Z.to_nat (i + n)) with (Z.to_nat i + Z.to_nat n)%nat by lia. by rewrite <- drop_drop, take_drop. }
  assert (L1 : blen (take (Z.to_nat i) b) = i) by (unfold blen in *; rewrite length_take; lia). assert (L2 : blen (slice b i (i + n)) = n) by (rewrite blen_slice; lia).
  pose proof (from_le_bytes_range (take (Z.to_nat i) b)) as R1. pose proof (from_le_bytes_range (slice b i (i + n))) as R2. rewrite L1 in R1. rewrite L2 in R2.
  pose proof (Z.pow_pos_nonneg 256 i ltac:(lia) ltac:(lia)). pose proof (Z.pow_pos_nonneg 256 n ltac:(lia) ltac:(lia)).
  rewrite E at 2. rewrite !from_le_bytes_app, L1, L2, !(Z.pow_mul_r 2 8) by lia. change (2 ^ 8) with 256. rewrite (Z.mul_comm (256 ^ i)), Z.div_add, Z.div_small, Z.add_0_l by lia.
  rewrite (Z.mul_comm (256 ^ n)), Z.mod_add, Z.mod_small by lia. done.
Qed.

Lemma from_le_bytes_bit l : forall (i : nat) j b, l !! i = Some b -> 0 <= j < 8 -> Z.testbit (from_le_bytes l) (8 * Z.of_nat i + j) = Z.testbit (bz b) j.
Proof.
  induction l as [|x l IH]; intros [|i] j b Hb Hj; try discriminate Hb; cbn [from_le_bytes]; change 256 with (2 ^ 8).
  - injection Hb as ->. change (8 * Z.of_nat 0 + j) with j. pose proof (bz_range b). rewrite Z.mul_comm, <- Z.shiftl_mul_pow2 by lia. rewrite Z.add_nocarry_lxor.
    + rewrite Z.lxor_spec, Z.shiftl_spec, (Z.testbit_neg_r _ (j - 8)) by lia. apply xorb_false_r.
    + pose proof (lor_shift_add (bz b) (from_le_bytes l) 8 ltac:(lia) ltac:(lia)) as E. pose proof (Z.add_lor_land (bz b) (Z.shiftl (from_le_bytes l) 8)). rewrite Z.shiftl_mul_pow2 in * by lia. lia.
  - pose proof (bz_range x). rewrite <- (IH i j b Hb Hj). rewrite <- lor_shift_add by lia. rewrite Z.lor_spec, Z.shiftl_spec by lia. replace (8 * Z.of_nat (S i) + j - 8) with (8 * Z.of_nat i + j) by lia.
    rewrite <- (Z.mod_small (bz x) (2 ^ 8)), Z.mod_pow2_bits_high by lia. done.
Qed.

Lemma to_le_bytes_app n m a b : 0 <= a < 256 ^ Z.of_nat n -> to_le_bytes (n + m) (a + 256 ^ Z.of_nat n * b) = to_le_bytes n a ++ to_le_bytes m b.
Proof.
  revert a. induction n as [|n IH]; intros a Ha; cbn [Nat.add to_le_bytes app]; [cbn in Ha; f_equal; lia|]. rewrite Nat2Z.inj_succ, Z.pow_succ_r in * by lia. f_equal.
  - apply bz_inj. rewrite !bz_zb. rewrite <- Z.mul_assoc, Z.mul_comm, Z.mod_add by lia. done.
  - rewrite <- IH by (split; [apply Z.div_pos; lia|apply Z.div_lt_upper_bound; lia]). f_equal. rewrite <- Z.mul_assoc, (Z.mul_comm 256), Z.div_add by lia. done.
Qed.

(** [to_le_bytes 4 z ++ rest], read. *)
Lemma le32_head z (rest : list byte) : 0 <= z < 2 ^ 32 -> from_le_bytes (slice (to_le_bytes 4 z ++ rest) 0 4) = z.
Proof.
  intros H. pose proof (slice_from_app (to_le_bytes 4 z) rest) as E. rewrite to_le_bytes_blen in E. change (Z.of_nat 4) with 4 in E.
  rewrite E. by apply from_to_u32.
Qed.

Lemma le32_rest z (rest : list byte) : from (to_le_bytes 4 z ++ rest) 4 = rest.
Proof. exact (from_app_len (to_le_bytes 4 z) rest). Qed.

(** ** Writes *)

(** The buffer with [v] written over it at [at]. *)
Definition splice {A} (l : list A) (at_ : Z) (v : list A) : list A :=
  take (Z.to_nat at_) l ++ v ++ drop (Z.to_nat at_ + length v) l.

(** [buf[at .. at + v.len()].copy_from_slice(v)] *)
Definition copy_from_slice {A} (l : list A) (at_ : Z) (v : list A) : exec (list A) :=
  if (0 <=? at_) && (at_ + blen v <=? blen l) then Ret (splice l at_ v) else Panic.

(** [buf[i] = b] *)
Definition set_byte {A} (l : list A) (i : Z) (b : A) : exec (list A) := copy_from_slice l i [b].

(** [buf[s..e].fill(b)] *)
Definition fill {A} (l : list A) (s e : Z) (b : A) : exec (list A) :=
  if s <=? e then copy_from_slice l s (replicate (Z.to_nat (e - s)) b) else Panic.

(** [buf.copy_within(s..e, dest)] *)
Definition copy_within {A} (l : list A) (s e dest : Z) : exec (list A) :=
  v ← index_range l s e; copy_from_slice l dest v.

Section Splice.
Context {A : Type}.
Implicit Types l v : list A.

Lemma copy_from_slice_ok l i v : 0 <= i -> i + blen v <= blen l -> copy_from_slice l i v = Ret (splice l i v).
Proof. intros. unfold copy_from_slice. destruct (Z.leb_spec 0 i), (Z.leb_spec (i + blen v) (blen l)); done || lia. Qed.

Lemma splice_blen l i v : 0 <= i -> i + blen v <= blen l -> blen (splice l i v) = blen l.
Proof. intros. unfold splice, blen in *. rewrite !length_app, length_take, length_drop. lia. Qed.

Lemma get_splice l i v j : 0 <= i -> i + blen v <= blen l -> 0 <= j ->
  get (splice l i v) j = if (i <=? j) && (j <? i + blen v) then get v (j - i) else get l j.
Proof.
  intros Hi Hb Hj. unfold get, splice, blen in *. destruct (Z.leb_spec i j); cbn [andb].
  - rewrite lookup_app_r by (rewrite length_take; lia). rewrite length_take. destruct (Z.ltb_spec j (i + Z.of_nat (length v))).
    + rewrite lookup_app_l by lia. f_equal. lia.
    + rewrite lookup_app_r by lia. rewrite lookup_drop. f_equal. lia.
  - rewrite lookup_app_l by (rewrite length_take; lia). rewrite lookup_take_lt by lia. done.
Qed.

(** A slice of the written bytes. *)
Lemma slice_splice_in l i v : 0 <= i -> i + blen v <= blen l -> slice (splice l i v) i (i + blen v) = v.
Proof.
  intros. unfold splice. pose proof (slice_mid (take (Z.to_nat i) l) v (drop (Z.to_nat i + length v) l)) as E.
  replace (blen (take (Z.to_nat i) l)) with i in E; [done|]. unfold blen in *. rewrite length_take. lia.
Qed.

Lemma slice_ext l l' s e : 0 <= s -> e <= blen l -> e <= blen l' -> (forall j, s <= j < e -> get l j = get l' j) -> slice l s e = slice l' s e.
Proof.
  intros Hs He He' H. apply list_eq. intros k. unfold slice. destruct (decide (k < Z.to_nat (e - s))%nat) as [L|L].
  - rewrite !lookup_take_lt, !lookup_drop by lia. specialize (H (s + Z.of_nat k) ltac:(lia)). unfold get in H.
    replace (Z.to_nat (s + Z.of_nat k)) with (Z.to_nat s + k)%nat in H by lia. done.
  - rewrite !lookup_take_ge by lia. done.
Qed.

(** A slice beside the written bytes. *)
Lemma slice_splice_out l i v s e : 0 <= i -> i + blen v <= blen l -> 0 <= s -> e <= blen l -> e <= i \/ i + blen v <= s ->
  slice (splice l i v) s e = slice l s e.
Proof.
  intros Hi Hb Hs He D. apply slice_ext; [done|by rewrite splice_blen|done|]. intros j Hj. rewrite get_splice by lia.
  destruct (Z.leb_spec i j), (Z.ltb_spec j (i + blen v)); cbn [andb]; done || lia.
Qed.

(** Two writes end to end are one. *)
Lemma splice_splice l i u v : 0 <= i -> i + blen u + blen v <= blen l -> splice (splice l i u) (i + blen u) v = splice l i (u ++ v).
Proof.
  intros Hi Hb. unfold splice, blen in *. rewrite length_app. replace (Z.to_nat (i + Z.of_nat (length u))) with (Z.to_nat i + length u)%nat by lia.
  assert (Lt : length (take (Z.to_nat i) l) = Z.to_nat i) by (rewrite length_take; lia). rewrite !app_assoc. f_equal; [f_equal|].
  - rewrite take_app_le by (rewrite length_app; lia). rewrite firstn_all2; [done|]. rewrite length_app. lia.
  - rewrite drop_app_ge by (rewrite length_app; lia). rewrite drop_drop, length_app. f_equal. lia.
Qed.

(** Two slices end to end. *)
Lemma slice_join l s m e : 0 <= s -> s <= m <= e -> slice l s m ++ slice l m e = slice l s e.
Proof.
  intros. unfold slice. replace (drop (Z.to_nat m) l) with (drop (Z.to_nat (m - s)) (drop (Z.to_nat s) l)) by (rewrite drop_drop; f_equal; lia).
  generalize (drop (Z.to_nat s) l). intros k. replace (Z.to_nat (e - s)) with (Z.to_nat (m - s) + Z.to_nat (e - m))%nat by lia.
  generalize (Z.to_nat (m - s)) (Z.to_nat (e - m)). intros a b. revert k. induction a as [|a IH]; intros [|x k]; cbn; rewrite ?take_nil; [done|done|done|].
  by rewrite IH.
Qed.

Lemma slice_empty l s : slice l s s = [].
Proof. unfold slice. by rewrite Z.sub_diag. Qed.

Lemma slice_all l : slice l 0 (blen l) = l.
Proof. rewrite slice_0_take, blen_to_nat. apply firstn_all. Qed.

(** A buffer that starts with three pieces. *)
Lemma slice_pieces l u x y z : slice l 0 u = x ++ y ++ z -> 0 <= u <= blen l ->
  slice l 0 (blen x) = x /\ slice l (blen x) (blen x + blen y) = y /\ slice l (blen x + blen y) u = z.
Proof.
  intros E Hu. assert (El : l = (x ++ y ++ z) ++ from l u) by (rewrite <- E, slice_0_take; symmetry; apply take_drop).
  assert (Lu : u = blen x + blen y + blen z) by (apply (f_equal blen) in E; rewrite blen_slice, !blen_app in E; lia).
  set (r := from l u) in *. clearbody r. rewrite El, Lu, <- !app_assoc. split_and!; [apply slice_from_app|apply slice_mid|].
  rewrite <- blen_app, (app_assoc x y). apply slice_mid.
Qed.

End Splice.
