(* ===== verification/Argv.v ===== *)
(** * Argument vectors ([crates/kevy-resp/src/argv.rs], [inline_ranges.rs],
    [argv_borrowed.rs])

    [Argv] stores a parsed command in two buffers: the argument bytes end to
    end, and the [u32] end offset of each argument.  [ArgvBorrowed] stores
    [(u32, u32)] ranges into the connection's input buffer, four inline and the
    rest in a heap [Vec].  Both are proved to behave as the plain list of
    arguments as long as the offsets fit a [u32]; a machine-checked example
    shows what happens when they do not.

    [Vec] capacities ([with_capacity], [reserve_for]) are not observable and
    are not part of the state. *)

From Stdlib Require Import ZArith Lia Bool Strings.Byte Strings.String.
From stdpp Require Import base list.
From S2P Require Import Prelude.

#[local] Open Scope list_scope.
#[local] Open Scope Z_scope.

(** ** [Argv] *)

Record Argv := mkArgv { argv_buf : list byte; argv_ends : list Z }.

Definition argv_default : Argv := mkArgv [] [].

Definition argv_clear (a : Argv) : Argv := mkArgv [] [].

(** [push]: the new end offset is [buf.len() as u32]. *)
Definition argv_push (a : Argv) (arg : list byte) : Argv :=
  let b := argv_buf a ++ arg in
  mkArgv b (argv_ends a ++ [as_u32 (blen b)]).

Definition argv_len (a : Argv) : Z := blen (argv_ends a).

Definition argv_is_empty (a : Argv) : bool :=
  match argv_ends a with [] => true | _ => false end.

Definition argv_get (a : Argv) (i : Z) : exec (option (list byte)) :=
  match get (argv_ends a) i with
  | None => Ret None
  | Some e =>
      s ← (if i =? 0 then Ret 0 else index (argv_ends a) (i - 1));
      r ← index_range (argv_buf a) s e;
      Ret (Some r)
  end.

Definition argv_first (a : Argv) : exec (option (list byte)) := argv_get a 0.

Definition argv_iter (a : Argv) : exec (list (list byte)) :=
  collect (fun i => o ← argv_get a i; expect o) 0 (length (argv_ends a)).

(** [From<Vec<Vec<u8>>>], [Extend] and [FromIterator]: push in order. *)
Definition argv_extend (a : Argv) (args : list (list byte)) : Argv := fold_left argv_push args a.

Definition argv_from (args : list (list byte)) : Argv := argv_extend argv_default args.

(** [PartialEq<Vec<Vec<u8>>>] *)
Definition argv_eq_vec (a : Argv) (other : list (list byte)) : exec bool :=
  if argv_len a =? blen other then
    l ← argv_iter a;
    Ret (forallb (fun p => bool_decide (fst p = snd p)) (zip l other))
  else Ret false.

(** *** [Argv] as a list of arguments *)

(** End offsets of [args] laid end to end from offset [s]. *)
Fixpoint ends_from (s : Z) (args : list (list byte)) : list Z :=
  match args with
  | [] => []
  | x :: r => (s + blen x) :: ends_from (s + blen x) r
  end.

Definition total_len (args : list (list byte)) : Z := blen (concat args).

(** [a] holds exactly the arguments [args]. *)
Definition argv_holds (a : Argv) (args : list (list byte)) : Prop :=
  argv_buf a = concat args /\ argv_ends a = ends_from 0 args.

Lemma length_ends_from args : forall s, length (ends_from s args) = length args.
Proof. induction args; intros; cbn; auto. Qed.

Lemma total_len_cons x r : total_len (x :: r) = blen x + total_len r.
Proof. unfold total_len. cbn. apply blen_app. Qed.

Lemma total_len_nil : total_len [] = 0.
Proof. reflexivity. Qed.

Lemma total_len_app l r : total_len (l ++ r) = total_len l + total_len r.
Proof. unfold total_len. rewrite concat_app. apply blen_app. Qed.

Lemma total_len_nonneg l : 0 <= total_len l.
Proof. apply blen_nonneg. Qed.

Lemma ends_from_snoc args x : forall s,
  ends_from s (args ++ [x]) = ends_from s args ++ [s + total_len args + blen x].
Proof.
  induction args as [|y args IH]; intros s; cbn [app ends_from].
  - rewrite total_len_nil, Z.add_0_r. reflexivity.
  - rewrite IH, total_len_cons. cbn. do 3 f_equal. lia.
Qed.

(** The [i]-th end offset is the length of the first [i + 1] arguments. *)
Lemma ends_from_lookup args : forall s k e,
  ends_from s args !! k = Some e -> e = s + total_len (take (S k) args).
Proof.
  induction args as [|x args IH]; intros s k e H; [destruct k; discriminate|].
  destruct k as [|k]; cbn in H.
  - injection H as <-. change (take 1 (x :: args)) with [x]. rewrite total_len_cons, total_len_nil. lia.
  - apply IH in H. rewrite H.
    change (take (S (S k)) (x :: args)) with (x :: take (S k) args). rewrite total_len_cons. lia.
Qed.

Lemma argv_holds_default : argv_holds argv_default [].
Proof. split; reflexivity. Qed.

Lemma argv_holds_push a args x :
  argv_holds a args -> total_len args + blen x < 2 ^ 32 ->
  argv_holds (argv_push a x) (args ++ [x]).
Proof.
  intros [Hb He] Ht. pose proof (total_len_nonneg args). pose proof (blen_nonneg x).
  split; cbn [argv_push argv_buf argv_ends].
  - rewrite Hb, concat_app. cbn. rewrite app_nil_r. reflexivity.
  - rewrite He, Hb, ends_from_snoc, blen_app. do 2 f_equal.
    fold (total_len args). rewrite as_u32_id by lia. lia.
Qed.

Lemma argv_holds_extend args : forall a l,
  argv_holds a l -> total_len l + total_len args < 2 ^ 32 ->
  argv_holds (argv_extend a args) (l ++ args).
Proof.
  unfold argv_extend. induction args as [|x args IH]; intros a l Ha Ht; cbn [fold_left].
  - rewrite app_nil_r. exact Ha.
  - rewrite total_len_cons in Ht. pose proof (total_len_nonneg args).
    replace (l ++ x :: args) with ((l ++ [x]) ++ args) by (rewrite <- app_assoc; reflexivity).
    apply IH.
    + apply argv_holds_push; [exact Ha | lia].
    + rewrite total_len_app, total_len_cons. rewrite total_len_nil. lia.
Qed.

Lemma argv_holds_from args : total_len args < 2 ^ 32 -> argv_holds (argv_from args) args.
Proof. intros H. apply (argv_holds_extend args argv_default []); [apply argv_holds_default | exact H]. Qed.

Lemma take_S_lookup {A} (l : list A) k x : l !! k = Some x -> take (S k) l = take k l ++ [x].
Proof. intros H. apply take_S_r. exact H. Qed.

Lemma slice_concat (args : list (list byte)) k x :
  args !! k = Some x ->
  slice (concat args) (total_len (take k args)) (total_len (take k args) + blen x) = x.
Proof.
  intros H. rewrite <- (take_drop_middle _ _ _ H) at 1. rewrite concat_app. cbn [concat].
  unfold total_len. rewrite slice_from, from_app_len.
  replace (_ + blen x - _) with (blen x) by lia. rewrite blen_to_nat. apply take_app_length.
Qed.

Lemma total_len_take_le (args : list (list byte)) k x :
  args !! k = Some x -> total_len (take k args) + blen x <= total_len args.
Proof.
  intros H. rewrite <- (take_drop_middle _ _ _ H) at 2.
  rewrite total_len_app, total_len_cons. pose proof (total_len_nonneg (drop (S k) args)). lia.
Qed.

Lemma argv_holds_get a args (k : nat) :
  argv_holds a args -> argv_get a (Z.of_nat k) = Ret (args !! k).
Proof.
  intros [Hb He]. unfold argv_get, get. rewrite Nat2Z.id, He, Hb.
  destruct (args !! k) as [x|] eqn:Hx.
  - pose proof (lookup_lt_Some _ _ _ Hx).
    destruct (ends_from 0 args !! k) as [e|] eqn:E;
      [|apply lookup_ge_None in E; rewrite length_ends_from in E; lia].
    pose proof (ends_from_lookup _ _ _ _ E) as ->.
    rewrite (take_S_lookup _ _ _ Hx), total_len_app, total_len_cons.
    rewrite total_len_nil. rewrite Z.add_0_l, Z.add_0_r.
    assert (Hs : (if Z.of_nat k =? 0 then Ret 0 else index (ends_from 0 args) (Z.of_nat k - 1))
                 = Ret (total_len (take k args))).
    { destruct k as [|k]; [reflexivity|]. cbn [Z.eqb].
      replace (Z.of_nat (S k) =? 0) with false by (symmetry; apply Z.eqb_neq; lia).
      unfold index, get. replace (Z.to_nat (Z.of_nat (S k) - 1)) with k by lia.
      destruct (ends_from 0 args !! k) as [e'|] eqn:E';
        [|apply lookup_ge_None in E'; rewrite length_ends_from in E'; lia].
      rewrite (ends_from_lookup _ _ _ _ E'). reflexivity. }
    rewrite Hs. cbn [mbind exec_bind].
    pose proof (total_len_take_le _ _ _ Hx). pose proof (blen_nonneg x).
    rewrite index_range_ok by (fold (total_len args); lia).
    cbn. rewrite slice_concat by exact Hx. reflexivity.
  - apply lookup_ge_None in Hx.
    rewrite (lookup_ge_None_2 (ends_from 0 args)) by (rewrite length_ends_from; lia). reflexivity.
Qed.

Lemma argv_holds_iter a args : argv_holds a args -> argv_iter a = Ret args.
Proof.
  intros H. unfold argv_iter. pose proof H as [_ He]. rewrite He, length_ends_from.
  apply collect_ok. intros k x Hx. rewrite Z.add_0_l, (argv_holds_get _ _ _ H), Hx. reflexivity.
Qed.

Lemma argv_holds_is_empty a args :
  argv_holds a args -> argv_is_empty a = match args with [] => true | _ => false end.
Proof. intros [_ He]. unfold argv_is_empty. rewrite He. destruct args; reflexivity. Qed.

(** *** Without the [u32] bound *)

Lemma argv_extend_raw args : forall a l,
  argv_buf a = concat l -> argv_ends a = as_u32 <$> ends_from 0 l ->
  argv_buf (argv_extend a args) = concat (l ++ args) /\
  argv_ends (argv_extend a args) = as_u32 <$> ends_from 0 (l ++ args).
Proof.
  unfold argv_extend. induction args as [|x args IH]; intros a l Hb He; cbn [fold_left].
  - rewrite app_nil_r. auto.
  - replace (l ++ x :: args) with ((l ++ [x]) ++ args) by (rewrite <- app_assoc; reflexivity).
    apply IH; cbn [argv_push argv_buf argv_ends].
    + rewrite Hb, concat_app. cbn. rewrite app_nil_r. reflexivity.
    + rewrite He, Hb, ends_from_snoc, fmap_app, blen_app. reflexivity.
Qed.

Lemma argv_from_inj xs ys : total_len xs < 2 ^ 32 -> argv_from xs = argv_from ys -> xs = ys.
Proof.
  intros Hx E.
  destruct (argv_extend_raw xs argv_default [] eq_refl eq_refl) as [Bx _].
  destruct (argv_extend_raw ys argv_default [] eq_refl eq_refl) as [By _].
  change (argv_extend argv_default xs) with (argv_from xs) in Bx.
  change (argv_extend argv_default ys) with (argv_from ys) in By.
  assert (Hy : total_len ys < 2 ^ 32)
    by (unfold total_len in *; cbn [app] in *; rewrite <- By, <- E, Bx; exact Hx).
  pose proof (argv_holds_iter _ _ (argv_holds_from xs Hx)) as Ix.
  pose proof (argv_holds_iter _ _ (argv_holds_from ys Hy)) as Iy. congruence.
Qed.

(** ** [InlineRanges] *)

Definition INLINE_CAP : Z := 4.

Record InlineRanges := mkInlineRanges {
  ir_inline : list (Z * Z);   (* [(u32, u32); INLINE_CAP] *)
  ir_heap : list (Z * Z);
  ir_len : Z
}.

Definition ir_new : InlineRanges := mkInlineRanges (replicate 4 (0, 0)) [] 0.

(** [with_capacity] reserves heap slots only; the table is the empty one. *)
Definition ir_with_capacity (cap : Z) : InlineRanges := ir_new.

Definition ir_is_empty (r : InlineRanges) : bool := ir_len r =? 0.

Definition ir_push (r : InlineRanges) (v : Z * Z) : InlineRanges :=
  if ir_len r <? INLINE_CAP then
    mkInlineRanges (<[Z.to_nat (ir_len r) := v]> (ir_inline r)) (ir_heap r) (ir_len r + 1)
  else mkInlineRanges (ir_inline r) (ir_heap r ++ [v]) (ir_len r + 1).

Definition ir_get (r : InlineRanges) (i : Z) : exec (option (Z * Z)) :=
  if ir_len r <=? i then Ret None
  else if i <? INLINE_CAP then x ← index (ir_inline r) i; Ret (Some x)
  else x ← index (ir_heap r) (i - INLINE_CAP); Ret (Some x).

Definition ir_clone (r : InlineRanges) : exec InlineRanges :=
  l ← collect (fun i => o ← ir_get r i; expect o) 0 (Z.to_nat (ir_len r));
  Ret (fold_left ir_push l (ir_with_capacity (ir_len r))).

(** The table holds the list [l]. *)
Definition ir_holds (r : InlineRanges) (l : list (Z * Z)) : Prop :=
  ir_len r = blen l /\ length (ir_inline r) = 4%nat /\
  take (length l) (ir_inline r) = take 4 l /\ ir_heap r = drop 4 l.

Lemma ir_holds_new : ir_holds ir_new [].
Proof. repeat split. Qed.

Lemma ir_holds_push r l v : ir_holds r l -> ir_holds (ir_push r v) (l ++ [v]).
Proof.
  intros (Hn & Hi & Ht & Hh). unfold ir_push, INLINE_CAP. rewrite Hn.
  destruct (Z.ltb_spec (blen l) 4) as [Hlt|Hge]; unfold blen in *.
  - repeat split; cbn [ir_len ir_inline ir_heap].
    + unfold blen. rewrite length_app. cbn. lia.
    + rewrite length_insert. exact Hi.
    + rewrite length_app. cbn [length]. rewrite Nat2Z.id.
      rewrite (take_ge (l ++ [v])) by (rewrite length_app; cbn; lia).
      rewrite (take_ge l) in Ht by lia.
      replace (length l + 1)%nat with (S (length l)) by lia.
      rewrite (take_S_r _ _ v) by (apply list_lookup_insert_eq; lia).
      rewrite take_insert_ge by lia. rewrite Ht. reflexivity.
    + rewrite Hh, !drop_ge by (rewrite ?length_app; cbn; lia). reflexivity.
  - repeat split; cbn [ir_len ir_inline ir_heap].
    + unfold blen. rewrite length_app. cbn. lia.
    + exact Hi.
    + rewrite take_app_le by lia. rewrite <- Ht, !take_ge by (rewrite ?length_app; lia).
      reflexivity.
    + rewrite Hh, drop_app_le by lia. reflexivity.
Qed.

Lemma ir_holds_get r l (k : nat) : ir_holds r l -> ir_get r (Z.of_nat k) = Ret (l !! k).
Proof.
  intros (Hn & Hi & Ht & Hh). unfold ir_get, INLINE_CAP. rewrite Hn. unfold blen.
  destruct (Z.leb_spec (Z.of_nat (length l)) (Z.of_nat k)).
  - rewrite lookup_ge_None_2 by lia. reflexivity.
  - destruct (lookup_lt_is_Some_2 l k) as [x Hx]; [lia|]. rewrite Hx.
    destruct (Z.ltb_spec (Z.of_nat k) 4); unfold index, get.
    + rewrite Nat2Z.id.
      assert (E : ir_inline r !! k = Some x); [|rewrite E; reflexivity].
      rewrite <- (lookup_take_lt _ (length l)) by lia. rewrite Ht, lookup_take_lt by lia. exact Hx.
    + rewrite Hh. replace (Z.to_nat (Z.of_nat k - 4)) with (k - 4)%nat by lia.
      rewrite lookup_drop. replace (4 + (k - 4))%nat with k by lia. rewrite Hx. reflexivity.
Qed.

Lemma ir_holds_fold vs : forall r l, ir_holds r l -> ir_holds (fold_left ir_push vs r) (l ++ vs).
Proof.
  induction vs as [|v vs IH]; intros r l H; cbn [fold_left]; [rewrite app_nil_r; exact H|].
  replace (l ++ v :: vs) with ((l ++ [v]) ++ vs) by (rewrite <- app_assoc; reflexivity).
  apply IH, ir_holds_push, H.
Qed.

Lemma ir_holds_collect r l :
  ir_holds r l ->
  collect (fun i => o ← ir_get r i; expect o) 0 (Z.to_nat (ir_len r)) = Ret l.
Proof.
  intros H. pose proof H as (Hn & _). rewrite Hn, blen_to_nat. apply collect_ok.
  intros k x Hx. rewrite Z.add_0_l, (ir_holds_get _ _ _ H), Hx. reflexivity.
Qed.

(** ** [ArgvBorrowed] *)

Record ArgvBorrowed := mkArgvBorrowed { ab_input : list byte; ab_ranges : InlineRanges }.

Definition ab_new (input : list byte) : ArgvBorrowed := mkArgvBorrowed input ir_new.
Definition ab_with_capacity (input : list byte) (argc : Z) : ArgvBorrowed :=
  mkArgvBorrowed input (ir_with_capacity argc).

Definition ab_push_range (a : ArgvBorrowed) (s e : Z) : ArgvBorrowed :=
  mkArgvBorrowed (ab_input a) (ir_push (ab_ranges a) (as_u32 s, as_u32 e)).

Definition ab_len (a : ArgvBorrowed) : Z := ir_len (ab_ranges a).
Definition ab_is_empty (a : ArgvBorrowed) : bool := ir_is_empty (ab_ranges a).

Definition ab_get (a : ArgvBorrowed) (i : Z) : exec (option (list byte)) :=
  r ← ir_get (ab_ranges a) i;
  match r with
  | None => Ret None
  | Some (s, e) => x ← index_range (ab_input a) s e; Ret (Some x)
  end.

Definition ab_iter (a : ArgvBorrowed) : exec (list (list byte)) :=
  collect (fun i => o ← ab_get a i; expect o) 0 (Z.to_nat (ab_len a)).

(** [into_owned]; the first loop only sums the capacity to reserve. *)
Definition ab_into_owned (a : ArgvBorrowed) : exec Argv :=
  l ← collect (fun i => o ← ir_get (ab_ranges a) i;
                        p ← expect o; index_range (ab_input a) (fst p) (snd p))
              0 (Z.to_nat (ab_len a));
  Ret (fold_left argv_push l argv_default).

(** [a] borrows the ranges [rs] of its input. *)
Definition ab_holds (a : ArgvBorrowed) (rs : list (Z * Z)) : Prop :=
  ir_holds (ab_ranges a) rs /\
  Forall (fun p => 0 <= fst p <= snd p /\ snd p <= blen (ab_input a)) rs.

Definition ab_args (input : list byte) (rs : list (Z * Z)) : list (list byte) :=
  (fun p => slice input (fst p) (snd p)) <$> rs.

Lemma ab_holds_push a rs s e :
  ab_holds a rs -> 0 <= s <= e -> e <= blen (ab_input a) -> blen (ab_input a) < 2 ^ 32 ->
  ab_holds (ab_push_range a s e) (rs ++ [(s, e)]).
Proof.
  intros [Hr Hf] Hs He Hb. unfold ab_push_range. rewrite !as_u32_id by lia. split.
  - apply ir_holds_push, Hr.
  - apply Forall_app. split; [exact Hf|]. constructor; [cbn; lia | constructor].
Qed.

Lemma ab_holds_get a rs (k : nat) :
  ab_holds a rs -> ab_get a (Z.of_nat k) = Ret (ab_args (ab_input a) rs !! k).
Proof.
  intros [Hr Hf]. unfold ab_get, ab_args. rewrite (ir_holds_get _ _ _ Hr), list_lookup_fmap.
  cbn. destruct (rs !! k) as [[s e]|] eqn:E; [|reflexivity].
  rewrite Forall_lookup in Hf. specialize (Hf _ _ E). cbn in Hf.
  rewrite index_range_ok by lia. reflexivity.
Qed.

Lemma ab_holds_iter a rs : ab_holds a rs -> ab_iter a = Ret (ab_args (ab_input a) rs).
Proof.
  intros H. unfold ab_iter, ab_len. pose proof H as [(Hn & _) _]. rewrite Hn, blen_to_nat.
  rewrite <- (length_fmap (fun p => slice (ab_input a) (fst p) (snd p)) rs).
  apply collect_ok. intros k x Hx. rewrite Z.add_0_l, (ab_holds_get _ _ _ H).
  change (ab_args (ab_input a) rs !! k = Some x) in Hx. cbn. rewrite Hx. reflexivity.
Qed.

Lemma ab_into_owned_holds a rs :
  ab_holds a rs -> ab_into_owned a = Ret (argv_from (ab_args (ab_input a) rs)).
Proof.
  intros [Hr Hf]. unfold ab_into_owned, ab_len. pose proof Hr as (Hn & _).
  rewrite Hn, blen_to_nat.
  rewrite <- (length_fmap (fun p => slice (ab_input a) (fst p) (snd p)) rs).
  change (length (_ <$> rs)) with (length (ab_args (ab_input a) rs)).
  erewrite collect_ok; [reflexivity|]. intros k x Hx.
  rewrite Z.add_0_l, (ir_holds_get _ _ _ Hr). unfold ab_args in Hx. rewrite list_lookup_fmap in Hx.
  destruct (rs !! k) as [[s e]|] eqn:E; [|discriminate]. injection Hx as <-. cbn.
  rewrite Forall_lookup in Hf. specialize (Hf _ _ E). cbn in Hf. apply index_range_ok. lia.
Qed.

(** ** Properties *)

(** an [Argv] built by pushing [args] is, through [get], [iter], [len] and
    comparison with a [Vec<Vec<u8>>], exactly the list [args], as long as the
    argument bytes fit the [u32] offset table. *)
Theorem argv_is_its_arguments (args : list (list byte)) (Ht : total_len args < 2 ^ 32) :
  argv_iter (argv_from args) = Ret args /\
  argv_len (argv_from args) = blen args /\
  (forall k : nat, argv_get (argv_from args) (Z.of_nat k) = Ret (args !! k)) /\
  argv_eq_vec (argv_from args) args = Ret true.
Proof.
  pose proof (argv_holds_from args Ht) as H. pose proof H as [_ He].
  assert (Hl : argv_len (argv_from args) = blen args)
    by (unfold argv_len, blen; rewrite He, length_ends_from; reflexivity).
  repeat split; auto.
  - apply argv_holds_iter, H.
  - intros k. apply argv_holds_get, H.
  - unfold argv_eq_vec. rewrite Hl, Z.eqb_refl, (argv_holds_iter _ _ H). cbn.
    f_equal. apply forallb_forall. intros [x y] Hin. apply bool_decide_eq_true. cbn.
    clear -Hin. induction args as [|z args IH]; cbn in Hin; [contradiction|].
    destruct Hin as [[= <- <-]|Hin]; auto.
Qed.

Lemma argv_is_its_arguments_witness :
  argv_get (argv_from [bs "SET"; bs ""; bs "v"]) 2 = Ret (Some (bs "v")).
Proof.
  destruct (argv_is_its_arguments [bs "SET"; bs ""; bs "v"] ltac:(vm_compute; reflexivity))
    as (_ & _ & H & _).
  exact (H 2%nat).
Defined.

(** the [u32] offset table overflows on a request the parser's own limits
    admit: eight arguments of exactly 512 MiB ([MAX_BULK_LEN]) are far below
    [MAX_MULTIBULK_LEN], yet reading the last one back panics (its end offset
    [2^32] was stored as 0). *)
Theorem argv_offset_overflow (x : list byte) (Hx : blen x = 512 * 1024 * 1024) :
  argv_get (argv_from (replicate 8 x)) 7 = Panic.
Proof.
  destruct (argv_extend_raw (replicate 8 x) argv_default [] eq_refl eq_refl) as [Hb He].
  unfold argv_from, argv_get. rewrite He. cbn [app replicate ends_from fmap list_fmap].
  cbn [get lookup list_lookup Z.to_nat Pos.to_nat Pos.iter_op Nat.add].
  rewrite !Hx.
  change (as_u32 (0 + 512 * 1024 * 1024 + 512 * 1024 * 1024 + 512 * 1024 * 1024 +
    512 * 1024 * 1024 + 512 * 1024 * 1024 + 512 * 1024 * 1024 + 512 * 1024 * 1024 +
    512 * 1024 * 1024)) with 0.
  reflexivity.
Qed.

Lemma argv_offset_overflow_witness :
  exists x, blen x = 512 * 1024 * 1024 /\ argv_get (argv_from (replicate 8 x)) 7 = Panic.
Proof.
  exists (replicate (Z.to_nat (512 * 1024 * 1024)) x00).
  assert (H : blen (replicate (Z.to_nat (512 * 1024 * 1024)) x00) = 512 * 1024 * 1024)
    by (unfold blen; rewrite length_replicate; apply Z2Nat.id; lia).
  split; [exact H | apply argv_offset_overflow; exact H].
Defined.
