(* ===== verification/Encode.v ===== *)
(** * RESP encoders ([crates/kevy-resp/src/reply_encode.rs],
    [reply_encode_resp3.rs])

    Every encoder appends to a caller-owned [Vec<u8>]; the model threads that
    buffer.  [push_int] works in the negative domain with truncating division,
    digit by digit into a 20-byte scratch array, as the source does. *)

From Stdlib Require Import ZArith Lia Bool Strings.Byte Strings.String.
From stdpp Require Import base list.
From S2P Require Import Prelude.

#[local] Open Scope list_scope.
#[local] Open Scope Z_scope.
#[local] Open Scope kevy_scope.

(** [b'0' + digit] *)
Definition digit_byte (d : Z) : byte := zb (48 + d).

(** The [while v != 0] loop of [push_int]: [tmp[i..]] is the accumulator.  The
    scratch array has 20 bytes; a 21st digit would underflow the index. *)
Fixpoint push_int_digits (room : nat) (v : Z) (acc : list byte) : exec (list byte) :=
  if v =? 0 then Ret acc
  else match room with
       | O => Panic
       | S room' =>
           let digit := Z.abs (Z.rem v 10) in
           push_int_digits room' (Z.quot v 10) (digit_byte digit :: acc)
       end.

Definition push_int (out : list byte) (n : Z) : exec (list byte) :=
  if n =? 0 then Ret (out ++ bs "0")
  else
    tmp ← push_int_digits 20 n [];
    Ret ((if n <? 0 then out ++ bs "-" else out) ++ tmp).

(** The digit loop of [bulk_header], over the 21 bytes before the CRLF (one of
    them is left for the [$]). *)
Fixpoint bulk_header_digits (room : nat) (n : Z) (acc : list byte) : exec (list byte) :=
  match room with
  | O => Panic
  | S room' =>
      let acc := digit_byte (n mod 10) :: acc in
      let n := n / 10 in
      if n =? 0 then match room' with O => Panic | _ => Ret acc end
      else bulk_header_digits room' n acc
  end.

Definition bulk_header (out : list byte) (len : Z) : exec (list byte) :=
  d ← bulk_header_digits 21 len CRLF;
  Ret (out ++ bs "$" ++ d).

Definition encode_simple_string (out s : list byte) : list byte := out ++ bs "+" ++ s ++ CRLF.

Definition encode_error (out s : list byte) : list byte := out ++ bs "-" ++ s ++ CRLF.

Definition encode_integer (out : list byte) (n : Z) : exec (list byte) :=
  out ← push_int (out ++ bs ":") n; Ret (out ++ CRLF).

Definition encode_bulk (out data : list byte) : exec (list byte) :=
  out ← bulk_header out (blen data); Ret (out ++ data ++ CRLF).

(** [rotate_right(k)] on a slice. *)
Definition rotate_right {A} (l : list A) (k : Z) : list A :=
  from l (blen l - k) ++ slice l 0 (blen l - k).

Definition encode_bulk_with (out : list byte) (body : list byte -> exec (list byte))
  : exec (list byte) :=
  let start := blen out in
  out ← body out;
  let n := blen out - start in
  out ← bulk_header out n;
  let head := blen out - start - n in
  Ret (slice out 0 start ++ rotate_right (from out start) head ++ CRLF).

Definition encode_bulk_int (out : list byte) (n : Z) : exec (list byte) :=
  encode_bulk_with out (fun o => push_int o n).

Definition encode_null_bulk (out : list byte) : list byte := out ++ bs "$-1" ++ CRLF.

Definition encode_array_len (out : list byte) (len : Z) : exec (list byte) :=
  out ← push_int (out ++ bs "*") len; Ret (out ++ CRLF).

(** [for a in args { encode_bulk(out, a) }] *)
Fixpoint encode_bulks (out : list byte) (args : list (list byte)) : exec (list byte) :=
  match args with
  | [] => Ret out
  | a :: r => out ← encode_bulk out a; encode_bulks out r
  end.

Definition encode_command (out : list byte) (args : list (list byte)) : exec (list byte) :=
  out ← encode_array_len out (as_i64 (blen args));
  encode_bulks out args.

(** ** RESP3 additions *)

Definition encode_map_header (out : list byte) (count : Z) : exec (list byte) :=
  out ← push_int (out ++ bs "%") count; Ret (out ++ CRLF).

Definition encode_set_header (out : list byte) (count : Z) : exec (list byte) :=
  out ← push_int (out ++ bs "~") count; Ret (out ++ CRLF).

Definition encode_push_header (out : list byte) (count : Z) : exec (list byte) :=
  out ← push_int (out ++ bs ">") count; Ret (out ++ CRLF).

Definition encode_boolean (out : list byte) (v : bool) : list byte :=
  out ++ (if v then bs "#t" else bs "#f") ++ CRLF.

Definition encode_null (out : list byte) : list byte := out ++ bs "_" ++ CRLF.

Definition encode_big_number (out digits : list byte) : list byte :=
  out ++ bs "(" ++ digits ++ CRLF.

Definition encode_verbatim (out fmt data : list byte) : exec (list byte) :=
  let total_len := 4 + blen data in
  out ← push_int (out ++ bs "=") (as_i64 total_len);
  Ret (out ++ CRLF ++ fmt ++ bs ":" ++ data ++ CRLF).

Definition encode_blob_error (out msg : list byte) : exec (list byte) :=
  out ← push_int (out ++ bs "!") (as_i64 (blen msg));
  Ret (out ++ CRLF ++ msg ++ CRLF).

(** ** Decimal numerals

    [dec m] is the decimal numeral of [m >= 0]; both digit loops produce it. *)

Fixpoint dec_acc (fuel : nat) (m : Z) (acc : list byte) : list byte :=
  match fuel with
  | O => acc
  | S f => if m =? 0 then acc else dec_acc f (m / 10) (digit_byte (m mod 10) :: acc)
  end.

Definition dec (m : Z) : list byte := if m =? 0 then bs "0" else dec_acc 20 m [].

(** The value of a digit string read after [acc]. *)
Fixpoint digits_val (acc : Z) (l : list byte) : Z :=
  match l with
  | [] => acc
  | b :: r => digits_val (acc * 10 + (bz b - 48)) r
  end.

Definition is_ascii_digit (b : byte) : bool := (48 <=? bz b) && (bz b <=? 57).

Lemma bz_digit_byte d : 0 <= d < 10 -> bz (digit_byte d) = 48 + d.
Proof. intros H. unfold digit_byte. rewrite bz_zb. apply Z.mod_small. lia. Qed.

Lemma digit_byte_is_digit d : 0 <= d < 10 -> is_ascii_digit (digit_byte d) = true.
Proof.
  intros H. unfold is_ascii_digit. rewrite bz_digit_byte by lia.
  destruct (Z.leb_spec 48 (48 + d)), (Z.leb_spec (48 + d) 57); cbn; lia || reflexivity.
Qed.

Lemma digits_val_app l r : forall a, digits_val a (l ++ r) = digits_val (digits_val a l) r.
Proof. induction l; intros; cbn; auto. Qed.

Lemma dec_acc_app f : forall m acc, dec_acc f m acc = dec_acc f m [] ++ acc.
Proof.
  induction f as [|f IH]; intros m acc; cbn; [reflexivity|].
  destruct (m =? 0); [reflexivity|].
  rewrite IH, (IH (m / 10) [_]), <- app_assoc. reflexivity.
Qed.

Lemma div10_bound m (f : nat) :
  0 <= m < 10 ^ Z.of_nat (S f) -> 0 <= m / 10 < 10 ^ Z.of_nat f.
Proof.
  intros H. rewrite Nat2Z.inj_succ, Z.pow_succ_r in H by lia.
  split; [apply Z.div_pos; lia | apply Z.div_lt_upper_bound; lia].
Qed.

Lemma dec_acc_val f : forall m, 0 <= m < 10 ^ Z.of_nat f -> digits_val 0 (dec_acc f m []) = m.
Proof.
  induction f as [|f IH]; intros m H; cbn [dec_acc]; [cbn in *; lia|].
  destruct (Z.eqb_spec m 0) as [->|]; [reflexivity|].
  rewrite dec_acc_app, digits_val_app, IH by (apply div10_bound; exact H). cbn.
  pose proof (Z.mod_pos_bound m 10 ltac:(lia)). rewrite bz_digit_byte by lia.
  pose proof (Z.div_mod m 10 ltac:(lia)). lia.
Qed.

Lemma dec_acc_digits f : forall m acc,
  0 <= m -> Forall (fun b => is_ascii_digit b = true) acc ->
  Forall (fun b => is_ascii_digit b = true) (dec_acc f m acc).
Proof.
  induction f as [|f IH]; intros m acc Hm H; cbn; [exact H|].
  destruct (m =? 0); [exact H|]. apply IH; [apply Z.div_pos; lia|].
  constructor; [|exact H]. apply digit_byte_is_digit, Z.mod_pos_bound. lia.
Qed.

Lemma dec_acc_nonempty f m acc : 0 < m -> (0 < f)%nat -> dec_acc f m acc <> [].
Proof.
  intros Hm Hf. destruct f; [lia|]. cbn. destruct (Z.eqb_spec m 0); [lia|].
  rewrite dec_acc_app. destruct (dec_acc f (m / 10) []); discriminate.
Qed.

Lemma dec_val m : 0 <= m < 10 ^ 20 -> digits_val 0 (dec m) = m.
Proof.
  intros H. unfold dec. destruct (Z.eqb_spec m 0) as [->|]; [reflexivity|].
  apply dec_acc_val. exact H.
Qed.

Lemma dec_digits m : 0 <= m -> Forall (fun b => is_ascii_digit b = true) (dec m).
Proof.
  intros H. unfold dec. destruct (Z.eqb_spec m 0) as [->|].
  - repeat constructor.
  - apply dec_acc_digits; [exact H | constructor].
Qed.

Lemma digit_val_range b : is_ascii_digit b = true -> 0 <= bz b - 48 <= 9.
Proof.
  unfold is_ascii_digit. intros [H1%Z.leb_le H2%Z.leb_le]%andb_true_iff. lia.
Qed.

Lemma digits_val_ge l : forall a,
  0 <= a -> Forall (fun b => is_ascii_digit b = true) l -> a <= digits_val a l.
Proof.
  induction l as [|c l IH]; intros a Ha Hl; cbn [digits_val]; [lia|].
  inversion Hl as [|? ? Hc Hl']; subst. pose proof (digit_val_range c Hc).
  specialize (IH (a * 10 + (bz c - 48)) ltac:(lia) Hl'). lia.
Qed.

Lemma dec_acc_len f : forall m acc, (length (dec_acc f m acc) <= f + length acc)%nat.
Proof.
  induction f as [|f IH]; intros m acc; cbn [dec_acc]; [lia|].
  destruct (m =? 0); [lia|]. specialize (IH (m / 10) (digit_byte (m mod 10) :: acc)).
  cbn [length] in IH. lia.
Qed.

Lemma dec_nonempty m : 0 <= m -> dec m <> [].
Proof.
  intros H. unfold dec. destruct (Z.eqb_spec m 0); [discriminate|].
  apply dec_acc_nonempty; lia.
Qed.

Lemma abs_quot_rem_10 v :
  Z.abs (Z.rem v 10) = Z.abs v mod 10 /\ Z.abs (Z.quot v 10) = Z.abs v / 10.
Proof.
  rewrite <- Z.quot_div_nonneg, <- Z.rem_mod_nonneg by lia.
  rewrite <- Z.quot_abs, <- Z.rem_abs by lia. split; f_equal; reflexivity.
Qed.

Lemma push_int_digits_ok room : forall v acc,
  Z.abs v < 10 ^ Z.of_nat room ->
  push_int_digits room v acc = Ret (dec_acc room (Z.abs v) acc).
Proof.
  induction room as [|room IH]; intros v acc H; cbn [push_int_digits dec_acc].
  - destruct (Z.eqb_spec v 0); [reflexivity|]. cbn in H. lia.
  - destruct (Z.eqb_spec v 0) as [->|]; [reflexivity|].
    destruct (Z.eqb_spec (Z.abs v) 0); [lia|].
    destruct (abs_quot_rem_10 v) as [E1 E2]. rewrite E1, <- E2. apply IH.
    rewrite E2. apply div10_bound. lia.
Qed.

(** What [push_int] writes: an optional sign and the decimal numeral. *)
Definition int_text (n : Z) : list byte := if n <? 0 then bs "-" ++ dec (- n) else dec n.

Lemma push_int_ok out n : i64_min <= n <= i64_max -> push_int out n = Ret (out ++ int_text n).
Proof.
  unfold i64_min, i64_max. intros H. unfold push_int, int_text.
  destruct (Z.eqb_spec n 0) as [->|Hn]; [reflexivity|].
  rewrite push_int_digits_ok by (cbn; lia). cbn [mbind exec_bind].
  destruct (Z.ltb_spec n 0); unfold dec; rewrite ?Z.abs_neq, ?Z.abs_eq by lia.
  - destruct (Z.eqb_spec (- n) 0); [lia|]. rewrite <- app_assoc. reflexivity.
  - destruct (Z.eqb_spec n 0); [lia|]. reflexivity.
Qed.

Lemma dec_acc_0 f acc : dec_acc f 0 acc = acc.
Proof. destruct f; reflexivity. Qed.

Lemma bulk_header_digits_ok room : forall n acc,
  0 < n < 10 ^ Z.of_nat (S room) ->
  bulk_header_digits (S (S room)) n acc = Ret (dec_acc (S room) n acc).
Proof.
  induction room as [|room IH]; intros n acc H;
    change (bulk_header_digits (S ?k) n acc) with
      (if n / 10 =? 0 then match k with O => Panic | _ => Ret (digit_byte (n mod 10) :: acc) end
       else bulk_header_digits k (n / 10) (digit_byte (n mod 10) :: acc));
    cbn [dec_acc]; destruct (Z.eqb_spec n 0); try lia;
    destruct (Z.eqb_spec (n / 10) 0) as [E|E].
  - reflexivity.
  - exfalso. apply E, Z.div_small. cbn in H. lia.
  - reflexivity.
  - pose proof (div10_bound n (S room) ltac:(lia)). rewrite IH by lia. cbn [dec_acc].
    destruct (Z.eqb_spec (n / 10) 0); [contradiction | reflexivity].
Qed.

Lemma bulk_header_ok out len :
  0 <= len <= u64_max -> bulk_header out len = Ret (out ++ bs "$" ++ dec len ++ CRLF).
Proof.
  unfold u64_max. intros H. unfold bulk_header, dec.
  destruct (Z.eqb_spec len 0) as [->|]; [reflexivity|].
  rewrite bulk_header_digits_ok by (cbn; lia). cbn [mbind exec_bind].
  rewrite dec_acc_app. reflexivity.
Qed.

(** ** What the encoders write *)

Definition bulk_bytes (x : list byte) : list byte := bs "$" ++ dec (blen x) ++ CRLF ++ x ++ CRLF.

Lemma encode_bulk_ok out x :
  blen x <= u64_max -> encode_bulk out x = Ret (out ++ bulk_bytes x).
Proof.
  intros H. pose proof (blen_nonneg x). unfold encode_bulk.
  rewrite bulk_header_ok by lia. cbn [mbind exec_bind]. unfold bulk_bytes.
  rewrite <- !app_assoc. reflexivity.
Qed.

Lemma encode_bulks_ok args : forall out,
  Forall (fun x => blen x <= u64_max) args ->
  encode_bulks out args = Ret (out ++ concat (bulk_bytes <$> args)).
Proof.
  induction args as [|x args IH]; intros out H; cbn [encode_bulks fmap list_fmap concat].
  - rewrite app_nil_r. reflexivity.
  - inversion H; subst. rewrite encode_bulk_ok by assumption. cbn [mbind exec_bind].
    rewrite IH by assumption. rewrite <- app_assoc. reflexivity.
Qed.

Definition array_header (n : Z) : list byte := bs "*" ++ int_text n ++ CRLF.

Lemma encode_array_len_ok out n :
  i64_min <= n <= i64_max -> encode_array_len out n = Ret (out ++ array_header n).
Proof.
  intros H. unfold encode_array_len, array_header. rewrite push_int_ok by exact H.
  cbn [mbind exec_bind]. rewrite <- !app_assoc. reflexivity.
Qed.

Definition command_bytes (args : list (list byte)) : list byte :=
  array_header (blen args) ++ concat (bulk_bytes <$> args).

Lemma encode_command_ok out args :
  blen args <= i64_max -> Forall (fun x => blen x <= u64_max) args ->
  encode_command out args = Ret (out ++ command_bytes args).
Proof.
  intros Hn Hf. pose proof (blen_nonneg args). unfold encode_command, command_bytes.
  assert (i64_min <= blen args <= i64_max) by (unfold i64_min in *; lia).
  rewrite as_i64_id, encode_array_len_ok by assumption. cbn [mbind exec_bind].
  rewrite encode_bulks_ok by exact Hf. rewrite <- app_assoc. reflexivity.
Qed.

(** ** Properties *)

Lemma rotate_right_app {A} (l k : list A) : rotate_right (l ++ k) (blen k) = k ++ l.
Proof.
  unfold rotate_right. rewrite blen_app. replace (blen l + blen k - blen k) with (blen l) by lia.
  rewrite from_app_len, slice_from_app. reflexivity.
Qed.

(** [encode_bulk_with] writes the body first, then the header, and rotates
    the header into place; the result is the frame [encode_bulk] writes for the
    same bytes, whatever [out] held before. *)
Theorem encode_bulk_with_is_encode_bulk
    (out x : list byte) (body : list byte -> exec (list byte))
    (Hbody : body out = Ret (out ++ x)) (Hx : blen x <= u64_max) :
  encode_bulk_with out body = encode_bulk out x.
Proof.
  pose proof (blen_nonneg x). rewrite encode_bulk_ok by exact Hx.
  unfold encode_bulk_with. rewrite Hbody. cbn [mbind exec_bind].
  rewrite blen_app. replace (blen out + blen x - blen out) with (blen x) by lia.
  rewrite bulk_header_ok by lia. cbn [mbind exec_bind].
  set (h := bs "$" ++ dec (blen x) ++ CRLF). rewrite <- app_assoc.
  rewrite slice_from_app, from_app_len, !blen_app.
  replace (blen out + (blen x + blen h) - blen out - blen x) with (blen h) by lia.
  rewrite rotate_right_app. unfold bulk_bytes, h. rewrite <- !app_assoc. reflexivity.
Qed.

Lemma encode_bulk_with_is_encode_bulk_witness :
  encode_bulk_with (bs "x") (fun o => Ret (o ++ bs "twelve bytes")) =
  encode_bulk (bs "x") (bs "twelve bytes").
Proof.
  apply encode_bulk_with_is_encode_bulk; [reflexivity | vm_compute; discriminate].
Defined.
