(* ===== verification/Request.v ===== *)
(** * The owned request parser ([crates/kevy-resp/src/request.rs])

    [parse_command_into] turns the front of a connection's input buffer into an
    [Argv]: multi-bulk frames ([*N $L ...]) or inline lines, skipping empty
    commands.  [parsed] is [Result<Option<A>, ProtocolError>] with one more
    constructor for a panic (a failed [expect], or the loop not terminating),
    which the theorems exclude.

    The parser is verified against the [CrlfScanner] interface.  [command]
    below is the grammar of accepted inputs; the parser is sound and complete
    for it, stable when more bytes arrive, and never panics. *)

From Stdlib Require Import ZArith Lia Bool Strings.Byte Strings.String.
From stdpp Require Import base list.
From S2P Require Import Prelude FindCrlf Argv Encode.

#[local] Open Scope list_scope.
#[local] Open Scope Z_scope.
#[local] Open Scope kevy_scope.

(** ** Results *)

Inductive parsed (A : Type) : Type :=
| Done (a : A)                 (* [Ok(Some(a))] *)
| NeedMore                     (* [Ok(None)] *)
| Malformed (why : string)     (* [Err(ProtocolError::Malformed(why))] *)
| Panicked.
Arguments Done {A} a.
Arguments NeedMore {A}.
Arguments Malformed {A} why.
Arguments Panicked {A}.

#[global] Instance parsed_bind : MBind parsed := fun A B f m =>
  match m with
  | Done a => f a
  | NeedMore => NeedMore
  | Malformed e => Malformed e
  | Panicked => Panicked
  end.

(** [let Some(x) = o else { return Ok(None) }] *)
Definition need {A} (o : option A) : parsed A :=
  match o with Some x => Done x | None => NeedMore end.

(** [o.ok_or(ProtocolError::Malformed(why))?] *)
Definition ok_or {A} (o : option A) (why : string) : parsed A :=
  match o with Some x => Done x | None => Malformed why end.

(** [if bad { return Err(Malformed(why)) }] *)
Definition refuse (bad : bool) (why : string) : parsed unit :=
  if bad then Malformed why else Done tt.

(** [if short { return Ok(None) }] *)
Definition wait (short : bool) : parsed unit := if short then NeedMore else Done tt.

(** [o.expect(..)] inside the parser *)
Definition unwrap {A} (o : option A) : parsed A :=
  match o with Some x => Done x | None => Panicked end.

(** ** Limits and integers *)

Definition MAX_MULTIBULK_LEN : Z := 1024 * 1024.
Definition MAX_BULK_LEN : Z := 512 * 1024 * 1024.

(** The [for &b in digits] loop of [parse_int]. *)
Fixpoint parse_digits (acc : Z) (l : list byte) : option Z :=
  match l with
  | [] => Some acc
  | b :: r =>
      if negb (is_ascii_digit b) then None
      else a ← checked_i64 (acc * 10); a ← checked_i64 (a + (bz b - 48)); parse_digits a r
  end.

Definition parse_int (bytes : list byte) : option Z :=
  match bytes with
  | [] => None
  | b :: r =>
      let '(neg, digits) :=
        if b =b "-"%byte then (true, r)
        else if b =b "+"%byte then (false, r)
        else (false, bytes) in
      match digits with
      | [] => None
      | _ => acc ← parse_digits 0 digits; Some (if neg : bool then - acc else acc)
      end
  end.

(** ** Inline commands *)

(** [u8::is_ascii_whitespace] *)
Definition is_ascii_whitespace (b : byte) : bool :=
  (b =b x20) || (b =b x09) || (b =b x0a) || (b =b x0c) || (b =b x0d).

(** [slice::split]: the pieces between separators. *)
Fixpoint split_slice (sep : byte -> bool) (l : list byte) : list (list byte) :=
  match l with
  | [] => [[]]
  | b :: r =>
      if sep b then [] :: split_slice sep r
      else match split_slice sep r with
           | h :: t => (b :: h) :: t
           | [] => [[b]]
           end
  end.

Definition non_empty (s : list byte) : bool := match s with [] => false | _ => true end.

Definition inline_tokens (line : list byte) : list (list byte) :=
  List.filter non_empty (split_slice is_ascii_whitespace line).

Section Parser.
Context `{Scan : CrlfScanner}.

Definition parse_inline_into (buf : list byte) (dst : Argv) : parsed Z * Argv :=
  match find_crlf buf 0 with
  | None => (NeedMore, dst)
  | Some eol =>
      let line := slice buf 0 eol in
      (Done (eol + 2), fold_left argv_push (inline_tokens line) dst)
  end.

(** ** Multi-bulk commands *)

(** [validate_multibulk_frame]; [count] is the number of iterations left. *)
Fixpoint validate_multibulk_frame (buf : list byte) (count : nat) (pos total : Z)
  : parsed (Z * Z) :=
  match count with
  | O => Done (pos, total)
  | S count' =>
      b ← need (get buf pos);
      _ ← refuse (negb (b =b "$"%byte)) "expected bulk string";
      len_end ← need (find_crlf buf (pos + 1));
      len ← ok_or (parse_int (slice buf (pos + 1) len_end)) "bad bulk length";
      _ ← refuse (len <? 0) "negative bulk length in request";
      _ ← refuse (MAX_BULK_LEN <? len) "bulk length exceeds proto-max-bulk-len";
      let data_end := len_end + 2 + len in
      _ ← wait (blen buf <? data_end + 2);
      _ ← refuse (negb (bool_decide (slice buf data_end (data_end + 2) = CRLF)))
            "bulk string not CRLF-terminated";
      validate_multibulk_frame buf count' (data_end + 2) (total + len)
  end.

Fixpoint copy_multibulk_args (buf : list byte) (p : Z) (count : nat) (dst : Argv)
  : parsed Argv :=
  match count with
  | O => Done dst
  | S count' =>
      len_end ← unwrap (find_crlf buf (p + 1));
      len ← unwrap (parse_int (slice buf (p + 1) len_end));
      let data_start := len_end + 2 in
      arg ← match index_range buf data_start (data_start + len) with
            | Ret a => Done a | Panic => Panicked end;
      copy_multibulk_args buf (data_start + len + 2) count' (argv_push dst arg)
  end.

Definition parse_multibulk_into (buf : list byte) (dst : Argv) : parsed Z * Argv :=
  match find_crlf buf 1 with
  | None => (NeedMore, dst)
  | Some hdr_end =>
      match parse_int (slice buf 1 hdr_end) with
      | None => (Malformed "bad multibulk count", dst)
      | Some count =>
          if count <? 0 then (Done (hdr_end + 2), dst)
          else if MAX_MULTIBULK_LEN <? count then (Malformed "multibulk count exceeds limit", dst)
          else
            let start := hdr_end + 2 in
            match validate_multibulk_frame buf (Z.to_nat count) start 0 with
            | Done (end_pos, _) =>
                match copy_multibulk_args buf start (Z.to_nat count) dst with
                | Done dst' => (Done end_pos, dst')
                | _ => (Panicked, dst)
                end
            | NeedMore => (NeedMore, dst)
            | Malformed e => (Malformed e, dst)
            | Panicked => (Panicked, dst)
            end
      end
  end.

(** ** The command loop *)

Fixpoint parse_command_loop (fuel : nat) (buf : list byte) (base : Z) (dst : Argv)
  : parsed Z * Argv :=
  match fuel with
  | O => (Panicked, dst)
  | S fuel' =>
      let dst := argv_clear dst in
      let rest := from buf base in
      match rest with
      | [] => (NeedMore, dst)
      | b :: _ =>
          let '(r, dst) :=
            if b =b "*"%byte then parse_multibulk_into rest dst
            else parse_inline_into rest dst in
          match r with
          | Done used =>
              if argv_is_empty dst then parse_command_loop fuel' buf (base + used) dst
              else (Done (base + used), dst)
          | NeedMore => (NeedMore, dst)
          | Malformed e => (Malformed e, dst)
          | Panicked => (Panicked, dst)
          end
      end
  end.

Definition parse_command_into (buf : list byte) (dst : Argv) : parsed Z * Argv :=
  parse_command_loop (S (length buf)) buf 0 dst.

Definition parse_command (buf : list byte) : parsed (Argv * Z) :=
  let '(r, argv) := parse_command_into buf argv_default in
  match r with
  | Done consumed => Done (argv, consumed)
  | NeedMore => NeedMore
  | Malformed e => Malformed e
  | Panicked => Panicked
  end.
End Parser.

(** ** Integers *)

Lemma parse_digits_nonneg l : forall acc r, 0 <= acc -> parse_digits acc l = Some r -> acc <= r.
Proof.
  induction l as [|b l IH]; intros acc r Ha H; cbn in H; [injection H as <-; lia|].
  unfold is_ascii_digit in H. destruct (Z.leb_spec 48 (bz b)); [|discriminate].
  destruct (Z.leb_spec (bz b) 57); [|discriminate]. cbn in H.
  destruct (checked_i64 (acc * 10)) as [a|] eqn:E1; [|discriminate].
  apply checked_i64_Some in E1 as [-> _]. cbn in H.
  destruct (checked_i64 _) as [a|] eqn:E2; [|discriminate].
  apply checked_i64_Some in E2 as [-> _]. cbn in H. apply IH in H; lia.
Qed.

(** Reading digits is evaluating them, when the value fits. *)
Lemma parse_digits_val l : forall acc,
  0 <= acc -> Forall (fun b => is_ascii_digit b = true) l -> digits_val acc l <= i64_max ->
  parse_digits acc l = Some (digits_val acc l).
Proof.
  induction l as [|b l IH]; intros acc Ha Hf Hm; cbn [parse_digits digits_val] in *; [reflexivity|].
  inversion Hf as [|? ? Hb Hf']; subst. rewrite Hb. cbn [negb].
  pose proof (digit_val_range b Hb) as Hd.
  pose proof (digits_val_ge l (acc * 10 + (bz b - 48)) ltac:(lia) Hf') as Hle.
  rewrite (checked_i64_ok (acc * 10)) by (unfold i64_min; lia). cbn [mbind option_bind].
  rewrite checked_i64_ok by (unfold i64_min; lia). cbn [mbind option_bind].
  apply IH; [lia | exact Hf' | exact Hm].
Qed.

Lemma digit_not_sign b :
  is_ascii_digit b = true -> b <> "-"%byte /\ b <> "+"%byte /\ b <> CR.
Proof. intros H. repeat split; intros ->; discriminate. Qed.

Lemma parse_int_dec m : 0 <= m <= i64_max -> parse_int (dec m) = Some m.
Proof.
  intros H. pose proof (dec_digits m ltac:(lia)) as Hf. pose proof (dec_nonempty m ltac:(lia)).
  unfold parse_int. destruct (dec m) as [|b r] eqn:E; [contradiction|].
  inversion Hf as [|? ? Hb _]; subst.
  destruct (digit_not_sign b Hb) as (H1 & H2 & _).
  destruct (byte_eqb_spec b "-"%byte); [contradiction|].
  destruct (byte_eqb_spec b "+"%byte); [contradiction|].
  assert (Hv : digits_val 0 (b :: r) = m)
    by (rewrite <- E; apply dec_val; unfold i64_max in H; lia).
  cbv beta iota. rewrite parse_digits_val, Hv by (rewrite ?Hv; auto; lia). reflexivity.
Qed.

(** [parse_int] reads back what [push_int] writes, except [i64::MIN]. *)
Lemma parse_int_int_text n : i64_min < n <= i64_max -> parse_int (int_text n) = Some n.
Proof.
  intros H. unfold int_text. destruct (Z.ltb_spec n 0); [|apply parse_int_dec; lia].
  assert (Hm : 0 <= - n <= i64_max) by (unfold i64_min, i64_max in *; lia).
  pose proof (dec_nonempty (- n) ltac:(lia)) as Hne.
  change (bs "-" ++ dec (- n)) with ("-"%byte :: dec (- n)).
  assert (E : parse_int ("-"%byte :: dec (- n)) = acc ← parse_digits 0 (dec (- n)); Some (- acc))
    by (unfold parse_int; destruct (dec (- n)); [contradiction | reflexivity]).
  assert (Hv : digits_val 0 (dec (- n)) = - n) by (apply dec_val; unfold i64_max in *; lia).
  rewrite E, parse_digits_val; rewrite ?Hv; try (apply dec_digits); try lia.
  cbn. f_equal. lia.
Qed.

Lemma digits_no_cr l : Forall (fun b => is_ascii_digit b = true) l -> Forall (fun b => b <> CR) l.
Proof. intros Hl. eapply Forall_impl; [exact Hl|]. intros b H. apply digit_not_sign, H. Qed.

Lemma no_cr_line_ok l : Forall (fun b => b <> CR) l -> line_ok l.
Proof.
  induction 1 as [|b l Hb _ IH]; [apply line_ok_nil|].
  apply line_ok_cons; [exact IH | contradiction].
Qed.

Lemma dec_line_ok m : 0 <= m -> line_ok (dec m).
Proof. intros H. apply no_cr_line_ok, digits_no_cr, dec_digits, H. Qed.

Lemma int_text_line_ok n : line_ok (int_text n).
Proof.
  apply no_cr_line_ok. unfold int_text. destruct (Z.ltb_spec n 0).
  - constructor; [discriminate|]. apply digits_no_cr, dec_digits. lia.
  - apply digits_no_cr, dec_digits. lia.
Qed.

(** ** Grammar of requests *)

(** One bulk argument on the wire: any header [parse_int] reads as its length. *)
Inductive bulk : list byte -> list byte -> Prop :=
| bulk_intro h x :
    line_ok h -> parse_int h = Some (blen x) -> blen x <= MAX_BULK_LEN ->
    bulk x (("$"%byte :: h) ++ CRLF ++ x ++ CRLF).

(** One request frame and the arguments it carries. *)
Inductive frame : list byte -> list (list byte) -> Prop :=
| frame_inline line :
    line_ok line -> head (line ++ CRLF) <> Some "*"%byte ->
    frame (line ++ CRLF) (inline_tokens line)
| frame_null h c :
    line_ok h -> parse_int h = Some c -> c < 0 ->
    frame (("*"%byte :: h) ++ CRLF) []
| frame_multi h xs fs :
    line_ok h -> parse_int h = Some (blen xs) -> blen xs <= MAX_MULTIBULK_LEN ->
    Forall2 bulk xs fs ->
    frame (("*"%byte :: h) ++ CRLF ++ concat fs) xs.

(** A command: empty frames, then a frame with at least one argument. *)
Inductive command : list byte -> list (list byte) -> Prop :=
| command_frame f xs : frame f xs -> xs <> [] -> command f xs
| command_skip f c xs : frame f [] -> command c xs -> command (f ++ c) xs.

(** [parse_step] runs the parser's combinators on a decided outcome;
    [parse_inv H] inverts the first undecided one in [H]. *)
Ltac parse_step :=
  cbn [mbind parsed_bind need ok_or refuse wait unwrap negb].
Ltac parse_step_in H :=
  cbn [mbind parsed_bind need ok_or refuse wait unwrap negb] in H.
Ltac parse_inv H E :=
  lazymatch type of H with
  | mbind _ (need ?o) = _ => destruct o eqn:E
  | mbind _ (ok_or ?o _) = _ => destruct o eqn:E
  | mbind _ (refuse ?b _) = _ => destruct b eqn:E
  | mbind _ (wait ?b) = _ => destruct b eqn:E
  end; parse_step_in H; [try discriminate H | try discriminate H].

Section Theory.
Context `{Scan : CrlfScanner}.

Lemma find_crlf_line pre h rest :
  line_ok h -> find_crlf (pre ++ h ++ CRLF ++ rest) (blen pre) = Some (blen pre + blen h).
Proof.
  intros H. rewrite find_crlf_ok by apply blen_nonneg. rewrite from_app_len.
  apply line_ok_scan, H.
Qed.

Lemma find_crlf_split buf s p :
  0 <= s -> find_crlf buf s = Some p ->
  exists h rest, from buf s = h ++ CRLF ++ rest /\ line_ok h /\ p = s + blen h.
Proof. intros Hs H. rewrite find_crlf_ok in H by exact Hs. apply crlf_from_split, H. Qed.

Lemma find_crlf_extend buf more s p :
  0 <= s -> find_crlf buf s = Some p -> find_crlf (buf ++ more) s = Some p.
Proof.
  intros Hs H. rewrite find_crlf_ok in * by exact Hs.
  assert (s <= blen buf).
  { destruct (Z.le_gt_cases s (blen buf)); [assumption|].
    rewrite from_ge in H by lia. discriminate. }
  rewrite from_app_l by lia. apply crlf_from_extend, H.
Qed.

(** *** Completeness of the multi-bulk passes *)

Lemma bulk_positions pre h x rest :
  let buf := pre ++ (("$"%byte :: h) ++ CRLF ++ x ++ CRLF) ++ rest in
  line_ok h ->
  get buf (blen pre) = Some "$"%byte /\
  find_crlf buf (blen pre + 1) = Some (blen pre + 1 + blen h) /\
  slice buf (blen pre + 1) (blen pre + 1 + blen h) = h /\
  let ds := blen pre + 1 + blen h + 2 in
  slice buf ds (ds + blen x) = x /\
  slice buf (ds + blen x) (ds + blen x + 2) = CRLF /\
  ds + blen x + 2 = blen pre + blen (("$"%byte :: h) ++ CRLF ++ x ++ CRLF) /\
  ds + blen x + 2 <= blen buf.
Proof.
  intros buf Hh.
  assert (E1 : buf = (pre ++ ["$"%byte]) ++ h ++ CRLF ++ x ++ CRLF ++ rest)
    by (unfold buf; rewrite <- !app_assoc; reflexivity).
  assert (E2 : buf = (pre ++ "$"%byte :: h ++ CRLF) ++ x ++ CRLF ++ rest)
    by (unfold buf; rewrite <- !app_assoc; cbn [app]; rewrite <- !app_assoc; reflexivity).
  assert (E3 : buf = (pre ++ "$"%byte :: h ++ CRLF ++ x) ++ CRLF ++ rest)
    by (unfold buf; rewrite <- !app_assoc; cbn [app]; rewrite <- !app_assoc; reflexivity).
  assert (L1 : blen (pre ++ ["$"%byte]) = blen pre + 1) by (rewrite blen_app; reflexivity).
  assert (L2 : blen (pre ++ "$"%byte :: h ++ CRLF) = blen pre + 1 + blen h + 2)
    by (rewrite blen_app, blen_cons, blen_app; change (blen CRLF) with 2; lia).
  assert (L3 : blen (pre ++ "$"%byte :: h ++ CRLF ++ x) = blen pre + 1 + blen h + 2 + blen x)
    by (rewrite blen_app, blen_cons, !blen_app; change (blen CRLF) with 2; lia).
  repeat split.
  - apply get_mid.
  - rewrite <- L1, E1. apply find_crlf_line, Hh.
  - rewrite <- L1, E1. apply slice_mid.
  - rewrite <- L2, E2. apply slice_mid.
  - rewrite <- L3, E3. apply (slice_mid _ CRLF).
  - rewrite blen_app, blen_cons, !blen_app. change (blen CRLF) with 2. lia.
  - rewrite E3, blen_app, L3, blen_app. change (blen CRLF) with 2. pose proof (blen_nonneg rest). lia.
Qed.

Lemma validate_complete xs fs : Forall2 bulk xs fs -> forall pre rest total,
  validate_multibulk_frame (pre ++ concat fs ++ rest) (length xs) (blen pre) total =
    Done (blen pre + blen (concat fs), total + total_len xs).
Proof.
  induction 1 as [|x f xs fs Hb _ IH]; intros pre rest total.
  - cbn. rewrite !Z.add_0_r. reflexivity.
  - destruct Hb as [h x Hh Hp Hm]. cbn [concat length validate_multibulk_frame].
    rewrite <- app_assoc.
    destruct (bulk_positions pre h x (concat fs ++ rest) Hh) as (G & F & S1 & S2 & S3 & L & B).
    rewrite G. parse_step. change ("$"%byte =b "$"%byte) with true. parse_step.
    rewrite F. parse_step. rewrite S1, Hp. parse_step.
    pose proof (blen_nonneg x). destruct (Z.ltb_spec (blen x) 0); [lia|]. parse_step.
    destruct (Z.ltb_spec MAX_BULK_LEN (blen x)); [lia|]. parse_step.
    destruct (Z.ltb_spec (blen (pre ++ (("$"%byte :: h) ++ CRLF ++ x ++ CRLF) ++ concat fs ++ rest))
                (blen pre + 1 + blen h + 2 + blen x + 2)); [lia|]. parse_step.
    rewrite S3, bool_decide_true by reflexivity. parse_step.
    rewrite L, <- blen_app, app_assoc, IH, total_len_cons, !blen_app. do 2 f_equal; lia.
Qed.

Lemma copy_complete xs fs : Forall2 bulk xs fs -> forall pre rest dst,
  copy_multibulk_args (pre ++ concat fs ++ rest) (blen pre) (length xs) dst =
    Done (argv_extend dst xs).
Proof.
  induction 1 as [|x f xs fs Hb _ IH]; intros pre rest dst; [reflexivity|].
  destruct Hb as [h x Hh Hp Hm]. cbn [concat length copy_multibulk_args].
  rewrite <- app_assoc.
  destruct (bulk_positions pre h x (concat fs ++ rest) Hh) as (_ & F & S1 & S2 & _ & L & B).
  rewrite F. parse_step. rewrite S1, Hp. parse_step. pose proof (blen_nonneg x).
  rewrite index_range_ok by (cbn in *; lia). rewrite S2. parse_step.
  rewrite L, <- blen_app, app_assoc. apply IH.
Qed.

(** *** Soundness of the multi-bulk passes *)

Lemma slice_CRLF buf p :
  0 <= p -> slice buf p (p + 2) = CRLF -> from buf p = CRLF ++ from buf (p + 2).
Proof.
  intros Hp H. rewrite slice_from in H. replace (p + 2 - p) with 2 in H by lia.
  rewrite <- from_from by lia. rewrite <- H at 1. symmetry. apply take_drop.
Qed.

Lemma from_slice {A} (buf : list A) s e :
  0 <= s <= e -> from buf s = slice buf s e ++ from buf e.
Proof.
  intros H. rewrite slice_from. replace e with (s + (e - s)) at 2 by lia.
  rewrite <- from_from by lia. symmetry. apply take_drop.
Qed.

Lemma from_line buf s h rest :
  0 <= s -> from buf s = h ++ CRLF ++ rest -> from buf (s + blen h + 2) = rest.
Proof.
  intros Hs H. pose proof (blen_nonneg h).
  replace (s + blen h + 2) with (s + blen (h ++ CRLF))
    by (rewrite blen_app; change (blen CRLF) with 2; lia).
  rewrite <- from_from by (rewrite ?blen_app; change (blen CRLF) with 2; lia).
  rewrite H, app_assoc. apply from_app_len.
Qed.

Lemma validate_sound (n : nat) : forall buf pos total pos' total',
  0 <= pos <= blen buf ->
  validate_multibulk_frame buf n pos total = Done (pos', total') ->
  exists xs fs, length xs = n /\ Forall2 bulk xs fs /\
    from buf pos = concat fs ++ from buf pos' /\ pos' = pos + blen (concat fs) /\
    pos' <= blen buf.
Proof.
  induction n as [|n IH]; intros buf pos total pos' total' Hpos H.
  - injection H as <- <-. exists [], [].
    split; [reflexivity|]. split; [apply Forall2_nil_2; reflexivity|].
    repeat split; [cbn [concat]; rewrite blen_nil; lia | lia].
  - cbn [validate_multibulk_frame] in H.
    parse_inv H Eb. parse_inv H Ed. parse_inv H El.
    destruct (find_crlf_split buf (pos + 1) z ltac:(lia) El) as (h & rest & Ef & Hh & ->).
    assert (Es : slice buf (pos + 1) (pos + 1 + blen h) = h).
    { rewrite slice_from, Ef. replace (_ - _) with (blen h) by lia.
      rewrite blen_to_nat. apply take_app_length. }
    rewrite Es in H. pose proof (blen_nonneg h).
    parse_inv H Ei. parse_inv H En. apply Z.ltb_ge in En.
    parse_inv H Em. apply Z.ltb_ge in Em. parse_inv H Ew. apply Z.ltb_ge in Ew.
    parse_inv H Ec. apply negb_false_iff, bool_decide_eq_true in Ec.
    apply IH in H as (xs & fs & Hlen & Hfs & Hfrom & He & Hle); [|lia].
    set (ds := pos + 1 + blen h + 2) in *. set (x := slice buf ds (ds + z)).
    assert (Hx : blen x = z) by (unfold x; rewrite blen_slice; lia).
    exists (x :: xs), ((("$"%byte :: h) ++ CRLF ++ x ++ CRLF) :: fs).
    repeat split; [cbn; lia | | | | lia].
    + constructor; [|exact Hfs]. constructor; [exact Hh | rewrite Hx; exact Ei | lia].
    + rewrite (from_cons_get buf pos b) by (auto; lia).
      apply negb_false_iff in Ed. destruct (byte_eqb_spec b "$"%byte) as [->|]; [|discriminate].
      pose proof (from_line buf (pos + 1) h rest ltac:(lia) Ef) as Er. fold ds in Er.
      rewrite Ef, <- Er, (from_slice buf ds (ds + z)) by lia. fold x.
      rewrite (slice_CRLF buf (ds + z)) by (auto; lia). rewrite Hfrom.
      cbn [concat app]. rewrite <- !app_assoc. reflexivity.
    + cbn [concat]. rewrite (blen_app _ (concat fs)), blen_app, blen_cons, !blen_app.
      change (blen CRLF) with 2. lia.
Qed.

(** *** One frame *)

(** The body of the command loop, on the bytes left and a cleared argv. *)
Definition parse_one (rest : list byte) : parsed Z * Argv :=
  match rest with
  | b :: _ =>
      if b =b "*"%byte then parse_multibulk_into rest argv_default
      else parse_inline_into rest argv_default
  | [] => (NeedMore, argv_default)
  end.

Lemma loop_unfold fuel buf base dst :
  parse_command_loop (S fuel) buf base dst =
    let '(r, a) := parse_one (from buf base) in
    match r with
    | Done used =>
        if argv_is_empty a then parse_command_loop fuel buf (base + used) a
        else (Done (base + used), a)
    | NeedMore => (NeedMore, a)
    | Malformed e => (Malformed e, a)
    | Panicked => (Panicked, a)
    end.
Proof. cbn [parse_command_loop]. unfold parse_one. destruct (from buf base); reflexivity. Qed.

Lemma tag_header t h more :
  line_ok h ->
  find_crlf (t :: h ++ CRLF ++ more) 1 = Some (1 + blen h) /\
  slice (t :: h ++ CRLF ++ more) 1 (1 + blen h) = h.
Proof.
  intros Hh. split.
  - exact (find_crlf_line [t] h more Hh).
  - exact (slice_mid [t] h (CRLF ++ more)).
Qed.

Lemma parse_one_complete f xs more :
  frame f xs -> parse_one (f ++ more) = (Done (blen f), argv_from xs).
Proof.
  intros [line Hl Hs | h c Hl Hp Hc | h ys fs Hl Hp Hm Hfs].
  - unfold parse_one. rewrite <- app_assoc.
    pose proof (find_crlf_line [] line more Hl) as Hf. cbn [app] in Hf.
    change (blen []) with 0 in Hf. rewrite Z.add_0_l in Hf.
    destruct (line ++ CRLF ++ more) as [|b r] eqn:E; [destruct line; discriminate|].
    destruct (byte_eqb_spec b "*"%byte) as [->|].
    { exfalso. apply Hs. rewrite app_assoc in E. destruct (line ++ CRLF) eqn:E2;
        [destruct line; discriminate|]. injection E as -> _. reflexivity. }
    rewrite <- E in *. unfold parse_inline_into. rewrite Hf.
    rewrite slice_from_app. rewrite blen_app. reflexivity.
  - unfold parse_one. rewrite <- !app_assoc. cbn [app].
    change ("*"%byte =b "*"%byte) with true. cbv iota. unfold parse_multibulk_into.
    destruct (tag_header "*"%byte h more Hl) as [-> ->]. rewrite Hp.
    destruct (Z.ltb_spec c 0); [|lia]. rewrite blen_cons, blen_app.
    change (blen CRLF) with 2. rewrite Z.add_assoc. reflexivity.
  - unfold parse_one. rewrite <- !app_assoc. cbn [app].
    change ("*"%byte =b "*"%byte) with true. cbv iota. unfold parse_multibulk_into.
    destruct (tag_header "*"%byte h (concat fs ++ more) Hl) as [-> ->]. rewrite Hp.
    pose proof (blen_nonneg ys).
    destruct (Z.ltb_spec (blen ys) 0); [lia|].
    destruct (Z.ltb_spec MAX_MULTIBULK_LEN (blen ys)); [lia|].
    assert (E : "*"%byte :: h ++ CRLF ++ concat fs ++ more =
                (("*"%byte :: h) ++ CRLF) ++ concat fs ++ more)
      by (rewrite <- !app_assoc; reflexivity).
    assert (L : 1 + blen h + 2 = blen (("*"%byte :: h) ++ CRLF))
      by (rewrite blen_app, blen_cons; reflexivity).
    rewrite L, E, blen_to_nat.
    rewrite (validate_complete _ _ Hfs), (copy_complete _ _ Hfs).
    rewrite <- blen_app, <- app_assoc. reflexivity.
Qed.

Lemma frame_len f xs : frame f xs -> 2 <= blen f.
Proof.
  intros [line ? ?|h c ? ? ?|h ys fs ? ? ? ?]; rewrite !blen_app; change (blen CRLF) with 2.
  - pose proof (blen_nonneg line). lia.
  - pose proof (blen_nonneg ("*"%byte :: h)). lia.
  - pose proof (blen_nonneg ("*"%byte :: h)). pose proof (blen_nonneg (concat fs)). lia.
Qed.

Lemma take_app_blen {A} (l k : list A) : take (Z.to_nat (blen l)) (l ++ k) = l.
Proof. rewrite blen_to_nat. apply take_app_length. Qed.

(** One frame is read exactly when the bytes start with a frame. *)
Lemma parse_one_sound rest used a :
  parse_one rest = (Done used, a) ->
  exists f xs more, rest = f ++ more /\ frame f xs /\ used = blen f /\ a = argv_from xs.
Proof.
  intros H. destruct rest as [|b r] eqn:Er; [discriminate|]. unfold parse_one in H.
  destruct (byte_eqb_spec b "*"%byte) as [->|Hne].
  - unfold parse_multibulk_into in H. rewrite <- Er in *.
    destruct (find_crlf rest 1) as [e|] eqn:Ef; [|discriminate].
    destruct (find_crlf_split rest 1 e ltac:(lia) Ef) as (h & more & Es & Hh & ->).
    assert (E : rest = "*"%byte :: h ++ CRLF ++ more).
    { rewrite Er in *. cbn in Es. f_equal. exact Es. }
    replace (slice rest 1 (1 + blen h)) with h in H
      by (rewrite E; symmetry; apply (tag_header "*"%byte h more Hh)).
    destruct (parse_int h) as [c|] eqn:Ep; [|discriminate].
    destruct (Z.ltb_spec c 0) as [Hc|Hc].
    + injection H as <- <-. exists (("*"%byte :: h) ++ CRLF), [], more. repeat split.
      * rewrite E, <- !app_assoc. reflexivity.
      * econstructor; eauto.
      * rewrite blen_app, blen_cons. reflexivity.
    + destruct (Z.ltb_spec MAX_MULTIBULK_LEN c); [discriminate|].
      set (start := 1 + blen h + 2) in *.
      destruct (validate_multibulk_frame rest (Z.to_nat c) start 0) as [[e t]| | |] eqn:Ev;
        try discriminate.
      assert (Hst : start = blen (("*"%byte :: h) ++ CRLF))
        by (unfold start; rewrite blen_app, blen_cons; reflexivity).
      assert (E2 : rest = (("*"%byte :: h) ++ CRLF) ++ more) by (rewrite E, <- !app_assoc; reflexivity).
      pose proof (blen_nonneg more). pose proof (blen_nonneg (("*"%byte :: h) ++ CRLF)).
      apply validate_sound in Ev as (xs & fs & Hlen & Hfs & Hfrom & He & _);
        [|rewrite Hst, E2, (blen_app _ more); lia].
      rewrite Hst in Hfrom, He, H. rewrite E2, from_app_len, <- E2 in Hfrom.
      set (tail := from rest e) in *. rewrite E2, Hfrom, <- Hlen, (copy_complete _ _ Hfs) in H.
      injection H as <- <-.
      exists (("*"%byte :: h) ++ CRLF ++ concat fs), xs, tail. repeat split.
      * rewrite E2, Hfrom, <- !app_assoc. reflexivity.
      * assert (Hcx : c = blen xs) by (unfold blen; lia).
        constructor; auto; rewrite <- Hcx; auto.
      * rewrite He, app_assoc, (blen_app _ (concat fs)). reflexivity.
  - unfold parse_inline_into in H. rewrite <- Er in *.
    destruct (find_crlf rest 0) as [e|] eqn:Ef; [|discriminate].
    destruct (find_crlf_split rest 0 e ltac:(lia) Ef) as (line & more & Es & Hh & ->).
    rewrite from_0, app_assoc in Es. rewrite Z.add_0_l in H.
    replace (slice rest 0 (blen line)) with line in H
      by (rewrite Es, <- app_assoc; symmetry; apply slice_from_app).
    injection H as <- <-. exists (line ++ CRLF), (inline_tokens line), more. repeat split.
    + exact Es.
    + constructor; [exact Hh|]. intros Hs. apply Hne. rewrite Er in Es.
      destruct (line ++ CRLF); [discriminate|]. injection Es as -> _. injection Hs as ->. reflexivity.
    + rewrite blen_app. reflexivity.
Qed.

(** *** Errors, panics and more bytes *)

Lemma validate_no_panic (n : nat) : forall buf pos total,
  validate_multibulk_frame buf n pos total <> Panicked.
Proof.
  induction n as [|n IH]; intros buf pos total H; [discriminate|].
  cbn [validate_multibulk_frame] in H.
  parse_inv H Eb. parse_inv H Ed. parse_inv H El. parse_inv H Ei. parse_inv H En.
  parse_inv H Em. parse_inv H Ew. parse_inv H Ec. exact (IH _ _ _ H).
Qed.

Lemma copy_after_validate buf (n : nat) pos total r dst :
  0 <= pos <= blen buf ->
  validate_multibulk_frame buf n pos total = Done r ->
  exists xs, copy_multibulk_args buf pos n dst = Done (argv_extend dst xs).
Proof.
  intros Hpos H. destruct r as [pos' total'].
  apply validate_sound in H as (xs & fs & Hlen & Hfs & Hfrom & _); [|exact Hpos].
  exists xs. destruct (split_at buf pos Hpos) as (pre & E & Hl).
  rewrite E, Hfrom, <- Hlen, <- Hl. apply (copy_complete _ _ Hfs).
Qed.

Lemma find_crlf_le buf s p : 0 <= s -> find_crlf buf s = Some p -> s <= p /\ p + 2 <= blen buf.
Proof.
  intros Hs H. destruct (find_crlf_split buf s p Hs H) as (h & rest & E & _ & ->).
  pose proof (blen_nonneg h). pose proof (blen_nonneg rest). split; [lia|].
  assert (s <= blen buf).
  { destruct (Z.le_gt_cases s (blen buf)); [assumption|].
    rewrite from_ge in E by lia. destruct h; discriminate. }
  pose proof (blen_from buf s ltac:(lia)) as Hb. rewrite E, !blen_app in Hb.
  change (blen CRLF) with 2 in Hb. lia.
Qed.

(** Outcomes of one frame other than [Done]. *)
Lemma parse_one_fail rest r a :
  parse_one rest = (r, a) ->
  match r with
  | Done _ => True
  | NeedMore | Malformed _ => a = argv_default
  | Panicked => False
  end.
Proof.
  intros H. destruct rest as [|b rst] eqn:Er; [injection H as <- <-; reflexivity|].
  unfold parse_one in H. destruct (b =b "*"%byte).
  - unfold parse_multibulk_into in H. rewrite <- Er in *.
    destruct (find_crlf rest 1) as [e|] eqn:Ef; [|injection H as <- <-; reflexivity].
    destruct (find_crlf_le rest 1 e ltac:(lia) Ef).
    destruct (parse_int _) as [c|]; [|injection H as <- <-; reflexivity].
    destruct (c <? 0); [injection H as <- <-; exact I|].
    destruct (MAX_MULTIBULK_LEN <? c); [injection H as <- <-; reflexivity|].
    destruct (validate_multibulk_frame _ _ _ _) as [[e2 t]| |w|] eqn:Ev;
      [| injection H as <- <-; reflexivity | injection H as <- <-; reflexivity
       | destruct (validate_no_panic _ _ _ _ Ev)].
    apply copy_after_validate with (dst := argv_default) in Ev as [xs Hxs]; [|lia].
    rewrite Hxs in H. injection H as <- <-. exact I.
  - unfold parse_inline_into in H. destruct (find_crlf _ 0); injection H as <- <-;
      [exact I | reflexivity].
Qed.

Lemma validate_malformed_stable (n : nat) more : forall buf pos total e,
  0 <= pos ->
  validate_multibulk_frame buf n pos total = Malformed e ->
  validate_multibulk_frame (buf ++ more) n pos total = Malformed e.
Proof.
  induction n as [|n IH]; intros buf pos total e Hpos H; [discriminate|].
  cbn [validate_multibulk_frame] in *. parse_inv H Eb.
  pose proof (get_Some_lt buf pos b ltac:(lia) Eb).
  rewrite get_app_l, Eb by lia. parse_step.
  parse_inv H Ed; parse_step; [exact H|].
  parse_inv H El. rewrite (find_crlf_extend buf more (pos + 1) z ltac:(lia) El). parse_step.
  destruct (find_crlf_le buf (pos + 1) z ltac:(lia) El). rewrite slice_app_l by lia.
  parse_inv H Ei; parse_step; [|exact H].
  parse_inv H En; parse_step; [exact H|]. apply Z.ltb_ge in En.
  parse_inv H Em; parse_step; [exact H|].
  parse_inv H Ew. apply Z.ltb_ge in Ew.
  destruct (Z.ltb_spec (blen (buf ++ more)) (z + 2 + z0 + 2)) as [Hlt|_];
    [rewrite blen_app in Hlt; pose proof (blen_nonneg more); lia|]. parse_step.
  rewrite slice_app_l by lia.
  parse_inv H Ec; parse_step; [exact H|]. apply IH; [lia | exact H].
Qed.

(** A decided frame stays decided when more bytes arrive. *)
Lemma parse_one_stable rest more r a :
  parse_one rest = (r, a) -> r <> NeedMore -> parse_one (rest ++ more) = (r, a).
Proof.
  intros H Hr. destruct r as [used| |e|]; [|contradiction| |destruct (parse_one_fail _ _ _ H)].
  - destruct (parse_one_sound _ _ _ H) as (f & xs & m & -> & Hf & -> & ->).
    rewrite <- app_assoc. apply parse_one_complete, Hf.
  - destruct rest as [|b rst] eqn:Er; [discriminate|]. cbn [app]. unfold parse_one in *.
    destruct (b =b "*"%byte).
    + unfold parse_multibulk_into in *.
      change (b :: rst ++ more) with ((b :: rst) ++ more). rewrite <- Er in *.
      destruct (find_crlf rest 1) as [p|] eqn:Ef; [|discriminate].
      rewrite (find_crlf_extend rest more 1 p ltac:(lia) Ef).
      destruct (find_crlf_le rest 1 p ltac:(lia) Ef). rewrite slice_app_l by lia.
      destruct (parse_int _) as [c|]; [|exact H].
      destruct (c <? 0); [discriminate|].
      destruct (MAX_MULTIBULK_LEN <? c); [exact H|].
      destruct (validate_multibulk_frame rest _ _ _) as [[e2 t]| |w|] eqn:Ev; try discriminate.
      * destruct (copy_multibulk_args _ _ _ _); discriminate.
      * apply validate_malformed_stable with (more := more) in Ev; [|lia]. rewrite Ev. exact H.
    + unfold parse_inline_into in H. destruct (find_crlf _ 0); discriminate.
Qed.

(** *** The command loop *)

Lemma argv_from_is_empty xs :
  argv_is_empty (argv_from xs) = match xs with [] => true | _ => false end.
Proof.
  destruct (argv_extend_raw xs argv_default [] eq_refl eq_refl) as [_ He].
  unfold argv_is_empty, argv_from. rewrite He. destruct xs; reflexivity.
Qed.

Lemma loop_sound fuel : forall buf base dst n a,
  0 <= base <= blen buf ->
  parse_command_loop fuel buf base dst = (Done n, a) ->
  exists c xs more, from buf base = c ++ more /\ command c xs /\ n = base + blen c /\
                    a = argv_from xs.
Proof.
  induction fuel as [|fuel IH]; intros buf base dst n a Hb H; [discriminate|].
  rewrite loop_unfold in H.
  destruct (parse_one (from buf base)) as [[used| |e|] a'] eqn:E; try discriminate.
  destruct (parse_one_sound _ _ _ E) as (f & xs & more & Ef & Hf & -> & ->).
  rewrite argv_from_is_empty in H. destruct xs as [|x xs].
  - assert (Hle : base + blen f <= blen buf).
    { pose proof (blen_from buf base Hb) as L. rewrite Ef, blen_app in L.
      pose proof (blen_nonneg more). lia. }
    pose proof (blen_nonneg f).
    apply IH in H as (c & ys & m & Em & Hc & -> & ->); [|lia].
    exists (f ++ c), ys, m. repeat split; [|apply command_skip; auto|rewrite blen_app; lia].
    rewrite <- from_from, Ef, from_app_len in Em by lia. rewrite Ef, Em, app_assoc. reflexivity.
  - injection H as <- <-. exists f, (x :: xs), more. repeat split; auto.
    apply command_frame; [exact Hf | discriminate].
Qed.

Lemma loop_complete c xs : command c xs -> forall fuel buf base dst more,
  0 <= base -> from buf base = c ++ more -> blen c <= Z.of_nat fuel ->
  parse_command_loop fuel buf base dst = (Done (base + blen c), argv_from xs).
Proof.
  induction 1 as [f xs Hf Hne | f c xs Hf _ IH]; intros fuel buf base dst more Hb E Hfuel.
  - pose proof (frame_len _ _ Hf). destruct fuel as [|fuel]; [lia|].
    rewrite loop_unfold, E, (parse_one_complete _ _ _ Hf), argv_from_is_empty.
    destruct xs; [contradiction | reflexivity].
  - pose proof (frame_len _ _ Hf). rewrite blen_app in Hfuel. pose proof (blen_nonneg c).
    destruct fuel as [|fuel]; [lia|].
    rewrite loop_unfold, E, <- app_assoc, (parse_one_complete _ _ _ Hf). cbn [argv_from].
    rewrite argv_from_is_empty. rewrite (IH fuel buf (base + blen f) _ more).
    + rewrite blen_app, Z.add_assoc. reflexivity.
    + lia.
    + rewrite <- from_from, E, <- app_assoc, from_app_len by lia. reflexivity.
    + lia.
Qed.

Lemma loop_fail fuel : forall buf base dst r a,
  0 <= base <= blen buf -> blen buf - base < Z.of_nat fuel ->
  parse_command_loop fuel buf base dst = (r, a) ->
  match r with
  | Done _ => True
  | NeedMore | Malformed _ => a = argv_default
  | Panicked => False
  end.
Proof.
  induction fuel as [|fuel IH]; intros buf base dst r a Hb Hfuel H; [lia|].
  rewrite loop_unfold in H.
  destruct (parse_one (from buf base)) as [[used| |e|] a'] eqn:E;
    pose proof (parse_one_fail _ _ _ E) as Hf; cbn in Hf;
    try (injection H as <- <-; exact Hf).
  destruct (argv_is_empty a'); [|injection H as <- <-; exact I].
  destruct (parse_one_sound _ _ _ E) as (f & xs & more & Ef & Hfr & -> & _).
  pose proof (frame_len _ _ Hfr). pose proof (blen_from buf base Hb) as L.
  rewrite Ef, blen_app in L. pose proof (blen_nonneg more).
  apply IH in H; [exact H | lia | lia].
Qed.

Lemma loop_stable fuel more : forall fuel' buf base dst r a,
  0 <= base <= blen buf -> (fuel <= fuel')%nat ->
  parse_command_loop fuel buf base dst = (r, a) -> r <> NeedMore -> r <> Panicked ->
  parse_command_loop fuel' (buf ++ more) base dst = (r, a).
Proof.
  induction fuel as [|fuel IH]; intros fuel' buf base dst r a Hb Hle H Hr Hp;
    [injection H as <- <-; contradiction|].
  destruct fuel' as [|fuel']; [lia|]. rewrite loop_unfold in *. rewrite from_app_l by lia.
  destruct (parse_one (from buf base)) as [r1 a1] eqn:E.
  assert (r1 <> NeedMore) by (intros ->; injection H as <- <-; contradiction).
  rewrite (parse_one_stable _ more _ _ E) by assumption.
  destruct r1 as [used| |e|]; [|contradiction|exact H|exact H].
  destruct (argv_is_empty a1); [|exact H].
  destruct (parse_one_sound _ _ _ E) as (f & xs & m & Ef & Hfr & -> & _).
  pose proof (blen_from buf base Hb) as L. rewrite Ef, blen_app in L.
  pose proof (blen_nonneg m). pose proof (blen_nonneg f).
  apply IH; auto; lia.
Qed.
End Theory.

(** ** Properties of the whole parser *)

Section Properties.
Context `{Scan : CrlfScanner}.

Lemma parse_command_into_any buf dst : parse_command_into buf dst = parse_command_into buf argv_default.
Proof. unfold parse_command_into. rewrite !loop_unfold. reflexivity. Qed.

Lemma parse_command_complete c xs more :
  command c xs -> parse_command (c ++ more) = Done (argv_from xs, blen c).
Proof.
  intros H. unfold parse_command, parse_command_into.
  rewrite (loop_complete c xs H _ (c ++ more) 0 _ more); [reflexivity | lia | reflexivity |].
  pose proof (blen_app c more). pose proof (blen_nonneg more). unfold blen in *. lia.
Qed.

Lemma parse_command_sound buf a n :
  parse_command buf = Done (a, n) ->
  exists c xs more, buf = c ++ more /\ command c xs /\ n = blen c /\ a = argv_from xs.
Proof.
  unfold parse_command, parse_command_into.
  destruct (parse_command_loop _ buf 0 argv_default) as [r a'] eqn:E. intros H.
  destruct r; try discriminate. injection H as <- <-. pose proof (blen_nonneg buf).
  destruct (loop_sound _ buf 0 _ _ _ ltac:(lia) E) as (c & xs & more & E2 & Hc & -> & ->).
  exists c, xs, more. rewrite from_0 in E2. auto.
Qed.

Lemma parse_command_into_outcome buf dst r a :
  parse_command_into buf dst = (r, a) ->
  match r with
  | Done _ => True
  | NeedMore | Malformed _ => a = argv_default
  | Panicked => False
  end.
Proof.
  intros H. pose proof (blen_nonneg buf).
  apply (loop_fail (S (length buf)) buf 0 dst r a); [lia | unfold blen; lia | exact H].
Qed.

Lemma command_len c xs : command c xs -> 2 <= blen c.
Proof.
  induction 1 as [f xs Hf _|f c xs Hf _ IH]; [exact (frame_len _ _ Hf)|].
  rewrite blen_app. pose proof (blen_nonneg f). lia.
Qed.

Lemma command_pos buf dst n a : parse_command_into buf dst = (Done n, a) -> 0 < n <= blen buf.
Proof.
  intros H. pose proof (blen_nonneg buf).
  destruct (loop_sound (S (length buf)) buf 0 dst n a ltac:(lia) H) as (c & xs & m & E & Hc & -> & _).
  apply command_len in Hc. rewrite from_0 in E. rewrite E, blen_app.
  pose proof (blen_nonneg m). lia.
Qed.

Lemma parse_command_stable buf more :
  parse_command buf <> NeedMore -> parse_command (buf ++ more) = parse_command buf.
Proof.
  unfold parse_command. destruct (parse_command_into buf argv_default) as [r a] eqn:E. intros Hr.
  pose proof (parse_command_into_outcome _ _ _ _ E) as Ho. pose proof (blen_nonneg buf).
  unfold parse_command_into in *.
  rewrite (loop_stable (S (length buf)) more (S (length (buf ++ more))) buf 0 argv_default r a); auto.
  - lia.
  - rewrite length_app. lia.
  - intros ->. apply Hr. reflexivity.
  - intros ->. exact Ho.
Qed.

Lemma bulk_bytes_bulk x : blen x <= MAX_BULK_LEN -> bulk x (bulk_bytes x).
Proof.
  intros H. pose proof (blen_nonneg x). assert (0 <= blen x <= i64_max)
    by (unfold MAX_BULK_LEN, i64_max in *; lia).
  unfold bulk_bytes. change (bs "$" ++ ?h) with ("$"%byte :: h).
  apply (bulk_intro (dec (blen x)) x); [apply dec_line_ok; lia | apply parse_int_dec; lia | exact H].
Qed.

Lemma command_bytes_frame args :
  blen args <= MAX_MULTIBULK_LEN -> Forall (fun x => blen x <= MAX_BULK_LEN) args ->
  frame (command_bytes args) args.
Proof.
  intros Hn Hf. pose proof (blen_nonneg args). unfold command_bytes, array_header.
  rewrite <- !app_assoc. change (bs "*" ++ int_text (blen args) ++ ?t)
    with (("*"%byte :: int_text (blen args)) ++ t).
  apply frame_multi; [apply int_text_line_ok | | exact Hn |].
  - apply parse_int_int_text. unfold MAX_MULTIBULK_LEN, i64_min, i64_max in *. lia.
  - apply Forall2_fmap_r, Forall_Forall2_diag. eapply Forall_impl; [exact Hf|].
    intros x. apply bulk_bytes_bulk.
Qed.

Lemma command_bytes_command args :
  args <> [] -> blen args <= MAX_MULTIBULK_LEN -> Forall (fun x => blen x <= MAX_BULK_LEN) args ->
  command (command_bytes args) args.
Proof. intros Hne Hn Hf. apply command_frame; [apply command_bytes_frame; auto | exact Hne]. Qed.

(** A command within the parser's limits. *)
Definition sendable (args : list (list byte)) : Prop :=
  args <> [] /\ blen args <= MAX_MULTIBULK_LEN /\ Forall (fun a => blen a <= MAX_BULK_LEN) args.

Lemma sendable_command args : sendable args -> command (command_bytes args) args.
Proof. intros (H1 & H2 & H3). by apply command_bytes_command. Qed.

(** C22: the owned request parser accepts exactly the request grammar:
    [parse_command] returns arguments and a consumed count precisely when the
    buffer starts with a grammatical command (empty frames skipped, then one
    multi-bulk or inline frame with an argument) of that many bytes carrying
    those arguments. *)
Theorem parse_command_iff buf a n :
  parse_command buf = Done (a, n) <->
  exists c xs more, buf = c ++ more /\ command c xs /\ n = blen c /\ a = argv_from xs.
Proof.
  split; [apply parse_command_sound|].
  intros (c & xs & more & -> & Hc & -> & ->). apply parse_command_complete, Hc.
Qed.

(** a command written by [encode_command] within the protocol limits is
    read back by [parse_command], whatever follows it in the buffer, and
    iterating the parsed [Argv] gives the original arguments. *)
Theorem encode_command_parses args rest (Hne : args <> [])
  (Hn : blen args <= MAX_MULTIBULK_LEN) (Hf : Forall (fun x => blen x <= MAX_BULK_LEN) args)
  (Ht : total_len args < 2 ^ 32) :
  exists w a, encode_command [] args = Ret w /\
              parse_command (w ++ rest) = Done (a, blen w) /\ argv_iter a = Ret args.
Proof.
  exists (command_bytes args), (argv_from args). repeat split.
  - apply (encode_command_ok [] args); [unfold MAX_MULTIBULK_LEN, i64_max in *; lia|].
    eapply Forall_impl; [exact Hf|]. cbv beta. unfold MAX_BULK_LEN, u64_max. lia.
  - apply parse_command_complete, command_bytes_command; assumption.
  - apply argv_holds_iter, argv_holds_from, Ht.
Qed.

(** the owned parser is total and leaves no partial command behind: on
    every buffer and every reused [Argv] it returns without panicking (the
    [expect]s and slices of the copy pass included), and unless it returns a
    command the destination is left empty. *)
Theorem parse_command_into_total buf dst :
  exists r a, parse_command_into buf dst = (r, a) /\ r <> Panicked /\
    (forall n, r = Done n -> 0 < n <= blen buf) /\
    ((forall n, r <> Done n) -> argv_iter a = Ret []).
Proof.
  destruct (parse_command_into buf dst) as [r a] eqn:E. exists r, a.
  pose proof (parse_command_into_outcome _ _ _ _ E) as Ho.
  split; [reflexivity|]. split; [|split].
  - intros ->. exact Ho.
  - intros n ->. apply (command_pos buf dst n a E).
  - intros Hn. destruct r; [destruct (Hn a0); reflexivity | | | contradiction]; subst; reflexivity.
Qed.

(** parsing is incremental.  A verdict (a command or a protocol error) is
    not changed by bytes that arrive later, and every strict prefix of a
    grammatical command asks for more bytes. *)
Theorem parse_command_incremental :
  (forall buf more, parse_command buf <> NeedMore ->
                    parse_command (buf ++ more) = parse_command buf) /\
  (forall pre suf xs, command (pre ++ suf) xs -> suf <> [] -> parse_command pre = NeedMore).
Proof.
  split; [exact parse_command_stable|]. intros pre suf xs Hc Hs.
  apply parse_command_complete with (more := []) in Hc as Hd. rewrite app_nil_r in Hd.
  destruct (parse_command pre) as [[a n]| |e|] eqn:E; [|reflexivity| |].
  1: apply parse_command_sound in E as Hn; destruct Hn as (c & ys & m & -> & _ & -> & _).
  all: rewrite parse_command_stable, E in Hd by congruence; try discriminate.
  injection Hd as _ Hd. rewrite !blen_app in Hd. pose proof (blen_nonneg m).
  destruct suf; [contradiction|]. rewrite blen_cons in Hd. pose proof (blen_nonneg suf). lia.
Qed.
End Properties.

Lemma encode_command_parses_witness :
  let args := [bs "SET"; bs "k"; []] in
  exists w a, encode_command [] args = Ret w /\
              parse_command (Scan := scanner_on (X86_64 true)) (w ++ bs "*1") = Done (a, blen w) /\
              argv_iter a = Ret args.
Proof.
  apply (encode_command_parses (Scan := scanner_on (X86_64 true)) [bs "SET"; bs "k"; []] (bs "*1")).
  - discriminate.
  - vm_compute. discriminate.
  - repeat constructor; vm_compute; discriminate.
  - reflexivity.
Defined.
