(* ===== verification/RequestBorrowed.v ===== *)
(** * The zero-copy request parser ([crates/kevy-resp/src/request_borrowed.rs])

    [parse_command_borrowed] records each argument as a range of the input
    buffer instead of copying it.  It walks the frame once, reads short headers
    directly ([small_header]) and other headers with the fused loop of
    [request.rs:parse_bulk_len].  The theorems relate it to the owned parser of
    [Request.v]: same commands, same consumed counts, same errors, with the two
    differences the code has (a malformed header is rejected before its CRLF
    arrives, and a negative zero length, [negative_zero], is rejected) stated
    exactly. *)

From Stdlib Require Import ZArith Lia Bool Strings.Byte Strings.String.
From stdpp Require Import base list.
From S2P Require Import Prelude FindCrlf Argv Encode Request.

#[local] Open Scope list_scope.
#[local] Open Scope Z_scope.
#[local] Open Scope kevy_scope.

(** ** Headers *)

(** The sign of a length header: whether it is negative, where its digits start. *)
Definition sign_of (s : byte) (q : Z) : bool * Z :=
  if s =b "-"%byte then (true, q + 1)
  else if s =b "+"%byte then (false, q + 1)
  else (false, q).

(** The digit loop of [parse_bulk_len]: where it stopped (a [\r]) and the value. *)
Fixpoint bulk_len_digits (fuel : nat) (buf : list byte) (q acc : Z) : parsed (Z * Z) :=
  match fuel with
  | O => Panicked
  | S fuel' =>
      b ← need (get buf q);
      if is_ascii_digit b then
        acc ← ok_or (a ← checked_i64 (acc * 10); checked_i64 (a + (bz b - 48))) "bad bulk length";
        bulk_len_digits fuel' buf (q + 1) acc
      else if b =b CR then Done (q, acc)
      else Malformed "bad bulk length"
  end.

(** The checks of [parse_bulk_len] after the digits. *)
Definition bulk_len_finish (buf : list byte) (neg : bool) (digits_start q acc : Z)
  : parsed (Z * Z) :=
  _ ← refuse (q =? digits_start) "bad bulk length";
  l ← need (get buf (q + 1));
  _ ← refuse (negb (l =b LF)) "bad bulk length";
  _ ← refuse neg "negative bulk length in request";
  _ ← refuse (MAX_BULK_LEN <? acc) "bulk length exceeds proto-max-bulk-len";
  Done (acc, q + 2).

Definition parse_bulk_len (buf : list byte) (pos : Z) : parsed (Z * Z) :=
  let q := pos + 1 in
  s ← need (get buf q);
  let '(neg, q) := sign_of s q in
  let digits_start := q in
  r ← bulk_len_digits (S (length buf)) buf q 0;
  let '(q, acc) := r in
  bulk_len_finish buf neg digits_start q acc.

(** A one- or two-digit number and its CRLF at [at_]. *)
Definition small_header (buf : list byte) (at_ : Z) : option (Z * Z) :=
  b0 ← get buf at_;
  let d0 := (bz b0 - 48) mod 256 in
  if 9 <? d0 then None
  else
    b1 ← get buf (at_ + 1);
    if (b1 =b CR) && bool_decide (get buf (at_ + 2) = Some LF) then Some (d0, at_ + 3)
    else if is_ascii_digit b1 && bool_decide (get buf (at_ + 2) = Some CR)
            && bool_decide (get buf (at_ + 3) = Some LF)
    then Some (d0 * 10 + (bz b1 - 48), at_ + 4)
    else None.

Definition bulk_header (buf : list byte) (p : Z) : parsed (Z * Z) :=
  match small_header buf (p + 1) with
  | Some got => Done got
  | None => parse_bulk_len buf p
  end.

(** ** Inline commands *)

(** [while i < line.len() && !line[i].is_ascii_whitespace() { i += 1 }] *)
Fixpoint token_end (fuel : nat) (line : list byte) (i : Z) : Z :=
  match fuel with
  | O => i
  | S fuel' =>
      match get line i with
      | Some b => if is_ascii_whitespace b then i else token_end fuel' line (i + 1)
      | None => i
      end
  end.

(** [while i < line.len() { .. }], one iteration per unit of fuel. *)
Fixpoint inline_ranges (fuel : nat) (line : list byte) (i : Z) (argv : ArgvBorrowed)
  : parsed ArgvBorrowed :=
  match get line i with
  | None => Done argv
  | Some b =>
      match fuel with
      | O => Panicked
      | S fuel' =>
          if is_ascii_whitespace b then inline_ranges fuel' line (i + 1) argv
          else
            let e := token_end (length line) line i in
            inline_ranges fuel' line e (ab_push_range argv i e)
      end
  end.

Section Parser.
Context `{Scan : CrlfScanner}.

Definition parse_inline_borrowed (buf : list byte) : parsed (ArgvBorrowed * Z) :=
  eol ← need (find_crlf buf 0);
  let line := slice buf 0 eol in
  argv ← inline_ranges (length line) line 0 (ab_new buf);
  Done (argv, eol + 2).

(** ** Multi-bulk commands *)

(** The [for _ in 0..count] walk. *)
Fixpoint borrow_args (buf : list byte) (count : nat) (p : Z) (argv : ArgvBorrowed)
  : parsed (ArgvBorrowed * Z) :=
  match count with
  | O => Done (argv, p)
  | S count' =>
      b ← need (get buf p);
      _ ← refuse (negb (b =b "$"%byte)) "expected bulk string";
      h ← bulk_header buf p;
      let '(len, data_start) := h in
      let data_end := data_start + len in
      _ ← wait (blen buf <? data_end + 2);
      _ ← refuse (negb (bool_decide (slice buf data_end (data_end + 2) = CRLF)))
            "bulk string not CRLF-terminated";
      borrow_args buf count' (data_end + 2) (ab_push_range argv data_start data_end)
  end.

Definition multibulk_body (buf : list byte) (count p : Z) : parsed (ArgvBorrowed * Z) :=
  _ ← refuse (MAX_MULTIBULK_LEN <? count) "multibulk count exceeds limit";
  borrow_args buf (Z.to_nat count) p (ab_with_capacity buf count).

Definition parse_multibulk_borrowed (buf : list byte) : parsed (ArgvBorrowed * Z) :=
  match small_header buf 1 with
  | Some (count, p) => multibulk_body buf count p
  | None =>
      hdr_end ← need (find_crlf buf 1);
      count ← ok_or (parse_int (slice buf 1 hdr_end)) "bad multibulk count";
      if count <? 0 then Done (ab_new buf, hdr_end + 2)
      else multibulk_body buf count (hdr_end + 2)
  end.

Fixpoint borrowed_loop (fuel : nat) (buf : list byte) (base : Z) : parsed (ArgvBorrowed * Z) :=
  match fuel with
  | O => Panicked
  | S fuel' =>
      let rest := from buf base in
      match rest with
      | [] => NeedMore
      | b :: _ =>
          r ← (if b =b "*"%byte then parse_multibulk_borrowed rest
               else parse_inline_borrowed rest);
          let '(argv, used) := r in
          if ab_is_empty argv then borrowed_loop fuel' buf (base + used)
          else Done (argv, base + used)
      end
  end.

Definition parse_command_borrowed (buf : list byte) : parsed (ArgvBorrowed * Z) :=
  borrowed_loop (S (length buf)) buf 0.
End Parser.

(** ** Headers: agreement with [find_crlf] and [parse_int] *)

Definition digits (l : list byte) : Prop := Forall (fun b => is_ascii_digit b = true) l.

Lemma parse_digits_app_None k r : forall acc, parse_digits acc k = None -> parse_digits acc (k ++ r) = None.
Proof.
  induction k as [|b k IH]; intros acc H; [discriminate|]. cbn [parse_digits app] in *.
  destruct (negb (is_ascii_digit b)); [reflexivity|].
  destruct (checked_i64 (acc * 10)) as [a|]; [|reflexivity]. cbn [mbind option_bind] in *.
  destruct (checked_i64 _) as [a'|]; [|reflexivity]. cbn [mbind option_bind] in *. apply IH, H.
Qed.

Lemma parse_digits_bad k b : is_ascii_digit b = false -> forall acc, parse_digits acc (k ++ [b]) = None.
Proof.
  intros Hb. induction k as [|c k IH]; intros acc; cbn [parse_digits app]; [rewrite Hb; reflexivity|].
  destruct (negb (is_ascii_digit c)); [reflexivity|].
  destruct (checked_i64 (acc * 10)) as [a|]; [|reflexivity]. cbn [mbind option_bind].
  destruct (checked_i64 _) as [a'|]; [|reflexivity]. cbn [mbind option_bind]. apply IH.
Qed.

(** Bytes without a [\r] that precede the first CRLF are part of its line. *)
Lemma no_cr_prefix k : forall r h rest,
  Forall (fun b => b <> CR) k -> k ++ r = h ++ CRLF ++ rest ->
  exists t, h = k ++ t /\ r = t ++ CRLF ++ rest.
Proof.
  induction k as [|b k IH]; intros r h rest Hk E; [exists h; auto|].
  inversion Hk as [|? ? Hb Hk']; subst. destruct h as [|c h].
  - injection E as -> _. contradiction.
  - injection E as -> E. destruct (IH r h rest Hk' E) as (t & -> & ->). exists t. auto.
Qed.

(** Outcomes of the digit loop on the bytes from [q] on. *)
Lemma bulk_len_digits_spec fuel : forall buf q acc,
  0 <= q -> blen (from buf q) < Z.of_nat fuel ->
  match bulk_len_digits fuel buf q acc with
  | Done (q', acc') => exists ds, from buf q = ds ++ CR :: from buf (q' + 1) /\ digits ds /\
                                  parse_digits acc ds = Some acc' /\ q' = q + blen ds
  | NeedMore => digits (from buf q)
  | Malformed e => e = "bad bulk length"%string /\
      exists k r, from buf q = k ++ r /\ Forall (fun b => b <> CR) k /\ parse_digits acc k = None
  | Panicked => False
  end.
Proof.
  induction fuel as [|fuel IH]; intros buf q acc Hq Hf.
  { pose proof (blen_nonneg (from buf q)). lia. }
  cbn [bulk_len_digits]. destruct (get buf q) as [b|] eqn:Eb; parse_step.
  2: { apply get_None in Eb; [|exact Hq]. rewrite from_ge by exact Eb. constructor. }
  rewrite (from_cons_get buf q b Hq Eb) in *. rewrite blen_cons in Hf.
  destruct (is_ascii_digit b) eqn:Hd.
  - assert (Hcr : b <> CR) by (apply digit_not_sign, Hd).
    destruct (checked_i64 (acc * 10)) as [a|] eqn:E1; cbn [mbind option_bind]; parse_step.
    2: { split; [reflexivity|]. exists [b], (from buf (q + 1)). repeat split; [auto|].
         cbn [parse_digits]. rewrite Hd. cbn [negb]. rewrite E1. reflexivity. }
    destruct (checked_i64 (a + (bz b - 48))) as [a'|] eqn:E2; parse_step.
    2: { split; [reflexivity|]. exists [b], (from buf (q + 1)). repeat split; [auto|].
         cbn [parse_digits]. rewrite Hd. cbn [negb]. rewrite E1. cbn [mbind option_bind].
         rewrite E2. reflexivity. }
    assert (Hpd : forall l, parse_digits acc (b :: l) = parse_digits a' l).
    { intros l. cbn [parse_digits]. rewrite Hd. cbn [negb]. rewrite E1. cbn [mbind option_bind].
      rewrite E2. reflexivity. }
    specialize (IH buf (q + 1) a' ltac:(lia) ltac:(lia)).
    destruct (bulk_len_digits fuel buf (q + 1) a') as [[q' acc']| |e|].
    + destruct IH as (ds & -> & Hds & Hp & ->). exists (b :: ds). rewrite Hpd, blen_cons.
      repeat split; [constructor; auto | exact Hp | lia].
    + constructor; [exact Hd | exact IH].
    + destruct IH as (-> & k & r & -> & Hk & Hp). split; [reflexivity|].
      exists (b :: k), r. rewrite Hpd. repeat split; [constructor; auto | exact Hp].
    + exact IH.
  - destruct (byte_eqb_spec b CR) as [->|Hcr].
    + exists []. repeat split; [constructor | rewrite blen_nil; lia].
    + split; [reflexivity|]. exists [b], (from buf (q + 1)). repeat split; [auto|].
      apply (parse_digits_bad [] b Hd).
Qed.

(** What [parse_int] makes of the digits after the sign. *)
Definition int_of (neg : bool) (ds : list byte) : option Z :=
  match ds with
  | [] => None
  | _ => acc ← parse_digits 0 ds; Some (if neg then - acc else acc)
  end.

Lemma int_of_None neg ds : parse_digits 0 ds = None -> int_of neg ds = None.
Proof. intros H. destruct ds; [reflexivity|]. unfold int_of. rewrite H. reflexivity. Qed.

Lemma sign_split buf q0 s neg q :
  0 <= q0 -> get buf q0 = Some s -> sign_of s q0 = (neg, q) ->
  exists sg, from buf q0 = sg ++ from buf q /\ q = q0 + blen sg /\ Forall (fun b => b <> CR) sg /\
             (neg = true -> sg = ["-"%byte]) /\
             forall more ds rest, from buf q ++ more = ds ++ rest -> parse_int (sg ++ ds) = int_of neg ds.
Proof.
  intros Hq Hs H. pose proof (from_cons_get buf q0 s Hq Hs) as Hf. unfold sign_of in H.
  destruct (byte_eqb_spec s "-"%byte) as [->|Hm]; [|destruct (byte_eqb_spec s "+"%byte) as [->|Hp]];
    injection H as <- <-.
  - exists ["-"%byte]. repeat split; [exact Hf | repeat constructor; discriminate].
  - exists ["+"%byte]. repeat split; [exact Hf | repeat constructor; discriminate | discriminate].
  - exists []. repeat split; [rewrite blen_nil; lia | constructor | discriminate |].
    intros more ds rest E. cbn [app]. destruct ds as [|c ds]; [reflexivity|].
    rewrite Hf in E. injection E as <- _. unfold parse_int.
    destruct (byte_eqb_spec s "-"%byte); [contradiction|].
    destruct (byte_eqb_spec s "+"%byte); [contradiction | reflexivity].
Qed.

Section Agreement.
Context `{Scan : CrlfScanner}.

(** A length header of a negative zero: [-0], [-00], ... and its CRLF. *)
Definition minus_zero (l : list byte) : Prop :=
  exists k rest, l = "-"%byte :: repeat "0"%byte (S k) ++ CRLF ++ rest.

(** The owned parser's view of the header after position [p]: an error is the
    owned parser's as soon as the line is complete, whatever bytes arrive. *)
Definition header_agrees (buf : list byte) (p : Z) (r : parsed (Z * Z)) : Prop :=
  match r with
  | Done (len, ds) =>
      find_crlf buf (p + 1) = Some (ds - 2) /\
      parse_int (slice buf (p + 1) (ds - 2)) = Some len /\ 0 <= len <= MAX_BULK_LEN
  | NeedMore => find_crlf buf (p + 1) = None
  | Malformed e =>
      e = "negative bulk length in request"%string /\ minus_zero (from buf (p + 1)) \/
      forall more q, find_crlf (buf ++ more) (p + 1) = Some q ->
        match parse_int (slice (buf ++ more) (p + 1) q) with
        | None => e = "bad bulk length"%string
        | Some len =>
            len < 0 /\ e = "negative bulk length in request"%string \/
            MAX_BULK_LEN < len /\ e = "bulk length exceeds proto-max-bulk-len"%string
        end
  | Panicked => False
  end.

Lemma parse_digits_zero ds : digits ds -> parse_digits 0 ds = Some 0 -> ds = repeat "0"%byte (length ds).
Proof.
  induction 1 as [|b ds Hb _ IH]; [reflexivity|]. cbn [parse_digits length repeat]. rewrite Hb.
  cbn [negb]. intros H. destruct (checked_i64 (0 * 10)) as [a|] eqn:E1; [|discriminate].
  apply checked_i64_Some in E1 as [-> _]. cbn [mbind option_bind] in H.
  destruct (checked_i64 _) as [a|] eqn:E2; [|discriminate].
  apply checked_i64_Some in E2 as [-> _]. cbn [mbind option_bind] in H.
  pose proof (digit_val_range b Hb). pose proof (fun A => parse_digits_nonneg ds _ _ A H) as Hle.
  specialize (Hle ltac:(lia)).
  replace (0 * 10 + (bz b - 48)) with 0 in H by lia.
  f_equal; [|apply IH, H]. apply bz_inj. change (bz "0"%byte) with 48. lia.
Qed.

Lemma slice_line {A} (buf : list A) s h t :
  from buf s = h ++ t -> slice buf s (s + blen h) = h.
Proof.
  intros E. rewrite slice_from, E. replace (s + blen h - s) with (blen h) by lia.
  rewrite blen_to_nat. apply take_app_length.
Qed.

Lemma find_crlf_from buf s h rest :
  0 <= s -> line_ok h -> from buf s = h ++ CRLF ++ rest -> find_crlf buf s = Some (s + blen h).
Proof. intros Hs Hh E. rewrite find_crlf_ok, E by exact Hs. apply line_ok_scan, Hh. Qed.

(** A header line cut short by bytes without a CRLF is not there yet. *)
Lemma find_crlf_none buf s k :
  0 <= s -> Forall (fun b => b <> CR) k -> from buf s = k \/ from buf s = k ++ [CR] ->
  find_crlf buf s = None.
Proof.
  intros Hs Hk E. destruct (find_crlf buf s) as [p|] eqn:Ef; [exfalso|reflexivity].
  destruct (find_crlf_split buf s p Hs Ef) as (h & rest & Eh & _ & _).
  destruct E as [E|E]; rewrite E in Eh.
  - rewrite <- (app_nil_r k) in Eh.
    destruct (no_cr_prefix k [] h rest Hk Eh) as (t & _ & Et). destruct t; discriminate.
  - destruct (no_cr_prefix k [CR] h rest Hk Eh) as (t & _ & Et).
    destruct t as [|c [|d t]]; discriminate.
Qed.

(** A header whose line starts with unreadable bytes is a bad length as soon
    as its CRLF is there. *)
Lemma header_bad buf p sg neg q k r :
  0 <= p < blen buf -> from buf (p + 1) = sg ++ from buf q -> Forall (fun b => b <> CR) sg ->
  (forall more ds rest, from buf q ++ more = ds ++ rest -> parse_int (sg ++ ds) = int_of neg ds) ->
  from buf q = k ++ r ->
  (forall more h rest, k ++ r ++ more = h ++ CRLF ++ rest -> int_of neg h = None) ->
  header_agrees buf p (Malformed "bad bulk length").
Proof.
  intros Hp Es Hsg Hint Ek Hbad. right. intros more z Ef.
  destruct (find_crlf_split (buf ++ more) (p + 1) z ltac:(lia) Ef) as (h & rest & Eh & Hh & ->).
  rewrite (slice_line (buf ++ more) (p + 1) h (CRLF ++ rest) Eh).
  rewrite from_app_l, Es, <- app_assoc in Eh by lia.
  destruct (no_cr_prefix sg (from buf q ++ more) h rest Hsg Eh) as (t & -> & Et).
  rewrite (Hint more t (CRLF ++ rest) Et), (Hbad more t rest); [reflexivity|].
  rewrite Ek, <- app_assoc in Et. exact Et.
Qed.

Lemma bulk_len_finish_agrees buf p sg neg q acc ds :
  0 <= p < blen buf -> from buf (p + 1) = sg ++ from buf q -> q = p + 1 + blen sg -> 0 <= q ->
  Forall (fun b => b <> CR) sg ->
  (forall more ds rest, from buf q ++ more = ds ++ rest -> parse_int (sg ++ ds) = int_of neg ds) ->
  from buf q = ds ++ CR :: from buf (q + blen ds + 1) -> digits ds ->
  parse_digits 0 ds = Some acc -> (neg = true -> sg = ["-"%byte]) ->
  header_agrees buf p (bulk_len_finish buf neg q (q + blen ds) acc).
Proof.
  intros Hp Esg Hq Hq0 Hsg Hint Eds Hds Hpd Hneg. unfold bulk_len_finish. pose proof (blen_nonneg ds).
  pose proof (digits_no_cr ds Hds) as Hncr.
  assert (Hbad : ds = [] \/ (exists c m, from buf (q + blen ds + 1) = c :: m /\ c <> LF) ->
                 header_agrees buf p (Malformed "bad bulk length")).
  { intros Hc. apply (header_bad buf p sg neg q ds (CR :: from buf (q + blen ds + 1))); auto.
    intros more h rest E. destruct (no_cr_prefix ds _ h rest Hncr E) as (t & -> & Et).
    destruct t as [|c t].
    - destruct Hc as [->|(c & m & Em & Hlf)]; [reflexivity|]. rewrite Em in Et. injection Et as -> _.
      contradiction.
    - injection Et as <- _. apply int_of_None.
      replace (ds ++ CR :: t) with ((ds ++ [CR]) ++ t) by (rewrite <- app_assoc; reflexivity).
      apply parse_digits_app_None, parse_digits_bad. reflexivity. }
  destruct (Z.eqb_spec (q + blen ds) q) as [He|Hne]; parse_step.
  { apply Hbad. left. destruct ds; [reflexivity|]. rewrite blen_cons in *.
    pose proof (blen_nonneg ds). lia. }
  destruct (get buf (q + blen ds + 1)) as [l|] eqn:El; parse_step.
  2: { apply get_None in El; [|lia]. rewrite (from_ge buf (q + blen ds + 1)) in Eds by exact El.
       apply (find_crlf_none buf (p + 1) (sg ++ ds)); [lia | apply Forall_app; auto |].
       right. rewrite Esg, Eds, app_assoc. reflexivity. }
  pose proof (from_cons_get buf (q + blen ds + 1) l ltac:(lia) El) as Ef.
  destruct (byte_eqb_spec l LF) as [->|Hlf]; parse_step.
  2: { apply Hbad. right. eauto. }
  rewrite Ef in Eds.
  assert (Eh : from buf (p + 1) = (sg ++ ds) ++ CRLF ++ from buf (q + blen ds + 1 + 1))
    by (rewrite Esg, Eds, <- app_assoc; reflexivity).
  assert (Hline : line_ok (sg ++ ds)) by (apply no_cr_line_ok, Forall_app; auto).
  pose proof (find_crlf_from buf (p + 1) (sg ++ ds) _ ltac:(lia) Hline Eh) as Hfind.
  pose proof (slice_line buf (p + 1) (sg ++ ds) _ Eh) as Hsl.
  replace (p + 1 + blen (sg ++ ds)) with (q + blen ds) in * by (rewrite blen_app; lia).
  assert (Hv : parse_int (sg ++ ds) = Some (if neg then - acc else acc)).
  { rewrite (Hint [] ds (CRLF ++ from buf (q + blen ds + 1 + 1))) by (rewrite app_nil_r; exact Eds).
    unfold int_of. destruct ds; [rewrite blen_nil in Hne; lia|]. rewrite Hpd. reflexivity. }
  pose proof (parse_digits_nonneg ds 0 acc ltac:(lia) Hpd).
  assert (Hmore : forall e, match parse_int (sg ++ ds) with
      | None => e = "bad bulk length"%string
      | Some len => len < 0 /\ e = "negative bulk length in request"%string \/
                    MAX_BULK_LEN < len /\ e = "bulk length exceeds proto-max-bulk-len"%string
      end -> header_agrees buf p (Malformed e)).
  { intros e He. right. intros more z Ez.
    rewrite (find_crlf_extend buf more (p + 1) _ ltac:(lia) Hfind) in Ez. injection Ez as <-.
    destruct (find_crlf_le buf (p + 1) _ ltac:(lia) Hfind). rewrite slice_app_l, Hsl by lia. exact He. }
  destruct neg; parse_step.
  { destruct (decide (acc = 0)) as [->|Hacc]; [left|apply Hmore; rewrite Hv; left; split; [lia | reflexivity]].
    split; [reflexivity|]. rewrite Eh, (Hneg eq_refl), (parse_digits_zero ds Hds Hpd).
    destruct ds as [|d ds]; [rewrite blen_nil in Hne; lia|]. eexists (length ds), _. reflexivity. }
  destruct (Z.ltb_spec MAX_BULK_LEN acc); parse_step.
  - apply Hmore. rewrite Hv. auto.
  - unfold header_agrees.
    replace (q + blen ds + 2 - 2) with (q + blen ds) by lia. rewrite Hsl, Hv. auto.
Qed.

Lemma parse_bulk_len_agrees buf p : 0 <= p -> header_agrees buf p (parse_bulk_len buf p).
Proof.
  intros Hp. unfold parse_bulk_len.
  destruct (get buf (p + 1)) as [s|] eqn:Es; parse_step.
  2: { apply get_None in Es; [|lia]. apply (find_crlf_none buf (p + 1) []);
       [lia | constructor | left; apply from_ge, Es]. }
  destruct (sign_of s (p + 1)) as [neg q] eqn:Eq.
  destruct (sign_split buf (p + 1) s neg q ltac:(lia) Es Eq) as (sg & Esg & Hq & Hsg & Hneg & Hint).
  pose proof (blen_nonneg sg). pose proof (get_Some_lt buf (p + 1) s ltac:(lia) Es).
  assert (Hfuel : blen (from buf q) < Z.of_nat (S (length buf))).
  { unfold blen, from. rewrite length_drop. lia. }
  pose proof (bulk_len_digits_spec (S (length buf)) buf q 0 ltac:(lia) Hfuel) as Hd.
  destruct (bulk_len_digits _ buf q 0) as [[q' acc]| |e|]; parse_step.
  2: { apply (find_crlf_none buf (p + 1) (sg ++ from buf q)); [lia | | left; exact Esg].
       apply Forall_app. split; [exact Hsg | apply digits_no_cr, Hd]. }
  2: { destruct Hd as (-> & k & r & Ek & Hk & Hn).
       apply (header_bad buf p sg neg q k r); auto; [lia|]. intros more h rest E.
       destruct (no_cr_prefix k (r ++ more) h rest Hk E) as (t & -> & _).
       apply int_of_None, parse_digits_app_None, Hn. }
  2: destruct Hd.
  destruct Hd as (ds & Eds & Hds & Hpd & ->).
  apply (bulk_len_finish_agrees buf p sg neg q acc ds); auto; lia.
Qed.

Lemma small_digit b : (9 <? (bz b - 48) mod 256) = false ->
  is_ascii_digit b = true /\ (bz b - 48) mod 256 = bz b - 48.
Proof. destruct b; vm_compute; auto; discriminate. Qed.

Lemma parse_int_digits ds :
  digits ds -> ds <> [] -> digits_val 0 ds <= i64_max -> parse_int ds = Some (digits_val 0 ds).
Proof.
  intros Hd Hne Hm. destruct ds as [|b r]; [contradiction|].
  pose proof Hd as Hd'. inversion Hd' as [|? ? Hb _]; subst.
  destruct (digit_not_sign b Hb) as (H1 & H2 & _). unfold parse_int.
  destruct (byte_eqb_spec b "-"%byte); [contradiction|].
  destruct (byte_eqb_spec b "+"%byte); [contradiction|].
  rewrite parse_digits_val by (auto; lia). reflexivity.
Qed.

Lemma small_header_line buf i n e :
  0 <= i -> small_header buf i = Some (n, e) ->
  exists ds rest, from buf i = ds ++ CRLF ++ rest /\ digits ds /\ ds <> [] /\
    digits_val 0 ds = n /\ 0 <= n <= 99 /\ e = i + blen ds + 2.
Proof.
  intros Hi H. unfold small_header in H.
  destruct (get buf i) as [b0|] eqn:E0; [|discriminate]. cbn [mbind option_bind] in H.
  destruct (9 <? (bz b0 - 48) mod 256) eqn:Ed; [discriminate|].
  destruct (small_digit b0 Ed) as [Hd0 Hm]. rewrite Hm in H.
  pose proof (digit_val_range b0 Hd0).
  destruct (get buf (i + 1)) as [b1|] eqn:E1; [|discriminate]. cbn [mbind option_bind] in H.
  pose proof (from_cons_get buf i b0 Hi E0) as F0.
  pose proof (from_cons_get buf (i + 1) b1 ltac:(lia) E1) as F1.
  destruct ((b1 =b CR) && bool_decide (get buf (i + 2) = Some LF)) eqn:Ec.
  - apply andb_true_iff in Ec as [Hc Hl%bool_decide_eq_true].
    destruct (byte_eqb_spec b1 CR) as [->|]; [|discriminate]. injection H as <- <-.
    replace (i + 2) with (i + 1 + 1) in Hl by lia.
    pose proof (from_cons_get buf (i + 1 + 1) LF ltac:(lia) Hl) as F2.
    exists [b0], (from buf (i + 1 + 1 + 1)). rewrite F0, F1, F2.
    split; [reflexivity|]. split; [apply Forall_singleton, Hd0|].
    split; [discriminate|]. cbn [digits_val]. change (blen [b0]) with 1. lia.
  - destruct (is_ascii_digit b1 && _ && _) eqn:Ee; [|discriminate]. injection H as <- <-.
    apply andb_true_iff in Ee as [[Hd1 Hc%bool_decide_eq_true]%andb_true_iff Hl%bool_decide_eq_true].
    replace (i + 2) with (i + 1 + 1) in Hc by lia. replace (i + 3) with (i + 1 + 1 + 1) in Hl by lia.
    pose proof (from_cons_get buf (i + 1 + 1) CR ltac:(lia) Hc) as F2.
    pose proof (from_cons_get buf (i + 1 + 1 + 1) LF ltac:(lia) Hl) as F3.
    pose proof (digit_val_range b1 Hd1).
    exists [b0; b1], (from buf (i + 1 + 1 + 1 + 1)). rewrite F0, F1, F2, F3.
    split; [reflexivity|]. split; [apply Forall_cons; split; [exact Hd0 | apply Forall_singleton, Hd1]|].
    split; [discriminate|]. cbn [digits_val]. change (blen [b0; b1]) with 2. lia.
Qed.

(** A short header is one the general reader reads the same way. *)
Lemma small_header_agrees buf i n e :
  0 <= i -> small_header buf i = Some (n, e) ->
  find_crlf buf i = Some (e - 2) /\ parse_int (slice buf i (e - 2)) = Some n /\ 0 <= n <= 99.
Proof.
  intros Hi H. destruct (small_header_line buf i n e Hi H) as (ds & rest & E & Hd & Hne & Hv & Hn & ->).
  replace (i + blen ds + 2 - 2) with (i + blen ds) by lia.
  rewrite (slice_line buf i ds _ E). repeat split; [| | lia | lia].
  - apply (find_crlf_from buf i ds rest Hi); [apply no_cr_line_ok, digits_no_cr, Hd | exact E].
  - rewrite parse_int_digits, Hv; auto. rewrite Hv. unfold i64_max. lia.
Qed.

Lemma bulk_header_agrees buf p : 0 <= p -> header_agrees buf p (bulk_header buf p).
Proof.
  intros Hp. unfold bulk_header. destruct (small_header buf (p + 1)) as [[n e]|] eqn:E.
  - destruct (small_header_agrees buf (p + 1) n e ltac:(lia) E) as (H1 & H2 & H3).
    repeat split; auto; unfold MAX_BULK_LEN; lia.
  - apply parse_bulk_len_agrees, Hp.
Qed.

(** ** The argument walk against the two passes of the owned parser *)

(** A complete argument at [p] is a [bulk] of the grammar. *)
Lemma bulk_here buf p z len :
  0 <= p -> get buf p = Some "$"%byte -> find_crlf buf (p + 1) = Some z ->
  parse_int (slice buf (p + 1) z) = Some len -> 0 <= len <= MAX_BULK_LEN ->
  z + 2 + len + 2 <= blen buf -> slice buf (z + 2 + len) (z + 2 + len + 2) = CRLF ->
  exists x f, bulk x f /\ from buf p = f ++ from buf (z + 2 + len + 2).
Proof.
  intros Hp Hg Hf Hi Hl Hw Hc.
  destruct (find_crlf_split buf (p + 1) z ltac:(lia) Hf) as (h & rest & Ef & Hh & ->).
  rewrite (slice_line buf (p + 1) h (CRLF ++ rest) Ef) in Hi. pose proof (blen_nonneg h).
  pose proof (from_line buf (p + 1) h rest ltac:(lia) Ef) as Er.
  set (ds := p + 1 + blen h + 2) in *. set (x := slice buf ds (ds + len)).
  assert (Hx : blen x = len) by (unfold x; rewrite blen_slice; lia).
  exists x, (("$"%byte :: h) ++ CRLF ++ x ++ CRLF). split.
  - constructor; [exact Hh | rewrite Hx; exact Hi | lia].
  - rewrite (from_cons_get buf p _ Hp Hg), Ef, <- Er, (from_slice buf ds (ds + len)) by lia. fold x.
    rewrite (slice_CRLF buf (ds + len)) by (auto; lia). cbn [app]. rewrite <- !app_assoc. reflexivity.
Qed.

(** The first [n] arguments of a frame, from [p] on, hold a negative zero
    length: complete arguments first, then that header. *)
Definition minus_zero_arg (buf : list byte) (n : nat) (p : Z) : Prop :=
  exists xs fs t, (length xs < n)%nat /\ Forall2 bulk xs fs /\ minus_zero t /\
                  from buf p = concat fs ++ "$"%byte :: t.

(** The owned parser, on these bytes or on more, gives no other verdict than [e]. *)
Definition pending {A} (e : string) (r : parsed A) : Prop := r = NeedMore \/ r = Malformed e.

Lemma minus_zero_arg_step buf n p p' x f :
  bulk x f -> from buf p = f ++ from buf p' -> minus_zero_arg buf n p' -> minus_zero_arg buf (S n) p.
Proof.
  intros Hb E (xs & fs & t & Hn & Hfs & Ht & E'). exists (x :: xs), (f :: fs), t.
  split; [cbn; lia|]. split; [constructor; assumption|]. split; [exact Ht|].
  rewrite E, E'. cbn [concat]. rewrite <- app_assoc. reflexivity.
Qed.

(** One argument whose bytes are all there, and what arrives after it. *)
Lemma validate_arg n buf p total z len more :
  0 <= p -> get buf p = Some "$"%byte -> find_crlf buf (p + 1) = Some z ->
  parse_int (slice buf (p + 1) z) = Some len -> 0 <= len <= MAX_BULK_LEN ->
  z + 2 + len + 2 <= blen buf ->
  validate_multibulk_frame (buf ++ more) (S n) p total =
    _ ← refuse (negb (bool_decide (slice buf (z + 2 + len) (z + 2 + len + 2) = CRLF)))
          "bulk string not CRLF-terminated";
    validate_multibulk_frame (buf ++ more) n (z + 2 + len + 2) (total + len).
Proof.
  intros Hp Hg Hf Hi Hl Hw. pose proof (get_Some_lt buf p _ Hp Hg).
  destruct (find_crlf_le buf (p + 1) z ltac:(lia) Hf). cbn [validate_multibulk_frame].
  rewrite get_app_l, Hg by lia. parse_step. change ("$"%byte =b "$"%byte) with true. parse_step.
  rewrite (find_crlf_extend buf more (p + 1) z ltac:(lia) Hf). parse_step.
  rewrite slice_app_l, Hi by lia. parse_step. destruct (Z.ltb_spec len 0); [lia|].
  destruct (Z.ltb_spec MAX_BULK_LEN len); [lia|]. parse_step.
  destruct (Z.ltb_spec (blen (buf ++ more)) (z + 2 + len + 2)) as [Hlt|_];
    [rewrite blen_app in Hlt; pose proof (blen_nonneg more); lia|]. parse_step.
  rewrite slice_app_l by lia. reflexivity.
Qed.

(** A header the borrowed parser refuses leaves the owned parser no other verdict. *)
Lemma validate_refused n buf p total e :
  0 <= p -> get buf p = Some "$"%byte -> header_agrees buf p (Malformed e) ->
  e = "negative bulk length in request"%string /\ minus_zero_arg buf (S n) p \/
  forall more, pending e (validate_multibulk_frame (buf ++ more) (S n) p total).
Proof.
  intros Hp Hg [[-> Hz]|Ha]; [left|right].
  - split; [reflexivity|]. exists [], [], (from buf (p + 1)). split; [cbn; lia|].
    split; [constructor|]. split; [exact Hz|]. apply from_cons_get; assumption.
  - intros more. specialize (Ha more). pose proof (get_Some_lt buf p _ Hp Hg).
    cbn [validate_multibulk_frame]. rewrite get_app_l, Hg by lia. parse_step.
    change ("$"%byte =b "$"%byte) with true. parse_step.
    destruct (find_crlf (buf ++ more) (p + 1)) as [q|]; parse_step; [|left; reflexivity].
    specialize (Ha q eq_refl). right.
    destruct (parse_int _) as [len|]; parse_step; [|subst; reflexivity]. unfold MAX_BULK_LEN in *.
    destruct Ha as [[Hm ->]|[Hm ->]], (Z.ltb_spec len 0); try lia; parse_step; [reflexivity|].
    destruct (Z.ltb_spec (512 * 1024 * 1024) len); [reflexivity|lia].
Qed.

Lemma borrow_args_agrees (n : nat) : forall buf p total argv rs,
  0 <= p -> blen buf < 2 ^ 32 -> ab_input argv = buf -> ab_holds argv rs ->
  match borrow_args buf n p argv with
  | Done (argv', p') => exists rs' total',
      validate_multibulk_frame buf n p total = Done (p', total') /\
      (forall dst, copy_multibulk_args buf p n dst = Done (argv_extend dst (ab_args buf rs'))) /\
      ab_input argv' = buf /\ ab_holds argv' (rs ++ rs')
  | NeedMore => validate_multibulk_frame buf n p total = NeedMore
  | Malformed e =>
      e = "negative bulk length in request"%string /\ minus_zero_arg buf n p \/
      forall more, pending e (validate_multibulk_frame (buf ++ more) n p total)
  | Panicked => False
  end.
Proof.
  induction n as [|n IH]; intros buf p total argv rs Hp Hb Hin Hh.
  { exists [], total. rewrite app_nil_r. auto. }
  cbn [borrow_args]. destruct (get buf p) as [b|] eqn:Eb; parse_step.
  2: { cbn [validate_multibulk_frame]. rewrite Eb. reflexivity. }
  destruct (byte_eqb_spec b "$"%byte) as [->|Hne]; parse_step.
  2: { right. intros more. cbn [validate_multibulk_frame]. rewrite get_app_l, Eb
         by (pose proof (get_Some_lt buf p b Hp Eb); lia). parse_step.
       destruct (byte_eqb_spec b "$"%byte); [contradiction|]. right. reflexivity. }
  pose proof (bulk_header_agrees buf p Hp) as Ha.
  destruct (bulk_header buf p) as [[len ds]| |e|]; cbn [mbind parsed_bind].
  2: { cbn [validate_multibulk_frame]. rewrite Eb. parse_step. rewrite Ha. reflexivity. }
  2: apply validate_refused; assumption.
  2: destruct Ha.
  destruct Ha as (Hf & Hi & Hl). destruct (find_crlf_le buf (p + 1) (ds - 2) ltac:(lia) Hf).
  set (z := ds - 2) in *. replace ds with (z + 2) by (unfold z; lia).
  destruct (Z.ltb_spec (blen buf) (z + 2 + len + 2)); parse_step.
  { cbn [validate_multibulk_frame]. rewrite Eb. parse_step. rewrite Hf. parse_step. rewrite Hi. parse_step.
    destruct (Z.ltb_spec len 0); [lia|]. destruct (Z.ltb_spec MAX_BULK_LEN len); [lia|]. parse_step.
    destruct (Z.ltb_spec (blen buf) (z + 2 + len + 2)); [reflexivity | lia]. }
  pose proof (fun more => validate_arg n buf p total z len more Hp Eb Hf Hi Hl ltac:(lia)) as Hstep.
  pose proof (Hstep []) as Hnow. rewrite app_nil_r in Hnow.
  destruct (bool_decide _) eqn:Ec; parse_step_in Hnow; parse_step.
  2: { right. intros more. rewrite Hstep. right. reflexivity. }
  apply bool_decide_eq_true in Ec.
  assert (Hpush : ab_holds (ab_push_range argv (z + 2) (z + 2 + len)) (rs ++ [(z + 2, z + 2 + len)]))
    by (apply ab_holds_push; rewrite ?Hin; auto; lia).
  specialize (IH buf (z + 2 + len + 2) (total + len) (ab_push_range argv (z + 2) (z + 2 + len)) _
                 ltac:(lia) Hb Hin Hpush).
  destruct (borrow_args buf n (z + 2 + len + 2) _) as [[argv' p']| |e|].
  - destruct IH as (rs' & total' & Hv & Hc & Hin' & Hh').
    exists ((z + 2, z + 2 + len) :: rs'), total'. rewrite Hnow. split; [exact Hv|].
    split; [|split; [exact Hin' | rewrite <- app_assoc in Hh'; exact Hh']].
    intros dst. cbn [copy_multibulk_args]. rewrite Hf. parse_step. rewrite Hi. parse_step.
    rewrite index_range_ok by lia. parse_step. rewrite Hc. reflexivity.
  - rewrite Hnow. exact IH.
  - destruct IH as [[-> Hz]|IH]; [left|right; intros more; rewrite Hstep; apply IH].
    split; [reflexivity|].
    destruct (bulk_here buf p z len Hp Eb Hf Hi Hl ltac:(lia) Ec) as (x & f & Hx & E).
    exact (minus_zero_arg_step _ _ _ _ _ _ Hx E Hz).
  - exact IH.
Qed.

(** ** Inline commands *)

Lemma token_end_spec fuel : forall line i,
  0 <= i -> blen (from line i) <= Z.of_nat fuel ->
  let e := token_end fuel line i in
  exists tok, from line i = tok ++ from line e /\ e = i + blen tok /\
    Forall (fun b => is_ascii_whitespace b = false) tok /\
    match get line e with Some b => is_ascii_whitespace b = true | None => True end.
Proof.
  induction fuel as [|fuel IH]; intros line i Hi Hf; cbn [token_end].
  - exists []. rewrite blen_nil. repeat split; [lia | constructor |].
    destruct (get line i) as [b|] eqn:E; [|exact I].
    rewrite (from_cons_get line i b Hi E), blen_cons in Hf. pose proof (blen_nonneg (from line (i + 1))).
    lia.
  - destruct (get line i) as [b|] eqn:E.
    2: { exists []. rewrite blen_nil, E. repeat split; [lia | constructor]. }
    rewrite (from_cons_get line i b Hi E) in *. rewrite blen_cons in Hf.
    destruct (is_ascii_whitespace b) eqn:Ew.
    + exists []. rewrite blen_nil, E. cbn [app]. rewrite (from_cons_get line i b Hi E).
      repeat split; [lia | constructor | exact Ew].
    + destruct (IH line (i + 1) ltac:(lia) ltac:(lia)) as (tok & Et & He & Hw & Hg).
      exists (b :: tok). rewrite blen_cons. repeat split; [| lia | constructor; auto | exact Hg].
      cbn [app]. f_equal. exact Et.
Qed.

Lemma split_slice_cons sep l : exists h t, split_slice sep l = h :: t.
Proof.
  induction l as [|b l (h & t & E)]; cbn; [eauto|]. destruct (sep b); [eauto|]. rewrite E. eauto.
Qed.

Lemma inline_tokens_sep b r : is_ascii_whitespace b = true -> inline_tokens (b :: r) = inline_tokens r.
Proof. intros H. unfold inline_tokens. cbn [split_slice]. rewrite H. reflexivity. Qed.

Lemma split_slice_token sep tok rest :
  Forall (fun b => sep b = false) tok ->
  match rest with b :: _ => sep b = true | [] => True end ->
  split_slice sep (tok ++ rest) =
    tok :: match rest with [] => [] | _ :: r => split_slice sep r end.
Proof.
  intros Ht Hr. induction Ht as [|b tok Hb _ IH]; cbn [app].
  - destruct rest as [|b r]; [reflexivity|]. cbn. rewrite Hr. reflexivity.
  - cbn [split_slice]. rewrite Hb, IH. reflexivity.
Qed.

Lemma inline_tokens_token tok rest :
  tok <> [] -> Forall (fun b => is_ascii_whitespace b = false) tok ->
  match rest with b :: _ => is_ascii_whitespace b = true | [] => True end ->
  inline_tokens (tok ++ rest) = tok :: inline_tokens rest.
Proof.
  intros Hne Ht Hr. unfold inline_tokens. rewrite split_slice_token by assumption.
  destruct tok as [|b tok]; [contradiction|]. cbn [List.filter non_empty]. f_equal.
  destruct rest as [|c r]; [reflexivity|]. cbn [split_slice]. rewrite Hr. reflexivity.
Qed.

Lemma ab_args_app input rs s e : ab_args input (rs ++ [(s, e)]) = ab_args input rs ++ [slice input s e].
Proof. unfold ab_args. rewrite fmap_app. reflexivity. Qed.

Lemma inline_ranges_spec fuel : forall line tail i argv rs,
  0 <= i <= blen line -> blen (from line i) <= Z.of_nat fuel ->
  ab_input argv = line ++ tail -> blen (line ++ tail) < 2 ^ 32 -> ab_holds argv rs ->
  exists argv' rs', inline_ranges fuel line i argv = Done argv' /\ ab_input argv' = line ++ tail /\
    ab_holds argv' rs' /\
    ab_args (line ++ tail) rs' = ab_args (line ++ tail) rs ++ inline_tokens (from line i).
Proof.
  induction fuel as [|fuel IH]; intros line tail i argv rs Hi Hf Hin Hb Hh; cbn [inline_ranges].
  all: destruct (get line i) as [b|] eqn:E.
  2, 4: exists argv, rs; apply get_None in E; [|lia]; rewrite from_ge by exact E;
        change (inline_tokens []) with (@nil (list byte)); rewrite app_nil_r; auto.
  all: pose proof (from_cons_get line i b ltac:(lia) E) as Ec; rewrite Ec, blen_cons in Hf;
       pose proof (blen_nonneg (from line (i + 1))).
  1: lia.
  pose proof (get_Some_lt line i b ltac:(lia) E).
  destruct (is_ascii_whitespace b) eqn:Ew.
  { rewrite Ec, inline_tokens_sep by exact Ew. apply IH; auto; lia. }
  assert (Hlen : blen (from line i) <= Z.of_nat (length line))
    by (unfold blen, from; rewrite length_drop; lia).
  destruct (token_end_spec (length line) line i ltac:(lia) Hlen) as (tok & Et & He & Hw & Hg).
  set (e := token_end (length line) line i) in *.
  assert (Hne : tok <> []).
  { intros ->. rewrite blen_nil in He. replace e with i in Hg by lia. rewrite E in Hg. congruence. }
  pose proof (blen_nonneg tok). assert (Hpos : 1 <= blen tok).
  { destruct tok; [contradiction|]. rewrite blen_cons. pose proof (blen_nonneg tok). lia. }
  assert (Hel : e <= blen line).
  { pose proof (f_equal blen Et) as L. rewrite blen_app, blen_from in L by lia.
    pose proof (blen_nonneg (from line e)). lia. }
  pose proof (blen_from line e ltac:(lia)). pose proof (blen_from line (i + 1) ltac:(lia)).
  rewrite blen_app in Hb. pose proof (blen_nonneg tail).
  assert (Hpush : ab_holds (ab_push_range argv i e) (rs ++ [(i, e)]))
    by (apply ab_holds_push; rewrite ?Hin, ?blen_app; auto; lia).
  destruct (IH line tail e (ab_push_range argv i e) _ ltac:(lia)
              ltac:(lia) Hin ltac:(rewrite blen_app; lia) Hpush)
    as (argv' & rs' & Hr & Hi' & Hh' & Ha).
  exists argv', rs'. split; [exact Hr|]. split; [exact Hi'|]. split; [exact Hh'|].
  rewrite Ha, ab_args_app, slice_app_l by lia.
  replace (slice line i e) with tok by (rewrite He; symmetry; exact (slice_line line i tok _ Et)).
  rewrite Et, inline_tokens_token, <- app_assoc; [reflexivity | exact Hne | exact Hw |].
  destruct (get line e) as [c|] eqn:Ee.
  - rewrite (from_cons_get line e c) by (auto; lia). exact Hg.
  - apply get_None in Ee; [|lia]. rewrite from_ge by exact Ee. exact I.
Qed.

(** ** One frame, and the command loop *)

(** The borrowed view [v] reads as the owned [a]. *)
Definition view_of (v : ArgvBorrowed) (a : Argv) : Prop :=
  exists rs, ab_holds v rs /\ a = argv_from (ab_args (ab_input v) rs).

(** The two parsers' outcomes on the same bytes: [b] is the borrowed parser's,
    [o more] the owned parser's once [more] has arrived, [minus] the case in
    which the frame holds a negative zero length. *)
Definition agrees (o : list byte -> parsed (Argv * Z)) (minus : Prop)
  (b : parsed (ArgvBorrowed * Z)) : Prop :=
  match b with
  | Done (v, n) => exists a, o [] = Done (a, n) /\ view_of v a
  | NeedMore => o [] = NeedMore
  | Malformed e =>
      e = "negative bulk length in request"%string /\ minus \/ forall more, pending e (o more)
  | Panicked => False
  end.

(** A negative zero length in the buffer's first frame that is not empty. *)
Inductive negative_zero : list byte -> Prop :=
| negative_zero_here h count xs fs k rest :
    line_ok h -> parse_int h = Some count -> blen xs < count <= MAX_MULTIBULK_LEN ->
    Forall2 bulk xs fs ->
    negative_zero (("*"%byte :: h) ++ CRLF ++ concat fs ++
                   bs "$-" ++ repeat "0"%byte (S k) ++ CRLF ++ rest)
| negative_zero_skip f c : frame f [] -> negative_zero c -> negative_zero (f ++ c).

Definition parsed_with (r : parsed Z * Argv) : parsed (Argv * Z) :=
  match fst r with
  | Done n => Done (snd r, n)
  | NeedMore => NeedMore
  | Malformed e => Malformed e
  | Panicked => Panicked
  end.

(** The owned parser after the count, on [buf]. *)
Definition owned_body (buf : list byte) (count start : Z) : parsed (Argv * Z) :=
  parsed_with
    (if MAX_MULTIBULK_LEN <? count then (Malformed "multibulk count exceeds limit", argv_default)
     else match validate_multibulk_frame buf (Z.to_nat count) start 0 with
          | Done (end_pos, _) =>
              match copy_multibulk_args buf start (Z.to_nat count) argv_default with
              | Done dst' => (Done end_pos, dst')
              | _ => (Panicked, argv_default)
              end
          | NeedMore => (NeedMore, argv_default)
          | Malformed e => (Malformed e, argv_default)
          | Panicked => (Panicked, argv_default)
          end).

Lemma multibulk_body_agrees buf count p :
  0 <= p -> 0 <= count -> blen buf < 2 ^ 32 ->
  agrees (fun more => owned_body (buf ++ more) count p)
         (count <= MAX_MULTIBULK_LEN /\ minus_zero_arg buf (Z.to_nat count) p)
         (multibulk_body buf count p).
Proof.
  intros Hh Hc Hb. unfold multibulk_body, owned_body.
  destruct (Z.ltb_spec MAX_MULTIBULK_LEN count); parse_step; [right; right; reflexivity|].
  assert (H0 : ab_holds (ab_with_capacity buf count) []) by (split; [apply ir_holds_new | constructor]).
  pose proof (borrow_args_agrees (Z.to_nat count) buf p 0
                (ab_with_capacity buf count) [] Hh Hb eq_refl H0) as H'.
  destruct (borrow_args _ _ _ _) as [[v n]| |e|]; cbn [agrees]; rewrite ?app_nil_r.
  - destruct H' as (rs & total & -> & Hcopy & Hin & Hv). rewrite Hcopy.
    exists (argv_extend argv_default (ab_args buf rs)). split; [reflexivity|].
    exists rs. rewrite Hin. split; [exact Hv | reflexivity].
  - rewrite H'. reflexivity.
  - destruct H' as [[-> Hz]|H']; [left; auto|right]. intros more.
    destruct (H' more) as [-> | ->]; [left | right]; reflexivity.
  - exact H'.
Qed.

(** The count's line and the negative zero after it. *)
Lemma negative_zero_frame r e count :
  find_crlf ("*"%byte :: r) 1 = Some e -> parse_int (slice ("*"%byte :: r) 1 e) = Some count ->
  0 <= count <= MAX_MULTIBULK_LEN -> minus_zero_arg ("*"%byte :: r) (Z.to_nat count) (e + 2) ->
  negative_zero ("*"%byte :: r).
Proof.
  intros Hf Hi Hc (xs & fs & t & Hn & Hfs & (k & rest & ->) & E).
  destruct (find_crlf_split _ 1 e ltac:(lia) Hf) as (h & m & Em & Hh & ->).
  rewrite (slice_line _ 1 h _ Em) in Hi. rewrite (from_line _ 1 h m ltac:(lia) Em) in E.
  replace ("*"%byte :: r) with ("*"%byte :: from ("*"%byte :: r) 1) by reflexivity.
  rewrite Em, E. apply (negative_zero_here h count xs fs k rest Hh Hi); [unfold blen; lia | exact Hfs].
Qed.

Lemma multibulk_agrees r :
  let buf := "*"%byte :: r in
  blen buf < 2 ^ 32 ->
  agrees (fun more => parsed_with (parse_multibulk_into (buf ++ more) argv_default)) (negative_zero buf)
         (parse_multibulk_borrowed buf).
Proof.
  intros buf Hb.
  assert (Hbody : forall e count, find_crlf buf 1 = Some e -> parse_int (slice buf 1 e) = Some count ->
    0 <= count ->
    agrees (fun more => parsed_with (parse_multibulk_into (buf ++ more) argv_default)) (negative_zero buf)
           (multibulk_body buf count (e + 2))).
  { intros e count Ef Ei Hc. destruct (find_crlf_le buf 1 e ltac:(lia) Ef).
    pose proof (multibulk_body_agrees buf count (e + 2) ltac:(lia) Hc Hb) as H'.
    assert (Eo : forall more, parsed_with (parse_multibulk_into (buf ++ more) argv_default) =
                              owned_body (buf ++ more) count (e + 2)).
    { intros more. unfold parse_multibulk_into. rewrite (find_crlf_extend buf more 1 e ltac:(lia) Ef).
      rewrite slice_app_l, Ei by lia. destruct (Z.ltb_spec count 0); [lia | reflexivity]. }
    destruct (multibulk_body buf count (e + 2)) as [[v n]| |err|]; cbn [agrees] in *; rewrite ?Eo; auto.
    destruct H' as [[-> [Hm Hz]]|H']; [left|right; intros more; rewrite Eo; apply H'].
    split; [reflexivity|]. exact (negative_zero_frame r e count Ef Ei ltac:(lia) Hz). }
  unfold parse_multibulk_borrowed. destruct (small_header buf 1) as [[count p]|] eqn:Es.
  - destruct (small_header_agrees buf 1 count p ltac:(lia) Es) as (Hf & Hi & Hc).
    replace p with (p - 2 + 2) by lia. apply Hbody; auto; lia.
  - destruct (find_crlf buf 1) as [e|] eqn:Ef; parse_step.
    2: { cbn [agrees]. unfold parse_multibulk_into. rewrite app_nil_r, Ef. reflexivity. }
    destruct (find_crlf_le buf 1 e ltac:(lia) Ef).
    destruct (parse_int _) as [count|] eqn:Ei; parse_step.
    2: { right. intros more. right. unfold parse_multibulk_into.
         rewrite (find_crlf_extend buf more 1 e ltac:(lia) Ef), slice_app_l, Ei by lia. reflexivity. }
    destruct (Z.ltb_spec count 0) as [Hc|]; [|apply Hbody; auto].
    exists argv_default. split.
    + unfold parse_multibulk_into. rewrite app_nil_r, Ef, Ei. destruct (Z.ltb_spec count 0); [reflexivity|lia].
    + exists []. split; [split; [apply ir_holds_new | constructor] | reflexivity].
Qed.

Lemma inline_agrees buf :
  blen buf < 2 ^ 32 ->
  agrees (fun more => parsed_with (parse_inline_into (buf ++ more) argv_default)) False
         (parse_inline_borrowed buf).
Proof.
  intros Hb. unfold parse_inline_into, parse_inline_borrowed.
  destruct (find_crlf buf 0) as [e|] eqn:Ef; parse_step.
  2: { cbn [agrees]. rewrite app_nil_r, Ef. reflexivity. }
  destruct (find_crlf_le buf 0 e ltac:(lia) Ef).
  set (line := slice buf 0 e). assert (Es : buf = line ++ from buf e)
    by (unfold line; rewrite <- from_slice by lia; reflexivity).
  pose proof (blen_nonneg line).
  assert (H2 : ab_holds (ab_new buf) []) by (split; [apply ir_holds_new | constructor]).
  assert (H3 : blen (from line 0) <= Z.of_nat (length line)) by (rewrite from_0; unfold blen; lia).
  rewrite Es in H2, Hb |- * at 1.
  destruct (inline_ranges_spec (length line) line (from buf e) 0 (ab_new (line ++ from buf e)) []
              ltac:(lia) H3 eq_refl Hb H2) as (v & rs & -> & Hin & Hv & Ha).
  cbn [mbind parsed_bind]. eexists. split; [rewrite app_nil_r, Ef; reflexivity|].
  exists rs. split; [exact Hv|].
  rewrite Hin, Ha, from_0. reflexivity.
Qed.

Lemma view_of_is_empty v a : view_of v a -> ab_is_empty v = argv_is_empty a.
Proof.
  intros (rs & [(Hn & _) _] & ->). rewrite argv_from_is_empty. unfold ab_is_empty, ir_is_empty.
  rewrite Hn. destruct rs as [|r rs]; [reflexivity|]. rewrite blen_cons.
  pose proof (blen_nonneg rs). destruct (Z.eqb_spec (1 + blen rs) 0); [lia | reflexivity].
Qed.

Lemma frame_agrees b rest :
  blen (b :: rest) < 2 ^ 32 ->
  agrees (fun more => parsed_with (parse_one ((b :: rest) ++ more))) (negative_zero (b :: rest))
         (if b =b "*"%byte then parse_multibulk_borrowed (b :: rest)
          else parse_inline_borrowed (b :: rest)).
Proof.
  intros Hb. cbn [app parse_one]. destruct (byte_eqb_spec b "*"%byte) as [->|].
  - apply (multibulk_agrees rest Hb).
  - pose proof (inline_agrees (b :: rest) Hb) as H'.
    destruct (parse_inline_borrowed (b :: rest)) as [[v k]| |e|]; auto.
    destruct H' as [[_ []]|H']; right; exact H'.
Qed.

Lemma parse_one_bounds rest used a :
  parse_one rest = (Done used, a) -> 2 <= used <= blen rest.
Proof.
  intros H. destruct (parse_one_sound _ _ _ H) as (f & xs & m & -> & Hf & -> & _).
  apply frame_len in Hf. rewrite blen_app. pose proof (blen_nonneg m). lia.
Qed.

(** An error the first frame leaves pending is pending for the command. *)
Lemma loop_pending fuel buf base dst e :
  pending e (parsed_with (parse_one (from buf base))) -> (0 < fuel)%nat ->
  pending e (parsed_with (parse_command_loop fuel buf base dst)).
Proof.
  intros He Hf. destruct fuel as [|fuel]; [lia|]. rewrite loop_unfold.
  destruct (parse_one (from buf base)) as [r a], He as [He|He], r; try discriminate He;
    [left | right]; exact He.
Qed.

Lemma loop_agrees fuel : forall buf base dst,
  blen buf < 2 ^ 32 -> 0 <= base <= blen buf -> blen buf - base < Z.of_nat fuel ->
  agrees (fun more => parsed_with (parse_command_loop (fuel + length more) (buf ++ more) base dst))
         (negative_zero (from buf base)) (borrowed_loop fuel buf base).
Proof.
  induction fuel as [|fuel IH]; intros buf base dst Hb Hbase Hfuel; [lia|].
  cbn [borrowed_loop]. pose proof (blen_from buf base Hbase) as Hl.
  assert (Enil : forall a : Argv, parse_command_loop (S fuel + length (@nil byte)) (buf ++ []) base dst =
                        parse_command_loop (S fuel) buf base dst)
    by (intros; cbn [length]; rewrite Nat.add_0_r, app_nil_r; reflexivity).
  destruct (from buf base) as [|b rest] eqn:Er.
  { cbn [agrees]. rewrite (Enil argv_default), loop_unfold, Er. reflexivity. }
  pose proof (frame_agrees b rest ltac:(lia)) as Ha.
  destruct (if b =b "*"%byte then _ else _) as [[v n]| |e|]; cbn [mbind parsed_bind agrees] in *.
  - destruct Ha as (a & Ho & Hv). rewrite app_nil_r in Ho. rewrite (view_of_is_empty _ _ Hv).
    destruct (parse_one (b :: rest)) as [[u| |e|] a'] eqn:E1; try discriminate Ho. injection Ho as -> ->.
    destruct (parse_one_sound _ _ _ E1) as (f & xs & m & Ef & Hf & -> & ->).
    pose proof (frame_len _ _ Hf). rewrite Ef, blen_app in Hl. pose proof (blen_nonneg m).
    destruct (argv_is_empty (argv_from xs)) eqn:Ee.
    2: { exists (argv_from xs). split; [|exact Hv].
         rewrite (Enil argv_default), loop_unfold, Er, E1, Ee. reflexivity. }
    specialize (IH buf (base + blen f) (argv_from xs) Hb ltac:(lia) ltac:(lia)).
    assert (Es : forall more, parse_command_loop (S fuel + length more) (buf ++ more) base dst =
               parse_command_loop (fuel + length more) (buf ++ more) (base + blen f) (argv_from xs)).
    { intros more. cbn [Nat.add]. rewrite loop_unfold, from_app_l, Er by lia.
      rewrite (parse_one_stable _ more _ _ E1) by discriminate. rewrite Ee. reflexivity. }
    assert (Hz : negative_zero (from buf (base + blen f)) -> negative_zero (b :: rest)).
    { rewrite <- from_from, Er, Ef, from_app_len by lia. apply negative_zero_skip.
      rewrite argv_from_is_empty in Ee. destruct xs; [exact Hf | discriminate]. }
    destruct (borrowed_loop fuel buf (base + blen f)) as [[v' n']| |e|]; cbn [agrees] in *;
      rewrite ?Es; auto.
    destruct IH as [[-> Hm]|IH]; [left; auto | right; intros more; rewrite Es; apply IH].
  - rewrite (Enil argv_default), loop_unfold, Er. rewrite app_nil_r in Ha.
    destruct (parse_one (b :: rest)) as [[]]; discriminate || reflexivity.
  - destruct Ha as [[-> Hz]|Ha]; [left; auto | right]. intros more. apply loop_pending; [|lia].
    rewrite from_app_l, Er by lia. apply Ha.
  - exact Ha.
Qed.

Lemma parse_command_borrowed_agrees buf :
  blen buf < 2 ^ 32 ->
  agrees (fun more => parse_command (buf ++ more)) (negative_zero buf) (parse_command_borrowed buf).
Proof.
  intros Hb. pose proof (blen_nonneg buf).
  pose proof (loop_agrees (S (length buf)) buf 0 argv_default Hb ltac:(lia)
                ltac:(unfold blen; lia)) as H'. rewrite from_0 in H'.
  assert (E : forall more, parse_command (buf ++ more) =
    parsed_with (parse_command_loop (S (length buf) + length more) (buf ++ more) 0 argv_default)).
  { intros more. unfold parse_command, parse_command_into. rewrite length_app.
    cbn [Nat.add]. destruct (parse_command_loop _ _ _ _) as [r a]. reflexivity. }
  unfold parse_command_borrowed in *.
  destruct (borrowed_loop _ _ _) as [[v n]| |e|]; cbn [agrees] in *; rewrite ?E; auto.
  destruct H' as [H'|H']; [left | right; intros more; rewrite E]; auto.
Qed.

(** ** Canonical frames *)

Lemma bulk_header_complete buf p q len :
  0 <= p -> find_crlf buf (p + 1) = Some q -> parse_int (slice buf (p + 1) q) = Some len ->
  0 <= len <= MAX_BULK_LEN -> get buf (p + 1) <> Some "-"%byte ->
  bulk_header buf p = Done (len, q + 2).
Proof.
  intros Hp Hf Hi Hl Hm. pose proof (bulk_header_agrees buf p Hp) as H. unfold header_agrees in H.
  destruct (bulk_header buf p) as [[n d]| |e|]; [| | | destruct H].
  - rewrite Hf in H. destruct H as (H1 & H2 & _). injection H1 as ->. rewrite H2 in Hi. injection Hi as ->.
    do 2 f_equal. lia.
  - congruence.
  - destruct H as [[_ (k & rest & E)]|H].
    + destruct Hm. rewrite <- (Z.add_0_r (p + 1)), <- get_from, E by lia. reflexivity.
    + specialize (H [] q). rewrite app_nil_r, Hi in H. specialize (H Hf). lia.
Qed.

Lemma dec_head m t : 0 <= m -> head (dec m ++ t) <> Some "-"%byte.
Proof.
  intros Hm. pose proof (dec_digits m Hm) as Hd. pose proof (dec_nonempty m Hm).
  destruct (dec m) as [|b r]; [contradiction|]. inversion Hd as [|? ? Hb _]; subst.
  intros [= ->]. discriminate.
Qed.

Lemma borrow_args_canonical xs : Forall (fun x => blen x <= MAX_BULK_LEN) xs ->
  forall pre rest argv, exists v n,
  borrow_args (pre ++ concat (bulk_bytes <$> xs) ++ rest) (length xs) (blen pre) argv = Done (v, n).
Proof.
  induction 1 as [|x xs Hx _ IH]; intros pre rest argv; [eexists _, _; reflexivity|].
  cbn [fmap list_fmap concat length borrow_args]. rewrite <- app_assoc.
  set (tail := concat (bulk_bytes <$> xs) ++ rest).
  pose proof (blen_nonneg x). pose proof (blen_nonneg pre).
  assert (Hd : 0 <= blen x <= i64_max) by (unfold MAX_BULK_LEN, i64_max in *; lia).
  destruct (bulk_positions pre (dec (blen x)) x tail (dec_line_ok (blen x) ltac:(lia)))
    as (G & F & S1 & _ & S3 & L & B).
  change (("$"%byte :: dec (blen x)) ++ CRLF ++ x ++ CRLF) with (bulk_bytes x) in *.
  set (buf := pre ++ bulk_bytes x ++ tail) in *.
  assert (Hm : get buf (blen pre + 1) <> Some "-"%byte).
  { unfold buf. rewrite get_app_r by lia. replace (_ - _) with 1 by lia.
    change (get (bulk_bytes x ++ tail) 1) with (((dec (blen x) ++ CRLF ++ x ++ CRLF) ++ tail) !! 0%nat).
    rewrite <- app_assoc. rewrite <- head_lookup. apply dec_head. lia. }
  rewrite G. parse_step. change ("$"%byte =b "$"%byte) with true. parse_step.
  rewrite (bulk_header_complete buf (blen pre) _ (blen x) ltac:(lia) F); auto.
  2: { rewrite S1. apply parse_int_dec. lia. }
  cbn [mbind parsed_bind]. destruct (Z.ltb_spec (blen buf) (blen pre + 1 + blen (dec (blen x)) + 2 + blen x + 2));
    [lia|]. parse_step.
  rewrite S3, bool_decide_true by reflexivity. parse_step. rewrite L, <- blen_app.
  unfold buf. rewrite app_assoc. apply IH.
Qed.
End Agreement.

(** ** Properties *)

Section Properties.
Context `{Scan : CrlfScanner}.

Lemma canonical_frame args rest :
  blen args <= MAX_MULTIBULK_LEN -> Forall (fun x => blen x <= MAX_BULK_LEN) args ->
  exists v n, parse_multibulk_borrowed (command_bytes args ++ rest) = Done (v, n).
Proof.
  intros Hn Hf. pose proof (blen_nonneg args).
  set (h := int_text (blen args)). set (buf := command_bytes args ++ rest).
  assert (E : buf = "*"%byte :: h ++ CRLF ++ concat (bulk_bytes <$> args) ++ rest)
    by (unfold buf, command_bytes, array_header; rewrite <- !app_assoc; reflexivity).
  assert (Hh : line_ok h) by apply int_text_line_ok.
  destruct (tag_header "*"%byte h (concat (bulk_bytes <$> args) ++ rest) Hh) as [F S].
  rewrite <- E in F, S.
  assert (Hi : parse_int h = Some (blen args))
    by (apply parse_int_int_text; unfold MAX_MULTIBULK_LEN, i64_min, i64_max in *; lia).
  assert (Hbody : exists v n, multibulk_body buf (blen args) (1 + blen h + 2) = Done (v, n)).
  { unfold multibulk_body. destruct (Z.ltb_spec MAX_MULTIBULK_LEN (blen args)); [lia|]. parse_step.
    rewrite blen_to_nat. replace (1 + blen h + 2) with (blen ("*"%byte :: h ++ CRLF))
      by (rewrite blen_cons, blen_app; change (blen CRLF) with 2; lia).
    replace buf with (("*"%byte :: h ++ CRLF) ++ concat (bulk_bytes <$> args) ++ rest)
      by (rewrite E; cbn [app]; rewrite <- !app_assoc; reflexivity).
    apply borrow_args_canonical, Hf. }
  unfold parse_multibulk_borrowed. destruct (small_header buf 1) as [[c p]|] eqn:Es.
  - destruct (small_header_agrees buf 1 c p ltac:(lia) Es) as (F' & I' & _).
    rewrite F in F'. injection F' as Hp. rewrite <- Hp, S, Hi in I'. injection I' as <-.
    replace p with (1 + blen h + 2) by lia. exact Hbody.
  - rewrite F. parse_step. rewrite S, Hi. parse_step.
    destruct (Z.ltb_spec (blen args) 0); [lia | exact Hbody].
Qed.

(** C23: the zero-copy parser refines the owned parser, for buffers under
    4 GiB.  Whatever command it returns is the command and consumed count the
    owned parser returns, and copying its borrowed ranges out gives the owned
    [Argv]; when it asks for more bytes so does the owned parser; when it
    reports an error, then either the first frame that is not empty carries,
    after complete arguments, a length of negative zero ([$-0], [$-00], ...),
    which it refuses as negative, or the owned parser's only verdict on the
    buffer, whatever bytes still arrive, is the same error.  So, but for that
    negative zero, it returns every command and every error of the owned
    parser; and it never panics. *)
Theorem borrowed_refines_owned buf (Hb : blen buf < 2 ^ 32) :
  let o := parse_command buf in
  let b := parse_command_borrowed buf in
  (forall v n, b = Done (v, n) -> exists a, o = Done (a, n) /\ ab_into_owned v = Ret a) /\
  (b = NeedMore -> o = NeedMore) /\
  (forall e, b = Malformed e ->
     e = "negative bulk length in request"%string /\ negative_zero buf \/
     forall more, parse_command (buf ++ more) = NeedMore \/ parse_command (buf ++ more) = Malformed e) /\
  (~ negative_zero buf ->
     (forall a n, o = Done (a, n) -> exists v, b = Done (v, n) /\ ab_into_owned v = Ret a) /\
     (forall e, o = Malformed e -> b = Malformed e)) /\
  b <> Panicked.
Proof.
  intros o b. pose proof (parse_command_borrowed_agrees buf Hb) as H. fold b in H.
  destruct b as [[v n]| |e|]; cbn [agrees] in H; rewrite ?app_nil_r in H; fold o in H.
  - destruct H as (a & Ho & rs & Hh & ->). rewrite Ho.
    split; [intros v' n' [= <- <-]; eauto using ab_into_owned_holds|].
    split; [discriminate|]. split; [discriminate|]. split; [|discriminate].
    split; [|discriminate]. intros a' n' [= <- <-]. eauto using ab_into_owned_holds.
  - rewrite H. repeat split; discriminate || auto.
  - split; [discriminate|]. split; [discriminate|]. split; [intros e' [= <-]; exact H|].
    split; [|discriminate]. intros Hz. destruct H as [[_ H]|H]; [contradiction|].
    specialize (H []). rewrite app_nil_r in H. fold o in H.
    destruct H as [H|H]; rewrite H; split; try discriminate. intros e' [= ->]. reflexivity.
  - destruct H.
Qed.

Lemma borrowed_canonical args rest :
  args <> [] -> blen args <= MAX_MULTIBULK_LEN -> Forall (fun x => blen x <= MAX_BULK_LEN) args ->
  blen (command_bytes args ++ rest) < 2 ^ 32 ->
  exists v, parse_command_borrowed (command_bytes args ++ rest) = Done (v, blen (command_bytes args)) /\
            view_of v (argv_from args).
Proof.
  intros Hne Hn Hf Hb.
  pose proof (parse_command_complete _ _ rest (command_bytes_command args Hne Hn Hf)) as Ho.
  pose proof (parse_command_borrowed_agrees _ Hb) as Ha.
  destruct (canonical_frame args rest Hn Hf) as (v & n & Hv).
  assert (Hm : agrees (fun more => parsed_with (parse_multibulk_into ((command_bytes args ++ rest) ++ more)
                 argv_default)) (negative_zero (command_bytes args ++ rest)) (Done (v, n)))
    by (rewrite <- Hv; exact (multibulk_agrees _ Hb)).
  destruct Hm as (a & Hr & Hview). rewrite app_nil_r in Hr.
  assert (He : ab_is_empty v = false).
  { rewrite (view_of_is_empty _ _ Hview).
    pose proof (parse_one_complete _ _ rest (command_bytes_frame args Hn Hf)) as Hone.
    change (parse_one (command_bytes args ++ rest))
      with (parse_multibulk_into (command_bytes args ++ rest) argv_default) in Hone.
    rewrite Hone in Hr. injection Hr as <- _. rewrite argv_from_is_empty.
    destruct args; [contradiction | reflexivity]. }
  assert (Hd : parse_command_borrowed (command_bytes args ++ rest) = Done (v, n)).
  { unfold parse_command_borrowed. cbn [borrowed_loop]. rewrite from_0.
    change (match _ with [] => _ | _ => _ end) with
      (r ← parse_multibulk_borrowed (command_bytes args ++ rest);
       let '(argv, used) := r in
       if ab_is_empty argv
       then borrowed_loop (length (command_bytes args ++ rest)) (command_bytes args ++ rest) (0 + used)
       else Done (argv, 0 + used)).
    rewrite Hv. cbn [mbind parsed_bind]. rewrite He. reflexivity. }
  rewrite Hd in Ha. cbn [agrees] in Ha. rewrite app_nil_r, Ho in Ha.
  destruct Ha as (a' & [= <- <-] & Hv'). exists v. auto.
Qed.

(** the zero-copy parser reads back every command [encode_command] writes
    (within the limits, in a buffer under 4 GiB), whatever follows it, as
    ranges that hold exactly the original arguments. *)
Theorem encode_command_parses_borrowed args rest (Hne : args <> [])
  (Hn : blen args <= MAX_MULTIBULK_LEN) (Hf : Forall (fun x => blen x <= MAX_BULK_LEN) args)
  (Hb : blen (command_bytes args ++ rest) < 2 ^ 32) :
  exists w v, encode_command [] args = Ret w /\
              parse_command_borrowed (w ++ rest) = Done (v, blen w) /\
              ab_into_owned v = Ret (argv_from args).
Proof.
  destruct (borrowed_canonical args rest Hne Hn Hf Hb) as (v & Hd & rs & Hh & Ha).
  exists (command_bytes args), v. split; [|split].
  - apply (encode_command_ok [] args); [unfold MAX_MULTIBULK_LEN, i64_max in *; lia|].
    eapply Forall_impl; [exact Hf|]. cbv beta. unfold MAX_BULK_LEN, u64_max. lia.
  - exact Hd.
  - rewrite Ha. apply ab_into_owned_holds, Hh.
Qed.
End Properties.

(** A command after an empty frame, and a header refused before its line ends. *)
Lemma borrowed_refines_owned_witness :
  let buf := bs "*-1" ++ CRLF ++ command_bytes [bs "GET"; bs "k"] ++ bs "*1" in
  let bad := bs "*1" ++ CRLF ++ bs "$x" in
  match parse_command_borrowed (Scan := scanner_on Aarch64) buf with
  | Done (v, n) => exists a, parse_command (Scan := scanner_on Aarch64) buf = Done (a, n) /\
                             ab_into_owned v = Ret a
  | _ => False
  end /\
  parse_command (Scan := scanner_on Aarch64) bad = NeedMore /\
  pending "bad bulk length" (parse_command (Scan := scanner_on Aarch64) (bad ++ bs "3" ++ CRLF)).
Proof.
  intros buf bad. split; [|split].
  - destruct (borrowed_refines_owned (Scan := scanner_on Aarch64) buf eq_refl) as (H & _).
    destruct (parse_command_borrowed buf) as [[v n]| |e|] eqn:E; [exact (H v n eq_refl)|..];
      vm_compute in E; discriminate E.
  - reflexivity.
  - destruct (borrowed_refines_owned (Scan := scanner_on Aarch64) bad eq_refl) as (_ & _ & H & _).
    destruct (H "bad bulk length"%string ltac:(reflexivity)) as [[E _]|E]; [discriminate E|].
    exact (E (bs "3" ++ CRLF)).
Defined.

Lemma encode_command_parses_borrowed_witness :
  let args := [bs "SET"; bs "k"; []] in
  exists w v, encode_command [] args = Ret w /\
              parse_command_borrowed (Scan := scanner_on Aarch64) (w ++ bs "PING") = Done (v, blen w) /\
              ab_into_owned v = Ret (argv_from args).
Proof.
  apply (encode_command_parses_borrowed (Scan := scanner_on Aarch64) [bs "SET"; bs "k"; []] (bs "PING")).
  - discriminate.
  - vm_compute. discriminate.
  - repeat constructor; vm_compute; discriminate.
  - reflexivity.
Defined.

(** the two request parsers disagree on a negative zero length: the frame
    [*1 $-0] followed by an empty payload is a command with one empty argument
    for the owned parser and a protocol error for the zero-copy parser, on
    every CPU. *)
Theorem parsers_disagree_on_negative_zero (c : cpu) :
  let buf := bs "*1" ++ CRLF ++ bs "$-0" ++ CRLF ++ CRLF in
  parse_command (Scan := scanner_on c) buf = Done (argv_from [[]], blen buf) /\
  parse_command_borrowed (Scan := scanner_on c) buf = Malformed "negative bulk length in request".
Proof. destruct c as [[]| |]; vm_compute; auto. Qed.
