(* ===== verification/F64.v ===== *)
(** * [f64] text as the reply parser reads it

    [parse_double_reply] reads the text of a RESP3 double with [f64::from_str].  A value is a [spec_float] of the
    Standard Library at the binary64 format; NaN payload and sign are not kept
    (the reply type's [PartialEq] cannot see them). *)

From Stdlib Require Import ZArith Lia Bool Strings.Byte Strings.String.
From Stdlib Require Import Floats.SpecFloat.
From stdpp Require Import base list.
From S2P Require Import Prelude Utf8 Encode.

#[local] Open Scope list_scope.
#[local] Open Scope Z_scope.
#[local] Open Scope kevy_scope.

(** ** [f64::from_str] *)

Definition f64 : Type := spec_float.

(** Leading digits, and the rest. *)
Fixpoint span_digits (l : list byte) : list byte * list byte :=
  match l with
  | b :: r =>
      if is_ascii_digit b then let '(d, t) := span_digits r in (b :: d, t) else ([], l)
  | [] => ([], [])
  end.

(** The exponent accumulator stops growing once it has reached [0x10000]. *)
Fixpoint exponent_digits (acc : Z) (l : list byte) : Z :=
  match l with
  | [] => acc
  | b :: r => exponent_digits (if acc <? 65536 then acc * 10 + (bz b - 48) else acc) r
  end.

(** [Exp?] at the end of a number: the whole rest must be read. *)
Definition exponent (l : list byte) : option Z :=
  match l with
  | [] => Some 0
  | c :: r =>
      if (c =b "e"%byte) || (c =b "E"%byte) then
        let '(neg, r) :=
          match r with
          | s :: r' => if s =b "-"%byte then (true, r')
                       else if s =b "+"%byte then (false, r') else (false, r)
          | [] => (false, [])
          end in
        match span_digits r with
        | (b :: d, []) => let e := exponent_digits 0 (b :: d) in Some (if neg : bool then - e else e)
        | _ => None
        end
      else None
  end.

(** [m * 10^e] rounded to nearest, ties to even.  Magnitudes beyond the format
    ([10^310] and above, below [10^-330]) are decided without computing them;
    [n] is the number of significant decimal digits of [m]. *)
Definition f64_of_decimal (neg : bool) (n m e : Z) : f64 :=
  match m with
  | Zpos p =>
      if 310 <? n + e then S754_infinity neg
      else if n + e <? -330 then S754_zero neg
      else if 0 <=? e then binary_round 53 1024 neg (p * Z.to_pos (10 ^ e)) 0
      else SFdiv 53 1024 (S754_finite neg p 0) (S754_finite false (Z.to_pos (10 ^ (- e))) 0)
  | _ => S754_zero neg
  end.

Fixpoint strip_zeros (l : list byte) : list byte :=
  match l with
  | b :: r => if b =b "0"%byte then strip_zeros r else l
  | [] => []
  end.

Definition f64_number (neg : bool) (l : list byte) : option f64 :=
  let '(int, r) := span_digits l in
  let '(frac, r) :=
    match r with
    | c :: r' => if c =b "."%byte then span_digits r' else ([], r)
    | [] => ([], [])
    end in
  match int ++ frac with
  | [] => None
  | ds => e ← exponent r;
          Some (f64_of_decimal neg (blen (strip_zeros ds)) (digits_val 0 ds) (e - blen frac))
  end.

Definition f64_special (neg : bool) (l : list byte) : option f64 :=
  let l := to_ascii_lowercase <$> l in
  if bool_decide (l = bs "inf") || bool_decide (l = bs "infinity") then Some (S754_infinity neg)
  else if bool_decide (l = bs "nan") then Some S754_nan
  else None.

Definition f64_from_str (s : list byte) : option f64 :=
  match s with
  | [] => None
  | c :: r =>
      let '(neg, body) :=
        if c =b "-"%byte then (true, r) else if c =b "+"%byte then (false, r) else (false, s) in
      match f64_number neg body with
      | Some v => Some v
      | None => f64_special neg body
      end
  end.

Example f64_from_str_samples :
  f64_from_str (bs "1.5") = Some (S754_finite false 6755399441055744 (-52)) /\
  f64_from_str (bs "0.1") = Some (S754_finite false 7205759403792794 (-56)) /\
  f64_from_str (bs "-1e+300") = Some (S754_finite true 6724873095247260 944) /\
  f64_from_str (bs "5e-324") = Some (S754_finite false 1 (-1074)) /\
  f64_from_str (bs "2e-324") = Some (S754_zero false) /\
  f64_from_str (bs "1.7976931348623157e308") = Some (S754_finite false 9007199254740991 971) /\
  f64_from_str (bs "1e999999999999") = Some (S754_infinity false) /\
  f64_from_str (bs "-Inf") = Some (S754_infinity true) /\
  f64_from_str (bs "NaN") = Some S754_nan /\
  f64_from_str (bs ".") = None /\ f64_from_str (bs "1e") = None /\ f64_from_str (bs "+") = None.
Proof. vm_compute. repeat split. Qed.
