(* ===== verification/ReplyParse.v ===== *)
(** * The reply parser ([crates/kevy-resp/src/reply.rs], [reply_parse.rs])

    [parse_reply] reads one RESP2/RESP3 reply tree from the front of a buffer;
    [parse_reply_keeping_double_text] also returns the wire text of the doubles
    it met.  The recursion of [parse_with] through nested aggregates runs on
    fuel; [S (length buf)] is enough, because an element starts after the
    header of the aggregate that holds it.  The element loops count in [Z] and
    are bounded by the bytes left, since an element takes at least one byte.

    The theorems: the parser accepts exactly the grammar [resp] of frames whose
    integers lie above [i64::MIN] ([resp_int]), a verdict is
    stable under more bytes, a strict prefix asks for more, the parser never
    panics, and replies written by the encoders are read back. *)

From Stdlib Require Import ZArith Lia Bool Strings.Byte Strings.String.
From stdpp Require Import base list.
From S2P Require Import Prelude Utf8 FindCrlf Argv Encode Request F64.

#[local] Open Scope list_scope.
#[local] Open Scope Z_scope.
#[local] Open Scope kevy_scope.

#[local] Set Warnings "-register-all".

Inductive Reply : Type :=
| Simple (s : list byte)
| Error (s : list byte)
| Int (n : Z)
| Bulk (data : list byte)
| Nil
| Array (items : list Reply)
| Map (pairs : list (Reply * Reply))
| Set_ (items : list Reply)
| Double (v : f64)
| Boolean (v : bool)
| Verbatim (fmt data : list byte)
| BigNumber (digits : list byte)
| Null
| Push (items : list Reply)
| BlobError (msg : list byte).

(** [DoubleText]: the texts collected so far, when the caller wants them. *)
Definition DoubleText : Type := option (list (list byte)).

(** A sub-parser's result: the reply, the bytes it used, the texts. *)
Definition reply_result : Type := parsed (Reply * Z * DoubleText).

Section Parser.
Context `{Scan : CrlfScanner}.

Definition reply_line (buf : list byte) : option (list byte * Z) :=
  eol ← find_crlf buf 1; Some (slice buf 1 eol, eol + 2).

Definition payload_end (buf : list byte) (data_end : Z) (what : string) : parsed unit :=
  refuse (negb (bool_decide (slice buf data_end (data_end + 2) = CRLF))) what.

Definition parse_bulk_reply (buf : list byte) (dt : DoubleText) : reply_result :=
  hdr_end ← need (find_crlf buf 1);
  len ← ok_or (parse_int (slice buf 1 hdr_end)) "bad bulk length";
  if len <? 0 then Done (Nil, hdr_end + 2, dt)
  else
    let data_start := hdr_end + 2 in
    let data_end := data_start + len in
    _ ← wait (blen buf <? data_end + 2);
    _ ← payload_end buf data_end "bulk payload not followed by CRLF";
    Done (Bulk (slice buf data_start data_end), data_end + 2, dt).

Definition parse_boolean_reply (buf : list byte) (dt : DoubleText) : reply_result :=
  l ← need (reply_line buf);
  let '(bytes, used) := l in
  if bool_decide (bytes = bs "t") then Done (Boolean true, used, dt)
  else if bool_decide (bytes = bs "f") then Done (Boolean false, used, dt)
  else Malformed "bad boolean payload".

Definition parse_verbatim_reply (buf : list byte) (dt : DoubleText) : reply_result :=
  hdr_end ← need (find_crlf buf 1);
  len ← ok_or (parse_int (slice buf 1 hdr_end)) "bad verbatim length";
  _ ← refuse (len <? 4) "verbatim length < 4 (fmt + ':')";
  let data_start := hdr_end + 2 in
  let data_end := data_start + len in
  _ ← wait (blen buf <? data_end + 2);
  _ ← payload_end buf data_end "verbatim payload not followed by CRLF";
  let body := slice buf data_start data_end in
  c ← unwrap (get body 3);
  _ ← refuse (negb (c =b ":"%byte)) "verbatim missing fmt:data separator";
  Done (Verbatim (slice body 0 3) (from body 4), data_end + 2, dt).

Definition parse_null_reply (buf : list byte) (dt : DoubleText) : reply_result :=
  _ ← wait (blen buf <? 3);
  _ ← refuse (negb (bool_decide (slice buf 0 3 = bs "_" ++ CRLF))) "bad null payload";
  Done (Null, 3, dt).

Definition parse_blob_error_reply (buf : list byte) (dt : DoubleText) : reply_result :=
  hdr_end ← need (find_crlf buf 1);
  len ← ok_or (parse_int (slice buf 1 hdr_end)) "bad blob error length";
  _ ← refuse (len <? 0) "blob error length cannot be negative";
  let data_start := hdr_end + 2 in
  let data_end := data_start + len in
  _ ← wait (blen buf <? data_end + 2);
  _ ← payload_end buf data_end "blob error payload not followed by CRLF";
  Done (BlobError (slice buf data_start data_end), data_end + 2, dt).

Definition parse_double_reply (buf : list byte) (dt : DoubleText) : reply_result :=
  l ← need (reply_line buf);
  let '(bytes, used) := l in
  _ ← refuse (negb (is_utf8 bytes)) "bad double utf8";
  v ← ok_or (f64_from_str bytes) "bad double";
  Done (Double v, used, option_map (fun texts => texts ++ [bytes]) dt).

(** ** Aggregates

    [elem] is the recursive call [parse_with]. *)
Section Aggregates.
Variable elem : list byte -> DoubleText -> reply_result.

(** [for _ in 0..count { .. items.push(r); pos += used }] *)
Fixpoint items_loop (fuel : nat) (buf : list byte) (count pos : Z) (items : list Reply)
  (dt : DoubleText) : parsed (list Reply * Z * DoubleText) :=
  if count <=? 0 then Done (items, pos, dt)
  else
    match fuel with
    | O => Panicked
    | S fuel' =>
        x ← elem (from buf pos) dt;
        let '(r, used, dt) := x in
        items_loop fuel' buf (count - 1) (pos + used) (items ++ [r]) dt
    end.

Definition parse_array_reply (buf : list byte) (push : bool) (dt : DoubleText) : reply_result :=
  hdr_end ← need (find_crlf buf 1);
  count ← ok_or (parse_int (slice buf 1 hdr_end)) "bad array length";
  if count <? 0 then
    if push then Malformed "push frame cannot be null" else Done (Nil, hdr_end + 2, dt)
  else
    x ← items_loop (S (length buf)) buf count (hdr_end + 2) [] dt;
    let '(items, pos, dt) := x in
    Done (if push then Push items else Array items, pos, dt).

Fixpoint pairs_loop (fuel : nat) (buf : list byte) (count pos : Z) (pairs : list (Reply * Reply))
  (dt : DoubleText) : parsed (list (Reply * Reply) * Z * DoubleText) :=
  if count <=? 0 then Done (pairs, pos, dt)
  else
    match fuel with
    | O => Panicked
    | S fuel' =>
        x ← elem (from buf pos) dt;
        let '(k, used_k, dt) := x in
        let pos := pos + used_k in
        y ← elem (from buf pos) dt;
        let '(v, used_v, dt) := y in
        pairs_loop fuel' buf (count - 1) (pos + used_v) (pairs ++ [(k, v)]) dt
    end.

Definition parse_map_pairs (buf : list byte) (dt : DoubleText)
  : parsed (list (Reply * Reply) * Z * DoubleText) :=
  hdr_end ← need (find_crlf buf 1);
  count ← ok_or (parse_int (slice buf 1 hdr_end)) "bad map length";
  _ ← refuse (count <? 0) "map length cannot be negative";
  pairs_loop (S (length buf)) buf count (hdr_end + 2) [] dt.

Definition parse_map_reply (buf : list byte) (dt : DoubleText) : reply_result :=
  x ← parse_map_pairs buf dt;
  let '(pairs, pos, dt) := x in Done (Map pairs, pos, dt).

Definition parse_set_reply (buf : list byte) (dt : DoubleText) : reply_result :=
  hdr_end ← need (find_crlf buf 1);
  count ← ok_or (parse_int (slice buf 1 hdr_end)) "bad set length";
  _ ← refuse (count <? 0) "set length cannot be negative";
  x ← items_loop (S (length buf)) buf count (hdr_end + 2) [] dt;
  let '(items, pos, dt) := x in
  Done (Set_ items, pos, dt).

Definition parse_attributed_reply (buf : list byte) (dt : DoubleText) : reply_result :=
  x ← parse_map_reply buf dt;
  let '(_, used_attrs, dt) := x in
  y ← elem (from buf used_attrs) dt;
  let '(r, used, dt) := y in
  Done (r, used_attrs + used, dt).
End Aggregates.

(** The [+], [-], [(] frames: the line is the payload. *)
Definition line_reply (mk : list byte -> Reply) (buf : list byte) (dt : DoubleText) : reply_result :=
  l ← need (reply_line buf);
  let '(b, used) := l in Done (mk b, used, dt).

Definition parse_int_reply (buf : list byte) (dt : DoubleText) : reply_result :=
  l ← need (reply_line buf);
  let '(b, used) := l in
  n ← ok_or (parse_int b) "bad integer reply";
  Done (Int n, used, dt).

Fixpoint parse_with (fuel : nat) (buf : list byte) (dt : DoubleText) : reply_result :=
  match fuel with
  | O => Panicked
  | S fuel' =>
      let elem := parse_with fuel' in
      match buf with
      | [] => NeedMore
      | tag :: _ =>
          match tag with
          | "+"%byte => line_reply Simple buf dt
          | "-"%byte => line_reply Error buf dt
          | ":"%byte => parse_int_reply buf dt
          | "$"%byte => parse_bulk_reply buf dt
          | "*"%byte => parse_array_reply elem buf false dt
          | "%"%byte => parse_map_reply elem buf dt
          | "~"%byte => parse_set_reply elem buf dt
          | ","%byte => parse_double_reply buf dt
          | "#"%byte => parse_boolean_reply buf dt
          | "="%byte => parse_verbatim_reply buf dt
          | "("%byte => line_reply BigNumber buf dt
          | "_"%byte => parse_null_reply buf dt
          | ">"%byte => parse_array_reply elem buf true dt
          | "!"%byte => parse_blob_error_reply buf dt
          | "|"%byte => parse_attributed_reply elem buf dt
          | _ => Malformed "unknown reply type"
          end
      end
  end.

Definition parse_reply (buf : list byte) : parsed (Reply * Z) :=
  x ← parse_with (S (length buf)) buf None;
  let '(r, used, _) := x in Done (r, used).

Definition parse_reply_keeping_double_text (buf : list byte)
  : parsed (Reply * Z * list (list byte)) :=
  x ← parse_with (S (length buf)) buf (Some []);
  let '(r, used, dt) := x in
  texts ← unwrap dt;
  Done (r, used, texts).
End Parser.

(** ** Grammar of replies

    The text of an integer, after the RESP definition and not after the code's
    reader: an optional sign and at least one digit, the positional value of
    the digits, in the range from [lo] up to [i64::MAX]. *)
Definition resp_int (lo : Z) (l : list byte) (n : Z) : Prop :=
  exists sg ds, l = sg ++ ds /\ ds <> [] /\ Forall (fun b => is_ascii_digit b = true) ds /\
    ((sg = [] \/ sg = bs "+") /\ n = digits_val 0 ds \/ sg = bs "-" /\ n = - digits_val 0 ds) /\
    lo <= n <= i64_max.

(** [resp int f r ts]: the bytes [f] carry the reply [r], with [int] the texts
    of its lengths, counts and integers; [ts] are the texts of the doubles in
    [f], in wire order. *)
Section Grammar.
Variable int : list byte -> Z -> Prop.

Inductive resp : list byte -> Reply -> list (list byte) -> Prop :=
| wire_simple l : line_ok l -> resp ("+"%byte :: l ++ CRLF) (Simple l) []
| wire_error l : line_ok l -> resp ("-"%byte :: l ++ CRLF) (Error l) []
| wire_big l : line_ok l -> resp ("("%byte :: l ++ CRLF) (BigNumber l) []
| wire_int l n : line_ok l -> int l n -> resp (":"%byte :: l ++ CRLF) (Int n) []
| wire_double l v :
    line_ok l -> is_utf8 l = true -> f64_from_str l = Some v ->
    resp (","%byte :: l ++ CRLF) (Double v) [l]
| wire_bool (v : bool) : resp ("#"%byte :: (if v then bs "t" else bs "f") ++ CRLF) (Boolean v) []
| wire_null : resp ("_"%byte :: CRLF) Null []
| wire_bulk h x :
    line_ok h -> int h (blen x) -> resp ("$"%byte :: h ++ CRLF ++ x ++ CRLF) (Bulk x) []
| wire_bulk_nil h c : line_ok h -> int h c -> c < 0 -> resp ("$"%byte :: h ++ CRLF) Nil []
| wire_blob h x :
    line_ok h -> int h (blen x) ->
    resp ("!"%byte :: h ++ CRLF ++ x ++ CRLF) (BlobError x) []
| wire_verbatim h fmt data :
    line_ok h -> length fmt = 3%nat -> int h (4 + blen data) ->
    resp ("="%byte :: h ++ CRLF ++ (fmt ++ ":"%byte :: data) ++ CRLF) (Verbatim fmt data) []
| wire_array_nil h c : line_ok h -> int h c -> c < 0 -> resp ("*"%byte :: h ++ CRLF) Nil []
| wire_array h rs f ts :
    line_ok h -> int h (blen rs) -> resps f rs ts ->
    resp ("*"%byte :: h ++ CRLF ++ f) (Array rs) ts
| wire_push h rs f ts :
    line_ok h -> int h (blen rs) -> resps f rs ts ->
    resp (">"%byte :: h ++ CRLF ++ f) (Push rs) ts
| wire_set h rs f ts :
    line_ok h -> int h (blen rs) -> resps f rs ts ->
    resp ("~"%byte :: h ++ CRLF ++ f) (Set_ rs) ts
| wire_map h kvs f ts :
    line_ok h -> int h (blen kvs) -> resp_pairs f kvs ts ->
    resp ("%"%byte :: h ++ CRLF ++ f) (Map kvs) ts
| wire_attr h kvs f ts g r us :
    line_ok h -> int h (blen kvs) -> resp_pairs f kvs ts -> resp g r us ->
    resp (("|"%byte :: h ++ CRLF ++ f) ++ g) r (ts ++ us)
with resps : list byte -> list Reply -> list (list byte) -> Prop :=
| wires_nil : resps [] [] []
| wires_cons f r ts fs rs us :
    resp f r ts -> resps fs rs us -> resps (f ++ fs) (r :: rs) (ts ++ us)
with resp_pairs : list byte -> list (Reply * Reply) -> list (list byte) -> Prop :=
| wire_pairs_nil : resp_pairs [] [] []
| wire_pairs_cons fk k tk fv v tv fs kvs us :
    resp fk k tk -> resp fv v tv -> resp_pairs fs kvs us ->
    resp_pairs ((fk ++ fv) ++ fs) ((k, v) :: kvs) ((tk ++ tv) ++ us).

End Grammar.
Arguments wire_simple {int}.
Arguments wire_error {int}.
Arguments wire_big {int}.
Arguments wire_int {int}.
Arguments wire_double {int}.
Arguments wire_bool {int}.
Arguments wire_null {int}.
Arguments wire_bulk {int}.
Arguments wire_bulk_nil {int}.
Arguments wire_blob {int}.
Arguments wire_verbatim {int}.
Arguments wire_array_nil {int}.
Arguments wire_array {int}.
Arguments wire_push {int}.
Arguments wire_set {int}.
Arguments wire_map {int}.
Arguments wire_attr {int}.
Arguments wires_nil {int}.
Arguments wires_cons {int}.
Arguments wire_pairs_nil {int}.
Arguments wire_pairs_cons {int}.

Scheme wire_mut := Induction for resp Sort Prop
  with wires_mut := Induction for resps Sort Prop
  with wire_pairs_mut := Induction for resp_pairs Sort Prop.
Combined Scheme wire_ind_all from wire_mut, wires_mut, wire_pairs_mut.

(** More integer texts make more frames. *)
Lemma resp_mono (I J : list byte -> Z -> Prop) : (forall l n, I l n -> J l n) ->
  forall f r ts, resp I f r ts -> resp J f r ts.
Proof.
  intros H. apply (wire_mut I (fun f r ts _ => resp J f r ts) (fun f rs ts _ => resps J f rs ts)
                     (fun f kvs ts _ => resp_pairs J f kvs ts)); intros; econstructor; eauto.
Qed.

(** *** The code's reader of integers against their texts *)

Lemma parse_digits_reads l : forall acc n, 0 <= acc -> parse_digits acc l = Some n ->
  Forall (fun b => is_ascii_digit b = true) l /\ n = digits_val acc l /\ (l <> [] -> n <= i64_max).
Proof.
  induction l as [|b l IH]; intros acc n Ha H; cbn [parse_digits digits_val] in *.
  { injection H as <-. repeat split; [constructor | contradiction]. }
  destruct (is_ascii_digit b) eqn:Hb; [|discriminate]. cbn [negb] in H.
  destruct (checked_i64 (acc * 10)) as [a|] eqn:E1; [|discriminate].
  apply checked_i64_Some in E1 as [-> _]. cbn [mbind option_bind] in H.
  destruct (checked_i64 _) as [a|] eqn:E2; [|discriminate].
  apply checked_i64_Some in E2 as [-> Hm]. cbn [mbind option_bind] in H.
  pose proof (digit_val_range b Hb). apply IH in H as (Hl & -> & Hn); [|lia].
  repeat split; [constructor; auto|]. intros _.
  destruct l; [cbn [digits_val]; lia | apply Hn; discriminate].
Qed.

(** [parse_int] reads the texts of the [i64]s but the least. *)
Lemma parse_int_iff l n : parse_int l = Some n <-> resp_int (i64_min + 1) l n.
Proof.
  assert (Hd : forall ds m, ds <> [] -> parse_digits 0 ds = Some m <->
    Forall (fun b => is_ascii_digit b = true) ds /\ m = digits_val 0 ds /\ 0 <= m <= i64_max).
  { intros ds m Hne. split.
    - intros H. pose proof (parse_digits_nonneg ds 0 m ltac:(lia) H).
      apply parse_digits_reads in H as (H1 & H2 & H3); [|lia]. specialize (H3 Hne). auto.
    - intros (H1 & -> & H3). apply parse_digits_val; auto; lia. }
  split.
  - destruct l as [|b r]; [discriminate|]. unfold parse_int.
    destruct (byte_eqb_spec b "-"%byte) as [->|]; [|destruct (byte_eqb_spec b "+"%byte) as [->|]].
    1, 2: destruct r as [|c r]; [discriminate|].
    all: destruct (parse_digits 0 _) as [m|] eqn:E; [|discriminate]; cbn [mbind option_bind];
         intros [= <-]; rewrite Hd in E by discriminate; destruct E as (Hf & -> & Hr).
    + exists (bs "-"), (c :: r). repeat split; auto; unfold i64_min, i64_max in *; lia.
    + exists (bs "+"), (c :: r). repeat split; auto; unfold i64_min, i64_max in *; lia.
    + exists [], (b :: r). repeat split; auto; unfold i64_min, i64_max in *; lia.
  - intros (sg & ds & -> & Hne & Hf & Hs & Hr).
    pose proof (digits_val_ge ds 0 ltac:(lia) Hf).
    assert (Hv : digits_val 0 ds <= i64_max)
      by (destruct Hs as [[_ ->]|[_ ->]]; unfold i64_min, i64_max in *; lia).
    pose proof (proj2 (Hd ds _ Hne) (conj Hf (conj eq_refl (conj H Hv)))) as E.
    destruct ds as [|d ds]; [contradiction|]. inversion Hf as [|? ? Hdd _]; subst.
    destruct (digit_not_sign d Hdd) as (H1 & H2 & _).
    destruct Hs as [[[-> | ->] ->]|[-> ->]]; unfold parse_int; cbn [app].
    + destruct (byte_eqb_spec d "-"%byte); [contradiction|].
      destruct (byte_eqb_spec d "+"%byte); [contradiction|]. rewrite E. reflexivity.
    + transitivity (m ← parse_digits 0 (d :: ds); Some m); [reflexivity | rewrite E; reflexivity].
    + transitivity (m ← parse_digits 0 (d :: ds); Some (- m)); [reflexivity | rewrite E; reflexivity].
Qed.

(** The frames whose integers the code's [parse_int] reads. *)
#[local] Abbreviation wire := (resp (fun l n => parse_int l = Some n)).
#[local] Abbreviation wires := (resps (fun l n => parse_int l = Some n)).
#[local] Abbreviation wire_pairs := (resp_pairs (fun l n => parse_int l = Some n)).

(** Texts collected after [ts] more were met. *)
Definition dt_app (dt : DoubleText) (ts : list (list byte)) : DoubleText :=
  option_map (fun texts => texts ++ ts) dt.

Lemma dt_app_nil dt : dt_app dt [] = dt.
Proof. destruct dt; cbn; [rewrite app_nil_r|]; reflexivity. Qed.

Lemma dt_app_app dt ts us : dt_app (dt_app dt ts) us = dt_app dt (ts ++ us).
Proof. destruct dt; cbn; [rewrite app_assoc|]; reflexivity. Qed.

Lemma wire_len f r ts : wire f r ts -> 1 <= blen f.
Proof.
  intros H. inversion H; subst; blen_lia.
Qed.

Lemma pairs_len f kvs ts : wire_pairs f kvs ts -> blen kvs <= blen f.
Proof.
  induction 1 as [|fk k tk fv v tv fs kvs us Hk Hv _ IH]; [reflexivity|].
  apply wire_len in Hk, Hv. rewrite blen_cons, !blen_app. lia.
Qed.

Lemma wires_len f rs ts : wires f rs ts -> blen rs <= blen f.
Proof.
  induction 1 as [|f r ts fs rs us Hw _ IH]; [reflexivity|].
  apply wire_len in Hw. rewrite blen_cons, blen_app. lia.
Qed.

Section Theory.
Context `{Scan : CrlfScanner}.

(** ** Completeness *)

Lemma reply_line_at t l more :
  line_ok l -> reply_line (t :: (l ++ CRLF) ++ more) = Some (l, blen (t :: l ++ CRLF)).
Proof.
  intros H. unfold reply_line. rewrite <- app_assoc. destruct (tag_header t l more H) as [-> E].
  cbn [mbind option_bind]. rewrite E, blen_cons, blen_app. change (blen CRLF) with 2.
  do 2 f_equal. lia.
Qed.

Lemma payload_at t h x m :
  let buf := t :: h ++ CRLF ++ x ++ CRLF ++ m in
  let ds := 1 + blen h + 2 in
  slice buf ds (ds + blen x) = x /\ slice buf (ds + blen x) (ds + blen x + 2) = CRLF /\
  ds + blen x + 2 <= blen buf /\ ds + blen x + 2 = blen (t :: h ++ CRLF ++ x ++ CRLF).
Proof.
  intros buf ds.
  assert (E1 : buf = (t :: h ++ CRLF) ++ x ++ CRLF ++ m)
    by (unfold buf; cbn [app]; rewrite <- !app_assoc; reflexivity).
  assert (E2 : buf = (t :: h ++ CRLF ++ x) ++ CRLF ++ m)
    by (unfold buf; cbn [app]; rewrite <- !app_assoc; reflexivity).
  assert (L1 : blen (t :: h ++ CRLF) = ds)
    by (unfold ds; rewrite blen_cons, blen_app; change (blen CRLF) with 2; lia).
  assert (L2 : blen (t :: h ++ CRLF ++ x) = ds + blen x)
    by (unfold ds; rewrite blen_cons, !blen_app; change (blen CRLF) with 2; lia).
  split; [|split; [|split]].
  - rewrite E1, <- L1. apply slice_mid.
  - rewrite E2, <- L2. apply (slice_mid _ CRLF).
  - rewrite E2, blen_app, L2, blen_app. change (blen CRLF) with 2. pose proof (blen_nonneg m). lia.
  - unfold ds. rewrite blen_cons, !blen_app. change (blen CRLF) with 2. lia.
Qed.

(** Runs a header of a length-prefixed frame. *)
Ltac run_header t h more Hl Hp :=
  let F := fresh "F" in let S := fresh "S" in
  destruct (tag_header t h more Hl) as [F S]; rewrite F; parse_step; rewrite S, Hp; parse_step;
  clear F S.

Ltac not_negative :=
  match goal with |- context [?x <? 0] => destruct (Z.ltb_spec x 0) as [?Hneg|_]; [try lia|] end.

Lemma bulk_complete t h x m :
  line_ok h -> parse_int h = Some (blen x) -> forall dt,
  parse_bulk_reply (t :: h ++ CRLF ++ x ++ CRLF ++ m) dt =
    Done (Bulk x, blen (t :: h ++ CRLF ++ x ++ CRLF), dt) /\
  parse_blob_error_reply (t :: h ++ CRLF ++ x ++ CRLF ++ m) dt =
    Done (BlobError x, blen (t :: h ++ CRLF ++ x ++ CRLF), dt).
Proof.
  intros Hl Hp dt. unfold parse_bulk_reply, parse_blob_error_reply, payload_end.
  pose proof (blen_nonneg x). destruct (payload_at t h x m) as (S1 & S2 & B & L).
  run_header t h (x ++ CRLF ++ m) Hl Hp. not_negative. parse_step.
  rewrite (proj2 (Z.ltb_ge _ _) B), S1, S2, bool_decide_true, L by reflexivity. auto.
Qed.

Lemma verbatim_complete h fmt data m dt :
  line_ok h -> length fmt = 3%nat -> parse_int h = Some (4 + blen data) ->
  parse_verbatim_reply ("="%byte :: h ++ CRLF ++ (fmt ++ ":"%byte :: data) ++ CRLF ++ m) dt =
    Done (Verbatim fmt data, blen ("="%byte :: h ++ CRLF ++ (fmt ++ ":"%byte :: data) ++ CRLF), dt).
Proof.
  intros Hl H3 Hp. unfold parse_verbatim_reply, payload_end.
  assert (E3 : blen fmt = 3) by (unfold blen; lia). pose proof (blen_nonneg data).
  assert (Eb : 4 + blen data = blen (fmt ++ ":"%byte :: data)) by (rewrite blen_app, blen_cons; lia).
  destruct (payload_at "="%byte h (fmt ++ ":"%byte :: data) m) as (S1 & S2 & B & L).
  rewrite Eb in Hp. run_header "="%byte h ((fmt ++ ":"%byte :: data) ++ CRLF ++ m) Hl Hp.
  destruct (Z.ltb_spec (blen (fmt ++ ":"%byte :: data)) 4); [lia|]. parse_step.
  rewrite (proj2 (Z.ltb_ge _ _) B), S1, S2, bool_decide_true, L by reflexivity. parse_step.
  replace (get (fmt ++ ":"%byte :: data) 3) with (Some ":"%byte) by (rewrite <- E3, get_mid; reflexivity).
  parse_step. change (":"%byte =b ":"%byte) with true. parse_step.
  replace (slice (fmt ++ _) 0 3) with fmt by (rewrite <- E3, slice_from_app; reflexivity).
  do 3 f_equal. f_equal. change (":"%byte :: data) with ([":"%byte] ++ data). rewrite app_assoc.
  replace 4 with (blen (fmt ++ [":"%byte])) by (rewrite blen_app, E3; reflexivity).
  apply from_app_len.
Qed.

(** The loops over elements each of which [elem] reads. *)
Definition reads (elem : list byte -> DoubleText -> reply_result) (f : list byte) (r : Reply)
  (ts : list (list byte)) : Prop :=
  forall more dt, elem (f ++ more) dt = Done (r, blen f, dt_app dt ts).

Lemma items_loop_step elem n buf pre f more count items dt r ts :
  reads elem f r ts -> buf = pre ++ f ++ more -> 0 < count ->
  items_loop elem (S n) buf count (blen pre) items dt =
    items_loop elem n buf (count - 1) (blen (pre ++ f)) (items ++ [r]) (dt_app dt ts).
Proof.
  intros Hr -> Hc. cbn [items_loop]. destruct (Z.leb_spec count 0); [lia|].
  rewrite from_app_len, Hr. cbn [mbind parsed_bind]. rewrite <- blen_app. reflexivity.
Qed.

Lemma pairs_loop_step elem n buf pre fk fv more count pairs dt k tk v tv :
  reads elem fk k tk -> reads elem fv v tv -> buf = pre ++ (fk ++ fv) ++ more -> 0 < count ->
  pairs_loop elem (S n) buf count (blen pre) pairs dt =
    pairs_loop elem n buf (count - 1) (blen (pre ++ fk ++ fv)) (pairs ++ [(k, v)])
      (dt_app dt (tk ++ tv)).
Proof.
  intros Hk Hv -> Hc. cbn [pairs_loop]. destruct (Z.leb_spec count 0); [lia|].
  rewrite from_app_len, <- app_assoc, Hk. cbn [mbind parsed_bind].
  rewrite <- blen_app. rewrite (app_assoc pre), from_app_len, Hv. cbn [mbind parsed_bind].
  rewrite <- blen_app, <- !app_assoc, dt_app_app. reflexivity.
Qed.

Definition wire_reads (f : list byte) (r : Reply) (ts : list (list byte)) : Prop :=
  forall fuel, blen f <= Z.of_nat fuel -> reads (parse_with fuel) f r ts.

Definition wires_reads (fs : list byte) (rs : list Reply) (ts : list (list byte)) : Prop :=
  forall fuel n pre more items dt,
  blen fs <= Z.of_nat fuel -> blen rs <= Z.of_nat n ->
  items_loop (parse_with fuel) n (pre ++ fs ++ more) (blen rs) (blen pre) items dt =
    Done (items ++ rs, blen (pre ++ fs), dt_app dt ts).

Definition wire_pairs_reads (fs : list byte) (kvs : list (Reply * Reply)) (ts : list (list byte)) : Prop :=
  forall fuel n pre more pairs dt,
  blen fs <= Z.of_nat fuel -> blen kvs <= Z.of_nat n ->
  pairs_loop (parse_with fuel) n (pre ++ fs ++ more) (blen kvs) (blen pre) pairs dt =
    Done (pairs ++ kvs, blen (pre ++ fs), dt_app dt ts).

(** An aggregate's body follows its header. *)
Lemma aggregate_at t h f more :
  t :: h ++ CRLF ++ f ++ more = (t :: h ++ CRLF) ++ f ++ more /\
  1 + blen h + 2 = blen (t :: h ++ CRLF) /\
  blen ((t :: h ++ CRLF) ++ f) = blen (t :: h ++ CRLF ++ f) /\
  blen f <= blen (t :: h ++ CRLF ++ f) - 3 /\
  blen f <= Z.of_nat (S (length (t :: h ++ CRLF ++ f ++ more))).
Proof.
  pose proof (blen_nonneg h). split; [cbn [app]; rewrite <- !app_assoc; reflexivity|].
  assert (L : blen (t :: h ++ CRLF ++ f ++ more) = 1 + blen h + 2 + blen f + blen more)
    by (rewrite blen_cons, !blen_app; change (blen CRLF) with 2; lia).
  pose proof (blen_nonneg more). unfold blen in L at 1.
  rewrite (blen_app (t :: _)), !blen_cons, !blen_app. change (blen CRLF) with 2. lia.
Qed.

Lemma items_complete t h rs f ts fuel more dt :
  line_ok h -> parse_int h = Some (blen rs) -> wires f rs ts -> wires_reads f rs ts ->
  blen (t :: h ++ CRLF ++ f) <= Z.of_nat (S fuel) ->
  let buf := t :: h ++ CRLF ++ f ++ more in
  items_loop (parse_with fuel) (S (length buf)) buf (blen rs) (1 + blen h + 2) [] dt =
    Done (rs, blen (t :: h ++ CRLF ++ f), dt_app dt ts).
Proof.
  intros Hl Hp Hw Hr Hf buf. apply wires_len in Hw.
  destruct (aggregate_at t h f more) as (E & L & L2 & B1 & B2). fold buf in E, B2.
  rewrite L, <- L2. rewrite E at 2. apply Hr; lia.
Qed.

Lemma pairs_complete t h kvs f ts fuel more dt :
  line_ok h -> parse_int h = Some (blen kvs) -> wire_pairs f kvs ts -> wire_pairs_reads f kvs ts ->
  blen (t :: h ++ CRLF ++ f) <= Z.of_nat (S fuel) ->
  parse_map_pairs (parse_with fuel) (t :: h ++ CRLF ++ f ++ more) dt =
    Done (kvs, blen (t :: h ++ CRLF ++ f), dt_app dt ts).
Proof.
  intros Hl Hp Hw Hr Hf. apply pairs_len in Hw. unfold parse_map_pairs.
  run_header t h (f ++ more) Hl Hp. pose proof (blen_nonneg kvs). not_negative. parse_step.
  destruct (aggregate_at t h f more) as (E & L & L2 & B1 & B2).
  rewrite L, <- L2. rewrite E at 2. apply Hr; lia.
Qed.

Lemma null_complete more dt : parse_null_reply ("_"%byte :: CRLF ++ more) dt = Done (Null, 3, dt).
Proof.
  unfold parse_null_reply. change ("_"%byte :: CRLF ++ more) with ((bs "_" ++ CRLF) ++ more).
  rewrite blen_app. change (blen (bs "_" ++ CRLF)) with 3. pose proof (blen_nonneg more).
  destruct (Z.ltb_spec (3 + blen more) 3); [lia|]. parse_step.
  change 3 with (blen (bs "_" ++ CRLF)) at 1. rewrite slice_from_app, bool_decide_true by reflexivity.
  reflexivity.
Qed.

Lemma wires_reads_cons f r ts fs rs us :
  wire_reads f r ts -> wires_reads fs rs us -> wires_reads (f ++ fs) (r :: rs) (ts ++ us).
Proof.
  intros IHw IHws fuel n pre more items dt Hf Hn.
  rewrite blen_cons in Hn. rewrite blen_app in Hf. pose proof (blen_nonneg rs).
  pose proof (blen_nonneg fs). pose proof (blen_nonneg f).
  destruct n as [|n]; [lia|].
  rewrite (items_loop_step _ n _ pre f (fs ++ more) _ items dt r ts);
    [| apply IHw; lia | rewrite <- app_assoc; reflexivity | rewrite blen_cons; lia].
  rewrite blen_cons. replace (1 + blen rs - 1) with (blen rs) by lia.
  rewrite <- app_assoc, (app_assoc pre), IHws, dt_app_app, <- !app_assoc by lia. reflexivity.
Qed.

Lemma wire_pairs_reads_cons fk k tk fv v tv fs kvs us :
  wire_reads fk k tk -> wire_reads fv v tv -> wire_pairs_reads fs kvs us ->
  wire_pairs_reads ((fk ++ fv) ++ fs) ((k, v) :: kvs) ((tk ++ tv) ++ us).
Proof.
  intros IHk IHv IHws fuel n pre more items dt Hf Hn.
  rewrite blen_cons in Hn. rewrite !blen_app in Hf. pose proof (blen_nonneg kvs).
  pose proof (blen_nonneg fs). pose proof (blen_nonneg fk). pose proof (blen_nonneg fv).
  destruct n as [|n]; [lia|].
  rewrite (pairs_loop_step _ n _ pre fk fv (fs ++ more) _ items dt k tk v tv);
    [| apply IHk; lia | apply IHv; lia | rewrite <- !app_assoc; reflexivity | rewrite blen_cons; lia].
  rewrite blen_cons. replace (1 + blen kvs - 1) with (blen kvs) by lia.
  replace (pre ++ ((fk ++ fv) ++ fs) ++ more) with ((pre ++ fk ++ fv) ++ fs ++ more)
    by (rewrite <- !app_assoc; reflexivity).
  rewrite IHws, dt_app_app, <- !app_assoc by lia. reflexivity.
Qed.

Lemma attr_complete h kvs f ts g r us fuel more dt :
  line_ok h -> parse_int h = Some (blen kvs) -> wire_pairs f kvs ts -> wire_pairs_reads f kvs ts ->
  wire_reads g r us -> 1 <= blen g -> blen (("|"%byte :: h ++ CRLF ++ f) ++ g) <= Z.of_nat (S fuel) ->
  parse_attributed_reply (parse_with fuel) ("|"%byte :: h ++ CRLF ++ f ++ g ++ more) dt =
    Done (r, blen (("|"%byte :: h ++ CRLF ++ f) ++ g), dt_app dt (ts ++ us)).
Proof.
  intros Hl Hp Hw Hr Hg Hgl Hf. rewrite blen_app in Hf. pose proof (blen_nonneg (h ++ CRLF ++ f)).
  unfold parse_attributed_reply, parse_map_reply.
  erewrite pairs_complete by (try eassumption; lia). cbn [mbind parsed_bind].
  replace ("|"%byte :: h ++ CRLF ++ f ++ g ++ more) with (("|"%byte :: h ++ CRLF ++ f) ++ g ++ more)
    by (cbn [app]; rewrite <- !app_assoc; reflexivity).
  rewrite from_app_len, Hg by (rewrite blen_cons in Hf; lia).
  cbn [mbind parsed_bind]. rewrite dt_app_app, <- blen_app. reflexivity.
Qed.

Lemma wire_complete :
  (forall f r ts, wire f r ts -> wire_reads f r ts) /\
  (forall f rs ts, wires f rs ts -> wires_reads f rs ts) /\
  (forall f kvs ts, wire_pairs f kvs ts -> wire_pairs_reads f kvs ts).
Proof.
  apply wire_ind_all; unfold wire_reads.
  18, 20: intros fuel n pre more items dt _ _; rewrite !app_nil_r, dt_app_nil; destruct n; reflexivity.
  18: intros; apply wires_reads_cons; assumption.
  18: intros; apply wire_pairs_reads_cons; assumption.
  all: intros; intros more dt; destruct fuel as [|fuel];
       [blen_lia|];
       cbn [parse_with app]; rewrite ?dt_app_nil.
  1-3: unfold line_reply; rewrite reply_line_at by assumption; reflexivity.
  - unfold parse_int_reply. rewrite reply_line_at by assumption. parse_step. rewrite i. reflexivity.
  - unfold parse_double_reply. rewrite reply_line_at by assumption. parse_step. rewrite e.
    parse_step. rewrite e0. reflexivity.
  - unfold parse_boolean_reply. rewrite reply_line_at by (destruct v; reflexivity).
    destruct v; reflexivity.
  - apply null_complete.
  - rewrite <- !app_assoc. apply bulk_complete; assumption.
  - unfold parse_bulk_reply. rewrite <- app_assoc. run_header "$"%byte h more l i.
    destruct (Z.ltb_spec c 0); [|lia]. rewrite blen_cons, blen_app, Z.add_assoc. reflexivity.
  - rewrite <- !app_assoc. apply bulk_complete; assumption.
  - rewrite <- (app_assoc h), <- (app_assoc CRLF), <- (app_assoc _ CRLF more).
    apply verbatim_complete; assumption.
  - unfold parse_array_reply. rewrite <- app_assoc. run_header "*"%byte h more l i.
    destruct (Z.ltb_spec c 0); [|lia]. rewrite blen_cons, blen_app, Z.add_assoc. reflexivity.
  - unfold parse_array_reply. rewrite <- !app_assoc. run_header "*"%byte h (f ++ more) l i.
    pose proof (blen_nonneg rs). not_negative. erewrite items_complete by eassumption. reflexivity.
  - unfold parse_array_reply. rewrite <- !app_assoc. run_header ">"%byte h (f ++ more) l i.
    pose proof (blen_nonneg rs). not_negative. erewrite items_complete by eassumption. reflexivity.
  - unfold parse_set_reply. rewrite <- !app_assoc. run_header "~"%byte h (f ++ more) l i.
    pose proof (blen_nonneg rs). not_negative. parse_step.
    erewrite items_complete by eassumption. reflexivity.
  - unfold parse_map_reply. rewrite <- !app_assoc. erewrite pairs_complete by eassumption. reflexivity.
  - rewrite <- !app_assoc. match goal with Hw : wire g _ _ |- _ => apply wire_len in Hw as Hg end. erewrite attr_complete by eassumption.
    cbn [app]. rewrite <- !app_assoc. reflexivity.
Qed.

(** ** Soundness *)

Lemma header_inv t r e :
  find_crlf (t :: r) 1 = Some e ->
  exists h more, r = h ++ CRLF ++ more /\ line_ok h /\ e = 1 + blen h /\ slice (t :: r) 1 e = h /\
                 from (t :: r) (e + 2) = more /\ 0 <= e + 2 <= blen (t :: r).
Proof.
  intros H. destruct (find_crlf_split (t :: r) 1 e ltac:(lia) H) as (h & more & E & Hl & ->).
  change (from (t :: r) 1) with r in E. subst r. exists h, more.
  pose proof (blen_nonneg h). pose proof (blen_nonneg more).
  repeat split; auto.
  - apply (slice_mid [t] h (CRLF ++ more)).
  - apply (from_line (t :: h ++ CRLF ++ more) 1 h more); [lia | reflexivity].
  - lia.
  - rewrite blen_cons, !blen_app. change (blen CRLF) with 2. lia.
Qed.

Lemma payload_inv buf ds len w u :
  0 <= ds -> 0 <= len -> ds + len + 2 <= blen buf -> payload_end buf (ds + len) w = Done u ->
  exists x tail, from buf ds = x ++ CRLF ++ tail /\ blen x = len /\ slice buf ds (ds + len) = x.
Proof.
  intros Hd Hl Hb H. unfold payload_end, refuse in H.
  destruct (bool_decide _) eqn:E in H; [|discriminate]. apply bool_decide_eq_true in E.
  exists (slice buf ds (ds + len)), (from buf (ds + len + 2)). rewrite blen_slice by lia.
  rewrite (from_slice buf ds (ds + len)), (slice_CRLF buf (ds + len)) by (auto; lia).
  repeat split. lia.
Qed.

Definition sound (elem : list byte -> DoubleText -> reply_result) : Prop :=
  forall buf dt r n dt', elem buf dt = Done (r, n, dt') ->
  exists f more ts, buf = f ++ more /\ wire f r ts /\ n = blen f /\ dt' = dt_app dt ts.

(** One element at [pos]. *)
Lemma sound_at elem buf pos dt r used dt' :
  sound elem -> 0 <= pos <= blen buf -> elem (from buf pos) dt = Done (r, used, dt') ->
  exists f ts, from buf pos = f ++ from buf (pos + used) /\ wire f r ts /\ used = blen f /\
               dt' = dt_app dt ts /\ 0 <= pos + used <= blen buf.
Proof.
  intros Hs Hp H. destruct (Hs _ _ _ _ _ H) as (f & more & ts & E & Hw & -> & ->).
  exists f, ts. pose proof (blen_from buf pos Hp) as L. rewrite E, blen_app in L.
  pose proof (blen_nonneg more). pose proof (blen_nonneg f).
  rewrite <- from_from, E, from_app_len by lia. repeat split; auto; lia.
Qed.

Lemma items_sound elem : sound elem -> forall fuel buf count pos items dt items' pos' dt',
  0 <= pos <= blen buf -> 0 <= count ->
  items_loop elem fuel buf count pos items dt = Done (items', pos', dt') ->
  exists f rs ts, from buf pos = f ++ from buf pos' /\ wires f rs ts /\ blen rs = count /\
    items' = items ++ rs /\ pos' = pos + blen f /\ dt' = dt_app dt ts.
Proof.
  intros Hs. induction fuel as [|fuel IH]; intros buf count pos items dt items' pos' dt' Hp Hc H;
    cbn [items_loop] in H; (destruct (Z.leb_spec count 0); [|try discriminate]).
  1, 2: injection H as <- <- <-; exists [], [], []; rewrite app_nil_r, dt_app_nil;
        repeat split; [constructor | blen_lia | blen_lia].
  destruct (elem (from buf pos) dt) as [[[r used] dt1]| | |] eqn:E; try discriminate.
  destruct (sound_at _ _ _ _ _ _ _ Hs Hp E) as (f & ts & Ef & Hw & -> & -> & Hp').
  apply IH in H as (fs & rs & us & Efs & Hws & Hlen & -> & -> & ->); [|exact Hp' | lia].
  exists (f ++ fs), (r :: rs), (ts ++ us). rewrite Ef, Efs, <- !app_assoc, dt_app_app, blen_app, blen_cons.
  repeat split; [constructor; auto | lia | lia].
Qed.

Lemma pairs_sound elem : sound elem -> forall fuel buf count pos pairs dt pairs' pos' dt',
  0 <= pos <= blen buf -> 0 <= count ->
  pairs_loop elem fuel buf count pos pairs dt = Done (pairs', pos', dt') ->
  exists f kvs ts, from buf pos = f ++ from buf pos' /\ wire_pairs f kvs ts /\ blen kvs = count /\
    pairs' = pairs ++ kvs /\ pos' = pos + blen f /\ dt' = dt_app dt ts /\ 0 <= pos' <= blen buf.
Proof.
  intros Hs. induction fuel as [|fuel IH]; intros buf count pos pairs dt pairs' pos' dt' Hp Hc H;
    cbn [pairs_loop] in H; (destruct (Z.leb_spec count 0); [|try discriminate]).
  1, 2: injection H as <- <- <-; exists [], [], []; rewrite app_nil_r, dt_app_nil;
        repeat split; [constructor | blen_lia..].
  destruct (elem (from buf pos) dt) as [[[k uk] dt1]| | |] eqn:Ek; try discriminate.
  destruct (sound_at _ _ _ _ _ _ _ Hs Hp Ek) as (fk & tk & Efk & Hk & -> & -> & Hp1).
  cbn [mbind parsed_bind] in H.
  destruct (elem (from buf (pos + blen fk)) (dt_app dt tk)) as [[[v uv] dt2]| | |] eqn:Ev; try discriminate.
  destruct (sound_at _ _ _ _ _ _ _ Hs Hp1 Ev) as (fv & tv & Efv & Hv & -> & -> & Hp2).
  apply IH in H as (fs & kvs & us & Efs & Hws & Hlen & -> & -> & -> & Hp3); [|exact Hp2 | lia].
  exists ((fk ++ fv) ++ fs), ((k, v) :: kvs), ((tk ++ tv) ++ us).
  split; [rewrite Efk, Efv, Efs, <- !app_assoc; reflexivity|].
  split; [constructor; auto|]. rewrite !dt_app_app, <- !app_assoc, !blen_app, blen_cons.
  repeat split; lia.
Qed.

Lemma reply_line_inv t r b used :
  reply_line (t :: r) = Some (b, used) ->
  exists more, t :: r = (t :: b ++ CRLF) ++ more /\ line_ok b /\ used = blen (t :: b ++ CRLF).
Proof.
  unfold reply_line. destruct (find_crlf (t :: r) 1) as [e|] eqn:E; [|discriminate].
  destruct (header_inv t r e E) as (h & more & -> & Hl & -> & Hs & _).
  cbn [mbind option_bind]. rewrite Hs. intros [= <- <-]. exists more.
  split; [cbn [app]; rewrite <- app_assoc; reflexivity|]. split; [exact Hl | blen_lia].
Qed.

(** What a sub-parser's success means for the frame it read. *)
Definition read_frame (buf : list byte) (dt : DoubleText) (r : Reply) (n : Z) (dt' : DoubleText) : Prop :=
  exists f more ts, buf = f ++ more /\ wire f r ts /\ n = blen f /\ dt' = dt_app dt ts.

Lemma read_frame_intro f more r ts n dt dt' buf :
  buf = f ++ more -> wire f r ts -> n = blen f -> dt' = dt_app dt ts -> read_frame buf dt r n dt'.
Proof. intros. exists f, more, ts. auto. Qed.

(** [line_inv H]: a frame that is one line. *)
Ltac line_inv H :=
  match type of H with
  | context [reply_line (?t :: ?r)] =>
      destruct (reply_line (t :: r)) as [[b used]|] eqn:El; [|discriminate];
      destruct (reply_line_inv t r b used El) as (more & Eb & Hl & ->); rewrite Eb; parse_step_in H
  end.

Ltac frame_done :=
  eapply read_frame_intro; [reflexivity | constructor; eassumption | reflexivity |
                            rewrite ?dt_app_nil; reflexivity].

Lemma scalar_sound t r dt rep n dt' :
  (line_reply Simple (t :: r) dt = Done (rep, n, dt') -> t = "+"%byte -> read_frame (t :: r) dt rep n dt') /\
  (line_reply Error (t :: r) dt = Done (rep, n, dt') -> t = "-"%byte -> read_frame (t :: r) dt rep n dt') /\
  (line_reply BigNumber (t :: r) dt = Done (rep, n, dt') -> t = "("%byte -> read_frame (t :: r) dt rep n dt') /\
  (parse_int_reply (t :: r) dt = Done (rep, n, dt') -> t = ":"%byte -> read_frame (t :: r) dt rep n dt') /\
  (parse_double_reply (t :: r) dt = Done (rep, n, dt') -> t = ","%byte -> read_frame (t :: r) dt rep n dt') /\
  (parse_boolean_reply (t :: r) dt = Done (rep, n, dt') -> t = "#"%byte -> read_frame (t :: r) dt rep n dt').
Proof.
  unfold line_reply, parse_int_reply, parse_double_reply, parse_boolean_reply.
  repeat split; intros H ->; line_inv H.
  - injection H as <- <- <-. frame_done.
  - injection H as <- <- <-. frame_done.
  - injection H as <- <- <-. frame_done.
  - destruct (parse_int b) eqn:Ei; [|discriminate]. injection H as <- <- <-. frame_done.
  - destruct (is_utf8 b) eqn:Eu; [|discriminate]. parse_step_in H.
    destruct (f64_from_str b) eqn:Ef; [|discriminate]. injection H as <- <- <-. frame_done.
  - destruct (bool_decide (b = bs "t")) eqn:Et.
    + apply bool_decide_eq_true in Et as ->. injection H as <- <- <-.
      apply (read_frame_intro ("#"%byte :: bs "t" ++ CRLF) more _ []);
        [reflexivity | apply (wire_bool true) | reflexivity | rewrite dt_app_nil; reflexivity].
    + destruct (bool_decide (b = bs "f")) eqn:Ef; [|discriminate].
      apply bool_decide_eq_true in Ef as ->. injection H as <- <- <-.
      apply (read_frame_intro ("#"%byte :: bs "f" ++ CRLF) more _ []);
        [reflexivity | apply (wire_bool false) | reflexivity | rewrite dt_app_nil; reflexivity].
Qed.

Lemma null_sound r dt rep n dt' :
  parse_null_reply ("_"%byte :: r) dt = Done (rep, n, dt') -> read_frame ("_"%byte :: r) dt rep n dt'.
Proof.
  unfold parse_null_reply. intros H. parse_inv H Ew. parse_inv H Ec.
  apply negb_false_iff, bool_decide_eq_true in Ec. injection H as <- <- <-.
  apply (read_frame_intro ("_"%byte :: CRLF) (from ("_"%byte :: r) 3) _ []);
    [| constructor | reflexivity | rewrite dt_app_nil; reflexivity].
  change ("_"%byte :: CRLF) with (bs "_" ++ CRLF). rewrite <- Ec.
  rewrite <- from_slice by lia. reflexivity.
Qed.

(** [header_of H]: the length header of a frame. *)
Ltac header_of H :=
  match type of H with
  | context [find_crlf (?t :: ?r) 1] =>
      let Eh := fresh "Eh" in
      destruct (find_crlf (t :: r) 1) as [e|] eqn:Eh; [|discriminate]; parse_step_in H;
      destruct (header_inv t r e Eh) as (h & more & Er & Hl & -> & Hs & Hfrom & Hb);
      rewrite Hs in H;
      destruct (parse_int h) as [len|] eqn:Ei; [|discriminate]; parse_step_in H
  end.

Lemma bulk_sound r dt rep n dt' :
  parse_bulk_reply ("$"%byte :: r) dt = Done (rep, n, dt') -> read_frame ("$"%byte :: r) dt rep n dt'.
Proof.
  unfold parse_bulk_reply. intros H. header_of H. destruct (Z.ltb_spec len 0).
  - injection H as <- <- <-.
    apply (read_frame_intro ("$"%byte :: h ++ CRLF) more _ []);
      [rewrite Er; cbn [app]; rewrite <- app_assoc; reflexivity | econstructor; eassumption | blen_lia |].
    rewrite dt_app_nil. reflexivity.
  - parse_inv H Ew. apply Z.ltb_ge in Ew. destruct (payload_end _ _ _) as [u| | |] eqn:Ep; try discriminate.
    destruct (payload_inv _ _ _ _ _ (proj1 Hb) ltac:(eassumption) Ew Ep) as (x & tail & Ex & Hx & Hsl).
    cbn [mbind parsed_bind] in H. rewrite Hsl in H. injection H as <- <- <-. rewrite Hfrom in Ex. subst.
    eapply (read_frame_intro ("$"%byte :: h ++ CRLF ++ x ++ CRLF) _ _ []);
      [cbn [app]; rewrite <- !app_assoc; reflexivity | constructor; auto | blen_lia |].
    rewrite dt_app_nil. reflexivity.
Qed.

Lemma blob_sound r dt rep n dt' :
  parse_blob_error_reply ("!"%byte :: r) dt = Done (rep, n, dt') -> read_frame ("!"%byte :: r) dt rep n dt'.
Proof.
  unfold parse_blob_error_reply. intros H. header_of H. parse_inv H En. apply Z.ltb_ge in En.
  parse_inv H Ew. apply Z.ltb_ge in Ew. destruct (payload_end _ _ _) as [u| | |] eqn:Ep; try discriminate.
  destruct (payload_inv _ _ _ _ _ (proj1 Hb) En Ew Ep) as (x & tail & Ex & Hx & Hsl).
  cbn [mbind parsed_bind] in H. rewrite Hsl in H. injection H as <- <- <-. rewrite Hfrom in Ex. subst.
  eapply (read_frame_intro ("!"%byte :: h ++ CRLF ++ x ++ CRLF) _ _ []);
    [cbn [app]; rewrite <- !app_assoc; reflexivity | constructor; auto | blen_lia |].
  rewrite dt_app_nil. reflexivity.
Qed.

Lemma verbatim_sound r dt rep n dt' :
  parse_verbatim_reply ("="%byte :: r) dt = Done (rep, n, dt') -> read_frame ("="%byte :: r) dt rep n dt'.
Proof.
  unfold parse_verbatim_reply. intros H. header_of H. parse_inv H En. apply Z.ltb_ge in En.
  parse_inv H Ew. apply Z.ltb_ge in Ew. destruct (payload_end _ _ _) as [u| | |] eqn:Ep; try discriminate.
  assert (Hlen : 0 <= len) by lia.
  destruct (payload_inv _ _ _ _ _ (proj1 Hb) Hlen Ew Ep) as (x & tail & Ex & Hx & Hsl).
  cbn [mbind parsed_bind] in H. rewrite Hsl in H. rewrite Hfrom in Ex.
  destruct (get x 3) as [c|] eqn:Ec; [|discriminate]. parse_step_in H. parse_inv H Es.
  apply negb_false_iff in Es. destruct (byte_eqb_spec c ":"%byte) as [->|]; [|discriminate].
  injection H as <- <- <-.
  assert (Exs : x = slice x 0 3 ++ ":"%byte :: from x 4).
  { rewrite <- (from_0 x) at 1. rewrite (from_slice x 0 3) by lia.
    rewrite (from_cons_get x 3 ":"%byte) by (auto; lia). reflexivity. }
  set (fmt := slice x 0 3) in *. set (data := from x 4) in *.
  assert (H3 : length fmt = 3%nat)
    by (pose proof (blen_slice x 0 3 ltac:(lia) ltac:(lia)) as L; unfold blen in L; fold fmt in L; lia).
  assert (Hd : 4 + blen data = len) by (unfold data; rewrite blen_from; lia).
  eapply (read_frame_intro ("="%byte :: h ++ CRLF ++ (fmt ++ ":"%byte :: data) ++ CRLF) _ _ []).
  - rewrite <- Exs, Er, Ex. cbn [app]. rewrite <- !app_assoc. reflexivity.
  - constructor; auto. rewrite Hd. exact Ei.
  - rewrite <- Exs. blen_lia.
  - rewrite dt_app_nil. reflexivity.
Qed.

Section Aggregate.
Variable elem : list byte -> DoubleText -> reply_result.
Hypothesis Helem : sound elem.

Lemma array_sound (push : bool) r dt rep n dt' :
  let t := if push then ">"%byte else "*"%byte in
  parse_array_reply elem (t :: r) push dt = Done (rep, n, dt') -> read_frame (t :: r) dt rep n dt'.
Proof.
  intros t H. unfold parse_array_reply in H. header_of H. destruct (Z.ltb_spec len 0) as [Hn|Hn].
  - subst t. destruct push; [discriminate|]. injection H as <- <- <-.
    apply (read_frame_intro ("*"%byte :: h ++ CRLF) more _ []);
      [rewrite Er; cbn [app]; rewrite <- app_assoc; reflexivity | econstructor; eassumption | blen_lia |].
    rewrite dt_app_nil. reflexivity.
  - destruct (items_loop _ _ _ _ _ _ _) as [[[items pos] dt1]| | |] eqn:E; try discriminate.
    destruct (items_sound elem Helem _ _ _ _ _ _ _ _ _ Hb Hn E) as (f & rs & ts & Ef & Hw & Hlen & -> & -> & ->).
    rewrite Hfrom in Ef. injection H as <- <- <-.
    apply (read_frame_intro (t :: h ++ CRLF ++ f) (from (t :: r) (1 + blen h + 2 + blen f)) _ ts).
    + rewrite Er at 1. rewrite Ef. cbn [app]. rewrite <- !app_assoc. reflexivity.
    + subst t len. destruct push; constructor; assumption.
    + blen_lia.
    + reflexivity.
Qed.

Lemma set_sound r dt rep n dt' :
  parse_set_reply elem ("~"%byte :: r) dt = Done (rep, n, dt') -> read_frame ("~"%byte :: r) dt rep n dt'.
Proof.
  intros H. unfold parse_set_reply in H. header_of H. parse_inv H En. apply Z.ltb_ge in En.
  destruct (items_loop _ _ _ _ _ _ _) as [[[items pos] dt1]| | |] eqn:E; try discriminate.
  destruct (items_sound elem Helem _ _ _ _ _ _ _ _ _ Hb En E) as (f & rs & ts & Ef & Hw & Hlen & -> & -> & ->).
  rewrite Hfrom in Ef. injection H as <- <- <-.
  apply (read_frame_intro ("~"%byte :: h ++ CRLF ++ f) (from ("~"%byte :: r) (1 + blen h + 2 + blen f)) _ ts).
  - rewrite Er at 1. rewrite Ef. cbn [app]. rewrite <- !app_assoc. reflexivity.
  - subst len. constructor; assumption.
  - blen_lia.
  - reflexivity.
Qed.

Lemma map_pairs_sound t r dt kvs n dt' :
  parse_map_pairs elem (t :: r) dt = Done (kvs, n, dt') ->
  exists h f ts more, t :: r = (t :: h ++ CRLF ++ f) ++ more /\ line_ok h /\
    parse_int h = Some (blen kvs) /\ wire_pairs f kvs ts /\ n = blen (t :: h ++ CRLF ++ f) /\
    dt' = dt_app dt ts.
Proof.
  intros H. unfold parse_map_pairs in H. header_of H. parse_inv H En. apply Z.ltb_ge in En.
  destruct (pairs_sound elem Helem _ _ _ _ _ _ _ _ _ Hb En H) as (f & kvs' & ts & Ef & Hw & Hlen & -> & -> & -> & _).
  rewrite Hfrom in Ef. exists h, f, ts, (from (t :: r) (1 + blen h + 2 + blen f)).
  split; [rewrite Er at 1; rewrite Ef; cbn [app]; rewrite <- !app_assoc; reflexivity|].
  subst len. repeat split; auto. blen_lia.
Qed.

Lemma map_sound r dt rep n dt' :
  parse_map_reply elem ("%"%byte :: r) dt = Done (rep, n, dt') -> read_frame ("%"%byte :: r) dt rep n dt'.
Proof.
  unfold parse_map_reply. destruct (parse_map_pairs _ _ _) as [[[kvs m] dt1]| | |] eqn:E;
    try discriminate. intros [= <- <- <-].
  destruct (map_pairs_sound _ _ _ _ _ _ E) as (h & f & ts & more & -> & Hl & Hi & Hw & -> & ->).
  eapply read_frame_intro; [reflexivity | constructor; eassumption | reflexivity | reflexivity].
Qed.

Lemma attr_sound r dt rep n dt' :
  parse_attributed_reply elem ("|"%byte :: r) dt = Done (rep, n, dt') ->
  read_frame ("|"%byte :: r) dt rep n dt'.
Proof.
  unfold parse_attributed_reply, parse_map_reply. intros H.
  destruct (parse_map_pairs _ _ _) as [[[kvs m] dt1]| | |] eqn:E; try discriminate.
  destruct (map_pairs_sound _ _ _ _ _ _ E) as (h & f & ts & more & Er & Hl & Hi & Hw & -> & ->).
  cbn [mbind parsed_bind] in H. rewrite Er in H |- *. rewrite from_app_len in H.
  destruct (elem more _) as [[[rep' used] dt2]| | |] eqn:Ee; try discriminate.
  destruct (Helem _ _ _ _ _ Ee) as (g & more' & us & -> & Hg & -> & ->). injection H as <- <- <-.
  eapply (read_frame_intro (("|"%byte :: h ++ CRLF ++ f) ++ g) more');
    [rewrite <- app_assoc; reflexivity | econstructor; eassumption | rewrite blen_app; reflexivity |].
  apply dt_app_app.
Qed.
End Aggregate.

Lemma parse_with_sound fuel : sound (parse_with fuel).
Proof.
  induction fuel as [|fuel IH]; intros buf dt r n dt' H; [discriminate|].
  change (read_frame buf dt r n dt'). cbn [parse_with] in H.
  destruct buf as [|t buf]; [discriminate|].
  destruct (scalar_sound t buf dt r n dt') as (S1 & S2 & S3 & S4 & S5 & S6).
  destruct t; try discriminate;
    first [ exact (S1 H eq_refl) | exact (S2 H eq_refl) | exact (S3 H eq_refl)
          | exact (S4 H eq_refl) | exact (S5 H eq_refl) | exact (S6 H eq_refl)
          | exact (null_sound _ _ _ _ _ H) | exact (bulk_sound _ _ _ _ _ H)
          | exact (blob_sound _ _ _ _ _ H) | exact (verbatim_sound _ _ _ _ _ H)
          | exact (set_sound _ IH _ _ _ _ _ H) | exact (map_sound _ IH _ _ _ _ _ H)
          | exact (attr_sound _ IH _ _ _ _ _ H) | exact (array_sound _ IH false _ _ _ _ _ H)
          | exact (array_sound _ IH true _ _ _ _ _ H) ].
Qed.

(** ** Totality and more bytes

    [grows m m']: [m] is not a panic, and [m'], the outcome on a longer buffer
    and more fuel, is the same unless [m] asked for more. *)
Definition grows {A} (m m' : parsed A) : Prop := m <> Panicked /\ (m = NeedMore \/ m' = m).

Lemma grows_refl {A} (m : parsed A) : m <> Panicked -> grows m m.
Proof. intros H. split; auto. Qed.

Lemma grows_bind {A B} (m m' : parsed A) (k k' : A -> parsed B) :
  grows m m' -> (forall a, m = Done a -> grows (k a) (k' a)) -> grows (m ≫= k) (m' ≫= k').
Proof.
  intros [Hp [-> | ->]] Hk; [split; [discriminate | left; reflexivity]|].
  destruct m as [a| |e|]; cbn [mbind parsed_bind].
  - apply Hk. reflexivity.
  - split; [discriminate | left; reflexivity].
  - split; [discriminate | right; reflexivity].
  - contradiction.
Qed.

Lemma grows_need {A} (o o' : option A) : o = None \/ o' = o -> grows (need o) (need o').
Proof.
  intros [-> | ->]; [split; [discriminate | left; reflexivity]|].
  apply grows_refl. destruct o; discriminate.
Qed.

Lemma grows_wait buf (more : list byte) x : grows (wait (blen buf <? x)) (wait (blen (buf ++ more) <? x)).
Proof.
  destruct (Z.ltb_spec (blen buf) x); [split; [discriminate | left; reflexivity]|].
  destruct (Z.ltb_spec (blen (buf ++ more)) x); [blen_lia|]. apply grows_refl. discriminate.
Qed.

Lemma ok_or_safe {A} (o : option A) e : ok_or o e <> Panicked.
Proof. destruct o; discriminate. Qed.

Lemma refuse_safe b e : refuse b e <> Panicked.
Proof. destruct b; discriminate. Qed.

Lemma wait_ge buf x u : wait (@blen byte buf <? x) = Done u -> x <= blen buf.
Proof. unfold wait. destruct (Z.ltb_spec (blen buf) x); [discriminate | auto]. Qed.

Lemma refuse_ge x y e u : refuse (x <? y) e = Done u -> y <= x.
Proof. unfold refuse. destruct (Z.ltb_spec x y); [discriminate | auto]. Qed.

Section Grows.
Variable more : list byte.

Lemma grows_find buf : grows (need (find_crlf buf 1)) (need (find_crlf (buf ++ more) 1)).
Proof.
  apply grows_need. destruct (find_crlf buf 1) as [p|] eqn:E; [right | left; reflexivity].
  apply find_crlf_extend; [lia | exact E].
Qed.

Lemma need_find buf e : need (find_crlf buf 1) = Done e -> 1 <= e /\ e + 2 <= blen buf.
Proof.
  destruct (find_crlf buf 1) eqn:E; [|discriminate]. intros [= <-].
  apply (find_crlf_le buf 1); [lia | exact E].
Qed.

Lemma grows_line buf : grows (need (reply_line buf)) (need (reply_line (buf ++ more))).
Proof.
  apply grows_need. unfold reply_line. destruct (find_crlf buf 1) as [p|] eqn:E; [right | left; reflexivity].
  rewrite (find_crlf_extend buf more 1 p ltac:(lia) E). cbn [mbind option_bind].
  destruct (find_crlf_le buf 1 p ltac:(lia) E). rewrite slice_app_l by lia. reflexivity.
Qed.

(** [grow_step]: peel one combinator. *)
Ltac grow_step :=
  lazymatch goal with
  | |- grows (need (find_crlf _ 1) ≫= _) _ =>
      apply grows_bind; [apply grows_find|];
      let e := fresh "e" in let He := fresh "He" in
      intros e He; apply need_find in He; rewrite ?slice_app_l by lia
  | |- grows (need (reply_line _) ≫= _) _ =>
      apply grows_bind; [apply grows_line|]; intros [? ?] _
  | |- grows (wait _ ≫= _) _ =>
      apply grows_bind; [apply grows_wait|];
      let Hw := fresh "Hw" in intros ? Hw; apply wait_ge in Hw; rewrite ?slice_app_l by lia
  | |- grows (refuse (_ <? _) _ ≫= _) _ =>
      apply grows_bind; [apply grows_refl, refuse_safe|];
      let Hr := fresh "Hr" in intros ? Hr; apply refuse_ge in Hr
  | |- grows (refuse _ _ ≫= _) _ => apply grows_bind; [apply grows_refl, refuse_safe | intros ? _]
  | |- grows (ok_or _ _ ≫= _) _ => apply grows_bind; [apply grows_refl, ok_or_safe | intros ? _]
  | |- grows (payload_end _ _ _ ≫= _) _ =>
      unfold payload_end; rewrite slice_app_l by lia;
      apply grows_bind; [apply grows_refl, refuse_safe | intros ? _]; rewrite ?slice_app_l by lia
  | |- grows (if _ <? 0 then _ else _) _ =>
      match goal with |- context [?x <? 0] => destruct (Z.ltb_spec x 0) end
  | |- grows (Done _) _ => apply grows_refl; discriminate
  | |- grows (Malformed _) _ => apply grows_refl; discriminate
  | |- grows (if ?b then _ else _) _ => destruct b
  end.

Lemma leaves_grow buf dt :
  (forall mk, grows (line_reply mk buf dt) (line_reply mk (buf ++ more) dt)) /\
  grows (parse_int_reply buf dt) (parse_int_reply (buf ++ more) dt) /\
  grows (parse_double_reply buf dt) (parse_double_reply (buf ++ more) dt) /\
  grows (parse_boolean_reply buf dt) (parse_boolean_reply (buf ++ more) dt) /\
  grows (parse_bulk_reply buf dt) (parse_bulk_reply (buf ++ more) dt) /\
  grows (parse_blob_error_reply buf dt) (parse_blob_error_reply (buf ++ more) dt) /\
  grows (parse_null_reply buf dt) (parse_null_reply (buf ++ more) dt).
Proof.
  unfold line_reply, parse_int_reply, parse_double_reply, parse_boolean_reply, parse_bulk_reply,
    parse_blob_error_reply, parse_null_reply.
  refine (conj _ (conj _ (conj _ (conj _ (conj _ (conj _ _)))))); intros; repeat grow_step.
Qed.

Lemma verbatim_grows buf dt :
  grows (parse_verbatim_reply buf dt) (parse_verbatim_reply (buf ++ more) dt).
Proof.
  unfold parse_verbatim_reply. repeat grow_step.
  destruct (get_lt_Some (slice buf (e + 2) (e + 2 + a)) 3) as [c Hc];
    [rewrite blen_slice; lia|]. rewrite Hc. cbn [unwrap mbind parsed_bind]. repeat grow_step.
Qed.

Section GrowingElements.
Variables (elem elem' : list byte -> DoubleText -> reply_result) (N : Z).
Hypothesis Hsound : sound elem.
Hypothesis Hgrows : forall b dt, blen b < N -> grows (elem b dt) (elem' (b ++ more) dt).

Lemma elem_grows buf pos dt :
  1 <= pos <= blen buf -> blen buf <= N ->
  grows (elem (from buf pos) dt) (elem' (from (buf ++ more) pos) dt).
Proof.
  intros Hp Hb. rewrite from_app_l by lia. apply Hgrows. rewrite blen_from; lia.
Qed.

Lemma elem_used buf pos dt r used dt' :
  0 <= pos <= blen buf -> elem (from buf pos) dt = Done (r, used, dt') ->
  1 <= used /\ pos + used <= blen buf.
Proof.
  intros Hp H. destruct (sound_at _ _ _ _ _ _ _ Hsound Hp H) as (f & ts & _ & Hw & -> & _ & Hl).
  apply wire_len in Hw. lia.
Qed.

Lemma items_grow n : forall n' buf count pos items dt,
  1 <= pos <= blen buf -> blen buf <= N -> blen buf - pos < Z.of_nat n -> (n <= n')%nat ->
  grows (items_loop elem n buf count pos items dt) (items_loop elem' n' (buf ++ more) count pos items dt).
Proof.
  induction n as [|n IH]; intros n' buf count pos items dt Hp Hb Hn Hle; [lia|].
  destruct n' as [|n']; [lia|]. cbn [items_loop]. destruct (count <=? 0); [grow_step|].
  apply grows_bind; [apply elem_grows; assumption|]. intros [[r used] dt1] Hd.
  destruct (elem_used buf pos dt r used dt1 ltac:(lia) Hd). apply IH; lia.
Qed.

Lemma pairs_grow n : forall n' buf count pos pairs dt,
  1 <= pos <= blen buf -> blen buf <= N -> blen buf - pos < Z.of_nat n -> (n <= n')%nat ->
  grows (pairs_loop elem n buf count pos pairs dt) (pairs_loop elem' n' (buf ++ more) count pos pairs dt).
Proof.
  induction n as [|n IH]; intros n' buf count pos pairs dt Hp Hb Hn Hle; [lia|].
  destruct n' as [|n']; [lia|]. cbn [pairs_loop]. destruct (count <=? 0); [grow_step|].
  apply grows_bind; [apply elem_grows; assumption|]. intros [[k uk] dt1] Hk.
  destruct (elem_used buf pos dt k uk dt1 ltac:(lia) Hk).
  apply grows_bind; [apply elem_grows; lia|]. intros [[v uv] dt2] Hv.
  destruct (elem_used buf (pos + uk) dt1 v uv dt2 ltac:(lia) Hv). apply IH; lia.
Qed.

Lemma loop_fuel_ok (buf : list byte) e :
  1 <= e /\ e + 2 <= blen buf ->
  1 <= e + 2 <= blen buf /\ blen buf - (e + 2) < Z.of_nat (S (length buf)) /\
  (S (length buf) <= S (length (buf ++ more)))%nat.
Proof. intros H. rewrite length_app. unfold blen in *. lia. Qed.

Lemma array_grows buf push dt :
  blen buf <= N -> grows (parse_array_reply elem buf push dt) (parse_array_reply elem' (buf ++ more) push dt).
Proof.
  intros Hb. unfold parse_array_reply. repeat grow_step.
  destruct (loop_fuel_ok buf e He) as (H1 & H2 & H3).
  apply grows_bind; [apply items_grow; assumption|]. intros [[items pos] dt1] _. grow_step.
Qed.

Lemma set_grows buf dt :
  blen buf <= N -> grows (parse_set_reply elem buf dt) (parse_set_reply elem' (buf ++ more) dt).
Proof.
  intros Hb. unfold parse_set_reply. repeat grow_step.
  destruct (loop_fuel_ok buf e He) as (H1 & H2 & H3).
  apply grows_bind; [apply items_grow; assumption|]. intros [[items pos] dt1] _. grow_step.
Qed.

Lemma map_grows buf dt :
  blen buf <= N -> grows (parse_map_reply elem buf dt) (parse_map_reply elem' (buf ++ more) dt).
Proof.
  intros Hb. unfold parse_map_reply, parse_map_pairs. apply grows_bind.
  - repeat grow_step. destruct (loop_fuel_ok buf e He) as (H1 & H2 & H3). apply pairs_grow; assumption.
  - intros [[kvs pos] dt1] _. grow_step.
Qed.

Lemma attr_grows buf dt :
  blen buf <= N ->
  grows (parse_attributed_reply elem buf dt) (parse_attributed_reply elem' (buf ++ more) dt).
Proof.
  intros Hb. unfold parse_attributed_reply. apply grows_bind; [apply map_grows, Hb|].
  intros [[rep used] dt1] Hm. unfold parse_map_reply in Hm.
  destruct buf as [|t r]; [unfold parse_map_pairs in Hm; rewrite find_crlf_ok in Hm by lia; discriminate|].
  destruct (parse_map_pairs elem (t :: r) dt) as [[[kvs pos] dt2]| | |] eqn:E; try discriminate.
  injection Hm as _ <- _.
  destruct (map_pairs_sound elem Hsound _ _ _ _ _ _ E) as (h & f & ts & m & Er & _ & _ & _ & -> & _).
  apply grows_bind; [apply elem_grows; [rewrite Er; blen_lia | exact Hb]|].
  intros [[r' u] dt3] _. grow_step.
Qed.
End GrowingElements.

Lemma parse_with_grows fuel : forall fuel' buf dt,
  blen buf < Z.of_nat fuel -> (fuel <= fuel')%nat ->
  grows (parse_with fuel buf dt) (parse_with fuel' (buf ++ more) dt).
Proof.
  induction fuel as [|fuel IH]; intros fuel' buf dt Hb Hle; [blen_lia|].
  destruct fuel' as [|fuel']; [lia|]. cbn [parse_with].
  destruct buf as [|t r]; [split; [discriminate | left; reflexivity]|]. cbn [app].
  change (t :: r ++ more) with ((t :: r) ++ more).
  assert (Hel : forall b d, blen b < Z.of_nat fuel -> grows (parse_with fuel b d) (parse_with fuel' (b ++ more) d))
    by (intros; apply IH; lia).
  assert (HN : blen (t :: r) <= Z.of_nat fuel) by lia.
  pose proof (parse_with_sound fuel) as Hs.
  destruct (leaves_grow (t :: r) dt) as (L1 & L2 & L3 & L4 & L5 & L6 & L7).
  destruct t; first [ apply grows_refl; discriminate | apply L1 | apply L2 | apply L3 | apply L4
    | apply L5 | apply L6 | apply L7 | apply verbatim_grows
    | apply (array_grows _ _ _ Hs Hel _ _ _ HN) | apply (set_grows _ _ _ Hs Hel _ _ HN)
    | apply (map_grows _ _ _ Hs Hel _ _ HN) | apply (attr_grows _ _ _ Hs Hel _ _ HN) ].
Qed.
End Grows.

Lemma parse_reply_grows buf more dt :
  grows (parse_with (S (length buf)) buf dt) (parse_with (S (length (buf ++ more))) (buf ++ more) dt).
Proof. apply parse_with_grows; [unfold blen; lia | rewrite length_app; lia]. Qed.
End Theory.

(** ** Writing a reply with the encoders *)

(** A reply tree written by the encoders of [reply_encode.rs] and
    [reply_encode_resp3.rs], aggregates by their header and then their
    elements.  The text of a double ([write_double]) is not modelled. *)
Fixpoint write_reply (out : list byte) (r : Reply) : exec (list byte) :=
  let write_all items out :=
    fold_left (fun o x => out ← o; write_reply out x) items (Ret out) in
  match r with
  | Simple s => Ret (encode_simple_string out s)
  | Error s => Ret (encode_error out s)
  | Int n => encode_integer out n
  | Bulk x => encode_bulk out x
  | Nil => Ret (encode_null_bulk out)
  | Array items => out ← encode_array_len out (blen items); write_all items out
  | Map kvs =>
      out ← encode_map_header out (blen kvs);
      fold_left (fun o kv => out ← o; out ← write_reply out (fst kv); write_reply out (snd kv))
        kvs (Ret out)
  | Set_ items => out ← encode_set_header out (blen items); write_all items out
  | Double _ => Panic
  | Boolean v => Ret (encode_boolean out v)
  | Verbatim fmt data => encode_verbatim out fmt data
  | BigNumber d => Ret (encode_big_number out d)
  | Null => Ret (encode_null out)
  | Push items => out ← encode_push_header out (blen items); write_all items out
  | BlobError msg => encode_blob_error out msg
  end.

(** Replies the encoders can write: no CRLF inside a line, lengths and numbers
    in range, and not [i64::MIN]. *)
Fixpoint encodable (r : Reply) : Prop :=
  match r with
  | Simple s | Error s | BigNumber s => line_ok s
  | Int n => i64_min < n <= i64_max
  | Bulk x | BlobError x => blen x <= i64_max
  | Verbatim fmt data => length fmt = 3%nat /\ 4 + blen data <= i64_max
  | Array items | Set_ items | Push items =>
      blen items <= i64_max /\ fold_right (fun x p => encodable x /\ p) True items
  | Map kvs =>
      blen kvs <= i64_max /\
      fold_right (fun kv p => (encodable (fst kv) /\ encodable (snd kv)) /\ p) True kvs
  | Double _ => False
  | Nil | Boolean _ | Null => True
  end.

(** Induction over a reply tree. *)
Lemma reply_tree_ind (P : Reply -> Prop) :
  (forall r, match r with
             | Array l | Set_ l | Push l => Forall P l
             | Map kvs => Forall (fun kv => P (fst kv) /\ P (snd kv)) kvs
             | _ => True
             end -> P r) ->
  forall r, P r.
Proof.
  intros H. fix IH 1. intros r. apply H. destruct r; try exact I.
  1, 3, 4: induction items; constructor; auto.
  induction pairs as [|[k v] l IHl]; constructor; auto.
Qed.

Lemma header_written out t n :
  i64_min <= n <= i64_max ->
  (o ← push_int (out ++ [t]) n; Ret (o ++ CRLF)) = Ret (out ++ t :: int_text n ++ CRLF).
Proof.
  intros H. rewrite push_int_ok by exact H. cbn [mbind exec_bind].
  rewrite <- !app_assoc. reflexivity.
Qed.

Definition writes (r : Reply) : Prop :=
  exists w, wire w r [] /\ forall out, write_reply out r = Ret (out ++ w).

Lemma items_written items :
  Forall (fun r => encodable r -> writes r) items ->
  fold_right (fun x p => encodable x /\ p) True items ->
  exists w, wires w items [] /\
    forall out, fold_left (fun o x => out ← o; write_reply out x) items (Ret out) = Ret (out ++ w).
Proof.
  induction 1 as [|r items Hr _ IH]; intros He.
  - exists []. split; [constructor|]. intros out. rewrite app_nil_r. reflexivity.
  - destruct He as [He Hes]. destruct (Hr He) as (w & Hw & Ew). destruct (IH Hes) as (ws & Hws & Ews).
    exists (w ++ ws). split; [apply (wires_cons w r [] ws items []); auto|]. intros out.
    cbn [fold_left]. cbn [mbind exec_bind]. rewrite Ew, Ews, app_assoc. reflexivity.
Qed.

Lemma pairs_written kvs :
  Forall (fun kv => (encodable (fst kv) -> writes (fst kv)) /\ (encodable (snd kv) -> writes (snd kv))) kvs ->
  fold_right (fun kv p => (encodable (fst kv) /\ encodable (snd kv)) /\ p) True kvs ->
  exists w, wire_pairs w kvs [] /\ forall out,
    fold_left (fun o kv => out ← o; out ← write_reply out (fst kv); write_reply out (snd kv)) kvs (Ret out)
      = Ret (out ++ w).
Proof.
  induction 1 as [|[k v] kvs [Hk Hv] _ IH]; intros He.
  - exists []. split; [constructor|]. intros out. rewrite app_nil_r. reflexivity.
  - destruct He as [[Hek Hev] Hes]. destruct (Hk Hek) as (wk & Hwk & Ek). destruct (Hv Hev) as (wv & Hwv & Ev).
    destruct (IH Hes) as (ws & Hws & Ews). cbn [fst snd] in *.
    exists ((wk ++ wv) ++ ws). split; [apply (wire_pairs_cons wk k [] wv v [] ws kvs []); auto|]. intros out.
    cbn [fold_left fst snd]. cbn [mbind exec_bind]. rewrite Ek. cbn [mbind exec_bind].
    rewrite Ev, Ews, <- !app_assoc. reflexivity.
Qed.

Lemma header_reads n : 0 <= n <= i64_max -> line_ok (int_text n) /\ parse_int (int_text n) = Some n.
Proof.
  intros H. split; [apply int_text_line_ok | apply parse_int_int_text; unfold i64_min; lia].
Qed.

(** An aggregate: its header, then what its elements write. *)
Lemma aggregate_written t n w out (body : list byte -> exec (list byte)) :
  0 <= n <= i64_max -> (forall o, body o = Ret (o ++ w)) ->
  (out ← (o ← push_int (out ++ [t]) n; Ret (o ++ CRLF)); body out) =
    Ret (out ++ t :: int_text n ++ CRLF ++ w).
Proof.
  intros Hn Hb. rewrite header_written by (unfold i64_min; lia). cbn [mbind exec_bind].
  rewrite Hb, <- app_assoc. cbn [app]. rewrite <- app_assoc. reflexivity.
Qed.

Lemma items_aggregate mk t items :
  blen items <= i64_max /\ fold_right (fun x p => encodable x /\ p) True items ->
  Forall (fun r => encodable r -> writes r) items ->
  (forall h f ts, line_ok h -> parse_int h = Some (blen items) -> wires f items ts ->
                  wire (t :: h ++ CRLF ++ f) (mk items) ts) ->
  (forall out, write_reply out (mk items) =
     (out ← (o ← push_int (out ++ [t]) (blen items); Ret (o ++ CRLF));
      fold_left (fun o x => out ← o; write_reply out x) items (Ret out))) ->
  writes (mk items).
Proof.
  intros [Hn He] Hf Hw Hd. destruct (items_written items Hf He) as (w & Hws & Ew).
  pose proof (blen_nonneg items). destruct (header_reads (blen items)) as [Hl Hi]; [lia|].
  exists (t :: int_text (blen items) ++ CRLF ++ w). split; [apply Hw; auto|].
  intros out. rewrite Hd. apply aggregate_written; [lia | exact Ew].
Qed.

Lemma map_written kvs :
  blen kvs <= i64_max /\
  fold_right (fun kv p => (encodable (fst kv) /\ encodable (snd kv)) /\ p) True kvs ->
  Forall (fun kv => (encodable (fst kv) -> writes (fst kv)) /\ (encodable (snd kv) -> writes (snd kv))) kvs ->
  writes (Map kvs).
Proof.
  intros [Hn He] Hf. destruct (pairs_written kvs Hf He) as (w & Hws & Ew).
  pose proof (blen_nonneg kvs). destruct (header_reads (blen kvs)) as [Hl Hi]; [lia|].
  exists ("%"%byte :: int_text (blen kvs) ++ CRLF ++ w). split; [apply wire_map; auto|].
  intros out. apply (aggregate_written "%"%byte); [lia | exact Ew].
Qed.

Lemma bulk_written x : blen x <= i64_max -> writes (Bulk x).
Proof.
  intros H. pose proof (blen_nonneg x). exists (bulk_bytes x). split.
  - change (bulk_bytes x) with ("$"%byte :: dec (blen x) ++ CRLF ++ x ++ CRLF).
    apply wire_bulk; [apply dec_line_ok | apply parse_int_dec]; lia.
  - intros out. apply encode_bulk_ok. unfold i64_max, u64_max in *. lia.
Qed.

(** A length-prefixed payload after its header. *)
Lemma payload_written t n x out :
  0 <= n <= i64_max ->
  (out ← push_int (out ++ [t]) (as_i64 n); Ret (out ++ CRLF ++ x)) =
    Ret (out ++ t :: int_text n ++ CRLF ++ x).
Proof.
  intros Hn. rewrite as_i64_id, push_int_ok by (unfold i64_min; lia). cbn [mbind exec_bind].
  rewrite <- !app_assoc. reflexivity.
Qed.

Lemma write_reply_wire r : encodable r -> writes r.
Proof.
  induction r as [r IH] using reply_tree_ind. intros He.
  destruct r as [s|s|n|x| |items|kvs|items|v|v|fmt data|d| |items|x]; cbn [encodable] in He.
  - exists ("+"%byte :: s ++ CRLF). split; [constructor; exact He | reflexivity].
  - exists ("-"%byte :: s ++ CRLF). split; [constructor; exact He | reflexivity].
  - exists (":"%byte :: int_text n ++ CRLF).
    split; [constructor; [apply int_text_line_ok | apply parse_int_int_text; lia]|].
    intros out. apply (header_written out ":"%byte n). lia.
  - apply bulk_written, He.
  - exists (bs "$-1" ++ CRLF). split; [|reflexivity].
    apply (wire_bulk_nil (bs "-1") (-1)); [reflexivity | reflexivity | lia].
  - apply (items_aggregate Array "*"%byte); auto using wire_array.
  - apply map_written; auto.
  - apply (items_aggregate Set_ "~"%byte); auto using wire_set.
  - destruct He.
  - exists ("#"%byte :: (if v then bs "t" else bs "f") ++ CRLF).
    split; [constructor | destruct v; reflexivity].
  - destruct He as [H3 Hm]. pose proof (blen_nonneg data).
    destruct (header_reads (4 + blen data)) as [Hl Hi]; [lia|].
    exists ("="%byte :: int_text (4 + blen data) ++ CRLF ++ (fmt ++ ":"%byte :: data) ++ CRLF).
    split; [apply wire_verbatim; auto|]. intros out.
    rewrite <- (app_assoc fmt). apply (payload_written "="%byte); lia.
  - exists ("("%byte :: d ++ CRLF). split; [constructor; exact He | reflexivity].
  - exists ("_"%byte :: CRLF). split; [constructor | reflexivity].
  - apply (items_aggregate Push ">"%byte); auto using wire_push.
  - pose proof (blen_nonneg x). destruct (header_reads (blen x)) as [Hl Hi]; [lia|].
    exists ("!"%byte :: int_text (blen x) ++ CRLF ++ x ++ CRLF).
    split; [apply wire_blob; auto|]. intros out. apply (payload_written "!"%byte); lia.
Qed.

(** ** Properties *)

Section Properties.
Context `{Scan : CrlfScanner}.

Lemma parse_reply_exact buf r n :
  parse_reply buf = Done (r, n) <->
  exists f more ts, buf = f ++ more /\ wire f r ts /\ n = blen f.
Proof.
  unfold parse_reply. split.
  - destruct (parse_with _ buf None) as [[[r' n'] dt]| | |] eqn:E; try discriminate.
    intros [= <- <-]. destruct (parse_with_sound _ _ _ _ _ _ E) as (f & more & ts & -> & Hw & -> & _).
    exists f, more, ts. auto.
  - intros (f & more & ts & -> & Hw & ->). rewrite (proj1 wire_complete f r ts Hw).
    + reflexivity.
    + rewrite length_app. unfold blen. lia.
Qed.

Lemma parse_reply_grown buf more :
  parse_reply buf <> Panicked /\
  (parse_reply buf <> NeedMore -> parse_reply (buf ++ more) = parse_reply buf).
Proof.
  unfold parse_reply. destruct (parse_reply_grows buf more None) as [Hp [Hn|He]].
  - rewrite Hn. split; [discriminate | contradiction].
  - rewrite He. split; [|reflexivity]. destruct (parse_with _ buf None) as [[[r n] dt]| | |];
      discriminate || contradiction.
Qed.

(** C24: the reply parser reads RESP replies, with integers and lengths given
    by their text (an optional sign and digits, by positional value) and not by
    the code's own reader.  Whatever it returns is a reply of the grammar, of
    the consumed number of bytes, at the start of the buffer, every integer in
    it an [i64]; and every frame of the grammar, whatever follows it, is
    returned and consumed exactly, when its integers are above [i64::MIN] (the
    code negates a positive [i64], so that one text it does not read: see
    [int_min_not_read_back]).  Nested aggregates, nulls and dropped attributes
    are included, and no buffer makes the parser panic. *)
Theorem parse_reply_reads_resp :
  (forall buf r n, parse_reply buf = Done (r, n) ->
     exists f more ts, buf = f ++ more /\ resp (resp_int i64_min) f r ts /\ n = blen f) /\
  (forall f r ts more, resp (resp_int (i64_min + 1)) f r ts ->
     parse_reply (f ++ more) = Done (r, blen f)) /\
  (forall buf, parse_reply buf <> Panicked).
Proof.
  split; [|split].
  - intros buf r n H. apply parse_reply_exact in H as (f & more & ts & -> & Hw & ->).
    exists f, more, ts. repeat split. revert Hw. apply (resp_mono _ _).
    intros l m (sg & ds & H)%parse_int_iff. exists sg, ds. destruct H as (? & ? & ? & ? & ?).
    repeat split; auto; lia.
  - intros f r ts more Hw. apply parse_reply_exact. exists f, more, ts. repeat split.
    revert Hw. apply (resp_mono _ _). intros l m. apply parse_int_iff.
  - intros buf. apply (parse_reply_grown buf []).
Qed.

(** the reply parser is total and incremental: on every buffer it returns
    without panicking (out-of-range slices and unbounded loops included), a
    reply or an error is not changed by bytes that arrive later, and every
    strict prefix of a reply frame asks for more bytes. *)
Theorem parse_reply_incremental :
  (forall buf, parse_reply buf <> Panicked) /\
  (forall buf more, parse_reply buf <> NeedMore -> parse_reply (buf ++ more) = parse_reply buf) /\
  (forall pre suf r ts, wire (pre ++ suf) r ts -> suf <> [] -> parse_reply pre = NeedMore).
Proof.
  split; [|split].
  - intros buf. apply (parse_reply_grown buf []).
  - intros buf more H. apply (parse_reply_grown buf more), H.
  - intros pre suf r ts Hw Hs. destruct (parse_reply pre) as [[r' n]| |e|] eqn:E; auto; exfalso.
    all: assert (Hd : parse_reply (pre ++ suf) = Done (r, blen (pre ++ suf)))
      by (apply parse_reply_exact; exists (pre ++ suf), [], ts; rewrite app_nil_r; auto).
    all: destruct (parse_reply_grown pre suf) as [_ Hd']; rewrite E in *; rewrite Hd' in Hd by discriminate;
      try discriminate.
    injection Hd as -> ->. apply parse_reply_exact in E as (f & more & us & -> & _ & Hl).
    destruct suf; [contradiction|]. blen_lia.
Qed.

Lemma keeping_exact buf r n ts :
  parse_reply_keeping_double_text buf = Done (r, n, ts) <->
  exists f more, buf = f ++ more /\ wire f r ts /\ n = blen f.
Proof.
  unfold parse_reply_keeping_double_text. split.
  - destruct (parse_with _ buf (Some [])) as [[[r' n'] dt]| | |] eqn:E; try discriminate.
    destruct (parse_with_sound _ _ _ _ _ _ E) as (f & more & us & -> & Hw & -> & ->).
    intros [= <- <- <-]. exists f, more. auto.
  - intros (f & more & -> & Hw & ->). rewrite (proj1 wire_complete f r ts Hw).
    + reflexivity.
    + rewrite length_app. unfold blen. lia.
Qed.

(** [parse_reply_keeping_double_text] returns the reply and count that
    [parse_reply] returns, with the texts of the doubles of the frame in wire
    order; each of the two succeeds exactly when the other does. *)
Theorem keeping_double_text_agrees buf r n :
  (forall ts, parse_reply_keeping_double_text buf = Done (r, n, ts) <->
              exists f more, buf = f ++ more /\ wire f r ts /\ n = blen f) /\
  ((exists ts, parse_reply_keeping_double_text buf = Done (r, n, ts)) <-> parse_reply buf = Done (r, n)).
Proof.
  split; [intros ts; apply keeping_exact|]. rewrite parse_reply_exact. split.
  - intros (ts & (f & more & H)%keeping_exact). exists f, more, ts. exact H.
  - intros (f & more & ts & H). exists ts. apply keeping_exact. eauto.
Qed.

(** a reply tree written by the encoders (nested arrays, maps, sets and
    pushes; no doubles, and no [i64::MIN]) is read back by [parse_reply] as the
    same tree, whatever follows it, and exactly its bytes are consumed. *)
Theorem write_reply_parses r rest (He : encodable r) :
  exists w, write_reply [] r = Ret w /\ parse_reply (w ++ rest) = Done (r, blen w).
Proof.
  destruct (write_reply_wire r He) as (w & Hw & Ew). exists w. split; [apply (Ew [])|].
  apply parse_reply_exact. exists w, rest, []. auto.
Qed.
End Properties.

Lemma write_reply_parses_witness :
  let r := Map [(Simple (bs "a"), Array [Int (-7); Nil; Bulk (bs "x")]); (Bulk [], Push [Null; Boolean true])] in
  exists w, write_reply [] r = Ret w /\
            parse_reply (Scan := scanner_on OtherArch) (w ++ bs "+") = Done (r, blen w).
Proof.
  apply (write_reply_parses (Scan := scanner_on OtherArch)
    (Map [(Simple (bs "a"), Array [Int (-7); Nil; Bulk (bs "x")]); (Bulk [], Push [Null; Boolean true])])
    (bs "+")).
  vm_compute. repeat split; discriminate.
Defined.

(** A frame with a padded negative integer and a signed length. *)
Lemma parse_reply_reads_resp_witness :
  let f := "*"%byte :: bs "2" ++ CRLF ++ (":"%byte :: bs "-0012" ++ CRLF) ++
             ("$"%byte :: bs "+1" ++ CRLF ++ bs "x" ++ CRLF) ++ [] in
  parse_reply (Scan := scanner_on OtherArch) (f ++ bs "+") = Done (Array [Int (-12); Bulk (bs "x")], blen f).
Proof.
  apply (proj1 (proj2 (parse_reply_reads_resp (Scan := scanner_on OtherArch)))) with (ts := []).
  assert (H : forall l n sg ds, l = sg ++ ds -> forallb is_ascii_digit ds = true -> ds <> [] ->
    (sg = [] \/ sg = bs "+") /\ n = digits_val 0 ds \/ sg = bs "-" /\ n = - digits_val 0 ds ->
    i64_min + 1 <= n <= i64_max -> resp_int (i64_min + 1) l n).
  { intros l n sg ds E Hd Hne Hs Hr. exists sg, ds. repeat split; auto; try lia.
    clear - Hd. induction ds as [|b ds IH]; [constructor|]. apply andb_true_iff in Hd as [Hb Hd]. auto. }
  apply (wire_array (bs "2") [Int (-12); Bulk (bs "x")] _ []); [reflexivity| |].
  - apply (H _ _ [] (bs "2")); [reflexivity | reflexivity | discriminate | auto | vm_compute; split; discriminate].
  - apply (wires_cons _ (Int (-12)) [] _ [Bulk (bs "x")] []).
    + apply wire_int; [reflexivity|]. apply (H _ _ (bs "-") (bs "0012"));
        [reflexivity | reflexivity | discriminate | auto | vm_compute; split; discriminate].
    + apply (wires_cons _ (Bulk (bs "x")) [] [] [] []); [|constructor].
      apply wire_bulk; [reflexivity|]. apply (H _ _ (bs "+") (bs "1"));
        [reflexivity | reflexivity | discriminate | auto | vm_compute; split; discriminate].
Defined.

(** the integer reply [encode_integer] writes for [i64::MIN] is rejected by
    [parse_reply]: the digits are accumulated as a positive [i64] before the
    sign is applied. *)
Theorem int_min_not_read_back (c : cpu) :
  exists w, encode_integer [] i64_min = Ret w /\
            parse_reply (Scan := scanner_on c) w = Malformed "bad integer reply".
Proof. eexists. split; [reflexivity|]. destruct c as [[]| |]; reflexivity. Qed.

(** texts of doubles inside a dropped attribute are returned too: here the
    reply is the one double [2], and two texts come back, the first of them
    the attribute's. *)
Theorem attribute_double_text_is_kept (c : cpu) :
  let buf := bs "|1" ++ CRLF ++ bs "+ttl" ++ CRLF ++ bs ",1.5" ++ CRLF ++ bs ",2" ++ CRLF in
  exists v, f64_from_str (bs "2") = Some v /\
    parse_reply_keeping_double_text (Scan := scanner_on c) buf =
      Done (Double v, blen buf, [bs "1.5"; bs "2"]).
Proof. eexists. split; [vm_compute; reflexivity|]. destruct c as [[]| |]; vm_compute; reflexivity. Qed.
