(* ===== verification/Civil.v ===== *)
(** * Calendar arithmetic ([crates/kevy-time/src/lib.rs])

    Epoch seconds to civil UTC time and back, month arithmetic with the
    end-of-month clamp, and the [@] query-bound expressions.  Rust's [/] and
    [%] are [Z.quot] and [Z.rem]; [div_euclid] and [rem_euclid] by a positive
    divisor are [Z.div] and [Z.modulo].  The [i64] arithmetic of the source is
    exact on the values it is applied to ([days_in_range] bounds them), so no
    wrap-around is written out; the checked operations are.

    The calendar itself is specified by [next_day]: the date functions agree
    with stepping day by day from 1970-01-01, in both directions. *)

From Stdlib Require Import ZArith Lia Bool Strings.Byte Strings.String.
From stdpp Require Import base list.
From S2P Require Import Prelude Encode Request.

#[local] Open Scope list_scope.
#[local] Open Scope Z_scope.
#[local] Open Scope kevy_scope.

Definition SECS_PER_DAY : Z := 86400.
Definition MAX_YEAR : Z := 300000000000.

Record Civil := mkCivil { c_y : Z; c_m : Z; c_d : Z; c_h : Z; c_min : Z; c_s : Z }.

Definition days_from_civil (y m d : Z) : Z :=
  let y := if m <=? 2 then y - 1 else y in
  let era := Z.quot (if 0 <=? y then y else y - 399) 400 in
  let yoe := y - era * 400 in
  let mp := if 2 <? m then m - 3 else m + 9 in
  let doy := Z.quot (153 * mp + 2) 5 + d - 1 in
  let doe := yoe * 365 + Z.quot yoe 4 - Z.quot yoe 100 + doy in
  era * 146097 + doe - 719468.

Definition civil_from_days (z : Z) : Z * Z * Z :=
  let z := z + 719468 in
  let era := Z.quot (if 0 <=? z then z else z - 146096) 146097 in
  let doe := z - era * 146097 in
  let yoe := Z.quot (doe - Z.quot doe 1460 + Z.quot doe 36524 - Z.quot doe 146096) 365 in
  let y := yoe + era * 400 in
  let doy := doe - (365 * yoe + Z.quot yoe 4 - Z.quot yoe 100) in
  let mp := Z.quot (5 * doy + 2) 153 in
  let d := doy - Z.quot (153 * mp + 2) 5 + 1 in
  let m := if mp <? 10 then mp + 3 else mp - 9 in
  (if m <=? 2 then y + 1 else y, m, d).

Definition last_day (y m : Z) : Z :=
  if (m =? 1) || (m =? 3) || (m =? 5) || (m =? 7) || (m =? 8) || (m =? 10) || (m =? 12) then 31
  else if (m =? 4) || (m =? 6) || (m =? 9) || (m =? 11) then 30
  else if (Z.rem y 4 =? 0) && (negb (Z.rem y 100 =? 0) || (Z.rem y 400 =? 0)) then 29
  else 28.

Definition wide_epoch (c : Civil) : Z :=
  days_from_civil (c_y c) (c_m c) (c_d c) * SECS_PER_DAY + (c_h c * 3600 + c_min c * 60 + c_s c).

Definition checked (c : Civil) : option Civil :=
  if negb ((- MAX_YEAR <=? c_y c) && (c_y c <=? MAX_YEAR)) then None
  else _ ← checked_i64 (wide_epoch c); Some c.

Definition from_epoch (secs : Z) : Civil :=
  let days := secs / SECS_PER_DAY in
  let rem := secs mod SECS_PER_DAY in
  let '(y, m, d) := civil_from_days days in
  mkCivil y m d (rem / 3600) (rem / 60 mod 60) (rem mod 60).

Definition from_date (y m d : Z) : option Civil :=
  if negb ((1 <=? m) && (m <=? 12)) || (d =? 0) || (last_day y m <? d) then None
  else checked (mkCivil y m d 0 0 0).

Definition with_time (c : Civil) (h min s : Z) : option Civil :=
  if (23 <? h) || (59 <? min) || (59 <? s) then None
  else checked (mkCivil (c_y c) (c_m c) (c_d c) h min s).

Definition to_epoch (c : Civil) : Z := as_i64 (wide_epoch c).

(** [Ord] derived on the fields in declaration order. *)
Definition lex (a b : comparison) : comparison := match a with Eq => b | _ => a end.

Definition civil_compare (a b : Civil) : comparison :=
  lex (c_y a ?= c_y b) (lex (c_m a ?= c_m b) (lex (c_d a ?= c_d b)
    (lex (c_h a ?= c_h b) (lex (c_min a ?= c_min b) (c_s a ?= c_s b))))).

Definition checked_add_months (secs n : Z) : option Z :=
  let c := from_epoch secs in
  months ← checked_i64 (c_y c * 12);
  months ← checked_i64 (months + (c_m c - 1));
  months ← checked_i64 (months + n);
  let y' := months / 12 in
  let m' := months mod 12 + 1 in
  let d' := Z.min (c_d c) (last_day y' m') in
  c ← checked (mkCivil y' m' d' (c_h c) (c_min c) (c_s c));
  Some (to_epoch c).

Definition add_months (secs n : Z) : Z :=
  match checked_add_months secs n with
  | Some t => t
  | None => if n <? 0 then i64_min else i64_max
  end.

(** ** Query bounds *)

(** [num]: a non-empty run of digits that fits [i64]. *)
Definition num (l : list byte) : option Z :=
  if non_empty l && forallb is_ascii_digit l then parse_digits 0 l else None.

Definition byte_at (l : list byte) (i : Z) (b : byte) : bool := bool_decide (get l i = Some b).

Definition parse_time (t : list byte) : option (Z * Z * Z) :=
  if negb (byte_at t 2 ":"%byte) || negb (byte_at t 5 ":"%byte) then None
  else h ← num (slice t 0 2); min ← num (slice t 3 5); s ← num (slice t 6 8);
       Some (as_u32 h, as_u32 min, as_u32 s).

Definition parse_literal (b : list byte) : option Z :=
  p ← (if blen b =? 10 then Some (b, None)
       else if blen b =? 19 then
         if negb (byte_at b 10 "T"%byte) then None else Some (slice b 0 10, Some (from b 11))
       else None);
  let '(date, time) := p in
  if negb (byte_at date 4 "-"%byte) || negb (byte_at date 7 "-"%byte) then None
  else
    y ← num (slice date 0 4); m ← num (slice date 5 7); d ← num (slice date 8 10);
    t ← match time with None => Some (0, 0, 0) | Some t => parse_time t end;
    let '(h, min, s) := t in
    c ← from_date y (as_u32 m) (as_u32 d);
    c ← with_time c h min s;
    Some (to_epoch c).

(** [strip_prefix] *)
Fixpoint strip_prefix (p l : list byte) : option (list byte) :=
  match p, l with
  | [], _ => Some l
  | a :: p', b :: l' => if a =b b then strip_prefix p' l' else None
  | _ :: _, [] => None
  end.

(** [rest.iter().take_while(|b| b.is_ascii_digit()).count()] *)
Fixpoint count_digits (l : list byte) : nat :=
  match l with
  | b :: r => if is_ascii_digit b then S (count_digits r) else O
  | [] => O
  end.

(** [now.checked_add(sign.checked_mul(n.checked_mul(unit)?)?)] *)
Definition shift (now sign n unit : Z) : option Z :=
  a ← checked_i64 (n * unit); a ← checked_i64 (sign * a); checked_i64 (now + a).

Definition eval_now (rest : list byte) (now : Z) : option Z :=
  match rest with
  | [] => Some now
  | c :: rest =>
      sign ← (if c =b "+"%byte then Some 1 else if c =b "-"%byte then Some (-1) else None);
      let digits := count_digits rest in
      if Nat.eqb digits 0 then None
      else
        n ← parse_digits 0 (take digits rest);
        let unit := drop digits rest in
        if bool_decide (unit = bs "s") then checked_i64 (now + sign * n)
        else if bool_decide (unit = bs "m") then shift now sign n 60
        else if bool_decide (unit = bs "h") then shift now sign n 3600
        else if bool_decide (unit = bs "d") then shift now sign n SECS_PER_DAY
        else if bool_decide (unit = bs "w") then shift now sign n (7 * SECS_PER_DAY)
        else if bool_decide (unit = bs "mo") then
          a ← checked_i64 (sign * n); checked_add_months now a
        else if bool_decide (unit = bs "y") then
          a ← checked_i64 (n * 12); a ← checked_i64 (sign * a); checked_add_months now a
        else None
  end.

Definition eval (expr : list byte) (now : Z) : option Z :=
  body ← strip_prefix (bs "@") expr;
  match strip_prefix (bs "now") body with
  | Some rest => eval_now rest now
  | None => parse_literal body
  end.

Example eval_samples :
  eval (bs "@now-1h") 1700000000 = Some 1699996400 /\
  eval (bs "@1970-01-01T00:00:01") 7 = Some 1 /\
  eval (bs "@2023-02-29") 7 = None /\
  eval (bs "@now+1mo") 1675123200 = Some 1677542400 /\
  eval (bs "@now+9223372036854775807mo") 0 = None.
Proof. vm_compute. repeat split. Qed.

(** ** Coordinates: era, year of era, day of (March-based) year *)

Definition leap (y : Z) : bool :=
  (y mod 4 =? 0) && (negb (y mod 100 =? 0) || (y mod 400 =? 0)).

Definition year_start (yoe : Z) : Z := 365 * yoe + yoe / 4 - yoe / 100.
Definition year_len (yoe : Z) : Z := if leap (yoe + 1) then 366 else 365.
Definition era_year (doe : Z) : Z := (doe - doe / 1460 + doe / 36524 - doe / 146096) / 365.

Definition doy_of (m d : Z) : Z := (153 * (if 2 <? m then m - 3 else m + 9) + 2) / 5 + d - 1.
Definition md_of (doy : Z) : Z * Z :=
  let mp := (5 * doy + 2) / 153 in
  (if mp <? 10 then mp + 3 else mp - 9, doy - (153 * mp + 2) / 5 + 1).

Ltac div_lia := Z.to_euclidean_division_equations; lia.

Lemma rem_zero a k : 0 < k -> (Z.rem a k =? 0) = (a mod k =? 0).
Proof.
  intros Hk. apply eq_true_iff_eq. rewrite !Z.eqb_eq.
  rewrite Z.rem_divide, Z.mod_divide by lia. reflexivity.
Qed.

Lemma last_day_leap y m :
  1 <= m <= 12 ->
  last_day y m = if m =? 2 then (if leap y then 29 else 28)
                 else if (m =? 4) || (m =? 6) || (m =? 9) || (m =? 11) then 30 else 31.
Proof.
  intros Hm. unfold last_day, leap. rewrite !rem_zero by lia.
  assert (H : m = 1 \/ m = 2 \/ m = 3 \/ m = 4 \/ m = 5 \/ m = 6 \/ m = 7 \/ m = 8 \/ m = 9 \/
              m = 10 \/ m = 11 \/ m = 12) by lia.
  decompose [or] H; subst; reflexivity.
Qed.

Lemma leap_mod a b : a mod 400 = b mod 400 -> leap a = leap b.
Proof.
  intros H. unfold leap.
  replace (a mod 4) with (b mod 4) by div_lia. replace (a mod 100) with (b mod 100) by div_lia.
  rewrite H. reflexivity.
Qed.

(** *** Finite checks *)

Definition all_below (n : nat) (p : Z -> bool) : bool := forallb (fun k => p (Z.of_nat k)) (seq 0 n).

Lemma all_below_spec n p k : all_below n p = true -> 0 <= k < Z.of_nat n -> p k = true.
Proof.
  unfold all_below. rewrite forallb_forall. intros H Hk.
  replace k with (Z.of_nat (Z.to_nat k)) by lia. apply H, in_seq. lia.
Qed.

Lemma md_checks : all_below 366 (fun doy =>
  let '(m, d) := md_of doy in
  (doy_of m d =? doy) && (1 <=? m) && (m <=? 12) && (1 <=? d) &&
  (d <=? if m =? 2 then (if doy =? 365 then 29 else 28)
         else if (m =? 4) || (m =? 6) || (m =? 9) || (m =? 11) then 30 else 31)) = true.
Proof. vm_compute. reflexivity. Qed.

Lemma doy_checks : all_below 13 (fun m => all_below 32 (fun d =>
  negb ((1 <=? m) && (1 <=? d) &&
        (d <=? if m =? 2 then 29 else if (m =? 4) || (m =? 6) || (m =? 9) || (m =? 11) then 30 else 31))
  || (let doy := doy_of m d in
      bool_decide (md_of doy = (m, d)) && (0 <=? doy) &&
      (doy <=? if (m =? 2) && (d =? 29) then 365 else 364)))) = true.
Proof. vm_compute. reflexivity. Qed.

Lemma year_checks : all_below 400 (fun yoe =>
  (era_year (year_start yoe) =? yoe) &&
  (era_year (year_start yoe + year_len yoe - 1) =? yoe) &&
  (0 <=? year_start yoe) && (year_start yoe + year_len yoe <=? 146097) &&
  (year_start yoe + year_len yoe =? if yoe =? 399 then 146097 else year_start (yoe + 1))) = true.
Proof. vm_compute. reflexivity. Qed.

Ltac bools H :=
  repeat (apply andb_true_iff in H; let H' := fresh H in destruct H as [H H']);
  rewrite ?Z.leb_le, ?Z.eqb_eq in *.

(** The year formula is monotone in the day, so its values at the ends of a
    year settle the days between. *)
Lemma era_year_mono a b : 0 <= a <= b -> era_year a <= era_year b.
Proof.
  intros H. unfold era_year. apply Z.div_le_mono; [lia|].
  replace b with (a + Z.of_nat (Z.to_nat (b - a))) by lia.
  induction (Z.to_nat (b - a)) as [|n IH]; [rewrite Z.add_0_r; lia|].
  etransitivity; [exact IH|]. set (c := a + Z.of_nat n). replace (a + Z.of_nat (S n)) with (c + 1) by lia.
  assert (0 <= c) by lia. clearbody c. clear. div_lia.
Qed.

Lemma year_facts yoe doy :
  0 <= yoe < 400 -> 0 <= doy < year_len yoe ->
  era_year (year_start yoe + doy) = yoe /\ 0 <= year_start yoe + doy < 146097.
Proof.
  intros Hy Hd. pose proof (all_below_spec _ _ yoe year_checks ltac:(lia)) as H. cbv beta in H. bools H.
  pose proof (era_year_mono (year_start yoe) (year_start yoe + doy) ltac:(lia)).
  pose proof (era_year_mono (year_start yoe + doy) (year_start yoe + year_len yoe - 1) ltac:(lia)).
  lia.
Qed.

Lemma year_len_range yoe : 365 <= year_len yoe <= 366.
Proof. unfold year_len. destruct (leap (yoe + 1)); lia. Qed.

Lemma doe_split doe :
  0 <= doe < 146097 ->
  exists yoe doy, 0 <= yoe < 400 /\ 0 <= doy < year_len yoe /\ doe = year_start yoe + doy.
Proof.
  intros H. replace doe with (Z.of_nat (Z.to_nat doe)) in * by lia. revert H.
  induction (Z.to_nat doe) as [|n IH]; intros H.
  - exists 0, 0. pose proof (year_len_range 0). repeat split; try lia.
  - destruct IH as (yoe & doy & Hy & Hd & E); [lia|].
    pose proof (all_below_spec _ _ yoe year_checks ltac:(lia)) as C. cbv beta in C. bools C.
    destruct (Z.lt_ge_cases (doy + 1) (year_len yoe)).
    + exists yoe, (doy + 1). repeat split; lia.
    + exists (yoe + 1), 0. pose proof (year_len_range (yoe + 1)).
      destruct (Z.eqb_spec yoe 399); repeat split; lia.
Qed.

(** The date at the coordinates. *)
Definition date_at (era yoe doy : Z) : Z * Z * Z :=
  let '(m, d) := md_of doy in (era * 400 + yoe + (if m <=? 2 then 1 else 0), m, d).

Definition valid_date (y m d : Z) : Prop := 1 <= m <= 12 /\ 1 <= d <= last_day y m.

Lemma md_of_facts doy :
  0 <= doy < 366 ->
  let '(m, d) := md_of doy in
  doy_of m d = doy /\ 1 <= m <= 12 /\ 1 <= d <= 31 /\
  forall y, (doy = 365 -> leap y = true) -> d <= last_day y m.
Proof.
  intros H. pose proof (all_below_spec _ _ doy md_checks ltac:(lia)) as C. cbv beta in C.
  destruct (md_of doy) as [m d]. bools C. apply Z.leb_le in C0.
  split; [exact C|]. split; [lia|].
  assert (Hd : forall y, (doy = 365 -> leap y = true) -> d <= last_day y m).
  { intros y Hl. rewrite last_day_leap by lia. destruct (m =? 2); [|lia].
    destruct (Z.eqb_spec doy 365); [rewrite Hl by assumption; lia|]. destruct (leap y); lia. }
  split; [|exact Hd]. split; [lia|].
  destruct (m =? 2), (doy =? 365), ((m =? 4) || (m =? 6) || (m =? 9) || (m =? 11)); lia.
Qed.

Lemma date_at_valid era yoe doy :
  0 <= yoe < 400 -> 0 <= doy < year_len yoe ->
  let '(y, m, d) := date_at era yoe doy in valid_date y m d.
Proof.
  intros Hy Hd. unfold date_at. pose proof (year_len_range yoe).
  pose proof (md_of_facts doy ltac:(lia)) as F. destruct (md_of doy) as [m d] eqn:Em.
  destruct F as (Fd & Fm & Fdd & Fl). split; [exact Fm|]. split; [lia|]. apply Fl. intros ->.
  assert (Hm : (m, d) = (2, 29)) by (rewrite <- Em; reflexivity). injection Hm as -> ->.
  change (2 <=? 2) with true. cbv iota.
  rewrite (leap_mod _ (yoe + 1)) by (rewrite <- Z.add_assoc, Z.add_comm, Z.mod_add; lia).
  unfold year_len in Hd. destruct (leap (yoe + 1)); [reflexivity | lia].
Qed.

(** Both conversions in terms of the coordinates. *)
Lemma civil_from_days_at era yoe doy :
  0 <= yoe < 400 -> 0 <= doy < year_len yoe ->
  civil_from_days (era * 146097 + (year_start yoe + doy) - 719468) = date_at era yoe doy.
Proof.
  intros Hy Hd. destruct (year_facts yoe doy Hy Hd) as [Fy Fr]. pose proof (year_len_range yoe).
  unfold civil_from_days. set (doe := year_start yoe + doy) in *.
  replace (era * 146097 + doe - 719468 + 719468) with (era * 146097 + doe) by lia.
  assert (Eq : Z.quot (if 0 <=? era * 146097 + doe then era * 146097 + doe
                       else era * 146097 + doe - 146096) 146097 = era)
    by (clearbody doe; destruct (Z.leb_spec 0 (era * 146097 + doe)); div_lia).
  rewrite Eq. replace (era * 146097 + doe - era * 146097) with doe by lia.
  rewrite !(Z.quot_div_nonneg doe) by lia.
  assert (Hn : 0 <= doe - doe / 1460 + doe / 36524 - doe / 146096) by (clearbody doe; div_lia).
  rewrite (Z.quot_div_nonneg (doe - _ + _ - _)) by lia.
  change ((doe - doe / 1460 + doe / 36524 - doe / 146096) / 365) with (era_year doe).
  rewrite Fy, !(Z.quot_div_nonneg yoe) by lia. fold (year_start yoe).
  replace (doe - year_start yoe) with doy by lia.
  rewrite (Z.quot_div_nonneg (5 * doy + 2)) by lia.
  rewrite (Z.quot_div_nonneg (153 * _ + 2)) by div_lia.
  unfold date_at, md_of. cbv zeta. f_equal. f_equal.
  destruct (_ <=? 2); lia.
Qed.

Lemma days_from_civil_eq y m d :
  1 <= m <= 12 ->
  let y' := if m <=? 2 then y - 1 else y in
  days_from_civil y m d = y' / 400 * 146097 + year_start (y' mod 400) + doy_of m d - 719468.
Proof.
  intros Hm y'. unfold days_from_civil. fold y'.
  assert (Eq : Z.quot (if 0 <=? y' then y' else y' - 399) 400 = y' / 400)
    by (clearbody y'; clear; destruct (Z.leb_spec 0 y'); div_lia).
  rewrite Eq. replace (y' - y' / 400 * 400) with (y' mod 400) by (clearbody y'; clear; div_lia).
  pose proof (Z.mod_pos_bound y' 400 ltac:(lia)).
  rewrite !(Z.quot_div_nonneg (y' mod 400)) by lia.
  rewrite Z.quot_div_nonneg by (destruct (2 <? m) eqn:E2; rewrite ?Z.ltb_lt, ?Z.ltb_ge in E2; lia).
  unfold doy_of, year_start. lia.
Qed.

Lemma days_from_civil_at y m d :
  valid_date y m d ->
  exists era yoe doy, 0 <= yoe < 400 /\ 0 <= doy < year_len yoe /\
    days_from_civil y m d = era * 146097 + (year_start yoe + doy) - 719468 /\
    date_at era yoe doy = (y, m, d).
Proof.
  intros [Hm Hd]. set (y' := if m <=? 2 then y - 1 else y).
  exists (y' / 400), (y' mod 400), (doy_of m d).
  assert (Hy : 0 <= y' mod 400 < 400) by (apply Z.mod_pos_bound; lia).
  assert (Hd31 : d <= 31).
  { rewrite last_day_leap in Hd by exact Hm.
    destruct (m =? 2), (leap y), ((m =? 4) || (m =? 6) || (m =? 9) || (m =? 11)); lia. }
  pose proof (all_below_spec _ _ m doy_checks ltac:(lia)) as C. cbv beta in C.
  pose proof (all_below_spec _ _ d C ltac:(lia)) as D. cbv beta in D. clear C.
  assert (G : (1 <=? m) && (1 <=? d) &&
    (d <=? if m =? 2 then 29 else if (m =? 4) || (m =? 6) || (m =? 9) || (m =? 11) then 30 else 31) = true).
  { rewrite last_day_leap in Hd by exact Hm. rewrite !andb_true_iff, !Z.leb_le.
    destruct (m =? 2), (leap y); lia. }
  rewrite G in D. cbn [negb orb] in D. cbv zeta in D. bools D.
  apply bool_decide_eq_true in D.
  assert (Hlen : doy_of m d < year_len (y' mod 400)).
  { unfold year_len. destruct (leap (y' mod 400 + 1)) eqn:El; [destruct ((m =? 2) && (d =? 29)); lia|].
    destruct (Z.eqb_spec m 2) as [->|]; cbn [andb] in D0; [|lia].
    destruct (Z.eqb_spec d 29) as [->|]; [|lia]. rewrite last_day_leap in Hd by lia. cbn in Hd.
    assert (Hly : leap y = leap (y' mod 400 + 1)) by (apply leap_mod; subst y'; cbn; div_lia).
    rewrite Hly, El in Hd. lia. }
  repeat split; try lia.
  - rewrite days_from_civil_eq by exact Hm. fold y'. lia.
  - unfold date_at. rewrite D. f_equal. f_equal. subst y'. destruct (m <=? 2); clear; div_lia.
Qed.

(** *** The two conversions are inverse *)

Lemma days_coords z :
  exists era yoe doy, 0 <= yoe < 400 /\ 0 <= doy < year_len yoe /\
    z = era * 146097 + (year_start yoe + doy) - 719468.
Proof.
  pose proof (Z.mod_pos_bound (z + 719468) 146097 ltac:(lia)) as Hb.
  destruct (doe_split _ Hb) as (yoe & doy & Hy & Hd & E).
  exists ((z + 719468) / 146097), yoe, doy. repeat split; try lia.
  rewrite <- E. pose proof (Z.div_mod (z + 719468) 146097 ltac:(lia)). lia.
Qed.

Lemma civil_of_days_of y m d : valid_date y m d -> civil_from_days (days_from_civil y m d) = (y, m, d).
Proof.
  intros H. destruct (days_from_civil_at y m d H) as (era & yoe & doy & Hy & Hd & -> & E).
  rewrite civil_from_days_at by assumption. exact E.
Qed.

Lemma civil_from_days_valid z : let '(y, m, d) := civil_from_days z in valid_date y m d.
Proof.
  destruct (days_coords z) as (era & yoe & doy & Hy & Hd & ->).
  rewrite civil_from_days_at by assumption. apply date_at_valid; assumption.
Qed.

Lemma date_at_inj era yoe doy era' yoe' doy' :
  0 <= yoe < 400 -> 0 <= doy < year_len yoe -> 0 <= yoe' < 400 -> 0 <= doy' < year_len yoe' ->
  date_at era yoe doy = date_at era' yoe' doy' -> era = era' /\ yoe = yoe' /\ doy = doy'.
Proof.
  intros Hy Hd Hy' Hd'. pose proof (year_len_range yoe). pose proof (year_len_range yoe').
  unfold date_at. pose proof (md_of_facts doy ltac:(lia)) as F. pose proof (md_of_facts doy' ltac:(lia)) as F'.
  destruct (md_of doy) as [m d], (md_of doy') as [m' d']. destruct F as (F & _), F' as (F' & _).
  intros [= Ey -> ->]. destruct (m' <=? 2); lia.
Qed.

Lemma days_of_civil_of z : let '(y, m, d) := civil_from_days z in days_from_civil y m d = z.
Proof.
  pose proof (civil_from_days_valid z) as V.
  destruct (days_coords z) as (era & yoe & doy & Hy & Hd & ->).
  rewrite civil_from_days_at in * by assumption.
  destruct (date_at era yoe doy) as [[y m] d] eqn:E.
  destruct (days_from_civil_at y m d V) as (era' & yoe' & doy' & Hy' & Hd' & -> & E').
  rewrite <- E in E'. apply date_at_inj in E' as (-> & -> & ->); auto.
Qed.

(** *** The calendar, day by day *)

Definition next_day (y m d : Z) : Z * Z * Z :=
  if d <? last_day y m then (y, m, d + 1)
  else if m <? 12 then (y, m + 1, 1)
  else (y + 1, 1, 1).

Lemma last_day_range y m : 28 <= last_day y m <= 31.
Proof.
  unfold last_day. repeat match goal with |- context [if ?b then _ else _] => destruct b end; lia.
Qed.

Lemma next_day_valid y m d :
  valid_date y m d -> let '(y', m', d') := next_day y m d in valid_date y' m' d'.
Proof.
  intros [Hm Hd]. unfold next_day. destruct (Z.ltb_spec d (last_day y m)); [split; lia|].
  destruct (Z.ltb_spec m 12); split; try lia; pose proof (last_day_range y (m + 1));
    pose proof (last_day_range (y + 1) 1); lia.
Qed.

(** 1 March follows the last day of February. *)
Lemma march_first y : days_from_civil y 3 1 = days_from_civil y 2 (last_day y 2) + 1.
Proof.
  rewrite !days_from_civil_eq, last_day_leap by lia. cbn [Z.leb Z.compare Pos.compare Pos.compare_cont Z.eqb Pos.eqb].
  assert (Hy : 0 <= (y - 1) mod 400 < 400) by (apply Z.mod_pos_bound; lia).
  pose proof (all_below_spec _ _ ((y - 1) mod 400) year_checks ltac:(lia)) as C. cbv beta in C. bools C.
  assert (El : leap y = leap ((y - 1) mod 400 + 1)) by (apply leap_mod; clear; div_lia).
  replace (doy_of 2 (if leap y then 29 else 28)) with (year_len ((y - 1) mod 400) - 1)
    by (unfold year_len; rewrite <- El; destruct (leap y); reflexivity).
  change (doy_of 3 1) with 0. destruct (Z.eqb_spec ((y - 1) mod 400) 399) as [E9|E9].
  - assert (y / 400 = (y - 1) / 400 + 1 /\ y mod 400 = 0) as [-> ->] by (clear - E9; div_lia).
    change (year_start 0) with 0. lia.
  - assert (y / 400 = (y - 1) / 400 /\ y mod 400 = (y - 1) mod 400 + 1) as [-> ->]
      by (clear - E9 Hy; div_lia). lia.
Qed.

Lemma next_day_days y m d :
  valid_date y m d -> let '(y', m', d') := next_day y m d in days_from_civil y' m' d' = days_from_civil y m d + 1.
Proof.
  intros [Hm Hd]. unfold next_day. destruct (Z.ltb_spec d (last_day y m)).
  { rewrite !days_from_civil_eq by lia. unfold doy_of. lia. }
  assert (d = last_day y m) as -> by lia. clear Hd H.
  assert (C : m = 1 \/ m = 2 \/ m = 3 \/ m = 4 \/ m = 5 \/ m = 6 \/ m = 7 \/ m = 8 \/ m = 9 \/
              m = 10 \/ m = 11 \/ m = 12) by lia.
  decompose [or] C; subst m; cbn [Z.ltb Z.compare Pos.compare Pos.compare_cont];
    [| apply march_first |..]; rewrite !days_from_civil_eq, last_day_leap by lia;
    cbn [Z.eqb Pos.eqb orb];
    repeat match goal with
    | |- context [doy_of ?a ?b] => let v := eval vm_compute in (doy_of a b) in change (doy_of a b) with v
    | |- context [?a <=? 2] => let v := eval vm_compute in (a <=? 2) in change (a <=? 2) with v
    end; cbv iota; rewrite ?Z.add_simpl_r; lia.
Qed.

Lemma civil_from_days_succ z :
  civil_from_days (z + 1) = let '(y, m, d) := civil_from_days z in next_day y m d.
Proof.
  pose proof (civil_from_days_valid z) as V. pose proof (days_of_civil_of z) as E.
  destruct (civil_from_days z) as [[y m] d].
  pose proof (next_day_days y m d V) as N. pose proof (next_day_valid y m d V) as V'.
  destruct (next_day y m d) as [[y' m'] d']. rewrite <- E, <- N. apply civil_of_days_of, V'.
Qed.

(** ** Instants *)

Definition valid_civil (c : Civil) : Prop :=
  valid_date (c_y c) (c_m c) (c_d c) /\ 0 <= c_h c <= 23 /\ 0 <= c_min c <= 59 /\ 0 <= c_s c <= 59.

Definition day_secs (c : Civil) : Z := c_h c * 3600 + c_min c * 60 + c_s c.

Lemma day_secs_range c : valid_civil c -> 0 <= day_secs c < SECS_PER_DAY.
Proof. unfold valid_civil, day_secs, SECS_PER_DAY. lia. Qed.

Lemma from_epoch_valid t : valid_civil (from_epoch t).
Proof.
  unfold from_epoch, valid_civil. pose proof (civil_from_days_valid (t / SECS_PER_DAY)) as V.
  destruct (civil_from_days _) as [[y m] d]. cbn [c_y c_m c_d c_h c_min c_s]. split; [exact V|].
  unfold SECS_PER_DAY. clear V. div_lia.
Qed.

Lemma from_epoch_wide t : wide_epoch (from_epoch t) = t.
Proof.
  unfold from_epoch, wide_epoch. pose proof (days_of_civil_of (t / SECS_PER_DAY)) as E.
  destruct (civil_from_days _) as [[y m] d]. cbn [c_y c_m c_d c_h c_min c_s]. rewrite E.
  unfold SECS_PER_DAY. clear E. div_lia.
Qed.

Lemma wide_from_epoch c : valid_civil c -> from_epoch (wide_epoch c) = c.
Proof.
  intros V. pose proof (day_secs_range c V) as R. destruct V as (Vd & Vh & Vm & Vs).
  unfold from_epoch. change (wide_epoch c) with (days_from_civil (c_y c) (c_m c) (c_d c) * SECS_PER_DAY + day_secs c).
  rewrite Z.div_add_l, (Z.div_small (day_secs c)), Z.add_0_r by (unfold SECS_PER_DAY in *; lia).
  rewrite Z.add_comm, Z.mod_add, Z.mod_small by (unfold SECS_PER_DAY in *; lia).
  rewrite (civil_of_days_of _ _ _ Vd). unfold day_secs in *. destruct c as [y m d h mi s].
  cbn [c_y c_m c_d c_h c_min c_s] in *. f_equal; div_lia.
Qed.

Lemma wide_days_bounds y m d :
  valid_date y m d ->
  let y' := if m <=? 2 then y - 1 else y in
  y' / 400 * 146097 - 719468 <= days_from_civil y m d < (y' / 400 + 1) * 146097 - 719468.
Proof.
  intros V y'. pose proof V as [Hm _]. destruct (days_from_civil_at y m d V) as (era & yoe & doy & Hy & Hd & -> & E).
  destruct (year_facts yoe doy Hy Hd) as [_ Hr].
  assert (Hera : era = y' / 400).
  { unfold date_at in E. destruct (md_of doy) as [m1 d1]. injection E as Ey -> ->.
    subst y'. destruct (m <=? 2); clear - Ey Hy; div_lia. }
  lia.
Qed.

(** The year guard of [checked] refuses nothing an [i64] epoch can hold. *)
Lemma year_in_range c :
  valid_civil c -> i64_min <= wide_epoch c <= i64_max -> - MAX_YEAR <= c_y c <= MAX_YEAR.
Proof.
  intros V H. pose proof (day_secs_range c V) as R. destruct V as (Vd & _).
  pose proof (wide_days_bounds _ _ _ Vd) as B. cbv zeta in B.
  change (wide_epoch c) with (days_from_civil (c_y c) (c_m c) (c_d c) * SECS_PER_DAY + day_secs c) in H.
  unfold i64_min, i64_max, SECS_PER_DAY, MAX_YEAR in *.
  destruct (c_m c <=? 2); clear Vd; div_lia.
Qed.

Lemma checked_iff c :
  valid_civil c -> checked c = if in_i64 (wide_epoch c) then Some c else None.
Proof.
  intros V. unfold checked, checked_i64.
  destruct (in_i64 (wide_epoch c)) eqn:E; cbn [mbind option_bind];
    [|destruct (negb _); reflexivity].
  apply in_i64_iff in E. pose proof (year_in_range c V E).
  destruct (Z.leb_spec (- MAX_YEAR) (c_y c)), (Z.leb_spec (c_y c) MAX_YEAR); try lia. reflexivity.
Qed.

Lemma to_epoch_wide c : i64_min <= wide_epoch c <= i64_max -> to_epoch c = wide_epoch c.
Proof. apply as_i64_id. Qed.

(** ** Chronological order *)

Definition date_lt (a b : Z * Z * Z) : Prop :=
  let '(y, m, d) := a in let '(y', m', d') := b in
  y < y' \/ y = y' /\ (m < m' \/ m = m' /\ d < d').

Lemma civil_from_days_lt z z' : z < z' -> date_lt (civil_from_days z) (civil_from_days z').
Proof.
  intros H. replace z' with (z + 1 + Z.of_nat (Z.to_nat (z' - z - 1))) by lia.
  induction (Z.to_nat (z' - z - 1)) as [|n IH].
  - rewrite Z.add_0_r, civil_from_days_succ. pose proof (civil_from_days_valid z) as V.
    destruct (civil_from_days z) as [[y m] d]. unfold next_day, date_lt. destruct V as [Vm Vd].
    destruct (Z.ltb_spec d (last_day y m)); [lia|]. destruct (m <? 12); lia.
  - replace (z + 1 + Z.of_nat (S n)) with ((z + 1 + Z.of_nat n) + 1) by lia.
    rewrite civil_from_days_succ. pose proof (civil_from_days_valid (z + 1 + Z.of_nat n)) as V.
    destruct (civil_from_days z) as [[y m] d], (civil_from_days (z + 1 + Z.of_nat n)) as [[y1 m1] d1].
    unfold next_day, date_lt in *. destruct V as [Vm Vd].
    destruct (Z.ltb_spec d1 (last_day y1 m1)); [lia|]. destruct (Z.ltb_spec m1 12); lia.
Qed.

Lemma lex_Lt a b : lex a b = Lt <-> a = Lt \/ a = Eq /\ b = Lt.
Proof. destruct a; cbn; intuition discriminate. Qed.

Lemma civil_compare_lt a b :
  valid_civil a -> valid_civil b -> wide_epoch a < wide_epoch b -> civil_compare a b = Lt.
Proof.
  intros Va Vb H. pose proof (day_secs_range a Va) as Ra. pose proof (day_secs_range b Vb) as Rb.
  destruct Va as (Da & Ta), Vb as (Db & Tb).
  unfold civil_compare. rewrite !lex_Lt, !Z.compare_lt_iff, !Z.compare_eq_iff.
  change (wide_epoch a) with (days_from_civil (c_y a) (c_m a) (c_d a) * SECS_PER_DAY + day_secs a) in H.
  change (wide_epoch b) with (days_from_civil (c_y b) (c_m b) (c_d b) * SECS_PER_DAY + day_secs b) in H.
  unfold SECS_PER_DAY in *.
  destruct (Z.lt_trichotomy (days_from_civil (c_y a) (c_m a) (c_d a)) (days_from_civil (c_y b) (c_m b) (c_d b)))
    as [Hl|[He|Hg]]; [| |lia].
  - apply civil_from_days_lt in Hl. rewrite !civil_of_days_of in Hl by assumption.
    unfold date_lt in Hl. lia.
  - apply (f_equal civil_from_days) in He as Hd. rewrite !civil_of_days_of in Hd by assumption.
    injection Hd as E1 E2 E3. unfold day_secs in *. lia.
Qed.

(** ** Month arithmetic against unbounded integers *)

Definition months_later (c : Civil) (n : Z) : Civil :=
  let k := c_y c * 12 + (c_m c - 1) + n in
  let y' := k / 12 in
  let m' := k mod 12 + 1 in
  mkCivil y' m' (Z.min (c_d c) (last_day y' m')) (c_h c) (c_min c) (c_s c).

Lemma months_later_valid c n : valid_civil c -> valid_civil (months_later c n).
Proof.
  intros ((Vm & Vd) & Vt). unfold months_later, valid_civil, valid_date. cbn [c_y c_m c_d c_h c_min c_s].
  set (k := c_y c * 12 + (c_m c - 1) + n). pose proof (Z.mod_pos_bound k 12 ltac:(lia)).
  pose proof (last_day_range (k / 12) (k mod 12 + 1)). lia.
Qed.

Lemma months_later_fits c n :
  valid_civil c -> in_i64 (wide_epoch (months_later c n)) = true ->
  i64_min <= c_y c * 12 + (c_m c - 1) + n <= i64_max.
Proof.
  intros V Ew%in_i64_iff. apply year_in_range in Ew; [|apply months_later_valid, V].
  unfold months_later, MAX_YEAR in Ew. cbn [c_y] in Ew.
  assert (Hk : forall k, - 300000000000 <= k / 12 <= 300000000000 -> i64_min <= k <= i64_max)
    by (intros k Hk; unfold i64_min, i64_max; div_lia).
  apply Hk, Ew.
Qed.

Lemma checked_add_months_eq t n :
  i64_min <= t <= i64_max -> i64_min <= n <= i64_max ->
  checked_add_months t n =
    let w := wide_epoch (months_later (from_epoch t) n) in if in_i64 w then Some w else None.
Proof.
  intros Ht Hn. pose proof (from_epoch_valid t) as V. pose proof (from_epoch_wide t) as W.
  pose proof Ht as Hw. rewrite <- W in Hw.
  pose proof (year_in_range _ V Hw) as Hy. pose proof (proj1 (proj1 V)) as Hm.
  pose proof (months_later_valid _ n V) as V'. unfold checked_add_months.
  remember (from_epoch t) as c eqn:Ec. clear Ec. unfold MAX_YEAR in Hy.
  rewrite (checked_i64_ok (c_y c * 12)) by (unfold i64_min, i64_max; lia). cbn [mbind option_bind].
  rewrite checked_i64_ok by (unfold i64_min, i64_max; lia). cbn [mbind option_bind].
  unfold checked_i64 at 1.
  destruct (in_i64 (c_y c * 12 + (c_m c - 1) + n)) eqn:E; cbn [mbind option_bind].
  - match goal with |- context [checked ?x] => replace x with (months_later c n) by reflexivity end. rewrite checked_iff by exact V'. cbv zeta.
    destruct (in_i64 (wide_epoch (months_later c n))) eqn:Ew; [|reflexivity]. cbn [mbind option_bind].
    apply in_i64_iff in Ew. rewrite to_epoch_wide by exact Ew. reflexivity.
  - cbv zeta. destruct (in_i64 (wide_epoch (months_later c n))) eqn:Ew; [exfalso|reflexivity].
    apply months_later_fits, in_i64_iff in Ew; [congruence | exact V].
Qed.

(** ** Properties of the calendar *)

(** every [i64] epoch survives the trip through the civil fields
    ([from_epoch] then [to_epoch] is the identity on all of [i64]), and the
    fields are always a real date and time of day. *)
Theorem epoch_roundtrip t (Ht : i64_min <= t <= i64_max) :
  to_epoch (from_epoch t) = t /\ valid_civil (from_epoch t).
Proof.
  split; [|apply from_epoch_valid]. rewrite to_epoch_wide; rewrite from_epoch_wide; [reflexivity | exact Ht].
Qed.

Lemma epoch_roundtrip_witness :
  to_epoch (from_epoch i64_min) = i64_min /\ valid_civil (from_epoch i64_min).
Proof. apply (epoch_roundtrip i64_min). vm_compute. split; discriminate. Defined.

(** the date functions are the Gregorian calendar counted day by day from
    1970-01-01: day zero is that date, each next day number is the next
    calendar day (month ends and leap years included), and [days_from_civil]
    is the inverse on real dates. *)
Theorem civil_counts_days :
  civil_from_days 0 = (1970, 1, 1) /\
  (forall z, civil_from_days (z + 1) = let '(y, m, d) := civil_from_days z in next_day y m d) /\
  (forall z, let '(y, m, d) := civil_from_days z in valid_date y m d /\ days_from_civil y m d = z) /\
  (forall y m d, valid_date y m d -> civil_from_days (days_from_civil y m d) = (y, m, d)).
Proof.
  split; [reflexivity|]. split; [exact civil_from_days_succ|]. split; [|exact civil_of_days_of].
  intros z. pose proof (civil_from_days_valid z). pose proof (days_of_civil_of z).
  destruct (civil_from_days z) as [[y m] d]. auto.
Qed.

(** [from_date] followed by [with_time] (unsigned fields) builds an instant
    exactly when the fields are a real date and time whose midnight and whose
    instant fit an [i64] epoch; [from_epoch] of its epoch gives the fields
    back. *)
Theorem civil_constructors y m d h mi s (Hd : 0 <= d) (Hh : 0 <= h) (Hm : 0 <= mi) (Hs : 0 <= s) c :
  (c0 ← from_date y m d; with_time c0 h mi s) = Some c <->
  c = mkCivil y m d h mi s /\ valid_civil c /\ in_i64 (wide_epoch (mkCivil y m d 0 0 0)) = true /\
  from_epoch (to_epoch c) = c /\ in_i64 (wide_epoch c) = true.
Proof.
  unfold from_date.
  destruct (negb ((1 <=? m) && (m <=? 12)) || (d =? 0) || (last_day y m <? d)) eqn:Ed.
  { split; [discriminate|]. intros (-> & ((Vm & Vd) & _) & _). cbn [c_y c_m c_d] in *. exfalso.
    destruct (Z.leb_spec 1 m), (Z.leb_spec m 12), (Z.eqb_spec d 0), (Z.ltb_spec (last_day y m) d);
      cbn in Ed; lia || discriminate. }
  assert (Vd : valid_date y m d).
  { apply orb_false_iff in Ed as [[Em E0]%orb_false_iff El]. apply negb_false_iff in Em.
    apply andb_true_iff in Em as [E1%Z.leb_le E2%Z.leb_le]. apply Z.ltb_ge in El. apply Z.eqb_neq in E0.
    split; lia. }
  rewrite checked_iff by (split; [exact Vd | cbn; lia]).
  destruct (in_i64 (wide_epoch (mkCivil y m d 0 0 0))) eqn:E0; cbn [mbind option_bind].
  2: { split; [discriminate|]. intros (_ & _ & H & _). discriminate. }
  unfold with_time. cbn [c_y c_m c_d].
  destruct ((23 <? h) || (59 <? mi) || (59 <? s)) eqn:Et.
  { split; [discriminate|]. intros (-> & (_ & V) & _). cbn [c_h c_min c_s] in V. exfalso.
    destruct (Z.ltb_spec 23 h), (Z.ltb_spec 59 mi), (Z.ltb_spec 59 s); cbn in Et; lia || discriminate. }
  apply orb_false_iff in Et as [[T1%Z.ltb_ge T2%Z.ltb_ge]%orb_false_iff T3%Z.ltb_ge].
  assert (V : valid_civil (mkCivil y m d h mi s)) by (split; [exact Vd | cbn; lia]).
  rewrite checked_iff by exact V. destruct (in_i64 (wide_epoch (mkCivil y m d h mi s))) eqn:Ew.
  - split; [intros [= <-] | intros (-> & _); reflexivity]. split; [reflexivity|]. split; [exact V|].
    split; [reflexivity|]. split; [|exact Ew]. apply in_i64_iff in Ew.
    rewrite to_epoch_wide by exact Ew. apply wide_from_epoch, V.
  - split; [discriminate|]. intros (-> & _ & _ & _ & H). congruence.
Qed.

Lemma civil_constructors_witness :
  (c0 ← from_date 2024 2 29; with_time c0 23 59 59) = Some (mkCivil 2024 2 29 23 59 59).
Proof.
  apply (civil_constructors 2024 2 29 23 59 59); try lia.
  vm_compute. repeat split; discriminate.
Defined.

(** comparing civil times field by field (the derived [Ord]) is comparing
    instants. *)
Theorem civil_order_is_chronological a b (Va : valid_civil a) (Vb : valid_civil b) :
  civil_compare a b = (wide_epoch a ?= wide_epoch b).
Proof.
  destruct (Z.compare_spec (wide_epoch a) (wide_epoch b)) as [E|L|G].
  - rewrite <- (wide_from_epoch a Va), E, (wide_from_epoch b Vb). unfold civil_compare.
    rewrite !Z.compare_refl. reflexivity.
  - apply civil_compare_lt; assumption.
  - pose proof (civil_compare_lt b a Vb Va G) as H. unfold civil_compare in *.
    rewrite (Z.compare_antisym (c_y b)), (Z.compare_antisym (c_m b)), (Z.compare_antisym (c_d b)),
      (Z.compare_antisym (c_h b)), (Z.compare_antisym (c_min b)), (Z.compare_antisym (c_s b)).
    destruct (c_y b ?= c_y a), (c_m b ?= c_m a), (c_d b ?= c_d a), (c_h b ?= c_h a),
      (c_min b ?= c_min a), (c_s b ?= c_s a); cbn in *; congruence.
Qed.

Lemma civil_order_is_chronological_witness :
  civil_compare (mkCivil 2023 12 31 23 59 59) (mkCivil 2024 1 1 0 0 0) = Lt.
Proof.
  rewrite (civil_order_is_chronological (mkCivil 2023 12 31 23 59 59) (mkCivil 2024 1 1 0 0 0));
    vm_compute; repeat split; discriminate.
Defined.

(** month arithmetic is exact.  [checked_add_months] moves the month index
    by [n], clamps the day to the target month's last day and keeps the time
    of day; it answers [None] exactly when that instant does not fit an [i64]
    epoch, where [add_months] saturates.  No intermediate overflow is visible. *)
Theorem add_months_exact t n (Ht : i64_min <= t <= i64_max) (Hn : i64_min <= n <= i64_max) :
  let target := months_later (from_epoch t) n in
  valid_civil target /\
  checked_add_months t n =
    (if in_i64 (wide_epoch target) then Some (wide_epoch target) else None) /\
  add_months t n =
    (if in_i64 (wide_epoch target) then wide_epoch target else if n <? 0 then i64_min else i64_max) /\
  (in_i64 (wide_epoch target) = true -> from_epoch (add_months t n) = target).
Proof.
  intros target. assert (V : valid_civil target) by apply months_later_valid, from_epoch_valid.
  split; [exact V|]. unfold add_months. rewrite checked_add_months_eq by assumption. cbv zeta.
  fold target. split; [reflexivity|]. split; destruct (in_i64 (wide_epoch target)); try reflexivity.
  - intros _. apply wide_from_epoch, V.
  - discriminate.
Qed.

Lemma add_months_exact_witness :
  add_months 1675123200 1 = 1677542400 /\ add_months 0 (2 ^ 62) = i64_max.
Proof.
  split.
  - destruct (add_months_exact 1675123200 1) as (_ & _ & H & _); [vm_compute; split; discriminate..|].
    rewrite H. vm_compute. reflexivity.
  - destruct (add_months_exact 0 (2 ^ 62)) as (_ & _ & H & _); [vm_compute; split; discriminate..|].
    rewrite H. vm_compute. reflexivity.
Defined.

(** ** Literals and offsets *)

Definition two (v : Z) : list byte := [digit_byte (v / 10); digit_byte (v mod 10)].
Definition four (v : Z) : list byte := two (v / 100) ++ two (v mod 100).

Definition date_text (c : Civil) : list byte :=
  four (c_y c) ++ bs "-" ++ two (c_m c) ++ bs "-" ++ two (c_d c).
Definition time_text (c : Civil) : list byte :=
  two (c_h c) ++ bs ":" ++ two (c_min c) ++ bs ":" ++ two (c_s c).

Lemma num_digits l :
  l <> [] -> Forall (fun b => is_ascii_digit b = true) l -> digits_val 0 l <= i64_max ->
  num l = Some (digits_val 0 l).
Proof.
  intros Hne Hd Hm. unfold num.
  assert (forallb is_ascii_digit l = true) as ->
    by (apply forallb_forall; intros b Hb; rewrite Forall_forall in Hd; apply Hd, list_elem_of_In, Hb).
  destruct l; [contradiction|]. apply parse_digits_val; [lia | exact Hd | exact Hm].
Qed.

Lemma two_digits v : 0 <= v < 100 ->
  Forall (fun b => is_ascii_digit b = true) (two v) /\ forall a, digits_val a (two v) = a * 100 + v.
Proof.
  intros H. split.
  - repeat constructor; apply digit_byte_is_digit; div_lia.
  - intros a. cbn [two digits_val]. rewrite !bz_digit_byte by div_lia. div_lia.
Qed.

Lemma num_two v : 0 <= v < 100 -> num (two v) = Some v.
Proof.
  intros H. destruct (two_digits v H) as [Hd Hv].
  rewrite num_digits; rewrite ?Hv; [f_equal; lia | discriminate | exact Hd | unfold i64_max; lia].
Qed.

Lemma num_four v : 0 <= v < 10000 -> num (four v) = Some v.
Proof.
  intros H. destruct (two_digits (v / 100) ltac:(div_lia)) as [Hd Hv].
  destruct (two_digits (v mod 100) ltac:(div_lia)) as [Hd' Hv'].
  assert (E : digits_val 0 (four v) = v)
    by (unfold four; rewrite digits_val_app, Hv, Hv'; clear; div_lia).
  rewrite num_digits; rewrite ?E; [reflexivity | discriminate | apply Forall_app; auto | unfold i64_max; lia].
Qed.


Lemma small_year_fits c : valid_civil c -> 0 <= c_y c <= 9999 -> in_i64 (wide_epoch c) = true.
Proof.
  intros V Hy. pose proof (day_secs_range c V) as R. destruct V as (Vd & _).
  pose proof (wide_days_bounds _ _ _ Vd) as B. cbv zeta in B. apply in_i64_iff.
  change (wide_epoch c) with (days_from_civil (c_y c) (c_m c) (c_d c) * SECS_PER_DAY + day_secs c).
  unfold i64_min, i64_max, SECS_PER_DAY in *. destruct (c_m c <=? 2); clear Vd; div_lia.
Qed.

(** The fields of a literal, checked and encoded. *)
Definition fields_epoch (y m d h mi s : Z) : option Z :=
  c ← from_date y m d; c ← with_time c h mi s; Some (to_epoch c).

Lemma literal_date a b c d e f g h :
  parse_literal ([a; b; c; d] ++ bs "-" ++ [e; f] ++ bs "-" ++ [g; h]) =
    (y ← num [a; b; c; d]; m ← num [e; f]; dd ← num [g; h];
     fields_epoch y (as_u32 m) (as_u32 dd) 0 0 0).
Proof. reflexivity. Qed.

Lemma literal_date_time a b c d e f g h i j k l o p :
  parse_literal (([a; b; c; d] ++ bs "-" ++ [e; f] ++ bs "-" ++ [g; h]) ++ bs "T" ++
                 [i; j] ++ bs ":" ++ [k; l] ++ bs ":" ++ [o; p]) =
    (y ← num [a; b; c; d]; m ← num [e; f]; dd ← num [g; h];
     t ← (hh ← num [i; j]; mi ← num [k; l]; s ← num [o; p]; Some (as_u32 hh, as_u32 mi, as_u32 s));
     let '(hh, mi, s) := t in
     fields_epoch y (as_u32 m) (as_u32 dd) hh mi s).
Proof. reflexivity. Qed.

Lemma fields_epoch_valid c :
  valid_civil c -> 0 <= c_y c <= 9999 ->
  fields_epoch (c_y c) (c_m c) (c_d c) (c_h c) (c_min c) (c_s c) = Some (wide_epoch c).
Proof.
  intros V Hy. pose proof (small_year_fits c V Hy) as W. destruct c as [y m d h mi s].
  pose proof V as ((Vm & Vd) & Vt). cbn [c_y c_m c_d c_h c_min c_s] in *.
  unfold fields_epoch, from_date.
  destruct (Z.leb_spec 1 m), (Z.leb_spec m 12), (Z.eqb_spec d 0), (Z.ltb_spec (last_day y m) d);
    try lia. cbn [andb negb orb].
  assert (V0 : valid_civil (mkCivil y m d 0 0 0)) by (split; [split; assumption | cbn; lia]).
  rewrite checked_iff, small_year_fits by assumption. cbn [mbind option_bind].
  unfold with_time. cbn [c_y c_m c_d].
  destruct (Z.ltb_spec 23 h), (Z.ltb_spec 59 mi), (Z.ltb_spec 59 s); try lia. cbn [orb].
  rewrite checked_iff, W by exact V. cbn [mbind option_bind].
  rewrite to_epoch_wide by (apply in_i64_iff, W). reflexivity.
Qed.

Lemma fields_epoch_inv y m d h mi s t :
  0 <= d -> 0 <= h -> 0 <= mi -> 0 <= s -> fields_epoch y m d h mi s = Some t ->
  valid_civil (mkCivil y m d h mi s) /\ t = wide_epoch (mkCivil y m d h mi s).
Proof.
  intros Hd Hh Hm Hs H. unfold fields_epoch, from_date, with_time in H.
  destruct (Z.leb_spec 1 m), (Z.leb_spec m 12), (Z.eqb_spec d 0), (Z.ltb_spec (last_day y m) d);
    try discriminate H. cbn [andb negb orb] in H.
  assert (V0 : valid_civil (mkCivil y m d 0 0 0)) by (unfold valid_civil, valid_date; cbn [c_y c_m c_d c_h c_min c_s]; lia).
  rewrite checked_iff in H by exact V0. destruct (in_i64 _); [|discriminate]. cbn [mbind option_bind c_y c_m c_d] in H.
  destruct (Z.ltb_spec 23 h), (Z.ltb_spec 59 mi), (Z.ltb_spec 59 s); try discriminate H. cbn [orb] in H.
  assert (V : valid_civil (mkCivil y m d h mi s)) by (unfold valid_civil, valid_date; cbn [c_y c_m c_d c_h c_min c_s]; lia).
  rewrite checked_iff in H by exact V. destruct (in_i64 _) eqn:E; [|discriminate]. cbn [mbind option_bind] in H.
  injection H as <-. split; [exact V|]. apply to_epoch_wide, in_i64_iff, E.
Qed.

Lemma as_u32_two v : 0 <= v < 100 -> as_u32 v = v.
Proof. intros H. apply as_u32_id. lia. Qed.

Lemma digit_byte_of b : is_ascii_digit b = true -> digit_byte (bz b - 48) = b.
Proof.
  intros H. unfold digit_byte. replace (48 + (bz b - 48)) with (bz b) by lia. apply zb_bz.
Qed.

Lemma num_inv l v : num l = Some v -> Forall (fun b => is_ascii_digit b = true) l /\ v = digits_val 0 l.
Proof.
  unfold num. destruct (non_empty l && forallb is_ascii_digit l) eqn:E; [|discriminate].
  apply andb_true_iff in E as [_ E]. rewrite forallb_forall in E. intros H.
  assert (Hf : Forall (fun b => is_ascii_digit b = true) l)
    by (apply Forall_forall; intros x Hx; apply E, list_elem_of_In, Hx).
  split; [exact Hf|]. revert H. generalize 0. induction Hf as [|b l Hb _ IH]; intros a; cbn [parse_digits digits_val].
  { intros [= <-]. reflexivity. }
  rewrite Hb. cbn [negb].
  destruct (checked_i64 (a * 10)) as [x|] eqn:E1; [|discriminate]. apply checked_i64_Some in E1 as [-> _].
  cbn [mbind option_bind]. destruct (checked_i64 _) as [x|] eqn:E2; [|discriminate].
  apply checked_i64_Some in E2 as [-> _]. cbn [mbind option_bind]. apply IH.
  intros x Hx. apply E. right. exact Hx.
Qed.

Lemma num_two_inv a b v : num [a; b] = Some v -> 0 <= v < 100 /\ [a; b] = two v.
Proof.
  intros H. apply num_inv in H as [Hf ->]. inversion Hf as [|? ? Ha Hf']; subst.
  inversion Hf' as [|? ? Hb _]; subst. cbn [digits_val].
  assert (0 <= bz a - 48 <= 9 /\ 0 <= bz b - 48 <= 9) as [Da Db]
    by (unfold is_ascii_digit in Ha, Hb; apply andb_true_iff in Ha as [? ?], Hb as [? ?];
        rewrite ?Z.leb_le in *; lia).
  rewrite Z.mul_0_l, Z.add_0_l. split; [lia|]. unfold two.
  replace (((bz a - 48) * 10 + (bz b - 48)) / 10) with (bz a - 48) by (clear - Da Db; div_lia).
  replace (((bz a - 48) * 10 + (bz b - 48)) mod 10) with (bz b - 48) by (clear - Da Db; div_lia).
  rewrite !digit_byte_of by assumption. reflexivity.
Qed.

Lemma num_four_inv a b c d v : num [a; b; c; d] = Some v -> 0 <= v < 10000 /\ [a; b; c; d] = four v.
Proof.
  intros H. apply num_inv in H as [Hf ->].
  change [a; b; c; d] with ([a; b] ++ [c; d]) in *. apply Forall_app in Hf as [Hf1 Hf2].
  assert (M : forall l, Forall (fun b => is_ascii_digit b = true) l -> length l = 2%nat ->
                        num l = Some (digits_val 0 l) /\ digits_val 0 l < 100).
  { intros l Hl H2. destruct l as [|x [|z [|]]]; try discriminate.
    assert (B : digits_val 0 [x; z] < 100).
    { inversion Hl as [|? ? Hx Hl']; subst. inversion Hl' as [|? ? Hz _]; subst. cbn [digits_val].
      unfold is_ascii_digit in Hx, Hz. apply andb_true_iff in Hx as [? ?], Hz as [? ?].
      rewrite ?Z.leb_le in *. lia. }
    split; [|exact B]. apply num_digits; [discriminate | exact Hl | unfold i64_max; lia]. }
  destruct (M _ Hf1 eq_refl) as [N1 _], (M _ Hf2 eq_refl) as [N2 _].
  apply num_two_inv in N1 as [R1 E1], N2 as [R2 E2].
  rewrite digits_val_app.
  assert (E : digits_val (digits_val 0 [a; b]) [c; d] = digits_val 0 [a; b] * 100 + digits_val 0 [c; d])
    by (cbn [digits_val]; lia).
  rewrite E. split; [lia|]. unfold four.
  replace ((digits_val 0 [a; b] * 100 + digits_val 0 [c; d]) / 100) with (digits_val 0 [a; b]) by (clear - R1 R2; div_lia).
  replace ((digits_val 0 [a; b] * 100 + digits_val 0 [c; d]) mod 100) with (digits_val 0 [c; d]) by (clear - R1 R2; div_lia).
  rewrite E1, E2 at 1. reflexivity.
Qed.

(** Texts of instants: a date at midnight, or a date and a time. *)
Definition literal_text (c : Civil) (with_t : bool) : list byte :=
  date_text c ++ (if with_t then bs "T" ++ time_text c else []).

Lemma parse_literal_text c (with_t : bool) :
  valid_civil c -> 0 <= c_y c <= 9999 -> (with_t = false -> c_h c = 0 /\ c_min c = 0 /\ c_s c = 0) ->
  parse_literal (literal_text c with_t) = Some (wide_epoch c).
Proof.
  intros V Hy Ht. rewrite <- (fields_epoch_valid c V Hy).
  pose proof V as ((Vm & Vd) & Vh & Vi & Vs). pose proof (last_day_range (c_y c) (c_m c)).
  unfold literal_text, date_text, time_text. destruct with_t.
  - etransitivity; [exact (literal_date_time _ _ _ _ _ _ _ _ _ _ _ _ _ _)|].
    change [digit_byte (c_y c / 100 / 10); _; _; _] with (four (c_y c)).
    repeat change [digit_byte (?v / 10); digit_byte (?v mod 10)] with (two v).
    rewrite num_four, !num_two by lia. cbn [mbind option_bind]. rewrite !as_u32_two by lia. reflexivity.
  - destruct (Ht eq_refl) as (-> & -> & ->). rewrite app_nil_r.
    etransitivity; [exact (literal_date _ _ _ _ _ _ _ _)|].
    change [digit_byte (c_y c / 100 / 10); _; _; _] with (four (c_y c)).
    repeat change [digit_byte (?v / 10); digit_byte (?v mod 10)] with (two v).
    rewrite num_four, !num_two by lia. cbn [mbind option_bind]. rewrite !as_u32_two by lia. reflexivity.
Qed.

Lemma fields_literal y m d h mi s t b with_t :
  0 <= y < 10000 -> 0 <= m < 100 -> 0 <= d < 100 -> 0 <= h < 100 -> 0 <= mi < 100 -> 0 <= s < 100 ->
  fields_epoch y m d h mi s = Some t -> (with_t = false -> h = 0 /\ mi = 0 /\ s = 0) ->
  b = literal_text (mkCivil y m d h mi s) with_t ->
  exists c w, b = literal_text c w /\ valid_civil c /\ 0 <= c_y c <= 9999 /\ t = wide_epoch c /\
              (w = false -> c_h c = 0 /\ c_min c = 0 /\ c_s c = 0).
Proof.
  intros Hy Hm Hd Hh Hi Hs H Hw ->. apply fields_epoch_inv in H as [V ->]; [|lia..].
  exists (mkCivil y m d h mi s), with_t. cbn [c_y c_h c_min c_s].
  split; [reflexivity|]. split; [exact V|]. split; [lia|]. split; [reflexivity | exact Hw].
Qed.

(** A list of known length, element by element. *)
Ltac explode_list b L :=
  repeat (destruct b as [|? b]; [discriminate L|]);
  destruct b; [|exfalso; autorewrite with blen in L; blen_pos; lia].

Ltac as_byte H := apply bool_decide_eq_true in H; cbn in H; injection H as H; subst.

(** The next [num] of a chain succeeded. *)
Ltac num_step H :=
  match type of H with
  | context [num ?l] => destruct (num l) eqn:?; [|discriminate H]; cbn [mbind option_bind] in H
  end.

(** Both shapes as their pieces. *)
Lemma parse_literal_shape b t :
  parse_literal b = Some t ->
  exists p q r rest, b = p ++ bs "-" ++ q ++ bs "-" ++ r ++ rest /\
    length p = 4%nat /\ length q = 2%nat /\ length r = 2%nat /\
    (rest = [] \/ exists i k o, rest = bs "T" ++ i ++ bs ":" ++ k ++ bs ":" ++ o /\
       length i = 2%nat /\ length k = 2%nat /\ length o = 2%nat).
Proof.
  intros H. unfold parse_literal in H.
  destruct (Z.eqb_spec (blen b) 10) as [L|_]; [|destruct (Z.eqb_spec (blen b) 19) as [L|_]; [|discriminate]].
  - cbn [mbind option_bind] in H.
    destruct (byte_at b 4 "-"%byte) eqn:B4; [|discriminate].
    destruct (byte_at b 7 "-"%byte) eqn:B7; [|discriminate]. clear H.
    explode_list b L. as_byte B4. as_byte B7.
    exists [b0; b1; b2; b3], [b5; b6], [b8; b9], []. auto 6.
  - destruct (byte_at b 10 "T"%byte) eqn:BT; [|discriminate]. cbn [mbind option_bind negb] in H.
    destruct (byte_at (slice b 0 10) 4 "-"%byte) eqn:B4; [|discriminate].
    destruct (byte_at (slice b 0 10) 7 "-"%byte) eqn:B7; [|discriminate]. cbn [negb orb] in H.
    destruct (byte_at (from b 11) 2 ":"%byte) eqn:C2.
    2: { unfold parse_time in H. rewrite C2 in H. cbn [negb orb] in H.
         repeat num_step H. discriminate. }
    destruct (byte_at (from b 11) 5 ":"%byte) eqn:C5.
    2: { unfold parse_time in H. rewrite C2, C5 in H. cbn [negb orb] in H.
         repeat num_step H. discriminate. }
    clear H. explode_list b L. as_byte BT. as_byte B4. as_byte B7. as_byte C2. as_byte C5.
    exists [b0; b1; b2; b3], [b5; b6], [b8; b9],
      (bs "T" ++ [b11; b12] ++ bs ":" ++ [b14; b15] ++ bs ":" ++ [b17; b18]). split; [reflexivity|].
    split; [reflexivity|]. split; [reflexivity|]. split; [reflexivity|]. right.
    exists [b11; b12], [b14; b15], [b17; b18]. auto.
Qed.

Ltac two_of l H := destruct l as [|? [|? [|]]]; try discriminate H; clear H.

Lemma parse_literal_inv b t :
  parse_literal b = Some t ->
  exists c w, b = literal_text c w /\ valid_civil c /\ 0 <= c_y c <= 9999 /\ t = wide_epoch c /\
              (w = false -> c_h c = 0 /\ c_min c = 0 /\ c_s c = 0).
Proof.
  intros H. destruct (parse_literal_shape b t H) as (p & q & r & rest & -> & Lp & Lq & Lr & Hrest).
  destruct p as [|p1 [|p2 [|p3 [|p4 [|]]]]]; try discriminate Lp. clear Lp. two_of q Lq. two_of r Lr.
  destruct Hrest as [->|(i & k & o & -> & Li & Lk & Lo)].
  - pose proof (eq_trans (eq_sym (literal_date _ _ _ _ _ _ _ _)) H) as E. clear H.
    destruct (num [p1; p2; p3; p4]) as [y|] eqn:Ny; [|discriminate]. cbn [mbind option_bind] in E.
    destruct (num [b; b0]) as [m|] eqn:Nm; [|discriminate]. cbn [mbind option_bind] in E.
    destruct (num [b1; b2]) as [d|] eqn:Nd; [|discriminate]. cbn [mbind option_bind] in E.
    apply num_four_inv in Ny as [Ry Ey]. apply num_two_inv in Nm as [Rm Em]. apply num_two_inv in Nd as [Rd Ed].
    rewrite !as_u32_two in E by lia.
    apply (fields_literal y m d 0 0 0 t _ false) with (7 := E); try lia.
    unfold literal_text, date_text. cbn [c_y c_m c_d]. rewrite Ey, Em, Ed, <- !app_assoc. reflexivity.
  - two_of i Li. two_of k Lk. two_of o Lo.
    pose proof (eq_trans (eq_sym (literal_date_time _ _ _ _ _ _ _ _ _ _ _ _ _ _)) H) as E. clear H.
    destruct (num [p1; p2; p3; p4]) as [y|] eqn:Ny; [|discriminate]. cbn [mbind option_bind] in E.
    destruct (num [b; b0]) as [m|] eqn:Nm; [|discriminate]. cbn [mbind option_bind] in E.
    destruct (num [b1; b2]) as [d|] eqn:Nd; [|discriminate]. cbn [mbind option_bind] in E.
    destruct (num [b3; b4]) as [h|] eqn:Nh; [|discriminate]. cbn [mbind option_bind] in E.
    destruct (num [b5; b6]) as [mi|] eqn:Ni; [|discriminate]. cbn [mbind option_bind] in E.
    destruct (num [b7; b8]) as [s|] eqn:Ns; [|discriminate]. cbn [mbind option_bind] in E.
    apply num_four_inv in Ny as [Ry Ey]. apply num_two_inv in Nm as [Rm Em]. apply num_two_inv in Nd as [Rd Ed].
    apply num_two_inv in Nh as [Rh Eh]. apply num_two_inv in Ni as [Ri Ei]. apply num_two_inv in Ns as [Rs Es].
    rewrite !as_u32_two in E by lia.
    apply (fields_literal y m d h mi s t _ true) with (7 := E); try lia; try discriminate.
    unfold literal_text, date_text, time_text. cbn [c_y c_m c_d c_h c_min c_s].
    rewrite Ey, Em, Ed, Eh, Ei, Es, <- !app_assoc. reflexivity.
Qed.

(** date literals are read exactly.  [eval] of [@] and a text that is not
    [now...] succeeds precisely on [YYYY-MM-DD] and [YYYY-MM-DDThh:mm:ss] texts
    of real dates and times, and answers the instant whose civil fields
    [from_epoch] gives back. *)
Theorem eval_literal text now t (Hnow : strip_prefix (bs "now") text = None) :
  eval (bs "@" ++ text) now = Some t <->
  exists c w, text = literal_text c w /\ valid_civil c /\ 0 <= c_y c <= 9999 /\
              (w = false -> c_h c = 0 /\ c_min c = 0 /\ c_s c = 0) /\
              t = wide_epoch c /\ from_epoch t = c.
Proof.
  change (eval (bs "@" ++ text) now)
    with (match strip_prefix (bs "now") text with Some rest => eval_now rest now | None => parse_literal text end).
  rewrite Hnow. split.
  - intros H. destruct (parse_literal_inv _ _ H) as (c & w & -> & V & Hy & -> & Hw).
    exists c, w. auto 8 using wide_from_epoch.
  - intros (c & w & -> & V & Hy & Hw & -> & _). apply parse_literal_text; assumption.
Qed.

Lemma eval_literal_witness :
  eval (bs "@2024-02-29T23:59:59") 5 = Some 1709251199.
Proof.
  change (bs "@2024-02-29T23:59:59") with (bs "@" ++ bs "2024-02-29T23:59:59").
  apply (eval_literal (bs "2024-02-29T23:59:59") 5 1709251199); [reflexivity|].
  exists (mkCivil 2024 2 29 23 59 59), true. vm_compute. repeat split; discriminate.
Defined.

(** *** Offsets from now *)

Lemma count_digits_app ds r :
  Forall (fun b => is_ascii_digit b = true) ds ->
  match r with b :: _ => is_ascii_digit b = false | [] => True end ->
  count_digits (ds ++ r) = length ds.
Proof.
  intros Hd Hr. induction Hd as [|b ds Hb _ IH]; cbn [app count_digits length].
  - destruct r as [|b r]; [reflexivity|]. cbn. rewrite Hr. reflexivity.
  - rewrite Hb, IH. reflexivity.
Qed.

(** The seconds in a fixed unit, and the months in a calendar unit. *)
Definition unit_secs (u : list byte) : option Z :=
  if bool_decide (u = bs "s") then Some 1
  else if bool_decide (u = bs "m") then Some 60
  else if bool_decide (u = bs "h") then Some 3600
  else if bool_decide (u = bs "d") then Some 86400
  else if bool_decide (u = bs "w") then Some 604800
  else None.

Definition unit_months (u : list byte) : option Z :=
  if bool_decide (u = bs "mo") then Some 1 else if bool_decide (u = bs "y") then Some 12 else None.

Lemma shift_eq now sign n unit :
  sign = 1 \/ sign = -1 -> 0 <= n -> 0 < unit ->
  shift now sign n unit = if n * unit <=? i64_max then checked_i64 (now + sign * (n * unit)) else None.
Proof.
  intros Hs Hn Hu. unfold shift. assert (0 <= n * unit) by (apply Z.mul_nonneg_nonneg; lia).
  destruct (Z.leb_spec (n * unit) i64_max).
  - rewrite checked_i64_ok by (unfold i64_min, i64_max in *; lia). cbn [mbind option_bind].
    rewrite checked_i64_ok by (unfold i64_min, i64_max in *; destruct Hs as [-> | ->]; lia). reflexivity.
  - rewrite (proj2 (checked_i64_None (n * unit))) by lia. reflexivity.
Qed.

(** offset bounds are exact or refused.  [@now+<n><unit>] and
    [@now-<n><unit>] move [now] by [n] times the unit's seconds, or by calendar
    months for [mo] and [y], and answer [None] when the offset or the result
    leaves [i64], and for any other unit. *)
Theorem eval_offset (plus : bool) n u now (Hn : 0 <= n <= i64_max)
  (Hu : match u with b :: _ => is_ascii_digit b = false | [] => True end) :
  let sign := if plus then 1 else -1 in
  eval (bs "@now" ++ (if plus then "+"%byte else "-"%byte) :: dec n ++ u) now =
    match unit_secs u, unit_months u with
    | Some k, _ => if n * k <=? i64_max then checked_i64 (now + sign * (n * k)) else None
    | None, Some k => if n * k <=? i64_max then checked_add_months now (sign * (n * k)) else None
    | None, None => None
    end.
Proof.
  intros sign. pose proof (dec_digits n ltac:(lia)) as Hd. pose proof (dec_nonempty n ltac:(lia)) as Hne.
  assert (Hv : parse_digits 0 (dec n) = Some n).
  { assert (Ev : digits_val 0 (dec n) = n) by (apply dec_val; unfold i64_max in Hn; lia).
    rewrite parse_digits_val, Ev by (rewrite ?Ev; auto; lia). reflexivity. }
  change (eval (bs "@now" ++ ?c :: ?r) now) with (eval_now (c :: r) now). unfold eval_now.
  assert (Hsg : sign = 1 \/ sign = -1) by (subst sign; destruct plus; auto).
  replace (if (if plus then "+"%byte else "-"%byte) =b "+"%byte then Some 1
           else if (if plus then "+"%byte else "-"%byte) =b "-"%byte then Some (-1) else None)
    with (Some sign) by (subst sign; destruct plus; reflexivity).
  cbn [mbind option_bind]. rewrite count_digits_app by assumption.
  destruct (Nat.eqb_spec (length (dec n)) 0) as [E|_]; [destruct (dec n); [contradiction | discriminate]|].
  rewrite take_app_length, drop_app_length, Hv. cbn [mbind option_bind]. unfold unit_secs, unit_months.
  repeat match goal with |- context [bool_decide (u = ?x)] => destruct (bool_decide (u = x)) end;
    rewrite ?shift_eq by (auto; unfold SECS_PER_DAY; lia); unfold SECS_PER_DAY; try reflexivity.
  - rewrite Z.mul_1_r. destruct (Z.leb_spec n i64_max); [reflexivity | lia].
  - rewrite Z.mul_1_r. destruct (Z.leb_spec n i64_max); [|lia].
    rewrite checked_i64_ok by (unfold i64_min, i64_max in *; destruct Hsg as [-> | ->]; lia). reflexivity.
  - destruct (Z.leb_spec (n * 12) i64_max).
    + rewrite checked_i64_ok by (unfold i64_min; lia). cbn [mbind option_bind].
      rewrite checked_i64_ok by (unfold i64_min, i64_max in *; destruct Hsg as [-> | ->]; lia). reflexivity.
    + rewrite (proj2 (checked_i64_None (n * 12))) by lia. reflexivity.
Qed.

Lemma eval_offset_witness : eval (bs "@now-90m") 5400 = Some 0.
Proof.
  change (bs "@now-90m") with (bs "@now" ++ "-"%byte :: dec 90 ++ bs "m").
  rewrite (eval_offset false 90 (bs "m") 5400); [reflexivity | vm_compute; split; discriminate | reflexivity].
Defined.
