(* ===== verification/ElectWire.v ===== *)
(** * Election messages on the wire ([crates/kevy-elect/src/message.rs], [wire.rs])

    The four control messages, their RESP2 encoding and the decoder, which
    reads frames with the zero-copy request parser.  A [String] is the list of
    its UTF-8 bytes. *)

From Stdlib Require Import ZArith Lia Bool Strings.Byte Strings.String.
From stdpp Require Import base list.
From S2P Require Import Prelude Utf8 FindCrlf Argv Encode Request RequestBorrowed.

#[local] Open Scope list_scope.
#[local] Open Scope Z_scope.
#[local] Open Scope kevy_scope.

Definition id : Type := list byte.

Inductive Role : Type := Primary | Replica | Candidate.

#[global] Instance Role_eq_dec : EqDecision Role.
Proof. solve_decision. Defined.

Inductive Message : Type :=
| Hb (epoch : Z) (node_id : id) (role : Role) (repl_offset : Z)
| Offer (new_epoch : Z) (candidate_id : id) (repl_offset : Z)
| Accept (epoch : Z) (accepter_id : id)
| Announce (epoch : Z) (new_primary_id : id) (new_primary_addr : list byte).

#[global] Instance Message_eq_dec : EqDecision Message.
Proof. solve_decision. Defined.

Definition role_as_str (r : Role) : list byte :=
  match r with
  | Primary => bs "primary"
  | Replica => bs "replica"
  | Candidate => bs "candidate"
  end.

Definition role_parse (s : list byte) : option Role :=
  if eq_ignore_ascii_case s (bs "primary") then Some Primary
  else if eq_ignore_ascii_case s (bs "replica") then Some Replica
  else if eq_ignore_ascii_case s (bs "candidate") then Some Candidate
  else None.

(** ** Encoding *)

(** [n.to_string()] and [format!("{n}")] of an unsigned integer are [dec n]. *)
Definition push_bulk_array (out : list byte) (n : Z) : list byte := out ++ bs "*" ++ dec n ++ CRLF.

Definition push_bulk (out data : list byte) : list byte :=
  out ++ (bs "$" ++ dec (blen data) ++ CRLF) ++ data ++ CRLF.

Definition message_encode (m : Message) : list byte :=
  match m with
  | Hb epoch node_id role repl_offset =>
      let out := push_bulk_array [] 5 in
      let out := push_bulk out (bs "HB") in
      let out := push_bulk out (dec epoch) in
      let out := push_bulk out node_id in
      let out := push_bulk out (role_as_str role) in
      push_bulk out (dec repl_offset)
  | Offer new_epoch candidate_id repl_offset =>
      let out := push_bulk_array [] 4 in
      let out := push_bulk out (bs "OFFER") in
      let out := push_bulk out (dec new_epoch) in
      let out := push_bulk out candidate_id in
      push_bulk out (dec repl_offset)
  | Accept epoch accepter_id =>
      let out := push_bulk_array [] 3 in
      let out := push_bulk out (bs "ACCEPT") in
      let out := push_bulk out (dec epoch) in
      push_bulk out accepter_id
  | Announce epoch new_primary_id new_primary_addr =>
      let out := push_bulk_array [] 4 in
      let out := push_bulk out (bs "ANNOUNCE") in
      let out := push_bulk out (dec epoch) in
      let out := push_bulk out new_primary_id in
      push_bulk out new_primary_addr
  end.

(** ** Decoding *)

Inductive DecodeError : Type := Truncated | Bad | WrongShape | BadNumeric | BadRole.

(** [Result<A, DecodeError>], and a panic. *)
Inductive decoded (A : Type) : Type :=
| Ok (a : A)
| Err (e : DecodeError)
| Crash.
Arguments Ok {A} a.
Arguments Err {A} e.
Arguments Crash {A}.

#[global] Instance decoded_bind : MBind decoded := fun A B f m =>
  match m with Ok a => f a | Err e => Err e | Crash => Crash end.

(** [str::parse::<u64>]: an optional [+], then digits that fit. *)
Fixpoint u64_digits (acc : Z) (l : list byte) : option Z :=
  match l with
  | [] => Some acc
  | b :: r =>
      if negb (is_ascii_digit b) then None
      else let a := acc * 10 + (bz b - 48) in
           if a <=? u64_max then u64_digits a r else None
  end.

Definition u64_from_str (s : list byte) : option Z :=
  match s with
  | [] => None
  | b :: r => if b =b "+"%byte then match r with [] => None | _ => u64_digits 0 r end
              else u64_digits 0 s
  end.

Definition parse_u64 (b : list byte) : decoded Z :=
  if negb (is_utf8 b) then Err BadNumeric
  else match u64_from_str b with Some n => Ok n | None => Err BadNumeric end.

Definition parse_string (b : list byte) : list byte := from_utf8_lossy b.

(** [&argv[i]] *)
Definition arg (argv : ArgvBorrowed) (i : Z) : decoded (list byte) :=
  match ab_get argv i with Ret (Some x) => Ok x | _ => Crash end.

Definition expect_len (argv : ArgvBorrowed) (n : Z) : decoded unit :=
  if negb (ab_len argv =? n) then Err WrongShape else Ok tt.

Definition parse_argv_for_verb (verb : list byte) (argv : ArgvBorrowed) : decoded Message :=
  if eq_ignore_ascii_case verb (bs "HB") then
    _ ← expect_len argv 5;
    a ← arg argv 1; epoch ← parse_u64 a;
    a ← arg argv 2; let node_id := parse_string a in
    a ← arg argv 3; role ← match role_parse a with Some r => Ok r | None => Err BadRole end;
    a ← arg argv 4; repl_offset ← parse_u64 a;
    Ok (Hb epoch node_id role repl_offset)
  else if eq_ignore_ascii_case verb (bs "OFFER") then
    _ ← expect_len argv 4;
    a ← arg argv 1; new_epoch ← parse_u64 a;
    a ← arg argv 2; let candidate_id := parse_string a in
    a ← arg argv 3; repl_offset ← parse_u64 a;
    Ok (Offer new_epoch candidate_id repl_offset)
  else if eq_ignore_ascii_case verb (bs "ACCEPT") then
    _ ← expect_len argv 3;
    a ← arg argv 1; epoch ← parse_u64 a;
    a ← arg argv 2; Ok (Accept epoch (parse_string a))
  else if eq_ignore_ascii_case verb (bs "ANNOUNCE") then
    _ ← expect_len argv 4;
    a ← arg argv 1; epoch ← parse_u64 a;
    a ← arg argv 2; let new_primary_id := parse_string a in
    a ← arg argv 3; Ok (Announce epoch new_primary_id (parse_string a))
  else Err WrongShape.

Section Decode.
Context `{Scan : CrlfScanner}.

Definition message_decode (buf : list byte) : decoded (Message * Z) :=
  p ← match parse_command_borrowed buf with
      | Done p => Ok p
      | NeedMore => Err Truncated
      | Malformed _ => Err Bad
      | Panicked => Crash
      end;
  let '(argv, used) := p in
  verb ← match ab_get argv 0 with
         | Ret (Some v) => Ok v
         | Ret None => Err WrongShape
         | Panic => Crash
         end;
  msg ← parse_argv_for_verb verb argv;
  Ok (msg, used).
End Decode.

(** ** Round trip *)

(** The arguments a message is written as. *)
Definition message_args (m : Message) : list (list byte) :=
  match m with
  | Hb e n r o => [bs "HB"; dec e; n; role_as_str r; dec o]
  | Offer e c o => [bs "OFFER"; dec e; c; dec o]
  | Accept e a => [bs "ACCEPT"; dec e; a]
  | Announce e p a => [bs "ANNOUNCE"; dec e; p; a]
  end.

Lemma message_encode_args m : message_encode m = command_bytes (message_args m).
Proof.
  destruct m; unfold message_encode, push_bulk, push_bulk_array, command_bytes, message_args,
    array_header, bulk_bytes; cbn [fmap list_fmap concat];
    rewrite <- !app_assoc, ?app_nil_r; reflexivity.
Qed.

Lemma u64_digits_val l : forall acc,
  0 <= acc -> Forall (fun b => is_ascii_digit b = true) l -> digits_val acc l <= u64_max ->
  u64_digits acc l = Some (digits_val acc l).
Proof.
  induction l as [|b l IH]; intros acc Ha Hf Hm; cbn [u64_digits digits_val] in *; [reflexivity|].
  inversion Hf as [|? ? Hb Hf']; subst. rewrite Hb. cbn [negb].
  pose proof (digit_val_range b Hb) as Hd.
  pose proof (digits_val_ge l (acc * 10 + (bz b - 48)) ltac:(lia) Hf') as Hle.
  destruct (Z.leb_spec (acc * 10 + (bz b - 48)) u64_max); [|lia]. apply IH; [lia | exact Hf' | exact Hm].
Qed.

Lemma ascii_utf8 l : Forall (fun b => is_ascii_digit b = true) l -> is_utf8 l = true.
Proof.
  induction 1 as [|b l Hb _ IH]; [reflexivity|]. cbn [is_utf8].
  pose proof (digit_val_range b Hb). destruct (Z.ltb_spec (bz b) 128); [exact IH | lia].
Qed.

Lemma parse_u64_dec n : 0 <= n <= u64_max -> parse_u64 (dec n) = Ok n.
Proof.
  intros H. pose proof (dec_digits n ltac:(lia)) as Hd. pose proof (dec_nonempty n ltac:(lia)) as Hne.
  assert (Hv : digits_val 0 (dec n) = n) by (apply dec_val; unfold u64_max in H; lia).
  unfold parse_u64. rewrite ascii_utf8 by exact Hd. cbn [negb].
  assert (E : u64_from_str (dec n) = u64_digits 0 (dec n)).
  { unfold u64_from_str. destruct (dec n) as [|b r]; [contradiction|].
    inversion Hd as [|? ? Hb _]; subst. destruct (digit_not_sign b Hb) as (_ & Hp & _).
    destruct (byte_eqb_spec b "+"%byte); [contradiction | reflexivity]. }
  rewrite E, u64_digits_val by (rewrite ?Hv; auto; lia). rewrite Hv. reflexivity.
Qed.

(** Messages a node sends: [u64] numbers, UTF-8 strings within the bulk limit. *)
Definition string_ok (s : list byte) : Prop := is_utf8 s = true /\ blen s <= MAX_BULK_LEN.
Definition u64_ok (n : Z) : Prop := 0 <= n <= u64_max.

Definition message_ok (m : Message) : Prop :=
  match m with
  | Hb e n _ o => u64_ok e /\ string_ok n /\ u64_ok o
  | Offer e c o => u64_ok e /\ string_ok c /\ u64_ok o
  | Accept e a => u64_ok e /\ string_ok a
  | Announce e p a => u64_ok e /\ string_ok p /\ string_ok a
  end.

Lemma dec_len n : 0 <= n <= u64_max -> blen (dec n) <= MAX_BULK_LEN.
Proof.
  intros H. unfold dec. destruct (n =? 0); [vm_compute; discriminate|].
  pose proof (dec_acc_len 20 n []) as L. unfold blen, MAX_BULK_LEN in *. cbn [length] in L. lia.
Qed.

Lemma message_args_ok m :
  message_ok m ->
  message_args m <> [] /\ blen (message_args m) <= MAX_MULTIBULK_LEN /\
  Forall (fun x => blen x <= MAX_BULK_LEN) (message_args m).
Proof.
  intros H. assert (Hr : forall r, blen (role_as_str r) <= MAX_BULK_LEN)
    by (intros []; vm_compute; discriminate).
  destruct m; cbn [message_args message_ok] in *; unfold string_ok, u64_ok in H; (split; [discriminate|]);
    (split; [reflexivity || (unfold blen; cbn [length]; vm_compute; discriminate)|]);
    repeat (apply Forall_cons; split); try apply Forall_nil, I;
    first [solve [apply dec_len; tauto] | apply Hr | tauto | (vm_compute; discriminate)].
Qed.

(** A parsed frame's view gives its arguments. *)
Lemma view_args v args (k : nat) :
  total_len args < 2 ^ 32 -> view_of v (argv_from args) ->
  ab_len v = blen args /\ ab_get v (Z.of_nat k) = Ret (args !! k).
Proof.
  intros Ht (rs & Hh & Ha). apply argv_from_inj in Ha; [|exact Ht]. subst args.
  split; [|apply ab_holds_get, Hh].
  destruct Hh as [(Hn & _) _]. unfold ab_len, ab_args. rewrite Hn. unfold blen. rewrite length_fmap. reflexivity.
Qed.

Lemma total_len_command args rest : total_len args <= blen (command_bytes args ++ rest).
Proof.
  unfold command_bytes. rewrite !blen_app. pose proof (blen_nonneg (array_header (blen args))).
  pose proof (blen_nonneg rest).
  assert (H' : total_len args <= blen (concat (bulk_bytes <$> args))); [|lia].
  induction args as [|x args IH]; [reflexivity|]. rewrite total_len_cons. cbn [fmap list_fmap concat].
  change (list_fmap _ _ bulk_bytes args) with (bulk_bytes <$> args). rewrite blen_app.
  pose proof (blen_nonneg (array_header (blen args))) as Hh.
  assert (blen x <= blen (bulk_bytes x)) by (unfold bulk_bytes; blen_lia). specialize (IH Hh). lia.
Qed.

Section RoundTrip.
Context `{Scan : CrlfScanner}.

Lemma parse_argv_args m v :
  message_ok m -> total_len (message_args m) < 2 ^ 32 -> view_of v (argv_from (message_args m)) ->
  exists verb, ab_get v 0 = Ret (Some verb) /\ parse_argv_for_verb verb v = Ok m.
Proof.
  intros Hm Ht Hv. pose proof (fun k => view_args v (message_args m) k Ht Hv) as H.
  destruct (H O) as [Hl H0]. destruct (H 1%nat) as [_ H1]. destruct (H 2%nat) as [_ H2].
  destruct (H 3%nat) as [_ H3]. destruct (H 4%nat) as [_ H4]. clear H Hv Ht.
  change (Z.of_nat 0) with 0 in H0. change (Z.of_nat 1) with 1 in H1. change (Z.of_nat 2) with 2 in H2.
  change (Z.of_nat 3) with 3 in H3. change (Z.of_nat 4) with 4 in H4.
  assert (Hr : forall r, role_parse (role_as_str r) = Some r) by (intros []; reflexivity).
  destruct m; cbn [message_args] in *; cbn [lookup list_lookup] in *; unfold message_ok, string_ok, u64_ok in Hm;
    eexists; (split; [exact H0|]); unfold parse_argv_for_verb, expect_len, arg;
    repeat match goal with |- context [eq_ignore_ascii_case (bs ?x) (bs ?y)] =>
      let v := eval vm_compute in (eq_ignore_ascii_case (bs x) (bs y)) in
      change (eq_ignore_ascii_case (bs x) (bs y)) with v end;
    rewrite Hl; unfold blen; cbn [length]; cbv iota;
    match goal with |- context [negb ?b] => change (negb b) with false end;
    rewrite H1, H2, ?H3, ?H4; cbn [mbind decoded_bind];
    rewrite ?parse_u64_dec, ?Hr by tauto; cbn [mbind decoded_bind];
    unfold parse_string; rewrite ?from_utf8_lossy_valid by tauto;
    rewrite ?parse_u64_dec by tauto; reflexivity.
Qed.

(** every election message a node can send (numbers in [u64], UTF-8
    strings within the bulk limit) is decoded to itself by [Message::decode],
    whatever follows it in the buffer (under 4 GiB), and exactly its bytes are
    consumed. *)
Theorem message_roundtrip m rest (Hm : message_ok m)
  (Hb : blen (message_encode m ++ rest) < 2 ^ 32) :
  message_decode (message_encode m ++ rest) = Ok (m, blen (message_encode m)).
Proof.
  rewrite message_encode_args in *. destruct (message_args_ok m Hm) as (Hne & Hn & Hf).
  destruct (borrowed_canonical (message_args m) rest Hne Hn Hf Hb) as (v & Hd & Hv).
  pose proof (total_len_command (message_args m) rest).
  destruct (parse_argv_args m v Hm ltac:(lia) Hv) as (verb & H0 & Hp).
  unfold message_decode. rewrite Hd. cbn [mbind decoded_bind]. rewrite H0. cbn [mbind decoded_bind].
  rewrite Hp. reflexivity.
Qed.

Lemma parse_u64_total b : parse_u64 b <> Crash.
Proof.
  unfold parse_u64. destruct (negb (is_utf8 b)); [discriminate|]. destruct (u64_from_str b); discriminate.
Qed.

Lemma arg_total v rs i : ab_holds v rs -> 0 <= i < ab_len v -> exists x, arg v i = Ok x.
Proof.
  intros Hh Hi. unfold arg. replace i with (Z.of_nat (Z.to_nat i)) by lia.
  rewrite (ab_holds_get v rs _ Hh). destruct Hh as [(Hn & _) _].
  destruct (lookup_lt_is_Some_2 (ab_args (ab_input v) rs) (Z.to_nat i)) as [x Hx]; [|rewrite Hx; eauto].
  unfold ab_args. rewrite length_fmap. unfold ab_len in Hi. rewrite Hn in Hi. unfold blen in Hi. lia.
Qed.

Lemma parse_argv_total verb v rs : ab_holds v rs -> parse_argv_for_verb verb v <> Crash.
Proof.
  intros Hh. unfold parse_argv_for_verb, expect_len.
  assert (A : forall n k (f : list byte -> decoded Message), ab_len v = n -> 0 <= k < n ->
              (forall x, f x <> Crash) -> (x ← arg v k; f x) <> Crash).
  { intros n k f Hn Hk Hf. destruct (arg_total v rs k Hh ltac:(lia)) as [x ->]. apply Hf. }
  assert (U : forall x (f : Z -> decoded Message), (forall n, f n <> Crash) -> (n ← parse_u64 x; f n) <> Crash).
  { intros x f Hf. pose proof (parse_u64_total x). destruct (parse_u64 x); [apply Hf | discriminate | contradiction]. }
  repeat match goal with
  | |- (if eq_ignore_ascii_case _ _ then _ else _) <> _ => destruct (eq_ignore_ascii_case _ _)
  | |- Err _ <> _ => discriminate
  | |- Ok _ <> _ => discriminate
  | |- context [negb (ab_len v =? ?n)] =>
      destruct (Z.eqb_spec (ab_len v) n); cbn [negb]; [cbn [mbind decoded_bind] | discriminate]
  | E : ab_len v = ?n |- (_ ← arg v _; _) <> _ => apply (A n); [exact E | lia | intros ?]
  | |- (_ ← parse_u64 _; _) <> _ => apply U; intros ?
  | |- context [role_parse ?x] => destruct (role_parse x); cbn [mbind decoded_bind]
  end.
Qed.

(** decoding never panics: on every buffer under 4 GiB [Message::decode]
    returns a message or one of its errors (no argument access is out of
    range), and a returned message used at most the buffer. *)
Theorem message_decode_total buf (Hb : blen buf < 2 ^ 32) :
  message_decode buf <> Crash /\
  forall m n, message_decode buf = Ok (m, n) -> 0 < n <= blen buf.
Proof.
  unfold message_decode. pose proof (parse_command_borrowed_agrees buf Hb) as Ha.
  destruct (parse_command_borrowed buf) as [[v n]| |e|]; cbn [agrees mbind decoded_bind] in *;
    [| split; discriminate | split; discriminate | contradiction].
  rewrite app_nil_r in Ha. destruct Ha as (a & Ho & rs & Hh & Ea).
  pose proof (ab_holds_get v rs 0 Hh) as H0. change (Z.of_nat 0) with 0 in H0. rewrite H0.
  destruct (ab_args (ab_input v) rs !! 0%nat) as [verb|]; cbn [mbind decoded_bind]; [|split; discriminate].
  pose proof (parse_argv_total verb v rs Hh) as Ht.
  destruct (parse_argv_for_verb verb v) as [m| |]; cbn [mbind decoded_bind]; [| split; discriminate | contradiction].
  split; [discriminate|]. intros m' n' [= _ <-].
  unfold parse_command in Ho. destruct (parse_command_into buf argv_default) as [r a'] eqn:E.
  destruct r; try discriminate. injection Ho as -> ->. exact (command_pos buf argv_default n a E).
Qed.
End RoundTrip.

Lemma message_roundtrip_witness :
  let m := Hb 3 (bs "n1") Replica 42 in
  message_decode (Scan := scanner_on (X86_64 false)) (message_encode m ++ bs "*2") =
    Ok (m, blen (message_encode m)).
Proof.
  apply (message_roundtrip (Scan := scanner_on (X86_64 false)) (Hb 3 (bs "n1") Replica 42) (bs "*2"));
    vm_compute; repeat split; discriminate.
Defined.

Lemma message_decode_total_witness :
  message_decode (Scan := scanner_on (X86_64 false)) (bs "*1") <> Crash.
Proof. apply (message_decode_total (Scan := scanner_on (X86_64 false)) (bs "*1")). reflexivity. Defined.
