(* ===== verification/Elector.v ===== *)
(** * The election state machine ([crates/kevy-elect/src/elector.rs],
    [elector_tick.rs], [elector_inbound.rs], [config.rs], [persist.rs])

    One node of the election: heartbeats, failure detection, candidacy, votes
    and announcements.  [Instant] and [Duration] are nanoseconds in [Z];
    [duration_since] saturates at zero.  A handler takes the node's state and
    returns the new state and the messages to send.

    The persistence backend is the interface [ElectorPersist]; what a durable
    backend promises is [DurablePersist].  [NoPersist] implements the first
    and not the second. *)

From Stdlib Require Import ZArith Lia Bool Strings.Byte Strings.String.
From stdpp Require Import base list gmap.
From S2P Require Import Prelude ElectWire.

#[local] Open Scope list_scope.
#[local] Open Scope Z_scope.
#[local] Open Scope kevy_scope.

(** ** Configuration *)

Record ElectConfig := mkElectConfig {
  hb_interval : Z;
  down_after : Z;
  election_timeout : Z;
  election_backoff : Z;
  election_backoff_jitter : Z
}.

Definition ms : Z := 1000000.
Definition secs : Z := 1000 * ms.

Definition config_default : ElectConfig :=
  mkElectConfig (200 * ms) (5 * secs) (3 * secs) (1 * secs) (4 * secs).

Inductive ElectJitter : Type := Fixed (d : Z) | System.

(** [h.wrapping_mul(..) ^ byte] over the node id. *)
Definition jitter_hash (node_id : id) : Z :=
  fold_left (fun h b => Z.lxor (h * 1099511628211 mod 2 ^ 64) (bz b)) node_id 1469598103934665603.

Definition jitter_sample (j : ElectJitter) (max now : Z) (node_id : id) : Z :=
  match j with
  | Fixed d => Z.min d max
  | System => let span_ns := Z.max max 1 mod 2 ^ 64 in jitter_hash node_id mod span_ns
  end.

(** ** Persistence *)

Class ElectorPersist (P : Type) := {
  save : P -> Z -> option id -> P;
  load : P -> Z * option id
}.

(** [save] returns once the pair is durable: [load] gives the pair last saved. *)
Class DurablePersist (P : Type) `{ElectorPersist P} :=
  load_save : forall p e v, load (save p e v) = (e, v).

(** The no-op backend. *)
Inductive NoPersist : Type := noPersist.
#[global] Instance no_persist : ElectorPersist NoPersist :=
  {| save := fun p _ _ => p; load := fun _ => (0, None) |}.

(** A file holding the pair ([elect.meta]); [(0, None)] before the first save. *)
Definition Disk : Type := Z * option id.
#[global] Instance disk_persist : ElectorPersist Disk :=
  {| save := fun _ e v => (e, v); load := fun p => p |}.
#[global] Instance disk_durable : DurablePersist Disk.
Proof. intros p e v. reflexivity. Qed.

(** ** State *)

Record PeerView := mkPeerView {
  last_seen : Z;
  last_epoch : Z;
  last_role : Role;
  last_repl_offset : Z
}.

Record Outbound := mkOutbound { to : id; msg : Message }.

Definition BROADCAST : id := bs "*".

Record Elector (P : Type) := mkElector {
  node_id : id;
  peer_ids : list id;
  config : ElectConfig;
  role : Role;
  epoch : Z;
  current_primary : option id;
  first_tick : option Z;
  my_repl_offset : Z;
  last_hb_sent : gmap id Z;
  peer_views : gmap id PeerView;
  accept_votes : gset id;
  offer_at : option Z;
  backoff_until : option Z;
  last_accept_epoch : option Z;
  my_advertised_addr : list byte;
  jitter : ElectJitter;
  persist : P
}.
Arguments node_id {P}.
Arguments peer_ids {P}.
Arguments config {P}.
Arguments role {P}.
Arguments epoch {P}.
Arguments current_primary {P}.
Arguments first_tick {P}.
Arguments my_repl_offset {P}.
Arguments last_hb_sent {P}.
Arguments peer_views {P}.
Arguments accept_votes {P}.
Arguments offer_at {P}.
Arguments backoff_until {P}.
Arguments last_accept_epoch {P}.
Arguments my_advertised_addr {P}.
Arguments jitter {P}.
Arguments persist {P}.
Arguments mkElector {P}.

(** Field updates. *)
Definition set_role {P : Type} (x : Role) (e : Elector P) : Elector P :=
  mkElector (node_id e) (peer_ids e) (config e) x (epoch e) (current_primary e) (first_tick e)
    (my_repl_offset e) (last_hb_sent e) (peer_views e) (accept_votes e) (offer_at e)
    (backoff_until e) (last_accept_epoch e) (my_advertised_addr e) (jitter e) (persist e).
Definition set_epoch {P : Type} (x : Z) (e : Elector P) : Elector P :=
  mkElector (node_id e) (peer_ids e) (config e) (role e) x (current_primary e) (first_tick e)
    (my_repl_offset e) (last_hb_sent e) (peer_views e) (accept_votes e) (offer_at e)
    (backoff_until e) (last_accept_epoch e) (my_advertised_addr e) (jitter e) (persist e).
Definition set_current_primary {P : Type} (x : option id) (e : Elector P) : Elector P :=
  mkElector (node_id e) (peer_ids e) (config e) (role e) (epoch e) x (first_tick e) (my_repl_offset e)
    (last_hb_sent e) (peer_views e) (accept_votes e) (offer_at e) (backoff_until e)
    (last_accept_epoch e) (my_advertised_addr e) (jitter e) (persist e).
Definition set_first_tick {P : Type} (x : option Z) (e : Elector P) : Elector P :=
  mkElector (node_id e) (peer_ids e) (config e) (role e) (epoch e) (current_primary e) x
    (my_repl_offset e) (last_hb_sent e) (peer_views e) (accept_votes e) (offer_at e)
    (backoff_until e) (last_accept_epoch e) (my_advertised_addr e) (jitter e) (persist e).
Definition set_my_repl_offset {P : Type} (x : Z) (e : Elector P) : Elector P :=
  mkElector (node_id e) (peer_ids e) (config e) (role e) (epoch e) (current_primary e) (first_tick e)
    x (last_hb_sent e) (peer_views e) (accept_votes e) (offer_at e) (backoff_until e)
    (last_accept_epoch e) (my_advertised_addr e) (jitter e) (persist e).
Definition set_last_hb_sent {P : Type} (x : gmap id Z) (e : Elector P) : Elector P :=
  mkElector (node_id e) (peer_ids e) (config e) (role e) (epoch e) (current_primary e) (first_tick e)
    (my_repl_offset e) x (peer_views e) (accept_votes e) (offer_at e) (backoff_until e)
    (last_accept_epoch e) (my_advertised_addr e) (jitter e) (persist e).
Definition set_peer_views {P : Type} (x : gmap id PeerView) (e : Elector P) : Elector P :=
  mkElector (node_id e) (peer_ids e) (config e) (role e) (epoch e) (current_primary e) (first_tick e)
    (my_repl_offset e) (last_hb_sent e) x (accept_votes e) (offer_at e) (backoff_until e)
    (last_accept_epoch e) (my_advertised_addr e) (jitter e) (persist e).
Definition set_accept_votes {P : Type} (x : gset id) (e : Elector P) : Elector P :=
  mkElector (node_id e) (peer_ids e) (config e) (role e) (epoch e) (current_primary e) (first_tick e)
    (my_repl_offset e) (last_hb_sent e) (peer_views e) x (offer_at e) (backoff_until e)
    (last_accept_epoch e) (my_advertised_addr e) (jitter e) (persist e).
Definition set_offer_at {P : Type} (x : option Z) (e : Elector P) : Elector P :=
  mkElector (node_id e) (peer_ids e) (config e) (role e) (epoch e) (current_primary e) (first_tick e)
    (my_repl_offset e) (last_hb_sent e) (peer_views e) (accept_votes e) x (backoff_until e)
    (last_accept_epoch e) (my_advertised_addr e) (jitter e) (persist e).
Definition set_backoff_until {P : Type} (x : option Z) (e : Elector P) : Elector P :=
  mkElector (node_id e) (peer_ids e) (config e) (role e) (epoch e) (current_primary e) (first_tick e)
    (my_repl_offset e) (last_hb_sent e) (peer_views e) (accept_votes e) (offer_at e) x
    (last_accept_epoch e) (my_advertised_addr e) (jitter e) (persist e).
Definition set_last_accept_epoch {P : Type} (x : option Z) (e : Elector P) : Elector P :=
  mkElector (node_id e) (peer_ids e) (config e) (role e) (epoch e) (current_primary e) (first_tick e)
    (my_repl_offset e) (last_hb_sent e) (peer_views e) (accept_votes e) (offer_at e)
    (backoff_until e) x (my_advertised_addr e) (jitter e) (persist e).
Definition set_config {P : Type} (x : ElectConfig) (e : Elector P) : Elector P :=
  mkElector (node_id e) (peer_ids e) x (role e) (epoch e) (current_primary e) (first_tick e)
    (my_repl_offset e) (last_hb_sent e) (peer_views e) (accept_votes e) (offer_at e)
    (backoff_until e) (last_accept_epoch e) (my_advertised_addr e) (jitter e) (persist e).
Definition set_jitter {P : Type} (x : ElectJitter) (e : Elector P) : Elector P :=
  mkElector (node_id e) (peer_ids e) (config e) (role e) (epoch e) (current_primary e) (first_tick e)
    (my_repl_offset e) (last_hb_sent e) (peer_views e) (accept_votes e) (offer_at e)
    (backoff_until e) (last_accept_epoch e) (my_advertised_addr e) x (persist e).
Definition set_persist {P : Type} (x : P) (e : Elector P) : Elector P :=
  mkElector (node_id e) (peer_ids e) (config e) (role e) (epoch e) (current_primary e) (first_tick e)
    (my_repl_offset e) (last_hb_sent e) (peer_views e) (accept_votes e) (offer_at e)
    (backoff_until e) (last_accept_epoch e) (my_advertised_addr e) (jitter e) x.

(** [a.as_bytes() < b.as_bytes()]: lexicographic order of bytes. *)
Fixpoint bytes_lt (a b : list byte) : bool :=
  match a, b with
  | _, [] => false
  | [], _ :: _ => true
  | x :: a', y :: b' => if bz x <? bz y then true else if bz y <? bz x then false else bytes_lt a' b'
  end.

(** [now.duration_since(t)] *)
Definition duration_since (now t : Z) : Z := Z.max 0 (now - t).

(** [epoch.saturating_add(1)] on [u64] *)
Definition saturating_succ (e : Z) : Z := Z.min (e + 1) u64_max.

Section Elector.
Context {P : Type} `{Persist : ElectorPersist P}.

(** ** Construction *)

Definition elector_new (no_persist : P) (node_id : id) (peer_ids : list id)
  (my_advertised_addr : list byte) (start_role : Role) : Elector P :=
  mkElector node_id peer_ids config_default start_role 1 None None 0 ∅ ∅ ∅ None None None
    my_advertised_addr System no_persist.

Definition with_config (c : ElectConfig) (e : Elector P) : Elector P := set_config c e.
Definition with_jitter (j : ElectJitter) (e : Elector P) : Elector P := set_jitter j e.

Definition with_persist (p : P) (e : Elector P) : Elector P :=
  let '(ep, voted_for) := load p in
  let e :=
    if 0 <? ep then
      let e := set_epoch (Z.max (epoch e) ep) e in
      match voted_for with
      | Some _ => set_last_accept_epoch (Some ep) e
      | None => e
      end
    else e in
  set_persist p e.

Definition set_repl_offset (offset : Z) (e : Elector P) : Elector P := set_my_repl_offset offset e.

(** [self.persist.save(..)] *)
Definition persist_save (ep : Z) (voted_for : option id) (e : Elector P) : Elector P :=
  set_persist (save (persist e) ep voted_for) e.

(** ** Policy helpers *)

Definition quorum_size (e : Elector P) : Z := blen (peer_ids e) / 2 + 1.

Definition is_peer_down (e : Elector P) (peer : id) (now : Z) : bool :=
  match peer_views e !! peer with
  | Some v => down_after (config e) <=? duration_since now (last_seen v)
  | None => true
  end.

Fixpoint best_among (e : Elector P) (now : Z) (others : list id) : bool :=
  match others with
  | [] => true
  | other :: r =>
      if bool_decide (other = node_id e) then best_among e now r
      else if bool_decide (current_primary e = Some other) then best_among e now r
      else
        match peer_views e !! other with
        | None => best_among e now r
        | Some v =>
            if down_after (config e) <=? duration_since now (last_seen v) then best_among e now r
            else if my_repl_offset e <? last_repl_offset v then false
            else if (last_repl_offset v =? my_repl_offset e) && bytes_lt other (node_id e) then false
            else best_among e now r
        end
  end.

Definition am_best_candidate (e : Elector P) (now : Z) : bool := best_among e now (peer_ids e).

Definition has_quorum (e : Elector P) (now : Z) : bool :=
  let reachable :=
    blen (List.filter (fun v => duration_since now (last_seen v) <? down_after (config e))
            (snd <$> map_to_list (peer_views e))) in
  let cluster := Z.max (blen (peer_ids e)) 1 in
  cluster <? (reachable + 1) * 2.

(** ** The tick *)

Fixpoint heartbeats (peers : list id) (now : Z) (e : Elector P) (out : list Outbound)
  : Elector P * list Outbound :=
  match peers with
  | [] => (e, out)
  | peer :: r =>
      if bool_decide (peer = node_id e) then heartbeats r now e out
      else
        let due :=
          match last_hb_sent e !! peer with
          | Some prev => hb_interval (config e) <=? duration_since now prev
          | None => true
          end in
        if due then
          let e := set_last_hb_sent (<[peer := now]> (last_hb_sent e)) e in
          heartbeats r now e
            (out ++ [mkOutbound peer (Hb (epoch e) (node_id e) (role e) (my_repl_offset e))])
        else heartbeats r now e out
  end.

Definition emit_heartbeats (now : Z) (e : Elector P) (out : list Outbound) : Elector P * list Outbound :=
  heartbeats (peer_ids e) now e out.

Definition election_preconditions_met (e : Elector P) (now : Z) : bool :=
  if negb (bool_decide (role e = Replica)) then false
  else if match backoff_until e with Some b => now <? b | None => false end then false
  else if match current_primary e with
          | Some primary => negb (is_peer_down e primary now)
          | None => negb (match first_tick e with
                          | Some t => down_after (config e) <=? duration_since now t
                          | None => false
                          end)
          end then false
  else am_best_candidate e now.

Definition maybe_start_election (now : Z) (e : Elector P) (out : list Outbound)
  : Elector P * list Outbound :=
  if negb (election_preconditions_met e now) then (e, out)
  else
    let new_epoch := saturating_succ (epoch e) in
    let e := persist_save new_epoch (Some (node_id e)) e in
    let e := set_epoch new_epoch e in
    let e := set_role Candidate e in
    let e := set_accept_votes ∅ e in
    let e := set_accept_votes ({[ node_id e ]} ∪ accept_votes e) e in
    let e := set_offer_at (Some now) e in
    (e, out ++ [mkOutbound BROADCAST (Offer (epoch e) (node_id e) (my_repl_offset e))]).

Definition maybe_finish_candidacy (now : Z) (e : Elector P) (out : list Outbound)
  : Elector P * list Outbound :=
  if negb (bool_decide (role e = Candidate)) then (e, out)
  else
    match offer_at e with
    | None => (e, out)
    | Some at_ =>
        let quorum := quorum_size e in
        if quorum <=? Z.of_nat (size (accept_votes e)) then
          let e := set_role Primary e in
          let e := set_current_primary (Some (node_id e)) e in
          let e := set_offer_at None e in
          let e := set_accept_votes ∅ e in
          (e, out ++ [mkOutbound BROADCAST (Announce (epoch e) (node_id e) (my_advertised_addr e))])
        else if election_timeout (config e) <=? duration_since now at_ then
          let e := set_role Replica e in
          let e := set_offer_at None e in
          let e := set_accept_votes ∅ e in
          let j := jitter_sample (jitter e) (election_backoff_jitter (config e)) now (node_id e) in
          (set_backoff_until (Some (now + election_backoff (config e) + j)) e, out)
        else (e, out)
    end.

Definition tick (now : Z) (e : Elector P) : Elector P * list Outbound :=
  let e := match first_tick e with None => set_first_tick (Some now) e | Some _ => e end in
  let '(e, out) := emit_heartbeats now e [] in
  let '(e, out) := maybe_start_election now e out in
  maybe_finish_candidacy now e out.

(** ** Inbound messages *)

Definition follow_primary_hb (from : id) (ep : Z) (e : Elector P) : Elector P :=
  let e := if epoch e <? ep then persist_save ep None e else e in
  let e := set_epoch ep e in
  let e := set_current_primary (Some from) e in
  if bool_decide (role e = Primary) && negb (bool_decide (from = node_id e)) then set_role Replica e
  else if bool_decide (role e = Candidate) then
    let e := set_role Replica e in
    let e := set_offer_at None e in
    set_accept_votes ∅ e
  else e.

Definition on_hb (from : id) (ep : Z) (r : Role) (repl_offset now : Z) (e : Elector P) : Elector P :=
  let e := set_peer_views (<[from := mkPeerView now ep r repl_offset]> (peer_views e)) e in
  if bool_decide (r = Primary) && (epoch e <=? ep)
     && ((epoch e <? ep) || (bool_decide (current_primary e = None) && bool_decide (role e = Replica)))
  then follow_primary_hb from ep e
  else e.

Definition on_offer (new_epoch : Z) (candidate_id : id) (repl_offset : Z) (e : Elector P)
  : Elector P * list Outbound :=
  if new_epoch <=? epoch e then (e, [])
  else if repl_offset <? my_repl_offset e then (e, [])
  else if (my_repl_offset e =? repl_offset) && bytes_lt (node_id e) candidate_id then (e, [])
  else if bool_decide (last_accept_epoch e = Some new_epoch) then (e, [])
  else
    let e := persist_save new_epoch (Some candidate_id) e in
    let e := set_last_accept_epoch (Some new_epoch) e in
    let e := set_epoch new_epoch e in
    (e, [mkOutbound candidate_id (Accept new_epoch (node_id e))]).

Definition on_accept (ep : Z) (accepter_id : id) (e : Elector P) : Elector P :=
  if negb (bool_decide (role e = Candidate)) || negb (epoch e =? ep) then e
  else set_accept_votes ({[ accepter_id ]} ∪ accept_votes e) e.

Definition on_announce (ep : Z) (new_primary_id : id) (e : Elector P) : Elector P :=
  if (ep <=? epoch e) && bool_decide (current_primary e = Some new_primary_id) then e
  else if ep <? epoch e then e
  else
    let e := persist_save ep (Some new_primary_id) e in
    let e := set_epoch ep e in
    let e := set_current_primary (Some new_primary_id) e in
    let e := set_last_accept_epoch (Some ep) e in
    let e := set_accept_votes ∅ e in
    let e := set_offer_at None e in
    if bool_decide (new_primary_id = node_id e) then set_role Primary e else set_role Replica e.

Definition on_message (from : id) (m : Message) (now : Z) (e : Elector P)
  : Elector P * list Outbound :=
  match m with
  | Hb ep _ r repl_offset => (on_hb from ep r repl_offset now e, [])
  | Offer new_epoch candidate_id repl_offset => on_offer new_epoch candidate_id repl_offset e
  | Accept ep accepter_id => (on_accept ep accepter_id e, [])
  | Announce ep new_primary_id _ => (on_announce ep new_primary_id e, [])
  end.
End Elector.
