(* ===== verification/ElectSafety.v ===== *)
(** * Election safety ([crates/kevy-elect])

    A cluster of electors over a network that may delay, reorder and repeat
    messages, with crashes and restarts from the persisted state.  [step] is
    one action of one node; [reachable] closes it from a fresh boot.

    Two histories are kept beside the real state: [cast], the votes given so
    far (an ACCEPT, or the self-vote of an OFFER), and [won], the elections won
    by a candidate that had not itself voted for another candidate in that
    epoch.  Votes are unique per node and epoch across restarts, and elections
    in [won] are unique per epoch.  A candidate that did vote in the epoch it
    then wins is not covered, and [split_brain] shows why. *)

From Stdlib Require Import ZArith Lia Bool Strings.Byte Strings.String.
From stdpp Require Import base list gmap.
From S2P Require Import Prelude ElectWire Elector.

#[local] Open Scope list_scope.
#[local] Open Scope Z_scope.
#[local] Open Scope kevy_scope.
#[local] Set Warnings "-clear-no-such-hyp".

(** ** The cluster *)

(** A vote: epoch, voter, candidate. *)
Abbreviation vote := (Z * id * id)%type.

Record World (P : Type) := mkWorld {
  nodes : gmap id (Elector P);
  net : list (id * Outbound);     (* sender and message, never removed *)
  cast : list vote;
  won : list (Z * id)
}.
Arguments nodes {P}.
Arguments net {P}.
Arguments cast {P}.
Arguments won {P}.
Arguments mkWorld {P}.

(** The vote a message of node [i] gives, if any. *)
Definition votes_in (i : id) (o : Outbound) : list vote :=
  match msg o with
  | Offer ep c _ => [(ep, i, c)]
  | Accept ep a => [(ep, a, to o)]
  | _ => []
  end.

(** The election a message announces, when the sender cast no vote in it. *)
Definition wins_in {P} (e' : Elector P) (o : Outbound) : list (Z * id) :=
  match msg o with
  | Announce ep p _ =>
      if bool_decide (last_accept_epoch e' = Some (epoch e')) then [] else [(ep, p)]
  | _ => []
  end.

(** Node [i] has moved to [e'] and sent [out]. *)
Definition act {P} (w : World P) (i : id) (e' : Elector P) (out : list Outbound) : World P :=
  mkWorld (<[i := e']> (nodes w)) (net w ++ ((fun o => (i, o)) <$> out))
    (cast w ++ (out ≫= votes_in i)) (won w ++ (out ≫= wins_in e')).

(** The transport hands a message to its recipient, a broadcast to every other node. *)
Definition delivers (from : id) (o : Outbound) (i : id) : Prop :=
  to o = i \/ to o = BROADCAST /\ i <> from.

Section Cluster.
Context {P : Type} `{Persist : ElectorPersist P} (fresh : P) (peers : list id).

(** A node that starts (again) from the pair its backend holds. *)
Definition boot (p : P) (i : id) (addr : list byte) (start_role : Role) : Elector P :=
  with_persist p (elector_new fresh i peers addr start_role).

Inductive step : World P -> World P -> Prop :=
| step_tick w i e now e' out :
    nodes w !! i = Some e -> epoch e < u64_max -> tick now e = (e', out) ->
    step w (act w i e' out)
| step_deliver w i e from o now e' out :
    nodes w !! i = Some e -> (from, o) ∈ net w -> delivers from o i ->
    on_message from (msg o) now e = (e', out) ->
    step w (act w i e' out)
| step_offset w i e offset :
    nodes w !! i = Some e -> step w (act w i (set_repl_offset offset e) [])
| step_config w i e c j :
    nodes w !! i = Some e -> step w (act w i (with_jitter j (with_config c e)) [])
| step_restart w i e addr start_role :
    nodes w !! i = Some e -> step w (act w i (boot (persist e) i addr start_role) []).

Definition initial (w : World P) : Prop :=
  net w = [] /\ cast w = [] /\ won w = [] /\
  forall i e, nodes w !! i = Some e ->
    i ∈ peers /\ exists addr start_role, e = boot fresh i addr start_role.

Inductive reachable : World P -> Prop :=
| reach_init w : initial w -> reachable w
| reach_step w w' : reachable w -> step w w' -> reachable w'.
End Cluster.

(** ** What one node keeps *)

Section Node.
Context {P : Type} `{Persist : ElectorPersist P} `{Durable : !DurablePersist P}.

(** Node [i]'s state against the votes cast so far. *)
Record node_ok (peers : list id) (votes : list vote) (i : id) (e : Elector P) : Prop := {
  ok_id : node_id e = i;
  ok_peers : peer_ids e = peers;
  ok_epoch : epoch e = Z.max 1 (fst (load (persist e)));
  ok_past : forall ep c, (ep, i, c) ∈ votes -> ep <= epoch e;
  ok_tally : role e = Candidate -> last_accept_epoch e <> Some (epoch e) ->
             forall a, a ∈ accept_votes e -> (epoch e, a, i) ∈ votes
}.

Lemma node_ok_epoch peers votes i e : node_ok peers votes i e -> 1 <= epoch e.
Proof. intros H. rewrite (ok_epoch _ _ _ _ H). lia. Qed.

(** Votes of other nodes change nothing. *)
Lemma node_ok_weaken peers votes i e more :
  node_ok peers votes i e -> (forall ep c, (ep, i, c) ∈ more -> False) ->
  node_ok peers (votes ++ more) i e.
Proof.
  intros [H1 H2 H3 H4 H5] Hm. split; auto.
  - intros ep c [H|H]%elem_of_app; [eauto | destruct (Hm _ _ H)].
  - intros Hr Hl a Ha. apply elem_of_app. left. auto.
Qed.

(** [e'] differs from [e] in bookkeeping only. *)
Record same_core (e e' : Elector P) : Prop := {
  sc_id : node_id e' = node_id e;
  sc_peers : peer_ids e' = peer_ids e;
  sc_role : role e' = role e;
  sc_epoch : epoch e' = epoch e;
  sc_votes : accept_votes e' = accept_votes e;
  sc_last : last_accept_epoch e' = last_accept_epoch e;
  sc_persist : persist e' = persist e
}.

Lemma same_core_refl e : same_core e e.
Proof. split; reflexivity. Qed.

Lemma same_core_trans a b c : same_core a b -> same_core b c -> same_core a c.
Proof. intros [] []. split; congruence. Qed.

Lemma node_ok_same peers votes i e e' : same_core e e' -> node_ok peers votes i e -> node_ok peers votes i e'.
Proof.
  intros [C1 C2 C3 C4 C5 C6 C7] [H1 H2 H3 H4 H5].
  split; rewrite ?C1, ?C2, ?C3, ?C4, ?C5, ?C6, ?C7; auto.
Qed.

(** *** The phases of a tick *)

Lemma heartbeats_spec l now : forall e out e' out',
  heartbeats l now e out = (e', out') ->
  same_core e e' /\ exists hbs, out' = out ++ hbs /\
    Forall (fun o => exists ep n r off, msg o = Hb ep n r off) hbs.
Proof.
  induction l as [|p l IH]; intros e out e' out' H; cbn [heartbeats] in H.
  - injection H as <- <-. split; [apply same_core_refl|]. exists []. rewrite app_nil_r. auto.
  - destruct (bool_decide (p = node_id e)); [eauto|].
    destruct (match last_hb_sent e !! p with Some _ => _ | None => _ end); [|eauto].
    apply IH in H as (C & hbs & -> & Hh). split.
    + eapply same_core_trans; [|exact C]. split; reflexivity.
    + eexists (_ :: hbs). rewrite <- app_assoc. split; [reflexivity|]. constructor; [cbn; eauto | exact Hh].
Qed.

Lemma hbs_no_votes i hbs (e' : Elector P) :
  Forall (fun o => exists ep n r off, msg o = Hb ep n r off) hbs ->
  hbs ≫= votes_in i = [] /\ hbs ≫= wins_in e' = [].
Proof.
  induction 1 as [|o l (ep & n & r & off & E) _ [IH1 IH2]]; [auto|].
  rewrite !bind_cons, IH1, IH2. unfold votes_in, wins_in. rewrite E. auto.
Qed.

(** Starting an election: one self-vote in a new epoch, persisted. *)
Lemma start_spec peers votes i now e out e' out' :
  node_ok peers votes i e -> epoch e < u64_max ->
  maybe_start_election now e out = (e', out') ->
  (e' = e /\ out' = out) \/
  (out' = out ++ [mkOutbound BROADCAST (Offer (epoch e') i (my_repl_offset e'))] /\
     epoch e < epoch e' /\ load (persist e') = (epoch e', Some i) /\
     node_ok peers (votes ++ [(epoch e', i, i)]) i e').
Proof.
  intros Hok Hmax H. unfold maybe_start_election in H.
  destruct (negb (election_preconditions_met e now)); [injection H as <- <-; left; auto|].
  right. pose proof (node_ok_epoch _ _ _ _ Hok) as H1. destruct Hok as [I1 I2 I3 I4 I5].
  injection H as <- <-. cbn. rewrite I1.
  assert (Hs : saturating_succ (epoch e) = epoch e + 1) by (unfold saturating_succ; lia).
  rewrite Hs, load_save. split; [reflexivity|]. split; [lia|]. split; [reflexivity|].
  split; cbn; rewrite ?load_save; auto.
  - cbn. lia.
  - intros ep c [Hc|Hc]%elem_of_app; [apply I4 in Hc; lia|].
    apply list_elem_of_singleton in Hc. injection Hc as -> _. lia.
  - intros _ _ a Ha. apply elem_of_app. right.
    assert (a = i) as -> by (apply elem_of_union in Ha as [Ha|Ha]; set_solver).
    apply list_elem_of_singleton. reflexivity.
Qed.

(** Finishing a candidacy: nothing, a win with a quorum, or a timeout. *)
Lemma finish_spec peers votes i now e out e' out' :
  node_ok peers votes i e -> maybe_finish_candidacy now e out = (e', out') ->
  node_ok peers votes i e' /\ epoch e' = epoch e /\ persist e' = persist e /\
  (out' = out \/
   out' = out ++ [mkOutbound BROADCAST (Announce (epoch e) i (my_advertised_addr e))] /\
     role e = Candidate /\ last_accept_epoch e' = last_accept_epoch e /\
     quorum_size e <= Z.of_nat (size (accept_votes e))).
Proof.
  intros Hok H. unfold maybe_finish_candidacy in H.
  destruct (bool_decide (role e = Candidate)) eqn:Er; cbn [negb] in H; [|injection H as <- <-; auto].
  apply bool_decide_eq_true in Er. pose proof Hok as [I1 I2 I3 I4 I5].
  destruct (offer_at e) as [t|]; [|injection H as <- <-; auto].
  destruct (Z.leb_spec (quorum_size e) (Z.of_nat (size (accept_votes e)))).
  - injection H as <- <-. split; [split; cbn; auto; discriminate|].
    split; [reflexivity|]. split; [reflexivity|]. right. cbn. rewrite I1. auto.
  - destruct (election_timeout (config e) <=? duration_since now t); injection H as <- <-.
    + split; [split; cbn; auto; discriminate|]. auto.
    + auto.
Qed.

(** *** Inbound messages *)

Lemma on_hb_ok peers votes i e from ep r off now :
  node_ok peers votes i e ->
  node_ok peers votes i (on_hb from ep r off now e) /\ epoch e <= epoch (on_hb from ep r off now e).
Proof.
  intros Hok. unfold on_hb. set (e1 := set_peer_views _ e).
  assert (Hok1 : node_ok peers votes i e1) by (apply (node_ok_same _ _ _ e); [split; reflexivity | exact Hok]).
  change (epoch e) with (epoch e1). clearbody e1. clear e Hok.
  destruct (_ && _) eqn:Eg; [|split; [exact Hok1 | lia]].
  apply andb_true_iff in Eg as [[_ Hle%Z.leb_le]%andb_true_iff _].
  pose proof (node_ok_epoch _ _ _ _ Hok1) as H1. destruct Hok1 as [I1 I2 I3 I4 I5].
  unfold follow_primary_hb. set (e2 := if epoch e1 <? ep then persist_save ep None e1 else e1).
  assert (Hload : ep = Z.max 1 (fst (load (persist e2)))).
  { subst e2. destruct (Z.ltb_spec (epoch e1) ep); cbn; [rewrite load_save; cbn; lia | lia]. }
  assert (Hid : node_id e2 = i /\ peer_ids e2 = peers /\ role e2 = role e1)
    by (subst e2; destruct (epoch e1 <? ep); auto).
  destruct Hid as (J1 & J2 & J3). clearbody e2.
  repeat case_match; (split; [split; cbn; auto; try discriminate|]); try (cbn; lia).
  all: try (intros ep' c' Hv; apply I4 in Hv; lia).
  all: intros Hr; exfalso; cbn in *; repeat case_bool_decide; cbn in *; congruence.
Qed.

Lemma on_accept_ok peers votes i e ep a :
  node_ok peers votes i e -> (ep, a, i) ∈ votes -> node_ok peers votes i (on_accept ep a e).
Proof.
  intros Hok Hv. unfold on_accept. destruct (negb _ || negb _) eqn:Eg; [exact Hok|].
  apply orb_false_iff in Eg as [_ Ee%negb_false_iff%Z.eqb_eq]. destruct Hok as [I1 I2 I3 I4 I5].
  split; cbn; auto. intros Hr Hl b [->%elem_of_singleton|Hb]%elem_of_union; [congruence | auto].
Qed.

Lemma on_announce_ok peers votes i e ep p :
  node_ok peers votes i e ->
  node_ok peers votes i (on_announce ep p e) /\ epoch e <= epoch (on_announce ep p e).
Proof.
  intros Hok. unfold on_announce. destruct (_ && _); [split; [exact Hok | lia]|].
  destruct (Z.ltb_spec ep (epoch e)); [split; [exact Hok | lia]|].
  pose proof (node_ok_epoch _ _ _ _ Hok) as H1. destruct Hok as [I1 I2 I3 I4 I5]. cbn.
  case_match; (split; [split; cbn; rewrite ?load_save; auto; try discriminate|]); cbn; try lia.
  all: intros ep' c' Hv; apply I4 in Hv; lia.
Qed.

(** An OFFER is refused, or answered by one persisted vote in a new epoch. *)
Lemma on_offer_spec peers votes i e ep c off e' out :
  node_ok peers votes i e -> on_offer ep c off e = (e', out) ->
  (e' = e /\ out = []) \/
  (out = [mkOutbound c (Accept ep i)] /\ epoch e' = ep /\ epoch e < epoch e' /\
   load (persist e') = (ep, Some c) /\ node_ok peers (votes ++ [(ep, i, c)]) i e').
Proof.
  intros Hok H. unfold on_offer in H.
  destruct (Z.leb_spec ep (epoch e)); [injection H as <- <-; auto|].
  destruct (off <? my_repl_offset e); [injection H as <- <-; auto|].
  destruct (_ && _); [injection H as <- <-; auto|].
  destruct (bool_decide _); [injection H as <- <-; auto|].
  pose proof (node_ok_epoch _ _ _ _ Hok) as H1. destruct Hok as [I1 I2 I3 I4 I5].
  injection H as <- <-. right. cbn. rewrite I1, load_save. repeat split; auto; try lia; cbn; rewrite ?load_save; auto.
  - cbn. lia.
  - intros ep' c' [Hv|Hv]%elem_of_app; [apply I4 in Hv; lia|].
    apply list_elem_of_singleton in Hv. injection Hv as -> _. lia.
  - intros _ Hl. contradiction.
Qed.

Lemma boot_ok (fresh : P) peers votes i e addr r :
  node_ok peers votes i e -> node_ok peers votes i (boot fresh peers (persist e) i addr r).
Proof.
  intros Hok. pose proof (node_ok_epoch _ _ _ _ Hok). destruct Hok as [I1 I2 I3 I4 I5].
  unfold boot, with_persist. destruct (load (persist e)) as [ep v] eqn:El. cbn in I3.
  assert (Hb : forall x, node_id x = i -> peer_ids x = peers -> epoch x = Z.max 1 ep -> accept_votes x = ∅ ->
               node_ok peers votes i (set_persist (persist e) x)).
  { intros x X1 X2 X3 X4. split; cbn; auto; rewrite ?El, ?X3, ?X4; auto.
    - intros ep' c' Hv. apply I4 in Hv. lia.
    - intros _ _ a Ha. set_solver. }
  destruct (Z.ltb_spec 0 ep); [destruct v|]; apply Hb; cbn; auto; lia.
Qed.

(** A restarted node is in the epoch it was in. *)
Lemma boot_epoch (fresh : P) peers votes i e addr r :
  node_ok peers votes i e -> epoch (boot fresh peers (persist e) i addr r) = epoch e.
Proof.
  intros Hok. pose proof (boot_ok fresh peers votes i e addr r Hok) as Hb.
  rewrite (ok_epoch _ _ _ _ Hok), (ok_epoch _ _ _ _ Hb). do 3 f_equal.
  unfold boot, with_persist. destruct (load (persist e)) as [ep v].
  destruct (0 <? ep); [destruct v|]; reflexivity.
Qed.
End Node.

(** ** The cluster invariant *)

Section Safety.
Context {P : Type} `{Persist : ElectorPersist P} `{Durable : !DurablePersist P}.
Context (fresh : P) (peers : list id).

(** A quorum of [peers] voted for [c] in [ep]. *)
Definition elected (votes : list vote) (ep : Z) (c : id) : Prop :=
  exists Q : gset id, (forall a, a ∈ Q -> (ep, a, c) ∈ votes) /\ blen peers / 2 + 1 <= Z.of_nat (size Q).

Record world_ok (w : World P) : Prop := {
  wo_nodes : forall i e, nodes w !! i = Some e -> i ∈ peers /\ node_ok peers (cast w) i e;
  wo_unique : forall ep a c c', (ep, a, c) ∈ cast w -> (ep, a, c') ∈ cast w -> c = c';
  wo_voters : forall ep a c, (ep, a, c) ∈ cast w -> a ∈ peers;
  wo_accepts : forall from o ep a, (from, o) ∈ net w -> msg o = Accept ep a ->
                 (ep, a, to o) ∈ cast w /\ to o ∈ peers;
  wo_offers : forall from o ep c off, (from, o) ∈ net w -> msg o = Offer ep c off -> c ∈ peers;
  wo_won : forall ep c, (ep, c) ∈ won w -> elected (cast w) ep c
}.

(** What an action of a node gives the rest of the cluster. *)
Record action_ok (w : World P) (i : id) (e e' : Elector P) (out : list Outbound) : Prop := {
  ao_node : node_ok peers (cast w ++ (out ≫= votes_in i)) i e';
  ao_epoch : epoch e <= epoch e';
  ao_vote : out ≫= votes_in i = [] \/
            exists c, out ≫= votes_in i = [(epoch e', i, c)] /\ epoch e < epoch e';
  ao_accepts : forall o ep a, o ∈ out -> msg o = Accept ep a -> to o ∈ peers;
  ao_offers : forall o ep c off, o ∈ out -> msg o = Offer ep c off -> c = i;
  ao_wins : forall ep c, (ep, c) ∈ out ≫= wins_in e' -> elected (cast w ++ (out ≫= votes_in i)) ep c
}.

Lemma elected_more votes more ep c : elected votes ep c -> elected (votes ++ more) ep c.
Proof. intros (Q & HQ & Hs). exists Q. split; [|exact Hs]. intros a Ha. apply elem_of_app. auto. Qed.

Lemma act_ok w i e e' out :
  world_ok w -> nodes w !! i = Some e -> action_ok w i e e' out -> world_ok (act w i e' out).
Proof.
  intros [W1 W2 W3 W4 W5 W6] Hi [A1 _ A2 A3 A4 A5]. destruct (W1 i e Hi) as [Hp Hok].
  assert (Hnew : forall ep a c, (ep, a, c) ∈ out ≫= votes_in i -> a = i /\ epoch e < ep).
  { intros ep a c Hv. destruct A2 as [A2|(c' & A2 & Hlt)]; rewrite A2 in Hv; [apply not_elem_of_nil in Hv as []|].
    apply list_elem_of_singleton in Hv. injection Hv as -> -> _. auto. }
  split; cbn.
  - intros j ej Hj. destruct (decide (i = j)) as [<-|Hne].
    + rewrite lookup_insert_eq in Hj. injection Hj as <-. auto.
    + rewrite lookup_insert_ne in Hj by exact Hne. destruct (W1 j ej Hj) as [Hjp Hjok].
      split; [exact Hjp|]. apply node_ok_weaken; [exact Hjok|].
      intros ep c Hv. apply Hnew in Hv as [-> _]. contradiction.
  - intros ep a c c' [Hc|Hc]%elem_of_app [Hc'|Hc']%elem_of_app; [eauto| | |].
    + apply Hnew in Hc' as [-> Hlt]. apply (ok_past _ _ _ _ Hok) in Hc. lia.
    + apply Hnew in Hc as [-> Hlt]. apply (ok_past _ _ _ _ Hok) in Hc'. lia.
    + destruct A2 as [A2|(c1 & A2 & _)]; rewrite A2 in Hc, Hc'; [apply not_elem_of_nil in Hc as []|].
      apply list_elem_of_singleton in Hc, Hc'. congruence.
  - intros ep a c [Hc|Hc]%elem_of_app; [eauto|]. apply Hnew in Hc as [-> _]. exact Hp.
  - intros from o ep a [Ho|(o' & [= -> ->] & Ho)%list_elem_of_fmap]%elem_of_app Em.
    + destruct (W4 _ _ _ _ Ho Em). split; [apply elem_of_app; auto | auto].
    + split; [|eauto]. apply elem_of_app. right. apply list_elem_of_bind. exists o'.
      split; [unfold votes_in; rewrite Em; apply list_elem_of_singleton; reflexivity | exact Ho].
  - intros from o ep c off [Ho|(o' & [= -> ->] & Ho)%list_elem_of_fmap]%elem_of_app Em; [eauto|].
    apply (A4 _ _ _ _ Ho) in Em as ->. exact Hp.
  - intros ep c [Hc|Hc]%elem_of_app; [apply elected_more; eauto | eauto].
Qed.

(** A silent action: no message, no vote. *)
Lemma silent_ok w i e e' :
  node_ok peers (cast w) i e' /\ epoch e <= epoch e' -> action_ok w i e e' [].
Proof.
  intros [H He]. split; rewrite ?app_nil_r; auto; set_unfold; try contradiction.
  all: intros; exfalso; set_solver.
Qed.

Lemma bind_snoc {A B} (l : list A) (x : A) (f : A -> list B) : (l ++ [x]) ≫= f = (l ≫= f) ++ f x.
Proof. rewrite bind_app. cbn. rewrite app_nil_r. reflexivity. Qed.

Lemma hb_not (hbs : list Outbound) :
  Forall (fun o => exists ep n r off, msg o = Hb ep n r off) hbs ->
  forall o, o ∈ hbs -> (forall ep a, msg o <> Accept ep a) /\ (forall ep c off, msg o <> Offer ep c off).
Proof.
  intros H o Ho. rewrite Forall_forall in H. destruct (H o Ho) as (ep & n & r & off & E).
  rewrite E. split; discriminate.
Qed.

(** The first two phases of a tick. *)
Lemma tick_start_ok votes i e now e2 out2 :
  node_ok peers votes i e -> epoch e < u64_max ->
  (let e0 := match first_tick e with None => set_first_tick (Some now) e | Some _ => e end in
   let '(e1, out1) := emit_heartbeats now e0 [] in maybe_start_election now e1 out1) = (e2, out2) ->
  exists v, epoch e <= epoch e2 /\ (forall x : Elector P, out2 ≫= wins_in x = []) /\ out2 ≫= votes_in i = v /\
    (v = [] \/ v = [(epoch e2, i, i)] /\ epoch e < epoch e2) /\ node_ok peers (votes ++ v) i e2 /\
    (forall o ep a, o ∈ out2 -> msg o <> Accept ep a) /\
    (forall o ep c off, o ∈ out2 -> msg o = Offer ep c off -> c = i).
Proof.
  intros Hok Hmax. set (e0 := match first_tick e with None => _ | Some _ => e end).
  assert (C0 : same_core e e0) by (subst e0; destruct (first_tick e); split; reflexivity). clearbody e0.
  cbv zeta. unfold emit_heartbeats. destruct (heartbeats (peer_ids e0) now e0 []) as [e1 out1] eqn:E1.
  apply heartbeats_spec in E1 as (C1 & hbs & -> & Hh). cbn [app]. intros E2.
  pose proof (same_core_trans _ _ _ C0 C1) as C. pose proof (node_ok_same _ _ _ _ _ C Hok) as Hok1.
  rewrite <- (sc_epoch _ _ C) in Hmax |- *. pose proof (hb_not hbs Hh) as Hn.
  destruct (start_spec _ _ _ _ _ _ _ _ Hok1 Hmax E2) as [[-> ->]|(-> & Hlt & _ & Hok2)].
  - exists []. rewrite app_nil_r. split; [lia|]. split; [intros x; apply (hbs_no_votes i hbs x Hh)|].
    split; [apply (hbs_no_votes i hbs e1 Hh)|]. split; [auto|]. split; [exact Hok1|]. split.
    + intros o ep a Ho. apply Hn, Ho.
    + intros o ep c off Ho Em. destruct (Hn o Ho) as [_ N]. destruct (N _ _ _ Em).
  - exists [(epoch e2, i, i)]. split; [lia|]. split; [|split; [|split; [|split; [exact Hok2|split]]]]; auto.
    + intros x. rewrite bind_snoc, (proj2 (hbs_no_votes i hbs x Hh)). reflexivity.
    + rewrite bind_snoc, (proj1 (hbs_no_votes i hbs e2 Hh)). reflexivity.
    + intros o ep a [Ho| ->%list_elem_of_singleton]%elem_of_app; [apply Hn, Ho | discriminate].
    + intros o ep c off [Ho| ->%list_elem_of_singleton]%elem_of_app Em.
      * destruct (Hn o Ho) as [_ N]. destruct (N _ _ _ Em).
      * injection Em as _ <- _. reflexivity.
Qed.

Lemma tick_ok w i e now e' out :
  node_ok peers (cast w) i e -> epoch e < u64_max -> tick now e = (e', out) -> action_ok w i e e' out.
Proof.
  intros Hok Hmax H.
  assert (exists e2 out2, (let e0 := match first_tick e with None => set_first_tick (Some now) e | Some _ => e end in
    let '(e1, out1) := emit_heartbeats now e0 [] in maybe_start_election now e1 out1) = (e2, out2) /\
    maybe_finish_candidacy now e2 out2 = (e', out)) as (e2 & out2 & E2 & E3).
  { unfold tick in H. cbv zeta in *. destruct (emit_heartbeats now _ []) as [e1 out1].
    destruct (maybe_start_election now e1 out1) as [e2 out2] eqn:E. eauto. }
  destruct (tick_start_ok _ _ _ _ _ _ Hok Hmax E2) as (v & Hle & Hw & Hv & Hone & Hok2 & Ha & Ho).
  destruct (finish_spec _ _ _ _ _ _ _ _ Hok2 E3) as (Hok' & Hep & _ & Hfin).
  assert (Hvs : out ≫= votes_in i = v).
  { destruct Hfin as [-> |(-> & _)]; [exact Hv|]. rewrite bind_snoc, Hv. apply app_nil_r. }
  split; rewrite ?Hvs.
  - exact Hok'.
  - lia.
  - destruct Hone as [-> |[-> Hlt]]; [left; reflexivity | right; exists i; rewrite Hep; auto].
  - intros o ep a Hin Em. destruct Hfin as [-> |(-> & _)]; [destruct (Ha _ _ _ Hin Em)|].
    apply elem_of_app in Hin as [Hin|Hin]; [destruct (Ha _ _ _ Hin Em)|].
    apply list_elem_of_singleton in Hin as ->. discriminate.
  - intros o ep c off Hin Em. destruct Hfin as [-> |(-> & _)]; [eauto|].
    apply elem_of_app in Hin as [Hin|Hin]; [eauto|]. apply list_elem_of_singleton in Hin as ->. discriminate.
  - intros ep c Hin. destruct Hfin as [-> |(-> & Hr & Hla & Hq)]; [rewrite Hw in Hin; set_solver|].
    rewrite bind_snoc, Hw in Hin. cbn [app] in Hin. unfold wins_in in Hin. cbn [msg] in Hin. rewrite Hla, Hep in Hin.
    destruct (bool_decide (last_accept_epoch e2 = Some (epoch e2))) eqn:Eb; [set_solver|].
    apply bool_decide_eq_false in Eb. apply list_elem_of_singleton in Hin. injection Hin as -> ->.
    exists (accept_votes e2). split; [intros a Hin; exact (ok_tally _ _ _ _ Hok2 Hr Eb a Hin)|].
    unfold quorum_size in Hq. rewrite (ok_peers _ _ _ _ Hok2) in Hq. exact Hq.
Qed.

Lemma deliver_ok w i e from o now e' out :
  BROADCAST ∉ peers -> world_ok w -> nodes w !! i = Some e -> (from, o) ∈ net w -> delivers from o i ->
  on_message from (msg o) now e = (e', out) -> action_ok w i e e' out.
Proof.
  intros Hstar W Hi Ho Hd H. destruct (wo_nodes _ W i e Hi) as [Hp Hok].
  destruct (msg o) as [ep n r off|ep c off|ep a|ep p addr] eqn:Em; cbn [on_message] in H.
  - injection H as <- <-. apply silent_ok, on_hb_ok, Hok.
  - pose proof (wo_offers _ W _ _ _ _ _ Ho Em) as Hc.
    destruct (on_offer_spec _ _ _ _ _ _ _ _ _ Hok H) as [[-> ->]|(-> & Hep & Hlt & _ & Hok')];
      [apply silent_ok; split; [exact Hok | lia]|].
    split; cbn.
    + exact Hok'.
    + lia.
    + right. exists c. rewrite Hep. rewrite Hep in Hlt. auto.
    + intros o' ep' a' ->%list_elem_of_singleton _. exact Hc.
    + intros o' ep' c' off' ->%list_elem_of_singleton. discriminate.
    + intros ep' c'. rewrite elem_of_nil. contradiction.
  - injection H as <- <-. apply silent_ok.
    split; [|unfold on_accept; destruct (_ || _); cbn; lia]. destruct (wo_accepts _ W _ _ _ _ Ho Em) as [Hv Hto].
    apply on_accept_ok; [exact Hok|]. destruct Hd as [<-|[Hb _]]; [exact Hv|].
    rewrite Hb in Hto. contradiction.
  - injection H as <- <-. apply silent_ok, on_announce_ok, Hok.
Qed.

Lemma reachable_ok w :
  BROADCAST ∉ peers -> load fresh = (0, None) -> reachable fresh peers w -> world_ok w.
Proof.
  intros Hstar Hfresh. induction 1 as [w (Hn & Hc & Hw & Hnodes)|w w' _ IH Hs].
  - split; rewrite ?Hn, ?Hc, ?Hw; try (intros; exfalso; set_solver).
    intros i e Hi. destruct (Hnodes i e Hi) as (Hp & addr & r & ->). split; [exact Hp|].
    unfold boot, with_persist. rewrite Hfresh. cbn.
    split; cbn; rewrite ?Hfresh; auto; intros; exfalso; set_solver.
  - destruct Hs as [w i e now e' out Hi Hmax H|w i e from o now e' out Hi Ho Hd H|w i e offset Hi
                    |w i e c j Hi|w i e addr r Hi];
      destruct (wo_nodes _ IH i e Hi) as [Hp Hok]; apply (act_ok w i e); auto.
    + apply (tick_ok w i e now); auto.
    + apply (deliver_ok w i e from o now); auto.
    + apply silent_ok. split; [|cbn; lia]. apply (node_ok_same _ _ _ e); [split; reflexivity | exact Hok].
    + apply silent_ok. split; [|cbn; lia]. apply (node_ok_same _ _ _ e); [split; reflexivity | exact Hok].
    + apply silent_ok. split; [apply boot_ok, Hok | apply Z.eq_le_incl; symmetry; apply (boot_epoch _ _ _ _ _ _ _ Hok)].
Qed.

Lemma size_of_list_le (l : list id) : (size (list_to_set l : gset id) <= length l)%nat.
Proof.
  induction l as [|x l IH]; [rewrite list_to_set_nil, size_empty; lia|]. cbn [length].
  rewrite list_to_set_cons. destruct (decide (x ∈ (list_to_set l : gset id))) as [Hx|Hx].
  - replace ({[x]} ∪ list_to_set l : gset id) with (list_to_set l : gset id) by set_solver. lia.
  - rewrite size_union, size_singleton by set_solver. lia.
Qed.

Lemma quorums_meet (Q R : gset id) :
  Q ⊆ list_to_set peers -> R ⊆ list_to_set peers ->
  blen peers / 2 + 1 <= Z.of_nat (size Q) -> blen peers / 2 + 1 <= Z.of_nat (size R) ->
  exists a, a ∈ Q /\ a ∈ R.
Proof.
  intros HQ HR SQ SR. destruct (decide (Q ∩ R = ∅)) as [E|Hne].
  - exfalso. assert (Hd : Q ## R) by set_solver.
    assert (Hs : (size (Q ∪ R) <= length peers)%nat).
    { etransitivity; [apply subseteq_size, union_least; eassumption | apply size_of_list_le]. }
    rewrite size_union in Hs by exact Hd. unfold blen in *.
    pose proof (Z.div_mod (Z.of_nat (length peers)) 2 ltac:(lia)).
    pose proof (Z.mod_pos_bound (Z.of_nat (length peers)) 2 ltac:(lia)). lia.
  - apply set_choose_L in Hne as [a Ha]. exists a. set_solver.
Qed.

Lemma elected_unique votes ep c c' :
  (forall ep a c c', (ep, a, c) ∈ votes -> (ep, a, c') ∈ votes -> c = c') ->
  (forall ep a c, (ep, a, c) ∈ votes -> a ∈ peers) ->
  elected votes ep c -> elected votes ep c' -> c = c'.
Proof.
  intros Hu Hv (Q & HQ & SQ) (R & HR & SR).
  destruct (quorums_meet Q R) as (a & Ha & Ha'); auto.
  - intros a Ha. apply elem_of_list_to_set. eauto.
  - intros a Ha. apply elem_of_list_to_set. eauto.
  - eauto.
Qed.

(** ** Properties *)

(** C1: one vote per node and epoch.  In a cluster with durable persistence,
    over any network and through any crashes and restarts, no node gives two
    votes (ACCEPTs, or the self-vote of an OFFER) to different candidates in
    one epoch. *)
Theorem one_vote_per_epoch w (Hstar : BROADCAST ∉ peers) (Hfresh : load fresh = (0, None))
  (Hw : reachable fresh peers w) ep a c c' :
  (ep, a, c) ∈ cast w -> (ep, a, c') ∈ cast w -> c = c'.
Proof. apply (wo_unique _ (reachable_ok w Hstar Hfresh Hw)). Qed.

(** C31: at most one winner per epoch among candidates that gave their vote to
    nobody else: two elections of the same epoch won by candidates whose last
    ACCEPT was for another epoch have the same winner. *)
Theorem election_safety w (Hstar : BROADCAST ∉ peers) (Hfresh : load fresh = (0, None))
  (Hw : reachable fresh peers w) ep c c' :
  (ep, c) ∈ won w -> (ep, c') ∈ won w -> c = c'.
Proof.
  intros Hc Hc'. pose proof (reachable_ok w Hstar Hfresh Hw) as W.
  apply (elected_unique (cast w) ep).
  - exact (wo_unique _ W).
  - exact (wo_voters _ W).
  - exact (wo_won _ W _ _ Hc).
  - exact (wo_won _ W _ _ Hc').
Qed.

(** epochs never go back, restarts included: whatever step the cluster
    takes, each node's epoch after it is at least its epoch before it. *)
Theorem epoch_monotone w w' (Hstar : BROADCAST ∉ peers) (Hfresh : load fresh = (0, None))
  (Hw : reachable fresh peers w) (Hs : step fresh peers w w') i e e' :
  nodes w !! i = Some e -> nodes w' !! i = Some e' -> epoch e <= epoch e'.
Proof.
  pose proof (reachable_ok w Hstar Hfresh Hw) as W. intros Hi.
  assert (A : forall j ej ej' out, nodes w !! j = Some ej -> (forall e, i = j -> ej = e -> epoch e <= epoch ej') ->
              nodes (act w j ej' out) !! i = Some e' -> epoch e <= epoch e').
  { intros j ej ej' out Hj Hle. cbn. destruct (decide (j = i)) as [<-|Hne].
    - rewrite lookup_insert_eq. intros [= <-]. apply Hle; [reflexivity | congruence].
    - rewrite lookup_insert_ne by exact Hne. intros H. replace e' with e by congruence. lia. }
  destruct Hs as [w j ej now ej' out Hj Hmax H|w j ej from o now ej' out Hj Ho Hd H|w j ej offset Hj
                  |w j ej c k Hj|w j ej addr r Hj];
    destruct (wo_nodes _ W j ej Hj) as [Hp Hok]; apply (A j ej _ _ Hj); intros ? -> ->.
  - apply (ao_epoch _ _ _ _ _ (tick_ok w j _ now _ _ Hok Hmax H)).
  - apply (ao_epoch _ _ _ _ _ (deliver_ok w j _ from o now _ _ Hstar W Hj Ho Hd H)).
  - reflexivity.
  - reflexivity.
  - rewrite (boot_epoch fresh peers _ _ _ addr r Hok). reflexivity.
Qed.
End Safety.

(** ** Running a cluster *)

(** One action of a run, with what the environment chooses. *)
Inductive action : Type :=
| ATick (i : id) (now : Z)
| ADeliver (i : id) (k : nat) (now : Z)      (* the [k]-th message ever sent *)
| AOffset (i : id) (offset : Z)
| ARestart (i : id) (addr : list byte) (start_role : Role).

Section Run.
Context {P : Type} `{Persist : ElectorPersist P} (fresh : P) (peers : list id).

#[global] Instance delivers_dec from o i : Decision (delivers from o i).
Proof. unfold delivers. apply _. Defined.

(** [None] when the action is not enabled. *)
Definition do_action (x : action) (w : World P) : option (World P) :=
  match x with
  | ATick i now =>
      e ← nodes w !! i;
      if epoch e <? u64_max then let '(e', out) := tick now e in Some (act w i e' out) else None
  | ADeliver i k now =>
      e ← nodes w !! i;
      '(from, o) ← net w !! k;
      if bool_decide (delivers from o i) then
        let '(e', out) := on_message from (msg o) now e in Some (act w i e' out)
      else None
  | AOffset i offset => e ← nodes w !! i; Some (act w i (set_repl_offset offset e) [])
  | ARestart i addr start_role =>
      e ← nodes w !! i; Some (act w i (boot fresh peers (persist e) i addr start_role) [])
  end.

Fixpoint run (l : list action) (w : World P) : option (World P) :=
  match l with
  | [] => Some w
  | x :: r => w' ← do_action x w; run r w'
  end.

(** Every member started fresh, as a replica. *)
Definition start : World P :=
  mkWorld (list_to_map ((fun i => (i, boot fresh peers fresh i [] Replica)) <$> peers)) [] [] [].

Lemma do_action_step x w w' : do_action x w = Some w' -> step fresh peers w w'.
Proof.
  destruct x as [i now|i k now|i off|i addr r]; cbn; intros (e & Hi & H)%bind_Some.
  - destruct (Z.ltb_spec (epoch e) u64_max); [|discriminate].
    destruct (tick now e) as [e' out] eqn:E. injection H as <-. econstructor; eauto.
  - apply bind_Some in H as ([from o] & Hk & H). case_bool_decide as Hd; [|discriminate].
    destruct (on_message from (msg o) now e) as [e' out] eqn:E. injection H as <-.
    eapply step_deliver; eauto. eapply list_elem_of_lookup_2; eauto.
  - injection H as <-. constructor. exact Hi.
  - injection H as <-. constructor. exact Hi.
Qed.

Lemma run_reachable l : forall w w',
  reachable fresh peers w -> run l w = Some w' -> reachable fresh peers w'.
Proof.
  induction l as [|x l IH]; cbn; intros w w' Hw H; [congruence|].
  apply bind_Some in H as (w1 & H1 & H). apply (IH w1); [|exact H].
  econstructor; [exact Hw | apply (do_action_step _ _ _ H1)].
Qed.

Lemma start_reachable l w' : run l start = Some w' -> reachable fresh peers w'.
Proof.
  apply run_reachable. constructor. repeat split; try reflexivity.
  all: cbn in *; apply elem_of_list_to_map_2, list_elem_of_fmap in H as (j & [= -> ->] & Hj); eauto.
Qed.
End Run.

(** ** A vote is on disk before it is on the wire *)

(** the persist-then-send contract of [ElectorPersist].  Whatever handler
    runs, an ACCEPT or an OFFER it emits is covered by the backend's state at
    that moment: loading the backend gives the epoch of the vote and the
    candidate it went to, and the node is in that epoch. *)
Theorem vote_is_durable_before_sent {P} `{Persist : ElectorPersist P} `{!DurablePersist P}
  (e e' : Elector P) out (now : Z)
  (H : (exists from m, on_message from m now e = (e', out)) \/ tick now e = (e', out)) o ep a c :
  o ∈ out -> (ep, a, c) ∈ votes_in (node_id e) o ->
  load (persist e') = (ep, Some c) /\ epoch e' = ep.
Proof.
  intros Ho Hv. destruct H as [(from & m & H)|H].
  - destruct m as [ep' n r off|ep' c' off|ep' b|ep' p addr]; cbn [on_message] in H;
      try (injection H as <- <-; set_solver).
    unfold on_offer in H.
    repeat match type of H with (if ?b then _ else _) = _ => destruct b end;
      try (injection H as <- <-; set_solver).
    injection H as <- <-. apply list_elem_of_singleton in Ho as ->.
    apply list_elem_of_singleton in Hv. injection Hv as -> _ ->. cbn. rewrite load_save. auto.
  - unfold tick in H. destruct (emit_heartbeats _ _ _) as [e1 out1] eqn:E1.
    unfold emit_heartbeats in E1. apply heartbeats_spec in E1 as (C & hbs & -> & Hh). cbn [app] in H.
    assert (Hid : node_id e1 = node_id e) by (rewrite (sc_id _ _ C); destruct (first_tick e); reflexivity).
    destruct (maybe_start_election now e1 hbs) as [e2 out2] eqn:E2.
    assert (Hfin : epoch e' = epoch e2 /\ persist e' = persist e2 /\
                   (o ∈ out2 \/ votes_in (node_id e) o = [])).
    { unfold maybe_finish_candidacy in H.
      repeat match type of H with
             | (if ?b then _ else _) = _ => destruct b
             | match ?b with Some _ => _ | None => _ end = _ => destruct b
             end; injection H as <- <-; cbn; auto.
      apply elem_of_app in Ho as [Ho| ->%list_elem_of_singleton]; auto. }
    destruct Hfin as (-> & -> & [Hin|Hn]); [|rewrite Hn in Hv; set_solver].
    assert (Hq : o ∈ hbs -> False).
    { intros Hb. rewrite Forall_forall in Hh. destruct (Hh o Hb) as (? & ? & ? & ? & Em).
      unfold votes_in in Hv. rewrite Em in Hv. set_solver. }
    unfold maybe_start_election in E2. destruct (negb _); injection E2 as <- <-; [contradiction|].
    apply elem_of_app in Hin as [Hin| ->%list_elem_of_singleton]; [contradiction|].
    apply list_elem_of_singleton in Hv. injection Hv as -> -> ->. cbn. rewrite load_save. auto.
Qed.

(** ** Concrete clusters *)

Definition na : id := bs "a".
Definition nb : id := bs "b".
Definition nc : id := bs "c".
Definition trio : list id := [na; nb; nc].
Definition empty_disk : Disk := (0, None).

(** [a] times out first and is elected in epoch 2 by itself and [b]. *)
Definition election_run : list action :=
  [ATick na 0; ATick nb 0; ATick nc 0; ATick na (5 * secs);
   ADeliver nb 8 (5 * secs); ADeliver na 9 (5 * secs); ATick na (5 * secs)].

(** [a] has a quorum for epoch 2 when it accepts [c]'s OFFER for epoch 3. *)
Definition split_run : list action :=
  [ATick na 0; ATick nb 0; ATick nc 0; ATick na (5 * secs);
   ADeliver nb 8 (5 * secs); ADeliver nc 8 (5 * secs); ADeliver na 9 (5 * secs);
   AOffset nc 1; ATick nc (5 * secs); ADeliver na 13 (5 * secs); ATick na (5 * secs);
   ADeliver nc 14 (5 * secs); ATick nc (5 * secs)].

Definition world_after (l : list action) : World Disk :=
  default (start empty_disk trio) (run empty_disk trio l (start empty_disk trio)).

(** Every action of the run is enabled. *)
Definition runs (l : list action) : bool :=
  match run empty_disk trio l (start empty_disk trio) with Some _ => true | None => false end.

Lemma world_after_reachable l : runs l = true -> reachable empty_disk trio (world_after l).
Proof.
  unfold runs, world_after. destruct (run _ _ l _) as [w|] eqn:Hw; [intros _ | discriminate].
  apply (start_reachable _ _ l), Hw.
Qed.

Lemma star_not_in_trio : BROADCAST ∉ trio.
Proof. apply (bool_decide_unpack _). vm_compute. exact I. Qed.

Lemma lookup_elem {A} (l : list A) (k : nat) (x : A) : l !! k = Some x -> x ∈ l.
Proof. apply list_elem_of_lookup_2. Qed.

Lemma one_vote_per_epoch_witness :
  (2, nb, na) ∈ cast (world_after election_run) /\ na = na.
Proof.
  assert (Hv : (2, nb, na) ∈ cast (world_after election_run))
    by (apply (lookup_elem _ 1); vm_compute; reflexivity).
  split; [exact Hv|].
  apply (one_vote_per_epoch empty_disk trio (world_after election_run)) with (ep := 2) (a := nb).
  - apply star_not_in_trio.
  - reflexivity.
  - apply world_after_reachable. vm_compute. reflexivity.
  - exact Hv.
  - exact Hv.
Defined.

Lemma election_safety_witness :
  (2, na) ∈ won (world_after election_run) /\ na = na.
Proof.
  assert (Hv : (2, na) ∈ won (world_after election_run))
    by (apply (lookup_elem _ 0); vm_compute; reflexivity).
  split; [exact Hv|].
  apply (election_safety empty_disk trio (world_after election_run)) with (ep := 2).
  - apply star_not_in_trio.
  - reflexivity.
  - apply world_after_reachable. vm_compute. reflexivity.
  - exact Hv.
  - exact Hv.
Defined.

(** The elected primary crashes and starts again as a replica, in its epoch. *)
Lemma epoch_monotone_witness :
  epoch <$> nodes (world_after election_run) !! na = Some 2 /\
  forall e, nodes (world_after election_run) !! na = Some e ->
    epoch e <= epoch (boot empty_disk trio (persist e) na [] Replica).
Proof.
  split; [vm_compute; reflexivity|]. intros e E.
  apply (epoch_monotone empty_disk trio (world_after election_run)
           (act (world_after election_run) na (boot empty_disk trio (persist e) na [] Replica) []))
    with (i := na).
  - apply star_not_in_trio.
  - reflexivity.
  - apply world_after_reachable. vm_compute. reflexivity.
  - apply step_restart. exact E.
  - exact E.
  - apply lookup_insert_eq.
Defined.

Lemma vote_is_durable_before_sent_witness :
  let e := boot empty_disk trio empty_disk nb [] Replica in
  let r := on_message na (Offer 2 na 0) 0 e in
  load (persist (fst r)) = (2, Some na) /\ epoch (fst r) = 2.
Proof.
  cbv zeta. set (e := boot empty_disk trio empty_disk nb [] Replica).
  apply (vote_is_durable_before_sent e (fst (on_message na (Offer 2 na 0) 0 e))
           (snd (on_message na (Offer 2 na 0) 0 e)) 0) with (o := mkOutbound na (Accept 2 nb)) (a := nb).
  - left. exists na, (Offer 2 na 0). apply surjective_pairing.
  - apply (lookup_elem _ 0). vm_compute. reflexivity.
  - apply (lookup_elem _ 0). vm_compute. reflexivity.
Defined.

(** ** An election completes *)

Section Progress.
Context {P : Type} `{Persist : ElectorPersist P}.

(** ACCEPTs of the candidate's epoch, in the order they arrive. *)
Definition accepts (l : list id) (e : Elector P) : Elector P :=
  fold_left (fun e a => on_accept (epoch e) a e) l e.

Lemma accepts_spec l : forall e, role e = Candidate ->
  accepts l e = set_accept_votes (list_to_set l ∪ accept_votes e) e.
Proof.
  induction l as [|a l IH]; intros e Hr; cbn.
  - rewrite (left_id_L ∅ (∪)). destruct e; reflexivity.
  - assert (on_accept (epoch e) a e = set_accept_votes ({[a]} ∪ accept_votes e) e) as ->.
    { unfold on_accept. rewrite bool_decide_true, Z.eqb_refl by exact Hr. reflexivity. }
    rewrite IH by exact Hr. unfold set_accept_votes. cbn. f_equal. set_solver.
Qed.

(** The tick of a candidate with a quorum. *)
Lemma tick_wins now e t :
  role e = Candidate -> offer_at e = Some t -> quorum_size e <= Z.of_nat (size (accept_votes e)) ->
  exists e' hbs, tick now e = (e', hbs ++ [mkOutbound BROADCAST (Announce (epoch e) (node_id e) (my_advertised_addr e))]) /\
    role e' = Primary /\ current_primary e' = Some (node_id e) /\ epoch e' = epoch e.
Proof.
  intros Hr Ht Hq. unfold tick. set (e0 := match first_tick e with None => _ | Some _ => e end).
  assert (C0 : same_core e e0 /\ offer_at e0 = offer_at e /\ my_advertised_addr e0 = my_advertised_addr e)
    by (subst e0; destruct (first_tick e); repeat split; reflexivity).
  clearbody e0. destruct C0 as (C0 & O0 & A0).
  destruct (emit_heartbeats now e0 []) as [e1 out1] eqn:E1. unfold emit_heartbeats in E1.
  assert (K : forall l (x : Elector P) out (x' : Elector P) out', heartbeats l now x out = (x', out') ->
              offer_at x' = offer_at x /\ my_advertised_addr x' = my_advertised_addr x).
  { induction l as [|p l IH]; cbn [heartbeats]; intros x out x' out' H; [injection H as <- <-; auto|].
    repeat case_match; try (apply IH in H; exact H). }
  destruct (K _ _ _ _ _ E1) as [O1 A1]. apply heartbeats_spec in E1 as (C1 & hbs & -> & _).
  destruct (same_core_trans _ _ _ C0 C1) as [D1 D2 D3 D4 D5 _ _].
  unfold maybe_start_election, election_preconditions_met. rewrite D3, Hr.
  rewrite (bool_decide_false (Candidate = Replica)) by discriminate. cbn [negb].
  unfold maybe_finish_candidacy, quorum_size in *. rewrite D3, Hr, O1, O0, Ht, D2, D5.
  rewrite bool_decide_true by reflexivity. cbn [negb]. rewrite (proj2 (Z.leb_le _ _) Hq).
  eexists _, hbs. cbn. rewrite A1, A0, D4, D1. auto.
Qed.

Lemma on_announce_commits ep p (f : Elector P) :
  epoch f < ep \/ epoch f = ep /\ current_primary f <> Some p -> p <> node_id f ->
  role (on_announce ep p f) = Replica /\ epoch (on_announce ep p f) = ep /\
  current_primary (on_announce ep p f) = Some p.
Proof.
  intros Hf Hp. unfold on_announce.
  replace ((ep <=? epoch f) && bool_decide (current_primary f = Some p)) with false; cycle 1.
  { symmetry. apply andb_false_iff. destruct Hf as [Hf|[_ Hf]]; [left; apply Z.leb_gt; lia | right].
    apply bool_decide_eq_false. exact Hf. }
  replace (ep <? epoch f) with false by (symmetry; apply Z.ltb_ge; lia).
  cbn. rewrite bool_decide_false by exact Hp. auto.
Qed.

(** C32: an election with a quorum of answers completes.  A candidate that gets
    ACCEPTs of its epoch from [l], in any order and with repetitions, and holds
    a quorum with them, is primary of its epoch after its next tick and
    announces it; every other node of a lower epoch, or of the same epoch under
    another primary, that gets the announcement then follows it. *)
Theorem quorum_elects (e : Elector P) l t now
  (Hr : role e = Candidate) (Ht : offer_at e = Some t)
  (Hq : quorum_size e <= Z.of_nat (size (list_to_set l ∪ accept_votes e))) :
  exists e' hbs m, tick now (accepts l e) = (e', hbs ++ [mkOutbound BROADCAST m]) /\
    role e' = Primary /\ current_primary e' = Some (node_id e) /\ epoch e' = epoch e /\
    forall (f : Elector P) later,
      epoch f < epoch e \/ epoch f = epoch e /\ current_primary f <> Some (node_id e) ->
      node_id e <> node_id f ->
      let f' := fst (on_message (node_id e) m later f) in
      role f' = Replica /\ epoch f' = epoch e /\ current_primary f' = Some (node_id e).
Proof.
  rewrite accepts_spec by exact Hr.
  destruct (tick_wins now (set_accept_votes (list_to_set l ∪ accept_votes e) e) t) as (e' & hbs & H & R & C & E);
    [exact Hr | exact Ht | exact Hq|].
  eexists e', hbs, _. split; [exact H|]. repeat split; auto; cbn; apply on_announce_commits; auto.
Qed.
End Progress.

Lemma quorum_elects_witness :
  let e := fst (tick (5 * secs) (fst (tick 0 (boot empty_disk trio empty_disk na [] Replica)))) in
  exists e' hbs m, tick (6 * secs) (accepts [nb; nb] e) = (e', hbs ++ [mkOutbound BROADCAST m]) /\
    role e' = Primary /\ epoch e' = 2.
Proof.
  cbv zeta. set (e := fst (tick (5 * secs) _)).
  destruct (quorum_elects e [nb; nb] (5 * secs) (6 * secs)) as (e' & hbs & m & H & R & C & E & _).
  - vm_compute. reflexivity.
  - vm_compute. reflexivity.
  - vm_compute. discriminate.
  - exists e', hbs, m. split; [exact H|]. split; [exact R|]. rewrite E. vm_compute. reflexivity.
Defined.

(** ** A vote given away elects its giver *)

Definition no_restart (x : action) : Prop := match x with ARestart _ _ _ => False | _ => True end.

(** C2: why the safety of elections needs its restriction.  Any candidate that
    holds a quorum and then gives its vote for a higher epoch to a better OFFER
    keeps its role and its tally: its next tick announces it as primary of the
    epoch in which its own durable vote is the other's.  And so two primaries of
    one epoch come about: three fresh nodes with durable backends reach them by
    ticks, deliveries and offset reports alone, no node ever restarting. *)
Theorem split_brain :
  (forall P (Persist : ElectorPersist P) (Durable : DurablePersist P) (e : Elector P) t ep c off now now',
     role e = Candidate -> offer_at e = Some t -> quorum_size e <= Z.of_nat (size (accept_votes e)) ->
     epoch e < ep -> my_repl_offset e < off -> last_accept_epoch e <> Some ep ->
     exists e1 e2 hbs, on_message c (Offer ep c off) now e = (e1, [mkOutbound c (Accept ep (node_id e))]) /\
       load (persist e1) = (ep, Some c) /\
       tick now' e1 = (e2, hbs ++ [mkOutbound BROADCAST (Announce ep (node_id e) (my_advertised_addr e))]) /\
       role e2 = Primary /\ epoch e2 = ep) /\
  exists l w, Forall no_restart l /\ run empty_disk trio l (start empty_disk trio) = Some w /\
    (fun e => (role e, epoch e)) <$> nodes w !! na = Some (Primary, 3) /\
    (fun e => (role e, epoch e)) <$> nodes w !! nc = Some (Primary, 3).
Proof.
  split.
  - intros P Persist Durable e t ep c off now now' Hr Ht Hq He Ho Hl. cbn [on_message]. unfold on_offer.
    destruct (Z.leb_spec ep (epoch e)); [lia|]. destruct (Z.ltb_spec off (my_repl_offset e)); [lia|].
    destruct (Z.eqb_spec (my_repl_offset e) off); [lia|]. rewrite bool_decide_false by exact Hl. cbn [andb].
    eexists. edestruct tick_wins as (e2 & hbs & T & R & _ & E); cycle 3.
    + exists e2, hbs. split; [reflexivity|]. split; [cbn; apply load_save|]. split; [exact T|]. by split.
    + exact Hr.
    + exact Ht.
    + exact Hq.
  - exists split_run, (world_after split_run). split; [repeat constructor|]. split; [|split]; vm_compute; reflexivity.
Qed.
