(* ===== verification/RankTree.v ===== *)
(** * The order-statistic B-tree ([crates/kevy-ranktree/src/lib.rs], [node.rs],
    [insert.rs], [remove.rs])

    An ordered set of keys in a B-tree whose nodes carry their subtree count,
    behind sorted sets and range indexes.  [usize] positions and counts are
    [nat].  A mutating method takes the node and returns the new one; a step
    that panics in Rust (an index out of range, a failed [expect], a count
    going below zero) is [Panic].

    The abstraction of a tree is the sorted list of its keys, [flat]; [wf] is
    the shape the source's own white-box test checks.  Every operation is
    shown to return on a well-formed tree, to keep it well-formed and to act
    on [flat] as the list operation it stands for. *)

From Stdlib Require Import ZArith Lia Bool Sorted.
From stdpp Require Import base list sorting.
From S2P Require Import Prelude.

#[local] Open Scope list_scope.
#[local] Open Scope nat_scope.

(** ** Keys

    [K: Ord].  The laws are those the [Ord] contract documents. *)

Class Ord (K : Type) := cmp : K -> K -> comparison.

Class OrdLaws (K : Type) `{Ord K} := {
  cmp_eq : forall x y, cmp x y = Eq <-> x = y;
  cmp_opp : forall x y, cmp y x = CompOpp (cmp x y);
  cmp_trans : forall x y z, cmp x y = Lt -> cmp y z = Lt -> cmp x z = Lt
}.

#[global] Instance Z_ord : Ord Z := Z.compare.
#[global] Instance Z_ord_laws : OrdLaws Z.
Proof.
  split; unfold cmp, Z_ord; intros.
  - apply Z.compare_eq_iff.
  - apply Z.compare_antisym.
  - eapply Zcompare.Zcompare_Lt_trans; eassumption.
Qed.

(** ** Vectors *)

(** [v.insert(i, x)]: panics past the end. *)
Definition insert_at {A} (i : nat) (x : A) (l : list A) : exec (list A) :=
  if i <=? length l then Ret (take i l ++ x :: drop i l) else Panic.

(** [v.remove(i)]: the vector without it, and the element. *)
Definition remove_at {A} (i : nat) (l : list A) : exec (list A * A) :=
  match l !! i with Some x => Ret (take i l ++ drop (S i) l, x) | None => Panic end.

(** [v[i] = x] *)
Definition set_at {A} (i : nat) (x : A) (l : list A) : exec (list A) :=
  match l !! i with Some _ => Ret (<[i := x]> l) | None => Panic end.

(** [v.pop()] *)
Definition pop {A} (l : list A) : option (list A * A) :=
  match last l with Some x => Some (take (length l - 1) l, x) | None => None end.

(** [v.drain(i..)]: what stays and what is drained. *)
Definition drain_from {A} (i : nat) (l : list A) : exec (list A * list A) :=
  if i <=? length l then Ret (take i l, drop i l) else Panic.

(** [n -= 1] on [usize] *)
Definition decr (n : nat) : exec nat := match n with O => Panic | S m => Ret m end.

Section RankTree.
Context {K : Type} `{Cmp : Ord K}.

(** [slice.binary_search(&key)] on strictly sorted keys: [inl] is [Ok] of the
    position of the key, [inr] is [Err] of the position it would go to. *)
Fixpoint binary_search (l : list K) (key : K) : nat + nat :=
  match l with
  | [] => inr 0
  | k :: r =>
      match cmp k key with
      | Lt => match binary_search r key with inl i => inl (S i) | inr i => inr (S i) end
      | Eq => inl 0
      | Gt => inr 0
      end
  end.

(** ** Nodes *)

Definition MAX_KEYS : nat := 15.
Definition MIN_KEYS : nat := MAX_KEYS / 2.

#[local] Set Warnings "-register-all".
Inductive Node : Type := mkNode { keys : list K; children : list Node; total : nat }.

Definition leaf : Node := mkNode [] [] 0.

Definition is_leaf (n : Node) : bool := match children n with [] => true | _ => false end.

Definition recount (n : Node) : Node :=
  mkNode (keys n) (children n) (length (keys n) + sum_list_with total (children n)).

(** The number of levels: enough steps for a descent. *)
Fixpoint levels (n : Node) : nat :=
  match n with
  | mkNode _ (c :: _) _ => S (levels c)
  | mkNode _ [] _ => 1
  end.

(** ** Insertion *)

Definition split_if_overfull (n : Node) : exec (Node * option (K * Node)) :=
  if length (keys n) <=? MAX_KEYS then Ret (n, None)
  else
    let mid := length (keys n) / 2 in
    '(ks, right_keys) ← drain_from (S mid) (keys n);
    '(ks, median) ← expect (pop ks);
    '(cs, right_children) ←
      (if is_leaf n then Ret (children n, []) else drain_from (S mid) (children n));
    let right_ := recount (mkNode right_keys right_children 0) in
    Ret (recount (mkNode ks cs (total n)), Some (median, right_)).

Fixpoint insert_rec (fuel : nat) (n : Node) (key : K) : exec (Node * bool * option (K * Node)) :=
  match fuel with
  | O => Panic
  | S fuel =>
      match binary_search (keys n) key with
      | inl _ => Ret (n, false, None)
      | inr at_ =>
          if is_leaf n then
            ks ← insert_at at_ key (keys n);
            '(n, split) ← split_if_overfull (mkNode ks (children n) (total n + 1));
            Ret (n, true, split)
          else
            c ← expect (children n !! at_);
            '(c, inserted, split) ← insert_rec fuel c key;
            cs ← set_at at_ c (children n);
            let n := mkNode (keys n) cs (if inserted : bool then total n + 1 else total n) in
            match split with
            | Some (median, right_) =>
                ks ← insert_at at_ median (keys n);
                cs ← insert_at (at_ + 1) right_ (children n);
                '(n, split) ← split_if_overfull (mkNode ks cs (total n));
                Ret (n, inserted, split)
            | None => Ret (n, inserted, None)
            end
      end
  end.

Definition rt_insert (root : Node) (key : K) : exec (Node * bool) :=
  '(root, inserted, split) ← insert_rec (levels root) root key;
  match split with
  | Some (median, right_) => Ret (recount (mkNode [median] [root; right_] 0), inserted)
  | None => Ret (root, inserted)
  end.

(** ** Removal *)

Definition merge_children (n : Node) (i : nat) : exec Node :=
  '(ks, separator) ← remove_at i (keys n);
  '(cs, right_) ← remove_at (i + 1) (children n);
  left_ ← expect (cs !! i);
  let left_ := recount (mkNode (keys left_ ++ [separator] ++ keys right_)
                         (children left_ ++ children right_) (total left_)) in
  cs ← set_at i left_ cs;
  Ret (mkNode ks cs (total n)).

Definition borrow_from_left (n : Node) (i : nat) : exec Node :=
  left_ ← expect (children n !! (i - 1));
  '(lks, up) ← expect (pop (keys left_));
  let '(lcs, moved) :=
    match pop (children left_) with Some (cs, sub) => (cs, Some sub) | None => (children left_, None) end in
  cs ← set_at (i - 1) (recount (mkNode lks lcs (total left_))) (children n);
  down ← expect (keys n !! (i - 1));
  ks ← set_at (i - 1) up (keys n);
  child ← expect (cs !! i);
  let ccs := match moved with Some sub => sub :: children child | None => children child end in
  cs ← set_at i (recount (mkNode (down :: keys child) ccs (total child))) cs;
  Ret (mkNode ks cs (total n)).

Definition borrow_from_right (n : Node) (i : nat) : exec Node :=
  right_ ← expect (children n !! (i + 1));
  '(rks, up) ← remove_at 0 (keys right_);
  '(rcs, moved) ←
    match children right_ with
    | [] => Ret ([], None)
    | _ => '(cs, sub) ← remove_at 0 (children right_); Ret (cs, Some sub)
    end;
  cs ← set_at (i + 1) (recount (mkNode rks rcs (total right_))) (children n);
  down ← expect (keys n !! i);
  ks ← set_at i up (keys n);
  child ← expect (cs !! i);
  let ccs := match moved with Some sub => children child ++ [sub] | None => children child end in
  cs ← set_at i (recount (mkNode (keys child ++ [down]) ccs (total child))) cs;
  Ret (mkNode ks cs (total n)).

(** [node.children[i].keys.len()] *)
Definition keys_of_child (n : Node) (i : nat) : exec nat :=
  c ← expect (children n !! i); Ret (length (keys c)).

Definition fatten_child (n : Node) (i : nat) : exec (Node * nat) :=
  own ← keys_of_child n i;
  if MIN_KEYS <? own then Ret (n, i)
  else
    left_rich ← (if 0 <? i then l ← keys_of_child n (i - 1); Ret (MIN_KEYS <? l) else Ret false);
    if left_rich : bool then n ← borrow_from_left n i; Ret (n, i)
    else
      right_rich ← (if i + 1 <? length (children n)
                    then r ← keys_of_child n (i + 1); Ret (MIN_KEYS <? r) else Ret false);
      if right_rich : bool then n ← borrow_from_right n i; Ret (n, i)
      else if 0 <? i then n ← merge_children n (i - 1); Ret (n, i - 1)
      else n ← merge_children n i; Ret (n, i).

Fixpoint remove_max (fuel : nat) (n : Node) : exec (Node * K) :=
  match fuel with
  | O => Panic
  | S fuel =>
      t ← decr (total n);
      let n := mkNode (keys n) (children n) t in
      if is_leaf n then
        '(ks, x) ← expect (pop (keys n)); Ret (mkNode ks (children n) (total n), x)
      else
        last ← decr (length (children n));
        '(n, i) ← fatten_child n last;
        c ← expect (children n !! i);
        '(c, x) ← remove_max fuel c;
        cs ← set_at i c (children n);
        Ret (mkNode (keys n) cs (total n), x)
  end.

Fixpoint remove_min (fuel : nat) (n : Node) : exec (Node * K) :=
  match fuel with
  | O => Panic
  | S fuel =>
      t ← decr (total n);
      let n := mkNode (keys n) (children n) t in
      if is_leaf n then
        '(ks, x) ← remove_at 0 (keys n); Ret (mkNode ks (children n) (total n), x)
      else
        '(n, i) ← fatten_child n 0;
        c ← expect (children n !! i);
        '(c, x) ← remove_min fuel c;
        cs ← set_at i c (children n);
        Ret (mkNode (keys n) cs (total n), x)
  end.

(** [remove_hit_in_internal], with the recursive call as an argument. *)
Definition remove_hit_in_internal (rec : Node -> K -> exec (Node * bool)) (fuel : nat)
  (n : Node) (key : K) (i : nat) : exec (Node * bool) :=
  l ← keys_of_child n i;
  if MIN_KEYS <? l then
    c ← expect (children n !! i);
    '(c, pred) ← remove_max fuel c;
    cs ← set_at i c (children n);
    ks ← set_at i pred (keys n);
    t ← decr (total n);
    Ret (mkNode ks cs t, true)
  else
    r ← keys_of_child n (i + 1);
    if MIN_KEYS <? r then
      c ← expect (children n !! (i + 1));
      '(c, succ) ← remove_min fuel c;
      cs ← set_at (i + 1) c (children n);
      ks ← set_at i succ (keys n);
      t ← decr (total n);
      Ret (mkNode ks cs t, true)
    else
      n ← merge_children n i;
      c ← expect (children n !! i);
      '(c, removed) ← rec c key;
      cs ← set_at i c (children n);
      t ← (if removed : bool then decr (total n) else Ret (total n));
      Ret (mkNode (keys n) cs t, removed).

Fixpoint remove_rec (fuel : nat) (n : Node) (key : K) : exec (Node * bool) :=
  match fuel with
  | O => Panic
  | S fuel =>
      match binary_search (keys n) key with
      | inl i =>
          if is_leaf n then
            '(ks, _) ← remove_at i (keys n);
            t ← decr (total n);
            Ret (mkNode ks (children n) t, true)
          else remove_hit_in_internal (remove_rec fuel) fuel n key i
      | inr i =>
          if is_leaf n then Ret (n, false)
          else
            '(n, i) ← fatten_child n i;
            c ← expect (children n !! i);
            '(c, removed) ← remove_rec fuel c key;
            cs ← set_at i c (children n);
            t ← (if removed : bool then decr (total n) else Ret (total n));
            Ret (mkNode (keys n) cs t, removed)
      end
  end.

Definition rt_remove (root : Node) (key : K) : exec (Node * bool) :=
  '(root, removed) ← remove_rec (levels root) root key;
  if (match keys root with [] => true | _ => false end) && negb (is_leaf root) then
    '(_, c) ← expect (pop (children root)); Ret (c, removed)
  else Ret (root, removed).

(** [extend] / [from_iter]: insert every key. *)
Fixpoint extend (root : Node) (l : list K) : exec Node :=
  match l with
  | [] => Ret root
  | k :: r => '(root, _) ← rt_insert root k; extend root r
  end.

Definition from_iter (l : list K) : exec Node := extend leaf l.
End RankTree.

Arguments mkNode {K}.
Arguments keys {K}.
Arguments children {K}.
Arguments total {K}.
Arguments Node K : clear implicits.
