(* ===== verification/RankTreeSpec.v ===== *)
(** * Insertion and removal in the order-statistic tree

    The sorted-list abstraction of [RankTree], the B-tree invariant, and the
    refinement: on a well-formed tree [rt_insert], [rt_remove] and [extend]
    return, keep the invariant and act on the keys as on a sorted list. *)

From Stdlib Require Import ZArith Lia Bool Sorted.
From stdpp Require Import base list sorting.
From S2P Require Import Prelude RankTree.

#[local] Open Scope list_scope.
#[local] Open Scope nat_scope.

(** ** Vectors split at a position *)

Lemma insert_at_app {A} i (x : A) l1 l2 :
  i = length l1 -> insert_at i x (l1 ++ l2) = Ret (l1 ++ x :: l2).
Proof.
  intros ->. unfold insert_at. rewrite length_app.
  destruct (Nat.leb_spec (length l1) (length l1 + length l2)); [|lia].
  rewrite take_app_length, drop_app_length. reflexivity.
Qed.

Lemma remove_at_app {A} i (x : A) l1 l2 :
  i = length l1 -> remove_at i (l1 ++ x :: l2) = Ret (l1 ++ l2, x).
Proof.
  intros ->. unfold remove_at. rewrite list_lookup_middle by reflexivity.
  rewrite take_app_length. do 3 f_equal.
  rewrite (cons_middle x), app_assoc. apply drop_app_length'. rewrite length_app. cbn. lia.
Qed.

Lemma set_at_app {A} i (x y : A) l1 l2 :
  i = length l1 -> set_at i y (l1 ++ x :: l2) = Ret (l1 ++ y :: l2).
Proof.
  intros ->. unfold set_at. rewrite list_lookup_middle by reflexivity.
  rewrite insert_app_r_alt by lia. rewrite Nat.sub_diag. reflexivity.
Qed.

Lemma expect_app {A} i (x : A) l1 l2 : i = length l1 -> expect ((l1 ++ x :: l2) !! i) = Ret x.
Proof. intros H. rewrite list_lookup_middle by exact H. reflexivity. Qed.

Lemma pop_snoc {A} (x : A) l : pop (l ++ [x]) = Some (l, x).
Proof.
  unfold pop. rewrite last_snoc, length_app. cbn [length].
  replace (length l + 1 - 1) with (length l) by lia. rewrite take_app_length. reflexivity.
Qed.

Lemma drain_app {A} i (l1 l2 : list A) : i = length l1 -> drain_from i (l1 ++ l2) = Ret (l1, l2).
Proof.
  intros ->. unfold drain_from. rewrite length_app.
  destruct (Nat.leb_spec (length l1) (length l1 + length l2)); [|lia].
  rewrite take_app_length, drop_app_length. reflexivity.
Qed.

Lemma drain_app_snoc {A} i (x : A) l1 l2 :
  i = S (length l1) -> drain_from i (l1 ++ x :: l2) = Ret (l1 ++ [x], l2).
Proof.
  intros ->. change (l1 ++ x :: l2) with (l1 ++ [x] ++ l2). rewrite app_assoc.
  apply drain_app. rewrite length_app. cbn. lia.
Qed.

Lemma insert_at_app_snoc {A} i (x y : A) l1 l2 :
  i = S (length l1) -> insert_at i y (l1 ++ x :: l2) = Ret (l1 ++ x :: y :: l2).
Proof.
  intros ->. change (l1 ++ x :: l2) with (l1 ++ [x] ++ l2). rewrite app_assoc, insert_at_app.
  - rewrite <- app_assoc. reflexivity.
  - rewrite length_app. cbn. lia.
Qed.

Lemma expect_app_snoc {A} i (x y : A) l1 l2 :
  i = S (length l1) -> expect ((l1 ++ x :: y :: l2) !! i) = Ret y.
Proof.
  intros ->. change (l1 ++ x :: y :: l2) with (l1 ++ [x] ++ y :: l2). rewrite app_assoc.
  apply expect_app. rewrite length_app. cbn. lia.
Qed.

Lemma set_at_app_snoc {A} i (x y z : A) l1 l2 :
  i = S (length l1) -> set_at i z (l1 ++ x :: y :: l2) = Ret (l1 ++ x :: z :: l2).
Proof.
  intros ->. change (l1 ++ x :: y :: l2) with (l1 ++ [x] ++ y :: l2). rewrite app_assoc, (set_at_app _ y).
  - rewrite <- app_assoc. reflexivity.
  - rewrite length_app. cbn. lia.
Qed.

Lemma remove_at_app_snoc {A} i (x y : A) l1 l2 :
  i = S (length l1) -> remove_at i (l1 ++ x :: y :: l2) = Ret (l1 ++ x :: l2, y).
Proof.
  intros ->. change (l1 ++ x :: y :: l2) with (l1 ++ [x] ++ y :: l2). rewrite app_assoc, (remove_at_app _ y).
  - rewrite <- app_assoc. reflexivity.
  - rewrite length_app. cbn. lia.
Qed.

(** A list with at least [i] elements, split there. *)
Lemma split_list {A} (l : list A) i : i <= length l -> exists l1 l2, l = l1 ++ l2 /\ length l1 = i.
Proof. intros H. exists (take i l), (drop i l). rewrite take_drop, length_take. split; [auto | lia]. Qed.

Lemma split_list_at {A} (l : list A) i :
  i < length l -> exists l1 x l2, l = l1 ++ x :: l2 /\ length l1 = i.
Proof.
  intros H. destruct (split_list l i) as (l1 & [|x l2] & -> & Hl); [lia | |eauto].
  rewrite length_app in H. cbn in H. lia.
Qed.

Lemma unsnoc {A} (l : list A) : 0 < length l -> exists l' x, l = l' ++ [x].
Proof. destruct l as [|x l] using rev_ind; cbn; [lia | eauto]. Qed.

(** Equations between concatenations. *)
Ltac app_eq := repeat first [rewrite <- app_assoc | progress cbn [app]]; reflexivity.

(** Arithmetic with the bounds of a node. *)
Ltac keys_lia := change MIN_KEYS with 7 in *; change MAX_KEYS with 15 in *; cbn in *; lia.

Section Spec.
Context {K : Type} `{Cmp : Ord K}.

Definition lt (x y : K) : Prop := cmp x y = Lt.
Abbreviation sorted := (StronglySorted lt).
Abbreviation below k := (Forall (fun x => lt x k)).
Abbreviation above k := (Forall (fun x => lt k x)).

(** ** The keys of a tree *)

Fixpoint interleave (ls : list (list K)) (ks : list K) : list K :=
  match ls with
  | [] => ks
  | l :: ls => match ks with [] => l | k :: ks => l ++ k :: interleave ls ks end
  end.

Fixpoint flat (n : Node K) : list K :=
  match n with mkNode ks cs _ => interleave (map flat cs) ks end.

(** What comes before and after a child in its parent. *)
Fixpoint pre (ls : list (list K)) (ks : list K) : list K :=
  match ls, ks with l :: ls, k :: ks => l ++ k :: pre ls ks | _, _ => [] end.

Fixpoint post (ks : list K) (ls : list (list K)) : list K :=
  match ks, ls with
  | k :: ks, l :: ls => k :: l ++ post ks ls
  | ks, [] => ks
  | [], _ => []
  end.

(** ** The B-tree invariant *)

(** A tree of height [h] whose root has at least [m] keys. *)
Fixpoint wf (h m : nat) (n : Node K) : Prop :=
  m <= length (keys n) <= MAX_KEYS /\ total n = length (flat n) /\
  match h with
  | O => children n = []
  | S h => length (children n) = S (length (keys n)) /\ Forall (wf h MIN_KEYS) (children n)
  end.

Arguments wf : simpl never.
Arguments MIN_KEYS : simpl never.
Arguments MAX_KEYS : simpl never.

(** The part that concerns the children. *)
Definition body (h : nat) (n : Node K) : Prop :=
  match h with
  | O => children n = []
  | S h => length (children n) = S (length (keys n)) /\ Forall (wf h MIN_KEYS) (children n)
  end.

(** The whole tree: an internal root has a key, the keys ascend strictly. *)
Definition tree_ok (t : Node K) : Prop :=
  exists h, wf h (if h is O then 0 else 1) t /\ sorted (flat t).

(** ** The sorted list it stands for *)

Fixpoint ins (key : K) (l : list K) : list K :=
  match l with
  | [] => [key]
  | k :: r => match cmp k key with Lt => k :: ins key r | Eq => l | Gt => key :: l end
  end.

Fixpoint del (key : K) (l : list K) : list K :=
  match l with
  | [] => []
  | k :: r => match cmp k key with Eq => r | _ => k :: del key r end
  end.

Definition mem (key : K) (l : list K) : bool :=
  existsb (fun k => match cmp k key with Eq => true | _ => false end) l.

(** ** Interleavings *)

Lemma interleave_cons l ls ks : length ls = length ks -> interleave (l :: ls) ks = l ++ post ks ls.
Proof.
  revert l ks. induction ls as [|l' ls IH]; intros l [|k ks] H; try discriminate; cbn.
  - rewrite app_nil_r. reflexivity.
  - f_equal. f_equal. apply IH. cbn in H. lia.
Qed.

Lemma interleave_focus l1 c l2 k1 k2 :
  length l1 = length k1 -> length l2 = length k2 ->
  interleave (l1 ++ c :: l2) (k1 ++ k2) = pre l1 k1 ++ c ++ post k2 l2.
Proof.
  revert k1. induction l1 as [|l l1 IH]; intros [|k k1] H1 H2; try discriminate; cbn [app pre].
  - apply interleave_cons, H2.
  - cbn [interleave]. rewrite IH by (cbn in *; lia). rewrite <- app_assoc. reflexivity.
Qed.

Lemma interleave_cut l1 l2 k1 m k2 :
  length l1 = S (length k1) ->
  interleave (l1 ++ l2) (k1 ++ m :: k2) = interleave l1 k1 ++ m :: interleave l2 k2.
Proof.
  revert k1. induction l1 as [|l l1 IH]; intros k1 H; [discriminate|].
  destruct k1 as [|k k1].
  - destruct l1; [reflexivity | discriminate].
  - cbn. rewrite <- app_assoc. cbn. do 2 f_equal. apply IH. cbn in H. lia.
Qed.

Lemma pre_app l1 l2 k1 k2 :
  length l1 = length k1 -> pre (l1 ++ l2) (k1 ++ k2) = pre l1 k1 ++ pre l2 k2.
Proof.
  revert k1. induction l1 as [|l l1 IH]; intros [|k k1] H; try discriminate; [reflexivity|].
  cbn. rewrite <- app_assoc. cbn. do 2 f_equal. apply IH. cbn in H. lia.
Qed.

Lemma length_interleave ls ks :
  ls = [] \/ length ls = S (length ks) ->
  length (interleave ls ks) = length ks + sum_list_with length ls.
Proof.
  revert ks. induction ls as [|l ls IH]; intros ks H; cbn; [lia|].
  destruct H as [H|H]; [discriminate|]. cbn in H. destruct ks as [|k ks]; cbn in *.
  - destruct ls; cbn in *; lia.
  - rewrite length_app. cbn. rewrite IH by (right; lia). lia.
Qed.

Lemma length_pre ls ks : length ls = length ks -> length (pre ls ks) = length ks + sum_list_with length ls.
Proof.
  revert ks. induction ls as [|l ls IH]; intros [|k ks] H; try discriminate; [reflexivity|]. cbn in *.
  rewrite length_app. cbn. rewrite IH by lia. lia.
Qed.

Lemma flat_eq n : flat n = interleave (map flat (children n)) (keys n).
Proof. destruct n. reflexivity. Qed.

Lemma body_lengths h n : body h n -> children n = [] \/ length (children n) = S (length (keys n)).
Proof. destruct h; cbn; tauto. Qed.

Lemma flat_lengths h n :
  body h n -> map flat (children n) = [] \/ length (map flat (children n)) = S (length (keys n)).
Proof.
  intros Hb. apply body_lengths in Hb as [-> |Hb]; [left; reflexivity | right; rewrite length_map; exact Hb].
Qed.

Lemma wf_iff h m n :
  wf h m n <-> m <= length (keys n) <= MAX_KEYS /\ total n = length (flat n) /\ body h n.
Proof. destruct h; reflexivity. Qed.

Lemma wf_length h m n :
  wf h m n -> total n = length (keys n) + sum_list_with length (map flat (children n)).
Proof.
  intros (_ & -> & Hb)%wf_iff. rewrite flat_eq. apply length_interleave, (flat_lengths h), Hb.
Qed.

Lemma wf_weaken h m m' n : m' <= m -> wf h m n -> wf h m' n.
Proof. rewrite !wf_iff. intuition lia. Qed.

Lemma sum_totals h cs :
  Forall (wf h MIN_KEYS) cs -> sum_list_with total cs = sum_list_with length (map flat cs).
Proof.
  induction 1 as [|c cs Hc _ IH]; cbn; [reflexivity|]. apply wf_iff in Hc as (_ & -> & _). lia.
Qed.

(** Recounting is right when the children are. *)
Lemma recount_total h ks cs t :
  body h (mkNode ks cs t) -> total (recount (mkNode ks cs t)) = length (flat (mkNode ks cs t)).
Proof.
  intros H. rewrite flat_eq, length_interleave.
  2:{ apply body_lengths in H as [H|H]; cbn in *; [left; subst; reflexivity | right; rewrite length_map; exact H]. }
  cbn [total recount keys children]. f_equal. destruct h; cbn in H.
  - subst cs. reflexivity.
  - apply (sum_totals h), H.
Qed.

Lemma flat_recount n : flat (recount n) = flat n.
Proof. destruct n. reflexivity. Qed.

Lemma wf_recount h m ks cs t :
  m <= length ks <= MAX_KEYS -> body h (mkNode ks cs t) -> wf h m (recount (mkNode ks cs t)).
Proof.
  intros Hk Hb. apply wf_iff. split; [exact Hk|]. split; [|exact Hb].
  rewrite flat_recount. apply (recount_total h), Hb.
Qed.

Lemma is_leaf_body h n : body h n -> is_leaf n = match h with O => true | S _ => false end.
Proof.
  unfold is_leaf. destruct h; cbn; [intros ->; reflexivity|]. destruct (children n); [intros [? _]; discriminate | reflexivity].
Qed.

Lemma wf_levels h m n : wf h m n -> levels n = S h.
Proof.
  revert m n. induction h as [|h IH]; intros m [ks cs t] H; apply wf_iff in H as (_ & _ & H); cbn in H.
  - subst. reflexivity.
  - destruct H as [Hl Hc]. destruct cs as [|c cs]; [discriminate|]. cbn.
    rewrite (IH MIN_KEYS); [reflexivity|]. inversion Hc. assumption.
Qed.

(** A child in its parent. *)
Lemma flat_focus l1 c l2 k1 k2 t :
  length l1 = length k1 -> length l2 = length k2 ->
  flat (mkNode (k1 ++ k2) (l1 ++ c :: l2) t) = pre (map flat l1) k1 ++ flat c ++ post k2 (map flat l2).
Proof.
  intros H1 H2. cbn [flat]. rewrite map_app. cbn [map]. apply interleave_focus; rewrite length_map; assumption.
Qed.

(** ** Order *)

Context {Laws : OrdLaws K}.

Lemma lt_trans x y z : lt x y -> lt y z -> lt x z.
Proof. apply cmp_trans. Qed.

Lemma cmp_refl x : cmp x x = Eq.
Proof. apply cmp_eq. reflexivity. Qed.

Lemma cmp_gt x y : cmp x y = Gt <-> lt y x.
Proof. unfold lt. rewrite (cmp_opp x y). destruct (cmp x y); cbn; split; congruence. Qed.

Lemma sorted_cons k l : sorted (k :: l) <-> sorted l /\ above k l.
Proof. split; [apply StronglySorted_inv | intros []; constructor; assumption]. Qed.

Lemma sorted_app l1 l2 :
  sorted (l1 ++ l2) <-> sorted l1 /\ sorted l2 /\ forall x y, x ∈ l1 -> y ∈ l2 -> lt x y.
Proof. rewrite StronglySorted_app. tauto. Qed.

(** What holds of the separators, and of all that comes before one it holds of,
    holds before them; and symmetrically after them. *)
Lemma pre_forall (R : K -> K -> Prop) (P : K -> Prop) ls ks :
  (forall x y, R x y -> P y -> P x) -> StronglySorted R (pre ls ks) -> Forall P ks -> Forall P (pre ls ks).
Proof.
  intros HP. revert ks. induction ls as [|l ls IH]; intros [|k ks] Hs Hb; cbn in *; try constructor.
  apply StronglySorted_app in Hs as (Hlt & _ & [Hs _]%StronglySorted_inv). apply Forall_cons in Hb as [Hk Hb].
  apply Forall_app. split; [|constructor; [exact Hk | apply IH; assumption]].
  apply Forall_forall. intros x Hx. apply (HP x k); [|exact Hk]. apply Hlt; [exact Hx | left].
Qed.

Lemma post_forall (R : K -> K -> Prop) (P : K -> Prop) ks ls :
  (forall x y, R x y -> P x -> P y) -> StronglySorted R (post ks ls) -> Forall P ks -> Forall P (post ks ls).
Proof.
  intros HP. revert ks.
  induction ls as [|l ls IH]; intros [|k ks] Hs Hb; cbn in *; try constructor; try (inversion Hb; assumption).
  apply StronglySorted_inv in Hs as [Hs Ha]. apply Forall_cons in Hb as [Hk Hb].
  apply Forall_app in Ha as [Ha _]. apply StronglySorted_app in Hs as (_ & _ & Hs).
  apply Forall_app. split; [|apply IH; assumption].
  eapply Forall_impl; [exact Ha|]. cbn. intros x Hx. apply (HP k x); assumption.
Qed.

Lemma pre_below key ls ks : sorted (pre ls ks) -> below key ks -> below key (pre ls ks).
Proof. apply (pre_forall lt). intros x y. apply lt_trans. Qed.

Lemma post_above key ks ls : sorted (post ks ls) -> above key ks -> above key (post ks ls).
Proof. apply (post_forall lt). intros x y Hxy Hx. apply (lt_trans key x y Hx Hxy). Qed.

Lemma keys_in_interleave ls ks x : x ∈ ks -> ls = [] \/ length ls = S (length ks) -> x ∈ interleave ls ks.
Proof.
  revert ks. induction ls as [|l ls IH]; intros ks Hx H; cbn; [exact Hx|].
  destruct H as [H|H]; [discriminate|]. destruct ks as [|k ks]; [inversion Hx|].
  apply elem_of_app. right. apply elem_of_cons in Hx as [-> |Hx]; [left|]. right.
  apply IH; [exact Hx|]. right. cbn in H. lia.
Qed.

Lemma sorted_keys (R : K -> K -> Prop) ls ks :
  StronglySorted R (interleave ls ks) -> ls = [] \/ length ls = S (length ks) -> StronglySorted R ks.
Proof.
  revert ks. induction ls as [|l ls IH]; intros ks Hs H; cbn in Hs; [exact Hs|].
  destruct H as [H|H]; [discriminate|]. destruct ks as [|k ks]; [constructor|].
  apply StronglySorted_app in Hs as (_ & _ & Hs). apply StronglySorted_inv in Hs as [Hs Ha].
  assert (Hl : ls = [] \/ length ls = S (length ks)) by (right; cbn in H; lia).
  constructor; [apply IH; assumption|]. apply Forall_forall. intros x Hx.
  rewrite Forall_forall in Ha. apply Ha, keys_in_interleave; assumption.
Qed.

Lemma node_keys_sorted (R : K -> K -> Prop) h n :
  body h n -> StronglySorted R (flat n) -> StronglySorted R (keys n).
Proof.
  intros Hb. rewrite flat_eq. intros Hs. apply sorted_keys in Hs; [exact Hs | apply (flat_lengths h), Hb].
Qed.

Lemma binary_search_spec l key :
  sorted l ->
  match binary_search l key with
  | inl i => exists l1 l2, l = l1 ++ key :: l2 /\ length l1 = i /\ below key l1 /\ above key l2
  | inr i => exists l1 l2, l = l1 ++ l2 /\ length l1 = i /\ below key l1 /\ above key l2
  end.
Proof.
  induction l as [|k l IH]; intros Hs; cbn; [exists [], []; auto|].
  apply sorted_cons in Hs as [Hs Ha]. destruct (cmp k key) eqn:E.
  - apply cmp_eq in E as ->. exists [], l. auto.
  - specialize (IH Hs). destruct (binary_search l key) as [i|i];
      destruct IH as (l1 & l2 & -> & <- & Hb & Ha'); exists (k :: l1), l2; (split; [reflexivity|]);
      (split; [reflexivity|]); (split; [constructor; assumption | exact Ha']).
  - apply cmp_gt in E. exists [], (k :: l). split; [reflexivity|]. split; [reflexivity|]. split; [constructor|].
    constructor; [exact E|]. eapply Forall_impl; [exact Ha|]. cbn. intros x. apply lt_trans, E.
Qed.

(** *** The list operations act inside the focus *)

Lemma ins_below key A l : below key A -> ins key (A ++ l) = A ++ ins key l.
Proof. induction 1 as [|x A Hx _ IH]; [reflexivity|]. cbn. unfold lt in Hx. rewrite Hx, IH. reflexivity. Qed.

Lemma ins_above key l B : above key B -> ins key (l ++ B) = ins key l ++ B.
Proof.
  intros HB. induction l as [|k l IH]; cbn.
  - destruct HB as [|x B Hx _]; [reflexivity|]. apply cmp_gt in Hx. cbn. rewrite Hx. reflexivity.
  - destruct (cmp k key); cbn; rewrite ?IH; reflexivity.
Qed.

Lemma del_below key A l : below key A -> del key (A ++ l) = A ++ del key l.
Proof. induction 1 as [|x A Hx _ IH]; [reflexivity|]. cbn. unfold lt in Hx. rewrite Hx, IH. reflexivity. Qed.

Lemma del_absent key l : mem key l = false -> del key l = l.
Proof.
  induction l as [|k l IH]; [reflexivity|]. cbn. destruct (cmp k key); cbn; [discriminate | |];
    intros H; rewrite IH by exact H; reflexivity.
Qed.

Lemma mem_cons key k l :
  mem key (k :: l) = match cmp k key with Eq => true | _ => mem key l end.
Proof. unfold mem. cbn. destruct (cmp k key); reflexivity. Qed.

Lemma mem_app key l1 l2 : mem key (l1 ++ l2) = mem key l1 || mem key l2.
Proof. apply existsb_app. Qed.

Lemma mem_below key A : below key A -> mem key A = false.
Proof. induction 1 as [|x A Hx _ IH]; [reflexivity|]. cbn. unfold lt in Hx. rewrite Hx. exact IH. Qed.

Lemma mem_above key B : above key B -> mem key B = false.
Proof. induction 1 as [|x B Hx _ IH]; [reflexivity|]. apply cmp_gt in Hx. cbn. rewrite Hx. exact IH. Qed.

Lemma mem_elem key l : mem key l = true <-> key ∈ l.
Proof.
  unfold mem. rewrite existsb_exists. split.
  - intros (x & Hx & E). destruct (cmp x key) eqn:C; try discriminate. apply cmp_eq in C as <-.
    apply list_elem_of_In. exact Hx.
  - intros H. exists key. rewrite cmp_refl. split; [apply list_elem_of_In; exact H | reflexivity].
Qed.

Lemma del_above key l B : above key B -> del key (l ++ B) = del key l ++ B.
Proof.
  intros HB. induction l as [|k l IH]; cbn; [apply del_absent, mem_above, HB|].
  destruct (cmp k key); cbn; rewrite ?IH; reflexivity.
Qed.

Lemma ins_focus key A l B : below key A -> above key B -> ins key (A ++ l ++ B) = A ++ ins key l ++ B.
Proof. intros HA HB. rewrite ins_below, ins_above; auto. Qed.

Lemma del_focus key A l B : below key A -> above key B -> del key (A ++ l ++ B) = A ++ del key l ++ B.
Proof. intros HA HB. rewrite del_below, del_above; auto. Qed.

Lemma mem_focus key A l B : below key A -> above key B -> mem key (A ++ l ++ B) = mem key l.
Proof.
  intros HA HB. rewrite !mem_app, (mem_below key A HA), (mem_above key B HB). cbn. apply orb_false_r.
Qed.

Lemma ins_elem key l x : x ∈ ins key l <-> x = key \/ x ∈ l.
Proof.
  induction l as [|k l IH]; cbn; [rewrite list_elem_of_singleton, elem_of_nil; tauto|].
  destruct (cmp k key) eqn:E; rewrite ?elem_of_cons, ?IH; try tauto.
  apply cmp_eq in E as ->. tauto.
Qed.

Lemma ins_sorted key l : sorted l -> sorted (ins key l).
Proof.
  induction l as [|k l IH]; intros Hs; cbn; [repeat constructor|]. pose proof Hs as [Hs' Ha]%sorted_cons.
  destruct (cmp k key) eqn:E; [exact Hs | |].
  - apply sorted_cons. split; [apply IH, Hs'|]. apply Forall_forall. intros x [-> |Hx]%ins_elem; [exact E|].
    rewrite Forall_forall in Ha. auto.
  - apply cmp_gt in E. apply sorted_cons. split; [exact Hs|]. constructor; [exact E|].
    eapply Forall_impl; [exact Ha|]. cbn. intros x. apply lt_trans, E.
Qed.

Lemma ins_present key l : sorted l -> mem key l = true -> ins key l = l.
Proof.
  induction l as [|k l IH]; intros Hs; cbn; [discriminate|]. pose proof Hs as [Hs' Ha]%sorted_cons.
  destruct (cmp k key) eqn:E; [reflexivity | |]; cbn; intros H.
  - rewrite IH; auto.
  - exfalso. apply mem_elem in H. rewrite Forall_forall in Ha. apply Ha in H.
    apply cmp_gt in E. pose proof (lt_trans _ _ _ E H) as F. unfold lt in F. rewrite cmp_refl in F. discriminate.
Qed.

Lemma length_ins key l : sorted l -> length (ins key l) = if mem key l then length l else S (length l).
Proof.
  intros Hs. destruct (mem key l) eqn:E; [rewrite ins_present by assumption; reflexivity|].
  clear Hs. induction l as [|k l IH]; [reflexivity|]. cbn in *. destruct (cmp k key); [discriminate | |reflexivity].
  cbn. rewrite IH by exact E. reflexivity.
Qed.

Lemma del_sublist key l : del key l `sublist_of` l.
Proof. induction l as [|k l IH]; cbn; [constructor|]. destruct (cmp k key); constructor; auto. Qed.

Lemma sorted_sublist l l' : l `sublist_of` l' -> sorted l' -> sorted l.
Proof.
  induction 1 as [|x l l' Hsub IH|x l l' Hsub IH]; [auto| |].
  - intros [Hs Ha]%sorted_cons. apply sorted_cons. split; [auto|]. apply Forall_forall. intros y Hy.
    rewrite Forall_forall in Ha. apply Ha. eapply elem_of_sublist; eassumption.
  - intros [Hs _]%sorted_cons. auto.
Qed.

Lemma del_sorted key l : sorted l -> sorted (del key l).
Proof. apply sorted_sublist, del_sublist. Qed.

Lemma length_del key l : length l = length (del key l) + if mem key l then 1 else 0.
Proof.
  induction l as [|k l IH]; [reflexivity|]. rewrite mem_cons. cbn [del length].
  destruct (cmp k key); cbn [length]; lia.
Qed.

(** ** Insertion *)

Lemma body_children h ks cs t : body (S h) (mkNode ks cs t) -> Forall (wf h MIN_KEYS) cs.
Proof. intros [_ H]. exact H. Qed.

Lemma split_spec h n :
  body h n -> total n = length (flat n) -> length (keys n) <= S MAX_KEYS ->
  exists n' s, split_if_overfull n = Ret (n', s) /\
    match s with
    | None => n' = n /\ length (keys n) <= MAX_KEYS
    | Some (median, right_) =>
        MAX_KEYS < length (keys n) /\
        flat n = flat n' ++ median :: flat right_ /\ wf h MIN_KEYS n' /\ wf h MIN_KEYS right_
    end.
Proof.
  intros Hb Ht Hk. unfold split_if_overfull. destruct (Nat.leb_spec (length (keys n)) MAX_KEYS) as [Hle|Hgt];
    [eexists _, None; auto|].
  assert (E16 : length (keys n) = 16) by (unfold MAX_KEYS in *; lia).
  destruct n as [ks cs t]. cbn [keys children total] in *. rewrite E16. change (16 / 2) with 8.
  destruct (split_list_at ks 8) as (k1 & m & k2 & -> & H1); [lia|].
  rewrite length_app in E16. cbn in E16.
  rewrite drain_app_snoc by lia. cbn [mbind exec_bind]. rewrite pop_snoc. cbn [mbind exec_bind expect]. rewrite (is_leaf_body h) by exact Hb.
  destruct h as [|h]; cbn in Hb.
  - subst cs. eexists _, (Some (m, _)). split; [reflexivity|]. split; [unfold MAX_KEYS; lia|]. split; [reflexivity|].
    split; (apply wf_recount; [keys_lia | cbn; auto with lia]).
  - destruct Hb as [Hl Hc]. rewrite length_app in Hl. cbn in Hl.
    destruct (split_list cs 9) as (c1 & c2 & -> & Hc1); [lia|].
    rewrite drain_app by lia. cbn. eexists _, (Some (m, _)). split; [reflexivity|]. split; [unfold MAX_KEYS; lia|].
    rewrite length_app in Hl. apply Forall_app in Hc as [F1 F2]. split.
    + rewrite !flat_recount. cbn [flat]. rewrite map_app. apply interleave_cut. rewrite length_map. lia.
    + split; (apply wf_recount; [keys_lia | cbn; auto with lia]).
Qed.

(** The focus of a search in an internal node. *)
Lemma search_focus h ks cs t k1 k2 key :
  body (S h) (mkNode ks cs t) -> sorted (flat (mkNode ks cs t)) ->
  ks = k1 ++ k2 -> below key k1 -> above key k2 ->
  exists l1 c l2, cs = l1 ++ c :: l2 /\ length l1 = length k1 /\ length l2 = length k2 /\
    wf h MIN_KEYS c /\ Forall (wf h MIN_KEYS) l1 /\ Forall (wf h MIN_KEYS) l2 /\ sorted (flat c) /\
    below key (pre (map flat l1) k1) /\ above key (post k2 (map flat l2)).
Proof.
  intros [Hl Hc] Hs -> Hb Ha. cbn in Hl, Hc. rewrite length_app in Hl.
  destruct (split_list_at cs (length k1)) as (l1 & c & l2 & -> & H1); [lia|].
  rewrite length_app in Hl. cbn in Hl. rewrite flat_focus in Hs by lia.
  apply Forall_app in Hc as [F1 F2]. apply Forall_cons in F2 as [Fc F2].
  apply sorted_app in Hs as (S1 & Hs & _). apply sorted_app in Hs as (S2 & S3 & _).
  exists l1, c, l2. repeat (split; [first [reflexivity | assumption | lia]|]).
  split; [apply pre_below; assumption | apply post_above; assumption].
Qed.

(** What a (possibly split) node must hold after an insertion giving the keys [F]. *)
Definition holds_keys (h m : nat) (F : list K) (n : Node K) (s : option (K * Node K)) : Prop :=
  match s with
  | None => wf h m n /\ flat n = F
  | Some (median, right_) =>
      wf h MIN_KEYS n /\ wf h MIN_KEYS right_ /\ flat n ++ median :: flat right_ = F
  end.

Lemma split_holds h m n :
  body h n -> total n = length (flat n) -> m <= length (keys n) <= S MAX_KEYS ->
  exists n' s, split_if_overfull n = Ret (n', s) /\ holds_keys h m (flat n) n' s.
Proof.
  intros Hb Ht Hk. destruct (split_spec h n Hb Ht ltac:(lia)) as (n' & s & E & H). exists n', s. split; [exact E|].
  destruct s as [[med r]|]; cbn.
  - destruct H as (_ & -> & W1 & W2). auto.
  - destruct H as [-> Hle]. split; [|reflexivity]. apply wf_iff. split; [lia | auto].
Qed.

(** The parent takes the child's result in. *)
Lemma absorb_spec h m k1 k2 l1 c l2 s F (inserted : bool) t :
  length l1 = length k1 -> length l2 = length k2 ->
  Forall (wf h MIN_KEYS) l1 -> Forall (wf h MIN_KEYS) l2 -> m <= length (k1 ++ k2) <= MAX_KEYS ->
  holds_keys h MIN_KEYS F c s -> t = length (pre (map flat l1) k1 ++ F ++ post k2 (map flat l2)) ->
  exists n' s',
    match s with
    | Some (median, right_) =>
        ks ← insert_at (length k1) median (k1 ++ k2);
        cs ← insert_at (length k1 + 1) right_ (l1 ++ c :: l2);
        '(n, split) ← split_if_overfull (mkNode ks cs t);
        Ret (n, inserted, split)
    | None => Ret (mkNode (k1 ++ k2) (l1 ++ c :: l2) t, inserted, None)
    end = Ret (n', inserted, s') /\
    holds_keys (S h) m (pre (map flat l1) k1 ++ F ++ post k2 (map flat l2)) n' s'.
Proof.
  intros L1 L2 F1 F2 Hk HF Ht. rewrite length_app in Hk. destruct s as [[med r]|].
  - destruct HF as (Wc & Wr & <-). rewrite (insert_at_app _ med k1 k2) by reflexivity. cbn [mbind exec_bind].
    rewrite insert_at_app_snoc by lia. cbn [mbind exec_bind].
    set (n := mkNode (k1 ++ med :: k2) (l1 ++ c :: r :: l2) t).
    assert (Hflat : flat n = pre (map flat l1) k1 ++ (flat c ++ med :: flat r) ++ post k2 (map flat l2)).
    { subst n. rewrite flat_focus by (cbn; lia). cbn. rewrite <- !app_assoc. reflexivity. }
    destruct (split_holds (S h) m n) as (n' & s' & E & Hs').
    { cbn. rewrite !length_app. cbn. split; [lia|]. apply Forall_app. auto. }
    { rewrite Hflat. exact Ht. }
    { cbn. rewrite length_app. cbn. lia. }
    rewrite E. cbn. exists n', s'. rewrite <- Hflat. auto.
  - destruct HF as (Wc & HF). eexists _, None. split; [reflexivity|]. cbn [holds_keys].
    rewrite flat_focus, HF by lia. split; [|reflexivity]. apply wf_iff. rewrite flat_focus, HF by lia. cbn [keys children total].
    split; [rewrite length_app; lia|]. split; [exact Ht|]. cbn. rewrite !length_app. cbn. split; [lia|]. apply Forall_app. auto.
Qed.

Lemma insert_rec_spec fuel : forall h m n key,
  wf h m n -> sorted (flat n) -> h < fuel ->
  exists n' s, insert_rec fuel n key = Ret (n', negb (mem key (flat n)), s) /\
    holds_keys h m (ins key (flat n)) n' s.
Proof.
  induction fuel as [|fuel IH]; intros h m n key Hwf Hs Hf; [lia|].
  pose proof Hwf as (Hk & Ht & Hb)%wf_iff. cbn [insert_rec].
  pose proof (binary_search_spec (keys n) key (node_keys_sorted lt h n Hb Hs)) as Hbs.
  destruct (binary_search (keys n) key) as [i|i]; destruct Hbs as (k1 & k2 & Ek & <- & Hbe & Hab).
  - assert (Hm : mem key (flat n) = true).
    { apply mem_elem. rewrite flat_eq. apply keys_in_interleave; [rewrite Ek; apply elem_of_app; right; left | apply (flat_lengths h), Hb]. }
    exists n, None. rewrite Hm. rewrite ins_present by assumption. cbn. auto.
  - rewrite (is_leaf_body h) by exact Hb. destruct n as [ks cs t]. cbn [keys children total] in *. subst ks.
    destruct h as [|h].
    + cbn in Hb. subst cs. cbn [flat map interleave] in *. rewrite length_app in *.
      replace (mem key (k1 ++ k2)) with false by (rewrite mem_app, mem_below, mem_above by assumption; reflexivity).
      rewrite ins_below by exact Hbe. replace (ins key k2) with (key :: k2)
        by (change k2 with ([] ++ k2) at 2; rewrite ins_above by exact Hab; reflexivity).
      rewrite insert_at_app by reflexivity. cbn [mbind exec_bind].
      destruct (split_holds 0 m (mkNode (k1 ++ key :: k2) [] (t + 1))) as (n' & s & E & Hsp);
        [reflexivity | cbn; rewrite !length_app; cbn; lia | cbn; rewrite length_app; cbn; lia|].
      rewrite E. cbn. exists n', s. auto.
    + destruct (search_focus h _ cs t k1 k2 key Hb Hs eq_refl Hbe Hab)
        as (l1 & c & l2 & -> & L1 & L2 & Fc & F1 & F2 & Sc & Hpre & Hpost).
      rewrite expect_app by lia. cbn [mbind exec_bind].
      destruct (IH h MIN_KEYS c key Fc Sc ltac:(lia)) as (c' & s & E & Hc').
      rewrite E. cbn [mbind exec_bind]. rewrite set_at_app by lia. cbn [mbind exec_bind keys children total].
      rewrite flat_focus in * by lia. rewrite mem_focus, ins_focus by assumption.
      apply (absorb_spec h m k1 k2 l1 c' l2 s (ins key (flat c))); auto.
      rewrite !length_app, length_ins in * by exact Sc. destruct (mem key (flat c)); cbn; lia.
Qed.

(** ** Rebalancing *)

(** Child [c] of [n] at position [i], with the keys before and after it. *)
Definition focus (h i : nat) (n : Node K) (A : list K) (c : Node K) (B : list K) : Prop :=
  exists k1 k2 l1 l2 t,
    n = mkNode (k1 ++ k2) (l1 ++ c :: l2) t /\ length l1 = i /\ length k1 = i /\ length l2 = length k2 /\
    Forall (wf h MIN_KEYS) l1 /\ Forall (wf h MIN_KEYS) l2 /\
    A = pre (map flat l1) k1 /\ B = post k2 (map flat l2).

Lemma focus_flat h i n A c B : focus h i n A c B -> flat n = A ++ flat c ++ B.
Proof.
  intros (k1 & k2 & l1 & l2 & t & -> & H1 & H2 & H3 & _ & _ & -> & ->). apply flat_focus; lia.
Qed.

Lemma focus_body h i n A c B : focus h i n A c B -> wf h MIN_KEYS c -> body (S h) n.
Proof.
  intros (k1 & k2 & l1 & l2 & t & -> & H1 & H2 & H3 & F1 & F2 & _) Hc. cbn. rewrite !length_app. cbn.
  split; [lia|]. apply Forall_app. auto.
Qed.

Lemma body_focus h i n :
  body (S h) n -> i <= length (keys n) -> exists A c B, focus h i n A c B /\ wf h MIN_KEYS c.
Proof.
  destruct n as [ks cs t]. cbn. intros [Hl Hc] Hi.
  destruct (split_list ks i) as (k1 & k2 & -> & H1); [exact Hi|].
  destruct (split_list_at cs i) as (l1 & c & l2 & -> & H2); [lia|].
  rewrite !length_app in Hl. cbn in Hl. apply Forall_app in Hc as [F1 F2]. apply Forall_cons in F2 as [Fc F2].
  eexists _, c, _. split; [|exact Fc]. exists k1, k2, l1, l2, t. repeat (split; [first [reflexivity | assumption | lia]|]). reflexivity.
Qed.

(** Writing the child back. *)
Lemma focus_put h i n A c B c' :
  focus h i n A c B ->
  exists cs, set_at i c' (children n) = Ret cs /\
    forall t, focus h i (mkNode (keys n) cs t) A c' B.
Proof.
  intros (k1 & k2 & l1 & l2 & t & -> & H1 & H2 & H3 & F1 & F2 & EA & EB). cbn.
  rewrite set_at_app by lia. eexists. split; [reflexivity|]. intros t'.
  exists k1, k2, l1, l2, t'. auto 10.
Qed.

Lemma focus_get h i n A c B : focus h i n A c B -> expect (children n !! i) = Ret c.
Proof. intros (k1 & k2 & l1 & l2 & t & -> & H1 & H2 & H3 & _). apply expect_app. lia. Qed.

Lemma merge_spec h i k1 s k2 l1 cl cr l2 t :
  length l1 = i -> length k1 = i -> length (keys cl) = MIN_KEYS -> length (keys cr) = MIN_KEYS ->
  wf h MIN_KEYS cl -> wf h MIN_KEYS cr ->
  exists mc, merge_children (mkNode (k1 ++ s :: k2) (l1 ++ cl :: cr :: l2) t) i =
               Ret (mkNode (k1 ++ k2) (l1 ++ mc :: l2) t) /\
    flat mc = flat cl ++ s :: flat cr /\ wf h (S MIN_KEYS) mc.
Proof.
  intros H1 H2 Kl Kr Wl Wr. unfold merge_children. cbn [keys children total].
  rewrite (remove_at_app _ s k1 k2) by lia. cbn [mbind exec_bind].
  rewrite (remove_at_app_snoc _ cl cr l1 l2) by lia.
  cbn [mbind exec_bind]. rewrite expect_app by lia. cbn [mbind exec_bind].
  rewrite set_at_app by lia. cbn [mbind exec_bind]. eexists. split; [reflexivity|].
  apply wf_iff in Wl as (_ & _ & Bl), Wr as (_ & _ & Br).
  destruct cl as [ksl csl tl], cr as [ksr csr tr]. cbn [keys children total] in *. split.
  - rewrite flat_recount. cbn [flat app]. destruct h; cbn in Bl, Br.
    + subst. reflexivity.
    + rewrite map_app. apply interleave_cut. rewrite length_map. apply Bl.
  - apply wf_recount; [rewrite !length_app; keys_lia|].
    destruct h; cbn in *; [subst; reflexivity|]. rewrite !length_app. cbn.
    split; [lia|]. apply Forall_app. tauto.
Qed.

Lemma borrow_left_spec h i k1 s k2 l1 cl c l2 t :
  S (length l1) = i -> S (length k1) = i -> wf h (S MIN_KEYS) cl -> length (keys c) = MIN_KEYS ->
  wf h MIN_KEYS c ->
  exists up cl' c' M, borrow_from_left (mkNode (k1 ++ s :: k2) (l1 ++ cl :: c :: l2) t) i =
                      Ret (mkNode (k1 ++ up :: k2) (l1 ++ cl' :: c' :: l2) t) /\
    flat cl = flat cl' ++ up :: M /\ flat c' = M ++ s :: flat c /\
    wf h MIN_KEYS cl' /\ wf h (S MIN_KEYS) c'.
Proof.
  intros H1 H2 Wl Kc Wc. unfold borrow_from_left. cbn [keys children total].
  rewrite (expect_app _ cl l1) by lia. cbn [mbind exec_bind].
  apply wf_iff in Wl as (Kl & _ & Bl), Wc as (_ & _ & Bc).
  destruct cl as [ksl csl tl], c as [ksc csc tc]. cbn [keys children total] in *.
  destruct (unsnoc ksl) as (lks & up & ->); [lia|]. rewrite pop_snoc. cbn [mbind exec_bind expect].
  rewrite length_app in Kl. cbn in Kl.
  set (mv := match pop csl with Some (cs, sub) => (cs, Some sub) | None => (csl, None) end).
  rewrite (surjective_pairing mv). rewrite (set_at_app _ _ _ l1) by lia. cbn [mbind exec_bind].
  rewrite (expect_app _ s k1) by lia. cbn [mbind exec_bind]. rewrite (set_at_app _ s up k1 k2) by lia. cbn [mbind exec_bind].
  rewrite expect_app_snoc by lia. cbn [mbind exec_bind children keys total]. rewrite set_at_app_snoc by lia. cbn [mbind exec_bind].
  subst mv. destruct h as [|h]; cbn in Bl, Bc.
  - subst csl csc. cbn [pop last fst snd]. eexists up, _, _, []. split; [reflexivity|]. split; [reflexivity|]. split; [reflexivity|].
    split; apply wf_recount; cbn; auto; keys_lia.
  - destruct Bl as [Ll Fl], Bc as [Lc Fc]. rewrite length_app in Ll. cbn in Ll.
    destruct (unsnoc csl) as (lcs & sub & ->); [lia|]. rewrite pop_snoc. cbn [fst snd].
    rewrite length_app in Ll. cbn in Ll. apply Forall_app in Fl as [Fl Fs]. apply Forall_cons in Fs as [Fs _].
    eexists up, _, _, (flat sub). split; [reflexivity|]. split.
    + rewrite flat_recount. cbn [flat]. rewrite map_app, interleave_cut by (rewrite length_map; lia). reflexivity.
    + split; [reflexivity|].
      split; apply wf_recount; cbn; auto with lia; keys_lia.
Qed.

Lemma borrow_right_spec h i k1 s k2 l1 c cr l2 t :
  length l1 = i -> length k1 = i -> wf h (S MIN_KEYS) cr -> length (keys c) = MIN_KEYS ->
  wf h MIN_KEYS c ->
  exists up cr' c' M, borrow_from_right (mkNode (k1 ++ s :: k2) (l1 ++ c :: cr :: l2) t) i =
                      Ret (mkNode (k1 ++ up :: k2) (l1 ++ c' :: cr' :: l2) t) /\
    flat cr = M ++ up :: flat cr' /\ flat c' = flat c ++ s :: M /\
    wf h MIN_KEYS cr' /\ wf h (S MIN_KEYS) c'.
Proof.
  intros H1 H2 Wr Kc Wc. unfold borrow_from_right. cbn [keys children total].
  rewrite expect_app_snoc by lia. cbn [mbind exec_bind].
  apply wf_iff in Wr as (Kr & _ & Br), Wc as (_ & _ & Bc).
  destruct cr as [ksr csr tr], c as [ksc csc tc]. cbn [keys children total] in *.
  destruct ksr as [|up rks]; [cbn in Kr; lia|]. cbn in Kr.
  change (remove_at 0 (up :: rks)) with (Ret (rks, up)). cbn [mbind exec_bind].
  set (mv := match csr with [] => Ret ([], None) | _ :: _ => _ end).
  assert (Hmv : mv = match csr with [] => Ret ([], None) | sub :: rcs => Ret (rcs, Some sub) end)
    by (subst mv; destruct csr; reflexivity).
  rewrite Hmv. clearbody mv. clear mv Hmv. destruct h as [|h]; cbn in Br, Bc.
  - subst csr csc. cbn [mbind exec_bind]. rewrite set_at_app_snoc by lia. cbn [mbind exec_bind].
    rewrite (expect_app _ s k1) by lia. cbn [mbind exec_bind]. rewrite (set_at_app _ s up k1 k2) by lia. cbn [mbind exec_bind].
    rewrite expect_app by lia. cbn [mbind exec_bind children keys total]. rewrite set_at_app by lia. cbn [mbind exec_bind].
    eexists up, _, _, []. split; [reflexivity|]. split; [reflexivity|]. split; [reflexivity|].
    split; apply wf_recount; cbn; rewrite ?length_app; cbn; auto; keys_lia.
  - destruct Br as [Lr Fr], Bc as [Lc Fc]. destruct csr as [|sub rcs]; [discriminate|]. cbn in Lr.
    apply Forall_cons in Fr as [Fs Fr].
    cbn [mbind exec_bind]. rewrite set_at_app_snoc by lia. cbn [mbind exec_bind].
    rewrite (expect_app _ s k1) by lia. cbn [mbind exec_bind]. rewrite (set_at_app _ s up k1 k2) by lia. cbn [mbind exec_bind].
    rewrite expect_app by lia. cbn [mbind exec_bind children keys total]. rewrite set_at_app by lia. cbn [mbind exec_bind].
    eexists up, _, _, (flat sub). split; [reflexivity|]. split; [reflexivity|]. split.
    + rewrite flat_recount. cbn [flat]. rewrite map_app, interleave_cut by (rewrite length_map; lia). reflexivity.
    + split; apply wf_recount; cbn; rewrite ?length_app; cbn; rewrite ?Forall_app; auto with lia; keys_lia.
Qed.

Lemma keys_of_child_app (ks : list K) l1 c l2 t i :
  i = length l1 -> keys_of_child (mkNode ks (l1 ++ c :: l2) t) i = Ret (length (keys c)).
Proof. intros H. unfold keys_of_child. cbn [children]. rewrite expect_app by exact H. reflexivity. Qed.

Lemma keys_of_child_app_snoc (ks : list K) l1 c d l2 t i :
  i = S (length l1) -> keys_of_child (mkNode ks (l1 ++ c :: d :: l2) t) i = Ret (length (keys d)).
Proof. intros H. unfold keys_of_child. cbn [children]. rewrite expect_app_snoc by exact H. reflexivity. Qed.

(** What fattening does to the child in focus. *)
Definition fattened (h : nat) (n : Node K) (A : list K) (c : Node K) (B : list K)
  (r : exec (Node K * nat)) : Prop :=
  exists n' i' A' c' B', r = Ret (n', i') /\ focus h i' n' A' c' B' /\ wf h (S MIN_KEYS) c' /\
    A' ++ flat c' ++ B' = A ++ flat c ++ B /\ A' `prefix_of` A /\ B' `suffix_of` B /\
    total n' = total n /\ length (keys n) <= S (length (keys n')) /\ length (keys n') <= length (keys n).

Ltac focus_tac := repeat (split; [first [reflexivity | assumption | cbn; rewrite ?length_app; cbn; lia]|]); try reflexivity.

Lemma fatten_left h k1 s k2 l1 cl c l2 t :
  length l1 = length k1 -> length l2 = length k2 ->
  Forall (wf h MIN_KEYS) l1 -> Forall (wf h MIN_KEYS) l2 -> wf h MIN_KEYS cl -> wf h MIN_KEYS c ->
  length (keys c) = MIN_KEYS ->
  let n := mkNode (k1 ++ s :: k2) (l1 ++ cl :: c :: l2) t in
  let i := S (length k1) in
  fattened h n (pre (map flat l1) k1 ++ flat cl ++ [s]) c (post k2 (map flat l2))
    (if MIN_KEYS <? length (keys cl) then n ← borrow_from_left n i; Ret (n, i)
     else n ← merge_children n (length k1); Ret (n, length k1)).
Proof.
  intros L1 L2 F1 F2 Wl Wc Kc n i. subst n i. destruct (Nat.ltb_spec MIN_KEYS (length (keys cl))) as [Hr|Hr].
  - destruct (borrow_left_spec h (S (length k1)) k1 s k2 l1 cl c l2 t) as (up & cl' & c' & M & E & Ecl & Ec' & Wl' & Wc');
      [lia | lia | apply wf_iff in Wl; apply wf_iff; intuition lia | exact Kc | exact Wc |].
    rewrite E. cbn [mbind exec_bind]. eexists _, _, (pre (map flat l1) k1 ++ flat cl' ++ [up]), c', _.
    split; [reflexivity|]. split.
    { exists (k1 ++ [up]), k2, (l1 ++ [cl']), l2, t. rewrite <- !app_assoc. cbn. rewrite !length_app. cbn.
      split; [reflexivity|]. split; [lia|]. split; [lia|]. split; [exact L2|].
      split; [apply Forall_app; auto|]. split; [exact F2|]. split; [|reflexivity].
      rewrite map_app, pre_app by (rewrite length_map; exact L1). cbn. reflexivity. }
    split; [exact Wc'|]. rewrite Ecl, Ec'. split; [app_eq|].
    split; [apply prefix_app; exists (M ++ [s]); app_eq|].
    split; [reflexivity|]. cbn. rewrite !length_app. cbn. lia.
  - destruct (merge_spec h (length k1) k1 s k2 l1 cl c l2 t) as (mc & E & Em & Wm);
      [lia | lia | apply wf_iff in Wl; lia | exact Kc | exact Wl | exact Wc |].
    rewrite E. cbn [mbind exec_bind]. eexists _, _, (pre (map flat l1) k1), mc, _.
    split; [reflexivity|]. split; [exists k1, k2, l1, l2, t; focus_tac|]. split; [exact Wm|]. rewrite Em.
    split; [app_eq|].
    split; [apply prefix_app_r; reflexivity|]. split; [reflexivity|]. cbn. rewrite !length_app. cbn. lia.
Qed.

Lemma fatten_right h k1 s k2 l1 c cr l2 t :
  length l1 = length k1 -> length l2 = length k2 ->
  Forall (wf h MIN_KEYS) l1 -> Forall (wf h MIN_KEYS) l2 -> wf h MIN_KEYS c -> wf h MIN_KEYS cr ->
  length (keys c) = MIN_KEYS ->
  let n := mkNode (k1 ++ s :: k2) (l1 ++ c :: cr :: l2) t in
  let i := length k1 in
  fattened h n (pre (map flat l1) k1) c (s :: flat cr ++ post k2 (map flat l2))
    (if MIN_KEYS <? length (keys cr) then n ← borrow_from_right n i; Ret (n, i)
     else n ← merge_children n i; Ret (n, i)).
Proof.
  intros L1 L2 F1 F2 Wc Wr Kc n i. subst n i. destruct (Nat.ltb_spec MIN_KEYS (length (keys cr))) as [Hr|Hr].
  - destruct (borrow_right_spec h (length k1) k1 s k2 l1 c cr l2 t) as (up & cr' & c' & M & E & Ecr & Ec' & Wr' & Wc');
      [lia | lia | apply wf_iff in Wr; apply wf_iff; intuition lia | exact Kc | exact Wc |].
    rewrite E. cbn [mbind exec_bind]. eexists _, _, _, c', (up :: flat cr' ++ post k2 (map flat l2)).
    split; [reflexivity|]. split; [exists k1, (up :: k2), l1, (cr' :: l2), t; focus_tac; split; [constructor; assumption | split; reflexivity]|].
    split; [exact Wc'|]. rewrite Ecr, Ec'. split; [app_eq|].
    split; [reflexivity|]. split; [exists (s :: M); app_eq|].
    cbn. rewrite !length_app. cbn. lia.
  - destruct (merge_spec h (length k1) k1 s k2 l1 c cr l2 t) as (mc & E & Em & Wm);
      [lia | lia | exact Kc | apply wf_iff in Wr; lia | exact Wc | exact Wr |].
    rewrite E. cbn [mbind exec_bind]. eexists _, _, (pre (map flat l1) k1), mc, _.
    split; [reflexivity|]. split; [exists k1, k2, l1, l2, t; focus_tac|]. split; [exact Wm|]. rewrite Em.
    split; [app_eq|].
    split; [reflexivity|]. split; [exists (s :: flat cr); reflexivity|]. cbn. rewrite !length_app. cbn. lia.
Qed.

Lemma fatten_spec h i n A c B :
  focus h i n A c B -> wf h MIN_KEYS c -> 1 <= length (keys n) -> fattened h n A c B (fatten_child n i).
Proof.
  intros Hfo Wc Hk. pose proof Hfo as (k1 & k2 & l1 & l2 & t & -> & H1 & H2 & H3 & F1 & F2 & -> & ->).
  unfold fatten_child. rewrite (keys_of_child_app _ l1 c l2 t i) by lia. cbn [mbind exec_bind].
  destruct (Nat.ltb_spec MIN_KEYS (length (keys c))) as [Hr|Hr].
  { eexists _, _, _, c, _. split; [reflexivity|]. split; [exact Hfo|].
    split; [apply wf_iff in Wc; apply wf_iff; intuition lia|]. repeat (split; [reflexivity|]). lia. }
  assert (Kc : length (keys c) = MIN_KEYS) by (apply wf_iff in Wc; lia).
  cbn [keys] in Hk. rewrite length_app in Hk. cbn [children]. destruct k2 as [|s k2], l2 as [|cr l2]; try discriminate.
  - (* the last child: only a left sibling *)
    destruct (unsnoc k1) as (k1' & s & ->); [cbn in Hk; lia|]. rewrite length_app in *. cbn in H2.
    destruct (unsnoc l1) as (l1' & cl & ->); [lia|]. rewrite length_app in *. cbn in H1.
    apply Forall_app in F1 as [F1 Fl]. apply Forall_cons in Fl as [Fl _].
    destruct (Nat.ltb_spec 0 i); [|lia]. rewrite <- !app_assoc in *. cbn [app] in *.
    rewrite (keys_of_child_app _ l1' cl _ t (i - 1)) by lia. cbn [mbind exec_bind].
    pose proof (fatten_left h k1' s [] l1' cl c [] t ltac:(lia) eq_refl F1 F2 Fl Wc Kc) as Hf. cbn zeta in Hf.
    rewrite map_app, pre_app by (rewrite length_map; lia). cbn [map pre app].
    replace (i + 1 <? _) with false by (symmetry; apply Nat.ltb_ge; rewrite ?length_app; cbn; lia).
    replace i with (S (length k1')) by lia. replace (S (length k1') - 1) with (length k1') by lia.
    destruct (MIN_KEYS <? length (keys cl)); exact Hf.
  - (* a right sibling exists *)
    apply Forall_cons in F2 as [Fr F2]. cbn in H3.
    pose proof (fatten_right h k1 s k2 l1 c cr l2 t ltac:(lia) ltac:(lia) F1 F2 Wc Fr Kc) as Hfr. cbn zeta in Hfr.
    replace (i + 1 <? _) with true by (symmetry; apply Nat.ltb_lt; rewrite ?length_app; cbn; lia).
    destruct (Nat.ltb_spec 0 i) as [Hi|Hi].
    + destruct (unsnoc k1) as (k1' & s' & ->); [lia|]. rewrite length_app in *. cbn in H2.
      destruct (unsnoc l1) as (l1' & cl & ->); [lia|]. rewrite length_app in *. cbn in H1.
      apply Forall_app in F1 as [F1 Fl]. apply Forall_cons in Fl as [Fl _].
      pose proof (fatten_left h k1' s' (s :: k2) l1' cl c (cr :: l2) t ltac:(lia) ltac:(cbn; lia) F1
                    ltac:(constructor; assumption) Fl Wc Kc) as Hfl. cbn zeta in Hfl.
      rewrite map_app, pre_app in * by (rewrite length_map; lia). rewrite <- !app_assoc in *. cbn [map pre app] in *.
      rewrite (keys_of_child_app _ l1' cl _ t (i - 1)) by lia. cbn [mbind exec_bind].
      replace i with (S (length k1')) by lia. replace (S (length k1') - 1) with (length k1') by lia.
      destruct (MIN_KEYS <? length (keys cl)) eqn:El; [exact Hfl|].
      replace (keys_of_child _ (S (length k1') + 1)) with (Ret (length (keys cr))).
      2:{ change (l1' ++ cl :: c :: cr :: l2) with (l1' ++ [cl] ++ c :: cr :: l2). rewrite app_assoc.
          rewrite keys_of_child_app_snoc; [reflexivity | rewrite ?length_app; cbn; lia]. }
      cbn [mbind exec_bind]. destruct (MIN_KEYS <? length (keys cr)); [|exact Hfl].
      replace (length k1' + length [s']) with (S (length k1')) in Hfr by (cbn; lia). exact Hfr.
    + assert (i = 0) as -> by lia. destruct k1; [|discriminate]. destruct l1; [|discriminate].
      cbn [mbind exec_bind]. rewrite keys_of_child_app_snoc by reflexivity. cbn [mbind exec_bind].
      destruct (MIN_KEYS <? length (keys cr)); exact Hfr.
Qed.

(** ** Removal *)

Lemma focus_total h i n A c B t :
  focus h i n A c B -> focus h i (mkNode (keys n) (children n) t) A c B.
Proof. intros (k1 & k2 & l1 & l2 & t0 & -> & H). exists k1, k2, l1, l2, t. tauto. Qed.

Lemma focus_last h n A c B : focus h (length (keys n)) n A c B -> B = [].
Proof.
  intros (k1 & k2 & l1 & l2 & t & -> & H1 & H2 & H3 & _ & _ & _ & ->). cbn in *. rewrite length_app in *.
  destruct k2; [|cbn in *; lia]. destruct l2; [reflexivity | discriminate].
Qed.

Lemma focus_first h n A c B : focus h 0 n A c B -> A = [].
Proof. intros (k1 & k2 & l1 & l2 & t & -> & H1 & H2 & H3 & _ & _ & -> & _). destruct l1; [reflexivity | discriminate]. Qed.

(** One level of a removal: fatten the child, work in it, write it back. *)
Lemma descend_spec h m n i A c B :
  focus h i n A c B -> wf h MIN_KEYS c -> S m <= length (keys n) <= MAX_KEYS ->
  exists n' i' A' c' B', fatten_child n i = Ret (n', i') /\ expect (children n' !! i') = Ret c' /\
    wf h (S MIN_KEYS) c' /\ A' ++ flat c' ++ B' = A ++ flat c ++ B /\
    A' `prefix_of` A /\ B' `suffix_of` B /\ total n' = total n /\
    forall c'', wf h MIN_KEYS c'' ->
      exists cs, set_at i' c'' (children n') = Ret cs /\
        forall t, t = length (A' ++ flat c'' ++ B') ->
          wf (S h) m (mkNode (keys n') cs t) /\ flat (mkNode (keys n') cs t) = A' ++ flat c'' ++ B'.
Proof.
  intros Hf Wc Hk.
  destruct (fatten_spec h i n A c B Hf Wc ltac:(lia)) as (n' & i' & A' & c' & B' & E & Hf' & Wc' & Efl & HA & HB & Et & K1 & K2).
  exists n', i', A', c', B'. split; [exact E|]. split; [apply (focus_get _ _ _ _ _ _ Hf')|].
  split; [exact Wc'|]. split; [exact Efl|]. split; [exact HA|]. split; [exact HB|]. split; [exact Et|].
  intros c'' W. destruct (focus_put h i' n' A' c' B' c'' Hf') as (cs & Es & Hp). exists cs. split; [exact Es|].
  intros t Ht. pose proof (focus_flat _ _ _ _ _ _ (Hp t)) as Hfl. split; [|exact Hfl].
  apply wf_iff. rewrite Hfl. cbn [keys total]. split; [lia|]. split; [exact Ht|].
  exact (focus_body _ _ _ _ _ _ (Hp t) W).
Qed.

Lemma wf_total_pos h m n : wf h (S m) n -> exists t, total n = S t.
Proof.
  intros H. pose proof (wf_length _ _ _ H). apply wf_iff in H. destruct (total n) eqn:E; [lia | eauto].
Qed.

Lemma remove_max_spec fuel : forall h m n,
  wf h (S m) n -> h < fuel ->
  exists n' x, remove_max fuel n = Ret (n', x) /\ flat n = flat n' ++ [x] /\ wf h m n'.
Proof.
  induction fuel as [|fuel IH]; intros h m n Hwf Hf; [lia|]. cbn [remove_max].
  destruct (wf_total_pos h m n Hwf) as [t Et]. rewrite Et. cbn [decr mbind exec_bind].
  apply wf_iff in Hwf as (Hk & Ht & Hb). rewrite Et in Ht. cbn [keys children total].
  change (is_leaf (mkNode (keys n) (children n) t)) with (is_leaf n). rewrite (is_leaf_body h) by exact Hb.
  destruct h as [|h].
  - destruct n as [ks cs t0]. cbn in Hb, Hk, Ht |- *. subst cs. cbn in Ht.
    destruct (unsnoc ks) as (ks' & x & ->); [lia|]. rewrite pop_snoc. cbn. rewrite length_app in *. cbn in *.
    eexists _, _. split; [reflexivity|]. split; [reflexivity|]. apply wf_iff. cbn. repeat split; lia.
  - pose proof Hb as [Hl _]. rewrite Hl. cbn [decr mbind exec_bind].
    destruct (body_focus h (length (keys n)) n Hb ltac:(lia)) as (A & c & B & Hfo & Wc).
    pose proof (focus_last _ _ _ _ _ Hfo) as ->.
    pose proof (focus_flat _ _ _ _ _ _ Hfo) as Hfl.
    destruct (descend_spec h m (mkNode (keys n) (children n) t) _ A c [] (focus_total _ _ _ _ _ _ t Hfo) Wc Hk)
      as (n' & i' & A' & c' & B' & E & Eg & Wc' & Ec & _ & HB & Et' & Hput).
    rewrite E. cbn [mbind exec_bind]. rewrite Eg. cbn [mbind exec_bind].
    destruct (IH h MIN_KEYS c' Wc' ltac:(lia)) as (c'' & x & Er & Efl & W''). rewrite Er. cbn [mbind exec_bind].
    destruct (Hput c'' W'') as (cs & Es & Hw). rewrite Es. cbn [mbind exec_bind].
    apply suffix_nil_inv in HB as ->. rewrite !app_nil_r in *. rewrite Efl in Ec.
    rewrite Hfl, <- Ec in *. rewrite Et'. cbn [total].
    destruct (Hw t) as [Hw1 Hw2]; [rewrite !length_app in *; cbn in Ht; lia|].
    eexists _, x. split; [reflexivity|]. rewrite Hw2. split; [app_eq | exact Hw1].
Qed.

Lemma remove_min_spec fuel : forall h m n,
  wf h (S m) n -> h < fuel ->
  exists n' x, remove_min fuel n = Ret (n', x) /\ flat n = x :: flat n' /\ wf h m n'.
Proof.
  induction fuel as [|fuel IH]; intros h m n Hwf Hf; [lia|]. cbn [remove_min].
  destruct (wf_total_pos h m n Hwf) as [t Et]. rewrite Et. cbn [decr mbind exec_bind].
  apply wf_iff in Hwf as (Hk & Ht & Hb). rewrite Et in Ht. cbn [keys children total].
  change (is_leaf (mkNode (keys n) (children n) t)) with (is_leaf n). rewrite (is_leaf_body h) by exact Hb.
  destruct h as [|h].
  - destruct n as [ks cs t0]. cbn in Hb, Hk, Ht |- *. subst cs. cbn in Ht.
    destruct ks as [|x ks]; [cbn in *; lia|]. change (remove_at 0 (x :: ks)) with (Ret (ks, x)). cbn in *.
    eexists _, _. split; [reflexivity|]. split; [reflexivity|]. apply wf_iff. cbn. repeat split; lia.
  - destruct (body_focus h 0 n Hb ltac:(lia)) as (A & c & B & Hfo & Wc).
    pose proof (focus_first _ _ _ _ _ Hfo) as ->.
    pose proof (focus_flat _ _ _ _ _ _ Hfo) as Hfl.
    destruct (descend_spec h m (mkNode (keys n) (children n) t) _ [] c B (focus_total _ _ _ _ _ _ t Hfo) Wc Hk)
      as (n' & i' & A' & c' & B' & E & Eg & Wc' & Ec & HA & _ & Et' & Hput).
    rewrite E. cbn [mbind exec_bind]. rewrite Eg. cbn [mbind exec_bind].
    destruct (IH h MIN_KEYS c' Wc' ltac:(lia)) as (c'' & x & Er & Efl & W''). rewrite Er. cbn [mbind exec_bind].
    destruct (Hput c'' W'') as (cs & Es & Hw). rewrite Es. cbn [mbind exec_bind].
    apply prefix_nil_inv in HA as ->. cbn [app] in *. rewrite Efl in Ec.
    rewrite Hfl, <- Ec in *. rewrite Et'. cbn [total].
    destruct (Hw t) as [Hw1 Hw2]; [cbn in Ht; lia|].
    eexists _, x. split; [reflexivity|]. rewrite Hw2. split; [app_eq | exact Hw1].
Qed.

(** The key at a separator: its neighbours split the keys there. *)
Lemma hit_focus X key Y : sorted (X ++ key :: Y) ->
  del key (X ++ key :: Y) = X ++ Y /\ mem key (X ++ key :: Y) = true.
Proof.
  intros Hs. apply sorted_app in Hs as (_ & _ & Hlt).
  assert (below key X) by (apply Forall_forall; intros x Hx; apply Hlt; [exact Hx | left]).
  rewrite del_below by assumption. cbn. rewrite cmp_refl. split; [reflexivity|].
  apply mem_elem, elem_of_app. right. left.
Qed.

Lemma remove_hit_spec (rec : Node K -> K -> exec (Node K * bool)) fuel h m n key k1 k2 :
  (forall c, wf h (S MIN_KEYS) c -> sorted (flat c) -> exists c', rec c key = Ret (c', mem key (flat c)) /\
     wf h MIN_KEYS c' /\ flat c' = del key (flat c)) ->
  wf (S h) (S m) n -> sorted (flat n) -> h < fuel -> keys n = k1 ++ key :: k2 ->
  exists n', remove_hit_in_internal rec fuel n key (length k1) = Ret (n', mem key (flat n)) /\
    wf (S h) m n' /\ flat n' = del key (flat n).
Proof.
  intros Hrec Hwf Hs Hf Ek. destruct (wf_total_pos _ _ _ Hwf) as [t Et].
  apply wf_iff in Hwf as (Hk & Ht & Hb). destruct n as [ks cs t0]. cbn [keys children total] in *. subst ks t0.
  destruct Hb as [Hl Hc]. cbn in Hl, Hc. rewrite length_app in Hk, Hl. cbn in Hk, Hl.
  destruct (split_list_at cs (length k1)) as (l1 & cl & l2 & -> & L1); [lia|].
  rewrite length_app in Hl. cbn in Hl. destruct l2 as [|cr l2]; [cbn in Hl; lia|]. cbn in Hl.
  apply Forall_app in Hc as [F1 F2]. apply Forall_cons in F2 as [Fl F2]. apply Forall_cons in F2 as [Fr F2].
  set (X := pre (map flat l1) k1). set (Y := post k2 (map flat l2)).
  assert (Hshape : forall x cl' cr' t', flat (mkNode (k1 ++ x :: k2) (l1 ++ cl' :: cr' :: l2) t') =
            X ++ flat cl' ++ x :: flat cr' ++ Y) by (intros; rewrite flat_focus by (cbn; lia); reflexivity).
  assert (Hwf' : forall x cl' cr', wf h MIN_KEYS cl' -> wf h MIN_KEYS cr' ->
            t = length (X ++ flat cl' ++ x :: flat cr' ++ Y) ->
            wf (S h) m (mkNode (k1 ++ x :: k2) (l1 ++ cl' :: cr' :: l2) t)).
  { intros x cl' cr' W1 W2 E. apply wf_iff. rewrite Hshape. cbn [keys total]. rewrite length_app. cbn [length].
    split; [lia|]. split; [exact E|]. cbn. rewrite !length_app. cbn. split; [lia|]. apply Forall_app. auto. }
  rewrite Hshape in *. rewrite (app_assoc X) in *. destruct (hit_focus _ key _ Hs) as [-> ->].
  rewrite !length_app in Ht. cbn in Ht. rewrite length_app in Ht.
  unfold remove_hit_in_internal. cbn [keys children total].
  rewrite (keys_of_child_app _ l1 cl _ _ (length k1)) by lia. cbn [mbind exec_bind].
  destruct (Nat.ltb_spec MIN_KEYS (length (keys cl))) as [Rl|Rl].
  { rewrite (expect_app (length k1) cl l1) by lia. cbn [mbind exec_bind].
    destruct (remove_max_spec fuel h MIN_KEYS cl) as (cl' & x & -> & Efl & W);
      [apply wf_iff in Fl; apply wf_iff; intuition lia | exact Hf|]. cbn [mbind exec_bind].
    rewrite (set_at_app _ cl cl' l1) by lia. cbn [mbind exec_bind]. rewrite (set_at_app _ key x k1) by lia.
    cbn [mbind exec_bind decr]. eexists. split; [reflexivity|]. rewrite Hshape, Efl in *. rewrite length_app in Ht. cbn in Ht.
    split; [apply Hwf'; auto; rewrite !length_app; cbn; rewrite length_app; lia | app_eq]. }
  rewrite keys_of_child_app_snoc by lia. cbn [mbind exec_bind].
  destruct (Nat.ltb_spec MIN_KEYS (length (keys cr))) as [Rr|Rr].
  { rewrite expect_app_snoc by lia. cbn [mbind exec_bind].
    destruct (remove_min_spec fuel h MIN_KEYS cr) as (cr' & x & -> & Efl & W);
      [apply wf_iff in Fr; apply wf_iff; intuition lia | exact Hf|]. cbn [mbind exec_bind].
    rewrite set_at_app_snoc by lia. cbn [mbind exec_bind]. rewrite (set_at_app _ key x k1) by lia.
    cbn [mbind exec_bind decr]. eexists. split; [reflexivity|]. rewrite Hshape, Efl in *. cbn in Ht.
    split; [apply Hwf'; auto; rewrite !length_app; cbn; rewrite length_app; lia | app_eq]. }
  destruct (merge_spec h (length k1) k1 key k2 l1 cl cr l2 (S t)) as (mc & -> & Em & Wm);
    [lia | lia | apply wf_iff in Fl; lia | apply wf_iff in Fr; lia | exact Fl | exact Fr|].
  cbn [mbind exec_bind children keys total]. rewrite expect_app by lia. cbn [mbind exec_bind].
  assert (Sm : sorted (flat cl ++ key :: flat cr)).
  { rewrite <- app_assoc in Hs. apply sorted_app in Hs as (_ & Hs & _).
    rewrite app_comm_cons, app_assoc in Hs. apply sorted_app in Hs as (Hs & _). exact Hs. }
  destruct (Hrec mc Wm) as (c' & -> & W & Efl); [rewrite Em; exact Sm|]. rewrite Em in *.
  destruct (hit_focus _ key _ Sm) as [Ed Emem]. rewrite Ed in Efl. rewrite Emem. cbn [mbind exec_bind].
  rewrite set_at_app by lia. cbn [mbind exec_bind decr]. eexists. split; [reflexivity|].
  assert (Hfl : flat (mkNode (k1 ++ k2) (l1 ++ c' :: l2) t) = X ++ (flat cl ++ flat cr) ++ Y)
    by (rewrite flat_focus, Efl by lia; reflexivity).
  rewrite Hfl. split; [|app_eq]. apply wf_iff. rewrite Hfl. cbn [keys total]. rewrite !length_app.
  split; [lia|]. split; [lia|]. cbn. rewrite !length_app. cbn. split; [lia|]. apply Forall_app. auto.
Qed.

Lemma remove_leaf_spec fuel m n key :
  wf 0 m n -> sorted (flat n) ->
  exists n', remove_rec (S fuel) n key = Ret (n', mem key (flat n)) /\
    wf 0 (pred m) n' /\ flat n' = del key (flat n).
Proof.
  intros Hwf Hs. pose proof Hwf as (Hk & Ht & Hb)%wf_iff. cbn [remove_rec]. rewrite (is_leaf_body 0) by exact Hb.
  pose proof (binary_search_spec (keys n) key (node_keys_sorted lt 0 n Hb Hs)) as Hbs.
  destruct n as [ks cs t]. cbn in Hb. subst cs. cbn [keys children total flat map interleave] in *.
  destruct (binary_search ks key) as [i|i]; destruct Hbs as (k1 & k2 & -> & <- & Hbe & Hab).
  - rewrite remove_at_app by reflexivity. cbn [mbind exec_bind]. destruct (hit_focus _ _ _ Hs) as [-> ->].
    rewrite length_app in *. cbn in *. destruct t as [|t]; [lia|]. cbn. eexists. split; [reflexivity|]. split; [|reflexivity].
    apply wf_iff. cbn. rewrite length_app. repeat split; lia.
  - assert (Hm : mem key (k1 ++ k2) = false) by (rewrite mem_app, mem_below, mem_above by assumption; reflexivity).
    rewrite Hm, del_absent by exact Hm. eexists. split; [reflexivity|]. split; [|reflexivity].
    apply (wf_weaken 0 m); [lia | exact Hwf].
Qed.

Lemma remove_rec_spec fuel : forall h m n key,
  wf h (S m) n -> sorted (flat n) -> h < fuel ->
  exists n', remove_rec fuel n key = Ret (n', mem key (flat n)) /\
    wf h m n' /\ flat n' = del key (flat n).
Proof.
  induction fuel as [|fuel IH]; intros h m n key Hwf Hs Hf; [lia|].
  destruct h as [|h]; [apply (remove_leaf_spec fuel (S m)); assumption|].
  pose proof Hwf as (Hk & Ht & Hb)%wf_iff. cbn [remove_rec].
  pose proof (binary_search_spec (keys n) key (node_keys_sorted lt (S h) n Hb Hs)) as Hbs.
  rewrite (is_leaf_body (S h)) by exact Hb.
  destruct (binary_search (keys n) key) as [i|i]; destruct Hbs as (k1 & k2 & Ek & <- & Hbe & Hab).
  - apply (remove_hit_spec (remove_rec fuel) fuel h m n key k1 k2); auto; try lia.
    intros c Wc Sc. apply (IH h MIN_KEYS c key Wc Sc). lia.
  - destruct n as [ks cs t].
    destruct (search_focus h ks cs t k1 k2 key Hb Hs Ek Hbe Hab)
      as (l1 & c & l2 & -> & L1 & L2 & Fc & F1 & F2 & Sc & Hpre & Hpost). cbn in Ek. subst ks.
    assert (Hfo : focus h (length k1) (mkNode (k1 ++ k2) (l1 ++ c :: l2) t) (pre (map flat l1) k1) c (post k2 (map flat l2)))
      by (exists k1, k2, l1, l2, t; focus_tac).
    pose proof (focus_flat _ _ _ _ _ _ Hfo) as Hfl.
    destruct (descend_spec h m _ _ _ c _ Hfo Fc Hk) as (n' & i' & A' & c' & B' & E & Eg & Wc' & Ec & [X HA] & [Y HB] & Et & Hput).
    rewrite E. cbn [mbind exec_bind]. rewrite Eg. cbn [mbind exec_bind].
    rewrite Hfl, <- Ec in Hs |- *. rewrite HA in Hpre. rewrite HB in Hpost.
    apply Forall_app in Hpre as [HpA _]. apply Forall_app in Hpost as [_ HpB].
    pose proof Hs as (_ & Hs' & _)%sorted_app. apply sorted_app in Hs' as (Sc' & _).
    rewrite mem_focus, del_focus by assumption.
    destruct (IH h MIN_KEYS c' key Wc' Sc' ltac:(lia)) as (c'' & -> & W & Efl). cbn [mbind exec_bind].
    destruct (Hput c'' W) as (cs & -> & Hw). cbn [mbind exec_bind]. rewrite Et. cbn [total] in *.
    rewrite Hfl, <- Ec, !length_app in Ht. pose proof (length_del key (flat c')) as Hld.
    assert (exists t', (if mem key (flat c') then decr t else Ret t) = Ret t' /\ t' = length (A' ++ flat c'' ++ B')) as (t' & -> & Ht').
    { rewrite !length_app, Efl. destruct (mem key (flat c')).
      - destruct t; [lia|]. eexists. split; [reflexivity | lia].
      - eexists. split; [reflexivity | lia]. }
    cbn [mbind exec_bind]. destruct (Hw t' Ht') as [Hw1 Hw2]. eexists. split; [reflexivity|].
    rewrite Hw2, Efl. auto.
Qed.

(** ** The tree *)

Lemma leaf_ok : tree_ok leaf.
Proof. exists 0. split; [|constructor]. apply wf_iff. cbn. repeat split; keys_lia. Qed.

Lemma insert_ok t key : tree_ok t ->
  exists t', rt_insert t key = Ret (t', negb (mem key (flat t))) /\ tree_ok t' /\ flat t' = ins key (flat t).
Proof.
  intros (h & Hw & Hs). unfold rt_insert. rewrite (wf_levels _ _ _ Hw).
  destruct (insert_rec_spec (S h) h _ t key Hw Hs ltac:(lia)) as (t' & s & -> & Hsp). cbn [mbind exec_bind].
  pose proof (ins_sorted key _ Hs) as Hs'. destruct s as [[med r]|]; cbn in Hsp.
  - destruct Hsp as (W1 & W2 & Hfl). eexists. split; [reflexivity|].
    assert (Hflat : flat (recount (mkNode [med] [t'; r] 0)) = ins key (flat t)).
    { rewrite flat_recount. cbn. exact Hfl. }
    rewrite Hflat. split; [|reflexivity]. exists (S h). rewrite Hflat. split; [|exact Hs'].
    apply wf_recount; [keys_lia|]. cbn. auto.
  - destruct Hsp as [W Hfl]. eexists. split; [reflexivity|]. split; [|exact Hfl]. exists h. rewrite Hfl. auto.
Qed.

Lemma remove_ok t key : tree_ok t ->
  exists t', rt_remove t key = Ret (t', mem key (flat t)) /\ tree_ok t' /\ flat t' = del key (flat t).
Proof.
  intros (h & Hw & Hs). unfold rt_remove. rewrite (wf_levels _ _ _ Hw). pose proof (del_sorted key _ Hs) as Hs'.
  destruct h as [|h].
  - destruct (remove_leaf_spec 0 0 t key Hw Hs) as (t' & -> & W & Hfl). cbn [mbind exec_bind].
    rewrite (is_leaf_body 0), andb_false_r by (apply wf_iff in W; apply W). eexists. split; [reflexivity|].
    split; [|exact Hfl]. exists 0. rewrite Hfl. auto.
  - destruct (remove_rec_spec (S (S h)) (S h) 0 t key Hw Hs ltac:(lia)) as (t' & -> & W & Hfl). cbn [mbind exec_bind].
    pose proof W as (Hk & Ht & Hb)%wf_iff. rewrite (is_leaf_body (S h)) by exact Hb. rewrite andb_true_r.
    destruct t' as [[|k ks] cs t']; cbn [keys children] in *.
    + destruct Hb as [Hl Hc]. cbn in Hl, Hc. destruct cs as [|c [|? ?]]; try discriminate. cbn [pop last length].
      apply Forall_cons in Hc as [Hc _]. eexists. split; [reflexivity|]. cbn in Hfl. split; [|exact Hfl].
      exists h. rewrite Hfl. split; [|exact Hs']. apply (wf_weaken h MIN_KEYS); [destruct h; keys_lia | exact Hc].
    + eexists. split; [reflexivity|]. split; [|exact Hfl]. exists (S h). rewrite Hfl. split; [|exact Hs'].
      apply wf_iff. cbn [keys length] in *. split; [lia | split; assumption].
Qed.

Lemma extend_ok l : forall t, tree_ok t ->
  exists t', extend t l = Ret t' /\ tree_ok t' /\ flat t' = fold_left (fun acc k => ins k acc) l (flat t).
Proof.
  induction l as [|k l IH]; intros t Ht; [exists t; auto|]. cbn.
  destruct (insert_ok t k Ht) as (t1 & -> & H1 & <-). cbn [mbind exec_bind]. apply IH, H1.
Qed.

(** The number of keys grows eightfold with each level. *)
Lemma wf_many h : forall n, wf h MIN_KEYS n -> (8 ^ Z.of_nat (S h) <= 1 + Z.of_nat (total n))%Z.
Proof.
  induction h as [|h IH]; intros n H; pose proof (wf_length _ _ _ H) as Ht; destruct (proj1 (wf_iff _ _ _) H) as (Hk & _ & Hb).
  - rewrite Ht. change (8 ^ Z.of_nat 1)%Z with 8%Z. keys_lia.
  - destruct Hb as [Hl Hc]. rewrite <- (sum_totals h) in Ht by exact Hc.
    assert (Hsum : (Z.of_nat (length (children n)) * (8 ^ Z.of_nat (S h) - 1) <= Z.of_nat (sum_list_with total (children n)))%Z).
    { clear Ht Hl. induction Hc as [|c cs W _ IHc]; cbn [length sum_list_with]; [lia|]. apply IH in W. lia. }
    rewrite (Nat2Z.inj_succ (S h)), Z.pow_succ_r by lia.
    assert (0 < 8 ^ Z.of_nat (S h))%Z by (apply Z.pow_pos_nonneg; lia). change MIN_KEYS with 7 in *. nia.
Qed.
End Spec.

(** ** Properties *)

(** C38: insertion refines insertion in a sorted list.  On every well-formed
    tree [rt_insert] returns (no panic), reports whether the key was new, keeps
    the B-tree invariant with exact subtree counts, and the new tree holds the
    old keys with the new one in its place. *)
Theorem rt_insert_refines {K} `{Cmp : Ord K} {Laws : OrdLaws K} (t : Node K) (key : K) (Ht : tree_ok t) :
  exists t', rt_insert t key = Ret (t', negb (mem key (flat t))) /\ tree_ok t' /\
    flat t' = ins key (flat t) /\ total t' = length (flat t').
Proof.
  destruct (insert_ok t key Ht) as (t' & E & Hok & Hfl). exists t'. split; [exact E|]. split; [exact Hok|].
  split; [exact Hfl|]. destruct Hok as (h & Hw & _). apply wf_iff in Hw. apply Hw.
Qed.

(** removal refines removal from a sorted list.  On every well-formed tree
    [rt_remove] returns (every borrow, merge and [expect] on the way down
    succeeds), reports whether the key was there, keeps the invariant, and the
    new tree holds the other keys. *)
Theorem rt_remove_refines {K} `{Cmp : Ord K} {Laws : OrdLaws K} (t : Node K) (key : K) (Ht : tree_ok t) :
  exists t', rt_remove t key = Ret (t', mem key (flat t)) /\ tree_ok t' /\
    flat t' = del key (flat t) /\ total t' = length (flat t').
Proof.
  destruct (remove_ok t key Ht) as (t' & E & Hok & Hfl). exists t'. split; [exact E|]. split; [exact Hok|].
  split; [exact Hfl|]. destruct Hok as (h & Hw & _). apply wf_iff in Hw. apply Hw.
Qed.

(** collecting any sequence of keys gives a well-formed tree whose keys
    ascend strictly and are exactly the keys of the sequence. *)
Theorem from_iter_is_sorted_set {K} `{Cmp : Ord K} {Laws : OrdLaws K} (l : list K) :
  exists t, from_iter l = Ret t /\ tree_ok t /\ StronglySorted lt (flat t) /\
    forall x, x ∈ flat t <-> x ∈ l.
Proof.
  destruct (extend_ok l leaf leaf_ok) as (t & E & Hok & Hfl). exists t. split; [exact E|]. split; [exact Hok|].
  split; [destruct Hok as (h & _ & Hs); exact Hs|]. intros x. rewrite Hfl. cbn [flat leaf map interleave].
  assert (H : forall acc, x ∈ fold_left (fun acc k => ins k acc) l acc <-> x ∈ acc \/ x ∈ l).
  { clear t E Hok Hfl. induction l as [|k l IH]; intros acc; cbn; [rewrite elem_of_nil; tauto|].
    rewrite IH, ins_elem, elem_of_cons. tauto. }
  rewrite H, elem_of_nil. tauto.
Qed.

(** A tree of three levels over the even numbers below 320. *)
Definition sample_keys : list Z := map (fun i => 2 * Z.of_nat i)%Z (seq 0 160).
Definition sample : Node Z := match from_iter sample_keys with Ret t => t | Panic => leaf end.

Lemma sample_ok : tree_ok sample.
Proof.
  destruct (extend_ok sample_keys leaf leaf_ok) as (t & E & Hok & _). unfold sample, from_iter. rewrite E. exact Hok.
Qed.

Lemma rt_insert_refines_witness :
  (exists t', rt_insert sample 101%Z = Ret (t', true) /\ tree_ok t') /\ levels sample = 3.
Proof.
  assert (Hm : mem 101%Z (flat sample) = false) by (vm_compute; reflexivity).
  destruct (rt_insert_refines sample 101%Z sample_ok) as (t' & E & Hok & _). rewrite Hm in E.
  split; [exists t'; split; [exact E | exact Hok] | vm_compute; reflexivity].
Defined.

Lemma rt_remove_refines_witness :
  exists t', rt_remove sample 100%Z = Ret (t', true) /\ tree_ok t' /\ length (flat t') = 159.
Proof.
  assert (Hm : mem 100%Z (flat sample) = true) by (vm_compute; reflexivity).
  assert (Hl : length (del 100%Z (flat sample)) = 159) by (vm_compute; reflexivity).
  destruct (rt_remove_refines sample 100%Z sample_ok) as (t' & E & Hok & Hfl & _). rewrite Hm in E. rewrite <- Hfl in Hl.
  exists t'. split; [exact E|]. split; [exact Hok | exact Hl].
Defined.

(** Keys in descending order with repetitions, at the instance for [Z]. *)
Lemma from_iter_is_sorted_set_witness :
  exists t, from_iter (rev sample_keys ++ sample_keys) = Ret t /\ tree_ok t /\ 100%Z ∈ flat t.
Proof.
  destruct (from_iter_is_sorted_set (rev sample_keys ++ sample_keys)) as (t & E & Hok & _ & Hin).
  exists t. split; [exact E|]. split; [exact Hok|]. apply Hin. apply elem_of_app. right.
  apply list_elem_of_In. apply (List.in_map (fun i => 2 * Z.of_nat i)%Z _ 50). apply List.in_seq. lia.
Defined.
