(* ===== verification/RankIter.v ===== *)
(** * Rank queries and iterators of the order-statistic tree
    ([crates/kevy-ranktree/src/lib.rs], [node.rs], [iter.rs])

    Rank, select, partition point, bounds, and the forward and reverse
    iterators with their bounded stack of resume points.  Every query is shown
    to answer what the sorted list of keys answers, and the iterators to yield
    exactly the keys asked for without overrunning their stack. *)

From Stdlib Require Import ZArith Lia Bool Sorted.
From stdpp Require Import base list sorting.
From S2P Require Import Prelude RankTree RankTreeSpec.

#[local] Open Scope list_scope.
#[local] Open Scope nat_scope.

Section Queries.
Context {K : Type} `{Cmp : Ord K}.

(** ** Rank and select *)

(** The inner loop over [node.children[i..]]: the separator the rank lands
    on, or the child to go into with the rank left. *)
Fixpoint rank_step (cs : list (Node K)) (i rank : nat) : exec (nat + nat * Node K * nat) :=
  match cs with
  | [] => Panic
  | c :: r =>
      let below_ := total c in
      if rank <? below_ then Ret (inr (i, c, rank))
      else
        let rank := rank - below_ in
        if rank =? 0 then Ret (inl i) else rank_step r (i + 1) (rank - 1)
  end.

(** The calls of [on_descend] in order, the node and the index reached. *)
Fixpoint descend_to_rank (fuel : nat) (n : Node K) (rank : nat)
  : exec (list (Node K * nat) * Node K * nat) :=
  match fuel with
  | O => Panic
  | S fuel =>
      if is_leaf n then Ret ([], n, rank)
      else
        s ← rank_step (children n) 0 rank;
        match s with
        | inl i => Ret ([], n, i)
        | inr (i, c, rank) =>
            '(path, nd, idx) ← descend_to_rank fuel c rank;
            Ret ((n, i) :: path, nd, idx)
        end
  end.

Definition rt_len (root : Node K) : nat := total root.

Definition select (root : Node K) (rank : nat) : exec (option K) :=
  if total root <=? rank then Ret None
  else
    '(_, nd, idx) ← descend_to_rank (levels root) root rank;
    k ← expect (keys nd !! idx);
    Ret (Some k).

Fixpoint rank_of_loop (fuel : nat) (n : Node K) (acc : nat) (key : K) : exec (option nat) :=
  match fuel with
  | O => Panic
  | S fuel =>
      match binary_search (keys n) key with
      | inl i => Ret (Some (acc + sum_list_with total (take (i + 1) (children n)) + i))
      | inr i =>
          if is_leaf n then Ret None
          else
            c ← expect (children n !! i);
            rank_of_loop fuel c (acc + i + sum_list_with total (take i (children n))) key
      end
  end.

Definition rank_of (root : Node K) (key : K) : exec (option nat) :=
  rank_of_loop (levels root) root 0 key.

(** [slice.partition_point(pred)] on a partitioned slice *)
Fixpoint slice_partition_point (pred : K -> bool) (l : list K) : nat :=
  match l with
  | [] => 0
  | k :: r => if pred k then S (slice_partition_point pred r) else 0
  end.

Fixpoint partition_loop (fuel : nat) (pred : K -> bool) (n : Node K) (acc : nat) : exec nat :=
  match fuel with
  | O => Panic
  | S fuel =>
      let i := slice_partition_point pred (keys n) in
      if is_leaf n then Ret (acc + i)
      else
        c ← expect (children n !! i);
        partition_loop fuel pred c (acc + i + sum_list_with total (take i (children n)))
  end.

Definition partition_point (root : Node K) (pred : K -> bool) : exec nat :=
  partition_loop (levels root) pred root 0.

Inductive Bound : Type := Included (k : K) | Excluded (k : K) | Unbounded.

(** [x < k] and [x <= k] *)
Definition ltb (x k : K) : bool := match cmp x k with Lt => true | _ => false end.
Definition leb (x k : K) : bool := match cmp x k with Gt => false | _ => true end.

Definition bound_ranks (root : Node K) (start_bound end_bound : Bound) : exec (nat * nat) :=
  lo ← match start_bound with
       | Unbounded => Ret 0
       | Included k => partition_point root (fun x => ltb x k)
       | Excluded k => partition_point root (fun x => leb x k)
       end;
  hi ← match end_bound with
       | Unbounded => Ret (rt_len root)
       | Included k => partition_point root (fun x => leb x k)
       | Excluded k => partition_point root (fun x => ltb x k)
       end;
  Ret (lo, hi).

Definition count_in (root : Node K) (start_bound end_bound : Bound) : exec nat :=
  '(lo, hi) ← bound_ranks root start_bound end_bound; Ret (hi - lo).

(** ** Iterators *)

Definition MAX_HEIGHT : nat := 24.

(** [Path]: the resume points, the last pushed first. *)
Definition Path : Type := list (Node K * nat).

(** [self.at[self.len] = Some(step)]: panics when the array is full. *)
Definition path_push (step : Node K * nat) (p : Path) : exec Path :=
  if length p <? MAX_HEIGHT then Ret (step :: p) else Panic.

Record Iter := mkIter { stack : Path; remaining : nat }.

(** The pushes of the forward closure along a descent. *)
Fixpoint push_forward (l : list (Node K * nat)) (p : Path) : exec Path :=
  match l with
  | [] => Ret p
  | (n, i) :: r =>
      p ← (if i <? length (keys n) then path_push (n, i) p else Ret p);
      push_forward r p
  end.

Definition iter_new_from (root : Node K) (rank : nat) : exec Iter :=
  let remaining := total root - rank in
  if remaining =? 0 then Ret (mkIter [] remaining)
  else
    '(path, nd, idx) ← descend_to_rank (levels root) root rank;
    p ← push_forward path [];
    p ← path_push (nd, idx) p;
    Ret (mkIter p remaining).

Definition capped (it : Iter) (cap : nat) : Iter := mkIter (stack it) (min (remaining it) cap).

Fixpoint descend_left (fuel : nat) (n : Node K) (p : Path) : exec Path :=
  match fuel with
  | O => Panic
  | S fuel =>
      p ← path_push (n, 0) p;
      if is_leaf n then Ret p
      else c ← expect (children n !! 0); descend_left fuel c p
  end.

Definition iter_next (it : Iter) : exec (option K * Iter) :=
  if remaining it =? 0 then Ret (None, it)
  else
    match stack it with
    | [] => Ret (None, it)
    | (n, i) :: p =>
        key ← expect (keys n !! i);
        p ← (if i + 1 <? length (keys n) then path_push (n, i + 1) p else Ret p);
        p ← (if is_leaf n then Ret p
             else c ← expect (children n !! (i + 1)); descend_left (levels c) c p);
        Ret (Some key, mkIter p (remaining it - 1))
    end.

Fixpoint push_reverse (l : list (Node K * nat)) (p : Path) : exec Path :=
  match l with
  | [] => Ret p
  | (n, i) :: r =>
      p ← (if 0 <? i then path_push (n, i - 1) p else Ret p);
      push_reverse r p
  end.

Definition iter_rev_new_through (root : Node K) (through : nat) : exec Iter :=
  let remaining := min through (total root) in
  if remaining =? 0 then Ret (mkIter [] remaining)
  else
    let rank := remaining - 1 in
    '(path, nd, idx) ← descend_to_rank (levels root) root rank;
    p ← push_reverse path [];
    p ← path_push (nd, idx) p;
    Ret (mkIter p remaining).

Fixpoint descend_right (fuel : nat) (n : Node K) (p : Path) : exec Path :=
  match fuel with
  | O => Panic
  | S fuel =>
      at_ ← decr (length (keys n));
      p ← path_push (n, at_) p;
      if is_leaf n then Ret p
      else
        last_ ← decr (length (children n));
        c ← expect (children n !! last_);
        descend_right fuel c p
  end.

Definition iter_rev_next (it : Iter) : exec (option K * Iter) :=
  if remaining it =? 0 then Ret (None, it)
  else
    match stack it with
    | [] => Ret (None, it)
    | (n, i) :: p =>
        key ← expect (keys n !! i);
        p ← (if 0 <? i then path_push (n, i - 1) p else Ret p);
        p ← (if is_leaf n then Ret p
             else c ← expect (children n !! i); descend_right (levels c) c p);
        Ret (Some key, mkIter p (remaining it - 1))
    end.

(** Calling [next] until it gives [None]. *)
Fixpoint drain (next : Iter -> exec (option K * Iter)) (fuel : nat) (it : Iter) : exec (list K) :=
  match fuel with
  | O => Panic
  | S fuel =>
      '(o, it) ← next it;
      match o with
      | None => Ret []
      | Some k => r ← drain next fuel it; Ret (k :: r)
      end
  end.

Definition collect_iter (it : Iter) : exec (list K) := drain iter_next (S (remaining it)) it.
Definition collect_rev (it : Iter) : exec (list K) := drain iter_rev_next (S (remaining it)) it.

Definition iter_from (root : Node K) (rank : nat) : exec Iter := iter_new_from root rank.
Definition iter_rev_from (root : Node K) (rank : nat) : exec Iter := iter_rev_new_through root rank.

Definition range (root : Node K) (start_bound end_bound : Bound) : exec Iter :=
  '(lo, hi) ← bound_ranks root start_bound end_bound;
  it ← iter_new_from root lo;
  Ret (capped it (hi - lo)).
End Queries.

Arguments Bound K : clear implicits.

Section QuerySpec.
Context {K : Type} `{Cmp : Ord K}.
Abbreviation sorted := (StronglySorted lt).

(** ** Descending by rank *)

(** Where rank [rank] of [n] lies: on a separator or in a child. *)
Inductive landing (h : nat) (n : Node K) (rank : nat) : nat + nat * Node K * nat -> Prop :=
| land_key l1 c l2 k1 k k2 :
    children n = l1 ++ c :: l2 -> keys n = k1 ++ k :: k2 -> length l1 = length k1 ->
    length l2 = length (k :: k2) -> rank = length (pre (map flat l1) k1 ++ flat c) ->
    landing h n rank (inl (length k1))
| land_child l1 c l2 k1 k2 r :
    children n = l1 ++ c :: l2 -> keys n = k1 ++ k2 -> length l1 = length k1 -> length l2 = length k2 ->
    wf h MIN_KEYS c -> rank = length (pre (map flat l1) k1) + r -> r < length (flat c) ->
    landing h n rank (inr (length k1, c, r)).

Lemma rank_step_loop h t0 : forall cs ks l1 k1 r,
  length cs = S (length ks) -> length l1 = length k1 -> Forall (wf h MIN_KEYS) cs ->
  r < length (interleave (map flat cs) ks) ->
  exists s, rank_step cs (length k1) r = Ret s /\
    landing h (mkNode (k1 ++ ks) (l1 ++ cs) t0) (length (pre (map flat l1) k1) + r) s.
Proof.
  induction cs as [|c cs IH]; intros ks l1 k1 r Hl L1 Hc Hr; [discriminate|]. cbn in Hl.
  apply Forall_cons in Hc as [Wc Hc]. pose proof Wc as (_ & Ht & _)%wf_iff. cbn [rank_step]. rewrite Ht.
  destruct (Nat.ltb_spec r (length (flat c))) as [Hlt|Hge].
  - eexists. split; [reflexivity|]. apply (land_child _ _ _ l1 c cs k1 ks r); auto.
  - destruct ks as [|k ks]; [destruct cs; [cbn in Hr; lia | discriminate]|]. cbn in Hr, Hl. rewrite length_app in Hr. cbn in Hr.
    destruct (Nat.eqb_spec (r - length (flat c)) 0) as [Ez|Hnz].
    + eexists. split; [reflexivity|]. apply (land_key _ _ _ l1 c cs k1 k ks); cbn; auto; try lia.
      rewrite length_app. lia.
    + destruct (IH ks (l1 ++ [c]) (k1 ++ [k]) (r - length (flat c) - 1)) as (s & Es & Hs);
        [lia | rewrite !length_app; cbn; lia | exact Hc | lia|].
      rewrite length_app in Es. exists s. split; [exact Es|]. rewrite <- !app_assoc in Hs. cbn [app] in Hs.
      rewrite map_app, pre_app in Hs by (rewrite length_map; exact L1). rewrite length_app in Hs. cbn in Hs.
      rewrite length_app in Hs. cbn in Hs.
      replace (length (pre (map flat l1) k1) + r) with
        (length (pre (map flat l1) k1) + (length (flat c) + 1) + (r - length (flat c) - 1)) by lia. exact Hs.
Qed.

Lemma rank_step_spec h n r :
  body (S h) n -> r < length (flat n) ->
  exists s, rank_step (children n) 0 r = Ret s /\ landing h n r s.
Proof.
  destruct n as [ks cs t]. intros [Hl Hc] Hr. cbn in Hl, Hc.
  apply (rank_step_loop h t cs ks [] [] r); auto.
Qed.

(** ** What the stacks stand for *)

(** The keys a forward resume point still owes. *)
Definition owes (s : Node K * nat) : list K :=
  post (drop (snd s) (keys (fst s))) (map flat (drop (S (snd s)) (children (fst s)))).

(** The keys a reverse resume point still owes, ascending. *)
Definition owes_rev (s : Node K * nat) : list K :=
  match children (fst s) with
  | [] => take (S (snd s)) (keys (fst s))
  | cs => pre (map flat (take (S (snd s)) cs)) (take (S (snd s)) (keys (fst s)))
  end.

(** The last [H + 1 - lo] levels at most, deeper ones nearer the top. *)
Fixpoint stack_ok (H lo : nat) (p : Path (K := K)) : Prop :=
  match p with
  | [] => True
  | (n, i) :: r => exists h m, lo <= h <= H /\ wf h m n /\ i < length (keys n) /\ stack_ok H (S h) r
  end.

Lemma stack_ok_weaken H lo lo' p : lo' <= lo -> stack_ok H lo p -> stack_ok H lo' p.
Proof.
  destruct p as [|[n i] r]; cbn; [auto|]. intros Hle (h & m & Hh & Hrest). exists h, m. split; [lia | exact Hrest].
Qed.

Lemma stack_ok_length H p : forall lo, stack_ok H lo p -> lo <= S H -> length p + lo <= S H.
Proof.
  induction p as [|[n i] r IH]; intros lo; cbn; [lia|]. intros (h & m & Hh & _ & _ & Hr) _. apply IH in Hr; lia.
Qed.

Lemma push_ok H h m n i p :
  H < MAX_HEIGHT -> wf h m n -> h <= H -> i < length (keys n) -> stack_ok H (S h) p ->
  path_push (n, i) p = Ret ((n, i) :: p) /\ stack_ok H h ((n, i) :: p).
Proof.
  intros HH Hw Hh Hi Hp. unfold path_push. pose proof (stack_ok_length H p (S h) Hp ltac:(lia)).
  destruct (Nat.ltb_spec (length p) MAX_HEIGHT); [|lia]. split; [reflexivity|]. exists h, m. split; [lia | auto].
Qed.

Lemma drop_mid {A} (l1 : list A) x l2 : drop (S (length l1)) (l1 ++ x :: l2) = l2.
Proof.
  change (l1 ++ x :: l2) with (l1 ++ [x] ++ l2). rewrite app_assoc. apply drop_app_length'. rewrite length_app. cbn. lia.
Qed.

Lemma drop_mid2 {A} i (l1 : list A) x y l2 : i = length l1 + 2 -> drop i (l1 ++ x :: y :: l2) = l2.
Proof.
  intros ->. change (l1 ++ x :: y :: l2) with (l1 ++ [x; y] ++ l2). rewrite app_assoc.
  apply drop_app_length'. rewrite length_app. cbn. lia.
Qed.

Lemma take_mid {A} (l1 : list A) x l2 : take (S (length l1)) (l1 ++ x :: l2) = l1 ++ [x].
Proof.
  change (l1 ++ x :: l2) with (l1 ++ [x] ++ l2). rewrite app_assoc. apply take_app_length'. rewrite length_app. cbn. lia.
Qed.

Lemma owes_focus k1 k2 l1 c l2 t :
  length l1 = length k1 ->
  owes (mkNode (k1 ++ k2) (l1 ++ c :: l2) t, length k1) = post k2 (map flat l2).
Proof.
  intros H. unfold owes. cbn [fst snd keys children]. rewrite drop_app_length, <- H, drop_mid. reflexivity.
Qed.

Lemma owes_rev_focus k1 k k2 l1 c l2 t :
  length l1 = length k1 ->
  owes_rev (mkNode (k1 ++ k :: k2) (l1 ++ c :: l2) t, length k1) = pre (map flat l1) k1 ++ flat c ++ [k].
Proof.
  intros H. unfold owes_rev. cbn [fst snd keys children].
  destruct (l1 ++ c :: l2) as [|d ds] eqn:E; [destruct l1; discriminate|]. rewrite <- E.
  rewrite take_mid, <- H, take_mid, map_app, pre_app by (rewrite length_map; exact H). reflexivity.
Qed.

Definition ahead (p : Path (K := K)) : list K := concat (map owes p).
Definition behind (p : Path (K := K)) : list K := concat (map (fun s => reverse (owes_rev s)) p).

Lemma ahead_cons s p : ahead (s :: p) = owes s ++ ahead p.
Proof. reflexivity. Qed.

Lemma behind_cons s p : behind (s :: p) = reverse (owes_rev s) ++ behind p.
Proof. reflexivity. Qed.

Lemma post_nil (ks : list K) : post ks [] = ks.
Proof. destruct ks; reflexivity. Qed.

(** Pushing the resume points of a descent to rank [rank] of [n]. *)
Definition resumes (h : nat) (n : Node K) (rank : nat) (path : list (Node K * nat)) (nd : Node K) (idx : nat) : Prop :=
  forall H p, H < MAX_HEIGHT -> h <= H -> stack_ok H (S h) p ->
    (exists p1 p2, push_forward path p = Ret p1 /\ path_push (nd, idx) p1 = Ret p2 /\
       stack_ok H 0 p2 /\ ahead p2 = drop rank (flat n) ++ ahead p) /\
    (exists p1 p2, push_reverse path p = Ret p1 /\ path_push (nd, idx) p1 = Ret p2 /\
       stack_ok H 0 p2 /\ behind p2 = reverse (take (S rank) (flat n)) ++ behind p).

(** A descent that ends in [n] itself. *)
Lemma resumes_here h m n rank idx :
  wf h m n -> idx < length (keys n) -> owes (n, idx) = drop rank (flat n) ->
  owes_rev (n, idx) = take (S rank) (flat n) -> resumes h n rank [] n idx.
Proof.
  intros Hw Hi Ho Hr H p HH Hh Hp. destruct (push_ok H h m n idx p HH Hw Hh Hi Hp) as [E Hs].
  apply (stack_ok_weaken _ _ 0) in Hs; [|lia].
  split; exists p, ((n, idx) :: p); cbn [push_forward push_reverse]; (split; [reflexivity|]); (split; [exact E|]);
    (split; [exact Hs|]); rewrite ?ahead_cons, ?behind_cons, ?Ho, ?Hr; reflexivity.
Qed.

(** A descent that goes on in the child at [k1]. *)
Lemma resumes_below h m k1 k2 l1 c l2 t r path nd idx :
  wf (S h) m (mkNode (k1 ++ k2) (l1 ++ c :: l2) t) -> length l1 = length k1 -> length l2 = length k2 ->
  r < length (flat c) -> resumes h c r path nd idx ->
  resumes (S h) (mkNode (k1 ++ k2) (l1 ++ c :: l2) t) (length (pre (map flat l1) k1) + r)
    ((mkNode (k1 ++ k2) (l1 ++ c :: l2) t, length k1) :: path) nd idx.
Proof.
  intros Hw L1 L2 Hr IH H p HH Hh Hp. set (n := mkNode (k1 ++ k2) (l1 ++ c :: l2) t) in *.
  assert (Hp' : stack_ok H (S h) p) by (apply (stack_ok_weaken _ (S (S h))); [lia | exact Hp]).
  split.
  - assert (exists p0, (if length k1 <? length (keys n) then path_push (n, length k1) p else Ret p) = Ret p0 /\
              stack_ok H (S h) p0 /\ ahead p0 = post k2 (map flat l2) ++ ahead p) as (p0 & E0 & S0 & A0).
    { cbn [keys n]. rewrite length_app. destruct (Nat.ltb_spec (length k1) (length k1 + length k2)).
      - destruct (push_ok H (S h) m n (length k1) p HH Hw Hh) as [E Hs]; [cbn; rewrite length_app; lia | exact Hp|].
        exists ((n, length k1) :: p). split; [exact E|]. split; [exact Hs|]. rewrite ahead_cons.
        subst n. rewrite owes_focus by exact L1. reflexivity.
      - exists p. destruct k2; [|cbn in *; lia]. destruct l2; [|discriminate]. auto. }
    destruct (IH H p0 HH ltac:(lia) S0) as [(p1 & p2 & E1 & E2 & S2 & A2) _].
    exists p1, p2. cbn [push_forward]. rewrite E0. cbn [mbind exec_bind]. split; [exact E1|]. split; [exact E2|].
    split; [exact S2|]. rewrite A2, A0. subst n. rewrite flat_focus by assumption.
    rewrite drop_app_add, drop_app_le by lia. app_eq.
  - assert (exists p0, (if 0 <? length k1 then path_push (n, length k1 - 1) p else Ret p) = Ret p0 /\
              stack_ok H (S h) p0 /\ behind p0 = reverse (pre (map flat l1) k1) ++ behind p) as (p0 & E0 & S0 & A0).
    { destruct (Nat.ltb_spec 0 (length k1)) as [Hk|Hk].
      - destruct (unsnoc k1 Hk) as (k1' & k & ->). rewrite length_app in L1. cbn in L1.
        destruct (unsnoc l1) as (l1' & d & ->); [lia|]. rewrite length_app in L1. cbn in L1.
        replace (length (k1' ++ [k]) - 1) with (length k1') by (rewrite length_app; cbn; lia).
        destruct (push_ok H (S h) m n (length k1') p HH Hw Hh) as [E Hs];
          [cbn; rewrite !length_app; cbn; lia | exact Hp|].
        exists ((n, length k1') :: p). split; [exact E|]. split; [exact Hs|]. rewrite behind_cons.
        subst n. rewrite <- !app_assoc. cbn [app]. rewrite owes_rev_focus by lia.
        rewrite map_app, pre_app by (rewrite length_map; lia). reflexivity.
      - exists p. destruct k1; [|cbn in *; lia]. destruct l1; [|discriminate]. auto. }
    destruct (IH H p0 HH ltac:(lia) S0) as [_ (p1 & p2 & E1 & E2 & S2 & A2)].
    exists p1, p2. cbn [push_reverse]. rewrite E0. cbn [mbind exec_bind]. split; [exact E1|]. split; [exact E2|].
    split; [exact S2|]. rewrite A2, A0. subst n. rewrite flat_focus by assumption.
    replace (S (length (pre (map flat l1) k1) + r)) with (length (pre (map flat l1) k1) + S r) by lia.
    rewrite take_app_add, take_app_le by lia. rewrite reverse_app. app_eq.
Qed.

Lemma descend_ok fuel : forall h m n rank,
  wf h m n -> h < fuel -> rank < length (flat n) ->
  exists path nd idx k, descend_to_rank fuel n rank = Ret (path, nd, idx) /\
    keys nd !! idx = Some k /\ flat n !! rank = Some k /\ resumes h n rank path nd idx.
Proof.
  induction fuel as [|fuel IH]; intros h m n rank Hwf Hf Hr; [lia|]. cbn [descend_to_rank].
  pose proof Hwf as (Hk & Ht & Hb)%wf_iff. rewrite (is_leaf_body h) by exact Hb. destruct h as [|h].
  - cbn in Hb. assert (Hfl : flat n = keys n) by (rewrite flat_eq, Hb; reflexivity). rewrite Hfl in *.
    destruct (lookup_lt_is_Some_2 _ _ Hr) as [k Ek]. exists [], n, rank, k. repeat (split; [assumption || reflexivity|]).
    apply (resumes_here 0 m); [exact Hwf | exact Hr | |]; rewrite Hfl.
    + unfold owes. cbn [fst snd]. rewrite Hb, drop_nil. apply post_nil.
    + unfold owes_rev. cbn [fst snd]. rewrite Hb. reflexivity.
  - destruct (rank_step_spec h n rank Hb Hr) as (s & -> & Hs). cbn [mbind exec_bind]. destruct n as [ks cs t].
    destruct Hs as [l1 c l2 k1 k k2 Ec Ek L1 L2 Er|l1 c l2 k1 k2 r Ec Ek L1 L2 Wc Er Hlt]; cbn in Ec, Ek; subst ks cs.
    + destruct l2 as [|d l2]; [discriminate|]. assert (Hfl : flat (mkNode (k1 ++ k :: k2) (l1 ++ c :: d :: l2) t) =
        (pre (map flat l1) k1 ++ flat c) ++ k :: flat d ++ post k2 (map flat l2))
        by (rewrite flat_focus by assumption; cbn; app_eq).
      exists [], (mkNode (k1 ++ k :: k2) (l1 ++ c :: d :: l2) t), (length k1), k. split; [reflexivity|].
      split; [apply list_lookup_middle; reflexivity|]. split; [rewrite Hfl; apply list_lookup_middle, Er|].
      apply (resumes_here (S h) m); [exact Hwf | cbn; rewrite length_app; cbn; lia | |]; rewrite Hfl, Er.
      * rewrite owes_focus, drop_app_length by exact L1. reflexivity.
      * rewrite owes_rev_focus, take_mid by exact L1. app_eq.
    + destruct (IH h MIN_KEYS c r Wc ltac:(lia) Hlt) as (path & nd & idx & k & E & Ek & Efl & Hres).
      rewrite E. cbn [mbind exec_bind]. eexists _, nd, idx, k. split; [reflexivity|]. split; [exact Ek|].
      split; [|rewrite Er; apply (resumes_below h m); assumption].
      rewrite flat_focus, Er by assumption. rewrite lookup_app_r by lia.
      rewrite lookup_app_l by lia. rewrite <- Efl. f_equal. lia.
Qed.

(** ** Stepping *)

Lemma descend_left_ok fuel : forall H h n p,
  H < MAX_HEIGHT -> wf h MIN_KEYS n -> h <= H -> h < fuel -> stack_ok H (S h) p ->
  exists p', descend_left fuel n p = Ret p' /\ stack_ok H 0 p' /\ ahead p' = flat n ++ ahead p.
Proof.
  induction fuel as [|fuel IH]; intros H h n p HH Hw Hh Hf Hp; [lia|]. cbn [descend_left].
  pose proof Hw as (Hk & Ht & Hb)%wf_iff.
  destruct (push_ok H h MIN_KEYS n 0 p HH Hw Hh) as [-> Hs]; [keys_lia | exact Hp|]. cbn [mbind exec_bind].
  rewrite (is_leaf_body h) by exact Hb. destruct h as [|h].
  - eexists. split; [reflexivity|]. split; [exact Hs|]. rewrite ahead_cons. f_equal. unfold owes. cbn [fst snd].
    cbn in Hb. rewrite flat_eq, Hb. cbn. apply post_nil.
  - destruct n as [ks cs t]. destruct Hb as [Hl Hc]. cbn in Hl, Hc. destruct cs as [|c cs]; [discriminate|].
    apply Forall_cons in Hc as [Wc _]. cbn [children expect lookup list_lookup mbind exec_bind].
    destruct (IH H h c _ HH Wc ltac:(lia) ltac:(lia) Hs) as (p' & E & S' & A'). exists p'. split; [exact E|].
    split; [exact S'|]. rewrite A', ahead_cons. change 0 with (length (@nil K)).
    rewrite (owes_focus [] ks [] c cs t eq_refl : owes (mkNode ks (c :: cs) t, length []) = _).
    pose proof (flat_focus [] c cs [] ks t eq_refl ltac:(cbn in *; lia)) as Hfl. cbn [app map pre] in Hfl.
    rewrite Hfl. app_eq.
Qed.

Lemma descend_right_ok fuel : forall H h n p,
  H < MAX_HEIGHT -> wf h MIN_KEYS n -> h <= H -> h < fuel -> stack_ok H (S h) p ->
  exists p', descend_right fuel n p = Ret p' /\ stack_ok H 0 p' /\ behind p' = reverse (flat n) ++ behind p.
Proof.
  induction fuel as [|fuel IH]; intros H h n p HH Hw Hh Hf Hp; [lia|]. cbn [descend_right].
  pose proof Hw as (Hk & Ht & Hb)%wf_iff. destruct n as [ks cs t]. cbn [keys children] in *.
  destruct (unsnoc ks) as (k1 & k & ->); [keys_lia|].
  replace (decr (length (k1 ++ [k]))) with (Ret (length k1)) by (rewrite length_app, Nat.add_comm; reflexivity).
  cbn [mbind exec_bind].
  destruct (push_ok H h MIN_KEYS _ (length k1) p HH Hw Hh) as [-> Hs];
    [cbn; rewrite length_app; cbn; lia | exact Hp|]. cbn [mbind exec_bind].
  rewrite (is_leaf_body h) by exact Hb. destruct h as [|h].
  - eexists. split; [reflexivity|]. split; [exact Hs|]. rewrite behind_cons. do 2 f_equal. unfold owes_rev. cbn [fst snd].
    cbn in Hb. subst cs. cbn. apply take_mid.
  - destruct Hb as [Hl Hc]. cbn in Hl, Hc. destruct (unsnoc cs) as (l1 & c & ->); [lia|].
    rewrite !length_app in Hl. cbn in Hl. apply Forall_app in Hc as [_ Wc]. apply Forall_cons in Wc as [Wc _].
    replace (decr (length (l1 ++ [c]))) with (Ret (length l1)) by (rewrite length_app, Nat.add_comm; reflexivity).
    cbn [mbind exec_bind]. rewrite expect_app by reflexivity. cbn [mbind exec_bind].
    destruct (IH H h c _ HH Wc ltac:(lia) ltac:(lia) Hs) as (p' & E & S' & A'). exists p'. split; [exact E|].
    split; [exact S'|]. rewrite A', behind_cons. destruct (unsnoc l1) as (l1' & d & ->); [lia|].
    rewrite length_app in Hl. cbn in Hl. rewrite <- app_assoc. cbn [app]. rewrite owes_rev_focus by lia.
    pose proof (flat_focus (l1' ++ [d]) c [] (k1 ++ [k]) [] t ltac:(rewrite !length_app; cbn; lia) eq_refl) as Hfl.
    rewrite map_app, pre_app in Hfl by (rewrite length_map; lia). cbn [map pre post app] in Hfl.
    rewrite !app_nil_r, <- !app_assoc in Hfl. cbn [app] in Hfl. rewrite Hfl, (app_assoc (flat d) [k] (flat c) : flat d ++ k :: flat c = _), !reverse_app. app_eq.
Qed.

(** A resume point split at its key. *)
Lemma resume_split H lo n i p :
  stack_ok H lo ((n, i) :: p) ->
  exists h m k1 k k2, keys n = k1 ++ k :: k2 /\ i = length k1 /\ wf h m n /\ h <= H /\ stack_ok H (S h) p /\
    (h = 0 /\ children n = [] \/
     exists h' l1 c d l2, h = S h' /\ children n = l1 ++ c :: d :: l2 /\ length l1 = length k1 /\
       length l2 = length k2 /\ wf h' MIN_KEYS c /\ wf h' MIN_KEYS d).
Proof.
  intros (h & m & Hh & Hw & Hi & Hp). destruct (split_list_at (keys n) i Hi) as (k1 & k & k2 & Ek & <-).
  exists h, m, k1, k, k2. split; [exact Ek|]. split; [reflexivity|]. split; [exact Hw|]. split; [lia|]. split; [exact Hp|].
  apply wf_iff in Hw as (_ & _ & Hb). destruct h as [|h]; cbn in Hb; [auto|]. right. destruct Hb as [Hl Hc].
  rewrite Ek, length_app in Hl. cbn in Hl. destruct (split_list_at (children n) (length k1)) as (l1 & c & l2 & E & L1); [lia|].
  rewrite E, length_app in Hl. cbn in Hl. destruct l2 as [|d l2]; [cbn in Hl; lia|]. cbn in Hl. rewrite E in Hc.
  apply Forall_app in Hc as [_ Hc]. apply Forall_cons in Hc as [Wc Hc]. apply Forall_cons in Hc as [Wd _].
  exists h, l1, c, d, l2. repeat (split; [first [reflexivity | assumption | lia]|]). exact Wd.
Qed.

Lemma iter_next_ok H p r :
  H < MAX_HEIGHT -> stack_ok H 0 p -> ahead p <> [] ->
  exists k p', iter_next (mkIter p (S r)) = Ret (Some k, mkIter p' r) /\ stack_ok H 0 p' /\ ahead p = k :: ahead p'.
Proof.
  intros HH Hs Hne. destruct p as [|[n i] p]; [contradiction|]. unfold iter_next. cbn [remaining stack Nat.eqb].
  destruct (resume_split _ _ _ _ _ Hs) as (h & m & k1 & k & k2 & Ek & -> & Hw & Hh & Hp & Hcase).
  destruct n as [ks cs t]. cbn [keys children] in *. subst ks. rewrite expect_app by reflexivity. cbn [mbind exec_bind].
  assert (exists p0, (if length k1 + 1 <? length (k1 ++ k :: k2) then path_push (mkNode (k1 ++ k :: k2) cs t, length k1 + 1) p
                      else Ret p) = Ret p0 /\ stack_ok H h p0 /\
            ahead p0 = post k2 (map flat (drop (length k1 + 2) cs)) ++ ahead p) as (p0 & -> & S0 & A0).
  { rewrite length_app. cbn [length]. destruct (Nat.ltb_spec (length k1 + 1) (length k1 + S (length k2))).
    - destruct (push_ok H h m _ (length k1 + 1) p HH Hw Hh) as [E S0]; [cbn; rewrite length_app; cbn; lia | exact Hp|].
      eexists. split; [exact E|]. split; [exact S0|]. rewrite ahead_cons. unfold owes. cbn [fst snd keys children].
      replace (length k1 + 1) with (S (length k1)) by lia. rewrite drop_mid. do 4 f_equal. lia.
    - exists p. split; [reflexivity|]. split; [apply (stack_ok_weaken _ (S h)); [lia | exact Hp]|].
      destruct k2; [|cbn in *; lia]. destruct Hcase as [[_ ->]|(h' & l1 & c & d & l2 & _ & -> & L1 & L2 & _)].
      + rewrite drop_nil. reflexivity.
      + destruct l2; [|discriminate]. replace (length k1 + 2) with (S (S (length l1))) by lia.
        rewrite drop_ge by (rewrite length_app; cbn; lia). reflexivity. }
  cbn [mbind exec_bind]. rewrite (is_leaf_body h) by (apply wf_iff in Hw; apply Hw).
  destruct Hcase as [[-> ->]|(h' & l1 & c & d & l2 & -> & -> & L1 & L2 & Wc & Wd)].
  - cbn [mbind exec_bind]. replace (S r - 1) with r by lia. exists k, p0. split; [reflexivity|]. split; [exact S0|].
    rewrite A0, ahead_cons. unfold owes. cbn [fst snd keys children]. rewrite !drop_nil, drop_app_length. cbn.
    rewrite post_nil. reflexivity.
  - rewrite expect_app_snoc by lia. cbn [mbind exec_bind].
    destruct (descend_left_ok (levels d) H h' d p0 HH Wd) as (p' & -> & S' & A');
      [lia | rewrite (wf_levels _ _ _ Wd); lia | exact S0|].
    cbn [mbind exec_bind]. replace (S r - 1) with r by lia. exists k, p'. split; [reflexivity|]. split; [exact S'|].
    rewrite A', A0, ahead_cons, owes_focus by exact L1. cbn [map post].
    rewrite drop_mid2 by lia. app_eq.
Qed.

Lemma iter_rev_next_ok H p r :
  H < MAX_HEIGHT -> stack_ok H 0 p -> behind p <> [] ->
  exists k p', iter_rev_next (mkIter p (S r)) = Ret (Some k, mkIter p' r) /\ stack_ok H 0 p' /\ behind p = k :: behind p'.
Proof.
  intros HH Hs Hne. destruct p as [|[n i] p]; [contradiction|]. unfold iter_rev_next. cbn [remaining stack Nat.eqb].
  destruct (resume_split _ _ _ _ _ Hs) as (h & m & k1 & k & k2 & Ek & -> & Hw & Hh & Hp & Hcase).
  destruct n as [ks cs t]. cbn [keys children] in *. subst ks. rewrite expect_app by reflexivity. cbn [mbind exec_bind].
  assert (exists p0, (if 0 <? length k1 then path_push (mkNode (k1 ++ k :: k2) cs t, length k1 - 1) p
                      else Ret p) = Ret p0 /\ stack_ok H h p0 /\
            behind p0 = reverse (match cs with [] => k1 | _ => pre (map flat (take (length k1) cs)) k1 end) ++ behind p)
    as (p0 & -> & S0 & A0).
  { destruct (Nat.ltb_spec 0 (length k1)) as [Hk|Hk].
    - destruct (unsnoc k1 Hk) as (k1' & k' & ->).
      replace (length (k1' ++ [k']) - 1) with (length k1') by (rewrite length_app; cbn; lia).
      destruct (push_ok H h m _ (length k1') p HH Hw Hh) as [E S0]; [cbn; rewrite !length_app; cbn; lia | exact Hp|].
      eexists. split; [exact E|]. split; [exact S0|]. rewrite behind_cons. do 2 f_equal. unfold owes_rev.
      cbn [fst snd keys children]. rewrite <- app_assoc. cbn [app]. rewrite take_mid, length_app.
      destruct cs; [reflexivity|]. do 3 f_equal. cbn. lia.
    - exists p. split; [reflexivity|]. split; [apply (stack_ok_weaken _ (S h)); [lia | exact Hp]|].
      destruct k1; [|cbn in *; lia]. destruct cs; reflexivity. }
  cbn [mbind exec_bind]. rewrite (is_leaf_body h) by (apply wf_iff in Hw; apply Hw).
  destruct Hcase as [[-> ->]|(h' & l1 & c & d & l2 & -> & -> & L1 & L2 & Wc & Wd)].
  - cbn [mbind exec_bind]. replace (S r - 1) with r by lia. exists k, p0. split; [reflexivity|]. split; [exact S0|].
    rewrite A0, behind_cons. unfold owes_rev. cbn [fst snd keys children]. rewrite take_mid, reverse_app. reflexivity.
  - rewrite expect_app by lia. cbn [mbind exec_bind].
    destruct (descend_right_ok (levels c) H h' c p0 HH Wc) as (p' & -> & S' & A');
      [lia | rewrite (wf_levels _ _ _ Wc); lia | exact S0|].
    cbn [mbind exec_bind]. replace (S r - 1) with r by lia. exists k, p'. split; [reflexivity|]. split; [exact S'|].
    rewrite A', A0, behind_cons, owes_rev_focus, <- L1, take_app_length by exact L1.
    destruct (l1 ++ c :: d :: l2) eqn:E; [destruct l1; discriminate|]. rewrite !reverse_app. app_eq.
Qed.

Lemma drain_S (next : Iter -> exec (option K * Iter)) fuel it :
  drain next (S fuel) it =
  '(o, it) ← next it;
  match o with None => Ret [] | Some k => r ← drain next fuel it; Ret (k :: r) end.
Proof. reflexivity. Qed.

(** Draining an iterator whose steps give the keys [keys_of]. *)
Lemma drain_ok (next : Iter -> exec (option K * Iter)) (keys_of : Path (K := K) -> list K) H :
  (forall p, next (mkIter p 0) = Ret (None, mkIter p 0)) ->
  (forall p r, stack_ok H 0 p -> keys_of p <> [] ->
     exists k p', next (mkIter p (S r)) = Ret (Some k, mkIter p' r) /\ stack_ok H 0 p' /\ keys_of p = k :: keys_of p') ->
  forall r p, stack_ok H 0 p -> r <= length (keys_of p) ->
    drain next (S r) (mkIter p r) = Ret (take r (keys_of p)).
Proof.
  intros H0 HS. induction r as [|r IH]; intros p Hp Hr.
  - cbn. rewrite H0. reflexivity.
  - destruct (HS p r Hp) as (k & p' & E & Hp' & Ek); [intros E; rewrite E in Hr; cbn in Hr; lia|].
    rewrite drain_S, E. cbn [mbind exec_bind]. rewrite Ek in Hr |- *. cbn in Hr.
    rewrite IH by (assumption || lia). reflexivity.
Qed.
End QuerySpec.

Section OrderSpec.
Context {K : Type} `{Cmp : Ord K} {Laws : OrdLaws K}.
Abbreviation sorted := (StronglySorted lt).
Abbreviation below k := (Forall (fun x => lt x k)).
Abbreviation above k := (Forall (fun x => lt k x)).

(** ** Rank *)

(** The index of a key in a list. *)
Fixpoint position (key : K) (l : list K) : option nat :=
  match l with
  | [] => None
  | k :: r => match cmp k key with Eq => Some 0 | _ => S <$> position key r end
  end.

Lemma position_below key A l : below key A -> position key (A ++ l) = (fun i => length A + i) <$> position key l.
Proof.
  induction 1 as [|x A Hx _ IH]; cbn; [destruct (position key l); reflexivity|].
  unfold lt in Hx. rewrite Hx, IH. destruct (position key l); reflexivity.
Qed.

Lemma position_above key l B : above key B -> position key (l ++ B) = position key l.
Proof.
  intros HB. induction l as [|k l IH]; cbn; [|rewrite IH; reflexivity].
  induction HB as [|x B Hx _ IH]; [reflexivity|]. apply cmp_gt in Hx. cbn. rewrite Hx, IH. reflexivity.
Qed.

Lemma position_hit key X Y : below key X -> position key (X ++ key :: Y) = Some (length X).
Proof. intros HX. rewrite position_below by exact HX. cbn. rewrite cmp_refl. cbn. f_equal. lia. Qed.

Lemma position_lookup key l : sorted l -> forall i, position key l = Some i <-> l !! i = Some key.
Proof.
  induction l as [|k l IH]; intros Hs i; cbn; [rewrite lookup_nil; split; discriminate|].
  apply sorted_cons in Hs as [Hs Ha]. specialize (IH Hs). destruct (cmp k key) eqn:E.
  - apply cmp_eq in E as ->. destruct i as [|i]; [split; reflexivity|]. split; [discriminate|]. cbn. intros Hl.
    apply list_elem_of_lookup_2 in Hl. rewrite Forall_forall in Ha. apply Ha in Hl. unfold lt in Hl.
    rewrite cmp_refl in Hl. discriminate.
  - destruct i as [|i]; cbn; [split; [destruct (position key l); discriminate | intros [= ->]; rewrite cmp_refl in E; discriminate]|].
    rewrite <- IH. destruct (position key l); cbn; split; congruence.
  - destruct i as [|i]; cbn; [split; [destruct (position key l); discriminate | intros [= ->]; rewrite cmp_refl in E; discriminate]|].
    rewrite <- IH. destruct (position key l); cbn; split; congruence.
Qed.

(** What lies before a child, counted. *)
Lemma sum_before h l1 (k1 : list K) :
  Forall (wf h MIN_KEYS) l1 -> length l1 = length k1 ->
  length k1 + sum_list_with total l1 = length (pre (map flat l1) k1).
Proof.
  intros F L. rewrite length_pre by (rewrite length_map; exact L). rewrite (sum_totals h) by exact F. reflexivity.
Qed.

Lemma rank_of_loop_ok fuel : forall h m n acc key,
  wf h m n -> sorted (flat n) -> h < fuel ->
  rank_of_loop fuel n acc key = Ret ((fun i => acc + i) <$> position key (flat n)).
Proof.
  induction fuel as [|fuel IH]; intros h m n acc key Hwf Hs Hf; [lia|].
  pose proof Hwf as (Hk & Ht & Hb)%wf_iff. cbn [rank_of_loop].
  pose proof (binary_search_spec (keys n) key (node_keys_sorted lt h n Hb Hs)) as Hbs.
  destruct n as [ks cs t]. cbn [keys children] in *.
  destruct (binary_search ks key) as [i|i]; destruct Hbs as (k1 & k2 & -> & <- & Hbe & Hab).
  - destruct h as [|h].
    + cbn in Hb. subst cs. cbn [flat map interleave]. rewrite take_nil, position_hit by exact Hbe. cbn. do 2 f_equal. lia.
    + destruct Hb as [Hl Hc]. cbn in Hl, Hc. rewrite length_app in Hl. cbn in Hl.
      destruct (split_list_at cs (length k1)) as (l1 & c & l2 & -> & L1); [lia|].
      rewrite length_app in Hl. cbn in Hl. apply Forall_app in Hc as [F1 F2]. apply Forall_cons in F2 as [Fc F2].
      rewrite flat_focus in * by (cbn; lia). destruct l2 as [|d l2]; [cbn in Hl; lia|]. cbn [map post] in *.
      rewrite app_assoc in *.
      assert (Hbx : below key (pre (map flat l1) k1 ++ flat c)).
      { apply Forall_forall. intros x Hx. apply sorted_app in Hs as (_ & _ & Hlt). apply Hlt; [exact Hx | left]. }
      rewrite position_hit by exact Hbx. cbn. rewrite Nat.add_1_r, <- L1, take_mid, sum_list_with_app. cbn.
      apply wf_iff in Fc as (_ & -> & _). rewrite length_app, <- (sum_before h l1 k1) by assumption. do 2 f_equal. lia.
  - rewrite (is_leaf_body h) by exact Hb. destruct h as [|h].
    + cbn in Hb. subst cs. cbn [flat map interleave]. rewrite position_below by exact Hbe.
      rewrite (position_above key [] k2 Hab : position key k2 = None). reflexivity.
    + destruct (search_focus h _ cs t k1 k2 key Hb Hs eq_refl Hbe Hab)
        as (l1 & c & l2 & -> & L1 & L2 & Fc & F1 & F2 & Sc & Hpre & Hpost).
      rewrite expect_app by lia. cbn [mbind exec_bind]. rewrite (IH h MIN_KEYS) by (assumption || lia).
      rewrite flat_focus by assumption. rewrite position_below, position_above by assumption.
      rewrite <- L1, take_app_length. rewrite <- (sum_before h l1 k1) by assumption.
      destruct (position key (flat c)); cbn; [do 2 f_equal; lia | reflexivity].
Qed.

(** ** Partition points *)

(** [pred] holds of a prefix. *)
Abbreviation partitioned pred := (StronglySorted (fun x y => pred y = true -> pred x = true)).

Lemma spp_app pred (A l : list K) :
  Forall (fun x => pred x = true) A -> slice_partition_point pred (A ++ l) = length A + slice_partition_point pred l.
Proof. induction 1 as [|x A Hx _ IH]; [reflexivity|]. cbn. rewrite Hx, IH. reflexivity. Qed.

Lemma spp_none pred (B : list K) : Forall (fun x => pred x = false) B -> slice_partition_point pred B = 0.
Proof. destruct 1 as [|x B Hx _]; [reflexivity|]. cbn. rewrite Hx. reflexivity. Qed.

Lemma spp_app_none pred (l B : list K) :
  Forall (fun x => pred x = false) B -> slice_partition_point pred (l ++ B) = slice_partition_point pred l.
Proof.
  intros HB. induction l as [|k l IH]; [apply spp_none, HB|]. cbn. rewrite IH. reflexivity.
Qed.

Lemma spp_split pred (l : list K) :
  partitioned pred l ->
  exists l1 l2, l = l1 ++ l2 /\ length l1 = slice_partition_point pred l /\
    Forall (fun x => pred x = true) l1 /\ Forall (fun x => pred x = false) l2.
Proof.
  induction 1 as [|x l Hs IH Ha]; [exists [], []; auto|]. cbn. destruct (pred x) eqn:E.
  - destruct IH as (l1 & l2 & -> & Hl & H1 & H2). exists (x :: l1), l2. cbn. rewrite Hl. auto.
  - exists [], (x :: l). repeat split; auto. constructor; [exact E|]. eapply Forall_impl; [exact Ha|].
    intros y Hy. apply not_true_is_false. intros Ht. specialize (Hy Ht). discriminate.
Qed.

Lemma partition_loop_ok fuel : forall h m (n : Node K) acc pred,
  wf h m n -> partitioned pred (flat n) -> h < fuel ->
  partition_loop fuel pred n acc = Ret (acc + slice_partition_point pred (flat n)).
Proof.
  induction fuel as [|fuel IH]; intros h m n acc pred Hwf Hs Hf; [lia|].
  pose proof Hwf as (Hk & Ht & Hb)%wf_iff. cbn [partition_loop]. rewrite (is_leaf_body h) by exact Hb.
  pose proof (node_keys_sorted _ h n Hb Hs) as Hks. destruct h as [|h].
  - cbn in Hb. rewrite flat_eq, Hb. reflexivity.
  - destruct (spp_split pred (keys n) Hks) as (k1 & k2 & Ek & Hl1 & P1 & P2). rewrite <- Hl1.
    destruct n as [ks cs t]. cbn [keys children] in *. subst ks. destruct Hb as [Hl Hc]. cbn in Hl, Hc. rewrite length_app in Hl.
    destruct (split_list_at cs (length k1)) as (l1 & c & l2 & -> & L1); [lia|].
    rewrite length_app in Hl. cbn in Hl. apply Forall_app in Hc as [F1 F2]. apply Forall_cons in F2 as [Fc F2].
    rewrite flat_focus in * by lia. apply StronglySorted_app in Hs as (_ & S1 & Hs). apply StronglySorted_app in Hs as (_ & S2 & S3).
    rewrite expect_app by lia. cbn [mbind exec_bind]. rewrite (IH h MIN_KEYS) by (assumption || lia).
    rewrite spp_app, spp_app_none.
    + rewrite <- L1, take_app_length. rewrite <- (sum_before h l1 k1) by assumption. f_equal. lia.
    + apply (post_forall (fun x y => pred y = true -> pred x = true)); [|exact S3 | exact P2].
      intros x y Hxy Hx. destruct (pred y); [rewrite Hxy in Hx by reflexivity; discriminate | reflexivity].
    + apply (pre_forall (fun x y => pred y = true -> pred x = true)); [auto | exact S1 | exact P1].
Qed.

(** ** Bounds *)

Definition above_start (b : Bound K) (x : K) : bool :=
  match b with Unbounded => true | Included k => negb (ltb x k) | Excluded k => negb (leb x k) end.
Definition below_end (b : Bound K) (x : K) : bool :=
  match b with Unbounded => true | Included k => leb x k | Excluded k => ltb x k end.
Definition in_bounds (lo hi : Bound K) (x : K) : bool := above_start lo x && below_end hi x.

Lemma ltb_mono k x y : lt x y -> ltb y k = true -> ltb x k = true.
Proof.
  unfold ltb. destruct (cmp y k) eqn:E; try discriminate. intros Hxy _. pose proof (lt_trans x y k Hxy E) as H.
  unfold lt in H. rewrite H. reflexivity.
Qed.

Lemma leb_mono k x y : lt x y -> leb y k = true -> leb x k = true.
Proof.
  unfold leb. intros Hxy. destruct (cmp y k) eqn:E; try discriminate; intros _.
  - apply cmp_eq in E as ->. unfold lt in Hxy. rewrite Hxy. reflexivity.
  - pose proof (lt_trans x y k Hxy E) as H. unfold lt in H. rewrite H. reflexivity.
Qed.

Lemma sorted_mono (R : K -> K -> Prop) l : (forall x y, lt x y -> R x y) -> sorted l -> StronglySorted R l.
Proof.
  intros HR. induction 1 as [|x l Hs IH Ha]; constructor; [exact IH|]. eapply Forall_impl; [exact Ha|]. cbn. auto.
Qed.

Lemma spp_true (l : list K) : slice_partition_point (fun _ => true) l = length l.
Proof. induction l; cbn; auto. Qed.

Lemma spp_ext (p q : K -> bool) l :
  (forall x, p x = q x) -> slice_partition_point p l = slice_partition_point q l.
Proof. intros Hpq. induction l as [|x l IH]; [reflexivity|]. cbn. rewrite Hpq, IH. reflexivity. Qed.

Lemma bound_ranks_ok t lo hi : tree_ok t ->
  bound_ranks t lo hi = Ret (slice_partition_point (fun x => negb (above_start lo x)) (flat t),
                             slice_partition_point (below_end hi) (flat t)).
Proof.
  intros (h & Hw & Hs). unfold bound_ranks, partition_point, rt_len. rewrite (wf_levels _ _ _ Hw).
  assert (Hp : forall pred, (forall x y, lt x y -> pred y = true -> pred x = true) ->
             partition_loop (S h) pred t 0 = Ret (slice_partition_point pred (flat t))).
  { intros pred Hm. rewrite (partition_loop_ok _ h _ t 0 pred Hw); [reflexivity | | lia].
    apply sorted_mono; auto. }
  assert (Ht : total t = length (flat t)) by (apply wf_iff in Hw; apply Hw).
  destruct lo as [k|k|], hi as [k'|k'|]; cbn [above_start below_end]; rewrite ?Hp by (intros x y; (apply ltb_mono || apply leb_mono));
    cbn [mbind exec_bind]; do 2 f_equal; rewrite ?spp_true, ?Ht; try reflexivity;
    try (apply spp_ext; intros x; rewrite negb_involutive; reflexivity).
  all: symmetry; apply spp_none, Forall_forall; reflexivity.
Qed.

(** The keys between two partition points are those between the predicates. *)
Lemma between_points (p q : K -> bool) l :
  partitioned p l -> partitioned q l ->
  List.filter (fun x => negb (p x) && q x) l =
  take (slice_partition_point q l - slice_partition_point p l) (drop (slice_partition_point p l) l).
Proof.
  intros Hp Hq. induction l as [|x l IH]; [reflexivity|].
  destruct (proj1 (StronglySorted_inv Hp), Hq) as [Hp' _]. pose proof (StronglySorted_inv Hq) as [Hq' Haq].
  pose proof (StronglySorted_inv Hp) as [_ Hap]. specialize (IH Hp' Hq'). cbn.
  assert (Hnone : forall r, Forall (fun y => r y = true -> r x = true) l -> r x = false -> slice_partition_point r l = 0).
  { intros r Hr Hx. apply spp_none. eapply Forall_impl; [exact Hr|]. cbn. intros y Hy.
    destruct (r y); [rewrite Hy in Hx by reflexivity; discriminate | reflexivity]. }
  pose proof (Hnone p Hap) as Np. pose proof (Hnone q Haq) as Nq. clear Hnone Hp Hq Hap Haq.
  destruct (p x), (q x); cbn; rewrite ?Np, ?Nq, ?Nat.sub_0_r in * by reflexivity; cbn in *; rewrite IH; reflexivity.
Qed.
End OrderSpec.

(** ** Properties *)

Section Properties.
Context {K : Type} `{Cmp : Ord K} {Laws : OrdLaws K}.

Lemma height_small h (t : Node K) :
  wf h (if h is O then 0 else 1) t -> (Z.of_nat (total t) <= u64_max)%Z -> h <= 21.
Proof.
  intros Hw Hm. destruct h as [|h]; [lia|]. apply wf_iff in Hw as (Hk & Ht & Hl & Hc).
  assert (Hlen : total t = length (keys t) + sum_list_with total (children t)).
  { rewrite Ht, flat_eq, length_interleave by (right; rewrite length_map; exact Hl). rewrite (sum_totals h) by exact Hc. reflexivity. }
  destruct (children t) as [|c [|d cs]]; cbn in Hl; try lia. cbn in Hlen.
  apply Forall_cons in Hc as [Wc Hc]. apply Forall_cons in Hc as [Wd _]. apply wf_many in Wc, Wd.
  destruct (decide (S h <= 21)) as [Hle|Hgt]; [exact Hle|].
  assert (8 ^ 22 <= 8 ^ Z.of_nat (S h))%Z by (apply Z.pow_le_mono_r; lia). unfold u64_max in Hm.
  change (8 ^ 22)%Z with (4 * 2 ^ 64)%Z in *. lia.
Qed.

Lemma iter_from_ok (t : Node K) rank : tree_ok t -> (Z.of_nat (total t) <= u64_max)%Z ->
  exists H p, iter_new_from t rank = Ret (mkIter p (total t - rank)) /\ H < MAX_HEIGHT /\ stack_ok H 0 p /\
    (total t - rank = 0 \/ ahead p = drop rank (flat t)).
Proof.
  intros (h & Hw & Hs) Hm. pose proof (height_small h t Hw Hm) as Hh. exists h. unfold iter_new_from.
  rewrite (wf_levels _ _ _ Hw). pose proof Hw as (_ & Ht & _)%wf_iff.
  destruct (Nat.eqb_spec (total t - rank) 0) as [E|Hne].
  - exists []. split; [reflexivity|]. split; [unfold MAX_HEIGHT; lia|]. split; [exact I|]. left. exact E.
  - destruct (descend_ok (S h) h _ t rank Hw) as (path & nd & idx & k & -> & _ & _ & Hres); [lia | lia|]. cbn [mbind exec_bind].
    destruct (Hres h [] ltac:(unfold MAX_HEIGHT; lia) ltac:(lia) I) as [(p1 & p2 & -> & E2 & S2 & A2) _].
    cbn [mbind exec_bind]. rewrite E2. cbn [mbind exec_bind]. exists p2. split; [reflexivity|].
    split; [unfold MAX_HEIGHT; lia|]. split; [exact S2|]. right. rewrite A2. apply app_nil_r.
Qed.

Lemma collect_prefix H (p : Path (K := K)) r :
  H < MAX_HEIGHT -> stack_ok H 0 p -> r <= length (ahead p) -> collect_iter (mkIter p r) = Ret (take r (ahead p)).
Proof.
  intros HH Hp Hr. apply (drain_ok iter_next ahead H); auto. intros p' r' Hp' Hne. apply (iter_next_ok H); assumption.
Qed.

(** the iterators' fixed stack is large enough.  A tree whose count fits a
    [u64] has at most 22 levels, under the 24 resume points a [Path] holds. *)
Theorem levels_bounded (t : Node K) (Ht : tree_ok t) (Hm : (Z.of_nat (total t) <= u64_max)%Z) :
  levels t <= 22 /\ 22 < MAX_HEIGHT.
Proof.
  destruct Ht as (h & Hw & _). pose proof (height_small h t Hw Hm). rewrite (wf_levels _ _ _ Hw).
  split; [lia | unfold MAX_HEIGHT; lia].
Qed.

(** rank and select.  [select] is indexing in the sorted keys ([None] past
    the end), [rank_of] is the index of a key ([None] when absent), and each is
    the inverse of the other; neither panics. *)
Theorem select_rank_inverse (t : Node K) (Ht : tree_ok t) :
  (forall i, select t i = Ret (flat t !! i)) /\ (forall k, rank_of t k = Ret (position k (flat t))) /\
  forall i k, rank_of t k = Ret (Some i) <-> select t i = Ret (Some k).
Proof.
  destruct Ht as (h & Hw & Hs). pose proof Hw as (_ & Htot & _)%wf_iff.
  assert (H1 : forall i, select t i = Ret (flat t !! i)).
  { intros i. unfold select. rewrite (wf_levels _ _ _ Hw). destruct (Nat.leb_spec (total t) i) as [Hle|Hlt].
    - rewrite lookup_ge_None_2 by lia. reflexivity.
    - destruct (descend_ok (S h) h _ t i Hw) as (path & nd & idx & k & -> & Ek & Efl & _); [lia | lia|].
      cbn [mbind exec_bind]. rewrite Ek, Efl. reflexivity. }
  assert (H2 : forall k, rank_of t k = Ret (position k (flat t))).
  { intros k. unfold rank_of. rewrite (wf_levels _ _ _ Hw), (rank_of_loop_ok (S h) h _ t 0 k Hw Hs ltac:(lia)).
    destruct (position k (flat t)); reflexivity. }
  split; [exact H1|]. split; [exact H2|]. intros i k. rewrite H1, H2. pose proof (position_lookup k (flat t) Hs i) as Hp.
  split; intros [= E]; f_equal; apply Hp, E.
Qed.

(** the iterators.  From ascending rank [rank] the forward iterator yields
    exactly the keys from that rank on, ascending, and the reverse iterator the
    first [rank] keys, descending; both end, and neither overruns its stack. *)
Theorem iterators_yield_the_keys (t : Node K) (rank : nat) (Ht : tree_ok t)
  (Hm : (Z.of_nat (total t) <= u64_max)%Z) :
  (it ← iter_from t rank; collect_iter it) = Ret (drop rank (flat t)) /\
  (it ← iter_rev_from t rank; collect_rev it) = Ret (reverse (take rank (flat t))).
Proof.
  split.
  - unfold iter_from. destruct (iter_from_ok t rank Ht Hm) as (H & p & -> & HH & Hp & Hc). cbn [mbind exec_bind].
    destruct Ht as (h & Hw & _). apply wf_iff in Hw as (_ & Htot & _). destruct Hc as [E|A].
    + rewrite E, drop_ge by lia. reflexivity.
    + rewrite (collect_prefix H) by (rewrite ?A, ?length_drop; assumption || lia).
      rewrite A, take_ge by (rewrite length_drop; lia). reflexivity.
  - destruct Ht as (h & Hw & Hs). pose proof (height_small h t Hw Hm) as Hh. pose proof Hw as (_ & Htot & _)%wf_iff.
    unfold iter_rev_from, iter_rev_new_through. rewrite (wf_levels _ _ _ Hw).
    destruct (Nat.eqb_spec (min rank (total t)) 0) as [E|Hne].
    + rewrite E. cbn. assert (take rank (flat t) = []) as ->; [|reflexivity].
      destruct (Nat.min_spec rank (total t)) as [[_ Hx]|[_ Hx]]; rewrite Hx in E; [subst; reflexivity|].
      rewrite E in Htot. destruct (flat t); [apply take_nil | discriminate].
    + destruct (descend_ok (S h) h _ t (min rank (total t) - 1) Hw) as (path & nd & idx & k & -> & _ & _ & Hres); [lia | lia|].
      cbn [mbind exec_bind].
      destruct (Hres h [] ltac:(unfold MAX_HEIGHT; lia) ltac:(lia) I) as [_ (p1 & p2 & -> & E2 & S2 & A2)].
      cbn [mbind exec_bind]. rewrite E2. cbn [mbind exec_bind].
      replace (S (min rank (total t) - 1)) with (min rank (total t)) in A2 by lia. cbn in A2. rewrite app_nil_r in A2.
      unfold collect_rev. cbn [remaining].
      rewrite (drain_ok iter_rev_next behind h); [|reflexivity| |exact S2|].
      * rewrite A2, take_ge by (rewrite length_reverse, length_take; lia). do 2 f_equal.
        destruct (Nat.min_spec rank (total t)) as [[_ ->]|[Hge ->]]; [reflexivity|].
        rewrite !take_ge by lia. reflexivity.
      * intros p' r' Hp' Hne'. apply (iter_rev_next_ok h); [unfold MAX_HEIGHT; lia | assumption | assumption].
      * rewrite A2, length_reverse, length_take. lia.
Qed.

(** ranges.  [range] yields exactly the keys inside the bounds, ascending,
    and [count_in] their number, for every combination of included, excluded
    and absent bounds, inverted ones (which are empty) included. *)
Theorem range_yields_the_keys_in_bounds (t : Node K) (lo hi : Bound K) (Ht : tree_ok t)
  (Hm : (Z.of_nat (total t) <= u64_max)%Z) :
  (it ← range t lo hi; collect_iter it) = Ret (List.filter (in_bounds lo hi) (flat t)) /\
  count_in t lo hi = Ret (length (List.filter (in_bounds lo hi) (flat t))).
Proof.
  set (p := fun x => negb (above_start lo x)). set (q := below_end hi).
  assert (Hbt : List.filter (in_bounds lo hi) (flat t) =
            take (slice_partition_point q (flat t) - slice_partition_point p (flat t)) (drop (slice_partition_point p (flat t)) (flat t))).
  { rewrite <- between_points.
    - apply filter_ext. intros x. unfold p. rewrite negb_involutive. reflexivity.
    - destruct Ht as (h & _ & Hs). apply sorted_mono; [|exact Hs]. intros x y. unfold p, above_start.
      destruct lo; rewrite ?negb_involutive; [apply ltb_mono | apply leb_mono | auto].
    - destruct Ht as (h & _ & Hs). apply sorted_mono; [|exact Hs]. intros x y. unfold q, below_end.
      destruct hi; [apply leb_mono | apply ltb_mono | auto]. }
  assert (Htot : total t = length (flat t)) by (destruct Ht as (h & Hw & _); apply wf_iff in Hw; apply Hw).
  assert (Hq : slice_partition_point q (flat t) <= length (flat t)).
  { generalize (flat t). intros l. induction l as [|x l IH]; cbn; [lia|]. destruct (q x); cbn; lia. }
  split.
  - unfold range. rewrite bound_ranks_ok by exact Ht. fold p q. cbn [mbind exec_bind].
    destruct (iter_from_ok t (slice_partition_point p (flat t)) Ht Hm) as (H & pa & -> & HH & Hp & Hc). cbn [mbind exec_bind].
    unfold capped. cbn [stack remaining]. rewrite Hbt. destruct Hc as [E|A].
    + rewrite E, drop_ge by lia. rewrite take_nil. reflexivity.
    + rewrite (collect_prefix H); [|exact HH | exact Hp | rewrite A, length_drop; lia].
      rewrite A. do 2 f_equal. rewrite Htot. lia.
  - unfold count_in. rewrite bound_ranks_ok by exact Ht. fold p q. cbn [mbind exec_bind]. rewrite Hbt, length_take, length_drop.
    f_equal. lia.
Qed.
End Properties.

Lemma sample_small : (Z.of_nat (total sample) <= u64_max)%Z.
Proof. vm_compute. discriminate. Qed.

Lemma levels_bounded_witness : levels sample <= 22 /\ levels sample = 3.
Proof. split; [apply (levels_bounded sample sample_ok sample_small) | vm_compute; reflexivity]. Defined.

Lemma select_rank_inverse_witness :
  select sample 17 = Ret (Some 34%Z) /\ rank_of sample 34%Z = Ret (Some 17).
Proof.
  assert (E : flat sample !! 17 = Some 34%Z) by (vm_compute; reflexivity).
  destruct (select_rank_inverse sample sample_ok) as (H1 & _ & H3).
  specialize (H1 17). rewrite E in H1. split; [exact H1 | apply H3, H1].
Defined.

Lemma iterators_yield_the_keys_witness :
  (it ← iter_from sample 157; collect_iter it) = Ret [314; 316; 318]%Z.
Proof.
  assert (E : drop 157 (flat sample) = [314; 316; 318]%Z) by (vm_compute; reflexivity).
  destruct (iterators_yield_the_keys sample 157 sample_ok sample_small) as [H _]. rewrite E in H. exact H.
Defined.

Lemma range_yields_the_keys_in_bounds_witness :
  (it ← range sample (Excluded 100%Z) (Included 108%Z); collect_iter it) = Ret [102; 104; 106; 108]%Z.
Proof.
  assert (E : List.filter (in_bounds (Excluded 100%Z) (Included 108%Z)) (flat sample) = [102; 104; 106; 108]%Z)
    by (vm_compute; reflexivity).
  destruct (range_yields_the_keys_in_bounds sample (Excluded 100%Z) (Included 108%Z) sample_ok sample_small) as [H _].
  rewrite E in H. exact H.
Defined.
