(* ===== verification/Ring.v ===== *)
(** * The single-producer single-consumer ring ([crates/kevy-ring/src/lib.rs])

    The lock-free queue between two reactor threads: a power-of-two array of
    slots and two 64-bit wrapping cursors, each side keeping a cached copy of
    the other's cursor.

    [push], [pop] and the other methods are given as functions for a caller
    that runs alone.  [step] is the same code cut at its memory accesses, one
    constructor per access, so that the two threads interleave in every way.
    An [Acquire] load of the other side's cursor may give any value that side
    has stored since the last one seen (a cursor has one writer, so coherence
    gives no more than that); slots are plain memory, and what the cursors are
    for is that no slot is ever touched by both sides, which is [slots_are_safe].

    A slot is [None] while it holds no initialised value.  [assume_init_read]
    of such a slot, undefined behaviour in Rust, is a step that does not
    exist, and a theorem says it is never needed. *)

From Stdlib Require Import ZArith Lia Bool.
From stdpp Require Import base list.
From S2P Require Import Prelude.

#[local] Open Scope list_scope.
#[local] Open Scope Z_scope.

(** ** Cursors *)

(** [usize] on a 64-bit target *)
Definition usize (z : Z) : Z := z mod 2 ^ 64.
Definition wrapping_add (a b : Z) : Z := usize (a + b).
Definition wrapping_sub (a b : Z) : Z := usize (a - b).

(** [usize::checked_next_power_of_two] *)
Definition checked_next_power_of_two (n : Z) : option Z :=
  let p := if n <=? 1 then 1 else 2 ^ (Z.log2 (n - 1) + 1) in
  if p <? 2 ^ 64 then Some p else None.

(** [(usize::MAX >> 1) + 1] *)
Definition MAX_CAPACITY : Z := Z.shiftr u64_max 1 + 1.

(** ** The ring *)

Record Ring (T : Type) := mkRing {
  buf : list (option T);
  mask : Z;
  head : Z;
  tail : Z
}.
Arguments mkRing {T}.
Arguments buf {T}.
Arguments mask {T}.
Arguments head {T}.
Arguments tail {T}.

Section Ring.
Context {T : Type}.

(** The capacity [Ring::with_capacity] settles on. *)
Definition capacity_for (cap : Z) : Z :=
  default MAX_CAPACITY (checked_next_power_of_two (Z.max cap 2)).

Definition with_capacity (cap : Z) : Ring T :=
  let cap := capacity_for cap in
  mkRing (replicate (Z.to_nat cap) None) (cap - 1) 0 0.

(** [r.buf[i & r.mask]] *)
Definition slot (r : Ring T) (i : Z) : exec (option T) :=
  expect (buf r !! Z.to_nat (Z.land i (mask r))).

Definition set_slot (r : Ring T) (i : Z) (x : option T) : Ring T :=
  mkRing (<[Z.to_nat (Z.land i (mask r)) := x]> (buf r)) (mask r) (head r) (tail r).

Definition set_tail (r : Ring T) (t : Z) : Ring T := mkRing (buf r) (mask r) (head r) t.
Definition set_head (r : Ring T) (h : Z) : Ring T := mkRing (buf r) (mask r) h (tail r).

(** The test of [push] for a full ring, against a value of [head]. *)
Definition full_for (r : Ring T) (tail head : Z) : bool := mask r <? wrapping_sub tail head.

(** [Producer::push]: the result is [None] for [Ok(())] and [Some val] for
    [Err(val)]. *)
Definition push (r : Ring T) (head_cache : Z) (val : T) : exec (option T * Ring T * Z) :=
  let t := tail r in
  let '(head_cache, full) :=
    if full_for r t head_cache then (head r, full_for r t (head r)) else (head_cache, false) in
  if full : bool then Ret (Some val, r, head_cache)
  else
    _ ← slot r t;
    let r := set_slot r t (Some val) in
    let r := set_tail r (wrapping_add t 1) in
    Ret (None, r, head_cache).

(** [Consumer::pop].  Reading an uninitialised slot has no result. *)
Definition pop (r : Ring T) (tail_cache : Z) : exec (option T * Ring T * Z) :=
  let h := head r in
  let '(tail_cache, empty) :=
    if h =? tail_cache then (tail r, h =? tail r) else (tail_cache, false) in
  if empty : bool then Ret (None, r, tail_cache)
  else
    s ← slot r h;
    val ← expect s;
    let r := set_slot r h None in
    let r := set_head r (wrapping_add h 1) in
    Ret (Some val, r, tail_cache).

Definition is_full (r : Ring T) : bool := full_for r (tail r) (head r).
Definition is_empty (r : Ring T) : bool := head r =? tail r.
Definition ring_len (r : Ring T) : Z := wrapping_sub (tail r) (head r).
Definition capacity (r : Ring T) : Z := mask r + 1.

(** [Drop for Ring]: the values dropped, in order. *)
Fixpoint drop_loop (fuel : nat) (r : Ring T) (i : Z) : exec (list T) :=
  if i =? tail r then Ret []
  else
    match fuel with
    | O => Panic
    | S fuel =>
        s ← slot r i;
        val ← expect s;
        rest ← drop_loop fuel r (wrapping_add i 1);
        Ret (val :: rest)
    end.

Definition drop_ring (r : Ring T) : exec (list T) := drop_loop (length (buf r)) r (head r).

(** ** Interleaving *)

(** Where [push] is: after the load of [tail], before the slot write, before
    the store of [tail]. *)
Inductive push_at : Type :=
| PIdle
| PTail (val : T) (tail : Z)
| PWrite (val : T) (tail : Z)
| PStore (val : T) (tail : Z).

(** Where [pop] is. *)
Inductive pop_at : Type :=
| CIdle
| CHead (head : Z)
| CRead (head : Z)
| CStore (val : T) (head : Z).

(** Both threads over the shared ring.  [pushed] and [popped] are the values
    through [push] and [pop] so far; [seen_head] and [seen_tail] are the
    positions, counted without wrapping, of the last cursor value each side
    got from the other. *)
Record Threads := mkThreads {
  ring : Ring T;
  prod : push_at;
  head_cache : Z;
  seen_head : Z;
  cons_ : pop_at;
  tail_cache : Z;
  seen_tail : Z;
  pushed : list T;
  popped : list T
}.

Inductive step : Threads -> Threads -> Prop :=
| push_load r hc sh c tc st ps qs val :
    step (mkThreads r PIdle hc sh c tc st ps qs)
         (mkThreads r (PTail val (tail r)) hc sh c tc st ps qs)
| push_fast r t hc sh c tc st ps qs val :
    full_for r t hc = false ->
    step (mkThreads r (PTail val t) hc sh c tc st ps qs)
         (mkThreads r (PWrite val t) hc sh c tc st ps qs)
| push_refresh r t hc sh c tc st ps qs val h :
    full_for r t hc = true -> sh <= h <= blen qs -> full_for r t (usize h) = false ->
    step (mkThreads r (PTail val t) hc sh c tc st ps qs)
         (mkThreads r (PWrite val t) (usize h) h c tc st ps qs)
| push_full r t hc sh c tc st ps qs val h :
    full_for r t hc = true -> sh <= h <= blen qs -> full_for r t (usize h) = true ->
    step (mkThreads r (PTail val t) hc sh c tc st ps qs)
         (mkThreads r PIdle (usize h) h c tc st ps qs)
| push_write r t hc sh c tc st ps qs val s :
    slot r t = Ret s ->
    step (mkThreads r (PWrite val t) hc sh c tc st ps qs)
         (mkThreads (set_slot r t (Some val)) (PStore val t) hc sh c tc st ps qs)
| push_publish r t hc sh c tc st ps qs val :
    step (mkThreads r (PStore val t) hc sh c tc st ps qs)
         (mkThreads (set_tail r (wrapping_add t 1)) PIdle hc sh c tc st (ps ++ [val]) qs)
| pop_load r p hc sh tc st ps qs :
    step (mkThreads r p hc sh CIdle tc st ps qs)
         (mkThreads r p hc sh (CHead (head r)) tc st ps qs)
| pop_fast r p hc sh h tc st ps qs :
    h <> tc ->
    step (mkThreads r p hc sh (CHead h) tc st ps qs)
         (mkThreads r p hc sh (CRead h) tc st ps qs)
| pop_refresh r p hc sh tc st ps qs t :
    st <= t <= blen ps -> tc <> usize t ->
    step (mkThreads r p hc sh (CHead tc) tc st ps qs)
         (mkThreads r p hc sh (CRead tc) (usize t) t ps qs)
| pop_none r p hc sh tc st ps qs t :
    st <= t <= blen ps -> tc = usize t ->
    step (mkThreads r p hc sh (CHead tc) tc st ps qs)
         (mkThreads r p hc sh CIdle (usize t) t ps qs)
| pop_read r p hc sh h tc st ps qs val :
    slot r h = Ret (Some val) ->
    step (mkThreads r p hc sh (CRead h) tc st ps qs)
         (mkThreads (set_slot r h None) p hc sh (CStore val h) tc st ps qs)
| pop_publish r p hc sh h tc st ps qs val :
    step (mkThreads r p hc sh (CStore val h) tc st ps qs)
         (mkThreads (set_head r (wrapping_add h 1)) p hc sh CIdle tc st ps (qs ++ [val])).

Definition start (cap : Z) : Threads := mkThreads (with_capacity cap) PIdle 0 0 CIdle 0 0 [] [].

Inductive reachable (cap : Z) : Threads -> Prop :=
| reach_start : reachable cap (start cap)
| reach_step w w' : reachable cap w -> step w w' -> reachable cap w'.
End Ring.

Arguments push_at T : clear implicits.
Arguments pop_at T : clear implicits.
Arguments Threads T : clear implicits.

(** ** Arithmetic of the cursors *)

Lemma capacity_for_pow2 cap : exists k, 1 <= k <= 63 /\ capacity_for cap = 2 ^ k.
Proof.
  unfold capacity_for, checked_next_power_of_two. set (n := Z.max cap 2). cbv zeta.
  replace (n <=? 1) with false by (symmetry; apply Z.leb_gt; lia).
  pose proof (Z.log2_nonneg (n - 1)).
  destruct (Z.ltb_spec (2 ^ (Z.log2 (n - 1) + 1)) (2 ^ 64)) as [Hlt|_]; cbn [default].
  - exists (Z.log2 (n - 1) + 1). split; [|reflexivity]. apply Z.pow_lt_mono_r_iff in Hlt; lia.
  - exists 63. split; [lia|]. reflexivity.
Qed.

Lemma wrapping_sub_usize a b : 0 <= a - b < 2 ^ 64 -> wrapping_sub (usize a) (usize b) = a - b.
Proof.
  intros H. unfold wrapping_sub, usize. rewrite <- Zminus_mod. apply Z.mod_small. exact H.
Qed.

Lemma usize_inj a b : 0 <= b - a < 2 ^ 64 -> usize a = usize b <-> a = b.
Proof.
  intros H. split; [|intros ->; reflexivity]. unfold usize. intros E.
  pose proof (Z.div_mod a (2 ^ 64) ltac:(lia)). pose proof (Z.div_mod b (2 ^ 64) ltac:(lia)).
  assert (b / 2 ^ 64 = a / 2 ^ 64) by nia. nia.
Qed.

Lemma wrapping_succ a : wrapping_add (usize a) 1 = usize (a + 1).
Proof. unfold wrapping_add, usize. rewrite Zplus_mod_idemp_l. reflexivity. Qed.

(** [i & mask] is the position modulo the capacity. *)
Lemma land_mask k i : 1 <= k <= 63 -> Z.land (usize i) (2 ^ k - 1) = i mod 2 ^ k.
Proof.
  intros Hk. replace (2 ^ k - 1) with (Z.ones k) by (rewrite Z.ones_equiv; lia). rewrite Z.land_ones by lia. unfold usize.
  apply Z.mod_mod_divide. exists (2 ^ (64 - k)). rewrite <- Z.pow_add_r by lia. f_equal. lia.
Qed.

(** Positions less than a lap apart have different slots. *)
Lemma mod_distinct c i j : 0 < c -> i mod c = j mod c -> - c < i - j < c -> i = j.
Proof.
  intros Hc E H. pose proof (Z.div_mod i c ltac:(lia)). pose proof (Z.div_mod j c ltac:(lia)).
  assert (i / c = j / c) by nia. nia.
Qed.

(** The fields of a concrete state. *)
Ltac fields := cbn [ring prod head_cache seen_head cons_ tail_cache seen_tail pushed popped buf mask head tail
                    set_slot set_tail set_head] in *.

Section Invariant.
Context {T : Type}.

(** What the slot of position [i] holds: the queued values, less the one just
    read and not yet given back, plus the one written and not yet published. *)
Definition expected (p : push_at T) (c : pop_at T) (ps qs : list T) (i : Z) : option T :=
  if i <? blen ps then
    match c with
    | CStore _ _ => if i =? blen qs then None else get ps i
    | _ => get ps i
    end
  else match p with PStore v _ => if i =? blen ps then Some v else None | _ => None end.

Record inv (k : Z) (w : Threads T) : Prop := {
  inv_k : 1 <= k <= 63;
  inv_mask : mask (ring w) = 2 ^ k - 1;
  inv_len : blen (buf (ring w)) = 2 ^ k;
  inv_head : head (ring w) = usize (blen (popped w));
  inv_tail : tail (ring w) = usize (blen (pushed w));
  inv_hc : head_cache w = usize (seen_head w);
  inv_tc : tail_cache w = usize (seen_tail w);
  inv_order : 0 <= seen_head w <= blen (popped w) /\ blen (popped w) <= seen_tail w <= blen (pushed w) /\
              blen (pushed w) <= seen_head w + 2 ^ k;
  inv_prod : match prod w with
             | PIdle => True
             | PTail _ t => t = usize (blen (pushed w))
             | PWrite _ t | PStore _ t => t = usize (blen (pushed w)) /\ blen (pushed w) < seen_head w + 2 ^ k
             end;
  inv_cons : match cons_ w with
             | CIdle => True
             | CHead h => h = usize (blen (popped w))
             | CRead h => h = usize (blen (popped w)) /\ blen (popped w) < seen_tail w
             | CStore v h => h = usize (blen (popped w)) /\ blen (popped w) < seen_tail w /\
                             get (pushed w) (blen (popped w)) = Some v
             end;
  inv_fifo : popped w `prefix_of` pushed w;
  inv_slots : forall i, blen (popped w) <= i < blen (popped w) + 2 ^ k ->
    buf (ring w) !! Z.to_nat (i mod 2 ^ k) = Some (expected (prod w) (cons_ w) (pushed w) (popped w) i)
}.

Lemma pow_bounds k : 1 <= k <= 63 -> 2 <= 2 ^ k <= 2 ^ 63.
Proof.
  intros H. split; [change 2 with (2 ^ 1) at 1|]; apply Z.pow_le_mono_r; lia.
Qed.

Lemma slot_usize k (r : Ring T) i x :
  1 <= k <= 63 -> mask r = 2 ^ k - 1 -> buf r !! Z.to_nat (i mod 2 ^ k) = Some x -> slot r (usize i) = Ret x.
Proof. intros Hk Hm Hx. unfold slot. rewrite Hm, land_mask, Hx by exact Hk. reflexivity. Qed.

(** Writing the slot of position [j] leaves the others of the lap. *)
Lemma set_slot_lookup k (r : Ring T) i j x lo :
  1 <= k <= 63 -> mask r = 2 ^ k - 1 -> blen (buf r) = 2 ^ k -> lo <= i < lo + 2 ^ k -> lo <= j < lo + 2 ^ k ->
  buf (set_slot r (usize j) x) !! Z.to_nat (i mod 2 ^ k) = if i =? j then Some x else buf r !! Z.to_nat (i mod 2 ^ k).
Proof.
  intros Hk Hm Hl Hi Hj. unfold set_slot. cbn [buf]. rewrite Hm, land_mask by exact Hk. pose proof (pow_bounds k Hk).
  pose proof (Z.mod_pos_bound i (2 ^ k) ltac:(lia)). pose proof (Z.mod_pos_bound j (2 ^ k) ltac:(lia)).
  destruct (Z.eqb_spec i j) as [->|Hne].
  - apply list_lookup_insert_eq. unfold blen in Hl. lia.
  - apply list_lookup_insert_ne. intros E. apply Hne. symmetry. apply (mod_distinct (2 ^ k)); lia.
Qed.

Lemma full_for_iff k (r : Ring T) t h :
  1 <= k <= 63 -> mask r = 2 ^ k - 1 -> 0 <= t - h <= 2 ^ k ->
  full_for r (usize t) (usize h) = (2 ^ k <=? t - h).
Proof.
  intros Hk Hm Hd. unfold full_for. pose proof (pow_bounds k Hk). rewrite wrapping_sub_usize, Hm by lia.
  destruct (Z.ltb_spec (2 ^ k - 1) (t - h)), (Z.leb_spec (2 ^ k) (t - h)); lia || reflexivity.
Qed.

Lemma start_inv cap : exists k, inv k (start cap) /\ capacity_for cap = 2 ^ k.
Proof.
  destruct (capacity_for_pow2 cap) as (k & Hk & Ec). exists k. split; [|exact Ec]. pose proof (pow_bounds k Hk).
  unfold start, with_capacity. rewrite Ec.
  split; cbn [ring prod head_cache seen_head cons_ tail_cache seen_tail pushed popped buf mask head tail]; auto; try reflexivity.
  - unfold blen. rewrite length_replicate. lia.
  - change (blen (@nil T)) with 0. lia.
  - intros i Hi. pose proof (Z.mod_pos_bound i (2 ^ k) ltac:(lia)).
    rewrite lookup_replicate_2 by lia. unfold expected. change (blen (@nil T)) with 0 in *.
    destruct (Z.ltb_spec i 0); [lia | reflexivity].
Qed.

(** *** One step *)

Lemma blen_snoc (l : list T) x : blen (l ++ [x]) = blen l + 1.
Proof. unfold blen. rewrite length_app. cbn. lia. Qed.

Lemma get_app_some (l l' : list T) i x : get l i = Some x -> 0 <= i -> get (l ++ l') i = Some x.
Proof. intros H Hi. rewrite get_app_l; [exact H|]. split; [exact Hi|]. eapply get_Some_lt; eassumption. Qed.

(** How the expected contents move with each access. *)
Lemma expected_write (c : pop_at T) ps qs v t t' i :
  expected (PStore v t) c ps qs i = if i =? blen ps then Some v else expected (PWrite v t') c ps qs i.
Proof.
  unfold expected. destruct (Z.eqb_spec i (blen ps)) as [->|Hne]; [rewrite Z.ltb_irrefl; reflexivity|].
  destruct (i <? blen ps); reflexivity.
Qed.

Lemma expected_push (c : pop_at T) ps qs v t i :
  0 <= i -> (forall x h, c = CStore x h -> blen qs < blen ps) ->
  expected PIdle c (ps ++ [v]) qs i = expected (PStore v t) c ps qs i.
Proof.
  intros Hi Hc. unfold expected. rewrite blen_snoc. destruct (Z.ltb_spec i (blen ps)).
  - replace (i <? blen ps + 1) with true by (symmetry; apply Z.ltb_lt; lia). rewrite get_app_l by lia. reflexivity.
  - destruct (Z.eqb_spec i (blen ps)) as [->|Hne].
    + replace (blen ps <? blen ps + 1) with true by (symmetry; apply Z.ltb_lt; lia). rewrite get_mid.
      destruct c as [| | |x h]; auto. specialize (Hc x h eq_refl).
      destruct (Z.eqb_spec (blen ps) (blen qs)); [lia | reflexivity].
    + replace (i <? blen ps + 1) with false by (symmetry; apply Z.ltb_ge; lia). reflexivity.
Qed.

Lemma expected_read (p : push_at T) ps qs v h h' i :
  blen qs < blen ps ->
  expected p (CStore v h) ps qs i = if i =? blen qs then None else expected p (CRead h') ps qs i.
Proof.
  intros Hlt. unfold expected. destruct (Z.eqb_spec i (blen qs)) as [->|Hne]; [|reflexivity].
  replace (blen qs <? blen ps) with true by (symmetry; apply Z.ltb_lt; lia). reflexivity.
Qed.

Lemma expected_return (p : push_at T) ps qs v h i :
  blen qs < i -> expected p CIdle ps (qs ++ [v]) i = expected p (CStore v h) ps qs i.
Proof.
  intros Hi. unfold expected. destruct (i <? blen ps); [|reflexivity].
  destruct (Z.eqb_spec i (blen qs)); [lia | reflexivity].
Qed.

(** The slot given back is empty, and is next used a lap later. *)
Lemma expected_lap k (p : push_at T) ps qs v h :
  0 < k -> blen qs < blen ps <= blen qs + k ->
  (forall x t, p = PStore x t -> blen ps < blen qs + k) ->
  expected p CIdle ps (qs ++ [v]) (blen qs + k) = expected p (CStore v h) ps qs (blen qs).
Proof.
  intros Hk Hlt Hp. unfold expected. rewrite Z.eqb_refl.
  replace (blen qs <? blen ps) with true by (symmetry; apply Z.ltb_lt; lia).
  replace (blen qs + k <? blen ps) with false by (symmetry; apply Z.ltb_ge; lia).
  destruct p as [| | |x t]; auto. specialize (Hp x t eq_refl).
  replace (_ =? _) with false by (symmetry; apply Z.eqb_neq; lia). reflexivity.
Qed.

Lemma prefix_take (qs ps : list T) v :
  qs `prefix_of` ps -> get ps (blen qs) = Some v -> qs ++ [v] `prefix_of` ps.
Proof.
  intros [l ->] Hv. rewrite get_app_r, Z.sub_diag in Hv by lia. destruct l as [|x l]; [discriminate|].
  injection Hv as ->. exists l. rewrite <- app_assoc. reflexivity.
Qed.

Lemma step_inv k w w' : inv k w -> step w w' -> inv k w'.
Proof.
  intros [Ik Im Il Ih It Ihc Itc Io Ip Ic If Is] Hs. pose proof (pow_bounds k Ik) as Hp.
  destruct Hs; fields.
  - (* push_load *) split; fields; auto.
  - (* push_fast *) subst t hc. rewrite (full_for_iff k) in H by (assumption || lia). apply Z.leb_gt in H.
    split; fields; auto. split; [reflexivity | lia].
  - (* push_refresh *) subst t. rewrite (full_for_iff k) in H1 by (assumption || lia). apply Z.leb_gt in H1.
    split; fields; auto; try lia.
  - (* push_full *) split; fields; auto. lia.
  - (* push_write *) destruct Ip as [-> Hlt]. split; fields; auto.
    + unfold blen in *. rewrite length_insert. exact Il.
    + intros i Hi. pose proof (set_slot_lookup k r i (blen ps) (Some val) (blen qs) Ik Im Il Hi ltac:(lia)) as E.
      unfold set_slot in E. cbn [buf] in E. rewrite E, Is, (expected_write _ _ _ _ _ (usize (blen ps))) by exact Hi.
      destruct (i =? blen ps); reflexivity.
  - (* push_publish *) destruct Ip as [-> Hlt].
    split; fields; rewrite ?wrapping_succ; auto; rewrite ?blen_snoc; try lia.
    + destruct c as [| | |v h]; auto. destruct Ic as (? & ? & ?). split; [assumption|]. split; [assumption|].
      apply get_app_some; [assumption | blen_pos; lia].
    + apply prefix_app_r. exact If.
    + intros i Hi. pose proof (blen_nonneg qs).
      rewrite Is, (expected_push _ _ _ _ (usize (blen ps))) by (intros; subst; lia). reflexivity.
  - (* pop_load *) split; fields; auto.
  - (* pop_fast *) subst h tc. split; fields; auto. split; [reflexivity|].
    assert (blen qs <> st) by (intros E; apply H; rewrite E; reflexivity). lia.
  - (* pop_refresh *) subst tc. split; fields; auto; try lia. split; [exact Ic|].
    assert (blen qs <> t) by (intros E; apply H0; rewrite <- E; exact Ic). lia.
  - (* pop_none *) split; fields; auto. lia.
  - (* pop_read *) destruct Ic as [-> Hlt]. pose proof (blen_nonneg qs).
    assert (Hv : get ps (blen qs) = Some val).
    { pose proof (slot_usize k r (blen qs) _ Ik Im (Is (blen qs) ltac:(lia))) as E. rewrite E in H. injection H as H.
      unfold expected in H. replace (blen qs <? blen ps) with true in H by (symmetry; apply Z.ltb_lt; lia). exact H. }
    split; fields; auto.
    + unfold blen in *. rewrite length_insert. exact Il.
    + intros i Hi. pose proof (set_slot_lookup k r i (blen qs) None (blen qs) Ik Im Il Hi ltac:(lia)) as E.
      unfold set_slot in E. cbn [buf] in E. rewrite E, Is, (expected_read _ _ _ _ _ (usize (blen qs))) by lia.
      destruct (i =? blen qs); reflexivity.
  - (* pop_publish *) destruct Ic as (-> & Hlt & Hv). pose proof (blen_nonneg qs).
    split; fields; rewrite ?wrapping_succ; auto; rewrite ?blen_snoc; try lia.
    + apply prefix_take; assumption.
    + intros i Hi. destruct (Z.eq_dec i (blen qs + 2 ^ k)) as [->|Hne].
      * replace ((blen qs + 2 ^ k) mod 2 ^ k) with (blen qs mod 2 ^ k)
          by (rewrite <- (Z_mod_plus_full (blen qs) 1 (2 ^ k)); f_equal; lia).
        rewrite Is by lia. f_equal. symmetry. apply expected_lap; [lia | lia|]. intros x t' ->. lia.
      * rewrite Is by lia. f_equal. symmetry. apply expected_return. lia.
Qed.

Lemma reachable_inv cap w : reachable cap w -> exists k, inv k w /\ capacity_for cap = 2 ^ k.
Proof.
  induction 1 as [|w w' _ (k & Hi & E) Hs]; [apply start_inv|]. exists k. split; [|exact E]. apply (step_inv k w); assumption.
Qed.
End Invariant.

(** ** Running alone *)

Section Alone.
Context {T : Type}.

(** The values in the ring. *)
Definition queued (w : Threads T) : list T := drop (length (popped w)) (pushed w).

Definition idle (w : Threads T) : Prop := prod w = PIdle /\ cons_ w = CIdle.

Lemma queued_app w : popped w `prefix_of` pushed w -> pushed w = popped w ++ queued w.
Proof. intros [l E]. unfold queued. rewrite E, drop_app_length. reflexivity. Qed.

Lemma queued_get w i :
  popped w `prefix_of` pushed w -> 0 <= i -> get (pushed w) (blen (popped w) + i) = get (queued w) i.
Proof.
  intros Hp Hi. rewrite (queued_app w Hp) at 1. pose proof (blen_nonneg (popped w)).
  rewrite get_app_r by lia. f_equal. lia.
Qed.

Lemma reach2 cap (w1 w2 w3 : Threads T) : reachable cap w1 -> step w1 w2 -> step w2 w3 -> reachable cap w3.
Proof. intros H H1 H2. econstructor; [|exact H2]. econstructor; [exact H | exact H1]. Qed.

Lemma blen_queued w : popped w `prefix_of` pushed w -> blen (queued w) = blen (pushed w) - blen (popped w).
Proof. intros Hp. pose proof (f_equal blen (queued_app w Hp)) as E. rewrite blen_app in E. lia. Qed.

Lemma push_alone cap k w v :
  reachable cap w -> inv k w -> idle w ->
  let full := blen (queued w) =? 2 ^ k in
  exists w', push (ring w) (head_cache w) v = Ret (if full then Some v else None, ring w', head_cache w') /\
    reachable cap w' /\ idle w' /\ tail_cache w' = tail_cache w /\
    queued w' = if full then queued w else queued w ++ [v].
Proof.
  intros Hr Hi [Hp Hc] full. subst full. pose proof Hi as [Ik Im Il Ih It Ihc Itc Io _ _ If Is].
  rewrite blen_queued by exact If. pose proof (pow_bounds k Ik).
  destruct w as [r p hc sh c tc st ps qs]. fields. subst p c hc tc. unfold push. rewrite Ih.
  assert (Hsnoc : drop (length qs) (ps ++ [v]) = drop (length qs) ps ++ [v]).
  { destruct If as [l ->]. rewrite <- app_assoc, !drop_app_length. reflexivity. }
  assert (Hslot : blen ps - blen qs < 2 ^ k -> exists s, slot r (tail r) = Ret s).
  { intros Hlt. eexists. rewrite It. apply (slot_usize k); [exact Ik | exact Im | apply Is; lia]. }
  assert (Hff : forall h, 0 <= blen ps - h <= 2 ^ k -> full_for r (tail r) (usize h) = (2 ^ k <=? blen ps - h)).
  { intros h Hh. rewrite It. apply full_for_iff; assumption. }
  rewrite !Hff by lia. destruct (Z.leb_spec (2 ^ k) (blen ps - sh)) as [Hf|Hf]; cycle 1.
  - replace (blen ps - blen qs =? 2 ^ k) with false by (symmetry; apply Z.eqb_neq; lia).
    destruct (Hslot ltac:(lia)) as [s Es]. rewrite Es. cbn [mbind exec_bind].
    eexists (mkThreads _ PIdle (usize sh) sh CIdle (usize st) st (ps ++ [v]) qs). split; [reflexivity|].
    split; [|repeat split; exact Hsnoc].
    eapply reach2; [eapply reach2; [exact Hr | apply (push_load r _ _ _ _ _ _ _ v) | apply push_fast] | eapply push_write, Es | apply push_publish].
    rewrite Hff by lia. apply Z.leb_gt. lia.
  - destruct (Z.eqb_spec (blen ps - blen qs) (2 ^ k)) as [He|Hne].
    + replace (2 ^ k <=? blen ps - blen qs) with true by (symmetry; apply Z.leb_le; lia).
      eexists (mkThreads r PIdle (usize (blen qs)) (blen qs) CIdle (usize st) st ps qs). split; [reflexivity|].
      split; [|repeat split]. eapply reach2; [exact Hr | apply (push_load r _ _ _ _ _ _ _ v) | apply push_full]; try lia;
        rewrite Hff by lia; apply Z.leb_le; lia.
    + replace (2 ^ k <=? blen ps - blen qs) with false by (symmetry; apply Z.leb_gt; lia).
      destruct (Hslot ltac:(lia)) as [s Es]. rewrite Es. cbn [mbind exec_bind].
      eexists (mkThreads _ PIdle (usize (blen qs)) (blen qs) CIdle (usize st) st (ps ++ [v]) qs). split; [reflexivity|].
      split; [|repeat split; exact Hsnoc].
      eapply reach2; [eapply reach2; [exact Hr | apply (push_load r _ _ _ _ _ _ _ v) | apply push_refresh] | eapply push_write, Es | apply push_publish];
        try lia; rewrite Hff by lia; [apply Z.leb_le | apply Z.leb_gt]; lia.
Qed.

Lemma pop_alone cap k w :
  reachable cap w -> inv k w -> idle w ->
  exists w', pop (ring w) (tail_cache w) = Ret (hd_error (queued w), ring w', tail_cache w') /\
    reachable cap w' /\ idle w' /\ head_cache w' = head_cache w /\ queued w' = tl (queued w).
Proof.
  intros Hr Hi [Hp Hc]. pose proof Hi as [Ik Im Il Ih It Ihc Itc Io _ _ If Is].
  pose proof (queued_get w 0 If ltac:(lia)) as Hg. pose proof (blen_queued w If) as Hbq. rewrite Z.add_0_r in Hg.
  pose proof (pow_bounds k Ik). destruct w as [r p hc sh c tc st ps qs]. fields. subst p c hc tc. unfold pop. rewrite It, Ih.
  set (q := queued _) in *.
  assert (Hval : blen qs < blen ps -> exists v q', q = v :: q' /\ slot r (usize (blen qs)) = Ret (Some v) /\
                   drop (length (qs ++ [v])) ps = q').
  { intros Hlt. destruct q as [|v q'] eqn:Eq; [change (blen (@nil T)) with 0 in Hbq; lia|]. exists v, q'. split; [reflexivity|]. split.
    - apply (slot_usize k); [exact Ik | exact Im |]. rewrite Is by lia. unfold expected.
      replace (blen qs <? blen ps) with true by (symmetry; apply Z.ltb_lt; lia). f_equal. exact Hg.
    - destruct If as [l ->]. unfold q, queued in Eq. cbn in Eq. rewrite drop_app_length in Eq. subst l.
      change (v :: q') with ([v] ++ q'). rewrite app_assoc, drop_app_length. reflexivity. }
  pose proof (usize_inj (blen qs) st ltac:(lia)) as Ust. pose proof (usize_inj (blen qs) (blen ps) ltac:(lia)) as Ups.
  destruct (Z.eqb_spec (usize (blen qs)) (usize st)) as [Es|Es].
  - destruct (Z.eqb_spec (usize (blen qs)) (usize (blen ps))) as [Ep|Ep].
    + apply Ups in Ep. assert (q = []) as -> by (destruct q; [reflexivity | unfold blen in Hbq; cbn in Hbq; unfold blen in Ep; lia]).
      eexists (mkThreads r PIdle (usize sh) sh CIdle (usize (blen ps)) (blen ps) ps qs). split; [reflexivity|].
      split; [|repeat split; unfold queued; cbn; apply drop_ge; unfold blen in Ep; lia].
      eapply reach2; [exact Hr | apply pop_load |]. rewrite Ih, Es. apply pop_none; [lia | rewrite <- Es, Ep; reflexivity].
    + assert (blen qs <> blen ps) by (rewrite <- Ups; exact Ep).
      destruct (Hval ltac:(lia)) as (v & q' & -> & Esl & Ed). rewrite Esl. cbn [mbind exec_bind expect].
      eexists (mkThreads _ PIdle (usize sh) sh CIdle (usize (blen ps)) (blen ps) ps (qs ++ [v])). split; [reflexivity|].
      split; [|repeat split; exact Ed].
      eapply reach2; [eapply reach2; [exact Hr | apply pop_load |] | |].
      { rewrite Ih, Es. apply (pop_refresh r _ _ _ _ _ _ _ (blen ps)); [lia | rewrite <- Es; exact Ep]. }
      { rewrite <- Es. eapply pop_read, Esl. }
      { apply pop_publish. }
  - assert (blen qs <> st) by (rewrite <- Ust; exact Es).
    destruct (Hval ltac:(lia)) as (v & q' & -> & Esl & Ed). rewrite Esl. cbn [mbind exec_bind expect].
    eexists (mkThreads _ PIdle (usize sh) sh CIdle (usize st) st ps (qs ++ [v])). split; [reflexivity|].
    split; [|repeat split; exact Ed].
    eapply reach2; [eapply reach2; [exact Hr | apply pop_load |] | |].
    { rewrite Ih. apply pop_fast, Es. }
    { eapply pop_read, Esl. }
    { apply pop_publish. }
Qed.
End Alone.

(** ** Properties *)

Section Properties.
Context {T : Type}.

Lemma drop_loop_ok k (w : Threads T) :
  inv k w -> idle w -> forall n fuel i, Z.of_nat n = blen (pushed w) - i -> (n <= fuel)%nat ->
  blen (popped w) <= i -> drop_loop fuel (ring w) (usize i) = Ret (drop (Z.to_nat i) (pushed w)).
Proof.
  intros Hi [Hp Hc]. pose proof Hi as [Ik Im Il Ih It _ _ Io _ _ If Is]. pose proof (pow_bounds k Ik).
  pose proof (blen_nonneg (popped w)).
  induction n as [|n IH]; intros fuel i Hn Hf Hlo.
  - assert (i = blen (pushed w)) as -> by lia. destruct fuel; cbn; rewrite It, Z.eqb_refl, blen_to_nat, drop_all; reflexivity.
  - destruct fuel as [|fuel]; [lia|]. cbn [drop_loop]. rewrite It.
    destruct (Z.eqb_spec (usize i) (usize (blen (pushed w)))) as [E|_]; [apply (proj1 (usize_inj i (blen (pushed w)) ltac:(lia))) in E; lia|].
    rewrite (slot_usize k _ _ _ Ik Im (Is i ltac:(lia))). cbn [mbind exec_bind]. unfold expected. rewrite Hp, Hc.
    replace (i <? blen (pushed w)) with true by (symmetry; apply Z.ltb_lt; lia).
    destruct (get_lt_Some (pushed w) i ltac:(lia)) as [v Hv]. rewrite Hv. cbn [mbind exec_bind expect].
    rewrite wrapping_succ, IH by lia. cbn [mbind exec_bind].
    unfold get in Hv. rewrite (drop_S _ _ _ Hv). do 3 f_equal. lia.
Qed.

(** C39: memory safety of the lock-free slots, under every interleaving and
    every stale cursor the memory model allows.  When [push] is about to write
    a slot, the slot exists, holds no live value (nothing is overwritten) and
    is not the one [pop] is about to read; when [pop] is about to read a slot,
    the slot is initialised, with the oldest value not yet popped. *)
Theorem slots_are_safe cap (w : Threads T) (Hw : reachable cap w) :
  (forall v t, prod w = PWrite v t -> slot (ring w) t = Ret None /\
     forall h, cons_ w = CRead h -> Z.land t (mask (ring w)) <> Z.land h (mask (ring w))) /\
  (forall h, cons_ w = CRead h ->
     exists v, slot (ring w) h = Ret (Some v) /\ get (pushed w) (blen (popped w)) = Some v).
Proof.
  destruct (reachable_inv cap w Hw) as (k & [Ik Im Il Ih It Ihc Itc Io Ip Ic If Is] & _).
  pose proof (pow_bounds k Ik). pose proof (blen_nonneg (popped w)). split.
  - intros v t Ep. rewrite Ep in Ip, Is. destruct Ip as [-> Hlt]. split.
    + apply (slot_usize k); [exact Ik | exact Im|]. rewrite Is by lia. unfold expected. rewrite Z.ltb_irrefl. reflexivity.
    + intros h Ec. rewrite Ec in Ic. destruct Ic as [-> Hlt']. rewrite Im, !land_mask by exact Ik. intros E.
      apply (mod_distinct (2 ^ k)) in E; lia.
  - intros h Ec. rewrite Ec in Ic, Is. destruct Ic as [-> Hlt].
    destruct (get_lt_Some (pushed w) (blen (popped w)) ltac:(lia)) as [v Hv]. exists v. split; [|exact Hv].
    apply (slot_usize k); [exact Ik | exact Im|]. rewrite Is by lia. unfold expected.
    replace (_ <? _) with true by (symmetry; apply Z.ltb_lt; lia). rewrite Hv. reflexivity.
Qed.

(** the ring is a bounded FIFO channel under every interleaving: what has
    been popped is a prefix of what has been pushed (nothing lost, duplicated
    or reordered), and never more than the capacity is in flight. *)
Theorem ring_is_fifo cap (w : Threads T) (Hw : reachable cap w) :
  popped w `prefix_of` pushed w /\ capacity (ring w) = capacity_for cap /\
  blen (pushed w) - blen (popped w) <= capacity (ring w).
Proof.
  destruct (reachable_inv cap w Hw) as (k & [Ik Im Il Ih It Ihc Itc Io Ip Ic If Is] & E).
  split; [exact If|]. unfold capacity. rewrite Im, E. lia.
Qed.

(** between operations the ring is a bounded queue.  [push] hands the value
    back exactly when the ring holds [capacity] values and appends it otherwise;
    [pop] gives the oldest value, [None] exactly when there is none; the length,
    the emptiness and fullness tests are those of the queue; and dropping the
    ring drops the queued values, each once. *)
Theorem ring_refines_queue cap (w : Threads T) (Hw : reachable cap w) (Hidle : idle w) :
  let q := queued w in let n := capacity (ring w) in
  (forall v, exists w',
     push (ring w) (head_cache w) v = Ret (if blen q =? n then Some v else None, ring w', head_cache w') /\
     reachable cap w' /\ idle w' /\ tail_cache w' = tail_cache w /\
     queued w' = if blen q =? n then q else q ++ [v]) /\
  (exists w', pop (ring w) (tail_cache w) = Ret (hd_error q, ring w', tail_cache w') /\
     reachable cap w' /\ idle w' /\ head_cache w' = head_cache w /\ queued w' = tl q) /\
  ring_len (ring w) = blen q /\ is_empty (ring w) = (blen q =? 0) /\ is_full (ring w) = (blen q =? n) /\
  drop_ring (ring w) = Ret q.
Proof.
  destruct (reachable_inv cap w Hw) as (k & Hi & _). pose proof Hi as [Ik Im Il Ih It Ihc Itc Io Ip Ic If Is].
  pose proof (pow_bounds k Ik). pose proof (blen_queued w If) as Hq. pose proof (blen_nonneg (popped w)).
  assert (Hn : capacity (ring w) = 2 ^ k) by (unfold capacity; lia). cbv zeta. rewrite Hn.
  split; [intros v; exact (push_alone cap k w v Hw Hi Hidle)|]. split; [exact (pop_alone cap k w Hw Hi Hidle)|].
  unfold ring_len, is_empty, is_full. rewrite Ih, It, wrapping_sub_usize by lia. split; [lia|].
  pose proof (usize_inj (blen (popped w)) (blen (pushed w)) ltac:(lia)) as Hu. split.
  { destruct (Z.eqb_spec (usize (blen (popped w))) (usize (blen (pushed w)))), (Z.eqb_spec (blen (queued w)) 0); auto; exfalso; lia. }
  split.
  { rewrite (full_for_iff k) by (assumption || lia). rewrite Hq.
    destruct (Z.leb_spec (2 ^ k) (blen (pushed w) - blen (popped w))), (Z.eqb_spec (blen (pushed w) - blen (popped w)) (2 ^ k)); auto; lia. }
  unfold drop_ring. rewrite Ih.
  rewrite (drop_loop_ok k w Hi Hidle (Z.to_nat (blen (pushed w) - blen (popped w)))); [|lia | unfold blen in *; lia | lia].
  rewrite blen_to_nat. reflexivity.
Qed.

(** the capacity is a power of two between 2 and 2^63, and at least the
    one asked for whenever that fits. *)
Theorem capacity_rounds_up (cap : Z) :
  (exists k, 1 <= k <= 63 /\ capacity_for cap = 2 ^ k) /\ (cap <= 2 ^ 63 -> cap <= capacity_for cap) /\
  (2 ^ 63 < cap -> capacity_for cap = MAX_CAPACITY).
Proof.
  split; [apply capacity_for_pow2|]. unfold capacity_for, checked_next_power_of_two. cbv zeta.
  replace (Z.max cap 2 <=? 1) with false by (symmetry; apply Z.leb_gt; lia). split; intros H.
  - destruct (Z.ltb_spec (2 ^ (Z.log2 (Z.max cap 2 - 1) + 1)) (2 ^ 64)) as [Hlt|Hge]; unfold from_option, id.
    + pose proof (Z.log2_spec (Z.max cap 2 - 1) ltac:(lia)) as [_ Hs]. unfold Z.succ in Hs. lia.
    + unfold MAX_CAPACITY. change (Z.shiftr u64_max 1 + 1) with (2 ^ 63). exact H.
  - replace (Z.max cap 2) with cap by lia.
    assert (63 <= Z.log2 (cap - 1)) by (apply Z.log2_le_pow2; lia).
    destruct (Z.ltb_spec (2 ^ (Z.log2 (cap - 1) + 1)) (2 ^ 64)) as [Hlt|Hge]; [|reflexivity].
    apply Z.pow_lt_mono_r_iff in Hlt; lia.
Qed.
End Properties.

(** A push caught between its write and its publication, with a value queued. *)
Lemma mid_push_reachable :
  exists w, reachable (T := Z) 2 w /\ prod w = PWrite 8 1 /\ cons_ w = CRead 0 /\ pushed w = [7].
Proof.
  eexists. split.
  - eapply reach2; [eapply reach2; [eapply reach2; [eapply reach2; [apply reach_start
      | apply (push_load _ _ _ _ _ _ _ _ 7) | apply push_fast; reflexivity]
      | eapply push_write; reflexivity | apply push_publish]
      | apply (push_load _ _ _ _ _ _ _ _ 8) | apply push_fast; reflexivity]
      | apply pop_load | apply (pop_refresh _ _ _ _ _ _ _ _ 1); [vm_compute; split; discriminate | discriminate]].
  - repeat split.
Qed.

Lemma slots_are_safe_witness :
  exists w : Threads Z, prod w = PWrite 8 1 /\ slot (ring w) 1 = Ret None.
Proof.
  destruct mid_push_reachable as (w & Hw & Ep & _ & _). exists w. split; [exact Ep|].
  destruct (slots_are_safe 2 w Hw) as [Hs _]. apply (Hs 8 1 Ep).
Defined.

Lemma ring_is_fifo_witness :
  exists w : Threads Z, pushed w = [7] /\ popped w `prefix_of` pushed w /\ capacity (ring w) = 2.
Proof.
  destruct mid_push_reachable as (w & Hw & _ & _ & Es). exists w. split; [exact Es|].
  destruct (ring_is_fifo 2 w Hw) as (H1 & H2 & _). split; [exact H1 | exact H2].
Defined.

Lemma ring_refines_queue_witness :
  exists r hc, push (with_capacity 2) 0 7 = Ret (None, r, hc).
Proof.
  destruct (ring_refines_queue 2 (start (T := Z) 2) (reach_start 2) (conj eq_refl eq_refl)) as [H _].
  destruct (H 7) as (w' & E & _). exists (ring w'), (head_cache w'). exact E.
Defined.

Lemma capacity_rounds_up_witness : 100 <= capacity_for 100 /\ capacity_for 100 = 128.
Proof. split; [apply (capacity_rounds_up 100); lia | reflexivity]. Defined.
