(* ===== verification/Scope.v ===== *)
(** * Write ownership and scope migration ([crates/kevy-scope/src/scope.rs],
    [ownership.rs], [routing.rs], [migration.rs] and the server's use of them,
    [crates/kevy/src/state/scope.rs])

    Which node takes a write: a static table of key prefixes, each with a
    writer and an optional fallback, and a runtime table of prefixes being
    moved to another node.  A node id is its bytes; a [HashMap] is a [gmap],
    iterated in an order given as an argument; a mutex-guarded region is one
    step, so that two threads interleave between regions and not inside. *)

From Stdlib Require Import ZArith Lia Bool Strings.Byte Strings.String Sorting.Permutation Sorted.
From stdpp Require Import base list gmap.
From S2P Require Import Prelude.

#[local] Open Scope list_scope.
#[local] Open Scope nat_scope.

Abbreviation node_id := (list byte).

(** [b.starts_with(a)] *)
Fixpoint starts_with (b a : list byte) : bool :=
  match a, b with
  | [], _ => true
  | x :: a, y :: b => Byte.eqb x y && starts_with b a
  | _ :: _, [] => false
  end.

(** ** Scopes *)

Record Scope := mkScope { prefix : list byte; writer : node_id; fallback : option node_id }.

Definition scope_new (p : list byte) (w : node_id) : Scope := mkScope p w None.
Definition with_fallback (f : node_id) (s : Scope) : Scope := mkScope (prefix s) (writer s) (Some f).
Definition scope_matches (s : Scope) (key : list byte) : bool := starts_with key (prefix s).

Inductive OwnershipError : Type :=
| DuplicatePrefix (prefix : list byte)
| OverlappingPrefix (inner outer : list byte).

Inductive Routing : Type := Owned | Misdirected (target : node_id) | Unknown.

(** ** The ownership table *)

(** The duplicate check: the first pair [i < j] in the order of the loops. *)
Fixpoint find_duplicate (scopes : list Scope) : option (list byte) :=
  match scopes with
  | [] => None
  | s :: r => if existsb (fun x => bool_decide (prefix s = prefix x)) r then Some (prefix s) else find_duplicate r
  end.

(** The inner loop of the overlap check, for the scope at [i]; the pair
    [i = j] is skipped. *)
Fixpoint find_inner (a : list byte) (i j : nat) (scopes : list Scope) : option (list byte) :=
  match scopes with
  | [] => None
  | s :: r =>
      if negb (i =? j) && (length a <? length (prefix s)) && starts_with (prefix s) a
      then Some (prefix s) else find_inner a i (S j) r
  end.

Fixpoint find_overlap (i : nat) (rest all : list Scope) : option (list byte * list byte) :=
  match rest with
  | [] => None
  | s :: r =>
      match find_inner (prefix s) i 0 all with
      | Some inner => Some (inner, prefix s)
      | None => find_overlap (S i) r all
      end
  end.

(** [sort_by_key(|s| Reverse(s.prefix.len()))], a stable sort. *)
Fixpoint sort_insert (s : Scope) (l : list Scope) : list Scope :=
  match l with
  | [] => [s]
  | x :: r => if length (prefix x) <=? length (prefix s) then s :: l else x :: sort_insert s r
  end.

Fixpoint sort_by_length (l : list Scope) : list Scope :=
  match l with
  | [] => []
  | s :: r => sort_insert s (sort_by_length r)
  end.

Definition ownership_new (scopes : list Scope) : list Scope + OwnershipError :=
  match find_duplicate scopes with
  | Some p => inr (DuplicatePrefix p)
  | None =>
      match find_overlap 0 scopes scopes with
      | Some (inner, outer) => inr (OverlappingPrefix inner outer)
      | None => inl (sort_by_length scopes)
      end
  end.

Definition scopes_without_fallback (t : list Scope) : list Scope :=
  List.filter (fun s => match fallback s with None => true | Some _ => false end) t.

(** [self.scopes.iter().find(..)] *)
Definition lookup_scope (t : list Scope) (key : list byte) : option Scope :=
  List.find (fun s => scope_matches s key) t.

Definition route (t : list Scope) (key : list byte) (self_node_id : node_id) : Routing :=
  match lookup_scope t key with
  | None => Unknown
  | Some s => if bool_decide (writer s = self_node_id) then Owned else Misdirected (writer s)
  end.

Definition route_with_fallback_state (t : list Scope) (key : list byte) (self_node_id : node_id)
  (is_writer_down : node_id -> bool) : Routing :=
  match lookup_scope t key with
  | None => Unknown
  | Some s =>
      let active_owner := if is_writer_down (writer s) then default (writer s) (fallback s) else writer s in
      if bool_decide (active_owner = self_node_id) then Owned else Misdirected active_owner
  end.

Definition is_local_writer (r : Routing) : bool := match r with Owned => true | _ => false end.

Definition misdirected_target (r : Routing) : option node_id :=
  match r with Misdirected target => Some target | _ => None end.

(** ** The migration table *)

Record MigrationState := mkMigration { from_node : node_id; to_node : node_id }.

Record MigrationTable := mkMigrations {
  migrating : gmap (list byte) MigrationState;
  migrated : gmap (list byte) MigrationState
}.

Inductive MigrationError : Type := AlreadyMigrating | AlreadyMigrated.

Definition migrations_new : MigrationTable := mkMigrations ∅ ∅.

(** [start] holds both locks across its body. *)
Definition start (p : list byte) (from_ to_ : node_id) (t : MigrationTable)
  : MigrationTable * option MigrationError :=
  match migrating t !! p with
  | Some _ => (t, Some AlreadyMigrating)
  | None =>
      match migrated t !! p with
      | Some _ => (t, Some AlreadyMigrated)
      | None => (mkMigrations (<[p := mkMigration from_ to_]> (migrating t)) (migrated t), None)
      end
  end.

(** The two locked regions of [commit]. *)
Definition commit_take (p : list byte) (t : MigrationTable) : option (MigrationTable * MigrationState) :=
  match migrating t !! p with
  | None => None
  | Some entry => Some (mkMigrations (delete p (migrating t)) (migrated t), entry)
  end.

Definition commit_put (p : list byte) (entry : MigrationState) (t : MigrationTable) : MigrationTable :=
  mkMigrations (migrating t) (<[p := entry]> (migrated t)).

Definition commit (p : list byte) (t : MigrationTable) : MigrationTable * option MigrationState :=
  match commit_take p t with
  | None => (t, None)
  | Some (t, entry) => (commit_put p entry t, Some entry)
  end.

Definition abort (p : list byte) (t : MigrationTable) : MigrationTable * option MigrationState :=
  (mkMigrations (delete p (migrating t)) (migrated t), migrating t !! p).

Definition lookup_migrating (t : MigrationTable) (p : list byte) : option MigrationState := migrating t !! p.
Definition lookup_migrated (t : MigrationTable) (p : list byte) : option MigrationState := migrated t !! p.

(** The scan of [match_migrating] and [match_migrated], over the entries in
    the order the map gives them. *)
Fixpoint longest_match (key : list byte) (entries : list (list byte * MigrationState))
  (best : option (list byte * MigrationState)) : option MigrationState :=
  match entries with
  | [] => snd <$> best
  | (p, st) :: r =>
      let take := starts_with key p &&
                  match best with None => true | Some (prev, _) => length prev <? length p end in
      longest_match key r (if take then Some (p, st) else best)
  end.

Definition match_entries (key : list byte) (entries : list (list byte * MigrationState)) : option MigrationState :=
  longest_match key entries None.

(** ** Routing a write *)

Inductive WriteRedirect : Type := RMisdirected (addr : list byte) | RQuiesced (to_addr : list byte).

Record ScopeState := mkScopeState {
  ownership : option (list Scope);
  peer_addrs : list (node_id * list byte);
  self_node : option node_id
}.

Definition resolve_addr (s : ScopeState) (n : node_id) : list byte :=
  match List.find (fun p => bool_decide (fst p = n)) (peer_addrs s) with
  | Some (_, addr) => addr
  | None => n
  end.

(** Step 4 of [route_write]: the static table, with the election snapshot. *)
Definition route_static (s : ScopeState) (snapshot : option (list node_id)) (key : list byte) : option WriteRedirect :=
  match ownership s, self_node s with
  | Some table, Some self_id =>
      let routing :=
        match snapshot with
        | Some down_peers => route_with_fallback_state table key self_id (fun n => bool_decide (n ∈ down_peers))
        | None => route table key self_id
        end in
      (fun target => RMisdirected (resolve_addr s target)) <$> misdirected_target routing
  | _, _ => None
  end.

(** [ShardCtx::ingesting_matches] *)
Definition ingesting_matches (ingesting_prefix : option (list byte)) (key : list byte) : bool :=
  match ingesting_prefix with Some p => starts_with key p | None => false end.

(** [route_write]: the two migration lookups lock one map each, so each sees
    the table at a moment of its own ([t1], then [t2]). *)
Definition route_write (s : ScopeState) (ingesting_prefix : option (list byte)) (t1 t2 : MigrationTable)
  (snapshot : option (list node_id)) (key : list byte) : option WriteRedirect :=
  if ingesting_matches ingesting_prefix key then None
  else
    match match_entries key (map_to_list (migrating t1)) with
    | Some m => Some (RQuiesced (resolve_addr s (to_node m)))
    | None =>
        match match_entries key (map_to_list (migrated t2)) with
        | Some m => Some (RMisdirected (resolve_addr s (to_node m)))
        | None => route_static s snapshot key
        end
    end.

(** ** The table of a configuration *)

Definition disjoint_prefixes (l : list Scope) : Prop :=
  forall i j a b, l !! i = Some a -> l !! j = Some b -> i <> j -> ~ prefix a `prefix_of` prefix b.

Definition longer (a b : Scope) : Prop := length (prefix b) <= length (prefix a).

Lemma starts_with_prefix k p : starts_with k p = true <-> p `prefix_of` k.
Proof.
  revert k. induction p as [|x p IH]; intros k; cbn.
  - split; [intros _; apply prefix_nil | by destruct k].
  - destruct k as [|y k]; cbn.
    + split; [discriminate|]. intros H. by apply prefix_nil_not in H.
    + destruct (byte_eqb_spec x y) as [->|N]; cbn.
      * rewrite IH. split; [apply prefix_cons | apply prefix_cons_inv_2].
      * split; [discriminate|]. intros H. by apply prefix_cons_inv_1 in H.
Qed.

Lemma scope_matches_prefix s k : scope_matches s k = true <-> prefix s `prefix_of` k.
Proof. apply starts_with_prefix. Qed.

(** Two prefixes of one key are comparable. *)
Lemma prefixes_comparable {A} (p q k : list A) :
  p `prefix_of` k -> q `prefix_of` k -> length p <= length q -> p `prefix_of` q.
Proof.
  intros [r ->] [r' E] L. exists (take (length q - length p) r).
  apply (f_equal (take (length q))) in E.
  rewrite take_app_length, take_app, (take_ge p) in E by lia. by symmetry.
Qed.

Lemma find_duplicate_spec l :
  match find_duplicate l with
  | Some p => exists i j a b, i < j /\ l !! i = Some a /\ l !! j = Some b /\ prefix a = p /\ prefix b = p
  | None => NoDup (prefix <$> l)
  end.
Proof.
  induction l as [|s r IH]; cbn [find_duplicate]; [constructor|].
  destruct (existsb _ r) eqn:E.
  - apply existsb_exists in E as (x & Hx & E%bool_decide_eq_true).
    apply list_elem_of_In, list_elem_of_lookup in Hx as [j Hj].
    exists 0, (S j), s, x. repeat split; [lia | exact Hj | congruence].
  - destruct (find_duplicate r).
    + destruct IH as (i & j & a & b & ? & ? & ? & ? & ?).
      exists (S i), (S j), a, b. repeat split; [lia | assumption..].
    + cbn. constructor; [|exact IH]. intros (x & Ex & Hx)%list_elem_of_fmap.
      enough (existsb (fun x => bool_decide (prefix s = prefix x)) r = true) by congruence.
      apply existsb_exists. exists x. rewrite bool_decide_eq_true. split; [by apply list_elem_of_In | exact Ex].
Qed.

Lemma find_inner_spec a i all : forall rest j, rest = drop j all ->
  match find_inner a i j rest with
  | Some p => exists k b, k <> i /\ all !! k = Some b /\ prefix b = p /\ a `prefix_of` p /\ length a < length p
  | None => forall k b, j <= k -> k <> i -> all !! k = Some b -> length a < length (prefix b) -> ~ a `prefix_of` prefix b
  end.
Proof.
  induction rest as [|s r IH]; intros j E; cbn [find_inner].
  - intros k b Hj _ Hk. assert (length all <= j) by (apply (f_equal length) in E; rewrite length_drop in E; cbn in E; lia).
    apply lookup_lt_Some in Hk. lia.
  - assert (Hs : all !! j = Some s) by (rewrite <- (Nat.add_0_r j), <- lookup_drop, <- E; reflexivity).
    assert (Er : r = drop (S j) all).
    { rewrite <- (Nat.add_1_r j), <- drop_drop, <- E. reflexivity. }
    destruct (negb (i =? j) && (length a <? length (prefix s)) && starts_with (prefix s) a) eqn:C.
    + apply andb_true_iff in C as [[C1 C2]%andb_true_iff C3].
      exists j, s. apply negb_true_iff, Nat.eqb_neq in C1. apply Nat.ltb_lt in C2.
      apply starts_with_prefix in C3. repeat split; auto.
    + specialize (IH (S j) Er). destruct (find_inner a i (S j) r); [exact IH|].
      intros k b Hj Ni Hk L P. destruct (decide (k = j)) as [->|N];
        [|exact (IH k b ltac:(lia) Ni Hk L P)].
      rewrite Hs in Hk. injection Hk as <-.
      apply starts_with_prefix in P. rewrite P in C.
      destruct (Nat.eqb_spec i j); [congruence|]. destruct (Nat.ltb_spec (length a) (length (prefix s))); [discriminate|lia].
Qed.

Lemma find_overlap_spec all : forall rest i, rest = drop i all ->
  match find_overlap i rest all with
  | Some (inner, outer) => exists a b, a ∈ all /\ b ∈ all /\ prefix a = outer /\ prefix b = inner /\
      outer `prefix_of` inner /\ length outer < length inner
  | None => forall n k a b, i <= n -> k <> n -> all !! n = Some a -> all !! k = Some b ->
      length (prefix a) < length (prefix b) -> ~ prefix a `prefix_of` prefix b
  end.
Proof.
  induction rest as [|s r IH]; intros i E; cbn [find_overlap].
  - intros n k a b Hi _ Hn. assert (length all <= i) by (apply (f_equal length) in E; rewrite length_drop in E; cbn in E; lia).
    apply lookup_lt_Some in Hn. lia.
  - assert (Hs : all !! i = Some s) by (rewrite <- (Nat.add_0_r i), <- lookup_drop, <- E; reflexivity).
    assert (Er : r = drop (S i) all).
    { rewrite <- (Nat.add_1_r i), <- drop_drop, <- E. reflexivity. }
    pose proof (find_inner_spec (prefix s) i all all 0 eq_refl) as F.
    destruct (find_inner (prefix s) i 0 all).
    + destruct F as (k & b & _ & Hk & <- & P & L). exists s, b.
      repeat split; auto; eapply list_elem_of_lookup_2; eauto.
    + specialize (IH (S i) Er). destruct (find_overlap (S i) r all) as [[inner outer]|]; [exact IH|].
      intros n k a b Hi N Hn Hk L. destruct (decide (n = i)) as [->|Nn];
        [|exact (IH n k a b ltac:(lia) N Hn Hk L)].
      rewrite Hs in Hn. injection Hn as <-. exact (F k b ltac:(lia) N Hk L).
Qed.

Lemma sort_insert_perm s l : sort_insert s l ≡ₚ s :: l.
Proof.
  induction l as [|x r IH]; cbn; [reflexivity|]. destruct (_ <=? _); [reflexivity|].
  rewrite IH. apply Permutation_swap.
Qed.

Lemma sort_by_length_perm l : sort_by_length l ≡ₚ l.
Proof. induction l as [|s r IH]; cbn; [reflexivity|]. by rewrite sort_insert_perm, IH. Qed.

Lemma sort_insert_sorted s l : StronglySorted longer l -> StronglySorted longer (sort_insert s l).
Proof.
  induction 1 as [|x r Hr IH Hx]; cbn; [repeat constructor|].
  destruct (Nat.leb_spec (length (prefix x)) (length (prefix s))) as [L|L].
  - constructor; [by constructor|]. constructor; [exact L|].
    eapply Forall_impl; [exact Hx|]. unfold longer. intros y. lia.
  - constructor; [exact IH|]. rewrite sort_insert_perm. constructor; [unfold longer; lia | exact Hx].
Qed.

Lemma sort_by_length_sorted l : StronglySorted longer (sort_by_length l).
Proof. induction l; cbn; [constructor|]. by apply sort_insert_sorted. Qed.

(** The sorted table keeps exactly the scopes given, and its prefixes stay
    pairwise incomparable. *)
Lemma ownership_new_spec l :
  match ownership_new l with
  | inl t => disjoint_prefixes l /\ t ≡ₚ l /\ StronglySorted longer t
  | inr (DuplicatePrefix p) =>
      exists i j a b, i < j /\ l !! i = Some a /\ l !! j = Some b /\ prefix a = p /\ prefix b = p
  | inr (OverlappingPrefix inner outer) =>
      NoDup (prefix <$> l) /\
      exists a b, a ∈ l /\ b ∈ l /\ prefix a = outer /\ prefix b = inner /\
        outer `prefix_of` inner /\ outer <> inner
  end.
Proof.
  unfold ownership_new. pose proof (find_duplicate_spec l) as D.
  destruct (find_duplicate l); [exact D|].
  pose proof (find_overlap_spec l l 0 eq_refl) as O.
  destruct (find_overlap 0 l l) as [[inner outer]|].
  - split; [exact D|]. destruct O as (a & b & Ha & Hb & <- & <- & P & L).
    exists a, b. repeat split; auto. intros E. rewrite E in L. lia.
  - split; [|split; [apply sort_by_length_perm | apply sort_by_length_sorted]].
    intros i j a b Hi Hj N P.
    destruct (decide (length (prefix a) < length (prefix b))) as [L|L];
      [exact (O i j a b ltac:(lia) (not_eq_sym N) Hi Hj L P)|].
    assert (prefix a = prefix b) as E.
    { apply prefix_length_eq; [exact P | lia]. }
    apply N, (NoDup_lookup _ i j (prefix a) D); rewrite list_lookup_fmap, ?Hi, ?Hj; cbn; congruence.
Qed.

(** the ownership table is built exactly when no declared prefix is a
    prefix of another declared one (equal ones included), and the table is then the
    declared scopes sorted by decreasing prefix length; a refused
    configuration is refused with a real conflict: two positions with the
    duplicated prefix, or, among pairwise distinct prefixes, one that
    strictly contains the other. *)
Theorem ownership_table_iff_disjoint l :
  match ownership_new l with
  | inl t => disjoint_prefixes l /\ t ≡ₚ l /\ StronglySorted longer t
  | inr (DuplicatePrefix p) =>
      ~ disjoint_prefixes l /\
      exists i j a b, i < j /\ l !! i = Some a /\ l !! j = Some b /\ prefix a = p /\ prefix b = p
  | inr (OverlappingPrefix inner outer) =>
      ~ disjoint_prefixes l /\ NoDup (prefix <$> l) /\
      exists a b, a ∈ l /\ b ∈ l /\ prefix a = outer /\ prefix b = inner /\
        outer `prefix_of` inner /\ outer <> inner
  end.
Proof.
  pose proof (ownership_new_spec l) as H. destruct (ownership_new l) as [t|[p|inner outer]]; [exact H| |].
  - split; [|exact H]. destruct H as (i & j & a & b & L & Hi & Hj & <- & E).
    intros D. apply (D i j a b Hi Hj ltac:(lia)). by rewrite E.
  - split; [|exact H]. destruct H as (_ & a & b & Ha & Hb & <- & <- & P & N).
    apply list_elem_of_lookup in Ha as [i Hi], Hb as [j Hj].
    intros D. apply (D i j a b Hi Hj); [|exact P]. intros ->. congruence.
Qed.

(** ** One writer per key *)

Section Table.
Context (l t : list Scope) (Hnew : ownership_new l = inl t).

Lemma table_perm : t ≡ₚ l.
Proof. pose proof (ownership_new_spec l) as H. rewrite Hnew in H. apply H. Qed.

Lemma table_disjoint : disjoint_prefixes l.
Proof. pose proof (ownership_new_spec l) as H. rewrite Hnew in H. apply H. Qed.

Lemma one_scope_matches a b key :
  a ∈ l -> b ∈ l -> prefix a `prefix_of` key -> prefix b `prefix_of` key -> a = b.
Proof using Hnew.
  intros [i Hi]%list_elem_of_lookup [j Hj]%list_elem_of_lookup Pa Pb.
  destruct (decide (i = j)) as [->|N]; [congruence|]. exfalso.
  destruct (Nat.le_ge_cases (length (prefix a)) (length (prefix b))) as [L|L].
  - exact (table_disjoint i j a b Hi Hj N (prefixes_comparable _ _ _ Pa Pb L)).
  - exact (table_disjoint j i b a Hj Hi (not_eq_sym N) (prefixes_comparable _ _ _ Pb Pa L)).
Qed.

Lemma lookup_scope_spec key s :
  lookup_scope t key = Some s <-> s ∈ l /\ prefix s `prefix_of` key.
Proof using Hnew.
  unfold lookup_scope. split.
  - intros [Hin Hm]%List.find_some. rewrite <- table_perm. apply scope_matches_prefix in Hm.
    split; [by apply list_elem_of_In | exact Hm].
  - intros [Hin Hp]. destruct (List.find _ t) as [s'|] eqn:E.
    + apply List.find_some in E as [Hin' Hm']. f_equal. apply (one_scope_matches s' s key); auto.
      * rewrite <- table_perm. by apply list_elem_of_In.
      * by apply scope_matches_prefix.
    + rewrite <- table_perm, list_elem_of_In in Hin. apply (List.find_none _ _ E) in Hin.
      apply scope_matches_prefix in Hp. congruence.
Qed.

Lemma lookup_scope_none key :
  lookup_scope t key = None <-> forall s, s ∈ l -> ~ prefix s `prefix_of` key.
Proof using Hnew.
  split.
  - intros E s Hin Hp. pose proof (proj2 (lookup_scope_spec key s) (conj Hin Hp)). congruence.
  - intros H. destruct (lookup_scope t key) as [s|] eqn:E; [|reflexivity].
    apply lookup_scope_spec in E as [Hin Hp]. destruct (H s Hin Hp).
Qed.
End Table.

(** The node that owns a scope's keys in a view of which nodes are down. *)
Definition active_writer (down : node_id -> bool) (s : Scope) : node_id :=
  match fallback s with
  | Some f => if down (writer s) then f else writer s
  | None => writer s
  end.

Lemma route_with_fallback_active t key n down :
  route_with_fallback_state t key n down =
  match lookup_scope t key with
  | None => Unknown
  | Some s => if bool_decide (active_writer down s = n) then Owned else Misdirected (active_writer down s)
  end.
Proof.
  unfold route_with_fallback_state, active_writer. destruct (lookup_scope t key) as [s|]; [|reflexivity].
  destruct (fallback s), (down (writer s)); reflexivity.
Qed.

Lemma route_is_static t key n : route t key n = route_with_fallback_state t key n (fun _ => false).
Proof. reflexivity. Qed.

(** C40: with a table that was accepted, a key has at most one writer in any
    view of which nodes are down: a key under no declared prefix is [Unknown]
    to every node, and a key under one is [Owned] by exactly one node -- the
    writer of the only scope that covers it, or its fallback when the writer
    is down -- while every other node names that node as the target.  The
    lookup does not depend on the order of the declarations, and [route] is
    the same decision with no node down. *)
Theorem one_writer_per_key l t key :
  ownership_new l = inl t ->
  (forall s, lookup_scope t key = Some s <-> s ∈ l /\ prefix s `prefix_of` key) /\
  (forall n, route t key n = route_with_fallback_state t key n (fun _ => false)) /\
  forall down,
    ((forall s, s ∈ l -> ~ prefix s `prefix_of` key) /\
     forall n, route_with_fallback_state t key n down = Unknown) \/
    exists s, s ∈ l /\ prefix s `prefix_of` key /\
      (forall s', s' ∈ l -> prefix s' `prefix_of` key -> s' = s) /\
      route_with_fallback_state t key (active_writer down s) down = Owned /\
      forall n, n <> active_writer down s ->
        route_with_fallback_state t key n down = Misdirected (active_writer down s).
Proof.
  intros Hnew. split; [exact (lookup_scope_spec l t Hnew key)|]. split; [apply route_is_static|].
  intros down. setoid_rewrite route_with_fallback_active.
  destruct (lookup_scope t key) as [s|] eqn:E.
  - right. apply (lookup_scope_spec l t Hnew) in E as [Hin Hp]. exists s. split; [exact Hin|]. split; [exact Hp|].
    split; [intros s' Hin' Hp'; exact (one_scope_matches l t Hnew s' s key Hin' Hin Hp' Hp)|].
    split; [by rewrite bool_decide_true|]. intros n N. rewrite bool_decide_false by congruence. reflexivity.
  - left. split; [|reflexivity]. by apply (lookup_scope_none l t Hnew).
Qed.

Example two_scopes : list Scope :=
  [scope_new (bs "app:auth:") (bs "n1"); with_fallback (bs "n3") (scope_new (bs "app:billing:") (bs "n2"))].

(** The hypothesis at two disjoint prefixes: with [n2] down its
    fallback owns the billing keys. *)
Lemma one_writer_per_key_witness :
  ownership_new two_scopes = inl (rev two_scopes) /\
  route_with_fallback_state (rev two_scopes) (bs "app:billing:1") (bs "n3") (fun n => bool_decide (n = bs "n2")) = Owned /\
  (forall s, lookup_scope (rev two_scopes) (bs "app:billing:1") = Some s <->
     s ∈ two_scopes /\ prefix s `prefix_of` bs "app:billing:1").
Proof.
  split; [vm_compute; reflexivity|]. split; [vm_compute; reflexivity|].
  apply (one_writer_per_key two_scopes (rev two_scopes) (bs "app:billing:1")). vm_compute. reflexivity.
Defined.

(** ** The migration maps *)

Definition covers (p key : list byte) : Prop := p `prefix_of` key.

Lemma longest_match_spec key : forall entries best,
  (forall p st, best = Some (p, st) -> starts_with key p = true) ->
  longest_match key entries best = None /\ best = None /\ (forall e, e ∈ entries -> starts_with key (fst e) = false) \/
  exists p st, longest_match key entries best = Some st /\ starts_with key p = true /\
    (best = Some (p, st) \/ (p, st) ∈ entries) /\
    (forall q st', best = Some (q, st') -> length q <= length p) /\
    forall e, e ∈ entries -> starts_with key (fst e) = true -> length (fst e) <= length p.
Proof.
  induction entries as [|[p st] r IH]; intros best Hb; cbn [longest_match].
  - destruct best as [[q st']|]; [right | left].
    + exists q, st'. repeat split; eauto; [intros ? ? [= <- <-]; lia | intros e He; by apply not_elem_of_nil in He].
    + repeat split; auto. intros e He. by apply not_elem_of_nil in He.
  - set (tk := starts_with key p && _).
    assert (Hb' : forall q st', (if tk then Some (p, st) else best) = Some (q, st') -> starts_with key q = true).
    { intros q st'. destruct tk eqn:E; [|apply Hb]. intros [= <- <-]. by apply andb_true_iff in E as [? _]. }
    destruct (IH _ Hb') as [(E & N & H)|(q & st' & E & Hq & Hin & Hbest & Hmax)].
    + left. destruct tk eqn:T; [discriminate|]. subst best. repeat split; auto.
      intros e [->|He]%elem_of_cons; [|auto]. cbn. subst tk. by rewrite andb_true_r in T.
    + right. exists q, st'. split; [exact E|]. split; [exact Hq|]. repeat split.
      * destruct tk eqn:T; destruct Hin as [Hin|Hin]; rewrite ?elem_of_cons; auto.
        injection Hin as <- <-. auto.
      * intros q0 st0 ->. destruct tk eqn:T; [|eauto].
        apply andb_true_iff in T as [_ T%Nat.ltb_lt]. specialize (Hbest _ _ eq_refl). lia.
      * intros e [->|He]%elem_of_cons Hs; [cbn in *|auto].
        destruct tk eqn:T; [exact (Hbest _ _ eq_refl)|]. subst tk. rewrite Hs in T. cbn in T.
        destruct best as [[q0 st0]|]; [|discriminate]. apply Nat.ltb_ge in T. specialize (Hbest _ _ eq_refl). lia.
Qed.

(** The longest prefix of [key] that [m] holds, and its entry. *)
Definition longest_entry (m : gmap (list byte) MigrationState) (key : list byte) (st : MigrationState) : Prop :=
  exists p, m !! p = Some st /\ p `prefix_of` key /\
    forall q, is_Some (m !! q) -> q `prefix_of` key -> length q <= length p.

Lemma elem_of_entries (m : gmap (list byte) MigrationState) entries p st :
  entries ≡ₚ map_to_list m -> (p, st) ∈ entries <-> m !! p = Some st.
Proof. intros ->. apply elem_of_map_to_list. Qed.

Lemma match_entries_longest m entries key st :
  entries ≡ₚ map_to_list m -> match_entries key entries = Some st <-> longest_entry m key st.
Proof.
  intros Hm. unfold match_entries.
  destruct (longest_match_spec key entries None) as [(E & _ & N)|(p & st' & E & Hp & [Hin|Hin] & _ & Hmax)];
    [discriminate | | discriminate |]; rewrite E.
  - split; [discriminate|]. intros (q & Hq & P & _). apply (elem_of_entries _ _ _ _ Hm) in Hq.
    apply N in Hq. apply starts_with_prefix in P. cbn in Hq. congruence.
  - apply (elem_of_entries _ _ _ _ Hm) in Hin. apply starts_with_prefix in Hp. split.
    + intros [= <-]. exists p. repeat split; auto. intros q [st0 Hq] Pq%starts_with_prefix.
      apply (elem_of_entries _ _ _ _ Hm) in Hq. exact (Hmax _ Hq Pq).
    + intros (q & Hq & Pq & Hqmax).
      assert (length p <= length q) by (apply Hqmax; eauto).
      assert (length q <= length p).
      { apply (Hmax (q, st)); [by apply (elem_of_entries _ _ _ _ Hm) | by apply starts_with_prefix]. }
      assert (p = q) as -> by (apply prefix_length_eq; [eapply prefixes_comparable; eauto | lia]). congruence.
Qed.

Lemma match_entries_none m entries key :
  entries ≡ₚ map_to_list m ->
  match_entries key entries = None <-> forall p, p `prefix_of` key -> m !! p = None.
Proof.
  intros Hm. unfold match_entries.
  destruct (longest_match_spec key entries None) as [(E & _ & N)|(p & st' & E & Hp & [Hin|Hin] & _ & Hmax)];
    [discriminate | | discriminate |]; rewrite E.
  - split; [|reflexivity]. intros _ q Pq%starts_with_prefix. destruct (m !! q) as [st|] eqn:Hq; [|reflexivity].
    apply (elem_of_entries _ _ _ _ Hm), N in Hq. cbn in Hq. congruence.
  - split; [discriminate|]. intros H. apply (elem_of_entries _ _ _ _ Hm) in Hin.
    rewrite H in Hin; [discriminate | by apply starts_with_prefix].
Qed.

(** the migration lookups pick the entry of the longest declared prefix
    of the key, whatever order the hash map iterates in, and find nothing
    exactly when no declared prefix covers the key. *)
Theorem longest_migration_wins m entries key :
  entries ≡ₚ map_to_list m ->
  (forall st, match_entries key entries = Some st <-> longest_entry m key st) /\
  (match_entries key entries = None <-> forall p, p `prefix_of` key -> m !! p = None) /\
  match_entries key entries = match_entries key (map_to_list m).
Proof.
  intros Hm. split; [intros st; by apply match_entries_longest|]. split; [by apply match_entries_none|].
  destruct (match_entries key (map_to_list m)) as [st|] eqn:E.
  - apply (match_entries_longest m entries key st Hm). by apply (match_entries_longest m _ key st (Permutation_refl _)).
  - apply (match_entries_none m entries key Hm). by apply (match_entries_none m _ key (Permutation_refl _)).
Qed.

Example nested_migrations : gmap (list byte) MigrationState :=
  <[bs "app:" := mkMigration (bs "A") (bs "B")]> {[ bs "app:billing:" := mkMigration (bs "B") (bs "C") ]}.

Lemma longest_migration_wins_witness :
  match_entries (bs "app:billing:x") (rev (map_to_list nested_migrations)) = Some (mkMigration (bs "B") (bs "C")) /\
  longest_entry nested_migrations (bs "app:billing:x") (mkMigration (bs "B") (bs "C")).
Proof.
  split; [vm_compute; reflexivity|].
  apply (longest_migration_wins nested_migrations (rev (map_to_list nested_migrations)));
    [symmetry; apply Permutation_rev | vm_compute; reflexivity].
Defined.

(** ** Migrations under way

    The migration table as other threads see it: the operator commands act
    by locked regions, [commit] in two; [committing] holds the entries taken
    out of [migrating] by a [commit] that has not reached its second region. *)

Record Shared := mkShared { table : MigrationTable; committing : list (list byte * MigrationState) }.

Inductive migration_step : Shared -> Shared -> Prop :=
| step_start p f u t c : migration_step (mkShared t c) (mkShared (fst (start p f u t)) c)
| step_abort p t c : migration_step (mkShared t c) (mkShared (fst (abort p t)) c)
| step_take p t t' e c : commit_take p t = Some (t', e) -> migration_step (mkShared t c) (mkShared t' ((p, e) :: c))
| step_put p e t c c' : c ≡ₚ (p, e) :: c' -> migration_step (mkShared t c) (mkShared (commit_put p e t) c').

Definition migration_steps : Shared -> Shared -> Prop := rtc migration_step.

(** A committed prefix is never forgotten. *)
Lemma step_keeps_migrated a b p :
  migration_step a b -> is_Some (migrated (table a) !! p) -> is_Some (migrated (table b) !! p).
Proof.
  intros S H. destruct S as [q f u t c|q t c|q t t' e c E|q e t c c' E]; cbn in *; auto.
  - unfold start. destruct (migrating t !! q), (migrated t !! q); exact H.
  - unfold commit_take in E. destruct (migrating t !! q); [|discriminate]. injection E as <- <-. exact H.
  - rewrite lookup_insert_is_Some'. auto.
Qed.

Lemma steps_keep_migrated a b p :
  migration_steps a b -> is_Some (migrated (table a) !! p) -> is_Some (migrated (table b) !! p).
Proof. induction 1; eauto using step_keeps_migrated. Qed.

Lemma route_write_migrating s ing t1 t2 snap key p :
  ingesting_matches ing key = false -> p `prefix_of` key -> is_Some (migrating t1 !! p) ->
  exists st, longest_entry (migrating t1) key st /\
    route_write s ing t1 t2 snap key = Some (RQuiesced (resolve_addr s (to_node st))).
Proof.
  intros I P [e He]. unfold route_write. rewrite I.
  destruct (match_entries key (map_to_list (migrating t1))) as [st|] eqn:E.
  - exists st. split; [|reflexivity]. by apply (match_entries_longest _ _ key st (Permutation_refl _)).
  - pose proof (proj1 (match_entries_none _ _ key (Permutation_refl _)) E p P). congruence.
Qed.

Lemma route_write_migrated s ing t1 t2 snap key p :
  ingesting_matches ing key = false -> (forall q, q `prefix_of` key -> migrating t1 !! q = None) ->
  p `prefix_of` key -> is_Some (migrated t2 !! p) ->
  exists st, longest_entry (migrated t2) key st /\
    route_write s ing t1 t2 snap key = Some (RMisdirected (resolve_addr s (to_node st))).
Proof.
  intros I N P [e He]. unfold route_write. rewrite I.
  rewrite (proj2 (match_entries_none _ _ key (Permutation_refl _)) N).
  destruct (match_entries key (map_to_list (migrated t2))) as [st|] eqn:E.
  - exists st. split; [|reflexivity]. by apply (match_entries_longest _ _ key st (Permutation_refl _)).
  - pose proof (proj1 (match_entries_none _ _ key (Permutation_refl _)) E p P). congruence.
Qed.

(** where a write for a key goes on a shard that is not ingesting it,
    the two migration lookups of [route_write] seeing the table at two
    moments with any operator steps between them: a prefix in MIGRATING at
    the first moment sends the client to the target of the longest such
    prefix as QUIESCED; otherwise a prefix already in MIGRATED at the first
    moment sends it as MISDIRECTED to the target of the longest committed
    prefix; and when neither lookup finds a prefix the static table decides. *)
Theorem migration_redirects s ing snap key a b :
  migration_steps a b -> ingesting_matches ing key = false ->
  (forall p, p `prefix_of` key -> is_Some (migrating (table a) !! p) ->
     exists st, longest_entry (migrating (table a)) key st /\
       route_write s ing (table a) (table b) snap key = Some (RQuiesced (resolve_addr s (to_node st)))) /\
  ((forall q, q `prefix_of` key -> migrating (table a) !! q = None) ->
   forall p, p `prefix_of` key -> is_Some (migrated (table a) !! p) ->
     exists st, longest_entry (migrated (table b)) key st /\
       route_write s ing (table a) (table b) snap key = Some (RMisdirected (resolve_addr s (to_node st)))) /\
  ((forall q, q `prefix_of` key -> migrating (table a) !! q = None) ->
   (forall q, q `prefix_of` key -> migrated (table b) !! q = None) ->
   route_write s ing (table a) (table b) snap key = route_static s snap key).
Proof.
  intros S I. split; [intros p P H; by eapply route_write_migrating|].
  split; [intros N p P H; eapply route_write_migrated; eauto using steps_keep_migrated|].
  intros N N'. unfold route_write.
  by rewrite I, (proj2 (match_entries_none _ _ key (Permutation_refl _)) N),
    (proj2 (match_entries_none _ _ key (Permutation_refl _)) N').
Qed.

(** the life of one migration.  A prefix in neither map can be started
    and only once; aborting it restores the table as it was; committing it
    moves exactly its entry from MIGRATING to MIGRATED, after which it can be
    neither started nor aborted and a second commit finds nothing. *)
Theorem migration_lifecycle p f u t :
  migrating t !! p = None -> migrated t !! p = None ->
  let e := mkMigration f u in
  exists t1 t2,
    start p f u t = (t1, None) /\ lookup_migrating t1 p = Some e /\
    (forall f' u', start p f' u' t1 = (t1, Some AlreadyMigrating)) /\
    abort p t1 = (t, Some e) /\
    commit p t1 = (t2, Some e) /\
    migrating t2 = migrating t /\ migrated t2 = <[p := e]> (migrated t) /\
    (forall f' u', start p f' u' t2 = (t2, Some AlreadyMigrated)) /\
    abort p t2 = (t2, None) /\ commit p t2 = (t2, None).
Proof.
  intros N N' e. destruct t as [m d]; cbn in *.
  exists (mkMigrations (<[p := e]> m) d), (mkMigrations m (<[p := e]> d)).
  unfold start, abort, commit, commit_take, commit_put, lookup_migrating. cbn.
  rewrite N, N', !lookup_insert_eq, delete_insert_id by exact N. cbn.
  rewrite ?lookup_insert_eq, ?delete_id by exact N. by repeat split.
Qed.

Lemma migration_lifecycle_witness :
  exists t1 t2, start (bs "app:") (bs "A") (bs "B") migrations_new = (t1, None) /\
    commit (bs "app:") t1 = (t2, Some (mkMigration (bs "A") (bs "B"))).
Proof.
  destruct (migration_lifecycle (bs "app:") (bs "A") (bs "B") migrations_new eq_refl eq_refl)
    as (t1 & t2 & H1 & _ & _ & _ & H2 & _).
  exists t1, t2. split; [exact H1 | exact H2].
Defined.

(** ** The window of a commit *)

(** Node [A], the writer of [app:], moves it to [B]. *)
Example node_a : ScopeState :=
  mkScopeState (Some [scope_new (bs "app:") (bs "A")]) [(bs "B", bs "10.0.0.2:6004")] (Some (bs "A")).

Example started : MigrationTable := fst (start (bs "app:") (bs "A") (bs "B") migrations_new).
Example taken : MigrationTable := mkMigrations ∅ ∅.
Example committed : MigrationTable := fst (commit (bs "app:") started).

Lemma migration_redirects_witness :
  migration_steps (mkShared started []) (mkShared committed []) /\
  exists st, longest_entry (migrating started) (bs "app:x") st /\
    route_write node_a None started committed None (bs "app:x") =
      Some (RQuiesced (resolve_addr node_a (to_node st))).
Proof.
  assert (S : migration_steps (mkShared started []) (mkShared committed [])).
  { apply rtc_l with (mkShared taken [(bs "app:", mkMigration (bs "A") (bs "B"))]);
      [constructor; vm_compute; reflexivity|].
    apply rtc_once. apply (step_put (bs "app:") (mkMigration (bs "A") (bs "B"))). reflexivity. }
  split; [exact S|].
  refine (proj1 (migration_redirects node_a None None (bs "app:x") _ _ S eq_refl) (bs "app:") _ _).
  - exists (bs "x"). reflexivity.
  - exists (mkMigration (bs "A") (bs "B")). vm_compute. reflexivity.
Defined.

(** between the two locked regions of [commit] a prefix is in neither
    map.  Node [A], whose slice has been shipped to [B], quiesces a write
    before the commit and redirects it to [B] after, but in the window it
    accepts the write locally; the moment is reached by the operator's own
    steps. *)
Theorem commit_window_accepts_locally :
  migration_steps (mkShared migrations_new []) (mkShared taken [(bs "app:", mkMigration (bs "A") (bs "B"))]) /\
  route_write node_a None started started None (bs "app:x") = Some (RQuiesced (bs "10.0.0.2:6004")) /\
  route_write node_a None taken taken None (bs "app:x") = None /\
  route_write node_a None committed committed None (bs "app:x") = Some (RMisdirected (bs "10.0.0.2:6004")).
Proof.
  split; [|by repeat split; vm_compute].
  apply rtc_l with (mkShared started []); [apply step_start|].
  apply rtc_once. constructor. vm_compute. reflexivity.
Qed.
