(* ===== verification/Hash.v ===== *)
(** * Hashes of keys ([crates/kevy-hash/src]: [lib.rs], [crc16.rs], [hashtag.rs])

    The hash a table probes with, and the cluster slot of a key: the CRC16 of
    its hashtag.  The sliced CRC is proved to be the shift register it
    computes, the word-wise search for the tag the byte-wise rule, and the
    finalizer of the table's hash a bijection. *)

From Stdlib Require Import ZArith Lia Bool Btauto Strings.Byte Strings.String.
From stdpp Require Import base list.
From S2P Require Import Prelude FindCrlf.

#[local] Open Scope list_scope.
#[local] Open Scope Z_scope.
#[local] Open Scope kevy_scope.

(** ** The table's hash *)

Definition u64 (x : Z) : Z := x mod 2 ^ 64.
Definition wrapping_mul (x y : Z) : Z := u64 (x * y).

Definition SEED : Z := 0x517cc1b727220a95.
Definition ROTATE : Z := 5.

Definition fmix64 (h : Z) : Z :=
  let h := Z.lxor h (Z.shiftr h 33) in
  let h := wrapping_mul h 0xff51afd7ed558ccd in
  let h := Z.lxor h (Z.shiftr h 33) in
  let h := wrapping_mul h 0xc4ceb9fe1a85ec53 in
  Z.lxor h (Z.shiftr h 33).

Definition rotate_left (x n : Z) : Z := Z.lor (u64 (Z.shiftl x n)) (Z.shiftr x (64 - n)).
Definition mix (state word : Z) : Z := wrapping_mul (Z.lxor (rotate_left state ROTATE) word) SEED.

Definition multiply_mix (x y : Z) : Z :=
  let full := x * y in Z.lxor (u64 full) (u64 (Z.shiftr full 64)).

Definition HASH_S1 : Z := 0x243f6a8885a308d3.
Definition HASH_S2 : Z := 0x13198a2e03707344.
Definition ANTI_ZERO : Z := 0xa4093822299f31d0.

(** The chunks of sixteen of the bulk; [fuel] is its length. *)
Fixpoint hash_bulk (fuel : nat) (bulk : list byte) (s0 s1 : Z) : Z * Z :=
  match fuel with
  | O => (s0, s1)
  | S fuel =>
      if (length bulk <? 16)%nat then (s0, s1)
      else
        let x := from_le_bytes (take 8 bulk) in
        let y := from_le_bytes (take 8 (drop 8 bulk)) in
        let t := multiply_mix (Z.lxor s0 x) (Z.lxor ANTI_ZERO y) in
        hash_bulk fuel (drop 16 bulk) s1 t
  end.

(** [hash_bytes_pipelined] *)
Definition hash_bytes (bytes : list byte) : Z :=
  let len := length bytes in
  let byte_at i := default 0 (bz <$> bytes !! i) in
  let '(s0, s1) :=
    if (len <=? 16)%nat then
      if (8 <=? len)%nat then
        (Z.lxor HASH_S1 (from_le_bytes (take 8 bytes)), Z.lxor HASH_S2 (from_le_bytes (drop (len - 8) bytes)))
      else if (4 <=? len)%nat then
        (Z.lxor HASH_S1 (from_le_bytes (take 4 bytes)), Z.lxor HASH_S2 (from_le_bytes (drop (len - 4) bytes)))
      else if (0 <? len)%nat then
        (Z.lxor HASH_S1 (byte_at O),
         Z.lxor HASH_S2 (Z.lor (Z.shiftl (byte_at (len - 1)%nat) 8) (byte_at (len / 2)%nat)))
      else (HASH_S1, HASH_S2)
    else
      let '(s0, s1) := hash_bulk len (take (len - 1) bytes) HASH_S1 HASH_S2 in
      let suffix := drop (len - 16) bytes in
      (Z.lxor s0 (from_le_bytes (take 8 suffix)), Z.lxor s1 (from_le_bytes (drop 8 suffix))) in
  fmix64 (Z.lxor (multiply_mix s0 s1) (Z.of_nat len)).

(** [KevyHash for u64] *)
Definition hash_u64 (x : Z) : Z := fmix64 (mix 0 x).

(** ** CRC16 *)

Definition POLY : Z := 0x1021.
Definition u16 (x : Z) : Z := Z.land x 0xFFFF.
Definition u8 (x : Z) : Z := Z.land x 0xFF.

(** One bit of [make_table]'s loop. *)
Definition crc_bit (crc : Z) : Z :=
  if negb (Z.land crc 0x8000 =? 0) then Z.lxor (u16 (Z.shiftl crc 1)) POLY else u16 (Z.shiftl crc 1).

Definition make_table : list Z :=
  (fun i => Nat.iter 8 crc_bit (u16 (Z.shiftl (Z.of_nat i) 8))) <$> seq 0 256.

Definition TABLE : list Z := make_table.
Definition tbl (t : list Z) (i : Z) : Z := nth (Z.to_nat i) t 0.

Definition next_table (prev : list Z) : list Z :=
  (fun p => Z.lxor (u16 (Z.shiftl p 8)) (tbl TABLE (Z.shiftr p 8))) <$> prev.

Definition TABLE1 : list Z := next_table TABLE.
Definition TABLE2 : list Z := next_table TABLE1.
Definition TABLE3 : list Z := next_table TABLE2.

Definition crc16_byte (crc : Z) (b : byte) : Z :=
  Z.lxor (u16 (Z.shiftl crc 8)) (tbl TABLE (Z.lxor (u8 (Z.shiftr crc 8)) (bz b))).

(** A chunk of four. *)
Definition crc16_chunk (crc : Z) (c0 c1 c2 c3 : byte) : Z :=
  Z.lxor (Z.lxor (Z.lxor (tbl TABLE3 (Z.lxor (u8 (Z.shiftr crc 8)) (bz c0)))
                         (tbl TABLE2 (Z.lxor (u8 crc) (bz c1))))
                 (tbl TABLE1 (bz c2))) (tbl TABLE (bz c3)).

(** The chunks of four, then the tail. *)
Section Sliced.
Context (chunk : Z -> byte -> byte -> byte -> byte -> Z) (single : Z -> byte -> Z).

Fixpoint sliced (crc : Z) (bytes : list byte) : Z :=
  match bytes with
  | c0 :: c1 :: c2 :: c3 :: rest => sliced (chunk crc c0 c1 c2 c3) rest
  | tail => foldl single crc tail
  end.
End Sliced.

Definition crc16 (bytes : list byte) : Z := sliced crc16_chunk crc16_byte 0 bytes.

(** ** Hashtags *)

Definition LO : Z := 0x0101010101010101.
Definition HI : Z := 0x8080808080808080.

Definition in_word (word : list byte) (pat : Z) : option Z :=
  let x := Z.lxor (from_le_bytes word) pat in
  let m := Z.land (Z.land (wrapping_sub64 x LO) (not64 x)) HI in
  if negb (m =? 0) then Some (trailing_zeros 64 m / 8) else None.

Fixpoint find_words (fuel : nat) (bytes : list byte) (pat i : Z) : option Z :=
  match fuel with
  | O => None
  | S fuel =>
      let n := blen bytes in
      if i + 8 <=? n then
        match in_word (slice bytes i (i + 8)) pat with
        | Some p => Some (i + p)
        | None => find_words fuel bytes pat (i + 8)
        end
      else if i <? n then (fun p => n - 8 + p) <$> in_word (from bytes (n - 8)) pat
      else None
  end.

(** [bytes.iter().position(|c| c == b)] *)
Definition position (b : byte) (bytes : list byte) : option Z := Z.of_nat <$> first_byte b bytes.

Definition find (bytes : list byte) (b : byte) : option Z :=
  let pat := LO * bz b in
  if blen bytes <? 8 then position b bytes else find_words (S (length bytes)) bytes pat 0.

Definition OPEN : byte := "{"%byte.
Definition CLOSE : byte := "}"%byte.

Definition hashtag (key : list byte) : option (list byte) :=
  start ← (match key with
           | c :: _ => if c =b OPEN then Some 0 else find key OPEN
           | [] => find key OPEN
           end);
  let after := from key (start + 1) in
  len ← position CLOSE after;
  if len =? 0 then None else Some (slice after 0 len).

Definition key_hash_slot (key : list byte) : Z := Z.land (crc16 (default key (hashtag key))) 0x3FFF.

(** ** The shift register *)

(** CRC-16/XMODEM by definition: each byte enters at the top, then eight
    shifts. *)
Definition crc16_spec (bytes : list byte) : Z :=
  foldl (fun crc b => Nat.iter 8 crc_bit (Z.lxor crc (Z.shiftl (bz b) 8))) 0 bytes.

Lemma land_lxor x y m : Z.land (Z.lxor x y) m = Z.lxor (Z.land x m) (Z.land y m).
Proof.
  apply Z.bits_inj'. intros n Hn. rewrite !Z.land_spec, !Z.lxor_spec, !Z.land_spec.
  by destruct (Z.testbit x n), (Z.testbit y n), (Z.testbit m n).
Qed.

Lemma land_8000 x : negb (Z.land x 0x8000 =? 0) = Z.testbit x 15.
Proof.
  change 0x8000 with (2 ^ 15). destruct (Z.testbit x 15) eqn:T.
  - apply negb_true_iff, Z.eqb_neq. intros E. apply (f_equal (fun z => Z.testbit z 15)) in E.
    rewrite Z.land_spec, T, Z.pow2_bits_true, Z.bits_0 in E by lia. discriminate.
  - apply negb_false_iff, Z.eqb_eq. apply Z.bits_inj'. intros n Hn. rewrite Z.land_spec, Z.bits_0.
    destruct (Z.eq_dec n 15) as [->|N]; [by rewrite T|]. rewrite Z.pow2_bits_false by lia. apply andb_false_r.
Qed.

Lemma crc_bit_lin x y : crc_bit (Z.lxor x y) = Z.lxor (crc_bit x) (crc_bit y).
Proof.
  unfold crc_bit, u16. rewrite !land_8000, Z.lxor_spec, Z.shiftl_lxor, land_lxor.
  set (a := Z.land (Z.shiftl x 1) 0xFFFF). set (b := Z.land (Z.shiftl y 1) 0xFFFF).
  destruct (Z.testbit x 15), (Z.testbit y 15); cbn [xorb]; apply Z.bits_inj'; intros n Hn; rewrite !Z.lxor_spec;
    by destruct (Z.testbit a n), (Z.testbit b n), (Z.testbit POLY n).
Qed.

Definition crc_bits (x : Z) : Z := Nat.iter 8 crc_bit x.

Lemma crc_bits_lin x y : crc_bits (Z.lxor x y) = Z.lxor (crc_bits x) (crc_bits y).
Proof.
  unfold crc_bits. generalize 8%nat. intros n. induction n as [|n IH]; cbn [Nat.iter nat_rect]; [reflexivity|].
  change (crc_bit (Nat.iter n crc_bit (Z.lxor x y)) = Z.lxor (crc_bit (Nat.iter n crc_bit x)) (crc_bit (Nat.iter n crc_bit y))).
  by rewrite IH, crc_bit_lin.
Qed.

(** A byte at the bottom only moves up; one at the top is the table's. *)
Lemma crc_bits_low a : 0 <= a < 256 -> crc_bits a = u16 (Z.shiftl a 8).
Proof.
  intros H. apply Z.eqb_eq. exact (byte_range_check (fun a => crc_bits a =? u16 (Z.shiftl a 8)) eq_refl a H).
Qed.

Lemma table_byte a : 0 <= a < 256 -> tbl TABLE a = crc_bits (Z.shiftl a 8).
Proof.
  intros H. apply Z.eqb_eq. exact (byte_range_check (fun a => tbl TABLE a =? crc_bits (Z.shiftl a 8)) eq_refl a H).
Qed.

Lemma u8_range x : 0 <= u8 x < 256.
Proof. unfold u8. change 0xFF with (Z.ones 8). rewrite Z.land_ones by lia. apply Z.mod_pos_bound. lia. Qed.

Lemma halves x : 0 <= x < 65536 -> x = Z.lxor (Z.shiftl (Z.shiftr x 8) 8) (u8 x) /\ 0 <= Z.shiftr x 8 < 256.
Proof.
  intros H. unfold u8. change 0xFF with (Z.ones 8). split.
  - apply Z.bits_inj'. intros n Hn. rewrite Z.lxor_spec, Z.land_spec, Z.testbit_ones_nonneg, Z.shiftl_spec by lia.
    destruct (Z.ltb_spec n 8).
    + rewrite (Z.testbit_neg_r _ (n - 8)) by lia. cbn. by rewrite andb_true_r.
    + rewrite Z.shiftr_spec by lia. replace (n - 8 + 8) with n by lia. by rewrite andb_false_r, xorb_false_r.
  - rewrite Z.shiftr_div_pow2 by lia. split; [apply Z.div_pos; lia | apply Z.div_lt_upper_bound; lia].
Qed.

Lemma u8_shiftr x : 0 <= x < 65536 -> u8 (Z.shiftr x 8) = Z.shiftr x 8.
Proof. intros H. unfold u8. change 0xFF with (Z.ones 8). rewrite Z.land_ones by lia. apply Z.mod_small, (halves x H). Qed.

Lemma u16_range x : 0 <= u16 x < 65536.
Proof. unfold u16. change 0xFFFF with (Z.ones 16). rewrite Z.land_ones by lia. apply Z.mod_pos_bound. lia. Qed.

Lemma lxor16 x y : 0 <= x < 65536 -> 0 <= y < 65536 -> 0 <= Z.lxor x y < 65536.
Proof.
  intros Hx Hy. assert (E : Z.lxor x y = u16 (Z.lxor x y)); [|rewrite E; apply u16_range].
  unfold u16. rewrite land_lxor. change 0xFFFF with (Z.ones 16). rewrite !Z.land_ones, !Z.mod_small by lia. reflexivity.
Qed.

Lemma crc_bit_range x : 0 <= crc_bit x < 65536.
Proof.
  unfold crc_bit. destruct (negb _); [|apply u16_range]. apply lxor16; [apply u16_range | unfold POLY; lia].
Qed.

Lemma crc_bits_range x : 0 <= crc_bits x < 65536.
Proof. unfold crc_bits. apply crc_bit_range. Qed.

Definition crc_enter (crc : Z) (b : byte) : Z := crc_bits (Z.lxor crc (Z.shiftl (bz b) 8)).

(** The shift register as the byte table has it. *)
Lemma crc16_byte_ok x b : 0 <= x < 65536 -> crc16_byte x b = crc_enter x b.
Proof.
  intros H. destruct (halves x H) as [E R]. unfold crc16_byte, crc_enter. rewrite u8_shiftr by exact H.
  pose proof (bz_range b). rewrite table_byte by (apply lxor_range; lia). rewrite Z.shiftl_lxor, !crc_bits_lin.
  rewrite E at 3. rewrite crc_bits_lin, (crc_bits_low (u8 x)) by apply u8_range.
  assert (U : u16 (Z.shiftl x 8) = u16 (Z.shiftl (u8 x) 8)).
  { unfold u16, u8. apply Z.bits_inj'. intros n Hn. rewrite !Z.land_spec, !Z.shiftl_spec, Z.land_spec by lia.
    change 0xFFFF with (Z.ones 16). change 0xFF with (Z.ones 8). rewrite Z.testbit_ones_nonneg by lia.
    destruct (Z.ltb_spec n 16); [|by rewrite !andb_false_r]. rewrite !andb_true_r.
    destruct (Z.ltb_spec (n - 8) 0); [rewrite !Z.testbit_neg_r by lia; reflexivity|].
    rewrite Z.testbit_ones_nonneg by lia. destruct (Z.ltb_spec (n - 8) 8); [by rewrite andb_true_r | lia]. }
  rewrite U. generalize (crc_bits (Z.shiftl (Z.shiftr x 8) 8)), (crc_bits (Z.shiftl (bz b) 8)), (u16 (Z.shiftl (u8 x) 8)).
  intros p q r. apply Z.bits_inj'. intros n Hn. rewrite !Z.lxor_spec.
  by destruct (Z.testbit p n), (Z.testbit q n), (Z.testbit r n).
Qed.

Lemma table1_byte a : 0 <= a < 256 -> tbl TABLE1 a = crc_bits (crc_bits (Z.shiftl a 8)).
Proof.
  intros H. apply Z.eqb_eq.
  refine (byte_range_check (fun a => tbl TABLE1 a =? crc_bits (crc_bits (Z.shiftl a 8))) _ a H). vm_compute. reflexivity.
Qed.

Lemma table2_byte a : 0 <= a < 256 -> tbl TABLE2 a = crc_bits (crc_bits (crc_bits (Z.shiftl a 8))).
Proof.
  intros H. apply Z.eqb_eq.
  refine (byte_range_check (fun a => tbl TABLE2 a =? crc_bits (crc_bits (crc_bits (Z.shiftl a 8)))) _ a H).
  vm_compute. reflexivity.
Qed.

Lemma table3_byte a : 0 <= a < 256 -> tbl TABLE3 a = crc_bits (crc_bits (crc_bits (crc_bits (Z.shiftl a 8)))).
Proof.
  intros H. apply Z.eqb_eq.
  refine (byte_range_check (fun a => tbl TABLE3 a =? crc_bits (crc_bits (crc_bits (crc_bits (Z.shiftl a 8))))) _ a H).
  vm_compute. reflexivity.
Qed.

(** Four bytes at once: by linearity each enters through its own table. *)
Lemma crc16_chunk_ok x c0 c1 c2 c3 : 0 <= x < 65536 ->
  crc16_chunk x c0 c1 c2 c3 = crc_enter (crc_enter (crc_enter (crc_enter x c0) c1) c2) c3.
Proof.
  intros H. destruct (halves x H) as [E R]. unfold crc16_chunk, crc_enter. rewrite u8_shiftr by exact H.
  pose proof (bz_range c0). pose proof (bz_range c1). pose proof (bz_range c2). pose proof (bz_range c3). pose proof (u8_range x).
  rewrite table3_byte, table2_byte, table1_byte, table_byte by (try apply lxor_range; lia).
  rewrite E at 3. rewrite !Z.shiftl_lxor, !crc_bits_lin, (crc_bits_low (u8 x)) by lia.
  assert (U : u16 (Z.shiftl (u8 x) 8) = Z.shiftl (u8 x) 8).
  { unfold u16. change 0xFFFF with (Z.ones 16). rewrite Z.land_ones by lia. rewrite Z.shiftl_mul_pow2 by lia. apply Z.mod_small. lia. }
  rewrite U.
  apply Z.bits_inj'. intros n Hn. rewrite !Z.lxor_spec. btauto.
Qed.

Lemma sliced_ok : forall n bytes x, (length bytes <= n)%nat -> 0 <= x < 65536 ->
  sliced crc16_chunk crc16_byte x bytes = foldl crc_enter x bytes.
Proof.
  assert (T : forall bytes x, 0 <= x < 65536 -> foldl crc16_byte x bytes = foldl crc_enter x bytes).
  { induction bytes as [|b r IH]; intros x H; cbn [foldl]; [reflexivity|].
    rewrite crc16_byte_ok by exact H. apply IH, crc_bits_range. }
  induction n as [|n IH]; intros bytes x Hn H.
  - destruct bytes; [reflexivity | cbn in Hn; lia].
  - destruct bytes as [|c0 [|c1 [|c2 [|c3 rest]]]]; cbn [sliced]; try (by apply T).
    cbn [foldl]. rewrite crc16_chunk_ok by exact H. apply IH; [cbn in Hn; lia | apply crc_bits_range].
Qed.

(** The sliced CRC16 is the shift register: four table lookups per four
    bytes, and one per byte of the tail, leave what eight shifts per byte
    leave, on every input. *)
Theorem crc16_is_the_shift_register (bytes : list byte) : crc16 bytes = crc16_spec bytes.
Proof. unfold crc16, crc16_spec. by rewrite (sliced_ok (length bytes)) by lia. Qed.

(** ** The tag *)

Lemma in_word_ok p word : length word = 8%nat ->
  in_word word (LO * bz p) = Z.of_nat <$> first_byte p word.
Proof.
  intros L. unfold in_word.
  assert (P : LO * bz p = from_le_bytes (replicate 8 p)) by (cbn [replicate from_le_bytes]; unfold LO; lia).
  rewrite P.
  assert (Z8 : forall w, Z.land (Z.land (wrapping_sub64 (Z.lxor w (from_le_bytes (replicate 8 p))) LO)
    (not64 (Z.lxor w (from_le_bytes (replicate 8 p))))) HI = zeroed p 8 w) by reflexivity.
  rewrite Z8. pose proof (zeroed_first p word) as H. rewrite L in H. destruct (first_byte p word) as [j|]; cbn [fmap option_fmap option_map].
  - destruct H as [N T]. destruct (Z.eqb_spec (zeroed p 8 (from_le_bytes word)) 0); [contradiction|]. cbn [negb].
    change (8 * 8)%nat with 64%nat in T. rewrite T. f_equal.
    rewrite (Z.mul_comm 8), Z.div_add_l by lia. change (7 / 8) with 0. lia.
  - by rewrite H.
Qed.

Lemma first_byte_app p l1 : forall l2,
  first_byte p (l1 ++ l2) = match first_byte p l1 with Some j => Some j | None => (fun j => (length l1 + j)%nat) <$> first_byte p l2 end.
Proof.
  induction l1 as [|b l1 IH]; intros l2; cbn.
  - by destruct (first_byte p l2).
  - destruct (b =b p); [reflexivity|]. rewrite IH. destruct (first_byte p l1); [reflexivity|]. by destruct (first_byte p l2).
Qed.

(** What has been searched before [i] holds no [p]. *)
Lemma find_words_ok p bytes : 8 <= blen bytes -> forall fuel i, 0 <= i -> blen bytes < i + Z.of_nat fuel ->
  i <= blen bytes -> first_byte p (take (Z.to_nat i) bytes) = None ->
  find_words fuel bytes (LO * bz p) i = position p bytes.
Proof.
  intros L8. unfold blen, position in *. induction fuel as [|fuel IH]; intros i Hi Hf Hn N; [lia|].
  cbn [find_words]. unfold blen. destruct (Z.leb_spec (i + 8) (Z.of_nat (length bytes))) as [Le|Gt].
  - assert (Ls : length (slice bytes i (i + 8)) = 8%nat) by (unfold slice; rewrite length_take, length_drop; lia).
    rewrite in_word_ok by exact Ls.
    assert (S : take (Z.to_nat (i + 8)) bytes = take (Z.to_nat i) bytes ++ slice bytes i (i + 8)).
    { unfold slice. replace (Z.to_nat (i + 8 - i)) with 8%nat by lia. replace (Z.to_nat (i + 8)) with (Z.to_nat i + 8)%nat by lia.
      by rewrite take_take_drop. }
    destruct (first_byte p (slice bytes i (i + 8))) as [j|] eqn:F; cbn [fmap option_fmap option_map].
    + assert (E : first_byte p bytes = Some (Z.to_nat i + j)%nat).
      { rewrite <- (take_drop (Z.to_nat (i + 8)) bytes), first_byte_app, S, first_byte_app, N, F. cbn. do 2 f_equal.
        rewrite length_take. lia. }
      rewrite E. cbn. f_equal. lia.
    + apply IH; [lia | lia | lia |]. by rewrite S, first_byte_app, N, F.
  - assert (D : bytes = take (length bytes - 8) bytes ++ from bytes (Z.of_nat (length bytes) - 8)).
    { unfold from. replace (Z.to_nat (Z.of_nat (length bytes) - 8)) with (length bytes - 8)%nat by lia. symmetry. apply take_drop. }
    assert (Pre : first_byte p (take (length bytes - 8) bytes) = None).
    { assert (Tk : take (length bytes - 8) bytes = take (length bytes - 8) (take (Z.to_nat i) bytes)) by (rewrite take_take; f_equal; lia).
      rewrite Tk. clear -N. revert N. generalize (take (Z.to_nat i) bytes), (length bytes - 8)%nat. intros l n N.
      rewrite <- (take_drop n l), first_byte_app in N. by destruct (first_byte p (take n l)). }
    destruct (Z.ltb_spec i (Z.of_nat (length bytes))) as [Lt|Ge].
    + rewrite in_word_ok by (unfold from; rewrite length_drop; lia).
      rewrite D at 3. rewrite first_byte_app, Pre. destruct (first_byte p (from bytes _)) as [j|]; cbn; [|reflexivity].
      f_equal. rewrite length_take. lia.
    + assert (i = Z.of_nat (length bytes)) as -> by lia. rewrite Nat2Z.id, firstn_all in N. by rewrite N.
Qed.

Lemma find_ok bytes b : find bytes b = position b bytes.
Proof.
  unfold find. destruct (Z.ltb_spec (blen bytes) 8); [reflexivity|].
  apply find_words_ok; try lia; unfold blen in *; [lia | reflexivity].
Qed.

(** The rule: the bytes between the first [{] and the first [}] after it,
    when there are some. *)
Definition hashtag_spec (key : list byte) : option (list byte) :=
  match first_byte OPEN key with
  | None => None
  | Some i =>
      let after := drop (S i) key in
      match first_byte CLOSE after with
      | None | Some O => None
      | Some n => Some (take n after)
      end
  end.

Lemma hashtag_ok key : hashtag key = hashtag_spec key.
Proof.
  unfold hashtag, hashtag_spec.
  assert (S : (match key with c :: _ => if c =b OPEN then Some 0 else find key OPEN | [] => find key OPEN end) = Z.of_nat <$> first_byte OPEN key).
  { rewrite find_ok. unfold position. destruct key as [|c r]; [reflexivity|]. cbn [first_byte]. by destruct (c =b OPEN). }
  rewrite S. destruct (first_byte OPEN key) as [i|]; cbn [fmap option_fmap option_map mbind option_bind]; [|reflexivity].
  unfold position, from. replace (Z.to_nat (Z.of_nat i + 1)) with (Datatypes.S i) by lia.
  destruct (first_byte CLOSE (drop (Datatypes.S i) key)) as [n|]; cbn [fmap option_fmap option_map mbind option_bind]; [|reflexivity].
  destruct n as [|n]; [reflexivity|]. cbn -[slice take]. unfold slice. cbn -[take]. do 2 f_equal. lia.
Qed.

(** The slot of a key is the CRC16, by its definition, of the key's hashtag,
    by its rule, or of the whole key when it has none, in the range of the
    cluster's 16384 slots. *)
Theorem slot_follows_the_cluster_rule (key : list byte) :
  key_hash_slot key = crc16_spec (default key (hashtag_spec key)) mod 16384 /\ 0 <= key_hash_slot key < 16384.
Proof.
  assert (E : key_hash_slot key = crc16_spec (default key (hashtag_spec key)) mod 16384).
  { unfold key_hash_slot. rewrite hashtag_ok. change 0x3FFF with (Z.ones 14). rewrite Z.land_ones by lia.
    unfold crc16, crc16_spec. by rewrite (sliced_ok (length (default key (hashtag_spec key)))) by lia. }
  split; [exact E|]. rewrite E. apply Z.mod_pos_bound. lia.
Qed.

(** ** The finalizer loses nothing *)

(** Both kinds of step of [fmix64] backwards: a shift past half the word is
    its own inverse, and an odd multiplier has one. *)
Definition unfmix64 (h : Z) : Z :=
  let h := Z.lxor h (Z.shiftr h 33) in
  let h := wrapping_mul h 0x9cb4b2f8129337db in
  let h := Z.lxor h (Z.shiftr h 33) in
  let h := wrapping_mul h 0x4f74430c22a54005 in
  Z.lxor h (Z.shiftr h 33).

Lemma shiftr_word x : 0 <= x < 2 ^ 64 -> 0 <= Z.shiftr x 33 < 2 ^ 64.
Proof.
  intros H. rewrite Z.shiftr_div_pow2 by lia. split; [apply Z.div_pos; lia | apply Z.div_lt_upper_bound; lia].
Qed.

Lemma lxor_word a b : 0 <= a < 2 ^ 64 -> 0 <= b < 2 ^ 64 -> 0 <= Z.lxor a b < 2 ^ 64.
Proof.
  intros Ha Hb. replace (Z.lxor a b) with (Z.lxor a b mod 2 ^ 64); [apply Z.mod_pos_bound; lia|].
  rewrite <- Z.land_ones, land_lxor, !Z.land_ones, !Z.mod_small by lia. done.
Qed.

Lemma xorshift_word x : 0 <= x < 2 ^ 64 -> 0 <= Z.lxor x (Z.shiftr x 33) < 2 ^ 64.
Proof. intros H. apply lxor_word; [exact H | by apply shiftr_word]. Qed.

Lemma xorshift_twice x : 0 <= x < 2 ^ 64 ->
  Z.lxor (Z.lxor x (Z.shiftr x 33)) (Z.shiftr (Z.lxor x (Z.shiftr x 33)) 33) = x.
Proof.
  intros H. rewrite Z.shiftr_lxor, Z.shiftr_shiftr by lia.
  replace (Z.shiftr x (33 + 33)) with 0.
  - rewrite Z.lxor_0_r, Z.lxor_assoc, Z.lxor_nilpotent. apply Z.lxor_0_r.
  - rewrite Z.shiftr_div_pow2 by lia. symmetry. apply Z.div_small. lia.
Qed.

Lemma wrapping_mul_word x y : 0 <= wrapping_mul x y < 2 ^ 64.
Proof. apply Z.mod_pos_bound. lia. Qed.

Lemma wrapping_mul_inv x c d : 0 <= x < 2 ^ 64 -> u64 (c * d) = 1 -> wrapping_mul (wrapping_mul x c) d = x.
Proof.
  unfold wrapping_mul, u64. intros H E. rewrite Z.mul_mod_idemp_l, <- Z.mul_assoc, <- Z.mul_mod_idemp_r, E by lia.
  rewrite Z.mul_1_r. by apply Z.mod_small.
Qed.

Create HintDb word.
#[local] Hint Resolve xorshift_word wrapping_mul_word : word.

Lemma unfmix_fmix h : 0 <= h < 2 ^ 64 -> unfmix64 (fmix64 h) = h.
Proof.
  intros H. unfold unfmix64, fmix64. cbv zeta.
  rewrite xorshift_twice by auto with word. rewrite wrapping_mul_inv by (auto with word || reflexivity).
  rewrite xorshift_twice by auto with word. rewrite wrapping_mul_inv by (auto with word || reflexivity).
  by apply xorshift_twice.
Qed.

Lemma fmix_unfmix h : 0 <= h < 2 ^ 64 -> fmix64 (unfmix64 h) = h.
Proof.
  intros H. unfold unfmix64, fmix64. cbv zeta.
  rewrite xorshift_twice by auto with word. rewrite wrapping_mul_inv by (auto with word || reflexivity).
  rewrite xorshift_twice by auto with word. rewrite wrapping_mul_inv by (auto with word || reflexivity).
  by apply xorshift_twice.
Qed.

(** The finalizer permutes the 64-bit words, and the hash of an integer key
    is such a permutation too: two integers never share a hash. *)
Theorem fmix64_is_a_permutation (h h' : Z) :
  0 <= h < 2 ^ 64 -> 0 <= h' < 2 ^ 64 ->
  0 <= fmix64 h < 2 ^ 64 /\ (exists g, 0 <= g < 2 ^ 64 /\ fmix64 g = h) /\
  (fmix64 h = fmix64 h' -> h = h') /\ (hash_u64 h = hash_u64 h' -> h = h').
Proof.
  intros H H'.
  assert (F : forall a b, 0 <= a < 2 ^ 64 -> 0 <= b < 2 ^ 64 -> fmix64 a = fmix64 b -> a = b).
  { intros a b Ha Hb E. by rewrite <- (unfmix_fmix a Ha), E, unfmix_fmix. }
  split_and!.
  - unfold fmix64. cbv zeta. apply xorshift_word, wrapping_mul_word.
  - unfold fmix64. cbv zeta. apply xorshift_word, wrapping_mul_word.
  - exists (unfmix64 h). split; [unfold unfmix64; cbv zeta; apply xorshift_word, wrapping_mul_word | by apply fmix_unfmix].
  - by apply F.
  - unfold hash_u64. intros E. apply F in E; [|apply wrapping_mul_word..].
    unfold mix in E. change (rotate_left 0 ROTATE) with 0 in E. rewrite !Z.lxor_0_l in E.
    rewrite <- (wrapping_mul_inv h SEED 0x2040003d780970bd), E by (assumption || reflexivity).
    by apply wrapping_mul_inv.
Qed.

Lemma fmix64_is_a_permutation_witness : 0 <= fmix64 7 < 2 ^ 64 /\ (fmix64 7 = fmix64 8 -> 7 = 8).
Proof. destruct (fmix64_is_a_permutation 7 8) as (A & _ & B & _); [lia.. |]. split; [exact A | exact B]. Defined.
