(* ===== verification/Map.v ===== *)
(** * The hash table ([crates/kevy-map/src]: [map.rs], [map_keyed.rs], [group.rs], [grow.rs],
    [alloc.rs], [aux.rs], [slot.rs], [raw_entry.rs], [iter.rs], [clone.rs], [scan.rs], [set.rs])

    An open-addressing table: one metadata byte per slot, a tail of sixteen
    bytes that mirrors the first sixteen, and probing by groups of sixteen
    from [hash & mask].  A slot is an [option]: [None] is memory that holds
    no live pair.  The raw reads and writes of the code are checked here:
    one outside its array, or of a slot that holds nothing, is [Undef].  The
    hash function is the key type's [KevyHash], an argument. *)

From Stdlib Require Import ZArith Lia Bool.
From stdpp Require Import base list.
From S2P Require Import Prelude.

#[local] Open Scope list_scope.
#[local] Open Scope Z_scope.

(** What a piece of the table's code comes to: a value, an access outside
    what is initialised, a loop that outlived its fuel, or a panic on a
    capacity no allocation could have. *)
Inductive outcome (A : Type) : Type := Done (a : A) | Undef | Spin | TooBig.
Arguments Done {A} a.
Arguments Undef {A}.
Arguments Spin {A}.
Arguments TooBig {A}.

#[export] Instance outcome_bind : MBind outcome := fun A B f x =>
  match x with Done a => f a | Undef => Undef | Spin => Spin | TooBig => TooBig end.

Definition GROUP_WIDTH : nat := 16.
Definition EMPTY : Z := 0xFF.
Definition DELETED : Z := 0x80.
Definition MIN_CAP : nat := 16.

Definition h2 (hash : Z) : Z := Z.land (Z.shiftr hash 57) 0x7F.

(** ** Groups

    A match mask is one flag per slot, low slot first: what the encodings of
    the SIMD paths have in common. *)

Abbreviation BitMask := (list bool).

Definition match_byte (g : list Z) (b : Z) : BitMask := (fun x => x =? b) <$> g.

(** The set slots, low to high. *)
Fixpoint bm_iter (i : nat) (m : BitMask) : list nat :=
  match m with
  | [] => []
  | true :: r => i :: bm_iter (S i) r
  | false :: r => bm_iter (S i) r
  end.

Definition lowest_set (m : BitMask) : option nat := head (bm_iter 0 m).
Definition bm_is_empty (m : BitMask) : bool := match bm_iter 0 m with [] => true | _ => false end.

(** [slot_mask().trailing_zeros()] and [.leading_zeros()] *)
Fixpoint trailing_zeros (m : BitMask) : nat :=
  match m with false :: r => S (trailing_zeros r) | _ => O end.
Definition leading_zeros (m : BitMask) : nat := trailing_zeros (reverse m).

Section Table.
Context {K V : Type} `{EqDecision K} (kevy_hash : K -> Z).
(** The size and alignment of a pair, and whether the system maps a region. *)
Context (kv_size kv_align : Z) (mmap_ok : Z -> bool).

Record KevyMap := mkMap {
  slots : list (option (K * V));
  metadata : list Z;
  cap : nat;
  occupied : nat;
  deleted : nat;
  mmap_backed : bool;
  auxw : option (list Z)
}.

Definition map_new : KevyMap := mkMap [] [] 0 0 0 false None.

Definition mask (t : KevyMap) : Z := Z.of_nat (cap t) - 1.
(** [i & mask] *)
Definition wrap (t : KevyMap) (i : nat) : nat := Z.to_nat (Z.land (Z.of_nat i) (mask t)).
Definition home (t : KevyMap) (hash : Z) : nat := Z.to_nat (Z.land hash (mask t)).

Definition threshold (t : KevyMap) : nat := (cap t - cap t / 8)%nat.
Definition len (t : KevyMap) : nat := occupied t.

(** ** Allocation *)

Definition isize_max : Z := 2 ^ 63 - 1.
Definition next_multiple_of (x m : Z) : Z := if x mod m =? 0 then x else x + (m - x mod m).

(** The size of the one buffer; [None] when no layout can have it. *)
Definition table_layout (c : nat) : option Z :=
  let c := Z.of_nat c in
  let size := next_multiple_of (c * kv_size + (c + 16)) kv_align in
  if size <=? isize_max then Some size else None.

Definition THP_BACKED_THRESHOLD : Z := 1024 * 1024.
Definition HUGE_PAGE : Z := 2 * 1024 * 1024.

Definition alloc_table (c : nat) : outcome KevyMap :=
  match table_layout c with
  | None => TooBig
  | Some size =>
      let mapped := (THP_BACKED_THRESHOLD <=? size) && mmap_ok size in
      Done (mkMap (replicate c None) (replicate (c + GROUP_WIDTH) EMPTY) c 0 0 mapped None)
  end.

Definition with_capacity (cap_hint : nat) : outcome KevyMap :=
  if (cap_hint =? 0)%nat then Done map_new
  else
    let needed := Z.min (Z.of_nat cap_hint * 8) u64_max in
    let needed := (needed + 6) / 7 in
    alloc_table (Nat.max (Z.to_nat (2 ^ Z.log2_up needed)) MIN_CAP).

Definition malloc_footprint (size : Z) : Z :=
  let chunk := Z.max (Z.ldiff (size + 8 + 15) 15) 32 in
  if size =? 0 then 0 else chunk.

Definition lane_footprint (c : nat) : Z :=
  malloc_footprint 16 + (if (c =? 0)%nat then 0 else malloc_footprint (Z.of_nat c * 8)).

Definition aux_footprint (t : KevyMap) : Z :=
  match auxw t with Some lane => lane_footprint (length lane) | None => 0 end.

Definition map_footprint (t : KevyMap) : Z :=
  if (cap t =? 0)%nat then 0
  else
    let size := next_multiple_of (Z.of_nat (cap t) * (kv_size + 1) + 16) kv_align in
    (if mmap_backed t then next_multiple_of size HUGE_PAGE else malloc_footprint size) + aux_footprint t.

Definition room (t : KevyMap) : nat :=
  if (cap t =? 0)%nat then O else (threshold t - (occupied t + deleted t))%nat.

Definition grows_on_insert (t : KevyMap) : bool :=
  (cap t =? 0)%nat || (threshold t <=? occupied t + deleted t)%nat.

(** ** Bytes and slots *)

Definition load (t : KevyMap) (i : nat) : outcome (list Z) :=
  if (i + GROUP_WIDTH <=? length (metadata t))%nat then Done (take GROUP_WIDTH (drop i (metadata t))) else Undef.

Definition set_metadata (ms : list Z) (t : KevyMap) : KevyMap :=
  mkMap (slots t) ms (cap t) (occupied t) (deleted t) (mmap_backed t) (auxw t).
Definition set_slots (ss : list (option (K * V))) (t : KevyMap) : KevyMap :=
  mkMap ss (metadata t) (cap t) (occupied t) (deleted t) (mmap_backed t) (auxw t).
Definition set_counts (o d : nat) (t : KevyMap) : KevyMap :=
  mkMap (slots t) (metadata t) (cap t) o d (mmap_backed t) (auxw t).
Definition set_auxw (a : option (list Z)) (t : KevyMap) : KevyMap :=
  mkMap (slots t) (metadata t) (cap t) (occupied t) (deleted t) (mmap_backed t) a.

(** The byte and its mirror: [((i - 16) & mask) + 16]. *)
Definition set_meta (i : nat) (v : Z) (t : KevyMap) : outcome KevyMap :=
  let i2 := (Z.to_nat (Z.land ((Z.of_nat i - 16) mod 2 ^ 64) (mask t)) + GROUP_WIDTH)%nat in
  if (i <? length (metadata t))%nat && (i2 <? length (metadata t))%nat
  then Done (set_metadata (<[i2 := v]> (<[i := v]> (metadata t))) t)
  else Undef.

Definition read_slot (t : KevyMap) (i : nat) : outcome (K * V) :=
  match slots t !! i with Some (Some kv) => Done kv | _ => Undef end.

Definition write_slot (i : nat) (kv : option (K * V)) (t : KevyMap) : outcome KevyMap :=
  if (i <? length (slots t))%nat then Done (set_slots (<[i := kv]> (slots t)) t) else Undef.

Definition reset_aux (i : nat) (t : KevyMap) : KevyMap :=
  match auxw t with Some lane => set_auxw (Some (<[i := 0]> lane)) t | None => t end.

Definition read_meta (t : KevyMap) (i : nat) : outcome Z :=
  match metadata t !! i with Some b => Done b | None => Undef end.

Definition is_full (b : Z) : bool := Z.land b 0x80 =? 0.

Definition slot_is_full (t : KevyMap) (i : nat) : bool :=
  (i <? cap t)%nat && match metadata t !! i with Some b => is_full b | None => false end.

(** ** Probing *)

Inductive ProbeOutcome : Type := PFound (i : nat) | PNotFound (insert_at : nat) (via_tombstone : bool).

(** The candidates of one group: the slots whose byte matched. *)
Fixpoint try_slots (t : KevyMap) (key : K) (gs : nat) (ms : list nat) : outcome (option nat) :=
  match ms with
  | [] => Done None
  | m :: r =>
      let slot := wrap t (gs + m) in
      kv ← read_slot t slot;
      if decide (kv.1 = key) then Done (Some slot) else try_slots t key gs r
  end.

Fixpoint probe_fast (fuel : nat) (t : KevyMap) (key : K) (h2v : Z) (gs : nat) : outcome ProbeOutcome :=
  match fuel with
  | O => Spin
  | S fuel =>
      g ← load t gs;
      hit ← try_slots t key gs (bm_iter 0 (match_byte g h2v));
      match hit with
      | Some slot => Done (PFound slot)
      | None =>
          match lowest_set (match_byte g EMPTY) with
          | Some m => Done (PNotFound (wrap t (gs + m)) false)
          | None => probe_fast fuel t key h2v (wrap t (gs + GROUP_WIDTH))
          end
      end
  end.

Fixpoint probe_slow (fuel : nat) (t : KevyMap) (key : K) (h2v : Z) (gs : nat) (first_deleted : option nat)
  : outcome ProbeOutcome :=
  match fuel with
  | O => Spin
  | S fuel =>
      g ← load t gs;
      hit ← try_slots t key gs (bm_iter 0 (match_byte g h2v));
      match hit with
      | Some slot => Done (PFound slot)
      | None =>
          let first_deleted :=
            match first_deleted, lowest_set (match_byte g DELETED) with
            | None, Some m => Some (wrap t (gs + m))
            | f, _ => f
            end in
          match lowest_set (match_byte g EMPTY) with
          | Some m =>
              Done (PNotFound (default (wrap t (gs + m)) first_deleted)
                              (match first_deleted with Some _ => true | None => false end))
          | None => probe_slow fuel t key h2v (wrap t (gs + GROUP_WIDTH)) first_deleted
          end
      end
  end.

(** [probe_with_key] and [probe_by_borrow]: a table has [cap / 16] groups on
    a probe's way. *)
Definition probe (t : KevyMap) (key : K) : outcome ProbeOutcome :=
  if (cap t =? 0)%nat then Done (PNotFound 0 false)
  else
    let hash := kevy_hash key in
    let h2v := h2 hash in
    let gs := home t hash in
    if (deleted t =? 0)%nat then probe_fast (cap t) t key h2v gs
    else probe_slow (cap t) t key h2v gs None.

Fixpoint find_loop (fuel : nat) (t : KevyMap) (key : K) (h2v : Z) (gs : nat) : outcome (option nat) :=
  match fuel with
  | O => Spin
  | S fuel =>
      g ← load t gs;
      hit ← try_slots t key gs (bm_iter 0 (match_byte g h2v));
      match hit with
      | Some slot => Done (Some slot)
      | None =>
          if negb (bm_is_empty (match_byte g EMPTY)) then Done None
          else find_loop fuel t key h2v (wrap t (gs + GROUP_WIDTH))
      end
  end.

Definition find_by_borrow (t : KevyMap) (key : K) : outcome (option nat) :=
  if (cap t =? 0)%nat then Done None
  else let hash := kevy_hash key in find_loop (cap t) t key (h2 hash) (home t hash).

(** ** Growth *)

Fixpoint ins_known_loop (fuel : nat) (t : KevyMap) (h2v : Z) (k : K) (v : V) (gs : nat) : outcome (KevyMap * nat) :=
  match fuel with
  | O => Spin
  | S fuel =>
      g ← load t gs;
      match lowest_set (match_byte g EMPTY) with
      | Some m =>
          let slot := wrap t (gs + m) in
          t ← set_meta slot h2v t;
          t ← write_slot slot (Some (k, v)) t;
          Done (set_counts (S (occupied t)) (deleted t) t, slot)
      | None => ins_known_loop fuel t h2v k v (wrap t (gs + GROUP_WIDTH))
      end
  end.

Definition insert_known_unique (hash : Z) (k : K) (v : V) (t : KevyMap) : outcome (KevyMap * nat) :=
  ins_known_loop (cap t) t (h2 hash) k v (home t hash).

(** [move_slot]: the old table's byte becomes a tombstone, which nothing
    reads again; the pair and its side word go to the new one. *)
Definition move_slot (old : KevyMap) (i : nat) (to : KevyMap) : outcome KevyMap :=
  meta ← read_meta old i;
  if negb (is_full meta) then Done to
  else
    kv ← read_slot old i;
    let '(k, v) := kv in
    r ← insert_known_unique (kevy_hash k) k v to;
    let '(to, at_) := r in
    match auxw old, auxw to with
    | Some lo, Some ln =>
        match lo !! i with
        | Some w => if (at_ <? length ln)%nat then Done (set_auxw (Some (<[at_ := w]> ln)) to) else Undef
        | None => Undef
        end
    | _, _ => Done to
    end.

Fixpoint move_slots (old : KevyMap) (is_ : list nat) (to : KevyMap) : outcome KevyMap :=
  match is_ with
  | [] => Done to
  | i :: r => to ← move_slot old i to; move_slots old r to
  end.

Definition grow (t : KevyMap) : outcome KevyMap :=
  let new_cap := if (cap t =? 0)%nat then MIN_CAP else (cap t * 2)%nat in
  new ← alloc_table new_cap;
  let new := match auxw t with Some _ => set_auxw (Some (replicate new_cap 0)) new | None => new end in
  move_slots t (seq 0 (cap t)) new.

Definition maybe_grow (t : KevyMap) : outcome KevyMap := if grows_on_insert t then grow t else Done t.

(** ** Insertion, lookup, removal *)

Definition insert_with_room (key : K) (value : V) (t : KevyMap) : outcome (KevyMap * nat * option V) :=
  o ← probe t key;
  match o with
  | PFound idx =>
      kv ← read_slot t idx;
      t ← write_slot idx (Some (kv.1, value)) t;
      Done (t, idx, Some kv.2)
  | PNotFound insert_at via_tombstone =>
      t ← set_meta insert_at (h2 (kevy_hash key)) t;
      t ← write_slot insert_at (Some (key, value)) t;
      let t := reset_aux insert_at t in
      let d := if via_tombstone : bool then (deleted t - 1)%nat else deleted t in
      Done (set_counts (S (occupied t)) d t, insert_at, None)
  end.

Definition map_insert_slot (key : K) (value : V) (t : KevyMap) : outcome (KevyMap * nat * option V) :=
  t ← maybe_grow t; insert_with_room key value t.

Definition map_insert (key : K) (value : V) (t : KevyMap) : outcome (KevyMap * option V) :=
  r ← map_insert_slot key value t; let '(t, _, old) := r in Done (t, old).

Definition map_get (key : K) (t : KevyMap) : outcome (option V) :=
  o ← find_by_borrow t key;
  match o with
  | None => Done None
  | Some idx => kv ← read_slot t idx; Done (Some kv.2)
  end.

Definition contains_key (key : K) (t : KevyMap) : outcome bool :=
  o ← find_by_borrow t key; Done (match o with Some _ => true | None => false end).

(** [get_mut]: the value [f] leaves behind. *)
Definition map_update (key : K) (f : V -> V) (t : KevyMap) : outcome KevyMap :=
  o ← find_by_borrow t key;
  match o with
  | None => Done t
  | Some idx => kv ← read_slot t idx; write_slot idx (Some (kv.1, f kv.2)) t
  end.

Definition erase_mark (t : KevyMap) (idx : nat) : outcome Z :=
  let before := Z.to_nat (Z.land ((Z.of_nat idx - 16) mod 2 ^ 64) (mask t)) in
  gb ← load t before;
  ga ← load t idx;
  let empty_before := leading_zeros (match_byte gb EMPTY) in
  let empty_after := trailing_zeros (match_byte ga EMPTY) in
  Done (if (GROUP_WIDTH <=? empty_before + empty_after)%nat then DELETED else EMPTY).

(** The pair of [idx] moved out under [mark]. *)
Definition erase_at (idx : nat) (mark : Z) (t : KevyMap) : outcome (KevyMap * V) :=
  t ← set_meta idx mark t;
  kv ← read_slot t idx;
  t ← write_slot idx None t;
  let d := if mark =? DELETED then S (deleted t) else deleted t in
  Done (set_counts (occupied t - 1)%nat d t, kv.2).

Definition map_remove (key : K) (t : KevyMap) : outcome (KevyMap * option V) :=
  o ← find_by_borrow t key;
  match o with
  | None => Done (t, None)
  | Some idx =>
      mark ← erase_mark t idx;
      r ← erase_at idx mark t;
      let '(t, v) := r in Done (t, Some v)
  end.

(** [RawOccupiedEntryMut::remove], after its probe: always a tombstone. *)
Definition raw_entry_remove (key : K) (t : KevyMap) : outcome (KevyMap * option V) :=
  o ← probe t key;
  match o with
  | PNotFound _ _ => Done (t, None)
  | PFound idx => r ← erase_at idx DELETED t; let '(t, v) := r in Done (t, Some v)
  end.

Definition map_clear (t : KevyMap) : KevyMap :=
  if (cap t =? 0)%nat then t
  else mkMap (replicate (cap t) None) (replicate (cap t + GROUP_WIDTH) EMPTY) (cap t) 0 0 (mmap_backed t) (auxw t).

(** ** Side words *)

Definition enable_aux (t : KevyMap) : KevyMap * bool :=
  match auxw t with
  | Some _ => (t, false)
  | None => (set_auxw (Some (replicate (cap t) 0)) t, true)
  end.

Definition map_aux (i : nat) (t : KevyMap) : option Z :=
  match auxw t with
  | None => None
  | Some lane => if slot_is_full t i then lane !! i else None
  end.

(** [aux_mut]: the word [f] leaves behind. *)
Definition aux_mut (i : nat) (f : Z -> Z) (t : KevyMap) : KevyMap :=
  match auxw t with
  | Some lane => if slot_is_full t i then set_auxw (Some (alter f i lane)) t else t
  | None => t
  end.

(** ** Walks *)

Fixpoint walk (ms : list Z) (ss : list (option (K * V))) : outcome (list (K * V)) :=
  match ms, ss with
  | m :: ms, s :: ss =>
      if is_full m then
        match s with
        | Some kv => r ← walk ms ss; Done (kv :: r)
        | None => Undef
        end
      else walk ms ss
  | _, _ => Done []
  end.

Definition iter (t : KevyMap) : outcome (list (K * V)) := walk (take (cap t) (metadata t)) (slots t).

Definition iter_from_bucket (start : nat) (t : KevyMap) : outcome (list (K * V)) :=
  let start := Nat.min start (cap t) in
  walk (drop start (take (cap t) (metadata t))) (drop start (slots t)).

(** [f] is the list of the pairs it is called with. *)
Definition scan_buckets (start count : nat) (t : KevyMap) : outcome (list (K * V) * nat) :=
  let end_ := Nat.min (start + count) (cap t) in
  r ← walk (take (end_ - start) (drop start (metadata t))) (take (end_ - start) (drop start (slots t)));
  Done (r, end_).

(** [visit_home_group]: from offset [off] on, [todo] buckets left; [past]
    counts down after the EMPTY that ends the run. *)
Fixpoint visit_loop (todo : nat) (t : KevyMap) (g start off : nat) (past : option nat) : outcome (list (K * V)) :=
  match todo with
  | O => Done []
  | S todo =>
      let p := wrap t (start + off) in
      meta ← read_meta t p;
      here ← (if is_full meta then
                kv ← read_slot t p;
                Done (if (home t (kevy_hash kv.1) / GROUP_WIDTH =? g)%nat then [kv] else [])
              else Done []);
      match past with
      | Some O => Done here
      | Some (S n) => r ← visit_loop todo t g start (S off) (Some n); Done (here ++ r)
      | None =>
          let past := if (meta =? EMPTY) && (GROUP_WIDTH <=? off + 1)%nat then Some (GROUP_WIDTH - 1)%nat else None in
          r ← visit_loop todo t g start (S off) past; Done (here ++ r)
      end
  end.

Definition visit_home_group (g : nat) (t : KevyMap) : outcome (list (K * V)) :=
  visit_loop (cap t) t g (g * GROUP_WIDTH)%nat 0 None.

(** [u64::reverse_bits] *)
Fixpoint rev_bits (n : nat) (x acc : Z) : Z :=
  match n with O => acc | S n => rev_bits n (x / 2) (2 * acc + x mod 2) end.
Definition reverse_bits (x : Z) : Z := rev_bits 64 x 0.

Definition scan_step (cursor : Z) (t : KevyMap) : outcome (list (K * V) * Z) :=
  if (cap t =? 0)%nat then Done ([], 0)
  else
    let ngroups := Z.of_nat (cap t / GROUP_WIDTH) in
    let gmask := ngroups - 1 in
    r ← visit_home_group (Z.to_nat (Z.land cursor gmask)) t;
    let v := reverse_bits (Z.lor cursor (2 ^ 64 - 1 - gmask)) in
    Done (r, reverse_bits ((v + 1) mod 2 ^ 64)).

(** [Clone]: the same bytes and pairs in a table of the same capacity. *)
Fixpoint clone_loop (src : KevyMap) (is_ : list nat) (t : KevyMap) : outcome KevyMap :=
  match is_ with
  | [] => Done t
  | i :: r =>
      meta ← read_meta src i;
      t ← (if is_full meta then
             kv ← read_slot src i;
             t ← write_slot i (Some kv) t;
             set_meta i meta t
           else if meta =? DELETED then set_meta i DELETED t
           else Done t);
      clone_loop src r t
  end.

Definition map_clone (t : KevyMap) : outcome KevyMap :=
  if (cap t =? 0)%nat then Done map_new
  else
    new ← alloc_table (cap t);
    new ← clone_loop t (seq 0 (cap t)) new;
    Done (set_auxw (auxw t) (set_counts (occupied t) (deleted t) new)).
End Table.
