(* ===== verification/MapSpec.v ===== *)
(** * The hash table is a finite map ([crates/kevy-map/src])

    The table's invariant, that every operation of [Map] keeps it, and that
    the operations are those of a finite map.  Under the invariant no probe
    reads memory that holds nothing, and every probe ends. *)

From Stdlib Require Import ZArith Lia Bool.
From stdpp Require Import base list gmap.
From S2P Require Import Prelude Map.

#[local] Open Scope list_scope.
#[local] Open Scope nat_scope.

(** ** Masks *)

Lemma match_byte_lookup g b m : match_byte g b !! m = (fun x => Z.eqb x b) <$> g !! m.
Proof. apply list_lookup_fmap. Qed.

Lemma bm_iter_elem : forall l i m, m ∈ bm_iter i l <-> i <= m /\ l !! (m - i) = Some true.
Proof.
  induction l as [|x l IH]; intros i m; cbn [bm_iter].
  - split; [intros H; inversion H | intros [_ H]; rewrite lookup_nil in H; discriminate].
  - assert (S : m <> i -> i <= m -> (x :: l) !! (m - i) = l !! (m - S i))
      by (intros N L; replace (m - i) with (S (m - S i)) by lia; reflexivity).
    destruct x.
    + rewrite elem_of_cons, IH. destruct (decide (m = i)) as [->|N].
      * rewrite Nat.sub_diag. cbn. split; auto.
      * split; [intros [E|[L H]]; [contradiction|] | intros [L H]; right]; split; try lia.
        -- rewrite S by lia. exact H.
        -- rewrite <- S by lia. exact H.
    + rewrite IH. destruct (decide (m = i)) as [->|N].
      * rewrite Nat.sub_diag. cbn. split; [lia | intros [_ H]; discriminate].
      * split; intros [L H]; (split; [lia|]); [rewrite S by lia | rewrite <- S by lia]; exact H.
Qed.

Lemma matches_elem g b m : m ∈ bm_iter 0 (match_byte g b) <-> g !! m = Some b.
Proof.
  rewrite bm_iter_elem, Nat.sub_0_r, match_byte_lookup. destruct (g !! m) as [x|]; cbn.
  - split; [intros [_ [= H]] | intros [= ->]; split; [lia|]]; [apply Z.eqb_eq in H; by subst | by rewrite Z.eqb_refl].
  - split; [intros [_ H] | intros H]; discriminate.
Qed.

Lemma lowest_set_Some g b m : lowest_set (match_byte g b) = Some m -> g !! m = Some b.
Proof.
  unfold lowest_set. intros H. apply matches_elem. destruct (bm_iter 0 (match_byte g b)) as [|x r]; [discriminate|].
  injection H as ->. left.
Qed.

Lemma lowest_set_None g b : lowest_set (match_byte g b) = None -> forall m, g !! m <> Some b.
Proof.
  unfold lowest_set. intros H m E%matches_elem. destruct (bm_iter 0 (match_byte g b)); [inversion E | discriminate].
Qed.

Lemma bm_is_empty_lowest g b :
  negb (bm_is_empty (match_byte g b)) = match lowest_set (match_byte g b) with Some _ => true | None => false end.
Proof. unfold bm_is_empty, lowest_set. by destruct (bm_iter 0 _). Qed.

Lemma trailing_zeros_ge m : forall n, (forall i, i < n -> m !! i = Some false) -> n <= trailing_zeros m.
Proof.
  induction m as [|x m IH]; intros [|n] H; try lia.
  - specialize (H 0 ltac:(lia)). discriminate.
  - pose proof (H 0 ltac:(lia)) as [= ->]. cbn. apply le_n_S, IH. intros i Hi. apply (H (S i)). lia.
Qed.

Lemma leading_zeros_ge m n : n <= length m -> (forall i, i < n -> m !! (length m - 1 - i) = Some false) -> n <= leading_zeros m.
Proof.
  intros L H. apply trailing_zeros_ge. intros i Hi. rewrite reverse_lookup by lia. 
  replace (length m - S i) with (length m - 1 - i) by lia. by apply H.
Qed.

(** ** Counting bytes *)

Definition cnt (P : Z -> bool) (ms : list Z) : nat := length (filter (fun b => P b = true) ms).
Definition one (b : bool) : nat := if b then 1 else 0.
#[local] Arguments cnt : simpl never.

Lemma cnt_cons P x ms : cnt P (x :: ms) = one (P x) + cnt P ms.
Proof. unfold cnt, one. rewrite filter_cons. destruct (P x) eqn:E; destruct (decide _); cbn; congruence. Qed.

Lemma cnt_insert P : forall ms i x y, ms !! i = Some x -> cnt P (<[i := y]> ms) + one (P x) = cnt P ms + one (P y).
Proof.
  induction ms as [|z ms IH]; intros [|i] x y H; cbn in H; try discriminate.
  - injection H as ->. cbn. rewrite !cnt_cons. lia.
  - change (<[S i := y]> (z :: ms)) with (z :: <[i := y]> ms). rewrite !cnt_cons. specialize (IH i x y H). lia.
Qed.

Lemma cnt_replicate P n x : cnt P (replicate n x) = n * one (P x).
Proof. induction n as [|n IH]; [reflexivity|]. cbn [replicate]. rewrite cnt_cons, IH. lia. Qed.

Lemma cnt_exists P ms : 0 < cnt P ms -> exists i b, ms !! i = Some b /\ P b = true.
Proof.
  induction ms as [|x ms IH]; [unfold cnt; cbn; lia|]. rewrite cnt_cons. destruct (P x) eqn:E; cbn.
  - intros _. by exists 0, x.
  - intros H. destruct (IH H) as (i & b & Hi & Hb). by exists (S i), b.
Qed.

Lemma cnt_le P ms : cnt P ms <= length ms.
Proof. apply length_filter. Qed.

Lemma cnt_pos P ms i b : ms !! i = Some b -> P b = true -> 0 < cnt P ms.
Proof.
  intros Hi Hb. pose proof (cnt_insert P ms i b b Hi) as E. unfold cnt.
  destruct (filter (fun b => P b = true) ms) eqn:F; [|cbn; lia].
  assert (In : b ∈ filter (fun b => P b = true) ms) by (apply list_elem_of_filter; split; [exact Hb | by apply list_elem_of_lookup_2 with i]).
  rewrite F in In. inversion In.
Qed.

(** ** Positions around the table *)

Section Cyclic.
Context (c : nat) (Hc : 0 < c).

Definition off (h p : nat) : nat := (p + (c - h)) mod c.

Lemma at_off h p : h < c -> p < c -> (h + off h p) mod c = p.
Proof using Hc.
  intros Hh Hp. unfold off. rewrite Nat.Div0.add_mod_idemp_r.
  replace (h + (p + (c - h))) with (p + 1 * c) by lia. rewrite Nat.Div0.mod_add. by apply Nat.mod_small.
Qed.

Lemma off_at h o : h < c -> o < c -> off h ((h + o) mod c) = o.
Proof using Hc.
  intros Hh Ho. unfold off. rewrite Nat.Div0.add_mod_idemp_l.
  replace (h + o + (c - h)) with (o + 1 * c) by lia. rewrite Nat.Div0.mod_add. by apply Nat.mod_small.
Qed.

Lemma off_lt h p : off h p < c.
Proof using Hc. unfold off. apply Nat.mod_upper_bound. lia. Qed.
End Cyclic.

(** ** The invariant *)

Definition pow2 (c : nat) : Prop := exists n, 4 <= n <= 62 /\ c = 2 ^ n.

Lemma pow2_groups c : pow2 c -> 16 <= c /\ c = 16 * (c / 16).
Proof.
  intros (n & Hn & ->). replace n with (4 + (n - 4)) by lia. rewrite Nat.pow_add_r. change (2 ^ 4) with 16.
  assert (2 ^ (n - 4) <> 0) by (apply Nat.pow_nonzero; lia). split; [lia|].
  rewrite (Nat.mul_comm 16 (2 ^ (n - 4))), Nat.div_mul by lia. lia.
Qed.

Lemma mask_mod c x : pow2 c -> Z.land x (Z.of_nat c - 1) = (x mod Z.of_nat c)%Z.
Proof.
  intros (n & Hn & ->). rewrite Nat2Z.inj_pow. change (Z.of_nat 2) with 2%Z.
  rewrite <- Z.land_ones by lia. f_equal. rewrite Z.ones_equiv. lia.
Qed.

Section Spec.
Context {K V : Type} `{Countable K} (kevy_hash : K -> Z) (kv_size kv_align : Z) (mmap_ok : Z -> bool).

Abbreviation KMap := (KevyMap (K := K) (V := V)).

(** The bytes of the slots, without the mirror. *)
Definition real (t : KMap) : list Z := take (cap t) (metadata t).

(** The windows of a probe from [h] before the one that holds [p] have no
    EMPTY byte. *)
Definition reach (c : nat) (ms : list Z) (h p : nat) : Prop :=
  forall o, o < 16 * (off c h p / 16) -> ms !! ((h + o) mod c) <> Some EMPTY.

Definition byte_ok (t : KMap) (ms : list Z) (i : nat) (b : Z) : Prop :=
  match slots t !! i with
  | Some (Some (k, v)) => b = h2 (kevy_hash k) /\ reach (cap t) ms (home t (kevy_hash k)) i
  | Some None => b = EMPTY \/ b = DELETED
  | None => False
  end.

Record layout (t : KMap) : Prop := {
  lay_cap : pow2 (cap t);
  lay_len : length (real t) = cap t;
  lay_mirror : metadata t = real t ++ take 16 (real t);
  lay_slots : length (slots t) = cap t;
  lay_aux : forall lane, auxw t = Some lane -> length lane = cap t
}.

Record wf (t : KMap) : Prop := {
  wf_layout : layout t;
  wf_bytes : forall i b, real t !! i = Some b -> byte_ok t (real t) i b;
  wf_unique : forall i j k v w, slots t !! i = Some (Some (k, v)) -> slots t !! j = Some (Some (k, w)) -> i = j;
  wf_occupied : occupied t = cnt is_full (real t);
  wf_deleted : deleted t = cnt (fun b => Z.eqb b DELETED) (real t);
  wf_load : occupied t + deleted t <= threshold t
}.

(** A table before its first allocation, or one that satisfies [wf]. *)
Definition unallocated (t : KMap) : Prop :=
  slots t = [] /\ metadata t = [] /\ cap t = 0 /\ occupied t = 0 /\ deleted t = 0 /\
  forall lane, auxw t = Some lane -> lane = [].

Definition valid (t : KMap) : Prop := unallocated t \/ wf t.

(** ** Reading bytes *)

Lemma h2_range x : (0 <= h2 x < 128)%Z.
Proof.
  unfold h2. change 127%Z with (Z.ones 7). rewrite Z.land_ones by lia. apply Z.mod_pos_bound. lia.
Qed.

Lemma h2_full x : is_full (h2 x) = true.
Proof.
  pose proof (h2_range x) as R. unfold is_full. apply Z.eqb_eq. apply Z.bits_inj'. intros n Hn.
  rewrite Z.land_spec, Z.bits_0. change 128%Z with (2 ^ 7)%Z. destruct (Z.eq_dec n 7%Z) as [->|N].
  - replace (h2 x) with (h2 x mod 2 ^ 7)%Z by (apply Z.mod_small; lia). by rewrite Z.mod_pow2_bits_high by lia.
  - rewrite Z.pow2_bits_false by lia. apply andb_false_r.
Qed.

Lemma h2_not_mark x : h2 x <> EMPTY /\ h2 x <> DELETED.
Proof. pose proof (h2_range x). unfold EMPTY, DELETED. lia. Qed.

Section Layout.
Context (t : KMap) (L : layout t).

Lemma cap_pos : 0 < cap t.
Proof using L. pose proof (pow2_groups _ (lay_cap t L)). lia. Qed.

Lemma wrap_mod i : wrap t i = i mod cap t.
Proof using L.
  unfold wrap, mask. rewrite mask_mod by apply L. rewrite <- Nat2Z.inj_mod. apply Nat2Z.id.
Qed.

Lemma home_lt x : home t x < cap t.
Proof using L.
  unfold home, mask. rewrite mask_mod by apply L. pose proof cap_pos.
  pose proof (Z.mod_pos_bound x (Z.of_nat (cap t)) ltac:(lia)). lia.
Qed.

Lemma metadata_lookup i : i < cap t + 16 -> metadata t !! i = real t !! (i mod cap t).
Proof using L.
  intros Hi. rewrite (lay_mirror t L). pose proof (pow2_groups _ (lay_cap t L)) as [C _].
  destruct (decide (i < cap t)) as [Lt|Ge].
  - rewrite Nat.mod_small by lia. apply lookup_app_l. rewrite (lay_len t L). lia.
  - rewrite lookup_app_r by (rewrite (lay_len t L); lia). rewrite (lay_len t L), lookup_take_lt by lia.
    f_equal. rewrite (Nat.Div0.mod_eq i (cap t)). replace (i / cap t) with 1; [lia|].
    apply (Nat.div_unique i (cap t) 1 (i - cap t)); lia.
Qed.

Lemma metadata_len : length (metadata t) = cap t + 16.
Proof using L.
  pose proof (pow2_groups _ (lay_cap t L)) as [C _].
  rewrite (lay_mirror t L), length_app, length_take, (lay_len t L). lia.
Qed.

Lemma load_ok gs : gs < cap t -> exists g, load t gs = Done g /\ length g = 16 /\
  forall m, m < 16 -> g !! m = real t !! ((gs + m) mod cap t).
Proof using L.
  intros Hg. unfold load, GROUP_WIDTH. rewrite metadata_len.
  destruct (Nat.leb_spec (gs + 16) (cap t + 16)); [|lia]. eexists. split; [reflexivity|]. split.
  - rewrite length_take, length_drop, metadata_len. lia.
  - intros m Hm. rewrite lookup_take_lt, lookup_drop by lia. apply metadata_lookup. lia.
Qed.

Lemma real_some i : i < cap t -> exists b, real t !! i = Some b.
Proof using L. intros Hi. apply lookup_lt_is_Some_2. rewrite (lay_len t L). exact Hi. Qed.

Lemma real_lt i b : real t !! i = Some b -> i < cap t.
Proof using L. intros Hi. rewrite <- (lay_len t L). by apply lookup_lt_Some with b. Qed.

Lemma mirror_index i : i < cap t ->
  Z.to_nat (Z.land ((Z.of_nat i - 16) mod 2 ^ 64) (mask t)) = (i + (cap t - 16)) mod cap t.
Proof using L.
  intros Hi. pose proof (pow2_groups _ (lay_cap t L)) as [C _]. unfold mask. rewrite mask_mod by apply L.
  destruct (lay_cap t L) as (n & Hn & E).
  rewrite Z.mod_mod_divide.
  - rewrite <- (Nat2Z.id ((i + (cap t - 16)) mod cap t)), Nat2Z.inj_mod. f_equal.
    replace (Z.of_nat (i + (cap t - 16))) with (Z.of_nat i - 16 + 1 * Z.of_nat (cap t))%Z by lia.
    symmetry. apply Z_mod_plus_full.
  - exists (2 ^ (64 - Z.of_nat n))%Z. rewrite E, Nat2Z.inj_pow, <- Z.pow_add_r by lia. f_equal. lia.
Qed.

(** [set_meta] writes one byte of the slots and keeps the mirror. *)
Lemma set_meta_ok i v : i < cap t ->
  set_meta i v t = Done (set_metadata (<[i := v]> (real t) ++ take 16 (<[i := v]> (real t))) t).
Proof using L.
  intros Hi. pose proof (pow2_groups _ (lay_cap t L)) as [C _]. unfold set_meta. rewrite mirror_index by exact Hi.
  set (i2 := (i + (cap t - 16)) mod cap t + GROUP_WIDTH).
  assert (E2 : i2 = if decide (i < 16) then cap t + i else i).
  { subst i2. unfold GROUP_WIDTH. destruct (decide (i < 16)).
    - rewrite Nat.mod_small by lia. lia.
    - replace (i + (cap t - 16)) with (i - 16 + 1 * cap t) by lia. rewrite Nat.Div0.mod_add, Nat.mod_small by lia. lia. }
  rewrite metadata_len. destruct (Nat.ltb_spec i (cap t + 16)); [|lia].
  destruct (Nat.ltb_spec i2 (cap t + 16)); [|destruct (decide (i < 16)); lia]. cbn [andb]. do 2 f_equal.
  apply list_eq. intros j. rewrite (lay_mirror t L) at 1.
  assert (Len : length (<[i:=v]> (real t)) = cap t) by (rewrite length_insert; apply (lay_len t L)).
  assert (Len0 := lay_len t L).
  destruct (decide (j < cap t)) as [Lt|Ge].
  - rewrite (lookup_app_l (<[i:=v]> (real t))) by lia. destruct (decide (i2 = j)) as [->|N2].
    + destruct (decide (i < 16)); [lia|]. subst j.
      rewrite list_lookup_insert_eq, list_lookup_insert_eq; [done|lia|rewrite length_insert, length_app; lia].
    + rewrite list_lookup_insert_ne by exact N2. destruct (decide (i = j)) as [->|N].
      * rewrite !list_lookup_insert_eq; [done|lia|rewrite length_app; lia].
      * rewrite !list_lookup_insert_ne by exact N. apply lookup_app_l. lia.
  - rewrite (lookup_app_r (<[i:=v]> (real t))), Len by lia. destruct (decide (j - cap t < 16)) as [Lj|Gj].
    + rewrite lookup_take_lt by lia. destruct (decide (i2 = j)) as [<-|N2].
      * destruct (decide (i < 16)); [|lia]. rewrite list_lookup_insert_eq by (rewrite length_insert, length_app, length_take; lia).
        rewrite E2. replace (cap t + i - cap t) with i by lia. rewrite list_lookup_insert_eq; [done|lia].
      * rewrite list_lookup_insert_ne, list_lookup_insert_ne by lia.
        rewrite list_lookup_insert_ne by (destruct (decide (i < 16)); lia).
        rewrite lookup_app_r, Len0, lookup_take_lt by lia. done.
    + rewrite (lookup_ge_None_2 (take _ _)) by (rewrite length_take; lia).
      apply lookup_ge_None_2. rewrite !length_insert, length_app, length_take. lia.
Qed.

Lemma real_set_metadata ms : length ms = cap t -> real (set_metadata (ms ++ take 16 ms) t) = ms.
Proof using Type. intros E. unfold real. cbn. rewrite take_app_le by lia. apply take_ge. lia. Qed.
End Layout.

(** ** Probing *)

Definition has (t : KMap) (k : K) (i : nat) : Prop := exists v, slots t !! i = Some (Some (k, v)).

Lemma not_full_mark b : b = EMPTY \/ b = DELETED -> is_full b = false.
Proof. intros [->| ->]; reflexivity. Qed.

Section Probe.
Context (t : KMap) (W : wf t).
Let L : layout t := wf_layout t W.
Let c := cap t.
Let ms := real t.

Lemma full_slot i b : ms !! i = Some b -> is_full b = true ->
  exists k v, slots t !! i = Some (Some (k, v)) /\ b = h2 (kevy_hash k) /\ reach c ms (home t (kevy_hash k)) i.
Proof using W.
  intros Hi Hb. pose proof (wf_bytes t W i b Hi) as B. unfold byte_ok in B.
  destruct (slots t !! i) as [[[k v]|]|]; [by exists k, v | | contradiction].
  apply not_full_mark in B. congruence.
Qed.

Lemma has_byte k i : has t k i -> i < c /\ ms !! i = Some (h2 (kevy_hash k)) /\ reach c ms (home t (kevy_hash k)) i.
Proof using W.
  intros [v Hv]. assert (Hi : i < c) by (unfold c; rewrite <- (lay_slots t L); by apply lookup_lt_Some in Hv).
  destruct (real_some t L i Hi) as [b Hb]. pose proof (wf_bytes t W i b Hb) as B. unfold byte_ok in B.
  rewrite Hv in B. destruct B as [-> R]. auto.
Qed.

(** Every byte is a full slot's, EMPTY or DELETED, and the load bound
    leaves an EMPTY one. *)
Lemma some_empty : exists i, i < c /\ ms !! i = Some EMPTY.
Proof using W.
  destruct (decide (EMPTY ∈ ms)) as [[i Hi]%list_elem_of_lookup|N].
  - exists i. split; [by apply (real_lt t L i EMPTY) | exact Hi].
  - exfalso. assert (A : cnt is_full ms + cnt (fun b => Z.eqb b DELETED) ms = length ms).
    { assert (F : forall i b, ms !! i = Some b -> is_full b = true \/ b = DELETED).
      { intros i b Hi. pose proof (wf_bytes t W i b Hi) as B. unfold byte_ok in B.
        destruct (slots t !! i) as [[[k v]|]|]; [left; destruct B as [-> _]; apply h2_full | | contradiction].
        destruct B as [-> | ->]; [|by right]. exfalso. apply N, list_elem_of_lookup. by exists i. }
      clear -F. clearbody ms. induction ms as [|x l IH]; [reflexivity|]. rewrite !cnt_cons. cbn [length].
      assert (E : one (is_full x) + one (Z.eqb x DELETED) = 1).
      { destruct (F 0 x eq_refl) as [E| ->]; [|reflexivity]. rewrite E. destruct (Z.eqb_spec x DELETED) as [->|]; [discriminate E | reflexivity]. }
      specialize (IH (fun i b Hi => F (S i) b Hi)). lia. }
    pose proof (wf_load t W) as Ld. unfold threshold in Ld. rewrite (wf_occupied t W), (wf_deleted t W) in Ld.
    pose proof (pow2_groups _ (lay_cap t L)) as [C _]. pose proof (lay_len t L) as E. fold ms in E, Ld. rewrite A, E in Ld.
    pose proof (Nat.Div0.div_le_mono 16 (cap t) 8 C) as D. change (16 / 8) with 2 in D. lia.
Qed.

Lemma try_slots_ok key gs : forall l,
  (forall m, m ∈ l -> exists b, ms !! ((gs + m) mod c) = Some b /\ is_full b = true) ->
  exists r, try_slots t key gs l = Done r /\
    match r with
    | Some s => has t key s
    | None => forall m, m ∈ l -> ~ has t key ((gs + m) mod c)
    end.
Proof using W.
  induction l as [|m l IH]; intros F; cbn [try_slots].
  - exists None. split; [reflexivity|]. intros m Hm. inversion Hm.
  - destruct (F m ltac:(left)) as (b & Hb & Fb). destruct (full_slot _ _ Hb Fb) as (k & v & Hs & _).
    unfold read_slot. rewrite (wrap_mod t L). fold c. rewrite Hs. cbn [mbind outcome_bind fst].
    destruct (decide (k = key)) as [->|N].
    + exists (Some ((gs + m) mod c)). split; [reflexivity|]. by exists v.
    + destruct (IH ltac:(intros; apply F; by right)) as (r & E & R). exists r. split; [exact E|].
      destruct r; [exact R|]. intros m' [->|Hm']%elem_of_cons; [|by apply R].
      intros [w Hw]. congruence.
Qed.

Section Key.
Context (key : K).
Let h := home t (kevy_hash key).

Definition absent_before (j : nat) : Prop := forall o, o < 16 * j -> ~ has t key ((h + o) mod c).
Definition nonempty_before (j : nat) : Prop := forall o, o < 16 * j -> ms !! ((h + o) mod c) <> Some EMPTY.

(** What a probe answers. *)
Definition probe_result (r : ProbeOutcome) : Prop :=
  match r with
  | PFound i => has t key i
  | PNotFound ins tomb =>
      ins < c /\ (forall i, ~ has t key i) /\ ms !! ins = Some (if tomb then DELETED else EMPTY) /\ reach c ms h ins
  end.

Definition tomb_ok (fd : option nat) : Prop :=
  forall d, fd = Some d -> d < c /\ ms !! d = Some DELETED /\ reach c ms h d.

Lemma window_pos j m : (((h + 16 * j) mod c) + m) mod c = (h + (16 * j + m)) mod c.
Proof using Type. rewrite Nat.Div0.add_mod_idemp_l. f_equal. lia. Qed.

(** A position in the window under the probe is within reach. *)
Lemma reach_window j m : nonempty_before j -> m < 16 -> j < c / 16 ->
  reach c ms h ((h + (16 * j + m)) mod c).
Proof using W.
  intros N Hm Hj. pose proof (pow2_groups _ (lay_cap t L)) as [_ C]. fold c in C.
  intros o. rewrite off_at; [| pose proof (cap_pos t L); unfold c in *; lia | apply home_lt; exact L | lia].
  rewrite (Nat.mul_comm 16 j), Nat.div_add_l, (Nat.div_small m 16) by lia. intros Ho. apply N. lia.
Qed.

(** A key with an EMPTY byte in the window under the probe is in it or before. *)
Lemma empty_ends j m : absent_before (S j) -> m < 16 -> ms !! ((h + (16 * j + m)) mod c) = Some EMPTY ->
  forall i, ~ has t key i.
Proof using W.
  intros A Hm E i Hi. destruct (has_byte key i Hi) as (Lt & _ & R). fold h in R.
  assert (Hh : h < c) by (apply home_lt; exact L). assert (Hc : 0 < c) by lia.
  pose proof (at_off c Hc h i Hh Lt) as P. set (o := off c h i) in *.
  destruct (decide (o < 16 * S j)) as [B|B].
  - apply (A o B). by rewrite P.
  - apply (R (16 * j + m)); [|exact E]. fold o. pose proof (Nat.Div0.div_le_mono (16 * S j) o 16 ltac:(lia)) as D.
    rewrite (Nat.mul_comm 16 (S j)), Nat.div_mul in D by lia. lia.
Qed.

Lemma probe_slow_ok : forall fuel j fd,
  c / 16 <= j + fuel -> absent_before j -> nonempty_before j -> tomb_ok fd ->
  exists r, probe_slow fuel t key (h2 (kevy_hash key)) ((h + 16 * j) mod c) fd = Done r /\ probe_result r.
Proof using W.
  pose proof (pow2_groups _ (lay_cap t L)) as [C16 C]. fold c in C16, C.
  assert (Hc : 0 < c) by lia. assert (Hh : h < c) by (apply home_lt; exact L).
  induction fuel as [|fuel IH]; intros j fd F A N T.
  - exfalso. destruct some_empty as (i & Hi & E). pose proof (at_off c Hc h i Hh Hi) as P.
    apply (N (off c h i)); [|by rewrite P]. pose proof (off_lt c Hc h i). lia.
  - assert (Hj : j < c / 16).
    { destruct some_empty as (i & Hi & E). pose proof (at_off c Hc h i Hh Hi) as P. pose proof (off_lt c Hc h i) as O.
      destruct (decide (j < c / 16)) as [|B]; [assumption|]. exfalso. apply (N (off c h i)); [lia | by rewrite P]. }
    cbn [probe_slow]. set (gs := (h + 16 * j) mod c).
    assert (Hgs : gs < c) by (apply Nat.mod_upper_bound; lia).
    destruct (load_ok t L gs Hgs) as (g & -> & Lg & G). fold c ms in G. cbn [mbind outcome_bind].
    assert (G' : forall m b, g !! m = Some b -> m < 16 /\ ms !! ((h + (16 * j + m)) mod c) = Some b).
    { intros m b Hm. assert (m < 16) by (rewrite <- Lg; by apply lookup_lt_Some with b). split; [assumption|].
      rewrite <- window_pos. fold gs. rewrite <- G by assumption. exact Hm. }
    destruct (try_slots_ok key gs (bm_iter 0 (match_byte g (h2 (kevy_hash key))))) as (r & -> & R).
    { intros m Hm%matches_elem. destruct (G' m _ Hm) as [_ B]. exists (h2 (kevy_hash key)).
      subst gs. rewrite window_pos. split; [exact B | apply h2_full]. }
    cbn [mbind outcome_bind]. destruct r as [s|]; [by exists (PFound s)|].
    assert (A' : absent_before (S j)).
    { intros o Ho Hk. destruct (decide (o < 16 * j)) as [B|B]; [by apply (A o B)|].
      apply (R (o - 16 * j)).
      - apply matches_elem. rewrite G by lia. subst gs. rewrite window_pos.
        replace (16 * j + (o - 16 * j)) with o by lia. apply (has_byte key _ Hk).
      - subst gs. rewrite window_pos. replace (16 * j + (o - 16 * j)) with o by lia. exact Hk. }
    set (fd' := match fd, lowest_set (match_byte g DELETED) with None, Some m => Some (wrap t (gs + m)) | f, _ => f end).
    assert (T' : tomb_ok fd').
    { subst fd'. destruct fd as [d|]; [exact T|]. destruct (lowest_set (match_byte g DELETED)) as [m|] eqn:E; [|intros d [=]].
      intros d [= <-]. apply lowest_set_Some in E. destruct (G' m _ E) as [Hm B].
      rewrite (wrap_mod t L). fold c. subst gs. rewrite window_pos.
      split_and!; [apply Nat.mod_upper_bound; lia | exact B | by apply reach_window]. }
    destruct (lowest_set (match_byte g EMPTY)) as [m|] eqn:E.
    + apply lowest_set_Some in E. destruct (G' m _ E) as [Hm B]. eexists. split; [reflexivity|].
      assert (Abs := empty_ends j m A' Hm B). rewrite (wrap_mod t L). fold c.
      replace ((gs + m) mod c) with ((h + (16 * j + m)) mod c) by (subst gs; by rewrite window_pos).
      destruct fd' as [d|]; cbn.
      * destruct (T' d eq_refl) as (D1 & D2 & D3). auto.
      * split_and!; [apply Nat.mod_upper_bound; lia | exact Abs | exact B | by apply reach_window].
    + rewrite (wrap_mod t L). fold c. subst gs.
      replace (((h + 16 * j) mod c + GROUP_WIDTH) mod c) with ((h + 16 * S j) mod c)
        by (rewrite window_pos; f_equal; unfold GROUP_WIDTH; lia).
      apply IH; [lia | exact A' | | exact T'].
      intros o Ho Ho'. destruct (decide (o < 16 * j)) as [B|B]; [by apply (N o B)|].
      apply (lowest_set_None g EMPTY E (o - 16 * j)). rewrite G by lia. rewrite window_pos.
      replace (16 * j + (o - 16 * j)) with o by lia. exact Ho'.
Qed.

Lemma probe_slow_start : exists r,
  probe_slow c t key (h2 (kevy_hash key)) h None = Done r /\ probe_result r.
Proof using W.
  assert (Hh : h < c) by (apply home_lt; exact L).
  destruct (probe_slow_ok c 0 None) as (r & E & R); try (intros o Ho; lia).
  - rewrite Nat.add_0_l. apply Nat.Div0.div_le_upper_bound. lia.
  - intros d [=].
  - exists r. split; [|exact R]. rewrite <- E. f_equal. rewrite Nat.mul_0_r, Nat.add_0_r. symmetry. by apply Nat.mod_small.
Qed.
End Key.

(** Without tombstones the two loops are one. *)
Lemma probe_fast_slow key h2v : (forall i, ms !! i <> Some DELETED) -> forall fuel gs, gs < c ->
  probe_fast fuel t key h2v gs = probe_slow fuel t key h2v gs None.
Proof using W.
  intros N. pose proof (cap_pos t L) as Hc. fold c in Hc.
  induction fuel as [|fuel IH]; intros gs Hgs; cbn [probe_fast probe_slow]; [reflexivity|].
  destruct (load_ok t L gs Hgs) as (g & -> & Lg & G). cbn [mbind outcome_bind].
  destruct (try_slots _ _ _ _) as [[s|]| | |]; cbn [mbind outcome_bind]; try reflexivity.
  destruct (lowest_set (match_byte g DELETED)) as [m|] eqn:E.
  - exfalso. apply lowest_set_Some in E. assert (m < 16) by (rewrite <- Lg; by apply lookup_lt_Some in E).
    rewrite G in E by assumption. by apply (N _ E).
  - destruct (lowest_set (match_byte g EMPTY)); [reflexivity|]. apply IH.
    rewrite (wrap_mod t L). fold c. apply Nat.mod_upper_bound. lia.
Qed.

Lemma find_is_probe key h2v : forall fuel gs fd,
  find_loop fuel t key h2v gs =
  (o ← probe_slow fuel t key h2v gs fd; Done (match o with PFound i => Some i | PNotFound _ _ => None end)).
Proof using Type.
  induction fuel as [|fuel IH]; intros gs fd; cbn [find_loop probe_slow]; [reflexivity|].
  destruct (load t gs) as [g| | |]; cbn [mbind outcome_bind]; try reflexivity.
  destruct (try_slots _ _ _ _) as [[s|]| | |]; cbn [mbind outcome_bind]; try reflexivity.
  rewrite bm_is_empty_lowest. destruct (lowest_set (match_byte g EMPTY)); [reflexivity|]. apply IH.
Qed.

Lemma probe_ok key : exists r, probe kevy_hash t key = Done r /\ probe_result key r.
Proof using W.
  pose proof (cap_pos t L) as Hc. unfold probe. destruct (Nat.eqb_spec (cap t) 0); [lia|].
  destruct (Nat.eqb_spec (deleted t) 0) as [D|D]; [|exact (probe_slow_start key)].
  rewrite probe_fast_slow; [exact (probe_slow_start key) | | apply home_lt; exact L].
  intros i Hi. rewrite (wf_deleted t W) in D. pose proof (cnt_pos (fun b => Z.eqb b DELETED) ms i DELETED Hi eq_refl).
  unfold ms in *. lia.
Qed.

Lemma map_find_ok key : exists r, find_by_borrow kevy_hash t key = Done r /\
  match r with Some i => has t key i | None => forall i, ~ has t key i end.
Proof using W.
  pose proof (cap_pos t L) as Hc. unfold find_by_borrow. destruct (Nat.eqb_spec (cap t) 0); [lia|].
  rewrite (find_is_probe _ _ _ _ None). destruct (probe_slow_start key) as (r & E & R). fold c. rewrite E. cbn.
  eexists. split; [reflexivity|]. destruct r; [exact R | apply R].
Qed.

(** ** One slot changed *)

Definition rebuild (ms' : list Z) (ss : list (option (K * V))) (o d : nat) (a : option (list Z)) : KMap :=
  mkMap ss (ms' ++ take 16 ms') (cap t) o d (mmap_backed t) a.

Lemma rebuild_real ms' ss o d a : length ms' = c -> real (rebuild ms' ss o d a) = ms'.
Proof using Type. intros E. unfold real, rebuild. cbn. fold c. rewrite <- E, take_app_le, firstn_all by lia. done. Qed.

Lemma rebuild_layout ms' ss o d a : length ms' = c -> length ss = c ->
  (forall lane, a = Some lane -> length lane = c) -> layout (rebuild ms' ss o d a).
Proof using W.
  intros E1 E2 E3. split; rewrite ?rebuild_real by exact E1; cbn; [apply L | exact E1 | reflexivity | exact E2 | exact E3].
Qed.

Definition slot_fits (i : nat) (b : Z) (sl : option (K * V)) : Prop :=
  match sl with
  | Some (k, v) => b = h2 (kevy_hash k) /\ reach c ms (home t (kevy_hash k)) i /\ forall j, j <> i -> ~ has t k j
  | None => b = EMPTY \/ b = DELETED
  end.

(** A byte that becomes EMPTY must not be one a probe walks through. *)
Definition hole_ok (i : nat) : Prop :=
  forall k j o, j <> i -> has t k j -> o < 16 * (off c (home t (kevy_hash k)) j / 16) ->
  (home t (kevy_hash k) + o) mod c <> i.

Lemma reach_change i b h j : reach c ms h j -> j = i \/ (b = EMPTY -> forall o, o < 16 * (off c h j / 16) -> (h + o) mod c <> i) ->
  h < c -> j < c -> reach c (<[i := b]> ms) h j.
Proof using W.
  intros R Or Hh Hj o Ho. pose proof (cap_pos t L) as Hc. fold c in Hc.
  destruct (decide ((h + o) mod c = i)) as [E|N].
  - destruct Or as [->|Or].
    + exfalso. pose proof (off_lt c Hc h i) as O. assert (Lo : o < c) by (pose proof (Nat.Div0.mul_div_le (off c h i) 16); lia).
      pose proof (off_at c Hc h o Hh Lo) as P. rewrite E in P. pose proof (Nat.Div0.mul_div_le (off c h i) 16). lia.
    + rewrite E. rewrite list_lookup_insert_eq.
      * intros [= ->]. by apply (Or eq_refl o Ho).
      * unfold ms. rewrite (lay_len t L). rewrite <- E. apply Nat.mod_upper_bound. unfold c in Hc. lia.
  - rewrite list_lookup_insert_ne by congruence. by apply R.
Qed.

Lemma update_wf i b0 b sl o d a :
  ms !! i = Some b0 -> slot_fits i b sl -> (b = EMPTY -> hole_ok i) ->
  o = cnt is_full (<[i := b]> ms) -> d = cnt (fun b => Z.eqb b DELETED) (<[i := b]> ms) -> o + d <= threshold t ->
  (forall lane, a = Some lane -> length lane = c) ->
  wf (rebuild (<[i := b]> ms) (<[i := sl]> (slots t)) o d a).
Proof using W.
  intros Hi Fit Hole Ho Hd Ld Ha.
  assert (Li : i < c) by (by apply (real_lt t L i b0)).
  assert (Lm : length (<[i := b]> ms) = c) by (rewrite length_insert; apply (lay_len t L)).
  assert (Ls : length (<[i := sl]> (slots t)) = c) by (rewrite length_insert; apply (lay_slots t L)).
  assert (Hs : i < length (slots t)) by (rewrite (lay_slots t L); exact Li).
  split; rewrite ?rebuild_real by exact Lm; [by apply rebuild_layout | | | exact Ho | exact Hd | exact Ld].
  - intros j y. unfold byte_ok. cbn [rebuild slots cap]. fold c. destruct (decide (j = i)) as [->|N].
    + rewrite !list_lookup_insert_eq by (rewrite ?(lay_len t L); auto; unfold ms; rewrite (lay_len t L); exact Li).
      intros [= <-]. destruct sl as [[k v]|]; [|exact Fit]. destruct Fit as (E & R & _). split; [exact E|].
      apply (reach_change i b (home t (kevy_hash k)) i R); [by left | apply home_lt; exact L | exact Li].
    + rewrite !list_lookup_insert_ne by congruence. intros Hy. pose proof (wf_bytes t W j y Hy) as B. unfold byte_ok in B.
      destruct (slots t !! j) as [[[k v]|]|] eqn:Hj; [|exact B|exact B]. destruct B as [E R]. split; [exact E|].
      apply (reach_change i b (home t (kevy_hash k)) j R); [right | apply home_lt; exact L | by apply (real_lt t L j y)].
      intros Eb o' Ho'. apply (Hole Eb k j o' N); [by exists v | exact Ho'].
  - cbn [rebuild slots]. intros j1 j2 k v w. destruct (decide (j1 = i)) as [->|N1], (decide (j2 = i)) as [->|N2]; [done| | |].
    + rewrite list_lookup_insert_eq by exact Hs. rewrite list_lookup_insert_ne by congruence. intros [= ->] H2.
      destruct Fit as (_ & _ & U). exfalso. apply (U j2 N2). by exists w.
    + rewrite list_lookup_insert_eq by exact Hs. rewrite list_lookup_insert_ne by congruence. intros H1 [= ->].
      destruct Fit as (_ & _ & U). exfalso. apply (U j1 N1). by exists v.
    + rewrite !list_lookup_insert_ne by congruence. apply (wf_unique t W).
Qed.
End Probe.

(** ** The finite map a table stands for

    Each key with its value and its side word, zero where no lane is kept. *)

Definition word_at (t : KMap) (i : nat) : Z := match auxw t with Some lane => default 0%Z (lane !! i) | None => 0%Z end.

Definition entry_list (t : KMap) : list (option (K * (V * Z))) :=
  imap (fun i s => (fun kv => (kv.1, (kv.2, word_at t i))) <$> s) (slots t).

Definition contents (t : KMap) : gmap K (V * Z) := list_to_map (omap id (entry_list t)).

Lemma omap_keys_NoDup {A} : forall l : list (option (K * A)),
  (forall i j k v w, l !! i = Some (Some (k, v)) -> l !! j = Some (Some (k, w)) -> i = j) ->
  NoDup ((omap id l).*1).
Proof.
  induction l as [|[[k v]|] l IH]; intros U; cbn; [constructor| |].
  - constructor.
    + intros ([k' w] & -> & Hin)%list_elem_of_fmap. apply list_elem_of_omap in Hin as (x & Hx & Ex). cbn in Ex. subst x.
      apply list_elem_of_lookup in Hx as [i Hi]. specialize (U 0 (S i) k' v w eq_refl Hi). lia.
    + apply IH. intros i j k0 v0 w0 Hi Hj. specialize (U (S i) (S j) k0 v0 w0 Hi Hj). lia.
  - apply IH. intros i j k0 v0 w0 Hi Hj. specialize (U (S i) (S j) k0 v0 w0 Hi Hj). lia.
Qed.

Lemma entry_list_lookup t i k v w :
  entry_list t !! i = Some (Some (k, (v, w))) <-> slots t !! i = Some (Some (k, v)) /\ w = word_at t i.
Proof.
  unfold entry_list. rewrite list_lookup_imap. destruct (slots t !! i) as [[[k' v']|]|]; cbn.
  - split; [intros [= -> -> <-]; auto | intros [[= -> ->] ->]; reflexivity].
  - split; [discriminate | intros [? _]; discriminate].
  - split; [discriminate | intros [? _]; discriminate].
Qed.

Lemma contents_Some t k v w : wf t ->
  contents t !! k = Some (v, w) <-> exists i, slots t !! i = Some (Some (k, v)) /\ w = word_at t i.
Proof.
  intros W. unfold contents. rewrite <- elem_of_list_to_map.
  - rewrite list_elem_of_omap. split.
    + intros (x & Hx & Ex). cbn in Ex. subst x. apply list_elem_of_lookup in Hx as [i Hi]. exists i. by apply entry_list_lookup.
    + intros (i & Hi). exists (Some (k, (v, w))). split; [|reflexivity].
      apply list_elem_of_lookup. exists i. by apply entry_list_lookup.
  - apply omap_keys_NoDup. intros i j k0 [v1 w1] [v2 w2] [Hi _]%entry_list_lookup [Hj _]%entry_list_lookup.
    by apply (wf_unique t W i j k0 v1 v2).
Qed.

Lemma contents_None t k : wf t -> contents t !! k = None <-> forall i, ~ has t k i.
Proof.
  intros W. rewrite eq_None_not_Some. split.
  - intros N i [v Hv]. apply N. exists (v, word_at t i). apply contents_Some; [exact W|]. by exists i.
  - intros N [[v w] Hk]. apply contents_Some in Hk as (i & Hi & _); [|exact W]. apply (N i). by exists v.
Qed.

Lemma contents_at t i k v : wf t -> slots t !! i = Some (Some (k, v)) -> contents t !! k = Some (v, word_at t i).
Proof. intros W Hi. apply contents_Some; [exact W|]. by exists i. Qed.

(** A slot written and its word set. *)
Lemma contents_put t t' i k v : wf t -> wf t' ->
  slots t' = <[i := Some (k, v)]> (slots t) -> i < length (slots t) ->
  (forall j, j <> i -> word_at t' j = word_at t j) ->
  (forall k' v', slots t !! i = Some (Some (k', v')) -> k' = k) ->
  contents t' = <[k := (v, word_at t' i)]> (contents t).
Proof.
  intros W W' E Li Ew Sk. apply map_eq. intros k'. apply option_eq. intros [v' w'].
  rewrite contents_Some by exact W'. destruct (decide (k' = k)) as [->|N].
  - rewrite lookup_insert_eq. split.
    + intros (j & Hj & ->). assert (j = i) as ->.
      { apply (wf_unique t' W' j i k v' v Hj). rewrite E. by apply list_lookup_insert_eq. }
      rewrite E, list_lookup_insert_eq in Hj by exact Li. congruence.
    + intros [= <- <-]. exists i. rewrite E, list_lookup_insert_eq by exact Li. auto.
  - rewrite lookup_insert_ne, contents_Some by (exact W || congruence). split; intros (j & Hj & ->).
    + exists j. rewrite E in Hj. destruct (decide (j = i)) as [->|Nj].
      * rewrite list_lookup_insert_eq in Hj by exact Li. congruence.
      * rewrite list_lookup_insert_ne in Hj by congruence. split; [exact Hj | by apply Ew].
    + assert (Nj : j <> i) by (intros ->; apply N, (Sk k' v' Hj)). exists j. rewrite E, list_lookup_insert_ne by congruence.
      split; [exact Hj | symmetry; by apply Ew].
Qed.

Lemma contents_erase t t' i k v : wf t -> wf t' ->
  slots t !! i = Some (Some (k, v)) -> slots t' = <[i := None]> (slots t) -> auxw t' = auxw t ->
  contents t' = delete k (contents t).
Proof.
  intros W W' Hi E Ea. assert (Li : i < length (slots t)) by (by apply lookup_lt_Some in Hi).
  assert (Ew : forall j, word_at t' j = word_at t j) by (intros j; unfold word_at; by rewrite Ea).
  apply map_eq. intros k'. apply option_eq. intros [v' w'].
  rewrite contents_Some, lookup_delete_Some, contents_Some by assumption. split.
  - intros (j & Hj & ->). rewrite E in Hj. destruct (decide (j = i)) as [->|N].
    + rewrite list_lookup_insert_eq in Hj by exact Li. discriminate.
    + rewrite list_lookup_insert_ne in Hj by congruence. split; [|exists j; by rewrite Ew].
      intros <-. apply N, (wf_unique t W j i k v' v Hj Hi).
  - intros (N & j & Hj & ->). exists j. rewrite E, list_lookup_insert_ne by congruence. by rewrite Ew.
Qed.

(** ** The operations *)

Lemma read_slot_ok (t : KMap) i k v : slots t !! i = Some (Some (k, v)) -> read_slot t i = Done (k, v).
Proof. intros E. unfold read_slot. by rewrite E. Qed.

Lemma write_slot_ok (t : KMap) i sl : i < length (slots t) -> write_slot i sl t = Done (set_slots (<[i := sl]> (slots t)) t).
Proof. intros E. unfold write_slot. by destruct (Nat.ltb_spec i (length (slots t))); [|lia]. Qed.

Lemma get_ok t k : wf t -> map_get kevy_hash k t = Done (fst <$> contents t !! k).
Proof.
  intros W. unfold map_get. destruct (map_find_ok t W k) as (r & -> & R). cbn [mbind outcome_bind].
  destruct r as [i|].
  - destruct R as [v Hv]. rewrite (read_slot_ok t i k v Hv), (contents_at t i k v W Hv). reflexivity.
  - by rewrite (proj2 (contents_None t k W) R).
Qed.

Lemma one_full k : one (is_full (h2 (kevy_hash k))) = 1 /\ one (Z.eqb (h2 (kevy_hash k)) DELETED) = 0.
Proof.
  rewrite h2_full. destruct (h2_not_mark (kevy_hash k)) as [_ N]. split; [reflexivity|].
  by destruct (Z.eqb_spec (h2 (kevy_hash k)) DELETED).
Qed.

(** A new key in an EMPTY or DELETED slot a probe led to. *)
Lemma put_new_wf t k v i b a : wf t -> (forall j, ~ has t k j) -> real t !! i = Some b -> b = EMPTY \/ b = DELETED ->
  reach (cap t) (real t) (home t (kevy_hash k)) i -> (b = EMPTY -> occupied t + deleted t < threshold t) ->
  (forall lane, a = Some lane -> length lane = cap t) ->
  wf (rebuild t (<[i := h2 (kevy_hash k)]> (real t)) (<[i := Some (k, v)]> (slots t)) (S (occupied t))
        (if Z.eqb b DELETED then deleted t - 1 else deleted t) a).
Proof.
  intros W N Hi Hb R Ld Ha. destruct (one_full k) as [O1 O2].
  pose proof (cnt_insert is_full _ _ _ (h2 (kevy_hash k)) Hi) as C1.
  pose proof (cnt_insert (fun b => Z.eqb b DELETED) _ _ _ (h2 (kevy_hash k)) Hi) as C2. cbn beta in C2.
  rewrite O1 in C1. rewrite O2 in C2. rewrite <- (wf_occupied t W) in C1. rewrite <- (wf_deleted t W) in C2.
  assert (O3 : one (is_full b) = 0) by (by rewrite (not_full_mark b Hb)).
  pose proof (wf_load t W) as Ld0. destruct (h2_not_mark (kevy_hash k)) as [NE _].
  apply (update_wf t W i b); [exact Hi | split_and!; auto | intros E; contradiction | lia | | | exact Ha].
  - destruct (Z.eqb_spec b DELETED) as [E|E]; cbn in C2; lia.
  - destruct (Z.eqb_spec b DELETED) as [E|E]; cbn in C2; [lia|]. destruct Hb as [Hb|Hb]; [|contradiction].
    specialize (Ld Hb). lia.
Qed.

Lemma insert_room_ok t k v : wf t -> occupied t + deleted t < threshold t ->
  exists t' i, insert_with_room kevy_hash k v t = Done (t', i, fst <$> contents t !! k) /\ wf t' /\ cap t' = cap t /\
    contents t' = <[k := (v, default 0%Z (snd <$> contents t !! k))]> (contents t).
Proof.
  intros W Ld. pose proof (wf_layout t W) as L. unfold insert_with_room.
  destruct (probe_ok t W k) as (r & -> & R). cbn [mbind outcome_bind].
  destruct r as [i|i tomb].
  - destruct R as [v0 Hv]. assert (Li : i < length (slots t)) by (by apply lookup_lt_Some in Hv).
    rewrite (read_slot_ok t i k v0 Hv). cbn [mbind outcome_bind fst snd]. rewrite write_slot_ok by exact Li. cbn [mbind outcome_bind].
    rewrite (contents_at t i k v0 W Hv). cbn. do 2 eexists. split; [reflexivity|].
    destruct (has_byte t W k i ltac:(by exists v0)) as (Hc & Hb & Rc).
    assert (W' : wf (set_slots (<[i := Some (k, v)]> (slots t)) t)).
    { replace (set_slots (<[i := Some (k, v)]> (slots t)) t) with
        (rebuild t (<[i := h2 (kevy_hash k)]> (real t)) (<[i := Some (k, v)]> (slots t)) (occupied t) (deleted t) (auxw t)).
      - apply (update_wf t W i (h2 (kevy_hash k))); [exact Hb | | | rewrite (list_insert_id (real t) i _ Hb); apply W
          | rewrite (list_insert_id (real t) i _ Hb); apply W | apply W | apply L].
        + split_and!; [done | exact Rc |]. intros j Nj [w Hw]. by apply Nj, (wf_unique t W j i k w v0).
        + intros E. by destruct (h2_not_mark (kevy_hash k)).
      - unfold rebuild, set_slots. rewrite (list_insert_id (real t) i _ Hb). f_equal. symmetry. apply L. }
    split_and!; [exact W' | reflexivity |].
    pose proof (contents_put t _ i k v W W' eq_refl Li (fun _ _ => eq_refl)) as P. rewrite P; [reflexivity|].
    intros k' v' H'. congruence.
  - destruct R as (Hc & N & Hb & Rc). rewrite set_meta_ok by assumption. cbn [mbind outcome_bind].
    rewrite write_slot_ok by (cbn; rewrite (lay_slots t L); exact Hc). cbn [mbind outcome_bind].
    rewrite (proj2 (contents_None t k W) N). cbn. do 2 eexists. split; [reflexivity|].
    set (a := match auxw t with Some lane => Some (<[i := 0%Z]> lane) | None => None end).
    assert (W' := put_new_wf t k v i (if tomb then DELETED else EMPTY) a W N Hb ltac:(destruct tomb; auto) Rc ltac:(intros; exact Ld)
      ltac:(subst a; intros lane E; destruct (auxw t) eqn:Ea; [|discriminate]; injection E as <-; rewrite length_insert; by apply L)).
    match goal with |- wf ?x /\ _ => assert (E : x = rebuild t (<[i := h2 (kevy_hash k)]> (real t))
      (<[i := Some (k, v)]> (slots t)) (S (occupied t)) (if Z.eqb (if tomb then DELETED else EMPTY) DELETED then deleted t - 1 else deleted t) a) end.
    { unfold reset_aux, rebuild, set_counts, set_slots, set_metadata. subst a. cbn. destruct (auxw t) eqn:Ea; cbn; rewrite ?Ea; by destruct tomb. }
    rewrite E. split_and!; [exact W' | reflexivity |].
    rewrite (contents_put t _ i k v W W' eq_refl).
    + f_equal. f_equal. unfold word_at. cbn. subst a. destruct (auxw t) as [lane|] eqn:Ea; [|reflexivity].
      rewrite list_lookup_insert_eq; [reflexivity|]. by rewrite (lay_aux t L lane Ea).
    + by rewrite (lay_slots t L).
    + intros j Nj. unfold word_at. cbn. subst a. destruct (auxw t); [|reflexivity]. by rewrite list_lookup_insert_ne.
    + intros k' v' H'. destruct (has_byte t W k' i ltac:(by exists v')) as (_ & Hb' & _). rewrite Hb in Hb'.
      injection Hb' as E'. destruct (h2_not_mark (kevy_hash k')), tomb; congruence.
Qed.

(** ** Growth *)

Definition fresh (c : nat) (mapped : bool) (a : option (list Z)) : KMap :=
  mkMap (replicate c None) (replicate (c + GROUP_WIDTH) EMPTY) c 0 0 mapped a.

Lemma fresh_real c mapped a : real (fresh c mapped a) = replicate c EMPTY.
Proof. unfold real, fresh. cbn. rewrite take_replicate. f_equal. lia. Qed.

Lemma fresh_wf c mapped a : pow2 c -> (forall lane, a = Some lane -> length lane = c) ->
  wf (fresh c mapped a) /\ contents (fresh c mapped a) = ∅.
Proof.
  intros P Ha. pose proof (pow2_groups c P) as [C _].
  assert (W : wf (fresh c mapped a)).
  { split; rewrite ?fresh_real.
    - split; rewrite ?fresh_real; cbn; [exact P | apply length_replicate | | apply length_replicate | exact Ha].
      rewrite take_replicate, <- replicate_add. f_equal. unfold GROUP_WIDTH. lia.
    - intros i b [-> Hi]%lookup_replicate_1. unfold byte_ok. cbn. rewrite lookup_replicate_2 by exact Hi. by left.
    - cbn. intros i j k v w [Hi _]%lookup_replicate_1. discriminate.
    - rewrite cnt_replicate. change (one (is_full EMPTY)) with 0. cbn. lia.
    - rewrite cnt_replicate. change (one (Z.eqb EMPTY DELETED)) with 0. cbn. lia.
    - cbn. lia. }
  split; [exact W|]. apply map_eq. intros k. rewrite lookup_empty. apply contents_None; [exact W|].
  intros i [v Hv]. cbn in Hv. apply lookup_replicate_1 in Hv as [Hv _]. discriminate.
Qed.

(** Into a table without tombstones, the blind insertion takes the slot the
    probe would. *)
Lemma ins_known_is_probe t k v : wf t -> (forall i, ~ has t k i) -> forall fuel gs, gs < cap t ->
  ins_known_loop fuel t (h2 (kevy_hash k)) k v gs =
  (o ← probe_fast fuel t k (h2 (kevy_hash k)) gs;
   match o with
   | PNotFound slot _ =>
       t ← set_meta slot (h2 (kevy_hash k)) t;
       t ← write_slot slot (Some (k, v)) t;
       Done (set_counts (S (occupied t)) (deleted t) t, slot)
   | PFound _ => Undef
   end).
Proof.
  intros W N. pose proof (wf_layout t W) as L. pose proof (cap_pos t L) as Hc.
  induction fuel as [|fuel IH]; intros gs Hgs; cbn [ins_known_loop probe_fast]; [reflexivity|].
  destruct (load_ok t L gs Hgs) as (g & -> & Lg & G). cbn [mbind outcome_bind].
  destruct (try_slots_ok t W k gs (bm_iter 0 (match_byte g (h2 (kevy_hash k))))) as (r & -> & R).
  { intros m Hm%matches_elem. exists (h2 (kevy_hash k)). split; [|apply h2_full].
    rewrite <- G; [exact Hm|]. rewrite <- Lg. by apply lookup_lt_Some in Hm. }
  cbn [mbind outcome_bind]. destruct r as [i|]; [by destruct (N i)|].
  destruct (lowest_set (match_byte g EMPTY)); [reflexivity|]. apply IH.
  rewrite (wrap_mod t L). apply Nat.mod_upper_bound. lia.
Qed.

Lemma insert_known_ok t k v : wf t -> deleted t = 0 -> (forall i, ~ has t k i) -> occupied t < threshold t ->
  exists t' i, insert_known_unique (kevy_hash k) k v t = Done (t', i) /\ wf t' /\ cap t' = cap t /\ deleted t' = 0 /\
    occupied t' = S (occupied t) /\ auxw t' = auxw t /\ i < cap t /\ slots t' = <[i := Some (k, v)]> (slots t) /\
    (forall k' v', slots t !! i <> Some (Some (k', v'))).
Proof.
  intros W D N Ld. pose proof (wf_layout t W) as L. unfold insert_known_unique.
  rewrite (ins_known_is_probe t k v W N) by (by apply home_lt).
  assert (E : probe_fast (cap t) t k (h2 (kevy_hash k)) (home t (kevy_hash k)) = probe kevy_hash t k).
  { unfold probe. rewrite D. pose proof (cap_pos t L). destruct (Nat.eqb_spec (cap t) 0); [lia | reflexivity]. }
  rewrite E. destruct (probe_ok t W k) as (r & -> & R). cbn [mbind outcome_bind].
  destruct r as [i|i tomb]; [by destruct (N i)|]. destruct R as (Hc & _ & Hb & Rc).
  assert (tomb = false) as ->.
  { destruct tomb; [|reflexivity]. pose proof (cnt_pos (fun b => Z.eqb b DELETED) _ i DELETED Hb eq_refl) as C.
    rewrite <- (wf_deleted t W) in C. lia. }
  rewrite set_meta_ok by assumption. cbn [mbind outcome_bind].
  rewrite write_slot_ok by (cbn; by rewrite (lay_slots t L)). cbn [mbind outcome_bind].
  do 2 eexists. split; [reflexivity|].
  pose proof (put_new_wf t k v i EMPTY (auxw t) W N Hb ltac:(by left) Rc ltac:(lia) (lay_aux t L)) as W'.
  split; [exact W'|]. split_and!; try reflexivity; [exact D | exact Hc |].
  intros k' v' H'. destruct (has_byte t W k' i ltac:(by exists v')) as (_ & Hb' & _). rewrite Hb in Hb'.
  injection Hb' as E'. by destruct (h2_not_mark (kevy_hash k')).
Qed.

(** The first [i] slots of [old] have been moved. *)
Record moved (old : KMap) (i : nat) (to : KMap) : Prop := {
  mv_wf : wf to;
  mv_deleted : deleted to = 0;
  mv_count : occupied to <= i;
  mv_aux : match auxw old, auxw to with Some _, Some _ | None, None => True | _, _ => False end;
  mv_contents : forall k v w, contents to !! k = Some (v, w) <->
                exists j, j < i /\ slots old !! j = Some (Some (k, v)) /\ w = word_at old j
}.

Lemma move_slot_ok old i to : wf old -> i < cap old -> cap old <= cap to / 2 -> moved old i to ->
  exists to', move_slot kevy_hash old i to = Done to' /\ moved old (S i) to' /\ cap to' = cap to.
Proof.
  intros W Hi Hcap [Wt Dt Ct At Mt]. pose proof (wf_layout old W) as L. pose proof (wf_layout to Wt) as Lt.
  unfold move_slot, read_meta. rewrite (metadata_lookup old L), Nat.mod_small by lia.
  destruct (real_some old L i Hi) as [b Hb]. rewrite Hb. cbn [mbind outcome_bind].
  destruct (is_full b) eqn:Fb; cbn [negb].
  - destruct (full_slot old W i b Hb Fb) as (k & v & Hs & _ & _). rewrite (read_slot_ok old i k v Hs). cbn [mbind outcome_bind].
    assert (N : forall j, ~ has to k j).
    { apply contents_None; [exact Wt|]. apply eq_None_not_Some. intros [[v' w'] (j & Lj & Hj & _)%Mt].
      assert (j = i) by (by apply (wf_unique old W j i k v' v)). lia. }
    assert (Ld : occupied to < threshold to).
    { unfold threshold. pose proof (pow2_groups _ (lay_cap to Lt)) as [C16 _].
      pose proof (Nat.Div0.div_le_upper_bound (cap to) 8 (cap to / 2) ltac:(pose proof (Nat.div_mod (cap to) 2 ltac:(lia)); pose proof (Nat.mod_upper_bound (cap to) 2 ltac:(lia)); lia)).
      pose proof (Nat.Div0.mul_div_le (cap to) 2). lia. }
    destruct (insert_known_ok to k v Wt Dt N Ld) as (t' & p & -> & W' & Ec & Ed & Eo & Ea & Lp & Es & Fr). cbn [mbind outcome_bind].
    assert (G : forall a, (forall lane, a = Some lane -> length lane = cap to) ->
      match auxw old, a with Some _, Some _ | None, None => True | _, _ => False end ->
      (forall j, j <> p -> word_at (set_auxw a t') j = word_at to j) -> word_at (set_auxw a t') p = word_at old i ->
      moved old (S i) (set_auxw a t')).
    { intros a La Aa Ew Ep. assert (Wa : wf (set_auxw a t')).
      { destruct W' as [Lw Bw Uw Ow Dw Lo]. split; [|exact Bw|exact Uw|exact Ow|exact Dw|exact Lo].
        destruct Lw. split; try assumption. cbn. by rewrite Ec. }
      split; [exact Wa | exact Ed | cbn; lia | exact Aa |]. intros k' v' w'.
      rewrite (contents_put to (set_auxw a t') p k v Wt Wa Es); [| by rewrite (lay_slots to Lt) | exact Ew | intros k0 v0 H0; by destruct (Fr k0 v0)].
      rewrite Ep. destruct (decide (k' = k)) as [->|Nk].
      - rewrite lookup_insert_eq. split.
        + intros [= <- <-]. exists i. auto.
        + intros (j & Lj & Hj & ->). assert (j = i) as -> by (by apply (wf_unique old W j i k v' v)). congruence.
      - rewrite lookup_insert_ne by congruence. rewrite Mt. split; intros (j & Lj & Hj & ->); exists j; split_and!; auto; try lia.
        destruct (decide (j = i)) as [->|]; [congruence | lia]. }
    assert (Eid : set_auxw (auxw to) t' = t') by (rewrite <- Ea; by destruct t').
    destruct (auxw old) as [lo|] eqn:Eo'; rewrite ?Ea; destruct (auxw to) as [ln|] eqn:Et; try contradiction.
    + pose proof (lay_aux old L lo Eo') as Ll. destruct (lookup_lt_is_Some_2 lo i ltac:(lia)) as [w Hw]. rewrite Hw.
      pose proof (lay_aux to Lt ln Et) as Ln. destruct (Nat.ltb_spec p (length ln)); [|lia]. eexists. split; [reflexivity|].
      split; [|exact Ec]. apply G; [intros lane [= <-]; by rewrite length_insert | done | |].
      * intros j Nj. unfold word_at. cbn. rewrite Et. by rewrite list_lookup_insert_ne.
      * unfold word_at. cbn. rewrite Eo', Hw, list_lookup_insert_eq by assumption. done.
    + eexists. split; [reflexivity|]. split; [|exact Ec]. rewrite <- Eid. apply G; [done | done | |];
        intros; unfold word_at; cbn; by rewrite ?Et, ?Eo'.
  - exists to. split; [reflexivity|]. split; [|done]. split; [exact Wt | exact Dt | lia | exact At |].
    intros k v w. rewrite Mt. split; intros (j & Lj & Hj & E); exists j; split_and!; auto.
    destruct (decide (j = i)) as [->|]; [|lia]. destruct (has_byte old W k i ltac:(by exists v)) as (_ & Hb' & _).
    rewrite Hb in Hb'. injection Hb' as ->. by rewrite h2_full in Fb.
Qed.

Lemma move_slots_ok old : wf old -> forall n i to, i + n = cap old -> cap old <= cap to / 2 -> moved old i to ->
  exists to', move_slots kevy_hash old (seq i n) to = Done to' /\ moved old (cap old) to' /\ cap to' = cap to.
Proof.
  intros W. induction n as [|n IH]; intros i to Hi Hc M; cbn [seq move_slots].
  - exists to. replace (cap old) with i by lia. auto.
  - destruct (move_slot_ok old i to W ltac:(lia) Hc M) as (t1 & -> & M1 & E1). cbn [mbind outcome_bind].
    destruct (IH (S i) t1 ltac:(lia) ltac:(by rewrite E1) M1) as (t2 & E & M2 & E2). exists t2. split_and!; [exact E | exact M2 | lia].
Qed.

Definition next_cap (t : KMap) : nat := if Nat.eqb (cap t) 0 then MIN_CAP else cap t * 2.

Lemma unallocated_contents t : unallocated t -> contents t = ∅.
Proof. intros (E & _). unfold contents, entry_list. by rewrite E. Qed.

Section Sized.
Context (Hsize : (0 <= kv_size)%Z) (Halign : (0 < kv_align)%Z).

Lemma layout_bound c size : table_layout kv_size kv_align c = Some size -> (Z.of_nat c <= 2 ^ 63 - 1)%Z.
Proof using Hsize Halign.
  unfold table_layout, isize_max. destruct (Z.leb_spec (next_multiple_of (Z.of_nat c * kv_size + (Z.of_nat c + 16)) kv_align) (2 ^ 63 - 1)) as [B|];
    [|discriminate]. intros _. unfold next_multiple_of in B.
  pose proof (Z.mod_pos_bound (Z.of_nat c * kv_size + (Z.of_nat c + 16)) kv_align Halign). destruct (_ =? _)%Z; nia.
Qed.

Lemma next_cap_pow2 t size : valid t -> table_layout kv_size kv_align (next_cap t) = Some size -> pow2 (next_cap t).
Proof using Hsize Halign.
  intros [(_ & _ & E & _)|W] B%layout_bound; unfold next_cap in *.
  - rewrite E. exists 4. split; [lia | reflexivity].
  - pose proof (cap_pos t (wf_layout t W)). destruct (Nat.eqb_spec (cap t) 0); [lia|].
    destruct (lay_cap t (wf_layout t W)) as (q & Hn & E). exists (S q). rewrite E in *. split; [|cbn; lia].
    split; [lia|]. destruct (decide (q = 62)) as [->|]; [|lia]. rewrite Nat2Z.inj_mul, Nat2Z.inj_pow in B. exfalso. lia.
Qed.

Lemma grow_ok t size : valid t -> table_layout kv_size kv_align (next_cap t) = Some size ->
  exists t', grow kevy_hash kv_size kv_align mmap_ok t = Done t' /\ wf t' /\ cap t' = next_cap t /\ deleted t' = 0 /\
    occupied t' <= cap t /\ contents t' = contents t /\ (auxw t' = None <-> auxw t = None).
Proof using Hsize Halign.
  intros Va B. pose proof (next_cap_pow2 t size Va B) as P. unfold grow, alloc_table. fold (next_cap t). rewrite B.
  cbn [mbind outcome_bind]. set (mapped := _ && _).
  set (new := match auxw t with Some _ => _ | None => _ end).
  assert (En : new = fresh (next_cap t) mapped (match auxw t with Some _ => Some (replicate (next_cap t) 0%Z) | None => None end))
    by (subst new; by destruct (auxw t)).
  destruct (fresh_wf (next_cap t) mapped (match auxw t with Some _ => Some (replicate (next_cap t) 0%Z) | None => None end) P) as [Wn Cn].
  { intros lane E. destruct (auxw t); [|discriminate]. injection E as <-. apply length_replicate. }
  rewrite <- En in Wn, Cn. destruct Va as [U|W].
  - rewrite (unallocated_contents t U). destruct U as (_ & _ & E & _). rewrite E. cbn. exists new.
    split; [reflexivity|]. rewrite En. split_and!; try done; [by rewrite <- En | by rewrite <- En |].
    cbn. by destruct (auxw t).
  - destruct (move_slots_ok t W (cap t) 0 new) as (t' & -> & M & Ec); [lia | | |].
    + rewrite En. cbn [fresh cap]. unfold next_cap. pose proof (cap_pos t (wf_layout t W)).
      destruct (Nat.eqb_spec (cap t) 0); [lia|]. rewrite Nat.div_mul by lia. lia.
    + split; [exact Wn | by rewrite En | rewrite En; cbn; lia | rewrite En; cbn; by destruct (auxw t) |].
      intros k v w. rewrite Cn, lookup_empty. split; [discriminate | intros (j & Lj & _); lia].
    + exists t'. destruct M as [Wt Dt Ct At Mt]. split; [reflexivity|]. split_and!; auto.
      * rewrite Ec, En. reflexivity.
      * apply map_eq. intros k. apply option_eq. intros [v w]. rewrite Mt, contents_Some by exact W.
        split; [intros (j & _ & Hj & E); by exists j|]. intros (j & Hj & E). exists j. split_and!; [|exact Hj|exact E].
        rewrite <- (lay_slots t (wf_layout t W)). by apply lookup_lt_Some in Hj.
      * destruct (auxw t), (auxw t'); try contradiction; split; done.
Qed.

(** ** Erasing *)

Section Erase.
Context (t : KMap) (W : wf t).

(** An EMPTY mark goes where no run of sixteen bytes without EMPTY spans the
    slot, so no probe walks through it. *)
Lemma erase_mark_ok i : i < cap t -> exists b, erase_mark t i = Done b /\ (b = EMPTY \/ b = DELETED) /\ (b = EMPTY -> hole_ok t i).
Proof using W.
  intros Hi. pose proof (wf_layout t W) as L. pose proof (pow2_groups _ (lay_cap t L)) as [C16 C].
  assert (Hc : 0 < cap t) by lia. unfold erase_mark. rewrite mirror_index by assumption.
  set (before := (i + (cap t - 16)) mod cap t).
  destruct (load_ok t L before) as (gb & -> & Lb & Gb); [apply Nat.mod_upper_bound; lia|].
  destruct (load_ok t L i Hi) as (ga & -> & La & Ga). cbn [mbind outcome_bind]. eexists. split; [reflexivity|].
  destruct (Nat.leb_spec GROUP_WIDTH (leading_zeros (match_byte gb EMPTY) + trailing_zeros (match_byte ga EMPTY))) as [S|S];
    [split; [by right | discriminate]|]. split; [by left|]. intros _ k j o Nj Hk Ho Ei. apply (Nat.lt_irrefl GROUP_WIDTH).
  eapply Nat.le_lt_trans; [|exact S]. clear S. destruct (has_byte t W k j Hk) as (Lj & _ & R).
  set (h := home t (kevy_hash k)) in *. set (a := o mod 16). set (w := 16 * (o / 16)).
  assert (Eo : o = w + a) by (subst w a; apply Nat.div_mod; lia). assert (Ha : a < 16) by (apply Nat.mod_upper_bound; lia).
  assert (Win : forall m, m < 16 -> real t !! ((h + (w + m)) mod cap t) <> Some EMPTY).
  { intros m Hm. apply R. subst w. assert (o / 16 < off (cap t) h j / 16); [|lia].
    apply Nat.Div0.div_lt_upper_bound. exact Ho. }
  assert (P : 16 - a <= trailing_zeros (match_byte ga EMPTY)).
  { apply trailing_zeros_ge. intros m Hm. rewrite match_byte_lookup, Ga by lia.
    destruct (real_some t L ((i + m) mod cap t)) as [b Hb]; [apply Nat.mod_upper_bound; lia|]. rewrite Hb. cbn. f_equal.
    apply Z.eqb_neq. intros ->. apply (Win (a + m) ltac:(lia)). rewrite <- Hb. f_equal. rewrite <- Ei, Nat.Div0.add_mod_idemp_l. f_equal. lia. }
  assert (Q : a <= leading_zeros (match_byte gb EMPTY)).
  { apply leading_zeros_ge; [unfold match_byte; rewrite length_fmap; lia|]. intros m Hm.
    replace (length (match_byte gb EMPTY)) with 16 by (unfold match_byte; by rewrite length_fmap).
    rewrite match_byte_lookup, Gb by lia.
    assert (Epos : (before + (16 - 1 - m)) mod cap t = (h + (w + (a - 1 - m))) mod cap t).
    { subst before. rewrite Nat.Div0.add_mod_idemp_l, <- Ei.
      replace ((h + o) mod cap t + (cap t - 16) + (16 - 1 - m)) with ((h + o) mod cap t + (cap t - 1 - m)) by lia.
      rewrite Nat.Div0.add_mod_idemp_l. replace (h + o + (cap t - 1 - m)) with (h + (w + (a - 1 - m)) + 1 * cap t) by lia.
      apply Nat.Div0.mod_add. }
    rewrite Epos. destruct (real_some t L ((h + (w + (a - 1 - m))) mod cap t)) as [b Hb]; [apply Nat.mod_upper_bound; lia|].
    rewrite Hb. cbn. f_equal. apply Z.eqb_neq. intros ->. by apply (Win (a - 1 - m) ltac:(lia)). }
  unfold GROUP_WIDTH. lia.
Qed.

Lemma erase_at_ok i k v b : slots t !! i = Some (Some (k, v)) -> b = EMPTY \/ b = DELETED -> (b = EMPTY -> hole_ok t i) ->
  exists t', erase_at i b t = Done (t', v) /\ wf t' /\ cap t' = cap t /\ contents t' = delete k (contents t) /\ auxw t' = auxw t.
Proof using W.
  intros Hs Hb Hole. pose proof (wf_layout t W) as L. destruct (has_byte t W k i ltac:(by exists v)) as (Hi & Hm & _).
  unfold erase_at. rewrite set_meta_ok by assumption. cbn [mbind outcome_bind].
  assert (R : forall ms, read_slot (set_metadata ms t) i = Done (k, v)) by (intros ms; by apply read_slot_ok).
  rewrite R. cbn [mbind outcome_bind]. rewrite write_slot_ok by (cbn; by rewrite (lay_slots t L)). cbn [mbind outcome_bind].
  eexists. split; [reflexivity|].
  match goal with |- wf ?x /\ _ => set (t' := x) end.
  assert (W' : wf t').
  { pose proof (cnt_insert is_full _ _ _ b Hm) as C1. pose proof (cnt_insert (fun b => Z.eqb b DELETED) _ _ _ b Hm) as C2.
    cbn beta in C2. destruct (one_full k) as [O1 O2]. rewrite O1 in C1. rewrite O2 in C2.
    rewrite <- (wf_occupied t W) in C1. rewrite <- (wf_deleted t W) in C2.
    assert (O3 : one (is_full b) = 0) by (by rewrite (not_full_mark b Hb)).
    pose proof (wf_load t W) as Ld. subst t'. cbn.
    apply (update_wf t W i _ b None (occupied t - 1) _ (auxw t) Hm); [exact Hb | exact Hole | lia | | | apply L];
      destruct (Z.eqb_spec b DELETED); cbn in C2; lia. }
  split_and!; [exact W' | reflexivity | by apply (contents_erase t t' i k v W W' Hs) | reflexivity].
Qed.
End Erase.
End Sized.
End Spec.
