(* ===== verification/Glob.v ===== *)
(** * Glob patterns ([crates/kevy-store/src/util.rs])

    The matcher behind KEYS, SCAN's MATCH and PSUBSCRIBE: a loop with one
    anchor to come back to.  It is proved to decide the recursive reading of a
    pattern, within a number of rounds bounded by the product of the lengths. *)

From Stdlib Require Import ZArith Lia Bool Strings.Byte Strings.String.
From stdpp Require Import base list.
From S2P Require Import Prelude.

#[local] Open Scope list_scope.
#[local] Open Scope nat_scope.

Definition STAR : byte := "*"%byte.

(** ** Tokens *)

(** [match_class] from the first byte that is not its [^]: what has matched
    so far, then whether one did and what is left after the class.  [fuel] is
    the length. *)
Fixpoint class_loop (fuel : nat) (p : list byte) (ch : byte) (matched : bool) : bool * list byte :=
  match fuel, p with
  | S fuel, c :: r =>
      if Byte.eqb c "]"%byte then (matched, r)
      else
        match r with
        | d :: r2 =>
            if Byte.eqb c "\"%byte then class_loop fuel r2 ch (matched || Byte.eqb d ch)
            else
              match r2 with
              | e :: r3 =>
                  if Byte.eqb d "-"%byte && negb (Byte.eqb e "]"%byte) then
                    let lo := Z.min (bz c) (bz e) in
                    let hi := Z.max (bz c) (bz e) in
                    class_loop fuel r3 ch (matched || ((lo <=? bz ch)%Z && (bz ch <=? hi)%Z))
                  else class_loop fuel r ch (matched || Byte.eqb c ch)
              | [] => class_loop fuel r ch (matched || Byte.eqb c ch)
              end
        | [] => class_loop fuel r ch (matched || Byte.eqb c ch)
        end
  | _, _ => (matched, p)
  end.

Definition match_class (p : list byte) (ch : byte) : bool * list byte :=
  let negate := match p with c :: _ => Byte.eqb c "^"%byte | [] => false end in
  let '(matched, rest) := class_loop (length p) (if negate then drop 1 p else p) ch false in
  (xorb matched negate, rest).

(** [p] is not empty where the code calls it. *)
Definition match_token (p : list byte) (ch : byte) : option nat :=
  match p with
  | [] => None
  | c :: r =>
      if Byte.eqb c "?"%byte then Some 1
      else if Byte.eqb c "["%byte then
        let '(matched, rest) := match_class r ch in
        if matched : bool then Some (length p - length rest) else None
      else
        match r with
        | d :: _ => if Byte.eqb c "\"%byte then (if Byte.eqb d ch then Some 2 else None)
                    else if Byte.eqb c ch then Some 1 else None
        | [] => if Byte.eqb c ch then Some 1 else None
        end
  end.

(** ** The matcher *)

(** [while pi < p.len() && p[pi] == b'*' { pi += 1 }]: the stars at the head. *)
Fixpoint stars (p : list byte) : nat :=
  match p with
  | c :: r => if Byte.eqb c STAR then S (stars r) else 0
  | [] => 0
  end.

(** One round per fuel; [None] when it runs out. *)
Fixpoint glob_loop (fuel : nat) (p s : list byte) (pi si : nat) (star_pi : option nat) (star_si : nat) : option bool :=
  if negb (si <? length s) then Some (pi + stars (drop pi p) =? length p)
  else
    match fuel with
    | 0 => None
    | S fuel =>
        let n := stars (drop pi p) in
        if 0 <? n then glob_loop fuel p s (pi + n) si (Some (pi + n)) si
        else
          match s !! si ≫= match_token (drop pi p) with
          | Some width => glob_loop fuel p s (pi + width) (S si) star_pi star_si
          | None =>
              match star_pi with
              | None => Some false
              | Some anchor => glob_loop fuel p s anchor (S star_si) star_pi (S star_si)
              end
          end
    end.

(** The rounds a pattern and a string can take. *)
Definition rounds (p s : list byte) : nat := (length s + 1) * (length p + 2).

Definition glob_match (p s : list byte) : bool := default false (glob_loop (rounds p s) p s 0 0 None 0).

(** ** The recursive reading *)

Inductive matches : list byte -> list byte -> Prop :=
| matches_nil : matches [] []
| matches_star p a b : matches p b -> matches (STAR :: p) (a ++ b)
| matches_token p c s w : head p <> Some STAR -> match_token p c = Some w -> matches (drop w p) s -> matches p (c :: s).

Example glob_samples :
  (glob_match (list_byte_of_string "h[^e]llo") (list_byte_of_string "hallo"),
   glob_match (list_byte_of_string "h[^e]llo") (list_byte_of_string "hello"),
   glob_match (list_byte_of_string "a\*") (list_byte_of_string "a*"),
   glob_match (list_byte_of_string "*a*a*b") (list_byte_of_string "aaaaaaaab"),
   glob_match (list_byte_of_string "[z-a]x") (list_byte_of_string "mx"),
   glob_match (list_byte_of_string "[abc") (list_byte_of_string "b")) = (true, false, true, true, true, true).
Proof. vm_compute. reflexivity. Qed.

(** ** Tokens match one byte, and their width is the pattern's *)

Lemma class_rest : forall fuel p c d m m', snd (class_loop fuel p c m) = snd (class_loop fuel p d m').
Proof.
  induction fuel as [|fuel IH]; intros [|x [|y [|z p]]] c d m m'; cbn [class_loop]; try done;
    repeat match goal with |- context [if ?b then _ else _] => destruct b end; try done; apply IH.
Qed.

Lemma class_rest_len : forall fuel p c m, length (snd (class_loop fuel p c m)) <= length p.
Proof.
  induction fuel as [|fuel IH]; intros p c m; [by destruct p|].
  destruct p as [|x [|y [|z p]]]; cbn [class_loop]; repeat match goal with |- context [if ?b then _ else _] => destruct b end;
    cbn [snd length]; try lia; (etransitivity; [apply IH | cbn [length]; lia]).
Qed.

Lemma match_class_rest p c d : snd (match_class p c) = snd (match_class p d) /\ length (snd (match_class p c)) <= length p.
Proof.
  unfold match_class. cbv zeta. set (q := if match p with c :: _ => _ | [] => false end then drop 1 p else p).
  assert (Hq : length q <= length p) by (subst q; destruct (match p with [] => _ | _ => _ end); rewrite ?length_drop; lia).
  pose proof (class_rest (length p) q c d false false) as E. pose proof (class_rest_len (length p) q c false) as L.
  destruct (class_loop (length p) q c false), (class_loop (length p) q d false). cbn [snd] in *. split; [exact E | lia].
Qed.

Lemma token_width p c w : match_token p c = Some w -> 1 <= w <= length p.
Proof.
  destruct p as [|x r]; [done|]. cbn [match_token]. destruct (Byte.eqb x "?"%byte); [intros [= <-]; cbn; lia|].
  destruct (Byte.eqb x "["%byte).
  - pose proof (proj2 (match_class_rest r c c)) as L. destruct (match_class r c) as [[] rest]; [|done]. cbn [snd] in L.
    intros [= <-]. cbn [length]. lia.
  - destruct r as [|y r]; repeat (destruct (Byte.eqb _ _); try done); intros [= <-]; cbn; lia.
Qed.

Lemma token_width_same p c d w w' : match_token p c = Some w -> match_token p d = Some w' -> w = w'.
Proof.
  destruct p as [|x r]; [done|]. cbn [match_token]. destruct (Byte.eqb x "?"%byte); [congruence|].
  destruct (Byte.eqb x "["%byte).
  - pose proof (proj1 (match_class_rest r c d)) as E. destruct (match_class r c) as [[] rest], (match_class r d) as [[] rest'];
      cbn [snd] in E; congruence.
  - destruct r as [|y r]; repeat match goal with |- context [if ?b then _ else _] => destruct b end; congruence.
Qed.

Lemma matches_token_inv p c s : head p <> Some STAR -> matches p (c :: s) -> exists w, match_token p c = Some w /\ matches (drop w p) s.
Proof. intros N M. inversion M; subst; [by exfalso; apply N | by eexists]. Qed.

(** Tokens matched one after the other against [l], leaving [q]. *)
Inductive path : list byte -> list byte -> list byte -> Prop :=
| path_nil p : path p [] p
| path_cons p c l q w : head p <> Some STAR -> match_token p c = Some w -> path (drop w p) l q -> path p (c :: l) q.

Lemma path_snoc p l q c w : path p l q -> head q <> Some STAR -> match_token q c = Some w -> path p (l ++ [c]) (drop w q).
Proof. induction 1; intros N M; cbn; econstructor; eauto; constructor. Qed.

Lemma path_matches p l q s : path p l q -> matches p (l ++ s) <-> matches q s.
Proof.
  induction 1 as [|p c l q w N M _ IH]; [done|]. rewrite <- IH. cbn. split.
  - intros (w' & M' & H)%matches_token_inv; [|exact N]. by rewrite (token_width_same p c c w w' M M').
  - intros H. by apply (matches_token p c _ w).
Qed.

(** Whatever matches [p] spends a byte for each of those tokens. *)
Lemma path_spends p l q s : path p l q -> matches p s -> length l <= length s /\ matches q (drop (length l) s).
Proof.
  intros P. revert s. induction P as [|p c l q w N M _ IH]; intros s H; [split; [cbn; lia | done]|].
  inversion H as [|? ? ? _|? c' s' w' _ M' H']; subst; [done | by exfalso; apply N |].
  rewrite (token_width_same p c c' w w' M M') in IH. destruct (IH s' H'). cbn. split; [lia | done].
Qed.

(** ** Stars *)

Lemma stars_split q : q = replicate (stars q) STAR ++ drop (stars q) q /\ head (drop (stars q) q) <> Some STAR.
Proof.
  induction q as [|c q [IH1 IH2]]; cbn; [done|]. destruct (byte_eqb_spec c STAR) as [->|N]; cbn; [|by split; [|intros [= ?]]].
  by rewrite <- IH1.
Qed.

Lemma stars_le q : stars q <= length q.
Proof. induction q as [|c q IH]; cbn; [lia|]. destruct (Byte.eqb c STAR); lia. Qed.

Lemma stars_match n q t : matches (replicate n STAR ++ q) t <->
  match n with 0 => matches q t | S _ => exists k, k <= length t /\ matches q (drop k t) end.
Proof.
  revert t. induction n as [|n IH]; intros t; cbn [replicate app]; [done|]. split.
  - intros H. inversion H as [|? a b Hb|? ? ? ? N]; subst; [|by exfalso; apply N]. apply IH in Hb. destruct n.
    + exists (length a). rewrite length_app, drop_app_length. split; [lia | done].
    + destruct Hb as (k & Hk & Hb). exists (length a + k). rewrite length_app, <- drop_drop, drop_app_length. split; [lia | done].
  - intros (k & Hk & H). rewrite <- (take_drop k t). apply matches_star, IH. destruct n; [done|]. exists 0. by rewrite drop_0; split; [lia|].
Qed.

Lemma stars_skip q t : 0 < stars q -> matches q t <-> exists k, k <= length t /\ matches (drop (stars q) q) (drop k t).
Proof.
  intros H. rewrite (proj1 (stars_split q)) at 1. rewrite stars_match. by destruct (stars q); [lia|].
Qed.

Lemma matches_empty q : matches q [] <-> stars q = length q.
Proof.
  split.
  - rewrite (proj1 (stars_split q)) at 1. rewrite stars_match. pose proof (stars_le q) as L.
    assert (E : forall r : list byte, matches r [] -> head r <> Some STAR -> r = []).
    { intros r H N. inversion H as [|? a b Hb E|]; subst; [done | by exfalso; apply N]. }
    intros H. assert (M : matches (drop (stars q) q) []).
    { destruct (stars q); [exact H|]. destruct H as (k & _ & H). by rewrite drop_nil in H. }
    apply E in M; [|apply stars_split]. apply (f_equal length) in M. rewrite length_drop in M. cbn in M. lia.
  - intros E. destruct (stars_split q) as [S _]. rewrite E, drop_ge, app_nil_r in S by lia. rewrite S. clear.
    generalize (length q). intros n. rewrite <- (app_nil_r (replicate n STAR)). apply stars_match.
    destruct n; [constructor | exists 0; split; [lia | constructor]].
Qed.

(** ** The loop *)

Section Loop.
Context (p s : list byte).

(** What the whole match comes to, seen from a state of the loop. *)
Definition verdict (pi si : nat) (star_pi : option nat) (star_si : nat) : Prop :=
  match star_pi with
  | None => matches (drop pi p) (drop si s)
  | Some a => exists j, star_si <= j <= length s /\ matches (drop a p) (drop j s)
  end.

(** With an anchor, the tokens since then have matched the bytes since then. *)
Record state_ok (pi si : nat) (star_pi : option nat) (star_si : nat) : Prop := {
  ok_pi : pi <= length p;
  ok_si : star_si <= si <= length s;
  ok_anchor : forall a, star_pi = Some a -> a <= pi /\ path (drop a p) (take (si - star_si) (drop star_si s)) (drop pi p)
}.

(** Rounds left at most. *)
Definition budget (pi star_si : nat) : nat := (length s - star_si) * (length p + 2) + (length p - pi).

Section State.
Context (pi si : nat) (star_pi : option nat) (star_si : nat) (Ok : state_ok pi si star_pi star_si).

Lemma resume a : star_pi = Some a -> matches (drop a p) (drop star_si s) <-> matches (drop pi p) (drop si s).
Proof using Ok.
  intros Ea. destruct Ok as [_ Hs Ha]. destruct (Ha a Ea) as [_ P].
  rewrite <- (path_matches _ _ _ (drop si s) P). replace (drop si s) with (drop (si - star_si) (drop star_si s)) by (rewrite drop_drop; f_equal; lia).
  by rewrite take_drop.
Qed.

(** A match from the anchor later in the string goes through [pi] past [si]. *)
Lemma later a j : star_pi = Some a -> star_si <= j <= length s -> matches (drop a p) (drop j s) ->
  j + (si - star_si) <= length s /\ matches (drop pi p) (drop (j + (si - star_si)) s).
Proof using Ok.
  intros Ea Hj M. destruct Ok as [_ Hs Ha]. destruct (Ha a Ea) as [_ P]. apply (path_spends _ _ _ _ P) in M as [L M].
  rewrite length_take, !length_drop, drop_drop in *. replace (Nat.min (si - star_si) (length s - star_si)) with (si - star_si) in * by lia.
  split; [lia | done].
Qed.

Lemma verdict_end : si = length s -> verdict pi si star_pi star_si <-> matches (drop pi p) [].
Proof using Ok.
  intros E. pose proof resume as R. pose proof later as La. pose proof (ok_si _ _ _ _ Ok) as Hs.
  unfold verdict. destruct star_pi as [a|]; [|by rewrite E, drop_all].
  specialize (R a eq_refl). rewrite E, drop_all in R. split.
  - intros (j & Hj & M). destruct (La a j eq_refl Hj M) as [L _]. apply R. replace star_si with j; [done | lia].
  - intros M. exists star_si. split; [lia | by apply R].
Qed.

Lemma verdict_star : 0 < stars (drop pi p) ->
  let n := pi + stars (drop pi p) in
  (verdict pi si star_pi star_si <-> verdict n si (Some n) si) /\ state_ok n si (Some n) si.
Proof using Ok.
  intros Hn n. pose proof (stars_le (drop pi p)) as L. rewrite length_drop in L. destruct Ok as [Hp Hs Ha]. split.
  - assert (S : matches (drop pi p) (drop si s) <-> exists k, k <= length s - si /\ matches (drop n p) (drop (si + k) s)).
    { rewrite stars_skip by exact Hn. rewrite length_drop, drop_drop. setoid_rewrite drop_drop. done. }
    assert (G : (exists j, si <= j <= length s /\ matches (drop n p) (drop j s)) <-> matches (drop pi p) (drop si s)).
    { rewrite S. split; [intros (j & Hj & M); exists (j - si) | intros (k & Hk & M); exists (si + k)].
      - replace (si + (j - si)) with j by lia. split; [lia | done].
      - split; [lia | done]. }
    pose proof resume as R. pose proof later as Lt.
    unfold verdict at 2. rewrite G. unfold verdict. destruct star_pi as [a|]; [|done]. split.
    + intros (j & Hj & M). destruct (Lt a j eq_refl Hj M) as [L1 M1]. apply G. apply stars_skip in M1 as (k & Hk & M1); [|exact Hn].
      rewrite length_drop in Hk. rewrite !drop_drop in M1. eexists. split; [|exact M1]. lia.
    + intros M. exists star_si. split; [lia|]. by apply (R a).
  - split; [lia | lia |]. intros a [= <-]. split; [lia|]. rewrite Nat.sub_diag, take_0. constructor.
Qed.

Lemma verdict_token c w : si < length s -> s !! si = Some c -> stars (drop pi p) = 0 -> match_token (drop pi p) c = Some w ->
  (verdict pi si star_pi star_si <-> verdict (pi + w) (S si) star_pi star_si) /\ state_ok (pi + w) (S si) star_pi star_si.
Proof using Ok.
  intros Hsi Hc Hn M. destruct Ok as [Hp Hs Ha]. pose proof (token_width _ _ _ M) as Hw. rewrite length_drop in Hw.
  assert (N : head (drop pi p) <> Some STAR) by (pose proof (proj2 (stars_split (drop pi p))) as X; by rewrite Hn, drop_0 in X).
  split.
  - unfold verdict. destruct star_pi; [done|]. rewrite (drop_S _ c si Hc), <- drop_drop.
    apply (path_matches (drop pi p) [c] (drop w (drop pi p)) (drop (S si) s)). econstructor; [done | exact M | constructor].
  - split; [lia | lia |]. intros a Ea. destruct (Ha a Ea) as [La P]. split; [lia|].
    replace (S si - star_si) with (S (si - star_si)) by lia. rewrite (take_S_r _ _ c).
    + rewrite <- drop_drop. by apply path_snoc.
    + rewrite lookup_drop. replace (star_si + (si - star_si)) with si by lia. exact Hc.
Qed.

Lemma mismatch c : s !! si = Some c -> stars (drop pi p) = 0 -> match_token (drop pi p) c = None ->
  ~ matches (drop pi p) (drop si s).
Proof.
  intros Hc Hn M H. rewrite (drop_S _ c si Hc) in H.
  assert (N : head (drop pi p) <> Some STAR) by (pose proof (proj2 (stars_split (drop pi p))) as X; by rewrite Hn, drop_0 in X).
  apply matches_token_inv in H as (w & Mw & _); [congruence | exact N].
Qed.

Lemma verdict_back a : star_pi = Some a -> si < length s -> ~ matches (drop pi p) (drop si s) ->
  (verdict pi si star_pi star_si <-> verdict a (S star_si) star_pi (S star_si)) /\ state_ok a (S star_si) star_pi (S star_si).
Proof using Ok.
  intros Ea Hsi N. destruct Ok as [Hp Hs Ha]. destruct (Ha a Ea) as [La _]. split.
  - unfold verdict. rewrite Ea. split; intros (j & Hj & M).
    + exists j. split; [|done]. destruct (decide (j = star_si)) as [->|]; [|lia]. exfalso. by apply N, (resume a Ea).
    + exists j. split; [lia | done].
  - split; [lia | lia |]. intros a' Ea'. assert (a' = a) as -> by congruence. split; [lia|].
    rewrite Nat.sub_diag, take_0. constructor.
Qed.
End State.

Lemma glob_loop_ok : forall fuel pi si star_pi star_si, state_ok pi si star_pi star_si -> budget pi star_si <= fuel ->
  exists b, glob_loop fuel p s pi si star_pi star_si = Some b /\ (b = true <-> verdict pi si star_pi star_si).
Proof.
  induction fuel as [|fuel IH]; intros pi si star_pi star_si Ok B; cbn [glob_loop]; destruct (Nat.ltb_spec si (length s)) as [Hsi|Hsi]; cbn [negb].
  2,4: pose proof (ok_si _ _ _ _ Ok); pose proof (ok_pi _ _ _ _ Ok); eexists; (split; [reflexivity|]);
    rewrite (verdict_end pi si star_pi star_si Ok), Nat.eqb_eq, matches_empty, length_drop by lia; lia.
  - exfalso. unfold budget in B. destruct Ok as [_ Hs _]. nia.
  - assert (Hs := ok_si _ _ _ _ Ok). assert (Hp := ok_pi _ _ _ _ Ok). unfold budget in B. destruct (Nat.ltb_spec 0 (stars (drop pi p))) as [Hn|Hn].
    + destruct (verdict_star pi si star_pi star_si Ok Hn) as [V Ok']. destruct (IH _ _ _ _ Ok') as (b & E & Hb).
      * pose proof (stars_le (drop pi p)) as Ls. rewrite length_drop in Ls.
        unfold budget. assert ((length s - si) * (length p + 2) <= (length s - star_si) * (length p + 2)) by (apply Nat.mul_le_mono_r; lia). lia.
      * exists b. split; [exact E|]. by rewrite V.
    + destruct (lookup_lt_is_Some_2 s si Hsi) as [c Hc]. rewrite Hc. cbn [mbind option_bind].
      destruct (match_token (drop pi p) c) as [w|] eqn:M.
      * pose proof (token_width _ _ _ M) as Hw. rewrite length_drop in Hw.
        destruct (verdict_token pi si star_pi star_si Ok c w Hsi Hc ltac:(lia) M) as [V Ok'].
        destruct (IH _ _ _ _ Ok') as (b & E & Hb); [unfold budget; lia|]. exists b. split; [exact E|]. by rewrite V.
      * pose proof (mismatch pi si c Hc ltac:(lia) M) as N. destruct star_pi as [a|].
        -- destruct (verdict_back pi si (Some a) star_si Ok a eq_refl Hsi N) as [V Ok'].
           destruct (IH _ _ _ _ Ok') as (b & E & Hb).
           { unfold budget. replace (length s - star_si) with (S (length s - S star_si)) in B by lia. rewrite Nat.mul_succ_l in B. lia. }
           exists b. split; [exact E|]. by rewrite V.
        -- exists false. split; [done|]. split; [done | intros V; by exfalso].
Qed.
End Loop.

Lemma glob_is_rule p s : glob_match p s = true <-> matches p s.
Proof.
  destruct (glob_loop_ok p s (rounds p s) 0 0 None 0) as (b & E & Hb).
  - split; [lia | lia | discriminate].
  - unfold budget, rounds. lia.
  - unfold glob_match. rewrite E. cbn. exact Hb.
Qed.

(** The iterative matcher decides the recursive reading of the pattern, for
    every pattern, unclosed classes and dangling escapes included. *)
Theorem glob_is_the_recursive_reading (p s : list byte) : glob_match p s = true <-> matches p s.
Proof. apply glob_is_rule. Qed.

(** The matcher is quadratic: whatever the pattern, the loop takes no more
    rounds than the product of the lengths, each one more, and more fuel
    changes nothing. *)
Theorem glob_rounds_bounded (p s : list byte) (fuel : nat) :
  rounds p s <= fuel -> glob_loop fuel p s 0 0 None 0 = Some (glob_match p s).
Proof.
  intros F. destruct (glob_loop_ok p s fuel 0 0 None 0) as (b & E & Hb); [split; [lia | lia | discriminate] | unfold budget, rounds in *; lia |].
  rewrite E. f_equal. apply eq_true_iff_eq. rewrite Hb. symmetry. apply glob_is_rule.
Qed.

Lemma glob_rounds_bounded_witness :
  glob_loop 200 (list_byte_of_string "*a*a*a*!") (list_byte_of_string "aaaaaaaaaa") 0 0 None 0 = Some false.
Proof.
  rewrite (glob_rounds_bounded (list_byte_of_string "*a*a*a*!") (list_byte_of_string "aaaaaaaaaa") 200); [vm_compute; reflexivity|].
  vm_compute. lia.
Defined.
