(* ===== verification/StoreUtil.v ===== *)
(** * The keyspace's small helpers ([crates/kevy-store/src/util.rs], [clock.rs],
    [crates/kevy-bytes/src/lib.rs])

    Integers as text (the canonical form a stored string is recognised by),
    index ranges, saturating counters, deadlines in nanoseconds, and the
    short-string type keys and values are kept in.  A [Duration] is its
    nanoseconds. *)

From Stdlib Require Import ZArith Lia Bool Strings.Byte Strings.String.
From stdpp Require Import base list.
From S2P Require Import Prelude Utf8 Encode.

#[local] Open Scope list_scope.
#[local] Open Scope Z_scope.
#[local] Open Scope kevy_scope.

(** ** Indices *)

Definition norm_index (idx len : Z) : option Z :=
  let i := if idx <? 0 then idx + len else idx in
  if (i <? 0) || (len <=? i) then None else Some i.

Definition range_bounds (start stop len : Z) : option (Z * Z) :=
  if len =? 0 then None
  else
    let s := Z.max (if start <? 0 then start + len else start) 0 in
    let e := Z.min (if stop <? 0 then stop + len else stop) (len - 1) in
    if (e <? s) || (len <=? s) then None else Some (s, e).

(** ** Integers as text *)

(** [str::parse::<i64>] of the standard library: an optional sign, then
    digits only, at least one, with a value that fits. *)
Definition i64_digits (neg : bool) (l : list byte) : option Z :=
  match l with
  | [] => None
  | _ => if forallb is_ascii_digit l
         then checked_i64 (if neg then - digits_val 0 l else digits_val 0 l) else None
  end.

Definition i64_from_str (s : list byte) : option Z :=
  match s with
  | [] => None
  | b :: r => if b =b "-"%byte then i64_digits true r
              else if b =b "+"%byte then i64_digits false r else i64_digits false s
  end.

Definition parse_i64 (b : list byte) : option Z := if is_utf8 b then i64_from_str b else None.

(** The digit loop of [format_i64_into], in the [room] bytes left of the
    20-byte buffer; the unused room comes back with the digits. *)
Fixpoint format_digits (room : nat) (n : Z) (acc : list byte) : exec (nat * list byte) :=
  if n =? 0 then Ret (room, acc)
  else match room with
       | O => Panic
       | S room' => format_digits room' (n / 10) (digit_byte (n mod 10) :: acc)
       end.

Definition format_i64_into (n : Z) : exec (list byte) :=
  let n_abs := Z.abs n in
  p ← (if n_abs =? 0 then Ret (19%nat, bs "0") else format_digits 20 n_abs []);
  let '(room, acc) := p in
  if n <? 0 then match room with O => Panic | S _ => Ret ("-"%byte :: acc) end else Ret acc.

(** [None] stands for a value that is not canonical; the formatting cannot
    panic ([format_i64_ok]). *)
Definition parse_canonical_i64 (b : list byte) : option Z :=
  if (blen b =? 0) || (20 <? blen b) then None
  else
    match b with
    | [] => None
    | first :: _ =>
        if negb (is_ascii_digit first) && negb (first =b "-"%byte) then None
        else
          match parse_i64 b with
          | None => None
          | Some n =>
              match format_i64_into n with
              | Ret s => if bool_decide (s = b) then Some n else None
              | Panic => None
              end
          end
    end.

(** ** Saturating counters *)

(** [saturating_add] and [saturating_sub] on [u64] *)
Definition u64_add (v d : Z) : Z := Z.min (v + d) u64_max.
Definition u64_sub (v d : Z) : Z := Z.max (v - d) 0.

Definition apply_delta (v delta : Z) : Z :=
  if 0 <=? delta then u64_add v delta else u64_sub v (- delta).

(** ** Deadlines *)

(** [NonZeroU64::new] *)
Definition pack_deadline (deadline_ns : Z) : option Z := if deadline_ns =? 0 then None else Some deadline_ns.

Definition deadline_at (now_ns ttl : Z) : Z := u64_add now_ns (Z.min ttl u64_max).

Definition remaining_ms (deadline now_ns : Z) : Z := u64_sub deadline now_ns / 1000000.

(** ** Short byte strings *)

Definition INLINE_CAP : Z := 23.
Definition INLINE_LEN_MAX : Z := INLINE_CAP.

(** A [Vec<u8>]: its bytes and its capacity. *)
Record Vec := mkVec { vec_bytes : list byte; vec_cap : Z }.

Definition to_vec (b : list byte) : Vec := mkVec b (blen b).

(** [sb_cap] is the allocation's capacity, when there is one. *)
Record SmallBytes := mkSmallBytes { sb_bytes : list byte; sb_cap : Z }.

Definition from_slice (b : list byte) : SmallBytes := mkSmallBytes b (blen b).
Definition from_vec (v : Vec) : SmallBytes :=
  if blen (vec_bytes v) <=? INLINE_LEN_MAX then from_slice (vec_bytes v)
  else mkSmallBytes (vec_bytes v) (vec_cap v).
Definition is_inline (s : SmallBytes) : bool := blen (sb_bytes s) <=? INLINE_LEN_MAX.
Definition heap_bytes (s : SmallBytes) : Z := if is_inline s then 0 else sb_cap s.
Definition heap_bytes_for (b : list byte) : Z := if blen b <=? INLINE_LEN_MAX then 0 else blen b.
Definition into_vec (s : SmallBytes) : Vec :=
  if is_inline s then to_vec (sb_bytes s) else mkVec (sb_bytes s) (sb_cap s).

(** ** The texts of integers *)

Lemma int_text_nonneg n : 0 <= n -> int_text n = dec n.
Proof. intros H. unfold int_text. destruct (Z.ltb_spec n 0); [lia | reflexivity]. Qed.

Lemma int_text_neg n : n < 0 -> int_text n = "-"%byte :: dec (- n).
Proof. intros H. unfold int_text. destruct (Z.ltb_spec n 0); [reflexivity | lia]. Qed.

Lemma digits_utf8 l : forallb is_ascii_digit l = true -> is_utf8 l = true.
Proof.
  induction l as [|b l IH]; cbn; [reflexivity|]. intros [Hb Hl]%andb_true_iff.
  pose proof (digit_val_range b Hb). destruct (Z.ltb_spec (bz b) 128); [auto | lia].
Qed.

Lemma forallb_digits l : Forall (fun b => is_ascii_digit b = true) l -> forallb is_ascii_digit l = true.
Proof. intros H. apply forallb_forall. intros x Hx. by apply (proj1 (List.Forall_forall _ _) H). Qed.

Lemma format_digits_ok room : forall m acc, 0 <= m < 10 ^ Z.of_nat room ->
  exists left, format_digits room m acc = Ret (left, dec_acc room m acc) /\
    (forall k : nat, (k <= room)%nat -> m < 10 ^ Z.of_nat k -> (room - k <= left)%nat).
Proof.
  induction room as [|room IH]; intros m acc H; cbn [format_digits dec_acc].
  - destruct (Z.eqb_spec m 0) as [->|N]; [|cbn in H; lia]. exists 0%nat. split; [reflexivity | lia].
  - destruct (Z.eqb_spec m 0) as [->|N].
    + exists (S room). split; [reflexivity | lia].
    + destruct (IH (m / 10) (digit_byte (m mod 10) :: acc) (div10_bound _ _ H)) as (left & E & L).
      exists left. split; [exact E|]. intros [|k] Hk Hm; [cbn in Hm; lia|].
      specialize (L k ltac:(lia)). enough (m / 10 < 10 ^ Z.of_nat k) by (specialize (L H0); lia).
      apply div10_bound. split; [lia | exact Hm].
Qed.

Lemma format_i64_ok n : i64_min <= n <= i64_max -> format_i64_into n = Ret (int_text n).
Proof.
  unfold i64_min, i64_max. intros H. unfold format_i64_into, int_text, dec.
  destruct (Z.eqb_spec (Z.abs n) 0) as [E|N].
  - assert (n = 0) as -> by lia. reflexivity.
  - destruct (format_digits_ok 20 (Z.abs n) [] ltac:(cbn; lia)) as (left & E & L).
    rewrite E. cbn [mbind exec_bind]. specialize (L 19%nat ltac:(lia) ltac:(cbn; lia)).
    destruct (Z.ltb_spec n 0).
    + destruct left; [lia|]. destruct (Z.eqb_spec (- n) 0); [lia|]. rewrite Z.abs_neq by lia. reflexivity.
    + destruct (Z.eqb_spec n 0); [lia|]. rewrite Z.abs_eq by lia. reflexivity.
Qed.

Lemma digit_not_minus b : is_ascii_digit b = true -> b <> "-"%byte /\ b <> "+"%byte.
Proof. intros H. split; intros ->; discriminate. Qed.

Lemma i64_digits_dec neg m : 0 <= m < 10 ^ 20 ->
  i64_digits neg (dec m) = checked_i64 (if neg then - m else m).
Proof.
  intros H. unfold i64_digits. rewrite (forallb_digits _ (dec_digits m ltac:(lia))), dec_val by lia.
  destruct (dec m) eqn:E; [|reflexivity]. by apply dec_nonempty in E; [|lia].
Qed.

Lemma int_text_utf8 n : is_utf8 (int_text n) = true.
Proof.
  destruct (Z.ltb_spec n 0) as [L|L].
  - rewrite int_text_neg by lia. cbn. apply digits_utf8, forallb_digits, dec_digits. lia.
  - rewrite int_text_nonneg by lia. apply digits_utf8, forallb_digits, dec_digits. lia.
Qed.

Lemma parse_int_text n : i64_min <= n <= i64_max -> parse_i64 (int_text n) = Some n.
Proof.
  intros H. unfold parse_i64. rewrite int_text_utf8. assert (Hc := H). unfold i64_min, i64_max in H.
  destruct (Z.ltb_spec n 0) as [L|L].
  - rewrite int_text_neg by lia. cbn. rewrite i64_digits_dec by lia. rewrite Z.opp_involutive. by apply checked_i64_ok.
  - rewrite int_text_nonneg by lia. unfold i64_from_str.
    destruct (dec n) as [|b r] eqn:E; [by apply dec_nonempty in E; [|lia]|].
    pose proof (dec_digits n ltac:(lia)) as D. rewrite E in D. inversion D as [|? ? Hb _]; subst.
    destruct (digit_not_minus b Hb) as [N1 N2].
    destruct (byte_eqb_spec b "-"%byte); [contradiction|]. destruct (byte_eqb_spec b "+"%byte); [contradiction|].
    rewrite <- E, i64_digits_dec by lia. by apply checked_i64_ok.
Qed.

Lemma int_text_len n : i64_min <= n <= i64_max -> 1 <= blen (int_text n) <= 20.
Proof.
  unfold i64_min, i64_max, blen. intros H.
  assert (G : forall m, 0 <= m <= 2 ^ 63 -> (1 <= length (dec m) <= 19)%nat).
  { intros m Hm. split.
    - pose proof (dec_nonempty m ltac:(lia)). destruct (dec m); [done | cbn; lia].
    - unfold dec. destruct (m =? 0); [cbn; lia|].
      assert (D : forall f k acc, 0 <= k < 10 ^ Z.of_nat f -> (length (dec_acc (S f) k acc) <= f + length acc)%nat).
      { induction f as [|f IH]; intros k acc Hk.
        - assert (k = 0) as -> by (cbn in Hk; lia). cbn. lia.
        - change (dec_acc (S (S f)) k acc) with
            (if k =? 0 then acc else dec_acc (S f) (k / 10) (digit_byte (k mod 10) :: acc)).
          destruct (k =? 0); [lia|]. specialize (IH (k / 10) (digit_byte (k mod 10) :: acc) (div10_bound _ _ Hk)).
          cbn [length] in IH. lia. }
      specialize (D 19%nat m [] ltac:(cbn; lia)). cbn [length] in D. lia. }
  destruct (Z.ltb_spec n 0) as [L|L].
  - rewrite int_text_neg by lia. cbn [length]. specialize (G (- n) ltac:(lia)). lia.
  - rewrite int_text_nonneg by lia. specialize (G n ltac:(lia)). lia.
Qed.

Lemma parse_i64_range b n : parse_i64 b = Some n -> i64_min <= n <= i64_max.
Proof.
  unfold parse_i64, i64_from_str, i64_digits. intros H.
  repeat match type of H with
  | (if ?c then _ else _) = _ => destruct c
  | match ?c with [] => _ | _ => _ end = _ => destruct c
  end; try discriminate; by apply checked_i64_Some in H as [-> ?].
Qed.

(** The canonical texts are exactly the ones [format_i64_into] writes. *)
Lemma parse_canonical_iff b n :
  parse_canonical_i64 b = Some n <-> b = int_text n /\ i64_min <= n <= i64_max.
Proof.
  unfold parse_canonical_i64. split.
  - destruct (_ || _); [discriminate|]. destruct b as [|x b]; [discriminate|].
    destruct (_ && _); [discriminate|]. destruct (parse_i64 (x :: b)) as [m|] eqn:P; [|discriminate].
    pose proof (parse_i64_range _ _ P) as R. rewrite format_i64_ok by exact R.
    destruct (bool_decide_reflect (int_text m = x :: b)) as [E|]; [|discriminate]. intros [= <-]. auto.
  - intros [-> R]. pose proof (int_text_len n R) as L.
    destruct (Z.eqb_spec (blen (int_text n)) 0); [lia|]. destruct (Z.ltb_spec 20 (blen (int_text n))); [lia|].
    cbn [orb]. destruct (int_text n) as [|x r] eqn:E; [rewrite blen_nil in L; lia|].
    assert (F : negb (is_ascii_digit x) && negb (x =b "-"%byte) = false).
    { destruct (Z.ltb_spec n 0) as [Ln|Ln].
      - rewrite int_text_neg in E by lia. injection E as <- _. reflexivity.
      - rewrite int_text_nonneg in E by lia. pose proof (dec_digits n ltac:(lia)) as D. rewrite E in D.
        inversion D as [|? ? Hb _]; subst. by rewrite Hb. }
    rewrite F, <- E, parse_int_text, format_i64_ok by exact R. by rewrite bool_decide_true.
Qed.

Lemma parse_canonical_none b : parse_canonical_i64 b = None -> forall n, i64_min <= n <= i64_max -> b <> int_text n.
Proof. intros E n R ->. pose proof (proj2 (parse_canonical_iff (int_text n) n) (conj eq_refl R)). congruence. Qed.

(** ** Counters within their range *)

Lemma apply_delta_exact v d : 0 <= v + d <= u64_max -> 0 <= v -> apply_delta v d = v + d.
Proof. intros H Hv. unfold apply_delta, u64_add, u64_sub. destruct (Z.leb_spec 0 d); lia. Qed.

Lemma heap_bytes_from_slice b : heap_bytes (from_slice b) = heap_bytes_for b.
Proof. reflexivity. Qed.
