(* ===== verification/Store.v ===== *)
(** * The keyspace ([crates/kevy-store/src]: [lib.rs], [entry.rs], [entry_weight.rs],
    [accounting.rs], [evict.rs], [notify.rs], [store_admin.rs], [keyspace.rs])

    One shard's keys: the entries with their deadlines, lazy expiry, the
    memory accounting and its per-slot side words, the access clock, and the
    type-agnostic key commands.  The model is of a store without a cold tier
    (so no value is a cold stub), without the row recorder and without the
    background drop thread, which are optional attachments of [Store].

    The hash table is used through an interface: what it holds is a finite
    map, and how it grows is [TableShape], the part of [kevy-map] the
    accounting depends on.  A slot index is named by the key it holds; the
    code uses an index only until the table's next insertion or removal.

    A value of a collection type is kept as its variant and its weight,
    because no operation here looks further.  Every operation takes the
    monotonic clock's readings it makes as arguments. *)

From Stdlib Require Import ZArith Lia Bool Strings.Byte Strings.String.
From stdpp Require Import base list gmap.
From S2P Require Import Prelude Utf8 Encode StoreUtil.

#[local] Open Scope list_scope.
#[local] Open Scope Z_scope.

(** ** What is stored *)

(** The collection variants of [Value]. *)
Inductive Kind : Type :=
| Hash | SegHash | SmallHashInline | PackedRow
| List | SegList | SmallListInline
| SetV | SegSet | SmallSetInline
| ZSet | SegZSet | SmallZSetInline
| Stream.

Inductive Value : Type :=
| Str (s : SmallBytes)
| Int (n : Z)
| ArcBulk (b : list byte)
| Coll (k : Kind) (w : Z).

Definition type_name (v : Value) : string :=
  match v with
  | Str _ | Int _ | ArcBulk _ => "string"
  | Coll (Hash | SegHash | SmallHashInline | PackedRow) _ => "hash"
  | Coll (List | SegList | SmallListInline) _ => "list"
  | Coll (SetV | SegSet | SmallSetInline) _ => "set"
  | Coll (ZSet | SegZSet | SmallZSetInline) _ => "zset"
  | Coll Stream _ => "stream"
  end.

(** [Value::weight]; the tiny inline forms weigh nothing. *)
Definition weight (v : Value) : Z :=
  match v with
  | Str s => heap_bytes s
  | Int _ => 0
  | ArcBulk b => blen b
  | Coll (SmallSetInline | SmallHashInline | SmallListInline | SmallZSetInline) _ => 0
  | Coll _ w => w
  end.

(** Whether the weight is kept in the side word. *)
Definition kept (v : Value) : bool :=
  match v with
  | Coll (Hash | SegHash | List | SegList | SetV | SegSet | ZSet | SegZSet | Stream) _ => true
  | _ => false
  end.

Record Entry := mkEntry { value : Value; expire_at_ns : option Z }.

Definition entry_new (v : Value) (deadline_ns : option Z) : Entry :=
  mkEntry v (deadline_ns ≫= pack_deadline).

Definition is_expired_at (e : Entry) (now : Z) : bool :=
  match expire_at_ns e with None => false | Some ns => ns <=? now end.

(** An entry and the side word of its slot, zero while the side lane does
    not exist. *)
Record Slot := mkSlot { entry : Entry; word : Z }.

Definition LOW : Z := 2 ^ 32 - 1.

Definition value_weight (v : Value) (w : option Z) : Z :=
  match v with
  | Str s => heap_bytes s
  | Int _ => 0
  | ArcBulk b => blen b
  | v => if kept v then match w with Some w => Z.land w LOW | None => 0 end else weight v
  end.

(** A side word's halves: [w & !LOW] is [w - (w & LOW)]. *)
Definition stamp (w : Z) (is_kept : bool) (wt : Z) : Z :=
  Z.lor (Z.ldiff w LOW) (if is_kept then Z.min wt LOW else 0).
Definition kept_half (w : option Z) : Z := match w with Some w => Z.land w LOW | None => 0 end.
Definition word_clock (w : Z) : Z := Z.shiftr w 32.
Definition set_clock (w c : Z) : Z := Z.lor (Z.land w LOW) (Z.shiftl c 32).

(** ** Policies and events *)

Inductive EvictionPolicy : Type :=
| NoEviction | AllKeysLru | AllKeysLfu | AllKeysRandom
| VolatileLru | VolatileLfu | VolatileRandom | VolatileTtl.

Definition uses_lru (p : EvictionPolicy) : bool := match p with AllKeysLru | VolatileLru => true | _ => false end.
Definition uses_lfu (p : EvictionPolicy) : bool := match p with AllKeysLfu | VolatileLfu => true | _ => false end.

Definition splitmix32 (x : Z) : Z :=
  let u32 z := z mod 2 ^ 32 in
  let z := u32 (x + 0x9E3779B9) in
  let z := u32 (Z.lxor z (Z.shiftr z 16) * 0x85EBCA6B) in
  let z := u32 (Z.lxor z (Z.shiftr z 13) * 0xC2B2AE35) in
  Z.lxor z (Z.shiftr z 16).

Definition LFU_INIT_VAL : Z := 5.
Definition LFU_LOG_FACTOR : Z := 10.

Definition lfu_log_incr (counter clock : Z) : Z :=
  if counter =? 255 then counter
  else
    let baseval := Z.max (counter - LFU_INIT_VAL) 0 in
    let threshold := baseval * LFU_LOG_FACTOR + 1 in
    if (threshold =? 1) || (splitmix32 clock mod threshold =? 0) then counter + 1 else counter.

Definition touch_on_access (w : Z) (policy : EvictionPolicy) (clock : Z) : Z :=
  if uses_lru policy then set_clock w clock
  else if uses_lfu policy then
    let cur := word_clock w in
    let next := lfu_log_incr (cur mod 256) clock in
    set_clock w (Z.lor (Z.ldiff cur 255) next)
  else w.

Inductive KeyspaceEvent : Type := New | Expired | Evicted | Emptied.

Inductive StoreError : Type := WrongType | NotInteger | Overflow | OutOfMemory.

(** What a fallible command returns; [Crash] is a panic. *)
Inductive result (A : Type) : Type := Ok (a : A) | Err (e : StoreError) | Crash.
Arguments Ok {A} a.
Arguments Err {A} e.
Arguments Crash {A}.

(** ** The table's shape

    What the accounting reads of [KevyMap]: its capacity, and the bytes it
    occupies as a function of the capacity and of the side lane. *)

Class TableShape := {
  shape : Type;
  shape_default : shape;
  shape_insert : list byte -> shape -> shape;
  shape_remove : list byte -> shape -> shape;
  shape_clear : shape -> shape;
  capacity : shape -> Z;
  footprint : Z -> bool -> Z
}.

(** Removal and clearing keep the allocation, an insertion never shrinks it,
    a larger table or one with the side lane occupies more, and no table
    occupies nothing. *)
Class TableLaws (T : TableShape) : Prop := {
  remove_keeps_capacity k s : capacity (shape_remove k s) = capacity s;
  clear_keeps_capacity s : capacity (shape_clear s) = capacity s;
  insert_grows k s : capacity s <= capacity (shape_insert k s);
  footprint_nonneg c w : 0 <= footprint c w;
  footprint_mono c c' w : c <= c' -> footprint c w <= footprint c' w;
  footprint_lane c : footprint c false <= footprint c true;
  footprint_default : footprint (capacity shape_default) false = 0
}.

(** The capacity a growing [Vec] takes for a needed length. *)
Class VecGrowth := { grow_cap : Z -> Z -> Z }.
Class VecGrowthLaws (G : VecGrowth) : Prop := { grow_cap_enough cap need : need <= grow_cap cap need }.

Section Store.
Context `{Tab : TableShape} `{Grow : VecGrowth}.

Record Store := mkStore {
  kmap : gmap (list byte) Slot;
  shp : shape;
  words_on : bool;
  hfttl : gmap (list byte) (gmap (list byte) Z);
  cached_ns : Z;
  cached_clock : bool;
  used_memory : Z;
  maxmemory : Z;
  memory_refused : bool;
  write_gate : bool;
  eviction_policy : EvictionPolicy;
  clock_counter : Z;
  keyspace_bytes : Z;
  used_memory_peak : Z;
  expired_keys_total : Z;
  notify_capture : Z;
  notify_events : list (KeyspaceEvent * list byte);
  expired_keys : list (list byte);
  expires : Z;
  watch_versions : gmap (list byte) Z
}.

Definition set_kmap (x : gmap (list byte) Slot) (s : Store) : Store :=
    mkStore x (shp s) (words_on s) (hfttl s) (cached_ns s) (cached_clock s) (used_memory s) (maxmemory s)
    (memory_refused s) (write_gate s) (eviction_policy s) (clock_counter s) (keyspace_bytes s)
    (used_memory_peak s) (expired_keys_total s) (notify_capture s) (notify_events s) (expired_keys s) (expires
    s) (watch_versions s).

Definition set_shp (x : shape) (s : Store) : Store :=
    mkStore (kmap s) x (words_on s) (hfttl s) (cached_ns s) (cached_clock s) (used_memory s) (maxmemory s)
    (memory_refused s) (write_gate s) (eviction_policy s) (clock_counter s) (keyspace_bytes s)
    (used_memory_peak s) (expired_keys_total s) (notify_capture s) (notify_events s) (expired_keys s) (expires
    s) (watch_versions s).

Definition set_words_on (x : bool) (s : Store) : Store :=
    mkStore (kmap s) (shp s) x (hfttl s) (cached_ns s) (cached_clock s) (used_memory s) (maxmemory s)
    (memory_refused s) (write_gate s) (eviction_policy s) (clock_counter s) (keyspace_bytes s)
    (used_memory_peak s) (expired_keys_total s) (notify_capture s) (notify_events s) (expired_keys s) (expires
    s) (watch_versions s).

Definition set_hfttl (x : gmap (list byte) (gmap (list byte) Z)) (s : Store) : Store :=
    mkStore (kmap s) (shp s) (words_on s) x (cached_ns s) (cached_clock s) (used_memory s) (maxmemory s)
    (memory_refused s) (write_gate s) (eviction_policy s) (clock_counter s) (keyspace_bytes s)
    (used_memory_peak s) (expired_keys_total s) (notify_capture s) (notify_events s) (expired_keys s) (expires
    s) (watch_versions s).

Definition set_cached_ns (x : Z) (s : Store) : Store :=
    mkStore (kmap s) (shp s) (words_on s) (hfttl s) x (cached_clock s) (used_memory s) (maxmemory s)
    (memory_refused s) (write_gate s) (eviction_policy s) (clock_counter s) (keyspace_bytes s)
    (used_memory_peak s) (expired_keys_total s) (notify_capture s) (notify_events s) (expired_keys s) (expires
    s) (watch_versions s).

Definition set_cached_clock (x : bool) (s : Store) : Store :=
    mkStore (kmap s) (shp s) (words_on s) (hfttl s) (cached_ns s) x (used_memory s) (maxmemory s)
    (memory_refused s) (write_gate s) (eviction_policy s) (clock_counter s) (keyspace_bytes s)
    (used_memory_peak s) (expired_keys_total s) (notify_capture s) (notify_events s) (expired_keys s) (expires
    s) (watch_versions s).

Definition set_used_memory (x : Z) (s : Store) : Store :=
    mkStore (kmap s) (shp s) (words_on s) (hfttl s) (cached_ns s) (cached_clock s) x (maxmemory s)
    (memory_refused s) (write_gate s) (eviction_policy s) (clock_counter s) (keyspace_bytes s)
    (used_memory_peak s) (expired_keys_total s) (notify_capture s) (notify_events s) (expired_keys s) (expires
    s) (watch_versions s).

Definition set_maxmemory (x : Z) (s : Store) : Store :=
    mkStore (kmap s) (shp s) (words_on s) (hfttl s) (cached_ns s) (cached_clock s) (used_memory s) x
    (memory_refused s) (write_gate s) (eviction_policy s) (clock_counter s) (keyspace_bytes s)
    (used_memory_peak s) (expired_keys_total s) (notify_capture s) (notify_events s) (expired_keys s) (expires
    s) (watch_versions s).

Definition set_memory_refused (x : bool) (s : Store) : Store :=
    mkStore (kmap s) (shp s) (words_on s) (hfttl s) (cached_ns s) (cached_clock s) (used_memory s) (maxmemory
    s) x (write_gate s) (eviction_policy s) (clock_counter s) (keyspace_bytes s) (used_memory_peak s)
    (expired_keys_total s) (notify_capture s) (notify_events s) (expired_keys s) (expires s) (watch_versions
    s).

Definition set_write_gate (x : bool) (s : Store) : Store :=
    mkStore (kmap s) (shp s) (words_on s) (hfttl s) (cached_ns s) (cached_clock s) (used_memory s) (maxmemory
    s) (memory_refused s) x (eviction_policy s) (clock_counter s) (keyspace_bytes s) (used_memory_peak s)
    (expired_keys_total s) (notify_capture s) (notify_events s) (expired_keys s) (expires s) (watch_versions
    s).

Definition set_eviction_policy (x : EvictionPolicy) (s : Store) : Store :=
    mkStore (kmap s) (shp s) (words_on s) (hfttl s) (cached_ns s) (cached_clock s) (used_memory s) (maxmemory
    s) (memory_refused s) (write_gate s) x (clock_counter s) (keyspace_bytes s) (used_memory_peak s)
    (expired_keys_total s) (notify_capture s) (notify_events s) (expired_keys s) (expires s) (watch_versions
    s).

Definition set_clock_counter (x : Z) (s : Store) : Store :=
    mkStore (kmap s) (shp s) (words_on s) (hfttl s) (cached_ns s) (cached_clock s) (used_memory s) (maxmemory
    s) (memory_refused s) (write_gate s) (eviction_policy s) x (keyspace_bytes s) (used_memory_peak s)
    (expired_keys_total s) (notify_capture s) (notify_events s) (expired_keys s) (expires s) (watch_versions
    s).

Definition set_keyspace_bytes (x : Z) (s : Store) : Store :=
    mkStore (kmap s) (shp s) (words_on s) (hfttl s) (cached_ns s) (cached_clock s) (used_memory s) (maxmemory
    s) (memory_refused s) (write_gate s) (eviction_policy s) (clock_counter s) x (used_memory_peak s)
    (expired_keys_total s) (notify_capture s) (notify_events s) (expired_keys s) (expires s) (watch_versions
    s).

Definition set_used_memory_peak (x : Z) (s : Store) : Store :=
    mkStore (kmap s) (shp s) (words_on s) (hfttl s) (cached_ns s) (cached_clock s) (used_memory s) (maxmemory
    s) (memory_refused s) (write_gate s) (eviction_policy s) (clock_counter s) (keyspace_bytes s) x
    (expired_keys_total s) (notify_capture s) (notify_events s) (expired_keys s) (expires s) (watch_versions
    s).

Definition set_expired_keys_total (x : Z) (s : Store) : Store :=
    mkStore (kmap s) (shp s) (words_on s) (hfttl s) (cached_ns s) (cached_clock s) (used_memory s) (maxmemory
    s) (memory_refused s) (write_gate s) (eviction_policy s) (clock_counter s) (keyspace_bytes s)
    (used_memory_peak s) x (notify_capture s) (notify_events s) (expired_keys s) (expires s) (watch_versions
    s).

Definition set_notify_capture (x : Z) (s : Store) : Store :=
    mkStore (kmap s) (shp s) (words_on s) (hfttl s) (cached_ns s) (cached_clock s) (used_memory s) (maxmemory
    s) (memory_refused s) (write_gate s) (eviction_policy s) (clock_counter s) (keyspace_bytes s)
    (used_memory_peak s) (expired_keys_total s) x (notify_events s) (expired_keys s) (expires s)
    (watch_versions s).

Definition set_notify_events (x : list (KeyspaceEvent * list byte)) (s : Store) : Store :=
    mkStore (kmap s) (shp s) (words_on s) (hfttl s) (cached_ns s) (cached_clock s) (used_memory s) (maxmemory
    s) (memory_refused s) (write_gate s) (eviction_policy s) (clock_counter s) (keyspace_bytes s)
    (used_memory_peak s) (expired_keys_total s) (notify_capture s) x (expired_keys s) (expires s)
    (watch_versions s).

Definition set_expired_keys (x : list (list byte)) (s : Store) : Store :=
    mkStore (kmap s) (shp s) (words_on s) (hfttl s) (cached_ns s) (cached_clock s) (used_memory s) (maxmemory
    s) (memory_refused s) (write_gate s) (eviction_policy s) (clock_counter s) (keyspace_bytes s)
    (used_memory_peak s) (expired_keys_total s) (notify_capture s) (notify_events s) x (expires s)
    (watch_versions s).

Definition set_expires (x : Z) (s : Store) : Store :=
    mkStore (kmap s) (shp s) (words_on s) (hfttl s) (cached_ns s) (cached_clock s) (used_memory s) (maxmemory
    s) (memory_refused s) (write_gate s) (eviction_policy s) (clock_counter s) (keyspace_bytes s)
    (used_memory_peak s) (expired_keys_total s) (notify_capture s) (notify_events s) (expired_keys s) x
    (watch_versions s).

Definition set_watch_versions (x : gmap (list byte) Z) (s : Store) : Store :=
    mkStore (kmap s) (shp s) (words_on s) (hfttl s) (cached_ns s) (cached_clock s) (used_memory s) (maxmemory
    s) (memory_refused s) (write_gate s) (eviction_policy s) (clock_counter s) (keyspace_bytes s)
    (used_memory_peak s) (expired_keys_total s) (notify_capture s) (notify_events s) (expired_keys s) (expires
    s) x.

Definition store_new : Store :=
  mkStore ∅ shape_default false ∅ 0 false 0 0 false false NoEviction 0 0 0 0 0 [] [] 0 ∅.

(** ** Clocks and counters *)

(** [now] is what the monotonic clock reads. *)
Definition refresh_clock (now : Z) (s : Store) : Store := set_cached_ns now s.

Definition set_cached_clock_on (on : bool) (now : Z) (s : Store) : Store :=
  let s := set_cached_clock on s in if on then refresh_clock now s else s.

Definition set_max_memory (m : Z) (p : EvictionPolicy) (s : Store) : Store :=
  set_write_gate ((0 <? m) || memory_refused s) (set_eviction_policy p (set_maxmemory m s)).

Definition set_memory_refusal (on : bool) (s : Store) : Store :=
  set_write_gate (on || (0 <? maxmemory s)) (set_memory_refused on s).

Definition precheck_for_write (s : Store) : result unit :=
  if memory_refused s then Err OutOfMemory
  else if (maxmemory s =? 0) || (used_memory s <=? maxmemory s) then Ok tt
  else match eviction_policy s with NoEviction => Err OutOfMemory | _ => Ok tt end.

(** No tier: the access clock runs under an eviction limit. *)
Definition clock_on (s : Store) : bool := 0 <? maxmemory s.

Definition tick_clock (s : Store) : Store := set_clock_counter ((clock_counter s + 1) mod 2 ^ 64) s.

Definition update_peak (s : Store) : Store :=
  if used_memory_peak s <? used_memory s then set_used_memory_peak (used_memory s) s else s.

Definition adjust_expires (delta : Z) (s : Store) : Store :=
  if delta =? 0 then s else set_expires (Z.max (expires s + delta) 0) s.

Definition apply_weight_delta (delta : Z) (s : Store) : Store :=
  let s := set_used_memory (apply_delta (used_memory s) delta) s in
  if 0 <? delta then update_peak s else s.

(** ** The table and its side words *)

Definition charge_keyspace_growth (s : Store) : Store :=
  let now := footprint (capacity (shp s)) (words_on s) in
  let delta := now - keyspace_bytes s in
  let s := set_keyspace_bytes now s in
  set_used_memory (apply_delta (used_memory s) delta) s.

(** [KevyMap::enable_aux], then the charge when the lane is new. *)
Definition keep_words (s : Store) : Store :=
  if words_on s then s else charge_keyspace_growth (set_words_on true s).

(** [map.aux(slot)] *)
Definition aux (key : list byte) (s : Store) : option Z :=
  if words_on s then word <$> kmap s !! key else None.

(** [map.word_mut(slot)] *)
Definition update_word (key : list byte) (f : Z -> Z) (s : Store) : Store :=
  if words_on s then set_kmap (alter (fun sl => mkSlot (entry sl) (f (word sl))) key (kmap s)) s else s.

Definition update_entry (key : list byte) (f : Entry -> Entry) (s : Store) : Store :=
  set_kmap (alter (fun sl => mkSlot (f (entry sl)) (word sl)) key (kmap s)) s.

Definition stamp_slot (key : list byte) (is_kept : bool) (wt : Z) (clock : option Z) (s : Store) : Store :=
  update_word key (fun w =>
    let w := stamp w is_kept wt in
    match clock with Some c => set_clock w c | None => w end) s.

(** [Keyspace::insert_slot]: an overwrite keeps the slot's word, a new key's
    word is zero. *)
Definition insert_slot (key : list byte) (e : Entry) (s : Store) : Store * option Entry :=
  let prev := kmap s !! key in
  let w := match prev with Some sl => word sl | None => 0 end in
  let s := set_kmap (<[key := mkSlot e w]> (kmap s)) s in
  (set_shp (shape_insert key (shp s)) s, entry <$> prev).

Definition remove_with_word (key : list byte) (s : Store) : Store * option (Entry * option Z) :=
  match kmap s !! key with
  | None => (s, None)
  | Some sl =>
      let w := aux key s in
      let s := set_kmap (delete key (kmap s)) s in
      (set_shp (shape_remove key (shp s)) s, Some (entry sl, w))
  end.

(** ** Events *)

Definition CAPTURE_NEW : Z := 1.
Definition CAPTURE_EXPIRED : Z := 2.

Definition captures (s : Store) (bit : Z) : bool := negb (Z.land (notify_capture s) bit =? 0).

Definition note_new_key (created : bool) (copy : option (list byte)) (s : Store) : Store :=
  match created, copy with
  | true, Some k => set_notify_events (notify_events s ++ [(New, k)]) s
  | _, _ => s
  end.

Definition note_expired (key : list byte) (s : Store) : Store :=
  let s := set_expired_keys (expired_keys s ++ [key]) s in
  if captures s CAPTURE_EXPIRED then set_notify_events (notify_events s ++ [(Expired, key)]) s else s.

Definition take_expired_keys (s : Store) : Store * list (list byte) := (set_expired_keys [] s, expired_keys s).

Definition clear_hash_key_ttls (key : list byte) (s : Store) : Store := set_hfttl (delete key (hfttl s)) s.

(** ** Insertion and removal *)

Definition has_ttl (e : Entry) : Z := match expire_at_ns e with Some _ => 1 | None => 0 end.

(** [insert_entry_at], from the table insertion on. *)
Definition commit_insert (key : list byte) (key_heap : Z) (e : Entry) (clock : option Z)
  (new_key_copy : option (list byte)) (s : Store) : Store * option Entry :=
  let vw := weight (value e) in
  let is_kept := kept (value e) in
  let new_w := key_heap + vw in
  let cap := capacity (shp s) in
  let '(s, prev) := insert_slot key e s in
  let s := if capacity (shp s) =? cap then s else charge_keyspace_growth s in
  let old_w := (fun old => key_heap + value_weight (value old) (aux key s)) <$> prev in
  let s := stamp_slot key is_kept vw clock s in
  let s := match old_w with
           | Some w => set_used_memory (u64_add (u64_sub (used_memory s) w) new_w) s
           | None => set_used_memory (u64_add (used_memory s) new_w) s
           end in
  let old_ttl := match prev with Some o => has_ttl o | None => 0 end in
  let s := adjust_expires (has_ttl e - old_ttl) s in
  let s := update_peak s in
  (note_new_key (match prev with None => true | Some _ => false end) new_key_copy s, prev).

Definition insert_entry (k : SmallBytes) (e : Entry) (s : Store) : Store * option Entry :=
  let key := sb_bytes k in
  let new_key_copy := if captures s CAPTURE_NEW then Some key else None in
  let s := clear_hash_key_ttls key s in
  let key_heap := heap_bytes k in
  let '(s, clock) :=
    if clock_on s then let s := tick_clock s in (s, Some (clock_counter s mod 2 ^ 32)) else (s, None) in
  let s := if kept (value e) || match clock with Some _ => true | None => false end then keep_words s else s in
  commit_insert key key_heap e clock new_key_copy s.

Definition take_entry_keepalive (key : list byte) (s : Store) : Store * option Entry :=
  let s := clear_hash_key_ttls key s in
  match remove_with_word key s with
  | (s, None) => (s, None)
  | (s, Some (old, w)) =>
      let old_w := heap_bytes_for key + value_weight (value old) w in
      let s := set_used_memory (u64_sub (used_memory s) old_w) s in
      let s := match expire_at_ns old with Some _ => adjust_expires (-1) s | None => s end in
      (s, Some old)
  end.

(** Without a tier there is no cold record to credit. *)
Definition remove_entry (key : list byte) (s : Store) : Store * option Entry := take_entry_keepalive key s.

(** [reweigh_at] for the slot of [key]; [old] is the weight the caller
    measured, when nothing kept it. *)
Definition reweigh (key : list byte) (old : option Z) (s : Store) : Store :=
  match kmap s !! key with
  | None => s
  | Some sl =>
      let is_kept := kept (value (entry sl)) in
      let s := if is_kept then keep_words s else s in
      let vw := weight (value (entry sl)) in
      let was := match old with Some o => o | None => kept_half (aux key s) end in
      let s := update_word key (fun w => stamp w is_kept vw) s in
      let delta := vw - was in
      let s := set_used_memory (apply_delta (used_memory s) delta) s in
      if 0 <? delta then update_peak s else s
  end.

Definition reweigh_entry (key : list byte) (s : Store) : Store := reweigh key None s.
Definition reweigh_scalar (key : list byte) (old : Z) (s : Store) : Store := reweigh key (Some old) s.

(** ** Lazy expiry *)

Definition expired (key : list byte) (now : Z) (s : Store) : bool :=
  match kmap s !! key with Some sl => is_expired_at (entry sl) now | None => false end.

Definition bump_expired_total (s : Store) : Store :=
  set_expired_keys_total (u64_add (expired_keys_total s) 1) s.

Definition drop_expired (key : list byte) (s : Store) : Store :=
  bump_expired_total (fst (remove_entry key (note_expired key s))).

Definition reap (key : list byte) (now : Z) (s : Store) : Store * bool :=
  if expired key now s then (drop_expired key s, false)
  else (s, match kmap s !! key with Some _ => true | None => false end).

(** [Entry::is_expired]: the cached clock when it is trusted. *)
Definition is_expired (e : Entry) (now : Z) (s : Store) : bool :=
  is_expired_at e (if cached_clock s then cached_ns s else now).

Definition touch_slot (key : list byte) (s : Store) : Store :=
  let s := tick_clock s in
  let c := clock_counter s mod 2 ^ 32 in
  let policy := eviction_policy s in
  let s := keep_words s in
  update_word key (fun w => touch_on_access w policy c) s.

(** [live_entry], [live_slot], [live_entry_mut] and [live_entry_word_mut]:
    the live entry of [key] and its slot, an expired one dropped on the way. *)
Definition live_entry (key : list byte) (now : Z) (s : Store) : Store * option Entry :=
  match kmap s !! key with
  | None => (s, None)
  | Some sl =>
      if is_expired (entry sl) now s then (drop_expired key s, None)
      else
        let s := if clock_on s then touch_slot key s else s in
        (s, Some (entry sl))
  end.

(** ** Commands on keys of any type *)

Fixpoint del (keys : list (list byte)) (now : Z) (s : Store) : Store * Z :=
  match keys with
  | [] => (s, 0)
  | k :: r =>
      let '(s, live) := reap k now s in
      let '(s, removed) :=
        if live then
          let '(s, old) := remove_entry k s in
          (s, match old with Some _ => 1 | None => 0 end)
        else (s, 0) in
      let '(s, n) := del r now s in
      (s, removed + n)
  end.

(** Each key with the clock's reading at its lookup. *)
Fixpoint exists_ (keys : list (list byte * Z)) (s : Store) : Store * Z :=
  match keys with
  | [] => (s, 0)
  | (k, now) :: r =>
      let '(s, e) := live_entry k now s in
      let '(s, n) := exists_ r s in
      (s, (match e with Some _ => 1 | None => 0 end) + n)
  end.

(** The deadline swap of [expire] and [expire_at_unix_ms]. *)
Definition redate (key : list byte) (deadline : Z) (s : Store) : Store :=
  match kmap s !! key with
  | None => s
  | Some sl =>
      let had := has_ttl (entry sl) in
      let e := mkEntry (value (entry sl)) (pack_deadline deadline) in
      let s := update_entry key (fun _ => e) s in
      adjust_expires (has_ttl e - had) s
  end.

Definition expire (key : list byte) (ttl now : Z) (s : Store) : Store * bool :=
  let '(s, live) := reap key now s in
  if negb live then (s, false)
  else
    match kmap s !! key with
    | None => (s, false)
    | Some _ => (redate key (deadline_at now ttl) s, true)
    end.

Definition expire_at_unix_ms (key : list byte) (deadline_ms now wall_now : Z) (s : Store) : Store * bool :=
  let '(s, live) := reap key now s in
  if negb live || match kmap s !! key with None => true | Some _ => false end then (s, false)
  else
    let deadline_ns := Z.min (deadline_ms * 1000000) u64_max in
    if deadline_ns <=? wall_now then (fst (remove_entry key s), true)
    else (redate key (deadline_at now (deadline_ns - wall_now)) s, true).

Definition persist (key : list byte) (now : Z) (s : Store) : Store * bool :=
  let '(s, live) := reap key now s in
  if negb live then (s, false)
  else
    match kmap s !! key with
    | Some sl =>
        match expire_at_ns (entry sl) with
        | Some _ =>
            let s := update_entry key (fun e => mkEntry (value e) None) s in
            (adjust_expires (-1) s, true)
        | None => (s, false)
        end
    | None => (s, false)
    end.

Definition pttl (key : list byte) (now : Z) (s : Store) : Store * Z :=
  let '(s, live) := reap key now s in
  if negb live then (s, -2)
  else
    match kmap s !! key ≫= (fun sl => expire_at_ns (entry sl)) with
    | None => (s, -1)
    | Some ns => (s, remaining_ms ns now)
    end.

Definition type_of (key : list byte) (now : Z) (s : Store) : Store * string :=
  let '(s, live) := reap key now s in
  if negb live then (s, "none"%string)
  else (s, match kmap s !! key with Some sl => type_name (value (entry sl)) | None => "none"%string end).

Definition is_live (key : list byte) (now : Z) (s : Store) : bool :=
  match kmap s !! key with Some sl => negb (is_expired_at (entry sl) now) | None => false end.

Definition key_exists (key : list byte) (now : Z) (s : Store) : Store * bool :=
  let '(s, live) := reap key now s in
  (s, live && match kmap s !! key with Some _ => true | None => false end).

Definition dbsize (s : Store) : Z := Z.of_nat (size (kmap s)).

Definition take_with_ttl (key : list byte) (now : Z) (s : Store) : Store * option (Value * option Z) :=
  let '(s, live) := reap key now s in
  if negb live then (s, None)
  else
    match remove_entry key s with
    | (s, None) => (s, None)
    | (s, Some e) => (s, Some (value e, (fun ns => remaining_ms ns now) <$> expire_at_ns e))
    end.

Definition clone_with_ttl (key : list byte) (now : Z) (s : Store) : Store * option (Value * option Z) :=
  let '(s, live) := reap key now s in
  if negb live then (s, None)
  else
    match kmap s !! key with
    | None => (s, None)
    | Some sl => (s, Some (value (entry sl), (fun ns => remaining_ms ns now) <$> expire_at_ns (entry sl)))
    end.

Definition put_with_ttl (key : Vec) (v : Value) (ttl_ms : option Z) (now : Z) (s : Store) : Store :=
  let e := entry_new v ((fun ms => deadline_at now (ms * 1000000)) <$> ttl_ms) in
  let s := fst (remove_entry (vec_bytes key) s) in
  fst (insert_entry (from_vec key) e s).

Definition put_keep_ttl (key : Vec) (v : Value) (now : Z) (s : Store) : Store :=
  let '(s, e) := live_entry (vec_bytes key) now s in
  let deadline := e ≫= expire_at_ns in
  let s := fst (remove_entry (vec_bytes key) s) in
  fst (insert_entry (from_vec key) (entry_new v deadline) s).

Inductive RenameOutcome : Type := Renamed | NoSuchSrc | DstExists.

Definition rename_if (src dst : list byte) (nx : bool) (now : Z) (s : Store) : Store * RenameOutcome :=
  let '(s, live) := reap src now s in
  if negb live then (s, NoSuchSrc)
  else if bool_decide (src = dst) then (s, if nx then DstExists else Renamed)
  else
    let '(s, dst_live) :=
      if nx then
        let '(s, l) := reap dst now s in
        (s, l && match kmap s !! dst with Some _ => true | None => false end)
      else (s, false) in
    if dst_live : bool then (s, DstExists)
    else
      match take_entry_keepalive src s with
      | (s, None) => (s, NoSuchSrc)
      | (s, Some e) =>
          let s := fst (remove_entry dst s) in
          (fst (insert_entry (from_vec (to_vec dst)) e s), Renamed)
      end.

Definition rename (src dst : list byte) (now : Z) (s : Store) : Store * RenameOutcome := rename_if src dst false now s.
Definition rename_nx (src dst : list byte) (now : Z) (s : Store) : Store * RenameOutcome := rename_if src dst true now s.

Definition flushall (s : Store) : Store :=
  let s := set_kmap ∅ s in
  let s := set_shp (shape_clear (shp s)) s in
  let s := set_used_memory (keyspace_bytes s) s in
  set_expires 0 s.

Definition insert_loaded (key : Vec) (v : Value) (ttl_ms : option Z) (now : Z) (s : Store) : Store :=
  fst (insert_entry (from_vec key) (entry_new v ((fun ms => deadline_at now (ms * 1000000)) <$> ttl_ms)) s).

(** Live keys carrying a deadline, counted. *)
Definition ttl_pending_count (now : Z) (s : Store) : Z :=
  Z.of_nat (size (filter (fun p => bool_decide (is_Some (expire_at_ns (entry (snd p)))) &&
                                   negb (is_expired_at (entry (snd p)) now) = true) (kmap s))).

(** ** Watched keys *)

Definition record_watch (key : list byte) (s : Store) : Store * Z :=
  match watch_versions s !! key with
  | Some v => (s, v)
  | None => (set_watch_versions (<[key := 0]> (watch_versions s)) s, 0)
  end.

Definition key_version (key : list byte) (s : Store) : Z := default 0 (watch_versions s !! key).

Definition bump_if_watched (key : list byte) (s : Store) : Store :=
  match watch_versions s !! key with
  | Some v => set_watch_versions (<[key := (v + 1) mod 2 ^ 64]> (watch_versions s)) s
  | None => s
  end.

Definition bump_all_watched (s : Store) : Store :=
  set_watch_versions ((fun v => (v + 1) mod 2 ^ 64) <$> watch_versions s) s.
End Store.
