(* ===== verification/StoreString.v ===== *)
(** * Strings ([crates/kevy-store/src/string.rs], [string_set.rs], [string_rmw.rs])

    The string commands over the keyspace of [Store]: reading in the three
    encodings, SET with its two probe shapes, INCRBY, APPEND, GETSET and
    GETDEL.  [now] is the clock at the expiry check, [at_] the clock a new
    deadline is counted from, where a command reads both. *)

From Stdlib Require Import ZArith Lia Bool Strings.Byte Strings.String.
From stdpp Require Import base list gmap.
From S2P Require Import Prelude Utf8 Encode StoreUtil Store.

#[local] Open Scope list_scope.
#[local] Open Scope Z_scope.

Section Strings.
Context `{Tab : TableShape} `{Grow : VecGrowth}.

(** ** Encodings *)

Definition BULK_THRESHOLD : Z := 64.

Definition pick_value_for_set (bytes : list byte) : Value :=
  match parse_canonical_i64 bytes with
  | Some n => Int n
  | None => if BULK_THRESHOLD <? blen bytes then ArcBulk bytes else Str (from_slice bytes)
  end.

Definition pick_value_for_set_owned (v : Vec) : Value :=
  match parse_canonical_i64 (vec_bytes v) with
  | Some n => Int n
  | None => if BULK_THRESHOLD <? blen (vec_bytes v) then ArcBulk (vec_bytes v) else Str (from_vec v)
  end.

(** The bytes a string value reads as; [Err] for another type. *)
Definition string_bytes (v : Value) : result (list byte) :=
  match v with
  | Str s => Ok (sb_bytes s)
  | ArcBulk b => Ok b
  | Int n => match format_i64_into n with Ret t => Ok t | Panic => Crash end
  | Coll _ _ => Err WrongType
  end.

Definition result_map {A B} (f : A -> B) (r : result A) : result B :=
  match r with Ok a => Ok (f a) | Err e => Err e | Crash => Crash end.

(** ** Reading *)

Definition get (key : list byte) (now : Z) (s : Store) : Store * result (option (list byte)) :=
  let '(s, e) := live_entry key now s in
  match e with
  | None => (s, Ok None)
  | Some e => (s, result_map Some (string_bytes (value e)))
  end.

Definition get_shared (key : list byte) (now : Z) (s : Store) : result (option (list byte)) :=
  match kmap s !! key with
  | None => Ok None
  | Some sl => if is_expired (entry sl) now s then Ok None
               else result_map Some (string_bytes (value (entry sl)))
  end.

Definition strlen (key : list byte) (now : Z) (s : Store) : Store * result Z :=
  let '(s, r) := get key now s in
  (s, result_map (fun o => match o with Some b => blen b | None => 0 end) r).

(** [GetReply]: a value the reply copies, or one it points at. *)
Inductive GetReply : Type := RBytes (b : list byte) | RArcBulk (b : list byte).

Definition get_for_reply (key : list byte) (now : Z) (s : Store) : Store * result (option GetReply) :=
  let '(s, e) := live_entry key now s in
  match e with
  | None => (s, Ok None)
  | Some e =>
      (s, match value e with
          | Str v => Ok (Some (RBytes (sb_bytes v)))
          | ArcBulk a => Ok (Some (RArcBulk a))
          | Int n => match format_i64_into n with Ret t => Ok (Some (RBytes t)) | Panic => Crash end
          | Coll _ _ => Err WrongType
          end)
  end.

(** ** SET *)

Inductive SetCondition : Type := Always | IfAbsent | IfPresent.

(** [overwrite_in_place] on the slot's entry and its word: the new slot, the
    weight delta, the TTL delta. *)
Definition overwrite_in_place (sl : Slot) (lane : bool) (new_value : Value) (expire_at : option Z)
  : Slot * Z * Z :=
  let had_ttl := has_ttl (entry sl) in
  let old_vw := value_weight (value (entry sl)) (if lane then Some (word sl) else None) in
  let e := mkEntry new_value (expire_at ≫= pack_deadline) in
  let new_vw := value_weight new_value None in
  let w := if lane then stamp (word sl) (kept new_value) new_vw else word sl in
  (mkSlot e w, new_vw - old_vw, has_ttl e - had_ttl).

Definition expire_deadline (ttl : option Z) (at_ : Z) : option Z := (fun d => deadline_at at_ d) <$> ttl.

Definition overwrite_slot (key : list byte) (sl : Slot) (new_value : Value) (expire_at : option Z) (s : Store) : Store :=
  let '(sl', delta, ttl_delta) := overwrite_in_place sl (words_on s) new_value expire_at in
  let s := set_kmap (<[key := sl']> (kmap s)) s in
  adjust_expires ttl_delta (apply_weight_delta delta s).

Definition set_value_evict (key : list byte) (new_value : Value) (ttl : option Z) (cond : SetCondition)
  (at_ now : Z) (s : Store) : Store * bool :=
  let expire_at := expire_deadline ttl at_ in
  let '(s, live) := live_entry key now s in
  match live with
  | Some _ =>
      match cond, kmap s !! key with
      | IfAbsent, _ => (s, false)
      | _, Some sl => (overwrite_slot key sl new_value expire_at s, true)
      | _, None => (s, true)
      end
  | None =>
      match cond with
      | IfPresent => (s, false)
      | _ => (fst (insert_entry (from_slice key) (entry_new new_value expire_at) s), true)
      end
  end.

Inductive SetOutcome : Type := Updated | ExpiredThenInsert | NeedInsert | Refused.

(** The removal through the raw entry, then [note_expired_removed]. *)
Definition note_expired_removed (key : list byte) (s : Store) : Store :=
  match remove_with_word key s with
  | (s, None) => s
  | (s, Some (old, w)) =>
      let s := set_used_memory (u64_sub (used_memory s) (heap_bytes_for key + value_weight (value old) w)) s in
      let s := match expire_at_ns old with Some _ => adjust_expires (-1) s | None => s end in
      bump_expired_total s
  end.

(** The probe of the single-probe path; the overwrite's accounting, which
    the caller applies, is done with it. *)
Definition set_probe_no_evict (key : list byte) (new_value : Value) (expire_at : option Z)
  (cond : SetCondition) (now : Z) (s : Store) : Store * SetOutcome :=
  match kmap s !! key with
  | Some sl =>
      if is_expired (entry sl) now s then
        let s := note_expired_removed key s in
        (s, match cond with IfPresent => Refused | _ => ExpiredThenInsert end)
      else
        match cond with
        | IfAbsent => (s, Refused)
        | _ => (overwrite_slot key sl new_value expire_at s, Updated)
        end
  | None => (s, match cond with IfPresent => Refused | _ => NeedInsert end)
  end.

Definition set_value_no_evict (key : list byte) (new_value : Value) (ttl : option Z) (cond : SetCondition)
  (at_ now : Z) (s : Store) : Store * bool :=
  let expire_at := expire_deadline ttl at_ in
  let '(s, outcome) := set_probe_no_evict key new_value expire_at cond now s in
  match outcome with
  | Refused => (s, false)
  | Updated => (s, true)
  | ExpiredThenInsert | NeedInsert =>
      (fst (insert_entry (from_slice key) (entry_new new_value expire_at) s), true)
  end.

Definition set_value (key : list byte) (new_value : Value) (ttl : option Z) (cond : SetCondition)
  (at_ now : Z) (s : Store) : Store * bool :=
  if negb (clock_on s) then set_value_no_evict key new_value ttl cond at_ now s
  else set_value_evict key new_value ttl cond at_ now s.

Definition set (key : list byte) (v : Vec) (ttl : option Z) (cond : SetCondition) (at_ now : Z) (s : Store)
  : Store * bool := set_value key (pick_value_for_set_owned v) ttl cond at_ now s.

Definition set_slice (key v : list byte) (ttl : option Z) (cond : SetCondition) (at_ now : Z) (s : Store)
  : Store * bool := set_value key (pick_value_for_set v) ttl cond at_ now s.

(** [now'] is the clock when the plain SET probes the key again. *)
Definition set_slice_keep_ttl (key v : list byte) (now now' : Z) (s : Store) : Store :=
  if clock_on s then put_keep_ttl (to_vec key) (pick_value_for_set v) now s
  else
    let '(s, e) := live_entry key now s in
    let kept_at := e ≫= expire_at_ns in
    let s := fst (set_value key (pick_value_for_set v) None Always now' now' s) in
    match kept_at, kmap s !! key with
    | Some at_, Some _ =>
        adjust_expires 1 (update_entry key (fun e => mkEntry (value e) (Some at_)) s)
    | _, _ => s
    end.

(** ** Read-modify-write *)

Definition set_entry_value (key : list byte) (v : Value) (s : Store) : Store :=
  update_entry key (fun e => mkEntry v (expire_at_ns e)) s.

Definition incr_text (text : list byte) (delta : Z) : result Z :=
  match parse_i64 text with
  | None => Err NotInteger
  | Some n => match checked_i64 (n + delta) with Some next => Ok next | None => Err Overflow end
  end.

Definition incr_by (key : list byte) (delta now : Z) (s : Store) : Store * result Z :=
  let '(s, e) := live_entry key now s in
  match e with
  | Some e =>
      let from_text (text : list byte) :=
        match incr_text text delta with
        | Ok next => (reweigh_entry key (set_entry_value key (Int next) s), Ok next)
        | r => (s, r)
        end in
      match value e with
      | Int n =>
          match checked_i64 (n + delta) with
          | None => (s, Err Overflow)
          | Some next => (set_entry_value key (Int next) s, Ok next)
          end
      | Str v => from_text (sb_bytes v)
      | ArcBulk a => from_text a
      | Coll _ _ => (s, Err WrongType)
      end
  | None => (fst (insert_entry (from_slice key) (entry_new (Int delta) None) s), Ok delta)
  end.

(** [v.extend_from_slice(data)] *)
Definition vec_extend (v : Vec) (data : list byte) : Vec :=
  let need := blen (vec_bytes v) + blen data in
  mkVec (vec_bytes v ++ data) (if need <=? vec_cap v then vec_cap v else grow_cap (vec_cap v) need).

Definition append (key data : list byte) (now : Z) (s : Store) : Store * result Z :=
  let '(s, e) := live_entry key now s in
  match e with
  | Some e =>
      let before := weight (value e) in
      let rewrite_to (v : Value) (new_len : Z) := (reweigh_scalar key before (set_entry_value key v s), Ok new_len) in
      match value e with
      | Str v =>
          let owned := vec_extend (into_vec v) data in
          rewrite_to (Str (from_vec owned)) (blen (vec_bytes owned))
      | Int n =>
          match format_i64_into n with
          | Panic => (s, Crash)
          | Ret t => let owned := vec_extend (to_vec t) data in
                     rewrite_to (pick_value_for_set_owned owned) (blen (vec_bytes owned))
          end
      | ArcBulk a =>
          let owned := vec_extend (to_vec a) data in
          rewrite_to (pick_value_for_set_owned owned) (blen (vec_bytes owned))
      | Coll _ _ => (s, Err WrongType)
      end
  | None => (fst (insert_entry (from_slice key) (entry_new (Str (from_slice data)) None) s), Ok (blen data))
  end.

Definition getset (key : list byte) (v : Vec) (now : Z) (s : Store) : Store * result (option (list byte)) :=
  let '(s, e) := live_entry key now s in
  match (match e with Some e => result_map Some (string_bytes (value e)) | None => Ok None end) with
  | Ok old => (fst (insert_entry (from_slice key) (entry_new (pick_value_for_set_owned v) None) s), Ok old)
  | r => (s, r)
  end.

Definition getdel (key : list byte) (now : Z) (s : Store) : Store * result (option (list byte)) :=
  let '(s, e) := live_entry key now s in
  match e with
  | None => (s, Ok None)
  | Some e =>
      match value e with
      | Coll _ _ => (s, Err WrongType)
      | _ =>
          match remove_entry key s with
          | (s, Some old) =>
              match value old with
              | Coll _ _ => (s, Ok None)
              | v => (s, result_map Some (string_bytes v))
              end
          | (s, None) => (s, Ok None)
          end
      end
  end.

Definition load_str (key v : Vec) (ttl_ms : option Z) (now : Z) (s : Store) : Store :=
  insert_loaded key (pick_value_for_set_owned v) ttl_ms now s.
End Strings.
