(* ===== verification/MapRefine.v ===== *)
(** * Sequences of operations on the table ([crates/kevy-map/src])

    Any sequence of the table's operations runs to its end, reads nothing
    that is not there, and leaves the finite map the same operations leave. *)

From Stdlib Require Import ZArith Lia Bool Strings.Byte.
From stdpp Require Import base list gmap.
From S2P Require Import Prelude Map MapSpec.

#[local] Open Scope list_scope.
#[local] Open Scope nat_scope.

(** ** Operations *)

(** [OWord] is [find_slot] and [aux_mut]; [OUpdate] is [get_mut]. *)
Inductive map_op (K V : Type) : Type :=
| OInsert (k : K) (v : V)
| OGet (k : K)
| OContains (k : K)
| OUpdate (k : K) (f : V -> V)
| ORemove (k : K)
| ORawRemove (k : K)
| OWord (k : K) (f : Z -> Z)
| OEnableAux
| OClear.
Arguments OInsert {K V} k v.
Arguments OGet {K V} k.
Arguments OContains {K V} k.
Arguments OUpdate {K V} k f.
Arguments ORemove {K V} k.
Arguments ORawRemove {K V} k.
Arguments OWord {K V} k f.
Arguments OEnableAux {K V}.
Arguments OClear {K V}.

Section Ops.
Context {K V : Type} `{Countable K} (kevy_hash : K -> Z) (kv_size kv_align : Z) (mmap_ok : Z -> bool).

Abbreviation KMap := (KevyMap (K := K) (V := V)).

Inductive answer : Type := AValue (v : option V) | AFlag (b : bool) | AUnit.

Definition valued (r : KMap * option V) : KMap * answer := (fst r, AValue (snd r)).

Definition run_op (o : map_op K V) (t : KMap) : outcome (KMap * answer) :=
  match o with
  | OInsert k v => r ← map_insert kevy_hash kv_size kv_align mmap_ok k v t; Done (valued r)
  | OGet k => r ← map_get kevy_hash k t; Done (t, AValue r)
  | OContains k => b ← contains_key kevy_hash k t; Done (t, AFlag b)
  | OUpdate k f => t ← map_update kevy_hash k f t; Done (t, AUnit)
  | ORemove k => r ← map_remove kevy_hash k t; Done (valued r)
  | ORawRemove k => r ← raw_entry_remove kevy_hash k t; Done (valued r)
  | OWord k f =>
      i ← find_by_borrow kevy_hash t k;
      Done (match i with Some i => aux_mut i f t | None => t end, AUnit)
  | OEnableAux => let '(t, b) := enable_aux t in Done (t, AFlag b)
  | OClear => Done (map_clear t, AUnit)
  end.

(** The same on a finite map with a word per key and the lane's flag. *)
Abbreviation table := (gmap K (V * Z) * bool)%type.

Definition a_op (o : map_op K V) (m : table) : table * answer :=
  let '(m, lane) := m in
  match o with
  | OInsert k v => ((<[k := (v, default 0%Z (snd <$> m !! k))]> m, lane), AValue (fst <$> m !! k))
  | OGet k => ((m, lane), AValue (fst <$> m !! k))
  | OContains k => ((m, lane), AFlag (bool_decide (is_Some (m !! k))))
  | OUpdate k f => ((alter (prod_map f id) k m, lane), AUnit)
  | ORemove k | ORawRemove k => ((delete k m, lane), AValue (fst <$> m !! k))
  | OWord k f => ((if lane : bool then alter (prod_map id f) k m else m, lane), AUnit)
  | OEnableAux => ((m, true), AFlag (negb lane))
  | OClear => ((∅, lane), AUnit)
  end.

Definition lane_on (t : KMap) : bool := match auxw t with Some _ => true | None => false end.
Definition table_of (t : KMap) : table := (contents t, lane_on t).

(** What an operation must come to: the specified table and answer, or, for
    an insertion that has to grow, the refusal of a capacity without a layout. *)
Definition op_ok (o : map_op K V) (t : KMap) : Prop :=
  match run_op o t with
  | Done (t', r) => valid kevy_hash t' /\ cap t <= cap t' /\ (table_of t', r) = a_op o (table_of t)
  | TooBig => grows_on_insert t = true /\ table_layout kv_size kv_align (next_cap t) = None
  | Undef | Spin => False
  end.

Context (Hsize : (0 <= kv_size)%Z) (Halign : (0 < kv_align)%Z).

(** A table that does not need to grow has room. *)
Lemma no_grow_room (t : KMap) : valid kevy_hash t -> grows_on_insert t = false ->
  wf kevy_hash t /\ occupied t + deleted t < threshold t.
Proof.
  unfold grows_on_insert. intros Va G. apply orb_false_iff in G as [C G]. apply Nat.eqb_neq in C. apply Nat.leb_gt in G.
  destruct Va as [(_ & _ & E & _)|W]; [contradiction | auto].
Qed.

Lemma map_insert_ok k v t : valid kevy_hash t -> op_ok (OInsert k v) t.
Proof using Hsize Halign.
  intros Va. unfold op_ok, run_op, map_insert, map_insert_slot, maybe_grow.
  assert (G : forall t1, wf kevy_hash t1 -> occupied t1 + deleted t1 < threshold t1 -> cap t <= cap t1 ->
    contents t1 = contents t -> (auxw t1 = None <-> auxw t = None) ->
    match r ← insert_with_room kevy_hash k v t1; let '(t, _, old) := r in Done (valued (t, old)) with
    | Done (t', r) => valid kevy_hash t' /\ cap t <= cap t' /\ (table_of t', r) = a_op (OInsert k v) (table_of t)
    | _ => False
    end).
  { intros t1 W1 L1 C1 E1 A1.
    destruct (insert_room_ok kevy_hash t1 k v W1 L1) as (t' & i & E & W' & Cp & Ct). rewrite E. cbn.
    split_and!; [by right | lia |]. unfold table_of. rewrite Ct, E1. f_equal. f_equal.
    unfold lane_on. assert (A : auxw t' = None <-> auxw t1 = None).
    { revert E. unfold insert_with_room. destruct (probe _ _ _) as [[j|j tomb]| | |]; cbn; try discriminate.
      - unfold read_slot. destruct (slots t1 !! j) as [[[k0 v0]|]|]; cbn; try discriminate.
        unfold write_slot. destruct (_ <? _); cbn; try discriminate. intros [= <- _ _]. done.
      - unfold set_meta. destruct (_ && _); cbn; try discriminate. unfold write_slot. destruct (_ <? _); cbn; try discriminate.
        intros [= <- _ _]. unfold reset_aux. cbn. by destruct (auxw t1) eqn:Ea; cbn; rewrite ?Ea. }
    destruct (auxw t'), (auxw t1), (auxw t); try reflexivity; exfalso; destruct A, A1; intuition discriminate. }
  destruct (grows_on_insert t) eqn:Gr.
  - destruct (table_layout kv_size kv_align (next_cap t)) as [size|] eqn:B.
    + destruct (grow_ok kevy_hash kv_size kv_align mmap_ok Hsize Halign t size Va B) as (t1 & -> & W1 & C1 & D1 & O1 & E1 & A1).
      cbn [mbind outcome_bind]. pose proof (pow2_groups _ (lay_cap _ (wf_layout _ _ W1))) as [C16 _].
      assert (Ld : occupied t1 + deleted t1 < threshold t1).
      { rewrite D1. unfold threshold. rewrite C1 in *. unfold next_cap in *. destruct (Nat.eqb_spec (cap t) 0) as [Z|Z].
        - rewrite Z in O1. unfold MIN_CAP. cbn. lia.
        - pose proof (Nat.Div0.div_le_upper_bound (cap t * 2) 8 (cap t / 2) ltac:(pose proof (Nat.div_mod (cap t) 2 ltac:(lia)); pose proof (Nat.mod_upper_bound (cap t) 2 ltac:(lia)); lia)).
          pose proof (Nat.Div0.mul_div_le (cap t) 2). lia. }
      specialize (G t1 W1 Ld ltac:(rewrite C1; unfold next_cap; destruct (Nat.eqb_spec (cap t) 0); lia) E1 A1).
      by destruct (insert_with_room kevy_hash k v t1) as [[[t' i] r]| | |].
    + unfold grow, alloc_table. fold (next_cap t). rewrite B. by cbn.
  - destruct (no_grow_room t Va Gr) as [W1 Ld]. specialize (G t W1 Ld (le_n _) eq_refl ltac:(done)). cbn [mbind outcome_bind].
    by destruct (insert_with_room kevy_hash k v t) as [[[t' i] r]| | |].
Qed.

(** The other operations of a table that is not allocated find nothing. *)
Lemma find_unallocated (t : KMap) k : unallocated t -> find_by_borrow kevy_hash t k = Done None /\ exists p, probe kevy_hash t k = Done (PNotFound p false).
Proof. intros (_ & _ & E & _). unfold find_by_borrow, probe. rewrite E. cbn. eauto. Qed.

Lemma op_unallocated o (t : KMap) : unallocated t -> (forall k v, o <> OInsert k v) -> op_ok o t.
Proof.
  intros U N. unfold op_ok, table_of. rewrite (unallocated_contents t U).
  assert (Va : valid kevy_hash t) by (by left).
  assert (A : forall (f : V * Z -> V * Z) k, alter f k (∅ : gmap K (V * Z)) = ∅) by (intros f k; apply map_eq; intros j; by rewrite lookup_alter, lookup_empty; case_decide).
  destruct o as [k v|k|k|k f|k|k|k f| |]; [by destruct (N k v)|..]; cbn [run_op];
    try (destruct (find_unallocated t k U) as [F (p & P)]);
    unfold map_get, contains_key, map_update, map_remove, raw_entry_remove; rewrite ?F, ?P; cbn [mbind outcome_bind];
    unfold a_op, valued; cbn [fst snd]; rewrite ?lookup_empty, ?delete_empty, ?A, ?(unallocated_contents t U); try (by split_and!).
  - split_and!; try done. by destruct (lane_on t).
  - unfold enable_aux, lane_on. destruct (auxw t) as [lane|] eqn:Ea; cbn; [by rewrite Ea, (unallocated_contents t U)|].
    assert (U' : unallocated (set_auxw (Some (replicate (cap t) 0%Z)) t)).
    { destruct U as (U1 & U2 & U3 & U4 & U5 & _). split_and!; try assumption. cbn. rewrite U3. by intros lane [= <-]. }
    split_and!; [by left | done |]. do 2 f_equal. exact (unallocated_contents _ U').
  - assert (E : map_clear t = t) by (unfold map_clear; assert (E : cap t = 0) by apply U; by rewrite E).
    rewrite E, (unallocated_contents t U). by split_and!.
Qed.

(** A word changed where it is. *)
Lemma aux_mut_ok (t : KMap) k f i : wf kevy_hash t -> has t k i ->
  valid kevy_hash (aux_mut i f t) /\ cap (aux_mut i f t) = cap t /\
  table_of (aux_mut i f t) = (if lane_on t then alter (prod_map id f) k (contents t) else contents t, lane_on t).
Proof.
  intros W Hi. pose proof (wf_layout _ t W) as L. destruct (has_byte kevy_hash t W k i Hi) as (Lc & Hb & _).
  unfold aux_mut, table_of, lane_on. destruct (auxw t) as [lane|] eqn:Ea; [|rewrite Ea; split_and!; [by right | done..]].
  assert (F : slot_is_full t i = true).
  { unfold slot_is_full. destruct (Nat.ltb_spec i (cap t)); [|lia]. rewrite (metadata_lookup t L), Nat.mod_small, Hb by lia. apply h2_full. }
  rewrite F. set (t' := set_auxw _ t).
  assert (W' : wf kevy_hash t').
  { destruct W as [Lw B U O D Lo]. split; try assumption. destruct Lw as [A1 A2 A3 A4 A5]. split; try assumption.
    cbn. intros l [= <-]. rewrite length_alter. by apply A5. }
  split_and!; [by right | reflexivity |]. f_equal. destruct Hi as [v Hv].
  apply map_eq. intros k'. apply option_eq. intros [v' w']. rewrite (contents_Some _ t') by exact W'.
  destruct (decide (k' = k)) as [->|Nk].
  - rewrite lookup_alter_eq, (contents_at _ t i k v W Hv). cbn. unfold word_at. cbn. rewrite Ea.
    destruct (lookup_lt_is_Some_2 lane i) as [w Hw]; [by rewrite (lay_aux t L lane Ea)|]. rewrite Hw. cbn. split.
    + intros (j & Hj & ->). assert (j = i) as -> by (by apply (wf_unique _ t W j i k v' v)).
      rewrite list_lookup_alter_eq, Hw. cbn in Hj. rewrite Hv in Hj. injection Hj as ->. reflexivity.
    + intros [= <- <-]. exists i. rewrite list_lookup_alter_eq, Hw. auto.
  - rewrite lookup_alter_ne, (contents_Some _ t) by (exact W || congruence). unfold word_at. cbn. rewrite Ea.
    split; intros (j & Hj & ->); exists j; (split; [exact Hj|]); rewrite list_lookup_alter_ne; try done; intros <-;
      cbn in Hj; rewrite Hv in Hj; injection Hj as E _; congruence.
Qed.

Lemma update_ok (t : KMap) k f i v : wf kevy_hash t -> slots t !! i = Some (Some (k, v)) ->
  let t' := set_slots (<[i := Some (k, f v)]> (slots t)) t in
  wf kevy_hash t' /\ contents t' = alter (prod_map f id) k (contents t).
Proof.
  intros W Hv t'. pose proof (wf_layout _ t W) as L. destruct (has_byte kevy_hash t W k i ltac:(by exists v)) as (Lc & Hb & Rc).
  assert (W' : wf kevy_hash t').
  { replace t' with (rebuild t (<[i := h2 (kevy_hash k)]> (real t)) (<[i := Some (k, f v)]> (slots t)) (occupied t) (deleted t) (auxw t)).
    - apply (update_wf kevy_hash t W i (h2 (kevy_hash k))); [exact Hb | | | rewrite (list_insert_id (real t) i _ Hb); apply W
          | rewrite (list_insert_id (real t) i _ Hb); apply W | apply W | apply L].
      + split_and!; [done | exact Rc |]. intros j Nj [w Hw]. by apply Nj, (wf_unique _ t W j i k w v).
      + intros E. by destruct (h2_not_mark (kevy_hash k)).
    - unfold rebuild, t', set_slots. rewrite (list_insert_id (real t) i _ Hb). f_equal. symmetry. apply L. }
  split; [exact W'|]. rewrite (contents_put _ t t' i k (f v) W W' eq_refl).
  - rewrite alter_alt, (contents_at _ t i k v W Hv). reflexivity.
  - by apply lookup_lt_Some in Hv.
  - done.
  - intros k' v' H'. congruence.
Qed.

Lemma find_contents (t : KMap) k : wf kevy_hash t -> exists r, find_by_borrow kevy_hash t k = Done r /\
  match r with
  | Some i => exists v, slots t !! i = Some (Some (k, v)) /\ contents t !! k = Some (v, word_at t i)
  | None => contents t !! k = None
  end.
Proof.
  intros W. destruct (map_find_ok kevy_hash t W k) as (r & E & R). exists r. split; [exact E|].
  destruct r as [i|]; [|by apply (contents_None kevy_hash)]. destruct R as [v Hv]. exists v.
  split; [exact Hv | by apply (contents_at kevy_hash)].
Qed.

Lemma op_allocated o (t : KMap) : wf kevy_hash t -> (forall k v, o <> OInsert k v) -> op_ok o t.
Proof.
  intros W N. pose proof (wf_layout _ t W) as L. assert (Va : valid kevy_hash t) by (by right).
  unfold op_ok. destruct o as [k v|k|k|k f|k|k|k f| |]; [by destruct (N k v)|..]; cbn [run_op].
  - rewrite (get_ok kevy_hash t k W). cbn. by split_and!.
  - unfold contains_key. destruct (find_contents t k W) as (r & -> & R). cbn. split_and!; try done.
    do 2 f_equal. destruct r as [i|]; [destruct R as (v & _ & ->) | rewrite R]; reflexivity.
  - unfold map_update. destruct (find_contents t k W) as (r & -> & R). cbn [mbind outcome_bind]. destruct r as [i|].
    + destruct R as (v & Hv & _). rewrite (read_slot_ok t i k v Hv). cbn [mbind outcome_bind fst snd].
      rewrite write_slot_ok by (by apply lookup_lt_Some in Hv). destruct (update_ok t k f i v W Hv) as [W' C].
      split_and!; [by right | done |]. unfold table_of. by rewrite C.
    + split_and!; try done. cbn. by rewrite alter_alt, R.
  - unfold map_remove. destruct (find_contents t k W) as (r & -> & R). cbn [mbind outcome_bind]. destruct r as [i|].
    + destruct R as (v & Hv & Hk). destruct (erase_mark_ok kevy_hash t W i) as (b & -> & Hb & Hole);
        [rewrite <- (lay_slots t L); by apply lookup_lt_Some in Hv|]. cbn [mbind outcome_bind].
      destruct (erase_at_ok kevy_hash t W i k v b Hv Hb Hole) as (t' & -> & W' & Ec & Ct & Ea). cbn.
      split_and!; [by right | lia |]. unfold table_of, lane_on. by rewrite Ct, Ea, Hk.
    + cbn. split_and!; try done. unfold table_of. by rewrite R, delete_id.
  - unfold raw_entry_remove. destruct (probe_ok kevy_hash t W k) as (r & -> & R). cbn [mbind outcome_bind].
    destruct r as [i|i tomb].
    + destruct R as [v Hv]. pose proof (contents_at _ t i k v W Hv) as Hk.
      destruct (erase_at_ok kevy_hash t W i k v DELETED Hv ltac:(by right) ltac:(discriminate)) as (t' & -> & W' & Ec & Ct & Ea).
      cbn. split_and!; [by right | lia |]. unfold table_of, lane_on. by rewrite Ct, Ea, Hk.
    + destruct R as (_ & Nk & _). apply (contents_None kevy_hash t k W) in Nk. cbn. split_and!; try done.
      unfold table_of. by rewrite Nk, delete_id.
  - destruct (find_contents t k W) as (r & -> & R). cbn. destruct r as [i|].
    + destruct R as (v & Hv & _). destruct (aux_mut_ok t k f i W ltac:(by exists v)) as (V' & Ec & E). rewrite E.
      split_and!; [exact V' | lia |]. by destruct (lane_on t).
    + split_and!; try done. unfold table_of. destruct (lane_on t); [|done]. by rewrite alter_alt, R.
  - unfold enable_aux, table_of, lane_on. destruct (auxw t) as [lane|] eqn:Ea; [by rewrite Ea|].
    set (t' := set_auxw _ t). assert (W' : wf kevy_hash t').
    { destruct W as [Lw B U O D Lo]. split; try assumption. destruct Lw as [A1 A2 A3 A4 A5]. split; try assumption.
      cbn. intros l [= <-]. apply length_replicate. }
    split_and!; [by right | done |]. assert (E : contents t' = contents t); [|unfold a_op; rewrite <- E; reflexivity].
    apply map_eq. intros k. apply option_eq. intros [v w].
    rewrite !(contents_Some kevy_hash) by assumption. unfold word_at. cbn. rewrite Ea.
    split; intros (i & Hi & ->); exists i; (split; [exact Hi|]); [|symmetry];
      (rewrite lookup_replicate_2; [done | rewrite <- (lay_slots t L); by apply lookup_lt_Some in Hi]).
  - unfold map_clear. pose proof (cap_pos t L). destruct (Nat.eqb_spec (cap t) 0); [lia|].
    destruct (fresh_wf (V := V) kevy_hash (cap t) (mmap_backed t) (auxw t) (lay_cap t L) (lay_aux t L)) as [Wf Cf].
    split_and!; [by right | done |]. unfold a_op, table_of, lane_on. rewrite <- Cf. reflexivity.
Qed.

Lemma op_correct o (t : KMap) : valid kevy_hash t -> op_ok o t.
Proof using Hsize Halign.
  intros Va. destruct o as [k v| | | | | | | |]; [by apply map_insert_ok|..];
    (destruct Va; [by apply op_unallocated | by apply op_allocated]).
Qed.

(** ** Sequences *)

Fixpoint run_ops (ops : list (map_op K V)) (t : KMap) : outcome (KMap * list answer) :=
  match ops with
  | [] => Done (t, [])
  | o :: r => x ← run_op o t; y ← run_ops r x.1; Done (y.1, x.2 :: y.2)
  end.

Fixpoint a_ops (ops : list (map_op K V)) (m : table) : table * list answer :=
  match ops with
  | [] => (m, [])
  | o :: r => let '(m, x) := a_op o m in let '(m, xs) := a_ops r m in (m, x :: xs)
  end.

(** The operation that stopped a sequence: an insertion whose growth no
    layout allows. *)
Definition refused_at (ops : list (map_op K V)) (t : KMap) : Prop :=
  exists pre o post t1 xs, ops = pre ++ o :: post /\ run_ops pre t = Done (t1, xs) /\
    grows_on_insert t1 = true /\ table_layout kv_size kv_align (next_cap t1) = None.

Lemma ops_correct : forall ops (t : KMap), valid kevy_hash t ->
  match run_ops ops t with
  | Done (t', rs) => valid kevy_hash t' /\ (table_of t', rs) = a_ops ops (table_of t)
  | TooBig => refused_at ops t
  | Undef | Spin => False
  end.
Proof using Hsize Halign.
  induction ops as [|o r IH]; intros t Va; cbn [run_ops a_ops]; [done|].
  pose proof (op_correct o t Va) as O. unfold op_ok in O. destruct (run_op o t) as [[t1 x]| | |] eqn:E; cbn [mbind outcome_bind]; try done.
  - destruct O as (V1 & _ & A). specialize (IH t1 V1). cbn [fst snd]. destruct (a_op o (table_of t)) as [m1 y]. injection A as <- ->.
    destruct (run_ops r t1) as [[t2 xs]| | |] eqn:E2; cbn [mbind outcome_bind]; try done.
    + destruct IH as [V2 A2]. split; [exact V2|]. cbn. destruct (a_ops r (table_of t1)) as [m2 ys]. injection A2 as <- ->. done.
    + destruct IH as (pre & o' & post & t3 & ys & -> & R & G & B). exists (o :: pre), o', post, t3, (y :: ys).
      split_and!; [done | cbn; rewrite E; cbn; rewrite R; done | exact G | exact B].
  - destruct O as [G B]. exists [], o, r, t, []. by split_and!.
Qed.

(** A probe of a table that satisfies the invariant ends within one turn
    around it: [cap / 16] groups, however much fuel is left. *)
Lemma find_loop_ends (t : KMap) k fuel : wf kevy_hash t -> cap t / 16 <= fuel ->
  exists r, find_loop fuel t k (h2 (kevy_hash k)) (home t (kevy_hash k)) = Done r /\
    match r with Some i => has t k i | None => forall i, ~ has t k i end.
Proof.
  intros W F. pose proof (wf_layout _ t W) as L. rewrite (find_is_probe t k _ fuel _ None).
  destruct (probe_slow_ok kevy_hash t W k fuel 0 None) as (r & E & R); try (intros o Ho; lia); [exact F | intros d [=] |].
  rewrite Nat.mul_0_r, Nat.add_0_r, Nat.mod_small in E by (by apply home_lt). rewrite E. cbn.
  eexists. split; [reflexivity|]. destruct r; [exact R | apply R].
Qed.
End Ops.

(** C9: The table is a finite map: from a table that is new or satisfies the
    invariant, any sequence of its operations ends, accesses no memory that
    holds nothing, and gives the answers, the keys, the values and the side
    words of the same operations on a finite map; it stops short only at an
    insertion whose growth is past the largest layout.  The mirror bytes, the
    tombstones, both probe loops, the choice of mark at a removal and the
    rebuilds are invisible. *)
Theorem map_refines_finite_map {K V : Type} `{Countable K} (kevy_hash : K -> Z) (kv_size kv_align : Z) (mmap_ok : Z -> bool)
  (ops : list (map_op K V)) (t : KevyMap (K := K) (V := V)) :
  (0 <= kv_size)%Z -> (0 < kv_align)%Z -> valid kevy_hash t ->
  match run_ops kevy_hash kv_size kv_align mmap_ok ops t with
  | Done (t', rs) => valid kevy_hash t' /\ (table_of t', rs) = a_ops ops (table_of t)
  | TooBig => refused_at kevy_hash kv_size kv_align mmap_ok ops t
  | Undef | Spin => False
  end.
Proof. intros Hs Ha Va. by apply ops_correct. Qed.

(** Keys that all start at one bucket, so that they spill into a second
    group, and one removed from the middle of the run. *)
Definition crowd : list (map_op Z Z) :=
  ((fun i => OInsert (Z.of_nat i) (Z.of_nat (10 * i))) <$> seq 0 20) ++
  [OEnableAux; OWord 3%Z (fun _ => 7%Z); ORemove 5%Z; OGet 19%Z; OGet 5%Z; OInsert 3%Z 99%Z; OGet 3%Z].

Lemma map_refines_finite_map_witness :
  match run_ops (fun _ => 3%Z) 16 8 (fun _ => true) crowd map_new with
  | Done (t, rs) => (table_of t, rs) = a_ops crowd (∅, false) /\ length rs = 27
  | _ => False
  end.
Proof.
  pose proof (map_refines_finite_map (fun _ => 3%Z) 16 8 (fun _ => true) crowd map_new ltac:(lia) ltac:(lia)) as R.
  specialize (R ltac:(left; by split_and!)).
  destruct (run_ops (fun _ => 3%Z) 16 8 (fun _ => true) crowd map_new) as [[t rs]| | |] eqn:E; try contradiction.
  - destruct R as [_ R]. change (table_of map_new) with (∅ : gmap Z (Z * Z), false) in R. split; [exact R|]. assert (L : length rs = length (snd (a_ops crowd (∅, false)))) by (by rewrite <- R).
    rewrite L. vm_compute. reflexivity.
  - vm_compute in E. discriminate.
Defined.

(** Every lookup ends after at most [cap / 16] groups of a table that
    satisfies the invariant, and finds the key exactly when it is there. *)
Theorem probe_ends_in_one_turn {K V : Type} `{Countable K} (kevy_hash : K -> Z) (t : KevyMap (K := K) (V := V)) (k : K) (fuel : nat) :
  wf kevy_hash t -> cap t / 16 <= fuel ->
  exists r, find_loop fuel t k (h2 (kevy_hash k)) (home t (kevy_hash k)) = Done r /\
    match r with
    | Some i => has t k i
    | None => contents t !! k = None
    end.
Proof.
  intros W F. destruct (find_loop_ends kevy_hash t k fuel W F) as (r & E & R). exists r. split; [exact E|].
  destruct r; [exact R | by apply (contents_None kevy_hash)].
Qed.

Lemma probe_ends_in_one_turn_witness :
  exists r, find_loop 1 (fresh (K := Z) (V := Z) 16 false None) 4%Z (h2 4) (home (fresh (K := Z) (V := Z) 16 false None) 4%Z) = Done r /\
    match r with Some i => has (fresh (K := Z) (V := Z) 16 false None) 4%Z i | None => contents (fresh (K := Z) (V := Z) 16 false None) !! 4%Z = None end.
Proof.
  apply (probe_ends_in_one_turn (fun k => k) (fresh 16 false None) 4%Z 1).
  - apply fresh_wf; [exists 4; split; [lia | reflexivity] | discriminate].
  - vm_compute. lia.
Defined.
