(* ===== verification/MapScan.v ===== *)
(** * Walks over the table ([crates/kevy-map/src]: [scan.rs], [iter.rs], [clone.rs])

    What SCAN rests on.  A cursor names a home group by its low bits, counted
    with the bits reversed: written backwards as a 64-bit number, the cursor
    only moves up, by the size of one group of the table it is used on, and a
    key's place on that line does not depend on the table.  So a walk may meet
    a table that has grown between two calls and still pass every key that
    stays. *)

From Stdlib Require Import ZArith Lia Bool.
From stdpp Require Import base list gmap.
From S2P Require Import Prelude Map MapSpec MapRefine.

#[local] Open Scope list_scope.
#[local] Open Scope nat_scope.

Lemma omap_as_id {A B} (f : A -> option B) (l : list A) : omap f l = omap id (f <$> l).
Proof. induction l as [|x l IH]; cbn; [done|]. unfold id at 1. by rewrite IH. Qed.

(** The first [i] of [l], and [x] for the rest. *)
Definition filled {A} (i : nat) (l : list A) (x : A) : list A := take i l ++ replicate (length l - i) x.

Lemma filled_next {A} i (l : list A) x y : l !! i = Some y -> filled (S i) l x = <[i := y]> (filled i l x).
Proof.
  intros Hi. pose proof (lookup_lt_Some _ _ _ Hi) as Li. unfold filled. rewrite (take_S_r _ _ _ Hi).
  replace (length l - i) with (S (length l - S i)) by lia. cbn [replicate].
  rewrite insert_app_r_alt by (rewrite length_take; lia). rewrite length_take, Nat.min_l, Nat.sub_diag by lia.
  cbn. by rewrite <- app_assoc.
Qed.

Lemma filled_same {A} i (l : list A) x : l !! i = Some x -> filled (S i) l x = filled i l x.
Proof.
  intros Hi. rewrite (filled_next i l x x Hi). apply list_insert_id. unfold filled.
  pose proof (lookup_lt_Some _ _ _ Hi) as Li. rewrite lookup_app_r by (rewrite length_take; lia).
  apply lookup_replicate. rewrite length_take. split; [done | lia].
Qed.

Lemma length_filled {A} i (l : list A) x : i <= length l -> length (filled i l x) = length l.
Proof. intros Hi. unfold filled. rewrite length_app, length_take, length_replicate. lia. Qed.

Lemma filled_all {A} (l : list A) x : filled (length l) l x = l.
Proof. unfold filled. rewrite Nat.sub_diag, take_ge by lia. apply app_nil_r. Qed.

(** ** Bits backwards *)

Section Reverse.
Open Scope Z_scope.

Lemma rev_bits_range n : forall x acc a, 0 <= acc < 2 ^ a -> 0 <= a -> 0 <= rev_bits n x acc < 2 ^ (a + Z.of_nat n).
Proof.
  induction n as [|n IH]; intros x acc a H Ha; cbn [rev_bits].
  - by rewrite Z.add_0_r.
  - replace (a + Z.of_nat (S n)) with ((a + 1) + Z.of_nat n) by lia. apply IH; [|lia].
    rewrite Z.pow_add_r, Z.pow_1_r by lia. pose proof (Z.mod_pos_bound x 2 ltac:(lia)). lia.
Qed.

Lemma rev_bits_testbit n : forall x acc i, 0 <= i ->
  Z.testbit (rev_bits n x acc) i =
  if i <? Z.of_nat n then Z.testbit x (Z.of_nat n - 1 - i) else Z.testbit acc (i - Z.of_nat n).
Proof.
  induction n as [|n IH]; intros x acc i Hi; cbn [rev_bits].
  - destruct (Z.ltb_spec i (Z.of_nat 0)); [lia|]. f_equal. lia.
  - rewrite IH by exact Hi. destruct (Z.ltb_spec i (Z.of_nat n)), (Z.ltb_spec i (Z.of_nat (S n))); try lia.
    + change (x / 2) with (x / 2 ^ 1). rewrite Z.div_pow2_bits by lia. f_equal. lia.
    + replace (i - Z.of_nat n) with 0 by lia. replace (Z.of_nat (S n) - 1 - i) with 0 by lia.
      by rewrite <- Z.bit0_mod, Z.testbit_0_r.
    + replace (i - Z.of_nat n) with (Z.succ (i - Z.of_nat (S n))) by lia.
      rewrite <- Z.bit0_mod, Z.testbit_succ_r by lia. reflexivity.
Qed.

Lemma reverse_range x : 0 <= reverse_bits x < 2 ^ 64.
Proof. unfold reverse_bits. apply (rev_bits_range 64 x 0 0); lia. Qed.

Lemma reverse_testbit x i : 0 <= i -> Z.testbit (reverse_bits x) i = (i <? 64) && Z.testbit x (63 - i).
Proof.
  intros Hi. unfold reverse_bits. rewrite rev_bits_testbit by exact Hi. change (Z.of_nat 64) with 64.
  destruct (i <? 64); [done|]. apply Z.bits_0.
Qed.

Lemma bits_above x m i : 0 <= x < 2 ^ m -> m <= i -> 0 <= m -> Z.testbit x i = false.
Proof. intros H Hi Hm. rewrite <- (Z.mod_small x (2 ^ m)) by exact H. apply Z.mod_pow2_bits_high. lia. Qed.

Lemma reverse_involutive x : 0 <= x < 2 ^ 64 -> reverse_bits (reverse_bits x) = x.
Proof.
  intros H. apply Z.bits_inj'. intros i Hi. rewrite reverse_testbit by exact Hi.
  destruct (Z.ltb_spec i 64); cbn [andb].
  - rewrite reverse_testbit by lia. destruct (Z.ltb_spec (63 - i) 64); [|lia]. cbn [andb]. f_equal. lia.
  - symmetry. apply (bits_above x 64); lia.
Qed.

Lemma lor_ones_succ x m : 0 <= m -> Z.lor x (Z.ones m) + 1 = (x / 2 ^ m + 1) * 2 ^ m.
Proof.
  intros Hm. assert (0 < 2 ^ m) by (apply Z.pow_pos_nonneg; lia).
  rewrite (Z.div_mod (Z.lor x (Z.ones m)) (2 ^ m)) at 1 by lia.
  rewrite <- Z.shiftr_div_pow2, <- Z.land_ones, Z.shiftr_lor, Z.land_lor_distr_l, Z.land_diag by exact Hm.
  rewrite (Z.shiftr_div_pow2 (Z.ones m)), Z.ones_equiv, (Z.div_small (Z.pred (2 ^ m))), Z.lor_0_r by lia.
  rewrite Z.shiftr_div_pow2, <- Z.ones_equiv by exact Hm.
  enough (E : Z.lor (Z.land x (Z.ones m)) (Z.ones m) = Z.ones m) by (rewrite E, Z.ones_equiv; lia).
  apply Z.bits_inj'. intros i Hi. rewrite Z.lor_spec, Z.land_spec. by destruct (Z.testbit x i), (Z.testbit (Z.ones m) i).
Qed.

(** The cursor backwards moves to the end of its block of [2 ^ (64 - b)]. *)
Lemma cursor_step x b : 0 <= x < 2 ^ 64 -> 0 <= b <= 64 ->
  reverse_bits (Z.lor x (2 ^ 64 - 1 - (2 ^ b - 1))) + 1 = (reverse_bits x / 2 ^ (64 - b) + 1) * 2 ^ (64 - b).
Proof.
  intros H Hb. rewrite <- lor_ones_succ by lia. f_equal.
  replace (2 ^ 64 - 1 - (2 ^ b - 1)) with (Z.shiftl (Z.ones (64 - b)) b).
  2:{ rewrite Z.shiftl_mul_pow2, Z.ones_equiv by lia. replace 64 with ((64 - b) + b) at 2 by lia. rewrite Z.pow_add_r by lia. lia. }
  apply Z.bits_inj'. intros i Hi. rewrite Z.lor_spec, !reverse_testbit, Z.lor_spec, Z.testbit_ones_nonneg by lia.
  destruct (Z.ltb_spec i 64) as [Li|Li]; cbn [andb].
  - rewrite Z.shiftl_spec by lia. f_equal. destruct (Z.ltb_spec i (64 - b)).
    + rewrite Z.testbit_ones_nonneg by lia. destruct (Z.ltb_spec (63 - i - b) (64 - b)); [done | lia].
    + by rewrite Z.testbit_neg_r by lia.
  - destruct (Z.ltb_spec i (64 - b)); [lia | done].
Qed.

(** Same low bits, same block. *)
Lemma same_group x y b : 0 <= b <= 64 ->
  x mod 2 ^ b = y mod 2 ^ b <-> reverse_bits x / 2 ^ (64 - b) = reverse_bits y / 2 ^ (64 - b).
Proof.
  intros Hb.
  assert (R : forall z i, 0 <= i -> Z.testbit (reverse_bits z / 2 ^ (64 - b)) i = (i <? b) && Z.testbit z (b - 1 - i)).
  { intros z i Hi. rewrite Z.div_pow2_bits, reverse_testbit by lia.
    destruct (Z.ltb_spec (i + (64 - b)) 64), (Z.ltb_spec i b); try lia; cbn [andb]; f_equal; lia. }
  assert (M : forall z i, 0 <= i -> Z.testbit (z mod 2 ^ b) i = (i <? b) && Z.testbit z i).
  { intros z i Hi. destruct (Z.ltb_spec i b); [by apply Z.mod_pow2_bits_low; lia | by apply Z.mod_pow2_bits_high; lia]. }
  split; intros E; apply Z.bits_inj'; intros i Hi.
  - rewrite !R by exact Hi. destruct (Z.ltb_spec i b); [|done]. cbn [andb].
    apply (f_equal (fun z => Z.testbit z (b - 1 - i))) in E. rewrite !M in E by lia.
    by destruct (Z.ltb_spec (b - 1 - i) b); [|lia].
  - rewrite !M by exact Hi. destruct (Z.ltb_spec i b); [|done]. cbn [andb].
    apply (f_equal (fun z => Z.testbit z (b - 1 - i))) in E. rewrite !R in E by lia.
    destruct (Z.ltb_spec (b - 1 - i) b); [|lia]. cbn [andb] in E. by replace (b - 1 - (b - 1 - i)) with i in E by lia.
Qed.
End Reverse.

Section Scan.
Context {K V : Type} `{Countable K} (kevy_hash : K -> Z).

Abbreviation KMap := (KevyMap (K := K) (V := V)).

(** ** One home group *)

Section Group.
Context (t : KMap) (W : wf kevy_hash t) (g : nat) (Hg : g < cap t / 16).
Let L : layout t := wf_layout kevy_hash t W.
Let c := cap t.
Let start := g * GROUP_WIDTH.

(** The pair the walk hands out at offset [o]. *)
Definition here (o : nat) : option (K * V) :=
  match slots t !! ((start + o) mod c) with
  | Some (Some kv) => if (home t (kevy_hash kv.1) / GROUP_WIDTH =? g) then Some kv else None
  | _ => None
  end.

(** The walk from offset [o] on visits a run of offsets that ends with the
    table or well past an EMPTY byte that no home of the group precedes. *)
Lemma visit_loop_ok : forall todo o past, o + todo <= c ->
  (forall q, past = Some q -> exists e, 15 <= e /\ real t !! ((start + e) mod c) = Some EMPTY /\ o + q = e + 16) ->
  exists n, n <= todo /\ visit_loop kevy_hash todo t g start o past = Done (omap here (seq o n)) /\
    (n = todo \/ exists e, 15 <= e /\ real t !! ((start + e) mod c) = Some EMPTY /\ e + 16 < o + n).
Proof using W Hg.
  induction todo as [|todo IH]; intros o past Ho Hp; cbn [visit_loop]; [by exists 0; auto|].
  pose proof (cap_pos t L) as C. rewrite (wrap_mod t L). unfold read_meta.
  assert (Hi : (start + o) mod c < c) by (apply Nat.mod_upper_bound; unfold c in *; lia).
  rewrite (metadata_lookup t L) by (unfold c in *; lia). rewrite (Nat.mod_small ((start + o) mod _)) by exact Hi.
  destruct (real_some t L _ Hi) as [b Hb]. fold c. rewrite Hb. cbn [mbind outcome_bind].
  assert (Eh : (if is_full b then kv ← read_slot t ((start + o) mod c);
                  Done (if home t (kevy_hash kv.1) / GROUP_WIDTH =? g then [kv] else []) else Done [])
               = Done (option_list (here o))).
  { unfold here. pose proof (wf_bytes _ t W _ b Hb) as B. unfold byte_ok in B.
    destruct (slots t !! ((start + o) mod c)) as [[kv|]|] eqn:E; [| |contradiction].
    - destruct kv as [k v]. destruct B as [-> _]. rewrite h2_full. unfold read_slot. rewrite E. cbn [mbind outcome_bind fst].
      by destruct (home t (kevy_hash k) / GROUP_WIDTH =? g).
    - by rewrite (not_full_mark b B). }
  rewrite Eh. cbn [mbind outcome_bind].
  assert (Step : forall past', (forall q, past' = Some q -> exists e, 15 <= e /\ real t !! ((start + e) mod c) = Some EMPTY /\ S o + q = e + 16) ->
    exists n, n <= S todo /\ (r ← visit_loop kevy_hash todo t g start (S o) past'; Done (option_list (here o) ++ r)) = Done (omap here (seq o n)) /\
      (n = S todo \/ exists e, 15 <= e /\ real t !! ((start + e) mod c) = Some EMPTY /\ e + 16 < o + n)).
  { intros past' Hp'. destruct (IH (S o) past' ltac:(lia) Hp') as (n & Hn & -> & R). exists (S n). split; [lia|]. split.
    - cbn. by destruct (here o).
    - destruct R as [->|(e & ? & ? & ?)]; [by left | right; exists e; split_and!; [done|done|lia]]. }
  destruct past as [[|q]|].
  - destruct (Hp 0 eq_refl) as (e & He & Ee & Eo). exists 1. split; [lia|]. split; [cbn; by destruct (here o)|].
    right. exists e. split_and!; [done|done|lia].
  - apply Step. intros q' [= <-]. destruct (Hp (S q) eq_refl) as (e & He & Ee & Eo). exists e. split_and!; [done|done|lia].
  - apply Step. unfold GROUP_WIDTH. intros q. destruct (Z.eqb_spec b EMPTY) as [->|]; cbn [andb]; [|discriminate].
    destruct (Nat.leb_spec 16 (o + 1)); [|discriminate]. intros [= <-]. exists o. split_and!; [lia|done|lia].
Qed.

Lemma here_Some o k v : here o = Some (k, v) ->
  slots t !! ((start + o) mod c) = Some (Some (k, v)) /\ home t (kevy_hash k) / GROUP_WIDTH = g.
Proof.
  unfold here. destruct (slots t !! ((start + o) mod c)) as [[kv|]|]; [|discriminate..].
  destruct (Nat.eqb_spec (home t (kevy_hash kv.1) / GROUP_WIDTH) g) as [E|]; [|discriminate]. by intros [= ->].
Qed.

(** Every entry of the group lies where the walk has been. *)
Lemma group_offset n i k v : slots t !! i = Some (Some (k, v)) -> home t (kevy_hash k) / GROUP_WIDTH = g ->
  n = c \/ (exists e, 15 <= e /\ real t !! ((start + e) mod c) = Some EMPTY /\ e + 16 < n) ->
  exists o, o < n /\ (start + o) mod c = i.
Proof using W Hg.
  intros Hi Eg Hn. destruct (has_byte kevy_hash t W k i (ex_intro _ v Hi)) as (Li & _ & R). fold c in Li, R.
  pose proof (pow2_groups _ (lay_cap t L)) as [C16 Ec]. fold c in C16, Ec, Hg.
  pose proof (home_lt t L (kevy_hash k)) as Hh. set (h := home t (kevy_hash k)) in *. unfold GROUP_WIDTH in *.
  pose proof (Nat.div_mod_eq h 16) as Eh. pose proof (Nat.mod_upper_bound h 16 ltac:(lia)) as Hr. rewrite Eg in Eh.
  set (r := h mod 16) in *. exists (off c start i). assert (Hs : start < c) by (unfold start, GROUP_WIDTH; lia).
  split; [|apply at_off; lia]. destruct Hn as [->|(e & He & Ee & Hn)]; [apply off_lt; lia|].
  destruct (decide (off c start i < n)) as [|Ge]; [done|]. exfalso.
  set (o := off c start i) in *. assert (Ho : o < c) by (apply off_lt; lia).
  assert (Ei : (h + (o - r)) mod c = i).
  { replace (h + (o - r)) with (start + o) by (unfold start, GROUP_WIDTH; lia). apply at_off; lia. }
  assert (Eo : off c h i = o - r) by (rewrite <- Ei; apply off_at; lia).
  apply (R (e - r)).
  - rewrite Eo. pose proof (Nat.div_mod_eq (o - r) 16). pose proof (Nat.mod_upper_bound (o - r) 16 ltac:(lia)). lia.
  - replace (h + (e - r)) with (start + e) by (unfold start, GROUP_WIDTH; lia). exact Ee.
Qed.

Lemma visit_group_ok : exists l, visit_home_group kevy_hash g t = Done l /\ NoDup l.*1 /\
  forall k v, (k, v) ∈ l <-> (exists i, slots t !! i = Some (Some (k, v))) /\ home t (kevy_hash k) / GROUP_WIDTH = g.
Proof using W Hg.
  destruct (visit_loop_ok c 0 None) as (n & Hn & E & R); [lia | discriminate|].
  exists (omap here (seq 0 n)). split; [exact E|].
  pose proof (pow2_groups _ (lay_cap t L)) as [C16 Ec]. fold c in C16, Ec, Hg.
  assert (Hs : start < c) by (unfold start, GROUP_WIDTH; lia). split.
  - rewrite omap_as_id. apply omap_keys_NoDup. intros i j k v w Hi Hj.
    rewrite list_lookup_fmap in Hi, Hj. apply fmap_Some in Hi as (i' & Hi & Ei). apply fmap_Some in Hj as (j' & Hj & Ej).
    apply lookup_seq in Hi as [-> Hi]. apply lookup_seq in Hj as [-> Hj]. symmetry in Ei, Ej.
    apply here_Some in Ei as [Ei _]. apply here_Some in Ej as [Ej _]. pose proof (wf_unique _ t W _ _ _ _ _ Ei Ej) as U.
    apply (f_equal (off c start)) in U. rewrite !off_at in U by lia. lia.
  - intros k v. rewrite list_elem_of_omap. split.
    + intros (o & _ & Eo). apply here_Some in Eo as [Eo Eg]. split; [by eexists | exact Eg].
    + intros [[i Hi] Eg]. destruct (group_offset n i k v Hi Eg) as (o & Ho & <-); [destruct R as [R|R]; [left; lia | right; exact R]|].
      exists o. split; [apply elem_of_seq; lia|]. unfold here. rewrite Hi. cbn [fst]. by rewrite Eg, Nat.eqb_refl.
Qed.
End Group.

(** ** The line of the cursors *)

(** Where a key lies on it, whatever the table. *)
Definition place (k : K) : Z := reverse_bits ((kevy_hash k / 16) mod 2 ^ 64).

(** The size of a group on the line of a table with [2 ^ b] groups. *)
Definition width (b : Z) : Z := (2 ^ (64 - b))%Z.

Lemma groups_exp (t : KMap) : layout t ->
  exists b, (0 <= b <= 58)%Z /\ Z.of_nat (cap t / 16) = (2 ^ b)%Z /\
    forall x, Z.of_nat (home t x / GROUP_WIDTH) = ((x / 16) mod 2 ^ b)%Z.
Proof.
  intros L. destruct (lay_cap t L) as (n & Hn & E). exists (Z.of_nat n - 4)%Z.
  assert (E4 : Z.of_nat (cap t) = (16 * 2 ^ (Z.of_nat n - 4))%Z).
  { rewrite E, Nat2Z.inj_pow. change 16%Z with (2 ^ 4)%Z. rewrite <- Z.pow_add_r by lia. f_equal. lia. }
  assert (0 < 2 ^ (Z.of_nat n - 4))%Z by (apply Z.pow_pos_nonneg; lia).
  split_and!; [lia | lia | rewrite Nat2Z.inj_div, E4; change (Z.of_nat 16) with 16%Z; by rewrite Z.mul_comm, Z.div_mul by lia|].
  intros x. unfold GROUP_WIDTH, home, mask. rewrite mask_mod by apply L. pose proof (cap_pos t L).
  rewrite Nat2Z.inj_div, Z2Nat.id by (apply Z.mod_pos_bound; lia). change (Z.of_nat 16) with 16%Z. rewrite E4.
  rewrite Z.rem_mul_r by lia. rewrite Z.mul_comm, Z.div_add by lia.
  rewrite Z.div_small by (apply Z.mod_pos_bound; lia). done.
Qed.

(** One call: every entry placed in the cursor's block is handed out once,
    nothing else is, and the cursor moves to the end of the block. *)
Lemma scan_step_ok (t : KMap) cur b : wf kevy_hash t -> (0 <= cur < 2 ^ 64)%Z ->
  (0 <= b <= 58)%Z -> Z.of_nat (cap t / 16) = (2 ^ b)%Z ->
  (forall x, Z.of_nat (home t x / GROUP_WIDTH) = ((x / 16) mod 2 ^ b)%Z) ->
  exists l cur', scan_step kevy_hash cur t = Done (l, cur') /\ (0 <= cur' < 2 ^ 64)%Z /\
    reverse_bits cur' = (((reverse_bits cur / width b + 1) * width b) mod 2 ^ 64)%Z /\ NoDup l.*1 /\
    forall k v, (k, v) ∈ l <->
      (exists i, slots t !! i = Some (Some (k, v))) /\ (place k / width b = reverse_bits cur / width b)%Z.
Proof.
  intros W Hc Hb Eb Hh. pose proof (wf_layout _ t W) as L. pose proof (cap_pos t L) as C.
  assert (P : (0 < 2 ^ b)%Z) by (apply Z.pow_pos_nonneg; lia).
  assert (Eg : Z.land cur (Z.of_nat (cap t / GROUP_WIDTH) - 1) = (cur mod 2 ^ b)%Z).
  { unfold GROUP_WIDTH. rewrite Eb, <- Z.land_ones, Z.ones_equiv by lia. done. }
  pose proof (Z.mod_pos_bound cur (2 ^ b) P) as Hm.
  destruct (visit_group_ok t W (Z.to_nat (cur mod 2 ^ b))) as (l & El & Nd & Hl); [lia|].
  unfold scan_step. destruct (Nat.eqb_spec (cap t) 0); [lia|]. cbv zeta. rewrite Eg, El. cbn [mbind outcome_bind].
  unfold GROUP_WIDTH at 1. rewrite Eb. eexists l, _. split; [reflexivity|].
  split; [apply reverse_range|]. split_and!.
  - rewrite reverse_involutive by (apply Z.mod_pos_bound; lia). by rewrite cursor_step by lia.
  - exact Nd.
  - intros k v. rewrite Hl. apply and_iff_compat_l. unfold place, width. rewrite <- same_group by lia.
    rewrite Z.mod_mod_divide by (exists (2 ^ (64 - b))%Z; rewrite <- Z.pow_add_r by lia; f_equal; lia).
    rewrite <- Hh. lia.
Qed.
(** ** Walks *)

(** The calls a client makes from [cursor] on, each against the table as it
    is by then: what they hand out and the last cursor. *)
Fixpoint scan_calls (cursor : Z) (ts : list KMap) : outcome (list (K * V) * Z) :=
  match ts with
  | [] => Done ([], cursor)
  | t :: r =>
      x ← scan_step kevy_hash cursor t;
      y ← scan_calls x.2 r;
      Done (x.1 ++ y.1, y.2)
  end.

Lemma place_range k : (0 <= place k < 2 ^ 64)%Z.
Proof. apply reverse_range. Qed.

Lemma width_facts b : (0 <= b <= 58)%Z -> (0 < width b)%Z /\ (width b * 2 ^ b = 2 ^ 64)%Z.
Proof.
  intros Hb. unfold width. split; [apply Z.pow_pos_nonneg; lia|]. rewrite <- Z.pow_add_r by lia. f_equal. lia.
Qed.

(** The end of the block of [x], where the line ends at [2 ^ 64]. *)
Lemma block_end b x y : (0 <= b <= 58)%Z -> (0 <= x < 2 ^ 64)%Z -> (x <= y)%Z -> (y / width b <> x / width b)%Z -> (y < 2 ^ 64)%Z ->
  (x < (x / width b + 1) * width b <= y)%Z /\ (((x / width b + 1) * width b) mod 2 ^ 64 = (x / width b + 1) * width b)%Z.
Proof.
  intros Hb Hx Hy N Ly. destruct (width_facts b Hb) as [Hs Es]. set (s := width b) in *.
  pose proof (Z.div_mod x s ltac:(lia)). pose proof (Z.mod_pos_bound x s Hs).
  pose proof (Z.div_mod y s ltac:(lia)). pose proof (Z.mod_pos_bound y s Hs).
  assert (x / s < y / s)%Z by (pose proof (Z.div_le_mono x y s Hs Hy); lia).
  assert (0 <= x / s)%Z by (apply Z.div_pos; lia). split; [nia|]. apply Z.mod_small. nia.
Qed.

Lemma valid_has (t : KMap) k : valid kevy_hash t -> is_Some (contents t !! k) -> wf kevy_hash t /\ exists i, has t k i.
Proof.
  intros [U|W] [[v w] E].
  - by rewrite (unallocated_contents t U) in E.
  - split; [exact W|]. apply (contents_Some kevy_hash) in E as (i & Hi & _); [|exact W]. exists i. by exists v.
Qed.

(** A call on any table. *)
Lemma scan_step_total (t : KMap) cur : valid kevy_hash t -> (0 <= cur < 2 ^ 64)%Z ->
  exists l cur', scan_step kevy_hash cur t = Done (l, cur') /\ (0 <= cur' < 2 ^ 64)%Z /\
    (forall k v, (k, v) ∈ l -> exists w, contents t !! k = Some (v, w)) /\
    (forall k, is_Some (contents t !! k) -> (reverse_bits cur <= place k)%Z -> k ∈ l.*1 \/
      (reverse_bits cur < reverse_bits cur' <= place k)%Z).
Proof.
  intros [U|W] Hc.
  - assert (E : cap t = 0) by apply U. exists [], 0%Z. unfold scan_step. rewrite E. split_and!; [done|lia|lia| |].
    + intros k v Hk. inversion Hk.
    + intros k [x Hk]. by rewrite (unallocated_contents t U) in Hk.
  - destruct (groups_exp t (wf_layout _ t W)) as (b & Hb & Eb & Hh).
    destruct (scan_step_ok t cur b W Hc Hb Eb Hh) as (l & cur' & E & Hc' & R & _ & Hl). exists l, cur'. split_and!; [done|lia|lia| |].
    + intros k v [[i Hi] _]%Hl. exists (word_at t i). apply (contents_Some kevy_hash); [exact W|]. by exists i.
    + intros k Hk Hp. destruct (valid_has t k (or_intror W) Hk) as (_ & i & v & Hi).
      destruct (decide (place k / width b = reverse_bits cur / width b)%Z) as [Same|Other].
      * left. apply list_elem_of_fmap. exists (k, v). split; [done|]. apply Hl. split; [by exists i | exact Same].
      * right. pose proof (place_range k). pose proof (reverse_range cur). rewrite R.
        destruct (block_end b (reverse_bits cur) (place k)) as [? ->]; [lia..| exact Other | lia | lia].
Qed.

Lemma scan_calls_ok : forall ts cur, Forall (valid kevy_hash) ts -> (0 <= cur < 2 ^ 64)%Z ->
  exists l cur', scan_calls cur ts = Done (l, cur') /\ (0 <= cur' < 2 ^ 64)%Z /\
    (forall k v, (k, v) ∈ l -> exists t w, t ∈ ts /\ contents t !! k = Some (v, w)) /\
    (forall k, (forall t, t ∈ ts -> is_Some (contents t !! k)) -> (reverse_bits cur <= place k)%Z -> k ∈ l.*1 \/
      (reverse_bits cur <= reverse_bits cur' /\ (ts <> [] -> reverse_bits cur < reverse_bits cur'))%Z).
Proof.
  induction ts as [|t ts IH]; intros cur Hv Hc; cbn [scan_calls].
  - exists [], cur. split_and!; [done|lia|lia| |].
    + intros k v Hk. inversion Hk.
    + intros k _ _. right. split; [lia | done].
  - apply Forall_cons in Hv as [Vt Vts]. destruct (scan_step_total t cur Vt Hc) as (l1 & c1 & -> & Hc1 & S1 & M1). cbn [mbind outcome_bind fst snd].
    destruct (IH c1 Vts Hc1) as (l2 & c2 & -> & Hc2 & S2 & M2). cbn [mbind outcome_bind fst snd]. eexists _, c2. split; [reflexivity|].
    split_and!; [lia|lia| |].
    + intros k v [Hk|Hk]%elem_of_app.
      * destruct (S1 k v Hk) as [w Hw]. exists t, w. split; [left | exact Hw].
      * destruct (S2 k v Hk) as (t' & w & Ht & Hw). exists t', w. split; [by right | exact Hw].
    + intros k Hk Hp. rewrite fmap_app, elem_of_app. destruct (M1 k) as [?|[? ?]]; [apply Hk; left | exact Hp | by do 2 left |].
      destruct (M2 k) as [?|[? _]]; [intros t' Ht; apply Hk; by right | lia | by left; right |]. right. split; [lia | intros _; lia].
Qed.
(** From the start of block [j], [m] calls on one table. *)
Lemma still_calls (t : KMap) b : wf kevy_hash t -> (0 <= b <= 58)%Z -> Z.of_nat (cap t / 16) = (2 ^ b)%Z ->
  (forall x, Z.of_nat (home t x / GROUP_WIDTH) = ((x / 16) mod 2 ^ b)%Z) ->
  forall m j cur, (0 <= j)%Z -> (j + Z.of_nat m <= 2 ^ b)%Z -> (0 <= cur < 2 ^ 64)%Z -> reverse_bits cur = ((j * width b) mod 2 ^ 64)%Z ->
  exists l cur', scan_calls cur (replicate m t) = Done (l, cur') /\ (0 <= cur' < 2 ^ 64)%Z /\
    reverse_bits cur' = (((j + Z.of_nat m) * width b) mod 2 ^ 64)%Z /\ NoDup l.*1 /\
    forall k v, (k, v) ∈ l <-> (exists i, slots t !! i = Some (Some (k, v))) /\ (j <= place k / width b < j + Z.of_nat m)%Z.
Proof.
  intros W Hb Eb Hh. destruct (width_facts b Hb) as [Hs Es].
  induction m as [|m IH]; intros j cur Hj Hjm Hc R; cbn [replicate scan_calls].
  - exists [], cur. rewrite Z.add_0_r. split_and!; [done|lia|lia|exact R|constructor|].
    intros k v. split; [intros Hk; inversion Hk | lia].
  - assert (Ej : reverse_bits cur = (j * width b)%Z) by (rewrite R; apply Z.mod_small; nia).
    destruct (scan_step_ok t cur b W Hc Hb Eb Hh) as (l1 & c1 & -> & Hc1 & R1 & N1 & H1).
    rewrite Ej, Z.div_mul in R1, H1 by lia. cbn [mbind outcome_bind fst snd].
    destruct (IH (j + 1)%Z c1 ltac:(lia) ltac:(lia) Hc1 R1) as (l2 & c2 & -> & Hc2 & R2 & N2 & H2).
    cbn [mbind outcome_bind fst snd]. eexists _, c2. split; [reflexivity|]. split_and!; [lia|lia| | |].
    + rewrite R2. do 2 f_equal. lia.
    + rewrite fmap_app. apply NoDup_app. split_and!; [exact N1 | | exact N2].
      intros k ([k1 v1] & -> & [_ E1]%H1)%list_elem_of_fmap ([k2 v2] & Ek & [_ E2]%H2)%list_elem_of_fmap.
      cbn [fst] in Ek. subst k2. cbn [fst] in *. lia.
    + intros k v. rewrite elem_of_app, H1, H2. split; [intros [[? ?]|[? ?]]; split; (done || lia)|].
      intros [? ?]. destruct (decide (place k / width b = j)%Z); [left | right]; split; (done || lia).
Qed.

Definition pairs_of (t : KMap) : list (K * V) := map_to_list (fst <$> contents t).

Lemma elem_of_pairs (t : KMap) k v : wf kevy_hash t -> (k, v) ∈ pairs_of t <-> exists i, slots t !! i = Some (Some (k, v)).
Proof.
  intros W. unfold pairs_of. rewrite elem_of_map_to_list, lookup_fmap, fmap_Some. split.
  - intros ([v' w] & E & ->). apply (contents_Some kevy_hash) in E as (i & Hi & _); [by exists i | exact W].
  - intros [i Hi]. exists (v, word_at t i). split; [|done]. apply (contents_Some kevy_hash); [exact W|]. by exists i.
Qed.

Lemma same_pairs (t : KMap) l : wf kevy_hash t -> NoDup l.*1 ->
  (forall k v, (k, v) ∈ l <-> exists i, slots t !! i = Some (Some (k, v))) -> l ≡ₚ pairs_of t.
Proof.
  intros W N E. apply NoDup_Permutation; [by apply NoDup_fmap_1 in N | apply NoDup_map_to_list|].
  intros [k v]. by rewrite E, elem_of_pairs.
Qed.

(** ** Iteration *)

Lemma walk_ok (t : KMap) : wf kevy_hash t -> forall n i, i + n = cap t ->
  walk (drop i (real t)) (drop i (slots t)) = Done (omap id (drop i (slots t))).
Proof.
  intros W. pose proof (wf_layout _ t W) as L. induction n as [|n IH]; intros i Hi.
  - rewrite !drop_ge by (rewrite ?(lay_len t L), ?(lay_slots t L); lia). done.
  - destruct (real_some t L i ltac:(lia)) as [b Hb]. rewrite (drop_S _ b i Hb).
    pose proof (wf_bytes _ t W i b Hb) as B. unfold byte_ok in B. destruct (slots t !! i) as [x|] eqn:Hx; [|contradiction].
    rewrite (drop_S _ x i Hx). cbn [walk]. rewrite IH by lia. destruct x as [[k v]|].
    + destruct B as [-> _]. by rewrite h2_full.
    + by rewrite (not_full_mark b B).
Qed.

Lemma iter_ok (t : KMap) : wf kevy_hash t -> exists l, iter t = Done l /\ l ≡ₚ pairs_of t.
Proof.
  intros W. pose proof (walk_ok t W (cap t) 0 eq_refl) as E. rewrite !drop_0 in E. exists (omap id (slots t)). split; [exact E|].
  apply same_pairs; [exact W | apply omap_keys_NoDup; apply (wf_unique _ t W) |].
  intros k v. rewrite list_elem_of_omap. split.
  - intros (x & Hx & Ex). cbn in Ex. subst x. by apply list_elem_of_lookup.
  - intros [i Hi]. exists (Some (k, v)). split; [by apply list_elem_of_lookup_2 with i | done].
Qed.

Lemma occupied_slots ms (ss : list (option (K * V))) :
  Forall2 (fun b x => is_full b = match x with Some _ => true | None => false end) ms ss -> cnt is_full ms = length (omap id ss).
Proof. induction 1 as [|b x ms ss E _ IH]; [done|]. rewrite cnt_cons, E, IH. by destruct x. Qed.

(** [len] counts the keys. *)
Lemma len_is_size (t : KMap) : valid kevy_hash t -> len t = size (contents t).
Proof.
  intros [U|W].
  - rewrite (unallocated_contents t U), map_size_empty. apply U.
  - pose proof (wf_layout _ t W) as L. unfold len. rewrite (wf_occupied _ t W), (occupied_slots _ (slots t)).
    + destruct (iter_ok t W) as (l & E & P). pose proof (walk_ok t W (cap t) 0 eq_refl) as Ew. rewrite !drop_0 in Ew.
      unfold iter in E. change (take (cap t) (metadata t)) with (real t) in E. rewrite Ew in E. injection E as E.
      rewrite E, P. unfold pairs_of. by rewrite length_map_to_list, map_size_fmap.
    + apply Forall2_same_length_lookup. split; [by rewrite (lay_len t L), (lay_slots t L)|]. intros i b x Hb Hx.
      pose proof (wf_bytes _ t W i b Hb) as B. unfold byte_ok in B. rewrite Hx in B.
      destruct x as [[k v]|]; [destruct B as [-> _]; apply h2_full | by apply not_full_mark].
Qed.

(** ** Cloning *)

(** The clone after [i] slots. *)
Definition cloned (t : KMap) (mapped : bool) (i : nat) : KMap :=
  let ms := filled i (real t) EMPTY in
  mkMap (filled i (slots t) None) (ms ++ take 16 ms) (cap t) 0 0 mapped None.

Lemma cloned_layout (t : KMap) mapped i : layout t -> i <= cap t ->
  layout (cloned t mapped i) /\ real (cloned t mapped i) = filled i (real t) EMPTY.
Proof.
  intros L Hi. assert (Len : length (filled i (real t) EMPTY) = cap t) by (by rewrite length_filled; rewrite (lay_len t L)).
  assert (R : real (cloned t mapped i) = filled i (real t) EMPTY).
  { change (real (cloned t mapped i)) with (take (cap t) (filled i (real t) EMPTY ++ take 16 (filled i (real t) EMPTY))).
    rewrite take_app_le by lia. apply take_ge. lia. }
  split; [|exact R]. split; [apply L | by rewrite R | by rewrite R | | discriminate].
  cbn. by rewrite length_filled; rewrite (lay_slots t L).
Qed.

Lemma clone_loop_ok (t : KMap) mapped : wf kevy_hash t -> forall n i, i + n = cap t ->
  clone_loop t (seq i n) (cloned t mapped i) = Done (cloned t mapped (cap t)).
Proof.
  intros W. pose proof (wf_layout _ t W) as L. induction n as [|n IH]; intros i Hi; cbn [seq clone_loop]; [by replace i with (cap t) by lia|].
  destruct (cloned_layout t mapped i L ltac:(lia)) as [Lc Rc]. unfold read_meta.
  rewrite (metadata_lookup t L), Nat.mod_small by lia. destruct (real_some t L i ltac:(lia)) as [b Hb]. rewrite Hb. cbn [mbind outcome_bind].
  pose proof (wf_bytes _ t W i b Hb) as B. unfold byte_ok in B. destruct (slots t !! i) as [x|] eqn:Hx; [|contradiction].
  rewrite <- (IH (S i)) by lia. destruct x as [[k v]|].
  - destruct B as [Eb _]. rewrite Eb, h2_full, <- Eb. rewrite (read_slot_ok t i k v Hx). cbn [mbind outcome_bind].
    rewrite write_slot_ok by (cbn; rewrite length_filled; rewrite (lay_slots t L); lia). cbn [mbind outcome_bind].
    assert (Ls : layout (set_slots (<[i:=Some (k, v)]> (slots (cloned t mapped i))) (cloned t mapped i))).
    { destruct Lc. split; try done. cbn. by rewrite length_insert. }
    rewrite (set_meta_ok _ Ls) by (cbn; lia). cbn [mbind outcome_bind]. f_equal. unfold cloned.
    rewrite (filled_next i (slots t) None (Some (k, v)) Hx), (filled_next i (real t) EMPTY b Hb).
    change (real (set_slots _ _)) with (real (cloned t mapped i)). by rewrite Rc.
  - rewrite (not_full_mark b B). cbn [mbind outcome_bind].
    assert (Es : filled (S i) (slots t) None = filled i (slots t) None) by (by apply filled_same). destruct B as [-> | ->].
    + change (EMPTY =? DELETED)%Z with false. cbn iota. cbn [mbind outcome_bind]. f_equal. unfold cloned. by rewrite Es, filled_same.
    + change (DELETED =? DELETED)%Z with true. cbn iota. rewrite (set_meta_ok _ Lc) by (cbn; lia). cbn [mbind outcome_bind]. f_equal.
      rewrite Rc. unfold cloned. by rewrite Es, (filled_next i (real t) EMPTY DELETED Hb).
Qed.

Lemma cloned_done (t : KMap) mapped : layout t ->
  cloned t mapped (cap t) = mkMap (slots t) (metadata t) (cap t) 0 0 mapped None.
Proof.
  intros L. unfold cloned.
  assert (Er : filled (cap t) (real t) EMPTY = real t) by (rewrite <- (lay_len t L) at 1; apply filled_all).
  assert (Es : filled (cap t) (slots t) None = slots t) by (rewrite <- (lay_slots t L); apply filled_all).
  rewrite Er, Es. f_equal. symmetry. apply (lay_mirror t L).
Qed.

Lemma clone_ok (t : KMap) kv_size kv_align mmap_ok size : wf kevy_hash t -> table_layout kv_size kv_align (cap t) = Some size ->
  exists mapped, map_clone kv_size kv_align mmap_ok t =
    Done (mkMap (slots t) (metadata t) (cap t) (occupied t) (deleted t) mapped (auxw t)).
Proof.
  intros W Es. pose proof (wf_layout _ t W) as L. unfold map_clone. pose proof (cap_pos t L).
  destruct (Nat.eqb_spec (cap t) 0); [lia|]. unfold alloc_table. rewrite Es. cbn [mbind outcome_bind].
  eexists. replace (mkMap _ _ (cap t) 0 0 _ None) with (cloned t ((THP_BACKED_THRESHOLD <=? size)%Z && mmap_ok size) 0).
  - rewrite clone_loop_ok by (done || lia). cbn [mbind outcome_bind]. rewrite cloned_done by exact L. reflexivity.
  - unfold cloned, filled. rewrite !take_0, !Nat.sub_0_r, (lay_len t L), (lay_slots t L). cbn [app].
    pose proof (pow2_groups _ (lay_cap t L)) as [C _]. unfold GROUP_WIDTH. rewrite take_replicate, Nat.min_l, <- replicate_add by lia. done.
Qed.
End Scan.

(** C34: Every key that stays is scanned: whatever becomes of the table between
    the calls, a client that starts at cursor 0 and calls until the cursor is
    0 again has been handed every key that was there at every call, and only
    pairs that were there; each call returns. *)
Theorem scan_misses_nothing {K V : Type} `{Countable K} (kevy_hash : K -> Z) (ts : list (KevyMap (K := K) (V := V))) :
  Forall (valid kevy_hash) ts -> ts <> [] ->
  exists seen cursor, scan_calls kevy_hash 0 ts = Done (seen, cursor) /\
    (forall k v, (k, v) ∈ seen -> exists t w, t ∈ ts /\ contents t !! k = Some (v, w)) /\
    (cursor = 0%Z -> forall k, (forall t, t ∈ ts -> is_Some (contents t !! k)) -> k ∈ seen.*1).
Proof.
  intros Hv N. destruct (scan_calls_ok kevy_hash ts 0%Z Hv ltac:(lia)) as (l & c & E & _ & S & M).
  exists l, c. split_and!; [exact E | exact S |]. intros -> k Hk.
  destruct (M k Hk) as [?|[_ F]]; [pose proof (place_range kevy_hash k); change (reverse_bits 0) with 0%Z; lia | done |].
  specialize (F N). lia.
Qed.

(** A table left alone is scanned in one round of its groups, each pair once:
    the cursor is 0 again after [cap / 16] calls and not before, and the pairs
    handed out are those of the table.  [iter] gives the same. *)
Theorem scan_of_a_still_table {K V : Type} `{Countable K} (kevy_hash : K -> Z) (t : KevyMap (K := K) (V := V)) :
  wf kevy_hash t ->
  (exists seen, scan_calls kevy_hash 0 (replicate (cap t / 16) t) = Done (seen, 0%Z) /\ seen ≡ₚ pairs_of t) /\
  (forall m, 0 < m < cap t / 16 -> exists seen cursor,
     scan_calls kevy_hash 0 (replicate m t) = Done (seen, cursor) /\ cursor <> 0%Z) /\
  (exists l, iter t = Done l /\ l ≡ₚ pairs_of t).
Proof.
  intros W. destruct (groups_exp t (wf_layout _ t W)) as (b & Hb & Eb & Hh). destruct (width_facts b Hb) as [Hs Es].
  pose proof (still_calls kevy_hash t b W Hb Eb Hh) as S. split_and!.
  - destruct (S (cap t / 16) 0%Z 0%Z) as (l & c & E & Hc & R & N & Hl); [lia..|done|].
    assert (c = 0%Z) as ->.
    { rewrite <- (reverse_involutive c Hc), R, Eb. replace ((0 + 2 ^ b) * width b)%Z with (1 * 2 ^ 64)%Z by lia. by rewrite Z.mod_mul. }
    exists l. split; [exact E|]. apply (same_pairs kevy_hash); [exact W | exact N |].
    intros k v. rewrite Hl, Eb. split; [by intros [? _] | intros ?; split; [done|]].
    pose proof (place_range kevy_hash k). split; [apply Z.div_pos; lia | apply Z.div_lt_upper_bound; lia].
  - intros m Hm. destruct (S m 0%Z 0%Z) as (l & c & E & Hc & R & _); [lia..|done|]. exists l, c. split; [exact E|].
    intros ->. change (reverse_bits 0) with 0%Z in R. rewrite Z.mod_small in R by nia. nia.
  - apply (iter_ok kevy_hash); exact W.
Qed.

(** A table of twenty keys, and the same after twenty more: the second has
    grown. *)
Definition built (n : nat) : KevyMap (K := Z) (V := Z) :=
  match run_ops (fun k => k * 11)%Z 16 8 (fun _ => true) ((fun i => OInsert (Z.of_nat i) 1%Z) <$> seq 0 n) map_new with
  | Done (t, _) => t
  | _ => map_new
  end.

Lemma built_valid n : valid (fun k => k * 11)%Z (built n).
Proof.
  unfold built. pose proof (ops_correct (fun k => k * 11)%Z 16 8 (fun _ => true) ltac:(lia) ltac:(lia)
    ((fun i => OInsert (Z.of_nat i) 1%Z) <$> seq 0 n) map_new) as R.
  assert (N : valid (fun k => k * 11)%Z (map_new (K := Z) (V := Z))) by (left; by split_and!).
  specialize (R N). destruct (run_ops _ _ _ _ _ _) as [[t rs]| | |]; [apply R | exact N..].
Qed.

Lemma scan_misses_nothing_witness :
  cap (built 20) = 32 /\ cap (built 40) = 64 /\
  exists seen, scan_calls (fun k => k * 11)%Z 0 [built 20; built 40; built 40] = Done (seen, 0%Z) /\ 7%Z ∈ seen.*1.
Proof.
  split; [vm_compute; reflexivity|]. split; [vm_compute; reflexivity|].
  destruct (scan_misses_nothing (fun k => k * 11)%Z [built 20; built 40; built 40]) as (seen & c & E & _ & M);
    [do 3 (constructor; [apply built_valid|]); constructor | discriminate |].
  assert (C : match scan_calls (fun k => k * 11)%Z 0 [built 20; built 40; built 40] with Done (_, c) => c | _ => 1%Z end = 0%Z)
    by (vm_compute; reflexivity).
  rewrite E in C. subst c. exists seen. split; [exact E|]. apply M; [reflexivity|]. intros t Ht.
  assert (F : Forall (fun t => is_Some (contents t !! 7%Z)) [built 20; built 40; built 40])
    by (do 3 (constructor; [vm_compute; by eexists|]); constructor).
  exact (proj1 (Forall_forall _ _) F t Ht).
Defined.

Lemma scan_of_a_still_table_witness :
  exists seen, scan_calls (fun k => k * 11)%Z 0 [built 20; built 20] = Done (seen, 0%Z) /\ seen ≡ₚ pairs_of (built 20).
Proof.
  assert (W : wf (fun k => k * 11)%Z (built 20)).
  { destruct (built_valid 20) as [(_ & _ & C & _)|W]; [vm_compute in C; discriminate | exact W]. }
  destruct (scan_of_a_still_table (fun k => k * 11)%Z (built 20) W) as (S & _).
  assert (C : cap (built 20) / 16 = 2) by (vm_compute; reflexivity). rewrite C in S. exact S.
Defined.
