(* ===== verification/MapTable.v ===== *)
(** * The keyspace's table ([crates/kevy-map/src], [crates/kevy-store/src]: [keyspace_map.rs], [entry.rs])

    The keyspace's [TableShape] is the hash table of [Map] over the keys'
    bytes: a slot holds a 24-byte key and a 40-byte entry, the hash is
    [hash_bytes], removal goes through the raw entry.  Its laws are those of
    the table's code, so what [Store] proves against the interface holds of
    the table.  [linux] says whether a large table can be mapped. *)

From Stdlib Require Import ZArith Lia Bool Strings.Byte.
From stdpp Require Import base list gmap.
From S2P Require Import Prelude Hash Map MapSpec MapRefine StoreUtil Store.

#[local] Open Scope list_scope.
#[local] Open Scope nat_scope.

(** ** What keeps the capacity *)

Section Capacity.
Context {K V : Type} `{EqDecision K} (kevy_hash : K -> Z) (kv_size kv_align : Z) (mmap_ok : Z -> bool).

Abbreviation KMap := (KevyMap (K := K) (V := V)).

(** Every table a computation may end in satisfies [P]. *)
Definition ends {A} (P : A -> Prop) (o : outcome A) : Prop := match o with Done a => P a | _ => True end.

Lemma ends_bind {A B} (P : A -> Prop) (Q : B -> Prop) (f : A -> outcome B) o :
  ends P o -> (forall a, P a -> ends Q (f a)) -> ends Q (o ≫= f).
Proof. destruct o; cbn; auto. Qed.

Lemma ends_weaken {A} (P Q : A -> Prop) o : ends P o -> (forall a, P a -> Q a) -> ends Q o.
Proof. destruct o; cbn; auto. Qed.

Lemma ends_any {A} (o : outcome A) : ends (fun _ => True) o.
Proof. by destruct o. Qed.

(** Same capacity and same backing. *)
Definition like (c : nat) (b : bool) (t : KMap) : Prop := cap t = c /\ mmap_backed t = b.

Lemma set_meta_like c b i v (t : KMap) : like c b t -> ends (like c b) (set_meta i v t).
Proof. intros E. unfold set_meta. by destruct (_ && _). Qed.

Lemma write_slot_like c b i kv (t : KMap) : like c b t -> ends (like c b) (write_slot i kv t).
Proof. intros E. unfold write_slot. by destruct (_ <? _). Qed.

Lemma reset_aux_like c b i (t : KMap) : like c b t -> like c b (reset_aux i t).
Proof. intros E. unfold reset_aux. by destruct (auxw t). Qed.

Lemma ins_known_like c b h2v k v : forall fuel (t : KMap) gs, like c b t ->
  ends (fun r => like c b (fst r)) (ins_known_loop fuel t h2v k v gs).
Proof.
  induction fuel as [|fuel IH]; intros t gs E; cbn [ins_known_loop]; [done|].
  apply (ends_bind (fun _ => True)); [apply ends_any|]. intros g _. destruct (lowest_set _) as [m|]; [|by apply IH].
  apply (ends_bind (like c b)); [by apply set_meta_like|]. intros t1 E1.
  apply (ends_bind (like c b)); [by apply write_slot_like|]. intros t2 E2. exact E2.
Qed.

Lemma move_slot_like c b old i (to : KMap) : like c b to -> ends (like c b) (move_slot kevy_hash old i to).
Proof.
  intros E. unfold move_slot. apply (ends_bind (fun _ => True)); [apply ends_any|]. intros meta _.
  destruct (negb _); [exact E|]. apply (ends_bind (fun _ => True)); [apply ends_any|]. intros [k v] _.
  apply (ends_bind (fun r => like c b (fst r))); [by apply ins_known_like|]. intros [t1 at_] E1.
  destruct (auxw old) as [lo|], (auxw t1) as [ln|]; try exact E1. destruct (lo !! i); [|done]. by destruct (at_ <? _).
Qed.

Lemma move_slots_like c b old : forall is_ (to : KMap), like c b to -> ends (like c b) (move_slots kevy_hash old is_ to).
Proof.
  induction is_ as [|i r IH]; intros to E; cbn [move_slots]; [exact E|].
  apply (ends_bind (like c b)); [by apply move_slot_like | exact IH].
Qed.

(** How [alloc_table] backs a table of capacity [c]. *)
Definition backing (c : nat) : bool :=
  match table_layout kv_size kv_align c with
  | Some size => (THP_BACKED_THRESHOLD <=? size)%Z && mmap_ok size
  | None => false
  end.

(** The table a growth makes: twice the capacity, in a layout that exists. *)
Definition grown (t t' : KMap) : Prop :=
  like (next_cap t) (backing (next_cap t)) t' /\ is_Some (table_layout kv_size kv_align (next_cap t)).

Lemma grow_like (t : KMap) : ends (grown t) (grow kevy_hash kv_size kv_align mmap_ok t).
Proof.
  unfold grow. fold (next_cap t). apply (ends_bind (grown t)).
  - unfold grown, alloc_table, backing. by destruct (table_layout kv_size kv_align (next_cap t)).
  - intros new [E F]. apply (ends_weaken (like (next_cap t) (backing (next_cap t)))); [|by split].
    apply move_slots_like. by destruct (auxw t).
Qed.

Lemma insert_room_like c b k v (t : KMap) : like c b t ->
  ends (fun r => like c b (fst (fst r))) (insert_with_room kevy_hash k v t).
Proof.
  intros E. unfold insert_with_room. apply (ends_bind (fun _ => True)); [apply ends_any|]. intros [idx|at_ tomb] _.
  - apply (ends_bind (fun _ => True)); [apply ends_any|]. intros kv _.
    apply (ends_bind (like c b)); [by apply write_slot_like|]. intros t1 E1. exact E1.
  - apply (ends_bind (like c b)); [by apply set_meta_like|]. intros t1 E1.
    apply (ends_bind (like c b)); [by apply write_slot_like|]. intros t2 E2. exact (reset_aux_like c b at_ t2 E2).
Qed.

(** An insertion keeps the capacity or doubles it. *)
Lemma insert_like k v (t : KMap) :
  ends (fun r => like (cap t) (mmap_backed t) (fst r) \/ grown t (fst r))
       (map_insert kevy_hash kv_size kv_align mmap_ok k v t).
Proof.
  unfold map_insert, map_insert_slot, maybe_grow.
  assert (R : forall c b (t1 : KMap), like c b t1 ->
    ends (fun r => like c b (fst r)) (r ← insert_with_room kevy_hash k v t1; let '(t, _, old) := r in Done (t, old))).
  { intros c b t1 E. apply (ends_bind (fun r => like c b (fst (fst r)))); [by apply insert_room_like|].
    intros [[t2 i] old] E2. exact E2. }
  assert (Flat : forall o : outcome KMap, (r ← (t ← o; insert_with_room kevy_hash k v t); let '(t, _, old) := r in Done (t, old))
    = (t ← o; r ← insert_with_room kevy_hash k v t; let '(t, _, old) := r in Done (t, old))) by (by intros []).
  rewrite Flat. destruct (grows_on_insert t).
  - apply (ends_bind (grown t)); [apply grow_like|]. intros t1 [E1 F1].
    apply (ends_weaken _ _ _ (R _ _ _ E1)). intros a Ea. right. by split.
  - apply (ends_weaken _ _ _ (R (cap t) (mmap_backed t) t (conj eq_refl eq_refl))). auto.
Qed.

Lemma raw_remove_like k (t : KMap) :
  ends (fun r => like (cap t) (mmap_backed t) (fst r)) (raw_entry_remove kevy_hash k t).
Proof.
  unfold raw_entry_remove. apply (ends_bind (fun _ => True)); [apply ends_any|]. intros [idx|at_ tomb] _; [|done].
  apply (ends_bind (fun r => like (cap t) (mmap_backed t) (fst r))); [|by intros [t1 v]].
  unfold erase_at. apply (ends_bind (like (cap t) (mmap_backed t))); [by apply set_meta_like|]. intros t1 E1.
  apply (ends_bind (fun _ => True)); [apply ends_any|]. intros kv _.
  apply (ends_bind (like (cap t) (mmap_backed t))); [by apply write_slot_like|]. intros t2 E2. exact E2.
Qed.

Lemma next_cap_ge (t : KMap) : cap t <= next_cap t.
Proof. unfold next_cap. destruct (Nat.eqb_spec (cap t) 0); lia. Qed.
End Capacity.

(** ** The interface *)

#[local] Open Scope Z_scope.

Definition SLOT_BYTES : Z := 64.
Definition SLOT_ALIGN : Z := 8.

Abbreviation keys_table := (KevyMap (K := list byte) (V := unit)).

(** A table of capacity [c] as [KevyMap::footprint] measures it. *)
Definition table_footprint (linux : bool) (c : Z) (lane : bool) : Z :=
  if c <=? 0 then 0
  else
    let size := next_multiple_of (c * (SLOT_BYTES + 1) + 16) SLOT_ALIGN in
    (if (THP_BACKED_THRESHOLD <=? size) && linux then next_multiple_of size HUGE_PAGE else malloc_footprint size)
    + (if lane then lane_footprint (Z.to_nat c) else 0).

(** A table and whether an operation on it has panicked, which is the end of
    the shard. *)
Definition table_state : Type := keys_table * bool.

Definition table_step {A} (o : outcome (keys_table * A)) (t : keys_table) : table_state :=
  match o with Done (t', _) => (t', false) | _ => (t, true) end.

Definition table_insert (linux : bool) (k : list byte) (s : table_state) : table_state :=
  let '(t, panicked) := s in
  if panicked : bool then s
  else table_step (map_insert hash_bytes SLOT_BYTES SLOT_ALIGN (fun _ => linux) k tt t) t.

Definition table_remove (k : list byte) (s : table_state) : table_state :=
  let '(t, panicked) := s in
  if panicked : bool then s else table_step (raw_entry_remove hash_bytes k t) t.

Definition table_clear (s : table_state) : table_state :=
  let '(t, panicked) := s in if panicked : bool then s else (map_clear t, false).

#[export] Instance kevy_table (linux : bool) : TableShape := {|
  shape := table_state; shape_default := (map_new, false); shape_insert := table_insert linux; shape_remove := table_remove;
  shape_clear := table_clear; capacity s := Z.of_nat (cap (fst s)); footprint := table_footprint linux
|}.

(** ** Its laws *)

Lemma nmo_facts x m : 0 <= x -> 0 < m -> x <= next_multiple_of x m < x + m /\ next_multiple_of x m mod m = 0.
Proof.
  intros Hx Hm. unfold next_multiple_of. pose proof (Z.mod_pos_bound x m Hm). destruct (Z.eqb_spec (x mod m) 0) as [E|N]; [lia|].
  split; [lia|]. rewrite (Z.div_mod x m) at 1 by lia.
  replace (m * (x / m) + x mod m + (m - x mod m)) with ((x / m + 1) * m) by lia. apply Z.mod_mul. lia.
Qed.

Lemma nmo_mono x y m : 0 <= x <= y -> 0 < m -> next_multiple_of x m <= next_multiple_of y m.
Proof.
  intros H Hm. destruct (nmo_facts x m ltac:(lia) Hm) as [Bx Ex]. destruct (nmo_facts y m ltac:(lia) Hm) as [By Ey].
  apply Z.mod_divide in Ex as [a Ea]; [|lia]. apply Z.mod_divide in Ey as [b Eb]; [|lia].
  assert (a <= b) by (apply Z.lt_succ_r, (Z.mul_lt_mono_pos_r m); lia). nia.
Qed.

Lemma malloc_facts size : 0 < size -> size + 8 <= malloc_footprint size <= size + 32.
Proof.
  intros H. unfold malloc_footprint. change 15 with (Z.ones 4). rewrite Z.ldiff_ones_r, Z.shiftr_div_pow2, Z.shiftl_mul_pow2 by lia.
  change (2 ^ 4) with 16. change (Z.ones 4) with 15. destruct (Z.eqb_spec size 0); [lia|].
  pose proof (Z.div_mod (size + 8 + 15) 16 ltac:(lia)). pose proof (Z.mod_pos_bound (size + 8 + 15) 16 ltac:(lia)). lia.
Qed.

Lemma malloc_mono x y : 0 < x <= y -> malloc_footprint x <= malloc_footprint y.
Proof.
  intros H. unfold malloc_footprint. destruct (Z.eqb_spec x 0); [lia|]. destruct (Z.eqb_spec y 0); [lia|].
  change 15 with (Z.ones 4). rewrite !Z.ldiff_ones_r, !Z.shiftr_div_pow2, !Z.shiftl_mul_pow2 by lia.
  pose proof (Z.div_le_mono (x + 8 + Z.ones 4) (y + 8 + Z.ones 4) (2 ^ 4) ltac:(lia) ltac:(lia)). lia.
Qed.

(** The bytes of the slots and metadata, mapped or not. *)
Definition block_footprint (linux : bool) (size : Z) : Z :=
  if (THP_BACKED_THRESHOLD <=? size) && linux then next_multiple_of size HUGE_PAGE else malloc_footprint size.

Lemma block_mono linux x y : 0 < x <= y -> 0 < block_footprint linux x <= block_footprint linux y.
Proof.
  intros H. unfold block_footprint, THP_BACKED_THRESHOLD, HUGE_PAGE. pose proof (malloc_facts x ltac:(lia)). pose proof (malloc_facts y ltac:(lia)).
  destruct (nmo_facts x (2 * 1024 * 1024) ltac:(lia) ltac:(lia)) as [Bx _]. destruct (nmo_facts y (2 * 1024 * 1024) ltac:(lia) ltac:(lia)) as [By Ey].
  apply Z.mod_divide in Ey as [b Eb]; [|lia]. pose proof (malloc_mono x y H). pose proof (nmo_mono x y (2 * 1024 * 1024) ltac:(lia) ltac:(lia)).
  destruct (Z.leb_spec (1024 * 1024) x), (Z.leb_spec (1024 * 1024) y), linux; cbn [andb]; lia.
Qed.

Lemma lane_mono c c' : 0 < c <= c' -> 0 <= lane_footprint (Z.to_nat c) <= lane_footprint (Z.to_nat c').
Proof.
  intros H. unfold lane_footprint. destruct (Nat.eqb_spec (Z.to_nat c) 0); [lia|]. destruct (Nat.eqb_spec (Z.to_nat c') 0); [lia|].
  rewrite !Z2Nat.id by lia. pose proof (malloc_facts 16 ltac:(lia)). pose proof (malloc_facts (c * 8) ltac:(lia)).
  pose proof (malloc_mono (c * 8) (c' * 8) ltac:(lia)). lia.
Qed.

Lemma footprint_cases linux c lane : table_footprint linux c lane =
  if c <=? 0 then 0 else block_footprint linux (next_multiple_of (c * 65 + 16) 8) + (if lane then lane_footprint (Z.to_nat c) else 0).
Proof. reflexivity. Qed.

#[export] Instance kevy_laws linux : TableLaws (kevy_table linux).
Proof.
  assert (S : forall c, 0 < c -> 0 < next_multiple_of (c * 65 + 16) 8) by (intros c Hc; destruct (nmo_facts (c * 65 + 16) 8); lia).
  split.
  - intros k [t []]; [reflexivity|]. cbn. pose proof (raw_remove_like hash_bytes k t) as R.
    destruct (raw_entry_remove hash_bytes k t) as [[t' v]| | |]; try reflexivity. destruct R as [R _]. cbn in R. cbn. by rewrite R.
  - intros [t []]; [reflexivity|]. cbn. unfold map_clear. by destruct (Nat.eqb_spec (cap t) 0).
  - intros k [t []]; [reflexivity|]. cbn.
    pose proof (insert_like hash_bytes SLOT_BYTES SLOT_ALIGN (fun _ => linux) k tt t) as R.
    destruct (map_insert _ _ _ _ k tt t) as [[t' v]| | |]; cbn; try lia.
    pose proof (next_cap_ge t). destruct R as [[R _]|[[R _] _]]; cbn in R; lia.
  - intros c w. cbn. rewrite footprint_cases. destruct (Z.leb_spec c 0); [lia|].
    pose proof (block_mono linux _ _ (conj (S c ltac:(lia)) (Z.le_refl _))). pose proof (lane_mono c c ltac:(lia)). destruct w; lia.
  - intros c c' w Hc. cbn. rewrite !footprint_cases. destruct (Z.leb_spec c 0), (Z.leb_spec c' 0); try lia.
    + pose proof (block_mono linux _ _ (conj (S c' ltac:(lia)) (Z.le_refl _))). pose proof (lane_mono c' c' ltac:(lia)). destruct w; lia.
    + pose proof (nmo_mono (c * 65 + 16) (c' * 65 + 16) 8 ltac:(lia) ltac:(lia)) as M.
      pose proof (block_mono linux _ _ (conj (S c ltac:(lia)) M)). pose proof (lane_mono c c' ltac:(lia)). destruct w; lia.
  - intros c. cbn. rewrite !footprint_cases. destruct (Z.leb_spec c 0); [lia|]. pose proof (lane_mono c c ltac:(lia)). lia.
  - reflexivity.
Qed.

(** ** What the table holds

    A table that has not panicked satisfies the table's invariant, holds
    exactly the keys the operations left in it, keeps no lane of its own (the
    keyspace's [words_on] says whether there is one) and is backed as
    [alloc_table] backs its capacity.  One that has panicked had more slots than
    a layout of twice as many exists for. *)
Definition backed (linux : bool) (t : keys_table) : Prop :=
  cap t <> O -> mmap_backed t = backing SLOT_BYTES SLOT_ALIGN (fun _ => linux) (cap t) /\
                is_Some (table_layout SLOT_BYTES SLOT_ALIGN (cap t)).

Definition holds (linux : bool) (ks : gset (list byte)) (s : table_state) : Prop :=
  if snd s then 2 ^ 55 < Z.of_nat (cap (fst s))
  else valid hash_bytes (fst s) /\ dom (contents (fst s)) = ks /\ auxw (fst s) = None /\ backed linux (fst s).

(** A growth is refused only to a table of more than 2^55 slots. *)
Lemma refused_growth (t : keys_table) : table_layout SLOT_BYTES SLOT_ALIGN (next_cap t) = None -> 2 ^ 55 < Z.of_nat (cap t).
Proof.
  unfold table_layout, next_cap, SLOT_BYTES, SLOT_ALIGN. set (c := if (cap t =? 0)%nat then _ else _). destruct (Z.leb_spec (next_multiple_of (Z.of_nat c * 64 + (Z.of_nat c + 16)) 8) isize_max) as [|L]; [done|]. intros _.
  destruct (nmo_facts (Z.of_nat c * 64 + (Z.of_nat c + 16)) 8 ltac:(lia) ltac:(lia)) as [B _]. unfold isize_max, i64_max in L. revert B L. unfold c, MIN_CAP. destruct (Nat.eqb_spec (cap t) 0); lia.
Qed.

Lemma holds_default linux : holds linux ∅ (map_new, false).
Proof.
  cbn. split_and!; [left; by split_and! | apply dom_empty_L | reflexivity | done].
Qed.

Lemma lane_off (t t' : keys_table) : auxw t = None -> lane_on t' = lane_on t -> auxw t' = None.
Proof. unfold lane_on. intros ->. by destruct (auxw t'). Qed.

Lemma holds_insert linux k ks s : holds linux ks s -> holds linux ({[k]} ∪ ks) (table_insert linux k s).
Proof.
  destruct s as [t []]; intros Hs; [done|]. destruct Hs as (Va & D & Ax & B). cbn [fst] in *. cbn [table_insert].
  pose proof (op_correct hash_bytes SLOT_BYTES SLOT_ALIGN (fun _ => linux) ltac:(done) ltac:(done) (OInsert k tt) t Va) as O.
  pose proof (insert_like hash_bytes SLOT_BYTES SLOT_ALIGN (fun _ => linux) k tt t) as Lk.
  unfold op_ok, run_op in O. destruct (map_insert _ _ _ _ k tt t) as [[t' old]| | |]; [|done|done|by apply refused_growth, O].
  cbn in O. destruct O as (V' & _ & E). injection E as Ec El _. cbn [table_step fst snd holds]. unfold holds. cbn [fst snd]. split_and!.
  - exact V'.
  - by rewrite Ec, dom_insert_L, D.
  - by apply (lane_off t).
  - destruct Lk as [[Ecap Eb]|[[Ecap Eb] F]]; cbn in Ecap, Eb; intros N.
    + rewrite Ecap, Eb. apply B. congruence.
    + rewrite Ecap, Eb. by split.
Qed.

Lemma holds_remove linux k ks s : holds linux ks s -> holds linux (ks ∖ {[k]}) (table_remove k s).
Proof.
  destruct s as [t []]; intros Hs; [done|]. destruct Hs as (Va & D & Ax & B). cbn [fst] in *. cbn [table_remove].
  pose proof (op_correct hash_bytes SLOT_BYTES SLOT_ALIGN (fun _ => linux) ltac:(done) ltac:(done) (ORawRemove k) t Va) as O.
  pose proof (raw_remove_like hash_bytes k t) as Lk.
  unfold op_ok, run_op in O. destruct (raw_entry_remove hash_bytes k t) as [[t' old]| | |]; [|done|done|by apply refused_growth, O].
  cbn in O. destruct O as (V' & _ & E). injection E as Ec El _. cbn [table_step fst snd holds]. unfold holds. cbn [fst snd]. split_and!.
  - exact V'.
  - by rewrite Ec, dom_delete_L, D.
  - by apply (lane_off t).
  - destruct Lk as [Ecap Eb]. cbn in Ecap, Eb. intros N. rewrite Ecap, Eb. apply B. congruence.
Qed.

Lemma holds_clear linux ks s : holds linux ks s -> holds linux ∅ (table_clear s).
Proof.
  destruct s as [t []]; intros Hs; [done|]. destruct Hs as (Va & D & Ax & B). cbn [fst] in *. cbn [table_clear].
  pose proof (op_correct hash_bytes SLOT_BYTES SLOT_ALIGN (fun _ => linux) ltac:(done) ltac:(done) OClear t Va) as O.
  cbn in O. destruct O as (V' & _ & E). injection E as Ec El. unfold holds. cbn [fst snd]. split_and!.
  - exact V'.
  - rewrite Ec. apply dom_empty_L.
  - by apply (lane_off t).
  - unfold map_clear. destruct (Nat.eqb_spec (cap t) 0); [done|]. exact B.
Qed.

(** What the interface charges is what [KevyMap::footprint] answers. *)
Definition with_lane (lane : bool) (t : keys_table) : keys_table := if lane then fst (enable_aux t) else t.

Lemma footprint_is_the_tables linux lane (t : keys_table) : auxw t = None -> backed linux t ->
  table_footprint linux (Z.of_nat (cap t)) lane = map_footprint SLOT_BYTES SLOT_ALIGN (with_lane lane t).
Proof.
  intros Ax B. unfold map_footprint, table_footprint.
  assert (C : cap (with_lane lane t) = cap t) by (unfold with_lane, enable_aux; by rewrite Ax; destruct lane).
  assert (M : mmap_backed (with_lane lane t) = mmap_backed t) by (unfold with_lane, enable_aux; by rewrite Ax; destruct lane).
  rewrite C, M. destruct (Nat.eqb_spec (cap t) 0) as [E|N]; [by rewrite E|].
  destruct (Z.leb_spec (Z.of_nat (cap t)) 0); [lia|]. cbv zeta. f_equal.
  - destruct (B N) as [-> [size Es]]. unfold backing. rewrite Es. unfold table_layout in Es.
    destruct (_ <=? isize_max); [|discriminate]. injection Es as Es.
    replace (Z.of_nat (cap t) * (SLOT_BYTES + 1) + 16) with (Z.of_nat (cap t) * SLOT_BYTES + (Z.of_nat (cap t) + 16)) by lia.
    by rewrite Es.
  - unfold aux_footprint, with_lane, enable_aux. rewrite Ax. destruct lane; cbn; [|by rewrite Ax].
    by rewrite length_replicate, Nat2Z.id.
Qed.
