(* ===== verification/MapSum.v ===== *)
(** * Sums over a finite map

    The keyspace's counters and the tier's gauges are sums over the map's
    entries; these are the ways such a sum changes. *)

From Stdlib Require Import ZArith Lia Strings.Byte.
From stdpp Require Import base list gmap.
From S2P Require Import Prelude.

#[local] Open Scope Z_scope.

Section Sum.
Context {A : Type} (f : list byte -> A -> Z).

Definition msum (m : gmap (list byte) A) : Z := map_fold (fun k x acc => f k x + acc) 0 m.

Lemma msum_empty : msum ∅ = 0.
Proof. apply map_fold_empty. Qed.

Lemma msum_insert_new m k x : m !! k = None -> msum (<[k := x]> m) = f k x + msum m.
Proof.
  intros H. unfold msum.
  apply (map_fold_insert_L (fun k x acc => f k x + acc)); [intros; lia | exact H].
Qed.

Lemma msum_delete m k x : m !! k = Some x -> msum m = f k x + msum (delete k m).
Proof.
  intros H. rewrite <- (insert_delete_id m k x H) at 1. apply msum_insert_new, lookup_delete_eq.
Qed.

Lemma msum_insert m k x : msum (<[k := x]> m) = f k x + msum (delete k m).
Proof. rewrite <- insert_delete_eq. apply msum_insert_new, lookup_delete_eq. Qed.

Lemma msum_replace m k x y : m !! k = Some x -> msum (<[k := y]> m) = msum m - f k x + f k y.
Proof. intros H. rewrite msum_insert, (msum_delete m k x H). lia. Qed.

Lemma msum_nonneg m : (forall k x, m !! k = Some x -> 0 <= f k x) -> 0 <= msum m.
Proof.
  induction m as [|k x m Hk IH] using map_ind; intros H; [rewrite msum_empty; lia|].
  rewrite msum_insert_new by exact Hk. pose proof (H k x (lookup_insert_eq _ _ _)).
  enough (0 <= msum m) by lia. apply IH. intros j y Hj. apply (H j).
  rewrite lookup_insert_ne; [exact Hj | congruence].
Qed.

Lemma msum_le m k x : (forall j y, m !! j = Some y -> 0 <= f j y) -> m !! k = Some x -> f k x <= msum m.
Proof.
  intros H Hk. rewrite (msum_delete m k x Hk). enough (0 <= msum (delete k m)) by lia.
  apply msum_nonneg. intros j y Hj. apply lookup_delete_Some in Hj as [_ Hj]. by apply (H j).
Qed.

(** What a key adds to the sum. *)
Definition at_key (m : gmap (list byte) A) (k : list byte) : Z := match m !! k with Some x => f k x | None => 0 end.

Lemma msum_drop m k : msum (delete k m) = msum m - at_key m k.
Proof. unfold at_key. destruct (m !! k) as [x|] eqn:E; [rewrite (msum_delete m k x E); lia|rewrite delete_id by done; lia]. Qed.

Lemma msum_put m k x : msum (<[k := x]> m) = f k x + msum m - at_key m k.
Proof. rewrite msum_insert, msum_drop. lia. Qed.

Lemma msum_at m k : (forall j y, m !! j = Some y -> 0 <= f j y) -> at_key m k <= msum m.
Proof. intros H. unfold at_key. destruct (m !! k) as [x|] eqn:E; [by apply msum_le|by apply msum_nonneg]. Qed.

Lemma msum_zero m : (forall k x, m !! k = Some x -> f k x = 0) -> msum m = 0.
Proof.
  induction m as [|k x m Hk IH] using map_ind; intros H; [apply msum_empty|]. rewrite msum_insert_new by exact Hk.
  rewrite (H k x (lookup_insert_eq _ _ _)), IH; [done|]. intros j y Hj. apply (H j). rewrite lookup_insert_ne; [exact Hj|congruence].
Qed.

End Sum.
