(* ===== verification/StoreSpec.v ===== *)
(** * The keyspace's accounting ([crates/kevy-store/src/accounting.rs] and the commands of
    [Store] and [StoreString])

    [accounts d s]: the memory counter is the table's bytes plus the weights
    of the entries, off by a constant [d]; the weight recorded for each entry
    is the weight of its value; the gauge counts the entries with a deadline.
    Every command keeps it with the same [d], except INCRBY on a text that
    owns heap bytes, which adds the weight of that text to [d]. *)

From Stdlib Require Import ZArith Lia Bool Strings.Byte Strings.String.
From stdpp Require Import base list gmap.
From S2P Require Import Prelude Utf8 Encode StoreUtil Store StoreString MapSum.

#[local] Open Scope list_scope.
#[local] Open Scope Z_scope.

(** ** The accounting invariant *)

(** A value the code can hold: [i64] integers, a capacity that covers the
    bytes, a collection under the 4 GiB a side word records. *)
Definition value_ok (v : Value) : Prop :=
  match v with
  | Str s => blen (sb_bytes s) <= sb_cap s
  | Int n => i64_min <= n <= i64_max
  | ArcBulk _ => True
  | Coll _ w => 0 <= w <= LOW
  end.

Definition ttl_of (sl : Slot) : Z := has_ttl (entry sl).
Definition slot_weight (k : list byte) (sl : Slot) : Z := heap_bytes_for k + weight (value (entry sl)).

(** The kept half of a word: the weight of a kept value, zero for another. *)
Definition word_ok (lane : bool) (sl : Slot) : Prop :=
  if kept (value (entry sl)) then lane = true /\ Z.land (word sl) LOW = weight (value (entry sl))
  else Z.land (word sl) LOW = 0.

Definition slot_ok (lane : bool) (sl : Slot) : Prop := value_ok (value (entry sl)) /\ word_ok lane sl.

(** ** Side words *)

Lemma land_LOW w : Z.land w LOW = w mod 2 ^ 32.
Proof. unfold LOW. apply (Z.land_ones w 32). lia. Qed.

Lemma stamp_kept w wt : 0 <= wt <= LOW -> Z.land (stamp w true wt) LOW = wt.
Proof.
  intros H. unfold stamp. rewrite Z.min_l by lia. rewrite Z.land_lor_distr_l, Z.land_ldiff.
  rewrite Z.lor_0_l, land_LOW, Z.mod_small; [reflexivity | unfold LOW in H; lia].
Qed.

Lemma stamp_not_kept w wt : Z.land (stamp w false wt) LOW = 0.
Proof. unfold stamp. rewrite Z.lor_0_r. apply Z.land_ldiff. Qed.

Lemma set_clock_low w c : Z.land (set_clock w c) LOW = Z.land w LOW.
Proof.
  unfold set_clock. rewrite Z.land_lor_distr_l, <- Z.land_assoc, Z.land_diag.
  replace (Z.land (Z.shiftl c 32) LOW) with 0; [apply Z.lor_0_r|].
  rewrite land_LOW, Z.shiftl_mul_pow2 by lia. symmetry. apply Z.mod_mul. lia.
Qed.

Lemma touch_low w p c : Z.land (touch_on_access w p c) LOW = Z.land w LOW.
Proof. unfold touch_on_access. destruct (uses_lru p), (uses_lfu p); rewrite ?set_clock_low; reflexivity. Qed.

Section Spec.
Context `{Tab : TableShape} `{Grow : VecGrowth}.

Definition total (s : Store) : Z := msum slot_weight (kmap s).
Definition gauge (s : Store) : Z := msum (fun _ sl => ttl_of sl) (kmap s).

Record accounts (d : Z) (s : Store) : Prop := {
  acc_used : used_memory s = keyspace_bytes s + total s + d;
  acc_table : keyspace_bytes s = footprint (capacity (shp s)) (words_on s);
  acc_gauge : expires s = gauge s;
  acc_slots : forall k sl, kmap s !! k = Some sl -> slot_ok (words_on s) sl
}.

(** The counters, with the side lane counted, fit the [i64] the deltas are
    computed in. *)
Definition fits (d : Z) (s : Store) : Prop := footprint (capacity (shp s)) true + total s + d <= i64_max.

(** What the accounting looks at. *)
Definition core (s : Store) :=
  (kmap s, shp s, words_on s, keyspace_bytes s, used_memory s, expires s).

Lemma accounts_core d s s' : core s = core s' -> accounts d s -> accounts d s'.
Proof.
  unfold core. intros [= E1 E2 E3 E4 E5 E6] [H1 H2 H3 H4]. unfold total, gauge in *.
  split; unfold total, gauge; rewrite <- ?E1, <- ?E2, <- ?E3, <- ?E4, <- ?E5, <- ?E6; assumption.
Qed.

Lemma heap_bytes_for_nonneg k : 0 <= heap_bytes_for k.
Proof. unfold heap_bytes_for. pose proof (blen_nonneg k). destruct (_ <=? _); lia. Qed.

Lemma weight_nonneg v : value_ok v -> 0 <= weight v.
Proof.
  destruct v as [s|n|b|k w]; cbn; unfold heap_bytes; intros H.
  - pose proof (blen_nonneg (sb_bytes s)). destruct (is_inline s); lia.
  - lia.
  - apply blen_nonneg.
  - destruct k; lia.
Qed.

Lemma slot_weight_nonneg lane k sl : slot_ok lane sl -> 0 <= slot_weight k sl.
Proof.
  intros [H _]. unfold slot_weight. pose proof (heap_bytes_for_nonneg k). pose proof (weight_nonneg _ H). lia.
Qed.

Lemma ttl_nonneg sl : 0 <= ttl_of sl <= 1.
Proof. unfold ttl_of, has_ttl. destruct (expire_at_ns _); lia. Qed.

Lemma total_nonneg d s : accounts d s -> 0 <= total s.
Proof. intros H. apply msum_nonneg. intros k sl Hk. eapply slot_weight_nonneg, (acc_slots d s H k sl Hk). Qed.

Lemma gauge_nonneg s : 0 <= gauge s.
Proof. apply msum_nonneg. intros k sl _. apply ttl_nonneg. Qed.

(** The recorded weight is the weight of the value. *)
Lemma value_weight_eq lane sl w :
  slot_ok lane sl -> w = (if lane then Some (word sl) else None) ->
  value_weight (value (entry sl)) w = weight (value (entry sl)).
Proof.
  intros [_ H] ->. unfold word_ok in H. destruct (value (entry sl)) as [| | |k x]; try reflexivity.
  unfold value_weight. destruct (kept (Coll k x)) eqn:K; [|reflexivity]. destruct H as [-> E]. exact E.
Qed.

Lemma adjust_expires_exact delta s :
  0 <= expires s + delta -> expires (adjust_expires delta s) = expires s + delta.
Proof. intros H. unfold adjust_expires. destruct (Z.eqb_spec delta 0); cbn; lia. Qed.

Lemma adjust_expires_core delta s :
  let s' := adjust_expires delta s in
  kmap s' = kmap s /\ shp s' = shp s /\ words_on s' = words_on s /\
  keyspace_bytes s' = keyspace_bytes s /\ used_memory s' = used_memory s.
Proof. unfold adjust_expires. destruct (_ =? _); cbn; auto. Qed.

Lemma update_peak_core s : core (update_peak s) = core s.
Proof. unfold update_peak. destruct (_ <? _); reflexivity. Qed.

Lemma note_new_key_core c k s : core (note_new_key c k s) = core s.
Proof. unfold note_new_key. destruct c, k; reflexivity. Qed.

Lemma note_expired_core k s : core (note_expired k s) = core s.
Proof. unfold note_expired. destruct (captures _ _); reflexivity. Qed.

(** The end of an insertion: counters, peak and event. *)
Lemma finish_core t used created copy s :
  let s' := note_new_key created copy (update_peak (adjust_expires t (set_used_memory used s))) in
  core s' = (kmap s, shp s, words_on s, keyspace_bytes s, used_memory s', expires s') /\
  used_memory s' = used /\ expires s' = if t =? 0 then expires s else Z.max (expires s + t) 0.
Proof.
  cbn zeta. set (s1 := adjust_expires t (set_used_memory used s)).
  assert (C : core (note_new_key created copy (update_peak s1)) = core s1)
    by (rewrite note_new_key_core, update_peak_core; reflexivity).
  unfold core in C |- *. injection C as -> -> -> -> -> ->.
  subst s1. unfold adjust_expires. destruct (t =? 0); auto.
Qed.

Lemma finish_shape t used created copy s :
  kmap (note_new_key created copy (update_peak (adjust_expires t (set_used_memory used s)))) = kmap s /\
  shp (note_new_key created copy (update_peak (adjust_expires t (set_used_memory used s)))) = shp s.
Proof.
  destruct (finish_core t used created copy s) as (C & _ & _). unfold core in C.
  split; [exact (f_equal (fun c => c.1.1.1.1.1) C) | exact (f_equal (fun c => c.1.1.1.1.2) C)].
Qed.

(** ** The primitives keep the accounting *)

Context {Laws : TableLaws Tab} (d : Z) (Hd : 0 <= d).

Lemma charge_exact s x :
  used_memory s = keyspace_bytes s + x + d -> 0 <= keyspace_bytes s + x ->
  footprint (capacity (shp s)) (words_on s) + x + d <= u64_max -> 0 <= x ->
  let s' := charge_keyspace_growth s in
  keyspace_bytes s' = footprint (capacity (shp s)) (words_on s) /\
  used_memory s' = keyspace_bytes s' + x + d.
Proof using Laws Hd.
  intros Hu H0 Hf Hx. unfold charge_keyspace_growth. cbn. split; [reflexivity|].
  pose proof (footprint_nonneg (capacity (shp s)) (words_on s)).
  rewrite apply_delta_exact; rewrite ?Hu; lia.
Qed.

Lemma keep_words_accounts s :
  accounts d s -> footprint (capacity (shp s)) true + total s + d <= u64_max ->
  accounts d (keep_words s) /\ words_on (keep_words s) = true.
Proof using Laws Hd.
  intros H Hb. unfold keep_words. destruct (words_on s) eqn:W; [auto|].
  pose proof (total_nonneg d s H) as Ht. pose proof (footprint_nonneg (capacity (shp s)) (words_on s)) as Hn.
  destruct H as [H1 H2 H3 H4].
  destruct (charge_exact (set_words_on true s) (total s)) as [E1 E2]; cbn; [lia.. | exact Hb | lia |].
  split; [|reflexivity]. split; [exact E2 | exact E1 | exact H3 |].
  intros k sl Hk. destruct (H4 k sl Hk) as [V Wd]. split; [exact V|].
  unfold word_ok in *. destruct (kept _); [destruct Wd; congruence | exact Wd].
Qed.

Lemma keep_words_kmap s : kmap (keep_words s) = kmap s /\ shp (keep_words s) = shp s.
Proof. unfold keep_words. destruct (words_on s); auto. Qed.

(** One slot replaced by another; [d'] is what the counter is off by after. *)
Lemma accounts_replace d' s s' key sl sl' :
  accounts d s -> kmap s !! key = Some sl -> kmap s' = <[key := sl']> (kmap s) ->
  shp s' = shp s -> words_on s' = words_on s -> keyspace_bytes s' = keyspace_bytes s ->
  used_memory s' + weight (value (entry sl)) + d = used_memory s + weight (value (entry sl')) + d' ->
  expires s' + ttl_of sl = expires s + ttl_of sl' ->
  slot_ok (words_on s) sl' -> accounts d' s'.
Proof.
  intros [H1 H2 H3 H4] Hk Em Es Ew Eb Hu He Hok. unfold total, gauge in *.
  split; unfold total, gauge; rewrite ?Em, ?Es, ?Ew, ?Eb, ?(msum_replace _ _ _ _ _ Hk); [| assumption | lia |].
  - unfold slot_weight at 2 3. lia.
  - intros j y. destruct (decide (j = key)) as [->|N].
    + rewrite lookup_insert_eq. intros [= <-]. exact Hok.
    + rewrite lookup_insert_ne by congruence. apply H4.
Qed.

Lemma update_word_accounts s key f :
  (forall w, Z.land (f w) LOW = Z.land w LOW) -> accounts d s -> accounts d (update_word key f s).
Proof using Type.
  intros Hf H. unfold update_word. destruct (words_on s) eqn:W; [|exact H].
  rewrite alter_alt. destruct (kmap s !! key) as [sl|] eqn:Hk; [|by apply (accounts_core d s)].
  eapply (accounts_replace d s _ key sl); eauto.
  destruct (acc_slots d s H key sl Hk) as [V Wd]. split; [exact V|].
  unfold word_ok in *. cbn. rewrite Hf. exact Wd.
Qed.

Lemma touch_slot_accounts s key :
  accounts d s -> footprint (capacity (shp s)) true + total s + d <= u64_max ->
  accounts d (touch_slot key s).
Proof using Laws Hd.
  intros H Hb. unfold touch_slot. apply update_word_accounts; [intros; apply touch_low|].
  refine (proj1 (keep_words_accounts (tick_clock s) _ Hb)). by apply (accounts_core d s).
Qed.

Lemma take_entry_accounts s key : accounts d s -> fits d s -> accounts d (fst (take_entry_keepalive key s)).
Proof using Laws Hd.
  intros H Hf. pose proof (total_nonneg d s H) as Ht.
  pose proof (footprint_nonneg (capacity (shp s)) (words_on s)) as Hfp.
  unfold take_entry_keepalive, remove_with_word. cbn.
  destruct (kmap s !! key) as [sl|] eqn:Hk; [|by apply (accounts_core d s)].
  assert (Ea : aux key (clear_hash_key_ttls key s) = if words_on s then Some (word sl) else None).
  { unfold aux. cbn. rewrite Hk. reflexivity. }
  rewrite Ea. assert (Hs := acc_slots d s H key sl Hk). rewrite (value_weight_eq _ _ _ Hs eq_refl).
  assert (Hw : slot_weight key sl <= total s).
  { apply (msum_le slot_weight _ key sl); [|exact Hk]. intros j y Hj. eapply slot_weight_nonneg, (acc_slots d s H j y Hj). }
  assert (Hg : ttl_of sl <= gauge s).
  { apply (msum_le (fun _ sl => ttl_of sl) _ key sl); [|exact Hk]. intros j y _. apply ttl_nonneg. }
  destruct H as [H1 H2 H3 H4]. unfold fits, i64_max in Hf.
  assert (Em : total s = slot_weight key sl + msum slot_weight (delete key (kmap s)))
    by (exact (msum_delete slot_weight _ _ _ Hk)).
  assert (Eg : gauge s = ttl_of sl + msum (fun _ x => ttl_of x) (delete key (kmap s)))
    by (exact (msum_delete (fun _ x => ttl_of x) _ _ _ Hk)).
  pose proof (ttl_nonneg sl) as Hn. unfold ttl_of at 1 2 in Hn. unfold ttl_of, has_ttl in Hg, Eg, Hn.
  destruct (expire_at_ns (entry sl)) as [ns|] eqn:Hx; cbn [fst].
  - split.
    + unfold adjust_expires, total. cbn. unfold u64_sub. fold (slot_weight key sl). lia.
    + unfold adjust_expires. cbn. by rewrite remove_keeps_capacity.
    + unfold adjust_expires, gauge. cbn. unfold ttl_of, has_ttl. lia.
    + unfold adjust_expires. cbn. intros j y [_ Hj]%lookup_delete_Some. eapply H4, Hj.
  - split; unfold total, gauge; cbn.
    + unfold u64_sub. fold (slot_weight key sl). lia.
    + by rewrite remove_keeps_capacity.
    + unfold ttl_of, has_ttl. lia.
    + intros j y [_ Hj]%lookup_delete_Some. eapply H4, Hj.
Qed.

(** The table after the insertion, before the entry's own accounting. *)
Lemma insert_slot_table key e s :
  accounts d s -> footprint (capacity (shape_insert key (shp s))) (words_on s) + total s + d <= u64_max ->
  let s1 := fst (insert_slot key e s) in
  let s2 := if capacity (shp s1) =? capacity (shp s) then s1 else charge_keyspace_growth s1 in
  kmap s2 = kmap s1 /\ shp s2 = shape_insert key (shp s) /\ words_on s2 = words_on s /\ expires s2 = expires s /\
  keyspace_bytes s2 = footprint (capacity (shp s2)) (words_on s2) /\
  used_memory s2 = keyspace_bytes s2 + total s + d.
Proof using Laws Hd.
  intros H Hb s1 s2. subst s2. pose proof (total_nonneg d s H) as Ht.
  pose proof (footprint_nonneg (capacity (shp s)) (words_on s)). destruct H as [H1 H2 H3 H4].
  destruct (Z.eqb_spec (capacity (shp s1)) (capacity (shp s))) as [E|E].
  - repeat split; [|exact H1]. rewrite E. exact H2.
  - destruct (charge_exact s1 (total s)) as [E1 E2]; [exact H1 | cbn; lia | exact Hb | lia |]. by repeat split.
Qed.

Lemma stamp_slot_spec key e w0 clock s m :
  kmap s = <[key := mkSlot e w0]> m -> value_ok (value e) ->
  (words_on s = false -> kept (value e) = false /\ Z.land w0 LOW = 0) ->
  let s' := stamp_slot key (kept (value e)) (weight (value e)) clock s in
  exists w, kmap s' = <[key := mkSlot e w]> m /\
    word_ok (words_on s) (mkSlot e w) /\ shp s' = shp s /\ words_on s' = words_on s /\ keyspace_bytes s' = keyspace_bytes s /\
    used_memory s' = used_memory s /\ expires s' = expires s.
Proof.
  intros Em Hv Hoff. unfold stamp_slot, update_word, word_ok. destruct (words_on s) eqn:W; cbn.
  - rewrite Em, alter_insert_eq. cbn. eexists. split; [reflexivity|]. split; [|auto].
    destruct (kept (value e)) eqn:K; [split; [reflexivity|]|].
    + assert (Hw : 0 <= weight (value e) <= LOW).
      { destruct (value e) as [| | |kd x]; try discriminate K. cbn in Hv. cbn. destruct kd; cbn in *; lia. }
      destruct clock; rewrite ?set_clock_low; by apply stamp_kept.
    + destruct clock; rewrite ?set_clock_low; apply stamp_not_kept.
  - destruct (Hoff eq_refl) as [K L]. exists w0. split; [exact Em|]. rewrite K. cbn. by repeat split.
Qed.

Lemma commit_insert_accounts key e clock copy s :
  accounts d s -> value_ok (value e) -> (kept (value e) = true -> words_on s = true) ->
  footprint (capacity (shape_insert key (shp s))) (words_on s) + total s + d <= u64_max ->
  footprint (capacity (shape_insert key (shp s))) (words_on s) + total s + d
    + heap_bytes_for key + weight (value e) <= u64_max + (match kmap s !! key with Some sl => slot_weight key sl | None => 0 end) ->
  let s' := fst (commit_insert key (heap_bytes_for key) e clock copy s) in
  accounts d s' /\ keyspace_bytes s' = footprint (capacity (shape_insert key (shp s))) (words_on s) /\
  exists w, kmap s' = <[key := mkSlot e w]> (kmap s).
Proof using Laws Hd.
  intros H Hv Hlane Hb Hb'. assert (Hs := acc_slots d s H). assert (Hg := acc_gauge d s H).
  pose proof (gauge_nonneg s) as Hg0. pose proof (total_nonneg d s H) as Ht0.
  destruct (insert_slot_table key e s H Hb) as (E1 & E2 & E3 & E4 & E5 & E6).
  unfold commit_insert. rewrite (surjective_pairing (insert_slot key e s)).
  set (s2 := if _ =? _ then _ else _) in *.
  assert (Em : kmap s2 = <[key := mkSlot e (match kmap s !! key with Some sl => word sl | None => 0 end)]> (kmap s))
    by (rewrite E1; reflexivity).
  assert (Hoff : words_on s2 = false -> kept (value e) = false /\
            Z.land (match kmap s !! key with Some sl => word sl | None => 0 end) LOW = 0).
  { rewrite E3. intros W. split; [destruct (kept (value e)); [rewrite Hlane in W by reflexivity; discriminate | reflexivity]|].
    destruct (kmap s !! key) as [sl|] eqn:Hk; [|reflexivity]. destruct (Hs key sl Hk) as [_ Wd]. unfold word_ok in Wd.
    destruct (kept (value (entry sl))); [destruct Wd; congruence | exact Wd]. }
  destruct (stamp_slot_spec key e _ clock s2 _ Em Hv Hoff) as (w & M3 & Kw & F1 & F2 & F3 & F4 & F5).
  set (s3 := stamp_slot key (kept (value e)) (weight (value e)) clock s2) in *.
  assert (Ea : forall sl, kmap s !! key = Some sl ->
            value_weight (value (entry sl)) (aux key s2) = weight (value (entry sl))).
  { intros sl Hk. apply (value_weight_eq (words_on s)); [by apply (Hs key)|].
    unfold aux. rewrite E3, Em, lookup_insert_eq, Hk. reflexivity. }
  assert (Hle : forall sl, kmap s !! key = Some sl -> slot_weight key sl <= total s).
  { intros sl Hk. apply (msum_le slot_weight _ key sl); [|exact Hk].
    intros j y Hj. eapply slot_weight_nonneg, (Hs j y Hj). }
  assert (Hgl : forall sl, kmap s !! key = Some sl -> ttl_of sl <= gauge s).
  { intros sl Hk. apply (msum_le (fun _ sl => ttl_of sl) _ key sl); [|exact Hk]. intros j y _. apply ttl_nonneg. }
  assert (Ekb : keyspace_bytes s2 = footprint (capacity (shape_insert key (shp s))) (words_on s))
    by (rewrite E5, E2, E3; reflexivity).
  pose proof (heap_bytes_for_nonneg key) as Hh. pose proof (weight_nonneg _ Hv) as Hw.
  pose proof (footprint_nonneg (capacity (shp s2)) (words_on s2)) as Hfn.
  assert (Hok : forall j y, <[key := mkSlot e w]> (kmap s) !! j = Some y -> slot_ok (words_on s) y).
  { intros j y. destruct (decide (j = key)) as [->|N].
    - rewrite lookup_insert_eq. intros [= <-]. split; [exact Hv|]. rewrite <- E3. exact Kw.
    - rewrite lookup_insert_ne by congruence. apply Hs. }
  pose proof (ttl_nonneg (mkSlot e w)) as Ht1. unfold ttl_of in Ht1 at 1 2. cbn [entry] in Ht1.
  enough (G : forall s', core s' = (kmap s3, shp s3, words_on s3, keyspace_bytes s3, used_memory s', expires s') ->
     used_memory s' = keyspace_bytes s2 + msum slot_weight (<[key := mkSlot e w]> (kmap s)) + d ->
     expires s' = msum (fun _ x => ttl_of x) (<[key := mkSlot e w]> (kmap s)) ->
     accounts d s' /\ keyspace_bytes s' = footprint (capacity (shape_insert key (shp s))) (words_on s) /\
     exists w, kmap s' = <[key := mkSlot e w]> (kmap s)).
  { cbn zeta. change (snd (insert_slot key e s)) with (entry <$> kmap s !! key).
    destruct (kmap s !! key) as [sl|] eqn:Hk; cbn [fst fmap option_fmap option_map];
      match goal with |- accounts d (note_new_key ?c ?k (update_peak (adjust_expires ?t (set_used_memory ?u ?x)))) /\ _ =>
        destruct (finish_core t u c k x) as (C & Cu & Ce) end;
      (apply G; [exact C | rewrite Cu | rewrite Ce]).
    - rewrite F4, E6, (Ea sl eq_refl), (msum_replace slot_weight _ _ _ _ Hk).
      specialize (Hle sl eq_refl). unfold slot_weight in Hle, Hb'.
      fold (total s). unfold slot_weight. cbn [entry].
      unfold u64_add, u64_sub. lia.
    - rewrite F5, E4, Hg, (msum_replace (fun _ x => ttl_of x) _ _ _ _ Hk).
      specialize (Hgl sl eq_refl). unfold ttl_of in *. cbn. fold (gauge s) in *. unfold gauge in *. unfold ttl_of in *.
      destruct (Z.eqb_spec (has_ttl e - has_ttl (entry sl)) 0); lia.
    - rewrite F4, E6, (msum_insert_new slot_weight _ _ _ Hk).
      unfold slot_weight at 1. cbn. unfold u64_add. unfold total in *. lia.
    - rewrite F5, E4, Hg, (msum_insert_new (fun _ x => ttl_of x) _ _ _ Hk).
      unfold gauge, ttl_of in *. cbn. destruct (Z.eqb_spec (has_ttl e - 0) 0); lia. }
  intros s' C Hu He. unfold core in C. injection C as C1 C2 C3 C4.
  split; [|split; [rewrite C4, F3, E5, E2, E3; reflexivity | exists w; by rewrite C1]].
  split; unfold total, gauge.
  - rewrite C1, M3, C4, F3. exact Hu.
  - rewrite C2, C3, C4, F1, F2, F3. exact E5.
  - rewrite C1, M3. exact He.
  - rewrite C1, C3, M3, F2, E3. exact Hok.
Qed.

Lemma fits_lane s w : fits d s -> footprint (capacity (shp s)) w + total s + d <= i64_max.
Proof using Laws.
  unfold fits. pose proof (footprint_lane (capacity (shp s))). destruct w; lia.
Qed.

Lemma commit_insert_shape key h e clock copy s :
  let s' := fst (commit_insert key h e clock copy s) in
  (exists w, kmap s' = <[key := mkSlot e w]> (kmap s)) /\ shp s' = shape_insert key (shp s).
Proof.
  unfold commit_insert. rewrite (surjective_pairing (insert_slot key e s)). cbn zeta.
  change (snd (insert_slot key e s)) with (entry <$> kmap s !! key).
  set (s2 := if _ =? _ then _ else _).
  assert (E : kmap s2 = kmap (fst (insert_slot key e s)) /\ shp s2 = shape_insert key (shp s))
    by (subst s2; destruct (_ =? _); auto).
  clearbody s2. set (s3 := stamp_slot _ _ _ clock s2).
  assert (E3 : (exists w, kmap s3 = <[key := mkSlot e w]> (kmap s)) /\ shp s3 = shape_insert key (shp s)).
  { subst s3. unfold stamp_slot, update_word. destruct E as [E1 E2]. split; [|destruct (words_on s2); exact E2].
    destruct (words_on s2); cbn; rewrite E1; cbn; [rewrite alter_insert_eq|]; eauto. }
  clearbody s3. destruct (kmap s !! key); cbn [fst fmap option_fmap option_map];
    match goal with |- context [note_new_key ?c ?k (update_peak (adjust_expires ?t (set_used_memory ?u ?x)))] =>
      destruct (finish_shape t u c k x) as [-> ->] end; exact E3.
Qed.

Lemma commit_insert_fits key e clock copy s :
  accounts d s -> value_ok (value e) -> (kept (value e) = true -> words_on s = true) -> fits d s ->
  fits d (fst (commit_insert key (heap_bytes_for key) e clock copy s)) ->
  accounts d (fst (commit_insert key (heap_bytes_for key) e clock copy s)).
Proof using Laws Hd.
  intros H Hv Hl Hf Hf'. pose proof (total_nonneg d s H) as Ht.
  destruct (commit_insert_shape key (heap_bytes_for key) e clock copy s) as [(w & Em) Es].
  pose proof (footprint_lane (capacity (shape_insert key (shp s)))) as Hl'.
  pose proof (footprint_mono _ _ true (insert_grows key (shp s))) as Hm.
  pose proof (footprint_nonneg (capacity (shp s)) true) as Hn.
  unfold fits in Hf, Hf'. unfold total in Hf'. rewrite Em, Es in Hf'.
  assert (Hb : footprint (capacity (shape_insert key (shp s))) (words_on s) <= footprint (capacity (shape_insert key (shp s))) true)
    by (destruct (words_on s); lia).
  assert (Hnn : 0 <= msum slot_weight (<[key := mkSlot e w]> (kmap s))).
  { apply msum_nonneg. intros j y. destruct (decide (j = key)) as [->|N].
    - rewrite lookup_insert_eq. intros [= <-]. unfold slot_weight. cbn.
      pose proof (heap_bytes_for_nonneg key). pose proof (weight_nonneg _ Hv). lia.
    - rewrite lookup_insert_ne by congruence. intros Hj. eapply slot_weight_nonneg, (acc_slots d s H j y Hj). }
  eapply commit_insert_accounts; auto; unfold i64_max, u64_max in *; [lia|].
  destruct (kmap s !! key) as [sl|] eqn:Hk.
  - rewrite (msum_replace slot_weight _ _ _ _ Hk) in Hf'. unfold slot_weight at 3 in Hf'. cbn in Hf'.
    fold (total s) in Hf'. lia.
  - rewrite (msum_insert_new slot_weight _ _ _ Hk) in Hf'. unfold slot_weight at 1 in Hf'. cbn in Hf'.
    fold (total s) in Hf'. lia.
Qed.

Lemma insert_entry_accounts k e s :
  accounts d s -> fits d s -> value_ok (value e) -> heap_bytes k = heap_bytes_for (sb_bytes k) ->
  fits d (fst (insert_entry k e s)) -> accounts d (fst (insert_entry k e s)).
Proof using Laws Hd.
  intros H Hf Hv Hk Hf'. unfold insert_entry in *. rewrite Hk in *. cbn zeta in *.
  set (key := sb_bytes k) in *. set (s0 := clear_hash_key_ttls key s) in *.
  destruct (if clock_on s0 then (tick_clock s0, Some (clock_counter (tick_clock s0) mod 2 ^ 32)) else (s0, None))
    as [s1 clock] eqn:E1.
  assert (C1 : core s1 = core s) by (destruct (clock_on s0); injection E1 as <- <-; reflexivity).
  assert (A1 : accounts d s1) by (by apply (accounts_core d s)).
  assert (F1 : fits d s1) by (unfold core in C1; injection C1 as X1 X2 _ _ _ _; unfold fits, total in *; rewrite X1, X2; exact Hf).
  set (need := kept (value e) || _) in *. set (s2 := if need then keep_words s1 else s1) in *.
  destruct (keep_words_accounts s1 A1) as [K1 K2]; [unfold fits, i64_max, u64_max in *; lia|].
  destruct (keep_words_kmap s1) as [M1 M2].
  assert (A2 : accounts d s2) by (subst s2; destruct need; assumption).
  assert (E2 : kmap s2 = kmap s1 /\ shp s2 = shp s1) by (subst s2; destruct need; auto).
  assert (L2 : kept (value e) = true -> words_on s2 = true).
  { intros K. subst s2 need. rewrite K in *. exact K2. }
  assert (F2 : fits d s2) by (unfold fits, total in *; destruct E2 as [-> ->]; exact F1).
  clearbody s2. clear dependent s1. clear Hf s0. by apply commit_insert_fits.
Qed.

(** ** Removals, expiry and lookups *)

Lemma take_entry_kmap key s :
  kmap (fst (take_entry_keepalive key s)) = delete key (kmap s) /\
  capacity (shp (fst (take_entry_keepalive key s))) = capacity (shp s) /\
  snd (take_entry_keepalive key s) = entry <$> kmap s !! key.
Proof using Laws.
  unfold take_entry_keepalive, remove_with_word. cbn. destruct (kmap s !! key) as [sl|] eqn:Hk; cbn.
  - unfold adjust_expires. destruct (expire_at_ns (entry sl)); cbn; rewrite remove_keeps_capacity; auto.
  - rewrite delete_id by exact Hk. auto.
Qed.

Lemma total_delete s s' key : accounts d s -> kmap s' = delete key (kmap s) -> total s' <= total s.
Proof.
  intros H E. unfold total. rewrite E. destruct (kmap s !! key) as [sl|] eqn:Hk; [|by rewrite delete_id].
  rewrite (msum_delete slot_weight _ _ _ Hk). pose proof (slot_weight_nonneg _ key sl (acc_slots d s H key sl Hk)). lia.
Qed.

(** Both halves of what a command needs to go on. *)
Definition good (s : Store) : Prop := accounts d s /\ fits d s.

Lemma good_core s s' : core s = core s' -> good s -> good s'.
Proof.
  intros C [H F]. split; [by apply (accounts_core d s)|]. unfold core in C. injection C as E1 E2 _ _ _ _.
  unfold fits, total in *. by rewrite <- E1, <- E2.
Qed.

Lemma take_entry_good s key : good s -> good (fst (take_entry_keepalive key s)).
Proof using Laws Hd.
  intros [H F]. split; [by apply take_entry_accounts; [|unfold fits]|].
  destruct (take_entry_kmap key s) as (E1 & E2 & _). pose proof (total_delete s _ key H E1).
  unfold fits in *. rewrite E2. lia.
Qed.

Lemma drop_expired_good s key : good s -> good (drop_expired key s).
Proof using Laws Hd.
  intros H. apply (good_core (fst (remove_entry key (note_expired key s)))); [reflexivity|].
  apply take_entry_good, (good_core s); [symmetry; apply note_expired_core | exact H].
Qed.

Lemma drop_expired_kmap s key : kmap (drop_expired key s) = delete key (kmap s).
Proof using Laws.
  unfold drop_expired, bump_expired_total, remove_entry. cbn. destruct (take_entry_kmap key (note_expired key s)) as (E & _ & _).
  rewrite E. unfold note_expired. by destruct (captures _ _).
Qed.

Lemma reap_good s key now : good s -> good (fst (reap key now s)).
Proof using Laws Hd. intros H. unfold reap. destruct (expired key now s); [by apply drop_expired_good | exact H]. Qed.

Lemma touch_slot_good s key : good s -> good (touch_slot key s).
Proof using Laws Hd.
  intros [H F]. split; [apply touch_slot_accounts; [exact H | unfold fits, i64_max, u64_max in *; lia]|].
  unfold fits, total, touch_slot, update_word in *. destruct (keep_words_kmap (tick_clock s)) as [E1 E2].
  destruct (words_on (keep_words (tick_clock s))); cbn; rewrite ?E1, ?E2; cbn; [|exact F].
  rewrite alter_alt. destruct (kmap s !! key) as [sl|] eqn:Hk; [|exact F].
  rewrite (msum_replace slot_weight _ _ _ _ Hk). unfold slot_weight at 2 3. cbn. lia.
Qed.

Lemma touch_slot_kmap s key sl :
  kmap s !! key = Some sl -> exists w, kmap (touch_slot key s) = <[key := mkSlot (entry sl) w]> (kmap s).
Proof.
  intros Hk. unfold touch_slot, update_word. destruct (keep_words_kmap (tick_clock s)) as [E1 _].
  destruct (words_on _); cbn; rewrite E1; cbn.
  - rewrite alter_alt, Hk. eauto.
  - exists (word sl). destruct sl. cbn. by rewrite insert_id.
Qed.

Lemma live_entry_good s key now : good s -> good (fst (live_entry key now s)).
Proof using Laws Hd.
  intros H. unfold live_entry. destruct (kmap s !! key) as [sl|]; [|exact H].
  destruct (is_expired _ _ _); [by apply drop_expired_good|]. cbn. destruct (clock_on s); [by apply touch_slot_good | exact H].
Qed.

(** What a lookup leaves: the entry it found, or no entry at all. *)
Lemma live_entry_kmap s key now :
  match live_entry key now s with
  | (s', Some e) => exists sl w, kmap s !! key = Some sl /\ e = entry sl /\ is_expired e now s = false /\
                      kmap s' = <[key := mkSlot e w]> (kmap s)
  | (s', None) => kmap s' = delete key (kmap s) /\
                  match kmap s !! key with None => True | Some sl => is_expired (entry sl) now s = true end
  end.
Proof using Laws.
  unfold live_entry. destruct (kmap s !! key) as [sl|] eqn:Hk.
  - destruct (is_expired (entry sl) now s) eqn:X; [split; [apply drop_expired_kmap | reflexivity]|].
    destruct (clock_on s).
    + destruct (touch_slot_kmap s key sl Hk) as [w E]. exists sl, w. auto.
    + exists sl, (word sl). destruct sl; cbn in *. by rewrite insert_id.
  - split; [by rewrite delete_id | exact I].
Qed.

(** ** In-place changes *)

(** The state [fits] needs only the weights. *)
Lemma fits_replace s s' key sl sl' :
  fits d s -> kmap s !! key = Some sl -> kmap s' = <[key := sl']> (kmap s) -> shp s' = shp s ->
  weight (value (entry sl')) = weight (value (entry sl)) -> fits d s'.
Proof.
  intros F Hk E Es Ew. unfold fits, total in *. rewrite E, Es, (msum_replace slot_weight _ _ _ _ Hk).
  unfold slot_weight at 2 3. lia.
Qed.

Lemma fits_weight s' key sl' :
  fits d s' -> (forall j y, kmap s' !! j = Some y -> 0 <= slot_weight j y) ->
  kmap s' !! key = Some sl' -> 0 <= weight (value (entry sl')) -> weight (value (entry sl')) <= i64_max.
Proof using Laws Hd.
  intros F Hn Hk H0. pose proof (msum_le slot_weight _ key sl' Hn Hk) as L.
  pose proof (footprint_nonneg (capacity (shp s')) true). pose proof (heap_bytes_for_nonneg key).
  unfold fits, total, slot_weight in *. lia.
Qed.

Lemma slots_replace_nonneg s key v w x :
  accounts d s -> value_ok v ->
  forall j y, <[key := mkSlot (mkEntry v x) w]> (kmap s) !! j = Some y -> 0 <= slot_weight j y.
Proof.
  intros H Hv j y. destruct (decide (j = key)) as [->|N].
  - rewrite lookup_insert_eq. intros [= <-]. unfold slot_weight. cbn.
    pose proof (heap_bytes_for_nonneg key). pose proof (weight_nonneg _ Hv). lia.
  - rewrite lookup_insert_ne by congruence. intros Hj. eapply slot_weight_nonneg, (acc_slots d s H j y Hj).
Qed.

(** [used_memory] moved by a weight's change. *)
Lemma used_delta s key sl w' :
  accounts d s -> fits d s -> kmap s !! key = Some sl -> 0 <= w' <= i64_max ->
  apply_delta (used_memory s) (w' - weight (value (entry sl))) = used_memory s + w' - weight (value (entry sl)).
Proof using Laws Hd.
  intros H F Hk Hw. pose proof (fits_lane s (words_on s) F) as Fw.
  assert (L : slot_weight key sl <= total s).
  { apply (msum_le slot_weight _ key sl); [|exact Hk]. intros j y Hj. eapply slot_weight_nonneg, (acc_slots d s H j y Hj). }
  pose proof (footprint_nonneg (capacity (shp s)) (words_on s)) as Hn. pose proof (heap_bytes_for_nonneg key) as Hh.
  pose proof (weight_nonneg _ (proj1 (acc_slots d s H key sl Hk))) as Hw0.
  destruct H as [H1 H2 _ _]. unfold slot_weight in *. rewrite apply_delta_exact; unfold i64_max, u64_max in *; lia.
Qed.

Lemma overwrite_slot_good s key sl v x :
  good s -> kmap s !! key = Some sl -> value_ok v -> kept v = false ->
  fits d (overwrite_slot key sl v x s) -> good (overwrite_slot key sl v x s).
Proof using Laws Hd.
  intros [H F] Hk Hv Kv F'. split; [|exact F']. revert F'.
  unfold overwrite_slot, overwrite_in_place. cbn zeta beta iota.
  set (e := mkEntry v (x ≫= pack_deadline)). set (w := if words_on s then stamp _ _ _ else word sl).
  assert (Hs := acc_slots d s H key sl Hk).
  rewrite (value_weight_eq _ sl _ Hs eq_refl).
  assert (Ev : value_weight v None = weight v) by (destruct v as [| | |k y]; try reflexivity; unfold value_weight; by rewrite Kv).
  rewrite Ev. set (s1 := set_kmap _ s).
  assert (C : forall t, let s2 := adjust_expires t (apply_weight_delta (weight v - weight (value (entry sl))) s1) in
     kmap s2 = <[key := mkSlot e w]> (kmap s) /\ shp s2 = shp s /\ words_on s2 = words_on s /\
     keyspace_bytes s2 = keyspace_bytes s /\
     used_memory s2 = apply_delta (used_memory s) (weight v - weight (value (entry sl))) /\
     expires s2 = if t =? 0 then expires s else Z.max (expires s + t) 0).
  { intros t. unfold adjust_expires, apply_weight_delta, update_peak.
    destruct (t =? 0), (0 <? _); cbn; try destruct (_ <? _); cbn; auto 10. }
  destruct (C (has_ttl e - has_ttl (entry sl))) as (C1 & C2 & C3 & C4 & C5 & C6). intros F'.
  pose proof (weight_nonneg _ Hv) as Hw0.
  assert (Hw : weight v <= i64_max).
  { apply (fits_weight _ key (mkSlot e w) F'); rewrite ?C1, ?lookup_insert_eq; [|reflexivity|exact Hw0].
    apply (slots_replace_nonneg s key v w); assumption. }
  eapply (accounts_replace d s _ key sl (mkSlot e w)); eauto.
  - rewrite C5, (used_delta s key sl) by auto. cbn. lia.
  - rewrite C6. pose proof (gauge_nonneg s). pose proof (ttl_nonneg (mkSlot e w)) as T.
    assert (G : ttl_of sl <= gauge s).
    { apply (msum_le (fun _ y => ttl_of y) _ key sl); [|exact Hk]. intros j y _. apply ttl_nonneg. }
    rewrite (acc_gauge d s H). unfold ttl_of in *. cbn in *. destruct (Z.eqb_spec (has_ttl e - has_ttl (entry sl)) 0); lia.
  - split; [exact Hv|]. unfold word_ok. cbn. rewrite Kv. subst w. rewrite Kv. destruct (words_on s) eqn:W; [apply stamp_not_kept|].
    destruct Hs as [_ Wd]. unfold word_ok in Wd. destruct (kept (value (entry sl))); [destruct Wd; congruence | exact Wd].
Qed.

(** A string rewritten in place, then weighed again. *)
Lemma reweigh_spec s key sl v old :
  kmap s !! key = Some sl -> kept v = false -> Z.land (word sl) LOW = 0 ->
  let s' := reweigh key old (set_entry_value key v s) in
  let was := match old with Some o => o | None => 0 end in
  exists w, kmap s' = <[key := mkSlot (mkEntry v (expire_at_ns (entry sl))) w]> (kmap s) /\ Z.land w LOW = 0 /\
    shp s' = shp s /\ words_on s' = words_on s /\ keyspace_bytes s' = keyspace_bytes s /\ expires s' = expires s /\
    used_memory s' = apply_delta (used_memory s) (weight v - was).
Proof.
  intros Hk Kv Hz. unfold reweigh, set_entry_value, update_entry. cbn. rewrite alter_alt, Hk, lookup_insert_eq. cbn.
  rewrite Kv. set (s1 := set_kmap _ s).
  assert (W : match old with Some o => o | None => kept_half (aux key s1) end = match old with Some o => o | None => 0 end).
  { destruct old; [reflexivity|]. unfold aux. subst s1. cbn. rewrite lookup_insert_eq. cbn. destruct (words_on s); [exact Hz | reflexivity]. }
  rewrite W. unfold update_word. subst s1. cbn. destruct (words_on s) eqn:L; cbn.
  - rewrite alter_insert_eq. cbn. exists (stamp (word sl) false (weight v)). split_and!; try (by destruct (0 <? _); cbn; unfold update_peak; cbn; try destruct (_ <? _)).
    apply stamp_not_kept.
  - exists (word sl). split_and!; try (by destruct (0 <? _); unfold update_peak; cbn; try destruct (_ <? _)). exact Hz.
Qed.

Lemma scalar_slot s key sl : accounts d s -> kmap s !! key = Some sl -> kept (value (entry sl)) = false ->
  Z.land (word sl) LOW = 0.
Proof.
  intros H Hk K. destruct (acc_slots d s H key sl Hk) as [_ W]. unfold word_ok in W. by rewrite K in W.
Qed.

Lemma rewrite_scalar_good s key sl v :
  good s -> kmap s !! key = Some sl -> kept (value (entry sl)) = false -> kept v = false -> value_ok v ->
  let s' := reweigh_scalar key (weight (value (entry sl))) (set_entry_value key v s) in
  fits d s' -> good s'.
Proof using Laws Hd.
  intros [H F] Hk K Kv Hv s' F'. split; [|exact F']. subst s'. unfold reweigh_scalar in *.
  destruct (reweigh_spec s key sl v (Some (weight (value (entry sl)))) Hk Kv (scalar_slot s key sl H Hk K))
    as (w & C1 & Cz & C2 & C3 & C4 & C5 & C6).
  pose proof (weight_nonneg _ Hv) as Hw0.
  assert (Hw : weight v <= i64_max).
  { apply (fits_weight _ key (mkSlot (mkEntry v (expire_at_ns (entry sl))) w) F'); rewrite ?C1, ?lookup_insert_eq;
      [|reflexivity|exact Hw0]. apply (slots_replace_nonneg s key v w); assumption. }
  eapply (accounts_replace d s _ key sl); eauto.
  - rewrite C6, (used_delta s key sl) by auto. cbn. lia.
  - rewrite C5. unfold ttl_of, has_ttl. cbn. lia.
  - split; [exact Hv|]. unfold word_ok. cbn. by rewrite Kv.
Qed.

(** INCRBY's way: nothing is subtracted for the text that was there. *)
Lemma incr_reweigh_accounts s key sl n :
  accounts d s -> kmap s !! key = Some sl -> kept (value (entry sl)) = false -> value_ok (Int n) ->
  fits d s ->
  accounts (d + weight (value (entry sl))) (reweigh_entry key (set_entry_value key (Int n) s)).
Proof using Laws Hd.
  intros H Hk K Hv F. unfold reweigh_entry.
  destruct (reweigh_spec s key sl (Int n) None Hk eq_refl (scalar_slot s key sl H Hk K))
    as (w & C1 & Cz & C2 & C3 & C4 & C5 & C6).
  pose proof (fits_lane s (words_on s) F) as Fw. pose proof (total_nonneg d s H).
  pose proof (footprint_nonneg (capacity (shp s)) (words_on s)).
  eapply (accounts_replace (d + weight (value (entry sl))) s _ key sl); eauto.
  - rewrite C6. cbn. rewrite apply_delta_exact; rewrite (acc_used d s H), (acc_table d s H); unfold i64_max, u64_max in *; lia.
  - rewrite C5. unfold ttl_of, has_ttl. cbn. lia.
  - split; [exact Hv|]. exact Cz.
Qed.

(** ** Deadlines *)

Lemma redate_slot_good s key sl x t :
  good s -> kmap s !! key = Some sl -> t = has_ttl (mkEntry (value (entry sl)) x) - has_ttl (entry sl) ->
  good (adjust_expires t (update_entry key (fun e => mkEntry (value e) x) s)).
Proof.
  intros [H F] Hk ->. set (e := mkEntry (value (entry sl)) x). set (t := has_ttl e - has_ttl (entry sl)).
  assert (C : kmap (update_entry key (fun e => mkEntry (value e) x) s) = <[key := mkSlot e (word sl)]> (kmap s)).
  { unfold update_entry. cbn. by rewrite alter_alt, Hk. }
  destruct (adjust_expires_core t (update_entry key (fun e => mkEntry (value e) x) s)) as (A1 & A2 & A3 & A4 & A5).
  rewrite C in A1. split.
  - eapply (accounts_replace d s _ key sl); eauto; [rewrite A5; cbn; lia| |].
    + pose proof (ttl_nonneg (mkSlot e (word sl))) as T. pose proof (gauge_nonneg s).
      assert (G : ttl_of sl <= gauge s).
      { apply (msum_le (fun _ y => ttl_of y) _ key sl); [|exact Hk]. intros j y _. apply ttl_nonneg. }
      rewrite adjust_expires_exact; cbn; rewrite ?(acc_gauge d s H); unfold ttl_of in *; cbn in *; lia.
    + destruct (acc_slots d s H key sl Hk) as [V W]. by split.
  - eapply (fits_replace s _ key sl); eauto.
Qed.
End Spec.
