(* ===== verification/StoreRefine.v ===== *)
(** * What the keyspace's commands mean ([crates/kevy-store/src/string.rs], [string_set.rs],
    [string_rmw.rs], [keyspace.rs])

    The abstract keyspace is a finite map from keys to a content -- a byte
    string, or a collection nobody looks into -- with an optional deadline.
    The commands of [Store] and [StoreString], through both SET paths, all
    three encodings, lazy expiry and the access clock, refine one-line
    functions on it. *)

From Stdlib Require Import ZArith Lia Bool Strings.Byte Strings.String.
From stdpp Require Import base list gmap.
From S2P Require Import Prelude Utf8 Encode StoreUtil Store StoreString StoreSpec.

#[local] Open Scope list_scope.
#[local] Open Scope Z_scope.

(** ** The abstract keyspace *)

Inductive content : Type := Text (b : list byte) | Other (k : Kind) (w : Z).

Abbreviation item := (content * option Z)%type.
Abbreviation keyspace := (gmap (list byte) item).

Definition dead (c : Z) (x : item) : bool := match snd x with Some ns => ns <=? c | None => false end.

(** The live item of a key at clock [c]; a dead one is forgotten. *)
Definition a_live (key : list byte) (c : Z) (m : keyspace) : keyspace * option item :=
  match m !! key with
  | Some x => if dead c x then (delete key m, None) else (m, Some x)
  | None => (m, None)
  end.

Definition text_of (x : option item) : result (option (list byte)) :=
  match x with None => Ok None | Some (Text b, _) => Ok (Some b) | Some (Other _ _, _) => Err WrongType end.

Definition a_get (key : list byte) (c : Z) (m : keyspace) : keyspace * result (option (list byte)) :=
  let '(m, x) := a_live key c m in (m, text_of x).

Definition a_set (key b : list byte) (deadline : option Z) (cond : SetCondition) (c : Z) (m : keyspace)
  : keyspace * bool :=
  let '(m, x) := a_live key c m in
  match cond, x with
  | IfAbsent, Some _ | IfPresent, None => (m, false)
  | _, _ => (<[key := (Text b, deadline)]> m, true)
  end.

Definition a_incr (key : list byte) (delta c : Z) (m : keyspace) : keyspace * result Z :=
  let '(m, x) := a_live key c m in
  match x with
  | None => (<[key := (Text (int_text delta), None)]> m, Ok delta)
  | Some (Other _ _, _) => (m, Err WrongType)
  | Some (Text b, at_) =>
      match incr_text b delta with
      | Ok n => (<[key := (Text (int_text n), at_)]> m, Ok n)
      | r => (m, r)
      end
  end.

Definition a_append (key data : list byte) (c : Z) (m : keyspace) : keyspace * result Z :=
  let '(m, x) := a_live key c m in
  match x with
  | None => (<[key := (Text data, None)]> m, Ok (blen data))
  | Some (Other _ _, _) => (m, Err WrongType)
  | Some (Text b, at_) => (<[key := (Text (b ++ data), at_)]> m, Ok (blen (b ++ data)))
  end.

Definition a_getset (key b : list byte) (c : Z) (m : keyspace) : keyspace * result (option (list byte)) :=
  let '(m, x) := a_live key c m in
  match text_of x with
  | Ok old => (<[key := (Text b, None)]> m, Ok old)
  | r => (m, r)
  end.

Definition a_getdel (key : list byte) (c : Z) (m : keyspace) : keyspace * result (option (list byte)) :=
  let '(m, x) := a_live key c m in
  match x, text_of x with
  | Some _, Ok old => (delete key m, Ok old)
  | _, r => (m, r)
  end.

(** ** The abstraction *)

Definition content_of (v : Value) : content :=
  match v with
  | Str s => Text (sb_bytes s)
  | Int n => Text (int_text n)
  | ArcBulk b => Text b
  | Coll k w => Other k w
  end.

Definition item_of (e : Entry) : item := (content_of (value e), expire_at_ns e).

(** An entry the code can hold: its deadline is a [NonZeroU64]. *)
Definition entry_ok (e : Entry) : Prop := value_ok (value e) /\ expire_at_ns e <> Some 0.

(** A [Vec] holds no more than its capacity. *)
Definition vec_ok (v : Vec) : Prop := blen (vec_bytes v) <= vec_cap v.

Lemma pack_deadline_ok x : pack_deadline x <> Some 0.
Proof. unfold pack_deadline. destruct (Z.eqb_spec x 0); congruence. Qed.

Lemma pack_deadline_again x : x <> Some 0 -> x ≫= pack_deadline = x.
Proof. destruct x as [ns|]; [|reflexivity]. cbn. unfold pack_deadline. destruct (Z.eqb_spec ns 0); congruence. Qed.

Lemma entry_new_ok v x : value_ok v -> entry_ok (entry_new v x).
Proof. intros H. split; [exact H|]. cbn. destruct x; [apply pack_deadline_ok | discriminate]. Qed.

Lemma from_vec_ok v : vec_ok v -> value_ok (Str (from_vec v)).
Proof. unfold vec_ok, from_vec. intros H. destruct (_ <=? _); cbn; lia. Qed.

Lemma from_vec_bytes v : sb_bytes (from_vec v) = vec_bytes v.
Proof. unfold from_vec. by destruct (_ <=? _). Qed.

Lemma pick_owned_spec v : vec_ok v ->
  value_ok (pick_value_for_set_owned v) /\ kept (pick_value_for_set_owned v) = false /\
  content_of (pick_value_for_set_owned v) = Text (vec_bytes v).
Proof.
  intros H. unfold pick_value_for_set_owned. destruct (parse_canonical_i64 (vec_bytes v)) as [n|] eqn:P.
  - apply parse_canonical_iff in P as [E R]. cbn. by rewrite E.
  - destruct (_ <? _); [done|]. split_and!; [by apply from_vec_ok | done |]. cbn. by rewrite from_vec_bytes.
Qed.

Lemma pick_spec b :
  value_ok (pick_value_for_set b) /\ kept (pick_value_for_set b) = false /\
  content_of (pick_value_for_set b) = Text b.
Proof.
  unfold pick_value_for_set. destruct (parse_canonical_i64 b) as [n|] eqn:P.
  - apply parse_canonical_iff in P as [E R]. cbn. by rewrite E.
  - destruct (_ <? _); [done|]. cbn. split_and!; [lia | done | done].
Qed.

(** A value reads as its content. *)
Lemma string_bytes_text v x :
  value_ok v -> result_map Some (string_bytes v) = text_of (Some (content_of v, x)).
Proof. destruct v; cbn; intros H; try reflexivity. by rewrite format_i64_ok. Qed.

Section Refine.
Context `{Tab : TableShape} `{Grow : VecGrowth} {Laws : TableLaws Tab}.

Definition slot_item (sl : Slot) : item := item_of (entry sl).
Definition abs (s : Store) : keyspace := slot_item <$> kmap s.

Definition entries_ok (s : Store) : Prop := forall k sl, kmap s !! k = Some sl -> entry_ok (entry sl).

(** The cached clock, and what a lazy expiry check reads. *)
Definition clk (s : Store) : bool * Z := (cached_clock s, cached_ns s).
Definition reads (c : bool * Z) (now : Z) : Z := if fst c then snd c else now.

(** [s'] stands for [m], reached from [s]. *)
Record sim (s s' : Store) (m : keyspace) : Prop := {
  sim_abs : abs s' = m;
  sim_ok : entries_ok s';
  sim_clk : clk s' = clk s
}.

Lemma sim_trans s s1 s2 m1 m2 : sim s s1 m1 -> sim s1 s2 m2 -> sim s s2 m2.
Proof. intros [_ _ C1] [A O C2]. split; [exact A | exact O | congruence]. Qed.

Lemma sim_refl s : entries_ok s -> sim s s (abs s).
Proof. by split. Qed.

Lemma abs_lookup s key : abs s !! key = slot_item <$> kmap s !! key.
Proof. apply lookup_fmap. Qed.

Lemma sim_insert s s' key e w :
  entries_ok s -> entry_ok e -> kmap s' = <[key := mkSlot e w]> (kmap s) -> clk s' = clk s ->
  sim s s' (<[key := item_of e]> (abs s)).
Proof.
  intros O He E C. split; [unfold abs; rewrite E; exact (fmap_insert slot_item _ _ _) | | exact C].
  intros k sl. rewrite E. destruct (decide (k = key)) as [->|N].
  - rewrite lookup_insert_eq. by intros [= <-].
  - rewrite lookup_insert_ne by congruence. apply O.
Qed.

Lemma sim_delete s s' key :
  entries_ok s -> kmap s' = delete key (kmap s) -> clk s' = clk s -> sim s s' (delete key (abs s)).
Proof.
  intros O E C. split; [unfold abs; rewrite E; exact (fmap_delete slot_item _ _) | | exact C].
  intros k sl. rewrite E. intros [_ Hk]%lookup_delete_Some. by apply (O k).
Qed.

Lemma sim_same s s' : entries_ok s -> kmap s' = kmap s -> clk s' = clk s -> sim s s' (abs s).
Proof. intros O E C. split; [unfold abs; by rewrite E | intros k sl; rewrite E; apply O | exact C]. Qed.

(** ** The primitives leave the cached clock alone *)

Lemma clk_update_word key f s : clk (update_word key f s) = clk s.
Proof. unfold update_word. by destruct (words_on s). Qed.

Lemma clk_keep_words s : clk (keep_words s) = clk s.
Proof. unfold keep_words. by destruct (words_on s). Qed.

Lemma clk_adjust t s : clk (adjust_expires t s) = clk s.
Proof. unfold adjust_expires. by destruct (t =? 0). Qed.

Lemma clk_peak s : clk (update_peak s) = clk s.
Proof. unfold update_peak. by destruct (_ <? _). Qed.

Lemma clk_note_new c k s : clk (note_new_key c k s) = clk s.
Proof. unfold note_new_key. by destruct c, k. Qed.

Lemma clk_note_expired key s : clk (note_expired key s) = clk s.
Proof. unfold note_expired. by destruct (captures _ _). Qed.

Lemma clk_take key s : clk (fst (take_entry_keepalive key s)) = clk s.
Proof.
  unfold take_entry_keepalive, remove_with_word. cbn. destruct (kmap s !! key) as [sl|]; [|reflexivity].
  cbn. by destruct (expire_at_ns (entry sl)).
Qed.

Lemma clk_drop key s : clk (drop_expired key s) = clk s.
Proof. transitivity (clk (note_expired key s)); [apply (clk_take key) | apply clk_note_expired]. Qed.

Lemma clk_reweigh key old s : clk (reweigh key old s) = clk s.
Proof.
  unfold reweigh. destruct (kmap s !! key) as [sl|]; [|reflexivity]. cbn zeta.
  set (s1 := if kept _ then _ else s).
  assert (C : clk s1 = clk s) by (subst s1; destruct (kept _); [apply clk_keep_words | reflexivity]).
  destruct (0 <? _); rewrite ?clk_peak; rewrite <- C, <- (clk_update_word key (fun w => stamp w (kept (value (entry sl))) (weight (value (entry sl)))) s1); reflexivity.
Qed.

Lemma clk_insert k e s : clk (fst (insert_entry k e s)) = clk s.
Proof.
  unfold insert_entry. cbn zeta. set (s0 := clear_hash_key_ttls _ s).
  destruct (if clock_on s0 then (tick_clock s0, Some (clock_counter (tick_clock s0) mod 2 ^ 32)) else (s0, None))
    as [s1 clock] eqn:E1.
  assert (C1 : clk s1 = clk s) by (destruct (clock_on s0); injection E1 as <- <-; reflexivity).
  match goal with |- context [commit_insert _ _ _ _ ?c ?x] => set (s2 := x); set (copy := c) end.
  assert (C2 : clk s2 = clk s) by (subst s2; destruct (_ || _); [rewrite clk_keep_words|]; exact C1).
  rewrite <- C2. clearbody s2 copy. clear. unfold commit_insert.
  rewrite (surjective_pairing (insert_slot _ _ _)). cbn zeta. cbn [fst].
  set (s3 := if _ =? _ then _ else _).
  assert (C3 : clk s3 = clk s2) by (subst s3; destruct (_ =? _); reflexivity). rewrite <- C3. clearbody s3.
  rewrite clk_note_new, clk_peak, clk_adjust. destruct (_ <$> _); apply (clk_update_word (sb_bytes k)).
Qed.

(** ** What the primitives do to the abstract keyspace *)

Definition refines {A} (s : Store) (p : Store * A) (q : keyspace * A) : Prop :=
  sim s (fst p) (fst q) /\ snd p = snd q.

Lemma take_entry_sim s key : entries_ok s ->
  sim s (fst (take_entry_keepalive key s)) (delete key (abs s)) /\
  snd (take_entry_keepalive key s) = entry <$> kmap s !! key.
Proof using Laws.
  intros O. destruct (take_entry_kmap key s) as (E & _ & R). split; [|exact R].
  apply (sim_delete s _ key O E), clk_take.
Qed.

Lemma drop_expired_sim s key : entries_ok s -> sim s (drop_expired key s) (delete key (abs s)).
Proof using Laws. intros O. apply (sim_delete s _ key O (drop_expired_kmap s key)), clk_drop. Qed.

Lemma insert_entry_sim s k e : entries_ok s -> entry_ok e ->
  sim s (fst (insert_entry k e s)) (<[sb_bytes k := item_of e]> (abs s)).
Proof.
  intros O He. cut (exists w, kmap (fst (insert_entry k e s)) = <[sb_bytes k := mkSlot e w]> (kmap s)).
  { intros [w E]. apply (sim_insert s _ _ e w O He E), clk_insert. }
  unfold insert_entry. cbn zeta. set (key := sb_bytes k). set (s0 := clear_hash_key_ttls key s).
  destruct (if clock_on s0 then (tick_clock s0, Some (clock_counter (tick_clock s0) mod 2 ^ 32)) else (s0, None))
    as [s1 clock] eqn:E1.
  assert (M1 : kmap s1 = kmap s) by (destruct (clock_on s0); injection E1 as <- <-; reflexivity).
  match goal with |- context [commit_insert _ _ _ _ ?c ?x] => set (s2 := x); set (copy := c) end.
  assert (M2 : kmap s2 = kmap s) by (subst s2; destruct (_ || _); [rewrite (proj1 (keep_words_kmap s1))|]; exact M1).
  destruct (commit_insert_shape key (heap_bytes k) e clock copy s2) as [(w & E) _]. exists w. by rewrite E, M2.
Qed.

Lemma clk_touch key s : clk (touch_slot key s) = clk s.
Proof. unfold touch_slot. rewrite clk_update_word, clk_keep_words. reflexivity. Qed.

Lemma clk_live key now s : clk (fst (live_entry key now s)) = clk s.
Proof.
  unfold live_entry. destruct (kmap s !! key) as [sl|]; [|reflexivity]. destruct (is_expired _ _ _); [apply clk_drop|].
  cbn. destruct (clock_on s); [apply clk_touch | reflexivity].
Qed.

(** What a lookup finds, and the slot it leaves. *)
Variant found (s : Store) (key : list byte) : Store -> option Entry -> keyspace -> option item -> Prop :=
| Found s' e w : sim s s' (abs s) -> entry_ok e -> kmap s' !! key = Some (mkSlot e w) ->
    found s key s' (Some e) (abs s) (Some (item_of e))
| Missing s' m : sim s s' m -> m !! key = None -> found s key s' None m None.

Lemma live_entry_found s key now : entries_ok s ->
  found s key (fst (live_entry key now s)) (snd (live_entry key now s))
    (fst (a_live key (reads (clk s) now) (abs s))) (snd (a_live key (reads (clk s) now) (abs s))).
Proof using Laws.
  intros O. unfold a_live. rewrite abs_lookup. pose proof (live_entry_kmap s key now) as H.
  pose proof (clk_live key now s) as C. destruct (live_entry key now s) as [s' [e|]]; cbn [fst snd] in *.
  - destruct H as (sl & w & Hk & -> & X & E). rewrite Hk. cbn [fmap option_fmap option_map].
    change (dead (reads (clk s) now) (slot_item sl)) with (is_expired (entry sl) now s). rewrite X. cbn.
    apply (Found s key s' (entry sl) w); [| by apply (O key) | rewrite E; apply lookup_insert_eq].
    replace (abs s) with (<[key := item_of (entry sl)]> (abs s)).
    + by apply (sim_insert s s' key (entry sl) w O (O key sl Hk)).
    + apply insert_id. by rewrite abs_lookup, Hk.
  - destruct H as [E X]. assert (S : sim s s' (delete key (abs s))) by (by apply sim_delete).
    destruct (kmap s !! key) as [sl|] eqn:Hk; cbn [fmap option_fmap option_map].
    + change (dead (reads (clk s) now) (slot_item sl)) with (is_expired (entry sl) now s). rewrite X. cbn.
      by constructor; [|apply lookup_delete_eq].
    + rewrite delete_id in S by (by rewrite abs_lookup, Hk). cbn. constructor; [exact S|].
      by rewrite abs_lookup, Hk.
Qed.

Lemma reap_found s key now : entries_ok s ->
  refines s (reap key now s)
    (fst (a_live key now (abs s)), match snd (a_live key now (abs s)) with Some _ => true | None => false end).
Proof using Laws.
  intros O. unfold reap, expired, a_live, refines. rewrite abs_lookup.
  destruct (kmap s !! key) as [sl|] eqn:Hk; cbn [fmap option_fmap option_map]; [|by split; [apply sim_refl|]].
  change (dead now (slot_item sl)) with (is_expired_at (entry sl) now).
  destruct (is_expired_at (entry sl) now); cbn; [|by split; [apply sim_refl|]].
  split; [by apply drop_expired_sim | reflexivity].
Qed.

(** An entry rewritten where it is. *)

Lemma set_entry_value_kmap s key sl v : kmap s !! key = Some sl ->
  kmap (set_entry_value key v s) = <[key := mkSlot (mkEntry v (expire_at_ns (entry sl))) (word sl)]> (kmap s).
Proof. intros Hk. unfold set_entry_value, update_entry. cbn. by rewrite alter_alt, Hk. Qed.

Lemma reweigh_kmap s key old e w : kmap s !! key = Some (mkSlot e w) ->
  exists w', kmap (reweigh key old s) = <[key := mkSlot e w']> (kmap s).
Proof.
  intros Hk. unfold reweigh. rewrite Hk. cbn zeta. set (s1 := if kept _ then _ else s).
  assert (E : kmap s1 = kmap s) by (subst s1; destruct (kept _); [apply keep_words_kmap | reflexivity]).
  set (s2 := update_word key _ s1).
  assert (E2 : exists w', kmap s2 = <[key := mkSlot e w']> (kmap s)).
  { subst s2. unfold update_word. destruct (words_on s1); cbn; rewrite E.
    - rewrite alter_alt, Hk. eauto.
    - exists w. symmetry. by apply insert_id. }
  destruct (0 <? _); unfold update_peak; cbn; [destruct (_ <? _)|]; exact E2.
Qed.

Lemma rewrite_sim s key e w v old :
  entries_ok s -> kmap s !! key = Some (mkSlot e w) -> value_ok v -> entry_ok e ->
  sim s (reweigh key old (set_entry_value key v s)) (<[key := (content_of v, expire_at_ns e)]> (abs s)).
Proof.
  intros O Hk Hv [_ He]. set (e' := mkEntry v (expire_at_ns e)).
  assert (E : kmap (set_entry_value key v s) = <[key := mkSlot e' w]> (kmap s))
    by (exact (set_entry_value_kmap s key (mkSlot e w) v Hk)).
  destruct (reweigh_kmap (set_entry_value key v s) key old e' w) as [w' E']; [rewrite E; apply lookup_insert_eq|].
  apply (sim_insert s _ key e' w' O); [by split | | by rewrite clk_reweigh].
  rewrite E', E. apply insert_insert_eq.
Qed.

(** ** The string commands *)

(** A lookup, split into its two outcomes with the names of [found]. *)
Ltac look O s key now :=
  let F := fresh "F" in
  pose proof (live_entry_found s key now O) as F;
  destruct (live_entry key now s) as [s1 e1]; destruct (a_live key (reads (clk s) now) (abs s)) as [m1 x1];
  cbn [fst snd] in F; destruct F as [s1 e w S He Hk | s1 m S Hm].

Lemma get_refines s key now : entries_ok s ->
  refines s (get key now s) (a_get key (reads (clk s) now) (abs s)).
Proof using Laws.
  intros O. unfold get, a_get. look O s key now; cbn; split; try done.
  cbn. rewrite (string_bytes_text _ (expire_at_ns e)) by apply He. reflexivity.
Qed.

Lemma strlen_refines s key now : entries_ok s ->
  refines s (strlen key now s)
    (let '(m, r) := a_get key (reads (clk s) now) (abs s) in
     (m, result_map (fun o => match o with Some b => blen b | None => 0 end) r)).
Proof using Laws.
  intros O. unfold strlen. destruct (get_refines s key now O) as [S R].
  destruct (get key now s), (a_get _ _ _). cbn in *. split; [exact S | cbn; by rewrite R].
Qed.

Lemma overwrite_slot_sim s key e w v x :
  entries_ok s -> kmap s !! key = Some (mkSlot e w) -> value_ok v ->
  sim s (overwrite_slot key (mkSlot e w) v x s) (<[key := (content_of v, x ≫= pack_deadline)]> (abs s)).
Proof.
  intros O Hk Hv. unfold overwrite_slot, overwrite_in_place. cbn zeta beta iota.
  match goal with |- context [set_kmap (<[key := mkSlot ?e' ?w']> _)] =>
    apply (sim_insert s _ key e' w' O (entry_new_ok v x Hv)) end;
    unfold apply_weight_delta, update_peak, adjust_expires; destruct (_ =? _), (0 <? _); try destruct (_ <? _); reflexivity.
Qed.

Lemma note_expired_removed_sim s key : entries_ok s -> sim s (note_expired_removed key s) (delete key (abs s)).
Proof.
  intros O. apply (sim_delete s _ key O); unfold note_expired_removed, remove_with_word;
    destruct (kmap s !! key) as [sl|] eqn:Hk; try (by destruct (expire_at_ns (entry sl))); [|reflexivity].
  by rewrite delete_id.
Qed.

Lemma set_evict_refines s key v b ttl cond at_ now :
  entries_ok s -> value_ok v -> content_of v = Text b ->
  refines s (set_value_evict key v ttl cond at_ now s)
    (a_set key b (expire_deadline ttl at_ ≫= pack_deadline) cond (reads (clk s) now) (abs s)).
Proof using Laws.
  intros O Hv Hc. unfold set_value_evict, a_set. look O s key now.
  - pose proof (overwrite_slot_sim s1 key e w v (expire_deadline ttl at_) (sim_ok _ _ _ S) Hk Hv) as W.
    rewrite Hc, (sim_abs _ _ _ S) in W. rewrite Hk.
    destruct cond; split; try done; exact (sim_trans _ _ _ _ _ S W).
  - pose proof (insert_entry_sim s1 (from_slice key) (entry_new v (expire_deadline ttl at_)) (sim_ok _ _ _ S)
      (entry_new_ok _ _ Hv)) as W. unfold item_of in W. cbn in W. rewrite Hc, (sim_abs _ _ _ S) in W.
    destruct cond; split; try done; exact (sim_trans _ _ _ _ _ S W).
Qed.

(** The single probe makes the decisions of the lookup. *)
Lemma set_no_evict_refines s key v b ttl cond at_ now :
  entries_ok s -> value_ok v -> content_of v = Text b ->
  refines s (set_value_no_evict key v ttl cond at_ now s)
    (a_set key b (expire_deadline ttl at_ ≫= pack_deadline) cond (reads (clk s) now) (abs s)).
Proof using Laws.
  intros O Hv Hc. unfold set_value_no_evict, set_probe_no_evict, a_set, a_live. rewrite abs_lookup.
  set (x := expire_deadline ttl at_).
  assert (I : forall s1 m, sim s s1 m ->
            sim s (fst (insert_entry (from_slice key) (entry_new v x) s1)) (<[key := (Text b, x ≫= pack_deadline)]> m)).
  { intros s1 m S. pose proof (insert_entry_sim s1 (from_slice key) (entry_new v x) (sim_ok _ _ _ S)
      (entry_new_ok _ _ Hv)) as W. unfold item_of in W. cbn in W. rewrite Hc, (sim_abs _ _ _ S) in W.
    exact (sim_trans _ _ _ _ _ S W). }
  destruct (kmap s !! key) as [[e w]|] eqn:Hk; cbn [fmap option_fmap option_map].
  - change (dead (reads (clk s) now) (slot_item (mkSlot e w))) with (is_expired e now s). cbn [entry].
    destruct (is_expired e now s).
    + pose proof (note_expired_removed_sim s key O) as S. destruct cond; split; cbn [fst snd]; auto.
    + pose proof (overwrite_slot_sim s key e w v x O Hk Hv) as W. rewrite Hc in W.
      destruct cond; split; try done; by apply sim_refl.
  - destruct cond; split; cbn [fst snd]; auto using sim_refl.
Qed.

Lemma set_value_refines s key v b ttl cond at_ now :
  entries_ok s -> value_ok v -> content_of v = Text b ->
  refines s (set_value key v ttl cond at_ now s)
    (a_set key b (expire_deadline ttl at_ ≫= pack_deadline) cond (reads (clk s) now) (abs s)).
Proof using Laws.
  intros O Hv Hc. unfold set_value. destruct (clock_on s); cbn [negb]; auto using set_evict_refines, set_no_evict_refines.
Qed.

(** A fresh entry, after the lookup found nothing. *)
Lemma insert_after s s1 m k v x :
  sim s s1 m -> value_ok v ->
  sim s (fst (insert_entry k (entry_new v x) s1)) (<[sb_bytes k := (content_of v, x ≫= pack_deadline)]> m).
Proof.
  intros S Hv. pose proof (insert_entry_sim s1 k (entry_new v x) (sim_ok _ _ _ S) (entry_new_ok _ _ Hv)) as W.
  unfold item_of in W. cbn in W. rewrite (sim_abs _ _ _ S) in W. exact (sim_trans _ _ _ _ _ S W).
Qed.

Lemma incr_text_int n delta : i64_min <= n <= i64_max ->
  incr_text (int_text n) delta = match checked_i64 (n + delta) with Some next => Ok next | None => Err Overflow end.
Proof. intros R. unfold incr_text. by rewrite parse_int_text. Qed.

Lemma incr_text_range b delta n : incr_text b delta = Ok n -> value_ok (Int n).
Proof.
  unfold incr_text. destruct (parse_i64 b) as [m|]; [|discriminate].
  destruct (checked_i64 (m + delta)) as [r|] eqn:E; [|discriminate]. intros [= <-].
  apply checked_i64_Some in E as [-> R]. exact R.
Qed.

Lemma incr_by_refines s key delta now : entries_ok s -> value_ok (Int delta) ->
  refines s (incr_by key delta now s) (a_incr key delta (reads (clk s) now) (abs s)).
Proof using Laws.
  intros O Hd. unfold incr_by, a_incr. look O s key now; [|split; [exact (insert_after _ _ _ _ _ None S Hd) | done]].
  assert (T : forall b, content_of (value e) = Text b ->
    refines s (match incr_text b delta with
               | Ok next => (reweigh_entry key (set_entry_value key (Int next) s1), Ok next)
               | r => (s1, r) end)
      (let (c, at_) := item_of e in
       match c with
       | Text b => match incr_text b delta with
                   | Ok n => (<[key := (Text (int_text n), at_)]> (abs s), Ok n) | r => (abs s, r) end
       | Other _ _ => (abs s, Err WrongType)
       end)).
  { intros b Hc. unfold item_of. rewrite Hc. destruct (incr_text b delta) as [n|er|] eqn:E; [|by split..].
    pose proof (rewrite_sim s1 key e w (Int n) None (sim_ok _ _ _ S) Hk (incr_text_range _ _ _ E) He) as W.
    rewrite (sim_abs _ _ _ S) in W. split; [exact (sim_trans _ _ _ _ _ S W) | done]. }
  destruct (value e) as [v|n|a|k x] eqn:Hv.
  - exact (T _ eq_refl).
  - destruct He as [Hve Hne]. unfold item_of. rewrite Hv in *. cbn in Hve |- *. rewrite incr_text_int by exact Hve.
    destruct (checked_i64 (n + delta)) as [r|] eqn:E; [|by split]. apply checked_i64_Some in E as [-> R].
    pose proof (sim_insert s1 (set_entry_value key (Int (n + delta)) s1) key (mkEntry (Int (n + delta)) (expire_at_ns e)) w
      (sim_ok _ _ _ S) (conj R Hne) (set_entry_value_kmap s1 key _ _ Hk) eq_refl) as W.
    rewrite (sim_abs _ _ _ S) in W. split; [exact (sim_trans _ _ _ _ _ S W) | done].
  - exact (T _ eq_refl).
  - unfold item_of. rewrite Hv. by split.
Qed.

Lemma append_refines {GL : VecGrowthLaws Grow} s key data now : entries_ok s ->
  refines s (append key data now s) (a_append key data (reads (clk s) now) (abs s)).
Proof using Laws.
  intros O. unfold append, a_append.
  look O s key now; [|split; [exact (insert_after _ _ _ _ (Str (from_slice data)) None S ltac:(cbn; lia)) | done]].
  assert (V : forall v, vec_ok v -> vec_ok (vec_extend v data)).
  { intros v _. unfold vec_ok, vec_extend. cbn. rewrite blen_app. pose proof (grow_cap_enough (vec_cap v) (blen (vec_bytes v) + blen data)).
    destruct (Z.leb_spec (blen (vec_bytes v) + blen data) (vec_cap v)); lia. }
  assert (T : forall b v, content_of (value e) = Text b -> value_ok v -> content_of v = Text (b ++ data) ->
    refines s (reweigh_scalar key (weight (value e)) (set_entry_value key v s1), Ok (blen (b ++ data)))
      (let (c, at_) := item_of e in
       match c with
       | Text b => (<[key := (Text (b ++ data), at_)]> (abs s), Ok (blen (b ++ data)))
       | Other _ _ => (abs s, Err WrongType)
       end)).
  { intros b v Hc Hv Hc'. unfold item_of. rewrite Hc.
    pose proof (rewrite_sim s1 key e w v (Some (weight (value e))) (sim_ok _ _ _ S) Hk Hv He) as W.
    rewrite (sim_abs _ _ _ S), Hc' in W. split; [exact (sim_trans _ _ _ _ _ S W) | done]. }
  destruct (value e) as [v|n|a|k x] eqn:Hv; cbn [string_bytes].
  - assert (Hb : vec_bytes (into_vec v) = sb_bytes v) by (unfold into_vec; by destruct (is_inline v)).
    assert (Hv' : vec_ok (vec_extend (into_vec v) data)).
    { apply V. destruct He as [He _]. rewrite Hv in He. unfold vec_ok, into_vec. destruct (is_inline v); cbn in *; lia. }
    cbn [vec_extend vec_bytes]. rewrite Hb. apply T; [reflexivity | by apply from_vec_ok |].
    cbn. by rewrite from_vec_bytes, <- Hb.
  - destruct He as [He He']. rewrite Hv in He. rewrite format_i64_ok by exact He.
    assert (Hv' : vec_ok (vec_extend (to_vec (int_text n)) data)) by (apply V; unfold vec_ok; cbn; lia).
    destruct (pick_owned_spec _ Hv') as (P1 & _ & P3). by apply T.
  - assert (Hv' : vec_ok (vec_extend (to_vec a) data)) by (apply V; unfold vec_ok; cbn; lia).
    destruct (pick_owned_spec _ Hv') as (P1 & _ & P3). by apply T.
  - unfold item_of. rewrite Hv. by split.
Qed.

Lemma getset_refines s key v now : entries_ok s -> vec_ok v ->
  refines s (getset key v now s) (a_getset key (vec_bytes v) (reads (clk s) now) (abs s)).
Proof using Laws.
  intros O Hv. destruct (pick_owned_spec _ Hv) as (P1 & _ & P3).
  assert (I : forall s1 m, sim s s1 m ->
    sim s (fst (insert_entry (from_slice key) (entry_new (pick_value_for_set_owned v) None) s1))
      (<[key := (Text (vec_bytes v), None)]> m)).
  { intros s1 m S. pose proof (insert_after _ _ _ (from_slice key) _ None S P1) as W. by rewrite P3 in W. }
  unfold getset, a_getset. look O s key now; [|by split; [apply I|]].
  rewrite (string_bytes_text _ (expire_at_ns e)) by apply He. unfold item_of.
  destruct (content_of (value e)); cbn [text_of]; split; cbn [fst snd]; auto.
Qed.

Lemma getdel_refines s key now : entries_ok s ->
  refines s (getdel key now s) (a_getdel key (reads (clk s) now) (abs s)).
Proof using Laws.
  intros O. unfold getdel, a_getdel. look O s key now; [|by split].
  unfold remove_entry. pose proof (take_entry_sim s1 key (sim_ok _ _ _ S)) as [T R].
  rewrite Hk in R. cbn in R. rewrite (sim_abs _ _ _ S) in T. pose proof (sim_trans _ _ _ _ _ S T) as ST.
  destruct (take_entry_keepalive key s1) as [s2 o]. cbn [fst snd] in *. subst o.
  pose proof (string_bytes_text (value e) (expire_at_ns e) (proj1 He)) as X. unfold item_of.
  destruct (value e) as [v|n|a|k x] eqn:Hv; cbn [content_of text_of] in X |- *; try (split; [exact ST | exact X]). by split.
Qed.

Definition a_set_keep (key b : list byte) (c : Z) (m : keyspace) : keyspace :=
  let '(m, x) := a_live key c m in
  <[key := (Text b, match x with Some (_, at_) => at_ | None => None end)]> m.

Lemma put_keep_ttl_sim s key v now : entries_ok s -> value_ok v ->
  sim s (put_keep_ttl key v now s)
    (let '(m, x) := a_live (vec_bytes key) (reads (clk s) now) (abs s) in
     <[vec_bytes key := (content_of v, match x with Some (_, at_) => at_ | None => None end)]> m).
Proof using Laws.
  intros O Hv. unfold put_keep_ttl, remove_entry. look O s (vec_bytes key) now.
  - pose proof (proj1 (take_entry_sim s1 (vec_bytes key) (sim_ok _ _ _ S))) as T. rewrite (sim_abs _ _ _ S) in T.
    pose proof (insert_after _ _ _ (from_vec key) v (expire_at_ns e) (sim_trans _ _ _ _ _ S T) Hv) as W.
    rewrite from_vec_bytes, pack_deadline_again, insert_delete_eq in W by apply He. exact W.
  - pose proof (proj1 (take_entry_sim s1 (vec_bytes key) (sim_ok _ _ _ S))) as T. rewrite (sim_abs _ _ _ S) in T.
    pose proof (insert_after _ _ _ (from_vec key) v None (sim_trans _ _ _ _ _ S T) Hv) as W.
    rewrite from_vec_bytes, insert_delete_eq in W. exact W.
Qed.

(** Both ways of SET KEEPTTL: a deadline that passes between the two probes
    is put back all the same. *)
Lemma set_keep_ttl_sim s key b now now' : entries_ok s ->
  sim s (set_slice_keep_ttl key b now now' s) (a_set_keep key b (reads (clk s) now) (abs s)).
Proof using Laws.
  intros O. destruct (pick_spec b) as (P1 & _ & P3). unfold set_slice_keep_ttl, a_set_keep. destruct (clock_on s).
  - pose proof (put_keep_ttl_sim s (to_vec key) _ now O P1) as W. rewrite P3 in W. exact W.
  - assert (A : forall s1 m, sim s s1 m ->
      sim s (fst (set_value key (pick_value_for_set b) None Always now' now' s1)) (<[key := (Text b, None)]> m)).
    { intros s1 m S. pose proof (proj1 (set_value_refines s1 key _ b None Always now' now' (sim_ok _ _ _ S) P1 P3)) as W.
      rewrite (sim_abs _ _ _ S) in W. unfold a_set in W.
      replace (<[key := (Text b, None)]> m) with
        (fst (let '(m0, _) := a_live key (reads (clk s1) now') m in (<[key := (Text b, None)]> m0, true))).
      - destruct (a_live _ _ m) as [m0 [x|]]; exact (sim_trans _ _ _ _ _ S W).
      - unfold a_live. destruct (m !! key); [destruct (dead _ _)|]; try reflexivity. apply insert_delete_eq. }
    look O s key now; cbn [mbind option_bind].
    + pose proof (A _ _ S) as W. destruct (expire_at_ns e) as [ns|] eqn:Hx; cbn; rewrite ?Hx; [|exact W].
      set (s2 := fst _) in *. assert (K : abs s2 !! key = Some (Text b, None)) by (rewrite (sim_abs _ _ _ W); apply lookup_insert_eq).
      rewrite abs_lookup in K. destruct (kmap s2 !! key) as [sl|] eqn:Hk2; [|discriminate].
      cbn in K. unfold slot_item, item_of in K. injection K as K1 K2.
      assert (Z : sim s2 (adjust_expires 1 (update_entry key (fun e0 => mkEntry (value e0) (Some ns)) s2))
                (<[key := (Text b, Some ns)]> (abs s2))).
      { rewrite <- K1. apply (sim_insert s2 _ key (mkEntry (value (entry sl)) (Some ns)) (word sl) (sim_ok _ _ _ W));
          [split; [apply (sim_ok _ _ _ W key sl Hk2) | cbn; rewrite <- Hx; apply He] | | reflexivity].
        cbn. by rewrite alter_alt, Hk2. }
      rewrite (sim_abs _ _ _ W), insert_insert_eq in Z. exact (sim_trans _ _ _ _ _ W Z).
    + exact (A _ _ S).
Qed.
End Refine.
