(* ===== verification/StoreCommands.v ===== *)
(** * Sequences of commands ([crates/kevy-store/src/keyspace.rs], [string.rs],
    [string_set.rs], [string_rmw.rs])

    The key commands join the string commands of [StoreRefine]: one type of
    commands, one function that runs them, and the refinement of any sequence
    of them by the abstract keyspace. *)

From Stdlib Require Import ZArith Lia Bool Strings.Byte Strings.String.
From stdpp Require Import base list gmap.
From S2P Require Import Prelude Utf8 Encode MapTable StoreUtil Store StoreString StoreSpec StoreRefine.

#[local] Open Scope list_scope.
#[local] Open Scope Z_scope.

(** ** The key commands on the abstract keyspace *)

Definition content_type (c : content) : string :=
  match c with Text _ => "string" | Other k w => type_name (Coll k w) end.

Fixpoint a_del (keys : list (list byte)) (now : Z) (m : keyspace) : keyspace * Z :=
  match keys with
  | [] => (m, 0)
  | k :: r =>
      let '(m, x) := a_live k now m in
      let '(m, n) := a_del r now (delete k m) in
      (m, (match x with Some _ => 1 | None => 0 end) + n)
  end.

Fixpoint a_exists (keys : list (list byte * Z)) (m : keyspace) : keyspace * Z :=
  match keys with
  | [] => (m, 0)
  | (k, now) :: r =>
      let '(m, x) := a_live k now m in
      let '(m, n) := a_exists r m in
      (m, (match x with Some _ => 1 | None => 0 end) + n)
  end.

Definition a_expire (key : list byte) (ttl now : Z) (m : keyspace) : keyspace * bool :=
  match a_live key now m with
  | (m, Some (c, _)) => (<[key := (c, pack_deadline (deadline_at now ttl))]> m, true)
  | (m, None) => (m, false)
  end.

Definition a_expire_at (key : list byte) (deadline_ms now wall : Z) (m : keyspace) : keyspace * bool :=
  match a_live key now m with
  | (m, Some (c, _)) =>
      let ns := Z.min (deadline_ms * 1000000) u64_max in
      if ns <=? wall then (delete key m, true)
      else (<[key := (c, pack_deadline (deadline_at now (ns - wall)))]> m, true)
  | (m, None) => (m, false)
  end.

Definition a_persist (key : list byte) (now : Z) (m : keyspace) : keyspace * bool :=
  match a_live key now m with
  | (m, Some (c, Some _)) => (<[key := (c, None)]> m, true)
  | (m, _) => (m, false)
  end.

Definition a_pttl (key : list byte) (now : Z) (m : keyspace) : keyspace * Z :=
  match a_live key now m with
  | (m, Some (_, Some ns)) => (m, remaining_ms ns now)
  | (m, Some (_, None)) => (m, -1)
  | (m, None) => (m, -2)
  end.

Definition a_type (key : list byte) (now : Z) (m : keyspace) : keyspace * string :=
  match a_live key now m with
  | (m, Some (c, _)) => (m, content_type c)
  | (m, None) => (m, "none"%string)
  end.

Definition with_remaining (now : Z) (x : item) : item := (fst x, (fun ns => remaining_ms ns now) <$> snd x).

Definition a_take (key : list byte) (now : Z) (m : keyspace) : keyspace * option item :=
  match a_live key now m with
  | (m, Some x) => (delete key m, Some (with_remaining now x))
  | (m, None) => (m, None)
  end.

Definition a_clone (key : list byte) (now : Z) (m : keyspace) : keyspace * option item :=
  let '(m, x) := a_live key now m in (m, with_remaining now <$> x).

Definition a_rename (src dst : list byte) (nx : bool) (now : Z) (m : keyspace) : keyspace * RenameOutcome :=
  match a_live src now m with
  | (m, None) => (m, NoSuchSrc)
  | (m, Some x) =>
      if bool_decide (src = dst) then (m, if nx then DstExists else Renamed)
      else
        let '(m, d) := if nx then a_live dst now m else (m, None) in
        match d with
        | Some _ => (m, DstExists)
        | None => (<[dst := x]> (delete src m), Renamed)
        end
  end.

Definition ttl_deadline (ttl_ms : option Z) (now : Z) : option Z :=
  ((fun ms => deadline_at now (ms * 1000000)) <$> ttl_ms) ≫= pack_deadline.

Section Keys.
Context `{Tab : TableShape} `{Grow : VecGrowth} {Laws : TableLaws Tab}.

(** ** Their refinement *)

Variant reaped (s : Store) (key : list byte) : Store * bool -> keyspace * option item -> Prop :=
| Reaped sl : entry_ok (entry sl) -> kmap s !! key = Some sl ->
    reaped s key (s, true) (abs s, Some (slot_item sl))
| Gone s' m : sim s s' m -> kmap s' !! key = None -> m !! key = None -> reaped s key (s', false) (m, None).

Lemma reap_reaped s key now : entries_ok s -> reaped s key (reap key now s) (a_live key now (abs s)).
Proof using Laws.
  intros O. destruct (reap_found s key now O) as [S _]. revert S. unfold reap, expired, a_live. rewrite abs_lookup.
  destruct (kmap s !! key) as [sl|] eqn:Hk; cbn [fmap option_fmap option_map]; intros S.
  - change (dead now (slot_item sl)) with (is_expired_at (entry sl) now) in *.
    destruct (is_expired_at (entry sl) now).
    + constructor; [exact S | rewrite drop_expired_kmap; apply lookup_delete_eq | apply lookup_delete_eq].
    + constructor; [by apply (O key) | exact Hk].
  - constructor; [exact S | exact Hk | by rewrite abs_lookup, Hk].
Qed.

(** The outcomes of an expiry check, with the names of [reaped]. *)
Ltac reaping O s key now :=
  destruct (reap_reaped s key now O) as [sl He Hk | s1 m1 S Hn Hm]; cbn [negb].

Lemma del_refines keys now : forall s, entries_ok s -> refines s (del keys now s) (a_del keys now (abs s)).
Proof using Laws.
  induction keys as [|k r IH]; intros s O; cbn; [by split; [apply sim_refl|]|]. reaping O s k now.
  - destruct (take_entry_sim s k O) as [T R]. unfold remove_entry.
    destruct (take_entry_keepalive k s) as [s2 o]. cbn [fst snd] in *. subst o. rewrite Hk. cbn.
    destruct (IH s2 (sim_ok _ _ _ T)) as [S2 R2]. rewrite (sim_abs _ _ _ T) in S2, R2.
    destruct (del r now s2), (a_del r now _). cbn in *. split; [exact (sim_trans _ _ _ _ _ T S2) | cbn; by rewrite R2].
  - rewrite delete_id by exact Hm. destruct (IH s1 (sim_ok _ _ _ S)) as [S2 R2]. rewrite (sim_abs _ _ _ S) in S2, R2.
    destruct (del r now s1), (a_del r now m1). cbn in *. split; [exact (sim_trans _ _ _ _ _ S S2) | cbn; by rewrite R2].
Qed.

Lemma exists_refines keys : forall s, entries_ok s ->
  refines s (exists_ keys s) (a_exists (prod_map id (reads (clk s)) <$> keys) (abs s)).
Proof using Laws.
  induction keys as [|[k now] r IH]; intros s O; cbn; [by split; [apply sim_refl|]|].
  pose proof (live_entry_found s k now O) as F.
  destruct (live_entry k now s) as [s1 e1], (a_live k (reads (clk s) now) (abs s)) as [m1 x1]. cbn [fst snd] in F.
  assert (S : sim s s1 m1) by (by destruct F).
  assert (X : (match e1 with Some _ => 1 | None => 0 end) = (match x1 with Some _ => 1 | None => 0 end)) by (by destruct F).
  destruct (IH s1 (sim_ok _ _ _ S)) as [S2 R2]. rewrite (sim_abs _ _ _ S), (sim_clk _ _ _ S) in S2, R2.
  destruct (exists_ r s1), (a_exists _ m1). cbn in *. split; [exact (sim_trans _ _ _ _ _ S S2) | cbn; by rewrite X, R2].
Qed.

Lemma redate_sim s key sl x t : entries_ok s -> kmap s !! key = Some sl -> x <> Some 0 ->
  sim s (adjust_expires t (update_entry key (fun e => mkEntry (value e) x) s))
    (<[key := (content_of (value (entry sl)), x)]> (abs s)).
Proof.
  intros O Hk Hx. apply (sim_insert s _ key (mkEntry (value (entry sl)) x) (word sl) O).
  - split; [apply (O key sl Hk) | exact Hx].
  - rewrite (proj1 (adjust_expires_core t _)). cbn. by rewrite alter_alt, Hk.
  - by rewrite clk_adjust.
Qed.

Lemma redate_as s key sl deadline : kmap s !! key = Some sl ->
  redate key deadline s =
  adjust_expires (has_ttl (mkEntry (value (entry sl)) (pack_deadline deadline)) - has_ttl (entry sl))
    (update_entry key (fun e => mkEntry (value e) (pack_deadline deadline)) s).
Proof.
  intros Hk. unfold redate. rewrite Hk. f_equal. unfold update_entry. f_equal. by rewrite !alter_alt, Hk.
Qed.

Lemma expire_refines s key ttl now : entries_ok s ->
  refines s (expire key ttl now s) (a_expire key ttl now (abs s)).
Proof using Laws.
  intros O. unfold expire, a_expire. reaping O s key now; [|by split].
  rewrite Hk, (redate_as s key sl) by exact Hk. split; [|done]. by apply redate_sim, pack_deadline_ok.
Qed.

Lemma expire_at_refines s key ms now wall : entries_ok s ->
  refines s (expire_at_unix_ms key ms now wall s) (a_expire_at key ms now wall (abs s)).
Proof using Laws.
  intros O. unfold expire_at_unix_ms, a_expire_at. reaping O s key now; [|by split].
  rewrite Hk. cbn [orb slot_item item_of]. destruct (_ <=? wall); (split; [|done]).
  - apply (take_entry_sim s key O).
  - rewrite (redate_as s key sl) by exact Hk. by apply redate_sim, pack_deadline_ok.
Qed.

Lemma persist_refines s key now : entries_ok s ->
  refines s (persist key now s) (a_persist key now (abs s)).
Proof using Laws.
  intros O. unfold persist, a_persist. reaping O s key now; [|by split].
  rewrite Hk. unfold slot_item, item_of. destruct (expire_at_ns (entry sl)); [|by split; [apply sim_refl|]].
  split; [|done]. by apply redate_sim.
Qed.

Lemma pttl_refines s key now : entries_ok s -> refines s (pttl key now s) (a_pttl key now (abs s)).
Proof using Laws.
  intros O. unfold pttl, a_pttl. reaping O s key now; [|by split].
  rewrite Hk. cbn [mbind option_bind]. unfold slot_item, item_of.
  destruct (expire_at_ns (entry sl)); by split; [apply sim_refl|].
Qed.

Lemma type_of_refines s key now : entries_ok s -> refines s (type_of key now s) (a_type key now (abs s)).
Proof using Laws.
  intros O. unfold type_of, a_type. reaping O s key now; [|by split].
  rewrite Hk. split; [by apply sim_refl|]. cbn. by destruct (value (entry sl)).
Qed.

Definition carried (r : option (Value * option Z)) : option item := prod_map content_of id <$> r.

Lemma take_refines s key now : entries_ok s ->
  refines s (let '(s, r) := take_with_ttl key now s in (s, carried r)) (a_take key now (abs s)).
Proof using Laws.
  intros O. unfold take_with_ttl, a_take, remove_entry. reaping O s key now; [|by split].
  destruct (take_entry_sim s key O) as [T R]. destruct (take_entry_keepalive key s) as [s2 o]. cbn in R.
  rewrite Hk in R. subst o. by split.
Qed.

Lemma clone_refines s key now : entries_ok s ->
  refines s (let '(s, r) := clone_with_ttl key now s in (s, carried r)) (a_clone key now (abs s)).
Proof using Laws.
  intros O. unfold clone_with_ttl, a_clone. reaping O s key now; [|by split].
  rewrite Hk. split; [by apply sim_refl | done].
Qed.

Lemma put_sim s key v ttl now : entries_ok s -> value_ok v ->
  sim s (put_with_ttl key v ttl now s) (<[vec_bytes key := (content_of v, ttl_deadline ttl now)]> (abs s)).
Proof using Laws.
  intros O Hv. unfold put_with_ttl, remove_entry. pose proof (proj1 (take_entry_sim s (vec_bytes key) O)) as T.
  pose proof (insert_after _ _ _ (from_vec key) v ((fun ms => deadline_at now (ms * 1000000)) <$> ttl) T Hv) as W.
  rewrite from_vec_bytes, insert_delete_eq in W. exact W.
Qed.

Lemma rename_refines s src dst nx now : entries_ok s ->
  refines s (rename_if src dst nx now s) (a_rename src dst nx now (abs s)).
Proof using Laws.
  intros O. unfold rename_if, a_rename. reaping O s src now; [|by split].
  destruct (bool_decide_reflect (src = dst)) as [->|N]; [split; [by apply sim_refl | by destruct nx]|].
  assert (M : forall s2 m, sim s s2 m -> kmap s2 !! src = Some sl ->
    refines s (match take_entry_keepalive src s2 with
               | (s, None) => (s, NoSuchSrc)
               | (s, Some e) => (fst (insert_entry (from_vec (to_vec dst)) e (fst (remove_entry dst s))), Renamed)
               end) (<[dst := slot_item sl]> (delete src m), Renamed)).
  { intros s2 m S2 Hk2. destruct (take_entry_sim s2 src (sim_ok _ _ _ S2)) as [T R]. rewrite (sim_abs _ _ _ S2) in T.
    destruct (take_entry_keepalive src s2) as [s3 o]. cbn in T, R. rewrite Hk2 in R. subst o. cbn [option_fmap fmap option_map].
    pose proof (proj1 (take_entry_sim s3 dst (sim_ok _ _ _ T))) as T2. rewrite (sim_abs _ _ _ T) in T2.
    pose proof (insert_entry_sim _ (from_vec (to_vec dst)) (entry sl) (sim_ok _ _ _ T2) He) as W.
    rewrite (sim_abs _ _ _ T2), from_vec_bytes, insert_delete_eq in W. cbn [to_vec vec_bytes] in W.
    split; [|done]. exact (sim_trans _ _ _ _ _ S2 (sim_trans _ _ _ _ _ T (sim_trans _ _ _ _ _ T2 W))). }
  destruct nx; [|exact (M s (abs s) (sim_refl s O) Hk)].
  assert (K2 : kmap (fst (reap dst now s)) !! src = Some sl).
  { unfold reap. destruct (expired dst now s); [|exact Hk]. cbn [fst]. rewrite drop_expired_kmap, lookup_delete_ne by congruence. exact Hk. }
  revert K2. destruct (reap_reaped s dst now O) as [sl' He' Hk' | s1 m1 S Hn Hm]; cbn [andb fst]; intros K2.
  - rewrite Hk'. split; [by apply sim_refl | done].
  - exact (M s1 m1 S K2).
Qed.

Lemma flushall_sim s : sim s (flushall s) ∅.
Proof. split; [apply fmap_empty | intros k sl Hk; cbn in Hk; by rewrite lookup_empty in Hk | reflexivity]. Qed.

(** ** Commands *)

(** A key with the clock's reading at its lookup, for EXISTS; [now'] of
    [SetKeep] is the reading of the second probe. *)
Inductive command : Type :=
| Get (key : list byte)
| StrLen (key : list byte)
| SetOwned (key : list byte) (v : Vec) (ttl : option Z) (cond : SetCondition)
| SetSlice (key v : list byte) (ttl : option Z) (cond : SetCondition)
| SetKeep (key v : list byte) (now' : Z)
| IncrBy (key : list byte) (delta : Z)
| Append (key data : list byte)
| GetSet (key : list byte) (v : Vec)
| GetDel (key : list byte)
| Del (keys : list (list byte))
| Exists (keys : list (list byte * Z))
| Expire (key : list byte) (ttl : Z)
| ExpireAt (key : list byte) (deadline_ms wall : Z)
| Persist (key : list byte)
| Pttl (key : list byte)
| TypeOf (key : list byte)
| Take (key : list byte)
| Clone (key : list byte)
| Put (key : Vec) (v : Value) (ttl_ms : option Z)
| PutKeep (key : Vec) (v : Value)
| Rename (src dst : list byte) (nx : bool)
| Load (key v : Vec) (ttl_ms : option Z)
| FlushAll.

Inductive reply : Type :=
| RNone
| RText (r : result (option (list byte)))
| RNum (r : result Z)
| RFlag (b : bool)
| RName (n : string)
| RItem (x : option item)
| RRename (o : RenameOutcome).

(** What Rust's types promise of the arguments; the keys that become the
    table's own are exactly as long as their allocation. *)
Definition key_ok (k : Vec) : Prop := vec_cap k = blen (vec_bytes k).

Definition command_ok (c : command) : Prop :=
  match c with
  | SetOwned _ v _ _ | GetSet _ v => vec_ok v
  | IncrBy _ delta => value_ok (Int delta)
  | Put k v _ | PutKeep k v => key_ok k /\ value_ok v
  | Load k v _ => key_ok k /\ vec_ok v
  | _ => True
  end.

Definition reply_with {A} (f : A -> reply) (p : Store * A) : Store * reply := let '(s, a) := p in (s, f a).

(** [now] is the clock at the expiry check, [at_] the one a deadline is
    counted from. *)
Definition run_command (c : command) (now at_ : Z) (s : Store) : Store * reply :=
  match c with
  | Get k => reply_with RText (get k now s)
  | StrLen k => reply_with RNum (strlen k now s)
  | SetOwned k v ttl cond => reply_with RFlag (set k v ttl cond at_ now s)
  | SetSlice k v ttl cond => reply_with RFlag (set_slice k v ttl cond at_ now s)
  | SetKeep k v now' => (set_slice_keep_ttl k v now now' s, RNone)
  | IncrBy k delta => reply_with RNum (incr_by k delta now s)
  | Append k data => reply_with RNum (append k data now s)
  | GetSet k v => reply_with RText (getset k v now s)
  | GetDel k => reply_with RText (getdel k now s)
  | Del ks => reply_with (fun n => RNum (Ok n)) (del ks now s)
  | Exists ks => reply_with (fun n => RNum (Ok n)) (exists_ ks s)
  | Expire k ttl => reply_with RFlag (expire k ttl now s)
  | ExpireAt k ms wall => reply_with RFlag (expire_at_unix_ms k ms now wall s)
  | Persist k => reply_with RFlag (persist k now s)
  | Pttl k => reply_with (fun n => RNum (Ok n)) (pttl k now s)
  | TypeOf k => reply_with RName (type_of k now s)
  | Take k => reply_with RItem (let '(s, r) := take_with_ttl k now s in (s, carried r))
  | Clone k => reply_with RItem (let '(s, r) := clone_with_ttl k now s in (s, carried r))
  | Put k v ttl => (put_with_ttl k v ttl at_ s, RNone)
  | PutKeep k v => (put_keep_ttl k v now s, RNone)
  | Rename src dst nx => reply_with RRename (rename_if src dst nx now s)
  | Load k v ttl => (load_str k v ttl at_ s, RNone)
  | FlushAll => (flushall s, RNone)
  end.

Definition a_reply_with {A} (f : A -> reply) (p : keyspace * A) : keyspace * reply := let '(m, a) := p in (m, f a).

(** The specification: [c] is the cached clock. *)
Definition a_command (cmd : command) (now at_ : Z) (c : bool * Z) (m : keyspace) : keyspace * reply :=
  let seen := reads c now in
  let deadline ttl := expire_deadline ttl at_ ≫= pack_deadline in
  let length_of o := match o with Some b => blen b | None => 0 end in
  match cmd with
  | Get k => a_reply_with RText (a_get k seen m)
  | StrLen k => a_reply_with (fun r => RNum (result_map length_of r)) (a_get k seen m)
  | SetOwned k v ttl cond => a_reply_with RFlag (a_set k (vec_bytes v) (deadline ttl) cond seen m)
  | SetSlice k v ttl cond => a_reply_with RFlag (a_set k v (deadline ttl) cond seen m)
  | SetKeep k v _ => (a_set_keep k v seen m, RNone)
  | IncrBy k delta => a_reply_with RNum (a_incr k delta seen m)
  | Append k data => a_reply_with RNum (a_append k data seen m)
  | GetSet k v => a_reply_with RText (a_getset k (vec_bytes v) seen m)
  | GetDel k => a_reply_with RText (a_getdel k seen m)
  | Del ks => a_reply_with (fun n => RNum (Ok n)) (a_del ks now m)
  | Exists ks => a_reply_with (fun n => RNum (Ok n)) (a_exists (prod_map id (reads c) <$> ks) m)
  | Expire k ttl => a_reply_with RFlag (a_expire k ttl now m)
  | ExpireAt k ms wall => a_reply_with RFlag (a_expire_at k ms now wall m)
  | Persist k => a_reply_with RFlag (a_persist k now m)
  | Pttl k => a_reply_with (fun n => RNum (Ok n)) (a_pttl k now m)
  | TypeOf k => a_reply_with RName (a_type k now m)
  | Take k => a_reply_with RItem (a_take k now m)
  | Clone k => a_reply_with RItem (a_clone k now m)
  | Put k v ttl => (<[vec_bytes k := (content_of v, ttl_deadline ttl at_)]> m, RNone)
  | PutKeep k v =>
      let '(m, x) := a_live (vec_bytes k) seen m in
      (<[vec_bytes k := (content_of v, match x with Some (_, d) => d | None => None end)]> m, RNone)
  | Rename src dst nx => a_reply_with RRename (a_rename src dst nx now m)
  | Load k v ttl => (<[vec_bytes k := (Text (vec_bytes v), ttl_deadline ttl at_)]> m, RNone)
  | FlushAll => (∅, RNone)
  end.

Lemma refines_reply {A} s (p : Store * A) q f : refines s p q -> refines s (reply_with f p) (a_reply_with f q).
Proof. destruct p, q. intros [S R]. cbn in *. subst. by split. Qed.

Lemma command_refines {GL : VecGrowthLaws Grow} c now at_ s : entries_ok s -> command_ok c ->
  refines s (run_command c now at_ s) (a_command c now at_ (clk s) (abs s)).
Proof using Laws.
  intros O K. destruct c; cbn [run_command a_command command_ok] in *; cbv zeta;
    try (apply refines_reply;
         first [ by apply get_refines | by apply incr_by_refines | by apply append_refines | by apply getset_refines
               | by apply getdel_refines | by apply del_refines | by apply exists_refines | by apply expire_refines
               | by apply expire_at_refines | by apply persist_refines | by apply pttl_refines | by apply type_of_refines
               | by apply take_refines | by apply clone_refines | by apply rename_refines ]).
  - pose proof (refines_reply _ _ _ RNum (strlen_refines s key now O)) as H. by destruct (a_get _ _ _).
  - apply refines_reply. destruct (pick_owned_spec v K) as (P1 & _ & P3). by apply set_value_refines.
  - apply refines_reply. destruct (pick_spec v) as (P1 & _ & P3). by apply set_value_refines.
  - split; [by apply set_keep_ttl_sim | done].
  - split; [apply put_sim; [exact O | apply K] | done].
  - pose proof (put_keep_ttl_sim s key v now O (proj2 K)) as W. by destruct (a_live _ _ _).
  - destruct K as [_ K]. destruct (pick_owned_spec v K) as (P1 & _ & P3). split; [|done].
    pose proof (insert_after s s _ (from_vec key) _ ((fun ms => deadline_at at_ (ms * 1000000)) <$> ttl_ms)
      (sim_refl s O) P1) as W. rewrite from_vec_bytes, P3 in W. exact W.
  - split; [apply flushall_sim | done].
Qed.

(** ** Sequences *)

(** Each command with its two readings of the clock. *)
Definition timed : Type := command * (Z * Z).

Fixpoint run_commands (cs : list timed) (s : Store) : Store * list reply :=
  match cs with
  | [] => (s, [])
  | (c, (now, at_)) :: r =>
      let '(s, x) := run_command c now at_ s in
      let '(s, xs) := run_commands r s in (s, x :: xs)
  end.

Fixpoint a_commands (cs : list timed) (c : bool * Z) (m : keyspace) : keyspace * list reply :=
  match cs with
  | [] => (m, [])
  | (cmd, (now, at_)) :: r =>
      let '(m, x) := a_command cmd now at_ c m in
      let '(m, xs) := a_commands r c m in (m, x :: xs)
  end.

Lemma commands_refine {GL : VecGrowthLaws Grow} cs : forall s, entries_ok s -> Forall (fun t => command_ok (fst t)) cs ->
  refines s (run_commands cs s) (a_commands cs (clk s) (abs s)).
Proof using Laws.
  induction cs as [|[c [now at_]] r IH]; intros s O K; cbn; [by split; [apply sim_refl|]|].
  inversion K as [|? ? K1 K2]; subst. destruct (command_refines c now at_ s O K1) as [S R].
  destruct (run_command c now at_ s) as [s1 x], (a_command c now at_ (clk s) (abs s)) as [m1 y]. cbn in S, R. subst y.
  destruct (IH s1 (sim_ok _ _ _ S) K2) as [S2 R2]. rewrite (sim_abs _ _ _ S), (sim_clk _ _ _ S) in S2, R2.
  destruct (run_commands r s1), (a_commands r (clk s) m1). cbn in *. split; [exact (sim_trans _ _ _ _ _ S S2) | cbn; by rewrite R2].
Qed.
End Keys.

(** ** The server's table and vectors *)

#[export] Instance server_table : TableShape := kevy_table true.
#[export] Instance server_table_laws : TableLaws server_table := kevy_laws true.

(** A [Vec<u8>] grows to twice its capacity, to what is needed, or to eight. *)
#[export] Instance vec_growth : VecGrowth := {| grow_cap cap need := Z.max 8 (Z.max (2 * cap) need) |}.
#[export] Instance vec_growth_laws : VecGrowthLaws vec_growth.
Proof. split. cbn. lia. Qed.

(** C3: The store a keyspace of type-agnostic, string and key commands runs in is
    a map from keys to contents with deadlines: from any store with
    well-formed entries, every sequence of commands leaves a store that
    stands for what the specification computes, and gives its replies.  Both
    SET paths, the three string encodings, lazy expiry, the cached clock, the
    access clock and the accounting are invisible. *)
Theorem store_refines_keyspace `{Tab : TableShape} `{Grow : VecGrowth} {Laws : TableLaws Tab} {GL : VecGrowthLaws Grow}
  (cs : list timed) (s : Store) :
  entries_ok s -> Forall (fun t => command_ok (fst t)) cs ->
  abs (fst (run_commands cs s)) = fst (a_commands cs (clk s) (abs s)) /\
  snd (run_commands cs s) = snd (a_commands cs (clk s) (abs s)) /\
  entries_ok (fst (run_commands cs s)).
Proof.
  intros O K. destruct (commands_refine cs s O K) as [S R].
  split_and!; [apply (sim_abs _ _ _ S) | exact R | apply (sim_ok _ _ _ S)].
Qed.

Definition demo : list timed :=
  [(SetSlice (bs "n") (bs "41") (Some 5000000) Always, (10, 10)); (IncrBy (bs "n") 1, (20, 20));
   (Append (bs "n") (bs "!"), (30, 30)); (Get (bs "n"), (40, 40)); (Pttl (bs "n"), (40, 40));
   (Get (bs "n"), (5000010, 5000010)); (SetSlice (bs "n") (bs "x") None IfPresent, (5000020, 5000020))].

Lemma store_refines_keyspace_witness :
  snd (run_commands demo store_new) =
    [RFlag true; RNum (Ok 42); RNum (Ok 3); RText (Ok (Some (bs "42!"))); RNum (Ok 4); RText (Ok None); RFlag false] /\
  abs (fst (run_commands demo store_new)) = ∅.
Proof.
  destruct (store_refines_keyspace demo store_new) as (A & R & _).
  - intros k sl Hk. cbn in Hk. by rewrite lookup_empty in Hk.
  - repeat constructor; cbn; unfold i64_min, i64_max; lia.
  - rewrite A, R. split; vm_compute; reflexivity.
Defined.
