(* ===== verification/StoreAccounts.v ===== *)
(** * The accounting over any sequence of commands ([crates/kevy-store/src/accounting.rs])

    The commands of [StoreCommands] keep [accounts]: [used_memory] is the
    table's bytes plus the weights of the keys and values it holds plus a
    drift, and the TTL gauge is the number of keys with a deadline.  The
    drift is what INCRBY adds when it replaces a text that owns heap bytes;
    FLUSHALL clears it; nothing else moves it. *)

From Stdlib Require Import ZArith Lia Bool Strings.Byte Strings.String.
From stdpp Require Import base list gmap.
From S2P Require Import Prelude Utf8 Encode StoreUtil Store StoreString MapSum StoreSpec StoreRefine StoreCommands.

#[local] Open Scope list_scope.
#[local] Open Scope Z_scope.

Section Accounts.
Context `{Tab : TableShape} `{Grow : VecGrowth} {Laws : TableLaws Tab} {GL : VecGrowthLaws Grow}.

(** ** The drift *)

(** The weight of the text INCRBY turns into an integer. *)
Definition replaced_text (key : list byte) (delta now : Z) (s : Store) : Z :=
  match snd (live_entry key now s) with
  | Some (mkEntry (Str v) _) => match incr_text (sb_bytes v) delta with Ok _ => heap_bytes v | _ => 0 end
  | Some (mkEntry (ArcBulk b) _) => match incr_text b delta with Ok _ => blen b | _ => 0 end
  | _ => 0
  end.

Definition drift_after (c : command) (now d : Z) (s : Store) : Z :=
  match c with
  | IncrBy key delta => d + replaced_text key delta now s
  | FlushAll => 0
  | _ => d
  end.

(** ** The commands, one by one *)

Section Drift.
Context (d : Z) (Hd : 0 <= d).

Lemma insert_good k e s : good d s -> value_ok (value e) -> heap_bytes k = heap_bytes_for (sb_bytes k) ->
  fits d (fst (insert_entry k e s)) -> good d (fst (insert_entry k e s)).
Proof using Laws Hd. intros [H F] Hv Hk F'. split; [by apply insert_entry_accounts | exact F']. Qed.

Lemma from_vec_heap k : key_ok k -> heap_bytes (from_vec k) = heap_bytes_for (sb_bytes (from_vec k)).
Proof.
  unfold key_ok, from_vec, heap_bytes, heap_bytes_for, is_inline. intros H.
  destruct (blen (vec_bytes k) <=? INLINE_LEN_MAX) eqn:E; cbn; by rewrite E, ?H.
Qed.

Lemma note_expired_removed_good key s : good d s -> good d (note_expired_removed key s).
Proof using Laws Hd.
  intros H. apply (good_core d (fst (take_entry_keepalive key s))); [|by apply take_entry_good].
  unfold take_entry_keepalive, note_expired_removed, remove_with_word, clear_hash_key_ttls, aux. cbn.
  destruct (kmap s !! key) as [sl|]; [|reflexivity]. cbn. by destruct (expire_at_ns (entry sl)).
Qed.

(** A lookup that found an entry left it in its slot. *)
Lemma live_entry_at key now s s1 e : live_entry key now s = (s1, Some e) -> exists w, kmap s1 !! key = Some (mkSlot e w).
Proof using Laws.
  intros E. pose proof (live_entry_kmap s key now) as L. rewrite E in L. destruct L as (sl & w & _ & _ & _ & M).
  exists w. rewrite M. apply lookup_insert_eq.
Qed.

Lemma live_good key now s : good d s -> good d (fst (live_entry key now s)).
Proof using Laws Hd. by apply live_entry_good. Qed.

Lemma slot_value_ok s key sl : good d s -> kmap s !! key = Some sl -> value_ok (value (entry sl)).
Proof. intros [H _] Hk. apply (acc_slots d s H key sl Hk). Qed.

Lemma set_evict_good key v ttl cond at_ now s : good d s -> value_ok v -> kept v = false ->
  fits d (fst (set_value_evict key v ttl cond at_ now s)) -> good d (fst (set_value_evict key v ttl cond at_ now s)).
Proof using Laws Hd.
  intros G Hv Kv. unfold set_value_evict. pose proof (live_good key now s G) as G1.
  destruct (live_entry key now s) as [s1 [e|]] eqn:E; cbn [fst] in G1.
  - destruct (live_entry_at _ _ _ _ _ E) as [w Hk]. rewrite Hk.
    destruct cond; cbn [fst]; intros F; try exact G1; by apply overwrite_slot_good.
  - destruct cond; cbn [fst]; intros F; try exact G1; by apply insert_good.
Qed.

Lemma set_no_evict_good key v ttl cond at_ now s : good d s -> value_ok v -> kept v = false ->
  fits d (fst (set_value_no_evict key v ttl cond at_ now s)) -> good d (fst (set_value_no_evict key v ttl cond at_ now s)).
Proof using Laws Hd.
  intros G Hv Kv. unfold set_value_no_evict, set_probe_no_evict.
  destruct (kmap s !! key) as [sl|] eqn:Hk; [destruct (is_expired _ _ _)|].
  - pose proof (note_expired_removed_good key s G) as G1.
    destruct cond; cbn [fst]; intros F; try exact G1; by apply insert_good.
  - destruct cond; cbn [fst]; intros F; try exact G; by apply overwrite_slot_good.
  - destruct cond; cbn [fst]; intros F; try exact G; by apply insert_good.
Qed.

Lemma set_value_good key v ttl cond at_ now s : good d s -> value_ok v -> kept v = false ->
  fits d (fst (set_value key v ttl cond at_ now s)) -> good d (fst (set_value key v ttl cond at_ now s)).
Proof using Laws Hd.
  unfold set_value. destruct (clock_on s); cbn [negb]; auto using set_evict_good, set_no_evict_good.
Qed.

(** A change of deadline does not move what [fits] reads. *)
Lemma fits_update_entry t key x s :
  fits d (adjust_expires t (update_entry key (fun e => mkEntry (value e) x) s)) -> fits d s.
Proof.
  unfold fits, total. destruct (adjust_expires_core t (update_entry key (fun e => mkEntry (value e) x) s)) as (-> & -> & _).
  cbn. rewrite alter_alt. destruct (kmap s !! key) as [sl|] eqn:Hk; [|done].
  rewrite (msum_replace slot_weight _ _ _ _ Hk). unfold slot_weight at 2 3. cbn. lia.
Qed.

Lemma update_entry_good key x s sl : good d s -> kmap s !! key = Some sl ->
  good d (adjust_expires (has_ttl (mkEntry (value (entry sl)) x) - has_ttl (entry sl))
            (update_entry key (fun e => mkEntry (value e) x) s)).
Proof. intros G Hk. by apply (redate_slot_good d s key sl x). Qed.

Lemma put_keep_good key v now s : good d s -> value_ok v -> key_ok key ->
  fits d (put_keep_ttl key v now s) -> good d (put_keep_ttl key v now s).
Proof using Laws Hd.
  intros G Hv Hk. unfold put_keep_ttl, remove_entry. pose proof (live_good (vec_bytes key) now s G) as G1.
  destruct (live_entry _ _ s) as [s1 e]. cbn [fst] in G1. intros F.
  apply insert_good; [by apply take_entry_good | exact Hv | by apply from_vec_heap | exact F].
Qed.

Lemma set_value_always_kmap key v b now s : entries_ok s -> value_ok v -> content_of v = Text b ->
  exists w v', kmap (fst (set_value key v None Always now now s)) !! key = Some (mkSlot (mkEntry v' None) w).
Proof using Laws.
  intros O Hv Hc. destruct (set_value_refines s key v b None Always now now O Hv Hc) as [S _].
  unfold a_set in S. destruct (a_live _ _ _) as [m x]. cbn in S. set (s2 := fst (set_value _ _ _ _ _ _ _)) in *.
  assert (K : abs s2 !! key = Some (Text b, None)) by (rewrite (sim_abs _ _ _ S); destruct x; apply lookup_insert_eq).
  rewrite abs_lookup in K. destruct (kmap s2 !! key) as [[[v' y] w]|]; [|discriminate].
  exists w, v'. cbn in K. unfold slot_item, item_of in K. cbn in K. congruence.
Qed.

Lemma set_keep_good key v now now' s : entries_ok s -> good d s ->
  fits d (set_slice_keep_ttl key v now now' s) -> good d (set_slice_keep_ttl key v now now' s).
Proof using Laws Hd.
  intros O G. destruct (pick_spec v) as (P1 & P2 & P3). unfold set_slice_keep_ttl. destruct (clock_on s).
  - by apply put_keep_good.
  - pose proof (live_good key now s G) as G1.
    assert (O1 : entries_ok (fst (live_entry key now s))).
    { pose proof (live_entry_found s key now O) as F. destruct F as [? ? ? S|? ? S]; apply (sim_ok _ _ _ S). }
    destruct (live_entry key now s) as [s1 e]. cbn [fst] in G1, O1.
    destruct (set_value_always_kmap key _ v now' s1 O1 P1 P3) as (w & v' & Hk).
    pose proof (set_value_good key (pick_value_for_set v) None Always now' now' s1 G1 P1 P2) as G2.
    destruct (e ≫= expire_at_ns) as [ns|]; [|exact G2]. rewrite Hk. intros F. specialize (G2 (fits_update_entry _ _ _ _ F)).
    exact (update_entry_good key (Some ns) _ _ G2 Hk).
Qed.

Lemma incr_by_good key delta now s : good d s -> value_ok (Int delta) ->
  fits (d + replaced_text key delta now s) (fst (incr_by key delta now s)) ->
  good (d + replaced_text key delta now s) (fst (incr_by key delta now s)).
Proof using Laws Hd.
  intros G Hv. unfold incr_by, replaced_text. pose proof (live_good key now s G) as G1.
  destruct (live_entry key now s) as [s1 [e|]] eqn:E; cbn [fst snd] in *; [|rewrite Z.add_0_r; by apply insert_good].
  destruct (live_entry_at _ _ _ _ _ E) as [w Hk].
  assert (T : forall b, kept (value e) = false -> forall n, incr_text b delta = Ok n ->
    fits (d + weight (value e)) (reweigh_entry key (set_entry_value key (Int n) s1)) ->
    good (d + weight (value e)) (reweigh_entry key (set_entry_value key (Int n) s1))).
  { intros b K n Hn F. destruct G1 as [A1 F1]. split; [|exact F].
    exact (incr_reweigh_accounts d Hd s1 key (mkSlot e w) n A1 Hk K (incr_text_range _ _ _ Hn) F1). }
  destruct e as [[v|n|b|k x] at_]; cbn [value] in *.
  - destruct (incr_text (sb_bytes v) delta) as [n|er|] eqn:Hn; cbn [fst]; rewrite ?Z.add_0_r; [|done..].
    exact (T _ eq_refl n Hn).
  - rewrite Z.add_0_r. destruct (checked_i64 (n + delta)) as [r|] eqn:C; [|done]. cbn [fst]. intros F.
    apply checked_i64_Some in C as [-> R]. destruct G1 as [A1 F1]. split; [|exact F].
    pose proof (set_entry_value_kmap s1 key _ (Int (n + delta)) Hk) as M.
    eapply (accounts_replace d d s1 _ key _ _ A1 Hk M); cbn; try reflexivity; try lia.
    destruct (acc_slots d s1 A1 key _ Hk) as [_ W]. by split.
  - destruct (incr_text b delta) as [n|er|] eqn:Hn; cbn [fst]; rewrite ?Z.add_0_r; [|done..].
    exact (T _ eq_refl n Hn).
  - rewrite Z.add_0_r. done.
Qed.

Lemma append_good key data now s : good d s ->
  fits d (fst (append key data now s)) -> good d (fst (append key data now s)).
Proof using Laws Hd GL.
  intros G. unfold append. pose proof (live_good key now s G) as G1.
  destruct (live_entry key now s) as [s1 [e|]] eqn:E; cbn [fst] in *; [|by apply insert_good; [| cbn; lia |]].
  destruct (live_entry_at _ _ _ _ _ E) as [w Hk]. pose proof (slot_value_ok _ _ _ G1 Hk) as Hv. cbn in Hv.
  assert (X : forall u, vec_ok (vec_extend u data)).
  { intros u. unfold vec_ok, vec_extend. cbn. rewrite blen_app.
    pose proof (grow_cap_enough (vec_cap u) (blen (vec_bytes u) + blen data)).
    destruct (Z.leb_spec (blen (vec_bytes u) + blen data) (vec_cap u)); lia. }
  assert (T : forall v, kept (value e) = false -> kept v = false -> value_ok v ->
    fits d (reweigh_scalar key (weight (value e)) (set_entry_value key v s1)) ->
    good d (reweigh_scalar key (weight (value e)) (set_entry_value key v s1))).
  { intros v K Kv Hv' F. exact (rewrite_scalar_good d Hd s1 key (mkSlot e w) v G1 Hk K Kv Hv' F). }
  destruct (value e) as [v|n|b|k x] eqn:He; cbn [fst] in *.
  - apply T; [done | done | apply from_vec_ok, X].
  - rewrite format_i64_ok by exact Hv. destruct (pick_owned_spec _ (X (to_vec (int_text n)))) as (P1 & P2 & _). by apply T.
  - destruct (pick_owned_spec _ (X (to_vec b))) as (P1 & P2 & _). by apply T.
  - done.
Qed.

Lemma getset_good key v now s : good d s -> vec_ok v ->
  fits d (fst (getset key v now s)) -> good d (fst (getset key v now s)).
Proof using Laws Hd.
  intros G Hv. destruct (pick_owned_spec v Hv) as (P1 & _). unfold getset. pose proof (live_good key now s G) as G1.
  destruct (live_entry key now s) as [s1 e]. cbn [fst] in G1.
  destruct (match e with Some _ => _ | None => _ end); cbn [fst]; try done. by apply insert_good.
Qed.

Lemma getdel_good key now s : good d s -> good d (fst (getdel key now s)).
Proof using Laws Hd.
  intros G. unfold getdel, remove_entry. pose proof (live_good key now s G) as G1.
  destruct (live_entry key now s) as [s1 [e|]]; cbn [fst] in *; [|done].
  pose proof (take_entry_good d Hd s1 key G1) as G2.
  destruct (value e); try done; destruct (take_entry_keepalive key s1) as [s2 [o|]]; cbn [fst] in *; try done;
    by destruct (value o).
Qed.

Lemma del_good keys now : forall s, good d s -> good d (fst (del keys now s)).
Proof using Laws Hd.
  induction keys as [|k r IH]; intros s G; cbn; [exact G|]. pose proof (reap_good d Hd s k now G) as G1.
  destruct (reap k now s) as [s1 live]. cbn [fst] in G1. unfold remove_entry. pose proof (take_entry_good d Hd s1 k G1) as G2.
  destruct live; [destruct (take_entry_keepalive k s1) as [s2 o]|]; cbn [fst] in *;
    [specialize (IH s2 G2); destruct (del r now s2) | specialize (IH s1 G1); destruct (del r now s1)]; exact IH.
Qed.

Lemma exists_good keys : forall s, good d s -> good d (fst (exists_ keys s)).
Proof using Laws Hd.
  induction keys as [|[k now] r IH]; intros s G; cbn; [exact G|]. pose proof (live_good k now s G) as G1.
  destruct (live_entry k now s) as [s1 e]. cbn [fst] in G1. specialize (IH s1 G1). by destruct (exists_ r s1).
Qed.

Lemma redate_good key sl deadline s : good d s -> kmap s !! key = Some sl -> good d (redate key deadline s).
Proof. intros G Hk. rewrite (redate_as s key sl) by exact Hk. by apply update_entry_good. Qed.

(** The commands that check the expiry with [reap] first. *)
Lemma expire_good key ttl now s : good d s -> good d (fst (expire key ttl now s)).
Proof using Laws Hd.
  intros G. unfold expire. pose proof (reap_good d Hd s key now G) as G1. destruct (reap key now s) as [s1 live].
  destruct live; [|exact G1]. cbn [negb fst] in *. destruct (kmap s1 !! key) as [sl|] eqn:Hk; [|exact G1].
  by apply (redate_good key sl).
Qed.

Lemma expire_at_good key ms now wall s : good d s -> good d (fst (expire_at_unix_ms key ms now wall s)).
Proof using Laws Hd.
  intros G. unfold expire_at_unix_ms. pose proof (reap_good d Hd s key now G) as G1. destruct (reap key now s) as [s1 live].
  destruct live; [|exact G1]. cbn [negb fst orb] in *. destruct (kmap s1 !! key) as [sl|] eqn:Hk; [|exact G1].
  destruct (_ <=? wall); cbn [fst]; [by apply take_entry_good | by apply (redate_good key sl)].
Qed.

Lemma persist_good key now s : good d s -> good d (fst (persist key now s)).
Proof using Laws Hd.
  intros G. unfold persist. pose proof (reap_good d Hd s key now G) as G1. destruct (reap key now s) as [s1 live].
  destruct live; [|exact G1]. cbn [negb fst] in *. destruct (kmap s1 !! key) as [sl|] eqn:Hk; [|exact G1].
  destruct (expire_at_ns (entry sl)) eqn:Hx; [|exact G1].
  pose proof (update_entry_good key None s1 sl G1 Hk) as U. unfold has_ttl in U. cbn in U. by rewrite Hx in U.
Qed.

Lemma take_good key now s : good d s -> good d (fst (take_with_ttl key now s)).
Proof using Laws Hd.
  intros G. unfold take_with_ttl, remove_entry. pose proof (reap_good d Hd s key now G) as G1.
  destruct (reap key now s) as [s1 live]. destruct live; [|exact G1]. cbn [negb fst] in *.
  pose proof (take_entry_good d Hd s1 key G1) as G2. by destruct (take_entry_keepalive key s1) as [s2 [o|]].
Qed.

Lemma rename_good src dst nx now s : good d s ->
  fits d (fst (rename_if src dst nx now s)) -> good d (fst (rename_if src dst nx now s)).
Proof using Laws Hd.
  intros G. unfold rename_if. pose proof (reap_good d Hd s src now G) as G1. destruct (reap src now s) as [s1 live].
  destruct live; [|done]. cbn [negb fst] in *. destruct (bool_decide (src = dst)); [done|].
  pose proof (reap_good d Hd s1 dst now G1) as G2.
  assert (M : forall s2, good d s2 ->
    let r := match take_entry_keepalive src s2 with
             | (s, None) => (s, NoSuchSrc)
             | (s, Some e) => (fst (insert_entry (from_vec (to_vec dst)) e (fst (remove_entry dst s))), Renamed)
             end in fits d (fst r) -> good d (fst r)).
  { intros s2 H2. pose proof (take_entry_good d Hd s2 src H2) as G3.
    destruct (take_entry_kmap src s2) as (_ & _ & R). destruct (take_entry_keepalive src s2) as [s3 o]. cbn [fst snd] in *. subst o.
    destruct (kmap s2 !! src) as [sl|] eqn:Hk; cbn; [|done]. apply insert_good; [by apply take_entry_good | | by apply from_vec_heap].
    by apply (slot_value_ok s2 src). }
  destruct nx; [destruct (reap dst now s1) as [s2 l]; destruct (l && _)|]; [done | by apply M | by apply M].
Qed.
End Drift.

(** FLUSHALL starts the accounting again. *)
Lemma flushall_good d s : good d s -> 0 <= d -> good 0 (flushall s).
Proof using Laws.
  intros [[H1 H2 H3 H4] F] Hd. unfold flushall, good, fits, total in *.
  assert (N : 0 <= msum slot_weight (kmap s)).
  { apply msum_nonneg. intros k sl Hk. by apply (slot_weight_nonneg (words_on s)), (H4 k). }
  split; [split|]; unfold total, gauge; cbn; rewrite ?clear_keeps_capacity, ?msum_empty; try lia.
  intros k sl Hk. by rewrite lookup_empty in Hk.
Qed.

(** ** Reachable stores *)

(** A store without a tier, configured and then driven by commands, while
    the bytes it accounts for stay within [i64]; the index is the drift. *)
Inductive reached : Z -> Store -> Prop :=
| reached_new : fits 0 store_new -> reached 0 store_new
| reached_limit d s m p : reached d s -> reached d (set_max_memory m p s)
| reached_refusal d s on : reached d s -> reached d (set_memory_refusal on s)
| reached_clock d s on now : reached d s -> reached d (set_cached_clock_on on now s)
| reached_capture d s mask : reached d s -> reached d (set_notify_capture mask s)
| reached_drain d s : reached d s -> reached d (fst (take_expired_keys s))
| reached_command d s c now at_ : reached d s -> command_ok c ->
    fits (drift_after c now d s) (fst (run_command c now at_ s)) ->
    reached (drift_after c now d s) (fst (run_command c now at_ s)).

Definition invariant (d : Z) (s : Store) : Prop := 0 <= d /\ good d s /\ entries_ok s.

Lemma invariant_core d s s' : invariant d s -> core s = core s' -> invariant d s'.
Proof.
  intros (Hd & G & O) C. split_and!; [exact Hd | by apply (good_core d s) |].
  intros k sl Hk. apply (O k). unfold core in C. injection C as -> _. exact Hk.
Qed.

Lemma replaced_text_nonneg d key delta now s : 0 <= d -> good d s -> 0 <= replaced_text key delta now s.
Proof using Laws.
  intros Hd G. unfold replaced_text. pose proof (live_entry_good d Hd s key now G) as G1.
  destruct (live_entry key now s) as [s1 [e|]] eqn:E; cbn [fst snd] in *; [|lia].
  destruct (live_entry_at key now s s1 e E) as [w Hk].
  pose proof (weight_nonneg _ (slot_value_ok d _ _ _ G1 Hk)) as W.
  destruct e as [[v|n|b|k x] at_]; cbn in W; try lia; destruct (incr_text _ _); lia.
Qed.

Lemma command_good d c now at_ s : 0 <= d -> good d s -> entries_ok s -> command_ok c ->
  fits (drift_after c now d s) (fst (run_command c now at_ s)) ->
  good (drift_after c now d s) (fst (run_command c now at_ s)).
Proof using Laws GL.
  intros Hd G O K.
  assert (R : forall A (f : A -> reply) (p : Store * A), fst (reply_with f p) = fst p) by (by intros A f [? ?]).
  destruct c; cbn [run_command drift_after command_ok] in *; rewrite ?R; cbn [fst].
  - intros _. unfold get. pose proof (live_good d Hd key now s G) as G1. by destruct (live_entry key now s) as [s1 [e|]].
  - intros _. unfold strlen, get. pose proof (live_good d Hd key now s G) as G1. by destruct (live_entry key now s) as [s1 [e|]].
  - destruct (pick_owned_spec v K) as (P1 & P2 & _). by apply set_value_good.
  - destruct (pick_spec v) as (P1 & P2 & _). by apply set_value_good.
  - by apply set_keep_good.
  - by apply incr_by_good.
  - by apply append_good.
  - by apply getset_good.
  - intros _. by apply getdel_good.
  - intros _. by apply del_good.
  - intros _. by apply exists_good.
  - intros _. by apply expire_good.
  - intros _. by apply expire_at_good.
  - intros _. by apply persist_good.
  - intros _. unfold pttl. pose proof (reap_good d Hd s key now G) as G1. destruct (reap key now s) as [s1 []]; cbn [negb]; [|done].
    destruct (kmap s1 !! key) as [sl|]; [cbn; destruct (expire_at_ns (entry sl))|]; exact G1.
  - intros _. unfold type_of. pose proof (reap_good d Hd s key now G) as G1. by destruct (reap key now s) as [s1 []].
  - intros _. pose proof (take_good d Hd key now s G) as G1. by destruct (take_with_ttl key now s).
  - intros _. unfold clone_with_ttl. pose proof (reap_good d Hd s key now G) as G1.
    destruct (reap key now s) as [s1 []]; cbn [negb]; [|done]. by destruct (kmap s1 !! key).
  - apply insert_good; [exact Hd | by apply take_entry_good | apply K | apply from_vec_heap, K].
  - destruct K. by apply put_keep_good.
  - by apply rename_good.
  - destruct K as [K1 K2]. destruct (pick_owned_spec v K2) as (P1 & _). by apply insert_good; [| | | apply from_vec_heap].
  - intros _. by apply (flushall_good d).
Qed.

Lemma reached_invariant d s : reached d s -> invariant d s.
Proof using Laws GL.
  induction 1 as [F | d s m p _ IH | d s on _ IH | d s on now _ IH | d s mask _ IH | d s _ IH
                 | d s c now at_ _ (Hd & G & O) K F]; try (by apply (invariant_core d s)).
  - split_and!; [lia | split; [|exact F] | intros k sl Hk; cbn in Hk; by rewrite lookup_empty in Hk].
    split; cbn; unfold total, gauge; cbn; rewrite ?msum_empty; try reflexivity; [symmetry; apply footprint_default |].
    intros k sl Hk. by rewrite lookup_empty in Hk.
  - apply (invariant_core d s _ IH). unfold set_cached_clock_on. by destruct on.
  - split_and!; [| by apply command_good | apply (sim_ok _ _ _ (proj1 (command_refines c now at_ s O K)))].
    destruct c; cbn [drift_after]; try exact Hd; [|lia]. pose proof (replaced_text_nonneg d key delta now s Hd G). lia.
Qed.
End Accounts.

(** C33: The memory gauge is exact up to the drift, and the TTL gauge is exact: in
    every store the commands reach, as long as its bytes fit an [i64], the keys
    handed over owned are no longer in memory than their length and collections
    weigh less than 4 GiB, [used_memory] is the bytes of the table plus the heap
    bytes of every key and value it holds plus the drift, [keyspace_bytes] is
    what the table occupies now, [expires] is the number of keys with a
    deadline, and the low half of every slot's side word is the weight of its
    collection, zero for any other value.  Only INCRBY on a text that owns heap
    bytes adds to the drift, by exactly that text's bytes. *)
Theorem accounting_is_exact `{Tab : TableShape} `{Grow : VecGrowth} {Laws : TableLaws Tab} {GL : VecGrowthLaws Grow}
  (d : Z) (s : Store) :
  reached d s ->
  0 <= d /\ used_memory s = keyspace_bytes s + total s + d /\
  keyspace_bytes s = footprint (capacity (shp s)) (words_on s) /\
  expires s = gauge s /\
  forall k sl, kmap s !! k = Some sl -> word_ok (words_on s) sl.
Proof.
  intros R. destruct (reached_invariant d s R) as (Hd & [[H1 H2 H3 H4] _] & _). split_and!; try done. intros k sl Hk. by apply (H4 k).
Qed.

(** ** What the drift is *)

Definition long_one : list byte := replicate 30 "0"%byte ++ bs "1".
Definition incr_demo : list timed :=
  [(SetSlice (bs "k") long_one None Always, (1, 1)); (IncrBy (bs "k") 1, (2, 2)); (Del [bs "k"], (3, 3))].

Lemma accounting_is_exact_witness :
  let s := fst (run_command (Del [bs "k"]) 3 3 (fst (run_command (IncrBy (bs "k") 1) 2 2
             (fst (run_command (SetSlice (bs "k") long_one None Always) 1 1 store_new))))) in
  reached 31 s /\ used_memory s = keyspace_bytes s + total s + 31.
Proof.
  cbv zeta. set (s := fst (run_command (Del _) _ _ _)).
  assert (R : reached 31 s).
  { subst s. apply (reached_command 31 _ (Del [bs "k"]) 3 3); [|exact I|vm_compute; discriminate].
    set (s1 := fst (run_command (SetSlice _ _ _ _) _ _ _)).
    assert (E : drift_after (IncrBy (bs "k") 1) 2 0 s1 = 31) by (vm_compute; reflexivity). rewrite <- E.
    apply (reached_command 0 s1 (IncrBy (bs "k") 1) 2 2); [|cbn; unfold i64_min, i64_max; lia|vm_compute; discriminate].
    apply (reached_command 0 _ (SetSlice (bs "k") long_one None Always) 1 1); [|exact I|vm_compute; discriminate].
    apply reached_new. vm_compute. discriminate. }
  split; [exact R | apply (accounting_is_exact 31 s R)].
Defined.

(** INCRBY forgets the text it replaces: after SET of a 31-byte numeric text,
    INCR and DEL, the store is empty and still accounts for the text's bytes,
    31 over what its table occupies. *)
Theorem incr_keeps_the_old_weight :
  let s := fst (run_commands incr_demo store_new) in
  dbsize s = 0 /\ used_memory s = footprint (capacity (shp s)) (words_on s) + blen long_one.
Proof. vm_compute. split; reflexivity. Qed.

(** A SET that finds the key's deadline passed does not announce it on the
    single-probe path, the one a store without a memory limit takes: SET with
    XX removes the key and leaves both the expired-key queue and the event
    queue as they were; on the other path the key is queued.  Other commands
    queue it on either path. *)
Theorem set_xx_expires_unannounced `{Tab : TableShape} `{Grow : VecGrowth} {Laws : TableLaws Tab}
  (key v : list byte) (ttl : option Z) (at_ now : Z) (s : Store) (sl : Slot) :
  kmap s !! key = Some sl -> is_expired (entry sl) now s = true ->
  let s' := fst (set_slice key v ttl IfPresent at_ now s) in
  kmap s' = delete key (kmap s) /\
  (if clock_on s then expired_keys s' = expired_keys s ++ [key]
   else expired_keys s' = expired_keys s /\ notify_events s' = notify_events s /\
        hfttl s' = hfttl s) /\
  expired_keys (fst (get key now s)) = expired_keys s ++ [key].
Proof.
  intros Hk X s'. subst s'. unfold set_slice, set_value, get.
  assert (E : live_entry key now s = (drop_expired key s, None)) by (unfold live_entry; by rewrite Hk, X).
  assert (Q : expired_keys (drop_expired key s) = expired_keys s ++ [key]).
  { unfold drop_expired, remove_entry, take_entry_keepalive, remove_with_word, note_expired.
    destruct (captures _ _); cbn; rewrite Hk; cbn; by destruct (expire_at_ns (entry sl)). }
  rewrite E. cbn [fst]. destruct (clock_on s); cbn [negb].
  - unfold set_value_evict. rewrite E. split_and!; [apply drop_expired_kmap | exact Q | exact Q].
  - unfold set_value_no_evict, set_probe_no_evict. rewrite Hk, X. cbn [fst].
    unfold note_expired_removed, remove_with_word. rewrite Hk. cbn. destruct (expire_at_ns (entry sl)); by split_and!.
Qed.

Lemma set_xx_expires_unannounced_witness :
  let s := fst (run_command (SetSlice (bs "k") (bs "v") (Some 5) Always) 1 1 store_new) in
  kmap (fst (set_slice (bs "k") (bs "w") None IfPresent 9 9 s)) = delete (bs "k") (kmap s) /\
  expired_keys (fst (set_slice (bs "k") (bs "w") None IfPresent 9 9 s)) = [].
Proof.
  cbv zeta. set (s := fst (run_command _ _ _ _)).
  assert (C : clock_on s = false) by (vm_compute; reflexivity).
  assert (N : expired_keys s = []) by (vm_compute; reflexivity).
  pose proof (set_xx_expires_unannounced (bs "k") (bs "w") None 9 9 s
    (mkSlot (mkEntry (Str (from_slice (bs "v"))) (Some 6)) 0) ltac:(vm_compute; reflexivity) ltac:(vm_compute; reflexivity)) as X.
  cbv zeta in X. rewrite C in X. clearbody s. destruct X as (A & [B _] & _). split; [exact A|]. by rewrite B.
Defined.
