(* ===== verification/StoreTable.v ===== *)
(** * The keyspace on its table ([crates/kevy-store/src], [crates/kevy-map/src])

    [Store] keeps what its table holds and what the table occupies apart.
    Here the two meet: the commands move the table only through its own
    operations, in step with the keys they store and drop, so in every store
    they reach the table of [MapTable] holds exactly the keyspace's keys and
    the memory gauge is what that table occupies plus what the entries own. *)

From Stdlib Require Import ZArith Lia Bool Strings.Byte Strings.String.
From stdpp Require Import base list gmap.
From S2P Require Import Prelude Utf8 Encode Hash Map MapSpec MapScan MapTable.
From S2P Require Import StoreUtil Store StoreString StoreSpec StoreRefine StoreCommands StoreAccounts.

#[local] Open Scope list_scope.
#[local] Open Scope Z_scope.

Section Moves.
Context `{Tab : TableShape} `{Grow : VecGrowth} {Laws : TableLaws Tab}.

(** ** How a command may move the keys and the table *)

Inductive moves : Store -> Store -> Prop :=
| moves_none s s' : dom (kmap s') = dom (kmap s) -> shp s' = shp s -> moves s s'
| moves_insert s s' k : dom (kmap s') = {[k]} ∪ dom (kmap s) -> shp s' = shape_insert k (shp s) -> moves s s'
| moves_remove s s' k : dom (kmap s') = dom (kmap s) ∖ {[k]} -> shp s' = shape_remove k (shp s) -> moves s s'
| moves_clear s s' : kmap s' = ∅ -> shp s' = shape_clear (shp s) -> moves s s'
| moves_then s s1 s' : moves s s1 -> moves s1 s' -> moves s s'.

Lemma moves_id s : moves s s.
Proof. by apply moves_none. Qed.

Lemma moves_eq s s' : kmap s' = kmap s -> shp s' = shp s -> moves s s'.
Proof. intros E. apply moves_none. by rewrite E. Qed.

(** An entry rewritten where it is. *)
Lemma dom_put (m : gmap (list byte) Slot) k sl x : m !! k = Some sl -> dom (<[k := x]> m) = dom m.
Proof. intros Hk. rewrite dom_insert_L. apply subseteq_union_1_L, singleton_subseteq_l, elem_of_dom. by exists sl. Qed.

Lemma update_word_moves key f s : moves s (update_word key f s).
Proof. unfold update_word. destruct (words_on s); [|apply moves_id]. apply moves_none; [apply dom_alter_L | done]. Qed.

Lemma update_entry_moves key f s : moves s (update_entry key f s).
Proof. apply moves_none; [apply dom_alter_L | done]. Qed.

Lemma keep_words_moves s : moves s (keep_words s).
Proof. apply moves_eq; apply keep_words_kmap. Qed.

Lemma adjust_moves t s : moves s (adjust_expires t s).
Proof. unfold adjust_expires. destruct (t =? 0); by apply moves_eq. Qed.

Lemma peak_moves s : moves s (update_peak s).
Proof. unfold update_peak. destruct (_ <? _); by apply moves_eq. Qed.

Lemma weight_delta_moves d s : moves s (apply_weight_delta d s).
Proof.
  unfold apply_weight_delta. destruct (0 <? d); [|by apply moves_eq].
  apply (moves_then _ (set_used_memory (apply_delta (used_memory s) d) s)); [by apply moves_eq | apply peak_moves].
Qed.

Lemma note_expired_moves key s : moves s (note_expired key s).
Proof. unfold note_expired. destruct (captures _ _); by apply moves_eq. Qed.

Lemma reweigh_moves key old s : moves s (reweigh key old s).
Proof.
  unfold reweigh. destruct (kmap s !! key) as [sl|]; [|apply moves_id]. cbv zeta.
  set (s1 := if kept _ then _ else s). assert (M1 : moves s s1) by (subst s1; destruct (kept _); [apply keep_words_moves | apply moves_id]).
  set (s2 := update_word _ _ s1). apply (moves_then _ s2); [apply (moves_then _ s1 _ M1), update_word_moves|].
  destruct (0 <? _); [|by apply moves_eq].
  match goal with |- moves _ (update_peak ?x) => apply (moves_then _ x); [by apply moves_eq | apply peak_moves] end.
Qed.

(** ** The primitives *)

Lemma insert_entry_shape k e s : let s' := fst (insert_entry k e s) in
  (exists w, kmap s' = <[sb_bytes k := mkSlot e w]> (kmap s)) /\ shp s' = shape_insert (sb_bytes k) (shp s).
Proof.
  unfold insert_entry. cbn zeta. set (key := sb_bytes k). set (s0 := clear_hash_key_ttls key s).
  destruct (if clock_on s0 then (tick_clock s0, Some (clock_counter (tick_clock s0) mod 2 ^ 32)) else (s0, None))
    as [s1 clock] eqn:E1.
  assert (M1 : kmap s1 = kmap s /\ shp s1 = shp s) by (destruct (clock_on s0); injection E1 as <- <-; done).
  match goal with |- context [commit_insert _ _ _ _ ?c ?x] => set (s2 := x); set (copy := c) end.
  assert (M2 : kmap s2 = kmap s /\ shp s2 = shp s).
  { subst s2. destruct (_ || _); [|exact M1]. destruct (keep_words_kmap s1) as [-> ->]. exact M1. }
  destruct M2 as [<- <-]. apply (commit_insert_shape key (heap_bytes k) e clock copy s2).
Qed.

Lemma insert_entry_moves k e s : moves s (fst (insert_entry k e s)).
Proof.
  destruct (insert_entry_shape k e s) as [[w E] F]. apply (moves_insert _ _ (sb_bytes k)); [|exact F].
  by rewrite E, dom_insert_L.
Qed.

Lemma take_entry_moves key s : moves s (fst (take_entry_keepalive key s)).
Proof.
  unfold take_entry_keepalive, remove_with_word. cbn. destruct (kmap s !! key) as [sl|]; cbn; [|by apply moves_eq].
  apply (moves_remove _ _ key); destruct (expire_at_ns (entry sl)); cbn; try done; apply dom_delete_L.
Qed.

Lemma note_removed_moves key s : moves s (note_expired_removed key s).
Proof.
  unfold note_expired_removed, remove_with_word. destruct (kmap s !! key) as [sl|]; [|apply moves_id].
  apply (moves_remove _ _ key); cbn; destruct (expire_at_ns (entry sl)); cbn; try done; apply dom_delete_L.
Qed.

Lemma drop_expired_moves key s : moves s (drop_expired key s).
Proof.
  apply (moves_then _ (note_expired key s)); [apply note_expired_moves|].
  apply (moves_then _ (fst (remove_entry key (note_expired key s)))); [apply take_entry_moves | by apply moves_eq].
Qed.

Lemma reap_moves key now s : moves s (fst (reap key now s)).
Proof. unfold reap. destruct (expired key now s); [apply drop_expired_moves | apply moves_id]. Qed.

Lemma touch_moves key s : moves s (touch_slot key s).
Proof.
  unfold touch_slot. cbv zeta. apply (moves_then _ (keep_words (tick_clock s))); [|apply update_word_moves].
  apply (moves_then _ (tick_clock s)); [by apply moves_eq | apply keep_words_moves].
Qed.

Lemma live_moves key now s : moves s (fst (live_entry key now s)).
Proof.
  unfold live_entry. destruct (kmap s !! key) as [sl|]; [|apply moves_id]. destruct (is_expired _ _ _); [apply drop_expired_moves|].
  cbn. destruct (clock_on s); [apply touch_moves | apply moves_id].
Qed.

Lemma redate_moves key x s : moves s (redate key x s).
Proof.
  unfold redate. destruct (kmap s !! key); [|apply moves_id]. cbv zeta.
  eapply moves_then; [apply update_entry_moves | apply adjust_moves].
Qed.

Lemma overwrite_moves key sl v x s : kmap s !! key = Some sl -> moves s (overwrite_slot key sl v x s).
Proof.
  intros Hk. unfold overwrite_slot. destruct (overwrite_in_place _ _ _ _) as [[sl' delta] t].
  eapply moves_then; [|apply adjust_moves]. eapply moves_then; [|apply weight_delta_moves].
  apply moves_none; [by apply (dom_put _ _ sl) | done].
Qed.
End Moves.

Create HintDb moves.
#[export] Hint Resolve insert_entry_moves take_entry_moves note_removed_moves drop_expired_moves reap_moves
  live_moves redate_moves overwrite_moves reweigh_moves update_entry_moves adjust_moves : moves.

(** The state a lookup left, with the move to it. *)
Ltac after_live key now s := pose proof (live_moves key now s) as L; destruct (live_entry key now s) as [s1 [e|]] eqn:El; cbn [fst] in L.
Ltac after_reap key now s := pose proof (reap_moves key now s) as L; destruct (reap key now s) as [s1 []] eqn:El; cbn [fst negb andb] in L |- *.
(** The outermost operation goes first. *)
Ltac onwards := cbn [fst]; repeat first [assumption | apply moves_id | eapply moves_then; [|solve [eauto 2 with moves]]].

Section Commands.
Context `{Tab : TableShape} `{Grow : VecGrowth} {Laws : TableLaws Tab}.

(** ** The commands *)

Lemma set_evict_moves key v ttl cond at_ now s : moves s (fst (set_value_evict key v ttl cond at_ now s)).
Proof using Laws.
  unfold set_value_evict. after_live key now s; [|destruct cond; onwards].
  destruct (kmap s1 !! key) as [sl|] eqn:Hk; destruct cond; onwards.
Qed.

Lemma set_no_evict_moves key v ttl cond at_ now s : moves s (fst (set_value_no_evict key v ttl cond at_ now s)).
Proof using Laws.
  unfold set_value_no_evict, set_probe_no_evict. destruct (kmap s !! key) as [sl|] eqn:Hk; [|destruct cond; onwards].
  destruct (is_expired _ _ _); destruct cond; onwards.
Qed.

Lemma set_value_moves key v ttl cond at_ now s : moves s (fst (set_value key v ttl cond at_ now s)).
Proof using Laws. unfold set_value. destruct (negb _); [apply set_no_evict_moves | apply set_evict_moves]. Qed.

Lemma put_keep_moves key v now s : moves s (put_keep_ttl key v now s).
Proof using Laws. unfold put_keep_ttl. after_live (vec_bytes key) now s; cbv zeta; unfold remove_entry; onwards. Qed.

Lemma set_keep_moves key v now now' s : moves s (set_slice_keep_ttl key v now now' s).
Proof using Laws.
  unfold set_slice_keep_ttl. destruct (clock_on s); [apply put_keep_moves|].
  after_live key now s; cbv zeta; pose proof (set_value_moves key (pick_value_for_set v) None Always now' now' s1) as M.
  - destruct (Some e ≫= expire_at_ns); [destruct (kmap _ !! key)|]; onwards.
  - onwards.
Qed.

Lemma incr_moves key delta now s : moves s (fst (incr_by key delta now s)).
Proof using Laws.
  unfold incr_by. after_live key now s; [|onwards]. destruct (value e); cbn [fst]; try exact L.
  - destruct (incr_text _ _); unfold reweigh_entry, set_entry_value; onwards.
  - destruct (checked_i64 _); unfold set_entry_value; onwards.
  - destruct (incr_text _ _); unfold reweigh_entry, set_entry_value; onwards.
Qed.

Lemma append_moves key data now s : moves s (fst (append key data now s)).
Proof using Laws.
  unfold append. after_live key now s; [|onwards]. destruct (value e); cbn [fst]; try exact L.
  - unfold reweigh_scalar, set_entry_value. onwards.
  - destruct (format_i64_into n); unfold reweigh_scalar, set_entry_value; onwards.
  - unfold reweigh_scalar, set_entry_value. onwards.
Qed.

Lemma getset_moves key v now s : moves s (fst (getset key v now s)).
Proof using Laws. unfold getset. after_live key now s; [destruct (result_map _ _)|]; onwards. Qed.

Lemma getdel_moves key now s : moves s (fst (getdel key now s)).
Proof using Laws.
  unfold getdel. after_live key now s; [|onwards].
  assert (M : moves s (fst (remove_entry key s1))) by (unfold remove_entry; onwards).
  destruct (value e); try exact L; destruct (remove_entry key s1) as [s2 [old|]]; try exact M; by destruct (value old).
Qed.

Lemma del_moves keys now : forall s, moves s (fst (del keys now s)).
Proof using Laws.
  induction keys as [|k r IH]; intros s; cbn [del]; [onwards|]. after_reap k now s.
  - pose proof (take_entry_moves k s1) as T. unfold remove_entry. destruct (take_entry_keepalive k s1) as [s2 old]. cbn [fst] in T.
    specialize (IH s2). destruct (del r now s2). onwards.
  - specialize (IH s1). destruct (del r now s1). onwards.
Qed.

Lemma exists_moves keys : forall s, moves s (fst (exists_ keys s)).
Proof using Laws.
  induction keys as [|[k now] r IH]; intros s; cbn [exists_]; [onwards|].
  after_live k now s; specialize (IH s1); destruct (exists_ r s1); onwards.
Qed.

Lemma expire_moves key ttl now s : moves s (fst (expire key ttl now s)).
Proof using Laws. unfold expire. after_reap key now s; [|exact L]. destruct (kmap s1 !! key); onwards. Qed.

Lemma expire_at_moves key ms now wall s : moves s (fst (expire_at_unix_ms key ms now wall s)).
Proof using Laws.
  unfold expire_at_unix_ms. after_reap key now s; [|exact L]. destruct (kmap s1 !! key); cbn [orb]; [|exact L].
  destruct (_ <=? wall); unfold remove_entry; onwards.
Qed.

Lemma persist_moves key now s : moves s (fst (persist key now s)).
Proof using Laws.
  unfold persist. after_reap key now s; [|exact L]. destruct (kmap s1 !! key) as [sl|]; [|exact L].
  destruct (expire_at_ns (entry sl)); onwards.
Qed.

Lemma take_moves key now s : moves s (fst (take_with_ttl key now s)).
Proof using Laws.
  unfold take_with_ttl. after_reap key now s; [|exact L]. pose proof (take_entry_moves key s1) as T. unfold remove_entry.
  destruct (take_entry_keepalive key s1) as [s2 [old|]]; onwards.
Qed.

Lemma rename_moves src dst nx now s : moves s (fst (rename_if src dst nx now s)).
Proof using Laws.
  unfold rename_if. after_reap src now s; [|exact L]. destruct (bool_decide (src = dst)); [exact L|].
  set (p := if nx then _ else (s1, false)). assert (P : moves s (fst p)).
  { subst p. destruct nx; [|exact L]. pose proof (reap_moves dst now s1). destruct (reap dst now s1). onwards. }
  destruct p as [s2 []]; [exact P|]. cbn [fst] in P. pose proof (take_entry_moves src s2) as T.
  destruct (take_entry_keepalive src s2) as [s3 [old|]]; unfold remove_entry; onwards.
Qed.

Lemma command_moves c now at_ s : moves s (fst (run_command c now at_ s)).
Proof using Laws.
  assert (R : forall A (f : A -> reply) (p : Store * A), fst (reply_with f p) = fst p) by (by intros A f [? ?]).
  destruct c; cbn [run_command]; rewrite ?R; cbn [fst];
    first [ apply set_value_moves | apply set_keep_moves | apply incr_moves | apply append_moves | apply getset_moves | apply getdel_moves
          | apply del_moves | apply exists_moves | apply expire_moves | apply expire_at_moves | apply persist_moves | apply put_keep_moves
          | apply rename_moves | idtac ].
  - unfold get. after_live key now s; onwards.
  - unfold strlen, get. after_live key now s; onwards.
  - unfold pttl. after_reap key now s; [|exact L]. destruct (_ ≫= _); exact L.
  - unfold type_of. after_reap key now s; exact L.
  - pose proof (take_moves key now s). by destruct (take_with_ttl key now s).
  - unfold clone_with_ttl. after_reap key now s; [|exact L]. destruct (kmap s1 !! key); exact L.
  - unfold put_with_ttl, remove_entry. onwards.
  - unfold load_str, insert_loaded. onwards.
  - by apply moves_clear.
Qed.
End Commands.

Section Invariants.
Context `{Tab : TableShape} `{Grow : VecGrowth} {Laws : TableLaws Tab}.

(** ** What the table keeps *)

(** A property of the keys and the table that the table's operations keep. *)
Context (P : gset (list byte) -> shape -> Prop).
Context (P_insert : forall k ks sh, P ks sh -> P ({[k]} ∪ ks) (shape_insert k sh)).
Context (P_remove : forall k ks sh, P ks sh -> P (ks ∖ {[k]}) (shape_remove k sh)).
Context (P_clear : forall ks sh, P ks sh -> P ∅ (shape_clear sh)).

Lemma moves_keep s s' : moves s s' -> P (dom (kmap s)) (shp s) -> P (dom (kmap s')) (shp s').
Proof using P_insert P_remove P_clear.
  induction 1 as [s s' E F|s s' k E F|s s' k E F|s s' E F|s s1 s' _ IH1 _ IH2]; intros H; [rewrite E, F; auto.. | |auto].
  rewrite E, F, dom_empty_L. by apply (P_clear (dom (kmap s))).
Qed.

Lemma reached_keep d s : P ∅ shape_default -> reached d s -> P (dom (kmap s)) (shp s).
Proof using P_insert P_remove P_clear Laws.
  intros H0. induction 1 as [F | d s m p _ IH | d s on _ IH | d s on now _ IH | d s mask _ IH | d s _ IH | d s c now at_ _ IH K F];
    try exact IH.
  - cbn. by rewrite dom_empty_L.
  - unfold set_cached_clock_on. by destruct on.
  - exact (moves_keep _ _ (command_moves c now at_ s) IH).
Qed.
End Invariants.


(** Twenty keys are two tables: the second of 32 slots, with its lane. *)
Definition many : list timed :=
  (fun i => (SetSlice (int_text (Z.of_nat i)) (bs "v") None Always, (1, 1))) <$> seq 0 20.

Fixpoint reach_all (cs : list timed) (s : Store) : bool :=
  match cs with
  | [] => true
  | (c, (now, at_)) :: r =>
      let s' := fst (run_command c now at_ s) in (footprint (capacity (shp s')) true + total s' <=? i64_max) && reach_all r s'
  end.

Lemma sets_reach cs : forall s, reached 0 s -> Forall (fun t => match fst t with SetSlice _ _ _ _ => True | _ => False end) cs ->
  reach_all cs s = true -> reached 0 (fst (run_commands cs s)).
Proof.
  induction cs as [|[c [now at_]] r IH]; intros s R F A; cbn [run_commands]; [exact R|].
  apply Forall_cons in F as [Fc Fr]. cbn [reach_all] in A. apply andb_true_iff in A as [A1 A2]. apply Z.leb_le in A1.
  destruct c; try contradiction. cbn [fst] in *.
  specialize (IH (fst (run_command (SetSlice key v ttl cond) now at_ s))).
  destruct (run_command (SetSlice key v ttl cond) now at_ s) as [s1 x] eqn:E. cbn [fst] in *.
  assert (R1 : reached 0 s1).
  { replace s1 with (fst (run_command (SetSlice key v ttl cond) now at_ s)) by (by rewrite E).
    apply (reached_command 0 s (SetSlice key v ttl cond) now at_ R I). rewrite E. unfold fits. cbn [fst drift_after]. lia. }
  specialize (IH R1 Fr A2). by destruct (run_commands r s1).
Qed.

