(* ===== verification/Huff.v ===== *)
(** * The entropy layer of kevy-compress ([crates/kevy-compress/src/huff.rs])

    Literals are coded with a canonical Huffman code whose lengths, at most
    twelve bits each, travel as 128 packed bytes.  The writer appends each
    code bit-reversed to an LSB-first stream; the reader looks the next twelve
    bits up in a flat table of 4096 entries.

    A [[u8; 256]] or [[u64; 256]] is a list of 256 numbers.  [decoding] is
    [Result<_, DecodeError>] with one more constructor for a panic.

    A code owns an interval of the 4096 twelve-bit words: [lo] is its left
    end.  The canonical assignment lays the intervals out in the order of
    lengths and symbols, so they are disjoint when the Kraft sum is in budget
    ([claimed_once]), the flat table holds each code where the reader looks
    for it ([entry_of_code]), and reading gives back what was written
    ([read_back]). *)

From Stdlib Require Import ZArith Lia Bool Strings.Byte Strings.String.
From stdpp Require Import base tactics list numbers.
From S2P Require Import Prelude FindCrlf Buffers.

#[local] Open Scope list_scope.
#[local] Open Scope Z_scope.

(** ** Results *)

Inductive decoding (A : Type) : Type :=
| Decoded (a : A)       (* [Ok(a)] *)
| DecodeError           (* [Err(DecodeError)] *)
| Crashed.              (* a panic *)
Arguments Decoded {A} a.
Arguments DecodeError {A}.
Arguments Crashed {A}.

#[global] Instance decoding_bind : MBind decoding := fun A B f m =>
  match m with
  | Decoded a => f a
  | DecodeError => DecodeError
  | Crashed => Crashed
  end.

(** [o.ok_or(DecodeError)?] *)
Definition or_corrupt {A} (o : option A) : decoding A :=
  match o with Some x => Decoded x | None => DecodeError end.

(** [if bad { return Err(DecodeError) }] *)
Definition reject (bad : bool) : decoding unit := if bad then DecodeError else Decoded tt.

(** A panicking expression inside a decoder. *)
Definition run {A} (m : exec A) : decoding A :=
  match m with Ret a => Decoded a | Panic => Crashed end.

(** ** Code lengths *)

Definition MAX_LEN : Z := 12.
Definition HEADER_LEN : Z := 128.

(** [for &b in input { hist[b as usize] += 1; }] *)
Fixpoint count_bytes (input : list byte) (hist : list Z) : list Z :=
  match input with
  | [] => hist
  | b :: r => count_bytes r (alter (Z.add 1) (Z.to_nat (bz b)) hist)
  end.

(** A worklist node: its count and its symbols. *)
Definition node : Type := Z * list Z.

(** The initial worklist: one node per symbol that occurs, in symbol order. *)
Fixpoint leaves (s : Z) (hist : list Z) : list node :=
  match hist with
  | [] => []
  | c :: r => if 0 <? c then (c, [s]) :: leaves (s + 1) r else leaves (s + 1) r
  end.

(** [nodes.sort_by_key(|(c, _)| Reverse(c))]: stable, descending. *)
Fixpoint sorted_in (n : node) (l : list node) : list node :=
  match l with
  | [] => [n]
  | m :: r => if m.1 <=? n.1 then n :: l else m :: sorted_in n r
  end.

Definition sort_nodes (l : list node) : list node := foldr sorted_in [] l.

(** [lens[s as usize] += 1] on a [u8]. *)
Definition bump (lens : list Z) (s : Z) : exec (list Z) :=
  l ← index lens s;
  if 255 <=? l then Panic else Ret (<[Z.to_nat s := l + 1]> lens).

Fixpoint bump_all (syms : list Z) (lens : list Z) : exec (list Z) :=
  match syms with
  | [] => Ret lens
  | s :: r => lens ← bump lens s; bump_all r lens
  end.

(** [while nodes.len() > 1] *)
Fixpoint pair_nodes (fuel : nat) (nodes : list node) (lens : list Z) : exec (list Z) :=
  if (length nodes <=? 1)%nat then Ret lens
  else
    match fuel with
    | O => Panic
    | S f =>
        match rev (sort_nodes nodes) with
        | (ca, syms_a) :: (cb, syms_b) :: rest =>
            lens ← bump_all (syms_a ++ syms_b) lens;
            pair_nodes f (rev rest ++ [(ca + cb, syms_a ++ syms_b)]) lens
        | _ => Panic
        end
    end.

(** [if l > MAX_LEN { l = MAX_LEN }] *)
Definition clamp (l : Z) : Z := Z.min l MAX_LEN.

(** [1 << (MAX_LEN - l)] for a length in use *)
Definition share (l : Z) : Z := if 0 <? l then Z.shiftl 1 (MAX_LEN - l) else 0.

Definition kraft_sum (lens : list Z) : Z := foldr (fun l acc => share l + acc) 0 lens.

(** [(0..256).filter(..).max_by_key(|&s| lens[s])]: the last of the deepest. *)
Fixpoint deepest (s : Z) (lens : list Z) (best : option (Z * Z)) : option Z :=
  match lens with
  | [] => fst <$> best
  | l :: r =>
      let best' :=
        if (0 <? l) && (l <? MAX_LEN) then
          match best with
          | Some (_, bl) => if bl <=? l then Some (s, l) else best
          | None => Some (s, l)
          end
        else best in
      deepest (s + 1) r best'
  end.

(** [while kraft > budget] *)
Fixpoint rebalance (fuel : nat) (kraft : Z) (lens : list Z) : exec (list Z) :=
  if kraft <=? Z.shiftl 1 MAX_LEN then Ret lens
  else
    match fuel with
    | O => Panic
    | S f =>
        s ← expect (deepest 0 lens None);
        l ← index lens s;
        rebalance f (kraft - share l + share (l + 1)) (<[Z.to_nat s := l + 1]> lens)
    end.

Definition code_lengths (hist : list Z) : exec (list Z) :=
  let nodes := leaves 0 hist in
  let lens := replicate 256 0 in
  match nodes with
  | [(_, s :: _)] => Ret (<[Z.to_nat s := 1]> lens)
  | _ =>
      lens ← pair_nodes (length nodes) nodes lens;
      let lens := clamp <$> lens in
      let kraft := kraft_sum lens in
      rebalance (Z.to_nat kraft) kraft lens
  end.

(** ** Canonical codes *)

(** One turn of the loop over symbols, for the length [bits]. *)
Fixpoint code_row (bits : Z) (lens codes : list Z) (next : Z) : list Z * Z :=
  match lens, codes with
  | l :: lens', c :: codes' =>
      if l =? bits then
        let '(r, n) := code_row bits lens' codes' (next + 1) in (next mod 2 ^ 16 :: r, n)
      else let '(r, n) := code_row bits lens' codes' next in (c :: r, n)
  | _, _ => (codes, next)
  end.

(** [for bits in 1..=MAX_LEN] *)
Fixpoint code_rows (rows : nat) (bits : Z) (lens codes : list Z) (next : Z) : list Z :=
  match rows with
  | O => codes
  | S n =>
      let '(codes, next) := code_row bits lens codes next in
      code_rows n (bits + 1) lens codes (Z.shiftl next 1 mod 2 ^ 32)
  end.

Definition canonical_codes (lens : list Z) : list Z :=
  code_rows (Z.to_nat MAX_LEN) 1 lens (replicate 256 0) 0.

(** [for i in 0..len { r |= ((code >> i) & 1) << (len - 1 - i); }] *)
Fixpoint reverse_loop (n : nat) (i code len r : Z) : Z :=
  match n with
  | O => r
  | S n' =>
      reverse_loop n' (i + 1) code len
        (Z.lor r (Z.shiftl (Z.land (Z.shiftr code i) 1) (len - 1 - i)))
  end.

Definition reverse (code len : Z) : Z := reverse_loop (Z.to_nat len) 0 code len 0.

(** ** Writing *)

(** [None] when a symbol that occurs has no code. *)
Fixpoint cost_bits (hist lens : list Z) : option Z :=
  match hist, lens with
  | c :: hist', l :: lens' =>
      if 0 <? c then
        if l =? 0 then None else bits ← cost_bits hist' lens'; Some (c * l + bits)
      else cost_bits hist' lens'
  | _, _ => Some 0
  end.

(** [while nbits >= 8] *)
Fixpoint flush (n : nat) (acc nbits : Z) : list byte * Z * Z :=
  match n with
  | O => ([], acc, nbits)
  | S n' => let '(out, a, k) := flush n' (Z.shiftr acc 8) (nbits - 8) in (zb acc :: out, a, k)
  end.

Fixpoint write_loop (input : list byte) (codes lens : list Z) (acc nbits : Z) : list byte :=
  match input with
  | [] => if 0 <? nbits then [zb acc] else []
  | b :: r =>
      let code := codes !!! Z.to_nat (bz b) in
      let len := lens !!! Z.to_nat (bz b) in
      let acc := Z.lor acc (Z.shiftl (reverse code len) nbits) in
      let nbits := nbits + len in
      let '(out, acc, nbits) := flush (Z.to_nat (nbits / 8)) acc nbits in
      out ++ write_loop r codes lens acc nbits
  end.

Definition write_bits (input : list byte) (lens : list Z) : list byte :=
  write_loop input (canonical_codes lens) lens 0 0.

(** [for pair in lens.as_chunks::<2>().0 { out.push(pair[0] | (pair[1] << 4)); }] *)
Fixpoint pack_lens (lens : list Z) : list byte :=
  match lens with
  | a :: b :: r => zb (Z.lor a (Z.shiftl b 4)) :: pack_lens r
  | _ => []
  end.

(** [lens[i * 2] = b & 0x0f; lens[i * 2 + 1] = b >> 4;] *)
Definition unpack_lens (header : list byte) : list Z :=
  flat_map (fun b => [Z.land (bz b) 15; Z.shiftr (bz b) 4]) header.

(** [a.div_ceil(8)] *)
Definition div_ceil8 (a : Z) : Z := (a + 7) / 8.

Definition huff_encode (input : list byte) : exec (option (list byte)) :=
  if bool_decide (input = []) then Ret None
  else
    let hist := count_bytes input (replicate 256 0) in
    lens ← code_lengths hist;
    match cost_bits hist lens with
    | None => Ret None
    | Some coded_bits =>
        let total := HEADER_LEN + div_ceil8 coded_bits in
        if blen input <=? total then Ret None
        else Ret (Some (pack_lens lens ++ write_bits input lens))
    end.

(** ** Reading *)

Definition validate_lens (lens : list Z) (n : Z) : bool :=
  forallb (fun l => l <=? MAX_LEN) lens &&
  (kraft_sum lens <=? Z.shiftl 1 MAX_LEN) && negb ((0 <? n) && (kraft_sum lens =? 0)).

(** [while ix < (1 << MAX_LEN) { table[ix] = entry; ix += step; }] *)
Fixpoint fill (n : nat) (ix step : Z) (entry : Z * Z) (table : list (Z * Z)) : list (Z * Z) :=
  match n with
  | O => table
  | S n' =>
      if ix <? Z.shiftl 1 MAX_LEN then fill n' (ix + step) step entry (<[Z.to_nat ix := entry]> table)
      else table
  end.

(** [for s in 0..256] *)
Fixpoint place_codes (s : Z) (lens codes : list Z) (table : list (Z * Z)) : list (Z * Z) :=
  match lens, codes with
  | l :: lens', c :: codes' =>
      place_codes (s + 1) lens' codes'
        (if l =? 0 then table
         else fill (Z.to_nat (Z.shiftl 1 MAX_LEN)) (reverse c l) (Z.shiftl 1 l) (s, l) table)
  | _, _ => table
  end.

Definition build_decode_table (lens : list Z) : list (Z * Z) :=
  place_codes 0 lens (canonical_codes lens) (replicate (Z.to_nat (Z.shiftl 1 MAX_LEN)) (0, 0)).

(** [while nbits < MAX_LEN && pos < stream.len()], the stream as what is left
    of it *)
Fixpoint refill (stream : list byte) (acc nbits : Z) : list byte * Z * Z :=
  match stream with
  | b :: r =>
      if nbits <? MAX_LEN then refill r (Z.lor acc (Z.shiftl (bz b) nbits)) (nbits + 8)
      else (stream, acc, nbits)
  | [] => ([], acc, nbits)
  end.

(** [a.saturating_mul(b).saturating_add(c)] on a [usize] *)
Definition sat_mul_add (a b c : Z) : Z := Z.min (Z.min (a * b) u64_max + c) u64_max.

(** What is reserved for [n] symbols of a stream. *)
Definition symbols_fit (n stream_len : Z) : Z := Z.min n (sat_mul_add stream_len 8 64).

(** [for _ in 0..n] *)
Fixpoint read_loop (n : nat) (stream : list byte) (table : list (Z * Z)) (acc nbits : Z) :
  decoding (list byte * Z) :=
  match n with
  | O => Decoded ([], 0)
  | S n' =>
      let '(stream, acc, nbits) := refill stream acc nbits in
      entry ← run (index table (Z.land acc (Z.shiftl 1 MAX_LEN - 1)));
      let '(sym, l) := entry : Z * Z in
      _ ← reject ((l =? 0) || (nbits <? l));
      rest ← read_loop n' stream table (Z.shiftr acc l) (nbits - l);
      let '(out, used) := rest : list byte * Z in
      Decoded (zb sym :: out, l + used)
  end.

Definition read_bits_with (stream : list byte) (table : list (Z * Z)) (n : Z) :
  decoding (list byte * Z) := read_loop (Z.to_nat n) stream table 0 0.

Definition read_bits (stream : list byte) (lens : list Z) (n : Z) : decoding (list byte * Z) :=
  read_bits_with stream (build_decode_table lens) n.

Definition huff_decode (buf : list byte) (n : Z) : decoding (list byte * Z) :=
  _ ← reject (blen buf <? HEADER_LEN);
  let lens := unpack_lens (slice buf 0 HEADER_LEN) in
  _ ← reject (negb (validate_lens lens n));
  r ← read_bits (from buf HEADER_LEN) lens n;
  let '(out, used_bits) := r : list byte * Z in
  Decoded (out, HEADER_LEN + div_ceil8 used_bits).

(** ** Reversing bits *)

Lemma reverse_loop_testbit n : forall i code len r j,
  0 <= i -> i + Z.of_nat n = len -> 0 <= j ->
  Z.testbit (reverse_loop n i code len r) j =
  Z.testbit r j || ((j <? len - i) && Z.testbit code (len - 1 - j)).
Proof.
  induction n as [|n IH]; intros i code len r j Hi Hn Hj; cbn [reverse_loop].
  - destruct (Z.ltb_spec j (len - i)); [lia|]. by rewrite orb_false_r.
  - rewrite IH, Z.lor_spec, Z.shiftl_spec by lia.
    destruct (decide (j = len - 1 - i)) as [->|Hne].
    + replace (len - 1 - i - (len - 1 - i)) with 0 by lia.
      rewrite Z.land_spec, Z.shiftr_spec by lia. cbn [Z.testbit Z.odd].
      replace (len - 1 - (len - 1 - i)) with i by lia. rewrite Z.add_0_l, andb_true_r.
      destruct (Z.ltb_spec (len - 1 - i) (len - (i + 1))); [lia|].
      destruct (Z.ltb_spec (len - 1 - i) (len - i)); [|lia]. cbn. by rewrite orb_false_r.
    + assert (Z.testbit (Z.land (Z.shiftr code i) 1) (j - (len - 1 - i)) = false) as ->.
      { destruct (decide (j < len - 1 - i)); [apply Z.testbit_neg_r; lia|].
        rewrite Z.land_spec. apply andb_false_iff. right.
        change 1 with (2 ^ 0). apply Z.pow2_bits_false. lia. }
      rewrite orb_false_r. f_equal. f_equal.
      destruct (Z.ltb_spec j (len - (i + 1))), (Z.ltb_spec j (len - i)); lia || done.
Qed.

Lemma code_reverse_testbit code len j : 0 <= len -> 0 <= j ->
  Z.testbit (reverse code len) j = (j <? len) && Z.testbit code (len - 1 - j).
Proof.
  intros Hl Hj. unfold reverse. rewrite reverse_loop_testbit by lia.
  rewrite Z.bits_0, Z.sub_0_r. done.
Qed.

(** A non-negative number without high bits is small. *)
Lemma high_bits_bound x n : 0 <= n -> 0 <= x ->
  (forall j, n <= j -> Z.testbit x j = false) -> x < 2 ^ n.
Proof.
  intros Hn Hx H. assert (x = x mod 2 ^ n) as ->.
  { apply Z.bits_inj'. intros j Hj. destruct (Z.lt_ge_cases j n).
    - by rewrite Z.mod_pow2_bits_low.
    - rewrite Z.mod_pow2_bits_high by lia. apply H. lia. }
  apply Z.mod_pos_bound. lia.
Qed.

Lemma reverse_loop_nonneg n : forall i code len r, 0 <= r -> 0 <= reverse_loop n i code len r.
Proof.
  induction n as [|n IH]; intros i code len r Hr; cbn; [lia|].
  apply IH, Z.lor_nonneg. split; [lia|]. apply Z.shiftl_nonneg, Z.land_nonneg. lia.
Qed.

Lemma code_reverse_range code len : 0 <= len -> 0 <= reverse code len < 2 ^ len.
Proof.
  intros Hl. assert (0 <= reverse code len) by (apply reverse_loop_nonneg; lia).
  split; [done|]. apply high_bits_bound; [lia..|]. intros j Hj.
  rewrite code_reverse_testbit by lia. by destruct (Z.ltb_spec j len); [lia|].
Qed.

(** [x] starts with the reversed code exactly when, read the other way round,
    it lies in the code's interval. *)
Lemma reverse_prefix x c l : 0 < l <= MAX_LEN -> 0 <= c < 2 ^ l ->
  x mod 2 ^ l = reverse c l <-> reverse x MAX_LEN / 2 ^ (MAX_LEN - l) = c.
Proof.
  unfold MAX_LEN. intros Hl Hc.
  assert (B : forall j, 0 <= j -> Z.testbit (reverse x 12 / 2 ^ (12 - l)) j = (j <? l) && Z.testbit x (l - 1 - j)).
  { intros j Hj. rewrite Z.div_pow2_bits, code_reverse_testbit by lia.
    replace (12 - 1 - (j + (12 - l))) with (l - 1 - j) by lia. f_equal.
    destruct (Z.ltb_spec (j + (12 - l)) 12), (Z.ltb_spec j l); lia || done. }
  assert (C : forall j, l <= j -> Z.testbit c j = false).
  { intros j Hj. replace c with (c mod 2 ^ l) by (apply Z.mod_small; lia).
    apply Z.mod_pow2_bits_high. lia. }
  split; intros H; apply Z.bits_inj'; intros j Hj.
  - rewrite B by lia. destruct (Z.ltb_spec j l); [|by rewrite C by lia].
    assert (E : Z.testbit (x mod 2 ^ l) (l - 1 - j) = Z.testbit (reverse c l) (l - 1 - j)) by by rewrite H.
    rewrite Z.mod_pow2_bits_low, code_reverse_testbit in E by lia. rewrite E.
    destruct (Z.ltb_spec (l - 1 - j) l); [|lia]. cbn. f_equal. lia.
  - rewrite code_reverse_testbit by lia. destruct (Z.ltb_spec j l); [|rewrite Z.mod_pow2_bits_high by lia; done].
    rewrite Z.mod_pow2_bits_low by lia. cbn [andb]. rewrite <- H, B by lia.
    destruct (Z.ltb_spec (l - 1 - j) l); [|lia]. cbn. f_equal. lia.
Qed.

(** ** The canonical assignment *)

Definition count_len (bits : Z) (lens : list Z) : Z :=
  blen (filter (fun l => l = bits) lens).

(** Shares of the codes shorter than [bits]. *)
Definition shorter (bits : Z) (lens : list Z) : Z :=
  foldr (fun l acc => (if l <? bits then share l else 0) + acc) 0 lens.

(** The left end of the interval of symbol [s], of length [bits]. *)
Definition lo (lens : list Z) (s : nat) (bits : Z) : Z :=
  shorter bits lens + count_len bits (take s lens) * 2 ^ (MAX_LEN - bits).

Lemma count_len_cons bits l lens :
  count_len bits (l :: lens) = (if l =? bits then 1 else 0) + count_len bits lens.
Proof.
  unfold count_len.
  destruct (Z.eqb_spec l bits); [rewrite filter_cons_True by done | rewrite filter_cons_False by done]; blen_lia.
Qed.

Lemma count_len_nonneg bits lens : 0 <= count_len bits lens.
Proof. apply blen_nonneg. Qed.

Lemma count_len_nil bits : count_len bits [] = 0.
Proof. reflexivity. Qed.

Lemma count_len_app bits l k : count_len bits (l ++ k) = count_len bits l + count_len bits k.
Proof.
  induction l as [|x l IH]; [reflexivity|]. cbn [app]. rewrite !count_len_cons, IH. lia.
Qed.

Lemma code_row_spec bits lens : forall codes next,
  length codes = length lens ->
  let '(r, n) := code_row bits lens codes next in
  n = next + count_len bits lens /\ length r = length lens /\
  forall s, r !! s = match lens !! s with
                     | Some l => if l =? bits then Some ((next + count_len bits (take s lens)) mod 2 ^ 16) else codes !! s
                     | None => None
                     end.
Proof.
  induction lens as [|l lens IH]; intros codes next Hlen; destruct codes as [|c codes]; try done; cbn [code_row].
  - split; [rewrite count_len_nil; lia|]. split; [done|]. intros s. done.
  - cbn in Hlen.
    rewrite count_len_cons. destruct (Z.eqb_spec l bits) as [->|Hne].
    + specialize (IH codes (next + 1) ltac:(lia)). destruct (code_row bits lens codes (next + 1)) as [r n].
      destruct IH as (-> & Hr & IH). split; [lia|]. split; [cbn; lia|]. intros [|s]; cbn.
      * rewrite Z.eqb_refl. do 2 f_equal. rewrite count_len_nil. lia.
      * rewrite IH. destruct (lens !! s) as [l'|]; [|done]. destruct (l' =? bits); [|done].
        rewrite count_len_cons, Z.eqb_refl. do 2 f_equal. lia.
    + specialize (IH codes next ltac:(lia)). destruct (code_row bits lens codes next) as [r n].
      destruct IH as (-> & Hr & IH). split; [lia|]. split; [cbn; lia|]. intros [|s]; cbn.
      * by rewrite (proj2 (Z.eqb_neq _ _) Hne).
      * rewrite IH. destruct (lens !! s) as [l'|]; [|done]. destruct (l' =? bits); [|done].
        rewrite count_len_cons, (proj2 (Z.eqb_neq _ _) Hne). done.
Qed.

Lemma share_nonneg l : 0 <= share l.
Proof. unfold share. destruct (0 <? l); [|lia]. apply Z.shiftl_nonneg. lia. Qed.

Lemma share_val l : 0 < l -> share l = 2 ^ (MAX_LEN - l).
Proof. intros H. unfold share. destruct (Z.ltb_spec 0 l); [|lia]. rewrite Z.shiftl_1_l. done. Qed.

(** The shares of one more length. *)
Lemma shorter_succ bits lens : 0 < bits ->
  shorter (bits + 1) lens = shorter bits lens + count_len bits lens * 2 ^ (MAX_LEN - bits).
Proof.
  intros Hb. induction lens as [|l lens IH]; [reflexivity|].
  rewrite count_len_cons. cbn [shorter foldr]. fold (shorter bits lens) (shorter (bits + 1) lens).
  rewrite IH. destruct (Z.eqb_spec l bits) as [->|].
  - destruct (Z.ltb_spec bits (bits + 1)), (Z.ltb_spec bits bits); try lia. rewrite share_val by lia. lia.
  - destruct (Z.ltb_spec l (bits + 1)), (Z.ltb_spec l bits); lia.
Qed.

Lemma shorter_kraft bits lens : shorter bits lens <= kraft_sum lens.
Proof.
  induction lens as [|l lens IH]; [reflexivity|]. cbn [shorter kraft_sum foldr].
  fold (shorter bits lens) (kraft_sum lens). pose proof (share_nonneg l). destruct (l <? bits); lia.
Qed.

Lemma shorter_mono bits bits' lens : bits <= bits' -> shorter bits lens <= shorter bits' lens.
Proof.
  intros H. induction lens as [|l lens IH]; [reflexivity|]. cbn [shorter foldr].
  fold (shorter bits lens) (shorter bits' lens). pose proof (share_nonneg l).
  destruct (Z.ltb_spec l bits), (Z.ltb_spec l bits'); lia.
Qed.

Lemma shorter_one lens : shorter 1 lens = 0.
Proof.
  induction lens as [|l lens IH]; [reflexivity|]. cbn [shorter foldr]. fold (shorter 1 lens). rewrite IH.
  unfold share. destruct (Z.ltb_spec l 1), (Z.ltb_spec 0 l); lia.
Qed.

(** The count up to a symbol of that length leaves room for it. *)
Lemma count_len_take bits lens s : lens !! s = Some bits ->
  count_len bits (take s lens) + 1 = count_len bits (take (S s) lens).
Proof.
  intros H. rewrite (take_S_r _ _ _ H). rewrite count_len_app.
  by rewrite count_len_cons, Z.eqb_refl, count_len_nil.
Qed.

Lemma count_len_take_mono bits lens s t : (s <= t)%nat ->
  count_len bits (take s lens) <= count_len bits (take t lens).
Proof.
  intros H. replace t with (s + (t - s))%nat by lia. rewrite <- take_take_drop, count_len_app.
  pose proof (count_len_nonneg bits (take (t - s) (drop s lens))). lia.
Qed.

Lemma count_len_take_le bits lens s : count_len bits (take s lens) <= count_len bits lens.
Proof.
  rewrite <- (take_drop s lens) at 2. rewrite count_len_app.
  pose proof (count_len_nonneg bits (drop s lens)). lia.
Qed.

(** Lengths the format can express, in the code space. *)
Definition valid (lens : list Z) : Prop :=
  length lens = 256%nat /\ Forall (fun l => 0 <= l <= MAX_LEN) lens /\ kraft_sum lens <= 2 ^ MAX_LEN.

(** A code and its successor stay inside the code space. *)
Lemma lo_room lens s l : kraft_sum lens <= 2 ^ MAX_LEN -> lens !! s = Some l -> 0 < l ->
  0 <= lo lens s l /\ lo lens s l + 2 ^ (MAX_LEN - l) <= shorter (l + 1) lens <= 2 ^ MAX_LEN.
Proof.
  intros Hk Hs Hl. unfold lo. pose proof (shorter_kraft (l + 1) lens).
  rewrite shorter_succ in * by lia. pose proof (count_len_take _ _ _ Hs).
  pose proof (count_len_take_le l lens (S s)). pose proof (count_len_nonneg l (take s lens)).
  pose proof (shorter_mono 1 l lens ltac:(lia)) as Hz. rewrite shorter_one in Hz. nia.
Qed.

Lemma code_rows_spec lens rows : forall bits codes next,
  kraft_sum lens <= 2 ^ MAX_LEN -> 1 <= bits -> bits + Z.of_nat rows = MAX_LEN + 1 ->
  length codes = length lens -> 0 <= next ->
  (rows <> 0%nat -> next * 2 ^ (MAX_LEN - bits) = shorter bits lens) ->
  let r := code_rows rows bits lens codes next in
  length r = length lens /\
  (forall s l, lens !! s = Some l -> l < bits -> r !! s = codes !! s) /\
  (forall s l, lens !! s = Some l -> bits <= l <= MAX_LEN ->
     exists c, r !! s = Some c /\ 0 <= c /\ c * 2 ^ (MAX_LEN - l) = lo lens s l).
Proof.
  induction rows as [|rows IH]; intros bits codes next Hk Hb Hr Hlen Hn Hnext; cbn [code_rows].
  - split; [done|]. split; [done|]. intros s l ? ?. lia.
  - pose proof (code_row_spec bits lens codes next Hlen) as Row.
    destruct (code_row bits lens codes next) as [codes' next']. destruct Row as (Hn' & Hlen' & Row).
    specialize (Hnext ltac:(lia)). pose proof (shorter_succ bits lens ltac:(lia)) as Hs.
    pose proof (shorter_kraft (bits + 1) lens) as Hsk.
    pose proof (Z.pow_pos_nonneg 2 (MAX_LEN - bits) ltac:(lia) ltac:(lia)) as Hpos.
    pose proof (count_len_nonneg bits lens).
    assert (Hv : next' * 2 ^ (MAX_LEN - bits) = shorter (bits + 1) lens) by nia.
    assert (Hsmall : next' <= 2 ^ MAX_LEN) by nia. unfold MAX_LEN in Hsmall.
    rewrite Z.shiftl_mul_pow2, Z.mod_small by lia.
    edestruct (IH (bits + 1) codes' (next' * 2 ^ 1)) as (L & U & N); [done|lia|lia|lia|lia| |].
    { intros Hrows. rewrite <- Hv, <- Z.mul_assoc, <- Z.pow_add_r by lia. do 2 f_equal. lia. }
    split; [done|]. split.
    + intros s l Hl Hlt. rewrite (U s l Hl) by lia. rewrite Row, Hl.
      destruct (Z.eqb_spec l bits); [lia|done].
    + intros s l Hl Hle. destruct (decide (l = bits)) as [->|]; [|apply N; [done|lia]].
      destruct (lo_room lens s bits Hk Hl ltac:(lia)) as (L0 & L1 & L2). unfold lo in *.
      rewrite (U s bits Hl) by lia. rewrite Row, Hl, Z.eqb_refl.
      pose proof (count_len_nonneg bits (take s lens)).
      exists (next + count_len bits (take s lens)). unfold MAX_LEN in *. rewrite Z.mod_small by nia.
      split; [done|]. split; nia.
Qed.

(** The canonical code of a symbol is the left end of its interval. *)
Lemma canonical_code lens s l : valid lens -> lens !! s = Some l -> 0 < l ->
  exists c, canonical_codes lens !! s = Some c /\ 0 <= c < 2 ^ l /\ c * 2 ^ (MAX_LEN - l) = lo lens s l.
Proof.
  intros (Hlen & Hr & Hk) Hs Hl.
  destruct (code_rows_spec lens (Z.to_nat MAX_LEN) 1 (replicate 256 0) 0) as (_ & _ & C); [done|lia|done|by rewrite length_replicate|lia| |].
  { by rewrite shorter_one. }
  rewrite Forall_lookup in Hr. pose proof (Hr _ _ Hs) as ?. cbn beta in *. destruct (C s l Hs ltac:(lia)) as (c & Hc & H0 & E).
  exists c. split; [exact Hc|]. split; [|done]. split; [done|].
  destruct (lo_room lens s l Hk Hs Hl) as (_ & L1 & L2).
  assert (2 ^ MAX_LEN = 2 ^ l * 2 ^ (MAX_LEN - l)) as EE by (rewrite <- Z.pow_add_r by lia; f_equal; lia).
  pose proof (Z.pow_pos_nonneg 2 (MAX_LEN - l) ltac:(lia) ltac:(lia)). nia.
Qed.

Lemma canonical_codes_length lens : valid lens -> length (canonical_codes lens) = 256%nat.
Proof.
  intros (Hlen & _ & Hk). rewrite <- Hlen.
  apply (code_rows_spec lens (Z.to_nat MAX_LEN) 1 (replicate 256 0) 0); [done|lia|done|by rewrite length_replicate|lia|].
  by rewrite shorter_one.
Qed.

(** [x] starts with the code of [s]. *)
Definition claims (lens : list Z) (s : nat) (x : Z) : Prop :=
  exists l c, lens !! s = Some l /\ canonical_codes lens !! s = Some c /\ 0 < l /\ x mod 2 ^ l = reverse c l.

#[global] Instance claims_dec lens s x : Decision (claims lens s x).
Proof.
  destruct (lens !! s) as [l|] eqn:El, (canonical_codes lens !! s) as [c|] eqn:Ec.
  1: destruct (decide (0 < l /\ x mod 2 ^ l = reverse c l)) as [Y|N];
       [left; exists l, c; tauto | right; intros (l' & c' & ? & ? & ? & ?); apply N; split; congruence].
  all: right; intros (l' & c' & ? & ? & _); congruence.
Defined.

(** Intervals follow the order of lengths, and of symbols within a length. *)
Lemma lo_shorter lens s l t l' : kraft_sum lens <= 2 ^ MAX_LEN ->
  lens !! s = Some l -> 0 < l -> l < l' <= MAX_LEN ->
  lo lens s l + 2 ^ (MAX_LEN - l) <= lo lens t l'.
Proof.
  intros Hk Hl H0 H2. destruct (lo_room lens s l Hk Hl ltac:(lia)) as (_ & A & _).
  pose proof (shorter_mono (l + 1) l' lens ltac:(lia)). pose proof (count_len_nonneg l' (take t lens)).
  unfold lo at 2. pose proof (Z.pow_nonneg 2 (MAX_LEN - l') ltac:(lia)). nia.
Qed.

Lemma lo_earlier lens s t l : lens !! s = Some l -> (s < t)%nat ->
  lo lens s l + 2 ^ (MAX_LEN - l) <= lo lens t l.
Proof.
  intros Hl Hst. unfold lo. pose proof (count_len_take _ _ _ Hl).
  pose proof (count_len_take_mono l lens (S s) t ltac:(lia)).
  pose proof (Z.pow_nonneg 2 (MAX_LEN - l) ltac:(lia)). nia.
Qed.

(** A word that starts with a code lies, reversed, in its interval. *)
Lemma claims_interval lens s x : valid lens -> claims lens s x ->
  exists l, lens !! s = Some l /\ 0 < l <= MAX_LEN /\
    lo lens s l <= reverse x MAX_LEN < lo lens s l + 2 ^ (MAX_LEN - l).
Proof.
  intros V (l & c & Hl & Hc & Hpos & Hx). pose proof V as (_ & Hr & _).
  rewrite Forall_lookup in Hr. pose proof (Hr _ _ Hl) as B. cbn beta in B.
  destruct (canonical_code _ _ _ V Hl Hpos) as (c' & E & Rc & Lc). assert (c' = c) as -> by congruence.
  apply reverse_prefix in Hx; [|lia..]. exists l. split; [done|]. split; [lia|].
  set (y := reverse x MAX_LEN) in *.
  pose proof (Z.pow_pos_nonneg 2 (MAX_LEN - l) ltac:(lia) ltac:(lia)) as P.
  pose proof (Z.div_mod y (2 ^ (MAX_LEN - l)) ltac:(lia)).
  pose proof (Z.mod_pos_bound y (2 ^ (MAX_LEN - l)) ltac:(lia)). nia.
Qed.

(** No twelve-bit word starts with two codes. *)
Lemma claimed_once lens s t x : valid lens -> claims lens s x -> claims lens t x -> s = t.
Proof.
  intros V (l & Hl & Rl & I)%claims_interval (l' & Hl' & Rl' & I')%claims_interval; [|done..].
  pose proof V as (_ & _ & Hk).
  destruct (Z.lt_trichotomy l l') as [Lt|[->|Gt]].
  - pose proof (lo_shorter lens s l t l' Hk Hl). lia.
  - destruct (Nat.lt_trichotomy s t) as [Lt|[?|Gt]]; [|done|].
    + pose proof (lo_earlier lens s t l' Hl). lia.
    + pose proof (lo_earlier lens t s l' Hl'). lia.
  - pose proof (lo_shorter lens t l' s l Hk Hl'). lia.
Qed.

(** ** The decode table *)

Lemma max_words : Z.shiftl 1 MAX_LEN = 4096.
Proof. reflexivity. Qed.

Lemma fill_spec n step e : 0 < step -> forall ix table,
  0 <= ix -> 4096 <= ix + Z.of_nat n * step -> blen table = 4096 ->
  blen (fill n ix step e table) = 4096 /\
  forall j, 0 <= j < 4096 -> get (fill n ix step e table) j =
    if (ix <=? j) && ((j - ix) mod step =? 0) then Some e else get table j.
Proof.
  intros Hs. induction n as [|n IH]; intros ix table Hix Hn Hlen; cbn [fill].
  - split; [done|]. intros j Hj. destruct (Z.leb_spec ix j); [lia|done].
  - rewrite max_words. destruct (Z.ltb_spec ix 4096) as [Hlt|Hge].
    + destruct (IH (ix + step) (<[Z.to_nat ix := e]> table)) as (L & G); [lia|lia|unfold blen in *; by rewrite length_insert|].
      split; [done|]. intros j Hj. rewrite G by done. clear G L IH.
      assert (Get : get (<[Z.to_nat ix := e]> table) j = if j =? ix then Some e else get table j).
      { unfold get. destruct (Z.eqb_spec j ix) as [->|].
        - apply list_lookup_insert_eq. unfold blen in *. lia.
        - apply list_lookup_insert_ne. lia. }
      rewrite Get. clear Get.
      destruct (Z.leb_spec ix j) as [Hle|]; cbn [andb].
      * destruct (Z.eqb_spec j ix) as [->|Hne].
        { rewrite Z.sub_diag, Z.mod_0_l by lia. destruct (_ && _); done. }
        assert (E : (j - ix) mod step = (j - (ix + step)) mod step).
        { replace (j - ix) with (j - (ix + step) + 1 * step) by lia. apply Z.mod_add. lia. }
        rewrite E. destruct (Z.leb_spec (ix + step) j) as [|Hlt']; cbn [andb]; [done|].
        rewrite <- E, Z.mod_small by lia. destruct (Z.eqb_spec (j - ix) 0); [lia|done].
      * destruct (Z.leb_spec (ix + step) j), (Z.eqb_spec j ix); try lia. done.
    + split; [done|]. intros j Hj. destruct (Z.leb_spec ix j); [lia|done].
Qed.

(** What [fill] writes for a code: the words that start with it. *)
Lemma fill_code c l s table : 0 < l <= MAX_LEN -> blen table = 4096 ->
  let r := fill (Z.to_nat (Z.shiftl 1 MAX_LEN)) (reverse c l) (Z.shiftl 1 l) (s, l) table in
  blen r = 4096 /\
  forall j, 0 <= j < 4096 -> get r j = if j mod 2 ^ l =? reverse c l then Some (s, l) else get table j.
Proof.
  intros Hl Hlen r. subst r. rewrite (Z.shiftl_1_l l).
  pose proof (code_reverse_range c l ltac:(lia)) as R.
  destruct (fill_spec (Z.to_nat (Z.shiftl 1 MAX_LEN)) (2 ^ l) (s, l) ltac:(lia) (reverse c l) table) as (L & G); [lia| |done|].
  { rewrite max_words. nia. }
  split; [done|]. intros j Hj. rewrite G by done.
  pose proof (Z.div_mod j (2 ^ l) ltac:(lia)) as D. pose proof (Z.mod_pos_bound j (2 ^ l) ltac:(lia)) as B. pose proof (Z.div_pos j (2 ^ l) ltac:(lia) ltac:(lia)).
  destruct (Z.eqb_spec (j mod 2 ^ l) (reverse c l)) as [E|Hne].
  - destruct (Z.leb_spec (reverse c l) j); [|nia]. cbn [andb].
    replace (j - reverse c l) with (j / 2 ^ l * 2 ^ l) by lia. rewrite Z.mod_mul by lia. done.
  - destruct (Z.leb_spec (reverse c l) j); [|done]. cbn [andb].
    destruct (Z.eqb_spec ((j - reverse c l) mod 2 ^ l) 0) as [E|]; [|done]. exfalso. apply Hne.
    rewrite Zminus_mod, (Z.mod_small (reverse c l)) in E by lia.
    apply Z.mod_divide in E; [|lia]. destruct E as [q E].
    assert (q = 0) by nia. lia.
Qed.

Lemma place_codes_spec full : valid full -> forall lens codes s table,
  lens = drop s full -> codes = drop s (canonical_codes full) -> blen table = 4096 ->
  let r := place_codes (Z.of_nat s) lens codes table in
  blen r = 4096 /\ forall j, 0 <= j < 4096 ->
  (forall t l, (s <= t)%nat -> full !! t = Some l -> claims full t j -> get r j = Some (Z.of_nat t, l)) /\
  ((forall t, (s <= t)%nat -> ~ claims full t j) -> get r j = get table j).
Proof.
  intros V. induction lens as [|l lens IH]; intros codes s table El Ec Ht; cbn [place_codes].
  - split; [done|]. intros j Hj. split; [|done]. intros t l Hst Hl _.
    apply (f_equal length) in El. rewrite length_drop in El. cbn in El.
    apply lookup_lt_Some in Hl. lia.
  - assert (Hl : full !! s = Some l) by (rewrite <- (Nat.add_0_r s), <- lookup_drop, <- El; done).
    destruct codes as [|c codes].
    { apply (f_equal length) in Ec. rewrite length_drop, canonical_codes_length in Ec by done.
      apply lookup_lt_Some in Hl. destruct V as (Hlen & _). cbn in Ec. lia. }
    assert (Hc : canonical_codes full !! s = Some c) by (rewrite <- (Nat.add_0_r s), <- lookup_drop, <- Ec; done).
    assert (El' : lens = drop (S s) full).
    { rewrite (drop_S _ _ _ Hl) in El. by injection El. }
    assert (Ec' : codes = drop (S s) (canonical_codes full)).
    { rewrite (drop_S _ _ _ Hc) in Ec. by injection Ec. }
    pose proof V as (_ & Hr & _). rewrite Forall_lookup in Hr. pose proof (Hr _ _ Hl) as B. cbn beta in B.
    set (table' := if l =? 0 then table else _).
    assert (T : blen table' = 4096 /\ forall j, 0 <= j < 4096 ->
              (claims full s j -> get table' j = Some (Z.of_nat s, l)) /\ (~ claims full s j -> get table' j = get table j)).
    { subst table'. destruct (Z.eqb_spec l 0) as [->|Hnz].
      - split; [done|]. intros j Hj. split; [|done]. intros (l' & c' & E & _ & Hp & _). rewrite Hl in E. injection E. lia.
      - destruct (fill_code c l (Z.of_nat s) table ltac:(lia) Ht) as (L & G). split; [done|].
        intros j Hj. rewrite G by done. destruct (Z.eqb_spec (j mod 2 ^ l) (reverse c l)) as [E|Hne].
        + split; [done|]. intros []. exists l, c. split_and!; [done|done|lia|done].
        + split; [|done]. intros (l' & c' & E1 & E2 & _ & E). congruence. }
    destruct T as (Lt & T). replace (Z.of_nat s + 1) with (Z.of_nat (S s)) by lia.
    destruct (IH codes (S s) table' El' Ec' Lt) as (L & G). split; [done|]. intros j Hj.
    destruct (G j Hj) as (G1 & G2). destruct (T j Hj) as (T1 & T2). split.
    + intros t l' Hst Ht' Cl. destruct (decide (t = s)) as [->|]; [|apply G1; [lia|done..]].
      rewrite G2; [rewrite T1 by done; congruence|]. intros u Hu Cu.
      pose proof (claimed_once full u s j V Cu Cl). lia.
    + intros No. rewrite G2; [apply T2, No; lia|]. intros t Ht'. apply No. lia.
Qed.

(** The entry of a word that starts with a code is that code's. *)
Lemma entry_of_code lens s l x : valid lens -> lens !! s = Some l -> claims lens s x -> 0 <= x < 4096 ->
  get (build_decode_table lens) x = Some (Z.of_nat s, l).
Proof.
  intros V Hl Cl Hx. unfold build_decode_table.
  destruct (place_codes_spec lens V lens (canonical_codes lens) 0 (replicate (Z.to_nat (Z.shiftl 1 MAX_LEN)) (0, 0))) as (_ & G); [done|done| |].
  { unfold blen. by rewrite length_replicate. }
  apply (G x Hx); [lia|done|done].
Qed.

(** ** The bit stream

    A stream of bytes is the number [from_le_bytes] of it; the codes of the
    input, one above the other, are the number [coded]. *)

Definition len_of (lens : list Z) (b : byte) : Z := lens !!! Z.to_nat (bz b).

Fixpoint coded (codes lens : list Z) (input : list byte) : Z :=
  match input with
  | [] => 0
  | b :: r => reverse (codes !!! Z.to_nat (bz b)) (len_of lens b) + 2 ^ len_of lens b * coded codes lens r
  end.

Definition coded_bits (lens : list Z) (input : list byte) : Z :=
  foldr (fun b acc => len_of lens b + acc) 0 input.

(** Stacking a [m]-bit number on a [n]-bit one. *)
Lemma stack_range a b n m : 0 <= n -> 0 <= m -> 0 <= a < 2 ^ n -> 0 <= b < 2 ^ m -> 0 <= a + 2 ^ n * b < 2 ^ (n + m).
Proof. intros. rewrite Z.pow_add_r by lia. nia. Qed.

Lemma flush_spec n : forall acc nbits, 8 * Z.of_nat n <= nbits -> 0 <= acc < 2 ^ nbits ->
  let '(out, a, k) := flush n acc nbits in
  blen out = Z.of_nat n /\ k = nbits - 8 * Z.of_nat n /\ 0 <= a < 2 ^ k /\
  acc = from_le_bytes out + 2 ^ (8 * Z.of_nat n) * a.
Proof.
  induction n as [|n IH]; intros acc nbits Hn Ha; cbn [flush].
  - rewrite blen_nil. cbn [from_le_bytes]. replace (nbits - _) with nbits by lia. split_and!; lia.
  - assert (Hs : 0 <= Z.shiftr acc 8 < 2 ^ (nbits - 8)).
    { rewrite Z.shiftr_div_pow2 by lia. split; [apply Z.div_pos; lia|]. apply Z.div_lt_upper_bound; [lia|].
      rewrite <- Z.pow_add_r by lia. replace (8 + (nbits - 8)) with nbits by lia. lia. }
    specialize (IH (Z.shiftr acc 8) (nbits - 8) ltac:(lia) Hs).
    destruct (flush n (Z.shiftr acc 8) (nbits - 8)) as [[out a] k]. destruct IH as (L & K & R & E).
    split_and!; [blen_lia|lia|apply R|apply R|]. cbn [from_le_bytes]. rewrite bz_zb.
    rewrite Z.shiftr_div_pow2 in E by lia. change (2 ^ 8) with 256 in E.
    replace (8 * Z.of_nat (S n)) with (8 + 8 * Z.of_nat n) by lia. rewrite Z.pow_add_r by lia.
    pose proof (Z.div_mod acc 256 ltac:(lia)). change (2 ^ 8) with 256. lia.
Qed.

Lemma len_of_range lens b : Forall (fun l => 0 <= l <= MAX_LEN) lens -> 0 <= len_of lens b <= MAX_LEN.
Proof.
  intros H. unfold len_of. destruct (lens !! Z.to_nat (bz b)) as [l|] eqn:E.
  - rewrite (list_lookup_total_correct _ _ _ E). rewrite Forall_lookup in H. by apply H in E.
  - rewrite list_lookup_total_alt, E. cbn. unfold MAX_LEN. lia.
Qed.

Lemma coded_bits_nonneg lens input : Forall (fun l => 0 <= l <= MAX_LEN) lens -> 0 <= coded_bits lens input.
Proof.
  intros H. induction input as [|b r IH]; cbn; [lia|]. fold (coded_bits lens r).
  pose proof (len_of_range lens b H). lia.
Qed.

(** The writer emits the pending bits with the codes above them, in as few
    bytes as they need. *)
Lemma write_loop_spec codes lens : Forall (fun l => 0 <= l <= MAX_LEN) lens -> forall input acc nbits,
  0 <= nbits < 8 -> 0 <= acc < 2 ^ nbits ->
  from_le_bytes (write_loop input codes lens acc nbits) = acc + 2 ^ nbits * coded codes lens input /\
  blen (write_loop input codes lens acc nbits) = div_ceil8 (nbits + coded_bits lens input).
Proof.
  intros HL. induction input as [|b r IH]; intros acc nbits Hn Ha; cbn [write_loop coded coded_bits foldr].
  - destruct (Z.ltb_spec 0 nbits).
    + cbn [from_le_bytes]. rewrite bz_zb. pose proof (Z.pow_le_mono_r 2 nbits 8 ltac:(lia) ltac:(lia)).
      rewrite Z.mod_small by lia. split; [lia|]. unfold div_ceil8. rewrite blen_cons, blen_nil.
      replace (nbits + 0 + 7) with (1 * 8 + (nbits - 1)) by lia. rewrite Z.div_add_l, Z.div_small by lia. lia.
    + assert (nbits = 0) as -> by lia. split; [cbn; lia|reflexivity].
  - fold (coded_bits lens r) (len_of lens b). pose proof (len_of_range lens b HL) as Hl. set (l := len_of lens b) in *.
    pose proof (code_reverse_range (codes !!! Z.to_nat (bz b)) l ltac:(lia)) as Hr.
    rewrite lor_shift_add by lia.
    pose proof (stack_range acc (reverse (codes !!! Z.to_nat (bz b)) l) nbits l ltac:(lia) ltac:(lia) Ha Hr) as Hs.
    set (acc' := acc + _) in *.
    pose proof (Z.div_mod (nbits + l) 8 ltac:(lia)) as D. pose proof (Z.mod_pos_bound (nbits + l) 8 ltac:(lia)) as M.
    pose proof (Z.div_pos (nbits + l) 8 ltac:(lia) ltac:(lia)) as P.
    pose proof (flush_spec (Z.to_nat ((nbits + l) / 8)) acc' (nbits + l) ltac:(lia) Hs) as F.
    destruct (flush (Z.to_nat ((nbits + l) / 8)) acc' (nbits + l)) as [[out a] k]. destruct F as (L & K & R & E).
    rewrite Z2Nat.id in L, K, E by lia. destruct (IH a k ltac:(lia) R) as (V & B). split.
    + rewrite from_le_bytes_app, V, L. subst acc'.
      rewrite Z.mul_add_distr_l, Z.mul_assoc, <- Z.pow_add_r, Z.add_assoc, <- E by lia.
      replace (8 * ((nbits + l) / 8) + k) with (nbits + l) by lia. rewrite Z.pow_add_r by lia. lia.
    + rewrite blen_app, L, B. unfold div_ceil8. rewrite <- Z.div_add_l by lia. f_equal. lia.
Qed.

(** The reader's state is a number too: the pending bits with the rest of the
    stream above them.  Refilling keeps it, and its number of bits. *)
Definition pending (stream : list byte) (acc nbits : Z) : Z := acc + 2 ^ nbits * from_le_bytes stream.

Lemma refill_spec stream : forall acc nbits, 0 <= nbits -> 0 <= acc < 2 ^ nbits ->
  let '(rest, a, k) := refill stream acc nbits in
  pending rest a k = pending stream acc nbits /\ k + 8 * blen rest = nbits + 8 * blen stream /\
  0 <= k /\ 0 <= a < 2 ^ k /\ (MAX_LEN <= k \/ rest = []).
Proof.
  induction stream as [|b r IH]; intros acc nbits Hn Ha; cbn [refill].
  - split_and!; [done|done|lia|lia|lia|by right].
  - destruct (Z.ltb_spec nbits MAX_LEN); [|split_and!; [done|done|lia|lia|lia|left; lia]].
    rewrite lor_shift_add by lia. pose proof (bz_range b).
    pose proof (stack_range acc (bz b) nbits 8 ltac:(lia) ltac:(lia) Ha ltac:(lia)) as Hs.
    specialize (IH _ (nbits + 8) ltac:(lia) Hs).
    destruct (refill r (acc + 2 ^ nbits * bz b) (nbits + 8)) as [[rest a] k].
    destruct IH as (P & B & K & R & F). rewrite blen_cons. split_and!; try lia; try apply R; [|done].
    rewrite P. unfold pending. cbn [from_le_bytes]. rewrite Z.pow_add_r by lia. lia.
Qed.

(** The twelve bits the table is indexed with are the next of the stream. *)
Lemma window_of rest a k : 0 <= k -> 0 <= a < 2 ^ k -> MAX_LEN <= k \/ rest = [] ->
  Z.land a (Z.shiftl 1 MAX_LEN - 1) = pending rest a k mod 2 ^ MAX_LEN.
Proof.
  intros Hk Ha H. rewrite Z.shiftl_1_l. replace (2 ^ MAX_LEN - 1) with (Z.ones MAX_LEN) by reflexivity.
  rewrite Z.land_ones by (unfold MAX_LEN; lia). unfold pending. destruct H as [Hle| ->].
  - replace k with (MAX_LEN + (k - MAX_LEN)) at 1 by lia. rewrite Z.pow_add_r by (unfold MAX_LEN in *; lia).
    rewrite <- Z.mul_assoc, Z.mul_comm, Z.mod_add by done. done.
  - cbn [from_le_bytes]. by rewrite Z.mul_0_r, Z.add_0_r.
Qed.

(** Dropping the bits of a code from the state. *)
Lemma pending_shift rest a k l : 0 <= l <= k -> 0 <= a < 2 ^ k ->
  pending rest (Z.shiftr a l) (k - l) = pending rest a k / 2 ^ l /\ 0 <= Z.shiftr a l < 2 ^ (k - l).
Proof.
  intros Hl Ha. rewrite Z.shiftr_div_pow2 by lia. unfold pending. split.
  - replace k with (l + (k - l)) at 2 by lia. rewrite Z.pow_add_r by lia.
    rewrite <- Z.mul_assoc, (Z.mul_comm (2 ^ l)), Z.div_add by lia. done.
  - split; [apply Z.div_pos; lia|]. apply Z.div_lt_upper_bound; [lia|].
    rewrite <- Z.pow_add_r by lia. replace (l + (k - l)) with k by lia. lia.
Qed.

(** Every symbol of [input] has a code. *)
Definition covers (lens : list Z) (input : list byte) : Prop := Forall (fun b => 0 < len_of lens b) input.

Lemma byte_nat_lt b : (Z.to_nat (bz b) < 256)%nat.
Proof. pose proof (bz_range b). lia. Qed.

Lemma claims_byte lens b x y : valid lens -> 0 < len_of lens b ->
  x mod 2 ^ MAX_LEN = y mod 2 ^ MAX_LEN ->
  y mod 2 ^ len_of lens b = reverse (canonical_codes lens !!! Z.to_nat (bz b)) (len_of lens b) ->
  claims lens (Z.to_nat (bz b)) (x mod 2 ^ MAX_LEN) /\ lens !! Z.to_nat (bz b) = Some (len_of lens b).
Proof.
  intros V Hp Exy E. pose proof V as (Hlen & Hr & _). pose proof (len_of_range lens b Hr) as R.
  assert (HL : lens !! Z.to_nat (bz b) = Some (len_of lens b)).
  { apply list_lookup_lookup_total_lt. rewrite Hlen. apply byte_nat_lt. }
  split; [|done]. exists (len_of lens b), (canonical_codes lens !!! Z.to_nat (bz b)). split_and!; [done| |done|].
  - apply list_lookup_lookup_total_lt. rewrite canonical_codes_length by done. apply byte_nat_lt.
  - rewrite Exy, <- E. apply Z.mod_mod_divide.
    exists (2 ^ (MAX_LEN - len_of lens b)). rewrite <- Z.pow_add_r by lia. f_equal. lia.
Qed.

(** Reading gives back what was written, whatever follows it. *)
Lemma read_loop_coded lens : valid lens -> forall input stream acc nbits junk,
  covers lens input -> 0 <= nbits -> 0 <= acc < 2 ^ nbits ->
  pending stream acc nbits = coded (canonical_codes lens) lens input + 2 ^ coded_bits lens input * junk ->
  coded_bits lens input <= nbits + 8 * blen stream ->
  read_loop (length input) stream (build_decode_table lens) acc nbits = Decoded (input, coded_bits lens input).
Proof.
  intros V. pose proof V as (_ & Hr & _). induction input as [|b r IH]; intros stream acc nbits junk C Hn Ha E A; [done|].
  cbn [length read_loop coded coded_bits foldr] in *. fold (coded_bits lens r) in *. inversion_clear C as [|? ? Cb Cr].
  pose proof (refill_spec stream acc nbits Hn Ha) as F. destruct (refill stream acc nbits) as [[rest a] k].
  destruct F as (P & B & K & R & F). rewrite (window_of rest a k) by done. rewrite <- P in E.
  pose proof (len_of_range lens b Hr) as HL. set (l := len_of lens b) in *.
  pose proof (coded_bits_nonneg lens r Hr) as Hb.
  pose proof (code_reverse_range (canonical_codes lens !!! Z.to_nat (bz b)) l ltac:(lia)) as Rr.
  rewrite Z.pow_add_r in E by lia.
  assert (E' : pending rest a k = reverse (canonical_codes lens !!! Z.to_nat (bz b)) l
                 + (coded (canonical_codes lens) lens r + 2 ^ coded_bits lens r * junk) * 2 ^ l) by lia.
  destruct (claims_byte lens b (pending rest a k) (pending rest a k) V Cb eq_refl) as (Cl & Lk).
  { fold l. rewrite E', Z.mod_add, Z.mod_small by lia. done. }
  unfold index. rewrite (entry_of_code lens _ _ _ V Lk Cl) by (apply Z.mod_pos_bound; done). cbn.
  fold l. destruct (Z.eqb_spec l 0) as [|_]; [lia|].
  assert (l <= k) by (destruct F as [?| ->]; [lia|change (blen (@nil byte)) with 0 in B; lia]).
  destruct (Z.ltb_spec k l) as [|_]; [lia|]. cbn.
  destruct (pending_shift rest a k l ltac:(lia) R) as (P' & R').
  rewrite (IH rest (Z.shiftr a l) (k - l) junk Cr); [|lia|done| |lia].
  - cbn. rewrite Z2Nat.id by apply bz_range. by rewrite zb_bz.
  - rewrite P', E', Z.div_add, Z.div_small by lia. lia.
Qed.

Lemma read_back lens input rest : valid lens -> covers lens input ->
  read_bits (write_bits input lens ++ rest) lens (blen input) = Decoded (input, coded_bits lens input).
Proof.
  intros V C. pose proof V as (_ & Hr & _). unfold read_bits, read_bits_with, write_bits. rewrite blen_to_nat.
  destruct (write_loop_spec (canonical_codes lens) lens Hr input 0 0 ltac:(lia) ltac:(lia)) as (W & L).
  pose proof (coded_bits_nonneg lens input Hr).
  assert (Hc : coded_bits lens input <= 8 * blen (write_loop input (canonical_codes lens) lens 0 0)).
  { rewrite L. unfold div_ceil8. pose proof (Z.div_mod (0 + coded_bits lens input + 7) 8 ltac:(lia)).
    pose proof (Z.mod_pos_bound (0 + coded_bits lens input + 7) 8 ltac:(lia)). lia. }
  set (w := write_loop _ _ _ _ _) in *.
  apply (read_loop_coded lens V _ _ _ _ (2 ^ (8 * blen w - coded_bits lens input) * from_le_bytes rest)); [done|lia|lia| |].
  - unfold pending. rewrite from_le_bytes_app, W, Z.mul_assoc, <- Z.pow_add_r by lia.
    replace (coded_bits lens input + (8 * blen w - coded_bits lens input)) with (8 * blen w) by lia. lia.
  - rewrite blen_app. pose proof (blen_nonneg rest). lia.
Qed.

Lemma write_bits_length lens input : valid lens ->
  blen (write_bits input lens) = div_ceil8 (coded_bits lens input).
Proof.
  intros (_ & Hr & _). unfold write_bits.
  destruct (write_loop_spec (canonical_codes lens) lens Hr input 0 0 ltac:(lia) ltac:(lia)) as (_ & ->). done.
Qed.

(** ** Building the code lengths *)

Definition syms_of (nodes : list node) : list Z := flat_map snd nodes.

Lemma sorted_in_perm n l : sorted_in n l ≡ₚ n :: l.
Proof.
  induction l as [|m l IH]; cbn; [done|]. destruct (m.1 <=? n.1); [done|]. rewrite IH. apply Permutation_swap.
Qed.

Lemma sort_nodes_perm l : sort_nodes l ≡ₚ l.
Proof.
  induction l as [|n l IH]; [done|]. unfold sort_nodes in *. cbn [foldr]. rewrite sorted_in_perm. by constructor.
Qed.

Lemma syms_of_perm l k : l ≡ₚ k -> syms_of l ≡ₚ syms_of k.
Proof. apply Permutation_flat_map. Qed.

Lemma syms_of_app l k : syms_of (l ++ k) = syms_of l ++ syms_of k.
Proof. apply flat_map_app. Qed.

(** A byte's length, by its number. *)
Definition at_ (lens : list Z) (s : Z) : Z := default 0 (lens !! Z.to_nat s).

Lemma at_insert lens s t v : 0 <= s < blen lens -> 0 <= t -> at_ (<[Z.to_nat s := v]> lens) t = if t =? s then v else at_ lens t.
Proof.
  intros Hs Ht. unfold at_, blen in *. destruct (Z.eqb_spec t s) as [->|].
  - by rewrite list_lookup_insert_eq by lia.
  - by rewrite list_lookup_insert_ne by lia.
Qed.

Lemma index_at lens s : 0 <= s < blen lens -> index lens s = Ret (at_ lens s).
Proof.
  intros Hs. unfold index, get, at_, blen in *.
  destruct (lookup_lt_is_Some_2 lens (Z.to_nat s)) as [l ->]; [lia|done].
Qed.

Lemma blen_insert {A} (l : list A) i x : blen (<[i := x]> l) = blen l.
Proof. unfold blen. by rewrite length_insert. Qed.

Lemma bump_all_spec syms : NoDup syms -> forall lens,
  blen lens = 256 -> Forall (fun s => 0 <= s < 256 /\ at_ lens s < 255) syms ->
  exists lens', bump_all syms lens = Ret lens' /\ blen lens' = 256 /\
    forall t, 0 <= t -> at_ lens' t = at_ lens t + (if bool_decide (t ∈ syms) then 1 else 0).
Proof.
  induction 1 as [|s syms Hni Hnd IH]; intros lens Hlen HF; cbn [bump_all].
  - exists lens. split_and!; [done|done|]. intros t Ht. rewrite bool_decide_false by apply not_elem_of_nil. lia.
  - inversion_clear HF as [|? ? [Hs Hb] HF']. unfold bump. rewrite index_at by lia. cbn.
    destruct (Z.leb_spec 255 (at_ lens s)); [lia|]. cbn.
    destruct (IH (<[Z.to_nat s := at_ lens s + 1]> lens)) as (lens' & -> & L & A).
    { by rewrite blen_insert. }
    { rewrite list.Forall_forall in HF' |- *. intros t Ht. destruct (HF' t Ht) as [Rt Bt]. split; [done|].
      rewrite at_insert by lia. destruct (Z.eqb_spec t s) as [->|]; [|done]. by destruct Hni. }
    exists lens'. split_and!; [done|done|]. intros t Ht. rewrite A, at_insert by lia.
    destruct (Z.eqb_spec t s) as [->|Hne].
    + rewrite bool_decide_false by done. rewrite bool_decide_true by constructor. lia.
    + rewrite (bool_decide_ext (t ∈ s :: syms) (t ∈ syms)); [done|]. rewrite elem_of_cons. tauto.
Qed.

(** The worklist after [k] merges. *)
Definition worklist (k : Z) (nodes : list node) (lens : list Z) : Prop :=
  NoDup (syms_of nodes) /\ Forall (fun s => 0 <= s < 256) (syms_of nodes) /\ blen lens = 256 /\
  (forall t, 0 <= t -> 0 <= at_ lens t <= k) /\
  Forall (fun n : node => n.2 <> [] /\ (length n.2 = 1%nat \/ Forall (fun s => 0 < at_ lens s) n.2)) nodes.

Lemma worklist_perm k nodes nodes' lens : nodes ≡ₚ nodes' -> worklist k nodes lens -> worklist k nodes' lens.
Proof.
  intros P (N & F & L & B & W). pose proof (syms_of_perm _ _ P) as Ps.
  split; [by rewrite <- Ps|]. split; [by rewrite <- Ps|]. split; [done|]. split; [done|]. by rewrite <- P.
Qed.

Lemma merge_worklist k ca a cb b rest lens :
  worklist k ((ca, a) :: (cb, b) :: rest) lens -> k < 255 ->
  exists lens', bump_all (a ++ b) lens = Ret lens' /\
    worklist (k + 1) (rev rest ++ [(ca + cb, a ++ b)]) lens' /\
    (forall t, 0 <= t -> t ∉ a ++ b -> at_ lens' t = at_ lens t).
Proof.
  intros (N & F & L & B & W) Hk. cbn [syms_of flat_map snd] in N, F. fold (syms_of rest) in N, F. rewrite app_assoc in N, F.
  rewrite Forall_app in F. destruct F as [Fab Fr]. apply list.NoDup_app in N as (Nab & Dab & Nr).
  destruct (bump_all_spec (a ++ b) Nab lens L) as (lens' & -> & L' & A).
  { rewrite list.Forall_forall in Fab |- *. intros s Hs. specialize (Fab s Hs). pose proof (B s). cbn beta in *. lia. }
  exists lens'. split; [done|].
  assert (P : rev rest ++ [(ca + cb, a ++ b)] ≡ₚ (ca + cb, a ++ b) :: rest).
  { rewrite <- Permutation_rev. symmetry. apply Permutation_cons_append. }
  split; [apply (worklist_perm _ _ _ _ (Permutation_sym P)); split_and!|].
  - cbn. fold (syms_of rest). by apply list.NoDup_app.
  - cbn. fold (syms_of rest). by rewrite Forall_app.
  - done.
  - intros t Ht. rewrite A by done. pose proof (B t Ht). case_bool_decide; lia.
  - inversion_clear W as [|? ? [Ha _] W']. inversion_clear W' as [|? ? _ W'']. constructor.
    + cbn in *. split; [by destruct a|]. right. rewrite list.Forall_forall in Fab |- *. intros s Hs. specialize (Fab s Hs). cbn beta in *.
      rewrite A by lia. rewrite bool_decide_true by done. pose proof (B s). lia.
    + eapply list.Forall_impl; [exact W''|]. intros n (Hn & Hc). split; [done|]. destruct Hc as [?|Hp]; [by left|right].
      rewrite list.Forall_forall in Hp |- *. intros s Hs. specialize (Hp s Hs). cbn beta in *.
      destruct (decide (0 <= s)) as [H0|Hneg]; [rewrite A by done; case_bool_decide; lia|].
      assert (at_ lens s = at_ lens 0) as E by (unfold at_; do 2 f_equal; lia).
      assert (at_ lens' s = at_ lens' 0) as -> by (unfold at_; do 2 f_equal; lia).
      rewrite A by lia. case_bool_decide; lia.
  - intros t Ht Hn. rewrite A by done. rewrite bool_decide_false by done. lia.
Qed.

Lemma pair_nodes_spec fuel : forall k nodes lens,
  (length nodes <= S fuel)%nat -> k + Z.of_nat (length nodes) <= 256 -> worklist k nodes lens ->
  (length nodes = 1%nat -> (2 <= length (syms_of nodes))%nat) ->
  exists lens', pair_nodes fuel nodes lens = Ret lens' /\ blen lens' = 256 /\
    (forall t, 0 <= t -> 0 <= at_ lens' t) /\
    (forall t, 0 <= t -> t ∉ syms_of nodes -> at_ lens' t = at_ lens t) /\
    Forall (fun s => 0 < at_ lens' s) (syms_of nodes).
Proof.
  induction fuel as [|fuel IH]; intros k nodes lens Hf Hk W H2; cbn [pair_nodes].
  all: destruct (Nat.leb_spec (length nodes) 1) as [Hle|Hgt]; try lia.
  1, 2: exists lens; destruct W as (_ & _ & L & B & W); split_and!; [done|done|intros t Ht; apply B, Ht|done|];
    destruct nodes as [|n [|]]; cbn in Hle; [by constructor| |lia];
    inversion_clear W as [|? ? (_ & Hc) _]; specialize (H2 eq_refl); cbn in *; rewrite app_nil_r in *;
    destruct Hc as [|]; [lia|done].
  pose proof (sort_nodes_perm nodes) as P. rewrite Permutation_rev in P.
  pose proof (Permutation_length P) as PL.
  destruct (rev (sort_nodes nodes)) as [|[ca a] [|[cb b] rest]]; cbn [length] in PL; [lia..|].
  pose proof (worklist_perm _ _ _ _ (Permutation_sym P) W) as W1.
  pose proof W1 as (N1 & _ & _ & _ & W2). inversion_clear W2 as [|? ? (Ha & _) W3]. inversion_clear W3 as [|? ? (Hb & _) _].
  destruct (merge_worklist _ _ _ _ _ _ _ W1 ltac:(lia)) as (lens1 & -> & W' & U). cbn.
  set (nodes' := rev rest ++ [(ca + cb, a ++ b)]) in *.
  assert (Ls : length nodes' = S (length rest)) by (subst nodes'; rewrite length_app, length_rev; cbn; lia).
  assert (Sy : syms_of nodes' ≡ₚ syms_of nodes).
  { rewrite <- (syms_of_perm _ _ P). subst nodes'. rewrite syms_of_app. cbn [syms_of flat_map snd]. rewrite app_nil_r.
    rewrite (syms_of_perm _ _ (Permutation_sym (Permutation_rev rest))), (app_assoc a). apply Permutation_app_comm. }
  destruct (IH (k + 1) nodes' lens1) as (lens' & -> & L & NN & Un & Po); [lia|lia|done| |].
  { intros Hone. assert (length rest = 0%nat) by lia. destruct rest; [|done]. cbn. rewrite app_nil_r, length_app.
    destruct a, b; cbn in *; [done|done|done|lia]. }
  exists lens'. rewrite Sy in Po. split_and!; [done|done|done| |done].
  intros t Ht Hn. rewrite Un; [|done|by rewrite Sy]. apply U; [done|]. intros Hin. apply Hn.
  rewrite <- (syms_of_perm _ _ P). cbn. rewrite app_assoc. apply elem_of_app. by left.
Qed.

Lemma leaves_spec hist : forall s, 0 <= s ->
  NoDup (syms_of (leaves s hist)) /\
  (forall t, t ∈ syms_of (leaves s hist) <-> exists c, s <= t /\ hist !! Z.to_nat (t - s) = Some c /\ 0 < c) /\
  Forall (fun n : node => length n.2 = 1%nat) (leaves s hist) /\
  length (syms_of (leaves s hist)) = length (leaves s hist) /\ (length (leaves s hist) <= length hist)%nat.
Proof.
  induction hist as [|c hist IH]; intros s Hs; cbn [leaves].
  - split; [constructor|]. split; [|split_and!; [constructor|done|done]]. intros t. split; [by intros ?%not_elem_of_nil|].
    intros (c & _ & H & _). by rewrite lookup_nil in H.
  - destruct (IH (s + 1) ltac:(lia)) as (N & E & F & Lk & Le).
    assert (Shift : forall t, (exists c', s + 1 <= t /\ hist !! Z.to_nat (t - (s + 1)) = Some c' /\ 0 < c') <->
              exists c', s < t /\ (c :: hist) !! Z.to_nat (t - s) = Some c' /\ 0 < c').
    { intros t. split; intros (c' & H1 & H2 & H3); exists c'; (split; [lia|]); (split; [|done]).
      - replace (Z.to_nat (t - s)) with (S (Z.to_nat (t - (s + 1)))) by lia. exact H2.
      - replace (Z.to_nat (t - s)) with (S (Z.to_nat (t - (s + 1)))) in H2 by lia. exact H2. }
    destruct (Z.ltb_spec 0 c) as [Hc|Hc]; cbn [syms_of flat_map snd app length].
    all: fold (syms_of (leaves (s + 1) hist)).
    + split; [constructor; [|done]; intros (c' & H1 & _)%E; lia|].
      split; [|split_and!; [by constructor|lia|lia]]. intros t. rewrite elem_of_cons, E, Shift. split.
      * intros [->|(c' & H1 & H2)]; [exists c; rewrite Z.sub_diag; by split_and!; [lia| |] | exists c'; split; [lia|done]].
      * intros (c' & H1 & H2). destruct (decide (t = s)); [by left|right]. exists c'. split; [lia|done].
    + split; [done|]. split; [|split_and!; [done|lia|lia]]. intros t. rewrite E, Shift. split.
      * intros (c' & H1 & H2). exists c'. split; [lia|done].
      * intros (c' & H1 & H2 & H3). exists c'. split; [|done]. destruct (decide (t = s)) as [->|]; [|lia].
        rewrite Z.sub_diag in H2. cbn in H2. injection H2. lia.
Qed.

(** *** Staying in the code space *)

Lemma kraft_insert lens : forall s l v, lens !! s = Some l ->
  kraft_sum (<[s := v]> lens) = kraft_sum lens - share l + share v.
Proof.
  induction lens as [|x lens IH]; intros [|s] l v H; cbn in H; [done|done| |].
  - injection H as ->. cbn. lia.
  - change (share x + kraft_sum (<[s := v]> lens) = share x + kraft_sum lens - share l + share v).
    rewrite (IH s l v H). lia.
Qed.

Lemma deepest_spec lens : forall s best,
  match deepest s lens best with
  | Some t => (exists bl, best = Some (t, bl)) \/
              (s <= t /\ exists l, lens !! Z.to_nat (t - s) = Some l /\ 0 < l < MAX_LEN)
  | None => best = None /\ Forall (fun l => ~ (0 < l < MAX_LEN)) lens
  end.
Proof.
  induction lens as [|l lens IH]; intros s best; cbn [deepest].
  - destruct best as [[t bl]|]; cbn; [left; eauto|split; [done|constructor]].
  - set (best' := if _ && _ then _ else best). specialize (IH (s + 1) best').
    assert (Hb : best' = best \/ best' = Some (s, l) /\ 0 < l < MAX_LEN).
    { subst best'. destruct (Z.ltb_spec 0 l), (Z.ltb_spec l MAX_LEN); cbn; [|by left..].
      destruct best as [[? bl]|]; [destruct (bl <=? l)|]; [right|left|right]; done || lia. }
    destruct (deepest (s + 1) lens best') as [t|].
    + destruct IH as [(bl & E)|(Hle & l' & E & R)].
      * destruct Hb as [Hb|[Hb R]]; [left; exists bl; congruence|].
        right. assert (t = s) as -> by congruence. split; [lia|]. exists l. rewrite Z.sub_diag. done.
      * right. split; [lia|]. exists l'. replace (Z.to_nat (t - s)) with (S (Z.to_nat (t - (s + 1)))) by lia. done.
    + destruct IH as [E F]. destruct Hb as [Hb|[Hb R]]; [|congruence]. split; [congruence|]. constructor; [|done].
      intros R. subst best'. destruct (Z.ltb_spec 0 l), (Z.ltb_spec l MAX_LEN); [|lia..]. cbn in E.
      destruct best as [[? bl]|]; [destruct (bl <=? l)|]; done.
Qed.

(** With every code at full depth the space cannot be over-full. *)
Lemma kraft_full_depth lens : Forall (fun l => 0 <= l <= MAX_LEN) lens -> Forall (fun l => ~ (0 < l < MAX_LEN)) lens ->
  kraft_sum lens <= blen lens.
Proof.
  intros R F. induction lens as [|l lens IH]; [done|]. cbn [kraft_sum foldr]. fold (kraft_sum lens).
  inversion_clear R as [|? ? R1 R2]. inversion_clear F as [|? ? F1 F2]. specialize (IH R2 F2). rewrite blen_cons.
  unfold share. destruct (Z.ltb_spec 0 l); [|lia]. assert (l = MAX_LEN) as -> by lia. rewrite Z.sub_diag. change (Z.shiftl 1 0) with 1. lia.
Qed.

Lemma rebalance_spec fuel : forall lens,
  length lens = 256%nat -> Forall (fun l => 0 <= l <= MAX_LEN) lens -> kraft_sum lens <= Z.of_nat fuel ->
  exists lens', rebalance fuel (kraft_sum lens) lens = Ret lens' /\ valid lens' /\
    forall t, 0 <= t -> (0 < at_ lens t -> 0 < at_ lens' t) /\ (at_ lens t = 0 -> at_ lens' t = 0).
Proof.
  induction fuel as [|fuel IH]; intros lens Hlen HF Hk; cbn [rebalance]; rewrite max_words.
  all: destruct (Z.leb_spec (kraft_sum lens) 4096) as [Hle|Hgt]; try lia.
  1, 2: by exists lens.
  pose proof (deepest_spec lens 0 None) as D. destruct (deepest 0 lens None) as [s|]; cbn.
  - destruct D as [[? ?]|(Hs & l & E & R)]; [done|]. rewrite Z.sub_0_r in E. unfold index, get. rewrite E. cbn.
    pose proof (kraft_insert lens _ _ (l + 1) E) as K. rewrite <- K.
    assert (share (l + 1) < share l).
    { rewrite !share_val by lia. apply Z.pow_lt_mono_r; lia. }
    destruct (IH (<[Z.to_nat s := l + 1]> lens)) as (lens' & -> & V & A).
    { by rewrite length_insert. }
    { apply Forall_insert; [done|lia]. }
    { lia. }
    exists lens'. split_and!; [done|done|]. intros t Ht. destruct (A t Ht) as [A1 A2].
    assert (El : at_ lens s = l) by (unfold at_; by rewrite E).
    rewrite at_insert in A1, A2 by (apply lookup_lt_Some in E; unfold blen; lia).
    destruct (Z.eqb_spec t s) as [->|]; [|done]. split; intros; [apply A1|]; lia.
  - destruct D as [_ F]. pose proof (kraft_full_depth lens HF F). unfold blen in *. rewrite Hlen in *. lia.
Qed.

Lemma at_lookup lens t : 0 <= t < blen lens -> lens !! Z.to_nat t = Some (at_ lens t).
Proof. intros H. unfold at_, blen in *. destruct (lookup_lt_is_Some_2 lens (Z.to_nat t)) as [l ->]; [lia|done]. Qed.

Lemma at_zeros t : at_ (replicate 256 0) t = 0.
Proof.
  unfold at_. destruct (replicate 256 0 !! Z.to_nat t) as [l|] eqn:E; [|done].
  apply lookup_replicate in E. cbn. lia.
Qed.

Lemma Forall_at (P : Z -> Prop) lens : (forall t, 0 <= t < blen lens -> P (at_ lens t)) -> Forall P lens.
Proof.
  intros H. apply Forall_lookup. intros i l E. pose proof (lookup_lt_Some _ _ _ E).
  specialize (H (Z.of_nat i) ltac:(unfold blen; lia)). unfold at_ in H. rewrite Nat2Z.id in H.
  by rewrite E in H.
Qed.

Lemma clamp_range l : 0 <= l -> 0 <= clamp l <= MAX_LEN.
Proof. unfold clamp, MAX_LEN. lia. Qed.

Lemma at_clamp lens t : blen lens = 256 -> 0 <= t < 256 -> at_ (clamp <$> lens) t = clamp (at_ lens t).
Proof.
  intros L Ht. unfold at_ at 1. rewrite list_lookup_fmap, (at_lookup lens t) by lia. done.
Qed.

Lemma kraft_zeros n : kraft_sum (replicate n 0) = 0.
Proof. induction n as [|n IH]; [done|]. cbn [replicate kraft_sum foldr]. fold (kraft_sum (replicate n 0)). rewrite IH. done. Qed.

(** Merging, clamping and rebalancing, from two nodes on (or from none). *)
Lemma limited_lengths hist nodes : (length nodes <= 256)%nat -> length nodes <> 1%nat -> NoDup (syms_of nodes) ->
  Forall (fun n : node => length n.2 = 1%nat) nodes ->
  (forall t, t ∈ syms_of nodes <-> 0 <= t < 256 /\ 0 < at_ hist t) ->
  exists lens,
    (lens ← pair_nodes (length nodes) nodes (replicate 256 0);
     rebalance (Z.to_nat (kraft_sum (clamp <$> lens))) (kraft_sum (clamp <$> lens)) (clamp <$> lens)) = Ret lens /\
    valid lens /\ forall t, 0 <= t < 256 -> (0 < at_ hist t <-> 0 < at_ lens t).
Proof.
  intros Le Hn N F E.
  destruct (pair_nodes_spec (length nodes) 0 nodes (replicate 256 0)) as (lens & -> & L & NN & U & Po); [lia|lia| |lia|].
  { split_and!; [done| |reflexivity| |].
    - apply list.Forall_forall. intros s Hs. apply E in Hs. lia.
    - intros t Ht. rewrite at_zeros. lia.
    - eapply list.Forall_impl; [exact F|]. intros [? ss] H1. cbn in *. split; [by destruct ss|by left]. }
  cbn. assert (HF : Forall (fun l => 0 <= l <= MAX_LEN) (clamp <$> lens)).
  { apply Forall_fmap. apply Forall_at. intros t Ht. apply clamp_range, NN. lia. }
  assert (Hc : length (clamp <$> lens) = 256%nat) by (rewrite length_fmap; unfold blen in L; lia).
  destruct (rebalance_spec (Z.to_nat (kraft_sum (clamp <$> lens))) (clamp <$> lens) Hc HF ltac:(lia)) as (lens' & -> & V & A).
  exists lens'. split; [done|]. split; [done|]. intros t Ht. destruct (A t ltac:(lia)) as [A1 A2].
  rewrite at_clamp in A1, A2 by done. rewrite list.Forall_forall in Po. split.
  - intros Hp. apply A1. specialize (Po t (proj2 (E t) (conj Ht Hp))). unfold clamp, MAX_LEN. lia.
  - intros Hp. destruct (Z_lt_le_dec 0 (at_ hist t)) as [|Hle]; [done|]. exfalso.
    rewrite A2 in Hp; [lia|]. rewrite U, at_zeros; [done|lia|]. intros [_ ?]%E. lia.
Qed.

(** One symbol alone gets a one-bit code. *)
Lemma single_length s : 0 <= s < 256 ->
  valid (<[Z.to_nat s := 1]> (replicate 256 0)) /\
  forall t, 0 <= t -> at_ (<[Z.to_nat s := 1]> (replicate 256 0)) t = if t =? s then 1 else 0.
Proof.
  intros Rs.
  assert (Lz : replicate 256 0 !! Z.to_nat s = Some 0) by (apply lookup_replicate; split; [done|lia]). split; [split_and!|].
  - by rewrite length_insert, length_replicate.
  - apply Forall_insert; [|unfold MAX_LEN; lia]. apply Forall_replicate. unfold MAX_LEN. lia.
  - rewrite (kraft_insert _ _ _ _ Lz), kraft_zeros. vm_compute. done.
  - intros t Ht. rewrite at_insert, at_zeros by (unfold blen; rewrite ?length_replicate; lia). done.
Qed.

(** The lengths are in the code space, and exactly the symbols that occur have
    a code. *)
Lemma code_lengths_spec hist : length hist = 256%nat ->
  exists lens, code_lengths hist = Ret lens /\ valid lens /\
    forall t, 0 <= t < 256 -> (0 < at_ hist t <-> 0 < at_ lens t).
Proof.
  intros Hlen. destruct (leaves_spec hist 0 ltac:(lia)) as (N & E & F & _ & Le). unfold code_lengths.
  assert (E' : forall t, t ∈ syms_of (leaves 0 hist) <-> 0 <= t < 256 /\ 0 < at_ hist t).
  { intros t. rewrite E, Z.sub_0_r. split.
    - intros (c & H1 & H2 & H3). pose proof (lookup_lt_Some _ _ _ H2). split; [lia|]. unfold at_. by rewrite H2.
    - intros (H1 & H2). exists (at_ hist t). split; [lia|]. split; [|done]. apply at_lookup. unfold blen. lia. }
  pose proof (limited_lengths hist (leaves 0 hist) ltac:(lia)) as General.
  destruct (leaves 0 hist) as [|[c ss] [|]]; [by apply General| |destruct ss; by apply General].
  inversion_clear F as [|? ? Fs _]. destruct ss as [|s [|]]; [done| |done]. cbn in E'.
  destruct (proj1 (E' s) ltac:(constructor)) as (Rs & _). destruct (single_length s Rs) as (V & A).
  exists (<[Z.to_nat s := 1]> (replicate 256 0)). split; [done|]. split; [done|]. intros t Ht. rewrite A by lia.
  destruct (Z.eqb_spec t s) as [->|Hne].
  - split; [lia|]. intros _. apply (E' s). constructor.
  - split; [|lia]. intros Hp. destruct Hne. apply list_elem_of_singleton, E'. done.
Qed.

(** ** Histograms and costs *)

Definition total_cost (hist lens : list Z) : Z := foldr Z.add 0 (zip_with Z.mul hist lens).

Lemma count_bytes_length input : forall hist, length (count_bytes input hist) = length hist.
Proof. induction input as [|b r IH]; intros hist; cbn; [done|]. by rewrite IH, length_alter. Qed.

Lemma count_bytes_at input : forall hist t, length hist = 256%nat -> 0 <= t < 256 ->
  at_ (count_bytes input hist) t = at_ hist t + blen (filter (fun b => bz b = t) input).
Proof.
  induction input as [|b r IH]; intros hist t Hl Ht; cbn [count_bytes].
  - change (blen _) with 0. lia.
  - rewrite IH by (by rewrite ?length_alter). destruct (decide (bz b = t)) as [<-|Hne].
    + rewrite filter_cons_True by done. rewrite blen_cons. unfold at_. rewrite list_lookup_alter_eq.
      destruct (lookup_lt_is_Some_2 hist (Z.to_nat (bz b))) as [l ->]; [lia|]. cbn. lia.
    + rewrite filter_cons_False by done. unfold at_. rewrite list_lookup_alter_ne; [done|].
      pose proof (bz_range b). lia.
Qed.

(** A histogram counts what occurs. *)
Lemma histogram_pos input t : 0 <= t < 256 ->
  0 < at_ (count_bytes input (replicate 256 0)) t <-> zb t ∈ input.
Proof.
  intros Ht. rewrite count_bytes_at, at_zeros by (by rewrite ?length_replicate). cbn. split.
  - intros H. destruct (filter (fun b => bz b = t) input) as [|b l] eqn:E; [change (blen (@nil byte)) with 0 in H; lia|].
    assert (I : b ∈ filter (fun b => bz b = t) input) by (rewrite E; constructor).
    apply list_elem_of_filter in I as [<- I]. by rewrite zb_bz.
  - intros I. assert (J : zb t ∈ filter (fun b => bz b = t) input).
    { apply list_elem_of_filter. split; [|done]. rewrite bz_zb. apply Z.mod_small. lia. }
    destruct (filter (fun b => bz b = t) input); [by apply not_elem_of_nil in J|]. blen_lia.
Qed.

Lemma len_of_at lens b : length lens = 256%nat -> len_of lens b = at_ lens (bz b).
Proof.
  intros H. unfold len_of, at_. pose proof (byte_nat_lt b).
  destruct (lookup_lt_is_Some_2 lens (Z.to_nat (bz b))) as [l E]; [lia|].
  by rewrite (list_lookup_total_correct _ _ _ E), E.
Qed.

(** A cost exists exactly when every byte that occurs has a code. *)
Lemma cost_bits_covers hist : forall lens, length hist = length lens ->
  (forall c, c ∈ hist -> 0 <= c) ->
  cost_bits hist lens = if forallb (fun p : Z * Z => negb ((0 <? p.1) && (p.2 =? 0))) (zip hist lens)
                        then Some (total_cost hist lens) else None.
Proof.
  induction hist as [|c hist IH]; intros [|l lens] Hl Hc; try done.
  cbn [cost_bits zip_with forallb total_cost foldr fst snd]. fold (total_cost hist lens).
  assert (0 <= c) by (apply Hc; constructor).
  rewrite IH; [|cbn in Hl; lia|intros x Hx; apply Hc; by constructor].
  destruct (Z.ltb_spec 0 c); cbn [andb negb].
  - destruct (l =? 0); cbn [negb andb]; [done|]. destruct (forallb _ _); done.
  - assert (c = 0) as -> by lia. rewrite Z.mul_0_l, Z.add_0_l. done.
Qed.

Lemma total_cost_alter i : forall hist lens, (i < length hist)%nat -> length hist = length lens ->
  total_cost (alter (Z.add 1) i hist) lens = total_cost hist lens + at_ lens (Z.of_nat i).
Proof.
  unfold at_. rewrite Nat2Z.id. induction i as [|i IH]; intros [|c hist] [|l lens] Hi Hl; cbn in Hi; try lia; try done.
  - unfold total_cost. cbn. lia.
  - change (c * l + total_cost (alter (Z.add 1) i hist) lens = c * l + total_cost hist lens + default 0 (lens !! i)).
    rewrite IH by (cbn in Hl; lia). lia.
Qed.

Lemma total_cost_coded lens input : length lens = 256%nat -> forall hist, length hist = 256%nat ->
  total_cost (count_bytes input hist) lens = total_cost hist lens + coded_bits lens input.
Proof.
  intros HL. induction input as [|b r IH]; intros hist Hh; cbn [count_bytes coded_bits foldr]; [lia|].
  fold (coded_bits lens r). rewrite IH by by rewrite length_alter.
  rewrite total_cost_alter by (rewrite ?Hh; apply byte_nat_lt || congruence).
  pose proof (bz_range b). rewrite Z2Nat.id, len_of_at by (done || lia). lia.
Qed.

Lemma count_bytes_nonneg input : forall hist, (forall c, c ∈ hist -> 0 <= c) ->
  forall c, c ∈ count_bytes input hist -> 0 <= c.
Proof.
  induction input as [|b r IH]; intros hist Hh; cbn; [done|]. apply IH. intros c (i & E)%list_elem_of_lookup.
  destruct (decide (i = Z.to_nat (bz b))) as [->|].
  - rewrite list_lookup_alter_eq in E. destruct (hist !! Z.to_nat (bz b)) as [y|] eqn:Ey; [|done].
    injection E as <-. apply list_elem_of_lookup_2, Hh in Ey. lia.
  - rewrite list_lookup_alter_ne in E by done. by apply list_elem_of_lookup_2, Hh in E.
Qed.

(** The cost of an input is the bits its codes take, and it has one exactly
    when it is covered. *)
Lemma cost_bits_spec lens input : valid lens ->
  match cost_bits (count_bytes input (replicate 256 0)) lens with
  | Some bits => bits = coded_bits lens input /\ covers lens input
  | None => ~ covers lens input
  end.
Proof.
  intros (HL & HR & _). set (hist := count_bytes input (replicate 256 0)).
  assert (Hh : length hist = 256%nat) by (subst hist; by rewrite count_bytes_length, length_replicate).
  rewrite cost_bits_covers; [|congruence|apply count_bytes_nonneg; intros c H; apply elem_of_replicate in H; lia].
  assert (Cov : covers lens input <-> forallb (fun p : Z * Z => negb ((0 <? p.1) && (p.2 =? 0))) (zip hist lens) = true).
  { rewrite forallb_forall. unfold covers. rewrite list.Forall_forall. split.
    - intros C [c l] (i & E)%list_elem_of_In%list_elem_of_lookup. cbn.
      apply lookup_zip_Some in E as [E1 E2]. pose proof (lookup_lt_Some _ _ _ E1).
      destruct (Z.ltb_spec 0 c) as [Hc|]; [|done]. destruct (Z.eqb_spec l 0) as [->|]; [|done]. exfalso.
      assert (I : zb (Z.of_nat i) ∈ input).
      { apply histogram_pos; [lia|]. fold hist. unfold at_. by rewrite Nat2Z.id, E1. }
      specialize (C _ I). rewrite len_of_at in C by done. rewrite bz_zb, Z.mod_small in C by lia.
      unfold at_ in C. rewrite Nat2Z.id, E2 in C. cbn in C. lia.
    - intros C b Hb. pose proof (bz_range b) as B. pose proof (len_of_range lens b HR).
      assert (0 < at_ hist (bz b)) as P by (apply histogram_pos; [done|by rewrite zb_bz]).
      destruct (decide (len_of lens b = 0)) as [Z0|]; [|lia]. exfalso. rewrite len_of_at in Z0 by done.
      specialize (C (at_ hist (bz b), at_ lens (bz b))). cbn in C.
      rewrite (proj2 (Z.ltb_lt _ _) P), (proj2 (Z.eqb_eq _ _) Z0) in C. cbn in C. discriminate C.
      apply list_elem_of_In, list_elem_of_lookup. exists (Z.to_nat (bz b)). apply lookup_zip_Some.
      split; apply at_lookup; unfold blen; lia. }
  destruct (forallb _ _).
  - split; [|by apply Cov]. subst hist. rewrite total_cost_coded by (done || by rewrite length_replicate).
    enough (total_cost (replicate 256 0) lens = 0) by lia. clear. unfold total_cost. generalize 256%nat as n.
    intros n. revert lens. induction n as [|n IH]; intros [|l lens]; try done. cbn. apply IH.
  - intros C. by apply Cov in C.
Qed.

(** ** The packed header *)

Lemma unpack_pack lens : Nat.Even (length lens) -> Forall (fun l => 0 <= l < 16) lens -> unpack_lens (pack_lens lens) = lens.
Proof.
  intros [n Hn] HF. revert lens Hn HF. induction n as [|n IH]; intros lens Hn HF.
  - by destruct lens.
  - destruct lens as [|a [|b lens]]; cbn in Hn; [lia|lia|].
    inversion_clear HF as [|? ? Ra HF']. inversion_clear HF' as [|? ? Rb HF''].
    cbn [pack_lens unpack_lens flat_map]. fold (unpack_lens (pack_lens lens)). rewrite IH by (done || lia).
    rewrite lor_shift_add by (change (2 ^ 4) with 16; lia). rewrite bz_zb. change (2 ^ 4) with 16.
    rewrite Z.mod_small by lia. change 15 with (Z.ones 4). rewrite Z.land_ones, Z.shiftr_div_pow2 by lia.
    change (2 ^ 4) with 16. rewrite Z.mul_comm, Z.mod_add, Z.mod_small, Z.div_add, Z.div_small by lia. done.
Qed.

Lemma pack_lens_length lens : Nat.Even (length lens) -> blen (pack_lens lens) * 2 = blen lens.
Proof.
  intros [n Hn]. revert lens Hn. induction n as [|n IH]; intros lens Hn; [by destruct lens|].
  destruct lens as [|a [|b lens]]; cbn in Hn; [lia|lia|]. cbn [pack_lens]. rewrite !blen_cons.
  specialize (IH lens ltac:(lia)). lia.
Qed.

Lemma valid_even lens : valid lens -> Nat.Even (length lens).
Proof. intros (-> & _). exists 128%nat. done. Qed.

Lemma valid_nibbles lens : valid lens -> Forall (fun l => 0 <= l < 16) lens.
Proof. intros (_ & H & _). eapply list.Forall_impl; [exact H|]. intros l. unfold MAX_LEN. cbn. lia. Qed.

Lemma kraft_nonneg lens : 0 <= kraft_sum lens.
Proof.
  induction lens as [|x lens IH]; [done|]. cbn [kraft_sum foldr]. fold (kraft_sum lens). pose proof (share_nonneg x). lia.
Qed.

Lemma kraft_pos lens l : l ∈ lens -> 0 < l <= MAX_LEN -> 0 < kraft_sum lens.
Proof.
  intros H R. induction lens as [|x lens IH]; [by apply not_elem_of_nil in H|].
  cbn [kraft_sum foldr]. fold (kraft_sum lens). pose proof (share_nonneg x). pose proof (kraft_nonneg lens).
  apply elem_of_cons in H as [<-|H]; [|specialize (IH H); lia].
  rewrite share_val by lia. pose proof (Z.pow_pos_nonneg 2 (MAX_LEN - l) ltac:(lia) ltac:(lia)). lia.
Qed.

Lemma validate_valid lens n : valid lens -> (n <= 0 \/ exists b, 0 < len_of lens b) -> validate_lens lens n = true.
Proof.
  intros (HL & HR & HK) Hn. unfold validate_lens. rewrite !andb_true_iff. split; [split|].
  - apply forallb_forall. intros l I%list_elem_of_In. rewrite list.Forall_forall in HR. specialize (HR l I). cbn in HR.
    apply Z.leb_le. lia.
  - by apply Z.leb_le.
  - destruct Hn as [Hn|[b Hb]]; [destruct (Z.ltb_spec 0 n); [lia|done]|].
    assert (0 < kraft_sum lens); [|destruct (Z.eqb_spec (kraft_sum lens) 0); [lia|by rewrite andb_false_r]].
    apply (kraft_pos lens (len_of lens b)); [|pose proof (len_of_range lens b HR); lia].
    rewrite len_of_at by done. apply list_elem_of_lookup. exists (Z.to_nat (bz b)). apply at_lookup.
    pose proof (bz_range b). unfold blen. lia.
Qed.

(** Lengths a header may carry are valid when they pass the check. *)
Lemma validate_lens_sound header n : blen header = 128 -> validate_lens (unpack_lens header) n = true -> valid (unpack_lens header).
Proof.
  intros HB. unfold validate_lens. rewrite !andb_true_iff. intros ((HM & HK) & _). split_and!.
  - assert (forall h, length (unpack_lens h) = (2 * length h)%nat) as ->.
    { intros h. induction h as [|b h IH]; [done|]. cbn [unpack_lens flat_map app length]. fold (unpack_lens h). rewrite IH. lia. }
    unfold blen in HB. lia.
  - apply list.Forall_forall. intros l I. rewrite forallb_forall in HM. specialize (HM l ltac:(by apply list_elem_of_In)).
    apply Z.leb_le in HM. split; [|done]. apply list_elem_of_In, in_flat_map in I as (b & _ & I).
    pose proof (bz_range b). destruct I as [<-|[<-|[]]]; [apply Z.land_nonneg|apply Z.shiftr_nonneg]; lia.
  - by apply Z.leb_le in HK.
Qed.

(** ** Theorems *)

(** C35: The lengths [code_lengths] computes for any histogram exist (no [expect]
    fails, no length overflows its byte), pass the decoder's validation, and
    give a code to exactly the symbols that occur. *)
Theorem code_lengths_make_a_code (hist : list Z) (Hlen : length hist = 256%nat) :
  exists lens, code_lengths hist = Ret lens /\ length lens = 256%nat /\
    Forall (fun l => 0 <= l <= MAX_LEN) lens /\ kraft_sum lens <= 2 ^ MAX_LEN /\
    (forall s c, hist !! s = Some c -> exists l, lens !! s = Some l /\ (0 < c <-> 0 < l)).
Proof.
  destruct (code_lengths_spec hist Hlen) as (lens & -> & V & A). pose proof V as (L & R & K). exists lens.
  split_and!; [done|done|done|done|]. intros s c E. pose proof (lookup_lt_Some _ _ _ E).
  specialize (A (Z.of_nat s) ltac:(lia)). exists (at_ lens (Z.of_nat s)).
  pose proof (at_lookup lens (Z.of_nat s) ltac:(unfold blen; lia)) as Q. rewrite Nat2Z.id in Q. split; [done|].
  rewrite <- A. unfold at_. by rewrite Nat2Z.id, E.
Qed.

Lemma code_lengths_make_a_code_witness :
  exists lens, code_lengths (count_bytes (bs "abracadabra") (replicate 256 0)) = Ret lens /\ kraft_sum lens <= 2 ^ MAX_LEN.
Proof.
  destruct (code_lengths_make_a_code (count_bytes (bs "abracadabra") (replicate 256 0)) ltac:(reflexivity))
    as (lens & E & _ & _ & K & _).
  exists lens. split; [exact E|exact K].
Defined.

(** For lengths in the code space, an entry of the flat decode table names a
    symbol and a length exactly when the word indexing it starts, in reading
    order, with that symbol's canonical code; the other entries are free. *)
Theorem table_holds_the_code (lens : list Z) (x s l : Z) (V : valid lens) (Hx : 0 <= x < 4096) :
  exists e, get (build_decode_table lens) x = Some e /\
  (e = (s, l) /\ 0 < l <->
   0 <= s /\ get lens s = Some l /\ 0 < l /\
   exists c, get (canonical_codes lens) s = Some c /\ x mod 2 ^ l = reverse c l).
Proof.
  destruct (place_codes_spec lens V lens (canonical_codes lens) 0 (replicate (Z.to_nat (Z.shiftl 1 MAX_LEN)) (0, 0))) as (L & G); [done|done| |].
  { unfold blen. by rewrite length_replicate. }
  destruct (G x Hx) as (G1 & G2). fold (build_decode_table lens) in *. clear G.
  change (place_codes (Z.of_nat 0) lens (canonical_codes lens) _) with (build_decode_table lens) in *.
  assert (Hit : 0 <= s -> get lens s = Some l -> 0 < l ->
            (exists c, get (canonical_codes lens) s = Some c /\ x mod 2 ^ l = reverse c l) -> claims lens (Z.to_nat s) x).
  { intros H0 H1 H2 (c & H3 & H4). exists l, c. split_and!; done. }
  destruct (get_lt_Some (build_decode_table lens) x ltac:(lia)) as [e E]. exists e. split; [done|]. split.
  - intros (-> & Hl).
    assert (Some_t : ~ (forall t, (0 <= t)%nat -> ~ claims lens t x)).
    { intros No. rewrite (G2 No) in E. unfold get in E. rewrite lookup_replicate_2 in E by (rewrite max_words; lia).
      injection E. lia. }
    assert (Cl : exists t, claims lens t x).
    { destruct (decide (Exists (fun t => claims lens t x) (seq 0 256))) as [Y|N].
      - apply list.Exists_exists in Y as (t & _ & ?). by exists t.
      - destruct Some_t. intros t _ C. apply N, list.Exists_exists. exists t. split; [|done].
        destruct C as (l' & c' & Hl' & _). apply lookup_lt_Some in Hl'. destruct V as (HL & _). rewrite HL in Hl'.
        apply elem_of_seq. lia. }
    destruct Cl as (t & C). pose proof C as (l' & c' & Hl' & Hc' & Hp & Hm).
    rewrite (G1 t l' ltac:(lia) Hl' C) in E. injection E as <- <-. unfold get. rewrite Nat2Z.id.
    split_and!; [lia|done|done|]. by exists c'.
  - intros (H0 & H1 & H2 & H3). split; [|done].
    specialize (G1 (Z.to_nat s) l ltac:(lia) H1 (Hit H0 H1 H2 H3)). rewrite Z2Nat.id in G1 by lia. congruence.
Qed.

Definition ab_lens : list Z := <[97%nat := 1]> (<[98%nat := 2]> (replicate 256 0)).

Lemma ab_valid : valid ab_lens.
Proof.
  split_and!; [reflexivity| |vm_compute; discriminate].
  apply Forall_insert; [apply Forall_insert; [apply Forall_replicate|]|]; unfold MAX_LEN; lia.
Qed.

Lemma table_holds_the_code_witness : exists e, get (build_decode_table ab_lens) 5 = Some e /\ e = (98, 2).
Proof.
  destruct (table_holds_the_code ab_lens 5 98 2 ab_valid ltac:(lia)) as (e & E & _ & H).
  exists e. split; [exact E|]. apply H. split; [lia|]. split; [reflexivity|]. split; [lia|].
  exists 2. split; reflexivity.
Defined.

(** What [huff::encode] returns is smaller than its input and is decoded back
    to it, whatever follows it, consuming exactly its bytes; it returns
    nothing only for an empty input or when the coded form would not be
    smaller; it never panics. *)
Lemma huff_encode_ok (input rest : list byte) :
  match huff_encode input with
  | Ret (Some coded) =>
      blen coded < blen input /\ huff_decode (coded ++ rest) (blen input) = Decoded (input, blen coded)
  | Ret None =>
      input = [] \/
      exists lens, code_lengths (count_bytes input (replicate 256 0)) = Ret lens /\
        blen input <= HEADER_LEN + blen (write_bits input lens)
  | Panic => False
  end.
Proof.
  unfold huff_encode. case_bool_decide as He; [by left|].
  destruct (code_lengths_spec (count_bytes input (replicate 256 0))) as (lens & E & V & A).
  { by rewrite count_bytes_length, length_replicate. }
  assert (C : covers lens input).
  { apply list.Forall_forall. intros b Hb. pose proof V as (L & _). rewrite len_of_at by done. pose proof (bz_range b).
    apply A; [done|]. apply histogram_pos; [done|]. by rewrite zb_bz. }
  rewrite E. cbn. pose proof (cost_bits_spec lens input V) as Cost.
  destruct (cost_bits _ lens) as [bits|]; [|done]. destruct Cost as (-> & _).
  rewrite <- (write_bits_length lens input V).
  pose proof (pack_lens_length lens (valid_even _ V)) as PL. pose proof V as (HL & _).
  assert (HB : blen (pack_lens lens) = HEADER_LEN) by (unfold blen, HEADER_LEN in *; lia).
  destruct (Z.leb_spec (blen input) (HEADER_LEN + blen (write_bits input lens))) as [Hle|Hlt]; [right; by exists lens|].
  rewrite blen_app, HB. split; [done|]. unfold huff_decode. rewrite <- app_assoc.
  pose proof (blen_nonneg (write_bits input lens ++ rest)).
  destruct (Z.ltb_spec (blen (pack_lens lens ++ write_bits input lens ++ rest)) HEADER_LEN) as [Hs|_]; [rewrite blen_app in Hs; lia|].
  cbn. rewrite <- HB, slice_from_app, unpack_pack by (by apply valid_even || by apply valid_nibbles).
  rewrite validate_valid; [|done|]. 2:{ right. destruct input as [|b r]; [done|]. exists b. by inversion C. }
  cbn. rewrite from_app_len, read_back by done. cbn. by rewrite write_bits_length.
Qed.

(** ** No panic on any input *)

Lemma table_length lens : valid lens -> blen (build_decode_table lens) = 4096.
Proof.
  intros V. apply (place_codes_spec lens V lens (canonical_codes lens) 0 (replicate (Z.to_nat (Z.shiftl 1 MAX_LEN)) (0, 0))); [done|done|].
  unfold blen. by rewrite length_replicate.
Qed.

(** Lengths in a table are not negative. *)
Definition entries_ok (table : list (Z * Z)) : Prop := blen table = 4096 /\ Forall (fun e => 0 <= e.2) table.

Lemma fill_entries n : forall ix step e table, 0 <= e.2 -> Forall (fun e : Z * Z => 0 <= e.2) table ->
  Forall (fun e : Z * Z => 0 <= e.2) (fill n ix step e table).
Proof.
  induction n as [|n IH]; intros ix step e table He HF; cbn [fill]; [done|]. destruct (_ <? _); [|done].
  apply IH; [done|]. by apply Forall_insert.
Qed.

Lemma place_entries lens : Forall (fun l => 0 <= l <= MAX_LEN) lens -> forall s codes table,
  Forall (fun e : Z * Z => 0 <= e.2) table -> Forall (fun e : Z * Z => 0 <= e.2) (place_codes s lens codes table).
Proof.
  induction 1 as [|l lens Hl HF IH]; intros s codes table HT; cbn [place_codes]; [done|]. destruct codes as [|c codes]; [done|].
  apply IH. destruct (l =? 0); [done|]. apply fill_entries; [cbn; lia|done].
Qed.

Lemma table_entries lens : valid lens -> entries_ok (build_decode_table lens).
Proof.
  intros V. split; [by apply table_length|]. destruct V as (_ & HR & _). apply place_entries; [done|]. apply Forall_replicate. cbn. lia.
Qed.

Lemma refill_bits stream : forall acc nbits,
  let '(rest, a, k) := refill stream acc nbits in k + 8 * blen rest = nbits + 8 * blen stream.
Proof.
  induction stream as [|b r IH]; intros acc nbits; cbn [refill]; [done|]. destruct (_ <? _); [|done].
  specialize (IH (Z.lor acc (Z.shiftl (bz b) nbits)) (nbits + 8)). destruct (refill _ _ _) as [[rest a] k]. rewrite blen_cons. lia.
Qed.

(** Reading never indexes out of the table; what it returns has as many bytes
    as asked for, took a bit or more for each, and no more than there were. *)
Lemma read_loop_safe table n : entries_ok table -> forall stream acc nbits,
  match read_loop n stream table acc nbits with
  | Decoded (out, used) => length out = n /\ Z.of_nat n <= used /\ (used = 0 \/ used <= nbits + 8 * blen stream)
  | DecodeError => True
  | Crashed => False
  end.
Proof.
  intros [HT HE]. induction n as [|n IH]; intros stream acc nbits; cbn [read_loop]; [split_and!; [done|done|by left]|].
  pose proof (refill_bits stream acc nbits) as RB. destruct (refill stream acc nbits) as [[rest a] k].
  assert (W : 0 <= Z.land a (Z.shiftl 1 MAX_LEN - 1) < 4096).
  { rewrite max_words. change (4096 - 1) with (Z.ones 12). rewrite Z.land_ones by lia. apply Z.mod_pos_bound. lia. }
  unfold index. destruct (get_lt_Some table _ ltac:(rewrite HT; exact W)) as [[sym l] E]. rewrite E. cbn.
  rewrite list.Forall_forall in HE. assert (Hl : 0 <= l) by (apply (HE (sym, l)), (list_elem_of_lookup_2 _ _ _ E)).
  destruct ((l =? 0) || (k <? l)) eqn:G; cbn; [done|]. apply orb_false_iff in G as [G1%Z.eqb_neq G2%Z.ltb_ge].
  specialize (IH rest (Z.shiftr a l) (k - l)).
  destruct (read_loop n rest table (Z.shiftr a l) (k - l)) as [[out used]| |]; cbn; [|done|done].
  destruct IH as (L & U & B). split_and!; [cbn; lia|lia|]. right. pose proof (blen_nonneg rest).
  destruct B; lia.
Qed.

Lemma read_bits_with_safe stream table n : entries_ok table -> 0 <= n ->
  match read_bits_with stream table n with
  | Decoded (out, used) => blen out = n /\ n <= used <= 8 * blen stream
  | DecodeError => True
  | Crashed => False
  end.
Proof.
  intros HE Hn. unfold read_bits_with. pose proof (read_loop_safe table (Z.to_nat n) HE stream 0 0) as R.
  destruct (read_loop _ _ _ _ _) as [[out used]| |]; [|done|done]. destruct R as (L & U & B). pose proof (blen_nonneg stream).
  unfold blen in *. split; [lia|]. destruct B; lia.
Qed.

Lemma div_ceil8_bound a : a <= 8 * div_ceil8 a.
Proof.
  unfold div_ceil8. pose proof (Z.div_mod (a + 7) 8 ltac:(lia)). pose proof (Z.mod_pos_bound (a + 7) 8 ltac:(lia)). lia.
Qed.

Lemma huff_decode_safe buf n : 0 <= n ->
  match huff_decode buf n with
  | Decoded (out, used) => blen out = n /\ n <= 8 * used
  | DecodeError => True
  | Crashed => False
  end.
Proof.
  intros Hn. unfold huff_decode. destruct (Z.ltb_spec (blen buf) HEADER_LEN) as [|Hge]; cbn; [done|].
  destruct (validate_lens (unpack_lens (slice buf 0 HEADER_LEN)) n) eqn:E; cbn; [|done].
  apply validate_lens_sound in E; [|apply blen_slice; unfold HEADER_LEN in *; lia].
  pose proof (read_bits_with_safe (from buf HEADER_LEN) _ n (table_entries _ E) Hn) as R. unfold read_bits.
  destruct (read_bits_with _ _ _) as [[out used]| |]; cbn; [|done|done].
  destruct R as (R1 & R2). pose proof (div_ceil8_bound used). unfold HEADER_LEN. lia.
Qed.

(** A block that decodes was given the room it asked for. *)
Lemma symbols_fit_enough stream table n out used : entries_ok table -> 0 <= n -> blen stream <= 2 ^ 50 ->
  read_bits_with stream table n = Decoded (out, used) -> symbols_fit n (blen stream) = n.
Proof.
  intros HE Hn Hs E. pose proof (read_bits_with_safe stream table n HE Hn) as R. rewrite E in R.
  unfold symbols_fit, sat_mul_add, u64_max. lia.
Qed.
