(* ===== verification/Lz.v ===== *)
(** * The LZ layer of kevy-compress ([crates/kevy-compress/src/{encode,decode}.rs])

    One match finder over the virtual history [dict ++ input], two serializers
    of the sequences it finds, and the decoders of both levels.  Positions are
    virtual: below [dict.len()] they are in the dictionary.

    [copied] says what a back-reference means: every new byte is the byte
    [dist] before it.  The three copy shapes of [copy_match] do exactly that
    ([copy_match_copied]); the match finder only emits sequences of which the
    input is such a copy ([collect_parses]); so the decoders, which walk the
    same sequences, rebuild the input ([lz_rebuilds], [lz_high_rebuilds]). *)

From Stdlib Require Import ZArith Lia Bool Strings.Byte.
From stdpp Require Import base tactics list numbers.
From S2P Require Import Prelude FindCrlf Buffers Huff.

#[local] Open Scope list_scope.
#[local] Open Scope Z_scope.

(** ** Tags and bounds ([tag.rs]) *)

Definition TAG_RAW : byte := x00.
Definition TAG_LZ : byte := x01.
Definition TAG_LZ_DICT : byte := x02.
Definition TAG_LZH : byte := x03.
Definition TAG_LZH_DICT : byte := x04.
Definition MAX_OFFSET : Z := 65535.

Definition MIN_INPUT : Z := 8.
Definition MIN_MATCH : Z := 4.
Definition HT_BITS : Z := 12.
Definition TAIL_LITERALS : Z := 5.

(** ** Variable-length integers ([lib.rs]) *)

(** [push_varint]'s loop on a [u64]: at most ten bytes. *)
Fixpoint varint_bytes (fuel : nat) (v : Z) : list byte :=
  match fuel with
  | O => []
  | S f =>
      let b := Z.land v 0x7f in
      let v := Z.shiftr v 7 in
      if v =? 0 then [zb b] else zb (Z.lor b 0x80) :: varint_bytes f v
  end.

Definition push_varint (value : Z) : list byte := varint_bytes 10 (value mod 2 ^ 64).

Fixpoint varint_loop (buf : list byte) (v shift : Z) : decoding (Z * list byte) :=
  match buf with
  | [] => DecodeError
  | b :: rest =>
      if 35 <=? shift then DecodeError
      else
        let v := Z.lor v (Z.shiftl (Z.land (bz b) 0x7f) shift) in
        if Z.land (bz b) 0x80 =? 0 then Decoded (v, rest) else varint_loop rest v (shift + 7)
  end.

Definition read_varint (buf : list byte) : decoding (Z * list byte) := varint_loop buf 0 0.

(** ** The match finder *)

(** A literal run, as virtual positions, then a back-reference. *)
Record Seq := mkSeq { lits : Z * Z; dist : Z; mlen : Z }.

(** [a - b] on a [usize] *)
Definition sub_usize (a b : Z) : exec Z := if b <=? a then Ret (a - b) else Panic.

Definition vbyte (dict input : list byte) (v : Z) : exec byte :=
  if v <? blen dict then index dict v else index input (v - blen dict).

Definition hash4 (dict input : list byte) (v : Z) : exec Z :=
  b0 ← vbyte dict input v;
  b1 ← vbyte dict input (v + 1);
  b2 ← vbyte dict input (v + 2);
  b3 ← vbyte dict input (v + 3);
  let w := from_le_bytes [b0; b1; b2; b3] in
  Ret (Z.shiftr ((w * 2654435761) mod 2 ^ 32) (32 - HT_BITS)).

(** [for v in 0..=dict.len() - MIN_MATCH] *)
Fixpoint seed_loop (n : nat) (dict : list byte) (v : Z) (table : list Z) : exec (list Z) :=
  match n with
  | O => Ret table
  | S n' =>
      h ← hash4 dict [] v;
      _ ← index table h;
      seed_loop n' dict (v + 1) (<[Z.to_nat h := as_u32 v]> table)
  end.

Definition seed (dict : list byte) (table : list Z) : exec (list Z) :=
  if blen dict <? MIN_MATCH then Ret table
  else seed_loop (Z.to_nat (blen dict - MIN_MATCH + 1)) dict 0 table.

(** [vec![0u32; 1 << HT_BITS]] *)
Definition empty_table : list Z := replicate (Z.to_nat (Z.shiftl 1 HT_BITS)) 0.

(** [&dict[dict.len() - d..]] with [d = dict.len().min(MAX_OFFSET)] *)
Definition reachable (dict : list byte) : list byte := from dict (blen dict - Z.min (blen dict) MAX_OFFSET).

Definition seeded_table (dict : list byte) : exec (list Z) := seed (reachable dict) empty_table.

(** [(0..MIN_MATCH).all(..)], from [i] on *)
Fixpoint all_equal (n : nat) (dict input : list byte) (a b i : Z) : exec bool :=
  match n with
  | O => Ret true
  | S n' =>
      x ← vbyte dict input (a + i);
      y ← vbyte dict input (b + i);
      if bool_decide (x = y) then all_equal n' dict input a b (i + 1) else Ret false
  end.

Definition matches4 (dict input : list byte) (a b : Z) : exec bool :=
  all_equal (Z.to_nat MIN_MATCH) dict input a b 0.

(** [while b + len < end && ..]: at most [end - b] turns. *)
Fixpoint extend_loop (n : nat) (dict input : list byte) (a b end_ len : Z) : exec Z :=
  match n with
  | O => Ret len
  | S n' =>
      if b + len <? end_ then
        x ← vbyte dict input (a + len);
        y ← vbyte dict input (b + len);
        if bool_decide (x = y) then extend_loop n' dict input a b end_ (len + 1) else Ret len
      else Ret len
  end.

Definition extend (dict input : list byte) (a b end_ : Z) : exec Z :=
  extend_loop (Z.to_nat (end_ - b)) dict input a b end_ 0.

(** The test that accepts a candidate. *)
Definition is_match (dict input : list byte) (cand v d : Z) : exec bool :=
  if (cand <? v) && (d <=? MAX_OFFSET) then matches4 dict input cand v else Ret false.

(** [while v + MIN_MATCH <= probe_end]; the sequences found from here on, the
    start of the closing run and whether the dictionary was used. *)
Fixpoint collect_loop (fuel : nat) (dict input : list byte) (table : list Z) (v lit_start : Z)
  (used_dict : bool) : exec (list Seq * Z * bool) :=
  let d := blen dict in
  let end_ := d + blen input in
  let probe_end := end_ - Z.min TAIL_LITERALS (blen input) in
  if probe_end <? v + MIN_MATCH then Ret ([], lit_start, used_dict)
  else
    match fuel with
    | O => Panic
    | S f =>
        h ← hash4 dict input v;
        cand ← index table h;
        let table := <[Z.to_nat h := as_u32 v]> table in
        dst ← sub_usize v cand;
        hit ← is_match dict input cand v dst;
        if hit : bool then
          len ← extend dict input cand v end_;
          r ← collect_loop f dict input table (v + len) (v + len) (used_dict || (cand <? d));
          let '(seqs, tail, used) := r : list Seq * Z * bool in
          Ret (mkSeq (lit_start, v) dst len :: seqs, tail, used)
        else collect_loop f dict input table (v + 1) lit_start used_dict
    end.

Definition collect_with (seeded : list Z) (dict input : list byte) : exec (list Seq * (Z * Z) * bool) :=
  let d := blen dict in
  r ← collect_loop (length input) dict input seeded d d false;
  let '(seqs, lit_start, used_dict) := r : list Seq * Z * bool in
  Ret (seqs, (lit_start, d + blen input), used_dict).

Definition collect_seqs (dict input : list byte) : exec (list Seq * (Z * Z) * bool) :=
  table ← seed dict empty_table; collect_with table dict input.

(** ** Serializers *)

(** [while rest >= 255]: as many turns as [rest / 255]. *)
Fixpoint ext_bytes (n : nat) (rest : Z) : list byte :=
  match n with
  | O => [zb rest]
  | S n' => xff :: ext_bytes n' (rest - 255)
  end.

Definition push_ext (value : Z) : list byte :=
  if value <? 15 then [] else ext_bytes (Z.to_nat ((value - 15) / 255)) (value - 15).

Definition token (lit_len mat : Z) : byte := zb (Z.lor (Z.shiftl (Z.min lit_len 15) 4) (Z.min mat 15)).

(** [(d as u16).to_le_bytes()] *)
Definition u16_bytes (d : Z) : list byte := [zb d; zb (Z.shiftr d 8)].

Definition run_len (r : Z * Z) : Z := Z.max 0 (r.2 - r.1).

(** [&input[r.start - d..r.end - d]] *)
Definition run_bytes (d : Z) (input : list byte) (r : Z * Z) : exec (list byte) :=
  s ← sub_usize r.1 d; e ← sub_usize r.2 d; index_range input s e.

(** [for s in seqs]; [None] once the output reaches [cap]. *)
Fixpoint fast_seqs (d : Z) (input : list byte) (seqs : list Seq) (cap : Z) (out : list byte) :
  exec (option (list byte)) :=
  match seqs with
  | [] => Ret (Some out)
  | s :: r =>
      let lit_len := run_len (lits s) in
      mat ← sub_usize (mlen s) MIN_MATCH;
      l ← run_bytes d input (lits s);
      let out := out ++ [token lit_len mat] ++ push_ext lit_len ++ l ++ u16_bytes (dist s) ++ push_ext mat in
      if cap <=? blen out then Ret None else fast_seqs d input r cap out
  end.

Definition serialize_fast (dict input : list byte) (seqs : list Seq) (tail : Z * Z) (cap : Z) :
  exec (option (list byte)) :=
  o ← fast_seqs (blen dict) input seqs cap [];
  match o with
  | None => Ret None
  | Some out =>
      let lit_len := run_len tail in
      l ← run_bytes (blen dict) input tail;
      let out := out ++ [token lit_len 0] ++ push_ext lit_len ++ l in
      Ret (if blen out <? cap then Some out else None)
  end.

(** Three literal encodings compete; the flag says which won. *)
Definition emit_literal_block (lits : list byte) (lens : option (list Z)) : exec (list byte * bool) :=
  let shared_bytes :=
    match lens with
    | None => None
    | Some l => div_ceil8 <$> cost_bits (count_bytes lits (replicate 256 0)) l
    end in
  inline ← huff_encode lits;
  let inline_len := match inline with Some c => blen c | None => u64_max end in
  let shared_len := match shared_bytes with Some n => n | None => u64_max end in
  if (shared_len <? inline_len) && (shared_len <? blen lits) then
    l ← expect lens; Ret (x02 :: write_bits lits l, true)
  else
    match inline with
    | Some coded => if blen coded <? blen lits then Ret (x01 :: coded, false) else Ret (x00 :: lits, false)
    | None => Ret (x00 :: lits, false)
    end.

(** [for s in seqs { lits.extend_from_slice(..) }] *)
Fixpoint gather (d : Z) (input : list byte) (seqs : list Seq) : exec (list byte) :=
  match seqs with
  | [] => Ret []
  | s :: r => l ← run_bytes d input (lits s); g ← gather d input r; Ret (l ++ g)
  end.

Fixpoint high_seqs (seqs : list Seq) (cap : Z) (out : list byte) : exec (option (list byte)) :=
  match seqs with
  | [] => Ret (Some out)
  | s :: r =>
      let lit_len := run_len (lits s) in
      mat ← sub_usize (mlen s) MIN_MATCH;
      let out := out ++ [token lit_len mat] ++ push_ext lit_len ++ u16_bytes (dist s) ++ push_ext mat in
      if cap <=? blen out then Ret None else high_seqs r cap out
  end.

Definition serialize_high (dict : list byte) (lens : option (list Z)) (input : list byte) (seqs : list Seq)
  (tail : Z * Z) (cap : Z) : exec (option (list byte * bool)) :=
  g ← gather (blen dict) input seqs;
  t ← run_bytes (blen dict) input tail;
  let all_lits := g ++ t in
  block ← emit_literal_block all_lits lens;
  let '(bytes, used_shared) := block : list byte * bool in
  o ← high_seqs seqs cap (push_varint (blen all_lits) ++ bytes);
  match o with
  | None => Ret None
  | Some out =>
      let lit_len := run_len tail in
      let out := out ++ [token lit_len 0] ++ push_ext lit_len in
      Ret (if blen out <? cap then Some (out, used_shared) else None)
  end.

(** [match seeded { Some(t) => collect_with(..), None => collect(..) }] *)
Definition collected (seeded : option (list Z)) (dict input : list byte) : exec (list Seq * (Z * Z) * bool) :=
  match seeded with
  | Some t => collect_with t dict input
  | None => collect_seqs dict input
  end.

(** The payload and the tag, or no payload when raw wins. *)
Definition try_lz (dict : list byte) (seeded : option (list Z)) (input : list byte) :
  exec (byte * option (list byte)) :=
  let dict := reachable dict in
  c ← collected seeded dict input;
  let '(seqs, tail, used_dict) := c : list Seq * (Z * Z) * bool in
  o ← serialize_fast dict input seqs tail (blen input);
  match o with
  | Some payload => Ret (if used_dict : bool then TAG_LZ_DICT else TAG_LZ, Some payload)
  | None => Ret (TAG_LZ, None)
  end.

Definition try_high (dict : list byte) (lens : option (list Z)) (seeded : option (list Z)) (input : list byte) :
  exec (byte * option (list byte)) :=
  let dict := reachable dict in
  c ← collected seeded dict input;
  let '(seqs, tail, used_dict) := c : list Seq * (Z * Z) * bool in
  fast ← serialize_fast dict input seqs tail (blen input);
  let cap := match fast with Some p => blen p | None => blen input end in
  high ← serialize_high dict lens input seqs tail cap;
  match high with
  | Some (payload, used_shared) =>
      Ret (if used_dict || used_shared then TAG_LZH_DICT else TAG_LZH, Some payload)
  | None =>
      match fast with
      | Some payload => Ret (if used_dict : bool then TAG_LZ_DICT else TAG_LZ, Some payload)
      | None => Ret (TAG_LZ, None)
      end
  end.

(** ** The decoders *)

(** [a + b] on a [usize]: a panic when it overflows. *)
Definition add_usize (a b : Z) : decoding Z := if u64_max <? a + b then Crashed else Decoded (a + b).

(** [a.checked_add(b).ok_or(DecodeError)?] *)
Definition checked_add (a b : Z) : decoding Z := if u64_max <? a + b then DecodeError else Decoded (a + b).

(** The loop of [read_len]: the total and the position after it. *)
Fixpoint len_loop (n : nat) (payload : list byte) (p total : Z) : decoding (Z * Z) :=
  match n with
  | O => DecodeError
  | S n' =>
      b ← or_corrupt (get payload p);
      total ← checked_add total (bz b);
      if bool_decide (b = xff) then len_loop n' payload (p + 1) total else Decoded (total, p + 1)
  end.

Definition read_len (payload : list byte) (p nibble : Z) : decoding (Z * Z) :=
  if nibble <? 15 then Decoded (nibble, p) else len_loop (length payload) payload p 15.

(** [out.extend_from_within(s..e)] *)
Definition extend_within (out : list byte) (s e : Z) : exec (list byte) :=
  l ← index_range out s e; Ret (out ++ l).

(** The doubling loop of an overlapping copy. *)
Fixpoint copy_loop (fuel : nat) (out : list byte) (start remaining : Z) : exec (list byte) :=
  match fuel with
  | O => Panic
  | S f =>
      let avail := blen out - start in
      if remaining <=? avail then extend_within out start (start + remaining)
      else out ← extend_within out start (start + avail); copy_loop f out start (remaining - avail)
  end.

(** [copy_match]; the recursive call starts inside the output, so one level
    of recursion is all there is. *)
Fixpoint copy_match_at (depth : nat) (dict out : list byte) (dst len : Z) : exec (list byte) :=
  match depth with
  | O => Panic
  | S dp =>
      if dst <=? blen out then
        let start := blen out - dst in
        if len <=? dst then extend_within out start (start + len)
        else copy_loop (Z.to_nat len) out start len
      else
        dstart ← sub_usize (blen dict) (dst - blen out);
        let in_dict := Z.min (blen dict - dstart) len in
        l ← index_range dict dstart (dstart + in_dict);
        let out := out ++ l in
        let rest := len - in_dict in
        if 0 <? rest then copy_match_at dp dict out dst rest else Ret out
  end.

Definition copy_match (dict out : list byte) (dst len : Z) : exec (list byte) := copy_match_at 2 dict out dst len.

(** What is reserved for the output before the frame has been walked. *)
Definition reserve_for (orig_len payload_len : Z) : Z := Z.min orig_len (sat_mul_add payload_len 256 1024).

(** The offset, the match length and the copy: the second half of a turn of
    either decoder. *)
Definition read_match (dict payload : list byte) (p : Z) (tok : byte) (out : list byte) (orig_len : Z) :
  decoding (list byte * Z) :=
  _ ← reject (blen payload <? p + 2);
  let dst := from_le_bytes (slice payload p (p + 2)) in
  r ← read_len payload (p + 2) (Z.land (bz tok) 15);
  let '(n, p) := r : Z * Z in
  len ← add_usize n 4;
  _ ← reject ((dst =? 0) || (blen out + blen dict <? dst));
  room ← add_usize (blen out) len;
  _ ← reject (orig_len <? room);
  out ← run (copy_match dict out dst len);
  Decoded (out, p).

Fixpoint lz_loop (fuel : nat) (dict payload : list byte) (orig_len : Z) (p : Z) (out : list byte) :
  decoding (list byte) :=
  match fuel with
  | O => Crashed
  | S f =>
      tok ← or_corrupt (get payload p);
      r ← read_len payload (p + 1) (Z.shiftr (bz tok) 4);
      let '(lit_len, p) := r : Z * Z in
      lit_end ← checked_add p lit_len;
      _ ← reject ((blen payload <? lit_end) || (orig_len <? blen out + lit_len));
      l ← run (index_range payload p lit_end);
      let out := out ++ l in
      if lit_end =? blen payload then Decoded out
      else
        m ← read_match dict payload lit_end tok out orig_len;
        let '(out, p) := m : list byte * Z in
        lz_loop f dict payload orig_len p out
  end.

Definition lz (dict payload : list byte) (orig_len : Z) : decoding (list byte) :=
  out ← lz_loop (S (length payload)) dict payload orig_len 0 [];
  if blen out =? orig_len then Decoded out else DecodeError.

(** The literal section by flag, and its length in bytes. *)
Definition read_literal_block (flag : byte) (rest : list byte) (lit_total : Z) (lens : option (list Z))
  (table : option (list (Z * Z))) : decoding (list byte * Z) :=
  if bool_decide (flag = x00) then
    _ ← reject (blen rest <? lit_total); Decoded (slice rest 0 lit_total, lit_total)
  else if bool_decide (flag = x01) then huff_decode rest lit_total
  else if bool_decide (flag = x02) then
    r ← match table with
        | Some t => read_bits_with rest t lit_total
        | None => l ← or_corrupt lens; read_bits rest l lit_total
        end;
    let '(out, bits) := r : list byte * Z in Decoded (out, div_ceil8 bits)
  else DecodeError.

Fixpoint high_loop (fuel : nat) (dict seqs all_lits : list byte) (orig_len : Z) (p lp : Z) (out : list byte) :
  decoding (list byte * Z) :=
  match fuel with
  | O => Crashed
  | S f =>
      tok ← or_corrupt (get seqs p);
      r ← read_len seqs (p + 1) (Z.shiftr (bz tok) 4);
      let '(lit_len, p) := r : Z * Z in
      lit_end ← checked_add lp lit_len;
      _ ← reject ((blen all_lits <? lit_end) || (orig_len <? blen out + lit_len));
      l ← run (index_range all_lits lp lit_end);
      let out := out ++ l in
      if p =? blen seqs then Decoded (out, lit_end)
      else
        m ← read_match dict seqs p tok out orig_len;
        let '(out, p) := m : list byte * Z in
        high_loop f dict seqs all_lits orig_len p lit_end out
  end.

Definition lz_high (dict : list byte) (lens : option (list Z)) (table : option (list (Z * Z)))
  (payload : list byte) (orig_len : Z) : decoding (list byte) :=
  v ← read_varint payload;
  let '(lit_total, rest) := v : Z * list byte in
  match rest with
  | [] => DecodeError
  | flag :: rest =>
      b ← read_literal_block flag rest lit_total lens table;
      let '(all_lits, seq_start) := b : list byte * Z in
      _ ← reject (blen rest <? seq_start);
      let seqs := from rest seq_start in
      r ← high_loop (S (length seqs)) dict seqs all_lits orig_len 0 0 [];
      let '(out, lp) := r : list byte * Z in
      if (blen out =? orig_len) && (lp =? blen all_lits) then Decoded out else DecodeError
  end.

(** ** Back-references *)

(** [h'] continues [h] by [n] bytes, each the byte [d] before it. *)
Definition copied (h h' : list byte) (d n : Z) : Prop :=
  exists e, h' = h ++ e /\ blen e = n /\
    forall i, blen h <= i < blen h + n -> get h' i = get h' (i - d).

Lemma get_ext {A} (l k : list A) : (forall i, 0 <= i -> get l i = get k i) -> l = k.
Proof.
  intros H. apply list_eq. intros i. specialize (H (Z.of_nat i) ltac:(lia)). unfold get in H. by rewrite Nat2Z.id in H.
Qed.

(** A back-reference determines what it copies. *)
Lemma copied_unique h h1 h2 d n : 1 <= d <= blen h -> copied h h1 d n -> copied h h2 d n -> h1 = h2.
Proof.
  intros Hd (e1 & E1 & L1 & C1) (e2 & E2 & L2 & C2).
  assert (Ind : forall m i, 0 <= i -> i < blen h + Z.of_nat m -> i < blen h + n -> get h1 i = get h2 i).
  { induction m as [|m IH]; intros i H0 H1 H2.
    - subst. rewrite !get_app_l by lia. done.
    - destruct (Z.lt_ge_cases i (blen h)); [subst; by rewrite !get_app_l by lia|].
      rewrite C1, C2 by lia. apply IH; lia. }
  apply get_ext. intros i Hi. destruct (Z.lt_ge_cases i (blen h + n)).
  - apply (Ind (Z.to_nat i)); blen_pos; lia.
  - assert (get h1 i = None) as -> by (apply get_None; subst; blen_lia).
    symmetry. apply get_None; subst; blen_lia.
Qed.

Lemma copied_nil h d : copied h h d 0.
Proof. exists []. rewrite app_nil_r. split_and!; [done|done|]. intros; lia. Qed.

Lemma copied_trans h h1 h2 d n m : 0 <= n -> 0 <= m -> 1 <= d <= blen h ->
  copied h h1 d n -> copied h1 h2 d m -> copied h h2 d (n + m).
Proof.
  intros Hn Hm Hd (e1 & -> & L1 & C1) (e2 & -> & L2 & C2). exists (e1 ++ e2). rewrite app_assoc.
  split_and!; [done|blen_lia|]. intros i Hi. rewrite blen_app, L1 in C2.
  destruct (Z.lt_ge_cases i (blen h + n)) as [Hlt|Hge].
  - rewrite (get_app_l (h ++ e1) e2 i) by blen_lia. rewrite (get_app_l (h ++ e1) e2 (i - d)) by blen_lia. apply C1. lia.
  - apply C2. lia.
Qed.

(** A block copy from [d] back that does not overlap. *)
Lemma copied_block h d n : 0 <= n <= d -> d <= blen h ->
  copied h (h ++ slice h (blen h - d) (blen h - d + n)) d n.
Proof.
  intros Hn Hd. exists (slice h (blen h - d) (blen h - d + n)).
  assert (L : blen (slice h (blen h - d) (blen h - d + n)) = n) by (rewrite blen_slice; lia).
  split_and!; [done|done|]. intros i Hi. rewrite get_app_r by lia. rewrite get_app_l by lia.
  unfold get, slice. rewrite lookup_take_lt by lia. rewrite lookup_drop. f_equal. lia.
Qed.

(** Copying at a multiple of the distance, inside a run that already repeats
    with that distance. *)
Lemma copied_multiple h h' d q n : 1 <= d -> 1 <= q -> q * d <= blen h ->
  (forall i, blen h - q * d + d <= i < blen h -> get h i = get h (i - d)) ->
  n <= q * d -> copied h h' (q * d) n -> copied h h' d n.
Proof.
  intros Hd Hq Hle Per Hn (e & -> & L & C). exists e. split_and!; [done|done|]. intros i Hi.
  pose proof (blen_nonneg e) as He.
  assert (Step : forall j, blen h - q * d + d <= j < blen h -> get (h ++ e) j = get (h ++ e) (j - d)).
  { intros j Hj. rewrite !get_app_l by nia. apply Per. lia. }
  assert (Down : forall k j, 0 <= k -> blen h - q * d <= j - k * d -> j < blen h -> get (h ++ e) j = get (h ++ e) (j - k * d)).
  { intros k j Hk. revert j. pattern k. apply natlike_ind; [| |exact Hk].
    - intros j _ _. f_equal. lia.
    - intros x Hx IH j H1 H2. rewrite IH by nia. rewrite Step by nia. f_equal. lia. }
  rewrite C by lia. destruct (Z.lt_ge_cases (i - d) (blen h)) as [Hlt|Hge].
  - rewrite (Down (q - 1) (i - d)) by nia. f_equal. lia.
  - rewrite (C (i - d)) by lia. rewrite (Step (i - q * d)) by nia. f_equal. lia.
Qed.

Lemma copied_prefix p h h' d n : 1 <= d <= blen h -> copied h h' d n -> copied (p ++ h) (p ++ h') d n.
Proof.
  intros Hd (e & -> & L & C). exists e. rewrite app_assoc. split_and!; [done|done|]. intros i Hi.
  rewrite blen_app in Hi. rewrite <- app_assoc, !(get_app_r p) by lia. rewrite C by lia. f_equal. lia.
Qed.

Lemma extend_within_ok out s e : s <= e <= blen out -> extend_within out s e = Ret (out ++ slice out s e).
Proof. intros H. unfold extend_within. by rewrite index_range_ok. Qed.

Lemma copy_loop_spec d fuel : 1 <= d -> forall out start rem q,
  1 <= q -> 0 <= start -> blen out - start = q * d ->
  (forall i, start + d <= i < blen out -> get out i = get out (i - d)) ->
  0 <= rem <= Z.of_nat fuel -> (0 < fuel)%nat ->
  exists out', copy_loop fuel out start rem = Ret out' /\ copied out out' d rem.
Proof.
  intros Hd. induction fuel as [|fuel IH]; intros out start rem q Hq Hs Ha Per Hr Hf; [lia|]. cbn [copy_loop].
  assert (Block : forall n, 0 <= n <= q * d -> copied out (out ++ slice out start (start + n)) d n).
  { intros n Hn. apply (copied_multiple _ _ d q); [lia|lia|lia| |lia|].
    - intros i Hi. apply Per. lia.
    - replace start with (blen out - q * d) by lia. apply copied_block; lia. }
  destruct (Z.leb_spec rem (blen out - start)) as [Hle|Hgt].
  - rewrite extend_within_ok by lia. exists (out ++ slice out start (start + rem)). split; [done|]. apply Block. lia.
  - rewrite extend_within_ok by lia. cbn. set (out1 := out ++ slice out start (start + (blen out - start))).
    assert (B1 : copied out out1 d (blen out - start)) by (apply Block; lia).
    assert (L1 : blen out1 = blen out + q * d) by (subst out1; rewrite blen_app, blen_slice by lia; lia).
    destruct (IH out1 start (rem - (blen out - start)) (2 * q)) as (out' & -> & C); [lia|lia|lia| |nia|nia|].
    + intros i Hi. destruct B1 as (e & E & Le & C). destruct (Z.lt_ge_cases i (blen out)).
      * rewrite E, !get_app_l by lia. apply Per. lia.
      * apply C. lia.
    + exists out'. split; [done|]. replace rem with (blen out - start + (rem - (blen out - start))) by lia.
      eapply copied_trans; [nia|lia|nia|exact B1|exact C].
Qed.

Lemma copy_inside dp dict out d n : 1 <= d <= blen out -> 0 <= n ->
  exists out', copy_match_at (S dp) dict out d n = Ret out' /\ copied out out' d n.
Proof.
  intros Hd Hn. cbn [copy_match_at]. destruct (Z.leb_spec d (blen out)); [|lia].
  destruct (Z.leb_spec n d).
  - rewrite extend_within_ok by lia. eexists. split; [done|]. apply copied_block; lia.
  - apply (copy_loop_spec d (Z.to_nat n) ltac:(lia) out (blen out - d) n 1); lia.
Qed.

(** The three copy shapes are one back-reference into [dict ++ out]. *)
Lemma copy_match_copied dict out d n : 1 <= d <= blen dict + blen out -> 0 <= n ->
  exists out', copy_match dict out d n = Ret out' /\ copied (dict ++ out) (dict ++ out') d n /\ blen out' = blen out + n.
Proof.
  intros Hd Hn. assert (Len : forall out', copied (dict ++ out) (dict ++ out') d n -> blen out' = blen out + n).
  { intros out' (e & E & L & _). apply (f_equal blen) in E. rewrite !blen_app in E. lia. }
  enough (exists out', copy_match dict out d n = Ret out' /\ copied (dict ++ out) (dict ++ out') d n)
    as (out' & E & C) by (exists out'; auto).
  unfold copy_match. destruct (Z.le_gt_cases d (blen out)) as [Hle|Hgt].
  - destruct (copy_inside 1 dict out d n ltac:(lia) Hn) as (out' & -> & C). exists out'. split; [done|]. apply copied_prefix; [lia|done].
  - remember 1%nat as one eqn:E1. cbn [copy_match_at]. destruct (Z.leb_spec d (blen out)); [lia|]. unfold sub_usize.
    destruct (Z.leb_spec (d - blen out) (blen dict)); [|lia]. cbn -[copy_match_at].
    replace (blen dict - (blen dict - (d - blen out))) with (d - blen out) by lia.
    set (k := Z.min (d - blen out) n). rewrite index_range_ok by lia. cbn -[copy_match_at].
    set (piece := slice dict _ _).
    assert (First : copied (dict ++ out) (dict ++ out ++ piece) d k).
    { assert (LP : blen piece = k) by (subst piece; rewrite blen_slice; lia).
      exists piece. rewrite app_assoc. split_and!; [done|done|]. intros i Hi. rewrite blen_app in Hi.
      rewrite get_app_r by blen_lia. rewrite <- app_assoc, get_app_l by lia. subst piece.
      unfold get, slice. rewrite lookup_take_lt by (rewrite blen_app; lia). rewrite lookup_drop. f_equal. rewrite blen_app. lia. }
    destruct (Z.ltb_spec 0 (n - k)) as [Hpos|Hz].
    + subst one. assert (LP : blen (out ++ piece) = d) by (rewrite blen_app; subst piece; rewrite blen_slice by lia; lia).
      destruct (copy_inside 0 dict (out ++ piece) d (n - k) ltac:(lia) ltac:(lia)) as (out' & -> & C). exists out'. split; [done|].
      replace n with (k + (n - k)) by lia.
      eapply copied_trans; [lia|lia|rewrite blen_app; lia|exact First|]. apply copied_prefix; [lia|exact C].
    + exists (out ++ piece). split; [done|]. replace n with k by lia. exact First.
Qed.

(** ** What the match finder emits *)

Lemma vbyte_hist dict input v : 0 <= v < blen dict + blen input ->
  exists b, vbyte dict input v = Ret b /\ get (dict ++ input) v = Some b.
Proof.
  intros Hv. unfold vbyte, index. destruct (Z.ltb_spec v (blen dict)).
  - destruct (get_lt_Some dict v ltac:(lia)) as [b E]. exists b. by rewrite E, get_app_l by lia.
  - destruct (get_lt_Some input (v - blen dict) ltac:(lia)) as [b E]. exists b. by rewrite get_app_r, E by lia.
Qed.

Lemma hash4_ok dict input v : 0 <= v -> v + 4 <= blen dict + blen input ->
  exists h, hash4 dict input v = Ret h /\ 0 <= h < 4096.
Proof.
  intros H0 H1. unfold hash4.
  destruct (vbyte_hist dict input v ltac:(lia)) as (b0 & -> & _). cbn -[Z.modulo Z.pow].
  destruct (vbyte_hist dict input (v + 1) ltac:(lia)) as (b1 & -> & _). cbn -[Z.modulo Z.pow].
  destruct (vbyte_hist dict input (v + 2) ltac:(lia)) as (b2 & -> & _). cbn -[Z.modulo Z.pow].
  destruct (vbyte_hist dict input (v + 3) ltac:(lia)) as (b3 & -> & _). cbn -[Z.modulo Z.pow].
  eexists. split; [reflexivity|]. change (32 - HT_BITS) with 20. rewrite Z.shiftr_div_pow2 by lia.
  match goal with |- context [(?x mod 2 ^ 32) / _] => pose proof (Z.mod_pos_bound x (2 ^ 32) ltac:(lia)) end.
  split; [apply Z.div_pos; lia|]. apply Z.div_lt_upper_bound; lia.
Qed.

(** Bytes of the history that agree. *)
Definition agree (h : list byte) (a b i n : Z) : Prop := forall j, i <= j < n -> get h (a + j) = get h (b + j).

Lemma all_equal_ok dict input a b n : forall i,
  0 <= a -> a < b -> 0 <= i -> b + i + Z.of_nat n <= blen dict + blen input ->
  exists r, all_equal n dict input a b i = Ret r /\ (r = true -> agree (dict ++ input) a b i (i + Z.of_nat n)).
Proof.
  induction n as [|n IH]; intros i Ha Hab Hi Hn; cbn [all_equal].
  - exists true. split; [done|]. intros _ j Hj. lia.
  - destruct (vbyte_hist dict input (a + i) ltac:(lia)) as (x & -> & Gx). cbn.
    destruct (vbyte_hist dict input (b + i) ltac:(lia)) as (y & -> & Gy). cbn.
    case_bool_decide as E; [|by exists false].
    destruct (IH (i + 1) Ha Hab ltac:(lia) ltac:(lia)) as (r & -> & A). exists r. split; [done|].
    intros Hr j Hj. destruct (decide (j = i)) as [->|]; [congruence|]. apply A; [done|lia].
Qed.

Lemma extend_loop_ok dict input a b end_ : 0 <= a -> a < b -> end_ = blen dict + blen input ->
  forall n len, 0 <= len -> b + len <= end_ -> end_ - b - len <= Z.of_nat n ->
  exists r, extend_loop n dict input a b end_ len = Ret r /\ len <= r /\ b + r <= end_ /\
    agree (dict ++ input) a b len r /\ (b + r = end_ \/ get (dict ++ input) (a + r) <> get (dict ++ input) (b + r)).
Proof.
  intros Ha Hab He. induction n as [|n IH]; intros len Hl Hle Hn; cbn [extend_loop].
  - exists len. split_and!; [done|lia|lia|intros j Hj; lia|left; lia].
  - destruct (Z.ltb_spec (b + len) end_) as [Hlt|]; [|exists len; split_and!; [done|lia|lia|intros j Hj; lia|left; lia]].
    destruct (vbyte_hist dict input (a + len) ltac:(lia)) as (x & -> & Gx). cbn.
    destruct (vbyte_hist dict input (b + len) ltac:(lia)) as (y & -> & Gy). cbn.
    case_bool_decide as E.
    + destruct (IH (len + 1) ltac:(lia) ltac:(lia) ltac:(lia)) as (r & -> & H1 & H2 & A & M). exists r.
      split_and!; [done|lia|lia| |done]. intros j Hj. destruct (decide (j = len)) as [->|]; [congruence|]. apply A. lia.
    + exists len. split_and!; [done|lia|lia|intros j Hj; lia|right; congruence].
Qed.

Lemma matches4_ok dict input a b : 0 <= a -> a < b -> b + 4 <= blen dict + blen input ->
  exists r, matches4 dict input a b = Ret r /\ (r = true -> agree (dict ++ input) a b 0 4).
Proof.
  intros. unfold matches4. change (Z.to_nat MIN_MATCH) with 4%nat.
  destruct (all_equal_ok dict input a b 4 0) as (r & -> & A); [lia..|]. by exists r.
Qed.

Lemma extend_match_ok dict input a b : 0 <= a -> a < b -> b + 4 <= blen dict + blen input ->
  agree (dict ++ input) a b 0 4 ->
  exists r, extend dict input a b (blen dict + blen input) = Ret r /\ 4 <= r /\
    b + r <= blen dict + blen input /\ agree (dict ++ input) a b 0 r.
Proof.
  intros Ha Hab Hb A4. unfold extend.
  destruct (extend_loop_ok dict input a b _ Ha Hab eq_refl (Z.to_nat (blen dict + blen input - b)) 0) as (r & -> & H1 & H2 & A & M); [lia..|].
  exists r. split_and!; [done| |lia|done]. destruct (Z.le_gt_cases 4 r); [done|].
  destruct M as [?|M]; [lia|]. destruct M. apply A4. lia.
Qed.

(** One sequence that takes the decoder, with history [D], from [s] literals
    on to the end of its match. Positions are the encoder's, whose dictionary
    has [d] bytes. *)
Record good (D input : list byte) (d s : Z) (q : Seq) : Prop := {
  good_start : (lits q).1 = s;
  good_run : d <= s <= (lits q).2;
  good_dist : 1 <= dist q <= MAX_OFFSET;
  good_reach : dist q <= (lits q).2 - d + blen D;
  good_len : MIN_MATCH <= mlen q;
  good_end : (lits q).2 - d + mlen q <= blen input;
  good_copy : copied (D ++ slice input 0 ((lits q).2 - d)) (D ++ slice input 0 ((lits q).2 - d + mlen q)) (dist q) (mlen q)
}.

Inductive parses (D input : list byte) (d : Z) : Z -> list Seq -> Z -> Prop :=
| parses_nil s : d <= s <= d + blen input -> parses D input d s [] s
| parses_cons s q seqs t :
    good D input d s q -> parses D input d ((lits q).2 + mlen q) seqs t -> parses D input d s (q :: seqs) t.

(** A run that agrees with what is [b - a] before it is a back-reference. *)
Lemma agree_copied dict input a v n : 0 <= a -> a < v -> blen dict <= v -> 0 <= n -> v + n <= blen dict + blen input ->
  agree (dict ++ input) a v 0 n ->
  copied (dict ++ slice input 0 (v - blen dict)) (dict ++ slice input 0 (v - blen dict + n)) (v - a) n.
Proof.
  intros Ha Hav Hv Hn Hend A.
  assert (Ls : forall k, 0 <= k <= blen input -> blen (slice input 0 k) = k) by (intros k Hk; rewrite blen_slice; lia).
  assert (G : forall k i, 0 <= k <= blen input -> 0 <= i < blen dict + k ->
            get (dict ++ slice input 0 k) i = get (dict ++ input) i).
  { intros k i Hk Hi. destruct (Z.lt_ge_cases i (blen dict)); [by rewrite !get_app_l by lia|].
    rewrite !get_app_r by lia. unfold get, slice. rewrite lookup_take_lt by lia. rewrite drop_0. done. }
  exists (slice input (v - blen dict) (v - blen dict + n)). split_and!.
  - rewrite <- app_assoc. f_equal. unfold slice. rewrite !drop_0, !Z.sub_0_r.
    replace (Z.to_nat (v - blen dict + n)) with (Z.to_nat (v - blen dict) + Z.to_nat (v - blen dict + n - (v - blen dict)))%nat by lia.
    symmetry. apply take_take_drop.
  - rewrite blen_slice; lia.
  - rewrite blen_app, Ls by lia. intros i Hi. rewrite !G by lia.
    specialize (A (i - v) ltac:(lia)). replace (v + (i - v)) with i in A by lia. rewrite <- A. f_equal. lia.
Qed.

(** Positions a match table may hold when the finder stands at [v]. *)
Definition table_ok (v : Z) (table : list Z) : Prop := blen table = 4096 /\ Forall (fun c => 0 <= c <= v) table.

Lemma table_ok_mono v v' table : v <= v' -> table_ok v table -> table_ok v' table.
Proof. intros H [L F]. split; [done|]. eapply list.Forall_impl; [exact F|]. intros c. cbn. lia. Qed.

Lemma table_ok_insert v h table : 0 <= v -> table_ok v table -> table_ok v (<[h := as_u32 v]> table).
Proof.
  intros Hv [L F]. split; [by rewrite blen_insert|]. apply Forall_insert; [done|].
  unfold as_u32. pose proof (Z.mod_pos_bound v (2 ^ 32) ltac:(lia)). pose proof (Z.mod_le v (2 ^ 32) Hv ltac:(lia)). lia.
Qed.

Lemma table_index v table h : table_ok v table -> 0 <= h < 4096 -> exists c, index table h = Ret c /\ 0 <= c <= v.
Proof.
  intros [L F] Hh. unfold index. destruct (get_lt_Some table h ltac:(lia)) as [c E]. rewrite E. exists c. split; [done|].
  rewrite list.Forall_forall in F. by apply F, (list_elem_of_lookup_2 _ (Z.to_nat h)).
Qed.

Lemma empty_table_ok v : 0 <= v -> table_ok v empty_table.
Proof. intros Hv. split; [reflexivity|]. apply Forall_replicate. lia. Qed.

Lemma seed_loop_ok dict n : forall v table, 0 <= v -> v + Z.of_nat n + 3 <= blen dict -> table_ok (blen dict) table ->
  exists t, seed_loop n dict v table = Ret t /\ table_ok (blen dict) t.
Proof.
  induction n as [|n IH]; intros v table Hv Hn HT; cbn [seed_loop]; [by exists table|].
  destruct (hash4_ok dict [] v Hv) as (h & -> & Rh); [change (blen (@nil byte)) with 0; lia|]. cbn -[as_u32].
  destruct (table_index _ _ h HT Rh) as (c & -> & _). cbn -[as_u32]. apply IH; [lia|lia|].
  destruct HT as [L F]. split; [by rewrite blen_insert|]. apply Forall_insert; [done|].
  unfold as_u32. pose proof (Z.mod_pos_bound v (2 ^ 32) ltac:(lia)). pose proof (Z.mod_le v (2 ^ 32) Hv ltac:(lia)). lia.
Qed.

Lemma seed_ok dict : exists t, seed dict empty_table = Ret t /\ table_ok (blen dict) t.
Proof.
  unfold seed, MIN_MATCH. pose proof (blen_nonneg dict). destruct (Z.ltb_spec (blen dict) 4).
  - exists empty_table. split; [done|]. by apply empty_table_ok.
  - apply seed_loop_ok; [lia|lia|]. by apply empty_table_ok.
Qed.

(** The finder stops, without a panic, with sequences that parse the input;
    when it reports that the dictionary was not used, none reaches into it. *)
Lemma collect_loop_ok dict input fuel : forall table v s used,
  blen dict <= s <= v -> v <= blen dict + blen input -> blen dict + blen input - v <= Z.of_nat fuel ->
  table_ok v table ->
  exists seqs t used', collect_loop fuel dict input table v s used = Ret (seqs, t, used') /\
    parses dict input (blen dict) s seqs t /\
    (used' = true -> used = true \/ 0 < blen dict) /\
    (used' = false -> used = false /\ Forall (fun q => dist q <= (lits q).2 - blen dict) seqs).
Proof.
  pose proof (blen_nonneg dict) as Hd. pose proof (blen_nonneg input) as Hi.
  induction fuel as [|fuel IH]; intros table v s used Hs Hv Hf HT; cbn [collect_loop]; unfold MIN_MATCH, TAIL_LITERALS.
  all: destruct (Z.ltb_spec (blen dict + blen input - Z.min 5 (blen input)) (v + 4)) as [|Hgo]; try lia.
  1, 2: exists [], s, used; split_and!; [done|constructor; lia|by left|done].
  destruct (hash4_ok dict input v ltac:(lia) ltac:(lia)) as (h & -> & Rh). cbn -[as_u32 collect_loop].
  destruct (table_index _ _ h HT Rh) as (c & -> & Rc). cbn -[as_u32 collect_loop].
  unfold sub_usize. destruct (Z.leb_spec c v); [|lia]. cbn -[as_u32 collect_loop].
  pose proof (table_ok_insert v (Z.to_nat h) table ltac:(lia) HT) as HT'.
  assert (Miss : exists seqs t used', collect_loop fuel dict input (<[Z.to_nat h:=as_u32 v]> table) (v + 1) s used = Ret (seqs, t, used') /\
    parses dict input (blen dict) s seqs t /\ (used' = true -> used = true \/ 0 < blen dict) /\
    (used' = false -> used = false /\ Forall (fun q => dist q <= (lits q).2 - blen dict) seqs)).
  { apply IH; [lia..|]. apply (table_ok_mono v); [lia|done]. }
  unfold is_match. destruct ((c <? v) && (v - c <=? MAX_OFFSET)) eqn:Guard; cbn -[as_u32 collect_loop]; [|exact Miss].
  apply andb_true_iff in Guard as [G1%Z.ltb_lt G2%Z.leb_le].
  destruct (matches4_ok dict input c v ltac:(lia) G1 ltac:(lia)) as (r & -> & A4). cbn -[as_u32 collect_loop].
  destruct r; [|exact Miss]. clear Miss. specialize (A4 eq_refl).
  destruct (extend_match_ok dict input c v ltac:(lia) G1 ltac:(lia) A4) as (n & -> & N4 & Nend & An). cbn -[as_u32 collect_loop].
  destruct (IH (<[Z.to_nat h:=as_u32 v]> table) (v + n) (v + n) (used || (c <? blen dict))) as (seqs & t & used' & -> & P & UD & U); [lia..| |].
  { apply (table_ok_mono v); [lia|done]. }
  cbn -[as_u32]. exists (mkSeq (s, v) (v - c) n :: seqs), t, used'. split; [done|]. split.
  - apply parses_cons; [|exact P]. split; cbn; try (unfold MIN_MATCH; lia).
    apply agree_copied; [lia..|done].
  - split; [intros Hu; destruct (UD Hu) as [[?|?%Z.ltb_lt]%orb_true_iff|?]; [by left|right; lia|by right]|].
    intros Hu. destruct (U Hu) as [U1 U2]. apply orb_false_iff in U1 as [U1 U3%Z.ltb_ge]. split; [done|].
    constructor; [cbn; lia|done].
Qed.

Lemma collect_with_ok table dict input : table_ok (blen dict) table ->
  exists seqs t used, collect_with table dict input = Ret (seqs, (t, blen dict + blen input), used) /\
    parses dict input (blen dict) (blen dict) seqs t /\
    (used = true -> 0 < blen dict) /\
    (used = false -> Forall (fun q => dist q <= (lits q).2 - blen dict) seqs).
Proof.
  intros HT. pose proof (blen_nonneg dict). pose proof (blen_nonneg input). unfold collect_with.
  destruct (collect_loop_ok dict input (length input) table (blen dict) (blen dict) false) as (seqs & t & used & -> & P & UD & U);
    [lia|lia|unfold blen; lia|done|]. cbn. exists seqs, t, used. split_and!; [done|done|intros Hu; by destruct (UD Hu)|].
  intros Hu. by apply U.
Qed.

(** A table a caller seeded is one the finder may start from. *)
Definition seeded_ok (seeded : option (list Z)) (dict : list byte) : Prop :=
  match seeded with Some t => table_ok (blen (reachable dict)) t | None => True end.

Lemma collected_ok seeded dict input : seeded_ok seeded dict ->
  exists seqs t used, collected seeded (reachable dict) input = Ret (seqs, (t, blen (reachable dict) + blen input), used) /\
    parses (reachable dict) input (blen (reachable dict)) (blen (reachable dict)) seqs t /\
    (used = true -> 0 < blen (reachable dict)) /\
    (used = false -> Forall (fun q => dist q <= (lits q).2 - blen (reachable dict)) seqs).
Proof.
  unfold collected, collect_seqs. destruct seeded as [table|]; cbn [seeded_ok]; intros HT; [by apply collect_with_ok|].
  destruct (seed_ok (reachable dict)) as (table & -> & Tok). cbn. by apply collect_with_ok.
Qed.

(** ** Changing the decoder's history *)

Lemma copied_unprefix p h h' d n : 1 <= d <= blen h -> copied (p ++ h) (p ++ h') d n -> copied h h' d n.
Proof.
  intros Hd (e & E & L & C). rewrite <- app_assoc in E. apply app_inv_head in E. subst h'. exists e. split_and!; [done|done|].
  intros i Hi. specialize (C (i + blen p)). rewrite blen_app in C. specialize (C ltac:(lia)).
  rewrite !(get_app_r p) in C by (blen_pos; lia). rewrite <- (Z.add_simpl_r i (blen p)) at 1. rewrite C. f_equal. lia.
Qed.

Lemma parses_prefix p D input d s seqs t : 0 <= d -> parses D input d s seqs t -> parses (p ++ D) input d s seqs t.
Proof.
  intros Hd. induction 1 as [s Hs|s q seqs t G P IH]; [by constructor|]. constructor; [|done].
  destruct G. split; try done; [rewrite blen_app; blen_pos; lia|].
  rewrite <- !app_assoc. apply copied_prefix; [|done]. rewrite blen_app, blen_slice by (unfold MIN_MATCH in *; lia). lia.
Qed.

Lemma parses_without D input d s seqs t : 0 <= d -> parses D input d s seqs t ->
  Forall (fun q => dist q <= (lits q).2 - d) seqs -> parses [] input d s seqs t.
Proof.
  intros Hd. induction 1 as [s Hs|s q seqs t G P IH]; intros F; [by constructor|]. inversion_clear F as [|? ? Fq Fs].
  constructor; [|by apply IH]. destruct G. split; try done; [change (blen (@nil byte)) with 0; lia|]. cbn [app].
  apply (copied_unprefix D); [|done]. rewrite blen_slice by (unfold MIN_MATCH in *; lia). lia.
Qed.

Lemma parses_bounds D input d s seqs t : parses D input d s seqs t -> d <= s <= t /\ t <= d + blen input.
Proof.
  induction 1 as [s Hs|s q seqs t G P IH]; [lia|]. destruct G. unfold MIN_MATCH in *. lia.
Qed.

(** ** The token stream *)

(** The bytes of one sequence, with its literals inline or without. *)
Definition seq_bytes (run : list byte) (ll mat d : Z) : list byte :=
  [token ll mat] ++ push_ext ll ++ run ++ u16_bytes d ++ push_ext mat.

Definition seq_run (d : Z) (input : list byte) (q : Seq) : list byte :=
  slice input ((lits q).1 - d) ((lits q).2 - d).

Fixpoint fast_stream (d : Z) (input : list byte) (seqs : list Seq) (t : Z) : list byte :=
  match seqs with
  | [] => let run := from input (t - d) in [token (blen run) 0] ++ push_ext (blen run) ++ run
  | q :: r => seq_bytes (seq_run d input q) (run_len (lits q)) (mlen q - 4) (dist q) ++ fast_stream d input r t
  end.

Lemma token_nibbles a b : 0 <= a -> 0 <= b ->
  Z.shiftr (bz (token a b)) 4 = Z.min a 15 /\ Z.land (bz (token a b)) 15 = Z.min b 15.
Proof.
  intros Ha Hb. unfold token. rewrite bz_zb, Z.lor_comm, lor_shift_add by (change (2 ^ 4) with 16; lia).
  change (2 ^ 4) with 16. rewrite Z.mod_small by lia. rewrite Z.shiftr_div_pow2 by lia.
  pose proof (fun x => Z.land_ones x 4 ltac:(lia)) as L15. change (Z.ones 4) with 15 in L15. rewrite L15.
  change (2 ^ 4) with 16.
  rewrite (Z.mul_comm 16), Z.div_add, Z.mod_add, Z.div_small, Z.mod_small by lia. lia.
Qed.

Lemma blen_ext_bytes n : forall r, blen (ext_bytes n r) = Z.of_nat n + 1.
Proof. induction n as [|n IH]; intros r; cbn [ext_bytes]; rewrite blen_cons; [done|rewrite IH; lia]. Qed.

(** Reading a length extension back. *)
Lemma len_loop_ext rest n : forall fuel pre r total,
  0 <= r -> r / 255 = Z.of_nat n -> (n < fuel)%nat -> 0 <= total -> total + r <= u64_max ->
  len_loop fuel (pre ++ ext_bytes n r ++ rest) (blen pre) total = Decoded (total + r, blen pre + Z.of_nat n + 1).
Proof.
  induction n as [|n IH]; intros fuel pre r total Hr Hn Hf Ht Hm; (destruct fuel as [|fuel]; [lia|]); cbn [len_loop ext_bytes app].
  - rewrite get_mid. cbn. assert (0 <= r < 255) by (apply Z.div_small_iff in Hn; lia).
    rewrite bz_zb, Z.mod_small by lia. unfold checked_add. destruct (Z.ltb_spec u64_max (total + r)); [lia|]. cbn.
    rewrite bool_decide_false; [by rewrite Z.add_0_r|]. intros E. apply (f_equal bz) in E.
    rewrite bz_zb, Z.mod_small in E by lia. vm_compute (bz xff) in E. lia.
  - assert (Hd : (r - 255) / 255 = Z.of_nat n).
    { replace (r - 255) with (r + (-1) * 255) by lia. rewrite Z.div_add by lia. lia. }
    assert (255 <= r). { destruct (Z.lt_ge_cases r 255); [|done]. rewrite Z.div_small in Hn; lia. }
    rewrite get_mid. cbn [or_corrupt mbind decoding_bind]. change (bz xff) with 255. unfold checked_add.
    destruct (Z.ltb_spec u64_max (total + 255)); [lia|]. cbn [mbind decoding_bind]. rewrite bool_decide_true by done.
    specialize (IH fuel (pre ++ [xff]) (r - 255) (total + 255) ltac:(lia) Hd ltac:(lia) ltac:(lia) ltac:(lia)).
    rewrite <- app_assoc in IH. cbn [app] in IH. rewrite blen_app, blen_cons, blen_nil in IH.
    replace (blen pre + (1 + 0)) with (blen pre + 1) in IH by lia. rewrite IH. f_equal. f_equal; lia.
Qed.

Lemma read_len_ext pre v rest : 0 <= v -> v <= 2 ^ 62 ->
  read_len (pre ++ push_ext v ++ rest) (blen pre) (Z.min v 15) = Decoded (v, blen pre + blen (push_ext v)).
Proof.
  intros Hv Hb. unfold read_len, push_ext. destruct (Z.ltb_spec v 15) as [Hlt|Hge].
  - destruct (Z.ltb_spec (Z.min v 15) 15); [|lia]. rewrite blen_nil. do 2 f_equal; lia.
  - destruct (Z.ltb_spec (Z.min v 15) 15); [lia|]. pose proof (Z.div_pos (v - 15) 255 ltac:(lia) ltac:(lia)).
    set (n := Z.to_nat ((v - 15) / 255)).
    rewrite (len_loop_ext rest n); [| lia | lia | | lia | unfold u64_max; lia].
    + rewrite blen_ext_bytes. f_equal. f_equal; lia.
    + pose proof (blen_ext_bytes n (v - 15)) as L. unfold blen in L. rewrite !length_app. lia.
Qed.

Lemma u16_read d rest : 0 <= d <= MAX_OFFSET -> from_le_bytes (slice (u16_bytes d ++ rest) 0 2) = d.
Proof.
  unfold MAX_OFFSET. intros Hd. change (slice (u16_bytes d ++ rest) 0 2) with (u16_bytes d).
  unfold u16_bytes. cbn [from_le_bytes]. rewrite !bz_zb, Z.shiftr_div_pow2 by lia. change (2 ^ 8) with 256.
  assert (0 <= d / 256 < 256) by (split; [apply Z.div_pos; lia|apply Z.div_lt_upper_bound; lia]).
  rewrite (Z.mod_small (d / 256)) by lia. pose proof (Z.div_mod d 256 ltac:(lia)). lia.
Qed.

(** The second half of a turn, on the bytes of a good sequence. *)
Lemma read_match_ok D input d s q pre rest ll : good D input d s q -> 0 <= d -> blen input <= 2 ^ 61 -> 0 <= ll ->
  read_match D (pre ++ u16_bytes (dist q) ++ push_ext (mlen q - 4) ++ rest) (blen pre) (token ll (mlen q - 4))
    (slice input 0 ((lits q).2 - d)) (blen input) =
  Decoded (slice input 0 ((lits q).2 - d + mlen q), blen pre + 2 + blen (push_ext (mlen q - 4))).
Proof.
  intros G Hd Hin Hll. destruct G as [G1 G2 G3 G4 G5 G6 G7]. unfold MIN_MATCH, MAX_OFFSET in *. unfold read_match.
  assert (L2 : blen (u16_bytes (dist q)) = 2) by reflexivity.
  set (payload := pre ++ _). assert (LP : blen pre + 2 <= blen payload).
  { subst payload. rewrite !blen_app, L2. blen_pos. lia. }
  destruct (Z.ltb_spec (blen payload) (blen pre + 2)); [lia|]. cbn [reject mbind decoding_bind].
  assert (Off : from_le_bytes (slice payload (blen pre) (blen pre + 2)) = dist q).
  { subst payload. rewrite <- (Z.add_0_r (blen pre)) at 1. rewrite <- slice_slice_from by (blen_pos; lia).
    rewrite from_app_len. apply u16_read. unfold MAX_OFFSET. lia. }
  rewrite Off. rewrite (proj2 (token_nibbles ll (mlen q - 4) Hll ltac:(lia))).
  assert (RL : read_len payload (blen pre + 2) (Z.min (mlen q - 4) 15) = Decoded (mlen q - 4, blen pre + 2 + blen (push_ext (mlen q - 4)))).
  { subst payload. rewrite app_assoc. replace (blen pre + 2) with (blen (pre ++ u16_bytes (dist q))) by (rewrite blen_app, L2; lia).
    apply read_len_ext; lia. }
  rewrite RL. cbn [mbind decoding_bind].
  assert (LS : blen (slice input 0 ((lits q).2 - d)) = (lits q).2 - d) by (rewrite blen_slice; lia). rewrite LS.
  unfold add_usize, u64_max. replace (mlen q - 4 + 4) with (mlen q) by lia.
  destruct (Z.ltb_spec (2 ^ 64 - 1) (mlen q)); [lia|]. cbn [mbind decoding_bind].
  destruct (Z.eqb_spec (dist q) 0); [lia|]. destruct (Z.ltb_spec ((lits q).2 - d + blen D) (dist q)); [lia|]. cbn [orb reject mbind decoding_bind].
  destruct (Z.ltb_spec (2 ^ 64 - 1) ((lits q).2 - d + mlen q)); [lia|]. cbn [mbind decoding_bind].
  destruct (Z.ltb_spec (blen input) ((lits q).2 - d + mlen q)); [lia|]. cbn [reject mbind decoding_bind].
  destruct (copy_match_copied D (slice input 0 ((lits q).2 - d)) (dist q) (mlen q)) as (out & -> & C & _); [lia|lia|].
  cbn. do 2 f_equal. apply (app_inv_head D). eapply copied_unique; [|exact C|exact G7]. rewrite blen_app. lia.
Qed.

(** ** The fast level *)

Lemma run_bytes_ok d input s e : d <= s -> s <= e -> e - d <= blen input ->
  run_bytes d input (s, e) = Ret (slice input (s - d) (e - d)).
Proof.
  intros H1 H2 H3. unfold run_bytes, sub_usize. cbn [fst snd].
  destruct (Z.leb_spec d s); [|lia]. cbn. destruct (Z.leb_spec d e); [|lia]. cbn. apply index_range_ok. lia.
Qed.

Lemma good_run_bytes D input d s q : good D input d s q -> run_bytes d input (lits q) = Ret (seq_run d input q).
Proof.
  intros [G1 G2 _ _ G5 G6 _]. unfold MIN_MATCH in *. destruct (lits q) as [a v] eqn:E. cbn in *. subst a.
  unfold seq_run. rewrite E. cbn [fst snd]. apply (run_bytes_ok d input s v); lia.
Qed.

(** What the closing run is. *)
Lemma tail_bytes d input t : d <= t <= d + blen input ->
  run_bytes d input (t, d + blen input) = Ret (from input (t - d)) /\ run_len (t, d + blen input) = blen (from input (t - d)).
Proof.
  intros Ht. rewrite run_bytes_ok by lia. replace (d + blen input - d) with (blen input) by lia. split.
  - f_equal. rewrite slice_from. apply take_ge. pose proof (blen_from input (t - d) ltac:(lia)). unfold blen in *. lia.
  - unfold run_len. cbn. rewrite blen_from; lia.
Qed.

Lemma fast_seqs_spec D input d cap : forall seqs s t out, parses D input d s seqs t ->
  exists r, fast_seqs d input seqs cap out = Ret r /\
  match r with
  | Some o => exists body, o = out ++ body /\ fast_stream d input seqs t = body ++ fast_stream d input [] t
  | None => cap <= blen (out ++ fast_stream d input seqs t)
  end.
Proof.
  induction seqs as [|q seqs IH]; intros s t out P; cbn [fast_seqs].
  - exists (Some out). split; [done|]. exists []. by rewrite app_nil_r.
  - inversion_clear P as [|? ? ? ? G P']. unfold sub_usize. pose proof (good_len _ _ _ _ _ G) as Hm.
    destruct (Z.leb_spec MIN_MATCH (mlen q)); [|lia]. cbn [mbind exec_bind].
    rewrite (good_run_bytes _ _ _ _ _ G). cbn [mbind exec_bind]. set (sb := [_] ++ _).
    change (fast_stream d input (q :: seqs) t) with (sb ++ fast_stream d input seqs t).
    destruct (Z.leb_spec cap (blen (out ++ sb))) as [Hc|Hc].
    + exists None. split; [done|]. rewrite app_assoc, blen_app. blen_pos. lia.
    + destruct (IH _ _ (out ++ sb) P') as (r & -> & R). exists r. split; [done|]. destruct r as [o|].
      * destruct R as (body & -> & E). exists (sb ++ body). rewrite <- !app_assoc, E. done.
      * by rewrite app_assoc.
Qed.

(** The fast serializer writes the token stream, or nothing when it is not
    below the cap. *)
Lemma serialize_fast_spec D dict input seqs t cap : parses D input (blen dict) (blen dict) seqs t ->
  serialize_fast dict input seqs (t, blen dict + blen input) cap =
  Ret (let o := fast_stream (blen dict) input seqs t in if blen o <? cap then Some o else None).
Proof.
  intros P. unfold serialize_fast. destruct (fast_seqs_spec D input (blen dict) cap seqs _ t [] P) as (r & -> & R).
  destruct (parses_bounds _ _ _ _ _ _ P) as [_ Ht]. cbn [mbind exec_bind].
  destruct (tail_bytes (blen dict) input t) as [T1 T2]; [pose proof (parses_bounds _ _ _ _ _ _ P); lia|].
  destruct r as [o|].
  - destruct R as (body & -> & E). rewrite T1, T2. cbn [mbind exec_bind]. rewrite E. done.
  - cbn [app] in R. destruct (Z.ltb_spec (blen (fast_stream (blen dict) input seqs t)) cap); [lia|done].
Qed.

Lemma lz_loop_last D input d t pre fuel : (0 < fuel)%nat -> 0 <= d -> d <= t <= d + blen input ->
  blen input <= 2 ^ 61 -> blen (pre ++ fast_stream d input [] t) <= 2 ^ 61 ->
  lz_loop fuel D (pre ++ fast_stream d input [] t) (blen input) (blen pre) (slice input 0 (t - d)) = Decoded input.
Proof.
  intros Hf Hd Ht Hin HP. destruct fuel as [|fuel]; [lia|]. cbn [lz_loop fast_stream]. cbn [fast_stream] in HP.
  set (run := from input (t - d)) in *. assert (LR : blen run = blen input - (t - d)) by (subst run; apply blen_from; lia).
  assert (RL : read_len (pre ++ [token (blen run) 0] ++ push_ext (blen run) ++ run) (blen pre + 1) (Z.min (blen run) 15) =
               Decoded (blen run, blen pre + 1 + blen (push_ext (blen run)))).
  { rewrite app_assoc. replace (blen pre + 1) with (blen (pre ++ [token (blen run) 0])) by (rewrite blen_app; done). apply read_len_ext; lia. }
  cbn [app] in *. rewrite get_mid. cbn [or_corrupt mbind decoding_bind].
  rewrite (proj1 (token_nibbles (blen run) 0 ltac:(lia) ltac:(lia))), RL. cbn [mbind decoding_bind].
  rewrite blen_app, blen_cons, blen_app in HP |- *.
  pose proof (blen_nonneg pre). pose proof (blen_nonneg (push_ext (blen run))). unfold checked_add, u64_max.
  destruct (Z.ltb_spec (2 ^ 64 - 1) (blen pre + 1 + blen (push_ext (blen run)) + blen run)); [lia|]. cbn [mbind decoding_bind].
  rewrite blen_slice by lia.
  destruct (Z.ltb_spec (blen pre + (1 + (blen (push_ext (blen run)) + blen run))) (blen pre + 1 + blen (push_ext (blen run)) + blen run)); [lia|].
  destruct (Z.ltb_spec (blen input) (t - d - 0 + blen run)); [lia|]. cbn [orb reject mbind decoding_bind].
  assert (EQ : pre ++ token (blen run) 0 :: push_ext (blen run) ++ run = (pre ++ token (blen run) 0 :: push_ext (blen run)) ++ run ++ []).
  { rewrite app_nil_r, <- app_assoc. done. }
  rewrite index_range_ok by (rewrite blen_app, blen_cons, blen_app; lia). cbn [Huff.run mbind decoding_bind].
  rewrite EQ. replace (blen pre + 1 + blen (push_ext (blen run))) with (blen (pre ++ token (blen run) 0 :: push_ext (blen run)))
    by (rewrite blen_app, blen_cons; lia).
  rewrite slice_mid. rewrite (proj2 (Z.eqb_eq _ _)) by (rewrite blen_app, blen_cons; lia).
  f_equal. subst run. rewrite slice_0_take. apply take_drop.
Qed.

Lemma slice_0_app {A} (l : list A) a b : 0 <= a <= b -> slice l 0 a ++ slice l a b = slice l 0 b.
Proof.
  intros H. unfold slice. rewrite !drop_0, !Z.sub_0_r.
  replace (Z.to_nat b) with (Z.to_nat a + Z.to_nat (b - a))%nat by lia. apply take_take_drop.
Qed.

(** The head of a turn: the token and the length of its literal run. *)
Lemma read_head pre ll mat rest : 0 <= ll <= 2 ^ 62 -> 0 <= mat ->
  get (pre ++ token ll mat :: push_ext ll ++ rest) (blen pre) = Some (token ll mat) /\
  read_len (pre ++ token ll mat :: push_ext ll ++ rest) (blen pre + 1) (Z.shiftr (bz (token ll mat)) 4) =
  Decoded (ll, blen (pre ++ token ll mat :: push_ext ll)).
Proof.
  intros Hl Hm. split; [apply get_mid|]. rewrite (proj1 (token_nibbles ll mat ltac:(lia) Hm)).
  change (pre ++ token ll mat :: push_ext ll ++ rest) with (pre ++ [token ll mat] ++ push_ext ll ++ rest).
  rewrite app_assoc. replace (blen pre + 1) with (blen (pre ++ [token ll mat])) by (rewrite blen_app; done).
  rewrite read_len_ext by lia. f_equal. f_equal. rewrite !blen_app, !blen_cons, blen_nil. lia.
Qed.

Lemma good_run_len D input d s q : good D input d s q ->
  run_len (lits q) = (lits q).2 - s /\ blen (seq_run d input q) = (lits q).2 - s /\
  slice input 0 (s - d) ++ seq_run d input q = slice input 0 ((lits q).2 - d).
Proof.
  intros [G1 G2 _ _ G5 G6 _]. unfold MIN_MATCH in *. unfold run_len, seq_run. rewrite G1. split_and!.
  - lia.
  - rewrite blen_slice; lia.
  - apply slice_0_app. lia.
Qed.

Lemma lz_loop_parses D input d : 0 <= d -> blen input <= 2 ^ 61 -> forall seqs s t, parses D input d s seqs t ->
  forall pre fuel, (length seqs < fuel)%nat -> blen (pre ++ fast_stream d input seqs t) <= 2 ^ 61 ->
  lz_loop fuel D (pre ++ fast_stream d input seqs t) (blen input) (blen pre) (slice input 0 (s - d)) = Decoded input.
Proof.
  intros Hd Hin. induction 1 as [s Hs|s q seqs t G P IH]; intros pre fuel Hf HP.
  { apply lz_loop_last; cbn in Hf; lia. }
  destruct fuel as [|fuel]; [lia|]. pose proof G as [G1 G2 G3 G4 G5 G6 G7]. unfold MIN_MATCH in *.
  destruct (good_run_len _ _ _ _ _ G) as (RL & BR & Next).
  set (ll := run_len (lits q)) in *. set (mat := mlen q - 4) in *.
  set (tail := u16_bytes (dist q) ++ push_ext mat ++ fast_stream d input seqs t).
  assert (E : pre ++ fast_stream d input (q :: seqs) t = pre ++ token ll mat :: push_ext ll ++ seq_run d input q ++ tail).
  { cbn [fast_stream]. unfold seq_bytes, tail. rewrite <- !app_assoc. done. }
  rewrite E in HP |- *. cbn [lz_loop].
  destruct (read_head pre ll mat (seq_run d input q ++ tail) ltac:(lia) ltac:(lia)) as [Hg Hr].
  rewrite Hg. cbn [or_corrupt mbind decoding_bind]. rewrite Hr. cbn [mbind decoding_bind]. clear Hg Hr.
  set (pre1 := pre ++ token ll mat :: push_ext ll).
  assert (E1 : pre ++ token ll mat :: push_ext ll ++ seq_run d input q ++ tail = pre1 ++ seq_run d input q ++ tail).
  { subst pre1. by rewrite <- app_assoc. }
  rewrite E1 in HP |- *. pose proof HP as HP'. rewrite !blen_app in HP'.
  assert (2 <= blen tail) by (subst tail; rewrite blen_app; change (blen (u16_bytes (dist q))) with 2; blen_pos; lia).
  pose proof (blen_nonneg pre1). unfold checked_add, u64_max.
  destruct (Z.ltb_spec (2 ^ 64 - 1) (blen pre1 + ll)); [lia|]. cbn [mbind decoding_bind].
  rewrite (blen_slice input 0 (s - d)) by lia. rewrite (blen_app pre1), (blen_app (seq_run d input q)).
  destruct (Z.ltb_spec (blen pre1 + (blen (seq_run d input q) + blen tail)) (blen pre1 + ll)); [lia|].
  destruct (Z.ltb_spec (blen input) (s - d - 0 + ll)); [lia|]. cbn [orb reject mbind decoding_bind].
  rewrite index_range_ok by (rewrite !blen_app; lia). cbn [Huff.run mbind decoding_bind].
  replace (blen pre1 + ll) with (blen pre1 + blen (seq_run d input q)) by lia. rewrite slice_mid.
  destruct (Z.eqb_spec (blen pre1 + blen (seq_run d input q)) (blen pre1 + (blen (seq_run d input q) + blen tail))); [lia|].
  rewrite Next. rewrite (app_assoc pre1) in HP |- *. subst tail. rewrite <- blen_app.
  rewrite (read_match_ok D input d s q) by (done || lia). cbn [mbind decoding_bind].
  set (pre2 := pre1 ++ seq_run d input q) in *. fold mat.
  specialize (IH (pre2 ++ u16_bytes (dist q) ++ push_ext mat) fuel ltac:(cbn in Hf; lia)).
  rewrite <- !app_assoc in IH. specialize (IH HP). rewrite !blen_app in IH. change (blen (u16_bytes (dist q))) with 2 in IH.
  replace (blen pre2 + 2 + blen (push_ext mat)) with (blen pre2 + (2 + blen (push_ext mat))) by lia.
  replace ((lits q).2 - d + mlen q) with ((lits q).2 + mlen q - d) by lia. exact IH.
Qed.

Lemma fast_stream_length d input seqs t : (length seqs < length (fast_stream d input seqs t))%nat.
Proof.
  induction seqs as [|q seqs IH]; cbn [fast_stream]; [cbn; lia|]. unfold seq_bytes. rewrite length_app. cbn. lia.
Qed.

(** The fast decoder rebuilds the input from the stream of sequences that
    parse it. *)
Lemma lz_rebuilds D input d seqs t : 0 <= d -> parses D input d d seqs t ->
  blen input <= 2 ^ 61 -> blen (fast_stream d input seqs t) <= 2 ^ 61 ->
  lz D (fast_stream d input seqs t) (blen input) = Decoded input.
Proof.
  intros Hd P Hin Hs. unfold lz.
  pose proof (lz_loop_parses D input d Hd Hin seqs d t P [] (S (length (fast_stream d input seqs t)))) as L.
  rewrite Z.sub_diag in L. change (slice input 0 0) with (@nil byte) in L. cbn [app] in L. change (blen (@nil byte)) with 0 in L.
  rewrite L; [|pose proof (fast_stream_length d input seqs t); lia|done]. cbn. by rewrite Z.eqb_refl.
Qed.

(** ** The compaction level *)

Fixpoint high_stream (d : Z) (input : list byte) (seqs : list Seq) (t : Z) : list byte :=
  match seqs with
  | [] => let n := blen (from input (t - d)) in [token n 0] ++ push_ext n
  | q :: r => seq_bytes [] (run_len (lits q)) (mlen q - 4) (dist q) ++ high_stream d input r t
  end.

(** The literals of the sequences and of the closing run. *)
Fixpoint all_runs (d : Z) (input : list byte) (seqs : list Seq) (t : Z) : list byte :=
  match seqs with
  | [] => from input (t - d)
  | q :: r => seq_run d input q ++ all_runs d input r t
  end.

Lemma gather_ok D input d : forall seqs s t, parses D input d s seqs t ->
  exists g, gather d input seqs = Ret g /\ g ++ from input (t - d) = all_runs d input seqs t.
Proof.
  induction 1 as [s Hs|s q seqs t G P (g & IH & E)]; cbn [gather all_runs]; [by exists []|].
  rewrite (good_run_bytes _ _ _ _ _ G), IH. cbn. exists (seq_run d input q ++ g). split; [done|]. by rewrite <- app_assoc, E.
Qed.

Lemma high_seqs_spec D input d cap : forall seqs s t out, parses D input d s seqs t ->
  exists r, high_seqs seqs cap out = Ret r /\
  match r with
  | Some o => exists body, o = out ++ body /\ high_stream d input seqs t = body ++ high_stream d input [] t
  | None => cap <= blen (out ++ high_stream d input seqs t)
  end.
Proof.
  induction seqs as [|q seqs IH]; intros s t out P; cbn [high_seqs].
  - exists (Some out). split; [done|]. exists []. by rewrite app_nil_r.
  - inversion_clear P as [|? ? ? ? G P']. unfold sub_usize. pose proof (good_len _ _ _ _ _ G) as Hm.
    destruct (Z.leb_spec MIN_MATCH (mlen q)); [|lia]. cbn [mbind exec_bind]. set (sb := [_] ++ _).
    change (high_stream d input (q :: seqs) t) with (sb ++ high_stream d input seqs t).
    destruct (Z.leb_spec cap (blen (out ++ sb))) as [Hc|Hc].
    + exists None. split; [done|]. rewrite app_assoc, blen_app. blen_pos. lia.
    + destruct (IH _ _ (out ++ sb) P') as (r & -> & R). exists r. split; [done|]. destruct r as [o|].
      * destruct R as (body & -> & E). exists (sb ++ body). rewrite <- !app_assoc, E. done.
      * by rewrite app_assoc.
Qed.

(** Which table a decoder has for a block coded with the dictionary's. *)
Definition has_table (l : list Z) (lens : option (list Z)) (table : option (list (Z * Z))) : Prop :=
  table = Some (build_decode_table l) \/ table = None /\ lens = Some l.

(** A literal block that decodes to the literals under every decoder, or, when
    it uses the dictionary's table, under one that has it. *)
Definition decodes_block (all_lits : list byte) (lens : option (list Z)) (r : exec (list byte * bool)) : Prop :=
  exists flag body shared, r = Ret (flag :: body, shared) /\ (shared = true -> lens <> None) /\
    forall lens' table' rest,
      (shared = true -> exists l, lens = Some l /\ has_table l lens' table') ->
      read_literal_block flag (body ++ rest) (blen all_lits) lens' table' = Decoded (all_lits, blen body).

Lemma raw_block all_lits lens : decodes_block all_lits lens (Ret (x00 :: all_lits, false)).
Proof.
  exists x00, all_lits, false. split; [done|]. split; [done|]. intros lens' table' rest _. unfold read_literal_block.
  rewrite bool_decide_true by done. rewrite blen_app. pose proof (blen_nonneg rest).
  destruct (Z.ltb_spec (blen all_lits + blen rest) (blen all_lits)); [lia|]. cbn. by rewrite slice_from_app.
Qed.

Lemma shared_block all_lits l : valid l -> covers l all_lits ->
  decodes_block all_lits (Some l) (Ret (x02 :: write_bits all_lits l, true)).
Proof.
  intros V Cov. exists x02, (write_bits all_lits l), true. split; [done|]. split; [done|]. intros lens' table' rest Hd.
  destruct (Hd eq_refl) as (l' & [= <-] & Ht). pose proof (read_back l all_lits rest V Cov) as RB.
  unfold read_literal_block. rewrite !bool_decide_false by done. rewrite bool_decide_true by done.
  destruct Ht as [->|[-> ->]]; cbn; [unfold read_bits in RB|]; rewrite RB; cbn; by rewrite write_bits_length.
Qed.

(** The block without the dictionary's table. *)
Lemma own_block all_lits lens inline : huff_encode all_lits = Ret inline ->
  decodes_block all_lits lens
    match inline with
    | Some coded => if blen coded <? blen all_lits then Ret (x01 :: coded, false) else Ret (x00 :: all_lits, false)
    | None => Ret (x00 :: all_lits, false)
    end.
Proof.
  intros E. pose proof (fun rest => huff_encode_ok all_lits rest) as RT. rewrite E in RT.
  destruct inline as [c|]; [|apply raw_block]. destruct (Z.ltb_spec (blen c) (blen all_lits)); [|apply raw_block].
  exists x01, c, false. split; [done|]. split; [done|]. intros lens' table' rest _. unfold read_literal_block.
  rewrite bool_decide_false by done. rewrite bool_decide_true by done. apply RT.
Qed.

Lemma literal_block_ok all_lits lens : blen all_lits <= 2 ^ 61 -> (forall l, lens = Some l -> valid l) ->
  decodes_block all_lits lens (emit_literal_block all_lits lens).
Proof.
  intros Hb V. unfold emit_literal_block. destruct (huff_encode all_lits) as [inline|] eqn:E.
  2: { pose proof (huff_encode_ok all_lits []) as F. by rewrite E in F. }
  cbn [mbind exec_bind]. pose proof (own_block all_lits lens inline E) as Own.
  assert (Big : (u64_max <? blen all_lits) = false) by (apply Z.ltb_ge; unfold u64_max; lia).
  destruct lens as [l|]; [|rewrite Big, andb_false_r; exact Own].
  specialize (V l eq_refl). pose proof (cost_bits_spec l all_lits V) as C.
  destruct (cost_bits (count_bytes all_lits (replicate 256 0)) l) as [bits|]; cbn [fmap option_fmap option_map].
  - destruct C as [-> Cov]. destruct (_ && _); [|exact Own]. by apply shared_block.
  - rewrite Big, andb_false_r. exact Own.
Qed.

Lemma serialize_high_ok D dict lens input seqs t cap :
  parses D input (blen dict) (blen dict) seqs t -> blen input <= 2 ^ 61 ->
  blen (all_runs (blen dict) input seqs t) <= 2 ^ 61 -> (forall l, lens = Some l -> valid l) ->
  exists flag body shared, (shared = true -> lens <> None) /\
    (forall lens' table' rest,
      (shared = true -> exists l, lens = Some l /\ has_table l lens' table') ->
      read_literal_block flag (body ++ rest) (blen (all_runs (blen dict) input seqs t)) lens' table' =
      Decoded (all_runs (blen dict) input seqs t, blen body)) /\
    let o := push_varint (blen (all_runs (blen dict) input seqs t)) ++ (flag :: body) ++ high_stream (blen dict) input seqs t in
    serialize_high dict lens input seqs (t, blen dict + blen input) cap =
    Ret (if blen o <? cap then Some (o, shared) else None).
Proof.
  intros P Hin Hruns V. pose proof (parses_bounds _ _ _ _ _ _ P) as Bt.
  destruct (gather_ok _ _ _ _ _ _ P) as (g & Eg & Er). destruct (tail_bytes (blen dict) input t ltac:(lia)) as [T1 T2].
  destruct (literal_block_ok _ lens Hruns V) as (flag & body & shared & Eb & Has & Dec).
  exists flag, body, shared. split; [exact Has|]. split; [exact Dec|].
  cbn zeta. unfold serialize_high. rewrite Eg, T1, T2. cbn [mbind exec_bind]. rewrite Er, Eb. cbn [mbind exec_bind].
  set (head := push_varint _ ++ flag :: body).
  destruct (high_seqs_spec D input (blen dict) cap seqs _ t head P) as (r & -> & R). cbn [mbind exec_bind].
  replace (push_varint _ ++ _ ++ _) with (head ++ high_stream (blen dict) input seqs t) by (subst head; by rewrite <- app_assoc).
  destruct r as [o|].
  - destruct R as (b & -> & ->). rewrite <- (app_assoc head b). cbn [high_stream app]. done.
  - destruct (Z.ltb_spec (blen (head ++ high_stream (blen dict) input seqs t)) cap); [lia|done].
Qed.

Lemma byte_split (b : byte) : bz b = Z.land (bz b) 0x7f + Z.land (bz b) 0x80.
Proof. by destruct b. Qed.

Lemma low_bits x : Z.land x 0x7f = x mod 128.
Proof. apply (Z.land_ones x 7). lia. Qed.

(** A varint below the reader's limit is read back, whatever follows it. *)
Lemma varint_loop_bytes rest fuel : forall v acc shift,
  0 <= shift < 35 -> 0 <= acc < 2 ^ shift -> 0 <= v < 2 ^ (35 - shift) -> v < 2 ^ (7 * Z.of_nat fuel) -> (0 < fuel)%nat ->
  varint_loop (varint_bytes fuel v ++ rest) acc shift = Decoded (acc + 2 ^ shift * v, rest).
Proof.
  induction fuel as [|fuel IH]; intros v acc shift Hs Ha Hv Hf H0; [lia|]. cbn [varint_bytes].
  rewrite low_bits, Z.shiftr_div_pow2 by lia. change (2 ^ 7) with 128.
  pose proof (Z.div_mod v 128 ltac:(lia)) as D. pose proof (Z.mod_pos_bound v 128 ltac:(lia)) as M.
  destruct (Z.eqb_spec (v / 128) 0) as [Hz|Hnz]; cbn [app varint_loop].
  - destruct (Z.leb_spec 35 shift); [lia|].
    pose proof (byte_split (zb (v mod 128))) as B. rewrite low_bits, bz_zb in *. rewrite (Z.mod_small (v mod 128) 256) in * by lia.
    rewrite Z.mod_mod in * by lia. rewrite (proj2 (Z.eqb_eq _ _)) by lia. rewrite lor_shift_add by lia. do 2 f_equal. lia.
  - destruct (Z.leb_spec 35 shift); [lia|].
    assert (E80 : Z.lor (v mod 128) 0x80 = v mod 128 + 128) by (apply (lor_shift_add (v mod 128) 1 7); lia).
    rewrite E80. pose proof (byte_split (zb (v mod 128 + 128))) as B. rewrite low_bits, bz_zb in *.
    rewrite (Z.mod_small (v mod 128 + 128) 256) in * by lia.
    replace ((v mod 128 + 128) mod 128) with (v mod 128) in *
      by (replace (v mod 128 + 128) with (v mod 128 + 1 * 128) by lia; rewrite Z.mod_add, Z.mod_mod by lia; done).
    rewrite (proj2 (Z.eqb_neq _ _)) by lia. rewrite lor_shift_add by lia.
    pose proof (Z.div_pos v 128 ltac:(lia) ltac:(lia)).
    assert (shift + 7 < 35).
    { destruct (Z.lt_ge_cases (shift + 7) 35); [done|]. assert (2 ^ (35 - shift) <= 2 ^ 7) by (apply Z.pow_le_mono_r; lia).
      change (2 ^ 7) with 128 in *. rewrite Z.div_small in Hnz; lia. }
    assert (Hf' : v / 128 < 2 ^ (7 * Z.of_nat fuel)).
    { apply Z.div_lt_upper_bound; [lia|]. change 128 with (2 ^ 7) at 1. rewrite <- Z.pow_add_r by lia.
      replace (7 + 7 * Z.of_nat fuel) with (7 * Z.of_nat (S fuel)) by lia. done. }
    rewrite IH; [| lia | | | done |].
    + f_equal. f_equal. rewrite Z.pow_add_r by lia. change (2 ^ 7) with 128. rewrite D at 3. lia.
    + pose proof (stack_range acc (v mod 128) shift 7 ltac:(lia) ltac:(lia) Ha ltac:(lia)). lia.
    + split; [done|]. apply Z.div_lt_upper_bound; [lia|]. change 128 with (2 ^ 7) at 1. rewrite <- Z.pow_add_r by lia.
      replace (7 + (35 - (shift + 7))) with (35 - shift) by lia. lia.
    + destruct fuel; [|lia]. cbn in Hf'. lia.
Qed.

Lemma read_push_varint v rest : 0 <= v < 2 ^ 35 -> read_varint (push_varint v ++ rest) = Decoded (v, rest).
Proof.
  intros Hv. unfold read_varint, push_varint. rewrite Z.mod_small by lia.
  rewrite varint_loop_bytes; [f_equal; f_equal; lia|lia|lia|lia|cbn -[Z.pow]; lia|lia].
Qed.

Lemma varint_bytes_length fuel : forall v k, 0 <= v -> v < 2 ^ (7 * Z.of_nat k) -> (0 < k)%nat ->
  blen (varint_bytes fuel v) <= Z.of_nat k.
Proof.
  induction fuel as [|fuel IH]; intros v k Hv Hk H0; cbn [varint_bytes]; [change (blen _) with 0; lia|].
  rewrite Z.shiftr_div_pow2 by lia. destruct (Z.eqb_spec (v / 2 ^ 7) 0) as [|Hnz]; rewrite blen_cons; [change (blen _) with 0; lia|].
  pose proof (Z.div_pos v (2 ^ 7) ltac:(lia) ltac:(lia)). destruct k as [|[|k]]; [lia| |].
  - rewrite Z.div_small in Hnz by (cbn in Hk |- *; lia). lia.
  - specialize (IH (v / 2 ^ 7) (S k) ltac:(lia)). enough (blen (varint_bytes fuel (v / 2 ^ 7)) <= Z.of_nat (S k)) by lia.
    apply IH; [|lia]. apply Z.div_lt_upper_bound; [lia|]. rewrite <- Z.pow_add_r by lia.
    replace (7 + 7 * Z.of_nat (S k)) with (7 * Z.of_nat (S (S k))) by lia. done.
Qed.

Lemma push_varint_length v : 0 <= v < 2 ^ 35 -> blen (push_varint v) <= 5.
Proof.
  intros Hv. unfold push_varint. rewrite Z.mod_small by lia. apply (varint_bytes_length 10 v 5); cbn -[Z.pow]; lia.
Qed.

Lemma high_loop_last D input d t pre preL fuel : (0 < fuel)%nat -> 0 <= d -> d <= t <= d + blen input ->
  blen input <= 2 ^ 61 -> blen (preL ++ from input (t - d)) <= 2 ^ 61 ->
  high_loop fuel D (pre ++ high_stream d input [] t) (preL ++ from input (t - d)) (blen input) (blen pre) (blen preL)
    (slice input 0 (t - d)) = Decoded (input, blen (preL ++ from input (t - d))).
Proof.
  intros Hf Hd Ht Hin HL. destruct fuel as [|fuel]; [lia|]. cbn [high_loop high_stream].
  set (rl := from input (t - d)) in *. assert (LR : blen rl = blen input - (t - d)) by (subst rl; apply blen_from; lia).
  destruct (read_head pre (blen rl) 0 [] ltac:(lia) ltac:(lia)) as [Hg Hr]. cbn [app] in *. rewrite app_nil_r in *.
  rewrite Hg. cbn [or_corrupt mbind decoding_bind]. rewrite Hr. cbn [mbind decoding_bind].
  rewrite blen_app in HL. pose proof (blen_nonneg preL). unfold checked_add, u64_max.
  destruct (Z.ltb_spec (2 ^ 64 - 1) (blen preL + blen rl)); [lia|]. cbn [mbind decoding_bind].
  rewrite blen_slice, (blen_app preL) by lia.
  destruct (Z.ltb_spec (blen preL + blen rl) (blen preL + blen rl)); [lia|].
  destruct (Z.ltb_spec (blen input) (t - d - 0 + blen rl)); [lia|]. cbn [orb reject mbind decoding_bind].
  rewrite index_range_ok by (rewrite blen_app; lia). cbn [Huff.run mbind decoding_bind].
  rewrite Z.eqb_refl. rewrite <- (app_nil_r (preL ++ rl)) at 1. rewrite <- app_assoc, slice_mid.
  subst rl. rewrite slice_0_take. unfold from. by rewrite take_drop.
Qed.

Lemma high_loop_parses D input d : 0 <= d -> blen input <= 2 ^ 61 -> forall seqs s t, parses D input d s seqs t ->
  forall pre preL fuel, (length seqs < fuel)%nat -> blen (preL ++ all_runs d input seqs t) <= 2 ^ 61 ->
  high_loop fuel D (pre ++ high_stream d input seqs t) (preL ++ all_runs d input seqs t) (blen input) (blen pre) (blen preL)
    (slice input 0 (s - d)) = Decoded (input, blen (preL ++ all_runs d input seqs t)).
Proof.
  intros Hd Hin. induction 1 as [s Hs|s q seqs t G P IH]; intros pre preL fuel Hf HL.
  { apply high_loop_last; cbn in Hf, HL; done || lia. }
  destruct fuel as [|fuel]; [lia|]. pose proof G as [G1 G2 G3 G4 G5 G6 G7]. unfold MIN_MATCH in *.
  destruct (good_run_len _ _ _ _ _ G) as (RL & BR & Next). cbn [all_runs] in *.
  set (ll := run_len (lits q)) in *. set (mat := mlen q - 4) in *.
  set (tail := u16_bytes (dist q) ++ push_ext mat ++ high_stream d input seqs t).
  assert (E : pre ++ high_stream d input (q :: seqs) t = pre ++ token ll mat :: push_ext ll ++ tail).
  { cbn [high_stream]. unfold seq_bytes, tail. cbn [app]. rewrite <- !app_assoc. done. }
  rewrite E. cbn [high_loop].
  destruct (read_head pre ll mat tail ltac:(lia) ltac:(lia)) as [Hg Hr].
  rewrite Hg. cbn [or_corrupt mbind decoding_bind]. rewrite Hr. cbn [mbind decoding_bind]. clear Hg Hr.
  set (pre1 := pre ++ token ll mat :: push_ext ll).
  assert (E1 : pre ++ token ll mat :: push_ext ll ++ tail = pre1 ++ tail) by (subst pre1; by rewrite <- app_assoc).
  rewrite E1. pose proof HL as HL'. rewrite !blen_app in HL'. pose proof (blen_nonneg (all_runs d input seqs t)).
  assert (2 <= blen tail) by (subst tail; rewrite blen_app; change (blen (u16_bytes (dist q))) with 2; blen_pos; lia).
  pose proof (blen_nonneg preL). unfold checked_add, u64_max.
  destruct (Z.ltb_spec (2 ^ 64 - 1) (blen preL + ll)); [lia|]. cbn [mbind decoding_bind].
  rewrite (blen_slice input 0 (s - d)) by lia. rewrite (blen_app preL), (blen_app (seq_run d input q)).
  destruct (Z.ltb_spec (blen preL + (blen (seq_run d input q) + blen (all_runs d input seqs t))) (blen preL + ll)); [lia|].
  destruct (Z.ltb_spec (blen input) (s - d - 0 + ll)); [lia|]. cbn [orb reject mbind decoding_bind].
  rewrite index_range_ok by (rewrite !blen_app; lia). cbn [Huff.run mbind decoding_bind].
  replace (blen preL + ll) with (blen preL + blen (seq_run d input q)) by lia. rewrite slice_mid.
  destruct (Z.eqb_spec (blen pre1) (blen (pre1 ++ tail))) as [Eq|_]; [rewrite blen_app in Eq; lia|].
  rewrite Next. subst tail. rewrite (read_match_ok D input d s q) by (done || lia). cbn [mbind decoding_bind]. fold mat.
  specialize (IH (pre1 ++ u16_bytes (dist q) ++ push_ext mat) (preL ++ seq_run d input q) fuel ltac:(cbn in Hf; lia)).
  rewrite <- !app_assoc in IH. specialize (IH HL). rewrite !blen_app in IH. change (blen (u16_bytes (dist q))) with 2 in IH.
  replace (blen pre1 + 2 + blen (push_ext mat)) with (blen pre1 + (2 + blen (push_ext mat))) by lia.
  replace ((lits q).2 - d + mlen q) with ((lits q).2 + mlen q - d) by lia. exact IH.
Qed.

Lemma high_stream_length d input seqs t : (length seqs < length (high_stream d input seqs t))%nat.
Proof.
  induction seqs as [|q seqs IH]; cbn [high_stream]; [cbn; lia|]. unfold seq_bytes. rewrite length_app. cbn. lia.
Qed.

Lemma all_runs_length D input d : forall seqs s t, parses D input d s seqs t ->
  blen (all_runs d input seqs t) <= blen input - (s - d).
Proof.
  induction 1 as [s Hs|s q seqs t G P IH]; cbn [all_runs]; [rewrite blen_from; lia|].
  destruct (good_run_len _ _ _ _ _ G) as (_ & BR & _). destruct G. unfold MIN_MATCH in *. rewrite blen_app. lia.
Qed.

(** The compaction decoder rebuilds the input. *)
Lemma lz_high_rebuilds D input d seqs t flag body lens table : 0 <= d -> parses D input d d seqs t -> blen input < 2 ^ 35 ->
  (forall rest, read_literal_block flag (body ++ rest) (blen (all_runs d input seqs t)) lens table =
     Decoded (all_runs d input seqs t, blen body)) ->
  lz_high D lens table (push_varint (blen (all_runs d input seqs t)) ++ (flag :: body) ++ high_stream d input seqs t) (blen input) =
  Decoded input.
Proof.
  intros Hd P Hin Blk. pose proof (all_runs_length _ _ _ _ _ _ P) as AL. rewrite Z.sub_diag in AL.
  unfold lz_high. rewrite read_push_varint by (blen_pos; lia). cbn [mbind decoding_bind app]. rewrite Blk. cbn [mbind decoding_bind].
  rewrite blen_app. pose proof (blen_nonneg (high_stream d input seqs t)).
  destruct (Z.ltb_spec (blen body + blen (high_stream d input seqs t)) (blen body)); [lia|]. cbn [reject mbind decoding_bind].
  rewrite from_app_len.
  pose proof (high_loop_parses D input d Hd ltac:(lia) seqs d t P [] [] (S (length (high_stream d input seqs t)))) as L.
  rewrite Z.sub_diag in L. change (slice input 0 0) with (@nil byte) in L. cbn [app] in L. change (blen (@nil byte)) with 0 in L.
  rewrite L; [|pose proof (high_stream_length d input seqs t); lia|lia]. cbn. by rewrite !Z.eqb_refl.
Qed.

(** ** Arbitrary bytes *)

(** A step that does not crash and whose results satisfy [P]. *)
Definition safe {A} (m : decoding A) (P : A -> Prop) : Prop :=
  match m with Decoded a => P a | DecodeError => True | Crashed => False end.

Lemma safe_bind {A B} (m : decoding A) (f : A -> decoding B) P Q :
  safe m P -> (forall a, P a -> safe (f a) Q) -> safe (m ≫= f) Q.
Proof. intros H F. destruct m as [a| |]; cbn in *; [by apply F|done|done]. Qed.

Lemma safe_weaken {A} (m : decoding A) (P Q : A -> Prop) : safe m P -> (forall a, P a -> Q a) -> safe m Q.
Proof. intros H F. destruct m; cbn in *; auto. Qed.

Lemma safe_reject b : safe (reject b) (fun _ => b = false).
Proof. by destruct b. Qed.

Lemma safe_or_corrupt {A} (o : option A) : safe (or_corrupt o) (fun a => o = Some a).
Proof. by destruct o. Qed.

Lemma safe_checked_add a b : safe (checked_add a b) (fun c => c = a + b).
Proof. unfold checked_add. by destruct (_ <? _). Qed.

Lemma safe_add_usize a b : a + b <= u64_max -> safe (add_usize a b) (fun c => c = a + b).
Proof. intros H. unfold add_usize. destruct (Z.ltb_spec u64_max (a + b)); [lia|done]. Qed.

Lemma len_loop_safe payload n : forall p total, 0 <= p ->
  safe (len_loop n payload p total) (fun r => p < r.2 <= blen payload /\ total <= r.1 <= total + 255 * (r.2 - p)).
Proof.
  induction n as [|n IH]; intros p total Hp; cbn [len_loop]; [done|].
  eapply safe_bind; [apply safe_or_corrupt|]. intros b Hb. cbn beta in Hb. apply get_Some_lt in Hb; [|done].
  eapply safe_bind; [apply safe_checked_add|]. intros c ->. pose proof (bz_range b).
  case_bool_decide; [|cbn; lia]. eapply safe_weaken; [apply IH; lia|]. intros r. cbn. lia.
Qed.

Lemma read_len_safe payload p nibble : 0 <= p -> 0 <= nibble ->
  safe (read_len payload p nibble) (fun r => p <= r.2 /\ (r.2 <= p \/ r.2 <= blen payload) /\ 0 <= r.1 <= 15 + 255 * (r.2 - p)).
Proof.
  intros Hp Hn. unfold read_len. destruct (Z.ltb_spec nibble 15); [cbn; lia|].
  eapply safe_weaken; [by apply len_loop_safe|]. intros r. cbn. lia.
Qed.

Lemma read_match_safe dict payload p tok out orig_len :
  0 <= p -> blen payload <= 2 ^ 50 -> blen out <= orig_len -> orig_len < 2 ^ 42 ->
  safe (read_match dict payload p tok out orig_len)
    (fun r => p + 2 <= r.2 <= blen payload /\ blen r.1 <= orig_len /\ blen r.1 <= blen out + 19 + 255 * (r.2 - p - 2)).
Proof.
  intros Hp HP Ho Hor. unfold read_match. eapply safe_bind; [apply safe_reject|]. intros _ Hlt%Z.ltb_ge.
  eapply safe_bind; [apply read_len_safe; [lia|apply Z.land_nonneg; right; lia]|]. intros [n p'] (H1 & H2 & H3).
  cbn [fst snd] in *.
  eapply safe_bind; [apply safe_add_usize; unfold u64_max; lia|]. intros len ->.
  eapply safe_bind; [apply safe_reject|]. intros _ [G1%Z.eqb_neq G2%Z.ltb_ge]%orb_false_iff.
  eapply safe_bind; [apply safe_add_usize; unfold u64_max; lia|]. intros room ->.
  eapply safe_bind; [apply safe_reject|]. intros _ G3%Z.ltb_ge.
  pose proof (from_le_bytes_nonneg (slice payload p (p + 2))).
  destruct (copy_match_copied dict out (from_le_bytes (slice payload p (p + 2))) (n + 4)) as (out' & -> & _ & L); [lia|lia|].
  cbn. lia.
Qed.

Lemma lz_loop_safe dict payload orig_len fuel : blen payload <= 2 ^ 50 -> orig_len < 2 ^ 42 -> forall p out,
  0 <= p -> blen payload - p < Z.of_nat fuel -> (0 < fuel)%nat -> blen out <= orig_len ->
  safe (lz_loop fuel dict payload orig_len p out) (fun r => blen r <= blen out + 256 * (blen payload - p)).
Proof.
  intros HP Ho. induction fuel as [|fuel IH]; intros p out Hp Hf H0 Hout; [lia|]. cbn [lz_loop].
  eapply safe_bind; [apply safe_or_corrupt|]. intros tok Ht. cbn beta in Ht. apply get_Some_lt in Ht; [|done].
  eapply safe_bind; [apply read_len_safe; [lia|apply Z.shiftr_nonneg, bz_range]|]. intros [ll p'] (H1 & H2 & H3). cbn in *.
  eapply safe_bind; [apply safe_checked_add|]. intros e ->.
  eapply safe_bind; [apply safe_reject|]. intros _ [G1%Z.ltb_ge G2%Z.ltb_ge]%orb_false_iff.
  rewrite index_range_ok by lia. cbn.
  assert (LO : blen (out ++ slice payload p' (p' + ll)) = blen out + ll) by (rewrite blen_app, blen_slice by lia; lia).
  destruct (Z.eqb_spec (p' + ll) (blen payload)); [cbn [safe]; lia|].
  eapply safe_bind; [apply read_match_safe; lia|].
  intros [out' p''] (H4 & H5 & H6). cbn in *. eapply safe_weaken; [apply IH; lia|]. intros r. cbn. lia.
Qed.

Lemma lz_safe dict payload orig_len : blen payload <= 2 ^ 50 -> 0 <= orig_len < 2 ^ 42 ->
  safe (lz dict payload orig_len) (fun out => blen out = orig_len /\ orig_len <= 256 * blen payload).
Proof.
  intros HP Ho. unfold lz. eapply safe_bind.
  - apply lz_loop_safe; [done|lia|lia|unfold blen; lia|lia|change (blen _) with 0; lia].
  - intros out L. cbn beta in L. change (blen (@nil byte)) with 0 in L. destruct (Z.eqb_spec (blen out) orig_len); [|done]. cbn. lia.
Qed.

Lemma high_loop_safe dict seqs all_lits orig_len fuel : blen seqs <= 2 ^ 50 -> orig_len < 2 ^ 42 -> forall p lp out,
  0 <= p -> 0 <= lp -> blen seqs - p < Z.of_nat fuel -> (0 < fuel)%nat -> blen out <= orig_len ->
  safe (high_loop fuel dict seqs all_lits orig_len p lp out)
    (fun r => r.2 <= blen all_lits /\ blen r.1 <= blen out + (r.2 - lp) + 256 * (blen seqs - p)).
Proof.
  intros HP Ho. induction fuel as [|fuel IH]; intros p lp out Hp Hlp Hf H0 Hout; [lia|]. cbn [high_loop].
  eapply safe_bind; [apply safe_or_corrupt|]. intros tok Ht. cbn beta in Ht. apply get_Some_lt in Ht; [|done].
  eapply safe_bind; [apply read_len_safe; [lia|apply Z.shiftr_nonneg, bz_range]|]. intros [ll p'] (H1 & H2 & H3). cbn in *.
  eapply safe_bind; [apply safe_checked_add|]. intros e ->.
  eapply safe_bind; [apply safe_reject|]. intros _ [G1%Z.ltb_ge G2%Z.ltb_ge]%orb_false_iff.
  rewrite index_range_ok by lia. cbn.
  assert (LO : blen (out ++ slice all_lits lp (lp + ll)) = blen out + ll) by (rewrite blen_app, blen_slice by lia; lia).
  destruct (Z.eqb_spec p' (blen seqs)); [cbn; lia|].
  eapply safe_bind; [apply read_match_safe; lia|].
  intros [out' p''] (H4 & H5 & H6). cbn in *. eapply safe_weaken; [apply IH; lia|]. intros r. cbn. lia.
Qed.

Lemma varint_loop_safe buf : forall v shift, 0 <= shift -> 0 <= v < 2 ^ shift ->
  safe (varint_loop buf v shift) (fun r => 0 <= r.1 < 2 ^ 42 /\ blen r.2 < blen buf).
Proof.
  induction buf as [|b rest IH]; intros v shift Hs Hv; cbn [varint_loop]; [done|].
  destruct (Z.leb_spec 35 shift); [done|]. rewrite low_bits. pose proof (Z.mod_pos_bound (bz b) 128 ltac:(lia)).
  rewrite lor_shift_add by lia.
  pose proof (stack_range v (bz b mod 128) shift 7 ltac:(lia) ltac:(lia) Hv ltac:(lia)) as R.
  destruct (_ =? 0).
  - cbn. rewrite blen_cons. split; [|lia]. pose proof (Z.pow_le_mono_r 2 (shift + 7) 42 ltac:(lia) ltac:(lia)). lia.
  - eapply safe_weaken; [apply IH; [lia|exact R]|]. intros r. cbn. rewrite blen_cons. lia.
Qed.

Definition tables_ok (lens : option (list Z)) (table : option (list (Z * Z))) : Prop :=
  (forall l, lens = Some l -> valid l) /\ (forall t, table = Some t -> entries_ok t).

Lemma read_literal_block_safe flag rest lit_total lens table : tables_ok lens table -> 0 <= lit_total ->
  safe (read_literal_block flag rest lit_total lens table) (fun r => blen r.1 <= 8 * r.2).
Proof.
  intros [VL VT] Hl. unfold read_literal_block. case_bool_decide.
  { eapply safe_bind; [apply safe_reject|]. intros _ Hlt%Z.ltb_ge. cbn. rewrite blen_slice; lia. }
  case_bool_decide.
  { pose proof (huff_decode_safe rest lit_total Hl) as H2. destruct (huff_decode rest lit_total) as [[out used]| |]; [cbn; lia|done|done]. }
  case_bool_decide; [|done].
  apply (safe_bind _ _ (fun r => blen r.1 <= r.2)); [|intros [out bits] Hb; cbn in *; pose proof (div_ceil8_bound bits); lia].
  assert (RW : forall t, entries_ok t -> safe (read_bits_with rest t lit_total) (fun r => blen r.1 <= r.2)).
  { intros t Ht. pose proof (read_bits_with_safe rest t lit_total Ht Hl) as R.
    destruct (read_bits_with _ _ _) as [[out used]| |]; [cbn; lia|done|done]. }
  destruct table as [t|]; [by apply RW, VT|]. destruct lens as [l|]; cbn; [|done]. by apply RW, table_entries, VL.
Qed.

Lemma lz_high_safe dict lens table payload orig_len : tables_ok lens table ->
  blen payload <= 2 ^ 50 -> 0 <= orig_len < 2 ^ 42 ->
  safe (lz_high dict lens table payload orig_len) (fun out => blen out = orig_len /\ orig_len <= 256 * blen payload).
Proof.
  intros HT HP Ho. unfold lz_high.
  eapply safe_bind; [apply varint_loop_safe; [lia|cbn; lia]|]. intros [lit_total rest] (H1 & H2). cbn [fst snd] in *.
  destruct rest as [|flag rest]; [done|]. rewrite blen_cons in H2.
  eapply safe_bind; [apply read_literal_block_safe; [done|lia]|]. intros [all_lits seq_start] H3. cbn [fst snd] in *.
  eapply safe_bind; [apply safe_reject|]. intros _ G%Z.ltb_ge.
  pose proof (blen_nonneg all_lits). pose proof (blen_from rest seq_start ltac:(lia)) as LF.
  eapply safe_bind.
  - apply high_loop_safe; [lia|lia|lia|lia|unfold blen; lia|lia|change (blen _) with 0; lia].
  - intros [out lp] (L1 & L2). change (blen (@nil byte)) with 0 in L2. cbn [fst snd] in *.
    destruct (Z.eqb_spec (blen out) orig_len); cbn; [|done]. destruct (_ =? _); cbn; [lia|done].
Qed.

(** ** Copying byte by byte *)

(** The reference for a back-reference: one byte at a time, each the byte
    [dist] before the end of the history. *)
Fixpoint replay (n : nat) (hist : list byte) (dst : Z) : list byte :=
  match n with
  | O => hist
  | S n' =>
      match get hist (blen hist - dst) with
      | Some b => replay n' (hist ++ [b]) dst
      | None => hist
      end
  end.

Lemma replay_copied n : forall hist d, 1 <= d <= blen hist -> copied hist (replay n hist d) d (Z.of_nat n).
Proof.
  induction n as [|n IH]; intros hist d Hd; cbn [replay]; [apply copied_nil|].
  destruct (get_lt_Some hist (blen hist - d) ltac:(lia)) as [b E]. rewrite E.
  replace (Z.of_nat (S n)) with (1 + Z.of_nat n) by lia.
  eapply copied_trans; [lia|lia|lia| |apply IH; rewrite blen_app; blen_lia].
  exists [b]. split_and!; [done|done|]. intros i Hi. assert (i = blen hist) as -> by lia.
  rewrite get_mid, get_app_l by lia. done.
Qed.

(** Copying a match into the output in bulk, doubling an overlapping run, or
    across the end of the dictionary, is copying it byte by byte from the
    history [dict ++ out]; it never indexes out of range. *)
Theorem copy_match_is_bytewise (dict out : list byte) (dst len : Z)
  (Hd : 1 <= dst <= blen dict + blen out) (Hl : 0 <= len) :
  exists out', copy_match dict out dst len = Ret out' /\ dict ++ out' = replay (Z.to_nat len) (dict ++ out) dst.
Proof.
  destruct (copy_match_copied dict out dst len Hd Hl) as (out' & -> & C & _). exists out'. split; [done|].
  eapply copied_unique; [|exact C|]; [rewrite blen_app; lia|].
  pose proof (replay_copied (Z.to_nat len) (dict ++ out) dst ltac:(rewrite blen_app; lia)) as R.
  rewrite Z2Nat.id in R by lia. exact R.
Qed.

Lemma copy_match_is_bytewise_witness :
  exists out', copy_match [x61; x62; x63] [x64] 3 8 = Ret out' /\ [x61; x62; x63] ++ out' = replay 8 [x61; x62; x63; x64] 3.
Proof.
  destruct (copy_match_is_bytewise [x61; x62; x63] [x64] 3 8) as (out' & E & R);
    [change (blen [x61; x62; x63]) with 3; change (blen [x64]) with 1; lia|lia|].
  exists out'. split; [exact E|exact R].
Defined.
