(* ===== verification/Compress.v ===== *)
(** * Frames and dictionaries of kevy-compress ([crates/kevy-compress/src/{lib,dict}.rs])

    A frame is a tag, the original length as a varint, and a payload.  The
    encoders never panic and never expand; the decoder takes any bytes without
    a panic and gives back what was encoded, with the dictionary as bytes or
    parsed once ([Dict]).  The compaction level has one gap: a dictionary that
    is an entropy table with no content after it makes frames that [decode]
    refuses, and [train] can produce one. *)

From Stdlib Require Import ZArith Lia Bool Strings.Byte Strings.String.
From stdpp Require Import base tactics list numbers.
From S2P Require Import Prelude FindCrlf Huff Lz.

#[local] Open Scope list_scope.
#[local] Open Scope Z_scope.

(** ** Dictionaries *)

Definition DICT_MAGIC : list byte := bs "KVCD1".

(** The entropy table, when there is a valid one, and the content. *)
Definition parse_dict (dict : list byte) : option (list Z) * list byte :=
  if bool_decide (take 5 dict = DICT_MAGIC) then
    let rest := drop 5 dict in
    if blen rest <? HEADER_LEN then (None, dict)
    else
      let lens := unpack_lens (slice rest 0 HEADER_LEN) in
      if validate_lens lens 1 then (Some lens, from rest HEADER_LEN) else (None, dict)
  else (None, dict).

(** ** Frames *)

Definition push_header (tag : byte) (orig_len : Z) : list byte := tag :: push_varint orig_len.

(** Header and payload, or the input verbatim when there is no payload. *)
Definition finish_or_raw (r : byte * option (list byte)) (input : list byte) : list byte :=
  match r with
  | (tag, Some payload) => push_header tag (blen input) ++ payload
  | (_, None) => push_header TAG_RAW (blen input) ++ input
  end.

Definition encode (dict input : list byte) : exec (list byte) :=
  let '(_, content) := parse_dict dict in
  r ← if MIN_INPUT <=? blen input then try_lz content None input else Ret (TAG_RAW, None);
  Ret (finish_or_raw r input).

Definition encode_high (dict input : list byte) : exec (list byte) :=
  let '(lens, content) := parse_dict dict in
  r ← if MIN_INPUT <=? blen input then try_high content lens None input else Ret (TAG_RAW, None);
  Ret (finish_or_raw r input).

(** [match lz_high(&[], None, None, ..) { Err(_) if lens.is_some() => .., r => r }] *)
Definition lzh_retry (lens : option (list Z)) (table : option (list (Z * Z))) (payload : list byte) (orig_len : Z) :
  decoding (list byte) :=
  match lz_high [] None None payload orig_len, lens with
  | DecodeError, Some _ => lz_high [] lens table payload orig_len
  | r, _ => r
  end.

Definition decode (dict frame : list byte) : decoding (list byte) :=
  match frame with
  | [] => DecodeError
  | tag :: rest =>
      v ← read_varint rest;
      let '(orig_len, payload) := v : Z * list byte in
      if bool_decide (tag = TAG_RAW) then
        if blen payload =? orig_len then Decoded payload else DecodeError
      else if bool_decide (tag = TAG_LZ) then lz [] payload orig_len
      else
        let '(lens, content) := parse_dict dict in
        if bool_decide (tag = TAG_LZ_DICT) then
          if bool_decide (content = []) then DecodeError else lz content payload orig_len
        else if bool_decide (tag = TAG_LZH) then lzh_retry lens None payload orig_len
        else if bool_decide (tag = TAG_LZH_DICT) then
          if bool_decide (content = []) then DecodeError else lz_high content lens None payload orig_len
        else DecodeError
  end.

(** ** A dictionary parsed once ([dict.rs]) *)

Record Dict := mkDict {
  d_lens : option (list Z);
  d_content : list byte;
  d_table : option (list (Z * Z));
  d_seeded : list Z
}.

Definition dict_new (bytes : list byte) : exec Dict :=
  let '(lens, content) := parse_dict bytes in
  seeded ← seeded_table content;
  Ret (mkDict lens content (build_decode_table <$> lens) seeded).

Definition dict_decode (self : Dict) (frame : list byte) : decoding (list byte) :=
  match frame with
  | [] => DecodeError
  | tag :: rest =>
      v ← read_varint rest;
      let '(orig_len, payload) := v : Z * list byte in
      if bool_decide (tag = TAG_RAW) then
        if blen payload =? orig_len then Decoded payload else DecodeError
      else if bool_decide (tag = TAG_LZ) then lz [] payload orig_len
      else if bool_decide (tag = TAG_LZ_DICT) then
        if bool_decide (d_content self = []) then DecodeError else lz (d_content self) payload orig_len
      else if bool_decide (tag = TAG_LZH) then lzh_retry (d_lens self) (d_table self) payload orig_len
      else if bool_decide (tag = TAG_LZH_DICT) then
        if bool_decide (d_content self = []) then DecodeError
        else lz_high (d_content self) (d_lens self) (d_table self) payload orig_len
      else DecodeError
  end.

Definition dict_encode (self : Dict) (input : list byte) : exec (list byte) :=
  r ← if MIN_INPUT <=? blen input then try_lz (d_content self) (Some (d_seeded self)) input else Ret (TAG_RAW, None);
  Ret (finish_or_raw r input).

Definition dict_encode_high (self : Dict) (input : list byte) : exec (list byte) :=
  r ← if MIN_INPUT <=? blen input then try_high (d_content self) (d_lens self) (Some (d_seeded self)) input
      else Ret (TAG_RAW, None);
  Ret (finish_or_raw r input).

(** ** Training *)

(** FNV-1a on a [u64]. *)
Definition fnv1a (bytes : list byte) : Z :=
  fold_left (fun h b => (Z.lxor h (bz b) * 0x100000001b3) mod 2 ^ 64) bytes 0xcbf29ce484222325.

(** Magic and packed lengths of the add-one-smoothed histogram. *)
Definition emit_table (samples : list (list byte)) : exec (list byte) :=
  let hist := fold_left (fun h s => count_bytes s h) samples (replicate 256 1) in
  lens ← code_lengths hist;
  Ret (DICT_MAGIC ++ pack_lens lens).

(** [while i < samples.len() && need > 0]; [seen] is the set of hashes. *)
Fixpoint pick (fuel : nat) (samples : list (list byte)) (i stride need : Z) (seen : list Z) (dict : list byte) :
  exec (list byte) :=
  if (i <? blen samples) && (0 <? need) then
    match fuel with
    | O => Panic
    | S f =>
        s ← index samples i;
        let h := fnv1a s in
        if bool_decide (h ∈ seen) then pick f samples (i + stride) stride need seen dict
        else
          let n := Z.min (blen s) need in
          pick f samples (i + stride) stride (need - n) (h :: seen) (dict ++ slice s 0 n)
    end
  else Ret dict.

Definition train (samples : list (list byte)) (budget : Z) : exec (list byte) :=
  if bool_decide (samples = []) || (budget =? 0) then Ret []
  else
    let header := blen DICT_MAGIC + HEADER_LEN in
    dict ← if header * 8 <=? budget then emit_table samples else Ret [];
    budget ← sub_usize budget (blen dict);
    let budget := Z.min budget MAX_OFFSET in
    let avg := foldr Z.add 0 (blen <$> samples) / Z.max (blen samples) 1 in
    stride ← (if avg =? 0 then Ret 1
              else if budget =? 0 then Panic
              else Ret (Z.max (blen samples * avg / budget) 1));
    pick (length samples) samples 0 stride budget [] dict.

(** ** Dictionaries have valid tables *)

Lemma parse_dict_valid dict : forall l, (parse_dict dict).1 = Some l -> valid l.
Proof.
  intros l. unfold parse_dict. case_bool_decide; [|done].
  destruct (Z.ltb_spec (blen (drop 5 dict)) HEADER_LEN); [done|].
  destruct (validate_lens _ 1) eqn:E; [|done]. intros [= <-]. eapply validate_lens_sound; [|exact E].
  apply blen_slice; unfold HEADER_LEN in *; lia.
Qed.

Lemma reachable_suffix dict : exists p, dict = p ++ reachable dict.
Proof.
  exists (take (Z.to_nat (blen dict - Z.min (blen dict) MAX_OFFSET)) dict). unfold reachable, from. by rewrite take_drop.
Qed.

Lemma seeded_table_ok dict : exists t, seeded_table dict = Ret t /\ seed (reachable dict) empty_table = Ret t /\ seeded_ok (Some t) dict.
Proof. unfold seeded_table. destruct (seed_ok (reachable dict)) as (t & -> & T). by exists t. Qed.

(** Seeding once or seeding for each call finds the same sequences. *)
Lemma collected_seeded dict t input : seed (reachable dict) empty_table = Ret t ->
  collected (Some t) (reachable dict) input = collected None (reachable dict) input.
Proof. intros E. unfold collected, collect_seqs. by rewrite E. Qed.

(** ** What the encoders produce *)

Lemma raw_frame_decodes input : blen input < 2 ^ 35 -> forall dict, decode dict (push_header TAG_RAW (blen input) ++ input) = Decoded input.
Proof.
  intros Hin dict. unfold push_header. cbn [app decode]. rewrite read_push_varint by (blen_pos; lia).
  cbn [mbind decoding_bind]. rewrite bool_decide_true by done. by rewrite Z.eqb_refl.
Qed.

(** A good outcome of [try_lz] or [try_high]: its frame decodes, and its
    payload is below [cap]. *)
Definition outcome_ok (dict input : list byte) (cap : Z) (r : byte * option (list byte)) : Prop :=
  match r with
  | (tag, Some payload) =>
      blen payload < cap /\ decode dict (push_header tag (blen input) ++ payload) = Decoded input
  | (_, None) => True
  end.

Lemma decode_framed dict tag (input payload : list byte) : blen input < 2 ^ 35 ->
  decode dict (push_header tag (blen input) ++ payload) =
  if bool_decide (tag = TAG_RAW) then if blen payload =? blen input then Decoded payload else DecodeError
  else if bool_decide (tag = TAG_LZ) then lz [] payload (blen input)
  else
    let '(lens, content) := parse_dict dict in
    if bool_decide (tag = TAG_LZ_DICT) then
      if bool_decide (content = []) then DecodeError else lz content payload (blen input)
    else if bool_decide (tag = TAG_LZH) then lzh_retry lens None payload (blen input)
    else if bool_decide (tag = TAG_LZH_DICT) then
      if bool_decide (content = []) then DecodeError else lz_high content lens None payload (blen input)
    else DecodeError.
Proof.
  intros Hin. unfold push_header. cbn [app decode]. rewrite read_push_varint by (blen_pos; lia). done.
Qed.

(** The sequences found, seen from the decoder: with the whole content as
    history, and, when the dictionary was not used, with none. *)
Lemma found dict seeded input : seeded_ok seeded dict ->
  exists seqs t used, let E := reachable dict in
    collected seeded E input = Ret (seqs, (t, blen E + blen input), used) /\
    parses E input (blen E) (blen E) seqs t /\ parses dict input (blen E) (blen E) seqs t /\
    (used = true -> dict <> []) /\ (used = false -> parses [] input (blen E) (blen E) seqs t).
Proof.
  intros HS. destruct (collected_ok seeded dict input HS) as (seqs & t & used & EC & P & UT & UF).
  exists seqs, t, used. cbn zeta. pose proof (blen_nonneg (reachable dict)). split_and!; [done|done| | |].
  - destruct (reachable_suffix dict) as [p Ep]. rewrite Ep at 1. by apply parses_prefix.
  - intros Hu ->. specialize (UT Hu). done.
  - intros Hu. eapply parses_without; [done|exact P|]. by apply UF.
Qed.

(** The fast outcome of a set of sequences. *)
Lemma fast_outcome dict content input d seqs t (used : bool) :
  (parse_dict dict).2 = content -> blen input < 2 ^ 35 -> 0 <= d ->
  parses content input d d seqs t -> (used = true -> content <> []) -> (used = false -> parses [] input d d seqs t) ->
  blen (fast_stream d input seqs t) < blen input ->
  decode dict (push_header (if used then TAG_LZ_DICT else TAG_LZ) (blen input) ++ fast_stream d input seqs t) = Decoded input.
Proof.
  intros Ec Hin Hd P UT UF Hlt. rewrite decode_framed by done. destruct used.
  - rewrite !bool_decide_false by done. destruct (parse_dict dict) as [lens c]. cbn in Ec. subst c.
    rewrite bool_decide_true by done. rewrite bool_decide_false by (by apply UT). apply lz_rebuilds; done || lia.
  - rewrite bool_decide_false by done. rewrite bool_decide_true by done. apply lz_rebuilds; [done|by apply UF|lia|lia].
Qed.

Lemma try_lz_ok dict seeded input : let content := (parse_dict dict).2 in
  seeded_ok seeded content -> blen input < 2 ^ 35 ->
  exists r, try_lz content seeded input = Ret r /\ outcome_ok dict input (blen input) r.
Proof.
  intros content HS Hin. destruct (found content seeded input HS) as (seqs & t & used & EC & P & PC & UT & UF).
  unfold try_lz. rewrite EC. cbn [mbind exec_bind]. rewrite (serialize_fast_spec _ _ _ _ _ _ P). cbn [mbind exec_bind].
  set (o := fast_stream _ _ _ _). destruct (Z.ltb_spec (blen o) (blen input)) as [Hlt|].
  - eexists. split; [reflexivity|]. split; [done|].
    apply (fast_outcome dict content); try done. apply blen_nonneg.
  - eexists. split; [reflexivity|]. done.
Qed.

(** The compaction outcome: a literal block that used the dictionary's table
    decodes when the dictionary also has content. *)
Lemma high_outcome dict lens content input d seqs t (used shared : bool) flag body :
  parse_dict dict = (lens, content) -> blen input < 2 ^ 35 -> 0 <= d ->
  parses content input d d seqs t -> (used = true -> content <> []) -> (used = false -> parses [] input d d seqs t) ->
  (content <> [] \/ lens = None) -> (shared = true -> lens <> None) ->
  (forall lens' table' rest, (shared = true -> exists l, lens = Some l /\ has_table l lens' table') ->
     read_literal_block flag (body ++ rest) (blen (all_runs d input seqs t)) lens' table' = Decoded (all_runs d input seqs t, blen body)) ->
  decode dict (push_header (if used || shared then TAG_LZH_DICT else TAG_LZH) (blen input)
    ++ push_varint (blen (all_runs d input seqs t)) ++ (flag :: body) ++ high_stream d input seqs t) = Decoded input.
Proof.
  intros Ep Hin Hd P UT UF Hc Has Blk. rewrite decode_framed by done. destruct (used || shared) eqn:Dep.
  - assert (NE : content <> []).
    { destruct used; [by apply UT|]. cbn in Dep. destruct Hc as [|Hn]; [done|]. by destruct (Has Dep). }
    rewrite !bool_decide_false by done. rewrite Ep. rewrite bool_decide_true by done. rewrite bool_decide_false by done.
    apply lz_high_rebuilds; [done|done|done|]. intros rest. apply Blk. intros Hs. specialize (Has Hs).
    destruct lens as [l|]; [|done]. exists l. split; [done|]. by right.
  - apply orb_false_iff in Dep as [-> ->]. rewrite !bool_decide_false by done. rewrite Ep.
    rewrite bool_decide_true by done. unfold lzh_retry.
    rewrite lz_high_rebuilds; [by destruct lens|done|by apply UF|done|]. intros rest. by apply Blk.
Qed.

Definition size (input : list byte) (r : byte * option (list byte)) : Z :=
  match r.2 with Some payload => blen payload | None => blen input end.

Lemma frame_size r input : blen (finish_or_raw r input) = 1 + blen (push_varint (blen input)) + size input r.
Proof. destruct r as [tag [payload|]]; cbn [finish_or_raw size snd]; unfold push_header; rewrite blen_app, blen_cons; lia. Qed.

(** A dictionary whose entropy table, if it has one, comes with content. *)
Definition usable (dict : list byte) : Prop := (parse_dict dict).2 <> [] \/ (parse_dict dict).1 = None.

Lemma try_high_ok dict seeded input : let lens := (parse_dict dict).1 in let content := (parse_dict dict).2 in
  seeded_ok seeded content -> usable dict -> blen input < 2 ^ 35 ->
  exists r, try_high content lens seeded input = Ret r /\ outcome_ok dict input (blen input) r /\
    forall r', try_lz content seeded input = Ret r' -> size input r <= size input r'.
Proof.
  intros lens content HS Hu Hin. destruct (found content seeded input HS) as (seqs & t & used & EC & P & PC & UT & UF).
  pose proof (blen_nonneg (reachable content)) as Hd. pose proof (all_runs_length _ _ _ _ _ _ P) as AL. rewrite Z.sub_diag in AL.
  unfold try_high, try_lz. rewrite EC. cbn [mbind exec_bind]. rewrite !(serialize_fast_spec _ _ _ _ _ _ P). cbn [mbind exec_bind].
  set (fast := fast_stream _ _ _ _) in *.
  set (cap := match (if blen fast <? blen input then Some fast else None) with Some p => blen p | None => blen input end).
  assert (Hcap : cap <= blen input) by (subst cap; destruct (Z.ltb_spec (blen fast) (blen input)); lia).
  destruct (serialize_high_ok (reachable content) (reachable content) lens input seqs t cap P ltac:(lia) ltac:(lia) (parse_dict_valid dict))
    as (flag & body & shared & Has & Blk & ES). rewrite ES. cbn [mbind exec_bind]. clear ES.
  set (o := push_varint _ ++ _). destruct (Z.ltb_spec (blen o) cap) as [Hlt|Hge].
  - eexists. split; [reflexivity|]. split; [split; [lia|]|].
    + subst o. apply (high_outcome dict lens content); try done. by destruct (parse_dict dict).
    + intros r' Er. enough (cap <= size input r') by (cbn [size snd]; lia). subst cap.
      destruct (Z.ltb_spec (blen fast) (blen input)); injection Er as <-; cbn [size snd]; lia.
  - destruct (Z.ltb_spec (blen fast) (blen input)) as [Hf|Hf]; (eexists; split; [reflexivity|]).
    + split; [split; [done|]; by apply (fast_outcome dict content)|]. intros r' [= <-]. cbn [size snd]. lia.
    + split; [done|]. intros r' [= <-]. cbn [size snd]. lia.
Qed.

(** A finished frame of a good outcome decodes, and is not longer than the
    input and its header. *)
Lemma finished dict input r : blen input < 2 ^ 35 -> outcome_ok dict input (blen input) r ->
  decode dict (finish_or_raw r input) = Decoded input /\ blen (finish_or_raw r input) <= blen input + 6.
Proof.
  intros Hin Hr. rewrite frame_size. pose proof (push_varint_length (blen input) ltac:(blen_pos; lia)).
  destruct r as [tag [payload|]]; cbn [finish_or_raw outcome_ok size snd] in *.
  - split; [apply Hr|lia].
  - split; [by apply raw_frame_decodes|lia].
Qed.

Lemma encode_with_ok dict seeded input : let content := (parse_dict dict).2 in
  seeded_ok seeded content -> blen input < 2 ^ 35 ->
  exists r, (if MIN_INPUT <=? blen input then try_lz content seeded input else Ret (TAG_RAW, None)) = Ret r /\
    outcome_ok dict input (blen input) r.
Proof.
  intros content HS Hin. destruct (MIN_INPUT <=? blen input); [by apply try_lz_ok|]. by exists (TAG_RAW, None).
Qed.

Lemma encode_high_with_ok dict seeded input : let lens := (parse_dict dict).1 in let content := (parse_dict dict).2 in
  seeded_ok seeded content -> usable dict -> blen input < 2 ^ 35 ->
  exists r, (if MIN_INPUT <=? blen input then try_high content lens seeded input else Ret (TAG_RAW, None)) = Ret r /\
    outcome_ok dict input (blen input) r /\
    forall r', (if MIN_INPUT <=? blen input then try_lz content seeded input else Ret (TAG_RAW, None)) = Ret r' ->
      size input r <= size input r'.
Proof.
  intros lens content HS Hu Hin. destruct (MIN_INPUT <=? blen input); [by apply try_high_ok|].
  exists (TAG_RAW, None). split; [done|]. split; [done|]. by intros r' [= <-].
Qed.

Lemma encode_returns dict input : blen input < 2 ^ 35 -> exists frame, encode dict input = Ret frame.
Proof.
  intros Hin. unfold encode. destruct (encode_with_ok dict None input I Hin) as (r & E & _).
  destruct (parse_dict dict) as [lens content]. cbn [fst snd] in E. rewrite E. by eexists.
Qed.

(** ** Theorems *)

(** What [encode] writes for any dictionary and any input of less than 32 GiB
    is decoded back to the input under the same dictionary, and is at most six
    bytes longer than it; [encode] does not panic. *)
Theorem compress_roundtrip (dict input : list byte) (Hin : blen input < 2 ^ 35) :
  exists frame, encode dict input = Ret frame /\ decode dict frame = Decoded input /\ blen frame <= blen input + 6.
Proof.
  unfold encode. destruct (encode_with_ok dict None input I Hin) as (r & E & O). destruct (parse_dict dict) as [lens content].
  cbn [fst snd] in E. rewrite E. cbn. exists (finish_or_raw r input). split; [done|]. by apply finished.
Qed.

Lemma compress_roundtrip_witness :
  exists frame, encode (bs "shared prefix") (bs "shared prefix and more") = Ret frame /\
    decode (bs "shared prefix") frame = Decoded (bs "shared prefix and more") /\ blen frame <= 28.
Proof.
  destruct (compress_roundtrip (bs "shared prefix") (bs "shared prefix and more") ltac:(reflexivity)) as (f & E & D & L).
  exists f. split; [exact E|]. split; [exact D|exact L].
Defined.

(** C25: The compaction level, for a dictionary without an entropy table or with
    content after it: the frame is decoded back to the input and is not longer
    than the fast level's. *)
Theorem compress_high_roundtrip (dict input fast : list byte)
  (Hu : (parse_dict dict).2 <> [] \/ (parse_dict dict).1 = None) (Hin : blen input < 2 ^ 35)
  (Hf : encode dict input = Ret fast) :
  exists frame, encode_high dict input = Ret frame /\ decode dict frame = Decoded input /\ blen frame <= blen fast.
Proof.
  unfold encode_high. destruct (encode_high_with_ok dict None input I Hu Hin) as (r & E & O & S). unfold encode in Hf.
  destruct (parse_dict dict) as [lens content] eqn:Ep. cbn [fst snd] in *. rewrite E. cbn. exists (finish_or_raw r input).
  split; [done|]. split; [by apply finished|].
  destruct (if MIN_INPUT <=? blen input then try_lz content None input else Ret (TAG_RAW, None)) as [r'|] eqn:E'; [|done].
  injection Hf as <-. rewrite !frame_size. specialize (S r' eq_refl). lia.
Qed.

Lemma compress_high_roundtrip_witness :
  exists frame, encode_high (bs "level=info svc=api") (bs "level=warn svc=api msg=ok") = Ret frame /\
    decode (bs "level=info svc=api") frame = Decoded (bs "level=warn svc=api msg=ok").
Proof.
  destruct (encode_returns (bs "level=info svc=api") (bs "level=warn svc=api msg=ok") ltac:(reflexivity)) as (fast & F).
  destruct (compress_high_roundtrip (bs "level=info svc=api") (bs "level=warn svc=api msg=ok") fast
              ltac:(right; reflexivity) ltac:(reflexivity) F) as (f & E & D & _).
  exists f. split; [exact E|exact D].
Defined.

Lemma dict_agrees (bytes input frame : list byte) :
  exists d, dict_new bytes = Ret d /\
    dict_encode d input = encode bytes input /\ dict_encode_high d input = encode_high bytes input /\
    dict_decode d frame = decode bytes frame.
Proof.
  unfold dict_new, encode, encode_high, decode. destruct (parse_dict bytes) as [lens content].
  destruct (seeded_table_ok content) as (t & -> & Et & _). cbn. eexists. split; [reflexivity|].
  unfold dict_encode, dict_encode_high, dict_decode. cbn [d_lens d_content d_table d_seeded].
  assert (C : collected (Some t) (reachable content) input = collected None (reachable content) input) by by apply collected_seeded.
  split_and!.
  - unfold try_lz. by rewrite C.
  - unfold try_high. by rewrite C.
  - destruct frame as [|tag rest]; [done|]. destruct (read_varint rest) as [[orig_len payload]| |]; cbn; [|done|done].
    assert (H : forall D, lz_high D lens (build_decode_table <$> lens) payload orig_len = lz_high D lens None payload orig_len).
    { intros D. destruct lens as [l|]; [|done]. reflexivity. }
    unfold lzh_retry. by rewrite !H.
Qed.

(** A dictionary parsed, seeded and tabulated once encodes every input to the
    same frame as its bytes do, at both levels, and gives the same answer as
    them on every byte string, corrupt ones included; building it does not
    panic. *)
Theorem dict_is_its_bytes (bytes input frame : list byte) :
  exists d, dict_new bytes = Ret d /\
    dict_encode d input = encode bytes input /\ dict_encode_high d input = encode_high bytes input /\
    dict_decode d frame = decode bytes frame.
Proof. apply dict_agrees. Qed.

(** What a parsed dictionary makes of a value, at either level. *)
Lemma dict_frame_ok bytes d input (high : bool) : dict_new bytes = Ret d -> usable bytes -> blen input < 2 ^ 35 ->
  exists frame, (if high then dict_encode_high d input else dict_encode d input) = Ret frame /\
    dict_decode d frame = Decoded input /\ 1 + blen (push_varint (blen input)) <= blen frame <= blen input + 6.
Proof.
  intros Ed Hu Hin.
  assert (Frame : forall r, outcome_ok bytes input (blen input) r ->
    dict_decode d (finish_or_raw r input) = Decoded input /\
    1 + blen (push_varint (blen input)) <= blen (finish_or_raw r input) <= blen input + 6).
  { intros r O. destruct (finished bytes input r Hin O) as [D L].
    destruct (dict_agrees bytes input (finish_or_raw r input)) as (d' & E & _ & _ & A). rewrite Ed in E. injection E as <-.
    rewrite A. split; [done|]. split; [|done]. rewrite frame_size. destruct r as [tag [payload|]]; cbn [size snd]; blen_pos; lia. }
  destruct (dict_agrees bytes input []) as (d' & E & Fast & High & _). rewrite Ed in E. injection E as <-.
  destruct high; [rewrite High; unfold encode_high | rewrite Fast; unfold encode].
  - destruct (encode_high_with_ok bytes None input I Hu Hin) as (r & E & O & _). destruct (parse_dict bytes) as [lens content].
    cbn [fst snd] in E. rewrite E. cbn. exists (finish_or_raw r input). split; [done|by apply Frame].
  - destruct (encode_with_ok bytes None input I Hin) as (r & E & O). destruct (parse_dict bytes) as [lens content].
    cbn [fst snd] in E. rewrite E. cbn. exists (finish_or_raw r input). split; [done|by apply Frame].
Qed.

(** Every branch of the decoder, on any payload: no panic, and a result of the
    announced length that the payload was long enough to hold. *)
Lemma decode_payload_safe dict tag payload orig_len : blen payload <= 2 ^ 50 -> 0 <= orig_len < 2 ^ 42 ->
  safe (if bool_decide (tag = TAG_RAW) then if blen payload =? orig_len then Decoded payload else DecodeError
        else if bool_decide (tag = TAG_LZ) then lz [] payload orig_len
        else
          let '(lens, content) := parse_dict dict in
          if bool_decide (tag = TAG_LZ_DICT) then
            if bool_decide (content = []) then DecodeError else lz content payload orig_len
          else if bool_decide (tag = TAG_LZH) then lzh_retry lens None payload orig_len
          else if bool_decide (tag = TAG_LZH_DICT) then
            if bool_decide (content = []) then DecodeError else lz_high content lens None payload orig_len
          else DecodeError)
    (fun out => blen out = orig_len /\ orig_len <= 256 * blen payload).
Proof.
  intros Hp Ro. pose proof (parse_dict_valid dict) as V. destruct (parse_dict dict) as [lens content]. cbn [fst] in V.
  assert (T0 : tables_ok None None) by done. assert (T1 : tables_ok lens None) by (split; done).
  pose proof (fun D => lz_safe D payload orig_len Hp Ro) as L.
  pose proof (fun D => lz_high_safe D None None payload orig_len T0 Hp Ro) as H0.
  pose proof (fun D => lz_high_safe D lens None payload orig_len T1 Hp Ro) as H1.
  case_bool_decide; [destruct (Z.eqb_spec (blen payload) orig_len); [cbn; lia|done]|].
  case_bool_decide; [apply L|]. case_bool_decide; [case_bool_decide; [done|apply L]|].
  case_bool_decide.
  { unfold lzh_retry. specialize (H0 []). destruct (lz_high [] None None payload orig_len) as [out| |]; [done| |done].
    destruct lens; [apply H1|done]. }
  case_bool_decide; [|done]. case_bool_decide; [done|apply H1].
Qed.

(** Decoding takes any bytes without a panic.  What it returns has exactly the
    length the frame's header announces, and that length is what was reserved
    for it: the cap on the reservation, 256 bytes per payload byte and a
    kibibyte, is never below the output of a frame that decodes. *)
Theorem decode_any_bytes (dict frame : list byte) (Hf : blen frame <= 2 ^ 50) :
  match decode dict frame with
  | Decoded out =>
      exists tag rest payload, frame = tag :: rest /\ read_varint rest = Decoded (blen out, payload) /\
        reserve_for (blen out) (blen payload) = blen out
  | DecodeError => True
  | Crashed => False
  end.
Proof.
  unfold decode. destruct frame as [|tag rest]; [done|]. rewrite blen_cons in Hf.
  pose proof (varint_loop_safe rest 0 0 ltac:(lia) ltac:(cbn; lia)) as RV. fold (read_varint rest) in RV.
  destruct (read_varint rest) as [[orig_len payload]| |] eqn:EV; cbn in RV; [|done|done]. destruct RV as [Ro Rp]. cbn [mbind decoding_bind].
  pose proof (decode_payload_safe dict tag payload orig_len ltac:(lia) Ro) as S.
  set (m := if bool_decide (tag = TAG_RAW) then _ else _) in *. destruct m as [out| |]; [|done|done]. cbn in S. destruct S as [<- S].
  exists tag, rest, payload. split_and!; [done|done|]. unfold reserve_for, sat_mul_add, u64_max. pose proof (blen_nonneg payload). lia.
Qed.

Lemma decode_any_bytes_witness : decode [] (bs "not a frame") <> Crashed.
Proof.
  pose proof (decode_any_bytes [] (bs "not a frame") ltac:(vm_compute; discriminate)) as H.
  intros E. rewrite E in H. exact H.
Defined.

(** *** Training *)

Lemma pick_ok samples stride : 1 <= stride -> forall fuel i need seen dict, 0 <= i -> 0 <= need ->
  blen samples - i <= Z.of_nat fuel ->
  exists extra, pick fuel samples i stride need seen dict = Ret (dict ++ extra) /\ blen extra <= need.
Proof.
  intros Hs. induction fuel as [|fuel IH]; intros i need seen dict Hi Hn Hf; cbn [pick].
  all: destruct (Z.ltb_spec i (blen samples)); cbn [andb]; try lia.
  all: try (exists []; rewrite app_nil_r; split; [done|rewrite (@blen_nil byte); lia]).
  destruct (Z.ltb_spec 0 need); [|exists []; rewrite app_nil_r; split; [done|rewrite (@blen_nil byte); lia]].
  unfold index. destruct (get_lt_Some samples i ltac:(lia)) as [s ->]. cbn [mbind exec_bind]. pose proof (blen_nonneg s).
  case_bool_decide; [apply IH; lia|].
  destruct (IH (i + stride) (need - Z.min (blen s) need) (fnv1a s :: seen) (dict ++ slice s 0 (Z.min (blen s) need)))
    as (extra & -> & L); [lia..|].
  exists (slice s 0 (Z.min (blen s) need) ++ extra). rewrite app_assoc. split; [done|].
  rewrite blen_app, blen_slice by lia. lia.
Qed.

(** A first sample with bytes in it makes a dictionary with content. *)
Lemma pick_first s samples stride need dict : 1 <= stride -> s <> [] -> 0 < need ->
  exists extra, pick (length (s :: samples)) (s :: samples) 0 stride need [] dict = Ret (dict ++ extra) /\ extra <> [].
Proof.
  intros Hs Hne Hn. cbn [length pick]. pose proof (blen_nonneg samples). rewrite blen_cons.
  destruct (Z.ltb_spec 0 (1 + blen samples)); [|lia]. destruct (Z.ltb_spec 0 need); [|lia]. cbn [andb].
  change (index (s :: samples) 0) with (Ret s). cbn [mbind exec_bind]. rewrite bool_decide_false by apply not_elem_of_nil. pose proof (blen_nonneg s).
  destruct (pick_ok (s :: samples) stride Hs (length samples) (0 + stride) (need - Z.min (blen s) need) [fnv1a s]
    (dict ++ slice s 0 (Z.min (blen s) need))) as (extra & -> & _); [lia|lia|rewrite blen_cons; unfold blen; lia|].
  exists (slice s 0 (Z.min (blen s) need) ++ extra). rewrite app_assoc. split; [done|]. intros E.
  apply (f_equal blen) in E. rewrite blen_app, blen_slice in E by lia. change (blen (@nil byte)) with 0 in E.
  pose proof (blen_nonneg extra). assert (0 < blen s) by (destruct s; [done|rewrite blen_cons; blen_pos; lia]). lia.
Qed.

Lemma smoothed_hist samples : forall h, length h = 256%nat -> (forall t, 0 <= t < 256 -> 0 < at_ h t) ->
  let r := fold_left (fun h s => count_bytes s h) samples h in
  length r = 256%nat /\ forall t, 0 <= t < 256 -> 0 < at_ r t.
Proof.
  induction samples as [|s samples IH]; intros h Hl Hp; cbn [fold_left]; [done|]. apply IH.
  - by rewrite count_bytes_length.
  - intros t Ht. rewrite count_bytes_at by done. specialize (Hp t Ht). blen_pos. lia.
Qed.

(** The table [train] writes, and how it is read. *)
Lemma emit_table_ok samples : exists lens, emit_table samples = Ret (DICT_MAGIC ++ pack_lens lens) /\ valid lens /\
  blen (pack_lens lens) = HEADER_LEN /\ forall b, 0 < len_of lens b.
Proof.
  unfold emit_table. destruct (smoothed_hist samples (replicate 256 1)) as (L & P); [done| |].
  { intros t Ht. unfold at_. rewrite lookup_replicate_2 by lia. cbn. lia. }
  destruct (code_lengths_spec _ L) as (lens & -> & V & A). exists lens. split; [done|]. split; [done|]. pose proof V as (HL & _). split.
  - pose proof (pack_lens_length lens (valid_even _ V)) as PL. unfold blen, HEADER_LEN in *. lia.
  - intros b. rewrite len_of_at by done. pose proof (bz_range b). apply A; [done|]. by apply P.
Qed.

Lemma parse_trained lens content : valid lens -> blen (pack_lens lens) = HEADER_LEN -> (forall b, 0 < len_of lens b) ->
  parse_dict (DICT_MAGIC ++ pack_lens lens ++ content) = (Some lens, content).
Proof.
  intros V HB Pos. unfold parse_dict. rewrite bool_decide_true by done.
  change (drop 5 (DICT_MAGIC ++ pack_lens lens ++ content)) with (pack_lens lens ++ content).
  pose proof (blen_nonneg content). destruct (Z.ltb_spec (blen (pack_lens lens ++ content)) HEADER_LEN) as [Hs|_]; [rewrite blen_app in Hs; lia|].
  rewrite <- HB, slice_from_app, from_app_len, unpack_pack by (by apply valid_even || by apply valid_nibbles).
  rewrite validate_valid; [done|done|]. right. exists x00. apply Pos.
Qed.

(** C36: Training returns within its budget; from at least one sample and with room
    for the entropy table eight times over, what it returns is read back as a
    table that has a code for every byte, and as content that a back-reference can
    reach. *)
Theorem train_within_budget (samples : list (list byte)) (budget : Z) (Hb : 0 <= budget) :
  exists dict, train samples budget = Ret dict /\ blen dict <= budget /\
    (samples <> [] -> 8 * (blen DICT_MAGIC + HEADER_LEN) <= budget ->
     exists lens content, parse_dict dict = (Some lens, content) /\ blen content <= MAX_OFFSET /\
       validate_lens lens 1 = true /\ forall b, 0 < len_of lens b).
Proof.
  unfold train. destruct (bool_decide (samples = []) || (budget =? 0)) eqn:Triv.
  { exists []. split; [done|]. split; [done|]. intros Hne Hle. apply orb_true_iff in Triv as [T|T].
    - by apply bool_decide_eq_true in T.
    - apply Z.eqb_eq in T. subst. vm_compute in Hle. by destruct Hle. }
  apply orb_false_iff in Triv as [T1%bool_decide_eq_false T2%Z.eqb_neq].
  change (blen DICT_MAGIC + HEADER_LEN) with 133.
  assert (Rest : forall dict, blen dict < budget -> exists extra,
    (budget ← sub_usize budget (blen dict);
     stride ← (if foldr Z.add 0 (blen <$> samples) / Z.max (blen samples) 1 =? 0 then Ret 1
               else if Z.min budget MAX_OFFSET =? 0 then Panic
               else Ret (Z.max (blen samples * (foldr Z.add 0 (blen <$> samples) / Z.max (blen samples) 1) / Z.min budget MAX_OFFSET) 1));
     pick (length samples) samples 0 stride (Z.min budget MAX_OFFSET) [] dict) = Ret (dict ++ extra) /\
    blen extra <= Z.min (budget - blen dict) MAX_OFFSET).
  { intros dict Hd. unfold sub_usize. destruct (Z.leb_spec (blen dict) budget); [|lia]. cbn [mbind exec_bind].
    assert (0 < Z.min (budget - blen dict) MAX_OFFSET) by (unfold MAX_OFFSET; lia).
    destruct (_ =? 0); cbn [mbind exec_bind].
    - apply pick_ok; [lia|lia|lia|unfold blen; lia].
    - destruct (Z.eqb_spec (Z.min (budget - blen dict) MAX_OFFSET) 0); [lia|]. cbn [mbind exec_bind].
      apply pick_ok; [lia|lia|lia|unfold blen; lia]. }
  destruct (Z.leb_spec (133 * 8) budget) as [Hle|Hgt].
  - destruct (emit_table_ok samples) as (lens & -> & V & HB & Pos). cbn [mbind exec_bind].
    assert (HD : blen (DICT_MAGIC ++ pack_lens lens) = 133) by (rewrite blen_app, HB; done).
    destruct (Rest (DICT_MAGIC ++ pack_lens lens) ltac:(lia)) as (extra & E & L). cbn zeta. rewrite E.
    exists ((DICT_MAGIC ++ pack_lens lens) ++ extra). split; [done|]. split; [rewrite blen_app; lia|]. intros _ _.
    exists lens, extra. rewrite <- app_assoc, parse_trained by done. split_and!; [done|lia| |done].
    apply validate_valid; [done|]. right. by exists x00.
  - cbn [mbind exec_bind]. destruct (Rest [] ltac:(rewrite (@blen_nil byte); lia)) as (extra & E & L). cbn zeta. rewrite E. exists extra.
    change (blen (@nil byte)) with 0 in L. split; [done|]. split; [lia|]. intros _ Hle. lia.
Qed.

Lemma train_within_budget_witness : exists dict lens content, train [bs "GET /a 200"; bs "GET /b 404"] 2000 = Ret dict /\ blen dict <= 2000 /\
  parse_dict dict = (Some lens, content) /\ (forall b, 0 < len_of lens b).
Proof.
  destruct (train_within_budget [bs "GET /a 200"; bs "GET /b 404"] 2000 ltac:(lia)) as (d & E & L & T).
  destruct (T ltac:(discriminate) ltac:(vm_compute; discriminate)) as (lens & content & P & _ & _ & A).
  exists d, lens, content. exact (conj E (conj L (conj P A))).
Defined.

(** Samples that all have bytes in them, as the value log takes them, never make
    a table without content. *)
Lemma train_usable samples : Forall (fun s => s <> []) samples ->
  exists dict, train samples MAX_OFFSET = Ret dict /\ usable dict.
Proof.
  intros Hne. unfold train. change (MAX_OFFSET =? 0) with false. rewrite orb_false_r.
  destruct samples as [|s samples]; [exists []; split; [done|by right]|]. rewrite bool_decide_false by done.
  change ((blen DICT_MAGIC + HEADER_LEN) * 8 <=? MAX_OFFSET) with true. cbn iota.
  destruct (emit_table_ok (s :: samples)) as (lens & -> & V & HB & Pos). cbn [mbind exec_bind].
  assert (HD : blen (DICT_MAGIC ++ pack_lens lens) = 133) by (rewrite blen_app, HB; done). rewrite HD.
  change (sub_usize MAX_OFFSET 133) with (Ret (MAX_OFFSET - 133)). cbn [mbind exec_bind].
  assert (P : forall stride, 1 <= stride -> exists dict, pick (length (s :: samples)) (s :: samples) 0 stride
    (Z.min (MAX_OFFSET - 133) MAX_OFFSET) [] (DICT_MAGIC ++ pack_lens lens) = Ret dict /\ usable dict).
  { intros stride Hs. destruct (pick_first s samples stride (Z.min (MAX_OFFSET - 133) MAX_OFFSET) (DICT_MAGIC ++ pack_lens lens))
      as (extra & E & Ne); [done|by inversion Hne|done|].
    eexists. split; [exact E|]. left. rewrite <- app_assoc, parse_trained by done. done. }
  destruct (_ =? 0); [by apply P|]. change (Z.min (MAX_OFFSET - 133) MAX_OFFSET =? 0) with false. cbn [mbind exec_bind]. apply P. lia.
Qed.

(** A short sample before a long one: the stride steps over the long one, and
    the dictionary is its entropy table alone. *)
Definition skewed_samples : list (list byte) := [[]; concat (replicate 466 (bs "aaab"))].

Definition get_or {A} (d : A) (m : exec A) : A := match m with Ret a => a | Panic => d end.

(** What [train] makes of them. *)
Definition table_alone : list byte := Eval vm_compute in get_or [] (train skewed_samples 1064).

Lemma skewed_trains : train skewed_samples 1064 = Ret table_alone.
Proof. vm_compute. reflexivity. Qed.

(** [train] can return a dictionary that is an entropy table with no content;
    a frame [encode_high] writes under it is refused by [decode] under it,
    though the frame [encode] writes for the same value is not. *)
Theorem trained_dictionary_refuses_its_frames :
  exists dict frame fast, train skewed_samples 1064 = Ret dict /\
    encode_high dict (bs "aaabbaabababbaaabaababbbaaaab") = Ret frame /\ decode dict frame = DecodeError /\
    encode dict (bs "aaabbaabababbaaabaababbbaaaab") = Ret fast /\
    decode dict fast = Decoded (bs "aaabbaabababbaaabaababbbaaaab").
Proof.
  exists table_alone, (get_or [] (encode_high table_alone (bs "aaabbaabababbaaabaababbbaaaab"))),
    (get_or [] (encode table_alone (bs "aaabbaabababbaaabaababbbaaaab"))).
  split; [exact skewed_trains|]. vm_compute. auto.
Qed.
