(* ===== verification/Crc32c.v ===== *)
(** * CRC-32C ([crates/kevy-sys/src/checksum.rs], [crates/kevy-persist/src/crc32c.rs])

    The checksum of value-log records and of the append-only file's envelope:
    the checksum instructions of two instruction sets, and slicing-by-8 tables
    where there are none.  All are the same shift register; a checksum continues
    over pieces; and two messages that differ inside four consecutive bytes have
    different checksums. *)

From Stdlib Require Import ZArith Lia Bool Strings.Byte Strings.String.
From stdpp Require Import base tactics list numbers.
From S2P Require Import Prelude FindCrlf Buffers Hash Huff.

#[local] Open Scope list_scope.
#[local] Open Scope Z_scope.

(** ** The tables *)

(** The reflected polynomial. *)
Definition CASTAGNOLI : Z := 0x82F63B78.

(** [if crc & 1 != 0 { (crc >> 1) ^ 0x82F6_3B78 } else { crc >> 1 }] *)
Definition shift1 (crc : Z) : Z :=
  if negb (Z.land crc 1 =? 0) then Z.lxor (Z.shiftr crc 1) CASTAGNOLI else Z.shiftr crc 1.

Definition shifts (n : nat) (crc : Z) : Z := Nat.iter n shift1 crc.
Arguments shifts : simpl never.

(** [t[0]]: eight shifts of each byte. *)
Definition table0 : list Z := (fun i => shifts 8 (Z.of_nat i)) <$> seq 0 256.

(** [t[k]] from [t[k - 1]]. *)
Definition next_table (t0 prev : list Z) : list Z :=
  (fun v => Z.lxor (Z.shiftr v 8) (at_ t0 (Z.land v 0xFF))) <$> prev.

Fixpoint tables_from (n : nat) (t0 prev : list Z) : list (list Z) :=
  match n with
  | O => []
  | S n => let t := next_table t0 prev in t :: tables_from n t0 t
  end.

(** The [OnceLock]: all eight tables. *)
Definition TABLES : list (list Z) := table0 :: tables_from 7 table0 table0.

(** [t[k][i]] *)
Definition tab (t : list (list Z)) (k : nat) (i : Z) : Z := at_ (default [] (t !! k)) i.

(** ** Software *)

Definition sw_byte (t : list (list Z)) (crc : Z) (b : byte) : Z :=
  Z.lxor (Z.shiftr crc 8) (tab t 0 (Z.land (Z.lxor crc (bz b)) 0xFF)).

(** One chunk of eight bytes, as its two little-endian halves. *)
Definition sw_chunk (t : list (list Z)) (crc : Z) (c : list byte) : Z :=
  let lo := Z.lxor (from_le_bytes (take 4 c)) crc in
  let hi := from_le_bytes (drop 4 c) in
  Z.lxor (Z.lxor (Z.lxor (Z.lxor (Z.lxor (Z.lxor (Z.lxor
    (tab t 7 (Z.land lo 0xFF))
    (tab t 6 (Z.land (Z.shiftr lo 8) 0xFF)))
    (tab t 5 (Z.land (Z.shiftr lo 16) 0xFF)))
    (tab t 4 (Z.shiftr lo 24)))
    (tab t 3 (Z.land hi 0xFF)))
    (tab t 2 (Z.land (Z.shiftr hi 8) 0xFF)))
    (tab t 1 (Z.land (Z.shiftr hi 16) 0xFF)))
    (tab t 0 (Z.shiftr hi 24)).

(** [data.as_chunks::<8>()]: whole chunks and the tail. *)
Fixpoint as_chunks8 (data : list byte) : list (list byte) * list byte :=
  match data with
  | b0 :: b1 :: b2 :: b3 :: b4 :: b5 :: b6 :: b7 :: rest =>
      let '(chunks, tail) := as_chunks8 rest in ([b0; b1; b2; b3; b4; b5; b6; b7] :: chunks, tail)
  | tail => ([], tail)
  end.

Definition sw_loop (t : list (list Z)) (crc : Z) (data : list byte) : Z :=
  let '(chunks, tail) := as_chunks8 data in
  fold_left (sw_byte t) tail (fold_left (sw_chunk t) chunks crc).

(** [!x] on a [u32] *)
Definition not32 (x : Z) : Z := 2 ^ 32 - 1 - x.

(** [crc32c_sw] of kevy-sys, and of kevy-persist, which continues a sum. *)
Definition crc32c_sw (data : list byte) : Z := not32 (sw_loop TABLES (2 ^ 32 - 1) data).
Definition crc32c_sw_append (crc : Z) (data : list byte) : Z := not32 (sw_loop TABLES (not32 crc) data).

(** ** Hardware *)

(** What the CRC32C instructions compute: the operand enters the register and
    as many shifts as it has bits follow.  [_mm_crc32_u64] keeps its 32-bit
    register in a [u64]. *)
Definition crc32cb (crc : Z) (b : byte) : Z := shifts 8 (Z.lxor crc (bz b)).
Definition crc32cd (crc data : Z) : Z := shifts 64 (Z.lxor crc data).
Definition mm_crc32_u64 (crc data : Z) : Z := shifts 64 (Z.lxor (as_u32 crc) data).

Definition crc32c_aarch64 (crc : Z) (data : list byte) : Z :=
  let '(chunks, tail) := as_chunks8 data in
  let crc := fold_left (fun crc c => crc32cd crc (from_le_bytes c)) chunks (not32 crc) in
  not32 (fold_left crc32cb tail crc).

Definition crc32c_x86 (crc : Z) (data : list byte) : Z :=
  let '(chunks, tail) := as_chunks8 data in
  let crc := fold_left (fun crc c => mm_crc32_u64 crc (from_le_bytes c)) chunks (not32 crc) in
  not32 (fold_left crc32cb tail (as_u32 crc)).

(** What the feature detection finds. *)
Inductive Cpu := Aarch64Crc | X86Sse42 | NoCrc.

Definition try_crc32c_hw_append (cpu : Cpu) (crc : Z) (data : list byte) : option Z :=
  match cpu with
  | Aarch64Crc => Some (crc32c_aarch64 crc data)
  | X86Sse42 => Some (crc32c_x86 crc data)
  | NoCrc => None
  end.

Definition try_crc32c_hw (cpu : Cpu) (data : list byte) : option Z := try_crc32c_hw_append cpu 0 data.

Definition crc32c (cpu : Cpu) (data : list byte) : Z := default (crc32c_sw data) (try_crc32c_hw cpu data).

(** [kevy_persist::crc32c::crc32c_append] and its [crc32c]. *)
Definition crc32c_append (cpu : Cpu) (crc : Z) (data : list byte) : Z :=
  default (crc32c_sw_append crc data) (try_crc32c_hw_append cpu crc data).

Definition persist_crc32c (cpu : Cpu) (data : list byte) : Z := crc32c_append cpu 0 data.

(** ** The shift register *)

(** CRC-32C by definition: each byte enters at the bottom, then eight shifts. *)
Definition crc32c_spec (crc : Z) (data : list byte) : Z := fold_left crc32cb data crc.

Lemma land_1_odd x : negb (Z.land x 1 =? 0) = Z.testbit x 0.
Proof.
  change 1 with (Z.ones 1). rewrite Z.land_ones, Z.bit0_odd by lia. change (2 ^ 1) with 2. rewrite Zmod_odd. by destruct (Z.odd x).
Qed.

Lemma shift1_lin x y : shift1 (Z.lxor x y) = Z.lxor (shift1 x) (shift1 y).
Proof.
  unfold shift1. rewrite !land_1_odd, Z.lxor_spec, Z.shiftr_lxor. set (a := Z.shiftr x 1). set (b := Z.shiftr y 1).
  destruct (Z.testbit x 0), (Z.testbit y 0); cbn [xorb]; apply Z.bits_inj'; intros n Hn; rewrite !Z.lxor_spec;
    by destruct (Z.testbit a n), (Z.testbit b n), (Z.testbit CASTAGNOLI n).
Qed.

Lemma shifts_S n x : shifts (S n) x = shift1 (shifts n x).
Proof. done. Qed.

Lemma shifts_lin n x y : shifts n (Z.lxor x y) = Z.lxor (shifts n x) (shifts n y).
Proof. induction n as [|n IH]; [done|]. by rewrite !shifts_S, IH, shift1_lin. Qed.

Lemma shifts_add m n x : shifts (m + n) x = shifts m (shifts n x).
Proof. apply Nat.iter_add. Qed.

Lemma shift1_shiftl x : shift1 (Z.shiftl x 1) = x.
Proof.
  unfold shift1. rewrite land_1_odd, Z.shiftl_spec_low by lia. by rewrite Z.shiftr_shiftl_l, Z.shiftl_0_r by lia.
Qed.

Lemma shifts_shiftl n x : shifts n (Z.shiftl x (Z.of_nat n)) = x.
Proof.
  revert x. induction n as [|n IH]; intros x; [by rewrite Z.shiftl_0_r|].
  replace (S n) with (1 + n)%nat by lia. rewrite shifts_add. replace (Z.of_nat (1 + n)) with (1 + Z.of_nat n) by lia.
  rewrite <- Z.shiftl_shiftl by lia. rewrite IH. apply shift1_shiftl.
Qed.

(** A word is its low byte and the rest; the rest waits eight shifts. *)
Lemma low_byte x : x = Z.lxor (Z.land x 0xFF) (Z.shiftl (Z.shiftr x 8) 8).
Proof.
  change 0xFF with (Z.ones 8). apply Z.bits_inj'. intros n Hn.
  rewrite Z.lxor_spec, Z.land_spec, Z.testbit_ones_nonneg, Z.shiftl_spec by lia. destruct (Z.ltb_spec n 8).
  - rewrite (Z.testbit_neg_r _ (n - 8)) by lia. by rewrite andb_true_r, xorb_false_r.
  - rewrite Z.shiftr_spec by lia. replace (n - 8 + 8) with n by lia. by rewrite andb_false_r.
Qed.

Lemma shifts_low n x : shifts (n + 8) x = Z.lxor (shifts (n + 8) (Z.land x 0xFF)) (shifts n (Z.shiftr x 8)).
Proof.
  rewrite (low_byte x) at 1. rewrite shifts_lin. f_equal. rewrite shifts_add. f_equal. exact (shifts_shiftl 8 _).
Qed.

Lemma shifts_8 x : shifts 8 x = Z.lxor (shifts 8 (Z.land x 0xFF)) (Z.shiftr x 8).
Proof. exact (shifts_low 0 x). Qed.

Lemma shifts_zero n : shifts n 0 = 0.
Proof. induction n as [|n IH]; [done|]. by rewrite shifts_S, IH. Qed.

Lemma lxor_u32 a b : 0 <= a < 2 ^ 32 -> 0 <= b < 2 ^ 32 -> 0 <= Z.lxor a b < 2 ^ 32.
Proof.
  intros Ha Hb. assert (E : Z.lxor a b = Z.land (Z.lxor a b) (Z.ones 32)).
  { rewrite land_lxor, !Z.land_ones, !Z.mod_small by lia. done. }
  rewrite E, Z.land_ones by lia. apply Z.mod_pos_bound. lia.
Qed.

Lemma shift1_u32 x : 0 <= x < 2 ^ 32 -> 0 <= shift1 x < 2 ^ 32.
Proof.
  intros H. unfold shift1. assert (0 <= Z.shiftr x 1 < 2 ^ 32).
  { rewrite Z.shiftr_div_pow2 by lia. split; [apply Z.div_pos; lia | apply Z.div_lt_upper_bound; lia]. }
  destruct (negb _); [apply lxor_u32; [done|unfold CASTAGNOLI; lia] | done].
Qed.

Lemma shifts_u32 n x : 0 <= x < 2 ^ 32 -> 0 <= shifts n x < 2 ^ 32.
Proof. intros H. induction n as [|n IH]; [done|]. rewrite shifts_S. by apply shift1_u32. Qed.

(** The polynomial has the top bit, so a shift can be undone. *)
Lemma shift1_inj x y : 0 <= x < 2 ^ 32 -> 0 <= y < 2 ^ 32 -> shift1 x = shift1 y -> x = y.
Proof.
  assert (T : forall z, 0 <= z < 2 ^ 32 -> Z.testbit (shift1 z) 31 = Z.testbit z 0).
  { intros z H. assert (Z.testbit (Z.shiftr z 1) 31 = false).
    { rewrite Z.shiftr_spec by lia. change (31 + 1) with 32. apply Z.testbit_false; [lia|]. by rewrite Z.div_small by lia. }
    unfold shift1. rewrite land_1_odd. destruct (Z.testbit z 0); [rewrite Z.lxor_spec|]; by rewrite H0. }
  intros Hx Hy E. assert (P : Z.testbit x 0 = Z.testbit y 0) by (rewrite <- !T, E; done).
  assert (R : Z.shiftr x 1 = Z.shiftr y 1).
  { unfold shift1 in E. rewrite !land_1_odd, P in E. destruct (Z.testbit y 0); [|done].
    apply (f_equal (Z.lxor CASTAGNOLI)) in E. rewrite !(Z.lxor_comm (Z.shiftr _ _)), <- !Z.lxor_assoc, !Z.lxor_nilpotent in E.
    by rewrite !Z.lxor_0_l in E. }
  rewrite !Z.bit0_odd in P. rewrite !Z.shiftr_div_pow2 in R by lia. change (2 ^ 1) with 2 in R.
  pose proof (Zmod_odd x). pose proof (Zmod_odd y). rewrite P in *. rewrite (Z.div_mod x 2), (Z.div_mod y 2) by lia.
  congruence.
Qed.

Lemma shifts_inj n x y : 0 <= x < 2 ^ 32 -> 0 <= y < 2 ^ 32 -> shifts n x = shifts n y -> x = y.
Proof.
  revert x y. induction n as [|n IH]; intros x y Hx Hy E; [done|]. replace (S n) with (1 + n)%nat in E by lia.
  rewrite !shifts_add in E. apply IH; [done|done|]. apply shift1_inj; [by apply shifts_u32..|exact E].
Qed.

(** *** The tables *)

Definition row_ok (n : nat) (row : list Z) : Prop :=
  length row = 256%nat /\ forall i, 0 <= i < 256 -> at_ row i = shifts n i.

Lemma at_fmap (f : Z -> Z) l i : 0 <= i < blen l -> at_ (f <$> l) i = f (at_ l i).
Proof.
  intros H. unfold at_. rewrite list_lookup_fmap. destruct (lookup_lt_is_Some_2 l (Z.to_nat i)) as [x ->]; [unfold blen in H; lia|done].
Qed.

Lemma table0_ok : row_ok 8 table0.
Proof.
  split; [unfold table0; by rewrite length_fmap, length_seq|]. intros i Hi. unfold at_, table0.
  rewrite list_lookup_fmap, lookup_seq_lt by lia. cbn [fmap option_fmap option_map default]. by replace (Z.of_nat (0 + Z.to_nat i)) with i by lia.
Qed.

Lemma land_FF_range x : 0 <= Z.land x 0xFF < 256.
Proof. change 0xFF with (Z.ones 8). rewrite Z.land_ones by lia. apply Z.mod_pos_bound. lia. Qed.

Lemma next_table_ok n prev : row_ok n prev -> row_ok (8 + n) (next_table table0 prev).
Proof.
  intros [L H]. split; [unfold next_table; by rewrite length_fmap|]. intros i Hi. unfold next_table.
  rewrite at_fmap, H by (unfold blen; lia). rewrite (proj2 table0_ok) by apply land_FF_range.
  by rewrite shifts_add, (shifts_8 (shifts n i)), Z.lxor_comm.
Qed.

Lemma tables_from_ok m : forall n prev k, row_ok n prev -> (k < m)%nat ->
  exists row, tables_from m table0 prev !! k = Some row /\ row_ok (8 * S k + n) row.
Proof.
  induction m as [|m IH]; intros n prev k Hp Hk; [lia|]. cbn [tables_from]. pose proof (next_table_ok n prev Hp) as Hn.
  destruct k as [|k]; [by exists (next_table table0 prev)|]. destruct (IH _ _ k Hn ltac:(lia)) as (row & E & R).
  exists row. split; [exact E|]. replace (8 * S (S k) + n)%nat with (8 * S k + (8 + n))%nat by lia. exact R.
Qed.

Lemma tab_ok k i : (k < 8)%nat -> 0 <= i < 256 -> tab TABLES k i = shifts (8 * S k) i.
Proof.
  intros Hk Hi. unfold tab, TABLES. destruct k as [|k]; [by apply table0_ok|].
  destruct (tables_from_ok 7 8 table0 k table0_ok ltac:(lia)) as (row & E & R).
  change ((table0 :: tables_from 7 table0 table0) !! S k) with (tables_from 7 table0 table0 !! k). rewrite E.
  cbn [default]. rewrite (proj2 R) by done. f_equal. lia.
Qed.

(** *** Bytes and chunks *)

Lemma digit_lxor a x : 0 <= a < 256 -> a + 256 * x = Z.lxor a (Z.shiftl x 8).
Proof.
  intros H. replace (256 * x) with (Z.shiftl x 8) by (rewrite Z.shiftl_mul_pow2 by lia; lia). apply Z.add_nocarry_lxor.
  apply Z.bits_inj'. intros n Hn. rewrite Z.land_spec, Z.shiftl_spec, Z.bits_0 by lia. destruct (Z.ltb_spec n 8).
  - rewrite (Z.testbit_neg_r _ (n - 8)) by lia. apply andb_false_r.
  - apply andb_false_iff. left. apply Z.testbit_false; [lia|]. rewrite Z.div_small; [done|].
    pose proof (Z.pow_le_mono_r 2 8 n ltac:(lia) ltac:(lia)). lia.
Qed.

Lemma word_enters l : forall c, shifts (8 * length l) (Z.lxor c (from_le_bytes l)) = crc32c_spec c l.
Proof.
  induction l as [|b l IH]; intros c; cbn [from_le_bytes length]; [by rewrite Z.lxor_0_r|].
  rewrite digit_lxor, <- Z.lxor_assoc by apply bz_range. replace (8 * S (length l))%nat with (8 * length l + 8)%nat by lia.
  rewrite shifts_add, (shifts_lin 8), (shifts_shiftl 8). apply IH.
Qed.

(** Slicing: a byte at a time from the bottom of the word. *)
Lemma sw_byte_ok crc b : 0 <= crc < 2 ^ 32 -> sw_byte TABLES crc b = crc32cb crc b.
Proof.
  intros H. unfold sw_byte, crc32cb. rewrite tab_ok by (lia || apply land_FF_range).
  rewrite (shifts_8 (Z.lxor crc (bz b))), Z.lxor_comm. f_equal.
  rewrite Z.shiftr_lxor, (Z.shiftr_div_pow2 (bz b)) by lia. pose proof (bz_range b). rewrite (Z.div_small (bz b)) by lia.
  by rewrite Z.lxor_0_r.
Qed.

Lemma shiftr_range x k n : 0 <= x < 2 ^ (k + n) -> 0 <= k -> 0 <= n -> 0 <= Z.shiftr x k < 2 ^ n.
Proof.
  intros H Hk Hn. rewrite Z.shiftr_div_pow2 by lia. split; [apply Z.div_pos; lia|].
  apply Z.div_lt_upper_bound; [lia|]. rewrite <- Z.pow_add_r by lia. lia.
Qed.

(** Four bytes of a word, with [n] more shifts to come. *)
Lemma four_bytes n x : 0 <= x < 2 ^ 32 ->
  shifts (n + 32) x =
  Z.lxor (Z.lxor (Z.lxor (shifts (n + 32) (Z.land x 0xFF)) (shifts (n + 24) (Z.land (Z.shiftr x 8) 0xFF)))
    (shifts (n + 16) (Z.land (Z.shiftr x 16) 0xFF))) (shifts (n + 8) (Z.shiftr x 24)).
Proof.
  intros H. assert (Low : forall m k y, m = (k + 8)%nat -> shifts m y = Z.lxor (shifts m (Z.land y 0xFF)) (shifts k (Z.shiftr y 8))).
  { intros m k y ->. apply shifts_low. }
  rewrite (Low (n + 32)%nat (n + 24)%nat x), (Low (n + 24)%nat (n + 16)%nat (Z.shiftr x 8)) by lia.
  rewrite (Low (n + 16)%nat (n + 8)%nat (Z.shiftr (Z.shiftr x 8) 8)) by lia. by rewrite !Z.shiftr_shiftr, !Z.lxor_assoc by lia.
Qed.

#[local] Opaque shifts.

Lemma sw_chunk_ok crc c : 0 <= crc < 2 ^ 32 -> length c = 8%nat -> sw_chunk TABLES crc c = crc32c_spec crc c.
Proof.
  intros Hc Hl. destruct c as [|b0 [|b1 [|b2 [|b3 c]]]]; try discriminate Hl. unfold sw_chunk.
  change (take 4 (b0 :: b1 :: b2 :: b3 :: c)) with [b0; b1; b2; b3]. change (drop 4 (b0 :: b1 :: b2 :: b3 :: c)) with c.
  assert (Hlc : length c = 4%nat) by (cbn in Hl; lia). rewrite (Z.lxor_comm _ crc).
  pose proof (from_le_bytes_range [b0; b1; b2; b3]) as R1. change (256 ^ blen [b0; b1; b2; b3]) with (2 ^ 32) in R1.
  pose proof (from_le_bytes_range c) as R2. unfold blen in R2. rewrite Hlc in R2. change (256 ^ Z.of_nat 4) with (2 ^ 32) in R2.
  pose proof (lxor_u32 _ _ Hc R1) as R3. set (lo := Z.lxor crc (from_le_bytes [b0; b1; b2; b3])) in *. set (hi := from_le_bytes c) in *.
  rewrite !tab_ok by (lia || apply land_FF_range || (apply (shiftr_range _ 24 8); lia)).
  pose proof (four_bytes 32 lo R3) as F1. pose proof (four_bytes 0 hi R2) as F2.
  change (32 + 32)%nat with 64%nat in F1. change (32 + 24)%nat with 56%nat in F1. change (32 + 16)%nat with 48%nat in F1.
  change (32 + 8)%nat with 40%nat in F1. cbn [Nat.mul Nat.add] in *. rewrite <- F1.
  transitivity (Z.lxor (shifts 64 lo) (shifts 32 hi)); [rewrite F2; clearbody lo hi; by rewrite !Z.lxor_assoc|].
  change (b0 :: b1 :: b2 :: b3 :: c) with ([b0; b1; b2; b3] ++ c). unfold crc32c_spec. rewrite fold_left_app.
  fold (crc32c_spec crc [b0; b1; b2; b3]). rewrite <- (word_enters [b0; b1; b2; b3]). fold lo.
  fold (crc32c_spec (shifts (8 * length [b0; b1; b2; b3]) lo) c). rewrite <- (word_enters c), Hlc. fold hi.
  rewrite shifts_lin, <- (shifts_add (8 * 4)). done.
Qed.

Lemma crc32cb_u32 crc b : 0 <= crc < 2 ^ 32 -> 0 <= crc32cb crc b < 2 ^ 32.
Proof. intros H. pose proof (bz_range b). apply shifts_u32, lxor_u32; lia. Qed.

Lemma spec_u32 data : forall crc, 0 <= crc < 2 ^ 32 -> 0 <= crc32c_spec crc data < 2 ^ 32.
Proof. induction data as [|b data IH]; intros crc H; [done|]. apply IH. by apply crc32cb_u32. Qed.

Lemma as_chunks8_spec data : Forall (fun c => length c = 8%nat) (as_chunks8 data).1 /\
  data = concat (as_chunks8 data).1 ++ (as_chunks8 data).2.
Proof.
  remember (length data) as n eqn:En. revert data En. induction (lt_wf n) as [n _ IH]. intros data ->.
  destruct data as [|b0 [|b1 [|b2 [|b3 [|b4 [|b5 [|b6 [|b7 rest]]]]]]]]; try (by split; [constructor|]).
  destruct (IH (length rest) ltac:(cbn; lia) rest eq_refl) as [F E]. cbn [as_chunks8].
  destruct (as_chunks8 rest) as [chunks tail]. cbn [fst snd concat app] in *. split; [by constructor|]. by rewrite <- E.
Qed.

(** Any way to take eight bytes, and any to take one, that are the register's. *)
Lemma chunked (f : Z -> list byte -> Z) (g : Z -> byte -> Z) data crc :
  (forall c l, 0 <= c < 2 ^ 32 -> length l = 8%nat -> f c l = crc32c_spec c l) ->
  (forall c b, 0 <= c < 2 ^ 32 -> g c b = crc32cb c b) -> 0 <= crc < 2 ^ 32 ->
  0 <= fold_left f (as_chunks8 data).1 crc < 2 ^ 32 /\
  fold_left g (as_chunks8 data).2 (fold_left f (as_chunks8 data).1 crc) = crc32c_spec crc data.
Proof.
  intros Hf Hg Hc. destruct (as_chunks8_spec data) as [F E]. rewrite (f_equal (crc32c_spec crc) E). unfold crc32c_spec.
  rewrite fold_left_app. clear E.
  generalize (as_chunks8 data).2 as tail. revert crc Hc. induction F as [|c chunks L _ IH]; intros crc Hc tail; cbn [fold_left concat].
  - split; [done|]. revert crc Hc. induction tail as [|b tail IH]; intros crc Hc; [done|]. cbn [fold_left].
    rewrite Hg by done. by apply IH, crc32cb_u32.
  - rewrite Hf, fold_left_app by done. by apply IH, spec_u32.
Qed.

Lemma not32_u32 x : 0 <= x < 2 ^ 32 -> 0 <= not32 x < 2 ^ 32.
Proof. unfold not32. lia. Qed.

Lemma eight_enter crc c : length c = 8%nat -> crc32cd crc (from_le_bytes c) = crc32c_spec crc c.
Proof. intros L. rewrite <- word_enters, L. reflexivity. Qed.

Lemma sw_append_ok crc data : 0 <= crc < 2 ^ 32 -> crc32c_sw_append crc data = not32 (crc32c_spec (not32 crc) data).
Proof.
  intros H. unfold crc32c_sw_append, sw_loop.
  pose proof (chunked (sw_chunk TABLES) (sw_byte TABLES) data (not32 crc) sw_chunk_ok sw_byte_ok (not32_u32 _ H)) as [_ E].
  destruct (as_chunks8 data). by f_equal.
Qed.

Lemma hw_append_ok cpu crc data : 0 <= crc < 2 ^ 32 ->
  forall r, try_crc32c_hw_append cpu crc data = Some r -> r = not32 (crc32c_spec (not32 crc) data).
Proof.
  intros H r E. apply not32_u32 in H. destruct cpu; [| |discriminate E]; injection E as <-; unfold crc32c_aarch64, crc32c_x86.
  - pose proof (chunked (fun crc c => crc32cd crc (from_le_bytes c)) crc32cb data (not32 crc)
      (fun c l _ => eight_enter c l) (fun _ _ _ => eq_refl) H) as [_ E].
    destruct (as_chunks8 data). by f_equal.
  - pose proof (chunked (fun crc c => mm_crc32_u64 crc (from_le_bytes c)) crc32cb data (not32 crc)) as C.
    destruct C as [R E]; [|done|done|].
    { intros c l Hc L. unfold mm_crc32_u64. rewrite as_u32_id by done. by apply eight_enter. }
    destruct (as_chunks8 data). cbn [fst snd] in *. rewrite as_u32_id by exact R. by f_equal.
Qed.

Lemma append_spec cpu crc data : 0 <= crc < 2 ^ 32 -> crc32c_append cpu crc data = not32 (crc32c_spec (not32 crc) data).
Proof.
  intros H. unfold crc32c_append. pose proof (hw_append_ok cpu crc data H) as E.
  destruct (try_crc32c_hw_append cpu crc data) as [r|]; [by apply E|]. by apply sw_append_ok.
Qed.

Lemma front_spec cpu data : crc32c cpu data = not32 (crc32c_spec (2 ^ 32 - 1) data).
Proof.
  rewrite <- (append_spec cpu 0) by lia. unfold crc32c, crc32c_append, try_crc32c_hw.
  by destruct (try_crc32c_hw_append cpu 0 data).
Qed.

Lemma crc32c_u32 cpu data : 0 <= crc32c cpu data < 2 ^ 32.
Proof. rewrite front_spec. apply not32_u32, spec_u32. lia. Qed.

(** C37: One checksum: on every processor the front and the append-only file's own
    copy are the bitwise CRC-32C of the bytes, the slicing-by-8 tables and both
    instruction sets included, and a checksum continued over pieces, each on
    any path, is the checksum of the whole. *)
Theorem crc32c_one_sum (cpu cpu' : Cpu) (crc : Z) (a b : list byte) (Hc : 0 <= crc < 2 ^ 32) :
  crc32c cpu a = not32 (crc32c_spec (not32 0) a) /\ persist_crc32c cpu' a = crc32c cpu a /\
  crc32c_append cpu crc a = not32 (crc32c_spec (not32 crc) a) /\
  crc32c_append cpu' (crc32c_append cpu crc a) b = crc32c_append cpu crc (a ++ b).
Proof.
  rewrite front_spec. unfold persist_crc32c. rewrite !(append_spec _ crc), !(append_spec _ 0) by lia.
  pose proof (spec_u32 a (not32 crc) (not32_u32 _ Hc)) as R. rewrite append_spec by by apply not32_u32.
  split_and!; [done..|]. unfold crc32c_spec in *. rewrite fold_left_app. f_equal. f_equal. unfold not32. lia.
Qed.

Lemma crc32c_one_sum_witness :
  crc32c NoCrc (bs "123456789") = 0xE3069283 /\ crc32c_append X86Sse42 (crc32c NoCrc (bs "1234")) (bs "56789") = 0xE3069283.
Proof.
  pose proof (crc32c_one_sum NoCrc X86Sse42 0 (bs "1234") (bs "56789") ltac:(lia)) as (_ & _ & _ & P).
  split; [vm_compute; reflexivity|].
  etransitivity; [exact P|]. vm_compute. reflexivity.
Defined.

(** *** Error detection *)

Lemma spec_inj data : forall x y, 0 <= x < 2 ^ 32 -> 0 <= y < 2 ^ 32 -> crc32c_spec x data = crc32c_spec y data -> x = y.
Proof.
  induction data as [|b data IH]; intros x y Hx Hy E; [done|]. apply IH in E; [|by apply crc32cb_u32..].
  pose proof (bz_range b). apply shifts_inj in E; [|apply lxor_u32; lia..].
  apply (f_equal (fun z => Z.lxor z (bz b))) in E. by rewrite !Z.lxor_assoc, Z.lxor_nilpotent, !Z.lxor_0_r in E.
Qed.

(** A change confined to four consecutive bytes of a message, wherever it is and
    however long the message, always changes the checksum. *)
Theorem crc32c_detects_burst (cpu : Cpu) (pre x y suf : list byte)
  (HL : length x = length y) (H4 : (length x <= 4)%nat) (Hne : x <> y) :
  crc32c cpu (pre ++ x ++ suf) <> crc32c cpu (pre ++ y ++ suf).
Proof.
  rewrite !front_spec. unfold crc32c_spec. rewrite !fold_left_app. intros E. apply Hne.
  pose proof (spec_u32 pre (2 ^ 32 - 1) ltac:(lia)) as R. set (c := crc32c_spec (2 ^ 32 - 1) pre) in *.
  change (fold_left crc32cb pre (2 ^ 32 - 1)) with c in E.
  assert (W : forall z, length z = length x -> 0 <= from_le_bytes z < 2 ^ 32).
  { intros z Hz. pose proof (from_le_bytes_range z). pose proof (Z.pow_le_mono_r 256 (blen z) 4 ltac:(lia) ltac:(unfold blen; lia)). lia. }
  assert (E' : crc32c_spec c x = crc32c_spec c y).
  { apply (spec_inj suf); [by apply spec_u32..|]. unfold not32 in E. unfold crc32c_spec. lia. }
  rewrite <- !word_enters, HL in E'. apply shifts_inj in E'; [|by apply lxor_u32; [|apply W]..].
  apply from_le_bytes_inj; [done|]. apply (f_equal (Z.lxor c)) in E'.
  by rewrite <- !Z.lxor_assoc, Z.lxor_nilpotent, !Z.lxor_0_l in E'.
Qed.

Lemma crc32c_detects_burst_witness : crc32c Aarch64Crc (bs "set k v") <> crc32c Aarch64Crc (bs "set k w").
Proof.
  exact (crc32c_detects_burst Aarch64Crc (bs "set k ") (bs "v") (bs "w") [] eq_refl ltac:(cbn; lia) ltac:(discriminate)).
Defined.
