(* ===== verification/AofRecord.v ===== *)
(** * Records of the append-only file ([crates/kevy-persist/src]: [record.rs],
    [record_pieces.rs], [log_base.rs], [replay_txn.rs], [aof_txn.rs])

    A v2 log is a magic and a sequence of records, each a length, a CRC-32C and
    one command in RESP.  The writer computes the header over the pieces of a
    frame it never joins; the reader checks length, sum and command. *)

From Stdlib Require Import ZArith Lia Bool Strings.Byte Strings.String.
From stdpp Require Import base tactics list numbers.
From S2P Require Import Prelude FindCrlf Buffers Argv Encode Request Crc32c.

#[local] Open Scope list_scope.
#[local] Open Scope Z_scope.

Definition AOF_MAGIC : list byte := bs "KEVYAOF1" ++ ["010"%byte].
Definition AOF2_MAGIC : list byte := bs "KEVYAOF2" ++ ["010"%byte].
Definition RECORD_HEADER : Z := 8.
Definition MAX_RECORD : Z := 2 ^ 30.
Definition TXN_BEGIN : list byte := "000"%byte :: bs "KEVYTXNBEGIN".
Definition TXN_COMMIT : list byte := "000"%byte :: bs "KEVYTXNCOMMIT".
Definition LOG_BASE : list byte := "000"%byte :: bs "KEVYLOGBASE".
Definition STANDS_ALONE : Z := 0.

Inductive AofFormat := V1 | V2.

Inductive RecordStep := ROk (payload : list byte) (consumed : Z) | Truncated | Corrupt.

Inductive TxnMarker := MBegin | MCommit.

Section Record.
Context (cpu : Cpu) `{Scan : CrlfScanner}.

(** ** Writing *)

Definition write_multibulk (args : list (list byte)) : list byte :=
  bs "*" ++ dec (blen args) ++ CRLF ++ concat ((fun a => bs "$" ++ dec (blen a) ++ CRLF ++ a ++ CRLF) <$> args).

Definition write_record (payload : list byte) : list byte :=
  to_le_bytes 4 (blen payload) ++ to_le_bytes 4 (persist_crc32c cpu payload) ++ payload.

Definition write_record_multibulk (args : list (list byte)) : list byte := write_record (write_multibulk args).

Definition RUN : Z := 2 + 2 * (1 + 20 + 2).

(** The digit loop of [put_count]; the buffer holds twenty. *)
Fixpoint count_digits (room : nat) (x : Z) (acc : list byte) : exec (list byte) :=
  match room with
  | O => Panic
  | S room =>
      let acc := digit_byte (x mod 10) :: acc in
      if x / 10 =? 0 then Ret acc else count_digits room (x / 10) acc
  end.

Definition put_count (run : list byte) (at_ : Z) (tag : byte) (count : Z) : exec (list byte * Z) :=
  d ← count_digits 20 count [];
  run ← set_byte run at_ tag;
  run ← copy_from_slice run (at_ + 1) d;
  let e := at_ + 1 + blen d in
  run ← copy_from_slice run e CRLF;
  Ret (run, e + 2).

(** [for_each_piece], as the pieces in order. *)
Fixpoint pieces_loop (args : list (list byte)) (run : list byte) (n : Z) : exec (list (list byte)) :=
  match args with
  | [] => p ← index_range run 0 n; Ret [p]
  | a :: rest =>
      '(run, n) ← put_count run n "$"%byte (blen a);
      p ← index_range run 0 n;
      run ← copy_from_slice run 0 CRLF;
      ps ← pieces_loop rest run 2;
      Ret (p :: a :: ps)
  end.

Definition for_each_piece (args : list (list byte)) : exec (list (list byte)) :=
  '(run, n) ← put_count (replicate (Z.to_nat RUN) x00) 0 "*"%byte (blen args);
  pieces_loop args run n.

Definition record_header (args : list (list byte)) : exec (list byte) :=
  ps ← for_each_piece args;
  let '(len, crc) := fold_left (fun '(len, crc) p => (len + blen p, crc32c_append cpu crc p)) ps (0, 0) in
  Ret (to_le_bytes 4 len ++ to_le_bytes 4 crc).

Definition write_frame (head : option (list byte)) (args : list (list byte)) : exec (list byte) :=
  ps ← for_each_piece args;
  Ret (default [] head ++ concat ps).

(** ** Reading *)

Definition next_record (buf : list byte) (pos : Z) : exec RecordStep :=
  if negb ((0 <=? pos) && (pos <=? blen buf)) then Panic
  else
    let rest := from buf pos in
    if blen rest =? 0 then Ret Truncated
    else if blen rest <? RECORD_HEADER then Ret Truncated
    else
      let len := from_le_bytes (slice rest 0 4) in
      if (len =? 0) || (MAX_RECORD <? len) then Ret Corrupt
      else
        let crc := from_le_bytes (slice rest 4 8) in
        if blen rest <? RECORD_HEADER + len then Ret Truncated
        else
          let payload := slice rest RECORD_HEADER (RECORD_HEADER + len) in
          if negb (persist_crc32c cpu payload =? crc) then Ret Corrupt
          else Ret (ROk payload (RECORD_HEADER + len)).

(** [Ok(Some((args, used))) if used == payload.len()] *)
Definition one_command (payload : list byte) : exec (option Argv) :=
  match parse_command payload with
  | Done (args, used) => Ret (if used =? blen payload then Some args else None)
  | Panicked => Panic
  | _ => Ret None
  end.

Fixpoint resync_scan (fuel : nat) (buf : list byte) (q : Z) : exec (option Z) :=
  if negb (q <? blen buf) then Ret None
  else match fuel with
  | O => Panic
  | S fuel =>
      r ← next_record buf q;
      match r with
      | ROk payload _ =>
          c ← one_command payload;
          match c with Some _ => Ret (Some q) | None => resync_scan fuel buf (q + 1) end
      | Truncated | Corrupt => resync_scan fuel buf (q + 1)
      end
  end.

End Record.

(** ** Frames that are not commands *)

Definition base_frame (snapshot_id : Z) : Argv := argv_push (argv_push argv_default LOG_BASE) (to_le_bytes 8 snapshot_id).

Definition base_of (args : Argv) : exec (option Z) :=
  if negb (argv_len args =? 2) then Ret None
  else
    v ← argv_get args 0;
    if negb (bool_decide (v = Some LOG_BASE)) then Ret None
    else
      id ← argv_get args 1;
      Ret (match id with Some id => if blen id =? 8 then Some (from_le_bytes id) else None | None => None end).

Definition txn_marker (args : Argv) : exec (option TxnMarker) :=
  if negb (argv_len args =? 1) then Ret None
  else
    v ← argv_get args 0;
    v ← expect v;
    Ret (if bool_decide (v = TXN_BEGIN) then Some MBegin else if bool_decide (v = TXN_COMMIT) then Some MCommit else None).

(** ** The pieces are the frame *)

Section Pieces.
Context (cpu : Cpu).

Lemma write_multibulk_bytes args : write_multibulk args = command_bytes args.
Proof.
  unfold write_multibulk, command_bytes, array_header, bulk_bytes, int_text. blen_pos. destruct (Z.ltb_spec (blen args) 0); [lia|]. by rewrite <- !app_assoc.
Qed.

Lemma count_digits_ok room : forall x acc, 0 < x < 10 ^ Z.of_nat room -> count_digits room x acc = Ret (dec_acc room x acc).
Proof.
  induction room as [|room IH]; intros x acc Hx; [cbn in Hx; lia|]. cbn [count_digits dec_acc]. destruct (Z.eqb_spec x 0); [lia|].
  destruct (Z.eqb_spec (x / 10) 0) as [E|E]; [by rewrite E, dec_acc_0|]. apply IH. rewrite Nat2Z.inj_succ, Z.pow_succ_r in Hx by lia.
  pose proof (Z.div_pos x 10 ltac:(lia) ltac:(lia)). split; [lia|]. apply Z.div_lt_upper_bound; lia.
Qed.

Lemma count_digits_dec x : 0 <= x < 10 ^ 20 -> count_digits 20 x [] = Ret (dec x).
Proof.
  intros Hx. unfold dec. destruct (Z.eqb_spec x 0) as [->|]; [reflexivity|]. apply count_digits_ok. cbn. lia.
Qed.

Lemma dec_blen x : 0 <= x < 10 ^ 20 -> 0 < blen (dec x) <= 20.
Proof.
  intros Hx. pose proof (dec_nonempty x ltac:(lia)) as Ne. split; [destruct (dec x); [done|]; rewrite blen_cons; blen_pos; lia|].
  unfold dec. destruct (x =? 0); [by vm_compute|]. pose proof (dec_acc_len 20 x []) as L. unfold blen. cbn [length] in L. lia.
Qed.

(** The framing run holds [pre] and then a count. *)
Lemma put_count_ok run pre tag x : slice run 0 (blen pre) = pre -> blen run = RUN -> blen pre <= 25 -> 0 <= x < 10 ^ 20 ->
  exists run', put_count run (blen pre) tag x = Ret (run', blen (pre ++ tag :: dec x ++ CRLF)) /\ blen run' = RUN /\
    slice run' 0 (blen (pre ++ tag :: dec x ++ CRLF)) = pre ++ tag :: dec x ++ CRLF.
Proof.
  intros Hp Hr Hl Hx. pose proof (dec_blen x Hx) as D. pose proof (blen_nonneg pre) as P0. unfold RUN in *.
  assert (Lc : blen CRLF = 2) by done. unfold put_count. rewrite count_digits_dec by done. cbn [mbind exec_bind]. unfold set_byte.
  rewrite copy_from_slice_ok by (change (blen [tag]) with 1; lia). cbn [mbind exec_bind]. set (r1 := splice run _ _).
  assert (L1 : blen r1 = 48) by (unfold r1; rewrite splice_blen by (change (blen [tag]) with 1; lia); lia).
  rewrite copy_from_slice_ok by lia. cbn [mbind exec_bind]. set (r2 := splice r1 _ _).
  assert (L2 : blen r2 = 48) by (unfold r2; rewrite splice_blen; lia).
  rewrite copy_from_slice_ok by lia. cbn [mbind exec_bind]. set (r3 := splice r2 _ _).
  assert (L3 : blen r3 = 48) by (unfold r3; rewrite splice_blen; lia).
  assert (Ll : blen (pre ++ tag :: dec x ++ CRLF) = blen pre + 1 + blen (dec x) + 2) by (rewrite blen_app, blen_cons, blen_app; lia).
  exists r3. split; [f_equal; f_equal; lia|]. split; [done|]. rewrite Ll.
  set (e := blen pre + 1 + blen (dec x) + 2). rewrite <- (slice_join r3 0 (blen pre) e), <- (slice_join r3 (blen pre) (blen pre + 1) e), <- (slice_join r3 (blen pre + 1) (blen pre + 1 + blen (dec x)) e) by lia.
  f_equal; [|change (tag :: dec x ++ CRLF) with ([tag] ++ dec x ++ CRLF); f_equal; [|f_equal]].
  - unfold r3. rewrite slice_splice_out by lia. unfold r2. rewrite slice_splice_out by lia. unfold r1. rewrite slice_splice_out by (change (blen [tag]) with 1; lia). exact Hp.
  - unfold r3. rewrite slice_splice_out by lia. unfold r2. rewrite slice_splice_out by lia. unfold r1. apply (slice_splice_in run (blen pre) [tag]); [lia|change (blen [tag]) with 1; lia].
  - unfold r3. rewrite slice_splice_out by lia. unfold r2. apply slice_splice_in; lia.
  - unfold r3. pose proof (slice_splice_in r2 (blen pre + 1 + blen (dec x)) CRLF ltac:(lia) ltac:(lia)) as E. rewrite Lc in E. exact E.
Qed.

Definition countable (args : list (list byte)) : Prop := blen args < 10 ^ 20 /\ Forall (fun a => blen a < 10 ^ 20) args.

(** An argument after the first follows the line end of the one before. *)
Definition tail_bytes (args : list (list byte)) : list byte := concat (bulk_bytes <$> args).

(** The run starts with [pre] when the next argument comes: the array header, or
    the end of the argument before. *)
Lemma pieces_loop_ok args : forall run pre, slice run 0 (blen pre) = pre -> blen run = RUN -> 2 <= blen pre <= 25 -> Forall (fun a => blen a < 10 ^ 20) args ->
  exists ps, pieces_loop args run (blen pre) = Ret ps /\ concat ps = pre ++ tail_bytes args.
Proof.
  induction args as [|a args IH]; intros run pre Hp Hr Hl Ha; cbn [pieces_loop].
  - rewrite index_range_ok by (unfold RUN in *; lia). cbn [mbind exec_bind]. eexists. split; [done|]. cbn. by rewrite Hp.
  - apply list.Forall_cons in Ha as [Ha Has]. destruct (put_count_ok run pre "$"%byte (blen a) Hp Hr ltac:(lia) ltac:(blen_pos; lia)) as (run1 & -> & L1 & S1). cbn [mbind exec_bind].
    set (hd := pre ++ "$"%byte :: dec (blen a) ++ CRLF) in *. pose proof (dec_blen (blen a) ltac:(blen_pos; lia)) as D.
    assert (Lh : blen hd <= RUN) by (unfold hd, RUN; rewrite blen_app, blen_cons, blen_app; change (blen CRLF) with 2; lia).
    rewrite index_range_ok by (pose proof (blen_nonneg hd); unfold RUN in *; lia). cbn [mbind exec_bind]. rewrite copy_from_slice_ok by (change (blen CRLF) with 2; unfold RUN in *; lia). cbn [mbind exec_bind].
    destruct (IH (splice run1 0 CRLF) CRLF) as (ps & E & Ec); [|rewrite splice_blen by (change (blen CRLF) with 2; unfold RUN in *; lia); exact L1|change (blen CRLF) with 2; lia|done|].
    { apply (slice_splice_in run1 0 CRLF); [lia|change (blen CRLF) with 2; unfold RUN in *; lia]. }
    change (blen CRLF) with 2 in E. rewrite E. cbn [mbind exec_bind]. eexists. split; [done|]. cbn [concat]. rewrite S1, Ec. unfold hd, tail_bytes, bulk_bytes. cbn [fmap list_fmap concat].
    rewrite <- !app_assoc. cbn. by rewrite <- !app_assoc.
Qed.

Lemma for_each_piece_ok args : countable args -> exists ps, for_each_piece args = Ret ps /\ concat ps = command_bytes args.
Proof.
  intros [Hn Ha]. unfold for_each_piece. set (run := replicate _ _). assert (Lr : blen run = RUN) by (unfold run, blen; rewrite length_replicate; done).
  destruct (put_count_ok run [] "*"%byte (blen args) eq_refl Lr ltac:(done) ltac:(blen_pos; lia)) as (run1 & E & L1 & S1). change (blen []) with 0 in E. rewrite E. cbn [mbind exec_bind].
  pose proof (dec_blen (blen args) ltac:(blen_pos; lia)) as D. cbn [app] in *.
  destruct (pieces_loop_ok args run1 ("*"%byte :: dec (blen args) ++ CRLF) S1 L1) as (ps & Ep & Ec); [rewrite blen_cons, blen_app; change (blen CRLF) with 2; lia|done|].
  rewrite Ep. eexists. split; [done|]. rewrite Ec, <- write_multibulk_bytes. unfold write_multibulk, tail_bytes, bulk_bytes. cbn. by rewrite <- !app_assoc.
Qed.

(** The header's sum continues over the pieces. *)
Lemma pieces_sum ps : forall len crc, 0 <= crc < 2 ^ 32 ->
  fold_left (fun '(len, crc) p => (len + blen p, crc32c_append cpu crc p)) ps (len, crc) = (len + blen (concat ps), crc32c_append cpu crc (concat ps)).
Proof.
  induction ps as [|p ps IH]; intros len crc Hc; cbn [fold_left concat].
  - change (blen []) with 0. f_equal; [lia|]. rewrite append_spec by done. cbn. unfold not32. lia.
  - assert (R : 0 <= crc32c_append cpu crc p < 2 ^ 32) by (rewrite append_spec by done; by apply not32_u32, spec_u32, not32_u32).
    rewrite IH by done. rewrite blen_app. f_equal; [lia|]. rewrite !append_spec by done. unfold crc32c_spec. rewrite fold_left_app. f_equal. f_equal. unfold not32, crc32c_spec. lia.
Qed.

(** What the writer puts in the file is the enveloped frame. *)
Lemma write_frame_ok args : countable args ->
  write_frame None args = Ret (command_bytes args) /\ exists h, record_header cpu args = Ret h /\ write_frame (Some h) args = Ret (write_record_multibulk cpu args).
Proof.
  intros Hc. destruct (for_each_piece_ok args Hc) as (ps & Ep & Ec). unfold write_frame, record_header. rewrite Ep. cbn [mbind exec_bind default]. split; [by rewrite Ec|].
  rewrite pieces_sum by lia. eexists. split; [done|]. rewrite Ec. unfold write_record_multibulk, write_record. rewrite write_multibulk_bytes, Z.add_0_l. cbn [id]. by rewrite <- app_assoc.
Qed.

End Pieces.

(** ** Reading back *)

Section Reading.
Context (cpu : Cpu) `{Scan : CrlfScanner}.

Lemma sum_u32 p : 0 <= persist_crc32c cpu p < 2 ^ 32.
Proof. unfold persist_crc32c. rewrite append_spec by lia. apply not32_u32, spec_u32, not32_u32. lia. Qed.

Lemma write_record_blen p : blen (write_record cpu p) = RECORD_HEADER + blen p.
Proof. unfold write_record, RECORD_HEADER. rewrite !blen_app, !to_le_bytes_blen. lia. Qed.

(** The fields of a header followed by a body. *)
Lemma header_fields len crc (body : list byte) : 0 <= len < 2 ^ 32 -> 0 <= crc < 2 ^ 32 -> let rest := to_le_bytes 4 len ++ to_le_bytes 4 crc ++ body in
  from_le_bytes (slice rest 0 4) = len /\ from_le_bytes (slice rest 4 8) = crc /\ blen rest = 8 + blen body /\ from rest 8 = body.
Proof.
  intros Hl Hc rest. assert (L : blen rest = 8 + blen body) by (unfold rest; rewrite !blen_app, !to_le_bytes_blen; lia).
  assert (F : from rest 4 = to_le_bytes 4 crc ++ body) by apply le32_rest. split; [by apply le32_head|]. split; [|split; [done|]].
  - replace (slice rest 4 8) with (slice (from rest 4) 0 4) by (rewrite !slice_from, from_0; f_equal). rewrite F. by apply le32_head.
  - replace (from rest 8) with (from (from rest 4) 4) by (rewrite from_from by lia; done). rewrite F. apply le32_rest.
Qed.

(** What a whole header at [pos] leads to. *)
Lemma next_record_header pre len crc body : 0 <= len < 2 ^ 32 -> 0 <= crc < 2 ^ 32 ->
  next_record cpu (pre ++ to_le_bytes 4 len ++ to_le_bytes 4 crc ++ body) (blen pre) =
  Ret (if (len =? 0) || (MAX_RECORD <? len) then Corrupt
       else if blen body <? len then Truncated
       else if negb (persist_crc32c cpu (take (Z.to_nat len) body) =? crc) then Corrupt
       else ROk (take (Z.to_nat len) body) (RECORD_HEADER + len)).
Proof.
  intros Hl Hc. unfold next_record. rewrite from_app_len, (blen_app pre). pose proof (blen_nonneg pre). destruct (header_fields len crc body Hl Hc) as (E1 & E2 & E3 & E4).
  set (rest := to_le_bytes 4 len ++ _) in *. pose proof (blen_nonneg body). unfold RECORD_HEADER.
  destruct (Z.leb_spec 0 (blen pre)), (Z.leb_spec (blen pre) (blen pre + blen rest)); try lia. cbn [andb negb]. destruct (Z.eqb_spec (blen rest) 0), (Z.ltb_spec (blen rest) 8); try lia. rewrite E1, E2.
  destruct (_ || _); [done|]. destruct (Z.ltb_spec (blen rest) (8 + len)), (Z.ltb_spec (blen body) len); try lia; [done|].
  assert (Sl : slice rest 8 (8 + len) = take (Z.to_nat len) body) by (rewrite slice_from, E4; f_equal; lia). rewrite Sl. by destruct (negb _).
Qed.

Lemma next_record_at pre p more : 0 < blen p <= MAX_RECORD -> next_record cpu (pre ++ write_record cpu p ++ more) (blen pre) = Ret (ROk p (RECORD_HEADER + blen p)).
Proof.
  intros Hp. unfold write_record. rewrite <- !app_assoc. pose proof (sum_u32 p). pose proof (blen_nonneg more). unfold MAX_RECORD in *. rewrite next_record_header, take_app_blen, blen_app by (unfold MAX_RECORD in *; lia).
  unfold MAX_RECORD. destruct (Z.eqb_spec (blen p) 0), (Z.ltb_spec (2 ^ 30) (blen p)), (Z.ltb_spec (blen p + blen more) (blen p)); try lia. by rewrite Z.eqb_refl.
Qed.

(** A record of another body of the same length is told by its sum. *)
Lemma next_record_damaged pre p q more : 0 < blen p <= MAX_RECORD -> blen q = blen p -> persist_crc32c cpu q <> persist_crc32c cpu p ->
  next_record cpu (pre ++ to_le_bytes 4 (blen p) ++ to_le_bytes 4 (persist_crc32c cpu p) ++ q ++ more) (blen pre) = Ret Corrupt.
Proof.
  intros Hp Hq Hc. pose proof (sum_u32 p). pose proof (blen_nonneg more). unfold MAX_RECORD in *. rewrite next_record_header by lia. rewrite <- Hq, take_app_blen, blen_app.
  unfold MAX_RECORD. destruct (Z.eqb_spec (blen q) 0), (Z.ltb_spec (2 ^ 30) (blen q)), (Z.ltb_spec (blen q + blen more) (blen q)); try lia. cbn [orb].
  by destruct (Z.eqb_spec (persist_crc32c cpu q) (persist_crc32c cpu p)).
Qed.

(** Whatever stands there, looking is safe. *)
Lemma next_record_total buf pos : 0 <= pos <= blen buf -> exists r, next_record cpu buf pos = Ret r /\ match r with ROk p n => 8 < n /\ pos + n <= blen buf | _ => True end.
Proof.
  intros H. unfold next_record. destruct (Z.leb_spec 0 pos), (Z.leb_spec pos (blen buf)); try lia. cbn [andb negb]. pose proof (blen_from buf pos H) as L.
  destruct (_ =? 0); [by eexists|]. destruct (_ <? _); [by eexists|]. set (len := from_le_bytes _). pose proof (from_le_bytes_range (slice (from buf pos) 0 4)) as R. fold len in R.
  destruct (Z.eqb_spec len 0), (Z.ltb_spec MAX_RECORD len); cbn [orb]; try (by eexists). destruct (Z.ltb_spec (blen (from buf pos)) (RECORD_HEADER + len)); [by eexists|].
  destruct (negb _); eexists; (split; [done|]); [done|]. unfold RECORD_HEADER in *. lia.
Qed.

Lemma one_command_total payload : exists o, one_command payload = Ret o.
Proof.
  unfold one_command, parse_command. destruct (parse_command_into payload argv_default) as [r a] eqn:E. pose proof (parse_command_into_outcome _ _ _ _ E) as O.
  destruct r; try done; by eexists.
Qed.

Lemma sendable_countable args : sendable args -> countable args.
Proof.
  intros (_ & H1 & H2). unfold countable, MAX_MULTIBULK_LEN, MAX_BULK_LEN in *. split; [lia|]. eapply list.Forall_impl; [exact H2|]. cbn. intros a Ha. lia.
Qed.

Lemma one_command_frame args : sendable args -> one_command (command_bytes args) = Ret (Some (argv_from args)).
Proof.
  intros H. unfold one_command. pose proof (parse_command_complete (command_bytes args) args [] (sendable_command args H)) as E.
  rewrite app_nil_r in E. by rewrite E, Z.eqb_refl.
Qed.

(** The scan stops at the first offset that starts a record of one command. *)
Definition starts_command (buf : list byte) (q : Z) : Prop := exists p n a, next_record cpu buf q = Ret (ROk p n) /\ one_command p = Ret (Some a).

Lemma resync_scan_ok fuel : forall buf q, 0 <= q -> blen buf - q <= Z.of_nat fuel ->
  exists o, resync_scan cpu fuel buf q = Ret o /\
    match o with
    | Some g => q <= g < blen buf /\ starts_command buf g /\ forall j, q <= j < g -> ~ starts_command buf j
    | None => forall j, q <= j < blen buf -> ~ starts_command buf j
    end.
Proof.
  induction fuel as [|fuel IH]; intros buf q Hq Hf; cbn [resync_scan]; destruct (Z.ltb_spec q (blen buf)) as [Lt|Ge]; cbn [negb]; try (exists None; split; [done|]; intros j Hj; lia); [lia|].
  destruct (next_record_total buf q ltac:(lia)) as (r & Er & _). rewrite Er. cbn [mbind exec_bind].
  assert (Next : ~ starts_command buf q -> exists o, resync_scan cpu fuel buf (q + 1) = Ret o /\
    match o with Some g => q <= g < blen buf /\ starts_command buf g /\ forall j, q <= j < g -> ~ starts_command buf j | None => forall j, q <= j < blen buf -> ~ starts_command buf j end).
  { intros No. destruct (IH buf (q + 1) ltac:(lia) ltac:(lia)) as (o & E & Ho). exists o. split; [done|]. destruct o as [g|].
    - destruct Ho as (H1 & H2 & H3). split; [lia|]. split; [done|]. intros j Hj. destruct (Z.eq_dec j q) as [->|]; [done|]. apply H3. lia.
    - intros j Hj. destruct (Z.eq_dec j q) as [->|]; [done|]. apply Ho. lia. }
  destruct r as [p n| |]; [|by apply Next; intros (p & n & a & E & _); rewrite Er in E..].
  destruct (one_command_total p) as [o Eo]. rewrite Eo. cbn [mbind exec_bind]. destruct o as [a|].
  - exists (Some q). split; [done|]. split; [lia|]. split; [by exists p, n, a|]. intros j Hj. lia.
  - apply Next. intros (p' & n' & a & E & Ea). rewrite Er in E. injection E as <- <-. rewrite Eo in Ea. discriminate Ea.
Qed.

(** *** Marker frames *)

Lemma argv_len_from args : total_len args < 2 ^ 32 -> argv_len (argv_from args) = blen args.
Proof. intros H. destruct (argv_holds_from args H) as [_ E]. unfold argv_len, blen. by rewrite E, length_ends_from. Qed.

Definition base_of_list (args : list (list byte)) : option Z :=
  match args with [v; id] => if bool_decide (v = LOG_BASE) && (blen id =? 8) then Some (from_le_bytes id) else None | _ => None end.

Lemma base_of_from args : total_len args < 2 ^ 32 -> base_of (argv_from args) = Ret (base_of_list args).
Proof.
  intros H. pose proof (argv_holds_from args H) as Hh. unfold base_of. rewrite argv_len_from by done. pose proof (argv_holds_get _ _ 0 Hh) as G0. pose proof (argv_holds_get _ _ 1 Hh) as G1.
  change (Z.of_nat 0) with 0 in G0. change (Z.of_nat 1) with 1 in G1. rewrite G0, G1. destruct args as [|v [|id [|x args]]]; try done.
  - cbn. destruct (bool_decide_reflect (Some v = Some LOG_BASE)), (bool_decide_reflect (v = LOG_BASE)); cbn; try congruence; try done; by destruct (blen id =? 8).
  - rewrite !blen_cons. pose proof (blen_nonneg args). destruct (Z.eqb_spec (1 + (1 + (1 + blen args))) 2); [lia|done].
Qed.

Definition marker_of_list (args : list (list byte)) : option TxnMarker :=
  match args with [v] => if bool_decide (v = TXN_BEGIN) then Some MBegin else if bool_decide (v = TXN_COMMIT) then Some MCommit else None | _ => None end.

Lemma txn_marker_from args : total_len args < 2 ^ 32 -> txn_marker (argv_from args) = Ret (marker_of_list args).
Proof.
  intros H. pose proof (argv_holds_from args H) as Hh. unfold txn_marker. rewrite argv_len_from by done. pose proof (argv_holds_get _ _ 0 Hh) as G0.
  change (Z.of_nat 0) with 0 in G0. rewrite G0. destruct args as [|v [|x args]]; try done.
  rewrite !blen_cons. pose proof (blen_nonneg args). destruct (Z.eqb_spec (1 + (1 + blen args)) 1); [lia|done].
Qed.

(** What the writer puts down for a command, in pieces it never joins, is read back
    in one record, wherever it stands, as that command. *)
Theorem appended_frame_reads_back (args : list (list byte)) (pre more : list byte) (Hs : sendable args) (Hm : blen (command_bytes args) <= MAX_RECORD) :
  exists h b, record_header cpu args = Ret h /\ write_frame (Some h) args = Ret b /\
    next_record cpu (pre ++ b ++ more) (blen pre) = Ret (ROk (command_bytes args) (blen b)) /\ one_command (command_bytes args) = Ret (Some (argv_from args)).
Proof.
  destruct (write_frame_ok cpu args (sendable_countable args Hs)) as (_ & h & E1 & E2). exists h, (write_record_multibulk cpu args). split; [exact E1|]. split; [exact E2|].
  split; [|by apply one_command_frame]. unfold write_record_multibulk. rewrite write_record_blen, write_multibulk_bytes. apply next_record_at. split; [|exact Hm].
  unfold command_bytes, array_header. rewrite !blen_app. pose proof (blen_nonneg (int_text (blen args))). pose proof (blen_nonneg (concat (bulk_bytes <$> args))). change (blen (bs "*")) with 1. change (blen CRLF) with 2. lia.
Qed.

End Reading.
