(* ===== verification/AofReplay.v ===== *)
(** * Replaying and reopening the append-only file ([crates/kevy-persist/src]:
    [replay_walk.rs], [replay.rs], [replay_resync.rs], [replay_report.rs],
    [aof_util.rs], [aof.rs] as far as opening goes)

    A log is read as a stream of records; frames inside a transaction are held
    until its commit marker; a damaged log can be resynchronised record by record.
    Opening a log for appends first cuts it back to where a replay settles.

    A file is its bytes, and nothing else writes to it while it is read.  A reader
    that fails does so where its bytes end.  The frames handed to [apply] are a
    list.  The stderr lines and the quarantine file's name are left out. *)

From Stdlib Require Import ZArith Lia Bool Strings.Byte Strings.String.
From stdpp Require Import base tactics list numbers.
From S2P Require Import Prelude FindCrlf Buffers Argv Encode Request Crc32c AofRecord.

#[local] Open Scope list_scope.
#[local] Open Scope Z_scope.

(** ** Results *)

Inductive io (A : Type) := IoOk (a : A) | IoErr | IoPanic | IoLoop.
Arguments IoOk {A} a.
Arguments IoErr {A}.
Arguments IoPanic {A}.
Arguments IoLoop {A}.

#[global] Instance io_ret : MRet io := @IoOk.
#[global] Instance io_bind : MBind io := fun A B f m =>
  match m with IoOk a => f a | IoErr => IoErr | IoPanic => IoPanic | IoLoop => IoLoop end.

Definition io_of {A} (m : exec A) : io A := match m with Ret a => IoOk a | Panic => IoPanic end.

(** ** Readers *)

Record Reader := mkRd { rest : list byte; broken : bool }.

Definition read_fully (r : Reader) (n : Z) : io (list byte * Reader) :=
  if (blen (rest r) <? n) && broken r then IoErr
  else IoOk (take (Z.to_nat n) (rest r), mkRd (drop (Z.to_nat n) (rest r)) (broken r)).

Definition all_zero (l : list byte) : bool := forallb (fun b => bz b =? 0) l.

Definition ZERO_CHUNK : Z := 64 * 1024.

Fixpoint zeros_loop (fuel : nat) (r : Reader) (n : Z) : io (option Z) :=
  match fuel with
  | O => IoLoop
  | S fuel =>
      '(got, r) ← read_fully r ZERO_CHUNK;
      if negb (all_zero got) then IoOk None
      else
        let n := n + blen got in
        if blen got <? ZERO_CHUNK then IoOk (Some n) else zeros_loop fuel r n
  end.

Definition zeros_to_end (r : Reader) : io (option Z) := zeros_loop (S (length (rest r))) r 0.

(** ** The walk over records *)

Inductive ReplayStop :=
| Clean
| TruncatedTail
| LengthOutranFile (claimed available : Z)
| CorruptFrame (why : string).

Record V2Walk := mkWalk {
  stop : ReplayStop;
  pos : Z;
  replayed : Z;
  preview : list byte;
  txn : option (list Argv);
  txn_at : Z;
  zero_tail : Z;
  txn_discarded : Z
}.

(** [V2Walk::at]; the preview is what of its sixteen bytes is filled. *)
Definition walk_at (p : Z) : V2Walk := mkWalk Clean p 0 [] None 0 0 0.

Definition set_stop (x : ReplayStop) (w : V2Walk) : V2Walk :=
  mkWalk x (pos w) (replayed w) (preview w) (txn w) (txn_at w) (zero_tail w) (txn_discarded w).
Definition set_pos (x : Z) (w : V2Walk) : V2Walk :=
  mkWalk (stop w) x (replayed w) (preview w) (txn w) (txn_at w) (zero_tail w) (txn_discarded w).
Definition add_replayed (x : Z) (w : V2Walk) : V2Walk :=
  mkWalk (stop w) (pos w) (replayed w + x) (preview w) (txn w) (txn_at w) (zero_tail w) (txn_discarded w).
Definition set_preview (x : list byte) (w : V2Walk) : V2Walk :=
  mkWalk (stop w) (pos w) (replayed w) x (txn w) (txn_at w) (zero_tail w) (txn_discarded w).
Definition set_txn (x : option (list Argv)) (w : V2Walk) : V2Walk :=
  mkWalk (stop w) (pos w) (replayed w) (preview w) x (txn_at w) (zero_tail w) (txn_discarded w).
Definition set_zero_tail (x : Z) (w : V2Walk) : V2Walk :=
  mkWalk (stop w) (pos w) (replayed w) (preview w) (txn w) (txn_at w) x (txn_discarded w).

Definition settled_end (w : V2Walk) : Z := match txn w with Some _ => txn_at w | None => pos w end.

Definition preview_of (bytes : list byte) : list byte := take 16 bytes.

Definition outran (claimed available : Z) : ReplayStop := LengthOutranFile claimed available.

Section Replay.
Context (cpu : Cpu) `{Scan : CrlfScanner}.

(** [apply] is whether there is a sink; [out] is what it was handed so far. *)
Definition deliver (apply : bool) (frames out : list Argv) : list Argv := if apply then out ++ frames else out.

Definition route_frame (apply : bool) (args : Argv) (w : V2Walk) (out : list Argv) : exec (V2Walk * list Argv) :=
  m ← txn_marker args;
  Ret match m with
  | Some MBegin =>
      let dropped := match txn w with Some _ => 1 | None => 0 end in
      (mkWalk (stop w) (pos w) (replayed w) (preview w) (Some []) (pos w) (zero_tail w) (txn_discarded w + dropped), out)
  | Some MCommit =>
      match txn w with
      | Some buffered => (set_txn None w, deliver apply buffered out)
      | None => (w, out)
      end
  | None =>
      match txn w with
      | Some buf => (set_txn (Some (buf ++ [args])) w, out)
      | None => (w, deliver apply [args] out)
      end
  end.

Definition apply_record (payload : list byte) (len : Z) (apply : bool) (w : V2Walk) (out : list Argv) : exec (bool * V2Walk * list Argv) :=
  match parse_command_into payload argv_default with
  | (Panicked, _) => Panic
  | (Done used, args) =>
      if used =? blen payload then
        base ← base_of args;
        '(w, out) ← match base with
          | None => '(w, out) ← route_frame apply args w out; Ret (add_replayed 1 w, out)
          | Some _ => Ret (w, out)
          end;
        Ret (true, set_pos (pos w + (8 + len)) w, out)
      else Ret (false, set_preview (preview_of payload) w, out)
  | (_, _) => Ret (false, set_preview (preview_of payload) w, out)
  end.

Definition next_header (r : Reader) (w : V2Walk) : io ((Z * Z + ReplayStop) * Reader * V2Walk) :=
  '(header, r) ← read_fully r 8;
  let n := blen header in
  if n =? 0 then IoOk (inr Clean, r, w)
  else if (n <? 8) && all_zero header then IoOk (inr Clean, r, set_zero_tail n w)
  else if n <? 8 then IoOk (inr TruncatedTail, r, w)
  else
    let len := from_le_bytes (slice header 0 4) in
    let crc := from_le_bytes (slice header 4 8) in
    zeros ← (if (len =? 0) && (crc =? 0) then zeros_to_end r else IoOk None);
    match zeros with
    | Some more => IoOk (inr Clean, r, set_zero_tail (8 + more) w)
    | None =>
        if (len =? 0) || (MAX_RECORD <? len) then IoOk (inr (CorruptFrame "record length out of range"), r, set_preview (preview_of header) w)
        else IoOk (inl (len, crc), r, w)
    end.

Fixpoint walk_loop (fuel : nat) (r : Reader) (apply : bool) (w : V2Walk) (out : list Argv) : io (V2Walk * list Argv) :=
  match fuel with
  | O => IoLoop
  | S fuel =>
      '(h, r, w) ← next_header r w;
      match h with
      | inr stop => IoOk (set_stop stop w, out)
      | inl (len, crc) =>
          '(payload, r) ← read_fully r len;
          if blen payload <? len then IoOk (set_stop (outran len (blen payload)) w, out)
          else if negb (persist_crc32c cpu payload =? crc) then
            IoOk (set_stop (CorruptFrame "record checksum mismatch") (set_preview (preview_of payload) w), out)
          else
            '(ok, w, out) ← io_of (apply_record payload len apply w out);
            if negb ok then IoOk (set_stop (CorruptFrame "checksummed record does not hold exactly one command") w, out)
            else walk_loop fuel r apply w out
      end
  end.

Definition walk_v2 (r : Reader) (start_pos : Z) (apply : bool) : io (V2Walk * list Argv) :=
  walk_loop (S (length (rest r))) r apply (walk_at start_pos) [].

(** ** Resynchronising *)

(** The inner loop of [resync_slice]: the good run from [w], with where it left
    off: a scan to make from the offset on, or the end with whether it is torn. *)
Inductive run_end := ScanFrom (q : Z) | Ended (torn : bool).

Fixpoint good_run (fuel : nat) (buf : list byte) (w : Z) (apply : bool) (good_end applied : Z) (out : list Argv) : io (run_end * Z * Z * list Argv) :=
  match fuel with
  | O => IoLoop
  | S fuel =>
      r ← io_of (next_record cpu buf w);
      match r with
      | ROk payload consumed =>
          c ← io_of (one_command payload);
          match c with
          | Some args =>
              base ← io_of (if apply then base_of args else Ret (Some 0));
              let out := match base with None => deliver apply [args] out | Some _ => out end in
              good_run fuel buf (w + consumed) apply (w + consumed) (applied + 1) out
          | None => IoOk (ScanFrom (w + 1), good_end, applied, out)
          end
      | Truncated => IoOk (Ended (w <? blen buf), good_end, applied, out)
      | Corrupt => IoOk (ScanFrom (w + 1), good_end, applied, out)
      end
  end.

Fixpoint resync_loop (fuel : nat) (buf : list byte) (base : Z) (apply : bool) (scan_from good_end applied : Z) (ranges : list (Z * Z)) (out : list Argv)
  : io (Z * Z * bool * list (Z * Z) * list Argv) :=
  match fuel with
  | O => IoLoop
  | S fuel =>
      g ← io_of (resync_scan cpu (S (length buf)) buf scan_from);
      match g with
      | None => IoOk (good_end, applied, true, ranges, out)
      | Some g =>
          let ranges := ranges ++ [(base + good_end, base + g)] in
          '(e, good_end, applied, out) ← good_run (S (length buf)) buf g apply good_end applied out;
          match e with
          | ScanFrom q => resync_loop fuel buf base apply q good_end applied ranges out
          | Ended torn => IoOk (good_end, applied, torn, ranges, out)
          end
      end
  end.

Definition resync_slice (buf : list byte) (base : Z) (apply : bool) (out : list Argv) : io (Z * Z * bool * list (Z * Z) * list Argv) :=
  resync_loop (S (length buf)) buf base apply 1 0 0 [] out.

Definition resync_fallback (file : list byte) (w : V2Walk) (apply : bool) (out : list Argv) : io (V2Walk * list (Z * Z) * list Argv) :=
  '(local_end, extra, ended_torn, ranges, out) ← resync_slice (from file (pos w)) (pos w) apply out;
  let w := set_pos (pos w + local_end) (add_replayed extra w) in
  IoOk (set_stop (if ended_torn : bool then TruncatedTail else Clean) w, ranges, out).

(** ** Reports *)

Record ReplayReport := mkReport {
  commands : Z;
  bytes : Z;
  replayed_bytes : Z;
  dropped_bytes : Z;
  r_zero_tail : Z;
  corrupt : bool;
  resynced_ranges : list (Z * Z)
}.

Definition report_default : ReplayReport := mkReport 0 0 0 0 0 false [].

Definition is_corrupt (x : ReplayStop) : bool := match x with CorruptFrame _ => true | _ => false end.
Definition is_clean (x : ReplayStop) : bool := match x with Clean => true | _ => false end.

Definition saturating_sub (a b : Z) : Z := Z.max 0 (a - b).

(** [stream_v2] on the file's bytes, [None] for a missing one. *)
Definition stream_v2 (file : option (list byte)) (apply resync : bool) : io (ReplayReport * list Argv) :=
  match file with
  | None => IoOk (report_default, [])
  | Some data =>
      let total := blen data in
      if total <? 9 then IoErr
      else
        '(w, out) ← walk_v2 (mkRd (from data 9) false) 9 apply;
        let corrupt := is_corrupt (stop w) in
        '(w, ranges, out) ← (if resync && negb (is_clean (stop w)) then resync_fallback data w apply out else IoOk (w, [], out));
        let nothing_skipped := match ranges with [] => true | _ => false end in
        let e := if nothing_skipped : bool then settled_end w else pos w in
        IoOk (mkReport (replayed w) total e (saturating_sub (saturating_sub total e) (zero_tail w)) (zero_tail w) (corrupt || negb nothing_skipped) ranges, out)
  end.

Definition sniff_format (file : option (list byte)) : AofFormat :=
  match file with
  | Some data => if (9 <=? blen data) && bool_decide (take 9 data = AOF2_MAGIC) then V2 else V1
  | None => V1
  end.

(** *** The v1 stream *)

Definition starts_with (data p : list byte) : bool := bool_decide (take (length p) data = p).

Fixpoint v1_walk (fuel : nat) (data : list byte) (p : Z) (n : Z) (out : list Argv) : io (ReplayStop * Z * Z * list Argv) :=
  match fuel with
  | O => IoLoop
  | S fuel =>
      if blen data <=? p then IoOk (Clean, p, n, out)
      else match parse_command_into (from data p) argv_default with
      | (Done consumed, args) => v1_walk fuel data (p + consumed) (n + 1) (out ++ [args])
      | (NeedMore, _) => IoOk (TruncatedTail, p, n, out)
      | (Malformed e, _) => IoOk (CorruptFrame e, p, n, out)
      | (Panicked, _) => IoPanic
      end
  end.

Definition replay_v1_slice (data : list byte) : io (ReplayReport * list Argv) :=
  let total := blen data in
  if total =? 0 then IoOk (report_default, [])
  else
    let p := if starts_with data AOF_MAGIC then blen AOF_MAGIC else 0 in
    '(stop, p, n, out) ← v1_walk (S (length data)) data p 0 [];
    IoOk (mkReport n total p (total - p) 0 (is_corrupt stop) [], out).

Definition replay_with (file : option (list byte)) (resync : bool) : io (ReplayReport * list Argv) :=
  match sniff_format file with
  | V2 => stream_v2 file true resync
  | V1 => match file with None => IoOk (report_default, []) | Some data => replay_v1_slice data end
  end.

(** ** The valid prefix *)

Fixpoint valid_prefix_loop (fuel : nat) (is_v2 : bool) (data : list byte) (p : Z) : io Z :=
  match fuel with
  | O => IoLoop
  | S fuel =>
      if blen data <=? p then IoOk p
      else if is_v2 then
        r ← io_of (next_record cpu data p);
        match r with
        | ROk payload consumed =>
            c ← io_of (one_command payload);
            match c with Some _ => valid_prefix_loop fuel is_v2 data (p + consumed) | None => IoOk p end
        | _ => IoOk p
        end
      else match parse_command (from data p) with
      | Done (_, consumed) => valid_prefix_loop fuel is_v2 data (p + consumed)
      | Panicked => IoPanic
      | _ => IoOk p
      end
  end.

Definition valid_prefix_len (data : list byte) : io Z :=
  let is_v2 := starts_with data AOF2_MAGIC in
  let p := if is_v2 || starts_with data AOF_MAGIC then blen AOF2_MAGIC else 0 in
  valid_prefix_loop (S (length data)) is_v2 data p.

Definition valid_prefix_len_of_file (file : option (list byte)) (resync : bool) : io (Z * Z) :=
  match sniff_format file with
  | V2 => '(r, _) ← stream_v2 file false resync; IoOk (replayed_bytes r, r_zero_tail r)
  | V1 => match file with None => IoOk (0, 0) | Some data => v ← valid_prefix_len data; IoOk (v, 0) end
  end.

(** ** Opening for appends *)

(** What [prepare_file] leaves: the file, its format, the bytes set aside. *)
Record Prepared := mkPrepared { p_file : list byte; p_format : AofFormat; p_quarantined : option (list byte) }.

Definition repair_tail (data : list byte) (resync : bool) : io (list byte * option (list byte)) :=
  let size := blen data in
  '(valid, zeros) ← valid_prefix_len_of_file (Some data) resync;
  if size <=? valid then IoOk (data, None)
  else if valid + zeros =? size then IoOk (take (Z.to_nat valid) data, None)
  else IoOk (take (Z.to_nat valid) data, Some (from data valid)).

Definition settle_tail (data : list byte) (settled : option Z) (resync : bool) : io (list byte * option (list byte)) :=
  match settled with
  | Some s => if s <=? blen data then IoOk (take (Z.to_nat s) data, None) else repair_tail data resync
  | None => repair_tail data resync
  end.

Definition prepare_file (file : option (list byte)) (resync : bool) (settled : option Z) : io Prepared :=
  let data := default [] file in
  if blen data =? 0 then IoOk (mkPrepared AOF2_MAGIC V2 None)
  else
    let format := sniff_format (Some data) in
    let settled := match format with V2 => settled | V1 => None end in
    '(data, q) ← settle_tail data settled resync;
    IoOk (mkPrepared data format q).

End Replay.
