(* ===== verification/AofSpec.v ===== *)
(** * What a log stands for

    A log is a list of entries: commands, transaction brackets, and the frame that
    names its snapshot.  Replaying the bytes of any entries, cut anywhere or
    followed by zeros, hands out the commands of the whole records there, each
    transaction at once and only if its commit is there; reopening cuts the file
    back so that later entries replay after them. *)

From Stdlib Require Import ZArith Lia Bool Strings.Byte Strings.String.
From stdpp Require Import base tactics list numbers.
From S2P Require Import Prelude FindCrlf Buffers Argv Encode Request Crc32c AofRecord AofReplay.

#[local] Open Scope list_scope.
#[local] Open Scope Z_scope.

Abbreviation cmd := (list (list byte)).

Inductive entry := Cmd (args : cmd) | TBegin | TCommit | TBase (snapshot_id : Z).

Definition entry_args (e : entry) : cmd :=
  match e with
  | Cmd args => args
  | TBegin => [TXN_BEGIN]
  | TCommit => [TXN_COMMIT]
  | TBase id => [LOG_BASE; to_le_bytes 8 id]
  end.

(** A command the writer is given: within the limits of a request and of a
    record, and not one of the frames that are not commands. *)
Definition entry_ok (e : entry) : Prop :=
  match e with
  | Cmd args => sendable args /\ blen (command_bytes args) <= MAX_RECORD /\ marker_of_list args = None /\ base_of_list args = None
  | _ => True
  end.

(** ** The meaning of a list of entries *)

(** The commands replayed, and those held in an open transaction. *)
Definition state : Type := list cmd * option (list cmd).

Definition step (s : state) (e : entry) : state :=
  match e with
  | TBase _ => s
  | TBegin => (fst s, Some [])
  | TCommit => (fst s ++ default [] (snd s), None)
  | Cmd a => match snd s with Some held => (fst s, Some (held ++ [a])) | None => (fst s ++ [a], None) end
  end.

Definition run (es : list entry) (s : state) : state := fold_left step es s.

Definition committed (es : list entry) : list cmd := fst (run es ([], None)).

(** No transaction is begun inside another. *)
Fixpoint bracketed (opened : bool) (es : list entry) : bool :=
  match es with
  | [] => true
  | TBegin :: es => negb opened && bracketed true es
  | TCommit :: es => bracketed false es
  | _ :: es => bracketed opened es
  end.

(** The entries before a transaction left open, and that transaction's. *)
Definition settle_step (s : list entry * option (list entry)) (e : entry) : list entry * option (list entry) :=
  let '(kept, held) := s in
  match e with
  | TBegin => (kept ++ default [] held, Some [TBegin])
  | TCommit => (kept ++ default [] held ++ [TCommit], None)
  | _ => match held with Some l => (kept, Some (l ++ [e])) | None => (kept ++ [e], None) end
  end.

Definition settling (es : list entry) : list entry * option (list entry) := fold_left settle_step es ([], None).

Definition settled (es : list entry) : list entry := fst (settling es).

Lemma run_app es es' s : run (es ++ es') s = run es' (run es s).
Proof. apply fold_left_app. Qed.

(** What was replayed before stays in front. *)
Lemma run_front es : forall d o, run es (d, o) = (d ++ fst (run es ([], o)), snd (run es ([], o))).
Proof.
  induction es as [|e es IH]; intros d o; [cbn; by rewrite app_nil_r|]. unfold run in *. cbn [fold_left].
  destruct e as [a| | |id]; cbn [step fst snd]; [destruct o as [h|]|..]; rewrite IH; try rewrite (IH ([] ++ _) None); cbn [fst snd app]; try done; by rewrite <- app_assoc.
Qed.

Lemma committed_app es es' : snd (run es ([], None)) = None -> committed (es ++ es') = committed es ++ committed es'.
Proof. intros H. unfold committed. rewrite run_app. destruct (run es ([], None)) as [d o]. cbn in H. subst o. by rewrite run_front. Qed.

(** Entries are the settled ones and the open transaction's; the settled ones
    replay alike and leave none open. *)
Lemma settling_ok es : bracketed false es = true -> let '(kept, held) := settling es in
  es = kept ++ default [] held /\ run kept ([], None) = (committed es, None) /\ (held = None <-> snd (run es ([], None)) = None).
Proof.
  assert (Gen : forall es' es0, bracketed (match snd (settling es0) with Some _ => true | None => false end) es' = true ->
    (let '(kept, held) := settling es0 in es0 = kept ++ default [] held /\ run kept ([], None) = (committed es0, None) /\ (held = None <-> snd (run es0 ([], None)) = None)) ->
    let '(kept, held) := settling (es0 ++ es') in es0 ++ es' = kept ++ default [] held /\ run kept ([], None) = (committed (es0 ++ es'), None) /\ (held = None <-> snd (run (es0 ++ es') ([], None)) = None)).
  { induction es' as [|e es' IH]; intros es0 B H; [by rewrite app_nil_r|]. replace (es0 ++ e :: es') with ((es0 ++ [e]) ++ es') by by rewrite <- app_assoc.
    assert (S1 : settling (es0 ++ [e]) = settle_step (settling es0) e) by (unfold settling; by rewrite fold_left_app).
    assert (C1 : run (es0 ++ [e]) ([], None) = step (run es0 ([], None)) e) by (rewrite run_app; done).
    apply IH; rewrite S1; destruct (settling es0) as [kept held] eqn:S0; destruct H as (H1 & H2 & H3); unfold committed in *; cbn [snd] in *.
    - destruct e as [a| | |id], held as [l|]; cbn in B |- *; try done.
    - rewrite !C1. destruct (run es0 ([], None)) as [d o] eqn:R0. cbn [fst snd] in *.
      destruct held as [l|]; [assert (o <> None) by (intros ->; destruct H3 as [_ H3]; by specialize (H3 eq_refl))|assert (o = None) as -> by by apply H3]; cbn [default from_option] in *.
      + destruct o as [h|]; [|done]. destruct e as [a| | |id]; cbn [settle_step step fst snd default from_option] in *; [..|].
        * split; [by rewrite H1, <- app_assoc|]. done.
        * cbn in B. discriminate B.
        * split; [by rewrite H1, app_nil_r, <- !app_assoc|]. split; [|done]. rewrite app_assoc, <- H1, run_app, R0. done.
        * split; [by rewrite H1, <- app_assoc|]. done.
      + destruct e as [a| | |id]; cbn [settle_step step fst snd default from_option] in *; rewrite ?app_nil_r in *; subst kept.
        * split; [done|]. split; [by rewrite run_app, R0|done].
        * split; [done|]. split; [done|]. by split.
        * split; [done|]. split; [rewrite run_app, R0; cbn; by rewrite app_nil_r|done].
        * split; [done|]. split; [by rewrite run_app, R0|done]. }
  intros B. specialize (Gen es [] B). cbn in Gen. apply Gen. split; [done|]. split; [done|]. done.
Qed.

(** ** The bytes of entries *)

Section Image.
Context (cpu : Cpu) `{Scan : CrlfScanner}.

Definition frame (e : entry) : list byte := command_bytes (entry_args e).

Definition image (es : list entry) : list byte := concat ((fun e => write_record cpu (frame e)) <$> es).

Lemma image_app es es' : image (es ++ es') = image es ++ image es'.
Proof. unfold image. by rewrite fmap_app, concat_app. Qed.

Lemma image_cons e es : image (e :: es) = write_record cpu (frame e) ++ image es.
Proof. done. Qed.

Lemma args_in_frame args : total_len args < blen (command_bytes args).
Proof.
  unfold command_bytes, array_header. rewrite !blen_app. pose proof (blen_nonneg (int_text (blen args))). change (blen (bs "*")) with 1. change (blen CRLF) with 2.
  enough (total_len args <= blen (concat (bulk_bytes <$> args))) by lia. clear. induction args as [|a args IH]; [done|]. cbn [fmap list_fmap concat]. rewrite total_len_cons, blen_app.
  enough (blen a <= blen (bulk_bytes a)) by lia.
  unfold bulk_bytes. rewrite !blen_app. pose proof (blen_nonneg (bs "$")). pose proof (blen_nonneg (dec (blen a))). pose proof (blen_nonneg CRLF). lia.
Qed.

Lemma frame_ok e : entry_ok e -> sendable (entry_args e) /\ 0 < blen (frame e) <= MAX_RECORD /\ total_len (entry_args e) < 2 ^ 32.
Proof.
  intros H. assert (S : sendable (entry_args e) /\ blen (frame e) <= MAX_RECORD).
  { destruct e as [a| | |id]; [by destruct H as (? & ? & _)|..]; unfold sendable; cbn [entry_args].
    1, 2: split; [split; [done|split; [done|by repeat constructor]]|by vm_compute].
    split; [split; [done|split; [done|]]|]; [repeat constructor; rewrite ?to_le_bytes_blen; by vm_compute|].
    unfold frame, command_bytes, array_header. cbn [entry_args fmap list_fmap concat]. unfold bulk_bytes. rewrite !blen_app, to_le_bytes_blen. by vm_compute. }
  destruct S as [S1 S2]. pose proof (args_in_frame (entry_args e)) as F. pose proof (total_len_nonneg (entry_args e)). unfold frame, MAX_RECORD in *. split; [exact S1|lia].
Qed.

(** What a frame is routed as. *)
Lemma frame_routes e : entry_ok e ->
  base_of (argv_from (entry_args e)) = Ret (match e with TBase id => Some (from_le_bytes (to_le_bytes 8 id)) | _ => None end) /\
  txn_marker (argv_from (entry_args e)) = Ret (match e with TBegin => Some MBegin | TCommit => Some MCommit | _ => None end).
Proof.
  intros H. destruct (frame_ok e H) as (_ & _ & L). rewrite base_of_from, txn_marker_from by exact L. destruct e as [a| | |id]; [cbn [entry_args]; by destruct H as (_ & _ & -> & ->)|done..|].
  split; [|done]. cbn [entry_args base_of_list]. rewrite bool_decide_true, to_le_bytes_blen by done. cbn [andb]. done.
Qed.

(** ** One record of the walk *)

Definition moved (e : entry) (w : V2Walk) : V2Walk := set_pos (pos w + blen (write_record cpu (frame e))) w.

(** What a record does to a walk that is not in trouble. *)
Definition after (apply : bool) (e : entry) (w : V2Walk) (out : list Argv) : V2Walk * list Argv :=
  match e with
  | TBase _ => (moved e w, out)
  | TBegin => (moved e (add_replayed 1 (mkWalk (stop w) (pos w) (replayed w) (preview w) (Some []) (pos w) (zero_tail w) (txn_discarded w + match txn w with Some _ => 1 | None => 0 end))), out)
  | TCommit => (moved e (add_replayed 1 (set_txn None w)), deliver apply (default [] (txn w)) out)
  | Cmd a =>
      match txn w with
      | Some buf => (moved e (add_replayed 1 (set_txn (Some (buf ++ [argv_from a])) w)), out)
      | None => (moved e (add_replayed 1 w), deliver apply [argv_from a] out)
      end
  end.

Lemma apply_record_ok e apply w out : entry_ok e ->
  apply_record (frame e) (blen (frame e)) apply w out = Ret (true, fst (after apply e w out), snd (after apply e w out)).
Proof.
  intros H. destruct (frame_ok e H) as (Hs & Hl & _). destruct (frame_routes e H) as [Rb Rm]. pose proof (one_command_frame (entry_args e) Hs) as O.
  unfold one_command, parse_command in O. fold (frame e) in O. unfold apply_record. destruct (parse_command_into (frame e) argv_default) as [[used| | |] args]; try done.
  destruct (used =? blen (frame e)); [|done]. injection O as ->. rewrite Rb. cbn [mbind exec_bind]. unfold route_frame. rewrite Rm.
  unfold after, moved. rewrite write_record_blen. unfold RECORD_HEADER.
  destruct e as [a| | |id]; cbn [mbind exec_bind]; [destruct (txn w) eqn:T; reflexivity|reflexivity| |reflexivity].
  assert (D : deliver apply [] out = out) by (destruct apply; [apply app_nil_r|done]).
  destruct w as [st p rp pv [tx|] ta zt td]; [reflexivity|]. cbn [mbind exec_bind txn default from_option fst snd]. rewrite D. reflexivity.
Qed.

Lemma read_fully_app a t b : read_fully (mkRd (a ++ t) b) (blen a) = IoOk (a, mkRd t b).
Proof.
  unfold read_fully. cbn [rest broken]. rewrite blen_app, blen_to_nat, take_app_length, drop_app_length. pose proof (blen_nonneg t).
  by destruct (Z.ltb_spec (blen a + blen t) (blen a)); [lia|].
Qed.

(** The header of a record is read as its length and sum. *)
Lemma next_header_ok p x b w : 0 < blen p <= MAX_RECORD ->
  next_header (mkRd (to_le_bytes 4 (blen p) ++ to_le_bytes 4 (persist_crc32c cpu p) ++ x) b) w = IoOk (inl (blen p, persist_crc32c cpu p), mkRd x b, w).
Proof.
  intros H. set (h := to_le_bytes 4 (blen p) ++ to_le_bytes 4 (persist_crc32c cpu p)). assert (Lh : blen h = 8) by (unfold h; rewrite blen_app, !to_le_bytes_blen; lia).
  rewrite app_assoc. fold h. pose proof (sum_u32 cpu p) as Hc.
  destruct (header_fields (blen p) (persist_crc32c cpu p) [] ltac:(unfold MAX_RECORD in *; lia) Hc) as (E1 & E2 & _). rewrite app_nil_r in E1, E2. fold h in E1, E2.
  unfold next_header. pose proof (read_fully_app h x b) as R. rewrite Lh in R. rewrite R. cbn [mbind io_bind]. rewrite Lh, E1, E2. cbn [Z.eqb Z.ltb Z.compare Pos.compare Pos.compare_cont andb].
  destruct (Z.eqb_spec (blen p) 0), (Z.ltb_spec MAX_RECORD (blen p)); try lia. reflexivity.
Qed.

Lemma walk_record fuel e t b apply w out : entry_ok e ->
  walk_loop cpu (S fuel) (mkRd (write_record cpu (frame e) ++ t) b) apply w out = walk_loop cpu fuel (mkRd t b) apply (fst (after apply e w out)) (snd (after apply e w out)).
Proof.
  intros H. destruct (frame_ok e H) as (_ & Hl & _). cbn [walk_loop]. unfold write_record. rewrite <- !app_assoc, next_header_ok by exact Hl. cbn [mbind io_bind]. rewrite read_fully_app. cbn [mbind io_bind].
  rewrite Z.ltb_irrefl, Z.eqb_refl, apply_record_ok by exact H. reflexivity.
Qed.

(** ** The records of a list of entries *)

Lemma bracketed_app_l es es' : forall o, bracketed o (es ++ es') = true -> bracketed o es = true.
Proof.
  induction es as [|e es IH]; intros o; [done|]. destruct e as [a| | |id]; cbn [app bracketed]; [apply IH| |apply IH..]. destruct o; cbn [negb andb]; [done|apply IH].
Qed.

Lemma settled_closed es : bracketed false es = true -> snd (run es ([], None)) = None -> settled es = es.
Proof.
  intros B H. pose proof (settling_ok es B) as S. unfold settled. destruct (settling es) as [kept held]. destruct S as (-> & _ & Hn). apply Hn in H as ->. cbn. by rewrite app_nil_r.
Qed.

Definition commands_of (es : list entry) : Z := blen (List.filter (fun e => match e with TBase _ => false | _ => true end) es).

(** The commands as [apply] gets them. *)
Definition handed (cs : list cmd) : list Argv := map argv_from cs.

(** A walk that started at [start] and has read the records of [es]. *)
Record walked (apply : bool) (start : Z) (es : list entry) (w : V2Walk) (out : list Argv) : Prop := {
  wk_stop : stop w = Clean;
  wk_zero : zero_tail w = 0;
  wk_pos : pos w = start + blen (image es);
  wk_count : replayed w = commands_of es;
  wk_settled : settled_end w = start + blen (image (settled es));
  wk_txn : txn w = option_map handed (snd (run es ([], None)));
  wk_out : out = deliver apply (handed (committed es)) []
}.

Lemma walked_nil apply start : walked apply start [] (walk_at start) [].
Proof. split; try done; [symmetry; apply Z.add_0_r..|by destruct apply]. Qed.

Lemma deliver_deliver apply a b : deliver apply b (deliver apply a []) = deliver apply (a ++ b) [].
Proof. by destruct apply. Qed.

Lemma commands_of_snoc es e : commands_of (es ++ [e]) = commands_of es + match e with TBase _ => 0 | _ => 1 end.
Proof. unfold commands_of. rewrite List.filter_app, blen_app. by destruct e. Qed.

Lemma settled_snoc es e : bracketed false es = true ->
  settled (es ++ [e]) = match snd (run (es ++ [e]) ([], None)) with None => es ++ [e] | Some _ => match e with TBegin => es | _ => settled es end end.
Proof.
  intros B. pose proof (settling_ok es B) as S. unfold settled, settling in *. rewrite fold_left_app, run_app. destruct (fold_left settle_step es ([], None)) as [kept held].
  destruct S as (-> & _ & Hn). destruct (run _ ([], None)) as [d o]. cbn in Hn. cbn [fold_left run fst settle_step].
  destruct e as [a| | |id], o as [h|], held as [l|]; cbn; rewrite ?app_nil_r, <- ?app_assoc; try done; try (by destruct Hn as [Hn _]; specialize (Hn eq_refl)); by destruct Hn as [_ Hn]; specialize (Hn eq_refl).
Qed.

Lemma walked_after apply start es e w out : bracketed false (es ++ [e]) = true -> walked apply start es w out ->
  walked apply start (es ++ [e]) (fst (after apply e w out)) (snd (after apply e w out)).
Proof.
  intros B [W1 W2 W3 W4 W5 W6 W7]. pose proof (bracketed_app_l _ _ _ B) as B0. pose proof (settled_snoc es e B0) as S. rewrite run_app in S.
  assert (Li : blen (image (es ++ [e])) = blen (image es) + blen (write_record cpu (frame e))) by (rewrite image_app, blen_app; unfold image; cbn [fmap list_fmap concat]; by rewrite app_nil_r).
  unfold settled_end in W5. destruct w as [st p rp pv tx ta zt td]. cbn [stop pos replayed txn txn_at zero_tail] in *. unfold committed in *.
  destruct (run es ([], None)) as [d o] eqn:R. cbn [fst snd] in *. subst tx out rp. unfold run in S. cbn [fold_left] in S.
  destruct e as [a| | |id], o as [h|]; cbn [step fst snd default from_option fmap option_fmap option_map] in *;
    (split; rewrite ?commands_of_snoc, ?S; unfold committed; rewrite ?run_app, ?R; unfold settled_end;
     cbn [after moved fst snd stop zero_tail txn txn_at pos set_pos add_replayed set_txn replayed]; unfold run;
     cbn [fold_left step fst snd option_map default from_option];
     first [assumption|reflexivity|lia|rewrite ?deliver_deliver; unfold handed; rewrite ?map_app, ?app_nil_r; reflexivity]).
Qed.

Lemma walk_image es' : forall es fuel t b apply start w out, Forall entry_ok es' -> bracketed false (es ++ es') = true -> walked apply start es w out ->
  exists w' out', walk_loop cpu (length es' + fuel) (mkRd (image es' ++ t) b) apply w out = walk_loop cpu fuel (mkRd t b) apply w' out' /\ walked apply start (es ++ es') w' out'.
Proof.
  induction es' as [|e es' IH]; intros es fuel t b apply start w out F B W; [exists w, out; by rewrite app_nil_r|]. apply list.Forall_cons in F as [Fe F].
  replace (es ++ e :: es') with ((es ++ [e]) ++ es') in * by by rewrite <- app_assoc. cbn [length Nat.add]. rewrite image_cons, <- app_assoc, walk_record by exact Fe.
  apply IH; [exact F|exact B|]. apply walked_after; [by eapply bracketed_app_l|exact W].
Qed.

(** ** Where a log may end *)

(** A record cut short, or zeros. *)
Inductive torn : list byte -> Prop :=
| torn_record e m : entry_ok e -> (m < length (write_record cpu (frame e)))%nat -> torn (take m (write_record cpu (frame e)))
| torn_zeros z : torn (replicate z x00).

Lemma all_zero_replicate z : all_zero (replicate z x00) = true.
Proof. induction z; done. Qed.

Lemma zeros_loop_ok fuel : forall z n, (z < fuel)%nat -> zeros_loop fuel (mkRd (replicate z x00) false) n = IoOk (Some (n + Z.of_nat z)).
Proof.
  induction fuel as [|fuel IH]; intros z n Hz; [lia|]. cbn [zeros_loop]. unfold read_fully. cbn [rest broken]. rewrite andb_false_r. cbn [mbind io_bind].
  rewrite take_replicate, drop_replicate, all_zero_replicate. cbn [negb]. unfold blen. rewrite length_replicate. unfold ZERO_CHUNK. destruct (Z.ltb_spec (Z.of_nat (Z.to_nat (64 * 1024) `min` z)) (64 * 1024)).
  - do 2 f_equal. lia.
  - rewrite IH by lia. do 2 f_equal. lia.
Qed.

(** A walk that ends at [t] stops there, unalarmed. *)
Definition halted (w w' : V2Walk) (t : list byte) : Prop :=
  is_corrupt (stop w') = false /\ pos w' = pos w /\ settled_end w' = settled_end w /\ replayed w' = replayed w /\ 0 <= zero_tail w' <= blen t /\ (all_zero t = true -> stop w' = Clean /\ zero_tail w' = blen t).

Lemma walk_zeros fuel z apply w out : zero_tail w = 0 ->
  exists w', walk_loop cpu (S fuel) (mkRd (replicate z x00) false) apply w out = IoOk (w', out) /\ halted w w' (replicate z x00).
Proof.
  intros Hw. assert (L : blen (replicate z x00) = Z.of_nat z) by (unfold blen; by rewrite length_replicate).
  cbn [walk_loop]. unfold next_header, read_fully. cbn [rest broken]. rewrite andb_false_r. cbn [mbind io_bind]. rewrite take_replicate, drop_replicate, all_zero_replicate.
  replace (blen (replicate (Z.to_nat 8 `min` z) x00)) with (Z.min 8 (Z.of_nat z)) by (unfold blen; rewrite length_replicate; lia).
  destruct (Z.eqb_spec (Z.min 8 (Z.of_nat z)) 0) as [E0|E0]; [|destruct (Z.ltb_spec (Z.min 8 (Z.of_nat z)) 8) as [E8|E8]]; cbn [andb mbind io_bind].
  - eexists. split; [reflexivity|]. unfold halted. cbn. rewrite L, Hw. repeat split; lia.
  - eexists. split; [reflexivity|]. unfold halted. cbn. rewrite L. repeat split; lia.
  - replace (Z.to_nat 8 `min` z)%nat with 8%nat by lia. change (from_le_bytes (slice (replicate 8 x00) 0 4)) with 0. change (from_le_bytes (slice (replicate 8 x00) 4 8)) with 0.
    cbn [Z.eqb andb]. unfold zeros_to_end. cbn [rest]. rewrite zeros_loop_ok by (rewrite length_replicate; lia). cbn [mbind io_bind].
    eexists. split; [reflexivity|]. unfold halted. cbn [set_stop set_zero_tail stop pos replayed zero_tail is_corrupt]. rewrite L. repeat split; lia.
Qed.

Lemma all_zero_le l : all_zero l = true -> from_le_bytes l = 0.
Proof. induction l as [|x l IH]; [done|]. cbn [all_zero forallb from_le_bytes]. intros [H1 H2]%andb_prop. apply Z.eqb_eq in H1. rewrite H1, IH; [lia|exact H2]. Qed.

Lemma all_zero_app a b : all_zero (a ++ b) = all_zero a && all_zero b.
Proof. apply forallb_app. Qed.

Lemma walk_short fuel t apply w out : zero_tail w = 0 -> blen t < 8 ->
  exists w', walk_loop cpu (S fuel) (mkRd t false) apply w out = IoOk (w', out) /\ halted w w' t.
Proof.
  intros Hw Hm. assert (L : (length t < 8)%nat) by (unfold blen in Hm; lia). pose proof (blen_nonneg t).
  cbn [walk_loop]. unfold next_header, read_fully. cbn [rest broken]. rewrite andb_false_r. cbn [mbind io_bind]. rewrite (firstn_all2 t), (skipn_all2 t) by lia.
  destruct (Z.eqb_spec (blen t) 0) as [E0|E0]; [|destruct (Z.ltb_spec (blen t) 8); [|lia]; destruct (all_zero t) eqn:Z]; cbn [andb mbind io_bind];
    (eexists; split; [reflexivity|]); unfold halted; cbn [set_stop set_zero_tail stop pos replayed zero_tail is_corrupt]; rewrite ?Z, ?Hw; repeat split; try lia; try discriminate.
Qed.

Lemma walk_outran fuel p m apply w out : zero_tail w = 0 -> 0 < blen p <= MAX_RECORD -> (8 <= m < length (write_record cpu p))%nat ->
  exists w', walk_loop cpu (S fuel) (mkRd (take m (write_record cpu p)) false) apply w out = IoOk (w', out) /\ halted w w' (take m (write_record cpu p)).
Proof.
  intros Hw Hp Hm. assert (T : take m (write_record cpu p) = to_le_bytes 4 (blen p) ++ to_le_bytes 4 (persist_crc32c cpu p) ++ take (m - 8) p).
  { unfold write_record. rewrite take_app_ge by (change (length (to_le_bytes 4 (blen p))) with 4%nat; lia). f_equal. rewrite take_app_ge by (change (length (to_le_bytes 4 (blen p))) with 4%nat; change (length (to_le_bytes 4 (persist_crc32c cpu p))) with 4%nat; lia).
    f_equal. f_equal. change (length (to_le_bytes 4 (blen p))) with 4%nat. change (length (to_le_bytes 4 (persist_crc32c cpu p))) with 4%nat. lia. }
  assert (Lp : (m - 8 < length p)%nat) by (pose proof (write_record_blen cpu p) as L; unfold blen, RECORD_HEADER in L; lia).
  cbn [walk_loop]. rewrite T, next_header_ok by exact Hp. cbn [mbind io_bind]. unfold read_fully. cbn [rest broken]. rewrite andb_false_r. cbn [mbind io_bind].
  assert (Ls : blen (take (m - 8) p) < blen p) by (unfold blen; rewrite length_take; lia). rewrite (firstn_all2 (take (m - 8) p)) by (rewrite length_take; unfold blen; lia).
  destruct (Z.ltb_spec (blen (take (m - 8) p)) (blen p)); [|lia]. eexists. split; [reflexivity|]. unfold halted. cbn [set_stop stop pos replayed zero_tail is_corrupt outran].
  rewrite Hw, !blen_app, !to_le_bytes_blen. pose proof (blen_nonneg (take (m - 8) p)). repeat split; try lia; rewrite all_zero_app in *.
  all: apply andb_prop in H1 as [Z _]; apply all_zero_le in Z; rewrite from_to_u32 in Z by (unfold MAX_RECORD in *; lia); lia.
Qed.

Lemma walk_torn fuel t apply w out : torn t -> zero_tail w = 0 -> exists w', walk_loop cpu (S fuel) (mkRd t false) apply w out = IoOk (w', out) /\ halted w w' t.
Proof.
  intros [e m He Hm|z] Hw; [|by apply walk_zeros]. destruct (frame_ok e He) as (_ & Hl & _). destruct (decide (m < 8)%nat); [|by apply walk_outran; try lia].
  apply walk_short; [exact Hw|]. unfold blen. rewrite length_take. lia.
Qed.

(** ** Replaying and reopening *)

Lemma records_fit es : (length es <= length (image es))%nat.
Proof.
  induction es as [|e es IH]; [done|]. rewrite image_cons, length_app. pose proof (write_record_blen cpu (frame e)) as L. pose proof (blen_nonneg (frame e)). unfold blen, RECORD_HEADER in *. cbn [length]. lia.
Qed.

(** The log of [es], ending in [t]. *)
Definition log (es : list entry) (t : list byte) : list byte := AOF2_MAGIC ++ image es ++ t.

Lemma log_blen es t : blen (log es t) = 9 + blen (image es) + blen t.
Proof. unfold log. rewrite !blen_app. change (blen AOF2_MAGIC) with 9. lia. Qed.

Lemma log_v2 es t : sniff_format (Some (log es t)) = V2.
Proof.
  unfold sniff_format. rewrite log_blen. pose proof (blen_nonneg (image es)). pose proof (blen_nonneg t). destruct (Z.leb_spec 9 (9 + blen (image es) + blen t)); [|lia].
  unfold log. change 9%nat with (length AOF2_MAGIC). rewrite take_app_length. by rewrite bool_decide_true.
Qed.

(** The walk over a log that goes on from [es] with something it stops at. *)
Lemma walk_to es t apply : Forall entry_ok es -> bracketed false es = true ->
  exists fuel w out, walk_v2 cpu (mkRd (from (log es t) 9) false) 9 apply = walk_loop cpu (S fuel) (mkRd t false) apply w out /\ walked apply 9 es w out.
Proof.
  intros F B. replace (from (log es t) 9) with (image es ++ t) by (unfold log; change 9 with (blen AOF2_MAGIC); by rewrite from_app_len).
  unfold walk_v2. cbn [rest]. pose proof (records_fit es) as Rf. replace (S (length (image es ++ t))) with (length es + S (length (image es ++ t) - length es))%nat by (rewrite length_app; lia).
  destruct (walk_image es [] (S (length (image es ++ t) - length es)) t false apply 9 (walk_at 9) [] F B (walked_nil apply 9)) as (w & out & -> & W). by exists (length (image es ++ t) - length es)%nat, w, out.
Qed.

Lemma stream_log es t apply resync : Forall entry_ok es -> bracketed false es = true -> torn t -> resync = false \/ all_zero t = true ->
  exists r, stream_v2 cpu (Some (log es t)) apply resync = IoOk (r, deliver apply (handed (committed es)) []) /\
    commands r = commands_of es /\ bytes r = blen (log es t) /\ replayed_bytes r = blen (log (settled es) []) /\ corrupt r = false /\ resynced_ranges r = [] /\
    dropped_bytes r = Z.max 0 (Z.max 0 (bytes r - replayed_bytes r) - r_zero_tail r) /\ (all_zero t = true -> r_zero_tail r = blen t).
Proof.
  intros F B T Hr. unfold stream_v2. pose proof (log_blen es t) as L. pose proof (blen_nonneg (image es)). pose proof (blen_nonneg t). destruct (Z.ltb_spec (blen (log es t)) 9); [lia|].
  destruct (walk_to es t apply F B) as (fuel & w & out & -> & [W1 W2 W3 W4 W5 W6 W7]).
  destruct (walk_torn fuel t apply w out T W2) as (w' & -> & K1 & K2 & K3 & K4 & K5 & K6). cbn [mbind io_bind].
  assert (E : resync && negb (is_clean (stop w')) = false) by (destruct Hr as [->|Z]; [done|]; destruct (K6 Z) as [-> _]; apply andb_false_r). rewrite E. cbn [mbind io_bind].
  eexists. split; [by rewrite W7|]. cbn [commands bytes replayed_bytes corrupt resynced_ranges dropped_bytes r_zero_tail]. rewrite K1, K3, K4, W4, W5, log_blen. change (blen []) with 0.
  repeat split; try done; [rewrite log_blen; change (blen []) with 0; lia|].
  intros Z. by apply K6.
Qed.

(** Replay hands out what the whole records commit. *)
Lemma replay_log es t resync : Forall entry_ok es -> bracketed false es = true -> torn t -> resync = false \/ all_zero t = true ->
  exists r, replay_with cpu (Some (log es t)) resync = IoOk (r, handed (committed es)) /\ corrupt r = false /\ replayed_bytes r = blen (log (settled es) []) /\ commands r = commands_of es.
Proof.
  intros F B T Hr. unfold replay_with. rewrite log_v2. destruct (stream_log es t true resync F B T Hr) as (r & -> & H1 & H2 & H3 & H4 & _). exists r. done.
Qed.

Lemma settled_prefix es : bracketed false es = true -> exists more, es = settled es ++ more.
Proof. intros B. pose proof (settling_ok es B) as S. unfold settled. destruct (settling es) as [kept held]. destruct S as (S & _). eexists. exact S. Qed.

Lemma take_settled es t : bracketed false es = true -> take (Z.to_nat (blen (log (settled es) []))) (log es t) = log (settled es) [].
Proof.
  intros B. destruct (settled_prefix es B) as [more E]. unfold log at 2. rewrite E at 2. rewrite image_app, <- app_assoc, app_assoc. replace (AOF2_MAGIC ++ image (settled es)) with (log (settled es) []) by (unfold log; by rewrite app_nil_r).
  apply take_app_blen.
Qed.

(** Reopening, with or without the replay's answer, leaves the settled records. *)
Lemma prepare_log es t settled_at resync : Forall entry_ok es -> bracketed false es = true -> torn t -> resync = false \/ all_zero t = true ->
  settled_at = None \/ settled_at = Some (blen (log (settled es) [])) ->
  exists q, prepare_file cpu (Some (log es t)) resync settled_at = IoOk (mkPrepared (log (settled es) []) V2 q) /\ (settled es = es -> all_zero t = true -> q = None).
Proof.
  intros F B T Hr Hs. unfold prepare_file. change (default [] (Some (log es t))) with (log es t). pose proof (log_blen es t) as L. pose proof (blen_nonneg (image es)). pose proof (blen_nonneg t). destruct (Z.eqb_spec (blen (log es t)) 0); [lia|]. rewrite log_v2.
  pose proof (take_settled es t B) as Tk. assert (Le : blen (log (settled es) []) <= blen (log es t)).
  { destruct (settled_prefix es B) as [more E]. rewrite !log_blen. rewrite E at 2. rewrite image_app, blen_app. change (blen []) with 0. pose proof (blen_nonneg (image more)). lia. }
  assert (Rep : exists q, repair_tail cpu (log es t) resync = IoOk (log (settled es) [], q) /\ (settled es = es -> all_zero t = true -> q = None)).
  { unfold repair_tail, valid_prefix_len_of_file. rewrite log_v2. destruct (stream_log es t false resync F B T Hr) as (r & -> & K1 & K2 & K3 & K4 & K5 & K6 & K7). cbn [mbind io_bind]. rewrite K3.
    destruct (Z.leb_spec (blen (log es t)) (blen (log (settled es) []))) as [G|G].
    - exists None. split; [|done]. rewrite firstn_all2 in Tk by (unfold blen in *; lia). by rewrite Tk.
    - rewrite Tk. destruct (Z.eqb_spec (blen (log (settled es) []) + r_zero_tail r) (blen (log es t))) as [|Ne]; eexists; (split; [done|]); [done|].
      intros Es Z. destruct Ne. rewrite (K7 Z), Es, !log_blen. change (blen []) with 0. lia. }
  unfold settle_tail. destruct Hs as [->| ->].
  - destruct Rep as (q & -> & Hq). exists q. done.
  - destruct (Z.leb_spec (blen (log (settled es) [])) (blen (log es t))); [|lia]. rewrite Tk. exists None. done.
Qed.

(** Bytes cut anywhere are whole records and a cut one. *)
Lemma cut_image es : forall n, Forall entry_ok es -> exists k t, take n (image es) = image (take k es) ++ t /\ torn t /\ (k <= length es)%nat /\ (t <> [] -> k < length es)%nat /\
  (length (image (take k es)) <= n)%nat /\ (forall j, (k < j <= length es)%nat -> (n < length (image (take j es)))%nat).
Proof.
  induction es as [|e es IH]; intros n F.
  - exists 0%nat, []. rewrite take_nil. split; [by destruct n|]. split; [apply (torn_zeros 0)|]. repeat split; cbn; [lia..|done|lia|lia].
  - apply list.Forall_cons in F as [Fe F]. rewrite image_cons. destruct (decide (n < length (write_record cpu (frame e)))%nat) as [Lt|Ge].
    + exists 0%nat, (take n (write_record cpu (frame e))). rewrite take_app_le by lia. repeat split; [by apply torn_record|cbn; lia..|]. intros [|j] Hj; [lia|]. cbn [take]. rewrite image_cons, length_app. lia.
    + destruct (IH (n - length (write_record cpu (frame e)))%nat F) as (k & t & E & T & K1 & K2 & K3 & K4). exists (S k), t. rewrite take_app_ge, E by lia. cbn [take]. rewrite image_cons, <- app_assoc, length_app.
      repeat split; [exact T|cbn [length]; lia|cbn [length]; intros Ht; specialize (K2 Ht); lia|lia|]. intros [|j] Hj; [lia|]. cbn [take length] in *. rewrite image_cons, length_app. specialize (K4 j ltac:(lia)). lia.
Qed.

Lemma settled_ok es : bracketed false es = true -> bracketed false (settled es) = true /\ settled (settled es) = settled es /\ committed (settled es) = committed es /\ snd (run (settled es) ([], None)) = None.
Proof.
  intros B. destruct (settled_prefix es B) as [more E]. assert (B' : bracketed false (settled es) = true) by (rewrite E in B; by eapply bracketed_app_l).
  assert (R : run (settled es) ([], None) = (committed es, None)) by (pose proof (settling_ok es B) as S; unfold settled; destruct (settling es) as [kept held]; cbn [fst]; by destruct S as (_ & -> & _)).
  split; [exact B'|]. split; [apply settled_closed; [exact B'|by rewrite R]|]. unfold committed at 1. by rewrite R.
Qed.

Lemma bracketed_app es es' : forall o, bracketed o es = true -> (snd (run es ([], if o then Some [] else None)) = None) -> bracketed false es' = true -> bracketed o (es ++ es') = true.
Proof.
  assert (G : forall es x d, bracketed (match x with Some _ => true | None => false end) es = true -> snd (run es (d, x)) = None -> bracketed false es' = true -> bracketed (match x with Some _ => true | None => false end) (es ++ es') = true).
  { clear es. induction es as [|e es IH]; intros x d B H Q; [cbn in H; by subst x|]. unfold run in *. destruct e as [a| | |id], x as [h|]; cbn [app bracketed negb andb fold_left step fst snd] in *; try done.
    - exact (IH (Some (h ++ [a])) d B H Q). - exact (IH None (d ++ [a]) B H Q). - exact (IH (Some []) d B H Q). - exact (IH None (d ++ h) B H Q). - exact (IH None (d ++ []) B H Q).
    - exact (IH (Some h) d B H Q). - exact (IH None d B H Q). }
  intros o B H Q. destruct o; [exact (G es (Some []) [] B H Q)|exact (G es None [] B H Q)].
Qed.

(** Later entries go on from the settled ones. *)
Lemma replay_reopened es es2 : Forall entry_ok es -> bracketed false es = true -> Forall entry_ok es2 -> bracketed false es2 = true ->
  exists r, replay_with cpu (Some (log (settled es) [] ++ image es2)) false = IoOk (r, handed (committed es ++ committed es2)) /\ corrupt r = false.
Proof.
  intros F B F2 B2. destruct (settled_ok es B) as (B' & _ & C & O). destruct (settled_prefix es B) as [more E].
  assert (F' : Forall entry_ok (settled es)) by (rewrite E in F; by apply list.Forall_app in F as [F _]).
  replace (log (settled es) [] ++ image es2) with (log (settled es ++ es2) []) by (unfold log; by rewrite !app_nil_r, image_app, app_assoc).
  destruct (replay_log (settled es ++ es2) [] false) as (r & -> & K & _); [by apply list.Forall_app|by apply bracketed_app|apply (torn_zeros 0)|by left|].
  exists r. split; [|exact K]. by rewrite committed_app, C.
Qed.

(** ** Damage *)

(** The record of [e] with [y] where its frame is [q]. *)
Definition damaged (e : entry) (q : list byte) : list byte :=
  to_le_bytes 4 (blen (frame e)) ++ to_le_bytes 4 (persist_crc32c cpu (frame e)) ++ q.

(** [q] differs from the frame within four neighbouring bytes. *)
Definition burst (e : entry) (q : list byte) : Prop :=
  exists pre x y suf, frame e = pre ++ x ++ suf /\ q = pre ++ y ++ suf /\ length x = length y /\ (length x <= 4)%nat /\ x <> y.

Lemma burst_sum e q : burst e q -> length q = length (frame e) /\ persist_crc32c cpu q <> persist_crc32c cpu (frame e).
Proof.
  intros (pre & x & y & suf & E & -> & L & L4 & Ne). split; [rewrite E, !length_app; lia|]. rewrite E. unfold persist_crc32c. rewrite !append_spec by lia.
  pose proof (crc32c_detects_burst cpu pre x y suf L L4 Ne) as D. rewrite !front_spec in D. intros Eq. apply D. by symmetry.
Qed.

Lemma walk_damaged fuel e q t b apply w out : entry_ok e -> burst e q ->
  walk_loop cpu (S fuel) (mkRd (damaged e q ++ t) b) apply w out = IoOk (set_stop (CorruptFrame "record checksum mismatch") (set_preview (preview_of q) w), out).
Proof.
  intros He Hb. destruct (burst_sum e q Hb) as [L C]. destruct (frame_ok e He) as (_ & Hl & _). cbn [walk_loop]. unfold damaged. rewrite <- !app_assoc, next_header_ok by exact Hl. cbn [mbind io_bind].
  assert (Lq : blen q = blen (frame e)) by (unfold blen; lia). rewrite <- Lq, read_fully_app. cbn [mbind io_bind]. rewrite Z.ltb_irrefl. by destruct (Z.eqb_spec (persist_crc32c cpu q) (persist_crc32c cpu (frame e))).
Qed.

Lemma stream_damaged es e q t apply : Forall entry_ok es -> bracketed false es = true -> entry_ok e -> burst e q ->
  exists r, stream_v2 cpu (Some (log es (damaged e q ++ t))) apply false = IoOk (r, deliver apply (handed (committed es)) []) /\
    replayed_bytes r = blen (log (settled es) []) /\ corrupt r = true /\ r_zero_tail r = 0.
Proof.
  intros F B He Hb. unfold stream_v2. pose proof (log_blen es (damaged e q ++ t)) as L. pose proof (blen_nonneg (image es)). pose proof (blen_nonneg (damaged e q ++ t)).
  destruct (Z.ltb_spec (blen (log es (damaged e q ++ t))) 9); [lia|]. destruct (walk_to es (damaged e q ++ t) apply F B) as (fuel & w & out & -> & [W1 W2 W3 W4 W5 W6 W7]).
  rewrite walk_damaged by done. cbn [mbind io_bind]. eexists. split; [by rewrite W7|]. cbn [replayed_bytes corrupt r_zero_tail zero_tail set_stop set_preview stop is_corrupt orb].
  change (settled_end (set_stop (CorruptFrame "record checksum mismatch") (set_preview (preview_of q) w))) with (settled_end w). rewrite W5, log_blen. change (blen []) with 0. split; [lia|]. done.
Qed.

(** ** Resynchronising *)

(** Every frame that is not the log's own, markers included. *)
Definition frames (es : list entry) : list cmd := concat (map (fun e => match e with TBase _ => [] | _ => [entry_args e] end) es).

Lemma next_record_end buf : next_record cpu buf (blen buf) = Ret Truncated.
Proof.
  unfold next_record. pose proof (blen_nonneg buf). destruct (Z.leb_spec 0 (blen buf)); [|lia]. rewrite Z.leb_refl. cbn [andb negb]. by rewrite from_ge.
Qed.

Lemma good_run_image es : forall fuel pre apply ge ap out, Forall entry_ok es ->
  good_run cpu (length es + S fuel) (pre ++ image es) (blen pre) apply ge ap out =
  IoOk (Ended false, match es with [] => ge | _ => blen (pre ++ image es) end, ap + blen es, deliver apply (handed (frames es)) out).
Proof.
  induction es as [|e es IH]; intros fuel pre apply ge ap out F; cbn [length Nat.add good_run].
  - unfold image. cbn [fmap list_fmap concat]. rewrite app_nil_r, next_record_end. cbn [io_of mbind io_bind]. rewrite Z.ltb_irrefl. change (blen []) with 0. rewrite Z.add_0_r. cbn. unfold deliver. rewrite app_nil_r. by destruct apply.
  - apply list.Forall_cons in F as [Fe F]. destruct (frame_ok e Fe) as (Hs & Hl & _). destruct (frame_routes e Fe) as [Rb _]. rewrite image_cons, next_record_at by exact Hl. cbn [io_of mbind io_bind].
    assert (O : one_command (frame e) = Ret (Some (argv_from (entry_args e)))) by exact (one_command_frame _ Hs). rewrite O. cbn [io_of mbind io_bind].
    assert (Eb : blen pre + (RECORD_HEADER + blen (frame e)) = blen (pre ++ write_record cpu (frame e))) by (rewrite blen_app, write_record_blen; lia). rewrite Eb, app_assoc.
    assert (Go : forall out', good_run cpu (length es + S fuel) ((pre ++ write_record cpu (frame e)) ++ image es) (blen (pre ++ write_record cpu (frame e))) apply (blen (pre ++ write_record cpu (frame e))) (ap + 1) out' =
      IoOk (Ended false, blen ((pre ++ write_record cpu (frame e)) ++ image es), ap + blen (e :: es), deliver apply (handed (frames es)) out')).
    { intros out'. rewrite IH by exact F. rewrite blen_cons. do 2 f_equal. f_equal; [|lia]. f_equal. destruct es; [|done]. unfold image. cbn [fmap list_fmap concat]. by rewrite app_nil_r. }
    destruct apply; cbn [io_of mbind io_bind].
    + rewrite Rb. cbn [io_of mbind io_bind]. rewrite Go. unfold frames, deliver, handed. cbn [map concat]. destruct e; cbn [app map]; rewrite <- ?app_assoc; reflexivity.
    + rewrite Go. unfold deliver. reflexivity.
Qed.

(** The scan's answer is the first start there is. *)
Lemma resync_scan_found buf q g : 0 <= q <= g -> g < blen buf -> starts_command cpu buf g -> (forall j, q <= j < g -> ~ starts_command cpu buf j) ->
  resync_scan cpu (S (length buf)) buf q = Ret (Some g).
Proof.
  intros Hq Hg Hs Hno. destruct (resync_scan_ok cpu (S (length buf)) buf q ltac:(lia) ltac:(unfold blen; lia)) as ([g'|] & -> & Ho).
  - destruct Ho as (H1 & H2 & H3). destruct (Z.lt_trichotomy g g') as [L|[->|L]]; [by destruct (H3 g ltac:(lia))|done|by destruct (Hno g' ltac:(lia))].
  - by destruct (Ho g ltac:(lia)).
Qed.

Lemma scan_first buf q g : 0 <= q -> resync_scan cpu (S (length buf)) buf q = Ret (Some g) -> forall j, q <= j < g -> ~ starts_command cpu buf j.
Proof.
  intros Hq E. destruct (resync_scan_ok cpu (S (length buf)) buf q Hq ltac:(unfold blen; lia)) as (o & E' & Ho). rewrite E in E'. injection E' as <-. apply Ho.
Qed.

Lemma resync_slice_image junk es base apply out : Forall entry_ok es -> es <> [] -> 0 < blen junk -> (forall j, 1 <= j < blen junk -> ~ starts_command cpu (junk ++ image es) j) ->
  resync_slice cpu (junk ++ image es) base apply out = IoOk (blen (junk ++ image es), blen es, false, [(base, base + blen junk)], deliver apply (handed (frames es)) out).
Proof.
  intros F Ne Hj Hno. unfold resync_slice. cbn [resync_loop]. assert (St : starts_command cpu (junk ++ image es) (blen junk)).
  { destruct es as [|e es]; [done|]. apply list.Forall_cons in F as [Fe F]. destruct (frame_ok e Fe) as (Hs & Hl & _). rewrite image_cons.
    eexists _, _, _. split; [by apply next_record_at|by apply one_command_frame]. }
  rewrite (resync_scan_found _ 1 (blen junk)); [|lia| |exact St|exact Hno].
  2: { destruct es as [|e es]; [done|]. rewrite image_cons, !blen_app, write_record_blen. unfold RECORD_HEADER. pose proof (blen_nonneg (frame e)). pose proof (blen_nonneg (image es)). lia. }
  cbn [io_of mbind io_bind]. pose proof (records_fit es) as Rf. replace (S (length (junk ++ image es))) with (length es + S (length (junk ++ image es) - length es))%nat by (rewrite length_app; lia).
  rewrite good_run_image by exact F. cbn [io_of mbind io_bind app]. rewrite !Z.add_0_l, Z.add_0_r. by destruct es.
Qed.

Lemma damaged_blen e q : burst e q -> blen (damaged e q) = RECORD_HEADER + blen (frame e).
Proof. intros Hb. destruct (burst_sum e q Hb) as [L _]. unfold damaged, RECORD_HEADER. rewrite !blen_app, !to_le_bytes_blen. unfold blen. lia. Qed.

Lemma stream_resynced es e q es2 : Forall entry_ok es -> bracketed false es = true -> entry_ok e -> burst e q -> Forall entry_ok es2 -> es2 <> [] ->
  (forall j, 1 <= j < blen (damaged e q) -> ~ starts_command cpu (damaged e q ++ image es2) j) ->
  let start := blen (log es []) in
  stream_v2 cpu (Some (log es (damaged e q ++ image es2))) true true =
  IoOk (mkReport (commands_of es + blen es2) (blen (log es (damaged e q ++ image es2))) (blen (log es (damaged e q ++ image es2))) 0 0 true [(start, start + blen (damaged e q))], handed (committed es ++ frames es2)).
Proof.
  intros F B He Hb F2 Ne Hno start. unfold stream_v2. set (t := damaged e q ++ image es2). pose proof (log_blen es t) as L. pose proof (blen_nonneg (image es)). pose proof (blen_nonneg t). destruct (Z.ltb_spec (blen (log es t)) 9); [lia|].
  destruct (walk_to es t true F B) as (fuel & w & out & -> & [W1 W2 W3 W4 W5 W6 W7]). pose proof (walk_damaged fuel e q (image es2) false true w out He Hb) as Wd. fold t in Wd. rewrite Wd. cbn [mbind io_bind andb]. unfold resync_fallback.
  cbn [set_stop set_preview stop is_clean negb pos]. pose proof (log_blen es []) as Ls. fold start in Ls. change (blen []) with 0 in Ls. assert (Ep : pos w = start) by lia. rewrite Ep.
  replace (from (log es t) start) with t by (unfold start, log; rewrite app_nil_r, app_assoc; by rewrite from_app_len). assert (Dj : 0 < blen (damaged e q)) by (rewrite damaged_blen by done; unfold RECORD_HEADER; destruct (frame_ok e He) as (_ & Hl & _); lia).
  pose proof (resync_slice_image (damaged e q) es2 start true out F2 Ne Dj Hno) as Rs. fold t in Rs. rewrite Rs.
  cbn [mbind io_bind]. fold t. rewrite W7. cbn [set_pos set_stop add_replayed set_preview pos replayed zero_tail stop is_corrupt orb negb]. rewrite W2, W4, ?Ep. unfold saturating_sub. rewrite L. replace (start + blen t) with (9 + blen (image es) + blen t) by lia. rewrite Z.sub_diag. unfold handed. by rewrite map_app.
Qed.

End Image.

(** ** What the log promises *)

Section Promises.
Context (cpu : Cpu) `{Scan : CrlfScanner}.

(** C5: A crash costs a log only its end: cut a log of any entries after any byte
    past its magic, and for the number [k] of records still whole, replaying hands
    out exactly the commands those commit and reports no damage; reopening it,
    with or without the replay's length, leaves the settled records alone, and
    whatever is appended then replays after them. *)
Theorem log_survives_crash (es es2 : list entry) (n : nat) (F : Forall entry_ok es) (B : bracketed false es = true)
  (F2 : Forall entry_ok es2) (B2 : bracketed false es2 = true) :
  let data := take (9 + n) (AOF2_MAGIC ++ image cpu es) in
  exists k, (length (image cpu (take k es)) <= n)%nat /\ (forall j, (k < j <= length es)%nat -> (n < length (image cpu (take j es)))%nat) /\
  exists r, replay_with cpu (Some data) false = IoOk (r, handed (committed (take k es))) /\ corrupt r = false /\
  forall at_, at_ = None \/ at_ = Some (replayed_bytes r) ->
  exists q r2, prepare_file cpu (Some data) false at_ = IoOk (mkPrepared (log cpu (settled (take k es)) []) V2 q) /\
    replay_with cpu (Some (log cpu (settled (take k es)) [] ++ image cpu es2)) false = IoOk (r2, handed (committed (take k es) ++ committed es2)) /\ corrupt r2 = false.
Proof.
  intros data. destruct (cut_image cpu es n F) as (k & t & E & T & K1 & K2 & K3 & K4). exists k. split; [exact K3|]. split; [exact K4|].
  assert (Ed : data = log cpu (take k es) t) by (unfold data, log; rewrite take_app_ge by (cbn; lia); change (length AOF2_MAGIC) with 9%nat; rewrite <- E; f_equal; f_equal; lia).
  assert (Bk : bracketed false (take k es) = true) by (rewrite <- (take_drop k es) in B; by eapply bracketed_app_l).
  assert (Fk : Forall entry_ok (take k es)) by by apply list.Forall_take. rewrite Ed.
  destruct (replay_log cpu (take k es) t false Fk Bk T (or_introl eq_refl)) as (r & Er & Ec & Eb & _). exists r. split; [exact Er|]. split; [exact Ec|]. intros at_ Ha. rewrite Eb in Ha.
  destruct (prepare_log cpu (take k es) t at_ false Fk Bk T (or_introl eq_refl) Ha) as (q & Eq & _). destruct (replay_reopened cpu (take k es) es2 Fk Bk F2 B2) as (r2 & E2 & C2). by exists q, r2.
Qed.

(** A log a crash left longer, with zeros after its last record, replays
    whole, and reopening it sets nothing aside. *)
Theorem zeros_are_no_damage (es : list entry) (z : nat) (resync : bool) (F : Forall entry_ok es) (B : bracketed false es = true) :
  exists r, replay_with cpu (Some (log cpu es (replicate z x00))) resync = IoOk (r, handed (committed es)) /\ corrupt r = false /\ commands r = commands_of es /\
  (settled es = es -> dropped_bytes r = 0 /\ prepare_file cpu (Some (log cpu es (replicate z x00))) resync None = IoOk (mkPrepared (log cpu es []) V2 None)).
Proof.
  pose proof (all_zero_replicate z) as Z. destruct (stream_log cpu es (replicate z x00) true resync F B (torn_zeros cpu z) (or_intror Z)) as (r & Er & K1 & K2 & K3 & K4 & K5 & K6 & K7).
  exists r. unfold replay_with. rewrite log_v2. split; [exact Er|]. split; [exact K4|]. split; [exact K1|]. intros S. split.
  - rewrite K6, K2, K3, (K7 Z), S, !log_blen. change (blen []) with 0. pose proof (blen_nonneg (replicate z x00)). lia.
  - destruct (prepare_log cpu es (replicate z x00) None resync F B (torn_zeros cpu z) (or_intror Z) (or_introl eq_refl)) as (q & -> & Hq). by rewrite (Hq S Z), S.
Qed.

(** C6: Damage is told: change up to four neighbouring bytes of a command in the
    middle of a log, and replaying hands out what the records before it commit,
    says the log is corrupt, and reopening keeps those records and sets every
    byte after them aside. *)
Theorem log_tells_damage (es : list entry) (e : entry) (q more : list byte) (F : Forall entry_ok es) (B : bracketed false es = true) (He : entry_ok e) (Hb : burst e q) :
  let data := log cpu es (damaged cpu e q ++ more) in
  exists r, replay_with cpu (Some data) false = IoOk (r, handed (committed es)) /\ corrupt r = true /\
    exists aside, prepare_file cpu (Some data) false None = IoOk (mkPrepared (log cpu (settled es) []) V2 (Some aside)) /\ log cpu (settled es) [] ++ aside = data.
Proof.
  intros data. destruct (stream_damaged cpu es e q more true F B He Hb) as (r & Er & _ & Ec & _). destruct (stream_damaged cpu es e q more false F B He Hb) as (r' & Er' & Eb & _ & Ez).
  exists r. unfold replay_with, data. rewrite log_v2. split; [exact Er|]. split; [exact Ec|]. exists (from data (blen (log cpu (settled es) []))). fold data.
  pose proof (take_settled cpu es (damaged cpu e q ++ more) B) as Tk. fold data in Tk. assert (Lt : blen (log cpu (settled es) []) < blen data).
  { destruct (settled_prefix es B) as [l E]. unfold data. rewrite !log_blen, blen_app, damaged_blen by done. unfold RECORD_HEADER. rewrite E at 2. rewrite image_app, blen_app. change (blen []) with 0.
    pose proof (blen_nonneg (image cpu l)). pose proof (blen_nonneg (frame e)). pose proof (blen_nonneg more). lia. }
  split; [|rewrite <- Tk at 1; apply take_drop]. unfold prepare_file. change (default [] (Some data)) with data. pose proof (blen_nonneg (log cpu (settled es) [])). destruct (Z.eqb_spec (blen data) 0); [lia|].
  unfold settle_tail, repair_tail, valid_prefix_len_of_file. assert (V : sniff_format (Some data) = V2) by apply log_v2. rewrite !V. fold data in Er'. rewrite Er'. cbn [mbind io_bind]. rewrite Eb, Ez.
  destruct (Z.leb_spec (blen data) (blen (log cpu (settled es) []))); [lia|]. destruct (Z.eqb_spec (blen (log cpu (settled es) []) + 0) (blen data)); [lia|]. by rewrite Tk.
Qed.

(** Between transactions: no transaction is left open, and no bracket follows. *)
Definition closed (es : list entry) : Prop := snd (run es ([], None)) = None.
Definition plain (e : entry) : Prop := match e with TBegin | TCommit => False | _ => True end.

Lemma committed_plain es es2 : closed es -> Forall plain es2 -> committed (es ++ es2) = committed es ++ frames es2.
Proof.
  unfold closed, committed. rewrite run_app. destruct (run es ([], None)) as [cs held]. cbn [fst snd]. intros ->. intros F. revert cs.
  induction F as [|e es2 He F IH]; intros cs; [by rewrite app_nil_r|]. cbn [run fold_left] in *. fold (run es2) in *. destruct e as [args| | |i]; try done; unfold frames; cbn [step fst snd map concat entry_args].
  - fold (run es2 (cs ++ [args], None)). rewrite IH. by rewrite <- app_assoc.
  - fold (run es2 (cs, None)). by rewrite IH.
Qed.


End Promises.

(** ** Logs, in full *)

Module Demo.

#[export] Instance scan : CrlfScanner := scanner_on (X86_64 true).

Definition set_k : entry := Cmd [bs "SET"; bs "k"; bs "v"].
Definition del_k : entry := Cmd [bs "DEL"; bs "k"].
Definition es : list entry := [TBase 7; set_k; TBegin; del_k; TCommit].

(** Entries written out are within the limits. *)
Ltac entry_fits := split; [split; [discriminate|split; [by vm_compute|repeat constructor; by vm_compute]]|]; split; [by vm_compute|split; reflexivity].

Lemma set_k_ok : entry_ok set_k.
Proof. entry_fits. Qed.

Lemma del_k_ok : entry_ok del_k.
Proof. entry_fits. Qed.

Lemma es_ok : Forall entry_ok es.
Proof. repeat first [apply List.Forall_nil|apply List.Forall_cons]; first [exact I|exact set_k_ok|exact del_k_ok]. Qed.

Lemma del_ok : Forall entry_ok [del_k].
Proof. apply List.Forall_cons; [exact del_k_ok|apply List.Forall_nil]. Qed.

(** [SET k v] with one bit of the key's length changed. *)
Definition bad : list byte := bs "*3" ++ CRLF ++ bs "$3" ++ CRLF ++ bs "SET" ++ CRLF ++ bs "$3" ++ CRLF ++ bs "k" ++ CRLF ++ bs "$1" ++ CRLF ++ bs "v" ++ CRLF.

Lemma bad_burst : burst set_k bad.
Proof.
  exists (bs "*3" ++ CRLF ++ bs "$3" ++ CRLF ++ bs "SET" ++ CRLF ++ bs "$"), (bs "1"), (bs "3"), (CRLF ++ bs "k" ++ CRLF ++ bs "$1" ++ CRLF ++ bs "v" ++ CRLF). split; [vm_compute; reflexivity|]. split; [reflexivity|]. split; [reflexivity|]. split; [cbn; lia|discriminate].
Qed.

End Demo.

#[local] Existing Instance Demo.scan.

Lemma log_survives_crash_witness : exists k r, (length (image X86Sse42 (take k Demo.es)) <= 90)%nat /\
  replay_with X86Sse42 (Some (take (9 + 90) (AOF2_MAGIC ++ image X86Sse42 Demo.es))) false = IoOk (r, handed (committed (take k Demo.es))).
Proof.
  destruct (log_survives_crash X86Sse42 Demo.es [Demo.del_k] 90 Demo.es_ok eq_refl Demo.del_ok eq_refl) as (k & H1 & _ & r & H2 & _). exists k, r. exact (conj H1 H2).
Defined.

Lemma zeros_are_no_damage_witness : exists r, replay_with NoCrc (Some (log NoCrc Demo.es (replicate 4096 x00))) true = IoOk (r, handed (committed Demo.es)).
Proof. destruct (zeros_are_no_damage NoCrc Demo.es 4096 true Demo.es_ok eq_refl) as (r & H & _). exists r. exact H. Defined.

Lemma log_tells_damage_witness : exists r, replay_with NoCrc (Some (log NoCrc Demo.es (damaged NoCrc Demo.set_k Demo.bad ++ []))) false = IoOk (r, handed (committed Demo.es)) /\ corrupt r = true.
Proof.
  destruct (log_tells_damage NoCrc Demo.es Demo.set_k Demo.bad [] Demo.es_ok eq_refl Demo.set_k_ok Demo.bad_burst) as (r & H & H' & _). exists r. exact (conj H H').
Defined.


(** *** What resynchronising does besides *)

(** A value that is itself a record is found by the scan: after one bit of damage
    to the [SET] around it, the [FLUSHALL] a client stored is replayed. *)
Theorem resync_replays_payload :
  let value := write_record NoCrc (command_bytes [bs "FLUSHALL"]) in
  let e := Cmd [bs "SET"; bs "k"; value] in
  let q := command_bytes [bs "SET"; bs "j"; value] in
  burst e q /\ exists r, replay_with NoCrc (Some (log NoCrc [Demo.set_k] (damaged NoCrc e q))) true = IoOk (r, handed [[bs "SET"; bs "k"; bs "v"]; [bs "FLUSHALL"]]).
Proof.
  intros value e q. split.
  - exists (bs "*3" ++ CRLF ++ bs "$3" ++ CRLF ++ bs "SET" ++ CRLF ++ bs "$1" ++ CRLF), (bs "k"), (bs "j"), (CRLF ++ bulk_bytes value).
    split; [vm_compute; reflexivity|]. split; [vm_compute; reflexivity|]. split; [reflexivity|]. split; [cbn; lia|discriminate].
  - eexists. vm_compute. reflexivity.
Qed.

(** Past damage there are no transactions: the frames of one that never committed
    are handed out, and its marker with them. *)
Theorem resync_ignores_brackets :
  let es2 := [TBegin; Demo.del_k] in
  committed es2 = [] /\ exists r, replay_with NoCrc (Some (log NoCrc [] (damaged NoCrc Demo.set_k Demo.bad ++ image NoCrc es2))) true = IoOk (r, handed [[TXN_BEGIN]; [bs "DEL"; bs "k"]]).
Proof. intros es2. split; [reflexivity|]. eexists. vm_compute. reflexivity. Qed.

(** A record longer than a reader takes ends the log: it is written all the same,
    and neither it nor anything after it is replayed. *)
Theorem oversized_record_ends_log (cpu : Cpu) `{Scan : CrlfScanner} (es : list entry) (args : cmd) (more : list byte) :
  Forall entry_ok es -> bracketed false es = true -> MAX_RECORD < blen (command_bytes args) < 2 ^ 32 ->
  exists r, replay_with cpu (Some (log cpu es (write_record cpu (command_bytes args) ++ more))) false = IoOk (r, handed (committed es)) /\ corrupt r = true.
Proof.
  intros F B H. set (p := command_bytes args) in *. set (t := write_record cpu p ++ more). unfold replay_with. rewrite log_v2. unfold stream_v2.
  pose proof (log_blen cpu es t) as L. pose proof (blen_nonneg (image cpu es)). pose proof (blen_nonneg t). destruct (Z.ltb_spec (blen (log cpu es t)) 9); [lia|].
  destruct (walk_to cpu es t true F B) as (fuel & w & out & -> & [W1 W2 W3 W4 W5 W6 W7]).
  set (h := to_le_bytes 4 (blen p) ++ to_le_bytes 4 (persist_crc32c cpu p)). assert (Lh : blen h = 8) by (unfold h; rewrite blen_app, !to_le_bytes_blen; lia).
  assert (Et : t = h ++ p ++ more) by (unfold t, h, write_record; by rewrite <- !app_assoc). pose proof (sum_u32 cpu p) as Hc. unfold MAX_RECORD in H.
  destruct (header_fields (blen p) (persist_crc32c cpu p) [] ltac:(lia) Hc) as (E1 & E2 & _). rewrite app_nil_r in E1, E2. fold h in E1, E2.
  cbn [walk_loop]. unfold next_header. pose proof (read_fully_app h (p ++ more) false) as R. rewrite Lh, <- Et in R. rewrite R. cbn [mbind io_bind]. rewrite Lh, E1, E2. cbn [Z.eqb Z.ltb Z.compare Pos.compare Pos.compare_cont andb].
  unfold MAX_RECORD. destruct (Z.eqb_spec (blen p) 0), (Z.ltb_spec (2 ^ 30) (blen p)); try lia. cbn [andb orb mbind io_bind]. eexists. by rewrite W7.
Qed.

(** A log whose magic was cut short is reopened empty, and goes on without
    checksums. *)
Theorem torn_magic_loses_checksums : prepare_file NoCrc (Some (take 5 AOF2_MAGIC)) false None = IoOk (mkPrepared [] V1 (Some (take 5 AOF2_MAGIC))).
Proof. vm_compute. reflexivity. Qed.
