(* ===== verification/Vlog.v ===== *)
(** * The value log ([crates/kevy-vlog/src/{lib,record,accounting,stats,compact}.rs])

    An append-only spill area in numbered files, each record a header, a
    checksum, a key and a kevy-compress frame under the file's own dictionary.
    This file is the model: the log, the directory it lives in, shared file
    handles with their drop, and compaction through the owner's callbacks.  Every
    system call can fail: what the next calls do is part of the world. *)

From Stdlib Require Import ZArith Lia Bool Strings.Byte Strings.String.
From stdpp Require Import base tactics list numbers gmap.
From S2P Require Import Prelude FindCrlf Buffers Encode Huff Lz Compress Crc32c.

#[local] Open Scope list_scope.
#[local] Open Scope Z_scope.

(** ** Results

    [Crash] is a panic, an overflow of a counter included; [Diverge] is a loop
    that outlives its fuel. *)

Inductive VlogError :=
| Os
| TooLarge (n : Z)
| ShortBody
| KeyOverrun
| ImageLength (want got : Z)
| LengthMismatch (ref disk : Z)
| CrcMismatch (file_id offset : Z)
| FileGone (file_id : Z)
| AbsurdLength (body_len : Z)
| BadFrame (file_id : Z).

Inductive res (A : Type) :=
| Ok (a : A)
| Err (e : VlogError)
| Crash
| Diverge.
Arguments Ok {A} a.
Arguments Err {A} e.
Arguments Crash {A}.
Arguments Diverge {A}.

#[global] Instance res_ret : MRet res := @Ok.
#[global] Instance res_bind : MBind res := fun A B f m =>
  match m with Ok a => f a | Err e => Err e | Crash => Crash | Diverge => Diverge end.

(** A computation on a state, which keeps what it did before it failed. *)
Definition prog (S A : Type) : Type := S -> res A * S.

#[global] Instance prog_ret {S} : MRet (prog S) := fun A a s => (Ok a, s).
#[global] Instance prog_bind {S} : MBind (prog S) := fun A B f m s =>
  match m s with
  | (Ok a, s') => f a s'
  | (Err e, s') => (Err e, s')
  | (Crash, s') => (Crash, s')
  | (Diverge, s') => (Diverge, s')
  end.

Definition throw {S A} (e : VlogError) : prog S A := fun s => (Err e, s).
Definition crash {S A} : prog S A := fun s => (Crash, s).
Definition diverge {S A} : prog S A := fun s => (Diverge, s).
Definition gets {S A} (f : S -> A) : prog S A := fun s => (Ok (f s), s).
Definition modify {S} (f : S -> S) : prog S unit := fun s => (Ok tt, f s).
Definition lift {S A} (r : res A) : prog S A := fun s => (r, s).

(** A computation of kevy-compress. *)
Definition run {S A} (m : exec A) : prog S A := match m with Ret a => mret a | Panic => crash end.

(** ** Records ([record.rs], [lib.rs]) *)

Definition DEFAULT_ROTATE_BYTES : Z := 256 * 2 ^ 20.
Definition HEADER : Z := 8.
Definition MAX_BODY : Z := 2 ^ 30.
Definition SAMPLE_BUDGET : Z := 256 * 2 ^ 10.

Record VlogRef := mkRef { file_id : Z; offset : Z; len : Z }.

#[global] Instance VlogRef_eq_dec : EqDecision VlogRef.
Proof. solve_decision. Defined.

Definition disk_len (r : VlogRef) : Z := HEADER + len r.

Definition split_body (body : list byte) : res (list byte * list byte) :=
  if blen body <? 4 then Err ShortBody
  else
    let key_len := from_le_bytes (slice body 0 4) in
    if blen body <? 4 + key_len then Err KeyOverrun
    else Ok (slice body 4 (4 + key_len), from body (4 + key_len)).

Definition verify_image (cpu : Cpu) (r : VlogRef) (image : list byte) : res (list byte * list byte) :=
  if negb (blen image =? disk_len r) then Err (ImageLength (disk_len r) (blen image))
  else
    let body_len := from_le_bytes (slice image 0 4) in
    let crc := from_le_bytes (slice image 4 8) in
    if negb (body_len =? len r) || (MAX_BODY <? body_len) then Err (LengthMismatch (len r) body_len)
    else if negb (crc32c cpu (from image HEADER) =? crc) then Err (CrcMismatch (file_id r) (offset r))
    else split_body (from image HEADER).

(** The body and the record [append_level] writes for a key and a frame. *)
Definition record_body (key frame : list byte) : list byte := to_le_bytes 4 (blen key) ++ key ++ frame.

Definition record_image (cpu : Cpu) (key frame : list byte) : list byte :=
  let body := record_body key frame in
  to_le_bytes 4 (blen body) ++ to_le_bytes 4 (crc32c cpu body) ++ body.

(** ** Accounting ([accounting.rs], [stats.rs]) *)

Record CompressionStats := mkComp {
  raw_bytes : Z;
  payload_bytes : Z;
  frame_header_bytes : Z;
  dict_bytes : Z
}.

Definition comp_default : CompressionStats := mkComp 0 0 0 0.

(** [usize::BITS - n.leading_zeros()] is the number of significant bits. *)
Definition leb128_len (n : Z) : Z :=
  let bits := if n =? 0 then 0 else Z.log2 n + 1 in
  Z.max ((bits + 6) / 7) 1.

Definition add_record (self : CompressionStats) (raw_len frame_len : Z) : exec CompressionStats :=
  let header := 1 + leb128_len raw_len in
  payload ← sub_usize frame_len header;
  Ret (mkComp (raw_bytes self + raw_len) (payload_bytes self + payload) (frame_header_bytes self + header) (dict_bytes self)).

Definition comp_sum (a b : CompressionStats) : CompressionStats :=
  mkComp (raw_bytes a + raw_bytes b) (payload_bytes a + payload_bytes b)
    (frame_header_bytes a + frame_header_bytes b) (dict_bytes a + dict_bytes b).

Record VlogStats := mkStats { st_files : Z; st_bytes : Z; st_live_bytes : Z; st_epoch : Z }.

(** ** The log *)

(** An [Arc<VlogFile>]: the path is [file_name id], the open file is inode [id],
    and [delete_on_drop] is membership in the world's retired set. *)
Record VlogFile := mkFile { vf_id : Z; vf_parsed : Dict }.

Record FileState := mkState {
  handle : VlogFile;
  bytes : Z;
  live : Z;
  compression : CompressionStats
}.

Record CompactCursor := mkCursor {
  c_handle : VlogFile;
  c_file_id : Z;
  c_bytes : Z;
  c_offset : Z
}.

Record Vlog := mkVlog {
  rotate_bytes : Z;
  files : list FileState;
  next_id : Z;
  epoch : Z;
  compaction : option CompactCursor;
  samples : list (list byte);
  sample_bytes : Z
}.

(** ** The world *)

(** What one system call does: succeed, or fail (a write, after [n] bytes). *)
Inductive IoOutcome := IoOk | IoFail (n : Z).

Record World := mkWorld {
  log : Vlog;
  names : gset (list byte);       (** the directory *)
  inodes : gmap Z (list byte);    (** contents behind open handles, by file id *)
  arcs : gmap Z Z;                (** strong counts of the handles *)
  retired : gset Z;               (** [delete_on_drop] *)
  outcomes : list IoOutcome       (** the calls to come; past the end they succeed *)
}.

Definition with_log (f : Vlog -> Vlog) (w : World) : World :=
  mkWorld (f (log w)) (names w) (inodes w) (arcs w) (retired w) (outcomes w).
Definition with_names (f : gset (list byte) -> gset (list byte)) (w : World) : World :=
  mkWorld (log w) (f (names w)) (inodes w) (arcs w) (retired w) (outcomes w).
Definition with_inodes (f : gmap Z (list byte) -> gmap Z (list byte)) (w : World) : World :=
  mkWorld (log w) (names w) (f (inodes w)) (arcs w) (retired w) (outcomes w).
Definition with_arcs (f : gmap Z Z -> gmap Z Z) (w : World) : World :=
  mkWorld (log w) (names w) (inodes w) (f (arcs w)) (retired w) (outcomes w).
Definition with_retired (f : gset Z -> gset Z) (w : World) : World :=
  mkWorld (log w) (names w) (inodes w) (arcs w) (f (retired w)) (outcomes w).
Definition with_outcomes (f : list IoOutcome -> list IoOutcome) (w : World) : World :=
  mkWorld (log w) (names w) (inodes w) (arcs w) (retired w) (f (outcomes w)).

Definition set_files (fs : list FileState) (v : Vlog) : Vlog :=
  mkVlog (rotate_bytes v) fs (next_id v) (epoch v) (compaction v) (samples v) (sample_bytes v).
Definition set_next_id (n : Z) (v : Vlog) : Vlog :=
  mkVlog (rotate_bytes v) (files v) n (epoch v) (compaction v) (samples v) (sample_bytes v).
Definition set_epoch (e : Z) (v : Vlog) : Vlog :=
  mkVlog (rotate_bytes v) (files v) (next_id v) e (compaction v) (samples v) (sample_bytes v).
Definition set_compaction (c : option CompactCursor) (v : Vlog) : Vlog :=
  mkVlog (rotate_bytes v) (files v) (next_id v) (epoch v) c (samples v) (sample_bytes v).
Definition set_samples (s : list (list byte)) (n : Z) (v : Vlog) : Vlog :=
  mkVlog (rotate_bytes v) (files v) (next_id v) (epoch v) (compaction v) s n.

(** The outcome of the next system call. *)
Definition syscall : prog World IoOutcome := fun w =>
  match outcomes w with
  | [] => (Ok IoOk, w)
  | o :: rest => (Ok o, with_outcomes (fun _ => rest) w)
  end.

(** A call that either happens or gives its error. *)
Definition attempt : prog World unit :=
  o ← syscall; match o with IoOk => mret tt | IoFail _ => throw Os end.

(** [let _ = fs::remove_file(path)] *)
Definition remove_file (name : list byte) : prog World unit :=
  o ← syscall;
  match o with IoOk => modify (with_names (.∖ {[name]})) | IoFail _ => mret tt end.

(** [format!("vlog-{id:08}.dat")] *)
Definition pad8 (digits : list byte) : list byte := replicate (8 - length digits) "0"%byte ++ digits.
Definition file_name (id : Z) : list byte := bs "vlog-" ++ pad8 (dec id) ++ bs ".dat".

Definition content_of (w : World) (id : Z) : list byte := default [] (inodes w !! id).

(** [pwrite] of [data] at [at_off]: a hole before it reads as zeros. *)
Definition overwrite (content : list byte) (at_off : Z) (data : list byte) : list byte :=
  let n := Z.to_nat at_off in
  take n content ++ replicate (n - length content) x00 ++ data ++ drop (n + length data) content.

Definition write_all_at (id : Z) (data : list byte) (at_off : Z) : prog World unit :=
  o ← syscall;
  match o with
  | IoOk => modify (fun w => with_inodes (insert id (overwrite (content_of w id) at_off data)) w)
  | IoFail n =>
      _ ← modify (fun w => with_inodes (insert id (overwrite (content_of w id) at_off (take (Z.to_nat n) data))) w);
      throw Os
  end.

(** [read_exact_at]: fails at the end of the file. *)
Definition pread (content : list byte) (at_off n : Z) : res (list byte) :=
  if blen content <? at_off + n then Err Os else Ok (slice content at_off (at_off + n)).

Definition read_exact_at (id at_off n : Z) : prog World (list byte) :=
  _ ← attempt;
  content ← gets (fun w => content_of w id);
  lift (pread content at_off n).

(** ** Handles *)

Definition arc_clone (id : Z) : prog World unit :=
  modify (with_arcs (fun m => <[id := default 0 (m !! id) + 1]> m)).

(** Dropping an [Arc]; the last one runs [Drop for VlogFile]. *)
Definition arc_drop (id : Z) : prog World unit :=
  n ← gets (fun w => default 0 (arcs w !! id));
  if n <=? 1 then
    _ ← modify (with_arcs (delete id));
    dead ← gets (fun w => bool_decide (id ∈ retired w));
    if dead : bool then remove_file (file_name id) else mret tt
  else modify (with_arcs (<[id := n - 1]>)).

Section Log.
Context (cpu : Cpu).

(** ** Reading *)

Definition of_decoding {A} (f : Z) (d : decoding A) : res A :=
  match d with Decoded a => Ok a | DecodeError => Err (BadFrame f) | Crashed => Crash end.

Definition decompress (f : VlogFile) (frame : list byte) : res (list byte) :=
  of_decoding (vf_id f) (dict_decode (vf_parsed f) frame).

Definition read_image (f : VlogFile) (r : VlogRef) : prog World (list byte) :=
  read_exact_at (vf_id f) (offset r) (disk_len r).

Definition file_read (f : VlogFile) (r : VlogRef) : prog World (list byte * list byte) :=
  image ← read_image f r;
  kf ← lift (verify_image cpu r image);
  let '(key, frame) := kf : list byte * list byte in
  payload ← lift (decompress f frame);
  mret (key, payload).

Definition find_file (v : Vlog) (id : Z) : option FileState :=
  snd <$> list_find (fun s => vf_id (handle s) = id) (files v).

Definition read (r : VlogRef) : prog World (list byte * list byte) :=
  v ← gets log;
  match find_file v (file_id r) with
  | Some s => file_read (handle s) r
  | None => throw (FileGone (file_id r))
  end.

(** ** Appending *)

Definition open_next_file (dict : list byte) : prog World unit :=
  v ← gets log;
  let compression := mkComp 0 0 0 (blen dict) in
  let id := next_id v in
  _ ← (if id + 1 <? 2 ^ 32 then modify (with_log (set_next_id (id + 1))) else crash);
  _ ← attempt;
  there ← gets (fun w => bool_decide (file_name id ∈ names w));
  if there : bool then throw Os
  else
    _ ← modify (with_names ({[file_name id]} ∪.));
    _ ← modify (with_inodes (insert id []));
    parsed ← run (dict_new dict);
    _ ← modify (with_arcs (insert id 1));
    modify (with_log (fun v => set_files (files v ++ [mkState (mkFile id parsed) 0 0 compression]) v)).

Definition rotate : prog World unit :=
  v ← gets log;
  dict ← run (train (samples v) MAX_OFFSET);
  _ ← modify (with_log (set_samples [] 0));
  open_next_file dict.

(** [self.files.last().expect("active file")] *)
Definition active : prog World FileState :=
  v ← gets log;
  match last (files v) with Some s => mret s | None => crash end.

(** Sampling stops once the budget is full. *)
Definition sample (payload : list byte) (v : Vlog) : Vlog :=
  if (sample_bytes v <? SAMPLE_BUDGET) && negb (bool_decide (payload = []))
  then set_samples (samples v ++ [payload]) (sample_bytes v + blen payload) v
  else v.

Definition replace_last (s : FileState) (v : Vlog) : Vlog := set_files (removelast (files v) ++ [s]) v.

(** [append_level] after the rotation and the sampling: encode under the active
    file's dictionary, write, count. *)
Definition store_record (key payload : list byte) (high : bool) : prog World VlogRef :=
  a ← active;
  frame ← run (if high then dict_encode_high (vf_parsed (handle a)) payload else dict_encode (vf_parsed (handle a)) payload);
  let record := record_image cpu key frame in
  let off := bytes a in
  _ ← write_all_at (vf_id (handle a)) record off;
  if u64_max <? off + blen record then crash
  else
    comp ← run (add_record (compression a) (blen payload) (blen frame));
    _ ← modify (with_log (replace_last (mkState (handle a) (off + blen record) (live a + blen record) comp)));
    mret (mkRef (vf_id (handle a)) off (blen (record_body key frame))).

Definition append_level (key payload : list byte) (high : bool) : prog World VlogRef :=
  if MAX_BODY <? 4 + blen key + blen payload then throw (TooLarge (4 + blen key + blen payload))
  else
    a ← active;
    v ← gets log;
    _ ← (if rotate_bytes v <=? bytes a then rotate else mret tt);
    _ ← modify (with_log (sample payload));
    store_record key payload high.

Definition append (key payload : list byte) : prog World VlogRef := append_level key payload false.
Definition append_high (key payload : list byte) : prog World VlogRef := append_level key payload true.

(** ** Opening *)

Fixpoint sweep (entries : list (list byte)) : prog World unit :=
  match entries with
  | [] => mret tt
  | name :: rest =>
      _ ← attempt;
      _ ← (if bool_decide (take 5 name = bs "vlog-") then remove_file name else mret tt);
      sweep rest
  end.

Definition open (rotate_bytes : Z) : prog World unit :=
  _ ← attempt;
  _ ← attempt;
  entries ← gets (fun w => elements (names w));
  _ ← sweep entries;
  _ ← modify (with_log (fun _ => mkVlog (Z.max rotate_bytes 1) [] 0 0 None [] 0));
  open_next_file [].

(** ** Pins and accounting *)

Definition pin (id : Z) : prog World (option VlogFile) :=
  v ← gets log;
  match find_file v id with
  | Some s => _ ← arc_clone id; mret (Some (handle s))
  | None => mret None
  end.

Fixpoint clone_all (fs : list FileState) : prog World unit :=
  match fs with [] => mret tt | s :: rest => _ ← arc_clone (vf_id (handle s)); clone_all rest end.

Definition pin_all : prog World (list VlogFile) :=
  v ← gets log;
  _ ← clone_all (files v);
  mret (handle <$> files v).

Definition kill (n : Z) (s : FileState) : FileState :=
  mkState (handle s) (bytes s) (Z.max 0 (live s - n)) (compression s).

(** [state_of]: the first file with the id. *)
Definition note_dead (r : VlogRef) : prog World unit :=
  modify (with_log (fun v =>
    match list_find (fun s => vf_id (handle s) = file_id r) (files v) with
    | Some (i, s) => set_files (<[i := kill (HEADER + len r) s]> (files v)) v
    | None => v
    end)).

Definition mark_all_dead : prog World unit :=
  modify (with_log (fun v => set_files ((fun s => mkState (handle s) (bytes s) 0 (compression s)) <$> files v) v)).

Definition sum_of (f : FileState -> Z) (fs : list FileState) : Z := foldr Z.add 0 (f <$> fs).

Definition stats (v : Vlog) : VlogStats :=
  mkStats (blen (files v)) (sum_of bytes (files v)) (sum_of live (files v)) (epoch v).

Definition compression_of (v : Vlog) : CompressionStats :=
  fold_left (fun a s => comp_sum a (compression s)) (files v) comp_default.

(** ** Compaction ([compact.rs]) *)

Definition sat_mul (a b : Z) : Z := Z.min (a * b) u64_max.

(** [files[..sealed]]: all but the active file. *)
Definition sealed (v : Vlog) : list FileState := take (length (files v) - 1) (files v).

Definition below (live_pct : Z) (s : FileState) : bool := sat_mul (live s) 100 <? sat_mul (bytes s) live_pct.

Definition compaction_pending (live_pct : Z) (v : Vlog) : bool :=
  match compaction v with
  | Some _ => true
  | None => existsb (fun s => (0 <? bytes s) && below live_pct s) (sealed v)
  end.

(** [files.remove(pos)] of the first file with the id, retired; the log's own
    handle is dropped. *)
Definition retire (id : Z) : prog World bool :=
  v ← gets log;
  match list_find (fun s => vf_id (handle s) = id) (files v) with
  | Some (i, _) =>
      _ ← modify (with_log (fun v => set_files (delete i (files v)) v));
      _ ← modify (with_retired ({[id]} ∪.));
      _ ← arc_drop id;
      mret true
  | None => mret false
  end.

Definition bump_epoch : prog World unit :=
  v ← gets log;
  if epoch v + 1 <=? u64_max then modify (with_log (set_epoch (epoch v + 1))) else crash.

Fixpoint drop_dead (ids : list Z) : prog World unit :=
  match ids with
  | [] => mret tt
  | id :: rest =>
      there ← retire id;
      _ ← (if there : bool then bump_epoch else mret tt);
      drop_dead rest
  end.

Definition is_dead (id_below : Z) (s : FileState) : bool :=
  (0 <? bytes s) && (live s =? 0) && (vf_id (handle s) <? id_below).

Definition is_victim (live_pct id_below : Z) (s : FileState) : bool :=
  (vf_id (handle s) <? id_below) && (0 <? live s) && below live_pct s.

Definition begin_compaction (live_pct id_below : Z) : prog World bool :=
  v ← gets log;
  _ ← drop_dead ((fun s => vf_id (handle s)) <$> filter (is_dead id_below) (sealed v));
  v ← gets log;
  match list_find (is_victim live_pct id_below) (sealed v) with
  | None => mret false
  | Some (_, s) =>
      _ ← arc_clone (vf_id (handle s));
      _ ← modify (with_log (set_compaction (Some (mkCursor (handle s) (vf_id (handle s)) (bytes s) 0))));
      mret true
  end.

(** [read_record]: the header, then the record it announces. *)
Definition read_record (f : VlogFile) (off : Z) : prog World (list byte * list byte * Z) :=
  header ← read_exact_at (vf_id f) off HEADER;
  let body_len := from_le_bytes (slice header 0 4) in
  if MAX_BODY <? body_len then throw (AbsurdLength body_len)
  else
    kp ← file_read f (mkRef (vf_id f) off body_len);
    mret (kp, body_len).

End Log.

(** The owner's callbacks; [moved] may panic. *)
Class CompactOwner (Own : Type) := {
  is_live : list byte -> VlogRef -> Own -> bool * Own;
  moved : list byte -> VlogRef -> VlogRef -> Own -> exec Own
}.

Section Compact.
Context (cpu : Cpu) {Own : Type} `{!CompactOwner Own}.

Definition on_log {A} (m : prog World A) : prog (Own * World) A := fun s =>
  let '(o, w) := s in let '(r, w') := m w in (r, (o, w')).

Definition ask (key : list byte) (old : VlogRef) : prog (Own * World) bool := fun s =>
  let '(o, w) := s in let '(b, o') := is_live key old o in (Ok b, (o', w)).

Definition tell (key : list byte) (old new : VlogRef) : prog (Own * World) unit := fun s =>
  let '(o, w) := s in
  match moved key old new o with Ret o' => (Ok tt, (o', w)) | Panic => (Crash, (o, w)) end.

(** The body of the loop: one record of the victim; its length on disk. *)
Definition move_one (f : VlogFile) (id off : Z) : prog (Own * World) Z :=
  kpl ← on_log (read_record cpu f off);
  let '(key, payload, body_len) := kpl : list byte * list byte * Z in
  let old := mkRef id off body_len in
  alive ← ask key old;
  _ ← (if alive : bool then new ← on_log (append_high cpu key payload); tell key old new else mret tt);
  mret (HEADER + body_len).

(** [while cur.offset < cur.bytes && done < budget] *)
Fixpoint drain (fuel : nat) (cur : CompactCursor) (done budget : Z) : prog (Own * World) (CompactCursor * Z) :=
  if (c_offset cur <? c_bytes cur) && (done <? budget) then
    match fuel with
    | O => diverge
    | S fuel =>
        n ← move_one (c_handle cur) (c_file_id cur) (c_offset cur);
        drain fuel (mkCursor (c_handle cur) (c_file_id cur) (c_bytes cur) (c_offset cur + n)) (done + 1) budget
    end
  else mret (cur, done).

(** Leaving with [?] drops the cursor's handle. *)
Definition dropping {A} (id : Z) (m : prog (Own * World) A) : prog (Own * World) A := fun s =>
  match m s with
  | (Err e, s') => (_ ← on_log (arc_drop id); throw e) s'
  | r => r
  end.

(** The part of a step after a victim is armed: the cursor is taken out of the
    log, and either retires its file or goes back. *)
Definition drain_victim (cur : CompactCursor) (budget : Z) : prog (Own * World) Z :=
  _ ← on_log (modify (with_log (set_compaction None)));
  r ← dropping (vf_id (c_handle cur)) (drain (Z.to_nat (c_bytes cur)) cur 0 budget);
  let '(cur, done) := r : CompactCursor * Z in
  if c_bytes cur <=? c_offset cur then
    _ ← on_log (retire (c_file_id cur));
    _ ← on_log bump_epoch;
    _ ← on_log (arc_drop (vf_id (c_handle cur)));
    mret done
  else
    _ ← on_log (modify (with_log (set_compaction (Some cur))));
    mret done.

Definition compact_step_capped (live_pct budget id_below : Z) : prog (Own * World) Z :=
  v ← on_log (gets log);
  armed ← match compaction v with Some _ => mret true | None => on_log (begin_compaction live_pct id_below) end;
  if negb (armed : bool) then mret 0
  else
    v ← on_log (gets log);
    match compaction v with
    | None => crash
    | Some cur => drain_victim cur budget
    end.

Definition compact_step (live_pct budget : Z) : prog (Own * World) Z := compact_step_capped live_pct budget (2 ^ 32 - 1).

(** [while self.compact_step_capped(..)? > 0 {}] *)
Fixpoint drain_all (fuel : nat) (live_pct ceiling : Z) : prog (Own * World) unit :=
  match fuel with
  | O => diverge
  | S fuel =>
      n ← compact_step_capped live_pct u64_max ceiling;
      if 0 <? n then drain_all fuel live_pct ceiling else mret tt
  end.

Definition compact_below (live_pct : Z) : prog (Own * World) Z :=
  v ← on_log (gets log);
  _ ← drain_all (S (length (files v))) live_pct (next_id v);
  v' ← on_log (gets log);
  mret (epoch v' - epoch v).

End Compact.
