(* ===== verification/VlogSpec.v ===== *)
(** * The value log's invariant, and appending

    Every file of the log is the history of its records: their images back to
    back, each decoding under the file's dictionary to the key and value that
    were appended.  Histories only grow, whatever system calls fail.  The
    invariant also counts the holders of every file: the log, the cursor, and
    the readers' pins. *)

From Stdlib Require Import ZArith Lia Bool Sorted Strings.Byte Strings.String.
From stdpp Require Import base tactics list numbers gmap.
From S2P Require Import Prelude FindCrlf Buffers Encode Huff Lz Compress Crc32c Vlog.

#[local] Open Scope list_scope.
#[local] Open Scope Z_scope.

(** ** Records *)

Lemma record_body_blen key frame : blen (record_body key frame) = 4 + blen key + blen frame.
Proof. unfold record_body. rewrite !blen_app, to_le_bytes_blen. lia. Qed.

Lemma record_image_blen cpu key frame : blen (record_image cpu key frame) = HEADER + blen (record_body key frame).
Proof. unfold record_image, HEADER. rewrite !blen_app, !to_le_bytes_blen. lia. Qed.

Lemma split_record_body key frame : blen key < 2 ^ 32 -> split_body (record_body key frame) = Ok (key, frame).
Proof.
  intros Hk. unfold split_body. rewrite record_body_blen. pose proof (blen_nonneg key). pose proof (blen_nonneg frame).
  destruct (Z.ltb_spec (4 + blen key + blen frame) 4); [lia|]. 
  assert (E1 : from_le_bytes (slice (record_body key frame) 0 4) = blen key) by (apply le32_head; lia). rewrite E1.
  destruct (Z.ltb_spec (4 + blen key + blen frame) (4 + blen key)); [lia|]. f_equal. f_equal.
  - pose proof (slice_slice_from (record_body key frame) 4 0 (blen key) ltac:(lia) ltac:(lia)) as E.
    rewrite Z.add_0_r in E. rewrite <- E. unfold record_body. rewrite le32_rest. apply slice_from_app.
  - rewrite <- from_from by lia. unfold record_body. rewrite le32_rest. apply from_app_len.
Qed.

Lemma verify_record cpu r key frame : len r = blen (record_body key frame) -> len r < 2 ^ 32 ->
  verify_image cpu r (record_image cpu key frame) =
  if MAX_BODY <? len r then Err (LengthMismatch (len r) (len r)) else Ok (key, frame).
Proof.
  intros Hl Hr. unfold verify_image. rewrite record_image_blen, <- Hl. unfold disk_len. rewrite Z.eqb_refl. cbn [negb].
  pose proof (blen_nonneg (record_body key frame)). pose proof (crc32c_u32 cpu (record_body key frame)) as Hc.
  assert (E1 : from_le_bytes (slice (record_image cpu key frame) 0 4) = len r).
  { unfold record_image. rewrite <- Hl. apply le32_head. lia. }
  assert (E2 : from_le_bytes (slice (record_image cpu key frame) 4 8) = crc32c cpu (record_body key frame)).
  { pose proof (slice_slice_from (record_image cpu key frame) 4 0 4 ltac:(lia) ltac:(lia)) as E. change (4 + 0) with 4 in E.
    change (4 + 4) with 8 in E. rewrite <- E. unfold record_image. rewrite le32_rest. by apply le32_head. }
  assert (E3 : from (record_image cpu key frame) HEADER = record_body key frame).
  { unfold HEADER. change 8 with (4 + 4). rewrite <- from_from by lia. unfold record_image. by rewrite !le32_rest. }
  rewrite E1, E2, E3, !Z.eqb_refl. cbn [negb orb]. destruct (MAX_BODY <? len r); [done|]. apply split_record_body.
  rewrite record_body_blen in Hl. pose proof (blen_nonneg frame). lia.
Qed.

(** The bytes a varint takes. *)
Lemma leb128_len_ok n : 0 <= n < 2 ^ 64 -> leb128_len n = blen (push_varint n).
Proof.
  intros Hn. unfold push_varint. rewrite Z.mod_small by lia.
  assert (G : forall fuel v, 0 <= v < 2 ^ (7 * Z.of_nat fuel) -> (0 < fuel)%nat -> leb128_len v = blen (varint_bytes fuel v)).
  { clear. induction fuel as [|fuel IH]; intros v Hv Hf; [lia|]. cbn [varint_bytes]. rewrite Z.shiftr_div_pow2 by lia.
    change (2 ^ 7) with 128. destruct (Z.eqb_spec (v / 128) 0) as [E|E].
    - assert (v < 128) by (apply Z.div_small_iff in E; lia). unfold leb128_len. change (blen [zb (Z.land v 0x7f)]) with 1.
      destruct (Z.eqb_spec v 0); [done|]. assert (Z.log2 v < 7) by (apply Z.log2_lt_pow2; lia).
      pose proof (Z.log2_nonneg v). assert ((Z.log2 v + 1 + 6) / 7 < 2) by (apply Z.div_lt_upper_bound; lia). lia.
    - assert (0 < v / 128) by (pose proof (Z.div_pos v 128); lia). destruct fuel as [|fuel]; [|].
      { exfalso. apply E. apply Z.div_small. exact Hv. }
      rewrite blen_cons, <- IH; [|split; [lia|]|lia].
      + unfold leb128_len. destruct (Z.eqb_spec v 0); [subst; done|]. destruct (Z.eqb_spec (v / 128) 0); [done|].
        assert (L : Z.log2 v = Z.log2 (v / 128) + 7).
        { change 128 with (2 ^ 7) at 1. rewrite <- Z.shiftr_div_pow2, Z.log2_shiftr by lia.
          assert (7 <= Z.log2 v); [|lia]. apply Z.log2_le_pow2; [lia|]. change (2 ^ 7) with 128.
          destruct (Z.lt_ge_cases v 128); [exfalso; apply E, Z.div_small; lia|lia]. }
        rewrite L. pose proof (Z.log2_nonneg (v / 128)).
        replace (Z.log2 (v / 128) + 7 + 1 + 6) with (Z.log2 (v / 128) + 1 + 6 + 1 * 7) by lia. rewrite Z.div_add by lia.
        pose proof (Z.div_pos (Z.log2 (v / 128) + 1 + 6) 7). assert (1 <= (Z.log2 (v / 128) + 1 + 6) / 7) by (apply Z.div_le_lower_bound; lia). lia.
      + apply Z.div_lt_upper_bound; [lia|]. replace (7 * Z.of_nat (S (S fuel))) with (7 + 7 * Z.of_nat (S fuel)) in Hv by lia.
        rewrite Z.pow_add_r in Hv by lia. lia. }
  apply G; [|lia]. split; [lia|]. apply (Z.lt_le_trans _ (2 ^ 64)); [lia|]. apply Z.pow_le_mono_r; lia.
Qed.

(** ** Histories *)

Record rec := mkRec { r_key : list byte; r_payload : list byte; r_frame : list byte }.

(** A file's dictionary, as bytes and parsed, and its records in order. *)
Record hist := mkHist { h_bytes : list byte; h_dict : Dict; h_recs : list rec }.

Definition body_of (rc : rec) : list byte := record_body (r_key rc) (r_frame rc).

Definition rec_ok (d : Dict) (rc : rec) : Prop :=
  dict_decode d (r_frame rc) = Decoded (r_payload rc) /\ 4 + blen (r_key rc) + blen (r_payload rc) <= MAX_BODY /\
  1 + leb128_len (blen (r_payload rc)) <= blen (r_frame rc) <= blen (r_payload rc) + 6.

Definition hist_ok (h : hist) : Prop :=
  dict_new (h_bytes h) = Ret (h_dict h) /\ usable (h_bytes h) /\ Forall (rec_ok (h_dict h)) (h_recs h).

(** What the accounting of a history is. *)
Definition total (f : rec -> Z) (l : list rec) : Z := foldr Z.add 0 (f <$> l).

Definition comp_of (h : hist) : CompressionStats :=
  let header rc := 1 + leb128_len (blen (r_payload rc)) in
  mkComp (total (fun rc => blen (r_payload rc)) (h_recs h)) (total (fun rc => blen (r_frame rc) - header rc) (h_recs h))
    (total header (h_recs h)) (blen (h_bytes h)).

Lemma total_app f l k : total f (l ++ k) = total f l + total f k.
Proof. unfold total. rewrite fmap_app. induction l as [|x l IH]; cbn in *; lia. Qed.

(** [G'] has every history of [G], possibly longer. *)
Definition grows (G G' : gmap Z hist) : Prop :=
  forall id h, G !! id = Some h -> exists h' more, G' !! id = Some h' /\ h_bytes h' = h_bytes h /\ h_dict h' = h_dict h /\
    h_recs h' = h_recs h ++ more.

Lemma hist_grows_refl G : grows G G.
Proof. intros id h E. exists h, []. by rewrite app_nil_r. Qed.

Lemma grows_trans G1 G2 G3 : grows G1 G2 -> grows G2 G3 -> grows G1 G3.
Proof.
  intros A B id h E. destruct (A id h E) as (h' & m & E' & B1 & D1 & R1). destruct (B id h' E') as (h'' & m' & E'' & B2 & D2 & R2).
  exists h'', (m ++ m'). split_and!; [done|congruence|congruence|]. by rewrite R2, R1, app_assoc.
Qed.

(** Every record of [G'] that [G] does not have satisfies [P]. *)
Definition adds (P : rec -> Prop) (G G' : gmap Z hist) : Prop :=
  forall id h' rc, G' !! id = Some h' -> rc ∈ h_recs h' -> P rc \/ exists h, G !! id = Some h /\ rc ∈ h_recs h.

Lemma adds_refl P G : adds P G G.
Proof. intros id h rc E H. right. by exists h. Qed.

Lemma adds_trans (P : rec -> Prop) G1 G2 G3 : adds P G1 G2 -> adds P G2 G3 -> adds P G1 G3.
Proof. intros A B id h rc E H. destruct (B id h rc E H) as [|(h2 & E2 & H2)]; [by left|]. by apply (A id h2). Qed.

(** A record of this key and value. *)
Definition rec_for (key payload : list byte) (rc : rec) : Prop := r_key rc = key /\ r_payload rc = payload.

(** *** Counting *)

Definition occ (id : Z) (l : list Z) : Z := blen (filter (fun x => x = id) l).

Lemma occ_app id l k : occ id (l ++ k) = occ id l + occ id k.
Proof. unfold occ. by rewrite list.filter_app, blen_app. Qed.

Lemma occ_cons id x l : occ id (x :: l) = (if decide (x = id) then 1 else 0) + occ id l.
Proof. unfold occ. rewrite filter_cons. destruct (decide (x = id)); [by rewrite blen_cons|done]. Qed.

Lemma occ_nonneg id l : 0 <= occ id l.
Proof. apply blen_nonneg. Qed.

Lemma occ_pos id l : 0 < occ id l <-> id ∈ l.
Proof.
  induction l as [|x l IH]; [split; [by unfold occ; cbn|by intros ?%not_elem_of_nil]|].
  rewrite occ_cons, elem_of_cons. pose proof (occ_nonneg id l). destruct (decide (x = id)) as [->|]; split; intros.
  - by left.
  - lia.
  - right. apply IH. lia.
  - destruct H0 as [|Hin]; [congruence|]. apply IH in Hin. lia.
Qed.

Lemma occ_not id l : id ∉ l -> occ id l = 0.
Proof. intros H. pose proof (occ_nonneg id l). destruct (Z.eq_dec (occ id l) 0); [done|]. exfalso. apply H, occ_pos. lia. Qed.

(** ** System calls *)

Lemma syscall_cases w : exists o out, syscall w = (Ok o, with_outcomes (fun _ => out) w) /\ (outcomes w = [] -> o = IoOk /\ out = []).
Proof.
  unfold syscall. destruct (outcomes w) as [|o rest] eqn:E.
  - exists IoOk, []. destruct w; cbn in *. by subst.
  - exists o, rest. split; [done|]. by intros [=].
Qed.

Lemma bind_eq {S A B} (m : prog S A) (f : A -> prog S B) s :
  (m ≫= f) s = match m s with
               | (Ok a, s') => f a s' | (Err e, s') => (Err e, s') | (Crash, s') => (Crash, s') | (Diverge, s') => (Diverge, s')
               end.
Proof. done. Qed.

(** Runs the model's straight-line code up to the next call. *)
Ltac runs :=
  cbn [modify gets mret prog_ret throw lift crash diverge];
  repeat (rewrite bind_eq; cbn [modify gets mret prog_ret throw lift crash diverge]).

Lemma attempt_cases w : exists out, let w1 := with_outcomes (fun _ => out) w in
  (outcomes w = [] -> out = []) /\ (attempt w = (Ok tt, w1) \/ attempt w = (Err Os, w1) /\ outcomes w <> []).
Proof.
  destruct (syscall_cases w) as (o & out & E & Q). exists out. unfold attempt. rewrite bind_eq, E. split; [by intros [_ ?]%Q|].
  destruct o; [by left|]. right. split; [done|]. by intros [? _]%Q.
Qed.

Section Spec.
Context (cpu : Cpu).

Definition image (rc : rec) : list byte := record_image cpu (r_key rc) (r_frame rc).
Definition images (l : list rec) : list byte := concat (image <$> l).

Lemma images_app l k : images (l ++ k) = images l ++ images k.
Proof. unfold images. by rewrite fmap_app, concat_app. Qed.

Lemma images_cons rc l : images (rc :: l) = image rc ++ images l.
Proof. done. Qed.

Lemma image_blen rc : blen (image rc) = HEADER + blen (body_of rc).
Proof. unfold image, body_of. apply record_image_blen. Qed.

(** [r] is the address of record [rc]. *)
Definition at_ref (G : gmap Z hist) (r : VlogRef) (rc : rec) : Prop :=
  exists h pre post, G !! file_id r = Some h /\ h_recs h = pre ++ rc :: post /\
    offset r = blen (images pre) /\ len r = blen (body_of rc).

Lemma at_ref_grows G G' r rc : grows G G' -> at_ref G r rc -> at_ref G' r rc.
Proof.
  intros Gr (h & pre & post & E & R & O & L). destruct (Gr _ _ E) as (h' & more & E' & _ & _ & R').
  exists h', pre, (post ++ more). rewrite R', R, <- app_assoc. done.
Qed.

(** *** Reading *)

(** [VlogFile::read] when no system call fails. *)
Definition fetch (f : VlogFile) (content : list byte) (r : VlogRef) : res (list byte * list byte) :=
  image ← pread content (offset r) (disk_len r);
  kf ← verify_image cpu r image;
  let '(key, frame) := kf : list byte * list byte in
  payload ← decompress f frame;
  Ok (key, payload).

Lemma pread_mid (pre x rest : list byte) : pread (pre ++ x ++ rest) (blen pre) (blen x) = Ok x.
Proof.
  unfold pread. rewrite !blen_app. blen_pos. destruct (Z.ltb_spec (blen pre + (blen x + blen rest)) (blen pre + blen x)); [lia|].
  by rewrite slice_mid.
Qed.

Lemma rec_ok_body d rc : rec_ok d rc -> blen (body_of rc) < 2 ^ 32.
Proof. intros (_ & S & F). unfold body_of. rewrite record_body_blen. unfold MAX_BODY in S. lia. Qed.

Lemma fetch_at h content f pre rc post r : hist_ok h -> vf_parsed f = h_dict h -> images (h_recs h) `prefix_of` content ->
  h_recs h = pre ++ rc :: post -> offset r = blen (images pre) -> len r = blen (body_of rc) ->
  fetch f content r = if MAX_BODY <? len r then Err (LengthMismatch (len r) (len r)) else Ok (r_key rc, r_payload rc).
Proof.
  intros (_ & _ & Rs) Hp [tail ->] R O L. rewrite R, list.Forall_app, list.Forall_cons in Rs. destruct Rs as (_ & Rc & _).
  unfold fetch. rewrite R, images_app, images_cons, <- !app_assoc, O. unfold disk_len. rewrite L, <- image_blen, pread_mid.
  cbn [mbind res_bind]. unfold image. rewrite verify_record by (done || rewrite L; by eapply rec_ok_body). rewrite <- L.
  destruct (MAX_BODY <? len r); [done|]. cbn [mbind res_bind]. unfold decompress. rewrite Hp. destruct Rc as (-> & _). done.
Qed.

(** ** The invariant *)

Definition ids (v : Vlog) : list Z := (fun s => vf_id (handle s)) <$> files v.

Definition state_ok (h : hist) (s : FileState) : Prop :=
  vf_parsed (handle s) = h_dict h /\ bytes s = blen (images (h_recs h)) /\ 0 <= live s <= bytes s /\ bytes s <= u64_max /\
  compression s = comp_of h.

Definition cursor_ok (G : gmap Z hist) (v : Vlog) (c : CompactCursor) : Prop :=
  exists s h pre post, s ∈ sealed v /\ c_handle c = handle s /\ c_file_id c = vf_id (handle s) /\ c_bytes c = bytes s /\
    G !! vf_id (handle s) = Some h /\ h_recs h = pre ++ post /\ c_offset c = blen (images pre).

(** How many hold the file: the log, cursors, and pinned readers. *)
Definition holders (pins : list Z) (curs : list CompactCursor) (v : Vlog) (id : Z) : Z :=
  occ id (ids v) + occ id (c_file_id <$> curs) + occ id pins.

Record inv (G : gmap Z hist) (pins : list Z) (curs : list CompactCursor) (w : World) : Prop := {
  i_hist : forall id h, G !! id = Some h -> hist_ok h /\ (images (h_recs h)) `prefix_of` (content_of w id);
  i_files : Forall (fun s => exists h, G !! vf_id (handle s) = Some h /\ state_ok h s) (files (log w));
  i_sorted : StronglySorted Z.lt (ids (log w));
  i_next : 0 <= next_id (log w) < 2 ^ 32;
  i_dom : forall id, is_Some (G !! id) -> 0 <= id < next_id (log w);
  i_samples : Forall (fun s => s <> []) (samples (log w));
  i_cursors : Forall (cursor_ok G (log w)) curs;
  i_arcs : forall id, arcs w !! id = (if holders pins curs (log w) id =? 0 then None else Some (holders pins curs (log w) id));
  i_pins : Forall (fun id => is_Some (G !! id)) pins;
  i_retired : forall id, id ∈ retired w -> (id ∉ ids (log w)) /\ 0 <= id < next_id (log w);
  i_names : forall id, is_Some (arcs w !! id) -> file_name id ∈ names w
}.

(** The cursor the log keeps between steps. *)
Definition own (w : World) : list CompactCursor := option_list (compaction (log w)).

(** A log in good order, with [pins] held by readers. *)
Definition good (pins : list Z) (w : World) : Prop := files (log w) <> [] /\ exists G, inv G pins (own w) w.

Lemma holders_nonneg pins curs v id : 0 <= holders pins curs v id.
Proof.
  unfold holders. pose proof (occ_nonneg id (ids v)). pose proof (occ_nonneg id (c_file_id <$> curs)). pose proof (occ_nonneg id pins). lia.
Qed.

Lemma inv_outcomes G pins curs w out : inv G pins curs w -> inv G pins curs (with_outcomes out w).
Proof. intros []. by constructor. Qed.

Lemma inv_state G pins curs w s : inv G pins curs w -> s ∈ files (log w) ->
  exists h, G !! vf_id (handle s) = Some h /\ state_ok h s /\ hist_ok h /\ images (h_recs h) `prefix_of` content_of w (vf_id (handle s)).
Proof.
  intros I Hs. pose proof (proj1 (list.Forall_forall _ _) (i_files _ _ _ _ I) s Hs) as (h & E & So).
  destruct (i_hist _ _ _ _ I _ _ E). by exists h.
Qed.

(** *** Handles *)

Lemma digits_val_zeros n l : digits_val 0 (replicate n "0"%byte ++ l) = digits_val 0 l.
Proof. induction n as [|n IH]; [done|]. exact IH. Qed.

Lemma file_name_inj i j : 0 <= i < 2 ^ 32 -> 0 <= j < 2 ^ 32 -> file_name i = file_name j -> i = j.
Proof.
  intros Hi Hj E. unfold file_name in E. apply (inj (app (bs "vlog-"))) in E. apply (inj (.++ bs ".dat")) in E.
  apply (f_equal (digits_val 0)) in E. unfold pad8 in E. rewrite !digits_val_zeros, !dec_val in E by lia. exact E.
Qed.

Lemma arc_pos G pins curs w id : inv G pins curs w -> 0 < holders pins curs (log w) id ->
  arcs w !! id = Some (holders pins curs (log w) id).
Proof. intros I H. rewrite (i_arcs _ _ _ _ I). destruct (Z.eqb_spec (holders pins curs (log w) id) 0); [lia|done]. Qed.

Lemma arc_held G pins curs w id : inv G pins curs w -> is_Some (arcs w !! id) -> 0 < holders pins curs (log w) id.
Proof.
  intros I [n E]. rewrite (i_arcs _ _ _ _ I) in E. pose proof (holders_nonneg pins curs (log w) id).
  destruct (Z.eqb_spec (holders pins curs (log w) id) 0); [done|lia].
Qed.

Lemma held_id G pins curs w id : inv G pins curs w -> 0 < holders pins curs (log w) id -> is_Some (G !! id).
Proof.
  intros I H. unfold holders in H. pose proof (occ_nonneg id (ids (log w))). pose proof (occ_nonneg id (c_file_id <$> curs)).
  pose proof (occ_nonneg id pins).
  assert (id ∈ ids (log w) \/ id ∈ c_file_id <$> curs \/ id ∈ pins) as [M|[M|M]].
  { rewrite <- !occ_pos. lia. }
  - apply list_elem_of_fmap in M as (s & -> & M). destruct (inv_state _ _ _ _ s I M) as (h & E & _). by rewrite E.
  - apply list_elem_of_fmap in M as (c & -> & M).
    pose proof (proj1 (list.Forall_forall _ _) (i_cursors _ _ _ _ I) c M) as (s & h & _ & _ & _ & _ & -> & _ & E & _). by rewrite E.
  - exact (proj1 (list.Forall_forall _ _) (i_pins _ _ _ _ I) id M).
Qed.

Lemma holders_pin pins curs v i id : holders (i :: pins) curs v id = (if decide (i = id) then 1 else 0) + holders pins curs v id.
Proof. unfold holders. rewrite occ_cons. lia. Qed.

(** Taking a handle of a held file. *)
Lemma arc_clone_ok G pins curs w id : inv G pins curs w -> 0 < holders pins curs (log w) id ->
  exists w', arc_clone id w = (Ok tt, w') /\ inv G (id :: pins) curs w' /\ log w' = log w /\ inodes w' = inodes w.
Proof.
  intros I H. eexists. split; [reflexivity|]. pose proof (arc_pos _ _ _ _ _ I H) as E. pose proof (held_id _ _ _ _ _ I H) as Hd.
  split; [|done]. destruct I as []. constructor; cbn [log names inodes arcs retired outcomes with_arcs]; try done.
  - intros i. rewrite holders_pin. pose proof (holders_nonneg pins curs (log w) i). destruct (decide (id = i)) as [<-|N].
    + rewrite lookup_insert_eq, E. cbn. destruct (Z.eqb_spec (1 + holders pins curs (log w) id) 0); [lia|]. f_equal. lia.
    + by rewrite lookup_insert_ne.
  - by constructor.
  - intros i. destruct (decide (id = i)) as [<-|N]; [intros _; apply i_names0; by rewrite E|].
    rewrite lookup_insert_ne by done. apply i_names0.
Qed.

(** Dropping one: the file leaves the directory with its last holder only. *)
Lemma arc_drop_ok G pins curs w id : inv G (id :: pins) curs w ->
  exists w', arc_drop id w = (Ok tt, w') /\ inv G pins curs w' /\ log w' = log w /\ inodes w' = inodes w /\
    retired w' = retired w /\ (outcomes w = [] -> outcomes w' = []) /\ names w' ⊆ names w.
Proof.
  intros I. pose proof (holders_pin pins curs (log w) id id) as HP. rewrite decide_True in HP by done.
  pose proof (holders_nonneg pins curs (log w) id) as HN. pose proof (arc_pos _ _ _ _ id I ltac:(lia)) as E.
  assert (Oth : forall i, i <> id -> holders (id :: pins) curs (log w) i = holders pins curs (log w) i).
  { intros i N. rewrite holders_pin, decide_False by congruence. lia. }
  unfold arc_drop. rewrite bind_eq. cbn [gets]. rewrite E. cbn [from_option Datatypes.id]. rewrite HP.
  destruct (Z.leb_spec (1 + holders pins curs (log w) id) 1) as [L|G1].
  - (* the last holder *)
    assert (I1 : inv G pins curs (with_arcs (delete id) w)).
    { destruct I as []. constructor; cbn [log names inodes arcs retired outcomes with_arcs]; try done.
      - intros i. destruct (decide (i = id)) as [->|N]; [rewrite lookup_delete_eq | by rewrite lookup_delete_ne, i_arcs0, Oth].
        by destruct (Z.eqb_spec (holders pins curs (log w) id) 0); [|lia].
      - by inversion i_pins0.
      - intros i [n Hn]. apply lookup_delete_Some in Hn as [_ Hn]. apply i_names0. by rewrite Hn. }
    runs. case_bool_decide as R; [|eexists; split; [reflexivity|]; done].
    unfold remove_file. rewrite bind_eq. destruct (syscall_cases (with_arcs (delete id) w)) as (o & out & -> & Q).
    destruct o; cbn [modify mret prog_ret]; eexists; (split; [reflexivity|]); cycle 1.
    { split_and!; [by apply inv_outcomes|done|done|done|by intros [_ ?]%Q|done]. }
    split; [|split_and!; [done|done|done|by intros [_ ?]%Q|]; intros x Hx; cbn in Hx; by apply elem_of_difference in Hx as [Hx _]].
    destruct I as [_ _ _ _ Dom _ _ _ Pn Re _]. pose proof (inv_outcomes _ _ _ _ (fun _ => out) I1) as []. constructor; try done.
    intros i Hi. cbn [names arcs with_names with_outcomes] in *. apply elem_of_difference. split; [by apply i_names0|].
    rewrite elem_of_singleton. intros En. pose proof (Re id R) as [_ Rid]. pose proof (arc_held _ _ _ _ i I1 Hi) as Hh.
    assert (Di : 0 <= i < next_id (log w)) by (apply Dom; by eapply held_id). cbn in i_next0.
    apply file_name_inj in En; [|lia..]. subst i. destruct Hi as [n Hn]. cbn in Hn. by rewrite lookup_delete_eq in Hn.
  - eexists. split; [reflexivity|]. split; [|done]. destruct I as []. constructor; cbn [log names inodes arcs retired outcomes with_arcs]; try done.
    + intros i. destruct (decide (i = id)) as [->|N]; [|by rewrite lookup_insert_ne, i_arcs0, Oth by congruence].
      rewrite lookup_insert_eq. destruct (Z.eqb_spec (holders pins curs (log w) id) 0); [lia|]. f_equal. lia.
    + by inversion i_pins0.
    + intros i. destruct (decide (i = id)) as [->|N]; [intros _; apply i_names0; by rewrite E|].
      rewrite lookup_insert_ne by done. apply i_names0.
Qed.

(** ** A new file *)

Lemma sealed_snoc v fs a : files v = fs ++ [a] -> sealed v = fs.
Proof. intros E. unfold sealed. rewrite E, length_app. cbn [length]. replace (_ + 1 - 1)%nat with (length fs) by lia. apply take_app_length. Qed.

Lemma sealed_set fs a v : sealed (set_files (fs ++ [a]) v) = fs.
Proof. by eapply sealed_snoc. Qed.

Lemma files_snoc v : files v <> [] -> exists fs a, files v = fs ++ [a] /\ sealed v = fs /\ last (files v) = Some a /\ removelast (files v) = fs.
Proof.
  intros H. destruct (exists_last H) as (fs & a & E). exists fs, a. split; [done|]. split; [by apply (sealed_snoc v fs a)|].
  rewrite E. split; [by rewrite last_snoc|apply removelast_last].
Qed.

Lemma sealed_files v s : s ∈ sealed v -> s ∈ files v.
Proof. unfold sealed. intros H. apply elem_of_take in H as (i & H & _). by eapply list_elem_of_lookup_2. Qed.

(** A cursor survives any change that keeps its file sealed and its history. *)
Lemma cursor_mono G G' v v' c :
  (forall s, s ∈ sealed v -> exists s', s' ∈ sealed v' /\ handle s' = handle s /\ bytes s' = bytes s /\ G' !! vf_id (handle s) = G !! vf_id (handle s)) ->
  cursor_ok G v c -> cursor_ok G' v' c.
Proof.
  intros H (s & h & pre & post & Hs & E1 & E2 & E3 & E4 & E5 & E6). destruct (H s Hs) as (s' & Hs' & Hh & Hb & HG).
  exists s', h, pre, post. rewrite Hh, Hb, HG. done.
Qed.

Lemma fresh_id G pins curs w : inv G pins curs w -> G !! next_id (log w) = None.
Proof. intros I. destruct (G !! next_id (log w)) eqn:E; [|done]. pose proof (i_dom _ _ _ _ I (next_id (log w)) ltac:(by rewrite E)). lia. Qed.

Lemma id_known G pins curs w s : inv G pins curs w -> s ∈ files (log w) -> 0 <= vf_id (handle s) < next_id (log w).
Proof. intros I Hs. destruct (inv_state _ _ _ _ _ I Hs) as (h & E & _). apply (i_dom _ _ _ _ I). by rewrite E. Qed.

Lemma sorted_snoc (l : list Z) x : StronglySorted Z.lt l -> Forall (fun y => y < x) l -> StronglySorted Z.lt (l ++ [x]).
Proof.
  intros S F. induction S as [|y l S IH Fy]; cbn; [by repeat constructor|]. inversion F; subst. constructor; [by apply IH|].
  apply list.Forall_app. split; [done|by constructor].
Qed.

(** The new file joins the history; nothing else changes. *)
Lemma inv_new_file G pins curs w dict d : inv G pins curs w -> usable dict -> dict_new dict = Ret d ->
  next_id (log w) + 1 < 2 ^ 32 ->
  let id := next_id (log w) in
  inv (<[id := mkHist dict d []]> G) pins curs
    (mkWorld (set_files (files (log w) ++ [mkState (mkFile id d) 0 0 (mkComp 0 0 0 (blen dict))]) (set_next_id (id + 1) (log w)))
      ({[file_name id]} ∪ names w) (<[id := []]> (inodes w)) (<[id := 1]> (arcs w)) (retired w) (outcomes w)).
Proof.
  intros I U Ed Hn id. pose proof (fresh_id _ _ _ _ I) as Fr. fold id in Fr.
  assert (H0 : holders pins curs (log w) id = 0).
  { pose proof (holders_nonneg pins curs (log w) id). destruct (Z.eq_dec (holders pins curs (log w) id) 0); [done|].
    destruct (held_id _ _ _ _ id I ltac:(lia)) as [h E]. congruence. }
  assert (Hid : forall s, s ∈ files (log w) -> 0 <= vf_id (handle s) < id) by (intros s Hs; by eapply id_known).
  destruct I as []. constructor; cbn [log names inodes arcs retired outcomes].
  - intros i h. destruct (decide (i = id)) as [->|N].
    + rewrite lookup_insert_eq. intros [= <-]. split; [split_and!; [done|done|constructor]|]. apply prefix_nil.
    + rewrite lookup_insert_ne by done. intros E. destruct (i_hist0 i h E) as [A B]. split; [done|].
      unfold content_of. cbn [inodes]. by rewrite lookup_insert_ne by done.
  - cbn [set_files files]. apply list.Forall_app. split.
    + apply list.Forall_forall. intros s Hs. pose proof (proj1 (list.Forall_forall _ _) i_files0 s Hs) as (h & E & So).
      exists h. split; [|done]. rewrite lookup_insert_ne; [done|]. specialize (Hid s Hs). lia.
    + constructor; [|constructor]. exists (mkHist dict d []). cbn. rewrite lookup_insert_eq. split; [done|].
      unfold state_ok. cbn. split_and!; try done; unfold u64_max; lia.
  - unfold ids. cbn [set_files files]. rewrite fmap_app. apply sorted_snoc; [done|]. apply list.Forall_forall. intros x Hx.
    apply list_elem_of_fmap in Hx as (s & -> & Hs). cbn. specialize (Hid s Hs). lia.
  - cbn. lia.
  - intros i [h Hi]. cbn. destruct (decide (i = id)) as [->|N]; [lia|]. rewrite lookup_insert_ne in Hi by done.
    specialize (i_dom0 i ltac:(by rewrite Hi)). lia.
  - done.
  - eapply list.Forall_impl; [exact i_cursors0|]. intros c. apply cursor_mono. intros s Hs. exists s.
    rewrite sealed_set. apply sealed_files in Hs. split_and!; [done..|].
    rewrite lookup_insert_ne; [done|]. specialize (Hid s Hs). lia.
  - intros i. unfold holders, ids. cbn [set_files files set_next_id]. rewrite fmap_app, occ_app. cbn [fmap list_fmap]. rewrite occ_cons.
    change (occ i []) with 0. cbn [handle vf_id]. fold (ids (log w)). unfold holders in *. destruct (decide (id = i)) as [<-|N].
    + rewrite lookup_insert_eq. replace (_ + (1 + 0) + _ + _) with 1 by lia. done.
    + rewrite lookup_insert_ne, i_arcs0 by done. by rewrite !Z.add_0_r.
  - eapply list.Forall_impl; [exact i_pins0|]. intros i [h Hi]. destruct (decide (i = id)) as [->|N]; [by rewrite lookup_insert_eq|].
    by rewrite lookup_insert_ne by done.
  - intros i Hi. destruct (i_retired0 i Hi) as [A B]. cbn. split; [|lia]. unfold ids. cbn [set_files files]. rewrite fmap_app.
    intros [M|M]%elem_of_app; [by apply A|]. apply list_elem_of_singleton in M. cbn in M. lia.
  - intros i Hi. apply elem_of_union. destruct (decide (i = id)) as [->|N]; [left; by apply elem_of_singleton|].
    rewrite lookup_insert_ne in Hi by done. right. by apply i_names0.
Qed.

(** ** Appending *)

(** What appending does not touch: the epoch, the cursor, the sealed files. *)
Definition ext (w w' : World) : Prop :=
  epoch (log w') = epoch (log w) /\ compaction (log w') = compaction (log w) /\ ids (log w) `prefix_of` ids (log w') /\
  (forall s, s ∈ sealed (log w) -> s ∈ sealed (log w')) /\ next_id (log w) <= next_id (log w') /\
  rotate_bytes (log w') = rotate_bytes (log w) /\ (outcomes w = [] -> outcomes w' = []) /\
  (forall n, n ∈ names w' -> n ∈ names w \/ exists id, next_id (log w) <= id < next_id (log w') /\ n = file_name id) /\
  (forall f', f' ∈ files (log w') -> vf_id (handle f') ∈ ids (log w) ->
   exists f, f ∈ files (log w) /\ vf_id (handle f) = vf_id (handle f') /\ live f <= live f') /\
  (forall id, id ∈ ids (log w') -> id ∈ ids (log w) \/ next_id (log w) <= id).

Lemma ext_refl w : ext w w.
Proof. split_and!; try done; [by left| |by left]. intros f Hf _. by exists f. Qed.

Lemma ext_trans w1 w2 w3 : ext w1 w2 -> ext w2 w3 -> ext w1 w3.
Proof.
  intros (A1 & A2 & A3 & A4 & A5 & A6 & A7 & A8 & A9 & A10) (B1 & B2 & B3 & B4 & B5 & B6 & B7 & B8 & B9 & B10).
  split_and!; [congruence|congruence|by etrans| |lia|congruence|by intros H; apply B7, A7| | |].
  - intros s Hs. by apply B4, A4.
  - intros n [H|(i & H & ->)]%B8; [apply A8 in H as [H|(i & H & ->)]; [by left|]|]; right; exists i; (split; [lia|done]).
  - intros f3 Hf3 Hi. destruct (B9 f3 Hf3) as (f2 & Hf2 & E2 & L2); [destruct A3 as [l ->]; apply elem_of_app; by left|].
    destruct (A9 f2 Hf2) as (f1 & Hf1 & E1 & L1); [by rewrite E2|]. exists f1. split_and!; [done|congruence|lia].
  - intros id [H|H]%B10; [|right; lia]. by apply A10 in H.
Qed.

Lemma ext_log w w' : log w' = log w -> names w' = names w -> (outcomes w = [] -> outcomes w' = []) -> ext w w'.
Proof. intros E En Q. unfold ext. rewrite E, En. split_and!; try done; [by left| |by left]. intros f Hf _. by exists f. Qed.

Lemma ids_ext w w' id : ext w w' -> id ∈ ids (log w) -> id ∈ ids (log w').
Proof. intros (_ & _ & [l ->] & _) H. apply elem_of_app. by left. Qed.

(** Why creating the next file may fail, or panic. *)
Definition create_fails (w : World) : Prop := outcomes w <> [] \/ file_name (next_id (log w)) ∈ names w.

Lemma inv_next_id G pins curs w : inv G pins curs w -> next_id (log w) + 1 < 2 ^ 32 ->
  inv G pins curs (with_log (set_next_id (next_id (log w) + 1)) w).
Proof.
  intros [] Hn. constructor; try done; cbn.
  - lia.
  - intros i Hi. specialize (i_dom0 i Hi). lia.
  - intros i Hi. destruct (i_retired0 i Hi). split; [done|lia].
Qed.

Lemma open_next_file_ok G pins curs w dict : inv G pins curs w -> usable dict ->
  match open_next_file dict w with
  | (Ok _, w') => exists G', grows G G' /\ (forall P, adds P G G') /\ inv G' pins curs w' /\ ext w w' /\
      names w' = {[file_name (next_id (log w))]} ∪ names w /\
      exists a, files (log w') = files (log w) ++ [a] /\ bytes a = 0 /\ vf_id (handle a) = next_id (log w)
  | (Err _, w') => inv G pins curs w' /\ ext w w' /\ create_fails w /\ files (log w') = files (log w)
  | (Crash, w') => 2 ^ 32 <= next_id (log w) + 1 /\ next_id (log w') = next_id (log w)
  | (Diverge, _) => False
  end.
Proof.
  intros I U. unfold open_next_file. runs. destruct (Z.ltb_spec (next_id (log w) + 1) (2 ^ 32)) as [Hn|Hn]; runs; [|done].
  set (w1 := with_log _ w). pose proof (inv_next_id _ _ _ _ I Hn) as I1. fold w1 in I1.
  assert (X1 : forall out, (outcomes w = [] -> out = []) -> ext w (with_outcomes (fun _ => out) w1)).
  { intros out Hq. subst w1. unfold ext. cbn. split_and!; try done; [lia|by left| |by left]. intros f Hf _. by exists f. }
  destruct (attempt_cases w1) as (out & Q & [E|[E F]]); rewrite E; [|split_and!; [by apply inv_outcomes|by apply X1|by left|done]].
  runs. case_bool_decide as Hd; cbn [throw].
  { split_and!; [by apply inv_outcomes|by apply X1|by right|done]. }
  runs. destruct (dict_agrees dict [] []) as (d & Ed & _). rewrite Ed. cbn [run]. runs.
  exists (<[next_id (log w) := mkHist dict d []]> G). split_and!.
  - intros i h Hi. exists h, []. rewrite app_nil_r. split_and!; try done. rewrite lookup_insert_ne; [done|].
    intros <-. by rewrite (fresh_id _ _ _ _ I) in Hi.
  - intros P i h' rc Hi Hr. destruct (decide (i = next_id (log w))) as [->|N].
    + rewrite lookup_insert_eq in Hi. injection Hi as <-. by apply not_elem_of_nil in Hr.
    + rewrite lookup_insert_ne in Hi by done. right. by exists h'.
  - pose proof (inv_new_file _ _ _ (with_outcomes (fun _ => out) w) dict d (inv_outcomes _ _ _ _ _ I) U Ed Hn) as R. exact R.
  - unfold ext. split_and!; try done; [by unfold ids; cbn [log with_log with_arcs files set_files]; rewrite fmap_app; eexists| |cbn; lia| | |].
    + intros s Hs. apply sealed_files in Hs. cbn [log with_log]. by rewrite sealed_set.
    + intros n. cbn. rewrite elem_of_union, elem_of_singleton. intros [->|H]; [|by left]. right. exists (next_id (log w)). split; [lia|done].
    + intros f Hf Hi. cbn [log with_log files set_files] in Hf. apply elem_of_app in Hf as [Hf|Hf]; [by exists f|].
      apply list_elem_of_singleton in Hf as ->. cbn in Hi. apply list_elem_of_fmap in Hi as (s & Es & Hs).
      pose proof (id_known _ _ _ _ _ I Hs). lia.
    + intros i Hi. unfold ids in Hi. cbn [log with_log files set_files] in Hi. rewrite fmap_app in Hi. apply elem_of_app in Hi as [Hi|Hi]; [by left|].
      apply list_elem_of_singleton in Hi as ->. right. cbn. lia.
  - done.
  - by eexists.
Qed.

Lemma rotate_ok G pins curs w : inv G pins curs w ->
  match rotate w with
  | (Ok _, w') => exists G', grows G G' /\ (forall P, adds P G G') /\ inv G' pins curs w' /\ ext w w' /\
      names w' = {[file_name (next_id (log w))]} ∪ names w /\
      exists a, files (log w') = files (log w) ++ [a] /\ bytes a = 0 /\ vf_id (handle a) = next_id (log w)
  | (Err _, w') => inv G pins curs w' /\ ext w w' /\ create_fails w /\ files (log w') = files (log w)
  | (Crash, w') => 2 ^ 32 <= next_id (log w) + 1 /\ next_id (log w') = next_id (log w)
  | (Diverge, _) => False
  end.
Proof.
  intros I. unfold rotate. runs. destruct (train_usable (samples (log w)) (i_samples _ _ _ _ I)) as (dict & -> & U). cbn [run]. runs.
  assert (I1 : inv G pins curs (with_log (set_samples [] 0) w)).
  { destruct I as []. by constructor. }
  pose proof (open_next_file_ok _ _ _ _ dict I1 U) as H.
  assert (X : forall w', ext (with_log (set_samples [] 0) w) w' -> ext w w') by (by intros w').
  destruct (open_next_file dict (with_log (set_samples [] 0) w)) as [[u|e| |] w']; [|destruct H as (A & B & C & D)|exact H|exact H].
  - destruct H as (G' & A & B & C & D & F). exists G'. split; [done|]. split; [done|]. split; [done|]. split; [by apply X|done].
  - split_and!; try done.
Qed.

(** *** One record *)

Lemma overwrite_prefix (p content data : list byte) : p `prefix_of` content ->
  (p ++ data) `prefix_of` (overwrite content (blen p) data).
Proof.
  intros [t ->]. unfold overwrite. rewrite blen_to_nat, take_app_length, length_app.
  replace (length p - (length p + length t))%nat with 0%nat by lia. cbn [replicate app]. rewrite app_assoc. by eexists.
Qed.

(** Writing past what is committed leaves every history alone. *)
Lemma inv_scribble G pins curs w a data : inv G pins curs w -> last (files (log w)) = Some a ->
  let id := vf_id (handle a) in
  inv G pins curs (with_inodes (insert id (overwrite (content_of w id) (bytes a) data)) w).
Proof.
  intros I Ha id. assert (Hin : a ∈ files (log w)) by (by apply last_Some_elem_of).
  destruct (inv_state _ _ _ _ _ I Hin) as (h & E & (_ & Hb & _) & _ & Hp). destruct I as []. constructor; try done.
  intros i h' E'. destruct (i_hist0 i h' E') as [Ok' P]. split; [done|]. unfold content_of. cbn [inodes with_inodes].
  destruct (decide (i = id)) as [->|N]; [|by rewrite lookup_insert_ne]. rewrite lookup_insert_eq. cbn [default from_option].
  assert (h' = h) as -> by (unfold id in E'; congruence). rewrite Hb. etrans; [|by apply overwrite_prefix]. by eexists.
Qed.

Lemma sorted_last (l : list Z) x y : StronglySorted Z.lt (l ++ [x]) -> y ∈ l -> y < x.
Proof.
  intros S Hy. induction l as [|z l IH]; [by apply not_elem_of_nil in Hy|]. cbn in S. inversion S as [|? ? S' F]; subst.
  apply elem_of_cons in Hy as [->|Hy]; [|by apply IH]. rewrite list.Forall_app in F. destruct F as [_ F]. by inversion F.
Qed.

Lemma sealed_below G pins curs w fs a s : inv G pins curs w -> files (log w) = fs ++ [a] -> s ∈ fs -> vf_id (handle s) < vf_id (handle a).
Proof.
  intros I E Hs. apply (sorted_last ((fun s => vf_id (handle s)) <$> fs)); [|apply list_elem_of_fmap; by exists s].
  pose proof (i_sorted _ _ _ _ I) as S. unfold ids in S. rewrite E, fmap_app in S. exact S.
Qed.

Definition add_rec (h : hist) (rc : rec) : hist := mkHist (h_bytes h) (h_dict h) (h_recs h ++ [rc]).

(** The active file's counters after a record. *)
Definition count_rec (a : FileState) (h : hist) (rc : rec) : FileState :=
  mkState (handle a) (bytes a + blen (image rc)) (live a + blen (image rc)) (comp_of (add_rec h rc)).

Lemma inv_commit G pins curs w h rc fs a : inv G pins curs w -> files (log w) = fs ++ [a] ->
  let id := vf_id (handle a) in
  G !! id = Some h -> rec_ok (h_dict h) rc -> images (h_recs h ++ [rc]) `prefix_of` content_of w id ->
  bytes a + blen (image rc) <= u64_max ->
  inv (<[id := add_rec h rc]> G) pins curs (with_log (set_files (fs ++ [count_rec a h rc])) w).
Proof.
  intros I Ef id E Rc P Hu. assert (Hin : a ∈ files (log w)) by (rewrite Ef; apply elem_of_app; right; by apply list_elem_of_singleton).
  assert (So : state_ok h a).
  { destruct (inv_state _ _ _ _ _ I Hin) as (h' & E' & So & _). unfold id in E. rewrite E in E'. by injection E' as <-. }
  assert (Lt : forall s, s ∈ fs -> vf_id (handle s) <> id) by (intros s Hs; pose proof (sealed_below _ _ _ _ _ _ _ I Ef Hs); unfold id; lia).
  assert (Ei : ids (set_files (fs ++ [count_rec a h rc]) (log w)) = ids (log w)) by (unfold ids; rewrite Ef; cbn [files set_files]; by rewrite !fmap_app).
  assert (Dm : forall i, is_Some (<[id := add_rec h rc]> G !! i) <-> is_Some (G !! i)).
  { intros i. destruct (decide (i = id)) as [->|N]; [rewrite lookup_insert_eq, E; by split; eexists|by rewrite lookup_insert_ne]. }
  assert (Hh : forall i, holders pins curs (set_files (fs ++ [count_rec a h rc]) (log w)) i = holders pins curs (log w) i).
  { intros i. unfold holders. by rewrite Ei. }
  destruct I as []. constructor; cbn [log names inodes arcs retired with_log].
  - intros i h'. destruct (decide (i = id)) as [->|N]; [|rewrite lookup_insert_ne by done; apply i_hist0].
    rewrite lookup_insert_eq. intros [= <-]. split; [|exact P]. destruct (i_hist0 _ _ E) as [(A & B & C) _]. split_and!; [done|done|].
    cbn [h_recs add_rec]. apply list.Forall_app. split; [done|by constructor].
  - cbn [files set_files]. rewrite Ef, list.Forall_app in i_files0. destruct i_files0 as [F _]. apply list.Forall_app. split.
    + apply list.Forall_forall. intros s Hs. pose proof (proj1 (list.Forall_forall _ _) F s Hs) as (h' & E' & S'). exists h'.
      rewrite lookup_insert_ne; [done|]. intros X. by apply (Lt s Hs).
    + constructor; [|constructor]. exists (add_rec h rc). cbn [handle count_rec]. rewrite lookup_insert_eq. split; [done|].
      destruct So as (S1 & S2 & S3 & S4 & S5). unfold state_ok. cbn [handle count_rec bytes live compression add_rec h_dict h_recs].
      rewrite images_app, blen_app. pose proof (blen_nonneg (image rc)).
      replace (blen (images [rc])) with (blen (image rc)) by (unfold images; cbn; by rewrite app_nil_r).
      split_and!; [done|lia|lia|lia|lia|done].
  - by rewrite Ei.
  - done.
  - intros i Hi. apply i_dom0. by apply Dm.
  - done.
  - eapply list.Forall_impl; [exact i_cursors0|]. intros c. apply cursor_mono. intros s Hs. rewrite (sealed_snoc _ fs a Ef) in Hs.
    exists s. rewrite sealed_set, lookup_insert_ne; [done|]. intros X. by apply (Lt s Hs).
  - intros i. by rewrite Hh.
  - eapply list.Forall_impl; [exact i_pins0|]. intros i Hi. by apply Dm.
  - intros i Hi. rewrite Ei. by apply i_retired0.
  - done.
Qed.

Lemma add_record_ok h rc : rec_ok (h_dict h) rc ->
  add_record (comp_of h) (blen (r_payload rc)) (blen (r_frame rc)) = Ret (comp_of (add_rec h rc)).
Proof.
  intros (_ & _ & F & _). unfold add_record, sub_usize. destruct (Z.leb_spec (1 + leb128_len (blen (r_payload rc))) (blen (r_frame rc))); [|lia].
  cbn [mbind exec_bind]. unfold comp_of, add_rec. cbn [h_recs h_bytes raw_bytes payload_bytes frame_header_bytes dict_bytes].
  rewrite !total_app. unfold total. cbn [fmap list_fmap foldr]. by rewrite !Z.add_0_r.
Qed.

(** *** The whole append *)

(** A record of [key] and [payload] is at [r] in the active file, after all the
    others; [G] is the histories before it. *)
Definition appended (G G' : gmap Z hist) (w w' : World) (key payload : list byte) (r : VlogRef) : Prop :=
  exists rc, at_ref G' r rc /\ r_key rc = key /\ r_payload rc = payload /\
    (exists a, last (files (log w')) = Some a /\ vf_id (handle a) = file_id r /\ HEADER + len r <= live a /\
       (file_id r ∈ ids (log w) -> exists f, f ∈ files (log w) /\ vf_id (handle f) = file_id r /\ live f + (HEADER + len r) <= live a)) /\
    forall h, G !! file_id r = Some h -> blen (images (h_recs h)) <= offset r.

Lemma images_grow G G' id h h' : grows G G' -> G !! id = Some h -> G' !! id = Some h' -> blen (images (h_recs h)) <= blen (images (h_recs h')).
Proof.
  intros Gr E E'. destruct (Gr _ _ E) as (h2 & more & E2 & _ & _ & R). assert (h2 = h') as -> by congruence.
  rewrite R, images_app, blen_app. blen_pos. lia.
Qed.

Lemma at_ref_end G r rc h : at_ref G r rc -> G !! file_id r = Some h -> offset r + HEADER + len r <= blen (images (h_recs h)).
Proof.
  intros (h' & pre & post & E & R & O & L) E'. rewrite E in E'. injection E' as <-.
  rewrite R, images_app, images_cons, !blen_app, image_blen, O, L. blen_pos. lia.
Qed.

Lemma store_record_ok G pins curs w key payload high fs a : inv G pins curs w -> files (log w) = fs ++ [a] ->
  4 + blen key + blen payload <= MAX_BODY ->
  match store_record cpu key payload high w with
  | (Ok r, w') => exists G', grows G G' /\ adds (rec_for key payload) G G' /\ inv G' pins curs w' /\ ext w w' /\ appended G G' w w' key payload r
  | (Err _, w') => inv G pins curs w' /\ ext w w' /\ outcomes w <> []
  | (Crash, w') => u64_max < bytes a + 2 ^ 31 /\ log w' = log w
  | (Diverge, _) => False
  end.
Proof.
  intros I Ef Sz. assert (La : last (files (log w)) = Some a) by (rewrite Ef; apply last_snoc).
  assert (Hin : a ∈ files (log w)) by (by apply last_Some_elem_of).
  destruct (inv_state _ _ _ _ _ I Hin) as (h & E & (Hp & Hb & Hl & Hu & Hc) & (Dn & Us & _) & Pf).
  unfold store_record, active. runs. rewrite La. cbn [mret prog_ret]. rewrite Hp.
  destruct (dict_frame_ok _ _ payload high Dn Us ltac:(unfold MAX_BODY in Sz; blen_pos; lia)) as (frame & Ee & De & Fl).
  rewrite <- leb128_len_ok in Fl by (unfold MAX_BODY in Sz; blen_pos; lia). rewrite bind_eq, Ee. cbn [run mret prog_ret].
  set (rc := mkRec key payload frame). assert (Rc : rec_ok (h_dict h) rc) by (split_and!; try done; apply Fl).
  change (record_image cpu key frame) with (image rc). unfold write_all_at. rewrite !bind_eq.
  destruct (syscall_cases w) as (o & out & -> & Q). set (w1 := with_outcomes (fun _ => out) w).
  assert (I1 : inv G pins curs w1) by by apply inv_outcomes.
  destruct o as [|n]; cycle 1.
  { runs. split_and!; [|apply ext_log; [done|done|by intros [? _]%Q]|by intros [? _]%Q]. by apply (inv_scribble _ _ _ w1). }
  pose proof (inv_scribble _ _ _ _ _ (image rc) I1 La) as I2. runs. set (w2 := with_inodes _ w1) in *.
  assert (Pr : images (h_recs h ++ [rc]) `prefix_of` content_of w2 (vf_id (handle a))).
  { unfold content_of. subst w2. cbn [inodes with_inodes]. rewrite lookup_insert_eq. cbn [from_option]. rewrite Hb, images_app.
    replace (images [rc]) with (image rc) by (unfold images; cbn; by rewrite app_nil_r). by apply overwrite_prefix. }
  assert (Bl : blen (image rc) <= 2 ^ 31).
  { rewrite image_blen. pose proof (rec_ok_body _ _ Rc). unfold body_of in *. rewrite record_body_blen in *.
    change (r_key rc) with key in *. change (r_frame rc) with frame in *. unfold HEADER, MAX_BODY in *. blen_pos. lia. }
  destruct (Z.ltb_spec u64_max (bytes a + blen (image rc))) as [Hv|Hv]; [runs; split; [lia|done]|].
  rewrite Hc. rewrite bind_eq. rewrite (add_record_ok h rc Rc : add_record _ (blen payload) (blen frame) = _). cbn [run]. runs.
  pose proof (inv_commit _ _ _ _ _ _ _ _ I2 Ef E Rc Pr Hv) as I3.
  assert (Ew : forall x, x = count_rec a h rc -> with_log (replace_last x) w2 = with_log (set_files (fs ++ [count_rec a h rc])) w2).
  { intros x ->. unfold with_log, replace_last. f_equal. change (log w2) with (log w). by rewrite Ef, removelast_last. }
  rewrite Ew by done. clear Ew.
  exists (<[vf_id (handle a) := add_rec h rc]> G). split_and!.
  - intros i h' Hi. destruct (decide (i = vf_id (handle a))) as [->|N].
    + rewrite lookup_insert_eq. assert (h' = h) as -> by congruence. by exists (add_rec h rc), [rc].
    + exists h', []. by rewrite lookup_insert_ne, app_nil_r.
  - intros i h' rc' Hi Hr. destruct (decide (i = vf_id (handle a))) as [->|N].
    + rewrite lookup_insert_eq in Hi. injection Hi as <-. cbn in Hr. apply elem_of_app in Hr as [Hr|Hr]; [right; by exists h|left].
      apply list_elem_of_singleton in Hr as ->. done.
    + rewrite lookup_insert_ne in Hi by done. right. by exists h'.
  - exact I3.
  - unfold ext. cbn [log with_log]. split_and!; try done.
    + unfold ids. cbn [files set_files]. rewrite Ef. by rewrite !fmap_app.
    + intros s Hs. rewrite (sealed_snoc _ _ _ Ef) in Hs. by rewrite sealed_set.
    + intros Hq. by apply Q.
    + by left.
    + intros f Hf Hi. cbn [files set_files] in Hf. apply elem_of_app in Hf as [Hf|Hf]; [exists f; rewrite Ef; split_and!; [apply elem_of_app; by left|done|lia]|].
      apply list_elem_of_singleton in Hf as ->. exists a. cbn. split_and!; [done|done|]. blen_pos. lia.
    + intros i Hi. left. unfold ids in *. cbn [files set_files] in Hi. rewrite Ef. rewrite fmap_app in *. exact Hi.
  - exists rc. split_and!; try done.
    + exists (add_rec h rc), (h_recs h), []. cbn [file_id offset len]. by rewrite lookup_insert_eq.
    + exists (count_rec a h rc). cbn [log with_log files set_files]. rewrite last_snoc. cbn [live count_rec file_id len].
      rewrite image_blen. change (body_of rc) with (record_body key frame). split_and!; [done|done|lia|]. intros _. exists a. split_and!; [done|done|lia].
    + cbn [file_id offset]. intros h' Eh. assert (h' = h) as -> by congruence. lia.
Qed.

Lemma inv_sample G pins curs w payload : inv G pins curs w -> inv G pins curs (with_log (sample payload) w).
Proof.
  intros I. unfold sample, with_log. destruct (_ && _) eqn:C; destruct I as []; [|by constructor]. constructor; try done. cbn.
  apply list.Forall_app. split; [done|]. apply andb_true_iff in C as [_ C%negb_true_iff]. apply bool_decide_eq_false in C. by constructor.
Qed.

Lemma sample_files payload v : files (sample payload v) = files v.
Proof. unfold sample. by destruct (_ && _). Qed.

Lemma ext_sample payload w : ext w (with_log (sample payload) w).
Proof. unfold ext, sample. cbn. destruct (_ && _); (split_and!; try done; [by left| |by left]; intros f Hf _; by exists f). Qed.

(** Why an append may fail, or panic. *)
Definition append_fails (key payload : list byte) (w : World) : Prop :=
  create_fails w \/ MAX_BODY < 4 + blen key + blen payload.

Definition counters_full (w : World) : Prop :=
  2 ^ 32 <= next_id (log w) + 1 \/ exists s, s ∈ files (log w) /\ u64_max < bytes s + 2 ^ 31.

Lemma append_level_ok G pins curs w key payload high : inv G pins curs w -> files (log w) <> [] ->
  match append_level cpu key payload high w with
  | (Ok r, w') => exists G', grows G G' /\ adds (rec_for key payload) G G' /\ inv G' pins curs w' /\ ext w w' /\ appended G G' w w' key payload r /\
      4 + blen key + blen payload <= MAX_BODY
  | (Err _, w') => exists G', grows G G' /\ adds (rec_for key payload) G G' /\ inv G' pins curs w' /\ ext w w' /\ append_fails key payload w
  | (Crash, w') => counters_full w /\ counters_full w'
  | (Diverge, _) => False
  end.
Proof.
  intros I Ne. unfold append_level. destruct (Z.ltb_spec MAX_BODY (4 + blen key + blen payload)) as [Big|Sz].
  { cbn [throw]. exists G. split_and!; [apply hist_grows_refl|apply adds_refl|done|apply ext_refl|by right]. }
  destruct (files_snoc _ Ne) as (fs & a & Ef & _ & La & _). rewrite bind_eq. unfold active at 1. runs. rewrite La. runs.
  set (first := if rotate_bytes (log w) <=? bytes a then rotate else mret tt).
  assert (R : match first w with
    | (Ok _, w') => exists G', grows G G' /\ (forall P, adds P G G') /\ inv G' pins curs w' /\ ext w w' /\
        exists a1, last (files (log w')) = Some a1 /\ (bytes a1 = 0 \/ a1 ∈ files (log w))
    | (Err _, w') => inv G pins curs w' /\ ext w w' /\ create_fails w
    | (Crash, w') => 2 ^ 32 <= next_id (log w) + 1 /\ next_id (log w') = next_id (log w)
    | (Diverge, _) => False
    end).
  { subst first. destruct (rotate_bytes (log w) <=? bytes a).
    - pose proof (rotate_ok _ _ _ _ I) as R. destruct (rotate w) as [[u|e| |] w']; try done; [|by split_and!; apply R].
      destruct R as (G' & A & A' & B & C & _ & a1 & E1 & E2 & _). exists G'. split; [done|]. split; [done|]. split; [done|]. split; [done|]. exists a1. rewrite E1, last_snoc. auto.
    - exists G. split; [apply hist_grows_refl|]. split; [by intros P; apply adds_refl|]. split; [done|]. split; [apply ext_refl|]. exists a. split; [done|]. right. by apply last_Some_elem_of. }
  destruct (first w) as [[u|e| |] w1]; [|exists G; split_and!; [apply hist_grows_refl|apply adds_refl|apply R|apply R|left; apply R]|destruct R as [R1 R2]; split; left; lia|done].
  destruct R as (G1 & Gr1 & Ad1 & I1 & X1 & a1 & La1 & Ba1). runs.
  pose proof (inv_sample _ _ _ _ payload I1) as I2. pose proof (ext_sample payload w1) as X2. set (w2 := with_log (sample payload) w1) in *.
  assert (Ne2 : files (log w2) <> []) by (subst w2; cbn; rewrite sample_files; intros E0; by rewrite E0 in La1).
  destruct (files_snoc _ Ne2) as (fs2 & a2 & Ef2 & _ & La2 & _).
  assert (a2 = a1) as -> by (subst w2; cbn in La2; rewrite sample_files in La2; congruence).
  pose proof (store_record_ok _ _ _ _ key payload high _ _ I2 Ef2 Sz) as R.
  destruct (store_record cpu key payload high w2) as [[r|e| |] w3]; [| | |done].
  - destruct R as (G3 & Gr3 & Ad3 & I3 & X3 & (rc & A1 & A2 & A3 & A4 & A5)). exists G3. split_and!; try done.
    + by eapply grows_trans.
    + by eapply adds_trans.
    + eapply ext_trans; [exact X1|]. by eapply ext_trans.
    + exists rc. destruct A4 as (a3 & La3 & Ea3 & Pa3 & Ra3). split_and!; try done.
      { exists a3. split_and!; try done. intros Hi. destruct (Ra3 (ids_ext _ _ _ (ext_trans _ _ _ X1 X2) Hi)) as (f2 & Hf2 & E2 & L2).
        pose proof (ext_trans _ _ _ X1 X2) as (_ & _ & _ & _ & _ & _ & _ & _ & X9 & _).
        destruct (X9 f2 Hf2 ltac:(by rewrite E2)) as (f & Hf & Ef' & Lf). exists f. split_and!; [done|congruence|lia]. }
      intros h Eh. destruct (Gr1 _ _ Eh) as (h1 & more & E1 & _).
      specialize (A5 h1 E1). pose proof (images_grow _ _ _ _ _ Gr1 Eh E1). lia.
  - destruct R as (I3 & X3 & F). exists G1. split_and!; try done.
    + eapply ext_trans; [exact X1|]. by eapply ext_trans.
    + left. left. intros Hq. by apply F, X1.
  - destruct R as [R El]. destruct Ba1 as [B0|Hin]; [unfold u64_max in R; lia|]. split; right; exists a1; (split; [|done]); [done|].
    rewrite El. by apply last_Some_elem_of.
Qed.

(** ** Reading back *)

Lemma sorted_NoDup (l : list Z) : StronglySorted Z.lt l -> NoDup l.
Proof.
  induction 1 as [|x l S IH F]; constructor; [|done]. intros Hx. pose proof (proj1 (list.Forall_forall _ _) F x Hx). lia.
Qed.

Lemma find_unique G pins curs w s : inv G pins curs w -> s ∈ files (log w) ->
  exists i, list_find (fun s' => vf_id (handle s') = vf_id (handle s)) (files (log w)) = Some (i, s) /\ files (log w) !! i = Some s.
Proof.
  intros I Hs. destruct (list_find_elem_of (fun s' => vf_id (handle s') = vf_id (handle s)) (files (log w)) s Hs eq_refl) as [[i s'] E].
  pose proof (list_find_Some (fun s' => vf_id (handle s') = vf_id (handle s)) (files (log w)) i s') as [F _]. destruct (F E) as (Hi & P & _).
  apply list_elem_of_lookup in Hs as [j Hj]. pose proof (sorted_NoDup _ (i_sorted _ _ _ _ I)) as ND.
  assert (i = j) as ->.
  { eapply (NoDup_lookup _ i j); [exact ND| |]; unfold ids; rewrite list_lookup_fmap; [rewrite Hi; cbn; by rewrite P | by rewrite Hj]. }
  exists j. rewrite Hi in Hj. injection Hj as ->. done.
Qed.

(** [Vlog::read] when no system call fails. *)
Definition log_get (w : World) (r : VlogRef) : res (list byte * list byte) :=
  match find_file (log w) (file_id r) with
  | Some s => fetch (handle s) (content_of w (file_id r)) r
  | None => Err (FileGone (file_id r))
  end.

Lemma file_read_cases f r w : exists out, let w1 := with_outcomes (fun _ => out) w in
  (outcomes w = [] -> out = []) /\
  (file_read cpu f r w = (fetch f (content_of w (vf_id f)) r, w1) \/ file_read cpu f r w = (Err Os, w1) /\ outcomes w <> []).
Proof.
  destruct (attempt_cases w) as (out & Q & C). exists out. split; [exact Q|]. unfold file_read, read_image, read_exact_at. runs.
  destruct C as [-> |[-> F]]; [left|by right]. runs. unfold fetch. change (content_of (with_outcomes (fun _ => out) w) (vf_id f)) with (content_of w (vf_id f)).
  destruct (pread _ _ _) as [im|e| |]; cbn [mbind res_bind]; try done. runs.
  destruct (verify_image cpu r im) as [[k fr]|e| |]; cbn [mbind res_bind]; try done. runs.
  by destruct (decompress f fr).
Qed.

Lemma read_quiet w r : outcomes w = [] -> read cpu r w = (log_get w r, w).
Proof.
  intros Hq. unfold read, log_get. runs. destruct (find_file (log w) (file_id r)) as [s|] eqn:F; [|done].
  unfold find_file in F. destruct (list_find _ _) as [[i s']|] eqn:L; [|done]. injection F as ->.
  apply list_find_Some in L as (_ & Hid & _). destruct (file_read_cases (handle s) r w) as (out & Q & [E|[_ F]]); [|done].
  rewrite E, Hid. f_equal. rewrite Q by done. destruct w; cbn in *. by subst.
Qed.

Lemma log_get_at G pins curs w r rc : inv G pins curs w -> at_ref G r rc -> file_id r ∈ ids (log w) ->
  log_get w r = if MAX_BODY <? len r then Err (LengthMismatch (len r) (len r)) else Ok (r_key rc, r_payload rc).
Proof.
  intros I (h & pre & post & E & R & O & L) Hi. apply list_elem_of_fmap in Hi as (s & Es & Hs).
  destruct (inv_state _ _ _ _ _ I Hs) as (h' & E' & (Hp & _) & Ho & Pf). rewrite <- Es in *. assert (h' = h) as -> by congruence.
  unfold log_get, find_file. destruct (find_unique _ _ _ _ _ I Hs) as (i & F & _). rewrite Es in *. rewrite F. cbn [fmap option_fmap option_map snd].
  by eapply fetch_at.
Qed.

(** A reference that ends inside what its file has committed. *)
Definition committed (w : World) (r : VlogRef) : Prop :=
  exists s, s ∈ files (log w) /\ vf_id (handle s) = file_id r /\ 0 <= offset r /\ 0 <= len r /\ offset r + disk_len r <= bytes s.

Lemma fetch_prefix f p c c' r : 0 <= offset r -> 0 <= len r -> offset r + disk_len r <= blen p ->
  p `prefix_of` c -> p `prefix_of` c' -> fetch f c r = fetch f c' r.
Proof.
  intros Ho Hl He [t ->] [t' ->]. unfold fetch. enough (H : forall t, pread (p ++ t) (offset r) (disk_len r) = pread p (offset r) (disk_len r)) by (by rewrite !H).
  intros u. unfold pread. rewrite blen_app. blen_pos. unfold disk_len, HEADER in *.
  destruct (Z.ltb_spec (blen p + blen u) (offset r + (8 + len r))), (Z.ltb_spec (blen p) (offset r + (8 + len r))); try lia.
  f_equal. apply slice_app_l; lia.
Qed.

(** Committed references read the same in any later world that has the file. *)
Lemma committed_stable G G' pins pins' curs curs' w w' r : inv G pins curs w -> inv G' pins' curs' w' -> grows G G' ->
  committed w r -> file_id r ∈ ids (log w') -> log_get w' r = log_get w r.
Proof.
  intros I I' Gr (s & Hs & Es & Ho & Hl & He) Hi. apply list_elem_of_fmap in Hi as (s' & Es' & Hs').
  destruct (inv_state _ _ _ _ _ I Hs) as (h & E & (Hp & Hb & _) & _ & Pf).
  destruct (inv_state _ _ _ _ _ I' Hs') as (h' & E' & (Hp' & _) & _ & Pf').
  rewrite Es in E. rewrite <- Es' in E'. destruct (Gr _ _ E) as (h2 & more & E2 & _ & Dd & Rr). assert (h2 = h') as -> by congruence.
  unfold log_get, find_file. destruct (find_unique _ _ _ _ _ I Hs) as (i & F & _). destruct (find_unique _ _ _ _ _ I' Hs') as (j & F' & _).
  rewrite Es in *. rewrite <- Es' in *. rewrite F, F'. cbn [fmap option_fmap option_map snd].
  assert (handle s' = handle s) as ->.
  { destruct (handle s) as [x d] eqn:X, (handle s') as [x' d'] eqn:X'. cbn in *. f_equal; congruence. }
  eapply fetch_prefix; [done|done| | |exact Pf]; [rewrite <- Hb; exact He|]. etrans; [|exact Pf']. rewrite Rr, images_app. by eexists.
Qed.

Lemma own_ext w w' : ext w w' -> own w' = own w.
Proof. intros (_ & E & _). unfold own. by rewrite E. Qed.

Lemma files_ids v : files v <> [] <-> ids v <> [].
Proof. unfold ids. by destruct (files v). Qed.

Lemma good_ext G' pins w w' : good pins w -> inv G' pins (own w) w' -> ext w w' -> good pins w'.
Proof.
  intros [Ne _] I X. split; [|exists G'; by rewrite (own_ext _ _ X)]. apply files_ids in Ne. apply files_ids. destruct X as (_ & _ & [l ->] & _).
  by destruct (ids (log w)).
Qed.

Lemma committed_id w r : committed w r -> file_id r ∈ ids (log w).
Proof. intros (s & Hs & <- & _). apply list_elem_of_fmap. by exists s. Qed.

Lemma appended_id G G' w w' key payload r : appended G G' w w' key payload r -> file_id r ∈ ids (log w').
Proof. intros (rc & _ & _ & _ & (a & La & <- & _) & _). apply list_elem_of_fmap. exists a. split; [done|]. by apply last_Some_elem_of. Qed.

(** Room for one more record and one more file. *)
Definition room (w : World) : Prop :=
  next_id (log w) + 1 < 2 ^ 32 /\ (file_name (next_id (log w)) ∉ names w) /\ forall s, s ∈ files (log w) -> bytes s + 2 ^ 31 <= u64_max.

Lemma append_works pins w key payload high : good pins w -> outcomes w = [] -> room w ->
  4 + blen key + blen payload <= MAX_BODY ->
  exists r w' G G', append_level cpu key payload high w = (Ok r, w') /\ grows G G' /\ inv G pins (own w) w /\ inv G' pins (own w) w' /\
    ext w w' /\ appended G G' w w' key payload r /\ outcomes w' = [].
Proof.
  intros [Ne [G I]] Hq (R1 & R2 & R3) Sz. pose proof (append_level_ok _ _ _ _ key payload high I Ne) as H.
  destruct (append_level cpu key payload high w) as [[r|e| |] w']; [| | |done].
  - destruct H as (G' & A & _ & B & C & D & E). exists r, w', G, G'. split_and!; try done. by apply C.
  - exfalso. destruct H as (_ & _ & _ & _ & _ & [[H|H]|H]); [done|done|lia].
  - exfalso. destruct H as [[H|(s & Hs & H)] _]; [lia|]. specialize (R3 s Hs). lia.
Qed.

(** One more append, taken or refused. *)
Definition appends (w w' : World) : Prop :=
  exists key payload high, match append_level cpu key payload high w with (Ok _, w1) | (Err _, w1) => w1 = w' | _ => False end.

Lemma appends_keep pins curs w w' : rtc appends w w' -> forall G, inv G pins curs w -> files (log w) <> [] ->
  exists G', grows G G' /\ inv G' pins curs w' /\ ext w w'.
Proof.
  induction 1 as [w|w w1 w' (key & payload & high & A) _ IH]; intros G I Ne; [exists G; split_and!; [apply hist_grows_refl|done|apply ext_refl]|].
  pose proof (append_level_ok G pins curs w key payload high I Ne) as H.
  assert (S : exists G1, grows G G1 /\ inv G1 pins curs w1 /\ ext w w1).
  { destruct (append_level cpu key payload high w) as [[r|e| |] w2]; try done; subst w2; destruct H as (G1 & Gr & _ & I1 & X & _); by exists G1. }
  destruct S as (G1 & Gr & I1 & X). destruct (IH G1 I1) as (G' & Gr' & I' & X').
  - apply files_ids in Ne. apply files_ids. destruct X as (_ & _ & [l ->] & _). by destruct (ids (log w)).
  - exists G'. split_and!; [by eapply grows_trans|done|by eapply ext_trans].
Qed.

(** C11: With no failing system call and room in the counters, a record whose key
    and value leave six bytes of the limit for the frame is appended, at either
    level, and read back as the key and value, then and after any number of
    further appends, taken or refused; every reference inside what was committed
    before reads exactly what it did, also across a rotation. *)
Theorem append_reads_back (pins : list Z) (w : World) (key payload : list byte) (high : bool)
  (Hg : good pins w) (Hq : outcomes w = []) (Hr : room w) (Hs : 4 + blen key + blen payload + 6 <= MAX_BODY) :
  exists r w', append_level cpu key payload high w = (Ok r, w') /\ good pins w' /\
    (forall w2, rtc appends w' w2 -> fst (read cpu r w2) = Ok (key, payload)) /\
    forall r0, committed w r0 -> r0 <> r /\ fst (read cpu r0 w') = fst (read cpu r0 w).
Proof.
  destruct (append_works pins w key payload high Hg Hq Hr ltac:(lia)) as (r & w' & G & G' & E & Gr & I & I' & X & A & Q).
  exists r, w'. split; [done|]. pose proof (good_ext _ _ _ _ Hg I' X) as Hg'. split; [done|]. pose proof (appended_id _ _ _ _ _ _ _ A) as Hi.
  destruct A as (rc & A & Ek & Ep & (a & La & Ea & _) & Fresh). split.
  - intros w2 More. destruct (appends_keep _ _ _ _ More G' I' (proj1 Hg')) as (G2 & Gr2 & I2 & X2). rewrite read_quiet by (by apply X2). cbn [fst].
    rewrite (log_get_at _ _ _ _ _ _ I2 (at_ref_grows _ _ _ _ Gr2 A) (ids_ext _ _ _ X2 Hi)), Ek, Ep.
    destruct (Z.ltb_spec MAX_BODY (len r)) as [L|_]; [|done]. exfalso. destruct A as (h & pre & post & Eh & Rh & _ & Lr).
    destruct (i_hist _ _ _ _ I' _ _ Eh) as [(_ & _ & F) _]. rewrite Rh, list.Forall_app, list.Forall_cons in F.
    destruct F as (_ & (_ & _ & F) & _). unfold body_of in Lr. rewrite record_body_blen in Lr. rewrite Ek, Ep in *. lia.
  - intros r0 C. rewrite !read_quiet by done. cbn [fst]. split; [|eapply committed_stable; try done; eapply ids_ext; [done|by apply committed_id]].
    intros ->. destruct C as (s & Hs0 & Es & Ho & Hl & He). destruct (inv_state _ _ _ _ _ I Hs0) as (h0 & E0 & (_ & Hb & _) & _).
    rewrite Es in E0. specialize (Fresh h0 E0). unfold disk_len, HEADER in He. lia.
Qed.

(** The size check is on the value, the limit of the reader on the stored body:
    a record that passes the check but whose frame header alone takes the body
    past the limit is written and acknowledged, and its reference is refused. *)
Theorem append_accepts_unreadable (pins : list Z) (w : World) (key payload : list byte) (high : bool)
  (Hg : good pins w) (Hq : outcomes w = []) (Hr : room w)
  (Hs : 4 + blen key + blen payload <= MAX_BODY) (Hl : MAX_BODY < 4 + blen key + 1 + leb128_len (blen payload)) :
  exists r w', append_level cpu key payload high w = (Ok r, w') /\ MAX_BODY < len r /\
    fst (read cpu r w') = Err (LengthMismatch (len r) (len r)).
Proof.
  destruct (append_works pins w key payload high Hg Hq Hr Hs) as (r & w' & G & G' & E & Gr & I & I' & X & A & Q).
  exists r, w'. split; [done|]. pose proof (appended_id _ _ _ _ _ _ _ A) as Hi. destruct A as (rc & A & Ek & Ep & _).
  rewrite read_quiet by done. cbn [fst]. rewrite (log_get_at _ _ _ _ _ _ I' A Hi). assert (B : MAX_BODY < len r).
  { destruct A as (h & pre & post & Eh & Rh & _ & ->). destruct (i_hist _ _ _ _ I' _ _ Eh) as [(_ & _ & F) _].
    rewrite Rh, list.Forall_app, list.Forall_cons in F. destruct F as (_ & (_ & _ & F) & _). unfold body_of. rewrite record_body_blen.
    rewrite Ek, Ep in *. lia. }
  split; [done|]. by destruct (Z.ltb_spec MAX_BODY (len r)); [|lia].
Qed.

(** ** Opening *)

Definition is_vlog (name : list byte) : Prop := take 5 name = bs "vlog-".

#[global] Instance is_vlog_dec name : Decision (is_vlog name).
Proof. unfold is_vlog. apply _. Defined.

(** What a new process starts from: no handles, any directory. *)
Definition fresh (w : World) : Prop := arcs w = ∅ /\ retired w = ∅.

Lemma sweep_ok entries : forall w, fresh w ->
  match sweep entries w with
  | (Ok _, w') => fresh w' /\ (outcomes w = [] -> outcomes w' = [] /\
      forall n, n ∈ names w' <-> n ∈ names w /\ ~ (n ∈ entries /\ is_vlog n))
  | (Err _, w') => outcomes w <> []
  | (Crash, _) | (Diverge, _) => False
  end.
Proof.
  induction entries as [|e entries IH]; intros w Hf; cbn [sweep].
  { split; [done|]. intros Hq. split; [done|]. intros n. split; [|tauto]. intros H. split; [done|]. by intros [?%not_elem_of_nil _]. }
  rewrite bind_eq. destruct (attempt_cases w) as (out & Q & [->|[-> F]]); [|done]. set (w1 := with_outcomes (fun _ => out) w).
  assert (R : exists w2, (if bool_decide (is_vlog e) then remove_file e else mret tt) w1 = (Ok tt, w2) /\ fresh w2 /\
    (outcomes w = [] -> outcomes w2 = [] /\ forall n, n ∈ names w2 <-> n ∈ names w /\ ~ (n = e /\ is_vlog n))).
  { case_bool_decide as V.
    - unfold remove_file. rewrite bind_eq. destruct (syscall_cases w1) as (o & out' & -> & Q').
      destruct o; cbn [modify mret prog_ret]; (eexists; split; [reflexivity|]); (split; [done|]); intros Hq.
      + specialize (Q' (Q Hq)) as [_ ->]. split; [done|]. intros n. cbn. rewrite elem_of_difference, elem_of_singleton. split; [tauto|].
        intros [A B]. split; [done|]. intros ->. by apply B.
      + by specialize (Q' (Q Hq)) as [? _].
    - eexists. split; [reflexivity|]. split; [done|]. intros Hq. split; [by apply Q|]. intros n. cbn. split; [|by intros [A _]].
      intros A. split; [done|]. by intros [-> ?]. }
  destruct R as (w2 & E & Hf2 & H2). rewrite bind_eq. change (bool_decide (take 5 e = bs "vlog-")) with (bool_decide (is_vlog e)). rewrite E.
  pose proof (IH w2 Hf2) as H. destruct (sweep entries w2) as [[u|er| |] w']; [| |done|done].
  - destruct H as [A B]. split; [done|]. intros Hq. destruct (H2 Hq) as [Q2 N2]. destruct (B Q2) as [Q3 N3]. split; [done|].
    intros n. rewrite N3, N2, elem_of_cons. tauto.
  - intros Hq. destruct (H2 Hq) as [Q2 _]. by apply H.
Qed.

Lemma inv_blank w rb : fresh w -> inv ∅ [] [] (with_log (fun _ => mkVlog rb [] 0 0 None [] 0) w).
Proof.
  intros [Fa Fr]. constructor; cbn [log names inodes arcs retired with_log]; try (done || by constructor).
  - intros id [h H]. by rewrite lookup_empty in H.
  - intros id. by rewrite Fa, lookup_empty.
  - intros id H. rewrite Fr in H. set_solver.
  - intros id [n H]. by rewrite Fa, lookup_empty in H.
Qed.

Lemma open_ok (rb : Z) (w : World) (Hf : fresh w) :
  match open rb w with
  | (Ok _, w') => (own w' = [] /\ exists G, inv G [] [] w' /\ forall id h, G !! id = Some h -> h_recs h = []) /\ good [] w' /\ ids (log w') = [0] /\ sum_of bytes (files (log w')) = 0 /\
      (outcomes w = [] -> outcomes w' = [] /\
       forall n, n ∈ names w' <-> n = file_name 0 \/ (n ∈ names w /\ ~ is_vlog n))
  | (Err _, _) => outcomes w <> []
  | (Crash, _) | (Diverge, _) => False
  end.
Proof.
  unfold open. rewrite bind_eq. destruct (attempt_cases w) as (o1 & Q1 & [->|[-> F]]); [|done]. rewrite bind_eq.
  destruct (attempt_cases (with_outcomes (fun _ => o1) w)) as (o2 & Q2 & [->|[-> F]]); [|by intros H; apply F, Q1].
  runs. set (w2 := with_outcomes (fun _ => o2) _). assert (Hf2 : fresh w2) by done.
  pose proof (sweep_ok (elements (names w2)) w2 Hf2) as S. destruct (sweep _ w2) as [[u|e| |] w3]; [| |done|done].
  2: { intros H. apply S. by apply Q2, Q1. }
  destruct S as [Hf3 S]. runs. set (w4 := with_log _ w3). pose proof (inv_blank w3 (Z.max rb 1) Hf3) as I. fold w4 in I.
  pose proof (open_next_file_ok ∅ [] [] w4 [] I ltac:(by right)) as R.
  assert (Nm : outcomes w = [] -> outcomes w3 = [] /\ forall n, n ∈ names w3 <-> n ∈ names w /\ ~ is_vlog n).
  { intros H. destruct (S (Q2 (Q1 H))) as [A B]. split; [done|]. intros n. rewrite B, elem_of_elements. cbn. tauto. }
  destruct (open_next_file [] w4) as [[u'|e| |] w5]; [| |cbn in R; lia|done].
  - destruct R as (G & _ & Ad & I5 & (_ & X & _ & _ & _ & _ & Q5 & _) & N5 & a & F5 & B5 & V5). cbn in F5, X, N5, V5. split; [|split_and!].
    + unfold own. rewrite X. split; [done|]. exists G. split; [done|]. intros id h E. destruct (h_recs h) as [|rc l] eqn:Er; [done|].
      destruct (Ad (fun _ => False) id h rc E) as [[]|(h0 & E0 & _)]; [rewrite Er; by left|]. by rewrite lookup_empty in E0.
    + split; [rewrite F5; done|]. exists G. unfold own. by rewrite X.
    + unfold ids. rewrite F5. cbn. by rewrite V5.
    + rewrite F5. unfold sum_of. cbn. lia.
    + intros H. destruct (Nm H) as [A B]. split; [by apply Q5|]. intros n. rewrite N5, elem_of_union, elem_of_singleton, B. tauto.
  - intros H. destruct R as (_ & _ & [C|C] & _); cbn in C; destruct (Nm H) as [A B]; [done|]. apply B in C as [_ C]. by apply C.
Qed.

(** Opening, in a process with no handles yet and over any directory: the log is
    in good order with one empty file, or the caller gets the error.  When no
    system call fails it succeeds, and the directory holds the new file and
    what was there before, less every leftover log file. *)
Theorem open_sweeps (rb : Z) (w : World) (Hf : fresh w) :
  match open rb w with
  | (Ok _, w') => good [] w' /\ ids (log w') = [0] /\ sum_of bytes (files (log w')) = 0 /\
      (outcomes w = [] -> outcomes w' = [] /\
       forall n, n ∈ names w' <-> n = file_name 0 \/ (n ∈ names w /\ ~ is_vlog n))
  | (Err _, _) => outcomes w <> []
  | (Crash, _) | (Diverge, _) => False
  end.
Proof. pose proof (open_ok rb w Hf) as O. by destruct (open rb w) as [[u|e| |] w']; [apply O| | |]. Qed.

End Spec.

(** ** At concrete inputs *)

Definition blank : Vlog := mkVlog 0 [] 0 0 None [] 0.

(** A log that rotates at 40 bytes, over a directory with a leftover. *)
Definition start : World := mkWorld blank {[bs "vlog-00000007.dat"; bs "aof"]} ∅ ∅ ∅ [].
Definition opened : World := snd (open 40 start).

Lemma opened_good : good NoCrc [] opened /\ outcomes opened = [].
Proof.
  pose proof (open_ok NoCrc 40 start (conj eq_refl eq_refl)) as H. unfold opened. revert H.
  generalize (open 40 start) as p. intros [[u|e| |] w'] H; cbn [snd].
  - destruct H as (_ & A & _ & _ & B). split; [exact A|]. apply (B eq_refl).
  - destruct (H eq_refl).
  - destruct H.
  - destruct H.
Qed.

Lemma opened_room : room opened.
Proof.
  split_and!; [vm_compute; reflexivity| |].
  - assert (E : bool_decide (file_name (next_id (log opened)) ∈ names opened) = false) by (vm_compute; reflexivity).
    by apply bool_decide_eq_false in E.
  - intros s Hs. assert (E : forallb (fun s => bytes s + 2 ^ 31 <=? u64_max) (files (log opened)) = true) by (vm_compute; reflexivity).
    rewrite forallb_forall in E. apply Z.leb_le, E. by apply list_elem_of_In.
Qed.

Lemma open_sweeps_witness : good NoCrc [] opened /\ file_name 0 ∈ names opened /\ bs "aof" ∈ names opened /\ bs "vlog-00000007.dat" ∉ names opened.
Proof.
  pose proof (open_sweeps NoCrc 40 start (conj eq_refl eq_refl)) as H. unfold opened. revert H.
  generalize (open 40 start) as p. intros [[u|e| |] w'] H; cbn [snd].
  - destruct H as (A & _ & _ & B). destruct (B eq_refl) as [_ N]. split; [exact A|]. split; [apply N; left; reflexivity|].
    split; [apply N; right; split; [unfold start; cbn [names]; set_solver|discriminate]|].
    intros K. apply N in K. destruct K as [K|[_ K]]; [discriminate K|apply K; reflexivity].
  - destruct (H eq_refl).
  - destruct H.
  - destruct H.
Defined.

Lemma append_reads_back_witness : exists r w', append NoCrc (bs "user:1") (bs "a cold value") opened = (Ok r, w') /\
  let w2 := snd (append NoCrc (bs "user:2") (bs "another") w') in fst (read NoCrc r w2) = Ok (bs "user:1", bs "a cold value").
Proof.
  destruct (append_reads_back NoCrc [] opened (bs "user:1") (bs "a cold value") false (proj1 opened_good) (proj2 opened_good)
    opened_room ltac:(vm_compute; discriminate)) as (r & w' & E & _ & R & _).
  exists r, w'. split; [exact E|]. apply R. apply rtc_once. exists (bs "user:2"), (bs "another"), false.
  vm_compute in E. injection E as _ <-. vm_compute. reflexivity.
Defined.

(** A key as long as the limit allows, and an empty value. *)
Definition long_key : list byte := replicate (Z.to_nat (2 ^ 30 - 4)) x00.

Lemma long_key_blen : blen long_key = 2 ^ 30 - 4.
Proof. unfold blen, long_key. rewrite length_replicate. lia. Qed.

Lemma append_accepts_unreadable_witness : exists r w', append NoCrc long_key [] opened = (Ok r, w') /\
  fst (read NoCrc r w') = Err (LengthMismatch (len r) (len r)).
Proof.
  destruct (append_accepts_unreadable NoCrc [] opened long_key [] false (proj1 opened_good) (proj2 opened_good) opened_room
    ltac:(rewrite long_key_blen; vm_compute; discriminate) ltac:(rewrite long_key_blen; vm_compute; reflexivity)) as (r & w' & E & _ & R).
  exists r, w'. split; [exact E|exact R].
Defined.
