(* ===== verification/VlogCompact.v ===== *)
(** * Compaction of the value log

    The owner of the references answers whether a record is still reached and
    repoints itself when one moves.  Against that contract, compaction keeps
    every value the owner reaches, whatever system calls fail and wherever the
    step stops; draining fully ends. *)

From Stdlib Require Import ZArith Lia Bool Sorted Strings.Byte Strings.String.
From stdpp Require Import base tactics list numbers gmap.
From S2P Require Import Prelude FindCrlf Buffers Encode Huff Lz Compress Crc32c Vlog VlogSpec.

#[local] Open Scope list_scope.
#[local] Open Scope Z_scope.

Section Retire.
Context (cpu : Cpu).
#[local] Abbreviation inv := (inv cpu).

(** ** Counters *)

(** The file states with other live counts. *)
Definition relabelled (s s' : FileState) : Prop :=
  handle s' = handle s /\ bytes s' = bytes s /\ compression s' = compression s /\ 0 <= live s' <= bytes s'.

Lemma inv_relabel G pins curs w fs' : inv G pins curs w -> Forall2 relabelled (files (log w)) fs' ->
  inv G pins curs (with_log (set_files fs') w).
Proof.
  intros I F. assert (Ei : ids (set_files fs' (log w)) = ids (log w)).
  { unfold ids. cbn [files set_files]. clear I. induction F as [|s s' l l' (E & _) _ IH]; [done|]. cbn. by rewrite E, IH. }
  destruct I as []. constructor; cbn [log names inodes arcs retired with_log]; try done.
  - cbn [files set_files]. revert i_files. clear -F. induction F as [|s s' l l' (E1 & E2 & E3 & E4) _ IH]; [by constructor|].
    rewrite !list.Forall_cons. intros [(h & E & S1 & S2 & S3 & S4 & S5) R]. split; [|by apply IH]. exists h. rewrite E1. split; [done|].
    unfold state_ok. rewrite E1, E2, E3. rewrite E2 in E4. split_and!; try done; lia.
  - by rewrite Ei.
  - eapply list.Forall_impl; [exact i_cursors|]. intros c. apply cursor_mono. intros s Hs. unfold sealed in *. cbn [files set_files].
    rewrite <- (Forall2_length _ _ _ F). apply elem_of_take in Hs as (i & Hi & Hl).
    destruct (Forall2_lookup_l _ _ _ _ _ F Hi) as (s' & Hi' & E1 & E2 & _). exists s'. split; [|done].
    apply elem_of_take. by exists i.
  - intros i. unfold holders. by rewrite Ei.
  - intros i Hi. rewrite Ei. by apply i_retired.
Qed.

Lemma live_range G pins curs w s : inv G pins curs w -> s ∈ files (log w) -> 0 <= live s <= bytes s.
Proof. intros I Hs. by destruct (inv_state _ _ _ _ _ _ I Hs) as (h & _ & (_ & _ & L & _) & _). Qed.

Lemma relabelled_refl G pins curs w : inv G pins curs w -> Forall2 relabelled (files (log w)) (files (log w)).
Proof.
  intros I. apply Forall2_same_length_lookup_2; [done|]. intros i x y Hx Hy. rewrite Hx in Hy. injection Hy as <-.
  split_and!; try done; eapply live_range; try done; by eapply list_elem_of_lookup_2.
Qed.

Lemma note_dead_ok G pins curs w r : inv G pins curs w -> 0 <= len r ->
  exists fs', note_dead r w = (Ok tt, with_log (set_files fs') w) /\ Forall2 relabelled (files (log w)) fs'.
Proof.
  intros I Hl. unfold note_dead, modify, with_log. destruct (list_find _ _) as [[i s]|] eqn:E.
  - eexists. split; [reflexivity|]. apply list_find_Some in E as (Hi & _).
    pose proof (live_range _ _ _ _ s I ltac:(by eapply list_elem_of_lookup_2)).
    pose proof (relabelled_refl _ _ _ _ I) as R. rewrite <- (list_insert_id (files (log w)) i s Hi) at 1. apply Forall2_insert; [done|].
    split_and!; try done; cbn; unfold HEADER; lia.
  - exists (files (log w)). split; [by destruct w as [[]]|]. by eapply relabelled_refl.
Qed.

Lemma mark_all_dead_ok G pins curs w : inv G pins curs w ->
  exists fs', mark_all_dead w = (Ok tt, with_log (set_files fs') w) /\ Forall2 relabelled (files (log w)) fs' /\ Forall (fun s => live s = 0) fs'.
Proof.
  intros I. eexists. split; [reflexivity|]. split.
  - apply Forall2_fmap_r. eapply Forall2_impl; [by eapply relabelled_refl|]. intros s s' (E1 & E2 & E3 & E4). unfold relabelled. cbn.
    split_and!; try done; lia.
  - apply list.Forall_fmap. by apply list.Forall_true.
Qed.

(** ** Retiring a file *)

(** A cursor's handle seen as a pin, for the part of a step after its loop. *)
Lemma inv_cursor_pin G pins c w : inv G pins [c] w -> inv G (c_file_id c :: pins) [] w.
Proof.
  intros []. constructor; try done.
  - intros i. rewrite i_arcs. assert (E : holders pins [c] (log w) i = holders (c_file_id c :: pins) [] (log w) i); [|by rewrite E].
    unfold holders. cbn [fmap list_fmap]. rewrite !occ_cons. lia.
  - constructor; [|done]. rewrite list.Forall_cons in i_cursors. destruct i_cursors as [(s & h & pre & post & _ & _ & -> & _ & -> & _) _]. done.
Qed.

Lemma inv_remove G pins w l1 s l2 : inv G pins [] w -> files (log w) = l1 ++ s :: l2 ->
  inv G (vf_id (handle s) :: pins) [] (with_retired ({[vf_id (handle s)]} ∪.) (with_log (set_files (l1 ++ l2)) w)).
Proof.
  intros I Ef. assert (Hin : s ∈ files (log w)) by (rewrite Ef; apply elem_of_app; right; by left).
  assert (Ei : ids (log w) = ((fun s => vf_id (handle s)) <$> l1) ++ vf_id (handle s) :: ((fun s => vf_id (handle s)) <$> l2)).
  { unfold ids. by rewrite Ef, fmap_app. }
  assert (Ei' : ids (set_files (l1 ++ l2) (log w)) = ((fun s => vf_id (handle s)) <$> l1) ++ ((fun s => vf_id (handle s)) <$> l2)).
  { unfold ids. cbn [files set_files]. by rewrite fmap_app. }
  pose proof (id_known _ _ _ _ _ _ I Hin) as Hid. pose proof (sorted_NoDup _ (i_sorted _ _ _ _ _ I)) as ND.
  destruct (inv_state _ _ _ _ _ _ I Hin) as (h & Eh & _).
  destruct I as []. constructor; cbn [log names inodes arcs retired with_log with_retired]; try done.
  - cbn [files set_files]. rewrite Ef, list.Forall_app, list.Forall_cons in i_files. apply list.Forall_app. tauto.
  - rewrite Ei'. rewrite Ei in i_sorted. revert i_sorted. generalize ((fun s => vf_id (handle s)) <$> l1) as k1. clear.
    intros k1. induction k1 as [|x k1 IH]; cbn; intros S; inversion S as [|? ? S' F]; subst; [done|]. constructor; [by apply IH|].
    rewrite list.Forall_app, list.Forall_cons in F. apply list.Forall_app. tauto.
  - intros i. rewrite i_arcs.
    assert (E : holders pins [] (log w) i = holders (vf_id (handle s) :: pins) [] (set_files (l1 ++ l2) (log w)) i); [|by rewrite E].
    unfold holders. rewrite Ei, Ei', !occ_app, !occ_cons. lia.
  - constructor; [by rewrite Eh|done].
  - intros i Hi. apply elem_of_union in Hi as [Hi|Hi].
    + apply elem_of_singleton in Hi as ->. split; [|done]. rewrite Ei'. rewrite Ei in ND. apply list.NoDup_app in ND as (_ & N1 & N2).
      inversion N2; subst. intros [M|M]%elem_of_app; [|done]. apply (N1 _ M). by left.
    + destruct (i_retired i Hi) as [A B]. split; [|done]. intros M. apply A. rewrite Ei. rewrite Ei' in M. rewrite elem_of_app in M.
      rewrite elem_of_app, elem_of_cons. tauto.
Qed.

(** What retiring files keeps. *)
Definition shrinks (w w' : World) : Prop :=
  compaction (log w') = compaction (log w) /\ next_id (log w') = next_id (log w) /\ inodes w' = inodes w /\
  files (log w') `sublist_of` files (log w) /\ (outcomes w = [] -> outcomes w' = []) /\ names w' ⊆ names w /\
  rotate_bytes (log w') = rotate_bytes (log w).

Lemma shrinks_refl w : shrinks w w.
Proof. by split_and!. Qed.

Lemma shrinks_trans w1 w2 w3 : shrinks w1 w2 -> shrinks w2 w3 -> shrinks w1 w3.
Proof.
  intros (A1 & A2 & A3 & A4 & A5 & A6 & A7) (B1 & B2 & B3 & B4 & B5 & B6 & B7). split_and!; [congruence..|by etrans|by intros ?%A5%B5| |congruence].
  by etrans.
Qed.

Lemma retire_ok G pins w s : inv G pins [] w -> s ∈ files (log w) ->
  exists w' l1 l2, retire (vf_id (handle s)) w = (Ok true, w') /\ inv G pins [] w' /\ shrinks w w' /\ epoch (log w') = epoch (log w) /\
    files (log w) = l1 ++ s :: l2 /\ files (log w') = l1 ++ l2.
Proof.
  intros I Hs. unfold retire. runs. destruct (find_unique _ _ _ _ _ _ I Hs) as (i & -> & Hi). runs.
  assert (Ef : files (log w) = take i (files (log w)) ++ s :: drop (S i) (files (log w))) by (symmetry; by apply take_drop_middle).
  pose proof (inv_remove _ _ _ _ _ _ I Ef) as I1.
  replace (with_log (fun v => set_files (delete i (files v)) v) w) with (with_log (set_files (take i (files (log w)) ++ drop (S i) (files (log w)))) w)
    by (unfold with_log; by rewrite delete_take_drop).
  destruct (arc_drop_ok _ _ _ _ _ _ I1) as (w' & -> & I' & El & En & _ & Q & Nm). runs.
  exists w', (take i (files (log w))), (drop (S i) (files (log w))). split; [done|]. split; [done|]. split.
  - unfold shrinks. rewrite El. cbn [log with_retired with_log set_files compaction next_id files rotate_bytes]. split_and!; try done.
    rewrite Ef at 3. apply sublist_app; [done|]. by apply sublist_cons.
  - rewrite El. by split_and!.
Qed.

Definition epoch_full (w : World) : Prop := u64_max <= epoch (log w).

Lemma bump_epoch_ok G pins curs w : inv G pins curs w ->
  match bump_epoch w with
  | (Ok _, w') => inv G pins curs w' /\ w' = with_log (set_epoch (epoch (log w) + 1)) w
  | (Crash, w') => epoch_full w'
  | (Err _, _) | (Diverge, _) => False
  end.
Proof.
  intros I. unfold bump_epoch. runs. destruct (Z.leb_spec (epoch (log w) + 1) u64_max); runs; [|unfold epoch_full; lia].
  split; [|done]. destruct I. by constructor.
Qed.

(** ** Choosing a victim *)

Lemma elem_of_sublist {A} (x : A) l k : x ∈ l -> l `sublist_of` k -> x ∈ k.
Proof. intros H S. eapply elem_of_submseteq; [exact H|]. by apply sublist_submseteq. Qed.

Lemma sublist_whole {A} (l k : list A) : l `sublist_of` k -> (length k <= length l)%nat -> l = k.
Proof.
  induction 1 as [|x l k S IH|x l k S IH]; cbn; intros L; [done|f_equal; apply IH; lia|]. pose proof (sublist_length _ _ S). lia.
Qed.

Lemma sublist_last {A} (l' fs : list A) a : l' `sublist_of` fs ++ [a] -> a ∈ l' -> a ∉ fs -> exists fs', l' = fs' ++ [a] /\ fs' `sublist_of` fs.
Proof.
  intros S Ha Hn. apply sublist_app_r in S as (l1 & l2 & -> & S1 & S2). apply sublist_cons_r in S2 as [S2|(l & -> & S2)].
  - apply sublist_nil_r in S2 as ->. rewrite app_nil_r in Ha. exfalso. apply Hn. by eapply elem_of_sublist.
  - apply sublist_nil_r in S2 as ->. by exists l1.
Qed.

Lemma drop_dead_ok G pins dead : forall w, inv G pins [] w ->
  match drop_dead dead w with
  | (Ok _, w') => inv G pins [] w' /\ shrinks w w' /\ (forall s, s ∈ files (log w) -> vf_id (handle s) ∉ dead -> s ∈ files (log w')) /\
      (forall s, s ∈ files (log w') -> vf_id (handle s) ∉ dead) /\ epoch (log w') = epoch (log w) + (blen (files (log w)) - blen (files (log w')))
  | (Crash, w') => epoch_full w'
  | (Err _, _) | (Diverge, _) => False
  end.
Proof.
  induction dead as [|id dead IH]; intros w I; cbn [drop_dead]; [split_and!; try done; [by intros s _ ?%not_elem_of_nil|lia]|]. rewrite bind_eq.
  destruct (decide (id ∈ ids (log w))) as [Hi|Hi].
  - apply list_elem_of_fmap in Hi as (s & -> & Hs). destruct (retire_ok _ _ _ _ I Hs) as (w1 & l1 & l2 & -> & I1 & S1 & E1 & F & F1).
    runs. pose proof (bump_epoch_ok _ _ _ _ I1) as B. destruct (bump_epoch w1) as [[u|e| |] w2]; [|done|done|done].
    destruct B as [I2 ->]. pose proof (IH _ I2) as H. set (w2 := with_log _ w1) in *.
    destruct (drop_dead dead w2) as [[u'|e| |] w3]; [|done|done|done]. destruct H as (I3 & S3 & K & Gn & E3). split_and!; [done| | | |].
    + eapply shrinks_trans; [exact S1|]. exact S3.
    + intros x Hx Nx. rewrite elem_of_cons in Nx. apply K; [|tauto]. subst w2. cbn [log with_log set_epoch files]. rewrite F1.
      rewrite F in Hx. rewrite elem_of_app, elem_of_cons in Hx. rewrite elem_of_app. destruct Hx as [?|[->|?]]; [tauto| |tauto]. tauto.
    + intros x Hx. rewrite elem_of_cons. intros [Ex|M]; [|by eapply Gn]. destruct S3 as (_ & _ & _ & S3 & _).
      pose proof (elem_of_sublist _ _ _ Hx S3) as Hx1. subst w2. cbn [log with_log set_epoch files] in Hx1. rewrite F1 in Hx1.
      pose proof (sorted_NoDup _ (i_sorted _ _ _ _ _ I)) as ND. unfold ids in ND. rewrite F, fmap_app, fmap_cons in ND.
      apply list.NoDup_app in ND as (_ & N1 & N2). apply NoDup_cons in N2 as [N2 _]. rewrite <- Ex in *.
      apply elem_of_app in Hx1 as [M|M]; [apply (N1 (vf_id (handle x))); [|by left]|apply N2]; apply list_elem_of_fmap; by exists x.
    + rewrite E3. subst w2. cbn [log with_log set_epoch files epoch]. rewrite E1, F, F1, !blen_app, blen_cons. lia.
  - assert (Er : retire id w = (Ok false, w)).
    { unfold retire. runs. destruct (list_find _ _) as [[i s]|] eqn:L; [|done]. exfalso. apply Hi. apply list_find_Some in L as (Li & P & _).
      apply list_elem_of_fmap. exists s. split; [done|]. by eapply list_elem_of_lookup_2. }
    rewrite Er. runs. pose proof (IH _ I) as H. destruct (drop_dead dead w) as [[u'|e| |] w3]; [|done|done|done].
    destruct H as (I3 & S3 & K & Gn & E3). split_and!; try done.
    + intros x Hx Nx. apply K; [done|]. intros M. apply Nx. by right.
    + intros x Hx. rewrite elem_of_cons. intros [Ex|M]; [|by eapply Gn]. apply Hi. rewrite <- Ex. destruct S3 as (_ & _ & _ & S3 & _).
      apply list_elem_of_fmap. exists x. split; [done|]. by eapply elem_of_sublist.
Qed.

Lemma inv_pin_cursor G pins c w : inv G (c_file_id c :: pins) [] w -> cursor_ok cpu G (log w) c -> inv G pins [c] w.
Proof.
  intros [] C. constructor; try done.
  - by constructor.
  - intros i. rewrite i_arcs. assert (E : holders pins [c] (log w) i = holders (c_file_id c :: pins) [] (log w) i); [|by rewrite E].
    unfold holders. cbn [fmap list_fmap]. rewrite !occ_cons. lia.
  - by inversion i_pins.
Qed.

Lemma inv_set_compaction G pins curs w c : inv G pins curs w -> inv G pins curs (with_log (set_compaction c) w).
Proof. intros []. by constructor. Qed.

(** From [w] to [w']: only dead sealed files went. *)
Definition begun (id_below : Z) (w w' : World) : Prop :=
  next_id (log w') = next_id (log w) /\ inodes w' = inodes w /\ files (log w') `sublist_of` files (log w) /\ files (log w') <> [] /\
  (forall s, s ∈ files (log w) -> s ∈ files (log w') \/ s ∈ sealed (log w) /\ is_dead id_below s = true) /\
  (forall s, s ∈ sealed (log w) -> s ∈ files (log w') -> s ∈ sealed (log w')) /\
  epoch (log w') = epoch (log w) + (blen (files (log w)) - blen (files (log w'))) /\
  (outcomes w = [] -> outcomes w' = []) /\ names w' ⊆ names w /\ rotate_bytes (log w') = rotate_bytes (log w).

Definition cursor_on (s : FileState) : CompactCursor := mkCursor (handle s) (vf_id (handle s)) (bytes s) 0.

Lemma begin_compaction_ok G pins w live_pct id_below : inv G pins [] w -> compaction (log w) = None -> files (log w) <> [] ->
  match begin_compaction live_pct id_below w with
  | (Ok true, w') => begun id_below w w' /\ exists s, s ∈ sealed (log w') /\ is_victim live_pct id_below s = true /\
      compaction (log w') = Some (cursor_on s) /\ inv G pins [cursor_on s] w'
  | (Ok false, w') => begun id_below w w' /\ compaction (log w') = None /\ inv G pins [] w' /\
      forall s, s ∈ sealed (log w') -> is_dead id_below s = false /\ is_victim live_pct id_below s = false
  | (Crash, w') => epoch_full w'
  | (Err _, _) | (Diverge, _) => False
  end.
Proof.
  intros I Nc Ne. unfold begin_compaction. runs. destruct (files_snoc _ Ne) as (fs & a & Ef & Es & La & _).
  set (dead := (fun s => vf_id (handle s)) <$> filter (fun s => is_dead id_below s) (sealed (log w))).
  pose proof (drop_dead_ok G pins dead w I) as D. destruct (drop_dead dead w) as [[u|e| |] w1]; [|done|done|done].
  destruct D as (I1 & (S1 & S2 & S3 & S4 & S5 & S6 & S7) & K & Gn & Ep).
  assert (An : a ∉ fs) by (intros M; pose proof (sealed_below _ _ _ _ _ _ _ _ I Ef M); lia).
  assert (Ad : vf_id (handle a) ∉ dead).
  { intros M. apply list_elem_of_fmap in M as (s & Ei & Hs). apply list_elem_of_filter in Hs as [_ Hs]. rewrite Es in Hs.
    pose proof (sealed_below _ _ _ _ _ _ _ _ I Ef Hs). lia. }
  assert (Ha : a ∈ files (log w1)) by (apply K; [by apply last_Some_elem_of|done]).
  rewrite Ef in S4. destruct (sublist_last _ _ _ S4 Ha An) as (fs' & Ef' & Sf). rewrite <- Ef in S4.
  assert (Es' : sealed (log w1) = fs') by (by eapply sealed_snoc).
  assert (Uniq : forall s s', s ∈ files (log w) -> s' ∈ files (log w) -> vf_id (handle s) = vf_id (handle s') -> s = s').
  { intros s s' Hs Hs' E. destruct (find_unique _ _ _ _ _ _ I Hs) as (i & F & _). destruct (find_unique _ _ _ _ _ _ I Hs') as (j & F' & _).
    rewrite E in F. rewrite F in F'. by injection F' as _ ->. }
  assert (B : forall w2, log w2 = log w1 \/ log w2 = set_compaction (compaction (log w2)) (log w1) -> inodes w2 = inodes w1 -> outcomes w2 = outcomes w1 ->
    names w2 = names w1 -> begun id_below w w2).
  { intros w2 El Ei Eo En. unfold begun. rewrite Ei, Eo, En.
    assert (Efl : files (log w2) = files (log w1)) by (destruct El as [-> |El]; [done|by rewrite El]).
    assert (Esl : sealed (log w2) = sealed (log w1)) by (unfold sealed; by rewrite Efl).
    assert (next_id (log w2) = next_id (log w1) /\ epoch (log w2) = epoch (log w1) /\ rotate_bytes (log w2) = rotate_bytes (log w1)) as (-> & -> & ->)
      by (destruct El as [-> |El]; [done|by rewrite El]).
    rewrite Efl, Esl. split_and!; try done.
    - rewrite Ef'. by destruct fs'.
    - intros s Hs. destruct (decide (vf_id (handle s) ∈ dead)) as [M|M]; [right|left; by apply K].
      apply list_elem_of_fmap in M as (s' & Ei' & Hs'). apply list_elem_of_filter in Hs' as [P Hs'].
      assert (s = s') as -> by (apply Uniq; [done|by apply sealed_files|done]). split; [done|]. by apply Is_true_true.
    - intros s Hs Hf. rewrite Es'. rewrite Ef' in Hf. apply elem_of_app in Hf as [|Hf%list_elem_of_singleton]; [done|].
      rewrite Hf, Es in Hs. done. }
  runs. destruct (list_find _ _) as [[i s]|] eqn:L; runs.
  - apply list_find_Some in L as (Li & P & _). apply list_elem_of_lookup_2 in Li.
    assert (Hs : s ∈ files (log w1)) by by apply sealed_files.
    destruct (arc_clone_ok _ _ _ _ _ (vf_id (handle s)) I1) as (w2 & E2 & I2 & El & Ei).
    { unfold holders. pose proof (occ_nonneg (vf_id (handle s)) (c_file_id <$> [])). pose proof (occ_nonneg (vf_id (handle s)) pins).
      assert (0 < occ (vf_id (handle s)) (ids (log w1))) by (apply occ_pos, list_elem_of_fmap; by exists s). lia. }
    assert (Eo : outcomes w2 = outcomes w1 /\ names w2 = names w1) by (injection E2 as <-; done).
    rewrite E2. runs. split; [apply B; cbn; [by right; rewrite El|done|apply Eo|apply Eo]|].
    exists s. cbn [log with_log]. rewrite El. split; [done|]. split; [by apply Is_true_true|]. split; [done|].
    apply (inv_set_compaction _ _ _ w2), inv_pin_cursor; [exact I2|]. destruct (inv_state _ _ _ _ _ _ I1 Hs) as (h & Eh & _).
    exists s, h, [], (h_recs h). rewrite El. by split_and!.
  - split; [apply B; tauto|]. split; [by rewrite S1|]. split; [done|]. intros s Hs. apply list_find_None in L.
    pose proof (proj1 (list.Forall_forall _ _) L s Hs) as Nv. split; [|by apply not_true_is_false; intros T; apply Nv, Is_true_true].
    apply not_true_is_false. intros T. apply (Gn s); [by apply sealed_files|]. apply list_elem_of_fmap. exists s. split; [done|].
    apply list_elem_of_filter. split; [by apply Is_true_true|]. rewrite Es' in Hs. rewrite Es. by eapply elem_of_sublist.
Qed.

End Retire.

(** ** Addresses *)

Section Addresses.
Context (cpu : Cpu).

Lemma images_prefix_inj pre rc post : forall pre' rc' post', pre ++ rc :: post = pre' ++ rc' :: post' ->
  blen (images cpu pre) = blen (images cpu pre') -> pre = pre' /\ rc = rc' /\ post = post'.
Proof.
  assert (Pos : forall x, 0 < blen (image cpu x)) by (intros x; rewrite image_blen; unfold HEADER; blen_pos; lia).
  induction pre as [|x pre IH]; intros [|y pre'] rc' post' E L; cbn in E.
  - by injection E as -> ->.
  - exfalso. rewrite images_cons, blen_app in L. specialize (Pos y). change (blen (images cpu [])) with 0 in L. blen_pos. lia.
  - exfalso. rewrite images_cons, blen_app in L. specialize (Pos x). change (blen (images cpu [])) with 0 in L. blen_pos. lia.
  - injection E as -> E. rewrite !images_cons, !blen_app in L. destruct (IH pre' rc' post' E) as (-> & -> & ->); [lia|done].
Qed.

(** An offset in a file is the address of one record. *)
Lemma at_ref_fun G r r' rc rc' : at_ref cpu G r rc -> at_ref cpu G r' rc' -> file_id r = file_id r' -> offset r = offset r' -> r = r' /\ rc = rc'.
Proof.
  intros (h & pre & post & E & R & O & L) (h' & pre' & post' & E' & R' & O' & L') Ef Eo. rewrite <- Ef in E'. assert (h' = h) as -> by congruence.
  destruct (images_prefix_inj pre rc post pre' rc' post') as (-> & -> & ->); [congruence|congruence|].
  split; [|done]. destruct r, r'. cbn in *. congruence.
Qed.

(** Records do not overlap. *)
Lemma at_ref_next G r r' rc rc' : at_ref cpu G r rc -> at_ref cpu G r' rc' -> file_id r = file_id r' -> offset r < offset r' ->
  offset r + HEADER + len r <= offset r'.
Proof.
  intros (h & pre & post & E & R & O & L) (h' & pre' & post' & E' & R' & O' & L') Ef Lt. rewrite <- Ef in E'. assert (h' = h) as -> by congruence.
  rewrite R in R'. rewrite O, O' in *. rewrite L. clear -R' Lt. revert pre' R' Lt. induction pre as [|x pre IH]; intros [|y pre'] R Lt; cbn in R.
  - lia.
  - injection R as -> R. rewrite images_cons, blen_app, image_blen. change (blen (images cpu [])) with 0. blen_pos. lia.
  - rewrite images_cons, blen_app in Lt. change (blen (images cpu [])) with 0 in Lt. blen_pos. lia.
  - injection R as -> R. rewrite !images_cons, !blen_app in *. specialize (IH pre' R ltac:(lia)). lia.
Qed.

(** *** Scanning *)

Lemma read_record_cases G pins curs w s h pre rc post : inv cpu G pins curs w -> s ∈ files (log w) -> G !! vf_id (handle s) = Some h ->
  h_recs h = pre ++ rc :: post ->
  exists out, let w1 := with_outcomes (fun _ => out) w in (outcomes w = [] -> out = []) /\
    (read_record cpu (handle s) (blen (images cpu pre)) w = (Ok (r_key rc, r_payload rc, blen (body_of rc)), w1) \/
     exists e, read_record cpu (handle s) (blen (images cpu pre)) w = (Err e, w1) /\ (outcomes w <> [] \/ MAX_BODY < blen (body_of rc))).
Proof.
  intros I Hs Eh R. destruct (inv_state _ _ _ _ _ _ I Hs) as (h' & Eh' & (Hp & Hb & _) & Ho & Pf). assert (h' = h) as -> by congruence.
  unfold read_record, read_exact_at. rewrite !bind_eq. destruct (attempt_cases w) as (o1 & Q1 & [->|[-> F]]); cycle 1.
  { exists o1. split; [done|]. right. exists Os. split; [done|by left]. }
  runs. set (w1 := with_outcomes (fun _ => o1) w). change (content_of w1 (vf_id (handle s))) with (content_of w (vf_id (handle s))).
  destruct Ho as (Dn & Us & Rs). pose proof Rs as Rs'. rewrite R, list.Forall_app, list.Forall_cons in Rs'. destruct Rs' as (_ & Rc & _).
  pose proof (rec_ok_body _ _ Rc) as Bl. pose proof (blen_nonneg (body_of rc)) as Bp.
  destruct Pf as [tail Pf]. rewrite R, images_app, images_cons, <- !app_assoc in Pf.
  assert (Hd : pread (content_of w (vf_id (handle s))) (blen (images cpu pre)) HEADER = Ok (slice (image cpu rc) 0 HEADER)).
  { rewrite Pf. unfold pread. rewrite !blen_app, image_blen. blen_pos.
    destruct (Z.ltb_spec (blen (images cpu pre) + (HEADER + blen (body_of rc) + (blen (images cpu post) + blen tail))) (blen (images cpu pre) + HEADER)); [lia|].
    f_equal. rewrite <- (Z.add_0_r (blen (images cpu pre))) at 1. rewrite <- slice_slice_from, from_app_len by lia. apply slice_app_l; [lia|].
    rewrite image_blen. unfold HEADER. lia. }
  rewrite Hd. cbn [lift].
  assert (Hl : from_le_bytes (slice (slice (image cpu rc) 0 HEADER) 0 4) = blen (body_of rc)).
  { replace (slice (slice (image cpu rc) 0 HEADER) 0 4) with (slice (image cpu rc) 0 4); [unfold image, record_image; apply le32_head; exact (conj Bp Bl)|].
    unfold slice. rewrite !Z.sub_0_r, !drop_0, take_take. done. }
  rewrite Hl. destruct (Z.ltb_spec MAX_BODY (blen (body_of rc))) as [Big|Sm]; runs.
  { exists o1. split; [done|]. right. eexists. split; [reflexivity|by right]. }
  destruct (file_read_cases cpu (handle s) (mkRef (vf_id (handle s)) (blen (images cpu pre)) (blen (body_of rc))) w1) as (o2 & Q2 & [->|[-> F]]).
  - change (content_of w1 (vf_id (handle s))) with (content_of w (vf_id (handle s))).
    rewrite (fetch_at cpu h _ (handle s) pre rc post); [|done|done|exists tail; rewrite Pf, R, images_app, images_cons; by rewrite <- !app_assoc|done|done|done].
    cbn [len]. destruct (Z.ltb_spec MAX_BODY (blen (body_of rc))); [lia|]. runs. exists o2. split; [by intros ?%Q1%Q2|]. by left.
  - runs. exists o2. split; [by intros ?%Q1%Q2|]. right. exists Os. split; [done|]. left. intros H. by apply F, Q1.
Qed.

End Addresses.

(** ** The owner's contract *)

(** An address names one record, with one key. *)
Definition functional (K : VlogRef -> list byte -> Prop) : Prop :=
  forall r r' k k', K r k -> K r' k' -> file_id r = file_id r' -> offset r = offset r' -> r = r' /\ k = k'.

(** What the documentation of [CompactOwner] asks of an implementation: the owner
    reaches records from slots, and [claim] is how many bytes of a file it
    reaches; [K] gives the key each record of the log was
    appended with, and [knows K] is what the owner keeps true of itself.  Asking
    changes no slot and answers [true] when one reaches the record; a move
    repoints exactly the slots that did. *)
Class OwnerLaws (Own Slot : Type) `{!CompactOwner Own} := {
  slot_ref : Own -> Slot -> option VlogRef;
  knows : (VlogRef -> list byte -> Prop) -> Own -> Prop;
  claim : Own -> Z -> Z;
  claim_pos : forall K o s r, (forall r k, K r k -> 0 <= len r) -> knows K o -> slot_ref o s = Some r -> 0 < claim o (file_id r);
  claim_none : forall o f, (forall s r, slot_ref o s = Some r -> file_id r <> f) -> claim o f = 0;
  knows_mono : forall (K K' : VlogRef -> list byte -> Prop) o,
    (forall s r k, slot_ref o s = Some r -> K r k -> K' r k) -> knows K o -> knows K' o;
  asked : forall K o key r, functional K -> knows K o -> K r key ->
    knows K (snd (is_live key r o)) /\ (forall s, slot_ref (snd (is_live key r o)) s = slot_ref o s) /\
    (forall f, claim (snd (is_live key r o)) f = claim o f) /\
    (forall s, slot_ref o s = Some r -> fst (is_live key r o) = true) /\
    fst (is_live key r (snd (is_live key r o))) = fst (is_live key r o);
  repointed : forall K o key old new, functional K -> (forall r k, K r k -> 0 <= len r) -> knows K o -> K old key -> K new key -> fst (is_live key old o) = true ->
    (forall s r, slot_ref o s = Some r -> ~ (file_id r = file_id new /\ offset r = offset new)) ->
    exists o', moved key old new o = Ret o' /\ knows K o' /\
      (forall f, claim o' f <= claim o f + (if decide (f = file_id new) then HEADER + len new else 0)) /\
      forall s, slot_ref o' s = (if decide (slot_ref o s = Some old) then Some new else slot_ref o s)
}.

Section Compaction.
Context (cpu : Cpu) {Own Slot : Type} `{!CompactOwner Own} `{!OwnerLaws Own Slot}.

#[local] Abbreviation inv := (inv cpu).
#[local] Abbreviation at_ref := (at_ref cpu).
#[local] Abbreviation images := (images cpu).

(** The record at [r], in a file of the log, has key [k]. *)
Definition key_at (G : gmap Z hist) (w : World) (r : VlogRef) (k : list byte) : Prop :=
  exists rc, at_ref G r rc /\ r_key rc = k /\ file_id r ∈ ids (log w).

Lemma key_at_functional G w : functional (key_at G w).
Proof.
  intros r r' k k' (rc & A & <- & _) (rc' & A' & <- & _) Ef Eo. destruct (at_ref_fun _ _ _ _ _ _ A A' Ef Eo) as [-> ->]. done.
Qed.

Lemma key_at_len G w r k : key_at G w r k -> 0 <= len r.
Proof. intros (rc & (h & pre & post & _ & _ & _ & ->) & _). apply blen_nonneg. Qed.

(** The owner agrees with the log: every slot reaches a record; of a file it
    reaches no more than the log counts live; what a cursor has passed is not
    reached. *)
Definition coherent (G : gmap Z hist) (curs : list CompactCursor) (o : Own) (w : World) : Prop :=
  knows (key_at G w) o /\ (forall s r, slot_ref o s = Some r -> exists k, key_at G w r k) /\
  (forall f, f ∈ files (log w) -> claim o (vf_id (handle f)) <= live f) /\
  (forall c s r, c ∈ curs -> slot_ref o s = Some r -> file_id r = c_file_id c -> c_offset c <= offset r).

Lemma unclaimed G curs o w id : coherent G curs o w -> (id ∉ ids (log w)) -> claim o id = 0.
Proof. intros (_ & C2 & _) Hi. apply claim_none. intros s r E <-. destruct (C2 s r E) as (k & rc & _ & _ & H). done. Qed.

Lemma reached_live G curs o w s r f : coherent G curs o w -> f ∈ files (log w) -> slot_ref o s = Some r -> file_id r = vf_id (handle f) -> 0 < live f.
Proof.
  intros (C1 & _ & C3 & _) Hf E Ei. specialize (C3 f Hf). rewrite <- Ei in C3. eapply Z.lt_le_trans; [|exact C3].
  eapply claim_pos; [apply key_at_len|exact C1|exact E].
Qed.

(** Every slot still reaches a record of the same key and value. *)
Definition same_values (G : gmap Z hist) (o : Own) (G' : gmap Z hist) (o' : Own) : Prop :=
  forall s, match slot_ref o s with
  | None => slot_ref o' s = None
  | Some r => forall rc, at_ref G r rc -> exists r' rc', slot_ref o' s = Some r' /\ at_ref G' r' rc' /\
      r_key rc' = r_key rc /\ r_payload rc' = r_payload rc
  end.

Lemma same_values_grow G G' o o' : grows G G' -> (forall s, slot_ref o' s = slot_ref o s) -> same_values G o G' o'.
Proof.
  intros Gr E s. rewrite E. destruct (slot_ref o s) as [r|]; [|done]. intros rc A. exists r, rc. split_and!; try done. by eapply at_ref_grows.
Qed.

Lemma same_values_trans G1 o1 G2 o2 G3 o3 : same_values G1 o1 G2 o2 -> same_values G2 o2 G3 o3 -> same_values G1 o1 G3 o3.
Proof.
  intros A B s. specialize (A s). specialize (B s). destruct (slot_ref o1 s) as [r|]; [|by rewrite A in B].
  intros rc H. destruct (A rc H) as (r2 & rc2 & E2 & A2 & K2 & P2). rewrite E2 in B. destruct (B rc2 A2) as (r3 & rc3 & E3 & A3 & K3 & P3).
  exists r3, rc3. split_and!; congruence.
Qed.

Lemma key_at_ext G G' w w' r k : grows G G' -> ext w w' -> key_at G w r k -> key_at G' w' r k.
Proof. intros Gr X (rc & A & E & Hi). exists rc. split_and!; [by eapply at_ref_grows|done|by eapply ids_ext]. Qed.

(** Appending disturbs nothing; asking changes no slot. *)
Lemma coherent_ext G G' pins curs o o' w w' : inv G' pins curs w' -> grows G G' -> ext w w' -> coherent G curs o w ->
  knows (key_at G' w') o' -> (forall s, slot_ref o' s = slot_ref o s) -> (forall f, claim o' f = claim o f) -> coherent G' curs o' w'.
Proof.
  intros I Gr X (C1 & C2 & C3 & C4) Kn Es Ec. split_and!; [done| | |].
  - intros s r E. rewrite Es in E. destruct (C2 s r E) as [k Hk]. exists k. by eapply key_at_ext.
  - intros f' Hf. rewrite Ec. destruct (decide (vf_id (handle f') ∈ ids (log w))) as [Hi|Hi].
    + pose proof X as (_ & _ & _ & _ & _ & _ & _ & _ & X9 & _). destruct (X9 f' Hf Hi) as (f & Hf0 & E0 & L0). specialize (C3 f Hf0). rewrite E0 in C3. lia.
    + rewrite (unclaimed G curs o w) by done. apply (live_range _ _ _ _ _ _ I Hf).
  - intros c s r Hc E. rewrite Es in E. by eapply C4.
Qed.

(** *** Calm *)

Definition small (rc : rec) : Prop := 4 + blen (r_key rc) + blen (r_payload rc) + 6 <= MAX_BODY.

(** No system call fails, the file names ahead are free, and every record leaves
    room for its frame header. *)
Definition calm (G : gmap Z hist) (w : World) : Prop :=
  outcomes w = [] /\ (forall id, next_id (log w) <= id < 2 ^ 32 -> file_name id ∉ names w) /\
  forall id h rc, G !! id = Some h -> rc ∈ h_recs h -> small rc.

Lemma calm_ext P G G' pins curs w w' : inv G pins curs w -> inv G' pins curs w' -> ext w w' -> adds P G G' ->
  (calm G w -> forall rc, P rc -> small rc) -> calm G w -> calm G' w'.
Proof.
  intros I I' X A Ps C. pose proof (Ps C) as Psm. destruct C as (C1 & C2 & C3). destruct X as (_ & _ & _ & _ & Nx & _ & Xq & Xn & _).
  split_and!; [by apply Xq| |].
  - intros id Hid Hn. apply Xn in Hn as [Hn|(i & Hi & En)]; [apply (C2 id); [lia|done]|].
    pose proof (i_next _ _ _ _ _ I). apply file_name_inj in En; lia.
  - intros id h rc E Hr. destruct (A id h rc E Hr) as [H|(h0 & E0 & H0)]; [by apply Psm|by eapply C3].
Qed.

Lemma calm_outcomes G w out : (outcomes w = [] -> out = []) -> calm G w -> calm G (with_outcomes (fun _ => out) w).
Proof. intros Q (C1 & C2 & C3). split_and!; [by apply Q|done|done]. Qed.

(** *** One record *)

Definition st (G : gmap Z hist) (pins : list Z) (curs : list CompactCursor) (o : Own) (w : World) : Prop :=
  inv G pins curs w /\ files (log w) <> [] /\ coherent G curs o w.

Definition advance (c : CompactCursor) (n : Z) : CompactCursor :=
  mkCursor (c_handle c) (c_file_id c) (c_bytes c) (c_offset c + n).

Lemma files_ext w w' : ext w w' -> files (log w) <> [] -> files (log w') <> [].
Proof. intros (_ & _ & [l E] & _) Ne. apply files_ids in Ne. apply files_ids. rewrite E. by destruct (ids (log w)). Qed.

Lemma inv_advance G pins c c' w : inv G pins [c] w -> cursor_ok cpu G (log w) c' -> c_file_id c' = c_file_id c -> inv G pins [c'] w.
Proof.
  intros [] C E. constructor; try done; [by constructor|]. intros i. rewrite i_arcs. unfold holders. cbn [fmap list_fmap]. by rewrite E.
Qed.

Lemma ext_outcomes w out : (outcomes w = [] -> out = []) -> ext w (with_outcomes (fun _ => out) w).
Proof. intros Q. by apply ext_log. Qed.

(** The state after the cursor's record has been answered for. *)
Lemma passed G pins c o w h pre rc post : inv G pins [c] w -> coherent G [c] o w -> G !! c_file_id c = Some h ->
  h_recs h = pre ++ rc :: post -> c_offset c = blen (images pre) ->
  (forall s, slot_ref o s <> Some (mkRef (c_file_id c) (c_offset c) (blen (body_of rc)))) ->
  let c' := advance c (HEADER + blen (body_of rc)) in inv G pins [c'] w /\ coherent G [c'] o w.
Proof.
  intros I (C1 & C2 & C3 & C4) Eh R O No c'.
  assert (Ao : at_ref G (mkRef (c_file_id c) (c_offset c) (blen (body_of rc))) rc) by (by exists h, pre, post).
  split; [eapply inv_advance; [exact I| |done]|split_and!; [done|done|done|]].
  - pose proof (i_cursors _ _ _ _ _ I) as Cu. rewrite list.Forall_cons in Cu. destruct Cu as [(s & h' & _ & _ & Hs & E1 & E2 & E3 & E4 & _) _].
    rewrite <- E2, Eh in E4. injection E4 as <-. exists s, h, (pre ++ [rc]), post. cbn. rewrite <- E2. split_and!; try done.
    + by rewrite R, <- app_assoc.
    + rewrite images_app, blen_app, O. unfold VlogSpec.images. cbn [fmap list_fmap concat]. by rewrite app_nil_r, image_blen.
  - intros c0 s r Hc E Ef. apply list_elem_of_singleton in Hc as ->. cbn in *. destruct (C2 s r E) as (k & rc' & A & _ & _).
    pose proof (C4 c s r ltac:(by left) E Ef) as Le. destruct (Z.eq_dec (offset r) (c_offset c)) as [Eq|Nq].
    + destruct (at_ref_fun _ _ _ _ _ _ A Ao Ef Eq) as [-> _]. by destruct (No s).
    + pose proof (at_ref_next _ _ _ _ _ _ Ao A ltac:(done) ltac:(cbn; lia)) as N. cbn in N. lia.
Qed.

Lemma st_outcomes G pins curs o w out : (outcomes w = [] -> out = []) -> st G pins curs o w -> st G pins curs o (with_outcomes (fun _ => out) w).
Proof.
  intros Q (I & Ne & Co). split_and!; [by apply inv_outcomes|done|]. eapply coherent_ext; try done; [by apply inv_outcomes|apply hist_grows_refl|by apply ext_outcomes|apply Co].
Qed.

(** Repointing to a record just appended. *)
Lemma coherent_moved G pins curs o o' w new key a : inv G pins curs w -> coherent G curs o w -> knows (key_at G w) o' ->
  (forall s, slot_ref o' s = slot_ref o s \/ slot_ref o' s = Some new) -> key_at G w new key ->
  (forall f, claim o' f <= claim o f + (if decide (f = file_id new) then HEADER + len new else 0)) ->
  last (files (log w)) = Some a -> vf_id (handle a) = file_id new -> claim o (file_id new) + (HEADER + len new) <= live a -> coherent G curs o' w.
Proof.
  intros I (C1 & C2 & C3 & C4) Kn Es Kw Cb La Ea Pa. split_and!; [done| | |].
  - intros s r E. destruct (Es s) as [Q|Q]; rewrite Q in E; [by eapply C2|]. injection E as <-. by exists key.
  - intros f Hf. specialize (Cb (vf_id (handle f))). specialize (C3 f Hf). case_decide as Ei; [|lia].
    assert (Ha : a ∈ files (log w)) by by apply last_Some_elem_of.
    destruct (find_unique _ _ _ _ _ _ I Ha) as (i & F & _). destruct (find_unique _ _ _ _ _ _ I Hf) as (j & F' & _).
    rewrite Ei, <- Ea, F in F'. injection F' as _ <-. rewrite Ei in Cb |- *. lia.
  - intros c0 s r Hc E Ef. destruct (Es s) as [Q|Q]; rewrite Q in E; [by eapply C4|]. injection E as <-. exfalso.
    destruct (proj1 (list.Forall_forall _ _) (i_cursors _ _ _ _ _ I) c0 Hc) as (v & _ & _ & _ & Hv & _ & E2 & _). assert (Ne : files (log w) <> []) by (intros E0; by rewrite E0 in La).
    destruct (files_snoc _ Ne) as (fs & a' & Efs & Es' & La' & _). rewrite Es' in Hv. assert (a' = a) as -> by congruence.
    pose proof (sealed_below _ _ _ _ _ _ _ _ I Efs Hv). lia.
Qed.

Lemma move_one_ok G pins c o w : st G pins [c] o w -> c_offset c < c_bytes c ->
  match move_one cpu (c_handle c) (c_file_id c) (c_offset c) (o, w) with
  | (Ok n, (o', w')) => HEADER <= n /\ exists G', grows G G' /\ st G' pins [advance c n] o' w' /\ same_values G o G' o' /\ ext w w' /\ (calm G w -> calm G' w')
  | (Err _, (o', w')) => ~ calm G w /\ exists G', grows G G' /\ st G' pins [c] o' w' /\ same_values G o G' o' /\ ext w w'
  | (Crash, (_, w')) => counters_full w'
  | (Diverge, _) => False
  end.
Proof.
  intros (I & Ne & Co) Lt. pose proof (i_cursors _ _ _ _ _ I) as Cu. rewrite list.Forall_cons in Cu.
  destruct Cu as [(s & h & pre & post & Hs & E1 & E2 & E3 & Eh & R & O) _].
  assert (Hf : s ∈ files (log w)) by by apply sealed_files. destruct (inv_state _ _ _ _ _ _ I Hf) as (h' & Eh' & (_ & Hb & _) & (_ & _ & Rs) & _).
  assert (h' = h) as -> by congruence. destruct post as [|rc post]; [exfalso; rewrite app_nil_r in R; rewrite <- R in O; lia|].
  unfold move_one. rewrite bind_eq. unfold on_log. rewrite E1, O.
  destruct (read_record_cases cpu _ _ _ _ _ _ _ _ _ I Hf Eh R) as (out & Q & [Er|(e & Er & Why)]); rewrite Er.
  2: { pose proof (ext_outcomes w out Q) as X. split.
       - intros (C1 & _ & C3). destruct Why as [|Big]; [done|]. specialize (C3 _ _ rc Eh ltac:(rewrite R; apply elem_of_app; right; by left)).
         unfold small in C3. rewrite R, list.Forall_app, list.Forall_cons in Rs. destruct Rs as (_ & (_ & _ & F) & _).
         unfold body_of in Big. rewrite record_body_blen in Big. lia.
       - exists G. split_and!; [apply hist_grows_refl|by apply st_outcomes|by apply same_values_grow; [apply hist_grows_refl|]|exact X]. }
  rewrite bind_eq. set (w1 := with_outcomes (fun _ => out) w). pose proof (ext_outcomes w out Q : ext w w1) as X1.
  set (old := mkRef (c_file_id c) (blen (images pre)) (blen (body_of rc))). unfold ask.
  assert (Ao : at_ref G old rc) by (exists h, pre, post; cbn; by rewrite E2).
  assert (Ko : key_at G w1 old (r_key rc)).
  { exists rc. split_and!; [exact Ao|done|]. cbn. rewrite E2. apply list_elem_of_fmap. by exists s. }
  destruct (st_outcomes _ _ _ _ _ _ Q (conj I (conj Ne Co))) as (I1 & Ne1 & Co1). fold w1 in I1, Ne1, Co1.
  destruct (asked (key_at G w1) o (r_key rc) old (key_at_functional _ _) (proj1 Co1) Ko) as (Kn & Sl & Cl & Tr & St).
  destruct (is_live (r_key rc) old o) as [b o1]. cbn [fst snd] in *.
  assert (Co2 : coherent G [c] o1 w1) by (apply (coherent_ext G G pins [c] o o1 w1 w1); try done; [apply hist_grows_refl|apply ext_refl]).
  assert (Old : old = mkRef (c_file_id c) (c_offset c) (blen (body_of rc))) by (unfold old; by rewrite O).
  rewrite bind_eq. destruct b.
  2: { runs. split; [unfold HEADER; blen_pos; lia|]. exists G. rewrite <- E2 in Eh.
       destruct (passed G pins c o1 w1 h pre rc post I1 Co2 Eh R O) as [I3 C3].
       { rewrite <- Old. intros s0 E0. rewrite Sl in E0. by specialize (Tr s0 E0). }
       split_and!; [apply hist_grows_refl|done|by apply same_values_grow; [apply hist_grows_refl|]|exact X1|by apply calm_outcomes]. }
  rewrite bind_eq. unfold append_high. pose proof (append_level_ok cpu _ _ _ _ (r_key rc) (r_payload rc) true I1 Ne1) as A.
  assert (Sm : calm G w -> small rc).
  { intros (_ & _ & C3). apply (C3 _ _ rc Eh). rewrite R. apply elem_of_app. right. by left. }
  destruct (append_level cpu (r_key rc) (r_payload rc) true w1) as [[new|e| |] w2]; [| |apply A|done].
  2: { destruct A as (G2 & Gr2 & Ad2 & I2 & X2 & Why). split.
       - intros Ca. pose proof (calm_outcomes _ _ _ Q Ca) as (D1 & D2 & _). destruct Why as [[W|W]|W]; [done| |].
         + apply (D2 (next_id (log w1))); [pose proof (i_next _ _ _ _ _ I1); cbn in *; lia|done].
         + specialize (Sm Ca). unfold small in Sm. lia.
       - exists G2. split_and!; [done| |by apply same_values_grow|by eapply ext_trans]. split_and!; [done|by eapply files_ext|].
         eapply (coherent_ext G G2 pins [c] o1 o1 w1 w2); try done. eapply knows_mono; [|exact Kn]. intros s0 r0 k0 _. by apply key_at_ext. }
  destruct A as (G2 & Gr2 & Ad2 & I2 & X2 & Ap & Sz). pose proof (appended_id _ _ _ _ _ _ _ _ Ap) as Idn.
  destruct Ap as (rc2 & A2 & Ek & Epl & (a & La & Ea & Pa & Ra) & Fresh).
  assert (Kn2 : knows (key_at G2 w2) o1) by (eapply knows_mono; [|exact Kn]; intros s0 r0 k0 _; by apply key_at_ext).
  assert (Kw : key_at G2 w2 new (r_key rc)) by (exists rc2; done).
  assert (Co3 : coherent G2 [c] o1 w2) by (by eapply (coherent_ext G G2 pins [c] o1 o1 w1 w2)).
  assert (Fr : forall s0 r0, slot_ref o1 s0 = Some r0 -> ~ (file_id r0 = file_id new /\ offset r0 = offset new)).
  { intros s0 r0 E0 [F1 F2]. destruct Co2 as (_ & C2 & _). destruct (C2 s0 r0 E0) as (k0 & rc0 & A0 & _).
    pose proof A0 as (h0 & _ & _ & Eh0 & _ & _ & L0). pose proof (at_ref_end _ _ _ _ _ A0 Eh0) as B. rewrite F1 in Eh0. specialize (Fresh h0 Eh0).
    unfold HEADER in B. blen_pos. lia. }
  destruct (repointed (key_at G2 w2) o1 (r_key rc) old new (key_at_functional _ _) (key_at_len _ _) Kn2 (key_at_ext _ _ _ _ _ _ Gr2 X2 Ko) Kw St Fr) as (o2 & Em & Kn3 & Cb & Sl2).
  unfold tell. rewrite Em. runs. split; [unfold HEADER; blen_pos; lia|]. exists G2.
  assert (Co4 : coherent G2 [c] o2 w2).
  { eapply coherent_moved; try done; [intros s0; rewrite Sl2; case_decide; auto|].
    destruct (decide (file_id new ∈ ids (log w1))) as [Hi|Hi].
    - destruct (Ra Hi) as (f & Hf1 & Ef & Lf). destruct Co2 as (_ & _ & C3 & _). specialize (C3 f Hf1). rewrite Ef in C3. lia.
    - rewrite (unclaimed G [c] o1 w1) by done. done. }
  destruct (Gr2 _ _ Eh) as (h2 & more & Eh2 & _ & _ & R2). rewrite R, <- app_assoc in R2. rewrite <- E2 in Eh2.
  destruct (passed G2 pins c o2 w2 h2 pre rc (post ++ more) I2 Co4 Eh2 R2 O) as [I3 C3].
  { rewrite <- Old. intros s0. rewrite Sl2. case_decide as D; [|exact D]. intros [= En]. apply (Fr s0 old D). by rewrite En. }
  split_and!; [done| | |by eapply ext_trans|].
  - split_and!; [done|by eapply files_ext|done].
  - intros s0. rewrite Sl2, Sl. destruct (slot_ref o s0) as [r0|] eqn:E0; [|by rewrite decide_False].
    intros rc0 A0. case_decide as D.
    + injection D as ->. destruct (at_ref_fun _ _ _ _ _ _ A0 Ao eq_refl eq_refl) as [_ ->]. by exists new, rc2.
    + exists r0, rc0. split_and!; try done. by eapply at_ref_grows.
  - intros Ca. eapply (calm_ext (rec_for (r_key rc) (r_payload rc)) G G2 pins [c] w1); try done; [|by apply calm_outcomes].
    intros _ rc0 [Ek0 Ep0]. specialize (Sm Ca). unfold small in *. by rewrite Ek0, Ep0.
Qed.

(** *** The loop *)

Lemma cursor_end G pins c w : inv G pins [c] w -> exists s, s ∈ sealed (log w) /\ c_handle c = handle s /\ c_file_id c = vf_id (handle s) /\
  c_bytes c = bytes s /\ 0 <= c_offset c <= c_bytes c /\ c_bytes c <= u64_max.
Proof.
  intros I. pose proof (i_cursors _ _ _ _ _ I) as Cu. rewrite list.Forall_cons in Cu.
  destruct Cu as [(s & h & pre & post & Hs & E1 & E2 & E3 & E4 & E5 & E6) _]. exists s.
  destruct (inv_state _ _ _ _ _ s I (sealed_files _ _ Hs)) as (h' & Eh & (_ & Hb & _ & Hu & _) & _). assert (h' = h) as -> by congruence.
  rewrite E5, images_app, blen_app in Hb. blen_pos. split_and!; try done; lia.
Qed.

Lemma advance_advance c n m : advance (advance c n) m = advance c (n + m).
Proof. unfold advance. cbn. f_equal. lia. Qed.

Lemma advance_0 c : advance c 0 = c.
Proof. unfold advance. rewrite Z.add_0_r. by destruct c. Qed.

Lemma victim_drain_ok fuel : forall G pins c o w dn budget, st G pins [c] o w -> c_bytes c - c_offset c <= Z.of_nat fuel ->
  match drain cpu fuel c dn budget (o, w) with
  | (Ok (c', dn'), (o', w')) => exists n, c' = advance c n /\ HEADER * (dn' - dn) <= n /\ dn <= dn' /\
      (c_bytes c <= c_offset c' \/ budget <= dn') /\ (c_offset c < c_bytes c -> dn < budget -> dn < dn') /\
      exists G', grows G G' /\ st G' pins [c'] o' w' /\ same_values G o G' o' /\ ext w w' /\ (calm G w -> calm G' w')
  | (Err _, (o', w')) => ~ calm G w /\ exists G' n, grows G G' /\ st G' pins [advance c n] o' w' /\ same_values G o G' o' /\ ext w w'
  | (Crash, (_, w')) => counters_full w'
  | (Diverge, _) => False
  end.
Proof.
  induction fuel as [|fuel IH]; intros G pins c o w dn budget S Hf; cbn [drain].
  all: destruct (Z.ltb_spec (c_offset c) (c_bytes c)) as [Lt|Ge]; cbn [andb]; try lia.
  all: try (runs; exists 0; rewrite advance_0; split_and!; [done|unfold HEADER; lia|done|by left|lia|exists G; split_and!; try done;
    [apply hist_grows_refl|by apply same_values_grow; [apply hist_grows_refl|]|apply ext_refl]]).
  destruct (Z.ltb_spec dn budget) as [Ltb|Geb].
  2: { runs. exists 0. rewrite advance_0. split_and!; [done|unfold HEADER; lia|done|by right|lia|exists G; split_and!; try done;
       [apply hist_grows_refl|by apply same_values_grow; [apply hist_grows_refl|]|apply ext_refl]]. }
  rewrite bind_eq. pose proof (move_one_ok _ _ _ _ _ S Lt) as M.
  destruct (move_one cpu (c_handle c) (c_file_id c) (c_offset c) (o, w)) as [[n|e| |] [o1 w1]]; [| |exact M|exact M].
  2: { destruct M as (Nc & G1 & A & B & C & D). split; [done|]. exists G1, 0. by rewrite advance_0. }
  destruct M as (Hn & G1 & Gr1 & S1 & V1 & X1 & Ca1). fold (advance c n).
  pose proof (IH G1 pins (advance c n) o1 w1 (dn + 1) budget S1 ltac:(cbn; unfold HEADER in Hn; lia)) as R.
  destruct (drain cpu fuel (advance c n) (dn + 1) budget (o1, w1)) as [[[c' dn']|e| |] [o2 w2]]; [| |exact R|exact R].
  - destruct R as (m & -> & L1 & L2 & Fin & Prog & G2 & Gr2 & S2 & V2 & X2 & Ca2). exists (n + m). rewrite advance_advance in *.
    split_and!; [done|lia|lia|done|lia|]. exists G2. split_and!; [by eapply grows_trans|done|by eapply same_values_trans|by eapply ext_trans|].
    intros H. by apply Ca2, Ca1.
  - destruct R as (Nc & G2 & m & Gr2 & S2 & V2 & X2). split; [by intros H; apply Nc, Ca1|]. exists G2, (n + m). rewrite advance_advance in S2.
    split_and!; [by eapply grows_trans|done|by eapply same_values_trans|by eapply ext_trans].
Qed.

(** *** What a step changes *)

Definition moves_on (w w' : World) : Prop :=
  next_id (log w) <= next_id (log w') /\ epoch (log w) <= epoch (log w') /\
  (epoch (log w') = epoch (log w) -> forall id, id ∈ ids (log w) -> id ∈ ids (log w')) /\
  (forall id, id ∈ ids (log w') -> id ∈ ids (log w) \/ next_id (log w) <= id).

Lemma moves_on_refl w : moves_on w w.
Proof. split_and!; try done. by left. Qed.

Lemma moves_on_trans w1 w2 w3 : moves_on w1 w2 -> moves_on w2 w3 -> moves_on w1 w3.
Proof.
  intros (A1 & A2 & A3 & A4) (B1 & B2 & B3 & B4). split_and!; [lia|lia| |].
  - intros E id H. apply B3; [lia|]. apply A3; [lia|done].
  - intros id [H|H]%B4; [|right; lia]. apply A4 in H as [H|H]; [by left|by right].
Qed.

Lemma moves_on_ext w w' : ext w w' -> moves_on w w'.
Proof. intros X. pose proof X as (X1 & _ & _ & _ & X5 & _ & _ & _ & _ & X10). split_and!; [lia|lia| |done]. intros _ id. by apply ids_ext. Qed.

(** Files leave that no slot reaches. *)
Lemma coherent_shrink G pins curs curs' o w w' : inv G pins curs w -> coherent G curs o w -> files (log w') `sublist_of` files (log w) ->
  (forall f, f ∈ files (log w) -> f ∈ files (log w') \/ forall s r, slot_ref o s = Some r -> file_id r <> vf_id (handle f)) ->
  (forall c s r, c ∈ curs' -> slot_ref o s = Some r -> file_id r = c_file_id c -> c_offset c <= offset r) -> coherent G curs' o w'.
Proof.
  intros I (C1 & C2 & C3 & C4) Su Gone Cu. assert (Keep : forall s r k, slot_ref o s = Some r -> key_at G w r k -> key_at G w' r k).
  { intros s r k E (rc & A & Ek & Hi). exists rc. split_and!; [done|done|]. apply list_elem_of_fmap in Hi as (f & Ef & Hf).
    destruct (Gone f Hf) as [Hf'|No]; [|by destruct (No s r E)]. rewrite Ef. apply list_elem_of_fmap. by exists f. }
  split_and!; [by eapply knows_mono| | |done].
  - intros s r E. destruct (C2 s r E) as [k Hk]. exists k. by eapply Keep.
  - intros f Hf. apply C3. by eapply elem_of_sublist.
Qed.

Lemma ids_sublist w w' : files (log w') `sublist_of` files (log w) -> forall id, id ∈ ids (log w') -> id ∈ ids (log w).
Proof. intros S id Hi. apply list_elem_of_fmap in Hi as (f & -> & Hf). apply list_elem_of_fmap. exists f. split; [done|]. by eapply elem_of_sublist. Qed.

Lemma calm_shrink G w w' : next_id (log w') = next_id (log w) -> (outcomes w = [] -> outcomes w' = []) -> names w' ⊆ names w -> calm G w -> calm G w'.
Proof. intros E Q N (C1 & C2 & C3). split_and!; [by apply Q| |done]. intros id Hi Hn. rewrite E in Hi. by apply (C2 id Hi), N. Qed.

Lemma begun_ok G pins o w w' id_below curs : st G pins [] o w -> begun id_below w w' -> inv G pins curs w' ->
  (forall c, c ∈ curs -> c_offset c = 0) -> st G pins curs o w' /\ moves_on w w' /\ (calm G w -> calm G w').
Proof.
  intros (I & Ne & Co) (B1 & B2 & B3 & B4 & B5 & B6 & B7 & B8 & B9 & B10) I' Z0. pose proof Co as (_ & C2 & C3 & _).
  pose proof (sublist_length _ _ B3) as SL. split; [split_and!; [done|done|]|split; [split_and!|by apply calm_shrink]].
  - apply (coherent_shrink G pins [] curs o w w'); try done.
    + intros f Hf. destruct (B5 f Hf) as [|[_ D]]; [by left|right]. intros s r E Ei.
      unfold is_dead in D. apply andb_true_iff in D as [D _]. apply andb_true_iff in D as [_ D]. apply Z.eqb_eq in D.
      pose proof (reached_live _ _ _ _ _ _ _ Co Hf E Ei). lia.
    + intros c s r Hc E _. rewrite (Z0 c Hc). destruct (C2 s r E) as (k & rc & (h & pre & post & _ & _ & -> & _) & _). apply blen_nonneg.
  - lia.
  - unfold blen in B7. lia.
  - intros E id Hi. unfold ids in *. assert (files (log w') = files (log w)) as ->; [|done].
    apply sublist_whole; [done|]. unfold blen in B7. lia.
  - intros id Hi. left. by eapply ids_sublist.
Qed.

(** *** A step *)

(** The log between steps: the cursor it keeps has records left. *)
Definition ready (G : gmap Z hist) (pins : list Z) (o : Own) (w : World) : Prop :=
  st G pins (own w) o w /\ forall c, c ∈ own w -> c_offset c < c_bytes c.

(** A drained victim is reached by no slot. *)
Lemma drained_unreached G pins c o w s : st G pins [c] o w -> c_bytes c <= c_offset c -> s ∈ sealed (log w) -> c_file_id c = vf_id (handle s) ->
  forall x r, slot_ref o x = Some r -> file_id r <> vf_id (handle s).
Proof.
  intros (I & _ & (_ & C2 & _ & C4)) Le Hs E x r Ex Ef. pose proof (C4 c x r ltac:(by left) Ex ltac:(congruence)) as L.
  destruct (cursor_end _ _ _ _ I) as (s' & Hs' & _ & E' & Eb & _). destruct (C2 x r Ex) as (k & rc & A & _).
  destruct (inv_state _ _ _ _ _ s' I (sealed_files _ _ Hs')) as (h & Eh & (_ & Hb & _) & _).
  pose proof (at_ref_end _ _ _ _ _ A ltac:(rewrite Ef, <- E, E'; exact Eh)) as B. destruct A as (_ & _ & _ & _ & _ & _ & L0).
  unfold HEADER in B. blen_pos. lia.
Qed.

Lemma finish_ok G pins c o w : st G pins [c] o w -> compaction (log w) = None -> c_bytes c <= c_offset c ->
  exists w1, retire (c_file_id c) w = (Ok true, w1) /\
  match bump_epoch w1 with
  | (Ok _, w2) => exists w3, arc_drop (vf_id (c_handle c)) w2 = (Ok tt, w3) /\ st G pins [] o w3 /\ compaction (log w3) = None /\
      moves_on w w3 /\ (calm G w -> calm G w3) /\ c_file_id c ∉ ids (log w3)
  | (Crash, w2) => epoch_full w2
  | (Err _, _) | (Diverge, _) => False
  end.
Proof.
  intros S Nc Le. pose proof S as (I & Ne & Co). destruct (cursor_end _ _ _ _ I) as (s & Hs & E1 & E2 & E3 & _).
  pose proof (inv_cursor_pin _ _ _ _ _ I) as I0. pose proof (sealed_files _ _ Hs) as Hf. rewrite E2 in *.
  destruct (retire_ok _ _ _ _ _ I0 Hf) as (w1 & l1 & l2 & Er & I1 & (S1 & S2 & S3 & S4 & S5 & S6 & _) & Ee & F & F1). exists w1. split; [done|].
  pose proof (bump_epoch_ok _ _ _ _ _ I1) as B. destruct (bump_epoch w1) as [[u|e| |] w2]; [|done|done|done]. destruct B as [I2 ->].
  destruct (arc_drop_ok _ _ _ _ _ _ I2) as (w3 & E3' & I3 & El & Ei & _ & Q3 & N3). rewrite E1. exists w3. split; [done|].
  assert (Ef : files (log w3) = l1 ++ l2) by (rewrite El; exact F1).
  assert (Sub : files (log w3) `sublist_of` files (log w)) by (rewrite Ef, <- F1; done).
  pose proof (sorted_NoDup _ (i_sorted _ _ _ _ _ I)) as ND. unfold ids in ND. rewrite F, fmap_app, fmap_cons in ND.
  apply list.NoDup_app in ND as (_ & N1 & N2). apply NoDup_cons in N2 as [N2 _].
  assert (Gone : vf_id (handle s) ∉ ids (log w3)).
  { unfold ids. rewrite Ef, fmap_app. intros [M|M]%elem_of_app; [apply (N1 _ M); by left|done]. }
  split; [|split; [by rewrite El; cbn; rewrite S1|]; split; [|split; [|exact Gone]]].
  - split_and!; [done| |].
    + destruct (files_snoc _ Ne) as (fs & a & Efs & Ess & _). rewrite Ess in Hs. rewrite Ef. intros E0. apply app_eq_nil in E0 as [-> ->].
      rewrite F in Efs. cbn in Efs. change [s] with ([] ++ [s]) in Efs. apply app_inj_tail in Efs as [<- _]. by apply not_elem_of_nil in Hs.
    + apply (coherent_shrink G pins [c] [] o w w3); try done; [|by intros ? ? ? ?%not_elem_of_nil]. intros f Hf0. rewrite F in Hf0. rewrite Ef.
      rewrite elem_of_app, elem_of_cons in Hf0. rewrite elem_of_app. destruct Hf0 as [|[->|]]; [tauto| |tauto]. right.
      by apply (drained_unreached G pins c o w s).
  - unfold moves_on. rewrite El. split_and!; cbn [log with_log set_epoch next_id epoch]; [lia|lia|lia|]. intros id Hi. left. apply (ids_sublist w w3 Sub). by rewrite El.
  - apply calm_shrink; [rewrite El; exact S2|by intros H; apply Q3, S5|by etrans].
Qed.

Lemma on_log_eq {A} (m : prog World A) (o : Own) w : on_log m (o, w) = (fst (m w), (o, snd (m w))).
Proof. unfold on_log. by destruct (m w). Qed.

Lemma st_compaction G pins curs o w c : st G pins curs o w -> st G pins curs o (with_log (set_compaction c) w).
Proof. intros (I & Ne & Co). split_and!; [by apply inv_set_compaction|done|exact Co]. Qed.

Lemma drain_victim_ok G pins c o w budget : st G pins [c] o w -> compaction (log w) = Some c -> c_offset c < c_bytes c ->
  match drain_victim cpu c budget (o, w) with
  | (Ok n, (o', w')) => (0 <= n /\ (0 < budget -> 0 < n)) /\ exists G', grows G G' /\ ready G' pins o' w' /\ same_values G o G' o' /\ moves_on w w' /\ (calm G w -> calm G' w') /\
      (budget = u64_max -> (c_file_id c ∉ ids (log w')) /\ own w' = [])
  | (Err _, (o', w')) => ~ calm G w /\ exists G', grows G G' /\ ready G' pins o' w' /\ same_values G o G' o' /\ moves_on w w'
  | (Crash, (_, w')) => counters_full w' \/ epoch_full w'
  | (Diverge, _) => False
  end.
Proof.
  intros S Ec Lt. unfold drain_victim. rewrite bind_eq, on_log_eq. cbn [modify fst snd]. rewrite bind_eq. unfold dropping.
  pose proof (st_compaction _ _ _ _ _ None S) as S0. set (w0 := with_log (set_compaction None) w) in *.
  assert (M0 : forall w', moves_on w0 w' -> moves_on w w') by (by intros w').
  assert (Ca0 : calm G w -> calm G w0) by done.
  assert (Nc : forall w', ext w0 w' -> compaction (log w') = None) by (intros w' (_ & X & _); by rewrite X).
  destruct (cursor_end _ _ _ _ (proj1 S0)) as (v & Hv & Eh & Ei & Eb & Of & Ub).
  pose proof (victim_drain_ok (Z.to_nat (c_bytes c)) G pins c o w0 0 budget S0 ltac:(lia)) as D.
  destruct (drain cpu (Z.to_nat (c_bytes c)) c 0 budget (o, w0)) as [[[c' dn]|e| |] [o1 w1]]; [| |by left|done].
  - destruct D as (n & -> & L1 & L2 & Fin & Prog & G1 & Gr & S1 & V1 & X1 & Ca1). specialize (Prog Lt).
    change (c_bytes (advance c n)) with (c_bytes c). change (c_handle (advance c n)) with (c_handle c).
    change (c_file_id (advance c n)) with (c_file_id c).
    destruct (Z.leb_spec (c_bytes c) (c_offset (advance c n))) as [Le|Gt].
    + destruct (finish_ok G1 pins (advance c n) o1 w1 S1 (Nc _ X1) Le) as (w2 & Er & B). change (c_file_id (advance c n)) with (c_file_id c) in *.
      rewrite bind_eq, on_log_eq, Er. cbn [fst snd]. rewrite bind_eq, on_log_eq. destruct (bump_epoch w2) as [[u|e| |] w3]; cbn [fst snd]; [|done|by right|done].
      destruct B as (w4 & Ed & S4 & Nc4 & M4 & Ca4 & Gone). change (c_handle (advance c n)) with (c_handle c) in Ed.
      rewrite bind_eq, on_log_eq, Ed. cbn [fst snd]. runs. split; [lia|]. exists G1. assert (Ow : own w4 = []) by (unfold own; by rewrite Nc4).
      split; [done|]. split; [split; rewrite Ow; [done|by intros ? ?%not_elem_of_nil]|]. split; [done|].
      split; [apply M0; eapply moves_on_trans; [by apply moves_on_ext|done]|]. split; [by intros H; apply Ca4, Ca1, Ca0|done].
    + rewrite bind_eq, on_log_eq. cbn [modify fst snd]. runs. split; [lia|]. exists G1. split; [done|].
      split; [split; [apply st_compaction, S1|]|].
      { intros c0 Hc. apply list_elem_of_singleton in Hc as ->. exact Gt. }
      split; [done|]. split; [exact (M0 _ (moves_on_ext _ _ X1))|]. split; [by intros H; apply Ca1, Ca0|].
      intros ->. exfalso. destruct Fin as [Fin|Fin]; [cbn in Fin, Gt; lia|]. destruct (cursor_end _ _ _ _ (proj1 S1)) as (_ & _ & _ & _ & _ & Of1 & _).
      cbn in Of1, Gt. unfold HEADER in L1. lia.
  - destruct D as (Nca & G1 & n & Gr & S1 & V1 & X1). rewrite bind_eq, on_log_eq. destruct S1 as (I1 & Ne1 & Co1).
    pose proof (inv_cursor_pin _ _ _ _ _ I1) as I2. change (c_file_id (advance c n)) with (c_file_id c) in I2. rewrite Ei, <- Eh in I2.
    destruct (arc_drop_ok _ _ _ _ _ _ I2) as (w2 & -> & I3 & El & En & _). cbn [fst snd throw].
    split; [by intros H; apply Nca, Ca0|]. exists G1. assert (Ow : own w2 = []) by (unfold own; rewrite El, (Nc _ X1); done).
    split; [done|]. split; [split; rewrite Ow; [split_and!; [done|by rewrite El|]|by intros ? ?%not_elem_of_nil]|].
    { destruct Co1 as (C1 & C2 & C3 & _). split_and!; [| |by rewrite El|by intros ? ? ? ?%not_elem_of_nil].
      - eapply knows_mono; [|exact C1]. intros s r k _. unfold key_at. by rewrite El.
      - intros s r E. destruct (C2 s r E) as [k Hk]. exists k. unfold key_at in *. by rewrite El. }
    split; [done|]. apply M0. unfold moves_on. rewrite El. by apply moves_on_ext.
Qed.

(** No sealed file below the ceiling is left to drop or to compact. *)
Definition settled (live_pct id_below : Z) (w : World) : Prop :=
  own w = [] /\ forall s, s ∈ sealed (log w) -> is_dead id_below s = false /\ is_victim live_pct id_below s = false.

Lemma step_ok G pins o w live_pct budget id_below : ready G pins o w ->
  match compact_step_capped cpu live_pct budget id_below (o, w) with
  | (Ok n, (o', w')) => 0 <= n /\ exists G', grows G G' /\ ready G' pins o' w' /\ same_values G o G' o' /\ moves_on w w' /\ (calm G w -> calm G' w') /\
      (n = 0 -> 0 < budget -> settled live_pct id_below w') /\
      (0 < n -> budget = u64_max -> own w' = [] /\
       exists id, id ∈ ids (log w) /\ (id ∉ ids (log w')) /\ (id < id_below \/ exists c, c ∈ own w /\ c_file_id c = id))
  | (Err _, (o', w')) => ~ calm G w /\ exists G', grows G G' /\ ready G' pins o' w' /\ same_values G o G' o' /\ moves_on w w'
  | (Crash, (_, w')) => counters_full w' \/ epoch_full w'
  | (Diverge, _) => False
  end.
Proof.
  intros [S Cl]. unfold compact_step_capped. rewrite bind_eq, on_log_eq. cbn [gets fst snd]. rewrite bind_eq.
  destruct (compaction (log w)) as [c|] eqn:Ec; cbn [mret prog_ret].
  - (* the cursor of an earlier step *)
    cbn [negb]. rewrite bind_eq, on_log_eq. cbn [gets fst snd]. rewrite Ec. assert (Ow : own w = [c]) by (unfold own; by rewrite Ec).
    rewrite Ow in *. pose proof (drain_victim_ok G pins c o w budget S Ec (Cl c ltac:(by left))) as D.
    destruct (drain_victim cpu c budget (o, w)) as [[n|e| |] [o' w']]; [|exact D|exact D|exact D].
    destruct D as (Hn & G' & A & B & C & D & E & F). split; [lia|]. exists G'. split_and!; try done; [lia|]. intros _ Hm. destruct (F Hm) as [F1 F2].
    split; [done|]. exists (c_file_id c). split; [|split; [done|right; exists c; split; [by left|done]]].
    destruct (cursor_end _ _ _ _ (proj1 S)) as (v & Hv & _ & -> & _). apply list_elem_of_fmap. exists v. split; [done|by apply sealed_files].
  - assert (Ow : own w = []) by (unfold own; by rewrite Ec). rewrite Ow in *. destruct S as (I & Ne & Co).
    rewrite on_log_eq. pose proof (begin_compaction_ok cpu G pins w live_pct id_below I Ec Ne) as B.
    destruct (begin_compaction live_pct id_below w) as [[b|e| |] w1]; cbn [fst snd]; [|done|by right|done]. destruct b; cbn [negb].
    + destruct B as (Bg & s & Hs & Vic & Ec1 & I1). destruct (begun_ok G pins o w w1 id_below [cursor_on s]) as (S1 & M1 & Ca1); [done|done|done| |].
      { intros c Hc. by apply list_elem_of_singleton in Hc as ->. }
      rewrite bind_eq, on_log_eq. cbn [gets fst snd]. rewrite Ec1. unfold is_victim in Vic. rewrite !andb_true_iff in Vic. destruct Vic as [[V1 V2] _].
      apply Z.ltb_lt in V1, V2. pose proof (live_range _ _ _ _ _ _ I1 (sealed_files _ _ Hs)) as Lr.
      pose proof (drain_victim_ok G pins (cursor_on s) o w1 budget S1 Ec1 ltac:(cbn; lia)) as D.
      destruct (drain_victim cpu (cursor_on s) budget (o, w1)) as [[n|e| |] [o' w']]; [| |exact D|exact D].
      * destruct D as (Hn & G' & A & B & C & D & E & F). split; [lia|]. exists G'. split; [done|]. split; [done|]. split; [done|].
        split; [by eapply moves_on_trans|]. split; [by intros H; apply E, Ca1|]. split; [lia|]. intros _ Hm. destruct (F Hm) as [F1 F2].
        split; [done|]. exists (vf_id (handle s)). split; [|split; [done|by left]]. destruct Bg as (_ & _ & Su & _).
        apply list_elem_of_fmap. exists s. split; [done|]. eapply elem_of_sublist; [|exact Su]. by apply sealed_files.
      * destruct D as (Nc & G' & A & B & C & D). split; [by intros H; apply Nc, Ca1|]. exists G'. split_and!; try done. by eapply moves_on_trans.
    + destruct B as (Bg & Ec1 & I1 & No). destruct (begun_ok G pins o w w1 id_below []) as (S1 & M1 & Ca1); [done|done|done|by intros ? ?%not_elem_of_nil|].
      runs. split; [done|]. assert (Ow1 : own w1 = []) by (unfold own; by rewrite Ec1). exists G. split; [apply hist_grows_refl|].
      split; [split; rewrite Ow1; [done|by intros ? ?%not_elem_of_nil]|]. split; [by apply same_values_grow; [apply hist_grows_refl|]|].
      split; [done|]. split; [done|]. split; [done|lia].
Qed.

(** *** Draining fully *)

Definition below_ceiling (ceiling : Z) (w : World) : gset Z := filter (fun id => id < ceiling) (list_to_set (ids (log w))).

Lemma elem_of_below ceiling w id : id ∈ below_ceiling ceiling w <-> id < ceiling /\ id ∈ ids (log w).
Proof. unfold below_ceiling. by rewrite elem_of_filter, elem_of_list_to_set. Qed.

Lemma drain_all_ok fuel live_pct ceiling : forall G pins o w, ready G pins o w -> ceiling <= next_id (log w) ->
  (forall c, c ∈ own w -> c_file_id c < ceiling) -> (base.size (below_ceiling ceiling w) < fuel)%nat ->
  match drain_all cpu fuel live_pct ceiling (o, w) with
  | (Ok _, (o', w')) => exists G', grows G G' /\ ready G' pins o' w' /\ same_values G o G' o' /\ moves_on w w' /\ settled live_pct ceiling w'
  | (Err _, (o', w')) => ~ calm G w /\ exists G', grows G G' /\ ready G' pins o' w' /\ same_values G o G' o' /\ moves_on w w'
  | (Crash, (_, w')) => counters_full w' \/ epoch_full w'
  | (Diverge, _) => False
  end.
Proof.
  induction fuel as [|fuel IH]; intros G pins o w R Hc Cc Hs; [lia|]. cbn [drain_all]. rewrite bind_eq.
  pose proof (step_ok G pins o w live_pct u64_max ceiling R) as S.
  destruct (compact_step_capped cpu live_pct u64_max ceiling (o, w)) as [[n|e| |] [o1 w1]]; [|exact S|exact S|exact S].
  destruct S as (Hn & G1 & Gr & R1 & V1 & M1 & Ca1 & Fin & Prog). destruct (Z.ltb_spec 0 n) as [Pos|Zero].
  2: { runs. exists G1. split_and!; try done. apply Fin; [lia|done]. }
  destruct (Prog Pos eq_refl) as (Ow & id & Hid & Gone & Lt). pose proof M1 as (M1a & _ & _ & M1d).
  assert (Hlt : id < ceiling) by (destruct Lt as [|(c & Hc0 & <-)]; [done|by apply Cc]).
  pose proof (IH G1 pins o1 w1 R1 ltac:(lia)) as S. rewrite Ow in S.
  specialize (S ltac:(by intros ? ?%not_elem_of_nil)). assert (Dec : (base.size (below_ceiling ceiling w1) < base.size (below_ceiling ceiling w))%nat).
  { apply subset_size. split.
    - intros x. rewrite !elem_of_below. intros [L Hx]. split; [done|]. apply M1d in Hx as [|]; [done|lia].
    - intros Sub. apply Gone. apply (elem_of_below ceiling w1 id), Sub, elem_of_below. done. }
  specialize (S ltac:(lia)). destruct (drain_all cpu fuel live_pct ceiling (o1, w1)) as [[u|e| |] [o2 w2]]; [| |exact S|exact S].
  - destruct S as (G2 & A & B & C & D & E). exists G2. split; [by eapply grows_trans|]. split; [done|]. split; [by eapply same_values_trans|].
    split; [by eapply moves_on_trans|done].
  - destruct S as (Nc & G2 & A & B & C & D). split; [by intros H; apply Nc, Ca1|]. exists G2. split; [by eapply grows_trans|].
    split; [done|]. split; [by eapply same_values_trans|by eapply moves_on_trans].
Qed.

(** ** Theorems *)

(** What a slot reads before and after. *)
Definition values_kept (o : Own) (w : World) (o' : Own) (w' : World) : Prop :=
  forall s, match slot_ref o s with
  | None => slot_ref o' s = None
  | Some r => forall k p, log_get cpu w r = Ok (k, p) -> 4 + blen k + blen p + 6 <= MAX_BODY ->
      exists r', slot_ref o' s = Some r' /\ log_get cpu w' r' = Ok (k, p)
  end.

Lemma kept_values G G' pins o o' w w' : ready G pins o w -> ready G' pins o' w' -> same_values G o G' o' -> values_kept o w o' w'.
Proof.
  intros [(I & _ & (_ & C2 & _)) _] [(I' & _ & (_ & C2' & _)) _] V s. specialize (V s). destruct (slot_ref o s) as [r|] eqn:E; [|done].
  intros k p Rd Sm. destruct (C2 s r E) as (k0 & rc & A & Ek & Hi). rewrite (log_get_at _ _ _ _ _ _ _ I A Hi) in Rd.
  destruct (MAX_BODY <? len r); [done|]. injection Rd as <- <-. destruct (V rc A) as (r' & rc' & E' & A' & Kk & Kp). exists r'. split; [done|].
  destruct (C2' s r' E') as (k1 & rc1 & A1 & _ & Hi'). rewrite (log_get_at _ _ _ _ _ _ _ I' A' Hi'), Kk, Kp.
  destruct (Z.ltb_spec MAX_BODY (len r')) as [Big|]; [|done]. exfalso. destruct A' as (h & pre & post & Eh & R & _ & L).
  destruct (i_hist _ _ _ _ _ I' _ _ Eh) as [(_ & _ & F) _]. rewrite R, list.Forall_app, list.Forall_cons in F. destruct F as (_ & (_ & _ & F) & _).
  unfold body_of in L. rewrite record_body_blen in L. rewrite Kp in F. rewrite Kk in L. lia.
Qed.

(** The epoch answers whether an address can have become invalid. *)
Definition epoch_guards (w w' : World) : Prop :=
  epoch (log w') = epoch (log w) -> forall r, committed w r -> log_get cpu w' r = log_get cpu w r.

Lemma epoch_guarded G G' pins curs curs' w w' : inv G pins curs w -> inv G' pins curs' w' -> grows G G' -> moves_on w w' -> epoch_guards w w'.
Proof.
  intros I I' Gr (_ & _ & M & _) E r C. eapply committed_stable; [exact I|exact I'|done|done|]. apply M; [done|by apply committed_id].
Qed.

(** C10: A compaction step, with any budget, zero included, and whatever system
    calls fail, whether it ends well or with an error, leaves the log in good
    order and every slot of a lawful owner that holds a value six bytes or more
    below the record limit with the key and value it had; while the epoch stands,
    every committed address reads what it did.  It fails only where a system call,
    a file name or a record at the size limit did, panics only where the file ids,
    a file's bytes or the epoch have run out of their width, and does not run
    forever. *)
Theorem compaction_keeps_values (G : gmap Z hist) (pins : list Z) (o : Own) (w : World) (live_pct budget : Z)
  (Hr : ready G pins o w) :
  match compact_step cpu live_pct budget (o, w) with
  | (Ok _, (o', w')) => (exists G', ready G' pins o' w') /\ values_kept o w o' w' /\ epoch_guards w w'
  | (Err _, (o', w')) => (exists G', ready G' pins o' w') /\ values_kept o w o' w' /\ epoch_guards w w' /\ ~ calm G w
  | (Crash, (_, w')) => counters_full w' \/ epoch_full w'
  | (Diverge, _) => False
  end.
Proof.
  unfold compact_step. pose proof (step_ok G pins o w live_pct budget (2 ^ 32 - 1) Hr) as S.
  destruct (compact_step_capped cpu live_pct budget (2 ^ 32 - 1) (o, w)) as [[n|e| |] [o' w']]; [| |exact S|exact S].
  - destruct S as (_ & G' & Gr & R' & V & M & _). split; [by exists G'|]. split; [by eapply kept_values|].
    eapply epoch_guarded; [apply Hr|apply R'|done|done].
  - destruct S as (Nc & G' & Gr & R' & V & M). split; [by exists G'|]. split; [by eapply kept_values|]. split; [|done].
    eapply epoch_guarded; [apply Hr|apply R'|done|done].
Qed.

(** C26: Draining ends, at every threshold, also where survivors fill new files: it
    returns the number of files retired with no sealed file that existed at the
    start left dead or below the threshold, or an error where a system call, a
    file name or a record at the size limit failed, and either way every slot that
    holds a value six bytes or more below the record limit keeps its key and
    value; it panics only where the file ids, a file's bytes or the epoch have run
    out of their width. *)
Theorem compact_below_ends (G : gmap Z hist) (pins : list Z) (o : Own) (w : World) (live_pct : Z) (Hr : ready G pins o w) :
  match compact_below cpu live_pct (o, w) with
  | (Ok n, (o', w')) => n = epoch (log w') - epoch (log w) /\ 0 <= n /\ settled live_pct (next_id (log w)) w' /\
      (exists G', ready G' pins o' w') /\ values_kept o w o' w'
  | (Err _, (o', w')) => (exists G', ready G' pins o' w') /\ values_kept o w o' w' /\ ~ calm G w
  | (Crash, (_, w')) => counters_full w' \/ epoch_full w'
  | (Diverge, _) => False
  end.
Proof.
  unfold compact_below. rewrite bind_eq, on_log_eq. cbn [gets fst snd]. rewrite bind_eq. pose proof Hr as [(I & _ & _) _].
  pose proof (drain_all_ok (S (length (files (log w)))) live_pct (next_id (log w)) G pins o w Hr ltac:(lia)) as D.
  assert (Sz : (base.size (below_ceiling (next_id (log w)) w) < S (length (files (log w))))%nat).
  { apply Nat.lt_succ_r. transitivity (base.size (list_to_set (ids (log w)) : gset Z)).
    - apply subseteq_size. intros x [_ Hx]%elem_of_below. by apply elem_of_list_to_set.
    - rewrite size_list_to_set by (apply sorted_NoDup, I). unfold ids. by rewrite length_fmap. }
  assert (Cu : forall c, c ∈ own w -> c_file_id c < next_id (log w)).
  { intros c Hc. pose proof (proj1 (list.Forall_forall _ _) (i_cursors _ _ _ _ _ I) c Hc) as (s & _ & _ & _ & Hs & _ & -> & _).
    eapply id_known; [exact I|]. by apply sealed_files. }
  specialize (D Cu Sz). destruct (drain_all cpu _ live_pct (next_id (log w)) (o, w)) as [[u|e| |] [o' w']]; [| |exact D|exact D].
  - destruct D as (G' & Gr & R' & V & M & F). rewrite bind_eq, on_log_eq. cbn [gets fst snd]. runs. destruct M as (_ & Me & _).
    split; [done|]. split; [lia|]. split; [done|]. split; [by exists G'|by eapply kept_values].
  - destruct D as (Nc & G' & Gr & R' & V & M). split_and!; [by exists G'|by eapply kept_values|done].
Qed.

(** A pinned file outlives its retirement: after any compaction step that does
    not panic its name is still in the directory and every address inside what
    it had committed reads the same through the handle. *)
Theorem pinned_reader (G : gmap Z hist) (pins : list Z) (o : Own) (w : World) (live_pct budget : Z) (s : FileState) (r : VlogRef)
  (Hr : ready G (vf_id (handle s) :: pins) o w) (Hs : s ∈ files (log w))
  (Hc : 0 <= offset r /\ 0 <= len r /\ offset r + disk_len r <= bytes s) :
  match compact_step cpu live_pct budget (o, w) with
  | (Ok _, (_, w')) | (Err _, (_, w')) => file_name (vf_id (handle s)) ∈ names w' /\
      fetch cpu (handle s) (content_of w' (vf_id (handle s))) r = fetch cpu (handle s) (content_of w (vf_id (handle s))) r
  | (Crash, (_, w')) => counters_full w' \/ epoch_full w'
  | (Diverge, _) => False
  end.
Proof.
  unfold compact_step. pose proof (step_ok G _ o w live_pct budget (2 ^ 32 - 1) Hr) as S. pose proof Hr as [(I & _) _].
  assert (Post : forall G' curs w', grows G G' -> inv G' (vf_id (handle s) :: pins) curs w' -> file_name (vf_id (handle s)) ∈ names w' /\
    fetch cpu (handle s) (content_of w' (vf_id (handle s))) r = fetch cpu (handle s) (content_of w (vf_id (handle s))) r).
  { intros G' curs w' Gr I'. split.
    - apply (i_names _ _ _ _ _ I'). rewrite (arc_pos _ _ _ _ _ _ I'); [done|]. rewrite holders_pin, decide_True by done.
      pose proof (holders_nonneg pins curs (log w') (vf_id (handle s))). lia.
    - destruct (inv_state _ _ _ _ _ _ I Hs) as (h & Eh & (_ & Eb & _) & _ & Pf). destruct (Gr _ _ Eh) as (h' & more & Eh' & _ & _ & R').
      destruct (i_hist _ _ _ _ _ I' _ _ Eh') as [_ Pf']. destruct Hc as (H1 & H2 & H3). symmetry.
      eapply fetch_prefix; [done|done| |exact Pf|]; [rewrite <- Eb; exact H3|]. etrans; [|exact Pf']. rewrite R', images_app. by eexists. }
  destruct (compact_step_capped cpu live_pct budget (2 ^ 32 - 1) (o, w)) as [[n|e| |] [o' w']]; [| |exact S|exact S].
  - destruct S as (_ & G' & Gr & R' & _). eapply Post; [done|apply R'].
  - destruct S as (_ & G' & Gr & R' & _). eapply Post; [done|apply R'].
Qed.

End Compaction.
