(* ===== verification/VlogOwner.v ===== *)
(** * What the log's owner does between compactions

    The owner of the references drops one, points a slot at a record it just
    appended, lets go of everything, or moves its slots about.  Each keeps the
    log and its owner in agreement: of no file does the owner reach more bytes
    than the log counts live, so no file it reaches is ever dropped. *)

From Stdlib Require Import ZArith Lia Bool Sorted Strings.Byte Strings.String.
From stdpp Require Import base tactics list numbers gmap.
From S2P Require Import Prelude FindCrlf Buffers Encode Huff Lz Compress Crc32c Vlog VlogSpec VlogCompact.

#[local] Open Scope list_scope.
#[local] Open Scope Z_scope.

Section Owner.
Context (cpu : Cpu) {Own Slot : Type} `{!CompactOwner Own} `{!OwnerLaws Own Slot}.

#[local] Abbreviation inv := (inv cpu).
#[local] Abbreviation ready := (ready cpu).
#[local] Abbreviation key_at := (key_at cpu).

(** The slots are other slots' references, and claim no more. *)
Lemma ready_reslot G pins (o o' : Own) w : ready G pins o w -> knows (key_at G w) o' ->
  (forall s r, slot_ref o' s = Some r -> exists s', slot_ref o s' = Some r) -> (forall f, claim o' f <= claim o f) -> ready G pins o' w.
Proof.
  intros [(I & Ne & (C1 & C2 & C3 & C4)) Cl] Kn Sl Cm. split; [split; [done|split; [done|split_and!]]|done].
  - done.
  - intros s r E. destruct (Sl s r E) as [s' E']. by eapply C2.
  - intros f Hf. specialize (C3 f Hf). specialize (Cm (vf_id (handle f))). lia.
  - intros c s r Hc E. destruct (Sl s r E) as [s' E']. by eapply C4.
Qed.

(** The same with the live counts changed. *)
Lemma ready_relive G pins (o o' : Own) w fs' : ready G pins o w -> Forall2 relabelled (files (log w)) fs' ->
  knows (key_at G w) o' -> (forall s r, slot_ref o' s = Some r -> exists s', slot_ref o s' = Some r) ->
  (forall f, f ∈ fs' -> claim o' (vf_id (handle f)) <= live f) -> ready G pins o' (with_log (set_files fs') w).
Proof.
  intros [(I & Ne & (C1 & C2 & C3 & C4)) Cl] F Kn Sl Cm. pose proof (inv_relabel _ _ _ _ _ _ I F) as I'.
  assert (Ei : ids (log (with_log (set_files fs') w)) = ids (log w)).
  { unfold ids. cbn [log with_log files set_files]. clear -F. induction F as [|f f' l l' (E & _) _ IH]; [done|]. cbn. by rewrite E, IH. }
  assert (Ek : forall r k, key_at G w r k -> key_at G (with_log (set_files fs') w) r k).
  { intros r k (rc & A & E & Hi). exists rc. by rewrite Ei. }
  split; [split; [exact I'|split; [|split_and!]]|done].
  - cbn. intros ->. apply Forall2_nil_inv_r in F. done.
  - eapply knows_mono; [|exact Kn]. intros s r k _. apply Ek.
  - intros s r E. destruct (Sl s r E) as [s' E']. destruct (C2 s' r E') as [k Hk]. exists k. by apply Ek.
  - exact Cm.
  - intros c s r Hc E. destruct (Sl s r E) as [s' E']. by eapply C4.
Qed.

(** A slot lets its record go. *)
Lemma ready_drop G pins (o o' : Own) w r : ready G pins o w -> 0 <= len r -> knows (key_at G w) o' ->
  (forall s r', slot_ref o' s = Some r' -> exists s', slot_ref o s' = Some r') ->
  (forall f, claim o' f <= claim o f - (if decide (f = file_id r) then HEADER + len r else 0)) ->
  exists fs', note_dead r w = (Ok tt, with_log (set_files fs') w) /\ ready G pins o' (with_log (set_files fs') w).
Proof.
  intros R Hl Kn Sl Cm. pose proof R as [(I & _ & (_ & _ & C3 & _)) _]. destruct (note_dead_ok _ _ _ _ _ _ I Hl) as (fs' & E & F). exists fs'. split; [done|].
  apply (ready_relive G pins o o' w fs' R F Kn Sl). intros f Hf. specialize (Cm (vf_id (handle f))).
  apply list_elem_of_lookup in Hf as [i Hi]. pose proof (f_equal (fun p => files (log (snd p))) E) as Ef. cbn in Ef. unfold note_dead, modify in Ef. cbn in Ef.
  destruct (list_find _ (files (log w))) as [[j a]|] eqn:L.
  - cbn in Ef. apply list_find_Some in L as (La & Ea & _). rewrite <- Ef in Hi. destruct (decide (i = j)) as [->|N].
    + rewrite list_lookup_insert_eq in Hi by by eapply lookup_lt_Some. injection Hi as <-. cbn [kill handle live] in *. rewrite Ea, decide_True in Cm by done.
      specialize (C3 a ltac:(by eapply list_elem_of_lookup_2)). rewrite Ea in C3. rewrite Ea. lia.
    + rewrite list_lookup_insert_ne in Hi by done. specialize (C3 f ltac:(by eapply list_elem_of_lookup_2)). case_decide; unfold HEADER in *; lia.
  - rewrite <- Ef in Hi. specialize (C3 f ltac:(by eapply list_elem_of_lookup_2)). case_decide; unfold HEADER in *; lia.
Qed.

(** Everything is let go. *)
Lemma ready_flush G pins (o o' : Own) w : ready G pins o w -> knows (key_at G w) o' -> (forall s, slot_ref o' s = None) ->
  exists fs', mark_all_dead w = (Ok tt, with_log (set_files fs') w) /\ ready G pins o' (with_log (set_files fs') w).
Proof.
  intros R Kn No. pose proof R as [(I & _) _]. destruct (mark_all_dead_ok _ _ _ _ _ I) as (fs' & E & F & Z0). exists fs'. split; [done|].
  apply (ready_relive G pins o o' w fs' R F Kn); [by intros s r E'; rewrite No in E'|]. intros f Hf.
  rewrite (proj1 (list.Forall_forall _ _) Z0 f Hf), claim_none; [done|]. intros s r E'. by rewrite No in E'.
Qed.

(** The owner before and after a call that changed the log but no slot. *)
Lemma ready_ext G G' pins (o : Own) w w' : ready G pins o w -> grows G G' -> inv G' pins (own w) w' -> ext w w' -> ready G' pins o w'.
Proof.
  intros [(I & Ne & Co) Cl] Gr I' X. assert (Ow : own w' = own w) by by apply own_ext. split; rewrite Ow; [|done].
  split; [done|]. split; [by eapply files_ext|]. eapply (coherent_ext cpu G G'); [exact I'|done|exact X|exact Co| |done|done].
  eapply knows_mono; [|apply Co]. intros s r k _. by apply key_at_ext.
Qed.

(** A slot is pointed at a record just appended. *)
Lemma ready_point G G' pins (o o' : Own) w w' key payload new : ready G pins o w -> grows G G' -> inv G' pins (own w) w' -> ext w w' ->
  appended cpu G G' w w' key payload new -> knows (key_at G' w') o' -> (forall s, slot_ref o' s = slot_ref o s \/ slot_ref o' s = Some new) ->
  (forall f, claim o' f <= claim o f + (if decide (f = file_id new) then HEADER + len new else 0)) -> ready G' pins o' w'.
Proof.
  intros R Gr I' X Ap Kn Sl Cm. pose proof (appended_id _ _ _ _ _ _ _ _ Ap) as Idn. destruct Ap as (rc & A & Ek & _ & (a & La & Ea & Pa & Ra) & _).
  pose proof (ready_ext _ _ _ _ _ _ R Gr I' X) as [(_ & Ne' & Co') Cl']. split; [|done]. assert (Ow : own w' = own w) by by apply own_ext. rewrite Ow in *.
  split; [done|]. split; [done|]. eapply (coherent_moved cpu G' pins (own w) o o' w' new key a); try done; [by exists rc|].
  destruct R as [(_ & _ & Co) _]. destruct (decide (file_id new ∈ ids (log w))) as [Hi|Hi].
  - destruct (Ra Hi) as (f & Hf & Ef & Lf). destruct Co as (_ & _ & C3 & _). specialize (C3 f Hf). rewrite Ef in C3. lia.
  - rewrite (unclaimed cpu _ _ _ _ _ Co Hi). done.
Qed.

(** A reader takes a handle. *)
Lemma ready_pin G pins (o : Own) w id : ready G pins o w -> id ∈ ids (log w) -> exists w', arc_clone id w = (Ok tt, w') /\ log w' = log w /\ ready G (id :: pins) o w'.
Proof.
  intros [(I & Ne & Co) Cl] Hi. assert (Hh : 0 < holders pins (own w) (log w) id).
  { unfold holders. pose proof (occ_nonneg id (c_file_id <$> own w)). pose proof (occ_nonneg id pins). pose proof (proj2 (occ_pos id (ids (log w))) Hi). lia. }
  destruct (arc_clone_ok cpu _ _ _ _ _ I Hh) as (w' & E & I' & El & _). exists w'. split; [done|]. split; [done|].
  unfold VlogCompact.ready, st, coherent, VlogCompact.key_at, own in *. rewrite El. done.
Qed.

(** An appended record is nobody's yet. *)
Lemma appended_fresh G G' pins (o : Own) w w' key payload new : ready G pins o w -> appended cpu G G' w w' key payload new ->
  forall s r, slot_ref o s = Some r -> ~ (file_id r = file_id new /\ offset r = offset new).
Proof.
  intros [(_ & _ & (_ & C2 & _)) _] (rc & _ & _ & _ & _ & Fresh) s r E [F1 F2]. destruct (C2 s r E) as (k & rc0 & A0 & _).
  pose proof A0 as (h & _ & _ & Eh & _ & _ & L). pose proof (at_ref_end _ _ _ _ _ A0 Eh) as B. rewrite F1 in Eh. specialize (Fresh h Eh). unfold HEADER in B. blen_pos. lia.
Qed.

End Owner.

(** ** What compaction does to the owner

    It asks and tells, and nothing else: a relation that both keep relates the
    owner before a step with the owner after, however the step ends. *)

Section Frame.
Context (cpu : Cpu) {Own : Type} `{!CompactOwner Own} (R : Own -> Own -> Prop) `{!PreOrder R}.
Context (Rask : forall key old o, R o (snd (is_live key old o))) (Rtell : forall key old new o o', moved key old new o = Ret o' -> R o o').

Definition keeps {A} (m : prog (Own * World) A) : Prop := forall s, R (fst s) (fst (snd (m s))).

Lemma keeps_ret {A} (a : A) : keeps (mret a).
Proof using PreOrder0. intros s. reflexivity. Qed.

Lemma keeps_bind {A B} (m : prog (Own * World) A) (f : A -> prog (Own * World) B) : keeps m -> (forall a, keeps (f a)) -> keeps (m ≫= f).
Proof using PreOrder0.
  intros K1 K2 s. rewrite bind_eq. specialize (K1 s). destruct (m s) as [[a|e| |] s1]; cbn [snd] in *; [|done|done|done]. etrans; [exact K1|]. apply K2.
Qed.

Lemma keeps_on_log {A} (m : prog World A) : keeps (on_log m).
Proof using PreOrder0. intros [o w]. unfold on_log. destruct (m w). reflexivity. Qed.

Lemma keeps_ask key old : keeps (ask key old).
Proof using Rask. intros [o w]. unfold ask. specialize (Rask key old o). by destruct (is_live key old o). Qed.

Lemma keeps_tell key old new : keeps (tell key old new).
Proof using Rtell PreOrder0. intros [o w]. unfold tell. destruct (moved key old new o) eqn:E; cbn; [by eapply Rtell|reflexivity]. Qed.

Lemma keeps_drain fuel : forall cur dn budget, keeps (drain cpu fuel cur dn budget).
Proof using Rask Rtell PreOrder0.
  induction fuel as [|fuel IH]; intros cur dn budget; cbn [drain]; (destruct (_ && _); [|apply keeps_ret]); [intros s; reflexivity|].
  apply keeps_bind; [|intros n; apply IH]. unfold move_one. apply keeps_bind; [apply keeps_on_log|]. intros [[key payload] body_len]. apply keeps_bind; [apply keeps_ask|].
  intros alive. apply keeps_bind; [|intros ?; apply keeps_ret]. destruct alive; [|apply keeps_ret]. apply keeps_bind; [apply keeps_on_log|]. intros new. apply keeps_tell.
Qed.

Lemma keeps_dropping {A} id (m : prog (Own * World) A) : keeps m -> keeps (dropping id m).
Proof using PreOrder0.
  intros K s. unfold dropping. specialize (K s). destruct (m s) as [[a|e| |] s1]; cbn [snd] in *; [done| |done|done]. etrans; [exact K|].
  apply keeps_bind; [apply keeps_on_log|]. intros ? s2. reflexivity.
Qed.

Lemma keeps_step live_pct budget : keeps (compact_step cpu live_pct budget).
Proof using Rask Rtell PreOrder0.
  unfold compact_step, compact_step_capped. apply keeps_bind; [apply keeps_on_log|]. intros v. apply keeps_bind; [destruct (compaction v); [apply keeps_ret|apply keeps_on_log]|].
  intros armed. destruct (negb armed); [apply keeps_ret|]. apply keeps_bind; [apply keeps_on_log|]. intros v'. destruct (compaction v') as [cur|]; [|intros s; reflexivity].
  unfold drain_victim. apply keeps_bind; [apply keeps_on_log|]. intros _. apply keeps_bind; [apply keeps_dropping, keeps_drain|]. intros [cur' dn].
  destruct (_ <=? _); repeat (apply keeps_bind; [apply keeps_on_log|intros ?]); apply keeps_ret.
Qed.

End Frame.
