(* ===== verification/PackedRow.v ===== *)
(** * Packed rows ([crates/kevy-store/src/packed_row.rs])

    A declared table's row in one buffer,

      [ncol u16] [present bitmap] [end_1 u16] ... [end_n u16] [values],

    with the column names shared by the table.  The model writes and reads the
    buffer as the code does, byte by byte, with its panics; the debug assertion
    of [build] is checked.  The theorem is that a row is the list of its optional
    column values: present and empty is not absent, and an in-place write of the
    same width is the rebuild. *)

From Stdlib Require Import ZArith Lia Bool Strings.Byte Strings.String.
From stdpp Require Import base tactics list numbers.
From S2P Require Import Prelude FindCrlf Buffers.

#[local] Open Scope list_scope.
#[local] Open Scope Z_scope.

Definition PACKED_MAX : Z := 2 ^ 16 - 1.

Abbreviation ColumnNames := (list (list byte)).

Record PackedRow := mkRow { cols : ColumnNames; buf : list byte }.

(** [u16::div_ceil(8)] *)
Definition bitmap_len (ncol : Z) : Z := (ncol + 7) / 8.
Definition header_len (ncol : Z) : Z := 2 + bitmap_len ncol + ncol * 2.

Definition total_len (cs : list (option (list byte))) : Z := foldr (fun c n => match c with Some v => blen v + n | None => n end) 0 cs.

(** The loop of [build], from column [i] on, [e] bytes of values written. *)
Fixpoint place (bitmap header i e : Z) (cs : list (option (list byte))) (b : list byte) : exec (list byte) :=
  match cs with
  | [] => Ret b
  | c :: cs =>
      '(b, e) ← match c with
                | Some v =>
                    x ← index b (2 + i / 8);
                    b ← set_byte b (2 + i / 8) (zb (Z.lor (bz x) (Z.shiftl 1 (i mod 8))));
                    b ← copy_from_slice b (header + e) v;
                    Ret (b, e + blen v)
                | None => Ret (b, e)
                end;
      b ← copy_from_slice b (2 + bitmap + i * 2) (to_le_bytes 2 e);
      place bitmap header (i + 1) e cs b
  end.

Definition build (names : ColumnNames) (cs : list (option (list byte))) : exec (option PackedRow) :=
  if negb (blen names =? blen cs) then Panic
  else
    let ncol := blen cs in
    if 2 ^ 16 - 1 <? ncol then Ret None
    else
      let total := total_len cs in
      if PACKED_MAX <? total then Ret None
      else
        let header := header_len ncol in
        let b := replicate (Z.to_nat (header + total)) x00 in
        b ← copy_from_slice b 0 (to_le_bytes 2 ncol);
        b ← place (bitmap_len ncol) header 0 0 cs b;
        Ret (Some (mkRow names b)).

Definition columns (r : PackedRow) : exec Z :=
  b0 ← index (buf r) 0;
  b1 ← index (buf r) 1;
  Ret (from_le_bytes [b0; b1]).

Definition has (r : PackedRow) (i : Z) : exec bool :=
  n ← columns r;
  if i <? n then
    b ← index (buf r) (2 + i / 8);
    Ret (negb (Z.land (bz b) (Z.shiftl 1 (i mod 8)) =? 0))
  else Ret false.

Definition end_at (r : PackedRow) (bitmap j : Z) : exec Z :=
  let at_ := 2 + bitmap + j * 2 in
  b0 ← index (buf r) at_;
  b1 ← index (buf r) (at_ + 1);
  Ret (from_le_bytes [b0; b1]).

Definition start_of (r : PackedRow) (bitmap i : Z) : exec Z := if i =? 0 then Ret 0 else end_at r bitmap (i - 1).

Definition get (r : PackedRow) (i : Z) : exec (option (list byte)) :=
  h ← has r i;
  if negb h then Ret None
  else
    n ← columns r;
    let bitmap := bitmap_len n in
    let header := header_len n in
    start ← start_of r bitmap i;
    e ← end_at r bitmap i;
    v ← index_range (buf r) (header + start) (header + e);
    Ret (Some v).

(** [self.cols.iter().position(|c| c == field)] *)
Definition position (names : ColumnNames) (field : list byte) : option Z :=
  (fun p => Z.of_nat (fst p)) <$> list_find (fun c => c = field) names.

Definition get_named (r : PackedRow) (field : list byte) : exec (option (list byte)) :=
  match position (cols r) field with Some i => get r i | None => Ret None end.

Definition has_named (r : PackedRow) (field : list byte) : exec bool :=
  match position (cols r) field with Some i => has r i | None => Ret false end.

Definition set_same_width (r : PackedRow) (i : Z) (v : list byte) : exec (bool * PackedRow) :=
  o ← get r i;
  match o with
  | None => Ret (false, r)
  | Some old =>
      if negb (blen old =? blen v) then Ret (false, r)
      else
        n ← columns r;
        let bitmap := bitmap_len n in
        let header := header_len n in
        start ← start_of r bitmap i;
        b ← copy_from_slice (buf r) (header + start) v;
        Ret (true, mkRow (cols r) b)
  end.

(** Every column's value, in order. *)
Definition values (r : PackedRow) : exec (list (option (list byte))) :=
  n ← columns r;
  collect (get r) 0 (Z.to_nat n).

Definition with_column (r : PackedRow) (i : Z) (v : option (list byte)) : exec (option PackedRow) :=
  cs ← values r;
  if i <? blen cs then build (cols r) (<[Z.to_nat i := v]> cs) else Ret None.

(** [fields]: the name and value of each column present. *)
Definition present (p : list byte * option (list byte)) : option (list byte * list byte) := (fun v => (fst p, v)) <$> snd p.

Definition fields (r : PackedRow) : exec (list (list byte * list byte)) :=
  cs ← values r;
  Ret (omap present (zip (cols r) cs)).

Definition len (r : PackedRow) : exec Z :=
  n ← columns r;
  hs ← collect (has r) 0 (Z.to_nat n);
  Ret (blen (filter (fun h : bool => h) hs)).

Definition is_empty (r : PackedRow) : exec bool := n ← len r; Ret (n =? 0).

(** [PackedInner]: a shared slice and a boxed one, two words each. *)
Definition heap_bytes (r : PackedRow) : Z := blen (buf r) + 32.

(** ** The layout *)

(** The values' bytes, back to back. *)
Definition payload (cs : list (option (list byte))) : list byte := concat (map (default []) cs).

Definition is_some {A} (o : option A) : bool := match o with Some _ => true | None => false end.

(** Column [i] is there and has a value. *)
Definition set_at (cs : list (option (list byte))) (i : Z) : bool := is_some (mjoin (Prelude.get cs i)).

(** What [b] holds once the columns of [pre] are placed, of [n] in all. *)
Record placed (n total : Z) (pre : list (option (list byte))) (b : list byte) : Prop := {
  p_len : blen b = header_len n + total;
  p_ncol : slice b 0 2 = to_le_bytes 2 n;
  p_bits : forall i, 0 <= i < n -> exists x, Prelude.get b (2 + i / 8) = Some x /\ Z.testbit (bz x) (i mod 8) = set_at pre i;
  p_ends : forall j, 0 <= j < blen pre ->
    slice b (2 + bitmap_len n + j * 2) (2 + bitmap_len n + j * 2 + 2) = to_le_bytes 2 (blen (payload (take (S (Z.to_nat j)) pre)));
  p_values : slice b (header_len n) (header_len n + blen (payload pre)) = payload pre
}.

(** The row holds the columns [cs]. *)
Definition row_of (r : PackedRow) (cs : list (option (list byte))) : Prop :=
  blen (cols r) = blen cs /\ blen cs <= 2 ^ 16 - 1 /\ blen (payload cs) <= PACKED_MAX /\
  placed (blen cs) (blen (payload cs)) cs (buf r).

Lemma payload_app l k : payload (l ++ k) = payload l ++ payload k.
Proof. unfold payload. by rewrite map_app, concat_app. Qed.

Lemma payload_one c : payload [c] = default [] c.
Proof. unfold payload. cbn. apply app_nil_r. Qed.

Lemma total_len_payload cs : total_len cs = blen (payload cs).
Proof.
  induction cs as [|[v|] cs IH]; [done| |done]. change (Some v :: cs) with ([Some v] ++ cs). rewrite payload_app, payload_one, blen_app. cbn. unfold total_len in IH. lia.
Qed.

Lemma take_snoc_Z {A} (l : list A) j x : Prelude.get l j = Some x -> take (S (Z.to_nat j)) l = take (Z.to_nat j) l ++ [x].
Proof. intros E. by apply take_S_r. Qed.

Lemma payload_take_le cs j : blen (payload (take j cs)) <= blen (payload cs).
Proof. rewrite <- (take_drop j cs) at 2. rewrite payload_app, blen_app. blen_pos. lia. Qed.

Lemma bitmap_bound n i : 0 <= i < n -> 0 <= i / 8 < bitmap_len n.
Proof. intros H. unfold bitmap_len. pose proof (Z.div_mod i 8 ltac:(lia)). pose proof (Z.mod_pos_bound i 8 ltac:(lia)).
  pose proof (Z.div_mod (n + 7) 8 ltac:(lia)). pose proof (Z.mod_pos_bound (n + 7) 8 ltac:(lia)). lia. Qed.

Lemma bitmap_nonneg n : 0 <= n -> 0 <= bitmap_len n.
Proof. intros. unfold bitmap_len. apply Z.div_pos; lia. Qed.

(** [b & (1 << k) != 0] *)
Lemma masked_bit a k : 0 <= k -> negb (Z.land a (Z.shiftl 1 k) =? 0) = Z.testbit a k.
Proof.
  intros Hk. rewrite Z.shiftl_1_l. destruct (Z.testbit a k) eqn:E.
  - apply negb_true_iff, Z.eqb_neq. intros H. assert (T : Z.testbit (Z.land a (2 ^ k)) k = true).
    { rewrite Z.land_spec, E, Z.pow2_bits_true by lia. done. }
    by rewrite H, Z.bits_0 in T.
  - apply negb_false_iff, Z.eqb_eq. apply Z.bits_inj'. intros m Hm. rewrite Z.land_spec, Z.bits_0, Z.pow2_bits_eqb by lia.
    destruct (Z.eqb_spec k m) as [<-|]; [by rewrite E|by rewrite andb_false_r].
Qed.

(** The byte [b | (1 << k)]. *)
Lemma or_bit x k m : 0 <= k < 8 -> 0 <= m < 8 -> Z.testbit (bz (zb (Z.lor (bz x) (Z.shiftl 1 k)))) m = Z.testbit (bz x) m || (m =? k).
Proof.
  intros Hk Hm. rewrite bz_zb. change 256 with (2 ^ 8). rewrite Z.mod_pow2_bits_low by lia.
  rewrite Z.lor_spec, Z.shiftl_1_l, Z.pow2_bits_eqb, (Z.eqb_sym k m) by lia. done.
Qed.

(** ** Building *)

Lemma get_slice_ext {A} (b b' : list A) s e i : 0 <= s -> s <= i < e -> e <= blen b -> e <= blen b' -> slice b s e = slice b' s e -> Prelude.get b i = Prelude.get b' i.
Proof.
  intros Hs Hi H1 H2 E. apply (f_equal (fun l => Prelude.get l (i - s))) in E. unfold Prelude.get, slice in *.
  rewrite !lookup_take_lt, !lookup_drop in E by lia. replace (Z.to_nat s + Z.to_nat (i - s))%nat with (Z.to_nat i) in E by lia. done.
Qed.

Lemma set_at_snoc pre c i : set_at (pre ++ [c]) i = if i =? blen pre then is_some c else if 0 <=? i then set_at pre i else set_at (pre ++ [c]) i.
Proof.
  unfold set_at. destruct (Z.eqb_spec i (blen pre)) as [->|N]; [by rewrite (get_mid pre c [])|]. destruct (Z.leb_spec 0 i); [|done].
  destruct (Z.lt_ge_cases i (blen pre)); [by rewrite get_app_l by lia|]. unfold Prelude.get. rewrite !(lookup_ge_None_2) by (rewrite ?length_app; cbn; unfold blen in *; lia). done.
Qed.

(** Writing the bit and the value of column [blen pre]. *)
Lemma placed_value n total pre v b : placed n total pre b -> blen pre < n -> n <= 2 ^ 16 - 1 -> blen (payload pre) + blen v <= total ->
  exists b', ('(b, e) ← (x ← index b (2 + blen pre / 8);
                b ← set_byte b (2 + blen pre / 8) (zb (Z.lor (bz x) (Z.shiftl 1 (blen pre mod 8))));
                b ← copy_from_slice b (header_len n + blen (payload pre)) v;
                Ret (b, blen (payload pre) + blen v)); Ret (b, e)) = Ret (b', blen (payload pre) + blen v) /\
    blen b' = header_len n + total /\ slice b' 0 2 = to_le_bytes 2 n /\
    (forall i, 0 <= i < n -> exists x, Prelude.get b' (2 + i / 8) = Some x /\ Z.testbit (bz x) (i mod 8) = set_at (pre ++ [Some v]) i) /\
    (forall s e, 2 + bitmap_len n <= s -> e <= header_len n -> slice b' s e = slice b s e) /\
    slice b' (header_len n) (header_len n + blen (payload pre) + blen v) = payload pre ++ v.
Proof.
  intros [L N B E V] Hn Hm Ht. pose proof (blen_nonneg pre) as Hp. pose proof (bitmap_bound n (blen pre) ltac:(lia)) as Bb.
  pose proof (bitmap_nonneg n ltac:(lia)) as Bn. blen_pos. assert (Hh : header_len n = 2 + bitmap_len n + n * 2) by done.
  destruct (B (blen pre) ltac:(lia)) as (x & Gx & Tx). unfold index. rewrite Gx. cbn [mbind exec_bind].
  set (y := zb _). unfold set_byte. rewrite copy_from_slice_ok by (change (blen [y]) with 1; lia). cbn [mbind exec_bind].
  set (b1 := splice b (2 + blen pre / 8) [y]). assert (L1 : blen b1 = blen b) by (apply splice_blen; change (blen [y]) with 1; lia).
  rewrite copy_from_slice_ok by lia. cbn [mbind exec_bind]. eexists. split; [reflexivity|].
  assert (S1 : forall s e, 0 <= s -> e <= blen b -> e <= 2 \/ 2 + bitmap_len n <= s -> slice b1 s e = slice b s e).
  { intros s e Hs He D. apply slice_splice_out; change (blen [y]) with 1; lia. }
  assert (S2 : forall s e, 0 <= s -> e <= header_len n + blen (payload pre) -> slice (splice b1 (header_len n + blen (payload pre)) v) s e = slice b1 s e).
  { intros s e Hs He. apply slice_splice_out; lia. }
  split; [rewrite splice_blen by lia; lia|]. split; [rewrite S2, S1 by lia; done|]. split; [|split].
  - intros i Hi. pose proof (bitmap_bound n i Hi) as Bi. destruct (B i Hi) as (z & Gz & Tz).
    rewrite get_splice by lia. destruct (Z.leb_spec (header_len n + blen (payload pre)) (2 + i / 8)); [lia|]. cbn [andb].
    unfold b1. rewrite get_splice by (change (blen [y]) with 1; lia). change (blen [y]) with 1. rewrite set_at_snoc.
    pose proof (Z.div_mod i 8 ltac:(lia)) as Di. pose proof (Z.div_mod (blen pre) 8 ltac:(lia)) as Dp.
    destruct (Z.leb_spec (2 + blen pre / 8) (2 + i / 8)), (Z.ltb_spec (2 + i / 8) (2 + blen pre / 8 + 1)); cbn [andb].
    + assert (Eq : i / 8 = blen pre / 8) by lia. exists y. split; [by rewrite Eq, Z.sub_diag|].
      unfold y. pose proof (Z.mod_pos_bound i 8 ltac:(lia)). pose proof (Z.mod_pos_bound (blen pre) 8 ltac:(lia)). rewrite or_bit by lia.
      assert (z = x) as -> by (rewrite Eq in Gz; congruence). rewrite Tz.
      destruct (Z.eqb_spec (i mod 8) (blen pre mod 8)), (Z.eqb_spec i (blen pre)), (Z.leb_spec 0 i); try lia; [by rewrite orb_true_r|by rewrite orb_false_r].
    + exists z. split; [done|]. destruct (Z.eqb_spec i (blen pre)) as [->|]; [lia|]. destruct (Z.leb_spec 0 i); [done|lia].
    + exists z. split; [done|]. destruct (Z.eqb_spec i (blen pre)) as [->|]; [lia|]. destruct (Z.leb_spec 0 i); [done|lia].
    + exists z. split; [done|]. destruct (Z.eqb_spec i (blen pre)) as [->|]; [lia|]. destruct (Z.leb_spec 0 i); [done|lia].
  - intros s e Hs He. rewrite S2, S1 by lia. done.
  - rewrite <- (slice_join _ _ (header_len n + blen (payload pre))) by lia. rewrite S2, S1, V by lia. f_equal.
    apply slice_splice_in; lia.
Qed.

Lemma payload_snoc pre c : payload (pre ++ [c]) = payload pre ++ default [] c.
Proof. by rewrite payload_app, payload_one. Qed.

(** Writing the end of column [blen pre]. *)
Lemma placed_end n total pre c b b' : placed n total pre b -> blen pre < n -> blen (payload (pre ++ [c])) <= total ->
  blen b' = blen b -> slice b' 0 2 = slice b 0 2 ->
  (forall i, 0 <= i < n -> exists x, Prelude.get b' (2 + i / 8) = Some x /\ Z.testbit (bz x) (i mod 8) = set_at (pre ++ [c]) i) ->
  (forall s e, 2 + bitmap_len n <= s -> e <= header_len n -> slice b' s e = slice b s e) ->
  slice b' (header_len n) (header_len n + blen (payload (pre ++ [c]))) = payload (pre ++ [c]) ->
  exists b2, copy_from_slice b' (2 + bitmap_len n + blen pre * 2) (to_le_bytes 2 (blen (payload (pre ++ [c])))) = Ret b2 /\
    placed n total (pre ++ [c]) b2.
Proof.
  intros [L N B E V] Hn Ht L' N' B' E' V'. pose proof (blen_nonneg pre) as Hp. pose proof (bitmap_nonneg n ltac:(lia)) as Bn.
  assert (Hh : header_len n = 2 + bitmap_len n + n * 2) by done. set (w := to_le_bytes 2 _). assert (Lw : blen w = 2) by apply to_le_bytes_blen.
  blen_pos. rewrite copy_from_slice_ok by lia. eexists. split; [reflexivity|]. constructor.
  - rewrite splice_blen by lia. lia.
  - rewrite slice_splice_out by lia. congruence.
  - intros i Hi. pose proof (bitmap_bound n i Hi). destruct (B' i Hi) as (x & Gx & Tx). exists x. split; [|done].
    rewrite get_splice by lia. destruct (Z.leb_spec (2 + bitmap_len n + blen pre * 2) (2 + i / 8)); [lia|done].
  - intros j Hj. rewrite blen_app in Hj. change (blen [c]) with 1 in Hj. destruct (Z.eq_dec j (blen pre)) as [->|Nj].
    + rewrite <- Lw at 2. rewrite slice_splice_in by lia. unfold w. rewrite blen_to_nat.
      rewrite firstn_all2 by (rewrite length_app; cbn; lia). done.
    + rewrite slice_splice_out, E', E by lia. rewrite take_app_le by (unfold blen in *; lia). done.
  - rewrite slice_splice_out by lia. exact V'.
Qed.

Lemma place_ok n total cs : forall pre b, placed n total pre b -> blen pre + blen cs = n -> n <= 2 ^ 16 - 1 -> blen (payload (pre ++ cs)) = total ->
  exists b', place (bitmap_len n) (header_len n) (blen pre) (blen (payload pre)) cs b = Ret b' /\ placed n total (pre ++ cs) b'.
Proof.
  induction cs as [|c cs IH]; intros pre b P Hn Hm Ht.
  { exists b. by rewrite app_nil_r. }
  rewrite blen_cons in Hn. pose proof (blen_nonneg cs). cbn [place]. replace (pre ++ c :: cs) with ((pre ++ [c]) ++ cs) in * by by rewrite <- app_assoc.
  assert (Hs : blen (payload (pre ++ [c])) <= total) by (rewrite payload_app, blen_app in Ht; blen_pos; lia).
  assert (K : forall b2, placed n total (pre ++ [c]) b2 -> exists b', place (bitmap_len n) (header_len n) (blen pre + 1) (blen (payload (pre ++ [c]))) cs b2 = Ret b' /\
    placed n total ((pre ++ [c]) ++ cs) b').
  { intros b2 P2. replace (blen pre + 1) with (blen (pre ++ [c])) by (rewrite blen_app; done). apply IH; try done. rewrite blen_app. change (blen [c]) with 1. lia. }
  destruct c as [v|].
  - rewrite payload_snoc, blen_app in Hs. cbn [default] in Hs. destruct (placed_value n total pre v b P ltac:(lia) Hm Hs) as (b1 & E1 & L1 & N1 & B1 & S1 & V1).
    destruct (index b (2 + blen pre / 8)) as [x|]; [|discriminate E1]. cbn [mbind exec_bind] in *.
    destruct (set_byte b _ _) as [b0|]; [|discriminate E1]. cbn [mbind exec_bind] in *.
    destruct (copy_from_slice b0 _ v) as [b0'|]; [|discriminate E1]. cbn [mbind exec_bind] in *. injection E1 as ->.
    destruct (placed_end n total pre (Some v) b b1) as (b2 & E2 & P2); try done; try lia.
    + rewrite payload_snoc, blen_app. exact Hs.
    + by rewrite L1, (p_len _ _ _ _ P).
    + by rewrite N1, (p_ncol _ _ _ _ P).
    + rewrite payload_snoc, blen_app, Z.add_assoc. exact V1.
    + specialize (K b2 P2). rewrite payload_snoc, blen_app in E2, K. change (default [] (Some v)) with v in *. rewrite E2. exact K.
  - cbn [mbind exec_bind]. assert (Ep : payload (pre ++ [None]) = payload pre) by by rewrite payload_snoc, app_nil_r.
    destruct (placed_end n total pre None b b) as (b2 & E2 & P2); try done; try lia.
    + intros i Hi. destruct (p_bits _ _ _ _ P i Hi) as (x & Gx & Tx). exists x. split; [done|]. rewrite Tx, set_at_snoc.
      destruct (Z.eqb_spec i (blen pre)) as [->|]; [|by destruct (Z.leb_spec 0 i); [|lia]].
      unfold set_at. rewrite (proj2 (get_None pre (blen pre) ltac:(lia))) by lia. done.
    + rewrite Ep. apply (p_values _ _ _ _ P).
    + rewrite Ep in E2. rewrite E2. cbn [mbind exec_bind]. specialize (K b2 P2). by rewrite Ep in K.
Qed.

Lemma placed_nil n total : 0 <= n <= 2 ^ 16 - 1 -> 0 <= total ->
  placed n total [] (splice (replicate (Z.to_nat (header_len n + total)) x00) 0 (to_le_bytes 2 n)).
Proof.
  intros Hn Ht. pose proof (bitmap_nonneg n ltac:(lia)) as Bn. assert (Hh : header_len n = 2 + bitmap_len n + n * 2) by done.
  set (z := replicate _ x00). assert (Lz : blen z = header_len n + total) by (unfold z, blen; rewrite length_replicate; lia).
  pose proof (to_le_bytes_blen 2 n) as Lw. change (Z.of_nat 2) with 2 in Lw. constructor.
  - rewrite splice_blen by lia. done.
  - rewrite <- Lw at 1. apply (slice_splice_in z 0); lia.
  - intros i Hi. pose proof (bitmap_bound n i Hi). exists x00. rewrite get_splice by lia. destruct (Z.leb_spec 0 (2 + i / 8)), (Z.ltb_spec (2 + i / 8) (0 + blen (to_le_bytes 2 n))); try lia.
    cbn [andb]. split; [|by rewrite Z.testbit_0_l]. unfold Prelude.get, z. apply lookup_replicate. split; [done|lia].
  - intros j Hj. change (blen []) with 0 in Hj. lia.
  - change (payload []) with (@nil byte). change (blen []) with 0. by rewrite Z.add_0_r, slice_empty.
Qed.

Lemma build_ok names cs : blen names = blen cs ->
  (blen cs <= 2 ^ 16 - 1 /\ blen (payload cs) <= PACKED_MAX /\ exists b, build names cs = Ret (Some (mkRow names b)) /\ row_of (mkRow names b) cs) \/
  ((2 ^ 16 - 1 < blen cs \/ PACKED_MAX < blen (payload cs)) /\ build names cs = Ret None).
Proof.
  intros Hl. unfold build. rewrite Hl, Z.eqb_refl, total_len_payload. cbn [negb].
  destruct (Z.ltb_spec (2 ^ 16 - 1) (blen cs)); [by right; split; [left|]|]. destruct (Z.ltb_spec PACKED_MAX (blen (payload cs))); [by right; split; [right|]|].
  left. split; [done|]. split; [done|]. blen_pos. pose proof (placed_nil (blen cs) (blen (payload cs)) ltac:(lia) ltac:(lia)) as P0.
  pose proof (bitmap_nonneg (blen cs) ltac:(lia)). rewrite copy_from_slice_ok; [cbn [mbind exec_bind]| lia|].
  2: { rewrite to_le_bytes_blen. unfold blen at 1. rewrite length_replicate. unfold header_len. lia. }
  destruct (place_ok _ _ cs [] _ P0) as (b & E & P); [done|lia|done|]. change (blen []) with 0 in E. cbn [payload map concat] in E. change (blen (@nil byte)) with 0 in E.
  rewrite E. cbn [mbind exec_bind]. exists b. split; [done|]. by split_and!.
Qed.

(** ** Reading *)

(** Two bytes read one at a time. *)
Lemma two_bytes b i w : 0 <= i -> i + 2 <= blen b -> slice b i (i + 2) = to_le_bytes 2 w -> 0 <= w < 2 ^ 16 ->
  (b0 ← index b i; b1 ← index b (i + 1); Ret (from_le_bytes [b0; b1])) = Ret w.
Proof.
  intros Hi Hb E Hw. unfold index. destruct (get_lt_Some b i ltac:(lia)) as [b0 E0]. destruct (get_lt_Some b (i + 1) ltac:(lia)) as [b1 E1].
  rewrite E0, E1. cbn [mbind exec_bind]. f_equal. transitivity (from_le_bytes (slice b i (i + 2))); [|by rewrite E, from_to_u16].
  f_equal. unfold slice. replace (Z.to_nat (i + 2 - i)) with 2%nat by lia. unfold Prelude.get in *.
  replace (Z.to_nat (i + 1)) with (S (Z.to_nat i)) in E1 by lia. rewrite (drop_S b b0), (drop_S b b1) by done. done.
Qed.

(** Values of equal widths end at the same places. *)
Lemma payload_swap pre old v post k : blen old = blen v -> blen (payload (take k (pre ++ Some v :: post))) = blen (payload (take k (pre ++ Some old :: post))).
Proof.
  intros E. revert k. induction pre as [|c pre IH]; intros [|k]; try done; cbn [app take].
  - change (Some v :: ?l) with ([Some v] ++ l). change (Some old :: ?l) with ([Some old] ++ l). rewrite !payload_app, !payload_one, !blen_app. cbn [default]. unfold Datatypes.id. by rewrite E.
  - change (c :: ?l) with ([c] ++ l). rewrite !payload_app, !blen_app. by rewrite IH.
Qed.

Section Reading.
Context (r : PackedRow) (cs : list (option (list byte))) (R : row_of r cs).

#[local] Abbreviation n := (blen cs).

Lemma columns_ok : columns r = Ret n.
Proof using R.
  destruct R as (_ & Hn & _ & P). pose proof (p_len _ _ _ _ P) as L. pose proof (bitmap_nonneg n ltac:(blen_pos; lia)). blen_pos.
  unfold header_len in L. apply (two_bytes (buf r) 0); [done|lia|apply P|lia].
Qed.

Lemma has_ok i : 0 <= i -> has r i = Ret (set_at cs i).
Proof using R.
  intros Hi. unfold has. rewrite columns_ok. cbn [mbind exec_bind]. destruct (Z.ltb_spec i n).
  - destruct R as (_ & _ & _ & P). destruct (p_bits _ _ _ _ P i ltac:(lia)) as (x & Gx & Tx). unfold index. rewrite Gx. cbn [mbind exec_bind].
    pose proof (Z.mod_pos_bound i 8 ltac:(lia)). by rewrite masked_bit, Tx by lia.
  - unfold set_at. by rewrite (proj2 (get_None cs i Hi)).
Qed.

Lemma end_at_ok j : 0 <= j < n -> end_at r (bitmap_len n) j = Ret (blen (payload (take (S (Z.to_nat j)) cs))).
Proof using R.
  intros Hj. destruct R as (_ & Hn & Hp & P). pose proof (p_len _ _ _ _ P) as L. pose proof (bitmap_nonneg n ltac:(lia)). unfold header_len in L.
  pose proof (payload_take_le cs (S (Z.to_nat j))). blen_pos. apply two_bytes; [lia|lia|by apply P|unfold PACKED_MAX in Hp; lia].
Qed.

Lemma start_of_ok i : 0 <= i < n -> start_of r (bitmap_len n) i = Ret (blen (payload (take (Z.to_nat i) cs))).
Proof using R.
  intros Hi. unfold start_of. destruct (Z.eqb_spec i 0) as [->|]; [done|]. rewrite end_at_ok by lia. do 4 f_equal. lia.
Qed.

(** The bytes of a present column. *)
Lemma column_bytes i v : Prelude.get cs i = Some (Some v) -> 0 <= i ->
  let s := header_len n + blen (payload (take (Z.to_nat i) cs)) in
  blen (payload (take (S (Z.to_nat i)) cs)) = blen (payload (take (Z.to_nat i) cs)) + blen v /\ s + blen v <= blen (buf r) /\
  slice (buf r) s (s + blen v) = v.
Proof using R.
  intros Ev Hi s. destruct R as (_ & _ & _ & P). pose proof (p_len _ _ _ _ P) as L. pose proof (p_values _ _ _ _ P) as V.
  assert (Ep : payload (take (S (Z.to_nat i)) cs) = payload (take (Z.to_nat i) cs) ++ v) by (by rewrite (take_snoc_Z _ _ _ Ev), payload_snoc).
  pose proof (payload_take_le cs (S (Z.to_nat i))) as Le. rewrite Ep, blen_app in *. split; [done|]. split; [unfold s; lia|].
  pose proof (take_drop (S (Z.to_nat i)) cs) as Td. apply (f_equal payload) in Td. rewrite payload_app, Ep, <- app_assoc in Td.
  set (p := payload (take (Z.to_nat i) cs)) in *. set (q := payload (drop (S (Z.to_nat i)) cs)) in *. pose proof (bitmap_nonneg n ltac:(blen_pos; lia)) as Bn.
  assert (Hh : 0 <= header_len n) by (unfold header_len; blen_pos; lia). blen_pos.
  pose proof (slice_mid p v q) as M. rewrite Td, <- V in M. rewrite slice_from in V.
  unfold s. etrans; [|exact M]. unfold slice. rewrite skipn_firstn_comm, drop_drop, take_take. f_equal; [|f_equal]; [|lia].
  apply (f_equal blen) in Td. rewrite !blen_app in Td. lia.
Qed.

Lemma column_get_ok i : 0 <= i -> get r i = Ret (mjoin (Prelude.get cs i)).
Proof using R.
  intros Hi. unfold get. rewrite has_ok by done. cbn [mbind exec_bind]. unfold set_at. destruct (Prelude.get cs i) as [[v|]|] eqn:E; [|done|done]. cbn [is_some negb mjoin option_join].
  pose proof (get_Some_lt _ _ _ Hi E) as Lt. rewrite columns_ok. cbn [mbind exec_bind]. rewrite start_of_ok by lia. cbn [mbind exec_bind]. rewrite end_at_ok by lia. cbn [mbind exec_bind].
  destruct (column_bytes i v E Hi) as (-> & Le & Eq). rewrite Z.add_assoc. rewrite index_range_ok by (blen_pos; lia). rewrite Eq. done.
Qed.

Lemma values_ok : values r = Ret cs.
Proof using R.
  unfold values. rewrite columns_ok. cbn [mbind exec_bind]. rewrite blen_to_nat. apply collect_ok. intros k x Hk.
  rewrite column_get_ok by lia. unfold Prelude.get. rewrite Z.add_0_l, Nat2Z.id, Hk. done.
Qed.

Lemma len_ok : len r = Ret (blen (omap Datatypes.id cs)).
Proof using R.
  unfold len. rewrite columns_ok. cbn [mbind exec_bind]. rewrite blen_to_nat, <- (length_map is_some cs).
  rewrite (collect_ok _ (map is_some cs)).
  - cbn [mbind exec_bind]. f_equal. clear R. induction cs as [|[v|] l IH]; [done| |exact IH].
    cbn [map is_some]. rewrite filter_cons_True by done. change (omap Datatypes.id (Some v :: l)) with (v :: omap Datatypes.id l). rewrite !blen_cons. lia.
  - intros k x Hk. rewrite Z.add_0_l, has_ok by lia. apply list_lookup_fmap_Some in Hk as (c & -> & Hc). unfold set_at, Prelude.get. by rewrite Nat2Z.id, Hc.
Qed.

Lemma set_same_width_ok i v : 0 <= i ->
  match mjoin (Prelude.get cs i) with
  | Some old => if blen old =? blen v then exists r', set_same_width r i v = Ret (true, r') /\ cols r' = cols r /\ row_of r' (<[Z.to_nat i := Some v]> cs)
                else set_same_width r i v = Ret (false, r)
  | None => set_same_width r i v = Ret (false, r)
  end.
Proof using R.
  intros Hi. unfold set_same_width. rewrite column_get_ok by done. cbn [mbind exec_bind]. destruct (mjoin (Prelude.get cs i)) as [old|] eqn:Ej; [|done].
  assert (E : Prelude.get cs i = Some (Some old)) by (destruct (Prelude.get cs i) as [[]|]; cbn in Ej; congruence).
  pose proof (get_Some_lt _ _ _ Hi E) as Lt. destruct (Z.eqb_spec (blen old) (blen v)) as [El|]; [|done]. cbn [negb].
  rewrite columns_ok. cbn [mbind exec_bind]. rewrite start_of_ok by lia. cbn [mbind exec_bind].
  destruct (column_bytes i old E Hi) as (E1 & Le & Eq). rewrite El in *.
  set (p := blen (payload (take (Z.to_nat i) cs))) in *. pose proof (blen_nonneg (payload (take (Z.to_nat i) cs)) : 0 <= p) as Hp.
  pose proof (bitmap_nonneg n ltac:(lia)) as Bn. assert (Hh : header_len n = 2 + bitmap_len n + n * 2) by done.
  rewrite copy_from_slice_ok by lia. cbn [mbind exec_bind]. eexists. split; [reflexivity|]. split; [done|].
  destruct R as (Hc & Hn & Ht & [L N B E0 V]). assert (Ln : blen (<[Z.to_nat i:=Some v]> cs) = n) by (unfold blen; by rewrite length_insert).
  assert (Sp : cs = take (Z.to_nat i) cs ++ Some old :: drop (S (Z.to_nat i)) cs) by (symmetry; apply take_drop_middle; exact E).
  assert (Si : <[Z.to_nat i:=Some v]> cs = take (Z.to_nat i) cs ++ Some v :: drop (S (Z.to_nat i)) cs) by (apply insert_take_drop; unfold blen in Lt; lia).
  assert (Pl : forall k, blen (payload (take k (<[Z.to_nat i:=Some v]> cs))) = blen (payload (take k cs))).
  { intros k. rewrite Si. etrans; [by apply (payload_swap _ old)|]. by rewrite <- Sp. }
  assert (Pt : blen (payload (<[Z.to_nat i:=Some v]> cs)) = blen (payload cs)).
  { specialize (Pl (length cs)). rewrite firstn_all in Pl. rewrite <- Pl. f_equal. f_equal. rewrite firstn_all2; [done|]. by rewrite length_insert. }
  split; [by rewrite Ln|]. split; [by rewrite Ln|]. split; [by rewrite Pt|]. rewrite Ln, Pt. cbn [buf cols]. blen_pos. constructor.
  - rewrite splice_blen by lia. done.
  - rewrite slice_splice_out by lia. done.
  - intros k Hk. pose proof (bitmap_bound n k Hk). destruct (B k Hk) as (x & Gx & Tx). exists x. rewrite get_splice by lia.
    destruct (Z.leb_spec (header_len n + p) (2 + k / 8)); [lia|]. split; [done|]. rewrite Tx. unfold set_at, Prelude.get.
    destruct (decide (Z.to_nat k = Z.to_nat i)) as [->|Nk]; [|by rewrite list_lookup_insert_ne]. unfold Prelude.get in E. rewrite list_lookup_insert_eq by (unfold blen in Lt; lia). by rewrite E.
  - intros j Hj. rewrite Ln in Hj. rewrite slice_splice_out, E0, Pl by lia. done.
  - assert (Eo : payload cs = payload (take (Z.to_nat i) cs) ++ old ++ payload (drop (S (Z.to_nat i)) cs)).
    { rewrite Sp at 1. change (Some old :: ?l) with ([Some old] ++ l). by rewrite !payload_app, payload_one. }
    assert (En : payload (<[Z.to_nat i:=Some v]> cs) = payload (take (Z.to_nat i) cs) ++ v ++ payload (drop (S (Z.to_nat i)) cs)).
    { rewrite Si. change (Some v :: ?l) with ([Some v] ++ l). by rewrite !payload_app, payload_one. }
    rewrite Pt. pose proof (f_equal blen Eo) as Lo. rewrite !blen_app in Lo. fold p in Lo. set (q := payload (drop (S (Z.to_nat i)) cs)) in *. blen_pos.
    rewrite En. rewrite <- (slice_join _ _ (header_len n + p)), <- (slice_join _ (header_len n + p) (header_len n + p + blen v)) by lia.
    rewrite slice_splice_in by lia. rewrite !slice_splice_out by lia.
    rewrite <- (slice_join _ _ (header_len n + p)), <- (slice_join _ (header_len n + p) (header_len n + p + blen v)) in V by lia. rewrite Eo, Eq in V.
    apply app_inj_1 in V as [-> V]; [|pose proof (blen_slice (buf r) (header_len n) (header_len n + p) ltac:(lia) ltac:(lia)) as Bs; unfold p, blen in *; lia].
    apply app_inv_head in V. rewrite <- Eo in V. by rewrite V.
Qed.

Lemma with_column_ok i v : 0 <= i ->
  with_column r i v = if i <? n then build (cols r) (<[Z.to_nat i := v]> cs) else Ret None.
Proof using R. intros Hi. unfold with_column. by rewrite values_ok. Qed.

End Reading.

(** ** Theorems *)

(** What a holder of a row does to it, with the answer: whether it was done.  A
    row that would outgrow the form stays. *)
Inductive edit := SetSameWidth (i : Z) (v : list byte) | WithColumn (i : Z) (v : option (list byte)).

Definition run_edit (r : PackedRow) (ed : edit) : exec (bool * PackedRow) :=
  match ed with
  | SetSameWidth i v => set_same_width r i v
  | WithColumn i v => o ← with_column r i v; Ret (is_some o, default r o)
  end.

Fixpoint run_edits (r : PackedRow) (es : list edit) : exec (list bool * PackedRow) :=
  match es with
  | [] => Ret ([], r)
  | ed :: es => '(ok, r) ← run_edit r ed; '(oks, r) ← run_edits r es; Ret (ok :: oks, r)
  end.

(** The same on the list of columns. *)
Definition fits (cs : list (option (list byte))) : bool := (blen cs <=? 2 ^ 16 - 1) && (blen (payload cs) <=? PACKED_MAX).

Definition edit_cols (cs : list (option (list byte))) (ed : edit) : bool * list (option (list byte)) :=
  match ed with
  | SetSameWidth i v => match Prelude.get cs i with
                        | Some (Some old) => if blen old =? blen v then (true, <[Z.to_nat i := Some v]> cs) else (false, cs)
                        | _ => (false, cs)
                        end
  | WithColumn i v => let cs' := <[Z.to_nat i := v]> cs in if (i <? blen cs) && fits cs' then (true, cs') else (false, cs)
  end.

Fixpoint edits_cols (cs : list (option (list byte))) (es : list edit) : list bool * list (option (list byte)) :=
  match es with
  | [] => ([], cs)
  | ed :: es => let '(ok, cs) := edit_cols cs ed in let '(oks, cs) := edits_cols cs es in (ok :: oks, cs)
  end.

Definition edit_at (ed : edit) : Z := match ed with SetSameWidth i _ | WithColumn i _ => i end.

Lemma run_edit_ok r cs ed : row_of r cs -> 0 <= edit_at ed ->
  exists r', run_edit r ed = Ret (fst (edit_cols cs ed), r') /\ cols r' = cols r /\ row_of r' (snd (edit_cols cs ed)).
Proof.
  intros R. destruct ed as [i v|i v]; cbn [edit_at run_edit edit_cols]; intros Hi.
  - pose proof (set_same_width_ok r cs R i v Hi) as S. destruct (Prelude.get cs i) as [[old|]|]; cbn [mjoin option_join] in S; [|rewrite S; by exists r|rewrite S; by exists r].
    destruct (blen old =? blen v); [|rewrite S; by exists r]. destruct S as (r' & -> & Ec & R'). by exists r'.
  - rewrite (with_column_ok r cs R) by done. pose proof R as (Hc & Hn & Ht & _).
    destruct (Z.ltb_spec i (blen cs)) as [Lt|Ge]; [|by exists r].
    assert (Ln : blen (<[Z.to_nat i:=v]> cs) = blen cs) by (unfold blen; by rewrite length_insert).
    destruct (build_ok (cols r) (<[Z.to_nat i:=v]> cs)) as [(F1 & F2 & b & -> & R')|[F ->]]; [by rewrite Ln| |]; unfold fits; cbn [andb].
    + destruct (Z.leb_spec (blen (<[Z.to_nat i:=v]> cs)) (2 ^ 16 - 1)), (Z.leb_spec (blen (payload (<[Z.to_nat i:=v]> cs))) PACKED_MAX); try lia.
      by exists (mkRow (cols r) b).
    + exists r. destruct (Z.leb_spec (blen (<[Z.to_nat i:=v]> cs)) (2 ^ 16 - 1)), (Z.leb_spec (blen (payload (<[Z.to_nat i:=v]> cs))) PACKED_MAX); done || lia.
Qed.

Lemma run_edits_ok es : forall r cs, row_of r cs -> Forall (fun ed => 0 <= edit_at ed) es ->
  exists r', run_edits r es = Ret (fst (edits_cols cs es), r') /\ cols r' = cols r /\ row_of r' (snd (edits_cols cs es)).
Proof.
  induction es as [|ed es IH]; intros r cs R Hi; [by exists r|]. apply list.Forall_cons in Hi as [H1 H2]. cbn [run_edits edits_cols].
  destruct (run_edit_ok r cs ed R H1) as (r1 & -> & C1 & R1). destruct (edit_cols cs ed) as [ok cs1]. cbn [mbind exec_bind fst snd] in *. destruct (IH _ _ R1 H2) as (r2 & -> & C2 & R2).
  destruct (edits_cols cs1 es) as [oks cs2]. exists r2. split_and!; [done|congruence|done].
Qed.

Lemma has_named_ok r cs f : row_of r cs -> has_named r f = Ret (is_some (position (cols r) f ≫= fun i => mjoin (Prelude.get cs i))).
Proof.
  intros R. unfold has_named, position. destruct (list_find _ _) as [[i c]|]; [|done]. cbn. rewrite (has_ok _ _ R) by lia. unfold set_at. by destruct (Prelude.get cs _) as [[|]|].
Qed.

Lemma get_named_ok r cs f : row_of r cs -> get_named r f = Ret (position (cols r) f ≫= fun i => mjoin (Prelude.get cs i)).
Proof.
  intros R. unfold get_named, position. destruct (list_find _ _) as [[i c]|]; [|done]. cbn. apply (column_get_ok _ _ R). lia.
Qed.

Lemma fields_ok r cs : row_of r cs -> fields r = Ret (omap present (zip (cols r) cs)).
Proof. intros R. unfold fields. by rewrite (values_ok _ _ R). Qed.

(** C29: A packed row is the list of its columns: it is built exactly when the
    column count and the values' total fit sixteen bits, and after any sequence
    of in-place writes and rebuilds, each answering whether it was done, every
    column and its presence, by position and by name, the pairs and the count
    read as on the list, an absent column apart from an empty one, without a
    panic. *)
Theorem packed_row_is_its_columns (names : ColumnNames) (cs : list (option (list byte))) (es : list edit)
  (Hn : blen names = blen cs) (He : Forall (fun ed => 0 <= edit_at ed) es) :
  match build names cs with
  | Ret (Some r) => fits cs = true /\ let '(oks, cs') := edits_cols cs es in exists r', run_edits r es = Ret (oks, r') /\
      (forall i, 0 <= i -> get r' i = Ret (mjoin (Prelude.get cs' i)) /\ has r' i = Ret (is_some (mjoin (Prelude.get cs' i)))) /\
      (forall f, let v := position names f ≫= fun i => mjoin (Prelude.get cs' i) in get_named r' f = Ret v /\ has_named r' f = Ret (is_some v)) /\
      fields r' = Ret (omap present (zip names cs')) /\ len r' = Ret (blen (omap Datatypes.id cs'))
  | Ret None => fits cs = false
  | Panic => False
  end.
Proof.
  unfold fits. destruct (build_ok names cs Hn) as [(F1 & F2 & b & -> & R)|[F ->]].
  - split; [by rewrite (proj2 (Z.leb_le _ _) F1), (proj2 (Z.leb_le _ _) F2)|]. destruct (run_edits_ok es _ _ R He) as (r' & E & C & R').
    destruct (edits_cols cs es) as [oks cs']. cbn [fst snd cols] in *. exists r'. split; [done|]. rewrite <- C. split_and!.
    + intros i Hi. split; [by apply column_get_ok|]. rewrite (has_ok _ _ R') by done. unfold set_at. by destruct (Prelude.get cs' i) as [[|]|].
    + intros f. split; [by apply get_named_ok|by apply has_named_ok].
    + by apply fields_ok.
    + by apply len_ok.
  - apply andb_false_iff. destruct F as [F|F]; [left|right]; by apply Z.leb_gt.
Qed.

Lemma packed_row_is_its_columns_witness : let names := [bs "id"; bs "dept"; bs "note"] in
  match build names [Some (bs "7"); Some []; None] with
  | Ret (Some r) => exists r', run_edits r [SetSameWidth 0 (bs "8"); SetSameWidth 1 (bs "x"); WithColumn 2 (Some (bs "hi"))] = Ret ([true; false; true], r') /\
      get_named r' (bs "id") = Ret (Some (bs "8")) /\ get_named r' (bs "dept") = Ret (Some []) /\ has_named r' (bs "dept") = Ret true /\ len r' = Ret 3
  | _ => False
  end.
Proof.
  pose proof (packed_row_is_its_columns [bs "id"; bs "dept"; bs "note"] [Some (bs "7"); Some []; None]
    [SetSameWidth 0 (bs "8"); SetSameWidth 1 (bs "x"); WithColumn 2 (Some (bs "hi"))] eq_refl ltac:(repeat constructor; done)) as H.
  cbv zeta. destruct (build _ _) as [[r|]|]; [|discriminate H|done]. destruct H as (_ & r' & E & _ & N & _ & L). exists r'. split; [exact E|].
  split; [rewrite (proj1 (N _)); reflexivity|]. split; [rewrite (proj1 (N _)); reflexivity|]. split; [rewrite (proj2 (N _)); reflexivity|]. rewrite L. reflexivity.
Defined.
