(* ===== verification/SmallHash.v ===== *)
(** * Inline hashes ([crates/kevy-store/src/small_hash.rs])

    A tiny hash as a 22-byte listpack of [flen][field][vlen][value] tuples with
    a count and a used length.  The model edits the buffer as the code does,
    shifts and all; the theorem is that it is an association list in insertion
    order, refusing exactly what does not fit. *)

From Stdlib Require Import ZArith Lia Bool Strings.Byte Strings.String.
From stdpp Require Import base tactics list numbers gmap.
From S2P Require Import Prelude Encode Buffers.

#[local] Open Scope list_scope.
#[local] Open Scope Z_scope.

Definition SMALL_HASH_BUF_CAP : Z := 22.
Definition SMALL_HASH_FIELD_MAX : Z := SMALL_HASH_BUF_CAP - 3.
Definition SMALL_HASH_VALUE_MAX : Z := SMALL_HASH_BUF_CAP - 3.
Definition SMALL_HASH_COUNT_MAX : Z := 8.

Record SmallHashData := mkSmall { count : Z; used : Z; sbuf : list byte }.

Inductive AddResult := Added | Updated | NoRoom.

Definition new : SmallHashData := mkSmall 0 0 (replicate 22 x00).

Definition write_pair_at (b : list byte) (off : Z) (field value : list byte) : exec (list byte) :=
  b ← set_byte b off (zb (blen field));
  let fstart := off + 1 in
  let fend := fstart + blen field in
  b ← copy_from_slice b fstart field;
  b ← set_byte b fend (zb (blen value));
  copy_from_slice b (fend + 1) value.

Definition too_wide (field value : list byte) : bool := (SMALL_HASH_FIELD_MAX <? blen field) || (SMALL_HASH_VALUE_MAX <? blen value).

Definition with_one (field value : list byte) : exec (option SmallHashData) :=
  if too_wide field value then Ret None
  else
    let need := 2 + blen field + blen value in
    if SMALL_HASH_BUF_CAP <? need then Ret None
    else b ← write_pair_at (sbuf new) 0 field value; Ret (Some (mkSmall 1 need b)).

Definition len (s : SmallHashData) : Z := count s.
Definition is_empty (s : SmallHashData) : bool := count s =? 0.

(** [SmallHashIter::next] at [cursor] of [b]. *)
Definition next (b : list byte) (cursor : Z) : exec (option (list byte * list byte * Z)) :=
  if blen b <=? cursor then Ret None
  else
    fl ← index b cursor;
    let fstart := cursor + 1 in
    let fend := fstart + bz fl in
    vl ← index b fend;
    let vstart := fend + 1 in
    let vend := vstart + bz vl in
    f ← index_range b fstart fend;
    v ← index_range b vstart vend;
    Ret (Some (f, v, vend)).

(** The iterator run to its end; every step moves the cursor by two bytes or more. *)
Fixpoint iter_from (fuel : nat) (b : list byte) (cursor : Z) : exec (list (list byte * list byte)) :=
  match fuel with
  | O => Ret []
  | S fuel =>
      o ← next b cursor;
      match o with
      | None => Ret []
      | Some (f, v, c) => rest ← iter_from fuel b c; Ret ((f, v) :: rest)
      end
  end.

Definition iter (s : SmallHashData) : exec (list (list byte * list byte)) :=
  b ← index_range (sbuf s) 0 (used s);
  iter_from (S (length b)) b 0.

Definition get (s : SmallHashData) (field : list byte) : exec (option (list byte)) :=
  ps ← iter s;
  Ret (snd ∘ snd <$> list_find (fun p => fst p = field) ps).

Definition contains_key (s : SmallHashData) (field : list byte) : exec bool :=
  o ← get s field; Ret (match o with Some _ => true | None => false end).

Fixpoint locate_from (fuel : nat) (s : SmallHashData) (field : list byte) (cursor : Z) : exec (option (Z * Z * Z)) :=
  match fuel with
  | O => Ret None
  | S fuel =>
      if used s <=? cursor then Ret None
      else
        fl ← index (sbuf s) cursor;
        let fstart := cursor + 1 in
        let fend := fstart + bz fl in
        vl ← index (sbuf s) fend;
        f ← index_range (sbuf s) fstart fend;
        if bool_decide (f = field) then Ret (Some (cursor, bz fl, bz vl))
        else locate_from fuel s field (fend + 1 + bz vl)
  end.

Definition locate (s : SmallHashData) (field : list byte) : exec (option (Z * Z * Z)) := locate_from 23 s field 0.

Definition try_set (s : SmallHashData) (field value : list byte) : exec (AddResult * SmallHashData) :=
  if too_wide field value then Ret (NoRoom, s)
  else
    o ← locate s field;
    match o with
    | Some (off, flen, old_vlen) =>
        let new_vlen := blen value in
        let val_off := off + 1 + flen + 1 in
        let old_end := val_off + old_vlen in
        let delta := new_vlen - old_vlen in
        let new_used := used s + delta in
        if SMALL_HASH_BUF_CAP <? new_used then Ret (NoRoom, s)
        else
          b ← (if delta =? 0 then Ret (sbuf s)
               else
                 b ← copy_within (sbuf s) old_end (used s) (val_off + new_vlen);
                 if delta <? 0 then fill b new_used (used s) x00 else Ret b);
          b ← set_byte b (val_off - 1) (zb new_vlen);
          b ← copy_from_slice b val_off value;
          Ret (Updated, mkSmall (count s) new_used b)
    | None =>
        if SMALL_HASH_COUNT_MAX <=? count s then Ret (NoRoom, s)
        else
          let new_used := used s + (2 + blen field + blen value) in
          if SMALL_HASH_BUF_CAP <? new_used then Ret (NoRoom, s)
          else
            b ← write_pair_at (sbuf s) (used s) field value;
            Ret (Added, mkSmall (count s + 1) new_used b)
    end.

Definition try_remove (s : SmallHashData) (field : list byte) : exec (bool * SmallHashData) :=
  o ← locate s field;
  match o with
  | None => Ret (false, s)
  | Some (off, flen, vlen) =>
      let entry_end := off + 2 + flen + vlen in
      b ← copy_within (sbuf s) entry_end (used s) off;
      let new_used := off + (used s - entry_end) in
      b ← fill b new_used (used s) x00;
      Ret (true, mkSmall (count s - 1) new_used b)
  end.

(** [promote], into a table: inserting the pairs in turn. *)
Definition promote (s : SmallHashData) : exec (gmap (list byte) (list byte)) :=
  ps ← iter s;
  Ret (fold_left (fun h p => <[fst p := snd p]> h) ps ∅).

(** ** The listpack *)

Definition tuple (p : list byte * list byte) : list byte := zb (blen (fst p)) :: fst p ++ zb (blen (snd p)) :: snd p.
Definition pack (ps : list (list byte * list byte)) : list byte := concat (map tuple ps).

(** [s] holds the pairs [ps], in insertion order. *)
Record holds (s : SmallHashData) (ps : list (list byte * list byte)) : Prop := {
  h_buf : blen (sbuf s) = SMALL_HASH_BUF_CAP;
  h_used : used s = blen (pack ps);
  h_fits : used s <= SMALL_HASH_BUF_CAP;
  h_count : count s = blen ps;
  h_max : blen ps <= SMALL_HASH_COUNT_MAX;
  h_pack : slice (sbuf s) 0 (used s) = pack ps;
  h_keys : NoDup ps.*1
}.

Lemma tuple_blen p : blen (tuple p) = 2 + blen (fst p) + blen (snd p).
Proof. unfold tuple. rewrite blen_cons, blen_app, blen_cons. lia. Qed.

Lemma pack_app l k : pack (l ++ k) = pack l ++ pack k.
Proof. unfold pack. by rewrite map_app, concat_app. Qed.

Lemma pack_cons p l : pack (p :: l) = tuple p ++ pack l.
Proof. done. Qed.

Lemma pack_one p : pack [p] = tuple p.
Proof. unfold pack. cbn [map concat]. apply app_nil_r. Qed.

Lemma pack_small pre p post : blen (pack (pre ++ p :: post)) <= SMALL_HASH_BUF_CAP -> blen (fst p) < 256 /\ blen (snd p) < 256.
Proof. rewrite pack_app, pack_cons, !blen_app, tuple_blen. unfold SMALL_HASH_BUF_CAP. blen_pos. lia. Qed.

Lemma pack_length ps : 2 * blen ps <= blen (pack ps).
Proof. induction ps as [|p ps IH]; [done|]. rewrite pack_cons, blen_app, tuple_blen, blen_cons. blen_pos. lia. Qed.

(** One tuple, read out of a buffer that has it at [c]. *)
Lemma read_tuple b c p : 0 <= c -> c + blen (tuple p) <= blen b -> slice b c (c + blen (tuple p)) = tuple p -> blen (fst p) < 256 -> blen (snd p) < 256 ->
  index b c = Ret (zb (blen (fst p))) /\ index b (c + 1 + blen (fst p)) = Ret (zb (blen (snd p))) /\
  index_range b (c + 1) (c + 1 + blen (fst p)) = Ret (fst p) /\
  index_range b (c + 1 + blen (fst p) + 1) (c + 1 + blen (fst p) + 1 + blen (snd p)) = Ret (snd p).
Proof.
  intros Hc Hb E Hf Hv. destruct (split_at b c ltac:(blen_pos; lia)) as (pre & Eb & Lp). rewrite tuple_blen in Hb.
  assert (Er : exists rest, from b c = tuple p ++ rest).
  { exists (drop (length (tuple p)) (from b c)). rewrite <- E at 1. rewrite slice_from, Z.add_simpl_l, blen_to_nat. symmetry. apply take_drop. }
  destruct Er as [rest Er]. rewrite Er in Eb. unfold tuple in Eb. cbn [app] in Eb. rewrite <- app_assoc in Eb. cbn [app] in Eb. blen_pos.
  set (f := fst p) in *. set (v := snd p) in *. clearbody f v. subst c. split_and!.
  - unfold index. rewrite Eb, get_mid. done.
  - unfold index. rewrite Eb. replace (pre ++ zb (blen f) :: f ++ zb (blen v) :: v ++ rest) with ((pre ++ zb (blen f) :: f) ++ zb (blen v) :: v ++ rest) by by rewrite <- app_assoc.
    replace (blen pre + 1 + blen f) with (blen (pre ++ zb (blen f) :: f)) by (rewrite blen_app, blen_cons; lia). by rewrite get_mid.
  - rewrite index_range_ok by lia. f_equal. rewrite Eb. replace (pre ++ zb (blen f) :: f ++ zb (blen v) :: v ++ rest) with ((pre ++ [zb (blen f)]) ++ f ++ zb (blen v) :: v ++ rest) by by rewrite <- app_assoc.
    replace (blen pre + 1) with (blen (pre ++ [zb (blen f)])) by (rewrite blen_app; done). apply slice_mid.
  - rewrite index_range_ok by lia. f_equal. rewrite Eb.
    replace (pre ++ zb (blen f) :: f ++ zb (blen v) :: v ++ rest) with ((pre ++ zb (blen f) :: f ++ [zb (blen v)]) ++ v ++ rest) by (rewrite <- app_assoc; cbn; by rewrite <- app_assoc).
    replace (blen pre + 1 + blen f + 1) with (blen (pre ++ zb (blen f) :: f ++ [zb (blen v)])) by (rewrite blen_app, blen_cons, blen_app; change (blen [zb (blen v)]) with 1; lia). apply slice_mid.
Qed.

Lemma bz_zb_len l : blen l < 256 -> bz (zb (@blen byte l)) = blen l.
Proof. intros. rewrite bz_zb. apply Z.mod_small. blen_pos. lia. Qed.

Lemma slice_sub {A} (b : list A) s e c d : 0 <= s -> 0 <= c -> c <= d -> s + d <= e -> slice b (s + c) (s + d) = slice (slice b s e) c d.
Proof. intros. unfold slice. rewrite skipn_firstn_comm, drop_drop, take_take. f_equal; [|f_equal]; lia. Qed.

(** The tuple after [pre] in a buffer that starts with a listpack. *)
Lemma packed_tuple b pre p post : slice b 0 (blen (pack (pre ++ p :: post))) = pack (pre ++ p :: post) ->
  slice b (blen (pack pre)) (blen (pack pre) + blen (tuple p)) = tuple p.
Proof.
  intros E. rewrite <- (Z.add_0_l (blen (pack pre))), <- Z.add_assoc. rewrite (slice_sub _ _ (blen (pack (pre ++ p :: post)))).
  - rewrite E. rewrite pack_app, pack_cons. apply slice_mid.
  - done.
  - blen_pos; lia.
  - blen_pos; lia.
  - rewrite pack_app, pack_cons, !blen_app. blen_pos. lia.
Qed.

(** ** Reading *)

Lemma small_iter_from_ok b post : forall pre fuel, b = pack (pre ++ post) -> blen b <= SMALL_HASH_BUF_CAP -> (length post < fuel)%nat ->
  iter_from fuel b (blen (pack pre)) = Ret post.
Proof.
  induction post as [|p post IH]; intros pre [|fuel] E L F; [cbn in F; lia| |cbn in F; lia|]; cbn [iter_from]; unfold next.
  - rewrite app_nil_r in E. rewrite E. by rewrite Z.leb_refl.
  - rewrite E in L. destruct (pack_small _ _ _ L) as [Hf Hv]. assert (T : blen b = blen (pack pre) + (blen (tuple p) + blen (pack post))) by (rewrite E, pack_app, pack_cons, !blen_app; lia).
    pose proof (tuple_blen p) as Tl. blen_pos. destruct (Z.leb_spec (blen b) (blen (pack pre))); [lia|].
    destruct (read_tuple b (blen (pack pre)) p) as (-> & R2 & R3 & R4); [lia|lia| |done|done|].
    { apply (packed_tuple _ _ _ post). rewrite <- E. apply slice_all. }
    cbn [mbind exec_bind]. rewrite bz_zb_len by done. rewrite R2. cbn [mbind exec_bind]. rewrite bz_zb_len by done. rewrite R3. cbn [mbind exec_bind].
    rewrite R4. cbn [mbind exec_bind]. specialize (IH (pre ++ [p]) fuel). rewrite (pack_app pre [p]), pack_one, blen_app, Tl in IH.
    replace (blen (pack pre) + 1 + blen (fst p) + 1 + blen (snd p)) with (blen (pack pre) + (2 + blen (fst p) + blen (snd p))) by lia.
    rewrite IH; [by destruct p|by rewrite <- app_assoc|by rewrite E|cbn in F; lia].
Qed.

Lemma small_iter_ok s ps : holds s ps -> iter s = Ret ps.
Proof.
  intros []. unfold iter. pose proof (blen_nonneg (pack ps)). rewrite index_range_ok by lia. cbn [mbind exec_bind]. rewrite h_pack0.
  apply (small_iter_from_ok _ ps []); [done|lia|]. pose proof (pack_length ps). unfold blen in *. lia.
Qed.

Lemma small_get_ok s ps field : holds s ps -> get s field = Ret (snd ∘ snd <$> list_find (fun p => fst p = field) ps).
Proof. intros H. unfold get. by rewrite (small_iter_ok _ _ H). Qed.

(** Where a field is. *)
Lemma locate_from_ok s field post : forall pre fuel, holds s (pre ++ post) -> (length post < fuel)%nat -> (field ∉ pre.*1) ->
  match list_find (fun p => fst p = field) post with
  | Some (i, p) => locate_from fuel s field (blen (pack pre)) = Ret (Some (blen (pack (pre ++ take i post)), blen (fst p), blen (snd p)))
  | None => locate_from fuel s field (blen (pack pre)) = Ret None
  end.
Proof.
  induction post as [|p post IH]; intros pre [|fuel] H F Np; [cbn in F; lia| |cbn in F; lia|]; cbn [locate_from].
  - cbn. rewrite app_nil_r in H. rewrite (h_used _ _ H), Z.leb_refl. done.
  - pose proof H as []. rewrite h_used0 in *. destruct (pack_small _ _ _ h_fits0) as [Hf Hv].
    assert (T : blen (pack (pre ++ p :: post)) = blen (pack pre) + (blen (tuple p) + blen (pack post))) by (rewrite pack_app, pack_cons, !blen_app; lia).
    pose proof (tuple_blen p) as Tl. blen_pos. destruct (Z.leb_spec (blen (pack (pre ++ p :: post))) (blen (pack pre))); [lia|].
    destruct (read_tuple (sbuf s) (blen (pack pre)) p) as (-> & R2 & R3 & R4); [lia|lia|by apply (packed_tuple _ _ _ post)|done|done|].
    cbn [mbind exec_bind]. rewrite bz_zb_len by done. rewrite R2. cbn [mbind exec_bind]. rewrite bz_zb_len by done. rewrite R3. cbn [mbind exec_bind list_find].
    destruct (decide (fst p = field)) as [E|N].
    + rewrite bool_decide_true by done. cbn [take]. by rewrite app_nil_r.
    + rewrite bool_decide_false by done. specialize (IH (pre ++ [p]) fuel). rewrite <- app_assoc in IH. specialize (IH H ltac:(cbn in F; lia)).
      rewrite fmap_app, elem_of_app in IH. specialize (IH ltac:(intros [M|M%list_elem_of_singleton]; [done|by apply N])).
      replace (blen (pack (pre ++ [p]))) with (blen (pack pre) + 1 + blen (fst p) + 1 + blen (snd p)) in IH.
      2: { rewrite (pack_app pre [p]), pack_one, blen_app, Tl. lia. }
      destruct (list_find _ post) as [[i q]|]; cbn; rewrite IH; [|done]. by rewrite <- app_assoc.
Qed.

Lemma locate_ok s ps field : holds s ps ->
  match list_find (fun p => fst p = field) ps with
  | Some (i, p) => locate s field = Ret (Some (blen (pack (take i ps)), blen (fst p), blen (snd p)))
  | None => locate s field = Ret None
  end.
Proof.
  intros H. apply (locate_from_ok s field ps []); [done| |by apply not_elem_of_nil].
  pose proof (pack_length ps). pose proof (h_fits _ _ H). rewrite (h_used _ _ H) in *. unfold SMALL_HASH_BUF_CAP, blen in *. lia.
Qed.

(** ** Writing *)

Lemma write_pair_ok b off p : 0 <= off -> off + blen (tuple p) <= blen b ->
  write_pair_at b off (fst p) (snd p) = Ret (splice b off (tuple p)).
Proof.
  intros Ho Hb. rewrite tuple_blen in Hb. blen_pos. unfold write_pair_at, set_byte, tuple. set (f := fst p) in *. set (v := snd p) in *.
  set (x := zb (blen f)). set (y := zb (blen v)). assert (Lx : blen [x] = 1) by done. assert (Ly : blen [y] = 1) by done.
  rewrite copy_from_slice_ok by lia. cbn [mbind exec_bind]. rewrite copy_from_slice_ok by (rewrite ?splice_blen; lia). cbn [mbind exec_bind].
  rewrite <- Lx at 1. rewrite splice_splice by lia. assert (Lf : blen ([x] ++ f) = 1 + blen f) by (by rewrite blen_app).
  rewrite copy_from_slice_ok by (rewrite ?splice_blen; lia). cbn [mbind exec_bind]. replace (off + 1 + blen f) with (off + blen ([x] ++ f)) by lia.
  rewrite splice_splice by lia. assert (Lg : blen (([x] ++ f) ++ [y]) = 2 + blen f) by (rewrite (blen_app ([x] ++ f)); lia).
  rewrite copy_from_slice_ok by (rewrite ?splice_blen; lia). f_equal. replace (off + blen ([x] ++ f) + 1) with (off + blen (([x] ++ f) ++ [y])) by lia.
  rewrite splice_splice by lia. cbn [app]. by rewrite <- app_assoc.
Qed.

Lemma move_tail (b : list byte) s e dest : 0 <= s <= e -> e <= blen b -> 0 <= dest -> dest + (e - s) <= blen b ->
  exists b', copy_within b s e dest = Ret b' /\ blen b' = blen b /\ slice b' dest (dest + (e - s)) = slice b s e /\
    forall e', e' <= dest -> slice b' 0 e' = slice b 0 e'.
Proof.
  intros Hs He Hd Hb. unfold copy_within. rewrite index_range_ok by lia. cbn [mbind exec_bind].
  pose proof (blen_slice b s e ltac:(lia) ltac:(lia)) as L. rewrite copy_from_slice_ok by lia. eexists. split; [reflexivity|].
  split; [apply splice_blen; lia|]. split; [rewrite <- L; apply slice_splice_in; lia|]. intros e' He'. apply slice_splice_out; lia.
Qed.

Lemma fill_tail (b : list byte) s e : 0 <= s <= e -> e <= blen b ->
  exists b', fill b s e x00 = Ret b' /\ blen b' = blen b /\ forall s' e', 0 <= s' -> e' <= s -> slice b' s' e' = slice b s' e'.
Proof.
  intros Hs He. unfold fill. destruct (Z.leb_spec s e); [|lia]. set (z := replicate _ _). assert (L : blen z = e - s) by (unfold z, blen; rewrite length_replicate; lia).
  rewrite copy_from_slice_ok by lia. eexists. split; [reflexivity|]. split; [apply splice_blen; lia|]. intros s' e' Hs' He'. apply slice_splice_out; lia.
Qed.

(** The listpack around one of its tuples. *)
Lemma pack_around s pre p post : holds s (pre ++ p :: post) -> let o := blen (pack pre) in
  0 <= o /\ used s = o + blen (tuple p) + blen (pack post) /\ used s <= blen (sbuf s) /\ blen (sbuf s) = 22 /\
  slice (sbuf s) 0 o = pack pre /\ slice (sbuf s) o (o + blen (tuple p)) = tuple p /\ slice (sbuf s) (o + blen (tuple p)) (used s) = pack post.
Proof.
  intros [] o. assert (T : blen (pack (pre ++ p :: post)) = o + blen (tuple p) + blen (pack post)) by (rewrite pack_app, pack_cons, !blen_app; unfold o; lia).
  assert (0 <= o) by apply blen_nonneg. blen_pos. unfold SMALL_HASH_BUF_CAP in *. split; [done|]. split; [lia|]. split; [lia|]. split; [done|].
  apply slice_pieces; [|lia]. by rewrite <- pack_cons, <- pack_app.
Qed.

(** ** Operations on the pairs *)

Abbreviation pairs := (list (list byte * list byte)).

Definition find_field (ps : pairs) (field : list byte) : option (nat * (list byte * list byte)) := list_find (fun p => fst p = field) ps.

Definition set_pairs (ps : pairs) (field value : list byte) : AddResult * pairs :=
  if too_wide field value then (NoRoom, ps)
  else match find_field ps field with
       | Some (i, p) => if SMALL_HASH_BUF_CAP <? blen (pack ps) - blen (snd p) + blen value then (NoRoom, ps) else (Updated, <[i := (field, value)]> ps)
       | None => if (SMALL_HASH_COUNT_MAX <=? blen ps) || (SMALL_HASH_BUF_CAP <? blen (pack ps) + (2 + blen field + blen value)) then (NoRoom, ps)
                 else (Added, ps ++ [(field, value)])
       end.

Definition remove_pairs (ps : pairs) (field : list byte) : bool * pairs :=
  match find_field ps field with Some (i, _) => (true, delete i ps) | None => (false, ps) end.

Lemma find_split ps field i p : find_field ps field = Some (i, p) ->
  fst p = field /\ ps = take i ps ++ p :: drop (S i) ps /\ (i < length ps)%nat.
Proof.
  intros E. apply list_find_Some in E as (L & E & _). split; [done|]. split; [by rewrite take_drop_middle|]. by eapply lookup_lt_Some.
Qed.

Lemma updated_ok s pre p post value : holds s (pre ++ p :: post) -> blen (fst p) < 256 -> blen value < 256 ->
  let new_used := used s + (blen value - blen (snd p)) in let val_off := blen (pack pre) + 1 + blen (fst p) + 1 in new_used <= SMALL_HASH_BUF_CAP ->
  exists b, (b ← (if blen value - blen (snd p) =? 0 then Ret (sbuf s)
                  else
                    b ← copy_within (sbuf s) (val_off + blen (snd p)) (used s) (val_off + blen value);
                    if blen value - blen (snd p) <? 0 then fill b new_used (used s) x00 else Ret b);
             b ← set_byte b (val_off - 1) (zb (blen value));
             copy_from_slice b val_off value) = Ret b /\ holds (mkSmall (count s) new_used b) (pre ++ (fst p, value) :: post).
Proof.
  intros H Hf Hv nu vo Hn. destruct (pack_around _ _ _ _ H) as (Ho & Hu & Hul & Hb & S1 & S2 & S3). set (o := blen (pack pre)) in *.
  pose proof (tuple_blen p) as Tl. unfold SMALL_HASH_BUF_CAP in Hn. assert (Hvo : vo = o + 1 + blen (fst p) + 1) by done. assert (Hnu : nu = used s + (blen value - blen (snd p))) by done.
  clearbody vo nu. blen_pos.
  assert (Sh : exists b1, (if blen value - blen (snd p) =? 0 then Ret (sbuf s)
      else b ← copy_within (sbuf s) (vo + blen (snd p)) (used s) (vo + blen value); if blen value - blen (snd p) <? 0 then fill b nu (used s) x00 else Ret b) = Ret b1 /\
      blen b1 = 22 /\ slice b1 0 (vo - 1) = slice (sbuf s) 0 (vo - 1) /\ slice b1 (vo + blen value) nu = pack post).
  { replace (o + blen (tuple p)) with (vo + blen (snd p)) in S3 by lia. destruct (Z.eqb_spec (blen value - blen (snd p)) 0).
    - exists (sbuf s). split_and!; [done|done|done|]. rewrite <- S3. f_equal; lia.
    - destruct (move_tail (sbuf s) (vo + blen (snd p)) (used s) (vo + blen value)) as (b1 & -> & L1 & M1 & K1); [lia|lia|lia|lia|]. cbn [mbind exec_bind].
      replace (vo + blen value + (used s - (vo + blen (snd p)))) with nu in M1 by lia. rewrite S3 in M1. destruct (Z.ltb_spec (blen value - blen (snd p)) 0).
      + destruct (fill_tail b1 nu (used s)) as (b2 & -> & L2 & K2); [lia|lia|]. exists b2. split_and!; [done|lia| |]; rewrite K2 by lia; [apply K1; lia|done].
      + exists b1. split_and!; [done|lia|apply K1; lia|done]. }
  destruct Sh as (b1 & -> & L1 & K1 & M1). cbn [mbind exec_bind]. unfold set_byte. set (x := zb (blen value)). assert (Lx : blen [x] = 1) by done.
  rewrite copy_from_slice_ok by lia. cbn [mbind exec_bind]. rewrite copy_from_slice_ok by (rewrite ?splice_blen; lia). eexists. split; [reflexivity|].
  replace (splice (splice b1 (vo - 1) [x]) vo value) with (splice b1 (vo - 1) (x :: value)).
  2: { pose proof (splice_splice b1 (vo - 1) [x] value ltac:(lia) ltac:(lia)) as Ss. cbn [app] in Ss. rewrite <- Ss. f_equal. lia. }
  assert (Lv : blen (x :: value) = 1 + blen value) by apply blen_cons. destruct H.
  assert (Lp : blen (pack (pre ++ (fst p, value) :: post)) = nu) by (rewrite pack_app, pack_cons, !blen_app, tuple_blen; cbn [fst snd]; unfold o in *; lia).
  constructor; cbn [sbuf used count]; [by rewrite splice_blen by lia|done|done|rewrite h_count0; unfold blen; rewrite !length_app; done|unfold blen in *; rewrite !length_app in *; done| |].
  - rewrite <- (slice_join _ 0 (vo - 1)), <- (slice_join _ (vo - 1) (vo + blen value)) by lia.
    rewrite (slice_splice_out b1 _ _ 0), (slice_splice_out b1 _ _ (vo + blen value)) by lia. rewrite M1, K1. replace (vo + blen value) with (vo - 1 + blen (x :: value)) by lia.
    rewrite slice_splice_in by lia. rewrite <- (slice_join _ 0 o) by lia. rewrite S1, pack_app, pack_cons, <- app_assoc. f_equal.
    replace (slice (sbuf s) o (vo - 1)) with (zb (blen (fst p)) :: fst p); [unfold tuple; cbn [fst snd app]; f_equal; by rewrite <- app_assoc|].
    replace (vo - 1) with (o + (1 + blen (fst p))) by lia. pose proof (slice_sub (sbuf s) o (o + blen (tuple p)) 0 (1 + blen (fst p)) ltac:(lia) ltac:(lia) ltac:(lia) ltac:(lia)) as Q.
    rewrite Z.add_0_r in Q. rewrite Q, S2. unfold tuple.
    change (zb (blen (fst p)) :: fst p ++ ?r) with ((zb (blen (fst p)) :: fst p) ++ r). rewrite <- blen_cons with (x := zb (blen (fst p))). symmetry. apply slice_from_app.
  - rewrite fmap_app, fmap_cons in *. exact h_keys0.
Qed.

Lemma too_wide_false field value : too_wide field value = false -> blen field < 256 /\ blen value < 256.
Proof. unfold too_wide, SMALL_HASH_FIELD_MAX, SMALL_HASH_VALUE_MAX, SMALL_HASH_BUF_CAP. rewrite orb_false_iff, !Z.ltb_ge. lia. Qed.

Lemma added_ok s ps field value : holds s ps -> (field ∉ ps.*1) -> blen ps < SMALL_HASH_COUNT_MAX ->
  let new_used := used s + (2 + blen field + blen value) in new_used <= SMALL_HASH_BUF_CAP ->
  exists b, write_pair_at (sbuf s) (used s) field value = Ret b /\ holds (mkSmall (count s + 1) new_used b) (ps ++ [(field, value)]).
Proof.
  intros [] Nf Hc nu Hn. pose proof (tuple_blen (field, value)) as Tl. cbn [fst snd] in Tl. unfold SMALL_HASH_BUF_CAP in *. assert (Hnu : nu = used s + blen (tuple (field, value))) by (unfold nu; lia). clearbody nu. blen_pos.
  pose proof (write_pair_ok (sbuf s) (used s) (field, value)) as W. cbn [fst snd] in W. rewrite W by lia. eexists. split; [reflexivity|].
  assert (Lp : blen (pack (ps ++ [(field, value)])) = nu) by (rewrite pack_app, pack_one, blen_app; lia).
  constructor; cbn [sbuf used count].
  - rewrite splice_blen by lia. done.
  - done.
  - done.
  - rewrite blen_app, h_count0. done.
  - rewrite blen_app. change (blen [(field, value)]) with 1. lia.
  - rewrite <- (slice_join _ 0 (used s)) by lia. rewrite slice_splice_out by lia. rewrite h_pack0, pack_app, pack_one. f_equal. rewrite Hnu. apply slice_splice_in; lia.
  - rewrite fmap_app. apply list.NoDup_app. split_and!; [done| |apply NoDup_singleton]. intros k Hk Hk'%list_elem_of_singleton. cbn in Hk'. by subst k.
Qed.

Lemma try_set_ok s ps field value : holds s ps ->
  exists s', try_set s field value = Ret (fst (set_pairs ps field value), s') /\ holds s' (snd (set_pairs ps field value)).
Proof.
  intros H. unfold try_set, set_pairs. destruct (too_wide field value) eqn:Tw; [by exists s|]. destruct (too_wide_false _ _ Tw) as [Hf Hv].
  pose proof (locate_ok s ps field H) as L. unfold find_field. destruct (list_find _ ps) as [[i p]|] eqn:F; rewrite L; cbn [mbind exec_bind].
  - apply find_split in F as (Ef & Es & Hi). rewrite <- (h_used _ _ H). replace (used s - blen (snd p) + blen value) with (used s + (blen value - blen (snd p))) by lia.
    destruct (Z.ltb_spec SMALL_HASH_BUF_CAP (used s + (blen value - blen (snd p)))) as [Big|Sm]; [by exists s|].
    pose proof H as H'. rewrite Es in H'. destruct (updated_ok s _ p _ value H') as (b & E & Hb); [by rewrite Ef|done|done|].
    match type of E with (?m ≫= ?k) = _ => destruct m as [b1|]; [|discriminate E] end. cbn [mbind exec_bind] in *.
    destruct (set_byte b1 _ _) as [b2|]; [|discriminate E]. cbn [mbind exec_bind] in *. rewrite E. cbn [mbind exec_bind]. eexists. split; [reflexivity|].
    cbn [snd]. rewrite insert_take_drop by done. by rewrite <- Ef.
  - rewrite (h_count _ _ H), <- (h_used _ _ H). destruct (Z.leb_spec SMALL_HASH_COUNT_MAX (blen ps)); [by exists s|]. cbn [orb].
    destruct (Z.ltb_spec SMALL_HASH_BUF_CAP (used s + (2 + blen field + blen value))); [by exists s|].
    destruct (added_ok s ps field value H) as (b & E & Hb); [|done|done|].
    + intros (q & Eq & Hq)%list_elem_of_fmap. apply list_find_None in F. pose proof (proj1 (list.Forall_forall _ _) F q Hq). by subst field.
    + rewrite E. cbn [mbind exec_bind]. rewrite <- (h_count _ _ H). by eexists.
Qed.

Lemma try_remove_ok s ps field : holds s ps ->
  exists s', try_remove s field = Ret (fst (remove_pairs ps field), s') /\ holds s' (snd (remove_pairs ps field)).
Proof.
  intros H. unfold try_remove, remove_pairs. pose proof (locate_ok s ps field H) as L. unfold find_field.
  destruct (list_find _ ps) as [[i p]|] eqn:F; rewrite L; cbn [mbind exec_bind]; [|by exists s].
  apply find_split in F as (Ef & Es & Hi). pose proof H as H'. rewrite Es in H'. destruct (pack_around _ _ _ _ H') as (Ho & Hu & Hul & Hb & S1 & S2 & S3).
  set (pre := take i ps) in *. set (post := drop (S i) ps) in *. set (o := blen (pack pre)) in *. pose proof (tuple_blen p) as Tl. blen_pos.
  replace (o + 2 + blen (fst p) + blen (snd p)) with (o + blen (tuple p)) by lia.
  destruct (move_tail (sbuf s) (o + blen (tuple p)) (used s) o) as (b1 & -> & L1 & M1 & K1); [lia|lia|lia|lia|]. cbn [mbind exec_bind].
  set (nu := o + (used s - (o + blen (tuple p)))) in *. assert (Hnu : nu = o + blen (pack post)) by (unfold nu; lia).
  destruct (fill_tail b1 nu (used s)) as (b2 & -> & L2 & K2); [lia|lia|]. cbn [mbind exec_bind fst snd]. eexists. split; [reflexivity|].
  rewrite delete_take_drop. fold pre post. assert (Lp : blen (pack (pre ++ post)) = nu) by (rewrite pack_app, blen_app; lia). destruct H'.
  unfold SMALL_HASH_BUF_CAP in *. constructor; cbn [sbuf used count].
  - unfold SMALL_HASH_BUF_CAP; lia.
  - done.
  - unfold SMALL_HASH_BUF_CAP; lia.
  - rewrite h_count0, !blen_app, blen_cons. lia.
  - rewrite !blen_app, blen_cons in *. lia.
  - rewrite K2 by lia. rewrite <- (slice_join _ 0 o) by lia. rewrite (K1 o), S1 by lia. rewrite M1, S3. by rewrite pack_app.
  - rewrite fmap_app, fmap_cons in *. apply list.NoDup_app in h_keys0 as (N1 & N2 & N3). apply NoDup_cons in N3 as [_ N3]. apply list.NoDup_app. split_and!; [done| |done].
    intros k Hk Hk'. apply (N2 k Hk). by right.
Qed.

(** ** Theorems *)

Inductive small_op := TrySet (field value : list byte) | TryRemove (field : list byte).

Definition small_step (s : SmallHashData) (op : small_op) : exec SmallHashData :=
  match op with
  | TrySet f v => '(_, s') ← try_set s f v; Ret s'
  | TryRemove f => '(_, s') ← try_remove s f; Ret s'
  end.

Fixpoint small_run (s : SmallHashData) (ops : list small_op) : exec SmallHashData :=
  match ops with [] => Ret s | op :: ops => s' ← small_step s op; small_run s' ops end.

Definition op_pairs (ps : pairs) (op : small_op) : pairs :=
  match op with TrySet f v => snd (set_pairs ps f v) | TryRemove f => snd (remove_pairs ps f) end.

Lemma small_op_ok s ps op : holds s ps -> exists s', small_step s op = Ret s' /\ holds s' (op_pairs ps op).
Proof.
  intros H. destruct op as [f v|f]; cbn [small_step op_pairs].
  - destruct (try_set_ok s ps f v H) as (s' & -> & H'). by exists s'.
  - destruct (try_remove_ok s ps f H) as (s' & -> & H'). by exists s'.
Qed.

Lemma small_ops_ok ops : forall s ps, holds s ps -> exists s', small_run s ops = Ret s' /\ holds s' (fold_left op_pairs ops ps).
Proof.
  induction ops as [|op ops IH]; intros s ps H; [by exists s|]. cbn [small_run fold_left]. destruct (small_op_ok s ps op H) as (s1 & -> & H1).
  cbn [mbind exec_bind]. by apply IH.
Qed.

Lemma new_holds : holds new [].
Proof. constructor; try done. apply NoDup_nil_2. Qed.

Lemma with_one_ok field value : with_one field value = o ← try_set new field value; Ret (match fst o with Added => Some (snd o) | _ => None end).
Proof.
  unfold with_one, try_set. destruct (too_wide field value); [done|]. change (locate new field) with (Ret (A := option (Z * Z * Z)) None).
  cbn [mbind exec_bind count new used sbuf]. change (SMALL_HASH_COUNT_MAX <=? 0) with false. cbv iota. rewrite !Z.add_0_l.
  destruct (Z.ltb_spec SMALL_HASH_BUF_CAP (2 + blen field + blen value)); [done|]. by destruct (write_pair_at _ 0 field value).
Qed.

Lemma fold_insert_map ps : forall h : gmap (list byte) (list byte), NoDup ps.*1 -> (forall k, k ∈ ps.*1 -> h !! k = None) ->
  fold_left (fun h p => <[fst p := snd p]> h) ps h = list_to_map ps ∪ h.
Proof.
  induction ps as [|[k v] ps IH]; intros h N D; cbn [fold_left]; [rewrite list_to_map_nil; symmetry; apply (left_id_L ∅ (∪))|]. rewrite list_to_map_cons. rewrite fmap_cons in N. apply NoDup_cons in N as [N1 N2].
  rewrite IH; [|done|]; cbn [fst snd].
  - rewrite <- insert_union_l. rewrite insert_union_r; [done|]. by apply not_elem_of_list_to_map_1.
  - intros k' Hk. rewrite lookup_insert_ne; [apply D; by right|]. intros ->. done.
Qed.

Lemma find_field_map ps field : NoDup ps.*1 -> snd ∘ snd <$> find_field ps field = (list_to_map ps : gmap (list byte) (list byte)) !! field.
Proof.
  intros Nd. symmetry. unfold find_field. destruct (list_find _ ps) as [[i [k v]]|] eqn:F; cbn.
  - apply list_find_Some in F as (L & <- & _). apply elem_of_list_to_map_1; [done|]. by eapply list_elem_of_lookup_2.
  - apply not_elem_of_list_to_map_1. intros (q & Eq & Hq)%list_elem_of_fmap. apply list_find_None in F. by apply (proj1 (list.Forall_forall _ _) F q Hq).
Qed.

Lemma get_map s ps field : holds s ps -> get s field = Ret ((list_to_map ps : gmap (list byte) (list byte)) !! field).
Proof. intros H. rewrite (small_get_ok _ _ _ H), <- find_field_map by apply H. done. Qed.

Lemma small_promote_ok s ps : holds s ps -> promote s = Ret (list_to_map ps).
Proof.
  intros H. unfold promote. rewrite (small_iter_ok _ _ H). cbn [mbind exec_bind]. rewrite fold_insert_map; [by rewrite (right_id_L ∅ (∪))|apply H|done].
Qed.

Lemma size_pairs ps : NoDup ps.*1 -> base.size (list_to_map ps : gmap (list byte) (list byte)) = length ps.
Proof. intros Nd. rewrite <- length_map_to_list, map_to_list_to_map by done. done. Qed.

(** C30: After any sequence of sets and removals the inline hash is an association
    list: it iterates in insertion order, a lookup finds the field's last value,
    the promoted table holds the same pairs, and nothing panics.  A set answers
    [NoRoom] and changes nothing exactly when the field or value is over its cap,
    the tuples would pass 22 bytes, or a ninth field would come; a hash made of
    one pair is an empty one with the pair set. *)
Theorem small_hash_is_a_map (ops : list small_op) (field value : list byte) :
  with_one field value = (o ← try_set new field value; Ret (match fst o with Added => Some (snd o) | _ => None end)) /\
  exists s, small_run new ops = Ret s /\ let ps := fold_left op_pairs ops [] in let m : gmap (list byte) (list byte) := list_to_map ps in
    iter s = Ret ps /\ len s = Z.of_nat (base.size m) /\ get s field = Ret (m !! field) /\ promote s = Ret m /\
    exists s' s'', try_set s field value = Ret (fst (set_pairs ps field value), s') /\
      (fst (set_pairs ps field value) = NoRoom -> promote s' = Ret m) /\
      (fst (set_pairs ps field value) <> NoRoom -> promote s' = Ret (<[field := value]> m)) /\
      try_remove s field = Ret (bool_decide (is_Some (m !! field)), s'') /\ promote s'' = Ret (delete field m).
Proof.
  split; [apply with_one_ok|]. destruct (small_ops_ok ops _ _ new_holds) as (s & E & H). exists s. split; [done|]. intros ps m. fold ps in H.
  pose proof small_promote_ok as Pr.
  assert (Nd : NoDup ps.*1) by apply H.
  assert (Fd : m !! field = snd ∘ snd <$> find_field ps field) by (symmetry; by apply find_field_map).
  split; [by apply small_iter_ok|]. split; [|split; [by rewrite Fd; apply small_get_ok|split; [by apply Pr|]]].
  { unfold len. rewrite (h_count _ _ H). unfold m. by rewrite size_pairs. }
  destruct (try_set_ok s ps field value H) as (s' & Es & H'). destruct (try_remove_ok s ps field H) as (s'' & Er & H''). exists s', s''. split; [done|].
  rewrite (Pr _ _ H'), (Pr _ _ H''), Er. unfold set_pairs, remove_pairs. rewrite Fd. split; [|split; [|split]].
  - destruct (too_wide field value); [done|]. destruct (find_field ps field) as [[i p]|]; [by destruct (_ <? _)|by destruct (_ || _)].
  - destruct (too_wide field value); [done|]. destruct (find_field ps field) as [[i p]|] eqn:F.
    + destruct (_ <? _); [done|]. intros _. f_equal. apply find_split in F as (Ef & Ep & Hi). cbn [snd]. rewrite insert_take_drop by done. unfold m. rewrite Ep at 3. subst field.
      rewrite Ep in Nd. rewrite fmap_app, fmap_cons in Nd. apply list.NoDup_app in Nd as (_ & N2 & _). rewrite !list_to_map_app. destruct p as [k v]. cbn [fst snd]. rewrite !list_to_map_cons.
      rewrite <- !insert_union_r; [by rewrite insert_insert_eq| |]; (apply not_elem_of_list_to_map_1; intros Hk; apply (N2 _ Hk); by left).
    + destruct (_ || _); [done|]. intros _. f_equal. cbn [snd]. rewrite list_to_map_app. rewrite list_to_map_cons, list_to_map_nil, <- insert_union_r; [by rewrite (right_id_L ∅ (∪))|]. exact Fd.
  - destruct (find_field ps field) as [[i p]|]; cbn [fst fmap option_fmap option_map]; [by rewrite bool_decide_true by done|by rewrite bool_decide_false by by intros []].
  - destruct (find_field ps field) as [[i p]|] eqn:F; cbn [snd]; f_equal.
    + apply find_split in F as (Ef & Ep & Hi). rewrite delete_take_drop. unfold m. rewrite Ep at 3. rewrite Ep in Nd. rewrite fmap_app, fmap_cons in Nd.
      apply list.NoDup_app in Nd as (_ & N2 & N3). apply NoDup_cons in N3 as [N3 _]. rewrite !list_to_map_app. destruct p as [k v]. cbn [fst snd] in *. rewrite list_to_map_cons. subst k.
      rewrite delete_union, delete_insert_eq. rewrite !delete_id; [done| |]; apply not_elem_of_list_to_map_1; [done|]. intros Hk. apply (N2 _ Hk). by left.
    + rewrite delete_id; [done|exact Fd].
Qed.
