(* ===== verification/TierCodec.v ===== *)
(** * The cold values' codec ([crates/kevy-store/src/tier_codec.rs],
    [packed_row/store_ops.rs])

    What a demoted value is written as: a bulk string as its bytes, a hash in any
    of its three forms as a count and length-prefixed pairs, the count's high bit
    set for a row that was packed.  Decoding rebuilds a value on the table shapes
    the store knows.  The theorem is the round trip, for every form, every order
    the table lists its fields in, and every set of shapes.

    A hash table is the finite map it holds; the order it iterates in is a
    parameter.  Its segmented form is the same map. *)

From Stdlib Require Import ZArith Lia Bool Strings.Byte Strings.String.
From stdpp Require Import base tactics list numbers gmap.
From S2P Require Import Prelude FindCrlf Buffers Encode Huff StoreUtil Store StoreString PackedRow SmallHash.

#[local] Open Scope list_scope.
#[local] Open Scope Z_scope.

Definition COLD_TAG_STRING : Z := 1.
Definition COLD_TAG_HASH : Z := 2.
Definition PACKED_FLAG : Z := 2 ^ 31.

Abbreviation table := (gmap (list byte) (list byte)).

(** A value, as far as the codec looks into it: a string, a hash in one of its
    forms, or another type. *)
Inductive CValue :=
| VScalar (v : Value)
| VHash (h : table)
| VSegHash (h : table)
| VSmallHashInline (s : SmallHashData)
| VPackedRow (r : PackedRow)
| VOther.

Inductive codec_error := UnknownTag | OffsetOverflow | TruncatedLength | TruncatedChunk | TrailingBytes | OutOfFuel.

Definition decoded (A : Type) : Type := codec_error + A.

#[global] Instance decoded_ret : MRet decoded := fun A a => inr a.
#[global] Instance decoded_bind : MBind decoded := fun A B f m => match m with inl e => inl e | inr a => f a end.

(** ** Encoding *)

Definition put_chunk (out bytes : list byte) : list byte := out ++ to_le_bytes 4 (blen bytes) ++ bytes.

Definition put_pair (out : list byte) (p : list byte * list byte) : list byte := put_chunk (put_chunk out (fst p)) (snd p).

Section Codec.
Context (order : table -> list (list byte * list byte)).

Definition encode (v : CValue) : exec (option (list byte * Z)) :=
  match v with
  | VScalar (ArcBulk a) => Ret (Some (a, COLD_TAG_STRING))
  | VHash h =>
      let out := to_le_bytes 4 (Z.of_nat (base.size h)) in
      Ret (Some (fold_left put_pair (order h) out, COLD_TAG_HASH))
  | VPackedRow r =>
      n ← PackedRow.len r;
      let out := to_le_bytes 4 (Z.lor (as_u32 n) PACKED_FLAG) in
      fs ← PackedRow.fields r;
      Ret (Some (fold_left put_pair fs out, COLD_TAG_HASH))
  | VSmallHashInline h =>
      let out := to_le_bytes 4 (SmallHash.len h) in
      ps ← SmallHash.iter h;
      Ret (Some (fold_left put_pair ps out, COLD_TAG_HASH))
  | _ => Ret None
  end.

End Codec.

(** ** Decoding *)

Inductive RowForm := AsStored | Declared.

#[global] Instance RowForm_eq_dec : EqDecision RowForm.
Proof. solve_decision. Defined.

Definition read_u32 (p : list byte) (cur : Z) : decoded (Z * Z) :=
  let e := cur + 4 in
  if u64_max <? e then inl OffsetOverflow
  else if blen p <? e then inl TruncatedLength
  else inr (from_le_bytes (slice p cur e), e).

Definition read_chunk (p : list byte) (cur : Z) : decoded (list byte * Z) :=
  '(len, cur) ← read_u32 p cur;
  let e := cur + len in
  if u64_max <? e then inl OffsetOverflow
  else if blen p <? e then inl TruncatedChunk
  else inr (slice p cur e, e).

(** The loop over [n] pairs; a pair takes eight bytes or more. *)
Fixpoint read_pairs (fuel : nat) (n : Z) (p : list byte) (cur : Z) : decoded (list (list byte * list byte) * Z) :=
  if n <=? 0 then inr ([], cur)
  else match fuel with
       | O => inl OutOfFuel
       | S fuel =>
           '(f, cur) ← read_chunk p cur;
           '(v, cur) ← read_chunk p cur;
           '(ps, cur) ← read_pairs fuel (n - 1) p cur;
           inr ((f, v) :: ps, cur)
       end.

Definition pairs_fit (n payload_len : Z) : Z := Z.min n (payload_len / 8 + 1).

(** Whether every field of the row is a column of [shape]. *)
Definition covers (shape : ColumnNames) (ps : list (list byte * list byte)) : bool :=
  forallb (fun p => existsb (fun c => bool_decide (c = fst p)) shape) ps.

Definition find_pair (ps : list (list byte * list byte)) (name : list byte) : option (list byte) :=
  snd <$> find (fun p => bool_decide (fst p = name)) ps.

Definition pack_on_shape (ps : list (list byte * list byte)) (shapes : list ColumnNames) : exec (option PackedRow) :=
  match find (fun s => covers s ps) shapes with
  | None => Ret None
  | Some names => build names (map (find_pair ps) names)
  end.

Definition rebuild_packed (ps : list (list byte * list byte)) (shapes : list ColumnNames) : exec (option PackedRow) :=
  if existsb (fun s => covers s ps) shapes then pack_on_shape ps shapes
  else build (map fst ps) (map (fun p => Some (snd p)) ps).

Definition decode_hash (p : list byte) (shapes : list ColumnNames) (form : RowForm) : exec (decoded CValue) :=
  match ('(raw, cur) ← read_u32 p 0;
         let n := Z.land raw (PACKED_FLAG - 1) in
         '(ps, cur) ← read_pairs (S (length p)) n p cur;
         if negb (cur =? blen p) then inl TrailingBytes else inr (raw, ps)) : decoded _ with
  | inl e => Ret (inl e)
  | inr (raw, ps) =>
      r1 ← (if negb (Z.land raw PACKED_FLAG =? 0) then rebuild_packed ps shapes else Ret None);
      match r1 with
      | Some r => Ret (inr (VPackedRow r))
      | None =>
          r2 ← (if bool_decide (form = Declared) then pack_on_shape ps shapes else Ret None);
          match r2 with
          | Some r => Ret (inr (VPackedRow r))
          | None => Ret (inr (VHash (fold_left (fun h p => <[fst p := snd p]> h) ps ∅)))
          end
      end
  end.

Definition decode_as (tag : Z) (payload : Vec) (shapes : list ColumnNames) (form : RowForm) : exec (decoded CValue) :=
  if tag =? COLD_TAG_STRING then Ret (inr (VScalar (pick_value_for_set_owned payload)))
  else if tag =? COLD_TAG_HASH then decode_hash (vec_bytes payload) shapes form
  else Ret (inl UnknownTag).

Definition decode (tag : Z) (payload : Vec) (shapes : list ColumnNames) : exec (decoded CValue) := decode_as tag payload shapes AsStored.

(** ** Packing a hot row ([store_ops.rs]) *)

Definition declared_columns (v : CValue) (names : ColumnNames) : exec (option (list (option (list byte)))) :=
  let from_table (h : table) : exec (option (list (option (list byte)))) :=
    let n := Z.of_nat (base.size h) in
    if blen names <? n then Ret None
    else
      let cs := map (fun c => h !! c) names in
      Ret (if blen (omap Datatypes.id cs) =? n then Some cs else None) in
  match v with
  | VHash h | VSegHash h => from_table h
  | VSmallHashInline s =>
      let n := SmallHash.len s in
      if blen names <? n then Ret None
      else
        cs ← collect (fun i => match Prelude.get names i with Some c => SmallHash.get s c | None => Panic end) 0 (length names);
        Ret (if blen (omap Datatypes.id cs) =? n then Some cs else None)
  | _ => Ret None
  end.

(** The value [pack_row] leaves, or [None] where the row keeps its form. *)
Definition pack_value (v : CValue) (names : ColumnNames) : exec (option CValue) :=
  o ← declared_columns v names;
  match o with
  | None => Ret None
  | Some cs => r ← build names cs; Ret (match r with Some r => Some (VPackedRow r) | None => None end)
  end.

(** ** What a value is

    The bytes a string reads as, the pairs of a hash. *)

Inductive meaning := MString (b : list byte) | MHash (h : table) | MOther.

Inductive means : CValue -> meaning -> Prop :=
| means_string v b : string_bytes v = Store.Ok b -> means (VScalar v) (MString b)
| means_table h : means (VHash h) (MHash h)
| means_seg h : means (VSegHash h) (MHash h)
| means_small s ps : holds s ps -> means (VSmallHashInline s) (MHash (list_to_map ps))
| means_packed r cs : row_of r cs -> NoDup (cols r) -> means (VPackedRow r) (MHash (list_to_map (omap present (zip (cols r) cs))))
| means_other : means VOther MOther.

(** A string stored as SET stores it reads as the bytes that were set. *)
Lemma picked_bytes p : string_bytes (pick_value_for_set_owned p) = Store.Ok (vec_bytes p).
Proof.
  unfold pick_value_for_set_owned. destruct (parse_canonical_i64 (vec_bytes p)) as [n|] eqn:E.
  - apply parse_canonical_iff in E as [E R]. cbn [string_bytes]. rewrite format_i64_ok by exact R. by rewrite E.
  - destruct (_ <? _); [done|]. cbn [string_bytes]. f_equal. unfold from_vec. by destruct (_ <=? _).
Qed.

(** ** The bytes of the pairs *)

Definition chunk (b : list byte) : list byte := to_le_bytes 4 (blen b) ++ b.
Definition chunks (ps : list (list byte * list byte)) : list byte := concat (map (fun p => chunk (fst p) ++ chunk (snd p)) ps).

Lemma chunk_blen b : blen (chunk b) = 4 + blen b.
Proof. unfold chunk. by rewrite blen_app, to_le_bytes_blen. Qed.

Lemma chunks_cons p ps : chunks (p :: ps) = chunk (fst p) ++ chunk (snd p) ++ chunks ps.
Proof. unfold chunks. cbn [map concat]. by rewrite <- app_assoc. Qed.

Lemma put_pairs ps : forall out, fold_left put_pair ps out = out ++ chunks ps.
Proof.
  induction ps as [|p ps IH]; intros out; cbn [fold_left]; [by rewrite app_nil_r|]. rewrite IH, chunks_cons. unfold put_pair, put_chunk, chunk. by rewrite <- !app_assoc.
Qed.

Lemma chunks_long ps : 8 * blen ps <= blen (chunks ps).
Proof. induction ps as [|p ps IH]; [done|]. rewrite chunks_cons, !blen_app, !chunk_blen, blen_cons. blen_pos. lia. Qed.

Lemma read_chunk_ok pre b post : blen (pre ++ chunk b ++ post) < 2 ^ 32 -> read_chunk (pre ++ chunk b ++ post) (blen pre) = inr (b, blen (pre ++ chunk b)).
Proof.
  intros Hl. rewrite !blen_app, chunk_blen in Hl. unfold read_chunk, read_u32. rewrite !blen_app, chunk_blen. blen_pos. unfold u64_max.
  destruct (Z.ltb_spec (2 ^ 64 - 1) (blen pre + 4)); [lia|]. destruct (Z.ltb_spec (blen pre + (4 + blen b + blen post)) (blen pre + 4)); [lia|].
  assert (E1 : slice (pre ++ chunk b ++ post) (blen pre) (blen pre + 4) = to_le_bytes 4 (blen b)).
  { unfold chunk. rewrite <- app_assoc. pose proof (slice_mid pre (to_le_bytes 4 (blen b)) (b ++ post)) as M. by rewrite to_le_bytes_blen in M. }
  rewrite E1, from_to_u32 by lia. cbn [mbind decoded_bind]. destruct (Z.ltb_spec (2 ^ 64 - 1) (blen pre + 4 + blen b)); [lia|].
  destruct (Z.ltb_spec (blen pre + (4 + blen b + blen post)) (blen pre + 4 + blen b)); [lia|]. f_equal. f_equal; [|lia].
  unfold chunk. replace (pre ++ (to_le_bytes 4 (blen b) ++ b) ++ post) with ((pre ++ to_le_bytes 4 (blen b)) ++ b ++ post) by by rewrite <- !app_assoc.
  replace (blen pre + 4) with (blen (pre ++ to_le_bytes 4 (blen b))) by (by rewrite blen_app, to_le_bytes_blen). apply slice_mid.
Qed.

Lemma read_pairs_ok ps : forall fuel pre, (length ps <= fuel)%nat -> blen (pre ++ chunks ps) < 2 ^ 32 ->
  read_pairs fuel (blen ps) (pre ++ chunks ps) (blen pre) = inr (ps, blen (pre ++ chunks ps)).
Proof.
  induction ps as [|[f v] ps IH]; intros fuel pre Hf Hl; [destruct fuel; cbn; by rewrite app_nil_r|]. destruct fuel as [|fuel]; cbn [read_pairs].
  { cbn in Hf. lia. }
  rewrite blen_cons. destruct (Z.leb_spec (1 + blen ps) 0); [blen_pos; lia|]. rewrite chunks_cons in *. cbn [fst snd] in *.
  rewrite read_chunk_ok by done. cbn [mbind decoded_bind]. rewrite app_assoc in *. rewrite read_chunk_ok by done. cbn [mbind decoded_bind].
  rewrite app_assoc in *. replace (1 + blen ps - 1) with (blen ps) by lia. rewrite IH by (cbn in Hf; lia || done). done.
Qed.

(** *** Reading anything *)

Lemma read_chunk_moves p cur b c : 0 <= cur -> read_chunk p cur = inr (b, c) -> cur + 4 <= c <= blen p.
Proof.
  intros Hc. unfold read_chunk, read_u32. destruct (_ <? _); [discriminate|]. destruct (Z.ltb_spec (blen p) (cur + 4)); [discriminate|]. cbn [mbind decoded_bind].
  pose proof (Buffers.from_le_bytes_nonneg (slice p cur (cur + 4))). destruct (_ <? _); [discriminate|].
  destruct (Z.ltb_spec (blen p) (cur + 4 + from_le_bytes (slice p cur (cur + 4)))); [discriminate|]. intros [= _ <-]. lia.
Qed.

Lemma read_chunk_fuel p cur : read_chunk p cur <> inl OutOfFuel.
Proof. unfold read_chunk, read_u32. destruct (_ <? _); [done|]. destruct (_ <? _); [done|]. cbn [mbind decoded_bind]. destruct (_ <? _); [done|]. by destruct (_ <? _). Qed.

Lemma read_pairs_total fuel : forall n p cur, 0 <= cur <= blen p -> blen p - cur < 8 * Z.of_nat fuel ->
  match read_pairs fuel n p cur with
  | inl e => e <> OutOfFuel
  | inr (ps, c) => cur + 8 * blen ps <= c <= blen p /\ blen ps = Z.max n 0
  end.
Proof.
  induction fuel as [|fuel IH]; intros n p cur Hc Hf; cbn [read_pairs]; destruct (Z.leb_spec n 0); try (change (blen []) with 0; lia).
  destruct (read_chunk p cur) as [e|[f c1]] eqn:E1; cbn [mbind decoded_bind]; [intros ->; by apply read_chunk_fuel in E1|].
  apply read_chunk_moves in E1; [|lia]. destruct (read_chunk p c1) as [e|[v c2]] eqn:E2; cbn [mbind decoded_bind]; [intros ->; by apply read_chunk_fuel in E2|].
  apply read_chunk_moves in E2; [|lia]. specialize (IH (n - 1) p c2 ltac:(lia) ltac:(lia)). destruct (read_pairs fuel (n - 1) p c2) as [e|[ps c3]]; cbn [mbind decoded_bind]; [done|].
  rewrite blen_cons. lia.
Qed.

(** ** Packing keeps the pairs *)

Lemma find_pair_map ps name : find_pair ps name = (list_to_map ps : table) !! name.
Proof.
  unfold find_pair. induction ps as [|[f v] ps IH]; [done|]. cbn [find fst]. rewrite list_to_map_cons. case_bool_decide as E; cbn [fmap option_fmap option_map snd].
  - subst. by rewrite lookup_insert_eq.
  - by rewrite lookup_insert_ne.
Qed.

Lemma omap_cons {A B} (f : A -> option B) x l : omap f (x :: l) = match f x with Some y => y :: omap f l | None => omap f l end.
Proof. done. Qed.

(** A row over [names] that asks [g] for each column. *)
Lemma present_lookup (g : list byte -> option (list byte)) names k :
  (list_to_map (omap present (zip names (map g names))) : table) !! k = if decide (k ∈ names) then g k else None.
Proof.
  induction names as [|n names IH]; [by rewrite decide_False by apply not_elem_of_nil|]. cbn [map zip zip_with]. rewrite omap_cons.
  unfold present at 1. cbn [fst snd]. destruct (g n) as [v|] eqn:E; cbn [fmap option_fmap option_map].
  - rewrite list_to_map_cons. destruct (decide (k = n)) as [->|N]; [by rewrite lookup_insert_eq, decide_True by (by left)|].
    rewrite lookup_insert_ne by done. rewrite IH. destruct (decide (k ∈ names)); [by rewrite decide_True by by right|]. rewrite decide_False; [done|]. by intros [|]%elem_of_cons.
  - rewrite IH. destruct (decide (k ∈ names)); [by rewrite decide_True by by right|]. destruct (decide (k ∈ n :: names)) as [[->|]%elem_of_cons|]; done.
Qed.

Lemma covers_elem names ps : covers names ps = true -> forall k, k ∈ ps.*1 -> k ∈ names.
Proof.
  unfold covers. intros C k (p & -> & Hp)%list_elem_of_fmap. rewrite forallb_forall in C. specialize (C p). rewrite existsb_exists in C.
  destruct C as (c & Hc & E); [by apply list_elem_of_In|]. apply bool_decide_eq_true in E as <-. by apply list_elem_of_In.
Qed.

Lemma pack_on_shape_ok ps shapes : Forall NoDup shapes ->
  exists o, pack_on_shape ps shapes = Ret o /\ forall r, o = Some r -> means (VPackedRow r) (MHash (list_to_map ps)).
Proof.
  intros Ns. unfold pack_on_shape. destruct (find _ shapes) as [names|] eqn:F; [|by exists None]. apply find_some in F as [Hn C].
  apply list_elem_of_In in Hn. pose proof (proj1 (list.Forall_forall _ _) Ns names Hn) as Nd.
  destruct (build_ok names (map (find_pair ps) names)) as [(_ & _ & b & -> & R)|[_ ->]]; [unfold blen; by rewrite length_map| |by exists None].
  eexists. split; [done|]. intros r [= <-]. replace (list_to_map ps : table) with (list_to_map (omap present (zip names (map (find_pair ps) names))) : table); [by constructor|].
  apply map_eq. intros k. rewrite present_lookup, find_pair_map. destruct (decide (k ∈ names)) as [|N]; [done|]. symmetry. apply not_elem_of_list_to_map_1.
  intros Hk. by apply N, (covers_elem names ps).
Qed.

Lemma own_columns ps : omap present (zip (map fst ps) (map (fun p => Some (snd p)) ps)) = ps.
Proof. induction ps as [|[f v] ps IH]; [done|]. cbn [map zip zip_with]. rewrite omap_cons. cbn. by rewrite IH. Qed.

Lemma rebuild_packed_ok ps shapes : Forall NoDup shapes -> NoDup ps.*1 ->
  exists o, rebuild_packed ps shapes = Ret o /\ forall r, o = Some r -> means (VPackedRow r) (MHash (list_to_map ps)).
Proof.
  intros Ns Nd. unfold rebuild_packed. destruct (existsb _ shapes); [by apply pack_on_shape_ok|].
  destruct (build_ok (map fst ps) (map (fun p => Some (snd p)) ps)) as [(_ & _ & b & -> & R)|[_ ->]]; [unfold blen; by rewrite !length_map| |by exists None].
  eexists. split; [done|]. intros r [= <-]. rewrite <- (own_columns ps) at 2. by constructor.
Qed.

(** ** Decoding what was encoded *)

Lemma raw_count n flag : 0 <= n < 2 ^ 31 -> flag = 0 \/ flag = PACKED_FLAG ->
  Z.land (Z.lor n flag) (PACKED_FLAG - 1) = n /\ 0 <= Z.lor n flag < 2 ^ 32.
Proof.
  intros Hn Hf. assert (Hd : Z.land n flag = 0).
  { destruct Hf as [->| ->]; [apply Z.land_0_r|]. unfold PACKED_FLAG. apply Z.bits_inj'. intros m Hm. rewrite Z.land_spec, Z.bits_0, Z.pow2_bits_eqb by lia.
    destruct (Z.eqb_spec 31 m) as [<-|]; [|apply andb_false_r]. rewrite andb_true_r. destruct (Z.eq_dec n 0) as [->|]; [apply Z.bits_0|].
    apply Z.bits_above_log2; [lia|]. apply Z.log2_lt_pow2; lia. }
  rewrite <- Z.lxor_lor, <- Z.add_nocarry_lxor by done. unfold PACKED_FLAG in *. split; [|lia].
  change (2 ^ 31 - 1) with (Z.ones 31). rewrite Z.land_ones by lia. destruct Hf as [->| ->]; [rewrite Z.add_0_r; by apply Z.mod_small|].
  rewrite <- (Z.mul_1_l (2 ^ 31)) at 1. rewrite Z.mod_add by lia. by apply Z.mod_small.
Qed.

Lemma decode_hash_ok n flag ps shapes form : flag = 0 \/ flag = PACKED_FLAG -> n = blen ps -> Forall NoDup shapes -> NoDup ps.*1 ->
  blen (to_le_bytes 4 (Z.lor n flag) ++ chunks ps) < 2 ^ 32 ->
  exists v, decode_hash (to_le_bytes 4 (Z.lor n flag) ++ chunks ps) shapes form = Ret (inr v) /\ means v (MHash (list_to_map ps)).
Proof.
  intros Hf -> Ns Nd Hl. pose proof (chunks_long ps) as Lc. pose proof Hl as Hl'. rewrite blen_app, to_le_bytes_blen in Hl. blen_pos.
  destruct (raw_count (blen ps) flag ltac:(lia) Hf) as [Rc Rr]. set (raw := Z.lor (blen ps) flag) in *. unfold decode_hash, read_u32 at 1.
  change (0 + 4) with 4. change (u64_max <? 4) with false. cbv iota. rewrite blen_app, to_le_bytes_blen. destruct (Z.ltb_spec (Z.of_nat 4 + blen (chunks ps)) 4); [lia|].
  rewrite le32_head by done. cbn [mbind decoded_bind]. rewrite Rc.
  pose proof (read_pairs_ok ps (S (length (to_le_bytes 4 raw ++ chunks ps))) (to_le_bytes 4 raw)) as P. rewrite to_le_bytes_blen in P. change (Z.of_nat 4) with 4 in P.
  rewrite P; [|unfold blen in *; rewrite length_app; lia|done]. cbn [mbind decoded_bind]. rewrite blen_app, to_le_bytes_blen, Z.eqb_refl. cbn [negb].
  assert (R1 : exists o, (if negb (Z.land raw PACKED_FLAG =? 0) then rebuild_packed ps shapes else Ret None) = Ret o /\
    forall r, o = Some r -> means (VPackedRow r) (MHash (list_to_map ps))) by (destruct (negb _); [by apply rebuild_packed_ok|by exists None]).
  assert (R2 : exists o, (if bool_decide (form = Declared) then pack_on_shape ps shapes else Ret None) = Ret o /\
    forall r, o = Some r -> means (VPackedRow r) (MHash (list_to_map ps))) by (destruct (bool_decide _); [by apply pack_on_shape_ok|by exists None]).
  destruct R1 as ([r|] & -> & M1); cbn [mbind exec_bind]; [exists (VPackedRow r); split; [done|by apply M1]|].
  destruct R2 as ([r|] & -> & M2); cbn [mbind exec_bind]; [exists (VPackedRow r); split; [done|by apply M2]|].
  eexists. split; [done|]. rewrite fold_insert_map by done. rewrite (right_id_L ∅ (∪)). constructor.
Qed.

(** *** The pairs of each form *)

Lemma fields_NoDup names cs : NoDup names -> NoDup (omap present (zip names cs)).*1 /\ forall k, k ∈ (omap present (zip names cs)).*1 -> k ∈ names.
Proof.
  revert cs. induction names as [|n names IH]; intros cs Nd; [by split; [apply NoDup_nil_2|]|]. apply NoDup_cons in Nd as [N1 N2].
  destruct cs as [|c cs]; cbn [zip zip_with]; [split; [apply NoDup_nil_2|by intros k ?%not_elem_of_nil]|]. destruct (IH cs N2) as [A B]. rewrite omap_cons.
  unfold present at 1. cbn [fst snd]. destruct c as [v|]; cbn [fmap option_fmap option_map].
  - rewrite fmap_cons. split; [|intros k [->|Hk]%elem_of_cons; [by left|right; by apply B]]. apply NoDup_cons. split; [|done]. intros H. by apply N1, B.
  - unfold present in A, B. split; [done|]. intros k Hk. right. by apply B.
Qed.

Lemma present_count {A} (cs : list (option A)) : blen (omap Datatypes.id cs) <= blen cs.
Proof. induction cs as [|[v|] cs IH]; [done| |]; rewrite omap_cons; cbn [Datatypes.id]; rewrite ?blen_cons; lia. Qed.

Lemma fields_count names cs : length names = length cs -> blen (omap present (zip names cs)) = blen (omap Datatypes.id cs).
Proof.
  revert names. induction cs as [|c cs IH]; intros [|n names] L; try done. cbn [zip zip_with]. rewrite !omap_cons. unfold present at 1. cbn [fst snd].
  injection L as L. specialize (IH names L). destruct c as [v|]; cbn; [|exact IH]. rewrite !blen_cons. by rewrite IH.
Qed.

(** ** Theorems *)

Lemma encode_means order v d p tag : (forall h, order h ≡ₚ map_to_list h) -> means v d -> encode order v = Ret (Some (p, tag)) ->
  match d with
  | MString b => p = b /\ tag = COLD_TAG_STRING
  | MHash h => exists ps flag, p = to_le_bytes 4 (Z.lor (blen ps) flag) ++ chunks ps /\ tag = COLD_TAG_HASH /\
      (flag = 0 \/ flag = PACKED_FLAG) /\ NoDup ps.*1 /\ h = list_to_map ps
  | MOther => False
  end.
Proof.
  intros Ho M E. destruct M as [v b Hb|h|h|s ps H|r cs R Nd|]; cbn [encode] in E; [|  |discriminate E| | |discriminate E].
  - destruct v as [| |a|]; try discriminate E. injection E as <- <-. cbn in Hb. by injection Hb.
  - injection E as <- <-. exists (order h), 0. rewrite put_pairs, Z.lor_0_r. pose proof (Ho h) as P. split; [|split; [done|split; [by left|split]]].
    + unfold blen. by rewrite (Permutation_length P), length_map_to_list.
    + rewrite P. apply NoDup_fst_map_to_list.
    + etrans; [symmetry; apply list_to_map_to_list|]. symmetry. apply list_to_map_proper; [|done]. rewrite P. apply NoDup_fst_map_to_list.
  - rewrite (small_iter_ok _ _ H) in E. cbn [mbind exec_bind] in E. injection E as <- <-. exists ps, 0. rewrite put_pairs, Z.lor_0_r. unfold SmallHash.len. rewrite (h_count _ _ H).
    split; [done|]. split; [done|]. split; [by left|]. split; [apply H|done].
  - pose proof R as (Hl & Hn & _). rewrite (len_ok _ _ R) in E. cbn [mbind exec_bind] in E. rewrite (fields_ok _ _ R) in E. cbn [mbind exec_bind] in E. injection E as <- <-.
    exists (omap present (zip (cols r) cs)), PACKED_FLAG.
    assert (Hc : blen (omap present (zip (cols r) cs)) = blen (omap Datatypes.id cs)) by (apply fields_count; unfold blen in Hl; lia).
    rewrite put_pairs, Hc. pose proof (present_count cs) as Lo. rewrite as_u32_id by (unfold blen in *; lia).
    split; [done|]. split; [done|]. split; [by right|]. split; [by apply fields_NoDup|done].
Qed.

(** Encoding does not panic. *)
Lemma encode_runs order v d : (forall h, order h ≡ₚ map_to_list h) -> means v d -> exists o, encode order v = Ret o.
Proof.
  intros Ho M. destruct M as [v b Hb|h|h|s ps H|r cs R Nd|]; cbn [encode]; [by destruct v; eexists|by eexists|by eexists| | |by eexists].
  - rewrite (small_iter_ok _ _ H). by eexists.
  - rewrite (len_ok _ _ R). cbn [mbind exec_bind]. rewrite (fields_ok _ _ R). by eexists.
Qed.

Lemma decode_encoded order v d p tag cap shapes form : (forall h, order h ≡ₚ map_to_list h) -> means v d -> encode order v = Ret (Some (p, tag)) ->
  blen p < 2 ^ 32 -> Forall NoDup shapes -> exists v', decode_as tag (mkVec p cap) shapes form = Ret (inr v') /\ means v' d.
Proof.
  intros Ho Hv He Hp Hs. pose proof (encode_means order v d p tag Ho Hv He) as E. destruct d as [b|h|]; [| |done].
  - destruct E as [-> ->]. unfold decode_as. rewrite Z.eqb_refl. eexists. split; [done|]. constructor. apply picked_bytes.
  - destruct E as (ps & flag & -> & -> & Hf & Nd & ->). change (decode_as COLD_TAG_HASH ?x shapes form) with (decode_hash (vec_bytes x) shapes form). by apply decode_hash_ok.
Qed.

(** C28: A value that is demoted reads back as the value it was: for a bulk string
    and for a hash in each of its forms, in whatever order its table lists the
    fields, on every set of table shapes and in both decoding modes, decoding
    what was encoded (less than 4 GiB) gives the same bytes or the same pairs. *)
Theorem cold_codec_round_trip (order : table -> list (list byte * list byte)) (v : CValue) (d : meaning) (p : list byte) (tag cap : Z)
  (shapes : list ColumnNames) (form : RowForm)
  (Ho : forall h, order h ≡ₚ map_to_list h) (Hv : means v d) (He : encode order v = Ret (Some (p, tag))) (Hp : blen p < 2 ^ 32) (Hs : Forall NoDup shapes) :
  exists v', decode_as tag (mkVec p cap) shapes form = Ret (inr v') /\ means v' d.
Proof. by eapply decode_encoded. Qed.

Lemma cold_codec_round_trip_witness : exists v',
  decode_as COLD_TAG_HASH (to_vec (to_le_bytes 4 1 ++ chunk (bs "dept") ++ chunk (bs "eng"))) [[bs "id"; bs "dept"]] Declared = Ret (inr v') /\
  means v' (MHash {[bs "dept" := bs "eng"]}).
Proof.
  apply (cold_codec_round_trip map_to_list (VHash {[bs "dept" := bs "eng"]})); [done|constructor| |done|].
  - vm_compute. reflexivity.
  - constructor; [|constructor]. apply (bool_decide_unpack _). vm_compute. exact I.
Defined.

(** Decoding any payload under any tag returns a value or an error, with no
    panic and within the loop's fuel; where it reads the pairs, the reservation
    was for every one of them. *)
Theorem decode_is_safe (tag cap : Z) (p : list byte) (shapes : list ColumnNames) (form : RowForm) :
  exists o, decode_as tag (mkVec p cap) shapes form = Ret o /\ o <> inl OutOfFuel /\
    forall n ps c, read_pairs (S (length p)) n p 4 = inr (ps, c) -> 4 <= blen p -> 0 <= n -> blen ps = n /\ pairs_fit n (blen p) = n.
Proof.
  assert (Fit : forall n ps c, read_pairs (S (length p)) n p 4 = inr (ps, c) -> 4 <= blen p -> 0 <= n -> blen ps = n /\ pairs_fit n (blen p) = n).
  { intros n ps c E Hp Hn. pose proof (read_pairs_total (S (length p)) n p 4 ltac:(lia) ltac:(unfold blen; lia)) as T. rewrite E in T. destruct T as [T1 T2].
    split; [lia|]. unfold pairs_fit. pose proof (Z.div_mod (blen p) 8 ltac:(lia)). pose proof (Z.mod_pos_bound (blen p) 8 ltac:(lia)). lia. }
  assert (Pk : forall ps, exists o, pack_on_shape ps shapes = Ret o).
  { intros ps. unfold pack_on_shape. destruct (find _ _) as [names|]; [|by exists None].
    destruct (build_ok names (map (find_pair ps) names)) as [(_ & _ & b & -> & _)|[_ ->]]; [unfold blen; by rewrite length_map|by eexists|by eexists]. }
  assert (Rb : forall ps, exists o, rebuild_packed ps shapes = Ret o).
  { intros ps. unfold rebuild_packed. destruct (existsb _ _); [done|].
    destruct (build_ok (map fst ps) (map (fun p => Some (snd p)) ps)) as [(_ & _ & b & -> & _)|[_ ->]]; [unfold blen; by rewrite !length_map|by eexists|by eexists]. }
  unfold decode_as. destruct (tag =? COLD_TAG_STRING); [by eexists|]. destruct (tag =? COLD_TAG_HASH); [|by eexists]. cbn [vec_bytes]. unfold decode_hash, read_u32 at 1.
  change (u64_max <? 0 + 4) with false. cbv iota. destruct (Z.ltb_spec (blen p) (0 + 4)); cbn [mbind decoded_bind]; [by eexists|]. change (0 + 4) with 4 in *.
  set (raw := from_le_bytes _). pose proof (read_pairs_total (S (length p)) (Z.land raw (PACKED_FLAG - 1)) p 4 ltac:(lia) ltac:(unfold blen; lia)) as T.
  destruct (read_pairs _ _ p 4) as [e|[ps c]]; cbn [mbind decoded_bind]; [eexists; split; [done|]; split; [congruence|done]|]. destruct (negb (c =? blen p)); [by eexists|].
  destruct (Rb ps) as [o1 E1], (Pk ps) as [o2 E2]. rewrite E1, E2. destruct (negb (Z.land raw PACKED_FLAG =? 0)); cbn [mbind exec_bind]; [destruct o1; [by eexists|]|];
    (destruct (bool_decide (form = Declared)); cbn [mbind exec_bind]; [destruct o2; by eexists|by eexists]).
Qed.

(** *** Packing a hot row *)

(** The columns a row's table has a value for, counted. *)
Lemma columns_cover (h : table) names : NoDup names -> blen (omap Datatypes.id (map (fun c => h !! c) names)) = Z.of_nat (base.size h) ->
  forall k, is_Some (h !! k) -> k ∈ names.
Proof.
  intros Nd E k Hk. set (l := filter (fun c => is_Some (h !! c)) names).
  assert (Ll : length l = length (omap Datatypes.id (map (fun c => h !! c) names))).
  { unfold l. clear. induction names as [|n names IH]; [done|]. cbn [map]. rewrite filter_cons, omap_cons. unfold Datatypes.id at 1.
    destruct (h !! n) as [v|] eqn:E; destruct (decide _) as [[x Hx]|N]; cbn [length]; [by rewrite IH|by destruct N; eexists|done|done]. }
  assert (Nl : NoDup l) by by apply NoDup_filter. assert (Sub : (list_to_set l : gset (list byte)) ⊆ dom h).
  { intros c Hc. apply elem_of_list_to_set, list_elem_of_filter in Hc as [Hc _]. by apply elem_of_dom. }
  assert (Eq : (list_to_set l : gset (list byte)) = dom h).
  { apply leibniz_equiv, set_subseteq_size_equiv; [done|]. rewrite size_dom, size_list_to_set by done. unfold blen in E. lia. }
  apply elem_of_dom in Hk. rewrite <- Eq in Hk. by apply elem_of_list_to_set, list_elem_of_filter in Hk as [_ Hk].
Qed.

Lemma declared_columns_ok v h names : means v (MHash h) -> NoDup names ->
  exists o, declared_columns v names = Ret o /\ forall cs, o = Some cs -> cs = map (fun c => h !! c) names /\ forall k, is_Some (h !! k) -> k ∈ names.
Proof.
  assert (Fin : forall h0 : table, NoDup names -> exists o,
    (if blen names <? Z.of_nat (base.size h0) then Ret None
     else Ret (if blen (omap Datatypes.id (map (fun c => h0 !! c) names)) =? Z.of_nat (base.size h0) then Some (map (fun c => h0 !! c) names) else None)) = Ret o /\
    forall cs, o = Some cs -> cs = map (fun c => h0 !! c) names /\ forall k, is_Some (h0 !! k) -> k ∈ names).
  { intros h0 Nd. destruct (_ <? _); [by exists None|]. eexists. split; [done|]. intros cs. destruct (Z.eqb_spec (blen (omap Datatypes.id (map (fun c => h0 !! c) names))) (Z.of_nat (base.size h0))); [|done].
    intros [= <-]. split; [done|]. by apply columns_cover. }
  intros M Nd. inversion M as [|h' E1 E2|h' E1 E2|s ps H E1 E2|r cs R N E1 E2|]; subst; cbn [declared_columns]; [by apply Fin|by apply Fin| |by exists None].
  rewrite <- (length_map (fun c => (list_to_map ps : table) !! c) names), (collect_ok _ (map (fun c => (list_to_map ps : table) !! c) names)).
  - cbn [mbind exec_bind]. unfold SmallHash.len. rewrite (h_count _ _ H). unfold blen at 2 4. rewrite <- (size_pairs ps) by apply H. by apply Fin.
  - intros k x Hk. rewrite Z.add_0_l. unfold Prelude.get. rewrite Nat2Z.id. apply list_lookup_fmap_Some in Hk as (c & -> & Hc). rewrite Hc. by apply get_map.
Qed.

(** Packing a row loses nothing: where the columns of a table cover the hash,
    the packed row holds the same pairs; a field outside the declaration, or a
    row too large, leaves the value as it was. *)
Theorem packing_keeps_the_row (v : CValue) (h : table) (names : ColumnNames) (Hv : means v (MHash h)) (Hn : NoDup names) :
  exists o, pack_value v names = Ret o /\ forall v', o = Some v' -> means v' (MHash h).
Proof.
  unfold pack_value. destruct (declared_columns_ok v h names Hv Hn) as ([cs|] & -> & C); cbn [mbind exec_bind]; [|by exists None].
  destruct (C cs eq_refl) as [-> Cov]. destruct (build_ok names (map (fun c => h !! c) names)) as [(_ & _ & b & -> & R)|[_ ->]]; [unfold blen; by rewrite length_map| |by exists None].
  cbn [mbind exec_bind]. eexists. split; [done|]. intros v' [= <-].
  assert (E : h = (list_to_map (omap present (zip names (map (fun c => h !! c) names))) : table)); [|rewrite E; by apply (means_packed (mkRow names b))].
  apply map_eq. intros k. rewrite present_lookup. destruct (decide (k ∈ names)) as [|N]; [done|]. destruct (h !! k) eqn:E; [|done]. destruct N. by apply Cov; rewrite E.
Qed.

Lemma packing_keeps_the_row_witness : let row := VHash {[bs "dept" := bs "eng"]} in
  exists o, pack_value row [bs "id"; bs "dept"] = Ret o /\ forall v', o = Some v' -> means v' (MHash {[bs "dept" := bs "eng"]}).
Proof.
  apply (packing_keeps_the_row (VHash {[bs "dept" := bs "eng"]})); [constructor|]. apply (bool_decide_unpack _). vm_compute. exact I.
Defined.
