(* ===== verification/Tier.v ===== *)
(** * Transparent tiering ([crates/kevy-store/src]: [tier.rs], [tier_state.rs],
    [tier_demote.rs], [tier_serve.rs], [value_cold.rs])

    The part of a shard that lives partly on disk: a keyspace whose values are hot
    or stubs into the value log, the gauges kept of the stubs, the forward
    pointers of renamed stubs, and the operations that move values either way.
    The model has the value log of [Vlog] behind it, with its failing system
    calls, and no row segments, so every stub is a log stub.  The victim sampler
    and its batches are not here: a demotion is told its key.

    The access clock, the side words and the keyspace's own accounting are in
    [Store]; an entry here is its value, its kept weight and its deadline.  The
    weight of a decoded value is a parameter, as is a table's iteration order.
    The gauges are unbounded integers. *)

From Stdlib Require Import ZArith Lia Bool Strings.Byte Strings.String.
From stdpp Require Import base tactics list numbers gmap.
From S2P Require Import Prelude FindCrlf Buffers Encode StoreUtil Store StoreString PackedRow SmallHash Huff Lz Compress Crc32c Vlog TierCodec.

#[local] Open Scope list_scope.
#[local] Open Scope Z_scope.

Definition WATERMARK_NUM : Z := 19.
Definition WATERMARK_DEN : Z := 20.
Definition COMPACT_LIVE_PCT : Z := 50.
Definition COMPACT_STEP_RECORDS : Z := 256.
Definition ENTRY_OVERHEAD : Z := 96.

(** ** State *)

Record ColdRef := mkCold { cr_offset : Z; cr_file_id : Z; cr_len : Z; cr_weight : Z; cr_type_tag : Z; cr_touched : Z }.

Definition vref (c : ColdRef) : VlogRef := mkRef (cr_file_id c) (cr_offset c) (cr_len c).

(** [type_name] *)
Definition cold_type_name (c : ColdRef) : string := if cr_type_tag c =? COLD_TAG_HASH then "hash" else "string".

(** A value in the map: hot with its weight, or a stub. *)
Inductive TValue := Hot (v : CValue) (w : Z) | Cold (c : ColdRef).

Record TEntry := mkTEntry { tvalue : TValue; texpire : option Z }.

Record TierStore := mkTier {
  tmap : gmap (list byte) TEntry;
  renames : gmap (Z * Z) (list byte);
  world : World;
  budget : Z;
  max_spill : Z;
  reserved_bytes : Z;
  overhead_bytes : Z;
  growth_reserve : Z;
  demotions_total : Z;
  promotions_total : Z;
  preads_total : Z;
  peek_preads_total : Z;
  cold_keys : Z;
  cold_bytes : Z;
  stub_bytes : Z
}.

Definition set_tmap (m : gmap (list byte) TEntry) (s : TierStore) : TierStore :=
  mkTier m (renames s) (world s) (budget s) (max_spill s) (reserved_bytes s) (overhead_bytes s) (growth_reserve s)
    (demotions_total s) (promotions_total s) (preads_total s) (peek_preads_total s) (cold_keys s) (cold_bytes s) (stub_bytes s).
Definition set_renames (m : gmap (Z * Z) (list byte)) (s : TierStore) : TierStore :=
  mkTier (tmap s) m (world s) (budget s) (max_spill s) (reserved_bytes s) (overhead_bytes s) (growth_reserve s)
    (demotions_total s) (promotions_total s) (preads_total s) (peek_preads_total s) (cold_keys s) (cold_bytes s) (stub_bytes s).
Definition set_world (w : World) (s : TierStore) : TierStore :=
  mkTier (tmap s) (renames s) w (budget s) (max_spill s) (reserved_bytes s) (overhead_bytes s) (growth_reserve s)
    (demotions_total s) (promotions_total s) (preads_total s) (peek_preads_total s) (cold_keys s) (cold_bytes s) (stub_bytes s).
Definition set_gauges (keys bytes stubs : Z) (s : TierStore) : TierStore :=
  mkTier (tmap s) (renames s) (world s) (budget s) (max_spill s) (reserved_bytes s) (overhead_bytes s) (growth_reserve s)
    (demotions_total s) (promotions_total s) (preads_total s) (peek_preads_total s) keys bytes stubs.
Definition add_totals (demotions promotions preads peeks : Z) (s : TierStore) : TierStore :=
  mkTier (tmap s) (renames s) (world s) (budget s) (max_spill s) (reserved_bytes s) (overhead_bytes s) (growth_reserve s)
    (demotions_total s + demotions) (promotions_total s + promotions) (preads_total s + preads) (peek_preads_total s + peeks)
    (cold_keys s) (cold_bytes s) (stub_bytes s).

Definition set_tier_budget (b : Z) (s : TierStore) : TierStore :=
  mkTier (tmap s) (renames s) (world s) b (max_spill s) (reserved_bytes s) (overhead_bytes s) (growth_reserve s)
    (demotions_total s) (promotions_total s) (preads_total s) (peek_preads_total s) (cold_keys s) (cold_bytes s) (stub_bytes s).
Definition set_tier_max_spill (b : Z) (s : TierStore) : TierStore :=
  mkTier (tmap s) (renames s) (world s) (budget s) b (reserved_bytes s) (overhead_bytes s) (growth_reserve s)
    (demotions_total s) (promotions_total s) (preads_total s) (peek_preads_total s) (cold_keys s) (cold_bytes s) (stub_bytes s).
Definition set_tier_reserved (b : Z) (s : TierStore) : TierStore :=
  mkTier (tmap s) (renames s) (world s) (budget s) (max_spill s) b (overhead_bytes s) (growth_reserve s)
    (demotions_total s) (promotions_total s) (preads_total s) (peek_preads_total s) (cold_keys s) (cold_bytes s) (stub_bytes s).
Definition set_tier_overhead (b : Z) (s : TierStore) : TierStore :=
  mkTier (tmap s) (renames s) (world s) (budget s) (max_spill s) (reserved_bytes s) b (growth_reserve s)
    (demotions_total s) (promotions_total s) (preads_total s) (peek_preads_total s) (cold_keys s) (cold_bytes s) (stub_bytes s).

(** ** The budget *)

Definition watermark (b : Z) : Z := sat_mul b WATERMARK_NUM / WATERMARK_DEN.

Definition effective_target (s : TierStore) : Z :=
  u64_sub (u64_sub (u64_sub (watermark (budget s)) (reserved_bytes s)) (overhead_bytes s)) (growth_reserve s).

Definition tier_index_floor_blocked (keyspace_bytes extra : Z) (s : TierStore) : bool :=
  let cold_key_heap := u64_sub (stub_bytes s) (sat_mul (cold_keys s) ENTRY_OVERHEAD) in
  let fixed := u64_add (u64_add (u64_add keyspace_bytes cold_key_heap) (overhead_bytes s)) (growth_reserve s) in
  watermark (budget s) <=? u64_add (u64_add (reserved_bytes s) extra) fixed.

(** ** The owner the log compacts through *)

Record StoreOwner := mkOwner { o_map : gmap (list byte) TEntry; o_renames : gmap (Z * Z) (list byte) }.

Definition stub_matches (e : option TEntry) (old : VlogRef) : bool :=
  match tvalue <$> e with
  | Some (Cold c) => (cr_file_id c =? file_id old) && (cr_offset c =? offset old)
  | _ => false
  end.

Definition resolve (o : StoreOwner) (key : list byte) (old : VlogRef) : option (list byte) :=
  if stub_matches (o_map o !! key) old then Some key
  else
    fwd ← o_renames o !! (file_id old, offset old);
    if stub_matches (o_map o !! fwd) old then Some fwd else None.

(** [moved] repoints the stub in place. *)
Definition repoint (new : VlogRef) (c : ColdRef) : ColdRef :=
  mkCold (offset new) (file_id new) (len new) (cr_weight c) (cr_type_tag c) (cr_touched c).

Definition owner_moved (key : list byte) (old new : VlogRef) (o : StoreOwner) : exec StoreOwner :=
  holder ← expect (resolve o key old);
  e ← expect (o_map o !! holder);
  match tvalue e with
  | Hot _ _ => Panic
  | Cold c =>
      let m := <[holder := mkTEntry (Cold (repoint new c)) (texpire e)]> (o_map o) in
      let rn := delete (file_id old, offset old) (o_renames o) in
      let rn := if bool_decide (holder = key) then rn else <[(file_id new, offset new) := holder]> rn in
      Ret (mkOwner m rn)
  end.

#[global] Instance store_owner : CompactOwner StoreOwner := {
  is_live key old o := (match resolve o key old with Some _ => true | None => false end, o);
  moved := owner_moved
}.

(** ** Operations *)

Section Tier.
Context (cpu : Cpu) (order : table -> list (list byte * list byte)) (weigh : CValue -> Z).

Definition on_vlog {A} (m : prog World A) : prog TierStore A := fun s =>
  let '(r, w) := m (world s) in (r, set_world w s).

(** [let Ok(..) = .. else]: an error is a value. *)
Definition caught {A} (m : prog TierStore A) : prog TierStore (option A) := fun s =>
  match m s with
  | (Ok a, s') => (Ok (Some a), s')
  | (Err _, s') => (Ok None, s')
  | (Crash, s') => (Crash, s')
  | (Diverge, s') => (Diverge, s')
  end.

(** [.expect(..)]: an error is a panic. *)
Definition expected {S A} (m : prog S A) : prog S A := fun s =>
  match m s with (Err _, s') => (Crash, s') | r => r end.

Definition enable_tiering (b : Z) (w : World) : res unit * TierStore :=
  let '(r, w') := open DEFAULT_ROTATE_BYTES w in
  (r, mkTier ∅ ∅ w' b 0 0 0 0 0 0 0 0 0 0 0).

Definition tier_note_dead (key_heap : Z) (v : TValue) : prog TierStore unit :=
  match v with
  | Hot _ _ => mret tt
  | Cold c =>
      _ ← on_vlog (note_dead (vref c));
      modify (fun s => set_renames (delete (cr_file_id c, cr_offset c) (renames s))
        (set_gauges (u64_sub (cold_keys s) 1) (u64_sub (cold_bytes s) (cr_weight c)) (u64_sub (stub_bytes s) (ENTRY_OVERHEAD + key_heap)) s))
  end.

Definition tier_note_renamed (v : TValue) (src dst : list byte) : prog TierStore unit :=
  match v with
  | Hot _ _ => mret tt
  | Cold c =>
      modify (fun s => set_renames (<[(cr_file_id c, cr_offset c) := dst]> (renames s))
        (set_gauges (cold_keys s) (cold_bytes s) (u64_add (u64_sub (stub_bytes s) (heap_bytes_for src)) (heap_bytes_for dst)) s))
  end.

Definition tier_on_flushall : prog TierStore unit :=
  _ ← on_vlog mark_all_dead;
  modify (fun s => set_gauges 0 0 0 (set_renames ∅ s)).

(** *** The keyspace's calls ([accounting.rs], [keyspace.rs]), the tier's part *)

Definition t_insert (key : list byte) (e : TEntry) : prog TierStore (option TEntry) :=
  prev ← gets (fun s => tmap s !! key);
  _ ← modify (fun s => set_tmap (<[key := e]> (tmap s)) s);
  _ ← match prev with Some old => tier_note_dead (heap_bytes_for key) (tvalue old) | None => mret tt end;
  mret prev.

Definition t_take (key : list byte) : prog TierStore (option TEntry) :=
  prev ← gets (fun s => tmap s !! key);
  _ ← modify (fun s => set_tmap (delete key (tmap s)) s);
  mret prev.

Definition t_remove (key : list byte) : prog TierStore (option TEntry) :=
  prev ← t_take key;
  match prev with
  | None => mret None
  | Some old => _ ← tier_note_dead (heap_bytes_for key) (tvalue old); mret (Some old)
  end.

Definition t_expired (e : TEntry) (now : Z) : bool := match texpire e with Some d => d <=? now | None => false end.

(** [live_entry]: an expired key is reaped. *)
Definition t_live (key : list byte) (now : Z) : prog TierStore (option TEntry) :=
  e ← gets (fun s => tmap s !! key);
  match e with
  | None => mret None
  | Some e => if t_expired e now then _ ← t_remove key; mret None else mret (Some e)
  end.

(** The end of [rename_if]: the entry is re-homed with its stub, unread. *)
Definition t_move (src dst : list byte) : prog TierStore RenameOutcome :=
  o ← t_take src;
  match o with
  | None => mret NoSuchSrc
  | Some e =>
      _ ← t_remove dst;
      _ ← tier_note_renamed (tvalue e) src dst;
      _ ← t_insert dst e;
      mret Renamed
  end.

(** [rename_if]; [reap] is [t_live] for its effect. *)
Definition t_rename (src dst : list byte) (nx : bool) (now : Z) : prog TierStore RenameOutcome :=
  e ← t_live src now;
  match e with
  | None => mret NoSuchSrc
  | Some _ =>
      if bool_decide (src = dst) then mret (if nx then DstExists else Renamed)
      else if nx then
        d ← t_live dst now;
        match d with Some _ => mret DstExists | None => t_move src dst end
      else t_move src dst
  end.

Definition t_flushall : prog TierStore unit :=
  _ ← modify (fun s => set_tmap ∅ s);
  tier_on_flushall.

(** *** Reading a record *)

Definition tier_read_record_as (c : ColdRef) (shapes : list ColumnNames) (form : RowForm) : prog TierStore CValue :=
  _ ← modify (add_totals 0 0 1 0);
  kp ← expected (on_vlog (read cpu (vref c)));
  let payload := snd (kp : list byte * list byte) in
  d ← run (decode_as (cr_type_tag c) (to_vec payload) shapes form);
  match d with inl _ => crash | inr v => mret v end.

(** [tier_peek_value], for a shared borrow: no counter. *)
Definition tier_peek_value (v : TValue) (shapes : list ColumnNames) : prog TierStore (option CValue) :=
  match v with
  | Hot _ _ => mret None
  | Cold c =>
      kp ← expected (on_vlog (read cpu (vref c)));
      d ← run (decode (cr_type_tag c) (to_vec (snd (kp : list byte * list byte))) shapes);
      match d with inl _ => crash | inr v => mret (Some v) end
  end.

(** *** Demotion and promotion *)

Definition spill_payload (e : TEntry) (key_heap cap now : Z) : exec (option (list byte * Z)) :=
  match tvalue e with
  | Cold _ => Ret None
  | Hot v w =>
      if t_expired e now || (negb (cap =? 0) && (cap <? key_heap + w)) then Ret None else encode order v
  end.

Definition kept_weight (v : TValue) : Z := match v with Hot _ w => w | Cold _ => 0 end.

Definition demote_in_place (key : list byte) (now : Z) : prog TierStore bool :=
  cap ← gets max_spill;
  let key_heap := heap_bytes_for key in
  o ← gets (fun s => tmap s !! key);
  match o with
  | None => mret false
  | Some e =>
      p ← run (spill_payload e key_heap cap now);
      match p with
      | None => mret false
      | Some (payload, tag) =>
          r ← caught (on_vlog (append cpu key payload));
          match r with
          | None => mret false
          | Some vr =>
              let stub := mkCold (offset vr) (file_id vr) (len vr) (Z.min (kept_weight (tvalue e)) (2 ^ 32 - 1)) tag 0 in
              _ ← modify (fun s => set_tmap (<[key := mkTEntry (Cold stub) (texpire e)]> (tmap s)) s);
              _ ← modify (fun s => add_totals 1 0 0 0
                    (set_gauges (cold_keys s + 1) (cold_bytes s + cr_weight stub) (stub_bytes s + (ENTRY_OVERHEAD + key_heap)) s));
              mret true
          end
      end
  end.

Definition promote_in_place (key : list byte) (packed_rows : bool) (shapes : list ColumnNames) : prog TierStore bool :=
  o ← gets (fun s => tmap s !! key);
  match o with
  | Some (mkTEntry (Cold c) x) =>
      let form := if packed_rows then Declared else AsStored in
      v ← tier_read_record_as c shapes form;
      _ ← modify (fun s => set_tmap (<[key := mkTEntry (Hot v (weigh v)) x]> (tmap s)) s);
      _ ← on_vlog (note_dead (vref c));
      _ ← modify (fun s => add_totals 0 1 0 0 (set_renames (delete (cr_file_id c, cr_offset c) (renames s))
            (set_gauges (u64_sub (cold_keys s) 1) (u64_sub (cold_bytes s) (cr_weight c)) (u64_sub (stub_bytes s) (ENTRY_OVERHEAD + heap_bytes_for key)) s)));
      mret true
  | _ => mret false
  end.

(** *** The read and write funnels ([tier_serve.rs])

    [now'] is the clock when the entry is looked up again. *)

Inductive served := Missing | Wrong | Served (v : TValue).

Definition tier_resolve (key : list byte) (want now : Z) (packed_rows : bool) (shapes : list ColumnNames) : prog TierStore (option StoreError) :=
  e ← t_live key now;
  match tvalue <$> e with
  | Some (Cold c) =>
      if negb (cr_type_tag c =? want) then mret (Some WrongType)
      else _ ← promote_in_place key packed_rows shapes; mret None
  | _ => mret None
  end.

Definition touch (c : ColdRef) : ColdRef := mkCold (cr_offset c) (cr_file_id c) (cr_len c) (cr_weight c) (cr_type_tag c) 1.

Definition tier_serve_cold (key : list byte) (peek : bool) (shapes : list ColumnNames) : prog TierStore served :=
  o ← gets (fun s => tmap s !! key);
  match o with
  | Some (mkTEntry (Cold c) x) =>
      let c := if peek then c else touch c in
      _ ← modify (fun s => set_tmap (<[key := mkTEntry (Cold c) x]> (tmap s)) s);
      v ← tier_read_record_as c shapes AsStored;
      _ ← modify (add_totals 0 0 0 (if peek then 1 else 0));
      mret (Served (Hot v (weigh v)))
  | _ => crash
  end.

Definition tier_serve (key : list byte) (want now now' : Z) (peek packed_rows : bool) (shapes : list ColumnNames) : prog TierStore served :=
  e ← t_live key now;
  match tvalue <$> e with
  | None => mret Missing
  | Some (Hot _ _) => e ← t_live key now'; mret (match e with Some e => Served (tvalue e) | None => Missing end)
  | Some (Cold c) =>
      if negb (cr_type_tag c =? want) then mret Wrong
      else if peek then tier_serve_cold key true shapes
      else if negb (cr_touched c =? 0) then
        _ ← promote_in_place key packed_rows shapes;
        e ← t_live key now';
        mret (match e with Some e => Served (tvalue e) | None => Missing end)
      else tier_serve_cold key false shapes
  end.

(** *** Compaction *)

Definition tier_compact_step (budget : Z) : prog TierStore Z := fun s =>
  let '(r, (o, w)) := expected (compact_step cpu COMPACT_LIVE_PCT budget) (mkOwner (tmap s) (renames s), world s) in
  (r, set_world w (set_renames (o_renames o) (set_tmap (o_map o) s))).

Definition tier_compact_tick : prog TierStore Z :=
  pending ← gets (fun s => compaction_pending COMPACT_LIVE_PCT (log (world s)));
  if pending : bool then tier_compact_step COMPACT_STEP_RECORDS else mret 0.

End Tier.
