(* ===== verification/TierSpec.v ===== *)
(** * The tier keeps every value

    The store is a lawful owner of its value log, its gauges are exact sums over
    the stubs, and after any sequence of demotions, promotions, overwrites,
    deletions, renames, flushes and compaction steps, whatever system calls fail,
    every key reads as the value last put there. *)

From Stdlib Require Import ZArith Lia Bool Sorted Strings.Byte Strings.String.
From stdpp Require Import base tactics list numbers gmap.
From S2P Require Import Prelude MapSum FindCrlf Buffers Encode StoreUtil Store StoreString PackedRow SmallHash Huff Lz Compress Crc32c Vlog VlogSpec VlogCompact VlogOwner TierCodec Tier.

#[local] Open Scope list_scope.
#[local] Open Scope Z_scope.

(** ** The store is a lawful owner *)

Definition stub (m : gmap (list byte) TEntry) (k : list byte) : option ColdRef :=
  match tvalue <$> m !! k with Some (Cold c) => Some c | _ => None end.

Definition addr (c : ColdRef) : Z * Z := (cr_file_id c, cr_offset c).

(** The bytes of file [id] an entry reaches. *)
Definition cost (id : Z) (_ : list byte) (e : TEntry) : Z :=
  match tvalue e with Cold c => if decide (cr_file_id c = id) then HEADER + cr_len c else 0 | Hot _ _ => 0 end.

(** Every stub's record carries its key, or is forwarded to it; no two stubs
    share a record. *)
Definition forwards (K : VlogRef -> list byte -> Prop) (o : StoreOwner) : Prop :=
  (forall k c, stub (o_map o) k = Some c -> exists kk, K (vref c) kk /\ (kk = k \/ o_renames o !! addr c = Some k)) /\
  (forall k k' c c', stub (o_map o) k = Some c -> stub (o_map o) k' = Some c' -> addr c = addr c' -> k = k').

Lemma stub_matches_iff m k old : stub_matches (m !! k) old = true <-> exists c, stub m k = Some c /\ addr c = (file_id old, offset old).
Proof.
  unfold stub_matches, stub, addr. destruct (tvalue <$> m !! k) as [[v w|c]|]; [by split; [|intros (c & ? & _)]| |by split; [|intros (c & ? & _)]].
  rewrite andb_true_iff, !Z.eqb_eq. split; [intros [E1 E2]; exists c; split; [done|congruence]|]. intros (c' & [= <-] & [= E1 E2]). done.
Qed.

Lemma resolve_holder o key old h : resolve o key old = Some h -> exists c, stub (o_map o) h = Some c /\ addr c = (file_id old, offset old).
Proof.
  unfold resolve. destruct (stub_matches (o_map o !! key) old) eqn:M; [intros [= <-]; by apply stub_matches_iff|].
  destruct (o_renames o !! _) as [fwd|]; [|done]. cbn. destruct (stub_matches (o_map o !! fwd) old) eqn:M'; [|done]. intros [= <-]. by apply stub_matches_iff.
Qed.

(** The holder of a record's stub is found. *)
Lemma resolve_finds K o key old k c : functional K -> forwards K o -> K old key -> stub (o_map o) k = Some c -> addr c = (file_id old, offset old) ->
  resolve o key old = Some k /\ vref c = old.
Proof.
  intros Fn [F1 F2] Ko E A. destruct (F1 k c E) as (kk & Kc & Fw). injection A as A1 A2. destruct (Fn _ _ _ _ Kc Ko A1 A2) as [Ev ->]. split; [|done].
  unfold resolve. destruct (stub_matches (o_map o !! key) old) eqn:M.
  - apply stub_matches_iff in M as (c' & E' & A'). f_equal. eapply F2; [exact E'|exact E|]. rewrite A'. unfold addr. congruence.
  - destruct Fw as [->|Fw].
    + assert (M' : stub_matches (o_map o !! k) old = true) by (apply stub_matches_iff; exists c; split; [done|unfold addr; congruence]). congruence.
    + unfold addr in Fw. rewrite A1, A2 in Fw. rewrite Fw. cbn.
      assert (M' : stub_matches (o_map o !! k) old = true) by (apply stub_matches_iff; exists c; split; [done|unfold addr; congruence]). by rewrite M'.
Qed.

Lemma stub_insert m k e j : stub (<[k := e]> m) j = if decide (j = k) then match tvalue e with Cold c => Some c | Hot _ _ => None end else stub m j.
Proof.
  unfold stub. case_decide as D; [subst; rewrite lookup_insert_eq; cbn; by destruct (tvalue e)|by rewrite lookup_insert_ne by done].
Qed.

Lemma stub_delete m k j : stub (delete k m) j = if decide (j = k) then None else stub m j.
Proof. unfold stub. case_decide as D; [subst; by rewrite lookup_delete_eq|by rewrite lookup_delete_ne by done]. Qed.

Lemma stub_entry m k c : stub m k = Some c -> exists x, m !! k = Some (mkTEntry (Cold c) x).
Proof. unfold stub. destruct (m !! k) as [[[v w|c'] x]|]; cbn; [done| |done]. intros [= ->]. by exists x. Qed.

Lemma owner_moved_ok K o key old new k c : functional K -> forwards K o -> K old key -> K new key -> stub (o_map o) k = Some c -> addr c = (file_id old, offset old) ->
  (forall k' c', stub (o_map o) k' = Some c' -> ~ (cr_file_id c' = file_id new /\ cr_offset c' = offset new)) ->
  exists o', owner_moved key old new o = Ret o' /\ forwards K o' /\
    (exists x, o_map o' = <[k := mkTEntry (Cold (repoint new c)) x]> (o_map o) /\ o_map o !! k = Some (mkTEntry (Cold c) x)).
Proof.
  intros Fn F Ko Kn E A Fr. destruct (resolve_finds K o key old k c Fn F Ko E A) as [Rs Ev]. destruct (stub_entry _ _ _ E) as [x Ex].
  unfold owner_moved. rewrite Rs. cbn [expect mbind exec_bind]. rewrite Ex. cbn [expect mbind exec_bind tvalue texpire]. eexists. split; [done|].
  split; [|by exists x]. destruct F as [F1 F2]. unfold forwards. cbn [o_map o_renames]. set (rn := delete (file_id old, offset old) (o_renames o)).
  assert (Vn : vref (repoint new c) = new) by (by destruct new). assert (An : addr (repoint new c) = (file_id new, offset new)) by done.
  split.
  - intros j cj. rewrite stub_insert. cbn [tvalue]. case_decide as D.
    + intros [= <-]. subst j. exists key. rewrite Vn, An. split; [done|]. destruct (bool_decide_reflect (k = key)) as [->|N]; [by left|right; apply lookup_insert_eq].
    + intros Ej. destruct (F1 j cj Ej) as (kk & Kc & Fw). exists kk. split; [done|]. destruct Fw as [->|Fw]; [by left|right].
      assert (Nj : (file_id new, offset new) <> addr cj) by (intros [= H1 H2]; by apply (Fr j cj Ej)).
      assert (Oj : (file_id old, offset old) <> addr cj) by (intros H; apply D; eapply F2; [exact Ej|exact E|congruence]).
      assert (Rj : rn !! addr cj = Some j) by (unfold rn; by rewrite lookup_delete_ne).
      destruct (bool_decide (k = key)); [done|by rewrite lookup_insert_ne].
  - intros j j' cj cj'. rewrite !stub_insert. cbn [tvalue]. case_decide as D; case_decide as D'; [congruence| | |by apply F2].
    + intros [= <-] Ej'. rewrite An. intros H. exfalso. apply (Fr j' cj' Ej'). unfold addr in H. by injection H.
    + intros Ej [= <-]. rewrite An. intros H. exfalso. apply (Fr j cj Ej). unfold addr in H. by injection H.
Qed.

Definition owner_slot (o : StoreOwner) (k : list byte) : option VlogRef := vref <$> stub (o_map o) k.

Lemma owner_slot_Some o k r : owner_slot o k = Some r <-> exists c, stub (o_map o) k = Some c /\ vref c = r.
Proof. unfold owner_slot. destruct (stub (o_map o) k) as [c|]; cbn; split; [intros [= <-]; by exists c|intros (c' & [= <-] & ->); done|done|by intros (c & ? & _)]. Qed.

Lemma forwards_slot K o k r : forwards K o -> owner_slot o k = Some r -> exists kk, K r kk.
Proof. intros [F _] (c & E & <-)%owner_slot_Some. destruct (F k c E) as (kk & Hk & _). by exists kk. Qed.

Lemma cost_nonneg K o id : (forall r k, K r k -> 0 <= len r) -> forwards K o -> forall k e, o_map o !! k = Some e -> 0 <= cost id k e.
Proof.
  intros P [F _] k [[v w|c] x] E; cbn [cost tvalue]; [done|]. assert (Es : stub (o_map o) k = Some c) by (unfold stub; by rewrite E).
  destruct (F k c Es) as (kk & Hk & _). specialize (P _ _ Hk). cbn in P. case_decide; unfold HEADER; lia.
Qed.

#[global] Program Instance store_owner_laws : OwnerLaws StoreOwner (list byte) := {
  slot_ref := owner_slot;
  knows := forwards;
  claim o id := msum (cost id) (o_map o)
}.
Next Obligation.
  intros K o k r P F E. pose proof (cost_nonneg K o (file_id r) P F) as Nn. pose proof (msum_at (cost (file_id r)) (o_map o) k Nn) as At.
  apply owner_slot_Some in E as (c & E & <-). destruct (stub_entry _ _ _ E) as [x Ex]. unfold at_key in At. rewrite Ex in At. cbn [cost tvalue vref file_id] in At.
  rewrite decide_True in At by done. destruct (forwards_slot K o k (vref c) F) as [kk Hk]; [by apply owner_slot_Some; exists c|]. specialize (P _ _ Hk). cbn in P. unfold HEADER in *. cbn [vref file_id]. lia.
Qed.
Next Obligation.
  intros o id No. apply msum_zero. intros k [[v w|c] x] E; cbn [cost tvalue]; [done|]. rewrite decide_False; [done|]. intros H.
  apply (No k (vref c)); [|done]. apply owner_slot_Some. exists c. split; [|done]. unfold stub. by rewrite E.
Qed.
Next Obligation.
  intros K K' o Sub [F1 F2]. split; [|done]. intros k c E. destruct (F1 k c E) as (kk & Hk & Fw). exists kk. split; [|done].
  eapply Sub; [|exact Hk]. apply owner_slot_Some. by exists c.
Qed.
Next Obligation.
  intros K o key r Fn F Kr. cbn [is_live store_owner snd fst]. split; [done|]. split; [done|]. split; [done|]. split; [|done].
  intros k E. apply owner_slot_Some in E as (c & E & <-). destruct (resolve_finds K o key (vref c) k c Fn F Kr E eq_refl) as [-> _]. done.
Qed.
Next Obligation.
  intros K o key old new Fn P F Ko Kn Lv Fr. cbn [is_live store_owner fst] in Lv. destruct (resolve o key old) as [h|] eqn:Rs; [|done].
  apply resolve_holder in Rs as (c & E & A). destruct (resolve_finds K o key old h c Fn F Ko E A) as [_ Ev].
  destruct (owner_moved_ok K o key old new h c Fn F Ko Kn E A) as (o' & Em & F' & x & Em' & Ex).
  { intros k' c' E' [H1 H2]. apply (Fr k' (vref c')); [apply owner_slot_Some; by exists c'|done]. }
  exists o'. split; [exact Em|]. split; [done|]. rewrite Em'. split.
  - intros f. rewrite msum_put. unfold at_key. rewrite Ex. cbn [cost tvalue repoint cr_file_id cr_len]. pose proof (cost_nonneg K o f P F h _ Ex) as Nn. cbn [cost tvalue] in Nn.
    destruct (decide (file_id new = f)), (decide (f = file_id new)); try congruence; lia.
  - intros s. unfold owner_slot. rewrite Em', stub_insert. cbn [tvalue]. case_decide as D.
    + subst s. cbn [fmap option_fmap option_map]. rewrite E. cbn [fmap option_fmap option_map]. rewrite decide_True by congruence. f_equal. by destruct new.
    + rewrite decide_False; [done|]. intros H. apply D. destruct (stub (o_map o) s) as [cs|] eqn:Es; [|done]. cbn in H. injection H as H.
      destruct F as [_ F2]. eapply F2; [exact Es|exact E|]. rewrite A. unfold addr. rewrite <- H. done.
Qed.

(** ** The invariant *)

(** What each key holds, with its deadline. *)
Abbreviation content := (gmap (list byte) (meaning * option Z)).

Section Tier.
Context (cpu : Cpu) (order : table -> list (list byte * list byte)) (weigh : CValue -> Z).
Context (Ho : forall h, order h ≡ₚ map_to_list h).

Implicit Types (G : gmap Z hist) (k : list byte) (e : TEntry) (c : ColdRef) (pins : list Z) (s : TierStore) (m : gmap (list byte) TEntry) (rn : gmap (Z * Z) (list byte)).

#[local] Abbreviation at_ref := (at_ref cpu).
#[local] Abbreviation ready := (ready cpu).
#[local] Abbreviation key_at := (key_at cpu).

Definition owner_of (s : TierStore) : StoreOwner := mkOwner (tmap s) (renames s).

(** A payload that a value of meaning [d] was spilled as. *)
Definition spilled (p : list byte) (tag : Z) (d : meaning) : Prop := exists v, means v d /\ encode order v = Ret (Some (p, tag)).

Definition holds_value (G : gmap Z hist) (e : TEntry) (d : meaning) : Prop :=
  match tvalue e with
  | Hot v _ => means v d
  | Cold c => exists rc, at_ref G (vref c) rc /\ spilled (r_payload rc) (cr_type_tag c) d
  end.

Definition agree (G : gmap Z hist) (o : option TEntry) (c : option (meaning * option Z)) : Prop :=
  match o, c with
  | Some e, Some (d, x) => texpire e = x /\ holds_value G e d
  | None, None => True
  | _, _ => False
  end.

Record tier_ok (C : content) (G : gmap Z hist) (pins : list Z) (s : TierStore) : Prop := {
  t_ready : ready G pins (owner_of s) (world s);
  t_agree : forall k, agree G (tmap s !! k) (C !! k)
}.

Definition full (w : World) : Prop := counters_full w \/ epoch_full w.

(** How a call leaves the store: it ends with contents [C'] and an answer in [Q],
    or panics, which it does only when [M] does not hold, a system call or a file
    name failed, a record is at the size limit, or a counter is full. *)
Definition outcome {A : Type} (M : Prop) (C' : content) (Q : A -> TierStore -> Prop) G pins s (r : res A * TierStore) : Prop :=
  match r with
  | (Ok a, s') => Q a s' /\ exists G', grows G G' /\ tier_ok C' G' pins s' /\ (M -> calm G (world s) -> calm G' (world s'))
  | (Crash, s') => (M -> ~ calm G (world s)) \/ full (world s')
  | (Err _, _) | (Diverge, _) => False
  end.

Lemma outcome_ret {A : Type} M C (Q : A -> TierStore -> Prop) G pins s a : tier_ok C G pins s -> Q a s -> outcome M C Q G pins s (Ok a, s).
Proof. intros T q. split; [done|]. exists G. split; [apply hist_grows_refl|]. by split. Qed.

Lemma outcome_bind {A B : Type} M C1 C2 (Q1 : A -> TierStore -> Prop) (Q2 : B -> TierStore -> Prop) G pins s (m : prog TierStore A) (f : A -> prog TierStore B) :
  outcome M C1 Q1 G pins s (m s) -> (forall a G1 s1, grows G G1 -> Q1 a s1 -> tier_ok C1 G1 pins s1 -> outcome M C2 Q2 G1 pins s1 (f a s1)) ->
  outcome M C2 Q2 G pins s ((m ≫= f) s).
Proof.
  intros H K. rewrite bind_eq. destruct (m s) as [[a|e| |] s1]; [|done|done|done]. destruct H as (q & G1 & Gr & T & Ca).
  specialize (K a G1 s1 Gr q T). destruct (f a s1) as [[b|e| |] s2]; [|done| |done].
  - destruct K as (q2 & G2 & Gr2 & T2 & Ca2). split; [done|]. exists G2. split; [by eapply grows_trans|]. split; [done|]. intros m0 c. by apply Ca2, Ca.
  - destruct K as [K|K]; [left|by right]. intros m0 c. apply (K m0). by apply Ca.
Qed.

Lemma outcome_from {A : Type} s0 M C (Q : A -> TierStore -> Prop) G pins s r : world s = world s0 -> outcome M C Q G pins s0 r -> outcome M C Q G pins s r.
Proof. unfold outcome. by intros ->. Qed.

Lemma outcome_weaken {A : Type} (M M' : Prop) C (Q Q' : A -> TierStore -> Prop) G pins s r :
  (M' -> M) -> (forall a s', Q a s' -> Q' a s') -> outcome M C Q G pins s r -> outcome M' C Q' G pins s r.
Proof.
  intros HM HQ. destruct r as [[a|e| |] s']; cbn; [|done| |done].
  - intros (q & G' & Gr & T & Ca). split; [by apply HQ|]. exists G'. split; [done|]. split; [done|]. intros m. by apply Ca, HM.
  - intros [H|H]; [left|by right]. intros m. by apply H, HM.
Qed.

Lemma holds_value_grows G G' e d : grows G G' -> holds_value G e d -> holds_value G' e d.
Proof. intros Gr. unfold holds_value. destruct (tvalue e); [done|]. intros (rc & A & S). exists rc. split; [by eapply at_ref_grows|done]. Qed.

Lemma agree_grows G G' o (c : option (meaning * option Z)) : grows G G' -> agree G o c -> agree G' o c.
Proof. intros Gr. destruct o as [e|], c as [[d x]|]; cbn; try done. intros [E H]. split; [done|]. by eapply holds_value_grows. Qed.

Lemma agree_insert G (m : gmap (list byte) TEntry) (C : content) k e (c : meaning * option Z) : (forall j, agree G (m !! j) (C !! j)) -> agree G (Some e) (Some c) -> forall j, agree G (<[k := e]> m !! j) (<[k := c]> C !! j).
Proof. intros H He j. destruct (decide (j = k)) as [->|N]; [by rewrite !lookup_insert_eq|rewrite !lookup_insert_ne by done; apply H]. Qed.

Lemma agree_delete G (m : gmap (list byte) TEntry) (C : content) k : (forall j, agree G (m !! j) (C !! j)) -> forall j, agree G (delete k m !! j) (delete k C !! j).
Proof. intros H j. destruct (decide (j = k)) as [->|N]; [by rewrite !lookup_delete_eq|rewrite !lookup_delete_ne by done; apply H]. Qed.

(** The same key with its value in another place. *)
Lemma agree_same G (m : gmap (list byte) TEntry) (C : content) k e e' d x : (forall j, agree G (m !! j) (C !! j)) -> m !! k = Some e -> C !! k = Some (d, x) -> texpire e' = x -> holds_value G e' d ->
  forall j, agree G (<[k := e']> m !! j) (C !! j).
Proof. intros H _ E2 Ex He j. destruct (decide (j = k)) as [->|N]; [by rewrite lookup_insert_eq, E2|rewrite lookup_insert_ne by done; apply H]. Qed.

Lemma calm_relive G w fs : calm G w -> calm G (with_log (set_files fs) w).
Proof. done. Qed.

(** *** Owners *)

(** A stub leaves the map. *)
Definition unstub (m m' : gmap (list byte) TEntry) (k : list byte) : Prop :=
  m' = delete k m \/ exists v w x, m' = <[k := mkTEntry (Hot v w) x]> m.

Lemma unstub_stub m m' k j : unstub m m' k -> stub m' j = if decide (j = k) then None else stub m j.
Proof. intros [->|(v & w & x & ->)]; [apply stub_delete|rewrite stub_insert; done]. Qed.

Lemma unstub_sum m m' k id : unstub m m' k -> msum (cost id) m' = msum (cost id) m - at_key (cost id) m k.
Proof. intros [->|(v & w & x & ->)]; [apply msum_drop|rewrite msum_put; cbn [cost tvalue]; lia]. Qed.

Lemma forwards_less K o m' rn' k : forwards K o -> (forall j, stub m' j = if decide (j = k) then None else stub (o_map o) j) ->
  (forall j c, j <> k -> stub (o_map o) j = Some c -> rn' !! addr c = o_renames o !! addr c) -> forwards K (mkOwner m' rn').
Proof.
  intros [F1 F2] S Rn. split; cbn [o_map o_renames].
  - intros j c. rewrite S. case_decide as D; [done|]. intros E. rewrite (Rn j c D E). by apply F1.
  - intros j j' c c'. rewrite !S. case_decide; [done|]. case_decide; [done|]. by apply F2.
Qed.

(** The owner without the stub at [k], and the log told. *)
Lemma ready_unstub G pins m rn w m' k c : ready G pins (mkOwner m rn) w -> stub m k = Some c -> unstub m m' k ->
  exists fs', note_dead (vref c) w = (Ok tt, with_log (set_files fs') w) /\ ready G pins (mkOwner m' (delete (addr c) rn)) (with_log (set_files fs') w).
Proof.
  intros R E U. pose proof R as [(_ & _ & (F & C2 & _)) _]. cbn [knows store_owner_laws] in F.
  assert (Hl : 0 <= len (vref c)) by (destruct (C2 k (vref c)) as [kk Hk]; [apply owner_slot_Some; by exists c|by eapply key_at_len]).
  apply (ready_drop cpu G pins _ _ w (vref c) R Hl); cbn [knows slot_ref claim store_owner_laws].
  - apply (forwards_less _ (mkOwner m rn) m' _ k F); cbn [o_map o_renames]; [by intros j; apply unstub_stub|].
    intros j cj D Ej. rewrite lookup_delete_ne; [done|]. intros A. apply D. destruct F as [_ F2]. eapply F2; cbn [o_map]; [exact Ej|exact E|done].
  - intros j r' (cj & Ej & <-)%owner_slot_Some. cbn [o_map] in Ej. rewrite (unstub_stub _ _ _ _ U) in Ej. case_decide; [done|]. exists j. apply owner_slot_Some. by exists cj.
  - intros f. cbn [o_map]. rewrite (unstub_sum _ _ _ _ U). destruct (stub_entry _ _ _ E) as [x Ex]. unfold at_key. rewrite Ex. cbn [cost tvalue vref file_id len].
    destruct (decide (cr_file_id c = f)), (decide (f = cr_file_id c)); try congruence; lia.
Qed.

(** A hot entry comes, goes or changes. *)
Lemma ready_hot G pins m rn w m' k : ready G pins (mkOwner m rn) w -> stub m k = None -> unstub m m' k -> ready G pins (mkOwner m' rn) w.
Proof.
  intros R E U. pose proof R as [(_ & _ & (F & _)) _]. apply (ready_reslot cpu G pins _ _ w R); cbn [knows slot_ref claim store_owner_laws].
  - apply (forwards_less _ (mkOwner m rn) m' _ k F); [by intros j; apply unstub_stub|done].
  - intros j r' (cj & Ej & <-)%owner_slot_Some. cbn [o_map] in Ej. rewrite (unstub_stub _ _ _ _ U) in Ej. case_decide; [done|]. exists j. apply owner_slot_Some. by exists cj.
  - intros f. cbn [o_map]. rewrite (unstub_sum _ _ _ _ U). unfold at_key. unfold stub in E. destruct (m !! k) as [[[v w0|c] x]|]; cbn in E |- *; [|discriminate E|]; lia.
Qed.

(** ** The operations *)

Definition dead_state (heap : Z) c (w : World) s : TierStore :=
  set_renames (delete (addr c) (renames s)) (set_gauges (u64_sub (cold_keys s) 1) (u64_sub (cold_bytes s) (cr_weight c)) (u64_sub (stub_bytes s) (ENTRY_OVERHEAD + heap)) (set_world w s)).

Lemma note_dead_run heap c s w : note_dead (vref c) (world s) = (Ok tt, w) -> tier_note_dead heap (Cold c) s = (Ok tt, dead_state heap c w s).
Proof. intros E. unfold tier_note_dead, on_vlog. runs. rewrite E. runs. done. Qed.

(** Discarding what a key holds. *)
Lemma discard_ok C G pins s m' C' k : tier_ok C G pins s -> unstub (tmap s) m' k -> (forall j, agree G (m' !! j) (C' !! j)) ->
  match (match tmap s !! k with Some old => tier_note_dead (heap_bytes_for k) (tvalue old) | None => mret tt end) (set_tmap m' s) with
  | (Ok _, s') => tmap s' = m' /\ tier_ok C' G pins s' /\ (calm G (world s) -> calm G (world s'))
  | _ => False
  end.
Proof.
  intros [R A] U A'. destruct (stub (tmap s) k) as [c|] eqn:E.
  - destruct (stub_entry _ _ _ E) as [x ->]. cbn [tvalue]. destruct (ready_unstub G pins _ _ _ m' k c R E U) as (fs' & Er & R').
    rewrite (note_dead_run _ c (set_tmap m' s) _ Er). split; [done|]. split; [|done]. by constructor.
  - pose proof (ready_hot G pins _ _ _ m' k R E U) as R'. unfold stub in E. destruct (tmap s !! k) as [[[v w|c] x]|]; cbn in E; [|discriminate E|];
      (split; [done|]; split; [by constructor|done]).
Qed.

Lemma t_remove_ok C G pins s k : tier_ok C G pins s -> outcome True (delete k C) (fun o s' => o = tmap s !! k /\ tmap s' = delete k (tmap s)) G pins s (t_remove k s).
Proof.
  intros T. pose proof (discard_ok C G pins s (delete k (tmap s)) (delete k C) k T) as D. specialize (D (or_introl eq_refl) (agree_delete _ _ _ _ (t_agree _ _ _ _ T))).
  unfold t_remove, t_take. runs. destruct (tmap s !! k) as [old|]; runs.
  - destruct (tier_note_dead _ _ _) as [[[]|e| |] s']; [|done|done|done]. runs. destruct D as (Em & T' & Ca). split; [done|]. exists G. split; [apply hist_grows_refl|]. by split.
  - destruct D as (Em & T' & Ca). split; [done|]. exists G. split; [apply hist_grows_refl|]. by split.
Qed.

Lemma t_put_ok C G pins s k v w x d : tier_ok C G pins s -> means v d ->
  outcome True (<[k := (d, x)]> C) (fun o s' => o = tmap s !! k) G pins s (t_insert k (mkTEntry (Hot v w) x) s).
Proof.
  intros T M. pose proof (discard_ok C G pins s (<[k := mkTEntry (Hot v w) x]> (tmap s)) (<[k := (d, x)]> C) k T) as D.
  specialize (D ltac:(right; by exists v, w, x) ltac:(by apply agree_insert; [apply T|])). unfold t_insert. runs.
  match type of D with (match ?t with (_, _) => _ end) => destruct t as [[[]|e| |] s']; [|done|done|done] end. runs. destruct D as (Em & T' & Ca).
  split; [done|]. exists G. split; [apply hist_grows_refl|]. by split.
Qed.

(** The contents when a key is looked up. *)
Definition reap (C : content) k (now : Z) : content :=
  match C !! k with Some (_, Some x) => if x <=? now then delete k C else C | _ => C end.

Lemma t_live_ok C G pins s k now : tier_ok C G pins s ->
  outcome True (reap C k now) (fun o s' => o = tmap s' !! k) G pins s (t_live k now s).
Proof.
  intros T. pose proof (t_agree _ _ _ _ T k) as A. unfold t_live, reap. runs. destruct (tmap s !! k) as [e|] eqn:E; destruct (C !! k) as [[d x]|] eqn:Ec; try done.
  - destruct A as [Ex _]. unfold t_expired. rewrite Ex. destruct x as [x|]; [|by apply outcome_ret]. destruct (x <=? now); [|by apply outcome_ret].
    eapply outcome_bind; [by apply t_remove_ok|]. intros a G1 s1 _ [_ Em] T1. apply outcome_ret; [done|]. rewrite Em. by rewrite lookup_delete_eq.
  - by apply outcome_ret.
Qed.

Lemma agree_lookup C G pins s k : tier_ok C G pins s -> (tmap s !! k = None <-> C !! k = None).
Proof. intros T. pose proof (t_agree _ _ _ _ T k) as A. destruct (tmap s !! k), (C !! k) as [[]|]; done. Qed.

(** *** Renaming *)

Definition forward (e : TEntry) (dst : list byte) rn : gmap (Z * Z) (list byte) :=
  match tvalue e with Cold c => <[addr c := dst]> rn | Hot _ _ => rn end.

Lemma ready_rename G pins m rn w src dst e : ready G pins (mkOwner m rn) w -> m !! dst = None -> m !! src = Some e -> src <> dst ->
  ready G pins (mkOwner (<[dst := e]> (delete src m)) (forward e dst rn)) w.
Proof.
  intros R Nd Es Ne. pose proof R as [(_ & _ & (F & _)) _]. destruct F as [F1 F2]. cbn [o_map o_renames] in F1, F2.
  assert (Sd : forall j, stub (<[dst := e]> (delete src m)) j = if decide (j = dst) then stub m src else if decide (j = src) then None else stub m j).
  { intros j. rewrite stub_insert, stub_delete. case_decide; [|done]. unfold stub. rewrite Es. cbn. by destruct (tvalue e). }
  assert (Fw : forall c, stub m src = Some c -> forward e dst rn = <[addr c := dst]> rn).
  { intros c E. destruct (stub_entry _ _ _ E) as [x Ex]. unfold forward. assert (e = mkTEntry (Cold c) x) as -> by congruence. done. }
  assert (Fo : forall j c, j <> src -> stub m j = Some c -> forward e dst rn !! addr c = rn !! addr c).
  { intros j c N E. destruct (stub m src) as [cs|] eqn:Ess; [|unfold stub in Ess; rewrite Es in Ess; unfold forward; cbn in Ess; by destruct (tvalue e)].
    rewrite (Fw cs eq_refl), lookup_insert_ne; [done|]. intros A. apply N. by eapply F2. }
  assert (Nst : stub m dst = None) by (unfold stub; by rewrite Nd).
  apply (ready_reslot cpu G pins _ _ w R); cbn [knows slot_ref claim store_owner_laws].
  - split; cbn [o_map o_renames].
    + intros j c. rewrite Sd. case_decide as D; [|case_decide as D'; [done|]]; intros E.
      * subst j. destruct (F1 src c E) as (kk & Hk & _). exists kk. split; [done|]. right. rewrite (Fw c E). apply lookup_insert_eq.
      * destruct (F1 j c E) as (kk & Hk & H). exists kk. split; [done|]. destruct H as [->|H]; [by left|right; by rewrite (Fo j c D' E)].
    + assert (Src : forall j c c', j <> src -> stub m src = Some c -> stub m j = Some c' -> addr c <> addr c') by (intros j c c' N E E' A; by apply N, (F2 j src c' c)).
      intros j j' c c'. rewrite !Sd. destruct (decide (j = dst)) as [->|], (decide (j' = dst)) as [->|]; [done| | |].
      * destruct (decide (j' = src)); [done|]. intros E E' A. by destruct (Src j' c c').
      * destruct (decide (j = src)); [done|]. intros E E' A. by destruct (Src j c' c).
      * destruct (decide (j = src)); [done|]. destruct (decide (j' = src)); [done|]. by apply F2.
  - intros j r (c & E & <-)%owner_slot_Some. cbn [o_map] in E. rewrite Sd in E. case_decide; [|case_decide; [done|]]; eexists; apply owner_slot_Some; by exists c.
  - intros f. cbn [o_map]. rewrite msum_put, msum_drop. unfold at_key. rewrite Es, lookup_delete_ne, Nd by done. unfold cost. lia.
Qed.

Definition move_content (C : content) (src dst : list byte) : content :=
  match C !! src with Some c => <[dst := c]> (delete src C) | None => C end.

Definition rename_content (C : content) (src dst : list byte) (nx : bool) (now : Z) : content :=
  let C := reap C src now in
  match C !! src with
  | None => C
  | Some _ =>
      if bool_decide (src = dst) then C
      else if nx then let C := reap C dst now in if bool_decide (is_Some (C !! dst)) then C else move_content C src dst
      else move_content C src dst
  end.

Definition rename_reply (C : content) (src dst : list byte) (nx : bool) (now : Z) : RenameOutcome :=
  let C := reap C src now in
  if negb (bool_decide (is_Some (C !! src))) then NoSuchSrc
  else if bool_decide (src = dst) then (if nx then DstExists else Renamed)
  else if nx && bool_decide (is_Some (reap C dst now !! dst)) then DstExists
  else Renamed.

Lemma note_renamed_run e src dst s : exists n b st : Z,
  tier_note_renamed (tvalue e) src dst s = (Ok tt, set_renames (forward e dst (renames s)) (set_gauges n b st s)).
Proof.
  unfold tier_note_renamed, forward. destruct (tvalue e) as [v w|c]; runs; [exists (cold_keys s), (cold_bytes s), (stub_bytes s); by destruct s|]. do 3 eexists. reflexivity.
Qed.

Lemma t_move_ok C1 G1 pins s1 src dst e (c : meaning * option Z) : tier_ok C1 G1 pins s1 -> tmap s1 !! src = Some e -> C1 !! src = Some c -> src <> dst ->
  outcome True (move_content C1 src dst) (fun o _ => o = Renamed) G1 pins s1 (t_move src dst s1).
Proof.
  intros T1 E Ec Ne. unfold move_content. rewrite Ec. pose proof (t_agree _ _ _ _ T1 src) as A1. rewrite E, Ec in A1. unfold t_move.
  unfold t_take. runs. rewrite E. runs. unfold t_remove, t_take. runs. cbn [tmap set_tmap]. rewrite lookup_delete_ne by done. set (s2 := set_tmap (delete src (tmap s1)) s1).
  (* discarding what the target held *)
  pose proof (discard_ok C1 G1 pins s1 (delete dst (tmap s1)) (delete dst C1) dst T1 (or_introl eq_refl) (agree_delete _ _ _ _ (t_agree _ _ _ _ T1))) as D.
  assert (Fin : forall s3, tmap s3 = delete dst (delete src (tmap s1)) -> ready G1 pins (mkOwner (delete dst (tmap s1)) (renames s3)) (world s3) ->
    (calm G1 (world s1) -> calm G1 (world s3)) ->
    outcome True (<[dst := c]> (delete src C1)) (fun o _ => o = Renamed) G1 pins s1 ((_ ← tier_note_renamed (tvalue e) src dst; _ ← t_insert dst e; mret Renamed) s3)).
  { intros s3 Em R3 Ca. destruct (note_renamed_run e src dst s3) as (k & b & st & Er). runs. rewrite Er. unfold t_insert. runs. cbn [tmap set_renames set_gauges set_tmap].
    rewrite Em, lookup_delete_eq. runs. split; [done|]. exists G1. split; [apply hist_grows_refl|]. split; [|by intros _].
    assert (Em2 : <[dst := e]> (delete dst (delete src (tmap s1))) = <[dst := e]> (delete src (delete dst (tmap s1)))) by by rewrite delete_delete.
    constructor; unfold owner_of; cbn [tmap renames world set_tmap set_renames set_gauges].
    - rewrite Em2. apply ready_rename; [done|apply lookup_delete_eq|by rewrite lookup_delete_ne|done].
    - intros j. rewrite insert_delete_eq. apply agree_insert; [apply agree_delete, T1|]. done. }
  destruct (tmap s1 !! dst) as [old|] eqn:Ed; runs.
  - destruct (tvalue old) as [v w|cd] eqn:Ev.
    + cbn [tier_note_dead]. runs. apply Fin; [done| |done]. destruct D as (_ & [R _] & _). exact R.
    + destruct (ready_unstub G1 pins _ _ _ (delete dst (tmap s1)) dst cd (t_ready _ _ _ _ T1)) as (fs' & En & R'); [unfold stub; rewrite Ed; cbn; by rewrite Ev|by left|].
      rewrite (note_dead_run _ cd (set_tmap (delete dst (delete src (tmap s1))) s2) _ En). runs. apply Fin; [done|exact R'|done].
  - apply Fin; [done| |done]. destruct D as (_ & [R _] & _). exact R.
Qed.

Lemma reap_other (C : content) k j now : j <> k -> reap C k now !! j = C !! j.
Proof. intros N. unfold reap. destruct (C !! k) as [[d [x|]]|]; [|done|done]. destruct (x <=? now); [by rewrite lookup_delete_ne|done]. Qed.

Lemma t_rename_ok C G pins s src dst nx now : tier_ok C G pins s ->
  outcome True (rename_content C src dst nx now) (fun o _ => o = rename_reply C src dst nx now) G pins s (t_rename src dst nx now s).
Proof.
  intros T. unfold t_rename, rename_content, rename_reply. eapply outcome_bind; [by apply t_live_ok|]. intros o G1 s1 _ -> T1. set (C1 := reap C src now) in *.
  pose proof (agree_lookup _ _ _ _ src T1) as Ag. destruct (tmap s1 !! src) as [e|] eqn:E; destruct (C1 !! src) as [c|] eqn:Ec; [|by destruct Ag as [_ Ag]; specialize (Ag eq_refl)|by destruct Ag as [Ag _]; specialize (Ag eq_refl)|].
  2: { apply outcome_ret; [done|]. by rewrite bool_decide_false by by intros []. }
  rewrite (bool_decide_true (is_Some (Some c))) by done. cbn [negb]. destruct (bool_decide_reflect (src = dst)) as [->|Ne]; [by apply outcome_ret|].
  destruct nx; cbn [andb]; [|by eapply t_move_ok]. eapply outcome_bind; [by apply t_live_ok|]. intros d G2 s2 _ -> T2. pose proof (agree_lookup _ _ _ _ dst T2) as Ad.
  destruct (tmap s2 !! dst) as [ed|] eqn:Ed.
  - rewrite bool_decide_true; [by apply outcome_ret|]. apply not_eq_None_Some. intros H. by destruct Ad as [_ Ad]; specialize (Ad H).
  - destruct Ad as [Ad _]. rewrite (Ad eq_refl), bool_decide_false by by intros []. assert (Ec2 : reap C1 dst now !! src = Some c) by (by rewrite reap_other).
    destruct (tmap s2 !! src) as [e2|] eqn:E2; [by eapply t_move_ok|]. apply (agree_lookup _ _ _ _ src T2) in E2. congruence.
Qed.

(** *** Flushing *)

Lemma t_flushall_ok C G pins s : tier_ok C G pins s -> outcome True ∅ (fun _ _ => True) G pins s (t_flushall s).
Proof.
  intros T. unfold t_flushall, tier_on_flushall, on_vlog. runs. cbn [world set_tmap].
  destruct (ready_flush cpu G pins (owner_of s) (mkOwner ∅ ∅) (world s) (t_ready _ _ _ _ T)) as (fs' & -> & R').
  - split; cbn [o_map]; intros k; unfold stub; by rewrite lookup_empty.
  - intros k. unfold slot_ref. cbn. unfold owner_slot, stub. cbn [o_map]. by rewrite lookup_empty.
  - runs. split; [done|]. exists G. split; [apply hist_grows_refl|]. split; [|by intros _]. constructor; [exact R'|]. intros k. cbn [tmap set_gauges set_renames set_world set_tmap]. by rewrite !lookup_empty.
Qed.

(** *** Reading *)

Lemma calm_small G w r rc : calm G w -> at_ref G r rc -> small rc.
Proof. intros (_ & _ & C3) (h & pre & post & E & R & _). eapply C3; [exact E|]. rewrite R. apply elem_of_app. right. by left. Qed.

Lemma read_at_cases G pins w r rc : VlogSpec.inv cpu G pins (own w) w -> at_ref G r rc -> file_id r ∈ ids (log w) ->
  exists out, (outcomes w = [] -> out = []) /\ let w1 := with_outcomes (fun _ => out) w in
    (read cpu r w = (Ok (r_key rc, r_payload rc), w1) \/ exists er, read cpu r w = (Err er, w1) /\ ~ calm G w).
Proof.
  intros I A Hi. pose proof (log_get_at cpu _ _ _ _ _ _ I A Hi) as L. unfold log_get in L. unfold read. runs. destruct (find_file (log w) (file_id r)) as [f|] eqn:F.
  2: { destruct (MAX_BODY <? len r); discriminate L. }
  destruct (file_read_cases cpu (handle f) r w) as (out & Q & [E|[E No]]); exists out; (split; [exact Q|]); cbv zeta; rewrite E.
  - assert (Ei : vf_id (handle f) = file_id r).
    { unfold find_file in F. destruct (list_find _ _) as [[i f']|] eqn:Lf; [|done]. injection F as ->. by apply list_find_Some in Lf as (_ & ? & _). }
    rewrite Ei, L. destruct (Z.ltb_spec MAX_BODY (len r)) as [Big|]; [right|by left]. eexists. split; [done|]. intros Ca. pose proof (calm_small _ _ _ _ Ca A) as Sm.
    destruct A as (h & pre & post & Eh & R & _ & Ln). destruct (i_hist _ _ _ _ _ I _ _ Eh) as [(_ & _ & Fr) _]. rewrite R, list.Forall_app, list.Forall_cons in Fr. destruct Fr as (_ & (_ & _ & Fr) & _).
    unfold small in Sm. unfold body_of in Ln. rewrite record_body_blen in Ln. lia.
  - right. exists Os. split; [done|]. by intros (C1 & _).
Qed.

Lemma tier_ok_outcomes C G pins s out a b p q : (outcomes (world s) = [] -> out = []) -> tier_ok C G pins s ->
  tier_ok C G pins (set_world (with_outcomes (fun _ => out) (world s)) (add_totals a b p q s)).
Proof. intros Q [[S Cl] A]. constructor; [|done]. split; [|done]. by apply st_outcomes. Qed.

Lemma spilled_small G pins w r rc : VlogSpec.inv cpu G pins (own w) w -> at_ref G r rc -> blen (r_payload rc) < 2 ^ 32.
Proof.
  intros I (h & pre & post & Eh & R & _). destruct (i_hist _ _ _ _ _ I _ _ Eh) as [(_ & _ & Fr) _]. rewrite R, list.Forall_app, list.Forall_cons in Fr.
  destruct Fr as (_ & (_ & Sz & _) & _). unfold MAX_BODY in Sz. blen_pos. lia.
Qed.

(** A stub's record, read and decoded, is its value. *)
Lemma read_record_ok C G pins s k c x d x' shapes form : tier_ok C G pins s -> tmap s !! k = Some (mkTEntry (Cold c) x) -> C !! k = Some (d, x') -> Forall NoDup shapes ->
  outcome True C (fun v s' => means v d /\ tmap s' = tmap s) G pins s (tier_read_record_as cpu c shapes form s).
Proof.
  intros T E Ec Ns. pose proof (t_ready _ _ _ _ T) as [(I & _ & (_ & C2 & _)) _]. pose proof (t_agree _ _ _ _ T k) as A. rewrite E, Ec in A. destruct A as [_ (rc & A & (v & Mv & Ev))].
  assert (Hi : file_id (vref c) ∈ ids (log (world s))).
  { destruct (C2 k (vref c)) as (kk & rc' & _ & _ & Hi); [|done]. apply owner_slot_Some. exists c. split; [|done]. unfold stub. cbn [o_map owner_of]. by rewrite E. }
  destruct (read_at_cases G pins (world s) (vref c) rc I A Hi) as (out & Q & Rd). unfold tier_read_record_as, expected, on_vlog. runs. cbn [world add_totals].
  cbv zeta in Rd. destruct Rd as [Rd|(er & Rd & Nc)]; rewrite Rd; runs; [|left; by intros _]. cbn [snd].
  destruct (decode_encoded order v d (r_payload rc) (cr_type_tag c) (blen (r_payload rc)) shapes form Ho Mv Ev) as (v' & Ed & Mv'); [by eapply spilled_small|done|].
  unfold to_vec. rewrite Ed. cbn [run]. runs. split; [done|]. exists G. split; [apply hist_grows_refl|].
  split; [by apply tier_ok_outcomes|]. intros _ Ca. by apply calm_outcomes.
Qed.

(** *** Promotion *)

Lemma promoted_ok C G pins s k packed shapes : tier_ok C G pins s -> Forall NoDup shapes ->
  outcome True C (fun b s' => (b = false -> tmap s' = tmap s) /\ stub (tmap s') k = None) G pins s (promote_in_place cpu weigh k packed shapes s).
Proof.
  intros T Ns. unfold promote_in_place. runs. destruct (tmap s !! k) as [[[v w|c] x]|] eqn:E.
  - apply outcome_ret; [done|]. split; [done|]. unfold stub. by rewrite E.
  - pose proof (t_agree _ _ _ _ T k) as A. rewrite E in A. destruct (C !! k) as [[d x']|] eqn:Ec; [|done]. destruct A as [Ex _]. cbn [texpire] in Ex. subst x'.
    eapply outcome_bind; [by apply (read_record_ok C G pins s k c x d x)|]. intros v G1 s1 Gr [Mv Em] T1. runs. unfold on_vlog. cbn [world set_tmap].
    assert (Es : stub (tmap s1) k = Some c) by (unfold stub; by rewrite Em, E).
    destruct (ready_unstub G1 pins _ _ _ (<[k := mkTEntry (Hot v (weigh v)) x]> (tmap s1)) k c (t_ready _ _ _ _ T1) Es) as (fs' & -> & R'); [right; by do 3 eexists|]. runs.
    split; [split; [done|]; cbn; by rewrite stub_insert, decide_True|]. exists G1. split; [apply hist_grows_refl|]. split; [|by intros _]. constructor; [exact R'|].
    cbn [tmap set_gauges set_renames set_world set_tmap add_totals]. rewrite <- Em in E. by eapply agree_same; [apply T1|exact E|exact Ec| |].
  - apply outcome_ret; [done|]. split; [done|]. unfold stub. by rewrite E.
Qed.

(** *** Demotion *)

(** The bytes a value spills as. *)
Definition meaning_size (d : meaning) : Z :=
  match d with MString b => blen b | MHash h => 4 + blen (chunks (map_to_list h)) | MOther => 0 end.

Lemma chunks_perm ps qs : ps ≡ₚ qs -> blen (chunks ps) = blen (chunks qs).
Proof. induction 1 as [|p ps qs _ IH|p q ps|ps qs rs _ IH1 _ IH2]; [done| | |lia]; rewrite !chunks_cons, !blen_app; lia. Qed.

Lemma spilled_size p tag d : spilled p tag d -> blen p = meaning_size d.
Proof.
  intros (v & M & E). pose proof (encode_means order v d p tag Ho M E) as S. destruct d as [b|h|]; [by destruct S as [-> _]| |done].
  destruct S as (ps & flag & -> & _ & _ & Nd & ->). rewrite blen_app, to_le_bytes_blen. cbn [meaning_size]. f_equal. apply chunks_perm. symmetry. by apply map_to_list_to_map.
Qed.

(** A value with room for its frame header. *)
Definition modest_key (C : content) k : Prop := forall d x, C !! k = Some (d, x) -> 4 + blen k + meaning_size d + 6 <= MAX_BODY.

(** A hot value gives way to a stub on the record just appended. *)
Lemma ready_stub G G' pins m rn w w' k v wt x payload new st : ready G pins (mkOwner m rn) w -> grows G G' -> VlogSpec.inv cpu G' pins (own w) w' -> ext w w' ->
  appended cpu G G' w w' k payload new -> m !! k = Some (mkTEntry (Hot v wt) x) -> vref st = new -> ready G' pins (mkOwner (<[k := mkTEntry (Cold st) x]> m) rn) w'.
Proof.
  intros R Gr I' X Ap E Ev. pose proof (appended_fresh cpu _ _ _ _ _ _ _ _ _ R Ap) as Fr. pose proof R as [(_ & _ & (F & _)) _].
  assert (Kn : key_at G' w' new k).
  { pose proof (appended_id _ _ _ _ _ _ _ _ Ap). destruct Ap as (rc & A & Ek & _). by exists rc. }
  assert (Sk : stub m k = None) by (unfold stub; by rewrite E).
  assert (St : forall j, stub (<[k := mkTEntry (Cold st) x]> m) j = if decide (j = k) then Some st else stub m j) by (intros j; by rewrite stub_insert).
  apply (ready_point cpu G G' pins (mkOwner m rn) _ w w' k payload new R Gr I' X Ap); cbn [knows slot_ref claim store_owner_laws].
  - destruct F as [F1 F2]. split; cbn [o_map o_renames] in *.
    + intros j c. rewrite St. case_decide as D; [intros [= <-]; subst j; exists k; rewrite Ev; by split; [|left]|]. intros Ej. destruct (F1 j c Ej) as (kk & Hk & H). exists kk. split; [|done].
      by eapply key_at_ext.
    + intros j j' c c'. rewrite !St. assert (Nw : forall i ci, stub m i = Some ci -> addr ci <> addr st).
      { intros i ci Ei A. apply (Fr i (vref ci)); [apply owner_slot_Some; by exists ci|]. rewrite <- Ev. unfold addr in A. by injection A. }
      case_decide; case_decide; [congruence| | |by apply F2].
      * intros [= <-] E' A. by destruct (Nw j' c' E').
      * intros E' [= <-] A. by destruct (Nw j c E').
  - intros j. unfold owner_slot. cbn [o_map]. rewrite St. case_decide; [right; cbn; by rewrite Ev|by left].
  - intros f. cbn [o_map]. rewrite msum_put. unfold at_key. rewrite E. cbn [cost tvalue]. rewrite <- Ev. cbn [vref file_id len]. destruct (decide (cr_file_id st = f)), (decide (f = cr_file_id st)); try congruence; lia.
Qed.

Lemma demote_ok C G pins s k now : tier_ok C G pins s ->
  outcome (modest_key C k) C (fun _ _ => True) G pins s (demote_in_place cpu order k now s).
Proof.
  intros T. unfold demote_in_place. runs. destruct (tmap s !! k) as [[[v wt|c] x]|] eqn:E; [|by runs; apply outcome_ret|by apply outcome_ret].
  unfold spill_payload. cbn [tvalue]. destruct (_ || _); [by runs; apply outcome_ret|]. pose proof (t_agree _ _ _ _ T k) as A. rewrite E in A. destruct (C !! k) as [[d x']|] eqn:Ec; [|done]. destruct A as [Ex Mv].
  cbn [texpire tvalue holds_value] in *. subst x'. destruct (encode_runs order v d Ho Mv) as [o Eo]. rewrite Eo. cbn [run]. runs. destruct o as [[p tag]|]; [|by apply outcome_ret].
  assert (Sp : spilled p tag d) by by exists v. unfold caught, on_vlog, append. runs. pose proof (t_ready _ _ _ _ T) as R. pose proof R as [(I & Ne & _) _].
  pose proof (append_level_ok cpu G pins (own (world s)) (world s) k p false I Ne) as Ap.
  assert (Sm : modest_key C k -> forall rc, rec_for k p rc -> small rc).
  { intros M rc [Ek Ep]. specialize (M d x Ec). rewrite <- (spilled_size _ _ _ Sp) in M. unfold small. rewrite Ek, Ep. lia. }
  destruct (append_level cpu k p false (world s)) as [[new|er| |] w']; [| |right; left; apply Ap|done].
  - destruct Ap as (G' & Gr & Ad & I' & X & Apd & Sz). runs. split; [done|]. exists G'. split; [done|]. set (st := mkCold _ _ _ _ _ _).
    split; [|intros M Ca; eapply (calm_ext cpu (rec_for k p) G G' pins (own (world s))); try done; intros _; by apply Sm]. constructor.
    + change (ready G' pins (mkOwner (<[k := mkTEntry (Cold st) x]> (tmap s)) (renames s)) w'). by eapply ready_stub; [exact R| | | | |exact E|destruct new].
    + change (forall j, agree G' (<[k := mkTEntry (Cold st) x]> (tmap s) !! j) (C !! j)). eapply agree_same; [intros j; eapply agree_grows; [exact Gr|apply T]|exact E|exact Ec|done|].
      destruct Apd as (rc & A & _ & Ep & _). exists rc. rewrite Ep. split; [by destruct new|done].
  - destruct Ap as (G' & Gr & Ad & I' & X & _). runs. split; [done|]. exists G'. split; [done|].
    split; [|intros M Ca; eapply (calm_ext cpu (rec_for k p) G G' pins (own (world s))); try done; intros _; by apply Sm]. constructor.
    + by eapply ready_ext.
    + intros j. eapply agree_grows; [exact Gr|apply T].
Qed.

(** *** Compaction *)

(** An entry with the address of its record left out. *)
Definition forget e : TEntry := match tvalue e with Cold c => mkTEntry (Cold (repoint (mkRef 0 0 0) c)) (texpire e) | Hot _ _ => e end.

Definition readdressed (o o' : StoreOwner) : Prop := forget <$> o_map o = forget <$> o_map o'.

#[local] Instance readdressed_preorder : PreOrder readdressed.
Proof. split; [done|]. intros a b c. unfold readdressed. congruence. Qed.

Lemma moved_readdressed key old new o o' : owner_moved key old new o = Ret o' -> readdressed o o'.
Proof.
  unfold owner_moved. destruct (resolve o key old) as [h|]; [|done]. cbn [expect mbind exec_bind]. destruct (o_map o !! h) as [[[v w|c] x]|] eqn:E; try done.
  cbn [expect mbind exec_bind tvalue texpire]. intros [= <-]. unfold readdressed. cbn [o_map]. rewrite fmap_insert. symmetry. apply insert_id. by rewrite lookup_fmap, E.
Qed.

Lemma compact_readdresses budget o w : readdressed o (fst (snd (compact_step cpu COMPACT_LIVE_PCT budget (o, w)))).
Proof. apply (keeps_step cpu readdressed ltac:(done) moved_readdressed _ _ (o, w)). Qed.

Lemma compact_ok C G pins s budget : tier_ok C G pins s -> 0 < budget -> outcome True C (fun n _ => 0 <= n) G pins s (tier_compact_step cpu budget s).
Proof.
  intros T Hb. unfold tier_compact_step, expected. pose proof (compact_readdresses budget (owner_of s) (world s)) as Rd.
  pose proof (step_ok cpu G pins (owner_of s) (world s) COMPACT_LIVE_PCT budget (2 ^ 32 - 1) (t_ready _ _ _ _ T)) as S.
  fold (compact_step cpu COMPACT_LIVE_PCT budget (owner_of s, world s)) in S. unfold owner_of in *.
  destruct (compact_step cpu COMPACT_LIVE_PCT budget (mkOwner (tmap s) (renames s), world s)) as [[n|er| |] [o' w']]; cbn [fst snd] in Rd; [| |right; exact S|done].
  - destruct S as (Hn & G' & Gr & R' & V & _ & Ca & _). split; [done|]. exists G'. split; [done|]. split; [|by intros _]. constructor; [by destruct o'|].
    cbn [tmap set_world set_renames set_tmap]. intros k. pose proof (t_agree _ _ _ _ T k) as A. apply (f_equal (fun m => m !! k)) in Rd. cbn [o_map] in Rd. rewrite !lookup_fmap in Rd.
    destruct (tmap s !! k) as [e|] eqn:E, (o_map o' !! k) as [e'|] eqn:E'; try discriminate Rd; [|done]. cbn in Rd. injection Rd as Rd. destruct (C !! k) as [[d x]|]; [|done]. destruct A as [Ex H].
    destruct e as [[v wt|c] x1], e' as [[v' wt'|c'] x2]; cbn in Rd; try discriminate Rd; injection Rd as <- <- <- || injection Rd; [by subst|]. intros Ex2 _ Et _. cbn [texpire] in *. subst.
    split; [done|]. destruct H as (rc & A & Sp). specialize (V k). cbn [slot_ref store_owner_laws] in V. unfold owner_slot, stub in V. cbn [o_map] in V. rewrite E, E' in V. cbn in V.
    destruct (V rc A) as (r' & rc' & [= <-] & A' & _ & Ep). exists rc'. rewrite Ep, <- Et. done.
  - destruct S as (Nc & _). left. by intros _.
Qed.

Lemma compact_tick_ok C G pins s : tier_ok C G pins s -> outcome True C (fun n _ => 0 <= n) G pins s (tier_compact_tick cpu s).
Proof. intros T. unfold tier_compact_tick. runs. destruct (compaction_pending _ _); [by apply compact_ok|by apply outcome_ret]. Qed.

(** *** The funnels *)

Definition type_tag (d : meaning) : Z := match d with MHash _ => COLD_TAG_HASH | _ => COLD_TAG_STRING end.

Lemma spilled_tag p tag d : spilled p tag d -> tag = type_tag d.
Proof.
  intros (v & M & E). pose proof (encode_means order v d p tag Ho M E) as S. destruct d as [b|h|]; [by destruct S as [_ ->]| |done]. by destruct S as (ps & flag & _ & -> & _).
Qed.

Lemma reap_again (C : content) k now : reap (reap C k now) k now = reap C k now.
Proof.
  unfold reap. destruct (C !! k) as [[d [x|]]|] eqn:E; [|by rewrite E|by rewrite E]. destruct (x <=? now) eqn:X; [by rewrite lookup_delete_eq|by rewrite E, X].
Qed.

Definition answered (o : option (meaning * option Z)) (want : Z) (a : served) : Prop :=
  match a with
  | Missing => o = None
  | Wrong => exists d x, o = Some (d, x) /\ type_tag d <> want
  | Served (Hot v _) => exists d x, o = Some (d, x) /\ means v d
  | Served (Cold _) => False
  end.

(** A hot key, looked up again. *)
Lemma hot_again C G pins s k now want : tier_ok (reap C k now) G pins s -> stub (tmap s) k = None ->
  outcome True (reap C k now) (fun a _ => answered (reap C k now !! k) want a) G pins s
    ((e ← t_live k now; mret (match e with Some e => Served (tvalue e) | None => Missing end)) s).
Proof.
  intros T Sk. pose proof (t_live_ok _ _ _ _ k now T) as L. rewrite reap_again in L. unfold t_live in *. runs. rewrite bind_eq in L. cbn [gets] in L. pose proof (t_agree _ _ _ _ T k) as A.
  destruct (tmap s !! k) as [e|] eqn:E; [|runs; apply outcome_ret; [done|]; by destruct (reap C k now !! k)].
  destruct (reap C k now !! k) as [[d x]|] eqn:Ec; [|done]. assert (Nx : t_expired e now = false).
  { unfold t_expired. destruct A as [-> _]. revert Ec. unfold reap. destruct (C !! k) as [[d' [x'|]]|] eqn:Ec'; [destruct (x' <=? now) eqn:X; [by rewrite lookup_delete_eq|]| |]; rewrite Ec'; intros [= -> <-]; done. }
  rewrite Nx. runs. apply outcome_ret; [done|]. unfold stub in Sk. rewrite E in Sk. cbn in Sk. destruct e as [[v w|c] x0]; cbn [tvalue] in *; [|discriminate Sk]. destruct A as [_ A]. by exists d, x.
Qed.

Lemma ready_touch G pins m rn w k c x : ready G pins (mkOwner m rn) w -> m !! k = Some (mkTEntry (Cold c) x) ->
  ready G pins (mkOwner (<[k := mkTEntry (Cold (touch c)) x]> m) rn) w.
Proof.
  intros R E. pose proof R as [(_ & _ & (F & _)) _]. destruct F as [F1 F2]. cbn [o_map o_renames] in F1, F2. assert (Sk : stub m k = Some c) by (unfold stub; by rewrite E).
  assert (St : forall j c', stub (<[k := mkTEntry (Cold (touch c)) x]> m) j = Some c' -> exists c0, stub m j = Some c0 /\ vref c' = vref c0 /\ addr c' = addr c0).
  { intros j c'. rewrite stub_insert. case_decide; [intros [= <-]; subst; by exists c|intros H'; by exists c']. }
  apply (ready_reslot cpu G pins _ _ w R); cbn [knows slot_ref claim store_owner_laws].
  - split; cbn [o_map o_renames].
    + intros j c' H. destruct (St j c' H) as (c0 & E0 & -> & ->). by apply F1.
    + intros j j' c1 c2 H1 H2. destruct (St j c1 H1) as (c3 & E3 & _ & ->), (St j' c2 H2) as (c4 & E4 & _ & ->). by apply F2.
  - intros j r (c' & H & <-)%owner_slot_Some. destruct (St j c' H) as (c0 & E0 & -> & _). exists j. apply owner_slot_Some. by exists c0.
  - intros f. cbn [o_map]. rewrite msum_put. unfold at_key. rewrite E. cbn [cost tvalue touch cr_file_id cr_len]. lia.
Qed.

Lemma serve_cold_ok C G pins s k c x d x' want peek shapes : tier_ok C G pins s -> tmap s !! k = Some (mkTEntry (Cold c) x) -> C !! k = Some (d, x') -> Forall NoDup shapes ->
  outcome True C (fun a _ => answered (Some (d, x')) want a) G pins s (tier_serve_cold cpu weigh k peek shapes s).
Proof.
  intros T E Ec Ns. unfold tier_serve_cold. runs. rewrite E. set (c1 := if peek then c else touch c).
  assert (T1 : tier_ok C G pins (set_tmap (<[k := mkTEntry (Cold c1) x]> (tmap s)) s)).
  { destruct T as [R A]. unfold c1. destruct peek; [rewrite insert_id by done; by destruct s|]. constructor; [by apply ready_touch|].
    pose proof (A k) as Ak. rewrite E, Ec in Ak. destruct Ak as [Ex H]. by eapply agree_same. }
  runs. apply (outcome_from (set_tmap (<[k := mkTEntry (Cold c1) x]> (tmap s)) s)); [done|]. eapply (outcome_bind True C); [eapply (read_record_ok C G pins _ k c1 x d x'); [exact T1|apply lookup_insert_eq|done|done]|].
  intros v G1 s1 Gr [Mv _] T2. runs. split; [by exists d, x'|]. exists G1. split; [apply hist_grows_refl|]. split; [|by intros _]. destruct T2 as [R2 A2]. by constructor.
Qed.

Lemma serve_ok C G pins s k want now peek packed shapes : tier_ok C G pins s -> Forall NoDup shapes ->
  outcome True (reap C k now) (fun a _ => answered (reap C k now !! k) want a) G pins s (tier_serve cpu weigh k want now now peek packed shapes s).
Proof.
  intros T Ns. unfold tier_serve. eapply outcome_bind; [by apply t_live_ok|]. intros o G1 s1 _ -> T1. pose proof (t_agree _ _ _ _ T1 k) as A.
  destruct (tmap s1 !! k) as [[[v w|c] x]|] eqn:E; cbn [fmap option_fmap option_map tvalue].
  - apply hot_again; [done|]. unfold stub. by rewrite E.
  - destruct (reap C k now !! k) as [[d x']|] eqn:Ec; [|done]. destruct A as [_ (rc & _ & Sp)]. apply spilled_tag in Sp. destruct (Z.eqb_spec (cr_type_tag c) want) as [Ew|Nw]; cbn [negb].
    2: { apply outcome_ret; [done|]. exists d, x'. split; [done|congruence]. }
    destruct peek; [by eapply serve_cold_ok|]. destruct (negb (cr_touched c =? 0)); [|by eapply serve_cold_ok].
    eapply outcome_bind; [by apply promoted_ok|]. intros b G2 s2 _ [_ Sk] T2. rewrite <- Ec. by apply hot_again.
  - apply outcome_ret; [done|]. by destruct (reap C k now !! k).
Qed.

Lemma resolve_ok C G pins s k want now packed shapes : tier_ok C G pins s -> Forall NoDup shapes ->
  outcome True (reap C k now) (fun a s' => match a with None => stub (tmap s') k = None | Some er => er = WrongType /\ exists d x, reap C k now !! k = Some (d, x) /\ type_tag d <> want end)
    G pins s (tier_resolve cpu weigh k want now packed shapes s).
Proof.
  intros T Ns. unfold tier_resolve. eapply outcome_bind; [by apply t_live_ok|]. intros o G1 s1 _ -> T1. pose proof (t_agree _ _ _ _ T1 k) as A.
  destruct (tmap s1 !! k) as [[[v w|c] x]|] eqn:E; cbn [fmap option_fmap option_map tvalue]; [apply outcome_ret; [done|]; unfold stub; by rewrite E| |apply outcome_ret; [done|]; unfold stub; by rewrite E].
  destruct (reap C k now !! k) as [[d x']|] eqn:Ec; [|done]. destruct A as [_ (rc & _ & Sp)]. apply spilled_tag in Sp. destruct (Z.eqb_spec (cr_type_tag c) want) as [Ew|Nw]; cbn [negb].
  - eapply outcome_bind; [by apply promoted_ok|]. intros b G2 s2 _ [_ Sk] T2. by apply outcome_ret.
  - apply outcome_ret; [done|]. split; [done|]. exists d, x'. split; [done|congruence].
Qed.

(** ** Any sequence of operations *)

Inductive tier_op :=
| Put (k : list byte) (v : CValue) (w : Z) (x : option Z) (d : meaning)
| Del (k : list byte)
| Rename (src dst : list byte) (nx : bool) (now : Z)
| FlushAll
| Demote (k : list byte) (now : Z)
| Compact (budget : Z)
| CompactTick
| Resolve (k : list byte) (want now : Z) (packed_rows : bool) (shapes : list ColumnNames)
| Serve (k : list byte) (want now : Z) (peek packed_rows : bool) (shapes : list ColumnNames).

(** What an operation is given: a value of the meaning said, tables with distinct
    columns, a positive budget. *)
Definition op_ok (op : tier_op) : Prop :=
  match op with
  | Put _ v _ _ d => means v d
  | Compact budget => 0 < budget
  | Resolve _ _ _ _ shapes | Serve _ _ _ _ _ shapes => Forall NoDup shapes
  | _ => True
  end.

Definition run_op (op : tier_op) : prog TierStore (option served) :=
  match op with
  | Put k v w x _ => _ ← t_insert k (mkTEntry (Hot v w) x); mret None
  | Del k => _ ← t_remove k; mret None
  | Rename src dst nx now => _ ← t_rename src dst nx now; mret None
  | FlushAll => _ ← t_flushall; mret None
  | Demote k now => _ ← demote_in_place cpu order k now; mret None
  | Compact budget => _ ← tier_compact_step cpu budget; mret None
  | CompactTick => _ ← tier_compact_tick cpu; mret None
  | Resolve k want now packed shapes => _ ← tier_resolve cpu weigh k want now packed shapes; mret None
  | Serve k want now peek packed shapes => a ← tier_serve cpu weigh k want now now peek packed shapes; mret (Some a)
  end.

(** The same on the contents: only writes, and expired keys looked up, change them. *)
Definition op_content (C : content) (op : tier_op) : content :=
  match op with
  | Put k _ _ x d => <[k := (d, x)]> C
  | Del k => delete k C
  | Rename src dst nx now => rename_content C src dst nx now
  | FlushAll => ∅
  | Demote _ _ | Compact _ | CompactTick => C
  | Resolve k _ now _ _ | Serve k _ now _ _ _ => reap C k now
  end.

Definition op_answer (C : content) (op : tier_op) (a : option served) : Prop :=
  match op, a with
  | Serve k want now _ _ _, Some a => answered (reap C k now !! k) want a
  | Serve _ _ _ _ _ _, None => False
  | _, _ => a = None
  end.

Fixpoint run_ops (ops : list tier_op) : prog TierStore (list (option served)) :=
  match ops with
  | [] => mret []
  | op :: ops => a ← run_op op; rest ← run_ops ops; mret (a :: rest)
  end.

Fixpoint answers (C : content) (ops : list tier_op) (l : list (option served)) : Prop :=
  match ops, l with
  | [], [] => True
  | op :: ops, a :: l => op_answer C op a /\ answers (op_content C op) ops l
  | _, _ => False
  end.

(** Every value along the way leaves room for its frame header. *)
Fixpoint modest (C : content) (ops : list tier_op) : Prop :=
  (forall k, modest_key C k) /\ match ops with [] => True | op :: ops => modest (op_content C op) ops end.

Lemma done_after {A : Type} M C (Q : A -> TierStore -> Prop) G pins s (m : prog TierStore A) : outcome M C Q G pins s (m s) ->
  outcome M C (fun a _ => a = None) G pins s ((_ ← m; mret (None : option served)) s).
Proof. intros H. eapply outcome_bind; [exact H|]. intros a G1 s1 _ _ T. by apply outcome_ret. Qed.

Lemma run_op_ok C G pins s op : tier_ok C G pins s -> op_ok op ->
  outcome (forall k, modest_key C k) (op_content C op) (fun a _ => op_answer C op a) G pins s (run_op op s).
Proof.
  intros T O. assert (P : forall {A : Type} C' (Q : A -> TierStore -> Prop) (m : prog TierStore A), outcome True C' Q G pins s (m s) ->
    outcome (forall k, modest_key C k) C' (fun a _ => a = None) G pins s ((_ ← m; mret (None : option served)) s)).
  { intros A C' Q m H. apply (outcome_weaken True _ _ (fun a _ => a = None)); [done|done|]. by eapply done_after. }
  destruct op; cbn [run_op op_content op_answer op_ok] in *.
  - eapply P. by apply t_put_ok.
  - eapply P. by apply t_remove_ok.
  - eapply P. by apply t_rename_ok.
  - eapply P. by eapply t_flushall_ok.
  - apply (outcome_weaken (modest_key C k) _ _ (fun a _ => a = None)); [done|done|]. eapply done_after. by apply demote_ok.
  - eapply P. by apply compact_ok.
  - eapply P. by apply compact_tick_ok.
  - eapply P. by apply resolve_ok.
  - apply (outcome_weaken True _ _ (fun a _ => op_answer C (Serve k want now peek packed_rows shapes) a)); [done|done|]. eapply outcome_bind; [by apply serve_ok|].
    intros a G1 s1 _ An T1. by apply outcome_ret.
Qed.

Lemma run_ops_ok ops : forall C G pins s, tier_ok C G pins s -> Forall op_ok ops ->
  outcome (modest C ops) (fold_left op_content ops C) (fun l _ => answers C ops l) G pins s (run_ops ops s).
Proof.
  induction ops as [|op ops IH]; intros C G pins s T O; cbn [run_ops fold_left modest]; [by apply outcome_ret|]. apply list.Forall_cons in O as [O1 O2].
  eapply outcome_bind; [eapply outcome_weaken; [| |by apply run_op_ok]; [by intros [? _]|intros a s' H; exact H]|]. intros a G1 s1 _ An T1.
  eapply outcome_bind; [eapply outcome_weaken; [| |by apply IH]; [by intros [_ ?]|intros l s' H; exact H]|]. intros l G2 s2 _ As T2. by apply outcome_ret.
Qed.

(** *** From the start *)

Lemma opened_ready rotate w : fresh w ->
  match open rotate w with
  | (Ok _, w') => exists G, ready G [] (mkOwner ∅ ∅) w' /\ (outcomes w = [] -> calm G w')
  | (Err _, _) => outcomes w <> []
  | (Crash, _) | (Diverge, _) => False
  end.
Proof.
  intros Hf. pose proof (open_ok cpu rotate w Hf) as O. destruct (open rotate w) as [[u|e| |] w']; [|done|done|done].
  destruct O as ((Ow & G & I & Em) & [Ne _] & Ei & _ & Nm). exists G. split.
  - split; rewrite Ow; [|by intros c ?%not_elem_of_nil]. split; [done|]. split; [done|].
    assert (Ns : forall k, stub (∅ : gmap (list byte) TEntry) k = None) by (intros k; unfold stub; by rewrite lookup_empty).
    split_and!; cbn [knows slot_ref claim store_owner_laws o_map o_renames].
    + split; intros k; cbn [o_map]; rewrite Ns; done.
    + intros k r (c & E & _)%owner_slot_Some. cbn in E. by rewrite Ns in E.
    + intros f Hf'. rewrite msum_empty. by apply (live_range _ _ _ _ _ _ I Hf').
    + intros c k r Hc. by apply not_elem_of_nil in Hc.
  - intros Q. destruct (Nm Q) as [Q' Nm']. split_and!; [done| |].
    + intros id Hid Hn. apply Nm' in Hn as [Hn|[_ Hn]]; [|by apply Hn]. assert (Hz : 0 < next_id (log w')).
      { assert (Hm : 0 ∈ ids (log w')) by (rewrite Ei; by left). apply list_elem_of_fmap in Hm as (f & Ef & Hf'). pose proof (id_known _ _ _ _ _ _ I Hf'). lia. }
      apply file_name_inj in Hn; lia.
    + intros id h rc E Hr. rewrite (Em id h E) in Hr. by apply not_elem_of_nil in Hr.
Qed.

(** An empty keyspace over a log. *)
Definition blank_tier (b : Z) (w : World) : TierStore := mkTier ∅ ∅ w b 0 0 0 0 0 0 0 0 0 0 0.

Lemma blank_ok G b w : ready G [] (mkOwner ∅ ∅) w -> tier_ok ∅ G [] (blank_tier b w).
Proof. intros R. constructor; [exact R|]. intros k. cbn [tmap blank_tier]. by rewrite !lookup_empty. Qed.

Lemma enabled_ok b w : fresh w ->
  match enable_tiering b w with
  | (Ok _, s) => exists G, tier_ok ∅ G [] s /\ (outcomes w = [] -> calm G (world s))
  | (Err _, _) => outcomes w <> []
  | (Crash, _) | (Diverge, _) => False
  end.
Proof.
  intros Hf. unfold enable_tiering. pose proof (opened_ready DEFAULT_ROTATE_BYTES w Hf) as O. destruct (open DEFAULT_ROTATE_BYTES w) as [[u|e| |] w']; try done.
  destruct O as (G & R & Ca). exists G. split; [by apply (blank_ok G b w')|done].
Qed.

(** C4: Tiering is transparent.  From an empty shard, after any sequence of puts,
    deletions, renames, flushes, demotions, compaction steps and reads, whatever
    system calls fail on the way, every served value means what was last put
    under its key, a type is refused only when it differs, and the shard holds
    what the sequence without a tier would; demotion, compaction and promotion
    change no content.  The process panics only if a system call or a file name
    failed, a value came within the frame header of the size limit, or a counter
    ran out. *)
Theorem tiering_is_transparent (b : Z) (w : World) (ops : list tier_op) (Hf : fresh w) (Ho' : Forall op_ok ops) :
  match enable_tiering b w with
  | (Ok _, s) => match run_ops ops s with
      | (Ok l, s') => answers ∅ ops l /\ exists G, tier_ok (fold_left op_content ops ∅) G [] s'
      | (Crash, s') => (outcomes w = [] -> ~ modest ∅ ops) \/ full (world s')
      | (Err _, _) | (Diverge, _) => False
      end
  | (Err _, _) => outcomes w <> []
  | (Crash, _) | (Diverge, _) => False
  end.
Proof.
  pose proof (enabled_ok b w Hf) as E. destruct (enable_tiering b w) as [[u|e| |] s]; [|done|done|done]. destruct E as (G & T & Ca).
  pose proof (run_ops_ok ops ∅ G [] s T Ho') as R. destruct (run_ops ops s) as [[l|e| |] s']; [|done| |done].
  - destruct R as (A & G' & _ & T' & _). split; [done|by exists G'].
  - destruct R as [R|R]; [left|by right]. intros Q M. by apply (R M), Ca.
Qed.

End Tier.
