(* ===== verification/TierGauges.v ===== *)
(** * The tier's gauges

    [cold_keys], [cold_bytes] and [stub_bytes] are kept by increments at every
    demotion, promotion, overwrite, deletion, rename and flush.  They are exactly
    the sums over the stubs in the map, whatever fails on the way. *)

From Stdlib Require Import ZArith Lia Bool Sorted Strings.Byte Strings.String.
From stdpp Require Import base tactics list numbers gmap.
From S2P Require Import Prelude MapSum FindCrlf Buffers Encode StoreUtil Store StoreString PackedRow SmallHash Huff Lz Compress Crc32c Vlog VlogSpec VlogCompact VlogOwner TierCodec Tier TierSpec.

#[local] Open Scope list_scope.
#[local] Open Scope Z_scope.

(** What an entry counts for in each gauge. *)
Definition one (_ : list byte) (e : TEntry) : Z := match tvalue e with Cold _ => 1 | Hot _ _ => 0 end.
Definition weight_of (_ : list byte) (e : TEntry) : Z := match tvalue e with Cold c => cr_weight c | Hot _ _ => 0 end.
Definition stub_cost (k : list byte) (e : TEntry) : Z := match tvalue e with Cold _ => ENTRY_OVERHEAD + heap_bytes_for k | Hot _ _ => 0 end.

Definition weight_ok (e : TEntry) : Prop := match tvalue e with Cold c => 0 <= cr_weight c | Hot _ w => 0 <= w end.

Record gauged (s : TierStore) : Prop := {
  g_keys : cold_keys s = msum one (tmap s);
  g_bytes : cold_bytes s = msum weight_of (tmap s);
  g_stubs : stub_bytes s = msum stub_cost (tmap s);
  g_weights : forall k e, tmap s !! k = Some e -> weight_ok e
}.

(** The map and the gauges are what they were. *)
Definition same_books (s s' : TierStore) : Prop :=
  tmap s' = tmap s /\ cold_keys s' = cold_keys s /\ cold_bytes s' = cold_bytes s /\ stub_bytes s' = stub_bytes s.

Lemma gauged_same s s' : same_books s s' -> gauged s -> gauged s'.
Proof. intros (Em & E1 & E2 & E3) []. constructor; congruence || (rewrite Em; done). Qed.

Lemma heap_nonneg k : 0 <= heap_bytes_for k.
Proof. unfold heap_bytes_for. destruct (_ <=? _); [done|]. blen_pos. lia. Qed.

Lemma gauges_nonneg s : gauged s ->
  (forall k e, tmap s !! k = Some e -> 0 <= one k e) /\ (forall k e, tmap s !! k = Some e -> 0 <= weight_of k e) /\ (forall k e, tmap s !! k = Some e -> 0 <= stub_cost k e).
Proof.
  intros Gs. split_and!; intros k e E; pose proof (g_weights _ Gs k e E) as W; pose proof (heap_nonneg k); unfold weight_ok, one, weight_of, stub_cost, ENTRY_OVERHEAD in *; destruct (tvalue e); lia.
Qed.

(** A sum over hot entries changes by what the key counted for. *)
Lemma unstub_gauge f m m' k : (forall v w x, f k (mkTEntry (Hot v w) x) = 0) -> unstub m m' k -> msum f m' = msum f m - at_key f m k.
Proof. intros H [->|(v & w & x & ->)]; [apply msum_drop|rewrite msum_put, H; lia]. Qed.

Lemma gauged_dead s m' k c x w : gauged s -> tmap s !! k = Some (mkTEntry (Cold c) x) -> unstub (tmap s) m' k -> (forall j e, m' !! j = Some e -> weight_ok e) ->
  gauged (dead_state (heap_bytes_for k) c w (set_tmap m' s)).
Proof.
  intros Gs E U W. destruct (gauges_nonneg s Gs) as (N1 & N2 & N3). pose proof (msum_at one _ k N1) as A1. pose proof (msum_at weight_of _ k N2) as A2. pose proof (msum_at stub_cost _ k N3) as A3.
  pose proof (unstub_gauge one _ _ k ltac:(done) U) as U1. pose proof (unstub_gauge weight_of _ _ k ltac:(done) U) as U2. pose proof (unstub_gauge stub_cost _ _ k ltac:(done) U) as U3.
  unfold at_key in *. rewrite E in *. cbn [one weight_of stub_cost tvalue] in *. destruct Gs.
  constructor; cbn [cold_keys cold_bytes stub_bytes tmap dead_state set_renames set_gauges set_world set_tmap]; [| | |exact W]; unfold u64_sub; lia.
Qed.

Lemma gauged_hot s m' k : gauged s -> stub (tmap s) k = None -> unstub (tmap s) m' k -> (forall j e, m' !! j = Some e -> weight_ok e) -> gauged (set_tmap m' s).
Proof.
  intros Gs E U W. assert (Z0 : forall f, (forall v w x, f k (mkTEntry (Hot v w) x) = 0) -> at_key f (tmap s) k = 0).
  { intros f H. unfold at_key. unfold stub in E. destruct (tmap s !! k) as [[[v w|c] x]|]; [apply H|discriminate E|done]. }
  pose proof (unstub_gauge one _ _ k ltac:(done) U) as U1. pose proof (unstub_gauge weight_of _ _ k ltac:(done) U) as U2. pose proof (unstub_gauge stub_cost _ _ k ltac:(done) U) as U3.
  rewrite Z0 in U1, U2, U3 by done. destruct Gs. constructor; cbn [cold_keys cold_bytes stub_bytes tmap set_tmap]; [lia|lia|lia|exact W].
Qed.

(** Discarding what a key held. *)
Lemma gauged_discard s m' k : gauged s -> unstub (tmap s) m' k -> (forall j e, m' !! j = Some e -> weight_ok e) ->
  exists s', (match tmap s !! k with Some old => tier_note_dead (heap_bytes_for k) (tvalue old) | None => mret tt end) (set_tmap m' s) = (Ok tt, s') /\
    tmap s' = m' /\ gauged s' /\ stub_bytes s' <= stub_bytes s.
Proof.
  intros Gs U W. destruct (tmap s !! k) as [[[v w|c] x]|] eqn:E; cbn [tvalue].
  - eexists. split; [done|]. split; [done|]. split; [|done]. apply (gauged_hot s m' k); try done. unfold stub. by rewrite E.
  - assert (En : exists w', note_dead (vref c) (world (set_tmap m' s)) = (Ok tt, w')) by (unfold note_dead, modify; by eexists). destruct En as [w' En].
    rewrite (note_dead_run _ c (set_tmap m' s) w' En). eexists. split; [done|]. split; [done|]. split; [by eapply gauged_dead|]. cbn. unfold u64_sub, ENTRY_OVERHEAD.
    pose proof (heap_nonneg k). destruct (gauges_nonneg s Gs) as (_ & _ & N3). pose proof (msum_nonneg _ _ N3) as P. rewrite <- (g_stubs _ Gs) in P. lia.
  - eexists. split; [done|]. split; [done|]. split; [|done]. apply (gauged_hot s m' k); try done. unfold stub. by rewrite E.
Qed.

Lemma weights_insert (m : gmap (list byte) TEntry) k e : (forall j e, m !! j = Some e -> weight_ok e) -> weight_ok e -> forall j e', <[k := e]> m !! j = Some e' -> weight_ok e'.
Proof. intros W We j e' [[_ <-]|[_ H]]%lookup_insert_Some; [done|by eapply W]. Qed.

Lemma weights_delete (m : gmap (list byte) TEntry) k : (forall j e, m !! j = Some e -> weight_ok e) -> forall j e, delete k m !! j = Some e -> weight_ok e.
Proof. intros W j e [_ H]%lookup_delete_Some. by eapply W. Qed.

Lemma gauged_remove s k : gauged s -> exists s', t_remove k s = (Ok (tmap s !! k), s') /\ tmap s' = delete k (tmap s) /\ gauged s' /\ stub_bytes s' <= stub_bytes s.
Proof.
  intros Gs. destruct (gauged_discard s (delete k (tmap s)) k Gs (or_introl eq_refl) (weights_delete _ _ (g_weights _ Gs))) as (s' & E & Em & Gs' & Le).
  exists s'. unfold t_remove, t_take. runs. destruct (tmap s !! k) as [old|]; runs; [by rewrite E|]. by injection E as <-.
Qed.

Lemma gauged_live s k now : gauged s -> exists o s', t_live k now s = (Ok o, s') /\ o = tmap s' !! k /\ gauged s' /\ stub_bytes s' <= stub_bytes s.
Proof.
  intros Gs. unfold t_live. runs. destruct (tmap s !! k) as [e|] eqn:E; [|exists None, s; by split_and!]. destruct (t_expired e now); [|exists (Some e), s; by split_and!].
  destruct (gauged_remove s k Gs) as (s' & Er & Em & Gs' & Le). rewrite bind_eq, Er. exists None, s'. rewrite Em. split_and!; try done. by rewrite lookup_delete_eq.
Qed.

Lemma gauged_put s k v w x : gauged s -> 0 <= w -> exists o s', t_insert k (mkTEntry (Hot v w) x) s = (Ok o, s') /\ gauged s'.
Proof.
  intros Gs Hw. destruct (gauged_discard s (<[k := mkTEntry (Hot v w) x]> (tmap s)) k Gs) as (s' & E & Em & Gs' & _); [right; by do 3 eexists|by apply weights_insert; [apply Gs|]|].
  unfold t_insert. runs. rewrite E. runs. by do 2 eexists.
Qed.

(** ** Calls *)

Section Calls.
Context (cpu : Cpu) (order : table -> list (list byte * list byte)) (weigh : CValue -> Z) (Hw : forall v, 0 <= weigh v).

(** A call that answers leaves exact gauges. *)
Definition exact {A : Type} (Q : A -> TierStore -> Prop) (r : res A * TierStore) : Prop :=
  match r with (Ok a, s') => gauged s' /\ Q a s' | _ => True end.

Lemma exact_bind {A B : Type} (Q1 : A -> TierStore -> Prop) (Q2 : B -> TierStore -> Prop) (m : prog TierStore A) (f : A -> prog TierStore B) s :
  exact Q1 (m s) -> (forall a s', gauged s' -> Q1 a s' -> exact Q2 (f a s')) -> exact Q2 ((m ≫= f) s).
Proof. intros H K. rewrite bind_eq. destruct (m s) as [[a|e| |] s']; try done. destruct H. by apply K. Qed.

Lemma exact_live s k now : gauged s -> exact (fun o s' => o = tmap s' !! k /\ stub_bytes s' <= stub_bytes s) (t_live k now s).
Proof. intros Gs. destruct (gauged_live s k now Gs) as (o & s' & -> & Ho & Gs' & Le). done. Qed.

(** *** Renaming *)

Lemma dead_any_map heap v m m' s r s' : tier_note_dead heap v (set_tmap m s) = (r, s') -> tier_note_dead heap v (set_tmap m' s) = (r, set_tmap m' s').
Proof.
  destruct v as [v w|c]; unfold tier_note_dead, on_vlog; runs; cbn [world set_tmap]; [by intros [= <- <-]|]. destruct (note_dead (vref c) (world s)) as [[[]|e| |] w']; runs; by intros [= <- <-].
Qed.

Lemma gauged_renamed s src dst e : gauged s -> tmap s !! src = Some e -> tmap s !! dst = None -> src <> dst -> stub_bytes s + heap_bytes_for dst <= u64_max ->
  exists s', tier_note_renamed (tvalue e) src dst (set_tmap (delete src (tmap s)) s) = (Ok tt, s') /\ tmap s' = delete src (tmap s) /\ gauged (set_tmap (<[dst := e]> (delete src (tmap s))) s').
Proof.
  intros Gs Es Ed Ne Room. destruct (gauges_nonneg s Gs) as (_ & _ & N3). pose proof (msum_at stub_cost _ src N3) as A3. unfold at_key in A3. rewrite Es in A3.
  assert (Sum : forall f, msum f (<[dst := e]> (delete src (tmap s))) = msum f (tmap s) + f dst e - f src e).
  { intros f. rewrite msum_put, msum_drop. unfold at_key. rewrite Es, lookup_delete_ne, Ed by done. lia. }
  assert (W : forall j e', <[dst := e]> (delete src (tmap s)) !! j = Some e' -> weight_ok e') by (apply weights_insert; [by apply weights_delete, Gs|by eapply (g_weights _ Gs)]).
  pose proof (heap_nonneg src). pose proof (heap_nonneg dst). unfold tier_note_renamed. destruct e as [[v w|c] x]; cbn [tvalue]; runs; eexists; (split; [done|]); (split; [done|]); destruct Gs.
  - constructor; cbn [cold_keys cold_bytes stub_bytes tmap set_tmap]; [| | |exact W]; rewrite Sum; cbn [one weight_of stub_cost tvalue]; lia.
  - constructor; cbn [cold_keys cold_bytes stub_bytes tmap set_tmap set_renames set_gauges]; [| | |exact W]; rewrite Sum; cbn [one weight_of stub_cost tvalue] in *; unfold u64_add, u64_sub, ENTRY_OVERHEAD in *; lia.
Qed.

Lemma exact_move s1 src dst e : gauged s1 -> tmap s1 !! src = Some e -> src <> dst -> stub_bytes s1 + heap_bytes_for dst <= u64_max -> exact (fun _ _ => True) (t_move src dst s1).
Proof.
  intros Gs1 E Ne Room. unfold t_move. unfold t_take. runs. rewrite E. runs. unfold t_remove, t_take. runs. cbn [tmap set_tmap]. rewrite lookup_delete_ne by done.
  destruct (gauged_discard s1 (delete dst (tmap s1)) dst Gs1 (or_introl eq_refl) (weights_delete _ _ (g_weights _ Gs1))) as (s2 & D & Em & Gs2 & Le2).
  assert (Es2 : tmap s2 !! src = Some e) by (by rewrite Em, lookup_delete_ne).
  destruct (gauged_renamed s2 src dst e Gs2 Es2 ltac:(by rewrite Em, lookup_delete_eq) Ne ltac:(lia)) as (s3 & Rn & Em3 & Gs3).
  assert (Fin : exact (fun _ _ => True) ((_ ← tier_note_renamed (tvalue e) src dst; _ ← t_insert dst e; mret Renamed) (set_tmap (delete dst (delete src (tmap s1))) s2))).
  { rewrite <- (delete_delete (tmap s1)), <- Em. runs. rewrite Rn. unfold t_insert. runs. rewrite Em3, Em, lookup_delete_ne, lookup_delete_eq by done. runs. split; [|done]. by rewrite <- Em. }
  destruct (tmap s1 !! dst) as [old|]; runs; [|by injection D as <-].
  change (set_tmap (delete dst (delete src (tmap s1))) (set_tmap (delete src (tmap s1)) s1)) with (set_tmap (delete dst (delete src (tmap s1))) s1).
  rewrite (dead_any_map _ _ _ (delete dst (delete src (tmap s1))) _ _ _ D). by runs.
Qed.

Lemma exact_rename s src dst nx now : gauged s -> stub_bytes s + heap_bytes_for dst <= u64_max -> exact (fun _ _ => True) (t_rename src dst nx now s).
Proof.
  intros Gs Room. unfold t_rename. eapply exact_bind; [by apply exact_live|]. intros o s1 Gs1 [-> Le]. destruct (tmap s1 !! src) as [e|] eqn:E; [|done].
  destruct (bool_decide_reflect (src = dst)) as [->|Ne]; [done|]. destruct nx; [|by eapply exact_move; [| | |lia]].
  eapply exact_bind; [by apply exact_live|]. intros d s2 Gs2 [-> Le2]. destruct (tmap s2 !! dst); [done|].
  destruct (tmap s2 !! src) as [e2|] eqn:E2; [by eapply exact_move; [| | |lia]|]. unfold t_move, t_take. runs. rewrite E2. runs.
  split; [|done]. rewrite delete_id by done. by destruct s2.
Qed.

Lemma exact_flush s : exact (fun _ _ => True) (t_flushall s).
Proof.
  unfold t_flushall, tier_on_flushall, on_vlog. runs. destruct (mark_all_dead _) as [[[]|e| |] w]; runs; try done.
Qed.

(** *** Reading and promoting *)

Lemma read_books c shapes form s v s' : tier_read_record_as cpu c shapes form s = (Ok v, s') -> same_books s s'.
Proof.
  unfold tier_read_record_as, expected, on_vlog. runs. destruct (read cpu (vref c) _) as [[kp|e| |] w]; runs; try done. destruct (decode_as _ _ _ _) as [[e|v1]|]; runs; by intros [= <- <-].
Qed.

Lemma exact_promote s k packed shapes : gauged s -> exact (fun _ _ => True) (promote_in_place cpu weigh k packed shapes s).
Proof.
  intros Gs. unfold promote_in_place. runs. destruct (tmap s !! k) as [[[v w|c] x]|] eqn:E; try done.
  cbv zeta; runs; destruct (tier_read_record_as _ _ _ _ s) as [[v|e| |] s1] eqn:R; try done. apply read_books in R as Sb. pose proof (gauged_same _ _ Sb Gs) as Gs1. rewrite <- (proj1 Sb) in E. runs.
  unfold on_vlog. cbn [world set_tmap]. destruct (note_dead (vref c) (world s1)) as [[[]|e| |] w'] eqn:N; runs; try done. split; [|done].
  eapply (gauged_same (dead_state (heap_bytes_for k) c w' (set_tmap (<[k := mkTEntry (Hot v (weigh v)) x]> (tmap s1)) s1))); [done|]. eapply gauged_dead; [done|exact E|right; by do 3 eexists|].
  apply weights_insert; [apply Gs1|apply Hw].
Qed.

Lemma gauged_insert s k e e' (dk db ds : Z) : gauged s -> tmap s !! k = Some e -> weight_ok e' -> dk = one k e' - one k e -> db = weight_of k e' - weight_of k e -> ds = stub_cost k e' - stub_cost k e ->
  gauged (set_gauges (cold_keys s + dk) (cold_bytes s + db) (stub_bytes s + ds) (set_tmap (<[k := e']> (tmap s)) s)).
Proof.
  intros Gs E W -> -> ->. pose proof (weights_insert _ k e' (g_weights _ Gs) W). destruct Gs. constructor; cbn [cold_keys cold_bytes stub_bytes tmap set_tmap set_gauges]; [| | |done];
    rewrite msum_put; unfold at_key; rewrite E; lia.
Qed.

Lemma exact_demote s k now : gauged s -> exact (fun _ _ => True) (demote_in_place cpu order k now s).
Proof.
  intros Gs. unfold demote_in_place. runs. destruct (tmap s !! k) as [[[v w|c] x]|] eqn:E; [| |done]; [|by runs].
  destruct (spill_payload _ _ _ _ _) as [[[p tag]|]|]; cbn [run]; runs; try done. unfold caught, on_vlog. destruct (append cpu k p (world s)) as [[r|er| |] w']; runs; try done; (split; [|done]); [|by eapply gauged_same; [|exact Gs]].
  pose proof (g_weights _ Gs k _ E) as Wk. cbn in Wk. set (c := mkCold _ _ _ _ _ _).
  pose proof (gauged_insert s k _ (mkTEntry (Cold c) x) 1 (cr_weight c) (ENTRY_OVERHEAD + heap_bytes_for k) Gs E) as H. eapply gauged_same; [|apply H]; cbn [one weight_of stub_cost tvalue weight_ok]; [done|cbn; lia|lia..].
Qed.

Lemma exact_touch s k c c' x : gauged s -> tmap s !! k = Some (mkTEntry (Cold c) x) -> cr_weight c' = cr_weight c -> gauged (set_tmap (<[k := mkTEntry (Cold c') x]> (tmap s)) s).
Proof.
  intros Gs E Ew. pose proof (g_weights _ Gs k _ E) as Wk. eapply gauged_same; [|apply (gauged_insert s k _ (mkTEntry (Cold c') x) 0 0 0 Gs E); cbn in *; lia]. repeat split; cbn; lia.
Qed.

Lemma exact_serve_cold s k peek shapes : gauged s -> exact (fun _ _ => True) (tier_serve_cold cpu weigh k peek shapes s).
Proof.
  intros Gs. unfold tier_serve_cold. runs. destruct (tmap s !! k) as [[[v w|c] x]|] eqn:E; try done. runs. set (s1 := set_tmap _ s).
  assert (Gs1 : gauged s1) by (eapply exact_touch; [done|exact E|by destruct peek]). destruct (tier_read_record_as _ _ _ _ s1) as [[v|e| |] s2] eqn:R; try done. runs. split; [|done].
  apply read_books in R. eapply gauged_same; [|exact Gs1]. exact R.
Qed.

Lemma exact_serve s k want now now' peek packed shapes : gauged s -> exact (fun _ _ => True) (tier_serve cpu weigh k want now now' peek packed shapes s).
Proof.
  intros Gs. unfold tier_serve. eapply exact_bind; [by apply exact_live|]. intros o s1 Gs1 _. assert (Again : forall s, gauged s -> exact (fun _ _ => True) ((e ← t_live k now'; mret (match e with Some e => Served (tvalue e) | None => Missing end)) s)).
  { intros s' Gs'. eapply exact_bind; [by apply exact_live|]. done. }
  destruct (tvalue <$> o) as [[v w|c]|]; [by apply Again| |done]. destruct (negb _); [done|]. destruct peek; [by apply exact_serve_cold|]. destruct (negb _); [|by apply exact_serve_cold].
  eapply exact_bind; [by apply exact_promote|]. intros b s2 Gs2 _. by apply Again.
Qed.

Lemma exact_resolve s k want now packed shapes : gauged s -> exact (fun _ _ => True) (tier_resolve cpu weigh k want now packed shapes s).
Proof.
  intros Gs. unfold tier_resolve. eapply exact_bind; [by apply exact_live|]. intros o s1 Gs1 _. destruct (tvalue <$> o) as [[v w|c]|]; [done| |done]. destruct (negb _); [done|].
  eapply exact_bind; [by apply exact_promote|]. done.
Qed.

(** *** Compaction *)

Lemma msum_forget (f : list byte -> TEntry -> Z) (m : gmap (list byte) TEntry) : (forall k e, f k (forget e) = f k e) -> msum f (forget <$> m) = msum f m.
Proof.
  intros H. induction m as [|k e m N IH] using map_ind; [by rewrite fmap_empty|]. rewrite fmap_insert, !msum_insert_new by (by rewrite ?lookup_fmap, N). by rewrite IH, H.
Qed.

Lemma readdressed_sum (f : list byte -> TEntry -> Z) o o' : (forall k e, f k (forget e) = f k e) -> readdressed o o' -> msum f (o_map o') = msum f (o_map o).
Proof. intros H R. by rewrite <- (msum_forget f (o_map o') H), <- (msum_forget f (o_map o) H), R. Qed.

Lemma exact_compact s b : gauged s -> exact (fun _ _ => True) (tier_compact_step cpu b s).
Proof.
  intros Gs. unfold tier_compact_step, expected. pose proof (compact_readdresses cpu b (owner_of s) (world s)) as Rd. unfold owner_of in Rd.
  destruct (compact_step cpu COMPACT_LIVE_PCT b _) as [[n|er| |] [o' w']]; try done. cbn [fst snd] in Rd. split; [|done].
  assert (Sum : forall f : list byte -> TEntry -> Z, (forall k e, f k (forget e) = f k e) -> msum f (o_map o') = msum f (tmap s)) by (intros f H; by rewrite (readdressed_sum f _ _ H Rd)).
  destruct Gs as [G1 G2 G3 G4]. constructor; cbn [cold_keys cold_bytes stub_bytes tmap set_tmap set_renames set_world]; [by rewrite Sum by by intros k [[]]..|].
  intros k e E. apply (f_equal (fun m => m !! k)) in Rd. cbn [o_map] in Rd. rewrite !lookup_fmap, E in Rd. destruct (tmap s !! k) as [e0|] eqn:E0; [|done]. cbn in Rd. injection Rd as Rd.
  specialize (G4 k e0 E0). destruct e0 as [[v0 w0|c0] x0], e as [[v w|c] x]; cbn in Rd; try discriminate Rd; injection Rd; intros; cbn in *; congruence.
Qed.

End Calls.

(** What an operation is given: weights are counts of bytes, and the stubs' bytes
    fit their counter. *)
Definition counted (op : tier_op) (s : TierStore) : Prop :=
  match op with
  | Put _ _ w _ _ => 0 <= w
  | Rename _ dst _ _ => stub_bytes s + heap_bytes_for dst <= u64_max
  | _ => True
  end.

(** C27: The gauges stay exact.  Where they are the sums over the map, whatever
    operation runs and whatever fails in it, afterwards [cold_keys] is the number of stubs
    in the map, [cold_bytes] the bytes they stand for and [stub_bytes] the memory
    they take, key heap included: the saturating subtractions never clamp, and
    neither an overwrite, an expiry, a rename nor a compaction makes them drift. *)
Theorem gauges_are_exact (cpu : Cpu) (order : table -> list (list byte * list byte)) (weigh : CValue -> Z) (op : tier_op) (s : TierStore)
  (Hw : forall v, 0 <= weigh v) (Gs : gauged s) (Hc : counted op s) :
  match run_op cpu order weigh op s with (Ok _, s') => gauged s' | _ => True end.
Proof.
  assert (D : forall {A : Type} (m : prog TierStore A), exact (fun _ _ => True) (m s) -> match (_ ← m; mret (None : option served)) s with (Ok _, s') => gauged s' | _ => True end).
  { intros A m H. rewrite bind_eq. destruct (m s) as [[a|e| |] s']; try done. by destruct H. }
  destruct op; cbn [run_op counted] in *; try apply D.
  - destruct (gauged_put s k v w x Gs Hc) as (o & s' & -> & Gs'). done.
  - destruct (gauged_remove s k Gs) as (s' & -> & _ & Gs' & _). done.
  - by apply exact_rename.
  - by apply exact_flush.
  - by apply exact_demote.
  - by apply exact_compact.
  - unfold tier_compact_tick. runs. destruct (compaction_pending _ _); [by apply exact_compact|done].
  - by apply exact_resolve.
  - pose proof (exact_serve cpu weigh Hw s k want now now peek packed_rows shapes Gs) as H. rewrite bind_eq. destruct (tier_serve _ _ _ _ _ _ _ _ _ s) as [[a|e| |] s']; try done. by destruct H.
Qed.
