(* ===== verification/TierRun.v ===== *)
(** * A run of the tier

    Three strings put and spilled over a log that rotates at 40 bytes, one of
    them renamed while cold and one deleted: the theorems about compaction, pins,
    the tier and its gauges, at the state this leaves. *)

From Stdlib Require Import ZArith Lia Bool Sorted Strings.Byte Strings.String.
From stdpp Require Import base tactics list numbers gmap.
From S2P Require Import Prelude MapSum FindCrlf Buffers Encode StoreUtil Store StoreString PackedRow SmallHash Huff Lz Compress Crc32c Vlog VlogSpec VlogCompact VlogOwner TierCodec Tier TierSpec TierGauges.

#[local] Open Scope list_scope.
#[local] Open Scope Z_scope.

Definition text (b : byte) : list byte := replicate 80 b.

Definition put (k : list byte) (b : byte) : tier_op := Put k (VScalar (ArcBulk (text b))) 80 None (MString (text b)).

Definition filling : list tier_op :=
  [put (bs "user:1") "a"; put (bs "user:2") "b"; put (bs "user:4") "c"; Demote (bs "user:1") 0; Demote (bs "user:2") 0; Demote (bs "user:4") 0;
   Rename (bs "user:2") (bs "user:3") true 0; Del (bs "user:1")].

Definition ops : list tier_op :=
  filling ++ [CompactTick; Serve (bs "user:3") COLD_TAG_STRING 0 false false []; Serve (bs "user:3") COLD_TAG_HASH 0 false false [];
    Serve (bs "user:3") COLD_TAG_STRING 0 false false []; Serve (bs "user:1") COLD_TAG_STRING 0 true false []].

Lemma ops_ok : Forall op_ok ops.
Proof. unfold ops, filling, put. repeat constructor. Qed.

Definition is_ok {A : Type} (r : res A) : bool := match r with Ok _ => true | _ => false end.

(** The store after the filling. *)
Definition filled : TierStore := snd (run_ops NoCrc map_to_list (fun _ => 0) filling (blank_tier 1000 opened)).

Lemma order_ok : forall h : table, map_to_list h ≡ₚ map_to_list h.
Proof. done. Qed.

Lemma opened_tier : exists G : gmap Z hist, tier_ok NoCrc map_to_list ∅ G [] (blank_tier 1000 opened).
Proof.
  pose proof (opened_ready NoCrc 40 start (conj eq_refl eq_refl)) as O. unfold opened. revert O. generalize (open 40 start) as p. intros [[u|e| |] w'] O; cbn [snd].
  - destruct O as (G & R & _). exists G. exact (blank_ok NoCrc map_to_list G 1000 w' R).
  - destruct (O eq_refl).
  - destruct O.
  - destruct O.
Qed.

Lemma filled_ok : exists (C : content) (G : gmap Z hist), tier_ok NoCrc map_to_list C G [] filled.
Proof.
  destruct opened_tier as (G & T).
  pose proof (run_ops_ok NoCrc map_to_list (fun _ => 0) order_ok filling ∅ G [] _ T ltac:(unfold filling, put; repeat constructor)) as H.
  assert (E : is_ok (fst (run_ops NoCrc map_to_list (fun _ => 0) filling (blank_tier 1000 opened))) = true) by (vm_compute; reflexivity).
  unfold filled. destruct (run_ops _ _ _ filling _) as [[l|e| |] s]; [|discriminate E..]. destruct H as (_ & G' & _ & T' & _). exists (fold_left op_content filling ∅), G'. exact T'.
Qed.

Lemma compaction_keeps_values_witness : exists n o' w', compact_step NoCrc 60 256 (owner_of filled, world filled) = (Ok n, (o', w')) /\
  ids (log w') = [1] /\ values_kept NoCrc (owner_of filled) (world filled) o' w'.
Proof.
  destruct filled_ok as (C & G & T). pose proof (compaction_keeps_values NoCrc G [] (owner_of filled) (world filled) 60 256 (t_ready _ _ _ _ _ _ T)) as H.
  assert (E : is_ok (fst (compact_step NoCrc 60 256 (owner_of filled, world filled))) = true) by (vm_compute; reflexivity).
  assert (I : ids (log (snd (snd (compact_step NoCrc 60 256 (owner_of filled, world filled))))) = [1]) by (vm_compute; reflexivity).
  destruct (compact_step NoCrc 60 256 (owner_of filled, world filled)) as [[n|e| |] [o' w']]; [|discriminate E..]. exists n, o', w'. split; [reflexivity|]. split; [exact I|]. apply H.
Defined.

Lemma compact_below_ends_witness : exists n o' w', compact_below NoCrc 60 (owner_of filled, world filled) = (Ok n, (o', w')) /\ n = 1 /\
  settled 60 (next_id (log (world filled))) w' /\ values_kept NoCrc (owner_of filled) (world filled) o' w'.
Proof.
  destruct filled_ok as (C & G & T). pose proof (compact_below_ends NoCrc G [] (owner_of filled) (world filled) 60 (t_ready _ _ _ _ _ _ T)) as H.
  assert (E : fst (compact_below NoCrc 60 (owner_of filled, world filled)) = Ok 1) by (vm_compute; reflexivity).
  destruct (compact_below NoCrc 60 (owner_of filled, world filled)) as [[n|e| |] [o' w']]; [|discriminate E..]. injection E as ->. exists 1, o', w'. split; [reflexivity|]. split; [reflexivity|]. destruct H as (_ & _ & F & _ & V). split; [exact F|exact V].
Defined.

(** The world with file 0 pinned. *)
Definition pinned : World := snd (arc_clone 0 (world filled)).

Lemma pinned_first : exists s, s ∈ files (log pinned) /\ vf_id (handle s) = 0 /\ 8 <= bytes s.
Proof.
  assert (E : head (map (fun s => (vf_id (handle s), 8 <=? bytes s)) (files (log pinned))) = Some (0, true)) by (vm_compute; reflexivity).
  destruct (files (log pinned)) as [|s rest]; [discriminate E|]. exists s. split; [by left|]. injection E as E1 E2. split; [exact E1|]. by apply Z.leb_le.
Qed.

Lemma pinned_reader_witness : exists n o' w', compact_step NoCrc 60 256 (owner_of filled, pinned) = (Ok n, (o', w')) /\
  (0 ∉ ids (log w')) /\ file_name 0 ∈ names w'.
Proof.
  destruct filled_ok as (C & G & T). destruct (ready_pin NoCrc G [] _ _ 0 (t_ready _ _ _ _ _ _ T)) as (w1 & Ep & El & R).
  { assert (Ei : ids (log (world filled)) = [0; 1]) by (vm_compute; reflexivity). rewrite Ei. by left. }
  assert (E1 : w1 = pinned) by exact (f_equal snd (eq_sym Ep)). subst w1. destruct pinned_first as (s & Hs & Es & Eb).
  pose proof (pinned_reader NoCrc G [] (owner_of filled) pinned 60 256 s (mkRef 0 0 0)) as H. rewrite Es in H.
  specialize (H R ltac:(exact Hs) ltac:(cbn; unfold disk_len, HEADER; cbn; lia)).
  assert (E : is_ok (fst (compact_step NoCrc 60 256 (owner_of filled, pinned))) = true) by (vm_compute; reflexivity).
  assert (I : ids (log (snd (snd (compact_step NoCrc 60 256 (owner_of filled, pinned))))) = [1]) by (vm_compute; reflexivity).
  destruct (compact_step NoCrc 60 256 (owner_of filled, pinned)) as [[n|e| |] [o' w']]; [|discriminate E..]. exists n, o', w'. split; [reflexivity|]. cbn [snd] in I. rewrite I.
  split; [|destruct H as [H _]; exact H]. intros M. apply list_elem_of_singleton in M. discriminate M.
Defined.

Lemma tiering_is_transparent_witness : exists u s l s', enable_tiering 1000 start = (Ok u, s) /\ run_ops NoCrc map_to_list (fun _ => 0) ops s = (Ok l, s') /\ answers ∅ ops l.
Proof.
  pose proof (tiering_is_transparent NoCrc map_to_list (fun _ => 0) order_ok 1000 start ops (conj eq_refl eq_refl) ops_ok) as H.
  assert (E : is_ok (fst (enable_tiering 1000 start)) = true) by (vm_compute; reflexivity).
  assert (E' : is_ok (fst (run_ops NoCrc map_to_list (fun _ => 0) ops (snd (enable_tiering 1000 start)))) = true) by (vm_compute; reflexivity).
  destruct (enable_tiering 1000 start) as [[u|e| |] s]; [|discriminate E..]. cbn [snd] in E'. destruct (run_ops _ _ _ ops s) as [[l|e| |] s'] eqn:Er; [|discriminate E'..].
  exists u, s, l, s'. split; [reflexivity|]. split; [exact Er|]. apply H.
Defined.

Definition weight_okb (e : TEntry) : bool := match tvalue e with Cold c => 0 <=? cr_weight c | Hot _ w => 0 <=? w end.

Lemma weights_checked (m : gmap (list byte) TEntry) : forallb weight_okb (map snd (map_to_list m)) = true -> forall k e, m !! k = Some e -> weight_ok e.
Proof.
  intros F k e E. apply elem_of_map_to_list in E. rewrite forallb_forall in F. specialize (F e). rewrite in_map_iff in F. specialize (F ltac:(exists (k, e); split; [done|by apply list_elem_of_In])).
  unfold weight_ok. unfold weight_okb in F. destruct (tvalue e); by apply Z.leb_le.
Qed.

Lemma gauged_filled : gauged filled.
Proof. constructor; [vm_compute; reflexivity..|]. apply weights_checked. vm_compute. reflexivity. Qed.

Lemma gauges_are_exact_witness : cold_keys filled = 2 /\ exists a s', run_op NoCrc map_to_list (fun _ => 0) (Del (bs "user:4")) filled = (Ok a, s') /\ cold_keys s' = 1 /\ gauged s'.
Proof.
  split; [vm_compute; reflexivity|]. pose proof (gauges_are_exact NoCrc map_to_list (fun _ => 0) (Del (bs "user:4")) filled ltac:(done) gauged_filled I) as H.
  assert (E : is_ok (fst (run_op NoCrc map_to_list (fun _ => 0) (Del (bs "user:4")) filled)) = true) by (vm_compute; reflexivity).
  assert (K : cold_keys (snd (run_op NoCrc map_to_list (fun _ => 0) (Del (bs "user:4")) filled)) = 1) by (vm_compute; reflexivity).
  destruct (run_op NoCrc map_to_list (fun _ => 0) (Del (bs "user:4")) filled) as [[a|e| |] s']; [|discriminate E..]. exists a, s'. split; [reflexivity|]. by split.
Defined.
