(* ===== verification/Results.v ===== *)
(** * Results

    [Result<A, E>] of code that could also panic, with [?]. *)

From stdpp Require Import base.
From S2P Require Import Prelude.

Definition result (E A : Type) : Type := exec (A + E).

Definition ok {E A} (a : A) : result E A := Ret (inl a).
Definition err {E A} (e : E) : result E A := Ret (inr e).
Definition lift {E A} (m : exec A) : result E A := match m with Ret a => ok a | Panic => Panic end.

(** [ok_or(e)?] *)
Definition or_err {E A} (o : option A) (e : E) : result E A := match o with Some a => ok a | None => err e end.

Definition rbind {E A B} (m : result E A) (f : A -> result E B) : result E B :=
  match m with Ret (inl a) => f a | Ret (inr e) => err e | Panic => Panic end.

Notation "'let*' p := m 'in' k" := (rbind m (fun p => k)) (at level 10, p pattern, k at level 200).

Ltac nstep := cbn [rbind lift or_err ok err].
