(* ===== verification/Words.v ===== *)
(** * Machine words of the cryptographic primitives ([crates/kevy-crypto])

    Sums and products of [u64] and [u128] that panic when they do not fit,
    wrapping sums and rotations of [u32], shifts, and reading and packing
    little-endian words. *)

From Stdlib Require Import ZArith Lia Bool Strings.Byte.
From stdpp Require Import base tactics list numbers.
From S2P Require Import Prelude FindCrlf Buffers.

#[local] Open Scope list_scope.
#[local] Open Scope Z_scope.

Definition word64 (z : Z) : exec Z := if (0 <=? z) && (z <? 2 ^ 64) then Ret z else Panic.
Definition word128 (z : Z) : exec Z := if (0 <=? z) && (z <? 2 ^ 128) then Ret z else Panic.

(** [x << n] on a [u64] *)
Definition shl64 (x n : Z) : Z := Z.shiftl x n mod 2 ^ 64.

(** [a.wrapping_add(b)], [x.rotate_left(n)] and [x.rotate_right(n)] on a [u32] *)
Definition add32 (a b : Z) : Z := (a + b) mod 2 ^ 32.
Definition rotl32 (x n : Z) : Z := Z.lor (Z.shiftl x n mod 2 ^ 32) (Z.shiftr x (32 - n)).
Definition rotr32 (x n : Z) : Z := Z.lor (Z.shiftr x n) (Z.shiftl x (32 - n) mod 2 ^ 32).

Lemma word64_ok z : 0 <= z < 2 ^ 64 -> word64 z = Ret z.
Proof. intros H. unfold word64. destruct (Z.leb_spec 0 z), (Z.ltb_spec z (2 ^ 64)); lia || done. Qed.

Lemma word128_ok z : 0 <= z < 2 ^ 128 -> word128 z = Ret z.
Proof. intros H. unfold word128. destruct (Z.leb_spec 0 z), (Z.ltb_spec z (2 ^ 128)); lia || done. Qed.

(** [x | (y << s)] where [x] has at most [s] bits. *)
Lemma pack_word x y s : 0 <= s <= 64 -> 0 <= x < 2 ^ s -> Z.lor x (shl64 y s) = x + 2 ^ s * (y mod 2 ^ (64 - s)).
Proof.
  intros Hs Hx. unfold shl64. rewrite Z.shiftl_mul_pow2, Z.mul_comm by lia. replace (2 ^ 64) with (2 ^ s * 2 ^ (64 - s)) by (rewrite <- Z.pow_add_r by lia; f_equal; lia).
  rewrite Z.mul_mod_distr_l by (apply Z.pow_nonzero; lia). rewrite <- lor_shift_add, Z.shiftl_mul_pow2 by lia. f_equal. lia.
Qed.

Lemma land_ones_mod x n : 0 <= n -> Z.land x (2 ^ n - 1) = x mod 2 ^ n.
Proof. intros H. replace (2 ^ n - 1) with (Z.ones n) by (rewrite Z.ones_equiv; lia). by apply Z.land_ones. Qed.

(** A number is its low bits and the rest. *)
Lemma split_pow x n : 0 <= x -> 0 <= n -> exists q r, x / 2 ^ n = q /\ x mod 2 ^ n = r /\ x = 2 ^ n * q + r /\ 0 <= q /\ 0 <= r < 2 ^ n.
Proof.
  intros H Hn. pose proof (Z.pow_pos_nonneg 2 n ltac:(lia) Hn). exists (x / 2 ^ n), (x mod 2 ^ n). pose proof (Z.div_mod x (2 ^ n) ltac:(lia)). pose proof (Z.mod_pos_bound x (2 ^ n) ltac:(lia)).
  pose proof (Z.div_pos x (2 ^ n) ltac:(lia) ltac:(lia)). repeat split; lia.
Qed.

Lemma land_bound a b k : 0 <= k -> 0 <= a < 2 ^ k -> 0 <= Z.land a b < 2 ^ k.
Proof.
  intros Hk Ha. enough (Z.land a b = Z.land a b mod 2 ^ k) as -> by (apply Z.mod_pos_bound; lia). apply Z.bits_inj'. intros i Hi.
  destruct (Z.lt_ge_cases i k); [by rewrite Z.mod_pow2_bits_low by lia|]. rewrite (Z.mod_pow2_bits_high (Z.land a b)), Z.land_spec, <- (Z.mod_small a (2 ^ k)), Z.mod_pow2_bits_high by lia. done.
Qed.
