(* ===== verification/Fe25519.v ===== *)
(** * X25519 ([crates/kevy-crypto/src]: [fe25519.rs], [x25519.rs])

    Arithmetic modulo 2^255 - 19 on five limbs of 51 bits, and the Montgomery
    ladder over it.  A sum or product of a [u64] or [u128] that does not fit is a
    panic here; the theorems show that none occurs from any scalar and point, and
    that the limbs compute the ladder over the integers modulo the prime.

    The terms of a sum are not negative, so the whole fits exactly when every part
    of it does. *)

From Stdlib Require Import ZArith Lia Bool Strings.Byte.
From stdpp Require Import base tactics list numbers.
From S2P Require Import Prelude FindCrlf Buffers Words.

#[local] Open Scope list_scope.
#[local] Open Scope Z_scope.

(** ** Field elements *)

Record Fe := mkFe { l0 : Z; l1 : Z; l2 : Z; l3 : Z; l4 : Z }.

Definition M51 : Z := 2 ^ 51 - 1.

Definition ZERO : Fe := mkFe 0 0 0 0 0.
Definition ONE : Fe := mkFe 1 0 0 0 0.

Definition load (b : list byte) (i : Z) : Z := from_le_bytes (slice b i (i + 8)).

Definition from_bytes (b : list byte) : Fe :=
  mkFe (Z.land (load b 0) M51)
       (Z.land (Z.shiftr (load b 6) 3) M51)
       (Z.land (Z.shiftr (load b 12) 6) M51)
       (Z.land (Z.shiftr (load b 19) 1) M51)
       (Z.land (Z.shiftr (load b 24) 12) M51).

(** The first four carries of [carry], [wide_carry] and [to_bytes]. *)
Definition carry_up (word : Z -> exec Z) (t : Fe) : exec Fe :=
  t1 ← word (l1 t + Z.shiftr (l0 t) 51);
  t2 ← word (l2 t + Z.shiftr t1 51);
  t3 ← word (l3 t + Z.shiftr t2 51);
  t4 ← word (l4 t + Z.shiftr t3 51);
  Ret (mkFe (Z.land (l0 t) M51) (Z.land t1 M51) (Z.land t2 M51) (Z.land t3 M51) t4).

Definition carry (t : Fe) : exec Fe :=
  t ← carry_up word64 t;
  t0 ← word64 (l0 t + 19 * Z.shiftr (l4 t) 51);
  Ret (mkFe t0 (l1 t) (l2 t) (l3 t) (Z.land (l4 t) M51)).

Definition wide_carry (r : Fe) : exec Fe :=
  r ← carry_up word128 r;
  r0 ← word128 (l0 r + 19 * Z.shiftr (l4 r) 51);
  r1 ← word128 (l1 r + Z.shiftr r0 51);
  Ret (mkFe (Z.land r0 M51 mod 2 ^ 64) (r1 mod 2 ^ 64) (l2 r mod 2 ^ 64) (l3 r mod 2 ^ 64) (Z.land (l4 r) M51 mod 2 ^ 64)).

Definition to_bytes (f : Fe) : exec (list byte) :=
  t ← carry f;
  t ← carry t;
  t0 ← word64 (l0 t + 19);
  t ← carry (mkFe t0 (l1 t) (l2 t) (l3 t) (l4 t));
  t0 ← word64 (l0 t + (2 ^ 51 - 19));
  t1 ← word64 (l1 t + (2 ^ 51 - 1));
  t2 ← word64 (l2 t + (2 ^ 51 - 1));
  t3 ← word64 (l3 t + (2 ^ 51 - 1));
  t4 ← word64 (l4 t + (2 ^ 51 - 1));
  t ← carry_up word64 (mkFe t0 t1 t2 t3 t4);
  let t4 := Z.land (l4 t) M51 in
  Ret (to_le_bytes 8 (Z.lor (l0 t) (shl64 (l1 t) 51)) ++
       to_le_bytes 8 (Z.lor (Z.shiftr (l1 t) 13) (shl64 (l2 t) 38)) ++
       to_le_bytes 8 (Z.lor (Z.shiftr (l2 t) 26) (shl64 (l3 t) 25)) ++
       to_le_bytes 8 (Z.lor (Z.shiftr (l3 t) 39) (shl64 t4 12))).

Definition fe_add (a b : Fe) : exec Fe :=
  x0 ← word64 (l0 a + l0 b);
  x1 ← word64 (l1 a + l1 b);
  x2 ← word64 (l2 a + l2 b);
  x3 ← word64 (l3 a + l3 b);
  x4 ← word64 (l4 a + l4 b);
  Ret (mkFe x0 x1 x2 x3 x4).

Definition P2 : Fe := mkFe 0xfffffffffffda 0xffffffffffffe 0xffffffffffffe 0xffffffffffffe 0xffffffffffffe.

(** [a + p - b], left to right *)
Definition sub_limb (a p b : Z) : exec Z := s ← word64 (a + p); word64 (s - b).

Definition fe_sub (a b : Fe) : exec Fe :=
  x0 ← sub_limb (l0 a) (l0 P2) (l0 b);
  x1 ← sub_limb (l1 a) (l1 P2) (l1 b);
  x2 ← sub_limb (l2 a) (l2 P2) (l2 b);
  x3 ← sub_limb (l3 a) (l3 P2) (l3 b);
  x4 ← sub_limb (l4 a) (l4 P2) (l4 b);
  carry (mkFe x0 x1 x2 x3 x4).

Definition fe_mul (a b : Fe) : exec Fe :=
  let '(mkFe a0 a1 a2 a3 a4) := a in
  let '(mkFe b0 b1 b2 b3 b4) := b in
  b1_19 ← word128 (b1 * 19);
  b2_19 ← word128 (b2 * 19);
  b3_19 ← word128 (b3 * 19);
  b4_19 ← word128 (b4 * 19);
  r0 ← word128 (a0 * b0 + a1 * b4_19 + a2 * b3_19 + a3 * b2_19 + a4 * b1_19);
  r1 ← word128 (a0 * b1 + a1 * b0 + a2 * b4_19 + a3 * b3_19 + a4 * b2_19);
  r2 ← word128 (a0 * b2 + a1 * b1 + a2 * b0 + a3 * b4_19 + a4 * b3_19);
  r3 ← word128 (a0 * b3 + a1 * b2 + a2 * b1 + a3 * b0 + a4 * b4_19);
  r4 ← word128 (a0 * b4 + a1 * b3 + a2 * b2 + a3 * b1 + a4 * b0);
  wide_carry (mkFe r0 r1 r2 r3 r4).

Definition fe_square (a : Fe) : exec Fe := fe_mul a a.

Definition mul_small (a : Fe) (n : Z) : exec Fe :=
  r0 ← word128 (l0 a * n);
  r1 ← word128 (l1 a * n);
  r2 ← word128 (l2 a * n);
  r3 ← word128 (l3 a * n);
  r4 ← word128 (l4 a * n);
  wide_carry (mkFe r0 r1 r2 r3 r4).

Definition cswap_limb (mask a b : Z) : Z * Z :=
  let x := Z.land mask (Z.lxor a b) in (Z.lxor a x, Z.lxor b x).

Definition cswap (a b : Fe) (swap : Z) : Fe * Fe :=
  let mask := (0 - swap) mod 2 ^ 64 in
  let '(a0, b0) := cswap_limb mask (l0 a) (l0 b) in
  let '(a1, b1) := cswap_limb mask (l1 a) (l1 b) in
  let '(a2, b2) := cswap_limb mask (l2 a) (l2 b) in
  let '(a3, b3) := cswap_limb mask (l3 a) (l3 b) in
  let '(a4, b4) := cswap_limb mask (l4 a) (l4 b) in
  (mkFe a0 a1 a2 a3 a4, mkFe b0 b1 b2 b3 b4).

Fixpoint square_n (a : Fe) (n : nat) : exec Fe :=
  match n with O => Ret a | S n => a ← fe_square a; square_n a n end.

Definition square_n_mul (a : Fe) (n : nat) (b : Fe) : exec Fe := x ← square_n a n; fe_mul x b.

Definition invert (z : Fe) : exec Fe :=
  z2 ← fe_square z;
  z9 ← square_n_mul z2 2 z;
  z11 ← fe_mul z9 z2;
  z_5_0 ← square_n_mul z11 1 z9;
  z_10_0 ← square_n_mul z_5_0 5 z_5_0;
  z_20_0 ← square_n_mul z_10_0 10 z_10_0;
  z_40_0 ← square_n_mul z_20_0 20 z_20_0;
  z_50_0 ← square_n_mul z_40_0 10 z_10_0;
  z_100_0 ← square_n_mul z_50_0 50 z_50_0;
  z_200_0 ← square_n_mul z_100_0 100 z_100_0;
  z_250_0 ← square_n_mul z_200_0 50 z_50_0;
  square_n_mul z_250_0 5 z11.

(** ** The ladder *)

Record Ladder := mkLd { lx2 : Fe; lz2 : Fe; lx3 : Fe; lz3 : Fe; swap : Z }.

(** [(k[t / 8] >> (t % 8)) & 1] *)
Definition scalar_bit (k : list byte) (t : nat) : Z := Z.land (Z.shiftr (bz (default x00 (k !! (t / 8)%nat))) (Z.of_nat (t mod 8)%nat)) 1.

Definition ladder_step (k : list byte) (x1 : Fe) (s : Ladder) (t : nat) : exec Ladder :=
  let bit := scalar_bit k t in
  let sw := Z.lxor (swap s) bit in
  let '(x2, x3) := cswap (lx2 s) (lx3 s) sw in
  let '(z2, z3) := cswap (lz2 s) (lz3 s) sw in
  a ← fe_add x2 z2;
  aa ← fe_square a;
  b ← fe_sub x2 z2;
  bb ← fe_square b;
  e ← fe_sub aa bb;
  c ← fe_add x3 z3;
  d ← fe_sub x3 z3;
  da ← fe_mul d a;
  cb ← fe_mul c b;
  s3 ← fe_add da cb;
  x3 ← fe_square s3;
  d3 ← fe_sub da cb;
  dd ← fe_square d3;
  z3 ← fe_mul x1 dd;
  x2 ← fe_mul aa bb;
  m ← mul_small e 121665;
  y ← fe_add aa m;
  z2 ← fe_mul e y;
  Ret (mkLd x2 z2 x3 z3 bit).

Fixpoint ladder_loop (k : list byte) (x1 : Fe) (t : nat) (s : Ladder) : exec Ladder :=
  match t with O => Ret s | S t => s ← ladder_step k x1 s t; ladder_loop k x1 t s end.

Definition ladder (k : list byte) (x1 : Fe) : exec Fe :=
  s ← ladder_loop k x1 255 (mkLd ONE ZERO x1 ONE 0);
  let '(x2, _) := cswap (lx2 s) (lx3 s) (swap s) in
  let '(z2, _) := cswap (lz2 s) (lz3 s) (swap s) in
  i ← invert z2;
  fe_mul x2 i.

Definition BASEPOINT : list byte := x09 :: replicate 31 x00.

Definition clamp (scalar : list byte) : list byte :=
  let k := <[0%nat := zb (Z.land (bz (default x00 (scalar !! 0%nat))) 248)]> scalar in
  let k := <[31%nat := zb (Z.land (bz (default x00 (k !! 31%nat))) 127)]> k in
  <[31%nat := zb (Z.lor (bz (default x00 (k !! 31%nat))) 64)]> k.

Definition x25519 (scalar u : list byte) : exec (list byte) :=
  f ← ladder (clamp scalar) (from_bytes u);
  to_bytes f.

(** ** What limbs stand for *)

Definition p25519 : Z := 2 ^ 255 - 19.

Definition val (f : Fe) : Z := l0 f + 2 ^ 51 * l1 f + 2 ^ 102 * l2 f + 2 ^ 153 * l3 f + 2 ^ 204 * l4 f.

(** Limbs within [0, n). *)
Definition below (n : Z) (f : Fe) : Prop :=
  0 <= l0 f < n /\ 0 <= l1 f < n /\ 0 <= l2 f < n /\ 0 <= l3 f < n /\ 0 <= l4 f < n.

(** What [mul], [square] and [mul_small] return. *)
Definition carried (f : Fe) : Prop :=
  0 <= l0 f < 2 ^ 51 /\ 0 <= l1 f < 2 ^ 51 + 2 ^ 20 /\ 0 <= l2 f < 2 ^ 51 /\ 0 <= l3 f < 2 ^ 51 /\ 0 <= l4 f < 2 ^ 51.

Lemma land_M51 x : Z.land x M51 = x mod 2 ^ 51.
Proof. change M51 with (Z.ones 51). apply Z.land_ones. lia. Qed.

Lemma shiftr_51 x : Z.shiftr x 51 = x / 2 ^ 51.
Proof. apply Z.shiftr_div_pow2. lia. Qed.

(** A limb is its low 51 bits and what it carries. *)
Lemma split_51 x : 0 <= x -> exists q r, x / 2 ^ 51 = q /\ x mod 2 ^ 51 = r /\ x = 2 ^ 51 * q + r /\ 0 <= q /\ 0 <= r < 2 ^ 51.
Proof. intros H. by apply (split_pow x 51). Qed.

Lemma carry_up_ok word n t : (n = 2 ^ 64 \/ n = 2 ^ 128) -> (forall z, 0 <= z < n -> word z = Ret z) -> below (n / 2) t ->
  exists t', carry_up word t = Ret t' /\ val t' = val t /\ 0 <= l0 t' < 2 ^ 51 /\ 0 <= l1 t' < 2 ^ 51 /\ 0 <= l2 t' < 2 ^ 51 /\ 0 <= l3 t' < 2 ^ 51 /\ l4 t <= l4 t' <= l4 t + n / 2 ^ 51.
Proof.
  intros Hn Hw (B0 & B1 & B2 & B3 & B4). destruct t as [t0 t1 t2 t3 t4]. cbn [l0 l1 l2 l3 l4] in *. unfold carry_up. cbn [l0 l1 l2 l3 l4].
  rewrite !land_M51, !shiftr_51. destruct (split_51 t0) as (q0 & r0 & -> & -> & E0 & Q0 & R0); [lia|].
  assert (N : n / 2 < n /\ n / 2 + n / 2 ^ 51 + 1 < n /\ 2 ^ 51 * (n / 2 ^ 51) = n) by by destruct Hn as [->| ->].
  rewrite Hw by lia. cbn [mbind exec_bind]. rewrite !land_M51, !shiftr_51. destruct (split_51 (t1 + q0)) as (q1 & r1 & -> & -> & E1 & Q1 & R1); [lia|].
  rewrite Hw by lia. cbn [mbind exec_bind]. rewrite !land_M51, !shiftr_51. destruct (split_51 (t2 + q1)) as (q2 & r2 & -> & -> & E2 & Q2 & R2); [lia|].
  rewrite Hw by lia. cbn [mbind exec_bind]. rewrite !land_M51, !shiftr_51. destruct (split_51 (t3 + q2)) as (q3 & r3 & -> & -> & E3 & Q3 & R3); [lia|].
  rewrite Hw by lia. cbn [mbind exec_bind]. eexists. split; [reflexivity|]. unfold val. cbn [l0 l1 l2 l3 l4]. repeat split; lia.
Qed.

Lemma carry_ok t : below (2 ^ 63) t -> exists t', carry t = Ret t' /\ (exists k, 0 <= k /\ val t = val t' + p25519 * k) /\
  0 <= l0 t' < 2 ^ 51 + 19 * 2 ^ 13 /\ 0 <= l1 t' < 2 ^ 51 /\ 0 <= l2 t' < 2 ^ 51 /\ 0 <= l3 t' < 2 ^ 51 /\ 0 <= l4 t' < 2 ^ 51.
Proof.
  intros B. destruct (carry_up_ok word64 (2 ^ 64) t (or_introl eq_refl) word64_ok B) as ([t0 t1 t2 t3 t4] & E & V & B0 & B1 & B2 & B3 & B4). destruct B as (_ & _ & _ & _ & B). cbn [l0 l1 l2 l3 l4] in *.
  change (2 ^ 64 / 2 ^ 51) with (2 ^ 13) in B4. change (2 ^ 64 / 2) with (2 ^ 63) in B. unfold carry. rewrite E. cbn [mbind exec_bind l0 l1 l2 l3 l4]. rewrite land_M51, shiftr_51.
  destruct (split_51 t4) as (q & r & -> & -> & E4 & Q & R); [lia|]. rewrite word64_ok by lia. cbn [mbind exec_bind].
  eexists. split; [reflexivity|]. cbn [l0 l1 l2 l3 l4]. split; [|repeat split; lia]. exists q. split; [lia|]. rewrite <- V. unfold val, p25519. cbn [l0 l1 l2 l3 l4]. lia.
Qed.

Lemma wide_carry_ok r : below (2 ^ 116) r -> exists f, wide_carry r = Ret f /\ val f mod p25519 = val r mod p25519 /\ carried f.
Proof.
  intros B. assert (B' : below (2 ^ 128 / 2) r) by (change (2 ^ 128 / 2) with (2 ^ 127); unfold below in *; lia).
  destruct (carry_up_ok word128 (2 ^ 128) r (or_intror eq_refl) word128_ok B') as ([t0 t1 t2 t3 t4] & E & V & B0 & B1 & B2 & B3 & B4). destruct B as (_ & _ & _ & _ & B). cbn [l0 l1 l2 l3 l4] in *.
  change (2 ^ 128 / 2 ^ 51) with (2 ^ 77) in B4. unfold wide_carry. rewrite E. cbn [mbind exec_bind l0 l1 l2 l3 l4]. rewrite !land_M51, !shiftr_51.
  destruct (split_51 t4) as (q & r4 & -> & -> & E4 & Q & R4); [lia|]. rewrite word128_ok by lia. cbn [mbind exec_bind]. rewrite !land_M51, !shiftr_51.
  destruct (split_51 (t0 + 19 * q)) as (q0 & r0 & -> & -> & E0 & Q0 & R0); [lia|]. rewrite word128_ok by lia. cbn [mbind exec_bind].
  rewrite !Z.mod_small by lia. eexists. split; [reflexivity|]. split; [|unfold carried; cbn [l0 l1 l2 l3 l4]; repeat split; lia].
  rewrite <- V, <- (Z.mod_add (val (mkFe r0 (t1 + q0) t2 t3 r4)) q p25519) by (unfold p25519; lia). f_equal. unfold val, p25519. cbn [l0 l1 l2 l3 l4]. lia.
Qed.

(** ** The operations *)

Lemma carried_below f : carried f -> below (2 ^ 52) f.
Proof. unfold carried, below. lia. Qed.

Lemma below_le m n f : m <= n -> below m f -> below n f.
Proof. unfold below. lia. Qed.

Lemma fe_add_ok a b : below (2 ^ 52) a -> below (2 ^ 52) b -> exists f, fe_add a b = Ret f /\ below (2 ^ 53) f /\ val f = val a + val b.
Proof.
  unfold below. intros A B. unfold fe_add. rewrite !word64_ok by lia. cbn [mbind exec_bind]. eexists. split; [reflexivity|]. unfold val. cbn [l0 l1 l2 l3 l4]. lia.
Qed.

Lemma sub_limb_ok a p b : 0 <= a < 2 ^ 53 -> 0 <= p < 2 ^ 53 -> 0 <= b <= p -> sub_limb a p b = Ret (a + p - b).
Proof. intros. unfold sub_limb. rewrite word64_ok by lia. cbn [mbind exec_bind]. rewrite word64_ok by lia. done. Qed.

Lemma fe_sub_ok a b : carried a -> carried b -> exists f, fe_sub a b = Ret f /\ below (2 ^ 52) f /\ val f mod p25519 = (val a - val b) mod p25519.
Proof.
  unfold carried. intros A B. unfold fe_sub. unfold P2. cbn [l0 l1 l2 l3 l4]. rewrite !sub_limb_ok by lia. cbn [mbind exec_bind].
  match goal with |- context [carry ?t] => destruct (carry_ok t) as (f & -> & (k & Hk & V) & Bf) end; [unfold below; cbn [l0 l1 l2 l3 l4]; lia|].
  exists f. split; [reflexivity|]. split; [unfold below; lia|].
  rewrite <- (Z.mod_add (val f) k p25519), <- (Z.mod_add (val a - val b) 2 p25519) by (unfold p25519; lia). f_equal. unfold val in V at 1. cbn [l0 l1 l2 l3 l4] in V. unfold val at 2 3. unfold p25519 in *. lia.
Qed.

Lemma product_bound a b : 0 <= a < 2 ^ 54 -> 0 <= b < 2 ^ 59 -> 0 <= a * b < 2 ^ 113.
Proof. intros. split; [nia|]. change (2 ^ 113) with (2 ^ 54 * 2 ^ 59). nia. Qed.

(** A column of the schoolbook product. *)
Lemma column_bound a0 a1 a2 a3 a4 b0 b1 b2 b3 b4 :
  0 <= a0 < 2 ^ 54 -> 0 <= a1 < 2 ^ 54 -> 0 <= a2 < 2 ^ 54 -> 0 <= a3 < 2 ^ 54 -> 0 <= a4 < 2 ^ 54 ->
  0 <= b0 < 2 ^ 59 -> 0 <= b1 < 2 ^ 59 -> 0 <= b2 < 2 ^ 59 -> 0 <= b3 < 2 ^ 59 -> 0 <= b4 < 2 ^ 59 ->
  0 <= a0 * b0 + a1 * b1 + a2 * b2 + a3 * b3 + a4 * b4 < 2 ^ 116.
Proof.
  intros A0 A1 A2 A3 A4 B0 B1 B2 B3 B4. pose proof (product_bound _ _ A0 B0) as P0. pose proof (product_bound _ _ A1 B1) as P1. pose proof (product_bound _ _ A2 B2) as P2. pose proof (product_bound _ _ A3 B3) as P3. pose proof (product_bound _ _ A4 B4) as P4.
  revert P0 P1 P2 P3 P4. generalize (a0 * b0) (a1 * b1) (a2 * b2) (a3 * b3) (a4 * b4). clear. lia.
Qed.

Lemma fe_mul_ok a b : below (2 ^ 54) a -> below (2 ^ 54) b -> exists f, fe_mul a b = Ret f /\ carried f /\ val f mod p25519 = (val a * val b) mod p25519.
Proof.
  destruct a as [a0 a1 a2 a3 a4], b as [b0 b1 b2 b3 b4]. unfold below. cbn [l0 l1 l2 l3 l4]. intros (A0 & A1 & A2 & A3 & A4) (B0 & B1 & B2 & B3 & B4). unfold fe_mul.
  assert (W : forall x0 x1 x2 x3 x4, 0 <= x0 < 2 ^ 59 -> 0 <= x1 < 2 ^ 59 -> 0 <= x2 < 2 ^ 59 -> 0 <= x3 < 2 ^ 59 -> 0 <= x4 < 2 ^ 59 -> 0 <= a0 * x0 + a1 * x1 + a2 * x2 + a3 * x3 + a4 * x4 < 2 ^ 116) by (intros; by apply column_bound).
  rewrite (word128_ok (b1 * 19)), (word128_ok (b2 * 19)), (word128_ok (b3 * 19)), (word128_ok (b4 * 19)) by (clear W; lia). cbn [mbind exec_bind].
  do 5 (match goal with |- context [word128 (a0 * ?x0 + a1 * ?x1 + a2 * ?x2 + a3 * ?x3 + a4 * ?x4)] => let C := fresh "C" in assert (C : 0 <= a0 * x0 + a1 * x1 + a2 * x2 + a3 * x3 + a4 * x4 < 2 ^ 116) by (apply W; lia);
    rewrite word128_ok by (revert C; generalize (a0 * x0 + a1 * x1 + a2 * x2 + a3 * x3 + a4 * x4); clear; lia) end; cbn [mbind exec_bind]).
  match goal with |- context [wide_carry ?t] => destruct (wide_carry_ok t) as (f & -> & V & Cf) end; [by repeat split; cbn [l0 l1 l2 l3 l4]; apply W; lia|].
  exists f. split; [reflexivity|]. split; [exact Cf|]. rewrite V. set (k := (a1 * b4 + a2 * b3 + a3 * b2 + a4 * b1) + 2 ^ 51 * (a2 * b4 + a3 * b3 + a4 * b2) + 2 ^ 102 * (a3 * b4 + a4 * b3) + 2 ^ 153 * (a4 * b4)).
  rewrite <- (Z.mod_add _ k p25519) by (unfold p25519; lia). f_equal. unfold k, val, p25519. cbn [l0 l1 l2 l3 l4]. ring.
Qed.

Lemma mul_small_ok a n : below (2 ^ 52) a -> 0 <= n < 2 ^ 32 -> exists f, mul_small a n = Ret f /\ carried f /\ val f mod p25519 = (val a * n) mod p25519.
Proof.
  destruct a as [a0 a1 a2 a3 a4]. unfold below. cbn [l0 l1 l2 l3 l4]. intros (A0 & A1 & A2 & A3 & A4) Hn. unfold mul_small. cbn [l0 l1 l2 l3 l4].
  assert (M : forall x, 0 <= x < 2 ^ 52 -> 0 <= x * n < 2 ^ 84) by (intros; nia). pose proof (M _ A0). pose proof (M _ A1). pose proof (M _ A2). pose proof (M _ A3). pose proof (M _ A4).
  rewrite !word128_ok by lia. cbn [mbind exec_bind]. match goal with |- context [wide_carry ?t] => destruct (wide_carry_ok t) as (f & -> & V & C) end; [unfold below; cbn [l0 l1 l2 l3 l4]; lia|].
  exists f. split; [reflexivity|]. split; [exact C|]. rewrite V. f_equal. unfold val. cbn [l0 l1 l2 l3 l4]. ring.
Qed.

(** ** Numbers modulo the prime *)

Definition eqp (x y : Z) : Prop := x mod p25519 = y mod p25519.
Infix "=p" := eqp (at level 70, no associativity).

#[export] Instance eqp_equiv : Equivalence eqp.
Proof. split; [intros x; reflexivity|intros x y E; symmetry; exact E|intros x y z E1 E2; unfold eqp in *; congruence]. Qed.

#[export] Instance eqp_add : Proper (eqp ==> eqp ==> eqp) Z.add.
Proof. unfold eqp. intros x x' E y y' E'. by rewrite (Z.add_mod x), (Z.add_mod x'), E, E' by (unfold p25519; lia). Qed.

#[export] Instance eqp_sub : Proper (eqp ==> eqp ==> eqp) Z.sub.
Proof. unfold eqp. intros x x' E y y' E'. by rewrite (Zminus_mod x), (Zminus_mod x'), E, E'. Qed.

#[export] Instance eqp_mul : Proper (eqp ==> eqp ==> eqp) Z.mul.
Proof. unfold eqp. intros x x' E y y' E'. by rewrite (Z.mul_mod x), (Z.mul_mod x'), E, E' by (unfold p25519; lia). Qed.

Lemma mod_eqp x : x mod p25519 =p x.
Proof. unfold eqp. by rewrite Z.mod_mod by (unfold p25519; lia). Qed.

(** The operations, as results modulo the prime. *)
Lemma add_at a b : below (2 ^ 52) a -> below (2 ^ 52) b -> exists f, fe_add a b = Ret f /\ below (2 ^ 54) f /\ val f =p val a + val b.
Proof. intros A B. destruct (fe_add_ok a b A B) as (f & E & Bf & V). exists f. split; [exact E|]. split; [revert Bf; apply below_le; lia|]. by rewrite V. Qed.

Lemma sub_at a b : carried a -> carried b -> exists f, fe_sub a b = Ret f /\ below (2 ^ 52) f /\ val f =p val a - val b.
Proof. exact (fe_sub_ok a b). Qed.

Lemma mul_at a b : below (2 ^ 54) a -> below (2 ^ 54) b -> exists f, fe_mul a b = Ret f /\ carried f /\ val f =p val a * val b.
Proof. exact (fe_mul_ok a b). Qed.

Lemma wide f : carried f -> below (2 ^ 54) f.
Proof. intros C. eapply below_le; [|by apply carried_below]. lia. Qed.

(** ** Powers *)

Lemma square_n_at n : forall a z e, below (2 ^ 54) a -> 0 <= e -> val a =p z ^ e -> exists f, square_n a n = Ret f /\ below (2 ^ 54) f /\ val f =p z ^ (e * 2 ^ Z.of_nat n).
Proof.
  induction n as [|n IH]; intros a z e A He V; cbn [square_n]; [exists a; by rewrite Z.mul_1_r|]. unfold fe_square. destruct (mul_at a a A A) as (b & -> & B & Vb). cbn [mbind exec_bind].
  destruct (IH b z (e + e)) as (f & -> & Bf & Vf); [eapply below_le; [|by apply carried_below]; lia|lia|by rewrite Vb, V, <- Z.pow_add_r by lia|].
  exists f. split; [reflexivity|]. split; [exact Bf|]. rewrite Vf, Nat2Z.inj_succ, Z.pow_succ_r by lia. by replace ((e + e) * 2 ^ Z.of_nat n) with (e * (2 * 2 ^ Z.of_nat n)) by lia.
Qed.

Lemma square_n_mul_at n a b z e e' s : carried a -> carried b -> (0 <=? e) && (0 <=? e') = true -> e * 2 ^ Z.of_nat n + e' = s -> val a =p z ^ e -> val b =p z ^ e' ->
  exists f, square_n_mul a n b = Ret f /\ carried f /\ val f =p z ^ s.
Proof.
  intros A B [He%Z.leb_le He'%Z.leb_le]%andb_prop <- Va Vb. unfold square_n_mul. destruct (square_n_at n a z e (wide a A) He Va) as (x & -> & Bx & Vx). cbn [mbind exec_bind].
  destruct (mul_at x b Bx (wide b B)) as (f & -> & Bf & Vf). exists f. split; [reflexivity|]. split; [exact Bf|].
  rewrite Vf, Vx, Vb, <- Z.pow_add_r; [reflexivity| |exact He']. apply Z.mul_nonneg_nonneg; [exact He|]. apply Z.pow_nonneg. lia.
Qed.

(** The addition chain is the power [p - 2]. *)
Lemma invert_at z : carried z -> exists f, invert z = Ret f /\ carried f /\ val f =p val z ^ (p25519 - 2).
Proof.
  intros C. unfold invert, fe_square. set (x := val z). assert (V1 : val z =p x ^ 1) by by rewrite Z.pow_1_r.
  destruct (mul_at z z (wide z C) (wide z C)) as (z2 & -> & C2 & V2). cbn [mbind exec_bind].
  assert (V2' : val z2 =p x ^ 2) by (rewrite V2, Z.pow_2_r; reflexivity). clear V2.
  destruct (square_n_mul_at 2 z2 z x 2 1 9 C2 C eq_refl ltac:(vm_compute; reflexivity) V2' V1) as (z9 & -> & C9 & V9). cbn [mbind exec_bind].
  destruct (mul_at z9 z2 (wide _ C9) (wide _ C2)) as (z11 & -> & C11 & V11). cbn [mbind exec_bind]. rewrite V9, V2', <- Z.pow_add_r in V11 by lia. change (9 + 2) with 11 in V11.
  destruct (square_n_mul_at 1 z11 z9 x 11 9 (2 ^ 5 - 1) C11 C9 eq_refl ltac:(vm_compute; reflexivity) V11 V9) as (z5 & -> & C5 & V5). cbn [mbind exec_bind].
  destruct (square_n_mul_at 5 z5 z5 x (2 ^ 5 - 1) (2 ^ 5 - 1) (2 ^ 10 - 1) C5 C5 eq_refl ltac:(vm_compute; reflexivity) V5 V5) as (z10 & -> & C10 & V10). cbn [mbind exec_bind].
  destruct (square_n_mul_at 10 z10 z10 x (2 ^ 10 - 1) (2 ^ 10 - 1) (2 ^ 20 - 1) C10 C10 eq_refl ltac:(vm_compute; reflexivity) V10 V10) as (z20 & -> & C20 & V20). cbn [mbind exec_bind].
  destruct (square_n_mul_at 20 z20 z20 x (2 ^ 20 - 1) (2 ^ 20 - 1) (2 ^ 40 - 1) C20 C20 eq_refl ltac:(vm_compute; reflexivity) V20 V20) as (z40 & -> & C40 & V40). cbn [mbind exec_bind].
  destruct (square_n_mul_at 10 z40 z10 x (2 ^ 40 - 1) (2 ^ 10 - 1) (2 ^ 50 - 1) C40 C10 eq_refl ltac:(vm_compute; reflexivity) V40 V10) as (z50 & -> & C50 & V50). cbn [mbind exec_bind].
  destruct (square_n_mul_at 50 z50 z50 x (2 ^ 50 - 1) (2 ^ 50 - 1) (2 ^ 100 - 1) C50 C50 eq_refl ltac:(vm_compute; reflexivity) V50 V50) as (z100 & -> & C100 & V100). cbn [mbind exec_bind].
  destruct (square_n_mul_at 100 z100 z100 x (2 ^ 100 - 1) (2 ^ 100 - 1) (2 ^ 200 - 1) C100 C100 eq_refl ltac:(vm_compute; reflexivity) V100 V100) as (z200 & -> & C200 & V200). cbn [mbind exec_bind].
  destruct (square_n_mul_at 50 z200 z50 x (2 ^ 200 - 1) (2 ^ 50 - 1) (2 ^ 250 - 1) C200 C50 eq_refl ltac:(vm_compute; reflexivity) V200 V50) as (z250 & -> & C250 & V250). cbn [mbind exec_bind].
  destruct (square_n_mul_at 5 z250 z11 x (2 ^ 250 - 1) 11 (p25519 - 2) C250 C11 eq_refl ltac:(vm_compute; reflexivity) V250 V11) as (f & -> & Cf & Vf). exists f. split; [reflexivity|]. split; [exact Cf|]. exact Vf.
Qed.

(** ** Bytes *)

Lemma carry_exact t : below (2 ^ 63) t -> exists t', carry t = Ret t' /\ below (2 ^ 52) t' /\ val t' = val t mod 2 ^ 255 + 19 * (val t / 2 ^ 255).
Proof.
  intros B. destruct (carry_up_ok word64 (2 ^ 64) t (or_introl eq_refl) word64_ok B) as ([t0 t1 t2 t3 t4] & E & V & B0 & B1 & B2 & B3 & B4). destruct B as (_ & _ & _ & _ & B). cbn [l0 l1 l2 l3 l4] in *.
  change (2 ^ 64 / 2 ^ 51) with (2 ^ 13) in B4. change (2 ^ 64 / 2) with (2 ^ 63) in B. unfold carry. rewrite E. cbn [mbind exec_bind l0 l1 l2 l3 l4]. rewrite land_M51, shiftr_51.
  destruct (split_51 t4) as (q & r & -> & -> & E4 & Q & R); [lia|]. rewrite word64_ok by lia. cbn [mbind exec_bind].
  eexists. split; [reflexivity|]. split; [unfold below; cbn [l0 l1 l2 l3 l4]; lia|]. rewrite <- V. unfold val. cbn [l0 l1 l2 l3 l4]. set (m := t0 + 2 ^ 51 * t1 + 2 ^ 102 * t2 + 2 ^ 153 * t3 + 2 ^ 204 * r).
  assert (Hm : 0 <= m < 2 ^ 255) by (unfold m; lia). replace (t0 + 2 ^ 51 * t1 + 2 ^ 102 * t2 + 2 ^ 153 * t3 + 2 ^ 204 * t4) with (m + q * 2 ^ 255) by (unfold m; lia).
  rewrite Z.mod_add, Z.div_add, Z.mod_small, Z.div_small by lia. unfold m. lia.
Qed.

(** Reduced limbs, packed in four words. *)
Lemma pack_limbs x0 x1 x2 x3 x4 : 0 <= x0 < 2 ^ 51 -> 0 <= x1 < 2 ^ 51 -> 0 <= x2 < 2 ^ 51 -> 0 <= x3 < 2 ^ 51 -> 0 <= x4 < 2 ^ 51 ->
  to_le_bytes 8 (Z.lor x0 (shl64 x1 51)) ++ to_le_bytes 8 (Z.lor (Z.shiftr x1 13) (shl64 x2 38)) ++ to_le_bytes 8 (Z.lor (Z.shiftr x2 26) (shl64 x3 25)) ++ to_le_bytes 8 (Z.lor (Z.shiftr x3 39) (shl64 x4 12)) =
  to_le_bytes 32 (val (mkFe x0 x1 x2 x3 x4)).
Proof.
  intros H0 H1 H2 H3 H4. rewrite !Z.shiftr_div_pow2 by lia.
  assert (S : forall x k, 0 < k < 51 -> 0 <= x < 2 ^ 51 -> x = 2 ^ k * (x / 2 ^ k) + x mod 2 ^ k /\ 0 <= x / 2 ^ k < 2 ^ (51 - k) /\ 0 <= x mod 2 ^ k < 2 ^ k).
  { intros x k Hk Hx. pose proof (Z.pow_pos_nonneg 2 k ltac:(lia) ltac:(lia)). pose proof (Z.div_mod x (2 ^ k) ltac:(lia)). pose proof (Z.mod_pos_bound x (2 ^ k) ltac:(lia)).
    split; [lia|]. split; [|lia]. split; [apply Z.div_pos; lia|]. apply Z.div_lt_upper_bound; [lia|]. rewrite <- Z.pow_add_r by lia. replace (k + (51 - k)) with 51 by lia. lia. }
  destruct (S x1 13 ltac:(lia) H1) as (E1 & Q1 & R1). destruct (S x2 26 ltac:(lia) H2) as (E2 & Q2 & R2). destruct (S x3 39 ltac:(lia) H3) as (E3 & Q3 & R3). clear S.
  rewrite !pack_word by lia. change (64 - 51) with 13. change (64 - 38) with 26. change (64 - 25) with 39. change (64 - 12) with 52. rewrite (Z.mod_small x4) by lia. change (51 - 13) with 38 in *. change (51 - 26) with 25 in *. change (51 - 39) with 12 in *.
  set (q1 := x1 / 2 ^ 13) in *. set (r1 := x1 mod 2 ^ 13) in *. set (q2 := x2 / 2 ^ 26) in *. set (r2 := x2 mod 2 ^ 26) in *. set (q3 := x3 / 2 ^ 39) in *. set (r3 := x3 mod 2 ^ 39) in *.
  change 32%nat with (8 + (8 + (8 + 8)))%nat. rewrite <- !to_le_bytes_app by (change (256 ^ Z.of_nat 8) with (2 ^ 64); lia). f_equal. change (256 ^ Z.of_nat 8) with (2 ^ 64). unfold val. cbn [l0 l1 l2 l3 l4]. lia.
Qed.

Lemma to_bytes_ok f : carried f -> to_bytes f = Ret (to_le_bytes 32 (val f mod p25519)).
Proof.
  intros C. unfold to_bytes. assert (Ws : forall m n g, m <= n -> below m g -> below n g) by (intros; by eapply below_le).
  destruct (carry_exact f) as (t & -> & Bt & Vt); [eapply Ws; [|by apply carried_below]; lia|]. cbn [mbind exec_bind].
  destruct (carry_exact t) as (t' & -> & Bt' & Vt'); [eapply Ws; [|exact Bt]; lia|]. cbn [mbind exec_bind]. rewrite word64_ok by (unfold below in Bt'; lia). cbn [mbind exec_bind].
  set (u := mkFe (l0 t' + 19) (l1 t') (l2 t') (l3 t') (l4 t')). assert (Vu : val u = val t' + 19) by (unfold val, u; cbn [l0 l1 l2 l3 l4]; lia).
  destruct (carry_exact u) as (v & -> & Bv & Vv); [unfold u; unfold below in *; cbn [l0 l1 l2 l3 l4]; lia|]. cbn [mbind exec_bind].
  rewrite !word64_ok by (unfold below in Bv; lia). cbn [mbind exec_bind]. set (w := mkFe _ _ _ _ _). assert (Vw : val w = val v + p25519) by (unfold val, w, p25519; cbn [l0 l1 l2 l3 l4]; lia).
  destruct (carry_up_ok word64 (2 ^ 64) w (or_introl eq_refl) word64_ok) as ([x0 x1 x2 x3 x4] & -> & Vx & X0 & X1 & X2 & X3 & X4); [change (2 ^ 64 / 2) with (2 ^ 63); unfold w; unfold below in *; cbn [l0 l1 l2 l3 l4]; lia|].
  cbn [mbind exec_bind l0 l1 l2 l3 l4] in *. f_equal.
  (* the value *)
  assert (Vf : val t' mod p25519 = val f mod p25519).
  { assert (Go : forall a, (a mod 2 ^ 255 + 19 * (a / 2 ^ 255)) mod p25519 = a mod p25519).
    { intros a. rewrite (Z.div_mod a (2 ^ 255)) at 3 by lia. rewrite <- (Z.mod_add (_ + _) (a / 2 ^ 255) p25519) by (unfold p25519; lia). f_equal. unfold p25519. lia. }
    by rewrite Vt', Go, Vt, Go. }
  assert (Rt : 0 <= val t' < 2 * p25519).
  { unfold carried in C. assert (0 <= val f < 2 ^ 256) by (unfold val; lia). pose proof (Z.div_mod (val f) (2 ^ 255) ltac:(lia)). pose proof (Z.mod_pos_bound (val f) (2 ^ 255) ltac:(lia)).
    assert (0 <= val t < 2 ^ 255 + 40) by lia. pose proof (Z.div_mod (val t) (2 ^ 255) ltac:(lia)). pose proof (Z.mod_pos_bound (val t) (2 ^ 255) ltac:(lia)). unfold p25519. lia. }
  assert (Vv' : val v = val f mod p25519 + 19).
  { rewrite Vv, Vu, <- Vf. destruct (Z.lt_ge_cases (val t') p25519) as [L|L].
    - rewrite (Z.mod_small (val t' + 19)), (Z.div_small (val t' + 19)), (Z.mod_small (val t')) by (unfold p25519 in *; lia). lia.
    - assert (E1 : (val t' + 19) mod 2 ^ 255 = val t' + 19 - 2 ^ 255) by (symmetry; apply (Z.mod_unique _ _ 1); unfold p25519 in *; lia).
      assert (E2 : (val t' + 19) / 2 ^ 255 = 1) by (symmetry; apply (Z.div_unique _ _ _ (val t' + 19 - 2 ^ 255)); unfold p25519 in *; lia).
      assert (E3 : val t' mod p25519 = val t' - p25519) by (symmetry; apply (Z.mod_unique _ _ 1); lia). rewrite E1, E2, E3. unfold p25519. lia. }
  pose proof (Z.mod_pos_bound (val f) p25519 ltac:(unfold p25519; lia)) as Rf. set (y := val f mod p25519) in *.
  assert (Ey : y = x0 + 2 ^ 51 * x1 + 2 ^ 102 * x2 + 2 ^ 153 * x3 + 2 ^ 204 * (x4 mod 2 ^ 51)).
  { pose proof (Z.div_mod x4 (2 ^ 51) ltac:(lia)). pose proof (Z.mod_pos_bound x4 (2 ^ 51) ltac:(lia)). unfold val in Vx at 1. cbn [l0 l1 l2 l3 l4] in Vx. unfold p25519 in *. lia. }
  rewrite land_M51, pack_limbs by (try apply Z.mod_pos_bound; lia). f_equal. symmetry. exact Ey.
Qed.

(** A field of bits within a loaded word. *)
Lemma loaded_bits B i c : 0 <= B -> 0 <= i -> 0 <= c -> c + 51 <= 64 -> Z.land (Z.shiftr ((B / 256 ^ i) mod 256 ^ 8) c) M51 = (B / 2 ^ (8 * i + c)) mod 2 ^ 51.
Proof.
  intros HB Hi Hc Hw. change (256 ^ 8) with (2 ^ 64). replace (256 ^ i) with (2 ^ (8 * i)) by (rewrite Z.pow_mul_r by lia; done). rewrite land_M51.
  apply Z.bits_inj'. intros j Hj. destruct (Z.lt_ge_cases j 51); [|by rewrite !Z.mod_pow2_bits_high by lia].
  rewrite !Z.mod_pow2_bits_low, Z.shiftr_spec, Z.mod_pow2_bits_low, !Z.div_pow2_bits by lia. f_equal. lia.
Qed.

Lemma from_bytes_ok b : length b = 32%nat -> carried (from_bytes b) /\ val (from_bytes b) = from_le_bytes b mod 2 ^ 255.
Proof.
  intros L. assert (Lb : blen b = 32) by (unfold blen; by rewrite L). pose proof (from_le_bytes_nonneg b) as HB. unfold from_bytes, load. rewrite !from_le_bytes_slice by lia. set (B := from_le_bytes b) in *.
  rewrite <- (Z.shiftr_0_r ((B / 256 ^ 0) mod 256 ^ 8)), !loaded_bits by lia. change (8 * 6 + 3) with 51. change (8 * 12 + 6) with 102. change (8 * 19 + 1) with 153. change (8 * 24 + 12) with 204. change (2 ^ (8 * 0 + 0)) with 1. rewrite Z.div_1_r.
  assert (D : forall k, 0 <= k -> B / 2 ^ (k + 51) = B / 2 ^ k / 2 ^ 51) by (intros; rewrite Z.pow_add_r, Z.div_div by lia; done).
  pose proof (D 51 ltac:(lia)) as D1. pose proof (D 102 ltac:(lia)) as D2. pose proof (D 153 ltac:(lia)) as D3. pose proof (D 204 ltac:(lia)) as D4. change (51 + 51) with 102 in D1. change (102 + 51) with 153 in D2. change (153 + 51) with 204 in D3. change (204 + 51) with 255 in D4. clear D.
  assert (S : forall x, x = 2 ^ 51 * (x / 2 ^ 51) + x mod 2 ^ 51 /\ 0 <= x mod 2 ^ 51 < 2 ^ 51) by (intros; split; [apply Z.div_mod; lia|apply Z.mod_pos_bound; lia]).
  destruct (S B) as [S0 R0]. destruct (S (B / 2 ^ 51)) as [S1 R1]. destruct (S (B / 2 ^ 102)) as [S2 R2]. destruct (S (B / 2 ^ 153)) as [S3 R3]. destruct (S (B / 2 ^ 204)) as [S4 R4].
  clear S. rewrite <- D1 in S1. rewrite <- D2 in S2. rewrite <- D3 in S3. rewrite <- D4 in S4. clear D1 D2 D3 D4.
  split; [unfold carried; cbn [l0 l1 l2 l3 l4]; lia|]. unfold val. cbn [l0 l1 l2 l3 l4]. apply (Z.mod_unique _ _ (B / 2 ^ 255)); [left; lia|]. lia.
Qed.

(** *** Scalars *)

Definition bit (n : Z) (t : nat) : Z := Z.b2z (Z.testbit n (Z.of_nat t)).

Lemma scalar_bit_ok k t : length k = 32%nat -> (t < 256)%nat -> scalar_bit k t = bit (from_le_bytes k) t.
Proof.
  intros L Ht. unfold scalar_bit, bit. destruct (lookup_lt_is_Some_2 k (t / 8)%nat) as [b Eb]; [rewrite L; apply Nat.Div0.div_lt_upper_bound; lia|]. rewrite Eb. cbn [default from_option].
  pose proof (Nat.mod_upper_bound t 8 ltac:(lia)). replace (Z.of_nat t) with (8 * Z.of_nat (t / 8) + Z.of_nat (t mod 8)) by (pose proof (Nat.div_mod_eq t 8); lia).
  rewrite (from_le_bytes_bit k _ _ b Eb) by lia. change (default x00 (Some b)) with b. rewrite Z.testbit_spec', Z.shiftr_div_pow2 by lia. change 1 with (Z.ones 1) at 1. rewrite Z.land_ones by lia. done.
Qed.

(** RFC 7748's [decodeScalar25519]: the low three bits and the top one cleared,
    the next set. *)
Definition decode_scalar (s : list byte) : Z := 2 ^ 254 + 8 * ((from_le_bytes s mod 2 ^ 254) / 8).

Lemma clamp_low b : bz (zb (Z.land (bz b) 248)) = 8 * (bz b / 8).
Proof. by destruct b; vm_compute. Qed.

Lemma clamp_high b : bz (zb (Z.lor (bz (zb (Z.land (bz b) 127))) 64)) = 64 + bz b mod 64.
Proof. by destruct b; vm_compute. Qed.

Lemma clamp_ok s : length s = 32%nat -> length (clamp s) = 32%nat /\ from_le_bytes (clamp s) = decode_scalar s.
Proof.
  intros L. destruct s as [|a s]; [discriminate L|]. destruct s as [|z s _] using rev_ind; [discriminate L|]. cbn [length] in L. rewrite length_app in L. cbn [length] in L. assert (Ls : length s = 30%nat) by lia.
  assert (E : clamp (a :: s ++ [z]) = zb (Z.land (bz a) 248) :: s ++ [zb (Z.lor (bz (zb (Z.land (bz z) 127))) 64)]).
  { unfold clamp. change ((a :: s ++ [z]) !! 0%nat) with (Some a). change (default x00 (Some a)) with a. set (a' := zb (Z.land (bz a) 248)).
    change (<[0%nat := a']> (a :: s ++ [z])) with (a' :: s ++ [z]). change ((a' :: s ++ [z]) !! 31%nat) with ((s ++ [z]) !! 30%nat). rewrite lookup_app_r, Ls by lia. change (default x00 ([z] !! (30 - 30)%nat)) with z.
    set (z' := zb (Z.land (bz z) 127)). change (<[31%nat := z']> (a' :: s ++ [z])) with (a' :: <[30%nat := z']> (s ++ [z])). rewrite insert_app_r_alt, Ls by lia. change (<[(30 - 30)%nat := z']> [z]) with [z'].
    change ((a' :: s ++ [z']) !! 31%nat) with ((s ++ [z']) !! 30%nat). rewrite lookup_app_r, Ls by lia. change (default x00 ([z'] !! (30 - 30)%nat)) with z'. set (z2 := zb (Z.lor (bz z') 64)).
    change (<[31%nat := z2]> (a' :: s ++ [z'])) with (a' :: <[30%nat := z2]> (s ++ [z'])). rewrite insert_app_r_alt, Ls by lia. done. }
  rewrite E. split; [cbn [length]; rewrite length_app; cbn [length]; lia|]. unfold decode_scalar. cbn [from_le_bytes]. rewrite !from_le_bytes_app. cbn [from_le_bytes]. rewrite clamp_low, clamp_high.
  assert (Lb : blen s = 30) by (unfold blen; lia). rewrite Lb. change (2 ^ (8 * 30)) with (2 ^ 240). pose proof (from_le_bytes_range s) as R. rewrite Lb in R. change (256 ^ 30) with (2 ^ 240) in R. set (m := from_le_bytes s) in *.
  pose proof (bz_range a). pose proof (bz_range z). set (x := bz a) in *. set (y := bz z) in *.
  assert (Em : (x + 256 * (m + 2 ^ 240 * (y + 256 * 0))) mod 2 ^ 254 = x + 256 * m + 2 ^ 248 * (y mod 64)).
  { symmetry. pose proof (Z.div_mod y 64 ltac:(lia)). pose proof (Z.mod_pos_bound y 64 ltac:(lia)). apply (Z.mod_unique _ _ (y / 64)); [left; lia|]. lia. }
  rewrite Em. replace (x + 256 * m + 2 ^ 248 * (y mod 64)) with (x + (32 * m + 2 ^ 245 * (y mod 64)) * 8) by lia. rewrite Z.div_add by lia. lia.
Qed.

(** ** The ladder over numbers *)

(** A point is the ratio of two numbers modulo the prime. *)
Definition point : Type := Z * Z.

Definition double (P : point) : point :=
  let '(x, z) := P in
  let aa := (x + z) * (x + z) in
  let bb := (x - z) * (x - z) in
  let e := aa - bb in
  ((aa * bb) mod p25519, (e * (aa + e * 121665)) mod p25519).

(** The sum of two points whose difference is [x1]. *)
Definition add_diff (x1 : Z) (P Q : point) : point :=
  let '(x2, z2) := P in
  let '(x3, z3) := Q in
  let da := (x3 - z3) * (x2 + z2) in
  let cb := (x3 + z3) * (x2 - z2) in
  (((da + cb) * (da + cb)) mod p25519, (x1 * ((da - cb) * (da - cb))) mod p25519).

(** The Montgomery ladder: [P] and [Q] differ by the point throughout. *)
Fixpoint montgomery (k x1 : Z) (t : nat) (P Q : point) : point * point :=
  match t with
  | O => (P, Q)
  | S t => if Z.testbit k (Z.of_nat t) then montgomery k x1 t (add_diff x1 P Q) (double Q) else montgomery k x1 t (double P) (add_diff x1 P Q)
  end.

Definition x25519_number (k u : Z) : Z :=
  let '(x, z) := fst (montgomery k u 255 (1, 0) (u, 1)) in
  (x * z ^ (p25519 - 2)) mod p25519.

Lemma add_diff_comm x1 P Q : add_diff x1 P Q = add_diff x1 Q P.
Proof. destruct P as [x2 z2], Q as [x3 z3]. unfold add_diff. f_equal; f_equal; ring. Qed.

(** *** The conditional swap *)

Lemma cswap_limb_0 a b : cswap_limb 0 a b = (a, b).
Proof. unfold cswap_limb. by rewrite Z.land_0_l, !Z.lxor_0_r. Qed.

Lemma cswap_limb_1 a b : 0 <= a < 2 ^ 64 -> 0 <= b < 2 ^ 64 -> cswap_limb (2 ^ 64 - 1) a b = (b, a).
Proof.
  intros Ha Hb. unfold cswap_limb. change (2 ^ 64 - 1) with (Z.ones 64). pose proof (lxor_bound 64 a b ltac:(lia) Ha Hb). rewrite Z.land_comm, Z.land_ones, Z.mod_small by lia.
  by rewrite <- Z.lxor_assoc, Z.lxor_nilpotent, Z.lxor_0_l, (Z.lxor_comm a b), <- Z.lxor_assoc, Z.lxor_nilpotent, Z.lxor_0_l.
Qed.

Lemma cswap_ok a b (s : bool) : carried a -> carried b -> cswap a b (Z.b2z s) = if s then (b, a) else (a, b).
Proof.
  intros A B. destruct a as [a0 a1 a2 a3 a4], b as [b0 b1 b2 b3 b4]. unfold carried in *. cbn [l0 l1 l2 l3 l4] in *. unfold cswap. cbn [l0 l1 l2 l3 l4]. destruct s; cbn [Z.b2z].
  - change ((0 - 1) mod 2 ^ 64) with (2 ^ 64 - 1). rewrite !cswap_limb_1 by lia. done.
  - change ((0 - 0) mod 2 ^ 64) with 0. rewrite !cswap_limb_0. done.
Qed.

(** *** One step *)

(** A pair of elements stands for a point. *)
Definition stands (x z : Fe) (P : point) : Prop := carried x /\ carried z /\ val x =p fst P /\ val z =p snd P.

Lemma ladder_step_at k x1 s t (b sw : bool) u P Q : scalar_bit k t = Z.b2z b -> carried x1 -> val x1 =p u -> swap s = Z.b2z sw ->
  (if sw then stands (lx2 s) (lz2 s) Q /\ stands (lx3 s) (lz3 s) P else stands (lx2 s) (lz2 s) P /\ stands (lx3 s) (lz3 s) Q) ->
  exists s', ladder_step k x1 s t = Ret s' /\ swap s' = Z.b2z b /\
    stands (lx2 s') (lz2 s') (double (if b then Q else P)) /\ stands (lx3 s') (lz3 s') (add_diff u P Q).
Proof.
  intros Eb C1 V1 Es H. unfold ladder_step. rewrite Eb, Es.
  replace (Z.lxor (Z.b2z sw) (Z.b2z b)) with (Z.b2z (xorb sw b)) by by destruct sw, b.
  assert (Hc : carried (lx2 s) /\ carried (lz2 s) /\ carried (lx3 s) /\ carried (lz3 s)) by (unfold stands in H; destruct sw, H as [(? & ? & _) (? & ? & _)]; (split; [|split; [|split]]); assumption). destruct Hc as (K1 & K2 & K3 & K4).
  rewrite !cswap_ok by done. set (R := if b then Q else P). set (R' := if b then P else Q).
  assert (Ord : exists x2 z2 x3 z3, (if xorb sw b then (lx3 s, lx2 s) else (lx2 s, lx3 s)) = (x2, x3) /\ (if xorb sw b then (lz3 s, lz2 s) else (lz2 s, lz3 s)) = (z2, z3) /\ stands x2 z2 R /\ stands x3 z3 R').
  { unfold R, R'. destruct sw, b, H as [H1 H2]; cbn [xorb]; do 4 eexists; (split; [reflexivity|]); (split; [reflexivity|]); done. }
  destruct Ord as (x2 & z2 & x3 & z3 & -> & -> & (A1 & A2 & A3 & A4) & (B1 & B2 & B3 & B4)). clear H K1 K2 K3 K4.
  replace (add_diff u P Q) with (add_diff u R R') by (unfold R, R'; destruct b; [apply add_diff_comm|done]). destruct R as [px pz], R' as [qx qz]. cbn [fst snd] in *. clear P Q Es Eb.
  destruct (add_at x2 z2 (carried_below _ A1) (carried_below _ A2)) as (a & -> & Ba & Va). cbn [mbind exec_bind]. unfold fe_square.
  destruct (mul_at a a Ba Ba) as (aa & -> & Caa & Vaa). cbn [mbind exec_bind].
  destruct (sub_at x2 z2 A1 A2) as (d2 & -> & Bd2 & Vd2). cbn [mbind exec_bind]. assert (Wd2 : below (2 ^ 54) d2) by (eapply below_le; [|exact Bd2]; lia).
  destruct (mul_at d2 d2 Wd2 Wd2) as (bb & -> & Cbb & Vbb). cbn [mbind exec_bind].
  destruct (sub_at aa bb Caa Cbb) as (e & -> & Be & Ve). cbn [mbind exec_bind]. assert (We : below (2 ^ 54) e) by (eapply below_le; [|exact Be]; lia).
  destruct (add_at x3 z3 (carried_below _ B1) (carried_below _ B2)) as (c & -> & Bc & Vc). cbn [mbind exec_bind].
  destruct (sub_at x3 z3 B1 B2) as (d & -> & Bd & Vd). cbn [mbind exec_bind]. assert (Wd : below (2 ^ 54) d) by (eapply below_le; [|exact Bd]; lia).
  destruct (mul_at d a Wd Ba) as (da & -> & Cda & Vda). cbn [mbind exec_bind].
  destruct (mul_at c d2 Bc Wd2) as (cb & -> & Ccb & Vcb). cbn [mbind exec_bind].
  destruct (add_at da cb (carried_below _ Cda) (carried_below _ Ccb)) as (s3 & -> & Bs3 & Vs3). cbn [mbind exec_bind].
  destruct (mul_at s3 s3 Bs3 Bs3) as (x3' & -> & Cx3 & Vx3). cbn [mbind exec_bind].
  destruct (sub_at da cb Cda Ccb) as (d3 & -> & Bd3 & Vd3). cbn [mbind exec_bind]. assert (Wd3 : below (2 ^ 54) d3) by (eapply below_le; [|exact Bd3]; lia).
  destruct (mul_at d3 d3 Wd3 Wd3) as (dd & -> & Cdd & Vdd). cbn [mbind exec_bind].
  destruct (mul_at x1 dd (wide _ C1) (wide _ Cdd)) as (z3' & -> & Cz3 & Vz3). cbn [mbind exec_bind].
  destruct (mul_at aa bb (wide _ Caa) (wide _ Cbb)) as (x2' & -> & Cx2 & Vx2). cbn [mbind exec_bind].
  destruct (mul_small_ok e 121665 Be ltac:(lia)) as (m & -> & Cm & Vm). cbn [mbind exec_bind].
  destruct (add_at aa m (carried_below _ Caa) (carried_below _ Cm)) as (y & -> & By & Vy). cbn [mbind exec_bind].
  destruct (mul_at e y We By) as (z2' & -> & Cz2 & Vz2). cbn [mbind exec_bind].
  eexists. split; [reflexivity|]. split; [reflexivity|]. unfold stands, double, add_diff. cbn [lx2 lz2 lx3 lz3 fst snd]. rewrite !mod_eqp. change (val m =p val e * 121665) in Vm.
  rewrite Vz2, Vy, Vm, Vx2, Vz3, Vdd, Vd3, Vx3, Vs3, Vda, Vcb, Vd, Vc, Ve, Vbb, Vd2, Vaa, Va, A3, A4, B3, B4, V1. done.
Qed.

Lemma ladder_loop_at k x1 u t : forall s sw P Q, length k = 32%nat -> (t <= 255)%nat -> carried x1 -> val x1 =p u -> swap s = Z.b2z sw ->
  (if sw then stands (lx2 s) (lz2 s) Q /\ stands (lx3 s) (lz3 s) P else stands (lx2 s) (lz2 s) P /\ stands (lx3 s) (lz3 s) Q) ->
  exists s' sw', ladder_loop k x1 t s = Ret s' /\ swap s' = Z.b2z sw' /\ let '(P', Q') := montgomery (from_le_bytes k) u t P Q in
  (if sw' then stands (lx2 s') (lz2 s') Q' /\ stands (lx3 s') (lz3 s') P' else stands (lx2 s') (lz2 s') P' /\ stands (lx3 s') (lz3 s') Q').
Proof.
  induction t as [|t IH]; intros s sw P Q L Ht C1 V1 Es H; cbn [ladder_loop montgomery]; [by exists s, sw|].
  destruct (ladder_step_at k x1 s t (Z.testbit (from_le_bytes k) (Z.of_nat t)) sw u P Q) as (s' & -> & Es' & H1 & H2); [apply scalar_bit_ok; [exact L|lia]|exact C1|exact V1|exact Es|exact H|]. cbn [mbind exec_bind].
  destruct (Z.testbit (from_le_bytes k) (Z.of_nat t)).
  - exact (IH s' true _ _ L ltac:(lia) C1 V1 Es' (conj H1 H2)).
  - exact (IH s' false _ _ L ltac:(lia) C1 V1 Es' (conj H1 H2)).
Qed.

Lemma eqp_pow x y n : 0 <= n -> x =p y -> x ^ n =p y ^ n.
Proof.
  intros Hn E. pattern n. apply natlike_ind; [done| |exact Hn]. intros m Hm IH. rewrite !Z.pow_succ_r by lia. apply eqp_mul; [exact E|exact IH].
Qed.

Lemma ladder_at k x1 : length k = 32%nat -> carried x1 -> exists f, ladder k x1 = Ret f /\ carried f /\ val f mod p25519 = x25519_number (from_le_bytes k) (val x1).
Proof.
  intros L C. unfold ladder. assert (C0 : carried ZERO /\ carried ONE) by (split; repeat split; cbn; lia). destruct C0 as [Z0 Z1].
  destruct (ladder_loop_at k x1 (val x1) 255 (mkLd ONE ZERO x1 ONE 0) false (1, 0) (val x1, 1) L ltac:(lia) C ltac:(reflexivity) eq_refl) as (s & sw & -> & Es & H); [split; (split; [assumption|split; [assumption|split; reflexivity]])|].
  cbn [mbind exec_bind]. rewrite Es. unfold x25519_number. destruct (montgomery (from_le_bytes k) (val x1) 255 (1, 0) (val x1, 1)) as [P Q]. cbn [fst].
  assert (Hc : carried (lx2 s) /\ carried (lz2 s) /\ carried (lx3 s) /\ carried (lz3 s)) by (unfold stands in H; destruct sw, H as [(? & ? & _) (? & ? & _)]; (split; [|split; [|split]]); assumption). destruct Hc as (K1 & K2 & K3 & K4).
  rewrite !cswap_ok by done. assert (Ord : exists x z x' z', (if sw then (lx3 s, lx2 s) else (lx2 s, lx3 s)) = (x, x') /\ (if sw then (lz3 s, lz2 s) else (lz2 s, lz3 s)) = (z, z') /\ stands x z P).
  { destruct sw, H as [H1 H2]; do 4 eexists; (split; [reflexivity|]); (split; [reflexivity|]); done. }
  destruct Ord as (x & z & x' & z' & -> & -> & Cx & Cz & Vx & Vz). destruct (invert_at z Cz) as (i & -> & Ci & Vi). cbn [mbind exec_bind].
  destruct (mul_at x i (wide _ Cx) (wide _ Ci)) as (f & -> & Cf & Vf). exists f. split; [reflexivity|]. split; [exact Cf|]. destruct P as [px pz]. cbn [fst snd] in *.
  rewrite (eqp_pow (val z) pz) in Vi; [|unfold p25519; lia|exact Vz]. rewrite Vi, Vx in Vf. exact Vf.
Qed.

(** A result for every scalar and every point. *)
Lemma x25519_total scalar u : length scalar = 32%nat -> length u = 32%nat -> exists v, x25519 scalar u = Ret v /\ length v = 32%nat.
Proof.
  intros Hs Hu. destruct (clamp_ok scalar Hs) as [Lc _]. destruct (from_bytes_ok u Hu) as [Cu _]. unfold x25519.
  destruct (ladder_at (clamp scalar) (from_bytes u) Lc Cu) as (f & -> & Cf & _). cbn [mbind exec_bind]. rewrite to_bytes_ok by exact Cf. eexists. split; [reflexivity|]. reflexivity.
Qed.

Lemma x25519_ok (scalar u : list byte) (Hs : length scalar = 32%nat) (Hu : length u = 32%nat) :
  x25519 scalar u = Ret (to_le_bytes 32 (x25519_number (decode_scalar scalar) (from_le_bytes u mod 2 ^ 255))).
Proof.
  destruct (clamp_ok scalar Hs) as [Lc Ec]. destruct (from_bytes_ok u Hu) as [Cu Vu]. unfold x25519.
  destruct (ladder_at (clamp scalar) (from_bytes u) Lc Cu) as (f & -> & Cf & Vf). cbn [mbind exec_bind]. rewrite to_bytes_ok by exact Cf. by rewrite Vf, Ec, Vu.
Qed.

(** C19: X25519 is computed, not approximated: for every scalar and every point the
    limb arithmetic fits its words at every step of the ladder, the inversion and
    the final reduction, and the result is the canonical encoding of what the
    Montgomery ladder over the integers modulo 2^255 - 19 gives for the clamped
    scalar. *)
Theorem x25519_is_the_ladder (scalar u : list byte) (Hs : length scalar = 32%nat) (Hu : length u = 32%nat) :
  x25519 scalar u = Ret (to_le_bytes 32 (x25519_number (decode_scalar scalar) (from_le_bytes u mod 2 ^ 255))).
Proof. by apply x25519_ok. Qed.

Lemma x25519_is_the_ladder_witness : exists n, x25519 (replicate 32 x01) BASEPOINT = Ret (to_le_bytes 32 n).
Proof. eexists. exact (x25519_is_the_ladder (replicate 32 x01) BASEPOINT eq_refl eq_refl). Defined.
