(* ===== verification/Poly1305.v ===== *)
(** * Poly1305 ([crates/kevy-crypto/src/poly1305.rs])

    The one-time authenticator on three limbs of 44, 44 and 42 bits.  The
    theorems show that no sum or product overflows its word, that a message
    absorbed in any pieces gives the tag of the whole, and that the tag is the one
    of the polynomial over the integers modulo 2^130 - 5. *)

From Stdlib Require Import ZArith Lia Bool Strings.Byte.
From stdpp Require Import base tactics list numbers.
From S2P Require Import Prelude FindCrlf Buffers Words.

#[local] Open Scope list_scope.
#[local] Open Scope Z_scope.

Definition M44 : Z := 0xfffffffffff.
Definition M42 : Z := 0x3ffffffffff.

Definition le64 (b : list byte) : exec Z := w ← index_range b 0 8; Ret (from_le_bytes w).

Record Limbs := mkL { h0 : Z; h1 : Z; h2 : Z }.

Record Poly1305 := mkPoly {
  r : Limbs;
  s : Z * Z;
  pad : Z * Z;
  h : Limbs;
  buf : list byte;
  buf_len : Z
}.

Definition set_h (x : Limbs) (p : Poly1305) : Poly1305 := mkPoly (r p) (s p) (pad p) x (buf p) (buf_len p).
Definition set_buf (b : list byte) (n : Z) (p : Poly1305) : Poly1305 := mkPoly (r p) (s p) (pad p) (h p) b n.

Definition new (key : list byte) : exec Poly1305 :=
  t0 ← le64 (from key 0);
  t1 ← le64 (from key 8);
  let r := mkL (Z.land t0 0xffc0fffffff) (Z.land (Z.lor (Z.shiftr t0 44) (shl64 t1 20)) 0xfffffc0ffff) (Z.land (Z.shiftr t1 24) 0x00ffffffc0f) in
  s1 ← word64 (h1 r * 20);
  s2 ← word64 (h2 r * 20);
  p0 ← le64 (from key 16);
  p1 ← le64 (from key 24);
  Ret (mkPoly r (s1, s2) (p0, p1) (mkL 0 0 0) (replicate 16 x00) 0).

(** The limbs of two words. *)
Definition split_words (t0 t1 : Z) : Limbs :=
  mkL (Z.land t0 M44) (Z.land (Z.lor (Z.shiftr t0 44) (shl64 t1 20)) M44) (Z.land (Z.shiftr t1 24) M42).

Definition block (p : Poly1305) (m : list byte) (hibit : Z) : exec Poly1305 :=
  let '(mkL r0 r1 r2) := r p in
  let '(s1, s2) := s p in
  t0 ← le64 (from m 0);
  t1 ← le64 (from m 8);
  let t := split_words t0 t1 in
  x0 ← word64 (h0 (h p) + h0 t);
  x1 ← word64 (h1 (h p) + h1 t);
  x2 ← word64 (h2 (h p) + Z.lor (h2 t) hibit);
  d0 ← word128 (x0 * r0 + x1 * s2 + x2 * s1);
  d1 ← word128 (x0 * r1 + x1 * r0 + x2 * s2);
  d2 ← word128 (x0 * r2 + x1 * r1 + x2 * r0);
  let c := Z.shiftr d0 44 mod 2 ^ 64 in
  let n0 := Z.land (d0 mod 2 ^ 64) M44 in
  d1 ← word128 (d1 + c);
  let c := Z.shiftr d1 44 mod 2 ^ 64 in
  let n1 := Z.land (d1 mod 2 ^ 64) M44 in
  d2 ← word128 (d2 + c);
  let c := Z.shiftr d2 42 mod 2 ^ 64 in
  let n2 := Z.land (d2 mod 2 ^ 64) M42 in
  c5 ← word64 (c * 5);
  n0 ← word64 (n0 + c5);
  n1 ← word64 (n1 + Z.shiftr n0 44);
  Ret (set_h (mkL (Z.land n0 M44) n1 n2) p).

(** The loop over [as_chunks::<16>], and its remainder. *)
Fixpoint blocks (n : nat) (p : Poly1305) (data : list byte) : exec (Poly1305 * list byte) :=
  match n with
  | O => Ret (p, data)
  | S n => p ← block p (take 16 data) (2 ^ 40); blocks n p (drop 16 data)
  end.

Definition absorb_whole (p : Poly1305) (data : list byte) : exec Poly1305 :=
  '(p, rest) ← blocks (length data / 16) p data;
  b ← copy_from_slice (buf p) 0 rest;
  Ret (set_buf b (blen rest) p).

Definition update (p : Poly1305) (data : list byte) : exec Poly1305 :=
  if 0 <? buf_len p then
    let n := Z.min (16 - buf_len p) (blen data) in
    b ← copy_from_slice (buf p) (buf_len p) (take (Z.to_nat n) data);
    let p := set_buf b (buf_len p + n) p in
    let data := from data n in
    if buf_len p <? 16 then Ret p
    else
      p ← block p (buf p) (2 ^ 40);
      absorb_whole (set_buf (buf p) 0 p) data
  else absorb_whole p data.

Definition full_reduce (x : Limbs) : exec Limbs :=
  let '(mkL h0 h1 h2) := x in
  let c := Z.shiftr h1 44 in
  let h1 := Z.land h1 M44 in
  h2 ← word64 (h2 + c);
  let c := Z.shiftr h2 42 in
  let h2 := Z.land h2 M42 in
  h0 ← word64 (h0 + c * 5);
  let c := Z.shiftr h0 44 in
  let h0 := Z.land h0 M44 in
  h1 ← word64 (h1 + c);
  let c := Z.shiftr h1 44 in
  let h1 := Z.land h1 M44 in
  h2 ← word64 (h2 + c);
  let c := Z.shiftr h2 42 in
  let h2 := Z.land h2 M42 in
  h0 ← word64 (h0 + c * 5);
  let c := Z.shiftr h0 44 in
  let h0 := Z.land h0 M44 in
  h1 ← word64 (h1 + c);
  g0 ← word64 (h0 + 5);
  let c := Z.shiftr g0 44 in
  let g0 := Z.land g0 M44 in
  g1 ← word64 (h1 + c);
  let c := Z.shiftr g1 44 in
  let g1 := Z.land g1 M44 in
  g2 ← word64 (h2 + c);
  let g2 := wrapping_sub64 g2 (2 ^ 42) in
  let take_g := wrapping_sub64 (Z.shiftr g2 63) 1 in
  let keep_h := not64 take_g in
  Ret (mkL (Z.lor (Z.land h0 keep_h) (Z.land g0 take_g)) (Z.lor (Z.land h1 keep_h) (Z.land g1 take_g)) (Z.lor (Z.land h2 keep_h) (Z.land g2 take_g))).

Definition finalize (p : Poly1305) : exec (list byte) :=
  p ← (if 0 <? buf_len p then
         m ← index_range (buf p) 0 (buf_len p);
         last ← copy_from_slice (replicate 16 x00) 0 m;
         last ← set_byte last (buf_len p) x01;
         block p last 0
       else Ret p);
  x ← full_reduce (h p);
  let '(t0, t1) := pad p in
  let t := split_words t0 t1 in
  a0 ← word64 (h0 x + h0 t);
  let c := Z.shiftr a0 44 in
  let a0 := Z.land a0 M44 in
  a1 ← word64 (h1 x + h1 t + c);
  let c := Z.shiftr a1 44 in
  let a1 := Z.land a1 M44 in
  a2 ← word64 (h2 x + h2 t + c);
  let a2 := Z.land a2 M42 in
  let lo := Z.lor a0 (shl64 a1 44) in
  let hi := Z.lor (Z.shiftr a1 20) (shl64 a2 24) in
  Ret (to_le_bytes 8 lo ++ to_le_bytes 8 hi).

(** ** What the limbs stand for *)

Definition p130 : Z := 2 ^ 130 - 5.

Definition lval (x : Limbs) : Z := h0 x + 2 ^ 44 * h1 x + 2 ^ 88 * h2 x.

(** The bits of a key that Poly1305 keeps of [r]. *)
Definition CLAMP : Z := 0x0ffffffc0ffffffc0ffffffc0fffffff.

Definition key_r (key : list byte) : Z := Z.land (from_le_bytes (slice key 0 16)) CLAMP.
Definition key_s (key : list byte) : Z := from_le_bytes (slice key 16 32).

(** One chunk: the number of its bytes and a one above them is added, and the sum
    multiplied. *)
Definition poly_step (rr acc : Z) (m : list byte) : Z := ((acc + from_le_bytes (m ++ [x01])) * rr) mod p130.

Fixpoint whole (k : nat) (rr acc : Z) (data : list byte) : Z :=
  match k with O => acc | S k => whole k rr (poly_step rr acc (take 16 data)) (drop 16 data) end.

Definition poly_acc (rr : Z) (data : list byte) : Z :=
  let k := (length data / 16)%nat in
  let acc := whole k rr 0 data in
  match drop (16 * k) data with [] => acc | rest => poly_step rr acc rest end.

Definition mac_of (key data : list byte) : list byte := to_le_bytes 16 ((poly_acc (key_r key) data + key_s key) mod 2 ^ 128).

(** ** Words to limbs *)

Lemma land_M44 x : Z.land x M44 = x mod 2 ^ 44.
Proof. exact (land_ones_mod x 44 ltac:(lia)). Qed.

Lemma land_M42 x : Z.land x M42 = x mod 2 ^ 42.
Proof. exact (land_ones_mod x 42 ltac:(lia)). Qed.

Lemma middle_limb t0 t1 : 0 <= t0 < 2 ^ 64 -> 0 <= t1 < 2 ^ 64 -> Z.lor (Z.shiftr t0 44) (shl64 t1 20) mod 2 ^ 44 = t0 / 2 ^ 44 + 2 ^ 20 * (t1 mod 2 ^ 24).
Proof.
  intros H0 H1. rewrite Z.shiftr_div_pow2 by lia. assert (Q : 0 <= t0 / 2 ^ 44 < 2 ^ 20) by (split; [apply Z.div_pos; lia|apply Z.div_lt_upper_bound; lia]).
  rewrite pack_word by lia. change (64 - 20) with 44. pose proof (Z.div_mod t1 (2 ^ 44) ltac:(lia)). pose proof (Z.mod_pos_bound t1 (2 ^ 44) ltac:(lia)).
  destruct (split_pow t1 24 ltac:(lia) ltac:(lia)) as (q & r & _ & -> & E & Hq & Hr). destruct (split_pow (t1 mod 2 ^ 44) 24 ltac:(lia) ltac:(lia)) as (q' & r' & _ & _ & E' & Hq' & Hr').
  assert (r' = r) as -> by lia. symmetry. apply (Z.mod_unique _ _ q'); [left; lia|]. lia.
Qed.

Lemma split_words_ok t0 t1 : 0 <= t0 < 2 ^ 64 -> 0 <= t1 < 2 ^ 64 -> let t := split_words t0 t1 in
  lval t = t0 + 2 ^ 64 * t1 /\ 0 <= h0 t < 2 ^ 44 /\ 0 <= h1 t < 2 ^ 44 /\ 0 <= h2 t < 2 ^ 40.
Proof.
  intros H0 H1. unfold split_words, lval. cbn [h0 h1 h2]. rewrite !land_M44, land_M42, middle_limb, Z.shiftr_div_pow2 by lia.
  destruct (split_pow t0 44 ltac:(lia) ltac:(lia)) as (q & x & -> & -> & E & Hq & Hr). destruct (split_pow t1 24 ltac:(lia) ltac:(lia)) as (q' & x' & -> & -> & E' & Hq' & Hr').
  rewrite Z.mod_small by lia. lia.
Qed.

Lemma le64_at b i : 0 <= i -> i + 8 <= blen b -> le64 (from b i) = Ret (from_le_bytes (slice b i (i + 8))) /\ 0 <= from_le_bytes (slice b i (i + 8)) < 2 ^ 64.
Proof.
  intros Hi Hl. unfold le64. rewrite index_range_ok by (rewrite ?blen_from; lia). cbn [mbind exec_bind]. rewrite slice_from, from_0, slice_from. replace (i + 8 - i) with (8 - 0) by lia.
  split; [done|]. pose proof (from_le_bytes_range (take (Z.to_nat (8 - 0)) (from b i))) as R. replace (blen (take (Z.to_nat (8 - 0)) (from b i))) with 8 in R; [exact R|].
  unfold blen in *. rewrite length_take. unfold from. rewrite length_drop. lia.
Qed.

(** The two words of sixteen bytes. *)
Lemma two_words b i : 0 <= i -> i + 16 <= blen b -> from_le_bytes (slice b i (i + 8)) + 2 ^ 64 * from_le_bytes (slice b (i + 8) (i + 16)) = from_le_bytes (slice b i (i + 16)).
Proof.
  intros Hi Hl. rewrite <- (slice_join b i (i + 8) (i + 16)) by lia. rewrite from_le_bytes_app. by rewrite blen_slice by lia; replace (i + 8 - i) with 8 by lia.
Qed.

(** ** One block *)

Record sound (p : Poly1305) : Prop := {
  so_r : 0 <= h0 (r p) < 2 ^ 44 /\ 0 <= h1 (r p) < 2 ^ 44 /\ 0 <= h2 (r p) < 2 ^ 42;
  so_s : s p = (20 * h1 (r p), 20 * h2 (r p));
  so_h : 0 <= h0 (h p) < 2 ^ 44 /\ 0 <= h1 (h p) < 2 ^ 45 /\ 0 <= h2 (h p) < 2 ^ 42;
  so_pad : 0 <= fst (pad p) < 2 ^ 64 /\ 0 <= snd (pad p) < 2 ^ 64;
  so_buf : length (buf p) = 16%nat
}.

Lemma column3 a0 a1 a2 b0 b1 b2 : 0 <= a0 < 2 ^ 46 -> 0 <= a1 < 2 ^ 46 -> 0 <= a2 < 2 ^ 46 -> 0 <= b0 < 2 ^ 49 -> 0 <= b1 < 2 ^ 49 -> 0 <= b2 < 2 ^ 49 ->
  0 <= a0 * b0 + a1 * b1 + a2 * b2 < 2 ^ 97.
Proof.
  assert (P : forall a b, 0 <= a < 2 ^ 46 -> 0 <= b < 2 ^ 49 -> 0 <= a * b < 2 ^ 95) by (intros; split; [nia|]; change (2 ^ 95) with (2 ^ 46 * 2 ^ 49); nia).
  intros A0 A1 A2 B0 B1 B2. pose proof (P _ _ A0 B0). pose proof (P _ _ A1 B1). pose proof (P _ _ A2 B2). revert H H0 H1. generalize (a0 * b0) (a1 * b1) (a2 * b2). clear. lia.
Qed.

(** What a sum carries into the next word, and what it leaves. *)
Lemma low_limb d k M : 0 <= d < 2 ^ 99 -> (k, M) = (44, M44) \/ (k, M) = (42, M42) ->
  exists q n, Z.shiftr d k mod 2 ^ 64 = q /\ Z.land (d mod 2 ^ 64) M = n /\ d = 2 ^ k * q + n /\ 0 <= q < 2 ^ 57 /\ 0 <= n < 2 ^ k.
Proof.
  intros Hd Hk. assert (K : 0 <= k <= 44 /\ M = 2 ^ k - 1 /\ 2 ^ 99 <= 2 ^ k * 2 ^ 57 /\ (2 ^ k | 2 ^ 64)) by (destruct Hk as [[= -> ->]|[= -> ->]]; split_and!; try lia; try reflexivity; [by exists (2 ^ 20)|by exists (2 ^ 22)]).
  destruct K as (K1 & -> & K3 & K4). clear Hk. pose proof (Z.pow_pos_nonneg 2 k ltac:(lia) ltac:(lia)). destruct (split_pow d k ltac:(lia) ltac:(lia)) as (q & n & Eq & En & E & Hq & Hn). exists q, n. rewrite land_ones_mod, Z.shiftr_div_pow2, Eq, Z.mod_mod_divide by (lia || exact K4).
  assert (q < 2 ^ 57) by (rewrite <- Eq; apply Z.div_lt_upper_bound; lia). rewrite Z.mod_small by lia. split; [done|]. split; [done|]. lia.
Qed.

Lemma block_ok p m (hi : bool) : sound p -> length m = 16%nat ->
  exists p', block p m (if hi then 2 ^ 40 else 0) = Ret p' /\ sound p' /\ r p' = r p /\ pad p' = pad p /\ buf p' = buf p /\ buf_len p' = buf_len p /\
    lval (h p') mod p130 = ((lval (h p) + (from_le_bytes m + if hi then 2 ^ 128 else 0)) * lval (r p)) mod p130.
Proof.
  intros [Hr Hs Hh Hp Hb] Lm. assert (Lb : blen m = 16) by (unfold blen; lia). unfold block.
  destruct (le64_at m 0 ltac:(lia) ltac:(lia)) as [E0 R0]. destruct (le64_at m 8 ltac:(lia) ltac:(lia)) as [E1 R1]. rewrite E0, E1. cbn [mbind exec_bind].
  pose proof (two_words m 0 ltac:(lia) ltac:(lia)) as W. replace (slice m 0 (0 + 16)) with m in W by (rewrite slice_0_take; symmetry; apply firstn_all2; lia). change (0 + 8) with 8 in *. change (8 + 8) with 16 in *. change (0 + 16) with 16 in *.
  destruct (split_words_ok _ _ R0 R1) as (V & T0 & T1 & T2). rewrite W in V. set (t := split_words _ _) in *.
  destruct p as [[r0 r1 r2] [s1 s2] pd [y0 y1 y2] b n]. cbn [r s h pad buf buf_len h0 h1 h2 mbind exec_bind] in *. injection Hs as -> ->.
  assert (Lo : Z.lor (h2 t) (if hi then 2 ^ 40 else 0) = h2 t + if hi then 2 ^ 40 else 0) by (destruct hi; [change (2 ^ 40) with (Z.shiftl 1 40); rewrite lor_shift_add by lia; done|rewrite Z.lor_0_r; lia]). rewrite Lo.
  set (hb := if hi then 2 ^ 40 else 0) in *. assert (Hb40 : 0 <= hb <= 2 ^ 40) by (unfold hb; destruct hi; lia). assert (H128 : (if hi then 2 ^ 128 else 0) = 2 ^ 88 * hb) by (unfold hb; destruct hi; lia). rewrite H128.
  rewrite !word64_ok by lia. cbn [mbind exec_bind]. set (x0 := y0 + h0 t). set (x1 := y1 + h1 t). set (x2 := y2 + (h2 t + hb)).
  assert (X : 0 <= x0 < 2 ^ 46 /\ 0 <= x1 < 2 ^ 46 /\ 0 <= x2 < 2 ^ 46) by lia. destruct X as (X0 & X1 & X2).
  pose proof (column3 x0 x1 x2 r0 (20 * r2) (20 * r1) X0 X1 X2 ltac:(lia) ltac:(lia) ltac:(lia)) as D0. pose proof (column3 x0 x1 x2 r1 r0 (20 * r2) X0 X1 X2 ltac:(lia) ltac:(lia) ltac:(lia)) as D1. pose proof (column3 x0 x1 x2 r2 r1 r0 X0 X1 X2 ltac:(lia) ltac:(lia) ltac:(lia)) as D2.
  assert (Val : lval (mkL y0 y1 y2) + (from_le_bytes m + 2 ^ 88 * hb) = x0 + 2 ^ 44 * x1 + 2 ^ 88 * x2) by (rewrite <- V; unfold lval, x0, x1, x2; cbn [h0 h1 h2]; lia). rewrite Val.
  assert (Prod : ((x0 + 2 ^ 44 * x1 + 2 ^ 88 * x2) * lval (mkL r0 r1 r2)) mod p130 = ((x0 * r0 + x1 * (20 * r2) + x2 * (20 * r1)) + 2 ^ 44 * (x0 * r1 + x1 * r0 + x2 * (20 * r2)) + 2 ^ 88 * (x0 * r2 + x1 * r1 + x2 * r0)) mod p130).
  { symmetry. rewrite <- (Z.mod_add _ (4 * (x1 * r2 + x2 * r1 + 2 ^ 44 * (x2 * r2))) p130) by (unfold p130; lia). f_equal. unfold lval, p130. cbn [h0 h1 h2]. ring. }
  rewrite Prod. clear Prod Val V W E0 E1 R0 R1 H128 Lo. revert D0 D1 D2. generalize (x0 * r0 + x1 * (20 * r2) + x2 * (20 * r1)) (x0 * r1 + x1 * r0 + x2 * (20 * r2)) (x0 * r2 + x1 * r1 + x2 * r0). clearbody x0 x1 x2. intros d0 d1 d2 D0 D1 D2.
  rewrite !word128_ok by lia. cbn [mbind exec_bind]. destruct (low_limb d0 44 M44 ltac:(lia) ltac:(by left)) as (c0 & n0 & -> & -> & E0 & Q0 & R0). rewrite word128_ok by lia. cbn [mbind exec_bind].
  destruct (low_limb (d1 + c0) 44 M44 ltac:(lia) ltac:(by left)) as (c1 & n1 & -> & -> & E1 & Q1 & R1). rewrite word128_ok by lia. cbn [mbind exec_bind].
  destruct (low_limb (d2 + c1) 42 M42 ltac:(lia) ltac:(by right)) as (c2 & n2 & -> & -> & E2 & Q2 & R2). rewrite word64_ok by lia. cbn [mbind exec_bind]. rewrite word64_ok by lia. cbn [mbind exec_bind].
  rewrite land_M44, Z.shiftr_div_pow2 by lia. destruct (split_pow (n0 + c2 * 5) 44 ltac:(lia) ltac:(lia)) as (c3 & n3 & -> & -> & E3 & Q3 & R3). rewrite word64_ok by lia. cbn [mbind exec_bind].
  eexists. split; [reflexivity|]. split; [split; cbn [set_h r s h pad buf h0 h1 h2]; try done; lia|]. cbn [set_h r pad buf buf_len h]. split_and!; try reflexivity.
  rewrite <- (Z.mod_add (lval _) c2 p130) by (unfold p130; lia). f_equal. unfold lval, p130. cbn [h0 h1 h2]. lia.
Qed.

(** ** A new authenticator *)

Lemma land_digits a b c d k : 0 <= k -> 0 <= a < 2 ^ k -> 0 <= c < 2 ^ k -> Z.land (a + 2 ^ k * b) (c + 2 ^ k * d) = Z.land a c + 2 ^ k * Z.land b d.
Proof.
  intros Hk Ha Hc. pose proof (land_bound a c k Hk Ha) as Lc.
  rewrite <- !lor_shift_add by lia. apply Z.bits_inj'. intros i Hi. rewrite ?Z.land_spec, ?Z.lor_spec, ?Z.shiftl_spec, ?Z.land_spec by lia. destruct (Z.lt_ge_cases i k) as [L|L].
  - rewrite !(Z.testbit_neg_r _ (i - k)) by lia. by rewrite !orb_false_r.
  - assert (Hi0 : forall x, 0 <= x < 2 ^ k -> Z.testbit x i = false) by (intros x Hx; rewrite <- (Z.mod_small x (2 ^ k)), Z.mod_pow2_bits_high by lia; done). by rewrite (Hi0 a), (Hi0 c) by lia.
Qed.

Lemma land_inner x m M : Z.land M m = m -> Z.land x m = Z.land (Z.land x M) m.
Proof. intros E. by rewrite <- Z.land_assoc, E. Qed.

Lemma clamp_limbs t0 t1 : 0 <= t0 < 2 ^ 64 -> 0 <= t1 < 2 ^ 64 ->
  let x := mkL (Z.land t0 0xffc0fffffff) (Z.land (Z.lor (Z.shiftr t0 44) (shl64 t1 20)) 0xfffffc0ffff) (Z.land (Z.shiftr t1 24) 0x00ffffffc0f) in
  lval x = Z.land (t0 + 2 ^ 64 * t1) CLAMP /\ 0 <= h0 x < 2 ^ 44 /\ 0 <= h1 x < 2 ^ 44 /\ 0 <= h2 x < 2 ^ 42.
Proof.
  intros H0 H1. destruct (split_words_ok t0 t1 H0 H1) as (V & T0 & T1 & T2). rewrite <- V. rewrite (land_inner t0 _ M44), (land_inner (Z.lor _ _) _ M44), (land_inner (Z.shiftr t1 24) _ M42) by reflexivity.
  unfold split_words, lval in *. cbn [h0 h1 h2] in *. set (n0 := Z.land t0 M44) in *. set (n1 := Z.land (Z.lor _ _) M44) in *. set (n2 := Z.land (Z.shiftr t1 24) M42) in *.
  split; [|pose proof (land_bound n0 0xffc0fffffff 44); pose proof (land_bound n1 0xfffffc0ffff 44); pose proof (land_bound n2 0x00ffffffc0f 40); lia]. change CLAMP with (0xffc0fffffff + 2 ^ 44 * (0xfffffc0ffff + 2 ^ 44 * 0x00ffffffc0f)).
  replace (n0 + 2 ^ 44 * n1 + 2 ^ 88 * n2) with (n0 + 2 ^ 44 * (n1 + 2 ^ 44 * n2)) by lia. rewrite !land_digits by lia. lia.
Qed.

Lemma new_ok key : length key = 32%nat -> exists p, new key = Ret p /\ sound p /\ lval (r p) = key_r key /\ lval (h p) = 0 /\ buf_len p = 0 /\ fst (pad p) + 2 ^ 64 * snd (pad p) = key_s key.
Proof.
  intros L. assert (Lb : blen key = 32) by (unfold blen; lia). unfold new. destruct (le64_at key 0 ltac:(lia) ltac:(lia)) as [-> R0]. destruct (le64_at key 8 ltac:(lia) ltac:(lia)) as [-> R1]. cbn [mbind exec_bind].
  destruct (clamp_limbs _ _ R0 R1) as (V & C0 & C1 & C2). set (x := mkL _ _ _) in *. rewrite !word64_ok by lia. cbn [mbind exec_bind].
  destruct (le64_at key 16 ltac:(lia) ltac:(lia)) as [-> R2]. destruct (le64_at key 24 ltac:(lia) ltac:(lia)) as [-> R3]. cbn [mbind exec_bind]. eexists. split; [reflexivity|].
  cbn [r h buf_len pad fst snd]. split; [split; cbn [r s h pad buf h0 h1 h2 fst snd]; try done; try lia; f_equal; lia|].
  rewrite V. unfold key_r, key_s. pose proof (two_words key 0 ltac:(lia) ltac:(lia)) as W. pose proof (two_words key 16 ltac:(lia) ltac:(lia)) as W'. change (0 + 8) with 8 in *. change (8 + 8) with 16 in *. change (0 + 16) with 16 in *. change (16 + 8) with 24 in *. change (24 + 8) with 32 in *. change (16 + 16) with 32 in *.
  rewrite W, W'. done.
Qed.

(** ** Pieces of a message *)

(** The authenticator has taken in [data]. *)
Definition absorbed (key : list byte) (p : Poly1305) (data : list byte) : Prop :=
  sound p /\ lval (r p) = key_r key /\ fst (pad p) + 2 ^ 64 * snd (pad p) = key_s key /\
  exists k full, data = full ++ take (Z.to_nat (buf_len p)) (buf p) /\ length full = (16 * k)%nat /\ 0 <= buf_len p < 16 /\ lval (h p) mod p130 = whole k (key_r key) 0 full.

Lemma whole_app k : forall rr acc a b j, length a = (16 * k)%nat -> whole (k + j) rr acc (a ++ b) = whole j rr (whole k rr acc a) b.
Proof.
  induction k as [|k IH]; intros rr acc a b j La; cbn [Nat.add whole]; [by destruct a|]. rewrite take_app_le, drop_app_le by lia. apply IH. rewrite length_drop. lia.
Qed.

Lemma step_mod rr acc m : poly_step rr (acc mod p130) m = poly_step rr acc m.
Proof. unfold poly_step. rewrite <- (Z.mul_mod_idemp_l (acc mod p130 + _)), Z.add_mod_idemp_l, Z.mul_mod_idemp_l by (unfold p130; lia). done. Qed.

Lemma absorb_block key p m full k : sound p -> lval (r p) = key_r key -> length full = (16 * k)%nat -> length m = 16%nat -> lval (h p) mod p130 = whole k (key_r key) 0 full ->
  exists p', block p m (2 ^ 40) = Ret p' /\ sound p' /\ r p' = r p /\ pad p' = pad p /\ buf p' = buf p /\ buf_len p' = buf_len p /\ lval (h p') mod p130 = whole (S k) (key_r key) 0 (full ++ m).
Proof.
  intros S Er Lf Lm V. destruct (block_ok p m true S Lm) as (p' & E & S' & R & P & Bf & Bl & V'). exists p'. split; [exact E|]. split_and!; try assumption.
  rewrite V', Er. replace (Datatypes.S k) with (k + 1)%nat by lia. rewrite whole_app, <- V by exact Lf. cbn [whole]. rewrite (firstn_all2 m) by lia. rewrite step_mod. unfold poly_step. rewrite from_le_bytes_app. replace (blen m) with 16 by (unfold blen; lia). done.
Qed.

Lemma blocks_ok key n : forall p data full k, sound p -> lval (r p) = key_r key -> length full = (16 * k)%nat -> (16 * n <= length data)%nat -> lval (h p) mod p130 = whole k (key_r key) 0 full ->
  exists p', blocks n p data = Ret (p', drop (16 * n) data) /\ sound p' /\ r p' = r p /\ pad p' = pad p /\ buf p' = buf p /\ buf_len p' = buf_len p /\
    lval (h p') mod p130 = whole (k + n) (key_r key) 0 (full ++ take (16 * n) data).
Proof.
  induction n as [|n IH]; intros p data full k S Er Lf Ld V; cbn [blocks].
  - exists p. rewrite Nat.mul_0_r, drop_0, take_0, app_nil_r, Nat.add_0_r. done.
  - destruct (absorb_block key p (take 16 data) full k S Er Lf) as (p1 & -> & S1 & R1 & P1 & B1 & N1 & V1); [rewrite length_take; lia|exact V|]. cbn [mbind exec_bind].
    destruct (IH p1 (drop 16 data) (full ++ take 16 data) (Datatypes.S k) S1) as (p2 & -> & S2 & R2 & P2 & B2 & N2 & V2); [by rewrite R1|rewrite length_app, length_take; lia|rewrite length_drop; lia|exact V1|].
    exists p2. rewrite drop_drop. replace (16 + 16 * n)%nat with (16 * Datatypes.S n)%nat by lia. split; [done|]. split_and!; try congruence.
    rewrite V2. f_equal; [lia|]. rewrite <- app_assoc. f_equal. replace (16 * Datatypes.S n)%nat with (16 + 16 * n)%nat by lia. by rewrite <- take_take_drop.
Qed.

Lemma absorb_whole_ok key p data full k : sound p -> lval (r p) = key_r key -> fst (pad p) + 2 ^ 64 * snd (pad p) = key_s key -> length full = (16 * k)%nat -> lval (h p) mod p130 = whole k (key_r key) 0 full ->
  exists p', absorb_whole p data = Ret p' /\ absorbed key p' (full ++ data).
Proof.
  intros S Er Ep Lf V. unfold absorb_whole. set (n := (length data / 16)%nat). pose proof (Nat.div_mod_eq (length data) 16) as D. pose proof (Nat.mod_upper_bound (length data) 16 ltac:(lia)) as M. fold n in D.
  destruct (blocks_ok key n p data full k S Er Lf ltac:(lia) V) as (p1 & -> & S1 & R1 & P1 & B1 & N1 & V1). cbn [mbind exec_bind]. set (rest := drop (16 * n) data).
  assert (Lr : (length rest < 16)%nat) by (unfold rest; rewrite length_drop; lia). pose proof (so_buf p1 S1) as Lb.
  rewrite copy_from_slice_ok by (unfold blen; lia). cbn [mbind exec_bind]. eexists. split; [reflexivity|]. unfold set_buf. unfold absorbed. cbn [r pad h buf buf_len]. destruct S1 as [Q1 Q2 Q3 Q4 Q5].
  split; [split; cbn [r s h pad buf]; try assumption|]. { pose proof (splice_blen (buf p1) 0 rest ltac:(lia) ltac:(unfold blen; lia)) as Q. unfold blen in Q. lia. }
  split; [congruence|]. split; [congruence|]. exists (k + n)%nat, (full ++ take (16 * n) data). split_and!.
  - rewrite <- app_assoc. f_equal. rewrite blen_to_nat. unfold splice. change (Z.to_nat 0) with 0%nat. rewrite take_0. cbn [app]. rewrite take_app_length. unfold rest. by rewrite take_drop.
  - rewrite length_app, length_take. lia.
  - apply blen_nonneg.
  - unfold blen. lia.
  - exact V1.
Qed.

Lemma mac_update_ok key p data0 data : absorbed key p data0 -> exists p', update p data = Ret p' /\ absorbed key p' (data0 ++ data).
Proof.
  intros (S & Er & Ep & k & full & E & Lf & Bl & V). pose proof (so_buf p S) as Lb. assert (Lbb : blen (buf p) = 16) by (unfold blen; lia). unfold update. destruct (Z.ltb_spec 0 (buf_len p)) as [Pos|Zero].
  2: { assert (buf_len p = 0) as Z0 by lia. rewrite Z0 in E. cbn in E. rewrite app_nil_r in E. subst data0. by apply (absorb_whole_ok key p data full k). }
  set (pend := take (Z.to_nat (buf_len p)) (buf p)) in *. assert (Lp : length pend = Z.to_nat (buf_len p)) by (unfold pend; rewrite length_take; lia).
  set (n := Z.min (16 - buf_len p) (blen data)). pose proof (blen_nonneg data) as Dn. assert (Ln : blen (take (Z.to_nat n) data) = n) by (unfold n, blen in *; rewrite length_take; lia).
  rewrite copy_from_slice_ok by (rewrite ?Ln, ?Lbb; lia). cbn [mbind exec_bind]. set (b := splice (buf p) (buf_len p) (take (Z.to_nat n) data)).
  assert (Lb' : length b = 16%nat) by (pose proof (splice_blen (buf p) (buf_len p) (take (Z.to_nat n) data) ltac:(lia) ltac:(rewrite Ln, Lbb; lia)) as Q; fold b in Q; unfold blen in Q; lia).
  assert (Tb : take (Z.to_nat (buf_len p + n)) b = pend ++ take (Z.to_nat n) data).
  { unfold b, splice. fold pend. rewrite take_app_ge, Lp by lia. f_equal. replace (Z.to_nat (buf_len p + n) - Z.to_nat (buf_len p))%nat with (length (take (Z.to_nat n) data)) by (unfold blen in Ln; lia). by rewrite take_app_length. }
  assert (S' : sound (set_buf b (buf_len p + n) p)) by (destruct S; split; done). change (buf_len (set_buf b (buf_len p + n) p)) with (buf_len p + n). destruct (Z.ltb_spec (buf_len p + n) 16) as [Lt|Ge].
  - eexists. split; [reflexivity|]. split; [exact S'|]. split; [exact Er|]. split; [exact Ep|]. exists k, full. cbn [set_buf buf buf_len h]. split_and!; [|exact Lf|lia|lia|exact V].
    rewrite Tb, E, <- app_assoc. f_equal. f_equal. symmetry. apply firstn_all2. unfold n, blen in *. lia.
  - change (buf (set_buf b (buf_len p + n) p)) with b. assert (buf_len p + n = 16) as N16 by lia. rewrite N16 in Tb. rewrite (firstn_all2 b) in Tb by lia.
    destruct (absorb_block key (set_buf b (buf_len p + n) p) b full k S' Er Lf Lb' V) as (p1 & -> & S1 & R1 & P1 & B1 & N1 & V1). cbn [mbind exec_bind].
    destruct (absorb_whole_ok key (set_buf (buf p1) 0 p1) (from data n) (full ++ b) (Datatypes.S k)) as (p2 & -> & A).
    + destruct S1; split; done.
    + cbn [set_buf r]. rewrite R1. exact Er.
    + cbn [set_buf pad]. rewrite P1. exact Ep.
    + rewrite length_app. lia.
    + exact V1.
    + exists p2. split; [done|]. replace (data0 ++ data) with ((full ++ b) ++ from data n); [exact A|]. rewrite Tb, E, <- !app_assoc. f_equal. f_equal. apply take_drop.
Qed.

(** ** The tag *)

Lemma select_g x g : 0 <= x < 2 ^ 64 -> 0 <= g < 2 ^ 64 -> Z.lor (Z.land x (not64 (2 ^ 64 - 1))) (Z.land g (2 ^ 64 - 1)) = g.
Proof. intros Hx Hg. change (not64 (2 ^ 64 - 1)) with 0. rewrite Z.land_0_r, Z.lor_0_l, land_ones_mod, Z.mod_small by lia. done. Qed.

Lemma select_h x g : 0 <= x < 2 ^ 64 -> Z.lor (Z.land x (not64 0)) (Z.land g 0) = x.
Proof. intros Hx. change (not64 0) with (2 ^ 64 - 1). rewrite Z.land_0_r, Z.lor_0_r, land_ones_mod, Z.mod_small by lia. done. Qed.

Lemma full_reduce_ok x : 0 <= h0 x < 2 ^ 44 -> 0 <= h1 x < 2 ^ 45 -> 0 <= h2 x < 2 ^ 42 ->
  exists y, full_reduce x = Ret y /\ lval y = lval x mod p130 /\ 0 <= h0 y < 2 ^ 44 /\ 0 <= h1 y <= 2 ^ 44 /\ 0 <= h2 y < 2 ^ 42.
Proof.
  destruct x as [x0 x1 x2]. cbn [h0 h1 h2]. intros H0 H1 H2. unfold full_reduce. rewrite land_M44, Z.shiftr_div_pow2 by lia.
  destruct (split_pow x1 44 ltac:(lia) ltac:(lia)) as (c1 & y1 & -> & -> & E1 & Q1 & R1). rewrite word64_ok by lia. cbn [mbind exec_bind]. rewrite land_M42, Z.shiftr_div_pow2 by lia.
  destruct (split_pow (x2 + c1) 42 ltac:(lia) ltac:(lia)) as (c2 & y2 & -> & -> & E2 & Q2 & R2). rewrite word64_ok by lia. cbn [mbind exec_bind]. rewrite land_M44, Z.shiftr_div_pow2 by lia.
  destruct (split_pow (x0 + c2 * 5) 44 ltac:(lia) ltac:(lia)) as (c3 & y0 & -> & -> & E3 & Q3 & R3). rewrite word64_ok by lia. cbn [mbind exec_bind]. rewrite land_M44, Z.shiftr_div_pow2 by lia.
  destruct (split_pow (y1 + c3) 44 ltac:(lia) ltac:(lia)) as (c4 & z1 & -> & -> & E4 & Q4 & R4). rewrite word64_ok by lia. cbn [mbind exec_bind]. rewrite land_M42, Z.shiftr_div_pow2 by lia.
  destruct (split_pow (y2 + c4) 42 ltac:(lia) ltac:(lia)) as (c5 & z2 & -> & -> & E5 & Q5 & R5). rewrite word64_ok by lia. cbn [mbind exec_bind]. rewrite land_M44, Z.shiftr_div_pow2 by lia.
  destruct (split_pow (y0 + c5 * 5) 44 ltac:(lia) ltac:(lia)) as (c6 & z0 & -> & -> & E6 & Q6 & R6). rewrite word64_ok by lia. cbn [mbind exec_bind].
  set (w1 := z1 + c6). assert (W1 : 0 <= w1 <= 2 ^ 44) by (unfold w1; lia). set (v := z0 + 2 ^ 44 * w1 + 2 ^ 88 * z2). assert (Ev : lval (mkL x0 x1 x2) = v + p130 * (c2 + c5)) by (unfold v, w1, lval, p130; cbn [h0 h1 h2]; lia).
  assert (Rv : 0 <= v < 2 * p130) by (unfold v, p130; lia). clear E1 E2 E3 E4 E5 E6 Q1 Q2 Q3 Q4 Q5 Q6 R1 R2 R3 R4.
  rewrite word64_ok by lia. cbn [mbind exec_bind]. rewrite land_M44, Z.shiftr_div_pow2 by lia. destruct (split_pow (z0 + 5) 44 ltac:(lia) ltac:(lia)) as (d0 & g0 & -> & -> & F0 & P0 & S0).
  rewrite word64_ok by lia. cbn [mbind exec_bind]. rewrite land_M44, Z.shiftr_div_pow2 by lia. destruct (split_pow (w1 + d0) 44 ltac:(lia) ltac:(lia)) as (d1 & g1 & -> & -> & F1 & P1 & S1).
  rewrite word64_ok by lia. cbn [mbind exec_bind]. unfold wrapping_sub64 at 1 2 3 4 5 6 7. rewrite !Z.shiftr_div_pow2 by lia.
  assert (Em : lval (mkL x0 x1 x2) mod p130 = v mod p130) by (rewrite Ev, (Z.mul_comm p130), Z.mod_add by (unfold p130; lia); done). rewrite Em.
  destruct (Z.lt_ge_cases (z2 + d1) (2 ^ 42)) as [Lt|Ge].
  - assert (T : wrapping_sub64 ((z2 + d1 - 2 ^ 42) mod 2 ^ 64 / 2 ^ 63) 1 = 0).
    { replace ((z2 + d1 - 2 ^ 42) mod 2 ^ 64) with (z2 + d1 - 2 ^ 42 + 2 ^ 64) by (apply (Z.mod_unique _ _ (-1)); lia). replace ((z2 + d1 - 2 ^ 42 + 2 ^ 64) / 2 ^ 63) with 1 by (apply (Z.div_unique _ _ _ (z2 + d1 - 2 ^ 42 + 2 ^ 63)); lia). done. }
    unfold wrapping_sub64 in *. rewrite T, !select_h by lia. eexists. split; [reflexivity|]. unfold lval. cbn [h0 h1 h2]. fold v. split; [|lia]. rewrite Z.mod_small; [done|]. unfold v, p130. lia.
  - assert (T : wrapping_sub64 ((z2 + d1 - 2 ^ 42) mod 2 ^ 64 / 2 ^ 63) 1 = 2 ^ 64 - 1) by (rewrite Z.mod_small, Z.div_small by lia; done).
    unfold wrapping_sub64 in *. rewrite T, (Z.mod_small (z2 + d1 - 2 ^ 42)), !select_g by lia. eexists. split; [reflexivity|]. unfold lval. cbn [h0 h1 h2]. split; [|lia].
    symmetry. replace (g0 + 2 ^ 44 * g1 + 2 ^ 88 * (z2 + d1 - 2 ^ 42)) with (v - p130) by (unfold v, p130; lia). symmetry. apply (Z.mod_unique _ _ 1); [left|]; unfold v, p130 in *; lia.
Qed.

(** A tag is the sum of the accumulator and the pad, in sixteen bytes. *)
Lemma pad_add_ok x t0 t1 : 0 <= h0 x < 2 ^ 44 -> 0 <= h1 x <= 2 ^ 44 -> 0 <= h2 x < 2 ^ 42 -> 0 <= t0 < 2 ^ 64 -> 0 <= t1 < 2 ^ 64 -> forall p, pad p = (t0, t1) -> buf_len p = 0 -> full_reduce (h p) = Ret x ->
  finalize p = Ret (to_le_bytes 16 ((lval x + (t0 + 2 ^ 64 * t1)) mod 2 ^ 128)).
Proof.
  intros X0 X1 X2 T0 T1 p Ep En Ef. unfold finalize. rewrite En. cbn [Z.ltb Z.compare mbind exec_bind]. rewrite Ef, Ep. cbn [mbind exec_bind].
  destruct (split_words_ok t0 t1 T0 T1) as (V & W0 & W1 & W2). rewrite <- V. set (t := split_words t0 t1) in *. clearbody t. clear V Ep En Ef.
  rewrite word64_ok by lia. cbn [mbind exec_bind]. rewrite land_M44, Z.shiftr_div_pow2 by lia. destruct (split_pow (h0 x + h0 t) 44 ltac:(lia) ltac:(lia)) as (c0 & a0 & -> & -> & E0 & Q0 & R0).
  rewrite word64_ok by lia. cbn [mbind exec_bind]. rewrite land_M44, !Z.shiftr_div_pow2 by lia. destruct (split_pow (h1 x + h1 t + c0) 44 ltac:(lia) ltac:(lia)) as (c1 & a1 & -> & -> & E1 & Q1 & R1).
  rewrite word64_ok by lia. cbn [mbind exec_bind]. rewrite land_M42. destruct (split_pow (h2 x + h2 t + c1) 42 ltac:(lia) ltac:(lia)) as (c2 & a2 & _ & -> & E2 & Q2 & R2). f_equal.
  rewrite pack_word by lia. destruct (split_pow a1 20 ltac:(lia) ltac:(lia)) as (q & m & Eq & Em & E3 & Q3 & R3). change (64 - 44) with 20. rewrite Eq, Em by lia. rewrite pack_word by lia. change (64 - 24) with 40.
  destruct (split_pow a2 40 ltac:(lia) ltac:(lia)) as (q' & m' & _ & -> & E4 & Q4 & R4). change 16%nat with (8 + 8)%nat. rewrite <- to_le_bytes_app by (change (256 ^ Z.of_nat 8) with (2 ^ 64); lia). change (256 ^ Z.of_nat 8) with (2 ^ 64).
  f_equal. unfold lval. apply (Z.mod_unique _ _ (q' + 4 * c2)); [left; lia|]. lia.
Qed.

Lemma whole_mod k : forall rr acc data, whole k rr acc data mod p130 = (match k with O => acc mod p130 | _ => whole k rr acc data end).
Proof.
  induction k as [|k IH]; intros rr acc data; [done|]. cbn [whole]. rewrite IH. destruct k; [|done]. cbn [whole]. unfold poly_step. apply Z.mod_mod. unfold p130. lia.
Qed.

Lemma mac_finalize_ok key p data : absorbed key p data -> finalize p = Ret (mac_of key data).
Proof.
  intros (S & Er & Ep & k & full & E & Lf & Bl & V). pose proof (so_buf p S) as Lb. assert (Lbb : blen (buf p) = 16) by (unfold blen; lia). destruct (so_pad p S) as [T0 T1]. unfold mac_of, poly_acc. rewrite <- Ep.
  set (pend := take (Z.to_nat (buf_len p)) (buf p)) in *. assert (Lp : length pend = Z.to_nat (buf_len p)) by (unfold pend; rewrite length_take; lia).
  assert (Ek : (length data / 16)%nat = k) by (rewrite E, length_app, Lf; symmetry; apply (Nat.div_unique _ _ _ (length pend)); lia). rewrite Ek.
  assert (Ew : whole k (key_r key) 0 data = whole k (key_r key) 0 full) by (rewrite E; replace k with (k + 0)%nat at 1 by lia; by rewrite whole_app by exact Lf). rewrite Ew, <- V.
  replace (drop (16 * k) data) with pend by (rewrite E, <- Lf, drop_app_length; done). destruct (Z.ltb_spec 0 (buf_len p)) as [Pos|Zero].
  - assert (Fin : exists p1, block p (pend ++ x01 :: replicate (15 - length pend) x00) 0 = Ret p1 /\ sound p1 /\ pad p1 = pad p /\ lval (h p1) mod p130 = poly_step (key_r key) (lval (h p) mod p130) pend).
    { destruct (block_ok p (pend ++ x01 :: replicate (15 - length pend) x00) false S) as (p1 & E1 & S1 & R1 & P1 & _ & _ & V1); [rewrite length_app; cbn [length]; rewrite length_replicate; lia|].
      exists p1. split; [exact E1|]. split; [exact S1|]. split; [exact P1|]. rewrite V1, step_mod, Er, Z.add_0_r. unfold poly_step. rewrite !from_le_bytes_app. cbn [from_le_bytes].
      assert (Z0 : forall n, from_le_bytes (replicate n x00) = 0) by (induction n as [|n IHn]; [done|cbn [replicate from_le_bytes]; rewrite IHn; done]). by rewrite Z0. }
    destruct Fin as (p1 & E1 & S1 & P1 & V1). destruct (so_h p1 S1) as (Y0 & Y1 & Y2). destruct (full_reduce_ok (h p1) Y0 Y1 Y2) as (y & Ey & Vy & B0 & B1 & B2).
    unfold finalize. destruct (Z.ltb_spec 0 (buf_len p)); [|lia]. rewrite index_range_ok by lia. cbn [mbind exec_bind]. rewrite slice_0_take. fold pend.
    rewrite copy_from_slice_ok by (unfold blen; rewrite ?length_replicate; lia). cbn [mbind exec_bind]. unfold set_byte.
    assert (Sp : splice (replicate 16 x00) 0 pend = pend ++ replicate (16 - length pend) x00) by (unfold splice; change (Z.to_nat 0) with 0%nat; rewrite take_0, Nat.add_0_l, drop_replicate; done). rewrite Sp.
    rewrite copy_from_slice_ok by (rewrite ?blen_app; unfold blen; cbn [length]; rewrite ?length_replicate; lia). cbn [mbind exec_bind].
    replace (splice (pend ++ replicate (16 - length pend) x00) (buf_len p) [x01]) with (pend ++ x01 :: replicate (15 - length pend) x00).
    2: { unfold splice. rewrite <- Lp, take_app_length, drop_app_ge by lia. cbn [length app]. replace (length pend + 1 - length pend)%nat with 1%nat by lia. rewrite drop_replicate. do 3 f_equal. lia. }
    rewrite E1. cbn [mbind exec_bind]. pose proof (pad_add_ok y (fst (pad p)) (snd (pad p)) B0 B1 B2 T0 T1 (set_buf (buf p1) 0 p1) ltac:(cbn [set_buf pad]; rewrite P1; by destruct (pad p)) eq_refl Ey) as G. unfold finalize in G. cbn [set_buf buf_len Z.ltb Z.compare mbind exec_bind h pad] in G.
    rewrite G, Vy, V1. destruct pend as [|c pend]; [cbn in Lp; lia|done].
  - destruct (so_h p S) as (Y0 & Y1 & Y2). destruct (full_reduce_ok (h p) Y0 Y1 Y2) as (y & Ey & Vy & B0 & B1 & B2).
    rewrite (pad_add_ok y (fst (pad p)) (snd (pad p)) B0 B1 B2 T0 T1 p); [|by destruct (pad p)|lia|exact Ey]. rewrite Vy. destruct pend as [|c pend]; [done|cbn in Lp; lia].
Qed.

(** ** A message in pieces *)

Fixpoint updates (p : Poly1305) (parts : list (list byte)) : exec Poly1305 :=
  match parts with [] => Ret p | d :: parts => p ← update p d; updates p parts end.

Lemma mac_updates_ok key parts : forall p data, absorbed key p data -> exists p', updates p parts = Ret p' /\ absorbed key p' (data ++ concat parts).
Proof.
  induction parts as [|d parts IH]; intros p data A; cbn [updates concat]; [exists p; by rewrite app_nil_r|].
  destruct (mac_update_ok key p data d A) as (p1 & -> & A1). cbn [mbind exec_bind]. destruct (IH p1 (data ++ d) A1) as (p2 & -> & A2). exists p2. by rewrite app_assoc.
Qed.

Lemma mac_parts_ok key parts : length key = 32%nat -> exists p p', new key = Ret p /\ updates p parts = Ret p' /\ finalize p' = Ret (mac_of key (concat parts)).
Proof.
  intros L. destruct (new_ok key L) as (p & E & S & R & H & N & P). assert (A : absorbed key p []).
  { split; [exact S|]. split; [exact R|]. split; [exact P|]. exists 0%nat, []. rewrite N, H. cbn. split_and!; try done; lia. }
  destruct (mac_updates_ok key parts p [] A) as (p' & E' & A'). exists p, p'. split; [exact E|]. split; [exact E'|]. by apply mac_finalize_ok.
Qed.

Lemma mac_of_length key data : length (mac_of key data) = 16%nat.
Proof. done. Qed.
