(* ===== verification/Aead.v ===== *)
(** * ChaCha20-Poly1305 ([crates/kevy-crypto/src]: [chacha20.rs], [aead.rs],
    [ct_eq] of [lib.rs])

    The stream cipher and the authenticated encryption built on it and on
    [Poly1305]. *)

From Stdlib Require Import ZArith Lia Bool Strings.Byte.
From stdpp Require Import base tactics list numbers.
From S2P Require Import Prelude FindCrlf Buffers Words Poly1305.

#[local] Open Scope list_scope.
#[local] Open Scope Z_scope.

(** ** The cipher *)

Definition SIGMA : list Z := [0x61707865; 0x3320646e; 0x79622d32; 0x6b206574].

Definition le32 (b : list byte) : exec Z := w ← index_range b 0 4; Ret (from_le_bytes w).

(** A word of the state, which always has sixteen. *)
Definition at_ (s : list Z) (i : nat) : Z := default 0 (s !! i).

Definition quarter_round (s : list Z) (a b c d : nat) : list Z :=
  let s := <[a := add32 (at_ s a) (at_ s b)]> s in
  let s := <[d := rotl32 (Z.lxor (at_ s d) (at_ s a)) 16]> s in
  let s := <[c := add32 (at_ s c) (at_ s d)]> s in
  let s := <[b := rotl32 (Z.lxor (at_ s b) (at_ s c)) 12]> s in
  let s := <[a := add32 (at_ s a) (at_ s b)]> s in
  let s := <[d := rotl32 (Z.lxor (at_ s d) (at_ s a)) 8]> s in
  let s := <[c := add32 (at_ s c) (at_ s d)]> s in
  <[b := rotl32 (Z.lxor (at_ s b) (at_ s c)) 7]> s.

Definition double_round (s : list Z) : list Z :=
  let s := quarter_round s 0 4 8 12 in
  let s := quarter_round s 1 5 9 13 in
  let s := quarter_round s 2 6 10 14 in
  let s := quarter_round s 3 7 11 15 in
  let s := quarter_round s 0 5 10 15 in
  let s := quarter_round s 1 6 11 12 in
  let s := quarter_round s 2 7 8 13 in
  quarter_round s 3 4 9 14.

(** [le32(&b[4 * i..])] for the first [n] of them *)
Fixpoint words32 (n : nat) (b : list byte) : exec (list Z) :=
  match n with O => Ret [] | S n => w ← le32 b; ws ← words32 n (drop 4 b); Ret (w :: ws) end.

Definition chacha_init (key : list byte) (counter : Z) (nonce : list byte) : exec (list Z) :=
  k ← words32 8 key;
  n ← words32 3 nonce;
  Ret (SIGMA ++ k ++ [counter] ++ n).

Definition chacha_block (key : list byte) (counter : Z) (nonce : list byte) : exec (list byte) :=
  init ← chacha_init key counter nonce;
  let s := Nat.iter 10 double_round init in
  Ret (concat (zip_with (fun x y => to_le_bytes 4 (add32 x y)) s init)).

Definition xor_bytes (b k : list byte) : list byte := zip_with (fun x y => zb (Z.lxor (bz x) (bz y))) b k.

(** The loop over [chunks_mut(64)]. *)
Fixpoint xor_chunks (n : nat) (key : list byte) (ctr : Z) (nonce : list byte) (buf : list byte) : exec (list byte) :=
  match n with
  | O => Ret []
  | S n =>
      ks ← chacha_block key ctr nonce;
      rest ← xor_chunks n key (add32 ctr 1) nonce (drop 64 buf);
      Ret (xor_bytes (take 64 buf) ks ++ rest)
  end.

Definition xor_keystream (key : list byte) (counter : Z) (nonce : list byte) (buf : list byte) : exec (list byte) :=
  xor_chunks ((length buf + 63) / 64) key counter nonce buf.

(** ** Authenticated encryption *)

Definition ct_eq (a b : list byte) : bool :=
  if negb (blen a =? blen b) then false
  else fold_left (fun diff '(x, y) => Z.lor diff (Z.lxor (bz x) (bz y))) (zip a b) 0 =? 0.

(** [zeros[..(16 - n % 16) % 16]] *)
Definition padding (n : Z) : list byte := replicate (Z.to_nat ((16 - n mod 16) mod 16)) x00.

Definition tag (key nonce aad ciphertext : list byte) : exec (list byte) :=
  block0 ← chacha_block key 0 nonce;
  otk ← index_range block0 0 32;
  p ← new otk;
  p ← update p aad;
  p ← update p (padding (blen aad));
  p ← update p ciphertext;
  p ← update p (padding (blen ciphertext));
  p ← update p (to_le_bytes 8 (blen aad));
  p ← update p (to_le_bytes 8 (blen ciphertext));
  finalize p.

(** The buffer as it is left, and the tag. *)
Definition seal (key nonce aad buf : list byte) : exec (list byte * list byte) :=
  buf ← xor_keystream key 1 nonce buf;
  t ← tag key nonce aad buf;
  Ret (buf, t).

Inductive AuthError := TagMismatch.

(** The buffer as it is left, and the result. *)
Definition open (key nonce aad buf tag_in : list byte) : exec (list byte * (unit + AuthError)) :=
  t ← tag key nonce aad buf;
  if negb (ct_eq t tag_in) then Ret (buf, inr TagMismatch)
  else buf ← xor_keystream key 1 nonce buf; Ret (buf, inl tt).

(** ** The keystream *)

Lemma quarter_round_length s a b c d : length (quarter_round s a b c d) = length s.
Proof. do 8 (etransitivity; [apply length_insert|]). reflexivity. Qed.

Lemma double_round_length s : length (double_round s) = length s.
Proof. unfold double_round. cbv zeta. rewrite !quarter_round_length. done. Qed.

Lemma rounds_length n s : length (Nat.iter n double_round s) = length s.
Proof. induction n as [|n IH]; [done|]. change (Nat.iter (S n) double_round s) with (double_round (Nat.iter n double_round s)). by rewrite double_round_length. Qed.

Lemma words32_ok n : forall b, (4 * n <= length b)%nat -> exists ws, words32 n b = Ret ws /\ length ws = n.
Proof.
  induction n as [|n IH]; intros b Hb; cbn [words32]; [by exists []|]. unfold le32. rewrite index_range_ok by (unfold blen; lia). cbn [mbind exec_bind].
  destruct (IH (drop 4 b)) as (ws & -> & L); [rewrite length_drop; lia|]. cbn [mbind exec_bind]. eexists. split; [reflexivity|]. cbn [length]. lia.
Qed.

Lemma chacha_block_ok key ctr nonce : length key = 32%nat -> length nonce = 12%nat -> exists ks, chacha_block key ctr nonce = Ret ks /\ length ks = 64%nat.
Proof.
  intros Lk Ln. unfold chacha_block, chacha_init. destruct (words32_ok 8 key ltac:(lia)) as (k & -> & Lk'). destruct (words32_ok 3 nonce ltac:(lia)) as (n & -> & Ln'). cbn [mbind exec_bind].
  set (init := SIGMA ++ k ++ [ctr] ++ n). assert (Li : length init = 16%nat) by (unfold init; rewrite !length_app, Lk', Ln'; done). eexists. split; [reflexivity|].
  assert (C : forall (f : Z -> Z -> list byte) (a b : list Z), (forall x y, length (f x y) = 4%nat) -> length a = length b -> length (concat (zip_with f a b)) = (4 * length b)%nat).
  { intros f a. induction a as [|x a IH]; intros [|y b] Hf E; try discriminate E; [done|]. cbn [zip_with concat]. rewrite length_app, Hf, IH by (done || by injection E). cbn [length]. lia. }
  rewrite C; [lia|done|by rewrite rounds_length].
Qed.

(** The bytes the cipher gives out from a block on. *)
Fixpoint keystream (n : nat) (key : list byte) (ctr : Z) (nonce : list byte) : list byte :=
  match n with O => [] | S n => (match chacha_block key ctr nonce with Ret ks => ks | Panic => [] end) ++ keystream n key (add32 ctr 1) nonce end.

Lemma xor_bytes_app a b k k' : length a = length k -> xor_bytes (a ++ b) (k ++ k') = xor_bytes a k ++ xor_bytes b k'.
Proof. intros L. unfold xor_bytes. by apply zip_with_app. Qed.

Lemma xor_bytes_short b k k' : (length b <= length k)%nat -> xor_bytes b (k ++ k') = xor_bytes b k.
Proof.
  revert k. induction b as [|x b IH]; intros k L; [done|]. destruct k as [|y k]; cbn in L; [lia|]. unfold xor_bytes in *. cbn [app zip_with]. f_equal. apply IH. lia.
Qed.

Lemma xor_bytes_length b k : (length b <= length k)%nat -> length (xor_bytes b k) = length b.
Proof. intros L. unfold xor_bytes. rewrite length_zip_with. lia. Qed.

Lemma xor_byte_twice x y : zb (Z.lxor (bz (zb (Z.lxor (bz x) (bz y)))) (bz y)) = x.
Proof.
  apply bz_inj. rewrite !bz_zb. pose proof (bz_range x). pose proof (bz_range y). pose proof (lxor_bound 8 (bz x) (bz y) ltac:(lia) ltac:(lia) ltac:(lia)).
  rewrite (Z.mod_small (Z.lxor (bz x) (bz y))), Z.lxor_assoc, Z.lxor_nilpotent, Z.lxor_0_r, Z.mod_small by lia. done.
Qed.

Lemma xor_bytes_twice b : forall k, (length b <= length k)%nat -> xor_bytes (xor_bytes b k) k = b.
Proof.
  induction b as [|x b IH]; intros k L; [done|]. destruct k as [|y k]; cbn in L; [lia|]. unfold xor_bytes in *. cbn [zip_with]. rewrite xor_byte_twice, IH by lia. done.
Qed.

Lemma xor_chunks_ok n key nonce : length key = 32%nat -> length nonce = 12%nat -> forall ctr buf, (length buf <= 64 * n)%nat ->
  xor_chunks n key ctr nonce buf = Ret (xor_bytes buf (keystream n key ctr nonce)) /\ length (keystream n key ctr nonce) = (64 * n)%nat.
Proof.
  intros Lk Ln. induction n as [|n IH]; intros ctr buf Lb; cbn [xor_chunks keystream]; [by destruct buf; [|cbn in Lb; lia]|].
  destruct (chacha_block_ok key ctr nonce Lk Ln) as (ks & -> & Lks). cbn [mbind exec_bind]. destruct (IH (add32 ctr 1) (drop 64 buf)) as [-> Lr]; [rewrite length_drop; lia|]. cbn [mbind exec_bind].
  split; [|rewrite length_app; lia]. f_equal. destruct (Nat.le_gt_cases 64 (length buf)) as [Ge|Lt].
  - rewrite <- (take_drop 64 buf) at 3. rewrite xor_bytes_app by (rewrite length_take; lia). done.
  - rewrite (firstn_all2 buf), (skipn_all2 buf) by lia. unfold xor_bytes at 2. cbn [zip_with]. rewrite app_nil_r. symmetry. apply xor_bytes_short. lia.
Qed.

(** The stream a buffer is combined with. *)
Definition stream (key nonce : list byte) (n : nat) : list byte := keystream ((n + 63) / 64) key 1 nonce.

Lemma xor_keystream_ok key nonce buf : length key = 32%nat -> length nonce = 12%nat ->
  xor_keystream key 1 nonce buf = Ret (xor_bytes buf (stream key nonce (length buf))) /\ (length buf <= length (stream key nonce (length buf)))%nat.
Proof.
  intros Lk Ln. assert (L : (length buf <= 64 * ((length buf + 63) / 64))%nat) by (pose proof (Nat.div_mod_eq (length buf + 63) 64); pose proof (Nat.mod_upper_bound (length buf + 63) 64 ltac:(lia)); lia).
  destruct (xor_chunks_ok ((length buf + 63) / 64) key nonce Lk Ln 1 buf L) as [E Es]. unfold xor_keystream, stream. by rewrite E, Es.
Qed.

(** ** Comparing tags *)

Lemma lxor_byte_0 x y : Z.lxor (bz x) (bz y) = 0 <-> x = y.
Proof. rewrite Z.lxor_eq_0_iff. split; [apply bz_inj|by intros ->]. Qed.

Lemma ct_diff a : forall b d, length a = length b -> 0 <= d -> fold_left (fun diff '(x, y) => Z.lor diff (Z.lxor (bz x) (bz y))) (zip a b) d = 0 <-> d = 0 /\ a = b.
Proof.
  induction a as [|x a IH]; intros [|y b] d L Hd; try discriminate L; cbn [zip zip_with fold_left]; [intuition congruence|]. pose proof (bz_range x). pose proof (bz_range y).
  rewrite IH; [|by injection L|apply Z.lor_nonneg; split; [exact Hd|]; apply Z.lxor_nonneg; lia]. rewrite Z.lor_eq_0_iff, lxor_byte_0. intuition congruence.
Qed.

Lemma ct_eq_ok a b : ct_eq a b = bool_decide (a = b).
Proof.
  unfold ct_eq. destruct (Z.eqb_spec (blen a) (blen b)) as [L|L]; cbn [negb]; [|symmetry; apply bool_decide_false; by intros ->].
  assert (L' : length a = length b) by (unfold blen in L; lia). destruct (Z.eqb_spec (fold_left (fun diff '(x, y) => Z.lor diff (Z.lxor (bz x) (bz y))) (zip a b) 0) 0) as [E|E].
  - apply (ct_diff a b 0 L' ltac:(lia)) in E as [_ ->]. by rewrite bool_decide_true.
  - symmetry. apply bool_decide_false. intros ->. destruct E. by apply ct_diff.
Qed.

(** ** What is authenticated *)

Definition mac_input (aad c : list byte) : list byte :=
  aad ++ padding (blen aad) ++ c ++ padding (blen c) ++ to_le_bytes 8 (blen aad) ++ to_le_bytes 8 (blen c).

(** The one-time key of a nonce. *)
Definition one_time_key (key nonce : list byte) : list byte := take 32 (keystream 1 key 0 nonce).

Lemma tag_ok key nonce aad c : length key = 32%nat -> length nonce = 12%nat -> tag key nonce aad c = Ret (mac_of (one_time_key key nonce) (mac_input aad c)).
Proof.
  intros Lk Ln. unfold tag, one_time_key. cbn [keystream]. destruct (chacha_block_ok key 0 nonce Lk Ln) as (ks & -> & Lks). cbn [mbind exec_bind]. rewrite index_range_ok, slice_0_take by (unfold blen; lia). cbn [mbind exec_bind].
  rewrite app_nil_r. change (Z.to_nat 32) with 32%nat. destruct (mac_parts_ok (take 32 ks) [aad; padding (blen aad); c; padding (blen c); to_le_bytes 8 (blen aad); to_le_bytes 8 (blen c)]) as (p & p' & -> & E & F); [rewrite length_take; lia|].
  cbn [mbind exec_bind]. unfold mac_input. cbn [concat] in F. rewrite app_nil_r in F. rewrite <- F. cbn [updates] in E. revert E. cbn [mbind exec_bind].
  destruct (update p aad) as [p1|]; cbn [mbind exec_bind]; [|done]. destruct (update p1 _) as [p2|]; cbn [mbind exec_bind]; [|done]. destruct (update p2 _) as [p3|]; cbn [mbind exec_bind]; [|done].
  destruct (update p3 _) as [p4|]; cbn [mbind exec_bind]; [|done]. destruct (update p4 _) as [p5|]; cbn [mbind exec_bind]; [|done]. destruct (update p5 _) as [p6|]; cbn [mbind exec_bind]; [|done]. by intros [= ->].
Qed.

(** Two messages are authenticated alike only when they are the same. *)
Lemma mac_input_inj aad c aad' c' : blen aad < 2 ^ 64 -> blen c < 2 ^ 64 -> blen aad' < 2 ^ 64 -> blen c' < 2 ^ 64 -> mac_input aad c = mac_input aad' c' -> aad = aad' /\ c = c'.
Proof.
  intros H1 H2 H3 H4 E. unfold mac_input in E. rewrite !app_assoc in E. apply app_inj_2 in E as [E E2]; [|done]. apply app_inj_2 in E as [E E1]; [|done].
  assert (Inj : forall x y, 0 <= x < 2 ^ 64 -> 0 <= y < 2 ^ 64 -> to_le_bytes 8 x = to_le_bytes 8 y -> x = y).
  { intros x y Hx Hy Q. apply (f_equal from_le_bytes) in Q. rewrite !from_to_le_bytes in Q by lia. change (256 ^ Z.of_nat 8) with (2 ^ 64) in Q. rewrite !Z.mod_small in Q by lia. exact Q. }
  apply Inj in E1; [|pose proof (blen_nonneg aad); lia|pose proof (blen_nonneg aad'); lia]. apply Inj in E2; [|pose proof (blen_nonneg c); lia|pose proof (blen_nonneg c'); lia].
  rewrite E1, E2 in E. rewrite <- !app_assoc in E. apply app_inj_1 in E as [Ea E]; [|unfold blen in E1; lia]. split; [exact Ea|]. apply app_inv_head in E. apply app_inj_1 in E as [Ec _]; [exact Ec|unfold blen in E2; lia].
Qed.

Lemma aead_open_ok key nonce aad c t : length key = 32%nat -> length nonce = 12%nat ->
  open key nonce aad c t =
  Ret (if decide (t = mac_of (one_time_key key nonce) (mac_input aad c)) then (xor_bytes c (stream key nonce (length c)), inl tt) else (c, inr TagMismatch)).
Proof.
  intros Hk Hn. unfold open. rewrite tag_ok by done. cbn [mbind exec_bind]. rewrite ct_eq_ok. destruct (xor_keystream_ok key nonce c Hk Hn) as [-> _]. cbn [mbind exec_bind].
  case_decide as D; [by rewrite bool_decide_true|]. rewrite bool_decide_false by (intros Q; by destruct D). done.
Qed.

Lemma seal_ok key nonce aad buf : length key = 32%nat -> length nonce = 12%nat ->
  exists c t, seal key nonce aad buf = Ret (c, t) /\ length c = length buf /\ t = mac_of (one_time_key key nonce) (mac_input aad c) /\ open key nonce aad c t = Ret (buf, inl tt).
Proof.
  intros Hk Hn. destruct (xor_keystream_ok key nonce buf Hk Hn) as [E L]. unfold seal. rewrite E. cbn [mbind exec_bind]. rewrite tag_ok by done. cbn [mbind exec_bind].
  set (c := xor_bytes buf (stream key nonce (length buf))). assert (Lc : length c = length buf) by by apply xor_bytes_length. eexists c, _. split; [reflexivity|]. split; [exact Lc|]. split; [reflexivity|].
  rewrite aead_open_ok, decide_True, Lc by done. unfold c. by rewrite xor_bytes_twice.
Qed.

(** C20: Sealed messages open and others do not: sealing any message under any key
    and nonce gives as many bytes of ciphertext and the RFC 8439 tag of them and the
    associated data, opening gives the message back, and opening any other bytes
    with any tag succeeds exactly when the tag is theirs, leaving the buffer as it
    came when it is not; no two pairs of associated data and ciphertext are
    authenticated as one. *)
Theorem aead_opens_what_it_sealed (key nonce aad buf : list byte) (Hk : length key = 32%nat) (Hn : length nonce = 12%nat) :
  (exists c t, seal key nonce aad buf = Ret (c, t) /\ length c = length buf /\ t = mac_of (one_time_key key nonce) (mac_input aad c) /\ open key nonce aad c t = Ret (buf, inl tt)) /\
  (forall c t, open key nonce aad c t =
     Ret (if decide (t = mac_of (one_time_key key nonce) (mac_input aad c)) then (xor_bytes c (stream key nonce (length c)), inl tt) else (c, inr TagMismatch))) /\
  (forall c aad' c', blen aad < 2 ^ 64 -> blen c < 2 ^ 64 -> blen aad' < 2 ^ 64 -> blen c' < 2 ^ 64 -> mac_input aad c = mac_input aad' c' -> aad = aad' /\ c = c').
Proof. split; [by apply seal_ok|]. split; [intros c t; by apply aead_open_ok|]. intros c aad' c'. apply mac_input_inj. Qed.

Lemma aead_opens_what_it_sealed_witness : exists c t, seal (replicate 32 x07) (replicate 12 x00) [] [x68; x69] = Ret (c, t) /\ open (replicate 32 x07) (replicate 12 x00) [] c t = Ret ([x68; x69], inl tt).
Proof. destruct (aead_opens_what_it_sealed (replicate 32 x07) (replicate 12 x00) [] [x68; x69] eq_refl eq_refl) as [(c & t & E & _ & _ & O) _]. exists c, t. exact (conj E O). Defined.
