(* ===== verification/Blake2s.v ===== *)
(** * BLAKE2s, HMAC and HKDF ([crates/kevy-crypto/src]: [blake2s.rs], [hkdf.rs])

    The incremental hash, which holds its last block back until it knows it is the
    last, is shown to be the hash of the whole message, and HMAC and HKDF to be
    their formulas over it. *)

From Stdlib Require Import ZArith Lia Bool Strings.Byte.
From stdpp Require Import base tactics list numbers.
From S2P Require Import Prelude FindCrlf Buffers Words.

#[local] Open Scope list_scope.
#[local] Open Scope Z_scope.

Definition IV : list Z := [0x6a09e667; 0xbb67ae85; 0x3c6ef372; 0xa54ff53a; 0x510e527f; 0x9b05688c; 0x1f83d9ab; 0x5be0cd19].

Definition SIGMA : list (list nat) := [
  [0; 1; 2; 3; 4; 5; 6; 7; 8; 9; 10; 11; 12; 13; 14; 15];
  [14; 10; 4; 8; 9; 15; 13; 6; 1; 12; 0; 2; 11; 7; 5; 3];
  [11; 8; 12; 0; 5; 2; 15; 13; 10; 14; 3; 6; 7; 1; 9; 4];
  [7; 9; 3; 1; 13; 12; 11; 14; 2; 6; 5; 10; 4; 0; 15; 8];
  [9; 0; 5; 7; 2; 4; 10; 15; 14; 1; 11; 12; 6; 8; 3; 13];
  [2; 12; 6; 10; 0; 11; 8; 3; 4; 13; 7; 5; 15; 14; 1; 9];
  [12; 5; 1; 15; 14; 13; 4; 10; 0; 7; 6; 3; 9; 2; 8; 11];
  [13; 11; 7; 14; 12; 1; 3; 9; 5; 0; 15; 4; 8; 6; 2; 10];
  [6; 15; 14; 9; 11; 3; 0; 8; 12; 2; 13; 7; 1; 4; 10; 5];
  [10; 2; 8; 4; 7; 6; 1; 5; 15; 11; 9; 14; 3; 12; 13; 0]]%nat.

Record Blake2s := mkB2 { h : list Z; t : Z; buf : list byte; buf_len : Z; out_len : Z }.

(** A word of an array that has it. *)
Definition wd (v : list Z) (i : nat) : Z := default 0 (v !! i).

Definition g (v : list Z) (a b c d : nat) (x y : Z) : list Z :=
  let v := <[a := add32 (add32 (wd v a) (wd v b)) x]> v in
  let v := <[d := rotr32 (Z.lxor (wd v d) (wd v a)) 16]> v in
  let v := <[c := add32 (wd v c) (wd v d)]> v in
  let v := <[b := rotr32 (Z.lxor (wd v b) (wd v c)) 12]> v in
  let v := <[a := add32 (add32 (wd v a) (wd v b)) y]> v in
  let v := <[d := rotr32 (Z.lxor (wd v d) (wd v a)) 8]> v in
  let v := <[c := add32 (wd v c) (wd v d)]> v in
  <[b := rotr32 (Z.lxor (wd v b) (wd v c)) 7]> v.

Definition round (m : list Z) (v : list Z) (s : list nat) : list Z :=
  let mx i := wd m (default 0%nat (s !! i)) in
  let v := g v 0 4 8 12 (mx 0%nat) (mx 1%nat) in
  let v := g v 1 5 9 13 (mx 2%nat) (mx 3%nat) in
  let v := g v 2 6 10 14 (mx 4%nat) (mx 5%nat) in
  let v := g v 3 7 11 15 (mx 6%nat) (mx 7%nat) in
  let v := g v 0 5 10 15 (mx 8%nat) (mx 9%nat) in
  let v := g v 1 6 11 12 (mx 10%nat) (mx 11%nat) in
  let v := g v 2 7 8 13 (mx 12%nat) (mx 13%nat) in
  g v 3 4 9 14 (mx 14%nat) (mx 15%nat).

(** [compress], on the fields it reads: the new chaining value. *)
Definition compress (h : list Z) (t : Z) (block : list byte) (last : bool) : list Z :=
  let m := map (fun i => from_le_bytes (take 4 (drop (4 * i) block))) (seq 0 16) in
  let v := h ++ IV in
  let v := <[12%nat := Z.lxor (wd v 12) (t mod 2 ^ 32)]> v in
  let v := <[13%nat := Z.lxor (wd v 13) (Z.shiftr t 32 mod 2 ^ 32)]> v in
  let v := if last then <[14%nat := 2 ^ 32 - 1 - wd v 14]> v else v in
  let v := fold_left (round m) SIGMA v in
  map (fun i => Z.lxor (wd h i) (Z.lxor (wd v i) (wd v (i + 8)))) (seq 0 8).

Definition new_keyed (out_len : Z) (key : list byte) : exec Blake2s :=
  if negb ((1 <=? out_len) && (out_len <=? 32) && (blen key <=? 32)) then Panic
  else
    let h := <[0%nat := Z.lxor (wd IV 0) (Z.lxor (Z.lxor 0x01010000 (Z.shiftl (blen key) 8)) out_len)]> IV in
    if blen key =? 0 then Ret (mkB2 h 0 (replicate 64 x00) 0 out_len)
    else b ← copy_from_slice (replicate 64 x00) 0 key; Ret (mkB2 h 0 b 64 out_len).

Definition new (out_len : Z) : exec Blake2s := new_keyed out_len [].

(** The turns of [update]; each takes at least a byte. *)
Fixpoint update_loop (fuel : nat) (s : Blake2s) (data : list byte) : exec Blake2s :=
  if blen data =? 0 then Ret s
  else match fuel with
  | O => Panic
  | S fuel =>
      s ← (if buf_len s =? 64 then
             t' ← word64 (t s + 64);
             Ret (mkB2 (compress (h s) t' (buf s) false) t' (buf s) 0 (out_len s))
           else Ret s);
      let n := Z.min (64 - buf_len s) (blen data) in
      b ← copy_from_slice (buf s) (buf_len s) (take (Z.to_nat n) data);
      update_loop fuel (mkB2 (h s) (t s) b (buf_len s + n) (out_len s)) (from data n)
  end.

Definition update (s : Blake2s) (data : list byte) : exec Blake2s := update_loop (length data) s data.

(** The digest, for an output buffer of [len] bytes. *)
Definition finalize (s : Blake2s) (len : Z) : exec (list byte) :=
  if negb (len =? out_len s) then Panic
  else
    t' ← word64 (t s + buf_len s);
    b ← fill (buf s) (buf_len s) (blen (buf s)) x00;
    let h' := compress (h s) t' b true in
    Ret (map (fun i => default x00 (to_le_bytes 4 (wd h' (i / 4)) !! (i mod 4)%nat)) (seq 0 (Z.to_nat len))).

Definition hash (data : list byte) : exec (list byte) :=
  s ← new 32;
  s ← update s data;
  finalize s 32.

(** ** HMAC and HKDF *)

Definition BLOCK : Z := 64.

(** [pad[i] ^= key[i]] over a block of one byte *)
Definition key_pad (c : byte) (key : list byte) : list byte :=
  zip_with (fun p k => zb (Z.lxor (bz p) (bz k))) (replicate 64 c) key ++ replicate (64 - length key) c.

Fixpoint update_all (s : Blake2s) (parts : list (list byte)) : exec Blake2s :=
  match parts with [] => Ret s | p :: parts => s ← update s p; update_all s parts end.

Definition hmac (key : list byte) (parts : list (list byte)) : exec (list byte) :=
  if negb (blen key <=? BLOCK) then Panic
  else
    inner ← new 32;
    inner ← update inner (key_pad x36 key);
    inner ← update_all inner parts;
    inner_digest ← finalize inner 32;
    outer ← new 32;
    outer ← update outer (key_pad x5c key);
    outer ← update outer inner_digest;
    finalize outer 32.

Definition hkdf (chaining_key ikm : list byte) : exec (list byte * list byte * list byte) :=
  temp ← hmac chaining_key [ikm];
  o1 ← hmac temp [[x01]];
  o2 ← hmac temp [o1; [x02]];
  o3 ← hmac temp [o2; [x03]];
  Ret (o1, o2, o3).

#[local] Opaque compress.

(** ** The hash of a whole message *)

(** Compress block by block, the last one, full or not, as the last. *)
Fixpoint run (n : nat) (h : list Z) (t : Z) (data : list byte) : list Z :=
  match n with
  | O => compress h (t + blen data) (data ++ replicate (64 - length data) x00) true
  | S n => run n (compress h (t + 64) (take 64 data) false) (t + 64) (drop 64 data)
  end.

(** Blocks before the last: none, or enough to leave between one and sixty-four bytes. *)
Definition early (len : nat) : nat := ((len - 1) / 64)%nat.

Definition key_block (key : list byte) : list byte := match key with [] => [] | _ => key ++ replicate (64 - length key) x00 end.

Definition start (out_len : Z) (key : list byte) : list Z :=
  <[0%nat := Z.lxor (wd IV 0) (Z.lxor (Z.lxor 0x01010000 (Z.shiftl (blen key) 8)) out_len)]> IV.

Definition digest_bytes (h : list Z) : list byte := concat (map (to_le_bytes 4) h).

Definition blake2s_of (out_len : Z) (key data : list byte) : list byte :=
  let m := key_block key ++ data in
  take (Z.to_nat out_len) (digest_bytes (run (early (length m)) (start out_len key) 0 m)).

(** The blocks already compressed. *)
Fixpoint chain (k : nat) (h : list Z) (t : Z) (data : list byte) : list Z :=
  match k with O => h | S k => chain k (compress h (t + 64) (take 64 data) false) (t + 64) (drop 64 data) end.

Lemma run_chain k : forall h t a b n, length a = (64 * k)%nat -> run (k + n) h t (a ++ b) = run n (chain k h t a) (t + 64 * Z.of_nat k) b.
Proof.
  induction k as [|k IH]; intros h0 t0 a b n La; cbn [Nat.add run chain]; [destruct a; [|discriminate La]; cbn [app]; f_equal; lia|].
  rewrite take_app_le, drop_app_le by lia. rewrite IH by (rewrite length_drop; lia). f_equal. lia.
Qed.

Lemma chain_snoc k : forall h t a b, length a = (64 * k)%nat -> length b = 64%nat -> chain (S k) h t (a ++ b) = compress (chain k h t a) (t + 64 * Z.of_nat (S k)) b false.
Proof.
  induction k as [|k IH]; intros h0 t0 a b La Lb.
  - destruct a; [|discriminate La]. cbn [app chain]. rewrite (firstn_all2 b) by lia. f_equal.
  - set (h1 := compress h0 (t0 + 64) (take 64 a) false). assert (E1 : chain (S (S k)) h0 t0 (a ++ b) = chain (S k) h1 (t0 + 64) (drop 64 a ++ b)) by (unfold h1; rewrite <- (take_app_le a b 64), <- (drop_app_le a b 64) by lia; reflexivity).
    assert (E2 : chain (S k) h0 t0 a = chain k h1 (t0 + 64) (drop 64 a)) by reflexivity. clearbody h1. rewrite E1, E2, (IH h1 (t0 + 64) (drop 64 a) b) by (rewrite ?length_drop; lia). replace (t0 + 64 + 64 * Z.of_nat (S k)) with (t0 + 64 * Z.of_nat (S (S k))) by lia. reflexivity.
Qed.

(** The hasher has taken in [m], the key's block included. *)
Definition absorbed (out : Z) (key : list byte) (s : Blake2s) (m : list byte) : Prop :=
  out_len s = out /\ length (buf s) = 64%nat /\ exists k full, m = full ++ take (Z.to_nat (buf_len s)) (buf s) /\ length full = (64 * k)%nat /\ 0 <= buf_len s <= 64 /\
    (buf_len s = 0 -> k = 0%nat) /\ t s = 64 * Z.of_nat k /\ h s = chain k (start out key) 0 full.

Lemma update_loop_ok out key fuel : forall s m data, absorbed out key s m -> (length data <= fuel)%nat -> blen m + blen data + 64 < 2 ^ 64 ->
  exists s', update_loop fuel s data = Ret s' /\ absorbed out key s' (m ++ data).
Proof.
  induction fuel as [|fuel IH]; intros s m data A Lf Hm; cbn [update_loop]; destruct (Z.eqb_spec (blen data) 0) as [Z0|Nz]; try (exists s; split; [done|]; destruct data; [by rewrite app_nil_r|rewrite blen_cons in Z0; pose proof (blen_nonneg data); lia]); [unfold blen in Nz; lia|].
  destruct A as (Eo & Lb & k & full & E & Lk & Bl & Hz & Et & Eh).
  (* a full buffer is compressed first *)
  assert (A1 : exists s1, (if buf_len s =? 64 then t' ← word64 (t s + 64); Ret (mkB2 (compress (h s) t' (buf s) false) t' (buf s) 0 (out_len s)) else Ret s) = Ret s1 /\
    out_len s1 = out /\ length (buf s1) = 64%nat /\ exists k full, m = full ++ take (Z.to_nat (buf_len s1)) (buf s1) /\ length full = (64 * k)%nat /\ 0 <= buf_len s1 < 64 /\ t s1 = 64 * Z.of_nat k /\ h s1 = chain k (start out key) 0 full).
  { destruct (Z.eqb_spec (buf_len s) 64) as [F|F].
    - rewrite word64_ok by (rewrite Et; rewrite E, blen_app in Hm; unfold blen in Hm; rewrite Lk in Hm; lia). cbn [mbind exec_bind]. eexists. split; [reflexivity|]. cbn [out_len buf buf_len t h]. split; [exact Eo|]. split; [exact Lb|].
      rewrite F in E. change (Z.to_nat 64) with 64%nat in E. rewrite (firstn_all2 (buf s)) in E by lia. exists (S k), (full ++ buf s). change (Z.to_nat 0) with 0%nat. rewrite take_0, app_nil_r. split; [exact E|]. split; [rewrite length_app; lia|]. split; [lia|]. split; [lia|].
      rewrite chain_snoc, <- Eh by done. replace (0 + 64 * Z.of_nat (S k)) with (t s + 64) by lia. reflexivity.
    - exists s. split; [done|]. split; [exact Eo|]. split; [exact Lb|]. exists k, full. split_and!; try done; lia. }
  destruct A1 as (s1 & -> & Eo1 & Lb1 & k1 & full1 & E1 & Lk1 & Bl1 & Et1 & Eh1). cbn [mbind exec_bind]. clear k full E Lk Bl Hz Et Eh Lb Eo.
  set (n := Z.min (64 - buf_len s1) (blen data)). pose proof (blen_nonneg data) as Dn. assert (Ln : blen (take (Z.to_nat n) data) = n) by (unfold n, blen in *; rewrite length_take; lia). assert (Lbb : blen (buf s1) = 64) by (unfold blen; lia).
  rewrite copy_from_slice_ok by (rewrite ?Ln, ?Lbb; lia). cbn [mbind exec_bind]. set (b := splice (buf s1) (buf_len s1) (take (Z.to_nat n) data)). set (pend := take (Z.to_nat (buf_len s1)) (buf s1)) in *.
  assert (Lp : length pend = Z.to_nat (buf_len s1)) by (unfold pend; rewrite length_take; lia).
  assert (Lb' : length b = 64%nat) by (pose proof (splice_blen (buf s1) (buf_len s1) (take (Z.to_nat n) data) ltac:(lia) ltac:(rewrite Ln, Lbb; lia)) as Q; fold b in Q; unfold blen in Q; lia).
  assert (Tb : take (Z.to_nat (buf_len s1 + n)) b = pend ++ take (Z.to_nat n) data).
  { unfold b, splice. fold pend. rewrite take_app_ge, Lp by lia. f_equal. replace (Z.to_nat (buf_len s1 + n) - Z.to_nat (buf_len s1))%nat with (length (take (Z.to_nat n) data)) by (unfold blen in Ln; lia). by rewrite take_app_length. }
  destruct (IH (mkB2 (h s1) (t s1) b (buf_len s1 + n) (out_len s1)) (m ++ take (Z.to_nat n) data) (from data n)) as (s2 & -> & A2).
  - split; [exact Eo1|]. split; [exact Lb'|]. exists k1, full1. cbn [buf buf_len t h]. split; [rewrite Tb, E1, <- app_assoc; done|]. split; [exact Lk1|]. split; [lia|]. split; [lia|]. done.
  - unfold from. rewrite length_drop. unfold n, blen in *. lia.
  - rewrite blen_app, Ln. rewrite (blen_from data n) by lia. lia.
  - exists s2. split; [done|]. rewrite <- app_assoc in A2. replace (take (Z.to_nat n) data ++ from data n) with data in A2 by (symmetry; apply take_drop). exact A2.
Qed.

Lemma compress_length h t b l : length (compress h t b l) = 8%nat.
Proof. #[local] Transparent compress. unfold compress. by rewrite length_map, length_seq. Qed.

#[local] Opaque compress.

Lemma new_keyed_ok out key : 1 <= out <= 32 -> blen key <= 32 -> exists s, new_keyed out key = Ret s /\ absorbed out key s (key_block key).
Proof.
  intros Ho Hk. unfold new_keyed. destruct (Z.leb_spec 1 out), (Z.leb_spec out 32), (Z.leb_spec (blen key) 32); try lia. cbn [andb negb]. fold (start out key).
  destruct (Z.eqb_spec (blen key) 0) as [Z0|Nz].
  - destruct key; [|rewrite blen_cons in Z0; pose proof (blen_nonneg key); lia]. eexists. split; [reflexivity|]. split; [done|]. split; [done|]. exists 0%nat, []. cbn [buf_len t h]. split_and!; try done; lia.
  - rewrite copy_from_slice_ok by (pose proof (blen_nonneg key); unfold blen in *; rewrite ?length_replicate; lia). cbn [mbind exec_bind]. eexists. split; [reflexivity|]. cbn [buf buf_len out_len t h]. split; [done|].
    assert (Es : splice (replicate 64 x00) 0 key = key ++ replicate (64 - length key) x00) by (unfold splice; change (Z.to_nat 0) with 0%nat; rewrite take_0, Nat.add_0_l, drop_replicate; done). cbn [buf]. rewrite Es.
    assert (Lk : length (key ++ replicate (64 - length key) x00) = 64%nat) by (rewrite length_app, length_replicate; unfold blen in *; lia). split; [exact Lk|]. exists 0%nat, []. cbn [app buf_len].
    change (Z.to_nat 64) with 64%nat. rewrite firstn_all2 by lia. split_and!; try done; try lia. unfold key_block. by destruct key.
Qed.

(** The bytes the output loop picks are the front of the words' bytes. *)
Lemma output_bytes n : forall h, (n <= 4 * length h)%nat -> map (fun i => default x00 (to_le_bytes 4 (wd h (i / 4)) !! (i mod 4)%nat)) (seq 0 n) = take n (digest_bytes h).
Proof.
  intros h Hn. assert (L : forall h : list Z, length (digest_bytes h) = (4 * length h)%nat) by (induction h0 as [|x h0 IH]; [done|]; unfold digest_bytes in *; cbn [map concat length]; rewrite length_app, IH; cbn; lia).
  assert (G : forall (h : list Z) i, (i < 4 * length h)%nat -> digest_bytes h !! i = Some (default x00 (to_le_bytes 4 (wd h (i / 4)) !! (i mod 4)%nat))).
  { induction h0 as [|x h0 IH]; intros i Hi; [cbn in Hi; lia|]. unfold digest_bytes. cbn [map concat]. destruct (Nat.lt_ge_cases i 4) as [Lt|Ge].
    - rewrite lookup_app_l by exact Lt. rewrite (Nat.div_small i 4), (Nat.mod_small i 4) by lia. change (wd (x :: h0) 0) with x. destruct (lookup_lt_is_Some_2 (to_le_bytes 4 x) i Lt) as [b ->]. done.
    - rewrite lookup_app_r by exact Ge. change (length (to_le_bytes 4 x)) with 4%nat. fold (digest_bytes h0). rewrite IH by (cbn [length] in Hi; lia). replace i with (i - 4 + 1 * 4)%nat at 3 4 by lia. rewrite Nat.div_add, Nat.Div0.mod_add by lia. rewrite Nat.add_1_r. done. }
  apply list_eq. intros i. destruct (Nat.lt_ge_cases i n) as [Lt|Ge].
  - rewrite lookup_take_lt, G by lia. rewrite list_lookup_fmap, lookup_seq_lt by lia. done.
  - rewrite !lookup_ge_None_2; [done|rewrite length_take, L; lia|rewrite length_map, length_seq; lia].
Qed.

Lemma finalize_ok out key s data : absorbed out key s (key_block key ++ data) -> 1 <= out <= 32 -> blen (key_block key ++ data) < 2 ^ 64 -> finalize s out = Ret (blake2s_of out key data).
Proof.
  intros (Eo & Lb & k & full & E & Lk & Bl & Hz & Et & Eh) Ho Hm. unfold finalize. rewrite Eo, Z.eqb_refl. cbn [negb]. set (m := key_block key ++ data) in *. set (pend := take (Z.to_nat (buf_len s)) (buf s)) in *.
  assert (Lp : length pend = Z.to_nat (buf_len s)) by (unfold pend; rewrite length_take; lia). assert (Lm : blen m = 64 * Z.of_nat k + buf_len s) by (rewrite E, blen_app; unfold blen; lia).
  rewrite word64_ok by lia. cbn [mbind exec_bind]. assert (Lbb : blen (buf s) = 64) by (unfold blen; lia). unfold fill. rewrite Lbb. destruct (Z.leb_spec (buf_len s) 64); [|lia].
  rewrite copy_from_slice_ok by (unfold blen in *; rewrite ?length_replicate; lia). cbn [mbind exec_bind].
  assert (Es : splice (buf s) (buf_len s) (replicate (Z.to_nat (64 - buf_len s)) x00) = pend ++ replicate (64 - length pend) x00).
  { unfold splice. fold pend. rewrite length_replicate, skipn_all2, app_nil_r by lia. do 2 f_equal. lia. }
  rewrite Es, output_bytes by (rewrite compress_length; lia). unfold blake2s_of. fold m.
  assert (Ek : early (length m) = k).
  { unfold early. rewrite E, length_app, Lk. destruct k as [|k]; [apply Nat.div_small; lia|]. symmetry. apply (Nat.div_unique _ _ _ (length pend - 1)); [lia|]. assert (buf_len s <> 0) by (intros Q; by specialize (Hz Q)). lia. }
  rewrite Ek. pose proof (run_chain k (start out key) 0 full pend 0 Lk) as R. rewrite Nat.add_0_r, <- Eh, <- E in R. rewrite R. cbn [run]. rewrite Z.add_0_l, <- Et. unfold blen. rewrite Lp, Z2Nat.id by lia. done.
Qed.

(** ** HMAC *)

Lemma updates_ok out key parts : forall s m, absorbed out key s m -> blen m + blen (concat parts) + 64 < 2 ^ 64 -> exists s', update_all s parts = Ret s' /\ absorbed out key s' (m ++ concat parts).
Proof.
  induction parts as [|d parts IH]; intros s m A Hm; cbn [update_all concat] in *; [exists s; by rewrite app_nil_r|]. rewrite blen_app in Hm. pose proof (blen_nonneg (concat parts)).
  unfold update. destruct (update_loop_ok out key (length d) s m d A ltac:(lia) ltac:(lia)) as (s1 & -> & A1). cbn [mbind exec_bind].
  destruct (IH s1 (m ++ d) A1) as (s2 & -> & A2); [rewrite blen_app; lia|]. exists s2. by rewrite app_assoc.
Qed.

(** A hash in pieces is the hash of the whole. *)
Lemma pieces_ok out key parts : 1 <= out <= 32 -> blen key <= 32 -> blen (concat parts) < 2 ^ 63 ->
  exists s s', new_keyed out key = Ret s /\ update_all s parts = Ret s' /\ finalize s' out = Ret (blake2s_of out key (concat parts)).
Proof.
  intros Ho Hk Hm. destruct (new_keyed_ok out key Ho Hk) as (s & E & A). assert (Lk : blen (key_block key) <= 64) by (unfold key_block; destruct key as [|c key]; [done|]; rewrite blen_app; unfold blen in *; rewrite length_replicate; lia).
  destruct (updates_ok out key parts s (key_block key) A ltac:(lia)) as (s' & E' & A'). exists s, s'. split; [exact E|]. split; [exact E'|]. apply finalize_ok; [exact A'|exact Ho|]. rewrite blen_app. lia.
Qed.

Definition hash_of (data : list byte) : list byte := blake2s_of 32 [] data.

Lemma hash_of_length data : length (hash_of data) = 32%nat.
Proof.
  unfold hash_of, blake2s_of. rewrite length_take. cbn [key_block app]. assert (L : forall n h t d, length (digest_bytes (run n h t d)) = 32%nat).
  { intros n. induction n as [|n IH]; intros h0 t0 d; cbn [run]; [|apply IH]. pose proof (compress_length h0 (t0 + blen d) (d ++ replicate (64 - length d) x00) true) as C. unfold digest_bytes.
    destruct (compress _ _ _ _) as [|a [|b [|c [|e [|f [|i [|j [|l [|]]]]]]]]]; try discriminate C. done. }
  rewrite L. done.
Qed.

Definition hmac_of (key data : list byte) : list byte := hash_of (key_pad x5c key ++ hash_of (key_pad x36 key ++ data)).

Lemma hash_parts_ok parts : blen (concat parts) < 2 ^ 63 -> exists s s', new 32 = Ret s /\ update_all s parts = Ret s' /\ finalize s' 32 = Ret (hash_of (concat parts)).
Proof. intros H. exact (pieces_ok 32 [] parts ltac:(lia) ltac:(done) H). Qed.

Lemma hash_ok data : blen data < 2 ^ 63 -> hash data = Ret (hash_of data).
Proof.
  intros H. destruct (hash_parts_ok [data]) as (s & s' & E1 & E2 & E3); [cbn; by rewrite app_nil_r|]. unfold hash. rewrite E1. cbn [mbind exec_bind]. cbn [update_all mbind exec_bind concat] in *. rewrite app_nil_r in E3.
  destruct (update s data) as [x|]; [|discriminate E2]. injection E2 as ->. exact E3.
Qed.

Lemma key_pad_length c key : (length key <= 64)%nat -> length (key_pad c key) = 64%nat.
Proof. intros H. unfold key_pad. rewrite length_app, length_zip_with, !length_replicate. lia. Qed.

Lemma hmac_ok key parts : blen key <= 64 -> blen (concat parts) + 64 < 2 ^ 63 -> hmac key parts = Ret (hmac_of key (concat parts)).
Proof.
  intros Hk Hm. assert (Lk : (length key <= 64)%nat) by (unfold blen in Hk; lia). unfold hmac, BLOCK. destruct (Z.leb_spec (blen key) 64); [|lia]. cbn [negb].
  destruct (hash_parts_ok (key_pad x36 key :: parts)) as (s & s' & E1 & E2 & E3); [cbn [concat]; rewrite blen_app; unfold blen at 1; rewrite key_pad_length by exact Lk; lia|]. rewrite E1. cbn [mbind exec_bind]. cbn [update_all concat mbind exec_bind] in E2, E3.
  destruct (update s (key_pad x36 key)) as [a|]; [|discriminate E2]. cbn [mbind exec_bind] in *. rewrite E2. cbn [mbind exec_bind]. rewrite E3. cbn [mbind exec_bind]. set (inner := hash_of _) in *.
  destruct (hash_parts_ok [key_pad x5c key; inner]) as (q & q' & F1 & F2 & F3); [cbn [concat]; rewrite app_nil_r, blen_app; unfold blen; rewrite key_pad_length by exact Lk; unfold inner; rewrite hash_of_length; lia|]. rewrite F1 in E1. injection E1 as ->.
  cbn [update_all concat mbind exec_bind] in F2, F3. rewrite app_nil_r in F3. destruct (update s (key_pad x5c key)) as [a2|]; [|discriminate F2]. cbn [mbind exec_bind] in *. destruct (update a2 inner) as [a3|]; [|discriminate F2]. cbn [mbind exec_bind] in *. injection F2 as ->. exact F3.
Qed.

(** ** HKDF *)

Definition hkdf_of (ck ikm : list byte) : list byte * list byte * list byte :=
  let temp := hmac_of ck ikm in
  let o1 := hmac_of temp [x01] in
  let o2 := hmac_of temp (o1 ++ [x02]) in
  (o1, o2, hmac_of temp (o2 ++ [x03])).

Lemma hkdf_ok ck ikm : length ck = 32%nat -> blen ikm + 64 < 2 ^ 63 -> hkdf ck ikm = Ret (hkdf_of ck ikm).
Proof.
  intros Lc Hi. unfold hkdf, hkdf_of. assert (L32 : forall k d, blen (hmac_of k d) = 32) by (intros; unfold hmac_of, blen; by rewrite hash_of_length).
  rewrite hmac_ok by (cbn [concat]; rewrite ?app_nil_r; unfold blen in *; lia). cbn [concat mbind exec_bind]. rewrite app_nil_r.
  do 3 (rewrite hmac_ok by (cbn [concat app]; rewrite ?blen_app, ?L32, ?blen_cons, ?blen_nil; lia); cbn [concat app mbind exec_bind]).
  reflexivity.
Qed.

(** C21: A message hashed in any pieces, keyed or not, is hashed as the whole:
    holding the last block back, the counter and the padding are those of RFC 7693,
    nothing panics within the documented limits, and HMAC over parts is the HMAC
    formula over their concatenation. *)
Theorem blake2s_in_pieces (out : Z) (key hkey : list byte) (parts : list (list byte)) (Ho : 1 <= out <= 32) (Hk : blen key <= 32) (Hh : blen hkey <= 64) (Hp : blen (concat parts) + 64 < 2 ^ 63) :
  (exists s s', new_keyed out key = Ret s /\ update_all s parts = Ret s' /\ finalize s' out = Ret (blake2s_of out key (concat parts))) /\ hmac hkey parts = Ret (hmac_of hkey (concat parts)).
Proof. split; [apply pieces_ok; lia|by apply hmac_ok]. Qed.

Lemma blake2s_in_pieces_witness : hmac [x6b] [[x61]; [x62; x63]] = Ret (hmac_of [x6b] [x61; x62; x63]).
Proof. exact (proj2 (blake2s_in_pieces 32 [] [x6b] [[x61]; [x62; x63]] ltac:(lia) ltac:(done) ltac:(done) ltac:(done))). Defined.
