(* ===== verification/Noise.v ===== *)
(** * The Noise IK handshake and its transport ([crates/kevy-noise/src]:
    [symmetric.rs], [handshake.rs], [transport.rs], [Error] of [lib.rs])

    Both sides derive one transcript hash and one pair of keys from the same
    messages, and the transport carries messages in order over a byte stream cut
    anywhere.  The primitives are those of kevy-crypto. *)

From Stdlib Require Import ZArith Lia Bool Strings.Byte Strings.String.
From stdpp Require Import base tactics list numbers.
From S2P Require Import Prelude Results FindCrlf Buffers Words Fe25519.
From S2P Require Aead Blake2s.

#[local] Open Scope list_scope.
#[local] Open Scope Z_scope.

(** ** Errors *)

Inductive Error := Decrypt | Truncated | LowOrderPoint | TooLong | NonceExhausted.

Definition display (e : Error) : string :=
  match e with
  | Decrypt => "message failed authentication"
  | Truncated => "message too short"
  | LowOrderPoint => "peer key is a point of small order"
  | TooLong => "message longer than a Noise message allows"
  | NonceExhausted => "nonce space exhausted"
  end.

Abbreviation res := (result Error).

(** ** Ciphers *)

Definition TAG : Z := 16.

Record CipherState := mkCs { k : option (list byte); n : Z }.

Definition nonce (n : Z) : list byte := replicate 4 x00 ++ to_le_bytes 8 n.

Definition empty : CipherState := mkCs None 0.
Definition keyed (k : list byte) : CipherState := mkCs (Some k) 0.

Definition count (c : CipherState) : Z := n c.

(** The cipher as it is left, and the buffer. *)
Definition encrypt (cs : CipherState) (ad buf : list byte) : exec (CipherState * (list byte + Error)) :=
  match k cs with
  | None => Ret (cs, inl buf)
  | Some key =>
      if n cs =? u64_max then Ret (cs, inr NonceExhausted)
      else
        '(c, tag) ← Aead.seal key (nonce (n cs)) ad buf;
        Ret (mkCs (k cs) (n cs + 1), inl (c ++ tag))
  end.

Definition decrypt (cs : CipherState) (ad buf : list byte) : exec (CipherState * (list byte + Error)) :=
  match k cs with
  | None => Ret (cs, inl buf)
  | Some key =>
      if n cs =? u64_max then Ret (cs, inr NonceExhausted)
      else if blen buf <? TAG then Ret (cs, inr Truncated)
      else
        let body := blen buf - TAG in
        '(p, r) ← Aead.open key (nonce (n cs)) ad (take (Z.to_nat body) buf) (from buf body);
        match r with
        | inl _ => Ret (mkCs (k cs) (n cs + 1), inl p)
        | inr _ => Ret (cs, inr Decrypt)
        end
  end.

(** ** The transcript *)

Record SymmetricState := mkSs { ck : list byte; h : list byte; cs : CipherState }.

Definition sym_new (protocol_name : list byte) : exec SymmetricState :=
  h ← (if blen protocol_name <=? 32 then copy_from_slice (replicate 32 x00) 0 protocol_name else Blake2s.hash protocol_name);
  Ret (mkSs h h empty).

Definition mix_key (ss : SymmetricState) (ikm : list byte) : exec SymmetricState :=
  '(c, key, _) ← Blake2s.hkdf (ck ss) ikm;
  Ret (mkSs c (h ss) (keyed key)).

Definition mix_hash (ss : SymmetricState) (data : list byte) : exec SymmetricState :=
  b ← Blake2s.new 32;
  b ← Blake2s.update b (h ss);
  b ← Blake2s.update b data;
  d ← Blake2s.finalize b (blen (h ss));
  Ret (mkSs (ck ss) d (cs ss)).

Definition encrypt_and_hash (ss : SymmetricState) (plaintext : list byte) : res (SymmetricState * list byte) :=
  match encrypt (cs ss) (h ss) plaintext with
  | Ret (c, inl buf) => let* ss := lift (mix_hash (mkSs (ck ss) (h ss) c) buf) in ok (ss, buf)
  | Ret (_, inr e) => err e
  | Panic => Panic
  end.

Definition decrypt_and_hash (ss : SymmetricState) (ciphertext : list byte) : res (SymmetricState * list byte) :=
  match decrypt (cs ss) (h ss) ciphertext with
  | Ret (c, inl buf) => let* ss := lift (mix_hash (mkSs (ck ss) (h ss) c) ciphertext) in ok (ss, buf)
  | Ret (_, inr e) => err e
  | Panic => Panic
  end.

Definition sym_split (ss : SymmetricState) : exec (CipherState * CipherState * list byte) :=
  '(k1, k2, _) ← Blake2s.hkdf (ck ss) [];
  Ret (keyed k1, keyed k2, h ss).

(** ** The handshake *)

Definition PROTOCOL : list byte := bs "Noise_IK_25519_ChaChaPoly_BLAKE2s".
Definition DHLEN : Z := 32.

Record Keypair := mkKp { secret : list byte; public : list byte }.

Definition from_secret (secret : list byte) : exec Keypair :=
  p ← x25519 secret BASEPOINT;
  Ret (mkKp secret p).

Definition dh (secret public : list byte) : res (list byte) :=
  let* shared := lift (x25519 secret public) in
  if Aead.ct_eq shared (replicate 32 x00) then err LowOrderPoint else ok shared.

(** [take]: the front of the message, and the rest. *)
Definition take_front (msg : list byte) (n : Z) : res (list byte * list byte) :=
  if blen msg <? n then err Truncated else ok (take (Z.to_nat n) msg, from msg n).

Definition key32 (b : list byte) : exec (list byte) := if blen b =? 32 then Ret b else Panic.

Record Transport := mkTr { send : CipherState; recv : CipherState; thash : list byte }.

Record Initiator := mkIn { i_ss : SymmetricState; i_s : Keypair; i_e : Keypair }.
Record Responder := mkRe { r_ss : SymmetricState; r_e : Keypair; r_re : list byte; r_rs : list byte }.

Definition start (local : Keypair) (remote_static : list byte) (ephemeral : Keypair) (prologue payload : list byte) : res (list byte * Initiator) :=
  let* ss := lift (sym_new PROTOCOL) in
  let* ss := lift (mix_hash ss prologue) in
  let* ss := lift (mix_hash ss remote_static) in
  let* ss := lift (mix_hash ss (public ephemeral)) in
  let* d := dh (secret ephemeral) remote_static in
  let* ss := lift (mix_key ss d) in
  let* (ss, c1) := encrypt_and_hash ss (public local) in
  let* d := dh (secret local) remote_static in
  let* ss := lift (mix_key ss d) in
  let* (ss, c2) := encrypt_and_hash ss payload in
  ok (public ephemeral ++ c1 ++ c2, mkIn ss local ephemeral).

Definition init_finish (i : Initiator) (reply : list byte) : res (list byte * Transport) :=
  let* (re, rest) := take_front reply DHLEN in
  let* re := lift (key32 re) in
  let* ss := lift (mix_hash (i_ss i) re) in
  let* d := dh (secret (i_e i)) re in
  let* ss := lift (mix_key ss d) in
  let* d := dh (secret (i_s i)) re in
  let* ss := lift (mix_key ss d) in
  let* (ss, payload) := decrypt_and_hash ss rest in
  let* (send, recv, hash) := lift (sym_split ss) in
  ok (payload, mkTr send recv hash).

Definition accept (local ephemeral : Keypair) (prologue first : list byte) : res (list byte * Responder) :=
  let* ss := lift (sym_new PROTOCOL) in
  let* ss := lift (mix_hash ss prologue) in
  let* ss := lift (mix_hash ss (public local)) in
  let* (re, rest) := take_front first DHLEN in
  let* re := lift (key32 re) in
  let* ss := lift (mix_hash ss re) in
  let* d := dh (secret local) re in
  let* ss := lift (mix_key ss d) in
  let* (c1, rest) := take_front rest (DHLEN + TAG) in
  let* (ss, rs) := decrypt_and_hash ss c1 in
  let* rs := lift (key32 rs) in
  let* d := dh (secret local) rs in
  let* ss := lift (mix_key ss d) in
  let* (ss, payload) := decrypt_and_hash ss rest in
  ok (payload, mkRe ss ephemeral re rs).

Definition remote_static (r : Responder) : list byte := r_rs r.

Definition resp_finish (r : Responder) (payload : list byte) : res (list byte * Transport) :=
  let* ss := lift (mix_hash (r_ss r) (public (r_e r))) in
  let* d := dh (secret (r_e r)) (r_re r) in
  let* ss := lift (mix_key ss d) in
  let* d := dh (secret (r_e r)) (r_rs r) in
  let* ss := lift (mix_key ss d) in
  let* (ss, c) := encrypt_and_hash ss payload in
  let* (recv, send, hash) := lift (sym_split ss) in
  ok (public (r_e r) ++ c, mkTr send recv hash).

(** ** The transport *)

Definition MAX_MESSAGE : Z := 65535.

Definition seal_with (send : CipherState) (plaintext : list byte) : exec (CipherState * (list byte + Error)) :=
  if MAX_MESSAGE - TAG <? blen plaintext then Ret (send, inr TooLong) else encrypt send [] plaintext.

Definition open_with (recv : CipherState) (ciphertext : list byte) : exec (CipherState * (list byte + Error)) :=
  decrypt recv [] ciphertext.

Definition tr_seal (t : Transport) (plaintext : list byte) : exec (Transport * (list byte + Error)) :=
  '(c, r) ← seal_with (send t) plaintext; Ret (mkTr c (recv t) (thash t), r).

Definition tr_open (t : Transport) (ciphertext : list byte) : exec (Transport * (list byte + Error)) :=
  '(c, r) ← open_with (recv t) ciphertext; Ret (mkTr (send t) c (thash t), r).

(** The halves, a [Sealer] and an [Opener]. *)
Definition tr_split (t : Transport) : CipherState * CipherState := (send t, recv t).

Definition handshake_hash (t : Transport) : list byte := thash t.

Definition frame (msg : list byte) : list byte + Error :=
  if blen msg <=? 65535 then inl ([zb (blen msg / 256); zb (blen msg)] ++ msg) else inr TooLong.

(** [Frames]: the buffered bytes. *)
Definition frames_push (buf bytes : list byte) : list byte := buf ++ bytes.

Definition frames_next (buf : list byte) : exec (list byte * option (list byte)) :=
  match buf with
  | a :: b :: _ =>
      let len := bz a * 256 + bz b in
      if blen buf <? 2 + len then Ret (buf, None)
      else msg ← index_range buf 2 (2 + len); Ret (from buf (2 + len), Some msg)
  | _ => Ret (buf, None)
  end.

(** ** Ciphers of one key *)

(** A cipher with a key, and nonces left. *)
Definition ready (c : CipherState) : Prop := exists key, k c = Some key /\ length key = 32%nat /\ 0 <= n c < u64_max.

Lemma nonce_length i : length (nonce i) = 12%nat.
Proof. done. Qed.

Lemma encrypt_ok c ad buf : ready c -> exists ct, encrypt c ad buf = Ret (mkCs (k c) (n c + 1), inl ct) /\ blen ct = blen buf + TAG /\
  decrypt c ad ct = Ret (mkCs (k c) (n c + 1), inl buf).
Proof.
  intros (key & Ek & Lk & Hn). unfold encrypt, decrypt. rewrite Ek. destruct (Z.eqb_spec (n c) u64_max) as [E|_]; [lia|].
  destruct (Aead.seal_ok key (nonce (n c)) ad buf Lk (nonce_length _)) as (ct & t & -> & L & Et & O). cbn [mbind exec_bind]. assert (Lt : blen t = TAG) by by subst t.
  exists (ct ++ t). assert (Bl : blen (ct ++ t) = blen buf + TAG) by (rewrite blen_app, Lt; unfold blen; lia). split; [reflexivity|]. split; [exact Bl|].
  pose proof (blen_nonneg buf). rewrite Bl. destruct (Z.ltb_spec (blen buf + TAG) TAG) as [C|_]; [lia|]. replace (blen buf + TAG - TAG) with (blen ct) by (unfold blen; lia).
  unfold from, blen. rewrite Nat2Z.id, take_app_length, drop_app_length, O. done.
Qed.

(** Whatever is received, deciding it takes no more than its bytes, and a message
    that is refused leaves the cipher where it was. *)
Lemma decrypt_total c ad ct : ready c ->
  (exists p, decrypt c ad ct = Ret (mkCs (k c) (n c + 1), inl p) /\ blen p = blen ct - TAG) \/
  decrypt c ad ct = Ret (c, inr Decrypt) \/ decrypt c ad ct = Ret (c, inr Truncated).
Proof.
  intros (key & Ek & Lk & Hn). unfold decrypt. rewrite Ek. destruct (Z.eqb_spec (n c) u64_max) as [E|_]; [lia|]. destruct (Z.ltb_spec (blen ct) TAG) as [C|C]; [by right; right|].
  rewrite Aead.aead_open_ok by done. cbn [mbind exec_bind]. case_decide as D; cbn [mbind exec_bind]; [left|by right; left]. eexists. split; [reflexivity|].
  set (b := take (Z.to_nat (blen ct - TAG)) ct). destruct (Aead.xor_keystream_ok key (nonce (n c)) b Lk (nonce_length _)) as [_ L]. unfold blen at 1. rewrite Aead.xor_bytes_length by exact L.
  unfold b. rewrite length_take. unfold blen, TAG in *. lia.
Qed.

(** ** The transcript, step by step *)

Definition wf (ss : SymmetricState) : Prop := length (ck ss) = 32%nat /\ length (h ss) = 32%nat.

Lemma mix_hash_ok ss d : wf ss -> blen d < 2 ^ 62 -> mix_hash ss d = Ret (mkSs (ck ss) (Blake2s.hash_of (h ss ++ d)) (cs ss)) /\ wf (mkSs (ck ss) (Blake2s.hash_of (h ss ++ d)) (cs ss)).
Proof.
  intros [Lc Lh] Hd. assert (Bh : blen (h ss) = 32) by (unfold blen; lia). destruct (Blake2s.hash_parts_ok [h ss; d]) as (s & s' & N & U & F); [cbn [concat]; rewrite app_nil_r, blen_app; lia|].
  unfold mix_hash. rewrite N, Bh. cbn [mbind exec_bind]. cbn [Blake2s.update_all concat] in U, F. rewrite app_nil_r in F. revert U. cbn [mbind exec_bind].
  destruct (Blake2s.update s (h ss)) as [s1|]; cbn [mbind exec_bind]; [|done]. destruct (Blake2s.update s1 d) as [s2|]; cbn [mbind exec_bind]; [|done]. intros [= ->]. rewrite F. cbn [mbind exec_bind].
  split; [reflexivity|]. split; [exact Lc|apply Blake2s.hash_of_length].
Qed.

Lemma mix_key_ok ss ikm : wf ss -> length ikm = 32%nat -> exists ss', mix_key ss ikm = Ret ss' /\ wf ss' /\ ready (cs ss').
Proof.
  intros [Lc Lh] Li. unfold mix_key. rewrite Blake2s.hkdf_ok by (try exact Lc; unfold blen; lia). unfold Blake2s.hkdf_of. cbn [mbind exec_bind]. eexists. split; [reflexivity|].
  split; [split; [apply Blake2s.hash_of_length|exact Lh]|]. eexists. split; [reflexivity|]. split; [apply Blake2s.hash_of_length|]. cbn [cs keyed n]. done.
Qed.

Lemma sym_new_ok : exists ss, sym_new PROTOCOL = Ret ss /\ wf ss.
Proof.
  unfold sym_new. change (blen PROTOCOL <=? 32) with false. rewrite Blake2s.hash_ok by (by vm_compute). cbn [mbind exec_bind]. eexists. split; [reflexivity|]. split; apply Blake2s.hash_of_length.
Qed.

(** A cipher with a key, and no message sealed under it. *)
Definition unused (c : CipherState) : Prop := ready c /\ n c = 0.

Lemma sym_split_ok ss : wf ss -> exists c1 c2, sym_split ss = Ret (c1, c2, h ss) /\ unused c1 /\ unused c2.
Proof.
  intros [Lc Lh]. unfold sym_split. rewrite Blake2s.hkdf_ok by (try exact Lc; by vm_compute). unfold Blake2s.hkdf_of. cbn [mbind exec_bind]. do 2 eexists. split; [reflexivity|].
  split; (split; [|reflexivity]; eexists; split; [reflexivity|]; split; [apply Blake2s.hash_of_length|by cbn [keyed n]]).
Qed.

(** What one side writes, the other reads, and both are left alike. *)
Lemma encrypt_and_hash_ok ss p : wf ss -> ready (cs ss) -> blen p < 2 ^ 61 -> exists ss' c,
  encrypt_and_hash ss p = ok (ss', c) /\ decrypt_and_hash ss c = ok (ss', p) /\ blen c = blen p + TAG /\ wf ss'.
Proof.
  intros W R Hp. destruct (encrypt_ok (cs ss) (h ss) p R) as (c & E & L & D). unfold encrypt_and_hash, decrypt_and_hash. rewrite E.
  destruct (mix_hash_ok (mkSs (ck ss) (h ss) (mkCs (k (cs ss)) (n (cs ss) + 1))) c W) as [Em W']; [rewrite L; unfold TAG; lia|]. rewrite Em.
  do 2 eexists. split; [reflexivity|]. rewrite D, Em. split; [reflexivity|]. split; [exact L|exact W'].
Qed.

Lemma decrypt_and_hash_total ss c : wf ss -> ready (cs ss) -> blen c < 2 ^ 61 ->
  (exists ss' p, decrypt_and_hash ss c = ok (ss', p) /\ blen p = blen c - TAG /\ wf ss') \/ exists e, decrypt_and_hash ss c = err e /\ (e = Decrypt \/ e = Truncated).
Proof.
  intros W R Hc. unfold decrypt_and_hash. destruct (decrypt_total (cs ss) (h ss) c R) as [(p & -> & L)|[-> | ->]]; [left|right; by eauto|right; by eauto].
  destruct (mix_hash_ok (mkSs (ck ss) (h ss) (mkCs (k (cs ss)) (n (cs ss) + 1))) c W) as [-> W']; [lia|]. by eauto.
Qed.

(** ** The handshake *)

Definition kp_ok (a : Keypair) : Prop := length (secret a) = 32%nat /\ length (public a) = 32%nat.

(** The two computations of one shared secret. *)
Definition agree (a b : Keypair) : Prop := x25519 (secret a) (public b) = x25519 (secret b) (public a).

(** The shared secret is the one a point of small order gives. *)
Definition low (a b : Keypair) : Prop := x25519 (secret a) (public b) = Ret (replicate 32 x00).

Lemma dh_ok s p : length s = 32%nat -> length p = 32%nat ->
  (x25519 s p = Ret (replicate 32 x00) /\ dh s p = err LowOrderPoint) \/ (x25519 s p <> Ret (replicate 32 x00) /\ exists d, dh s p = ok d /\ length d = 32%nat).
Proof.
  intros Ls Lp. unfold dh. destruct (x25519_total s p Ls Lp) as (v & -> & Lv). nstep. rewrite Aead.ct_eq_ok. case_bool_decide as D; [left; by rewrite D|right; split; [congruence|eauto]].
Qed.

Lemma agree_dh a b : agree a b -> dh (secret b) (public a) = dh (secret a) (public b).
Proof. unfold agree, dh. by intros ->. Qed.

Lemma take_front_app (a b : list byte) i : blen a = i -> take_front (a ++ b) i = ok (a, b).
Proof.
  intros <-. unfold take_front. rewrite blen_app. pose proof (blen_nonneg b). destruct (Z.ltb_spec (blen a + blen b) (blen a)) as [C|_]; [lia|]. unfold from, blen. by rewrite Nat2Z.id, take_app_length, drop_app_length.
Qed.

Lemma key32_ok b : length b = 32%nat -> key32 b = Ret b.
Proof. intros L. unfold key32, blen. by rewrite L. Qed.

Lemma blen_key (b : list byte) : length b = 32%nat -> blen b = 32.
Proof. unfold blen. lia. Qed.

Section Agreement.
Variables (si ei sr er : Keypair) (prologue : list byte).
Hypotheses (Ksi : kp_ok si) (Kei : kp_ok ei) (Ksr : kp_ok sr) (Ker : kp_ok er) (Hpr : blen prologue < 2 ^ 61).

(** The first message, written and read. *)
Lemma first_message payload : blen payload < 2 ^ 61 -> agree ei sr -> agree si sr ->
  (start si (public sr) ei prologue payload = err LowOrderPoint /\ (low ei sr \/ low si sr)) \/
  (~ low ei sr /\ ~ low si sr /\ exists m1 ss, start si (public sr) ei prologue payload = ok (m1, mkIn ss si ei) /\ wf ss /\ blen m1 = 32 + 48 + blen payload + 16 /\
     accept sr er prologue m1 = ok (payload, mkRe ss er (public ei) (public si))).
Proof using Ksi Kei Ksr Hpr.
  intros Hp A1 A2. destruct Ksi as [Lsi Lsi'], Kei as [Lei Lei'], Ksr as [Lsr Lsr']. unfold start, accept.
  destruct sym_new_ok as (s0 & E0 & W0). rewrite E0. nstep. destruct (mix_hash_ok s0 prologue W0 ltac:(lia)) as [E1 W1]. rewrite E1. nstep.
  edestruct mix_hash_ok as [E2 W2]; [exact W1| |rewrite E2]; [rewrite (blen_key _ Lsr'); lia|]. nstep. edestruct mix_hash_ok as [E3 W3]; [exact W2| |rewrite E3]; [rewrite (blen_key _ Lei'); lia|]. nstep.
  destruct (dh_ok (secret ei) (public sr) Lei Lsr') as [[L ->]|(L & d1 & D1 & Ld1)]; [left; split; [done|by left]|]. rewrite D1. nstep. edestruct mix_key_ok as (s4 & E4 & W4 & R4); [exact W3|exact Ld1|]. rewrite E4. nstep.
  destruct (encrypt_and_hash_ok s4 (public si) W4 R4) as (s5 & c1 & E5 & D5 & Lc1 & W5); [rewrite (blen_key _ Lsi'); lia|]. rewrite E5. nstep.
  destruct (dh_ok (secret si) (public sr) Lsi Lsr') as [[L' ->]|(L' & d2 & D2 & Ld2)]; [left; split; [done|by right]|]. rewrite D2. nstep. destruct (mix_key_ok s5 d2 W5 Ld2) as (s6 & E6 & W6 & R6). rewrite E6. nstep.
  destruct (encrypt_and_hash_ok s6 payload W6 R6 Hp) as (s7 & c2 & E7 & D7 & Lc2 & W7). rewrite E7. nstep. right. split; [exact L|]. split; [exact L'|]. do 2 eexists. split; [reflexivity|]. split; [exact W7|].
  split; [rewrite !blen_app, Lc1, Lc2, (blen_key _ Lsi'), (blen_key _ Lei'); unfold TAG; lia|].
  rewrite take_front_app by by apply blen_key. nstep. rewrite key32_ok by exact Lei'. nstep. rewrite E3. nstep. rewrite (agree_dh ei sr A1), D1. nstep. rewrite E4. nstep.
  rewrite take_front_app by (rewrite Lc1, (blen_key _ Lsi'); reflexivity). nstep. rewrite D5. nstep. rewrite key32_ok by exact Lsi'. nstep. rewrite (agree_dh si sr A2), D2. nstep. rewrite E6. nstep. rewrite D7. reflexivity.
Qed.

(** The reply, written and read. *)
Lemma second_message ss payload : wf ss -> blen payload < 2 ^ 61 -> agree ei er -> agree si er ->
  (resp_finish (mkRe ss er (public ei) (public si)) payload = err LowOrderPoint /\ (low er ei \/ low er si)) \/
  (~ low er ei /\ ~ low er si /\ exists m2 c1 c2 hash, unused c1 /\ unused c2 /\ resp_finish (mkRe ss er (public ei) (public si)) payload = ok (m2, mkTr c2 c1 hash) /\
     blen m2 = 32 + blen payload + 16 /\ init_finish (mkIn ss si ei) m2 = ok (payload, mkTr c1 c2 hash)).
Proof using Ksi Kei Ker.
  intros W Hp A1 A2. destruct Ksi as [Lsi Lsi'], Kei as [Lei Lei'], Ker as [Ler Ler']. unfold resp_finish, init_finish. cbn [r_ss r_e r_re r_rs i_ss i_s i_e].
  edestruct mix_hash_ok as [E1 W1]; [exact W| |rewrite E1]; [rewrite (blen_key _ Ler'); lia|]. nstep.
  destruct (dh_ok (secret er) (public ei) Ler Lei') as [[L ->]|(L & d1 & D1 & Ld1)]; [left; split; [done|by left]|]. rewrite D1. nstep. edestruct mix_key_ok as (s2 & E2 & W2 & R2); [exact W1|exact Ld1|]. rewrite E2. nstep.
  destruct (dh_ok (secret er) (public si) Ler Lsi') as [[L' ->]|(L' & d2 & D2 & Ld2)]; [left; split; [done|by right]|]. rewrite D2. nstep. destruct (mix_key_ok s2 d2 W2 Ld2) as (s3 & E3 & W3 & R3). rewrite E3. nstep.
  destruct (encrypt_and_hash_ok s3 payload W3 R3 Hp) as (s4 & c & E4 & D4 & Lc & W4). rewrite E4. nstep. destruct (sym_split_ok s4 W4) as (c1 & c2 & E5 & R5 & R6). rewrite E5. nstep.
  right. split; [exact L|]. split; [exact L'|]. do 4 eexists. split; [exact R5|]. split; [exact R6|]. split; [reflexivity|]. split; [rewrite blen_app, Lc, (blen_key _ Ler'); unfold TAG; lia|].
  rewrite take_front_app by by apply blen_key. nstep. rewrite key32_ok by exact Ler'. nstep. rewrite E1. nstep. rewrite <- (agree_dh ei er A1), D1. nstep. rewrite E2. nstep. rewrite <- (agree_dh si er A2), D2. nstep. rewrite E3. nstep.
  rewrite D4. nstep. rewrite E5. reflexivity.
Qed.
End Agreement.

(** ** Any bytes at all *)

Definition refused (e : Error) : Prop := e = Decrypt \/ e = Truncated \/ e = LowOrderPoint.

Lemma take_front_total m i : 0 <= i -> (exists a b, take_front m i = ok (a, b) /\ m = a ++ b /\ blen a = i) \/ take_front m i = err Truncated.
Proof.
  intros Hi. unfold take_front. destruct (Z.ltb_spec (blen m) i) as [C|C]; [by right|left]. do 2 eexists. split; [reflexivity|]. unfold from. rewrite take_drop. split; [done|]. unfold blen in *. rewrite length_take. lia.
Qed.

Lemma accept_total sr er prologue first : kp_ok sr -> blen prologue < 2 ^ 61 -> blen first < 2 ^ 61 ->
  (exists p r, accept sr er prologue first = ok (p, r) /\ wf (r_ss r) /\ r_e r = er /\ length (r_re r) = 32%nat /\ length (remote_static r) = 32%nat /\ blen p = blen first - (32 + 48 + 16)) \/
  exists e, accept sr er prologue first = err e /\ refused e.
Proof.
  intros [Lsr Lsr'] Hpr Hf. unfold accept, refused. destruct sym_new_ok as (s0 & -> & W0). nstep. destruct (mix_hash_ok s0 prologue W0 ltac:(lia)) as [-> W1]. nstep.
  edestruct mix_hash_ok as [E2 W2]; [exact W1| |rewrite E2]; [rewrite (blen_key _ Lsr'); lia|]. nstep. destruct (take_front_total first DHLEN ltac:(done)) as [(re & rest & -> & -> & Lre)| ->]; nstep; [|by eauto 6].
  rewrite blen_app in *. pose proof (blen_nonneg rest). unfold DHLEN in *. assert (Lre' : length re = 32%nat) by (unfold blen in Lre; lia). rewrite key32_ok by exact Lre'. nstep. edestruct mix_hash_ok as [E3 W3]; [exact W2| |rewrite E3]; [lia|]. nstep.
  destruct (dh_ok (secret sr) re Lsr Lre') as [[_ ->]|(_ & d1 & -> & Ld1)]; nstep; [by eauto 6|]. edestruct mix_key_ok as (s4 & -> & W4 & R4); [exact W3|exact Ld1|]. nstep.
  destruct (take_front_total rest (32 + TAG) ltac:(done)) as [(c1 & c2 & -> & -> & Lc1)| ->]; nstep; [|by eauto 6]. rewrite blen_app in *. pose proof (blen_nonneg c2). pose proof (blen_nonneg c1).
  destruct (decrypt_and_hash_total s4 c1 W4 R4 ltac:(lia)) as [(s5 & rs & -> & Lrs & W5)|(e & -> & [-> | ->])]; nstep; [|by eauto 6|by eauto 6]. assert (Lrs' : length rs = 32%nat) by (unfold blen in *; lia).
  rewrite key32_ok by exact Lrs'. nstep. destruct (dh_ok (secret sr) rs Lsr Lrs') as [[_ ->]|(_ & d2 & -> & Ld2)]; nstep; [by eauto 6|]. destruct (mix_key_ok s5 d2 W5 Ld2) as (s6 & -> & W6 & R6). nstep.
  destruct (decrypt_and_hash_total s6 c2 W6 R6 ltac:(lia)) as [(s7 & p & -> & Lp & W7)|(e & -> & [-> | ->])]; nstep; [|by eauto 6|by eauto 6]. left. do 2 eexists. split; [reflexivity|]. cbn [r_ss r_e r_re remote_static r_rs].
  do 4 (split; [done|]). unfold TAG in *. lia.
Qed.

Lemma init_finish_total ss si ei reply : wf ss -> kp_ok si -> kp_ok ei -> blen reply < 2 ^ 61 ->
  (exists p t, init_finish (mkIn ss si ei) reply = ok (p, t) /\ ready (send t) /\ ready (recv t) /\ blen p = blen reply - (32 + 16)) \/
  exists e, init_finish (mkIn ss si ei) reply = err e /\ refused e.
Proof.
  intros W [Lsi _] [Lei _] Hr. unfold init_finish, refused. cbn [i_ss i_s i_e]. destruct (take_front_total reply DHLEN ltac:(done)) as [(re & rest & -> & -> & Lre)| ->]; nstep; [|by eauto 6].
  rewrite blen_app in *. pose proof (blen_nonneg rest). unfold DHLEN in *. assert (Lre' : length re = 32%nat) by (unfold blen in Lre; lia). rewrite key32_ok by exact Lre'. nstep. edestruct mix_hash_ok as [E1 W1]; [exact W| |rewrite E1]; [lia|]. nstep.
  destruct (dh_ok (secret ei) re Lei Lre') as [[_ ->]|(_ & d1 & -> & Ld1)]; nstep; [by eauto 6|]. edestruct mix_key_ok as (s2 & -> & W2 & R2); [exact W1|exact Ld1|]. nstep.
  destruct (dh_ok (secret si) re Lsi Lre') as [[_ ->]|(_ & d2 & -> & Ld2)]; nstep; [by eauto 6|]. destruct (mix_key_ok s2 d2 W2 Ld2) as (s3 & -> & W3 & R3). nstep.
  destruct (decrypt_and_hash_total s3 rest W3 R3 ltac:(lia)) as [(s4 & p & -> & Lp & W4)|(e & -> & [-> | ->])]; nstep; [|by eauto 6|by eauto 6]. destruct (sym_split_ok s4 W4) as (c1 & c2 & -> & R5 & R6). nstep.
  left. do 2 eexists. split; [reflexivity|]. cbn [send recv]. unfold TAG in *. split; [apply R5|]. split; [apply R6|]. lia.
Qed.

(** ** The channel *)

(** One side seals and frames its messages; the stream of bytes. *)
Fixpoint write_all (c : CipherState) (msgs : list (list byte)) : exec (CipherState * (list byte + Error)) :=
  match msgs with
  | [] => Ret (c, inl [])
  | m :: msgs =>
      '(c, r) ← seal_with c m;
      match r with
      | inr e => Ret (c, inr e)
      | inl ct =>
          match frame ct with
          | inr e => Ret (c, inr e)
          | inl f => '(c, rest) ← write_all c msgs; Ret (c, match rest with inl s => inl (f ++ s) | inr e => inr e end)
          end
      end
  end.

(** The other takes the messages that have arrived, opening each. *)
Fixpoint drain (fuel : nat) (c : CipherState) (buf : list byte) : exec (CipherState * list byte * list (list byte + Error)) :=
  match fuel with
  | O => Ret (c, buf, [])
  | S fuel =>
      '(buf, m) ← frames_next buf;
      match m with
      | None => Ret (c, buf, [])
      | Some m => '(c, r) ← open_with c m; '(c, buf, l) ← drain fuel c buf; Ret (c, buf, r :: l)
      end
  end.

(** Each read from the stream is pushed, and what is complete taken. *)
Fixpoint read_all (c : CipherState) (buf : list byte) (pieces : list (list byte)) : exec (CipherState * list byte * list (list byte + Error)) :=
  match pieces with
  | [] => Ret (c, buf, [])
  | p :: pieces =>
      let buf := frames_push buf p in
      '(c, buf, l) ← drain (S (length buf)) c buf;
      '(c, buf, l') ← read_all c buf pieces;
      Ret (c, buf, l ++ l')
  end.

Definition advance (c : CipherState) (i : Z) : CipherState := mkCs (k c) (n c + i).

Definition small (m : list byte) : Prop := blen m <= MAX_MESSAGE - TAG.

(** A cipher with nonces for that many more messages. *)
Definition enough (c : CipherState) (i : nat) : Prop := exists key, k c = Some key /\ length key = 32%nat /\ 0 <= n c /\ n c + Z.of_nat i <= u64_max.

Lemma noise_frame_ok ct : blen ct <= 65535 -> exists a b, frame ct = inl (a :: b :: ct) /\ bz a * 256 + bz b = blen ct.
Proof.
  intros H. unfold frame. destruct (Z.leb_spec (blen ct) 65535) as [_|C]; [|lia]. do 2 eexists. split; [reflexivity|]. rewrite !bz_zb. pose proof (blen_nonneg ct). pose proof (Z.div_mod (blen ct) 256 ltac:(lia)). pose proof (Z.mod_pos_bound (blen ct) 256 ltac:(lia)). rewrite (Z.mod_small (blen ct / 256)) by lia. lia.
Qed.

Lemma next_whole a b ct rest : bz a * 256 + bz b = blen ct -> frames_next (a :: b :: ct ++ rest) = Ret (rest, Some ct).
Proof.
  intros L. unfold frames_next. cbv zeta. rewrite L, !blen_cons, blen_app. pose proof (blen_nonneg rest). pose proof (blen_nonneg ct). destruct (Z.ltb_spec (1 + (1 + (blen ct + blen rest))) (2 + blen ct)) as [C|_]; [lia|].
  rewrite index_range_ok by (rewrite ?blen_cons, ?blen_app; lia). cbn [mbind exec_bind]. unfold from, slice. replace (Z.to_nat (2 + blen ct)) with (2 + length ct)%nat by (unfold blen; lia).
  replace (Z.to_nat (2 + blen ct - 2)) with (length ct) by (unfold blen; lia). change (Z.to_nat 2) with 2%nat. cbn [Nat.add drop]. rewrite drop_0. by rewrite take_app_length, drop_app_length.
Qed.

Lemma next_part a b ct buf tl s : bz a * 256 + bz b = blen ct -> buf ++ tl = a :: b :: ct ++ s -> blen buf < 2 + blen ct -> frames_next buf = Ret (buf, None).
Proof.
  intros L E H. destruct buf as [|x [|y buf]]; [done|done|]. cbn [app] in E. injection E as -> -> E. unfold frames_next. cbv zeta. rewrite L. destruct (Z.ltb_spec (blen (a :: b :: buf)) (2 + blen ct)) as [_|C]; [done|lia].
Qed.

Lemma enough_ready c i : enough c (S i) -> ready c /\ enough (advance c 1) i.
Proof. intros (key & Ek & Lk & H0 & H1). split; (exists key; cbn [advance k n]; repeat split; try done; lia). Qed.

(** One message through a frame. *)
Lemma write_one c m i : enough c (S i) -> small m -> exists ct a b, seal_with c m = Ret (advance c 1, inl ct) /\ frame ct = inl (a :: b :: ct) /\ bz a * 256 + bz b = blen ct /\
  open_with c ct = Ret (advance c 1, inl m).
Proof.
  intros En Sm. destruct (enough_ready c i En) as [R _]. unfold small in Sm. destruct (encrypt_ok c [] m R) as (ct & E & L & D). destruct (noise_frame_ok ct) as (a & b & F & Lf); [unfold MAX_MESSAGE, TAG in *; lia|].
  exists ct, a, b. split; [|by split; [exact F|split; [exact Lf|]]]. unfold seal_with. destruct (Z.ltb_spec (MAX_MESSAGE - TAG) (blen m)) as [C|_]; [lia|exact E].
Qed.

Lemma cs_advance_advance c i j : advance (advance c i) j = advance c (i + j).
Proof. unfold advance. cbn [k n]. f_equal. lia. Qed.

Lemma cs_advance_0 c : advance c 0 = c.
Proof. destruct c. unfold advance. cbn [k n]. f_equal. lia. Qed.

(** The bytes of the messages: each frame in turn. *)
Inductive carried_by : CipherState -> list (list byte) -> list byte -> Prop :=
| carried_nil c : carried_by c [] []
| carried_cons c m ms ct a b s : bz a * 256 + bz b = blen ct -> open_with c ct = Ret (advance c 1, inl m) -> carried_by (advance c 1) ms s -> carried_by c (m :: ms) (a :: b :: ct ++ s).

Lemma write_all_ok ms : forall c, enough c (length ms) -> Forall small ms -> exists s, write_all c ms = Ret (advance c (Z.of_nat (length ms)), inl s) /\ carried_by c ms s.
Proof.
  induction ms as [|m ms IH]; intros c En Sm; cbn [write_all length].
  - exists []. change (Z.of_nat 0) with 0. rewrite cs_advance_0. split; [done|constructor].
  - apply list.Forall_cons in Sm as [Sm Sms]. destruct (write_one c m (length ms) En Sm) as (ct & a & b & -> & F & Lf & O). cbn [mbind exec_bind]. rewrite F.
    destruct (IH (advance c 1)) as (s & -> & Cs); [by apply enough_ready|exact Sms|]. cbn [mbind exec_bind]. rewrite cs_advance_advance. exists (a :: b :: ct ++ s).
    split; [do 3 f_equal; lia|by econstructor].
Qed.

(** Draining a part of the stream takes the messages that part holds whole, and
    leaves the rest to come. *)
Lemma frames_drain_ok c ms s : carried_by c ms s -> forall fuel buf tl, buf ++ tl = s -> (length buf < fuel)%nat -> exists ms1 ms2 buf', ms = ms1 ++ ms2 /\
  drain fuel c buf = Ret (advance c (Z.of_nat (length ms1)), buf', map inl ms1) /\ carried_by (advance c (Z.of_nat (length ms1))) ms2 (buf' ++ tl) /\ frames_next buf' = Ret (buf', None).
Proof.
  induction 1 as [c|c m ms ct a b s L O Cs IH]; intros fuel buf tl E Hf; (destruct fuel as [|fuel]; [lia|]).
  - apply app_nil in E as [-> ->]. exists [], [], []. change (Z.of_nat (length (@nil (list byte)))) with 0. rewrite cs_advance_0. repeat split. constructor.
  - destruct (Z.lt_ge_cases (blen buf) (2 + blen ct)) as [Lt|Ge].
    + pose proof (next_part a b ct buf tl s L E Lt) as N. exists [], (m :: ms), buf. change (Z.of_nat (length (@nil (list byte)))) with 0. rewrite cs_advance_0. split; [done|]. split; [cbn [drain]; by rewrite N|]. split; [|exact N].
      rewrite E. by econstructor.
    + assert (P : exists b2, buf = a :: b :: ct ++ b2 /\ b2 ++ tl = s).
      { destruct buf as [|x [|y buf]]; [unfold blen in Ge; cbn in Ge; lia|unfold blen in Ge; cbn in Ge; lia|]. cbn [app] in E. injection E as -> -> E. rewrite !blen_cons in Ge.
        exists (drop (length ct) buf). apply (f_equal (take (length ct))) in E as E1. apply (f_equal (drop (length ct))) in E as E2. rewrite take_app_length in E1. rewrite drop_app_length in E2.
        rewrite take_app_le in E1 by (unfold blen in Ge; lia). rewrite drop_app_le in E2 by (unfold blen in Ge; lia). split; [|exact E2]. do 2 f_equal. rewrite <- E1 at 1. by rewrite take_drop. }
      destruct P as (b2 & -> & E2). cbn [drain]. rewrite next_whole by exact L. cbn [mbind exec_bind]. rewrite O. cbn [mbind exec_bind].
      destruct (IH fuel b2 tl E2) as (ms1 & ms2 & buf' & -> & D & C & N); [cbn [length] in Hf; rewrite length_app in Hf; lia|]. rewrite D. cbn [mbind exec_bind].
      rewrite cs_advance_advance in *. replace (1 + Z.of_nat (length ms1)) with (Z.of_nat (length (m :: ms1))) in * by (cbn [length]; lia). by exists (m :: ms1), ms2, buf'.
Qed.

Lemma read_all_ok pieces : forall c ms buf, frames_next buf = Ret (buf, None) -> carried_by c ms (buf ++ concat pieces) -> read_all c buf pieces = Ret (advance c (Z.of_nat (length ms)), [], map inl ms).
Proof.
  induction pieces as [|p pieces IH]; intros c ms buf N C; cbn [read_all concat] in *.
  - rewrite app_nil_r in C. inversion C as [c0 E|c0 m ms' ct a b s L O C' E1 E2 E3]; subst; [change (Z.of_nat (length (@nil (list byte)))) with 0; by rewrite cs_advance_0|].
    rewrite next_whole in N by exact L. discriminate N.
  - rewrite app_assoc in C. unfold frames_push. destruct (frames_drain_ok c ms _ C (S (length (buf ++ p))) (buf ++ p) (concat pieces) eq_refl ltac:(lia)) as (ms1 & ms2 & buf' & -> & -> & C' & N').
    cbn [mbind exec_bind]. rewrite (IH _ _ _ N' C'). cbn [mbind exec_bind]. rewrite cs_advance_advance, length_app, map_app. do 3 f_equal. f_equal. lia.
Qed.

(** C16: Both sides of an IK handshake end in one session: when the four shared
    secrets agree, the initiator's first message either is not written, exactly when
    a shared secret is that of a point of small order, or is accepted by the
    responder, who reads the payload and learns the initiator's static key; the
    reply likewise; and then the keys are crossed, the handshake hash is one and
    both ciphers are fresh. *)
Theorem handshake_agrees (si ei sr er : Keypair) (prologue p1 p2 : list byte)
  (Ksi : kp_ok si) (Kei : kp_ok ei) (Ksr : kp_ok sr) (Ker : kp_ok er) (Hp : blen prologue < 2 ^ 61) (H1 : blen p1 < 2 ^ 61) (H2 : blen p2 < 2 ^ 61)
  (Aes : agree ei sr) (Ass : agree si sr) (Aee : agree ei er) (Ase : agree si er) :
  (start si (public sr) ei prologue p1 = err LowOrderPoint /\ (low ei sr \/ low si sr)) \/
  (~ low ei sr /\ ~ low si sr /\ exists m1 i r, start si (public sr) ei prologue p1 = ok (m1, i) /\ accept sr er prologue m1 = ok (p1, r) /\ remote_static r = public si /\
     ((resp_finish r p2 = err LowOrderPoint /\ (low er ei \/ low er si)) \/
      (~ low er ei /\ ~ low er si /\ exists m2 ti tr, resp_finish r p2 = ok (m2, tr) /\ init_finish i m2 = ok (p2, ti) /\
         send ti = recv tr /\ recv ti = send tr /\ handshake_hash ti = handshake_hash tr /\ unused (send ti) /\ unused (recv ti) /\
         blen m1 = 32 + 48 + blen p1 + 16 /\ blen m2 = 32 + blen p2 + 16))).
Proof.
  destruct (first_message si ei sr er prologue Ksi Kei Ksr Hp p1 H1 Aes Ass) as [L|(N1 & N2 & m1 & ss & S & W & B1 & A)]; [by left|]. right. split; [exact N1|]. split; [exact N2|].
  do 3 eexists. split; [exact S|]. split; [exact A|]. split; [reflexivity|]. destruct (second_message si ei er Ksi Kei Ker ss p2 W H2 Aee Ase) as [L|(N3 & N4 & m2 & c1 & c2 & hash & R1 & R2 & F & B2 & I)]; [by left|].
  right. split; [exact N3|]. split; [exact N4|]. do 3 eexists. split; [exact F|]. split; [exact I|]. split; [reflexivity|]. split; [reflexivity|]. split; [reflexivity|]. split; [exact R1|]. split; [exact R2|]. split; [exact B1|exact B2].
Qed.

(** C18: A peer that sends anything at all is answered: the responder on any first
    message and the initiator on any reply stop with a decryption, length or
    small-order error or take a payload of exactly the bytes left over, and no step
    panics, the 32-byte key read out of the decrypted message included. *)
Theorem handshake_survives_any_bytes (local ephemeral : Keypair) (prologue bytes : list byte) (ss : SymmetricState)
  (Kl : kp_ok local) (Ke : kp_ok ephemeral) (W : wf ss) (Hp : blen prologue < 2 ^ 61) (Hb : blen bytes < 2 ^ 61) :
  ((exists p r, accept local ephemeral prologue bytes = ok (p, r) /\ wf (r_ss r) /\ r_e r = ephemeral /\ length (r_re r) = 32%nat /\ length (remote_static r) = 32%nat /\ blen p = blen bytes - (32 + 48 + 16)) \/
   exists e, accept local ephemeral prologue bytes = err e /\ refused e) /\
  ((exists p t, init_finish (mkIn ss local ephemeral) bytes = ok (p, t) /\ ready (send t) /\ ready (recv t) /\ blen p = blen bytes - (32 + 16)) \/
   exists e, init_finish (mkIn ss local ephemeral) bytes = err e /\ refused e).
Proof. split; [by apply accept_total|by apply init_finish_total]. Qed.

Lemma handshake_survives_any_bytes_witness : let a := mkKp (replicate 32 x01) BASEPOINT in
  (exists p r, accept a a [] [x00] = ok (p, r)) \/ exists e, accept a a [] [x00] = err e /\ refused e.
Proof.
  intros a. destruct (handshake_survives_any_bytes a a [] [x00] (mkSs (replicate 32 x00) (replicate 32 x00) empty) (conj eq_refl eq_refl) (conj eq_refl eq_refl) (conj eq_refl eq_refl) eq_refl eq_refl) as [[(p & r & E & _)|E] _].
  - left. exists p, r. exact E.
  - right. exact E.
Defined.

(** C17: Messages arrive whole and in order: as long as the nonces last, every
    message of at most 65519 bytes is sealed and framed, and however the stream of
    bytes is cut, the reader opens exactly the messages sent, in order, with no byte
    left over and its cipher at the writer's; a message that is refused leaves the
    cipher where it was, and the last nonce is never used. *)
Theorem channel_delivers (c : CipherState) (msgs : list (list byte)) (En : enough c (length msgs)) (Sm : Forall small msgs) :
  (exists s, write_all c msgs = Ret (advance c (Z.of_nat (length msgs)), inl s) /\
     forall pieces, concat pieces = s -> read_all c [] pieces = Ret (advance c (Z.of_nat (length msgs)), [], map inl msgs)) /\
  (forall ct c' e, open_with c ct = Ret (c', inr e) -> c' = c) /\
  (forall key m, small m -> seal_with (mkCs (Some key) u64_max) m = Ret (mkCs (Some key) u64_max, inr NonceExhausted)).
Proof.
  split; [|split].
  - destruct (write_all_ok msgs c En Sm) as (s & E & C). exists s. split; [exact E|]. intros pieces Ep. by apply read_all_ok; [|rewrite Ep].
  - intros ct c' e. unfold open_with, decrypt. destruct (k c) as [key|] eqn:Ek; [|done]. destruct (n c =? u64_max); [by intros [= ->]|]. destruct (blen ct <? TAG); [by intros [= ->]|].
    destruct (Aead.open _ _ _ _ _) as [[p [|]]|]; cbn [mbind exec_bind]; [done|by intros [= ->]|done].
  - intros key m Hm. unfold seal_with, small in *. by destruct (Z.ltb_spec (MAX_MESSAGE - TAG) (blen m)) as [C|_]; [lia|].
Qed.

Lemma channel_delivers_witness : exists s, write_all (keyed (replicate 32 x05)) [[x61]; [x62; x63]] = Ret (advance (keyed (replicate 32 x05)) 2, inl s) /\
  forall pieces, concat pieces = s -> read_all (keyed (replicate 32 x05)) [] pieces = Ret (advance (keyed (replicate 32 x05)) 2, [], [inl [x61]; inl [x62; x63]]).
Proof.
  refine (proj1 (channel_delivers (keyed (replicate 32 x05)) [[x61]; [x62; x63]] _ _)).
  - eexists. split; [reflexivity|]. split; [reflexivity|]. split; [discriminate|]. vm_compute. discriminate.
  - repeat constructor; vm_compute; discriminate.
Defined.
