(* ===== verification/NoiseRun.v ===== *)
(** * A handshake in full

    The ladder of [Fe25519] on big machine numbers, which evaluates, the key pairs
    of RFC 7748 section 6.1 and two more, and the session they reach. *)

From Stdlib Require Import ZArith Lia Bool Strings.Byte.
From Bignums Require Import BigZ.BigZ.
From stdpp Require Import base tactics list.
From S2P Require Import Prelude Results FindCrlf Buffers Words Fe25519 Noise.

#[local] Open Scope list_scope.
#[local] Open Scope Z_scope.

(** ** The ladder, evaluated *)

Definition prime : BigZ.t := BigZ.of_Z p25519.

Definition big_point : Type := BigZ.t * BigZ.t.

Definition big_double (P : big_point) : big_point :=
  let '(x, z) := P in
  let aa := ((x + z) * (x + z))%bigZ in
  let bb := ((x - z) * (x - z))%bigZ in
  let e := (aa - bb)%bigZ in
  (((aa * bb) mod prime)%bigZ, ((e * (aa + e * 121665)) mod prime)%bigZ).

Definition big_add (x1 : BigZ.t) (P Q : big_point) : big_point :=
  let '(x2, z2) := P in
  let '(x3, z3) := Q in
  let da := ((x3 - z3) * (x2 + z2))%bigZ in
  let cb := ((x3 + z3) * (x2 - z2))%bigZ in
  ((((da + cb) * (da + cb)) mod prime)%bigZ, ((x1 * ((da - cb) * (da - cb))) mod prime)%bigZ).

Fixpoint big_ladder (k : Z) (x1 : BigZ.t) (t : nat) (P Q : big_point) : big_point * big_point :=
  match t with
  | O => (P, Q)
  | S t => if Z.testbit k (Z.of_nat t) then big_ladder k x1 t (big_add x1 P Q) (big_double Q) else big_ladder k x1 t (big_double P) (big_add x1 P Q)
  end.

Fixpoint big_pow (b : BigZ.t) (e : positive) : BigZ.t :=
  match e with
  | xH => b
  | xO e => let y := big_pow b e in ((y * y) mod prime)%bigZ
  | xI e => let y := big_pow b e in ((b * (y * y)) mod prime)%bigZ
  end.

Definition big_number (k u : Z) : Z :=
  let u := BigZ.of_Z u in
  let '(x, z) := fst (big_ladder k u 255 (1%bigZ, 0%bigZ) (u, 1%bigZ)) in
  BigZ.to_Z ((x * big_pow z (Z.to_pos (p25519 - 2))) mod prime)%bigZ.

Definition value (P : big_point) : point := (BigZ.to_Z (fst P), BigZ.to_Z (snd P)).

Lemma prime_ok : BigZ.to_Z prime = p25519.
Proof. apply BigZ.spec_of_Z. Qed.

Ltac to_numbers := repeat (rewrite BigZ.spec_modulo || rewrite BigZ.spec_mul || rewrite BigZ.spec_add || rewrite BigZ.spec_sub || rewrite prime_ok).

Lemma double_ok P : value (big_double P) = double (value P).
Proof.
  destruct P as [x z]. unfold value, big_double, double. cbn [fst snd]. change (BigZ.to_Z 121665%bigZ) with 121665. f_equal; to_numbers; reflexivity.
Qed.

Lemma add_ok x1 P Q : value (big_add x1 P Q) = add_diff (BigZ.to_Z x1) (value P) (value Q).
Proof. destruct P as [x2 z2], Q as [x3 z3]. unfold value, big_add, add_diff. cbn [fst snd]. f_equal; to_numbers; reflexivity. Qed.

Lemma ladder_value k x1 t : forall P Q, let '(P', Q') := big_ladder k x1 t P Q in montgomery k (BigZ.to_Z x1) t (value P) (value Q) = (value P', value Q').
Proof.
  induction t as [|t IH]; intros P Q; cbn [big_ladder montgomery]; [done|]. rewrite <- !double_ok, <- !add_ok. destruct (Z.testbit k (Z.of_nat t)); apply IH.
Qed.

Lemma pow_ok b e : BigZ.to_Z (big_pow b e) mod p25519 = BigZ.to_Z b ^ Z.pos e mod p25519.
Proof.
  induction e as [e IH|e IH|]; cbn [big_pow]; [| |by rewrite Z.pow_1_r].
  - to_numbers.
    rewrite Zmod_mod. rewrite (Pos2Z.inj_xI e), Z.pow_add_r, Z.pow_1_r by lia. replace (2 * Z.pos e) with (Z.pos e + Z.pos e) by lia. rewrite Z.pow_add_r by lia.
    rewrite (Z.mul_comm (BigZ.to_Z b ^ Z.pos e * BigZ.to_Z b ^ Z.pos e)). rewrite (Z.mul_mod (BigZ.to_Z b)), (Z.mul_mod (BigZ.to_Z (big_pow b e))), IH by done. by rewrite <- (Z.mul_mod (BigZ.to_Z b ^ Z.pos e)), <- Z.mul_mod.
  - to_numbers. rewrite Zmod_mod, (Pos2Z.inj_xO e). replace (2 * Z.pos e) with (Z.pos e + Z.pos e) by lia. rewrite Z.pow_add_r by lia.
    rewrite Z.mul_mod, IH by done. by rewrite <- Z.mul_mod.
Qed.

Lemma number_ok k u : x25519_number k u = big_number k u.
Proof.
  unfold x25519_number, big_number. cbv zeta. pose proof (ladder_value k (BigZ.of_Z u) 255 (1%bigZ, 0%bigZ) (BigZ.of_Z u, 1%bigZ)) as H.
  destruct (big_ladder k (BigZ.of_Z u) 255 _ _) as [[x z] Q]. unfold value in H. cbn [fst snd] in H. rewrite BigZ.spec_of_Z in H.
  change (BigZ.to_Z 1%bigZ) with 1 in H. change (BigZ.to_Z 0%bigZ) with 0 in H. rewrite H. cbn [fst]. to_numbers.
  rewrite (Z.mul_mod (BigZ.to_Z x) (BigZ.to_Z (big_pow _ _))), pow_ok, <- Z.mul_mod by done. reflexivity.
Qed.

(** ** Four key pairs *)

Definition key_pair (s p : Z) : Keypair := mkKp (to_le_bytes 32 s) (to_le_bytes 32 p).

(** The two of RFC 7748, section 6.1, and two with every secret byte alike. *)
Definition alice : Keypair := key_pair 19076158533740022697853188432810029468508100820210985396154491514718125885303 48084050389777770101701157326923977117307187144965043058462938058489685090437.
Definition bob : Keypair := key_pair 106690238676031959364154629127743819238817784511314751294525304279539011595101 35809631094079244041211258971985475468665640815735853089228998203411133079262.
Definition ephemeral_i : Keypair := key_pair 454086624460063511464984254936031011189294057512315937409637584344757371137 4358756744656299921611720742713659245005038656318957406234335445765305065636.
Definition ephemeral_r : Keypair := key_pair 908173248920127022929968509872062022378588115024631874819275168689514742274 40477307152345293097440037870896525068212056681688608823036027849291427646926.

(** What two of them compute, each from its secret and the other's public key. *)
Definition ladder_secret (a b : Keypair) (v : Z) : Prop :=
  x25519 (secret a) (public b) = Ret (to_le_bytes 32 v) /\ x25519 (secret b) (public a) = Ret (to_le_bytes 32 v).

Lemma share_by a b v : kp_ok a -> kp_ok b ->
  big_number (decode_scalar (secret a)) (from_le_bytes (public b) mod 2 ^ 255) = v -> big_number (decode_scalar (secret b)) (from_le_bytes (public a) mod 2 ^ 255) = v -> ladder_secret a b v.
Proof. intros [A1 A2] [B1 B2] <- E. split; rewrite x25519_ok by assumption; rewrite number_ok; [reflexivity|by rewrite E]. Qed.

Lemma ephemeral_i_bob : ladder_secret ephemeral_i bob 51178831287803943867744444698470349791507943970706258794218091339411675077604.
Proof. apply share_by; [split; reflexivity|split; reflexivity|vm_compute; reflexivity|vm_compute; reflexivity]. Qed.

Lemma alice_bob : ladder_secret alice bob 29893438142586401087946310744922998080771935139441267052026283852717044358474.
Proof. apply share_by; [split; reflexivity|split; reflexivity|vm_compute; reflexivity|vm_compute; reflexivity]. Qed.

Lemma ephemeral_i_ephemeral_r : ladder_secret ephemeral_i ephemeral_r 37870191047867657583432095346284531764084119257177089722230817295622394795822.
Proof. apply share_by; [split; reflexivity|split; reflexivity|vm_compute; reflexivity|vm_compute; reflexivity]. Qed.

Lemma alice_ephemeral_r : ladder_secret alice ephemeral_r 50094681031122473913625100695025592880301859678125830205586082903956362001760.
Proof. apply share_by; [split; reflexivity|split; reflexivity|vm_compute; reflexivity|vm_compute; reflexivity]. Qed.

(** The public keys are those of the secrets: the pair the RFC gives for Alice. *)
Example alice_is_the_rfcs : x25519 (secret alice) BASEPOINT = Ret (public alice).
Proof. rewrite x25519_ok by reflexivity. rewrite number_ok. vm_compute. reflexivity. Qed.

Lemma share_agree a b v : ladder_secret a b v -> agree a b.
Proof. intros [A B]. unfold agree. by rewrite A, B. Qed.

Lemma share_not_low a b v : ladder_secret a b v -> to_le_bytes 32 v <> replicate 32 x00 -> ~ low a b /\ ~ low b a.
Proof. intros [A B] N. unfold low. rewrite A, B. split; intros E; apply N; exact (f_equal (fun r => match r with Ret x => x | Panic => [] end) E). Qed.

Lemma handshake_agrees_witness : exists m1 i r m2 ti tr,
  start alice (public bob) ephemeral_i [] [x68; x69] = ok (m1, i) /\ accept bob ephemeral_r [] m1 = ok ([x68; x69], r) /\ remote_static r = public alice /\
  resp_finish r [x79; x6f] = ok (m2, tr) /\ init_finish i m2 = ok ([x79; x6f], ti) /\ send ti = recv tr /\ recv ti = send tr /\ unused (send ti) /\ unused (recv ti).
Proof.
  destruct (handshake_agrees alice ephemeral_i bob ephemeral_r [] [x68; x69] [x79; x6f] (conj eq_refl eq_refl) (conj eq_refl eq_refl) (conj eq_refl eq_refl) (conj eq_refl eq_refl) eq_refl eq_refl eq_refl
    (share_agree _ _ _ ephemeral_i_bob) (share_agree _ _ _ alice_bob) (share_agree _ _ _ ephemeral_i_ephemeral_r) (share_agree _ _ _ alice_ephemeral_r))
    as [[_ [L|L]]|(_ & _ & m1 & i & r & S & A & R & [[_ [L|L]]|(_ & _ & m2 & ti & tr & F & I & K1 & K2 & _ & U1 & U2 & _)])].
  - destruct (proj1 (share_not_low _ _ _ ephemeral_i_bob ltac:(vm_compute; discriminate)) L).
  - destruct (proj1 (share_not_low _ _ _ alice_bob ltac:(vm_compute; discriminate)) L).
  - destruct (proj2 (share_not_low _ _ _ ephemeral_i_ephemeral_r ltac:(vm_compute; discriminate)) L).
  - destruct (proj2 (share_not_low _ _ _ alice_ephemeral_r ltac:(vm_compute; discriminate)) L).
  - exists m1, i, r, m2, ti, tr. exact (conj S (conj A (conj R (conj F (conj I (conj K1 (conj K2 (conj U1 U2)))))))).
Defined.
