(* ===== verification/ReplWire.v ===== *)
(** * The replication wire ([crates/kevy-replicate/src]: [wire.rs],
    [wire_snapshot.rs], [DecodedFrame] of [replica.rs], [FeedPosition] of
    [feed.rs])

    Frames carry an offset and the command a client would have sent; a snapshot
    is shipped between two marker lines, in length-prefixed chunks. *)

From Stdlib Require Import ZArith Lia Bool Strings.Byte Strings.String.
From stdpp Require Import base tactics list numbers.
From S2P Require Import Prelude Results FindCrlf Buffers Argv Encode Request.

#[local] Open Scope list_scope.
#[local] Open Scope Z_scope.
#[local] Open Scope kevy_scope.

Inductive WireError := Truncated | BadEnvelope | BadOffset | NegativeOffset (n : Z) | BadPayload (why : string).

Abbreviation wres := (result WireError).

#[global] Instance is_truncated {A} (r : A + WireError) : Decision (r = inr Truncated).
Proof. destruct r as [|[]]; (left; reflexivity) || (right; discriminate). Defined.

Record DecodedFrame := mkDf { d_offset : Z; d_argv : Argv }.
Record FeedPosition := mkFp { generation : Z; offset : Z }.

(** ** Numbers *)

(** The digit loop of [push_u64], filling twenty bytes from the back. *)
Fixpoint push_digits (room : nat) (v : Z) (acc : list byte) : exec (list byte) :=
  if v =? 0 then Ret acc
  else match room with
  | O => Panic
  | S room => push_digits room (v / 10) (digit_byte (v mod 10) :: acc)
  end.

Definition push_u64 (out : list byte) (n : Z) : exec (list byte) :=
  if n =? 0 then Ret (out ++ bs "0") else d ← push_digits 20 n []; Ret (out ++ d).

Definition checked_u64 (z : Z) : option Z := if (0 <=? z) && (z <=? u64_max) then Some z else None.

(** The loop of [parse_decimal]. *)
Fixpoint decimal_loop (n : Z) (bytes : list byte) : option Z :=
  match bytes with
  | [] => Some n
  | b :: bytes =>
      if negb (is_ascii_digit b) then None
      else m ← checked_u64 (n * 10); m ← checked_u64 (m + (bz b - 48)); decimal_loop m bytes
  end.

Definition parse_decimal (bytes : list byte) : option Z :=
  match bytes with [] => None | _ => decimal_loop 0 bytes end.

Definition parse_signed_decimal (bytes : list byte) : option Z :=
  match bytes with
  | [] => None
  | b :: tl =>
      let '(neg, digits) := if b =b "-"%byte then (true, tl) else if b =b "+"%byte then (false, tl) else (false, bytes) in
      n ← parse_decimal digits;
      if neg : bool then
        if i64_max + 1 <? n then None
        else if n =? i64_max + 1 then Some i64_min
        else Some (- n)
      else if i64_max <? n then None
      else Some n
  end.

(** The scan of [find_crlf] from index [i]. *)
Fixpoint crlf_loop (fuel : nat) (buf : list byte) (i : Z) : option Z :=
  match fuel with
  | O => None
  | S fuel =>
      if i + 1 <? blen buf then
        if bool_decide (get buf i = Some CR) && bool_decide (get buf (i + 1) = Some LF) then Some i else crlf_loop fuel buf (i + 1)
      else None
  end.

Definition wire_find_crlf (buf : list byte) (from : Z) : option Z := crlf_loop (length buf) buf from.

(** ** Frames *)

(** One argument: its length line, its bytes. *)
Definition push_arg (out arg : list byte) : exec (list byte) :=
  out ← push_u64 (out ++ bs "$") (blen arg);
  Ret (out ++ CRLF ++ arg ++ CRLF).

Fixpoint push_args (out : list byte) (args : list (list byte)) : exec (list byte) :=
  match args with [] => Ret out | a :: args => out ← push_arg out a; push_args out args end.

Definition encode_frame (offset : Z) (argv : list (list byte)) : exec (list byte) :=
  out ← push_u64 (bs "*2" ++ CRLF ++ bs ":") offset;
  out ← push_u64 (out ++ CRLF ++ bs "*") (blen argv);
  push_args (out ++ CRLF) argv.

Definition parse_envelope_header (buf : list byte) : wres Z :=
  if blen buf <? 4 then err Truncated
  else
    let* b := lift (index buf 0) in
    if negb (b =b "*"%byte) then err BadEnvelope
    else
      let* eol := or_err (wire_find_crlf buf 1) Truncated in
      let* digits := lift (index_range buf 1 eol) in
      let* count := or_err (parse_decimal digits) BadEnvelope in
      if negb (count =? 2) then err BadEnvelope else ok (eol + 2).

Definition parse_offset_line (buf : list byte) (start : Z) : wres (Z * Z) :=
  if blen buf <=? start then err Truncated
  else
    let* b := lift (index buf start) in
    if negb (b =b ":"%byte) then err BadOffset
    else
      let* eol := or_err (wire_find_crlf buf (start + 1)) Truncated in
      let* raw := lift (index_range buf (start + 1) eol) in
      let* signed := or_err (parse_signed_decimal raw) BadOffset in
      if signed <? 0 then err (NegativeOffset signed) else ok (signed, eol + 2).

(** ** Snapshots *)

Definition SNAPSHOT_CHUNK_MAX : Z := 64 * 1024.
Definition SNAPSHOT_LINE_MAX : Z := 256.

Inductive SnapshotMarker := Begin | End (ack_offset : Z) | Ping (tail : FeedPosition).

Definition encode_snapshot_begin : list byte := bs "+SNAPSHOT" ++ CRLF.

Definition encode_snapshot_chunk (bytes : list byte) : exec (list byte) :=
  out ← push_u64 (bs "$") (blen bytes);
  Ret (out ++ CRLF ++ bytes ++ CRLF).

Definition encode_ping (tail : FeedPosition) : exec (list byte) :=
  out ← push_u64 (bs "+PING ") (generation tail);
  out ← push_u64 (out ++ bs " ") (offset tail);
  Ret (out ++ CRLF).

Definition encode_replconf_ack (offset : Z) : exec (list byte) :=
  out ← push_u64 (bs "REPLCONF ACK ") offset;
  Ret (out ++ CRLF).

Definition encode_snapshot_end (ack_offset : Z) : exec (list byte) :=
  out ← push_u64 (bs "+SNAPSHOT_END ") ack_offset;
  Ret (out ++ CRLF).

(** [line.strip_prefix(p)] *)
Definition strip_prefix (p line : list byte) : option (list byte) :=
  if bool_decide (take (length p) line = p) then Some (drop (length p) line) else None.

(** A line with no end yet: too long, or still arriving. *)
Definition unended {A} (buf : list byte) : wres A :=
  if SNAPSHOT_LINE_MAX <? blen buf then err BadEnvelope else err Truncated.

Definition decode_replconf_ack (buf : list byte) : wres (option (Z * Z)) :=
  match buf with
  | [] => err Truncated
  | b :: _ =>
      if negb (b =b "R"%byte) then ok None
      else match wire_find_crlf buf 0 with
      | None => unended buf
      | Some eol =>
          let* line := lift (index_range buf 0 eol) in
          let* rest := or_err (strip_prefix (bs "REPLCONF ACK ") line) BadEnvelope in
          let* offset := or_err (parse_decimal rest) BadEnvelope in
          ok (Some (offset, eol + 2))
      end
  end.

(** [rest.iter().position(|&b| b == b' ')] *)
Definition space_at (rest : list byte) : option nat := fst <$> list_find (fun b => b = " "%byte) rest.

Definition decode_ping (rest : list byte) : wres FeedPosition :=
  match space_at rest with
  | Some sp =>
      let* g := or_err (parse_decimal (take sp rest)) BadEnvelope in
      let* next := or_err (parse_decimal (drop (S sp) rest)) BadEnvelope in
      ok (mkFp g next)
  | None => let* next := or_err (parse_decimal rest) BadEnvelope in ok (mkFp 0 next)
  end.

Definition decode_snapshot_marker (buf : list byte) : wres (option (SnapshotMarker * Z)) :=
  match buf with
  | [] => err Truncated
  | b :: _ =>
      if negb (b =b "+"%byte) then ok None
      else match wire_find_crlf buf 1 with
      | None => unended buf
      | Some eol =>
          if SNAPSHOT_LINE_MAX <? eol then err BadEnvelope
          else
            let* line := lift (index_range buf 1 eol) in
            if bool_decide (line = bs "SNAPSHOT") then ok (Some (Begin, eol + 2))
            else match strip_prefix (bs "SNAPSHOT_END ") line with
            | Some rest => let* offset := or_err (parse_decimal rest) BadEnvelope in ok (Some (End offset, eol + 2))
            | None =>
                match strip_prefix (bs "PING ") line with
                | Some rest => let* p := decode_ping rest in ok (Some (Ping p, eol + 2))
                | None => err BadEnvelope
                end
            end
      end
  end.

Definition decode_snapshot_chunk (buf : list byte) : wres (list byte * Z) :=
  match buf with
  | [] => err Truncated
  | b :: _ =>
      if negb (b =b "$"%byte) then err BadEnvelope
      else
        let* len_eol := or_err (wire_find_crlf buf 1) Truncated in
        let* digits := lift (index_range buf 1 len_eol) in
        let* len := or_err (parse_decimal digits) BadEnvelope in
        if SNAPSHOT_CHUNK_MAX <? len then err BadEnvelope
        else
          let data_start := len_eol + 2 in
          let data_end := data_start + len in
          if blen buf <? data_end + 2 then err Truncated
          else
            let* tail := lift (index_range buf data_end (data_end + 2)) in
            if negb (bool_decide (tail = CRLF)) then err BadEnvelope
            else let* data := lift (index_range buf data_start data_end) in ok (data, data_end + 2)
  end.

Section Decode.
Context `{Scan : CrlfScanner}.

Definition decode_frame (buf : list byte) : wres (DecodedFrame * Z) :=
  let* after_env := parse_envelope_header buf in
  let* (offset, after_offset) := parse_offset_line buf after_env in
  let* inner := lift (index_range buf after_offset (blen buf)) in
  match parse_command_into inner argv_default with
  | (Done n, argv) => ok (mkDf offset argv, after_offset + n)
  | (NeedMore, _) => err Truncated
  | (Malformed e, _) => err (BadPayload e)
  | (Panicked, _) => Panic
  end.
End Decode.

Example wire_check : (let e := match encode_frame 7 [bs "SET"; bs "k"; bs "v"] with Ret b => b | Panic => [] end in
  e = bs "*2" ++ CRLF ++ bs ":7" ++ CRLF ++ bs "*3" ++ CRLF ++ bs "$3" ++ CRLF ++ bs "SET" ++ CRLF ++ bs "$1" ++ CRLF ++ bs "k" ++ CRLF ++ bs "$1" ++ CRLF ++ bs "v" ++ CRLF).
Proof. reflexivity. Qed.

(** ** Numbers read back *)

Lemma push_digits_dec room : forall v acc, 0 <= v < 10 ^ Z.of_nat room -> push_digits room v acc = Ret (dec_acc room v acc).
Proof.
  induction room as [|room IH]; intros v acc Hv; cbn [push_digits dec_acc].
  - change (10 ^ Z.of_nat 0) with 1 in Hv. destruct (Z.eqb_spec v 0) as [|Hn]; [done|lia].
  - destruct (v =? 0); [done|]. apply IH, div10_bound, Hv.
Qed.

Lemma push_u64_ok out n : 0 <= n <= u64_max -> push_u64 out n = Ret (out ++ dec n).
Proof.
  intros H. unfold push_u64, dec. destruct (n =? 0); [done|]. rewrite push_digits_dec; [done|]. change (10 ^ Z.of_nat 20) with 100000000000000000000. unfold u64_max in H. lia.
Qed.

Lemma decimal_loop_val l : forall acc, 0 <= acc -> Forall (fun b => is_ascii_digit b = true) l -> digits_val acc l <= u64_max -> decimal_loop acc l = Some (digits_val acc l).
Proof.
  induction l as [|b l IH]; intros acc Ha Hf Hm; cbn [decimal_loop digits_val] in *; [done|]. apply list.Forall_cons in Hf as [Hb Hf]. rewrite Hb. cbn [negb].
  pose proof (digit_val_range b Hb). pose proof (digits_val_ge l (acc * 10 + (bz b - 48)) ltac:(lia) Hf). unfold checked_u64.
  destruct (Z.leb_spec 0 (acc * 10)), (Z.leb_spec (acc * 10) u64_max); try lia. cbn [andb mbind option_bind].
  destruct (Z.leb_spec 0 (acc * 10 + (bz b - 48))), (Z.leb_spec (acc * 10 + (bz b - 48)) u64_max); try lia. cbn [andb mbind option_bind]. apply IH; [lia|exact Hf|exact Hm].
Qed.

Lemma dec_in_u64 n : 0 <= n <= u64_max -> digits_val 0 (dec n) = n.
Proof. intros H. apply dec_val. change (10 ^ 20) with 100000000000000000000. unfold u64_max in H. lia. Qed.

Lemma parse_decimal_dec n : 0 <= n <= u64_max -> parse_decimal (dec n) = Some n.
Proof.
  intros H. unfold parse_decimal. pose proof (dec_nonempty n ltac:(lia)). destruct (dec n) as [|b l] eqn:E; [done|]. rewrite <- E. rewrite decimal_loop_val; rewrite ?dec_in_u64 by exact H; [done|lia|apply dec_digits; lia|lia].
Qed.

Lemma parse_decimal_nonneg l n : parse_decimal l = Some n -> 0 <= n.
Proof.
  assert (G : forall l acc, 0 <= acc -> decimal_loop acc l = Some n -> 0 <= n).
  { clear l. induction l as [|b l IH]; intros acc Ha; cbn [decimal_loop]; [by intros [= <-]|]. destruct (negb _); [done|]. unfold checked_u64. destruct (_ && _); cbn [mbind option_bind]; [|done].
    destruct (Z.leb_spec 0 (acc * 10 + (bz b - 48))); cbn [andb]; [|done]. destruct (_ <=? _); cbn [mbind option_bind]; [|done]. by apply IH. }
  unfold parse_decimal. destruct l as [|b l]; [done|]. by apply G.
Qed.

Lemma parse_signed_decimal_dec n : 0 <= n <= i64_max -> parse_signed_decimal (dec n) = Some n.
Proof.
  intros H. unfold parse_signed_decimal. pose proof (dec_nonempty n ltac:(lia)). pose proof (dec_digits n ltac:(lia)) as D. destruct (dec n) as [|b l] eqn:E; [done|]. apply list.Forall_cons in D as [Hb _].
  destruct (digit_not_sign b Hb) as (H1 & H2 & _). destruct (byte_eqb_spec b "-"%byte); [done|]. destruct (byte_eqb_spec b "+"%byte); [done|]. rewrite <- E, parse_decimal_dec by (unfold i64_max, u64_max in *; lia). cbn [mbind option_bind].
  destruct (Z.ltb_spec i64_max n); [lia|done].
Qed.

(** ** The scanner of this crate *)

Lemma crlf_loop_ok fuel : forall buf i, 0 <= i -> blen buf - i <= Z.of_nat fuel -> crlf_loop fuel buf i = crlf_from (from buf i) i.
Proof.
  induction fuel as [|fuel IH]; intros buf i Hi Hf; cbn [crlf_loop]; [by rewrite from_ge by lia|]. destruct (Z.ltb_spec (i + 1) (blen buf)) as [Lt|Ge].
  - destruct (get_lt_Some buf i ltac:(lia)) as [a Ea]. destruct (get_lt_Some buf (i + 1) ltac:(lia)) as [b Eb]. rewrite IH, Ea, Eb, (from_cons_get buf i a Hi Ea), (from_cons_get buf (i + 1) b ltac:(lia) Eb) by lia.
    change (crlf_from (a :: b :: from buf (i + 1 + 1)) i) with (if (a =b CR) && (b =b LF) then Some i else crlf_from (b :: from buf (i + 1 + 1)) (i + 1)).
    destruct (byte_eqb_spec a CR) as [->|Na]; [rewrite bool_decide_true by done|rewrite bool_decide_false by congruence; done]. destruct (byte_eqb_spec b LF) as [->|Nb]; [rewrite bool_decide_true by done; done|rewrite bool_decide_false by congruence; done].
  - destruct (Z.ltb_spec i (blen buf)) as [Lt'|Ge']; [|by rewrite from_ge by lia]. destruct (get_lt_Some buf i ltac:(lia)) as [a Ea]. rewrite (from_cons_get buf i a Hi Ea), (from_ge buf (i + 1)) by lia. done.
Qed.

Lemma wire_find_crlf_ok buf s : 0 <= s -> wire_find_crlf buf s = crlf_from (from buf s) s.
Proof. intros H. apply crlf_loop_ok; [exact H|]. unfold blen. lia. Qed.

Definition wire_scanner : CrlfScanner := {| find_crlf := wire_find_crlf; find_crlf_ok := wire_find_crlf_ok |}.

Lemma wire_crlf_le buf s p : 0 <= s -> wire_find_crlf buf s = Some p -> s <= p /\ p + 2 <= blen buf.
Proof. exact (find_crlf_le (Scan := wire_scanner) buf s p). Qed.

Lemma wire_crlf_extend buf more s p : 0 <= s -> wire_find_crlf buf s = Some p -> wire_find_crlf (buf ++ more) s = Some p.
Proof. exact (find_crlf_extend (Scan := wire_scanner) buf more s p). Qed.

Lemma wire_line pre h rest : line_ok h ->
  wire_find_crlf (pre ++ h ++ CRLF ++ rest) (blen pre) = Some (blen pre + blen h) /\ index_range (pre ++ h ++ CRLF ++ rest) (blen pre) (blen pre + blen h) = Ret h.
Proof.
  intros H. split; [exact (find_crlf_line (Scan := wire_scanner) pre h rest H)|]. pose proof (blen_nonneg h). pose proof (blen_nonneg rest). rewrite index_range_ok by (rewrite !blen_app, blen_CRLF; lia).
  unfold slice. replace (blen pre + blen h - blen pre) with (blen h) by lia. fold (from (pre ++ h ++ CRLF ++ rest) (blen pre)). rewrite from_app_len. by rewrite blen_to_nat, take_app_length.
Qed.

Lemma index_range_app {A} (l k : list A) s e : 0 <= s -> s <= e <= blen l -> index_range (l ++ k) s e = index_range l s e.
Proof. intros H1 H2. pose proof (blen_nonneg k). rewrite !index_range_ok by (rewrite ?blen_app; lia). by rewrite slice_app_l by lia. Qed.

Lemma slice_at {A} (pre l rest : list A) s e : s = blen pre -> e = blen pre + blen l -> slice (pre ++ l ++ rest) s e = l.
Proof.
  intros -> ->. rewrite slice_from, from_app_len. replace (blen pre + blen l - blen pre) with (blen l) by lia. by rewrite blen_to_nat, take_app_length.
Qed.

Lemma index_app {A} (l k : list A) i : 0 <= i < blen l -> index (l ++ k) i = index l i.
Proof. intros H. unfold index. by rewrite get_app_l. Qed.

Lemma index_within {A} (l : list A) i : 0 <= i < blen l -> exists x, index l i = Ret x.
Proof. intros H. unfold index. destruct (get_lt_Some l i H) as [x ->]. by eexists. Qed.

(** ** Frames read back *)

Definition frame_bytes (off : Z) (args : list (list byte)) : list byte := bs "*2" ++ CRLF ++ bs ":" ++ dec off ++ CRLF ++ command_bytes args.

Lemma push_arg_ok out a : blen a <= u64_max -> push_arg out a = Ret (out ++ bulk_bytes a).
Proof.
  intros H. pose proof (blen_nonneg a). unfold push_arg, bulk_bytes. rewrite push_u64_ok by lia. cbn [mbind exec_bind]. by rewrite <- !app_assoc.
Qed.

Lemma push_args_ok args : forall out, Forall (fun a => blen a <= u64_max) args -> push_args out args = Ret (out ++ concat (bulk_bytes <$> args)).
Proof.
  induction args as [|a args IH]; intros out H; cbn [push_args fmap list_fmap concat]; [by rewrite app_nil_r|]. apply list.Forall_cons in H as [Ha H]. rewrite push_arg_ok by exact Ha. cbn [mbind exec_bind].
  rewrite IH by exact H. by rewrite <- app_assoc.
Qed.

Lemma encode_frame_ok off args : 0 <= off <= u64_max -> sendable args -> encode_frame off args = Ret (frame_bytes off args).
Proof.
  intros Ho (_ & Hn & Hf). pose proof (blen_nonneg args). unfold encode_frame, frame_bytes, command_bytes, array_header, int_text. rewrite push_u64_ok by exact Ho. cbn [mbind exec_bind].
  rewrite push_u64_ok by (unfold MAX_MULTIBULK_LEN, u64_max in *; lia). cbn [mbind exec_bind]. rewrite push_args_ok by (eapply list.Forall_impl; [exact Hf|]; intros a; unfold MAX_BULK_LEN, u64_max; lia).
  destruct (Z.ltb_spec (blen args) 0); [lia|]. by rewrite <- !app_assoc.
Qed.

(** ** Any bytes, and bytes to come *)

Lemma envelope_total buf : exists r, parse_envelope_header buf = Ret r /\ match r with inl p => 0 < p <= blen buf | inr _ => True end.
Proof.
  unfold parse_envelope_header. destruct (Z.ltb_spec (blen buf) 4) as [|Ge]; [by eexists|]. destruct (index_within buf 0 ltac:(lia)) as [b ->]. nstep. destruct (negb _); [by eexists|].
  destruct (wire_find_crlf buf 1) as [eol|] eqn:E; nstep; [|by eexists]. apply wire_crlf_le in E; [|lia]. rewrite index_range_ok by lia. nstep.
  destruct (parse_decimal _) as [c|]; nstep; [|by eexists]. destruct (negb _); eexists; (split; [reflexivity|]); cbn; [done|lia].
Qed.

Lemma envelope_stable buf more r : parse_envelope_header buf = Ret r -> r <> inr Truncated -> parse_envelope_header (buf ++ more) = Ret r.
Proof.
  pose proof (blen_nonneg more). unfold parse_envelope_header. rewrite blen_app. destruct (Z.ltb_spec (blen buf) 4) as [|Ge]; [by intros [= <-]|]. destruct (Z.ltb_spec (blen buf + blen more) 4) as [|_]; [lia|].
  rewrite index_app by lia. destruct (index buf 0) as [b|]; nstep; [|done]. destruct (negb _); [done|].
  destruct (wire_find_crlf buf 1) as [eol|] eqn:E; nstep; [|by intros [= <-]]. rewrite (wire_crlf_extend buf more 1 eol ltac:(lia) E). nstep. apply wire_crlf_le in E; [|lia]. by rewrite index_range_app by lia.
Qed.

Lemma offset_line_total buf s : 0 <= s -> exists r, parse_offset_line buf s = Ret r /\ match r with inl (o, p) => 0 <= o /\ s < p <= blen buf | inr _ => True end.
Proof.
  intros Hs. unfold parse_offset_line. destruct (Z.leb_spec (blen buf) s) as [|Lt]; [by eexists|]. destruct (index_within buf s ltac:(lia)) as [b ->]. nstep. destruct (negb _); [by eexists|].
  destruct (wire_find_crlf buf (s + 1)) as [eol|] eqn:E; nstep; [|by eexists]. apply wire_crlf_le in E; [|lia]. rewrite index_range_ok by lia. nstep.
  destruct (parse_signed_decimal _) as [c|]; nstep; [|by eexists]. destruct (Z.ltb_spec c 0); eexists; (split; [reflexivity|]); cbn; [done|lia].
Qed.

Lemma offset_line_stable buf more s r : 0 <= s -> parse_offset_line buf s = Ret r -> r <> inr Truncated -> parse_offset_line (buf ++ more) s = Ret r.
Proof.
  intros Hs. pose proof (blen_nonneg more). unfold parse_offset_line. rewrite blen_app. destruct (Z.leb_spec (blen buf) s) as [|Lt]; [by intros [= <-]|]. destruct (Z.leb_spec (blen buf + blen more) s) as [|_]; [lia|].
  rewrite index_app by lia. destruct (index buf s) as [b|]; nstep; [|done]. destruct (negb _); [done|].
  destruct (wire_find_crlf buf (s + 1)) as [eol|] eqn:E; nstep; [|by intros [= <-]]. rewrite (wire_crlf_extend buf more (s + 1) eol ltac:(lia) E). nstep. apply wire_crlf_le in E; [|lia]. by rewrite index_range_app by lia.
Qed.

Lemma chunk_total buf : exists r, decode_snapshot_chunk buf = Ret r /\ match r with inl (_, used) => 0 < used <= blen buf | inr _ => True end.
Proof.
  unfold decode_snapshot_chunk. destruct buf as [|b0 tl]; [by eexists|]. set (buf := b0 :: tl). destruct (negb _); [by eexists|].
  destruct (wire_find_crlf buf 1) as [eol|] eqn:E; nstep; [|by eexists]. apply wire_crlf_le in E; [|lia]. rewrite index_range_ok by lia. nstep. destruct (parse_decimal _) as [len|] eqn:Ep; nstep; [|by eexists].
  destruct (Z.ltb_spec SNAPSHOT_CHUNK_MAX len) as [|Hl]; [by eexists|]. cbv zeta. destruct (Z.ltb_spec (blen buf) (eol + 2 + len + 2)) as [|Hb]; [by eexists|]. assert (0 <= len) by exact (parse_decimal_nonneg _ _ Ep).
  rewrite index_range_ok by lia. nstep. destruct (negb _); [by eexists|]. rewrite index_range_ok by lia. nstep. eexists. split; [reflexivity|]. cbn. lia.
Qed.

Lemma chunk_stable buf more r : decode_snapshot_chunk buf = Ret r -> r <> inr Truncated -> decode_snapshot_chunk (buf ++ more) = Ret r.
Proof.
  pose proof (blen_nonneg more). unfold decode_snapshot_chunk. destruct buf as [|b0 tl]; [by intros [= <-]|]. cbn [app]. change (b0 :: tl ++ more) with ((b0 :: tl) ++ more). set (buf := b0 :: tl). destruct (negb _); [done|].
  destruct (wire_find_crlf buf 1) as [eol|] eqn:E; nstep; [|by intros [= <-]]. rewrite (wire_crlf_extend buf more 1 eol ltac:(lia) E). nstep. apply wire_crlf_le in E; [|lia]. rewrite index_range_app by lia.
  rewrite index_range_ok by lia. nstep. destruct (parse_decimal _) as [len|] eqn:Ep; nstep; [|done]. destruct (Z.ltb_spec SNAPSHOT_CHUNK_MAX len); [done|]. cbv zeta. assert (0 <= len) by exact (parse_decimal_nonneg _ _ Ep). rewrite blen_app.
  destruct (Z.ltb_spec (blen buf) (eol + 2 + len + 2)) as [|Hb]; [by intros [= <-]|]. destruct (Z.ltb_spec (blen buf + blen more) (eol + 2 + len + 2)) as [|_]; [lia|]. by rewrite !index_range_app by lia.
Qed.

Section Frames.
Context `{Scan : CrlfScanner}.

Lemma decode_frame_total buf : exists r, decode_frame buf = Ret r /\ match r with inl (f, used) => 0 <= d_offset f /\ 0 < used <= blen buf | inr _ => True end.
Proof.
  unfold decode_frame. destruct (envelope_total buf) as ([p|e] & -> & Hp); nstep; [|by eexists]. destruct (offset_line_total buf p ltac:(lia)) as ([[o q]|e] & -> & Hq); nstep; [|by eexists]. rewrite index_range_ok by lia. nstep.
  destruct (parse_command_into _ _) as [r a] eqn:E. pose proof (parse_command_into_outcome _ _ _ _ E) as O. destruct r as [n| | |]; try done; eexists; (split; [reflexivity|]); try done. apply command_pos in E. rewrite blen_slice in E by lia. cbn [d_offset]. lia.
Qed.

Lemma slice_to_end {A} (l : list A) s : 0 <= s <= blen l -> slice l s (blen l) = from l s.
Proof. intros H. rewrite slice_from. apply firstn_all2. pose proof (blen_from l s H) as L. unfold blen in *. lia. Qed.

Lemma decode_frame_stable buf more r : decode_frame buf = Ret r -> r <> inr Truncated -> decode_frame (buf ++ more) = Ret r.
Proof.
  pose proof (blen_nonneg more). unfold decode_frame. destruct (envelope_total buf) as (r1 & E1 & Hp). rewrite E1. intros D T. assert (T1 : r1 <> inr Truncated) by (intros ->; revert D; nstep; intros [= <-]; done).
  rewrite (envelope_stable buf more r1 E1 T1). destruct r1 as [p|e]; [|done]. revert D. nstep. destruct (offset_line_total buf p ltac:(lia)) as (r2 & E2 & Hq). rewrite E2. intros D.
  assert (T2 : r2 <> inr Truncated) by (intros ->; revert D; nstep; intros [= <-]; done). rewrite (offset_line_stable buf more p r2 ltac:(lia) E2 T2). destruct r2 as [[o q]|e]; [|done]. revert D. nstep.
  rewrite !index_range_ok by (rewrite ?blen_app; lia). nstep. rewrite !slice_to_end, from_app_l by (rewrite ?blen_app; lia).
  pose proof (parse_command_stable (from buf q) more) as S. unfold parse_command in S.
  destruct (parse_command_into (from buf q) argv_default) as [r3 a] eqn:E3. pose proof (parse_command_into_outcome _ _ _ _ E3) as O. destruct (parse_command_into (from buf q ++ more) argv_default) as [r4 a'] eqn:E4. pose proof (parse_command_into_outcome _ _ _ _ E4) as O'.
  intros D. assert (N : r3 <> NeedMore) by (intros ->; injection D as <-; done). destruct r3 as [n| |e|]; try done; (specialize (S ltac:(done)); destruct r4; try done); simplify_eq S; intros; subst; exact D.
Qed.

Lemma decode_frame_complete off args rest : 0 <= off <= i64_max -> sendable args ->
  decode_frame (frame_bytes off args ++ rest) = ok (mkDf off (argv_from args), blen (frame_bytes off args)).
Proof.
  intros Ho Hs. unfold decode_frame, parse_envelope_header, parse_offset_line. set (tl := command_bytes args ++ rest).
  assert (E1 : frame_bytes off args ++ rest = bs "*" ++ bs "2" ++ CRLF ++ (bs ":" ++ dec off ++ CRLF ++ tl)) by (unfold frame_bytes, tl; by rewrite <- !app_assoc).
  assert (E2 : frame_bytes off args ++ rest = (bs "*2" ++ CRLF ++ bs ":") ++ dec off ++ CRLF ++ tl) by (unfold frame_bytes, tl; by rewrite <- !app_assoc).
  destruct (wire_line (bs "*") (bs "2") (bs ":" ++ dec off ++ CRLF ++ tl) eq_refl) as [F1 I1]. rewrite <- E1 in F1, I1. change (blen (bs "*")) with 1 in F1, I1. change (1 + blen (bs "2")) with 2 in F1, I1.
  destruct (wire_line (bs "*2" ++ CRLF ++ bs ":") (dec off) tl (dec_line_ok off ltac:(lia))) as [F2 I2]. rewrite <- E2 in F2, I2. change (blen (bs "*2" ++ CRLF ++ bs ":")) with 5 in F2, I2.
  pose proof (blen_nonneg (dec off)). pose proof (blen_nonneg tl). assert (L : blen (frame_bytes off args ++ rest) = 5 + blen (dec off) + 2 + blen tl) by (rewrite E2, !blen_app, !blen_CRLF; change (blen (bs "*2")) with 2; change (blen (bs ":")) with 1; lia).
  destruct (Z.ltb_spec (blen (frame_bytes off args ++ rest)) 4) as [C|_]; [lia|]. replace (index (frame_bytes off args ++ rest) 0) with (Ret "*"%byte) by reflexivity. nstep. change ("*"%byte =b "*"%byte) with true. cbn [negb].
  rewrite F1. nstep. rewrite I1. nstep. change (parse_decimal (bs "2")) with (Some 2). nstep. change (negb (2 =? 2)) with false. cbv iota. nstep. change (2 + 2) with 4.
  destruct (Z.leb_spec (blen (frame_bytes off args ++ rest)) 4) as [C|_]; [lia|]. replace (index (frame_bytes off args ++ rest) 4) with (Ret ":"%byte) by reflexivity. nstep. change (":"%byte =b ":"%byte) with true. cbn [negb]. change (4 + 1) with 5.
  rewrite F2. nstep. rewrite I2. nstep. rewrite parse_signed_decimal_dec by exact Ho. nstep. destruct (Z.ltb_spec off 0) as [C|_]; [lia|]. nstep.
  rewrite index_range_ok by lia. nstep.
  assert (Es : slice (frame_bytes off args ++ rest) (5 + blen (dec off) + 2) (blen (frame_bytes off args ++ rest)) = tl).
  { rewrite L, slice_from. replace (5 + blen (dec off) + 2 + blen tl - (5 + blen (dec off) + 2)) with (blen tl) by lia.
    replace (5 + blen (dec off) + 2) with (blen ((bs "*2" ++ CRLF ++ bs ":") ++ dec off ++ CRLF)) by (rewrite !blen_app, !blen_CRLF; change (blen (bs "*2")) with 2; change (blen (bs ":")) with 1; lia).
    replace (frame_bytes off args ++ rest) with (((bs "*2" ++ CRLF ++ bs ":") ++ dec off ++ CRLF) ++ tl) by (rewrite E2; by rewrite <- !app_assoc). rewrite from_app_len, blen_to_nat. apply firstn_all. }
  rewrite Es. pose proof (parse_command_complete (command_bytes args) args rest (sendable_command args Hs)) as P. unfold parse_command in P. fold tl in P.
  destruct (parse_command_into tl argv_default) as [[n| | |] a]; try discriminate P. injection P as -> ->. unfold frame_bytes. do 3 f_equal. rewrite !blen_app, !blen_CRLF. change (blen (bs "*2")) with 2. change (blen (bs ":")) with 1. lia.
Qed.
End Frames.

(** Every strict part of a frame asks for more. *)
Lemma decode_frame_prefix `{Scan : CrlfScanner} off args pre suf : 0 <= off <= i64_max -> sendable args -> pre ++ suf = frame_bytes off args -> suf <> [] -> decode_frame pre = err Truncated.
Proof.
  intros Ho Hs E Hn. destruct (decode_frame_total pre) as (r & D & B). pose proof (decode_frame_complete off args [] Ho Hs) as C. rewrite app_nil_r, <- E in C.
  destruct (decide (r = inr Truncated)) as [->|T]; [exact D|]. rewrite (decode_frame_stable pre suf r D T) in C. injection C as ->. rewrite blen_app in B. destruct suf; [done|]. rewrite blen_cons in B. pose proof (blen_nonneg suf). lia.
Qed.

(** ** Chunks read back *)

Definition chunk_bytes (data : list byte) : list byte := bs "$" ++ dec (blen data) ++ CRLF ++ data ++ CRLF.

Lemma encode_chunk_ok data : blen data <= SNAPSHOT_CHUNK_MAX -> encode_snapshot_chunk data = Ret (chunk_bytes data).
Proof.
  intros H. pose proof (blen_nonneg data). unfold encode_snapshot_chunk, chunk_bytes. rewrite push_u64_ok by (unfold SNAPSHOT_CHUNK_MAX, u64_max in *; lia). cbn [mbind exec_bind]. by rewrite <- !app_assoc.
Qed.

Lemma decode_chunk_complete data rest : blen data <= SNAPSHOT_CHUNK_MAX -> decode_snapshot_chunk (chunk_bytes data ++ rest) = ok (data, blen (chunk_bytes data)).
Proof.
  intros H. pose proof (blen_nonneg data). pose proof (blen_nonneg rest). pose proof (blen_nonneg (dec (blen data))). set (d := dec (blen data)) in *.
  assert (E1 : chunk_bytes data ++ rest = bs "$" ++ d ++ CRLF ++ (data ++ CRLF ++ rest)) by (unfold chunk_bytes; by rewrite <- !app_assoc).
  assert (E2 : chunk_bytes data ++ rest = (bs "$" ++ d ++ CRLF) ++ data ++ (CRLF ++ rest)) by (unfold chunk_bytes; by rewrite <- !app_assoc).
  assert (E3 : chunk_bytes data ++ rest = (bs "$" ++ d ++ CRLF ++ data) ++ CRLF ++ rest) by (unfold chunk_bytes; by rewrite <- !app_assoc).
  assert (L : blen (chunk_bytes data) = 1 + blen d + 2 + blen data + 2) by (unfold chunk_bytes; rewrite !blen_app, !blen_CRLF; change (blen (bs "$")) with 1; fold d; lia).
  destruct (wire_line (bs "$") d (data ++ CRLF ++ rest) (dec_line_ok (blen data) ltac:(lia))) as [F I]. rewrite <- E1 in F, I. change (blen (bs "$")) with 1 in F, I.
  change (decode_snapshot_chunk (chunk_bytes data ++ rest)) with (let* len_eol := or_err (wire_find_crlf (chunk_bytes data ++ rest) 1) Truncated in
        let* digits := lift (index_range (chunk_bytes data ++ rest) 1 len_eol) in let* len := or_err (parse_decimal digits) BadEnvelope in
        if SNAPSHOT_CHUNK_MAX <? len then @err WireError (list byte * Z) BadEnvelope else if blen (chunk_bytes data ++ rest) <? len_eol + 2 + len + 2 then err Truncated else
        let* tail := lift (index_range (chunk_bytes data ++ rest) (len_eol + 2 + len) (len_eol + 2 + len + 2)) in
        if negb (bool_decide (tail = CRLF)) then err BadEnvelope else let* data := lift (index_range (chunk_bytes data ++ rest) (len_eol + 2) (len_eol + 2 + len)) in ok (data, len_eol + 2 + len + 2)).
  rewrite F. nstep. rewrite I. nstep. unfold d. rewrite parse_decimal_dec by (unfold SNAPSHOT_CHUNK_MAX, u64_max in *; lia). fold d. nstep. destruct (Z.ltb_spec SNAPSHOT_CHUNK_MAX (blen data)); [lia|].
  rewrite blen_app, L. destruct (Z.ltb_spec (1 + blen d + 2 + blen data + 2 + blen rest) (1 + blen d + 2 + blen data + 2)); [lia|]. rewrite !index_range_ok by (rewrite blen_app, L; lia). nstep.
  assert (S1 : slice (chunk_bytes data ++ rest) (1 + blen d + 2 + blen data) (1 + blen d + 2 + blen data + 2) = CRLF) by (rewrite E3; apply slice_at; rewrite !blen_app, ?blen_CRLF; change (blen (bs "$")) with 1; lia).
  assert (S2 : slice (chunk_bytes data ++ rest) (1 + blen d + 2) (1 + blen d + 2 + blen data) = data) by (rewrite E2; apply slice_at; rewrite !blen_app, ?blen_CRLF; change (blen (bs "$")) with 1; lia).
  rewrite S1, bool_decide_true by done. cbn [negb]. nstep. by rewrite S2.
Qed.

Lemma decode_chunk_prefix data pre suf : blen data <= SNAPSHOT_CHUNK_MAX -> pre ++ suf = chunk_bytes data -> suf <> [] -> decode_snapshot_chunk pre = err Truncated.
Proof.
  intros Hd E Hn. destruct (chunk_total pre) as (r & D & B). pose proof (decode_chunk_complete data [] Hd) as C. rewrite app_nil_r, <- E in C.
  destruct (decide (r = inr Truncated)) as [->|T]; [exact D|]. rewrite (chunk_stable pre suf r D T) in C. injection C as ->. rewrite blen_app in B. destruct suf; [done|]. rewrite blen_cons in B. pose proof (blen_nonneg suf). lia.
Qed.

(** ** Marker lines read back *)

Definition in_u64 (z : Z) : Prop := 0 <= z <= u64_max.

Definition marker_ok (m : SnapshotMarker) : Prop :=
  match m with Begin => True | End a => in_u64 a | Ping p => in_u64 (generation p) /\ in_u64 (offset p) end.

Definition marker_text (m : SnapshotMarker) : list byte :=
  match m with
  | Begin => bs "SNAPSHOT"
  | End a => bs "SNAPSHOT_END " ++ dec a
  | Ping p => bs "PING " ++ dec (generation p) ++ bs " " ++ dec (offset p)
  end.

Definition marker_bytes (m : SnapshotMarker) : list byte := bs "+" ++ marker_text m ++ CRLF.

Lemma encode_markers_ok m : marker_ok m ->
  match m with Begin => Ret encode_snapshot_begin | End a => encode_snapshot_end a | Ping p => encode_ping p end = Ret (marker_bytes m).
Proof.
  destruct m as [|a|p]; cbn [marker_ok]; intros H; [done| |]; unfold marker_bytes; cbn [marker_text].
  - unfold encode_snapshot_end. rewrite push_u64_ok by exact H. cbn [mbind exec_bind]. by rewrite <- app_assoc.
  - destruct H as [H1 H2]. unfold encode_ping. rewrite push_u64_ok by exact H1. cbn [mbind exec_bind]. rewrite push_u64_ok by exact H2. cbn [mbind exec_bind]. by rewrite <- !app_assoc.
Qed.

Lemma dec_short n : blen (dec n) <= 20.
Proof. unfold dec. destruct (n =? 0); [done|]. pose proof (dec_acc_len 20 n []). unfold blen. cbn [length] in *. lia. Qed.

Lemma marker_line m : marker_ok m -> line_ok (marker_text m) /\ blen (marker_text m) <= 60.
Proof.
  assert (D : forall n, in_u64 n -> Forall (fun b => b <> CR) (dec n)) by (intros n [Hn _]; apply digits_no_cr, dec_digits, Hn).
  destruct m as [|a|p]; cbn [marker_ok marker_text]; intros H; [done| |].
  - split; [apply no_cr_line_ok; apply list.Forall_app; split; [by repeat constructor|by apply D]|]. rewrite blen_app. pose proof (dec_short a). change (blen (bs "SNAPSHOT_END ")) with 13. lia.
  - destruct H as [H1 H2]. split; [apply no_cr_line_ok; rewrite !list.Forall_app; repeat split; try (by apply D); by repeat constructor|]. rewrite !blen_app. pose proof (dec_short (generation p)). pose proof (dec_short (offset p)).
    change (blen (bs "PING ")) with 5. change (blen (bs " ")) with 1. lia.
Qed.

Lemma strip_prefix_app p l : strip_prefix p (p ++ l) = Some l.
Proof. unfold strip_prefix. by rewrite take_app_length, drop_app_length, bool_decide_true by done. Qed.

Lemma space_at_app l k : Forall (fun b => is_ascii_digit b = true) l -> space_at (l ++ bs " " ++ k) = Some (length l).
Proof.
  intros H. unfold space_at. replace (list_find (fun b => b = " "%byte) (l ++ bs " " ++ k)) with (Some (length l, " "%byte)); [done|]. symmetry. apply list_find_Some. split; [by rewrite lookup_app_r, Nat.sub_diag by lia|]. split; [done|].
  intros j y Hj Lt. rewrite lookup_app_l in Hj by exact Lt. rewrite list.Forall_lookup in H. specialize (H j y Hj). intros ->. discriminate H.
Qed.

Lemma decode_ping_ok p : in_u64 (generation p) -> in_u64 (offset p) -> decode_ping (dec (generation p) ++ bs " " ++ dec (offset p)) = ok p.
Proof.
  intros H1 H2. unfold decode_ping. rewrite space_at_app by (apply dec_digits; exact (proj1 H1)). rewrite take_app_length, parse_decimal_dec by exact H1. nstep.
  replace (drop (S (length (dec (generation p)))) (dec (generation p) ++ bs " " ++ dec (offset p))) with (dec (offset p)); [rewrite parse_decimal_dec by exact H2; nstep; by destruct p|].
  replace (S (length (dec (generation p)))) with (length (dec (generation p)) + 1)%nat by lia. by rewrite <- drop_drop, drop_app_length.
Qed.

Lemma decode_marker_complete m rest : marker_ok m -> decode_snapshot_marker (marker_bytes m ++ rest) = ok (Some (m, blen (marker_bytes m))).
Proof.
  intros H. destruct (marker_line m H) as [Lk Sh]. pose proof (blen_nonneg (marker_text m)).
  assert (E : marker_bytes m ++ rest = bs "+" ++ marker_text m ++ CRLF ++ rest) by (unfold marker_bytes; by rewrite <- !app_assoc). assert (L : blen (marker_bytes m) = 1 + blen (marker_text m) + 2) by (unfold marker_bytes; rewrite !blen_app, blen_CRLF; change (blen (bs "+")) with 1; lia).
  destruct (wire_line (bs "+") (marker_text m) rest Lk) as [F I]. rewrite <- E in F, I. change (blen (bs "+")) with 1 in F, I. rewrite L. unfold decode_snapshot_marker.
  destruct (marker_bytes m ++ rest) as [|b tl] eqn:Eb; [discriminate E|]. assert (b = "+"%byte) as -> by (injection E; done). change (negb ("+"%byte =b "+"%byte)) with false. cbv iota. rewrite F. destruct (Z.ltb_spec SNAPSHOT_LINE_MAX (1 + blen (marker_text m))); [unfold SNAPSHOT_LINE_MAX in *; lia|].
  rewrite I. nstep. destruct m as [|a|p]; cbn [marker_text marker_ok] in *; [done| |].
  - rewrite bool_decide_false by (intros C; apply (f_equal length) in C; rewrite length_app in C; cbn in C; lia). rewrite strip_prefix_app, parse_decimal_dec by exact H. nstep. done.
  - rewrite bool_decide_false by discriminate. unfold strip_prefix at 1. rewrite bool_decide_false by discriminate. rewrite strip_prefix_app, decode_ping_ok by apply H. nstep. done.
Qed.

Lemma decode_marker_prefix m pre suf : marker_ok m -> pre ++ suf = marker_bytes m -> suf <> [] -> decode_snapshot_marker pre = err Truncated.
Proof.
  intros H E Hn. destruct (marker_line m H) as [Lk Sh]. unfold decode_snapshot_marker. destruct pre as [|b tl]; [done|]. assert (b = "+"%byte) as -> by (injection E; done). change (negb ("+"%byte =b "+"%byte)) with false. cbv iota.
  assert (Ls : 1 <= blen suf) by (destruct suf; [done|]; rewrite blen_cons; pose proof (blen_nonneg suf); lia). assert (L : blen ("+"%byte :: tl) + blen suf = 1 + blen (marker_text m) + 2) by (rewrite <- blen_app, E; unfold marker_bytes; rewrite !blen_app, blen_CRLF; change (blen (bs "+")) with 1; lia).
  destruct (wire_find_crlf ("+"%byte :: tl) 1) as [q|] eqn:F.
  - pose proof (wire_crlf_le ("+"%byte :: tl) 1 q ltac:(lia) F). apply (wire_crlf_extend _ suf) in F; [|lia]. rewrite E in F. destruct (wire_line (bs "+") (marker_text m) [] Lk) as [G _]. rewrite app_nil_r in G. unfold marker_bytes in F. change (blen (bs "+")) with 1 in G. rewrite G in F. injection F as <-. lia.
  - unfold unended. destruct (Z.ltb_spec SNAPSHOT_LINE_MAX (blen ("+"%byte :: tl))); [unfold SNAPSHOT_LINE_MAX in *; lia|done].
Qed.

Lemma marker_total buf : exists r, decode_snapshot_marker buf = Ret r /\ match r with inl (Some (_, used)) => 0 < used <= blen buf | inl None => forall tl, buf <> "+"%byte :: tl | inr _ => True end.
Proof.
  unfold decode_snapshot_marker. destruct buf as [|b tl]; [by eexists|]. set (buf := b :: tl). destruct (byte_eqb_spec b "+"%byte) as [->|Nb]; cbn [negb]; [|eexists; split; [reflexivity|]; intros ?; unfold buf; congruence].
  destruct (wire_find_crlf buf 1) as [q|] eqn:F; [|unfold unended; destruct (_ <? _); by eexists]. apply wire_crlf_le in F; [|lia]. destruct (SNAPSHOT_LINE_MAX <? q); [by eexists|]. rewrite index_range_ok by lia. nstep.
  destruct (bool_decide _); [eexists; split; [reflexivity|]; cbn; lia|]. destruct (strip_prefix (bs "SNAPSHOT_END ") _) as [r|]; [destruct (parse_decimal r); nstep; eexists; (split; [reflexivity|]); cbn; [lia|done]|].
  destruct (strip_prefix (bs "PING ") _) as [r|]; [|by eexists]. unfold decode_ping. destruct (space_at r) as [sp|].
  - destruct (parse_decimal (take sp r)); nstep; [|by eexists]. destruct (parse_decimal (drop (S sp) r)); nstep; eexists; (split; [reflexivity|]); cbn; [lia|done].
  - destruct (parse_decimal r); nstep; eexists; (split; [reflexivity|]); cbn; [lia|done].
Qed.
