(* ===== verification/Repl.v ===== *)
(** * Replication: the backlog, the feed, the slots and the replica's reader
    ([crates/kevy-replicate/src]: [source.rs], [feed.rs], [slot.rs],
    [replica_decode.rs], [replica_event.rs], [ReplicaClient] of [replica.rs],
    [ReplicaError] of [replica_error.rs])

    A [VecDeque] is the list of its frames; where it is cut in two slices is an
    argument.  A read from the socket is an element of the list of reads to
    come. *)

From Stdlib Require Import ZArith Lia Bool Strings.Byte Strings.String.
From stdpp Require Import base tactics list numbers.
From S2P Require Import Prelude Results FindCrlf Buffers Argv Encode Request ReplWire.

#[local] Open Scope list_scope.
#[local] Open Scope Z_scope.
#[local] Open Scope kevy_scope.

(** ** The backlog *)

Record Frame := mkFrame { f_offset : Z; f_bytes : list byte }.

Inductive FromOffset := TooOld | Future.

Record ReplicationSource := mkSrc { next_offset : Z; bytes_in_buf : Z; max_bytes : Z; fbuf : list Frame }.

Definition source_new (max : Z) : exec ReplicationSource :=
  if 0 <? max then Ret (mkSrc 0 0 max []) else Panic.

Definition set_next_offset (s : ReplicationSource) (next : Z) : exec ReplicationSource :=
  match fbuf s with [] => Ret (mkSrc next (bytes_in_buf s) (max_bytes s) []) | _ => Panic end.

Definition oldest_offset (s : ReplicationSource) : option Z := f_offset <$> head (fbuf s).
Definition newest_offset (s : ReplicationSource) : option Z := f_offset <$> list.last (fbuf s).

(** [self.bytes_in_buf -= dropped.bytes.len()] *)
Definition less_bytes (bytes : Z) (f : Frame) : exec Z :=
  let b := bytes - blen (f_bytes f) in if b <? 0 then Panic else Ret b.

(** The eviction loop of [push_mutation]. *)
Fixpoint evict (need max bytes : Z) (buf : list Frame) : exec (Z * list Frame) :=
  if max <? bytes + need then
    match buf with
    | [] => Ret (bytes, [])
    | f :: buf => bytes ← less_bytes bytes f; evict need max bytes buf
    end
  else Ret (bytes, buf).

Definition push_mutation (s : ReplicationSource) (argv : list (list byte)) : exec (ReplicationSource * Z) :=
  let offset := next_offset s in
  bytes ← encode_frame offset argv;
  '(kept, buf) ← evict (blen bytes) (max_bytes s) (bytes_in_buf s) (fbuf s);
  next ← expect (checked_u64 (offset + 1));
  Ret (mkSrc next (kept + blen bytes) (max_bytes s) (buf ++ [mkFrame offset bytes]), offset).

(** The loop of [drop_up_to]. *)
Fixpoint drop_below (watermark bytes : Z) (buf : list Frame) : exec (Z * list Frame) :=
  match buf with
  | [] => Ret (bytes, [])
  | f :: rest =>
      if watermark <=? f_offset f then Ret (bytes, buf)
      else bytes ← less_bytes bytes f; drop_below watermark bytes rest
  end.

Definition drop_up_to (s : ReplicationSource) (watermark : Z) : exec ReplicationSource :=
  '(bytes, buf) ← drop_below watermark (bytes_in_buf s) (fbuf s);
  Ret (mkSrc (next_offset s) bytes (max_bytes s) buf).

(** [partition_point] of a slice in which the frames below [from] come first. *)
Fixpoint partition_point (from : Z) (l : list Frame) : nat :=
  match l with [] => O | f :: l => if f_offset f <? from then S (partition_point from l) else O end.

(** [frames_from]: the frames its iterator gives out.  The deque's first slice
    has [cut] frames. *)
Definition frames_from (cut : nat) (s : ReplicationSource) (from : Z) : list Frame + FromOffset :=
  if next_offset s <? from then inr Future
  else if from =? next_offset s then inl (drop (length (fbuf s)) (fbuf s))
  else
    match oldest_offset s with
    | None => inr TooOld
    | Some oldest =>
        if from <? oldest then inr TooOld
        else
          let a := take cut (fbuf s) in
          let b := drop cut (fbuf s) in
          let i := partition_point from a in
          let start := if (i <? length a)%nat then i else (length a + partition_point from b)%nat in
          inl (drop start (fbuf s))
    end.

(** ** The feed *)

(** [fresh_generation], on the values its hasher gives in turn. *)
Fixpoint fresh_generation (old : Z) (draws : list Z) : option Z :=
  match draws with
  | [] => None
  | d :: draws =>
      let g := Z.land d (Z.shiftl 1 53 - 1) in
      if negb (g =? 0) && negb (g =? old) then Some g else fresh_generation old draws
  end.

Record FeedSource := mkFeed { feed_generation : Z; source : ReplicationSource }.

Inductive FeedRead := Resync (tail : FeedPosition) | FutureRead.

(** [bump_generation], drawing [g]. *)
Definition bump_generation (f : FeedSource) (g : Z) : exec FeedSource :=
  s ← source_new (max_bytes (source f));
  Ret (mkFeed g s).

Definition tail (f : FeedSource) : FeedPosition := mkFp (feed_generation f) (next_offset (source f)).

Definition feed_read (cut : nat) (f : FeedSource) (at_ : FeedPosition) (max : nat) : list Frame + FeedRead :=
  if negb (generation at_ =? feed_generation f) then inr (Resync (tail f))
  else
    match frames_from cut (source f) (offset at_) with
    | inl frames => inl (take max frames)
    | inr TooOld => inr (Resync (tail f))
    | inr Future => inr FutureRead
    end.

(** ** The slots *)

Record ReplicaSlot := mkSlot { id : list byte; last_seen_ns : Z; acked_offset : Z }.

Definition slot_get (slots : list ReplicaSlot) (i : list byte) : option ReplicaSlot :=
  snd <$> list_find (fun s => id s = i) slots.

(** The first slot of that id, changed in place. *)
Fixpoint touch (slots : list ReplicaSlot) (i : list byte) (f : ReplicaSlot -> ReplicaSlot) : option (list ReplicaSlot) :=
  match slots with
  | [] => None
  | s :: slots => if bool_decide (id s = i) then Some (f s :: slots) else cons s <$> touch slots i f
  end.

Definition touch_or_insert_unacked (slots : list ReplicaSlot) (i : list byte) (now : Z) : list ReplicaSlot :=
  match touch slots i (fun s => mkSlot (id s) now (acked_offset s)) with
  | Some slots => slots
  | None => slots ++ [mkSlot i now 0]
  end.

Definition insert_or_touch (slots : list ReplicaSlot) (i : list byte) (acked now : Z) : list ReplicaSlot :=
  match touch slots i (fun s => mkSlot (id s) now (if acked_offset s <? acked then acked else acked_offset s)) with
  | Some slots => slots
  | None => slots ++ [mkSlot i now acked]
  end.

(** [swap_remove(pos)] of a position in range. *)
Definition swap_remove {A} (l : list A) (pos : nat) : list A :=
  match list.last l with
  | None => l
  | Some x => let l' := take (length l - 1) l in if (pos <? length l')%nat then <[pos := x]> l' else l'
  end.

Definition slot_remove (slots : list ReplicaSlot) (i : list byte) : list ReplicaSlot * bool :=
  match list_find (fun s => id s = i) slots with
  | Some (pos, _) => (swap_remove slots pos, true)
  | None => (slots, false)
  end.

(** The backward walk of [expire] over the first [n] slots. *)
Fixpoint expire_loop (n : nat) (slots : list ReplicaSlot) (now window : Z) (dropped : list (list byte)) : list ReplicaSlot * list (list byte) :=
  match n with
  | O => (slots, dropped)
  | S n =>
      match slots !! n with
      | None => (slots, dropped)
      | Some s =>
          if Z.min u64_max (last_seen_ns s + window) <=? now then expire_loop n (swap_remove slots n) now window (dropped ++ [id s])
          else expire_loop n slots now window dropped
      end
  end.

Definition expire (slots : list ReplicaSlot) (now window : Z) : list ReplicaSlot * list (list byte) :=
  expire_loop (length slots) slots now window [].

Definition min_acked_offset (slots : list ReplicaSlot) : option Z :=
  match slots with [] => None | s :: slots => Some (fold_left (fun m s => Z.min m (acked_offset s)) slots (acked_offset s)) end.

(** ** The replica's reader *)

Inductive ReplicaEvent := EvFrame (f : DecodedFrame) | EvPing (tail : FeedPosition) | EvSnapshotBegin | EvSnapshotChunk (bytes : list byte) | EvSnapshotEnd (ack_offset : Z).

Inductive ReplicaError := ErrTruncated | ErrIo | ErrFrame (e : WireError) | ErrOffsetGap (expected got : Z) | ErrUnexpectedInSnapshot.

Record ReplicaClient := mkCl { cbuf : list byte; cursor : Z; expected_offset : Z; in_snapshot : bool }.

Definition maybe_compact_buf (c : ReplicaClient) : ReplicaClient :=
  if 4 * 1024 <=? cursor c then mkCl (from (cbuf c) (cursor c)) 0 (expected_offset c) (in_snapshot c) else c.

(** [self.cursor += used; self.maybe_compact_buf()] *)
Definition consume (c : ReplicaClient) (used : Z) : ReplicaClient :=
  maybe_compact_buf (mkCl (cbuf c) (cursor c + used) (expected_offset c) (in_snapshot c)).

Definition step : Type := exec (ReplicaClient * option (ReplicaEvent + ReplicaError)).

(** What the end of the buffer asks for, and what a peer's violation gives. *)
Definition wire_failed (c : ReplicaClient) (e : WireError) : step :=
  match e with Truncated => Ret (c, None) | e => Ret (c, Some (inr (ErrFrame e))) end.

Section Reader.
Context `{Scan : CrlfScanner}.

Definition try_decode_live_frame (c : ReplicaClient) : step :=
  b ← index_range (cbuf c) (cursor c) (blen (cbuf c));
  r ← decode_frame b;
  match r with
  | inr e => wire_failed c e
  | inl (frame, used) =>
      let c := consume c used in
      if negb (d_offset frame =? expected_offset c) then Ret (c, Some (inr (ErrOffsetGap (expected_offset c) (d_offset frame))))
      else Ret (mkCl (cbuf c) (cursor c) (Z.min u64_max (expected_offset c + 1)) (in_snapshot c), Some (inl (EvFrame frame)))
  end.

Definition try_decode_snapshot_marker (c : ReplicaClient) : step :=
  b ← index_range (cbuf c) (cursor c) (blen (cbuf c));
  r ← decode_snapshot_marker b;
  match r with
  | inr e => wire_failed c e
  | inl None => Ret (c, Some (inr (ErrFrame BadEnvelope)))
  | inl (Some (Begin, used)) =>
      let c := consume c used in Ret (mkCl (cbuf c) (cursor c) (expected_offset c) true, Some (inl EvSnapshotBegin))
  | inl (Some (Ping tail, used)) => Ret (consume c used, Some (inl (EvPing tail)))
  | inl (Some (End ack, used)) =>
      let c := consume c used in Ret (mkCl (cbuf c) (cursor c) ack false, Some (inl (EvSnapshotEnd ack)))
  end.

Definition try_decode_snapshot_chunk (c : ReplicaClient) : step :=
  b ← index_range (cbuf c) (cursor c) (blen (cbuf c));
  r ← decode_snapshot_chunk b;
  match r with
  | inr e => wire_failed c e
  | inl (chunk, used) => Ret (consume c used, Some (inl (EvSnapshotChunk chunk)))
  end.

Definition try_decode_one_event (c : ReplicaClient) : step :=
  if blen (cbuf c) <=? cursor c then Ret (c, None)
  else
    first ← index (cbuf c) (cursor c);
    if first =b "+"%byte then try_decode_snapshot_marker c
    else if (first =b "$"%byte) && in_snapshot c then try_decode_snapshot_chunk c
    else if (first =b "*"%byte) && in_snapshot c then Ret (c, Some (inr ErrUnexpectedInSnapshot))
    else if first =b "*"%byte then try_decode_live_frame c
    else Ret (c, Some (inr (ErrFrame BadEnvelope))).

(** A read of the socket; the peer has closed when none is left, or on none of
    its bytes. *)
Inductive Read := Got (bytes : list byte) | Interrupted | Failed.

Definition at_eof (c : ReplicaClient) : option (ReplicaEvent + ReplicaError) :=
  if cursor c <? blen (cbuf c) then Some (inr ErrTruncated) else None.

Fixpoint next_event (c : ReplicaClient) (reads : list Read) : exec (ReplicaClient * list Read * option (ReplicaEvent + ReplicaError)) :=
  '(c, r) ← try_decode_one_event c;
  match r with
  | Some r => Ret (c, reads, Some r)
  | None =>
      match reads with
      | [] => Ret (c, [], at_eof c)
      | Got [] :: reads => Ret (c, reads, at_eof c)
      | Got b :: reads => next_event (mkCl (cbuf c ++ b) (cursor c) (expected_offset c) (in_snapshot c)) reads
      | Interrupted :: reads => next_event c reads
      | Failed :: reads => Ret (c, reads, Some (inr ErrIo))
      end
  end.

(** A caller that takes events until the stream ends or fails. *)
Fixpoint events (fuel : nat) (c : ReplicaClient) (reads : list Read) : exec (ReplicaClient * list (ReplicaEvent + ReplicaError)) :=
  match fuel with
  | O => Panic
  | S fuel =>
      '(c, reads, r) ← next_event c reads;
      match r with
      | None => Ret (c, [])
      | Some (inr e) => Ret (c, [inr e])
      | Some (inl e) => '(c, l) ← events fuel c reads; Ret (c, inl e :: l)
      end
  end.
End Reader.
