(* ===== verification/ReplPump.v ===== *)
(** * The primary's side of a replica link ([crates/kevy-rt/src]:
    [replication_pump.rs], [ReplicaState] and [ReplicaConn] of
    [replication.rs], [replica_writable] of [replication_io.rs],
    [tick_replication_watermark] of [shard_tick.rs], [repl_ack_count] of
    [exec_replwait.rs])

    One shard's feed, and the connections it streams to.  Whether a heartbeat is
    due, what the serializer's channel holds and how much the socket takes are
    arguments; a link without encryption has nothing sealed. *)

From Stdlib Require Import ZArith Lia Bool Strings.Byte Strings.String.
From stdpp Require Import base tactics list numbers.
From S2P Require Import Prelude Results FindCrlf Buffers Argv Encode Request ReplWire Repl.

#[local] Open Scope list_scope.
#[local] Open Scope Z_scope.

Definition PUMP_BYTE_BUDGET_PER_ITER : Z := 256 * 1024.
Definition STREAMING_OUTPUT_CAP : Z := 4 * 1024 * 1024.

Inductive ReplicaState :=
| HandshakePending
| AckSent (replica_id : list byte) (from_offset generation : Z)
| Streaming (replica_id : list byte) (sent_offset generation : Z)
| SnapshotShipping (replica_id : list byte) (ack_offset generation : Z) (serializing : bool) (snapshot_buf : list byte) (snapshot_off : Z)
| Closed (replica_id : option (list byte)).

Record ReplicaConn := mkConn { input : list byte; output : list byte; write_off : Z; state : ReplicaState }.

Definition set_state (c : ReplicaConn) (s : ReplicaState) : ReplicaConn := mkConn (input c) (output c) (write_off c) s.
Definition append (c : ReplicaConn) (b : list byte) : ReplicaConn := mkConn (input c) (output c ++ b) (write_off c) (state c).

Definition replica_conn_id (c : ReplicaConn) : option (list byte) :=
  match state c with
  | AckSent i _ _ | Streaming i _ _ | SnapshotShipping i _ _ _ _ _ => Some i
  | _ => None
  end.

Definition close (c : ReplicaConn) : ReplicaConn :=
  match state c with
  | Closed _ => c
  | _ => set_state c (Closed (replica_conn_id c))
  end.

Definition pending_out (c : ReplicaConn) : Z := blen (output c) - write_off c.

Definition drained (c : ReplicaConn) : ReplicaConn :=
  mkConn (input c) [] 0 (match state c with AckSent i o g => Streaming i o g | s => s end).

(** What one call to [write] gives. *)
Inductive Write := Wrote (n : Z) | WouldBlock | Retry | Broken.

(** [replica_writable], with the writes in the order they happen; [false] is the
    error that ends the link, and a socket asked again when none is left blocks. *)
Fixpoint replica_writable (c : ReplicaConn) (writes : list Write) : ReplicaConn * bool :=
  if blen (output c) <=? write_off c then (drained c, true)
  else match writes with
  | [] | WouldBlock :: _ => (c, true)
  | Wrote n :: writes => if n =? 0 then (close c, true) else replica_writable (mkConn (input c) (output c) (write_off c + n) (state c)) writes
  | Retry :: writes => replica_writable c writes
  | Broken :: _ => (c, false)
  end.

(** ** Filling a link *)

Definition start_snapshot_ship (c : ReplicaConn) (generation ack_offset : Z) : ReplicaConn :=
  match state c with
  | Streaming i _ _ => set_state (append c encode_snapshot_begin) (SnapshotShipping i ack_offset generation true [] 0)
  | _ => c
  end.

(** The loop over the frames: the bytes taken, and the offset after them. *)
Fixpoint take_frames (pending bytes sent : Z) (frames : list Frame) : list byte * Z :=
  match frames with
  | [] => ([], sent)
  | f :: frames =>
      if (PUMP_BYTE_BUDGET_PER_ITER <? bytes + blen (f_bytes f)) || (STREAMING_OUTPUT_CAP <? pending + bytes + blen (f_bytes f)) then ([], sent)
      else let '(b, s) := take_frames pending (bytes + blen (f_bytes f)) (f_offset f + 1) frames in (f_bytes f ++ b, s)
  end.

Definition fill_streaming_output (cut : nat) (f : FeedSource) (c : ReplicaConn) : ReplicaConn :=
  match state c with
  | Streaming i sent_offset g =>
      let feed_gen := feed_generation f in
      let primary_next := next_offset (source f) in
      if negb (g =? feed_gen) then start_snapshot_ship c feed_gen primary_next
      else if sent_offset =? primary_next then c
      else if STREAMING_OUTPUT_CAP / 2 <=? pending_out c then c
      else
        match frames_from cut (source f) sent_offset with
        | inr _ => start_snapshot_ship c feed_gen primary_next
        | inl frames =>
            let '(b, new_sent) := take_frames (pending_out c) 0 sent_offset frames in
            match b with [] => c | _ => set_state (append c b) (Streaming i new_sent g) end
        end
  | _ => c
  end.

Definition maybe_append_heartbeat (due : bool) (f : FeedSource) (c : ReplicaConn) : exec ReplicaConn :=
  if due then p ← encode_ping (tail f); Ret (append c p) else Ret c.

(** What [try_recv] finds. *)
Inductive Recv := Arrived (bytes : list byte) | Empty | Disconnected.

(** A chunk, or the end marker. *)
Definition ship_on (c : ReplicaConn) (i : list byte) (ack g : Z) (buf : list byte) (off : Z) : exec ReplicaConn :=
  remaining ← index_range buf off (blen buf);
  match remaining with
  | [] => e ← encode_snapshot_end ack; Ret (set_state (append c e) (Streaming i ack g))
  | _ =>
      let n := Z.min (blen remaining) SNAPSHOT_CHUNK_MAX in
      e ← encode_snapshot_chunk (take (Z.to_nat n) remaining);
      Ret (set_state (append c e) (SnapshotShipping i ack g false buf (off + n)))
  end.

Definition pump_snapshot_chunks (recv : Recv) (c : ReplicaConn) : exec ReplicaConn :=
  if STREAMING_OUTPUT_CAP / 2 <=? pending_out c then Ret c
  else
    match state c with
    | SnapshotShipping i ack g true buf off =>
        match recv with
        | Arrived b => ship_on c i ack g b off
        | Empty => Ret c
        | Disconnected => Ret (close c)
        end
    | SnapshotShipping i ack g false buf off => ship_on c i ack g buf off
    | _ => Ret c
    end.

(** One link's turn in [pump_replication]. *)
Definition pump_one (cut : nat) (due : bool) (recv : Recv) (f : FeedSource) (c : ReplicaConn) : exec ReplicaConn :=
  match state c with
  | Streaming _ _ _ => maybe_append_heartbeat due f (fill_streaming_output cut f c)
  | SnapshotShipping _ _ _ _ _ _ => pump_snapshot_chunks recv c
  | _ => Ret c
  end.

(** One link's turn in [drain_streaming_outputs]. *)
Definition drain_one (writes : list Write) (c : ReplicaConn) : ReplicaConn :=
  match replica_conn_id c with
  | None => c
  | Some _ =>
      if pending_out c =? 0 then c
      else
        let '(c, fine) := replica_writable c writes in
        if negb fine then close c
        else
          match state c with
          | Streaming _ _ _ => if STREAMING_OUTPUT_CAP <=? pending_out c then close c else c
          | _ => c
          end
  end.

(** ** Acknowledgements *)

(** The loop of [parse_replica_acks]: the bytes consumed, and the last offset. *)
Fixpoint ack_loop (fuel : nat) (inp : list byte) (consumed : Z) (latest : option Z) : exec (Z * option Z) :=
  let rest := from inp consumed in
  match rest with
  | [] => Ret (consumed, latest)
  | _ =>
      match fuel with
      | O => Panic
      | S fuel =>
          r ← decode_replconf_ack rest;
          match r with
          | inl (Some (o, used)) => ack_loop fuel inp (consumed + used) (Some o)
          | inl None | inr BadEnvelope =>
              match wire_find_crlf rest 0 with
              | Some p => ack_loop fuel inp (consumed + p + 2) latest
              | None => Ret (consumed, latest)
              end
          | inr _ => Ret (consumed, latest)
          end
      end
  end.

Definition parse_replica_acks (now : Z) (c : ReplicaConn) (slots : list ReplicaSlot) : exec (ReplicaConn * list ReplicaSlot) :=
  '(consumed, latest) ← ack_loop (length (input c)) (input c) 0 None;
  let c := mkConn (from (input c) consumed) (output c) (write_off c) (state c) in
  Ret (c, match latest, state c with Some o, Streaming i _ _ => insert_or_touch slots i o now | _, _ => slots end).

(** [repl_ack_count]: the slots that reached the offset, of links that are live. *)
Definition replica_conn_is_live (conns : list ReplicaConn) (i : list byte) : bool :=
  existsb (fun c => bool_decide (replica_conn_id c = Some i)) conns.

Definition repl_ack_count (slots : list ReplicaSlot) (conns : list ReplicaConn) (target : Z) : Z :=
  blen (filter (fun s => (target <=? acked_offset s) && replica_conn_is_live conns (id s) = true) slots).

(** ** The retention floor *)

Definition live_offset (c : ReplicaConn) : option Z :=
  match state c with
  | AckSent _ o _ | Streaming _ o _ | SnapshotShipping _ o _ _ _ _ => Some o
  | _ => None
  end.

Definition min_with (w : option Z) (o : Z) : option Z := Some (match w with Some w => Z.min w o | None => o end).

Definition watermark (conns : list ReplicaConn) (slots : list ReplicaSlot) : option Z :=
  let w := fold_left (fun w c => match live_offset c with Some o => min_with w o | None => w end) conns None in
  match min_acked_offset slots with Some o => min_with w o | None => w end.

Definition tick_replication_watermark (f : FeedSource) (conns : list ReplicaConn) (slots : list ReplicaSlot) : exec FeedSource :=
  match watermark conns slots with
  | Some w => s ← drop_up_to (source f) w; Ret (mkFeed (feed_generation f) s)
  | None => Ret f
  end.
