(* ===== verification/ReplSpec.v ===== *)
(** * Replication: what reaches a replica

    The backlog serves its history or says it cannot; a replica reads what was
    sent however the bytes are cut; a link carries the primary's history. *)

From Stdlib Require Import ZArith Lia Bool Strings.Byte Strings.String.
From stdpp Require Import base tactics list numbers relations.
From S2P Require Import Prelude Results FindCrlf Buffers Argv Encode Request ReplWire Repl ReplPump.

#[local] Open Scope list_scope.
#[local] Open Scope Z_scope.

Abbreviation Cmd := (list (list byte)).

(** ** The backlog is the end of its history *)

(** The frames of commands, the first at an offset. *)
Fixpoint frames_at (o : Z) (cmds : list Cmd) : list Frame :=
  match cmds with [] => [] | c :: cmds => mkFrame o (frame_bytes o c) :: frames_at (o + 1) cmds end.

Definition sum_bytes (l : list Frame) : Z := fold_right (fun f z => blen (f_bytes f) + z) 0 l.

Lemma frames_at_length cmds : forall o, length (frames_at o cmds) = length cmds.
Proof. induction cmds as [|c cmds IH]; intros o; cbn; [done|by rewrite IH]. Qed.

Lemma frames_at_drop n : forall o cmds, drop n (frames_at o cmds) = frames_at (o + Z.of_nat n) (drop n cmds).
Proof.
  induction n as [|n IH]; intros o cmds; [by rewrite Z.add_0_r|]. destruct cmds as [|c cmds]; [done|]. cbn [frames_at drop]. rewrite IH. f_equal. lia.
Qed.

Lemma frames_at_app a : forall o b, frames_at o (a ++ b) = frames_at o a ++ frames_at (o + Z.of_nat (length a)) b.
Proof. induction a as [|c a IH]; intros o b; cbn [frames_at app length]; [by rewrite Z.add_0_r|]. rewrite IH. do 3 f_equal. lia. Qed.

Lemma frames_at_take n : forall o cmds, take n (frames_at o cmds) = frames_at o (take n cmds).
Proof. induction n as [|n IH]; intros o [|c cmds]; cbn [frames_at take]; try done. by rewrite IH. Qed.

Lemma frames_at_lookup i : forall o cmds x, cmds !! i = Some x -> frames_at o cmds !! i = Some (mkFrame (o + Z.of_nat i) (frame_bytes (o + Z.of_nat i) x)).
Proof.
  induction i as [|i IH]; intros o [|c cmds] x; cbn [frames_at lookup list_lookup]; try done; [intros [= ->]; by rewrite Z.add_0_r|]. intros E. rewrite (IH _ _ _ E). do 2 f_equal; [|f_equal]; lia.
Qed.

Lemma sum_bytes_nonneg l : 0 <= sum_bytes l.
Proof. induction l as [|f l IH]; cbn; [lia|]. pose proof (blen_nonneg (f_bytes f)). unfold sum_bytes in IH. lia. Qed.

Lemma sum_bytes_app a b : sum_bytes (a ++ b) = sum_bytes a + sum_bytes b.
Proof. induction a as [|f a IH]; cbn; [done|]. unfold sum_bytes in *. lia. Qed.

(** The source has numbered [hist] from [b] on and keeps its end. *)
Record stands_for (b : Z) (hist : list Cmd) (s : ReplicationSource) : Prop := {
  sf_next : next_offset s = b + Z.of_nat (length hist);
  sf_range : 0 <= b /\ next_offset s <= u64_max;
  sf_buf : exists k, (k <= length hist)%nat /\ fbuf s = frames_at (b + Z.of_nat k) (drop k hist);
  sf_bytes : bytes_in_buf s = sum_bytes (fbuf s);
  sf_budget : 0 < max_bytes s /\ (bytes_in_buf s <= max_bytes s \/ (length (fbuf s) <= 1)%nat)
}.

(** The first offset it can serve. *)
Definition floor (s : ReplicationSource) : Z := next_offset s - Z.of_nat (length (fbuf s)).

Lemma evict_ok need max : forall buf bytes, bytes = sum_bytes buf ->
  exists j, evict need max bytes buf = Ret (sum_bytes (drop j buf), drop j buf) /\ (j <= length buf)%nat /\ (sum_bytes (drop j buf) + need <= max \/ drop j buf = []).
Proof.
  induction buf as [|f buf IH]; intros bytes ->; cbn [evict].
  - exists O. split; [by destruct (_ <? _)|]. split; [cbn; lia|by right].
  - destruct (Z.ltb_spec max (sum_bytes (f :: buf) + need)) as [Lt|Ge]; [|exists O; split; [done|]; split; [lia|by left]].
    unfold less_bytes. cbn [sum_bytes fold_right]. fold (sum_bytes buf). replace (blen (f_bytes f) + sum_bytes buf - blen (f_bytes f)) with (sum_bytes buf) by lia. pose proof (sum_bytes_nonneg buf).
    destruct (Z.ltb_spec (sum_bytes buf) 0); [lia|]. cbn [mbind exec_bind]. destruct (IH (sum_bytes buf) eq_refl) as (j & -> & Lj & Bj). exists (S j). cbn [drop length]. split; [done|]. split; [lia|exact Bj].
Qed.

Lemma drop_below_ok w : forall buf bytes, bytes = sum_bytes buf ->
  exists j, drop_below w bytes buf = Ret (sum_bytes (drop j buf), drop j buf) /\ (j <= length buf)%nat /\ Forall (fun f => f_offset f < w) (take j buf).
Proof.
  induction buf as [|f buf IH]; intros bytes ->; cbn [drop_below]; [exists O; split; [done|]; split; [lia|constructor]|]. destruct (Z.leb_spec w (f_offset f)) as [Le|Gt]; [exists O; split; [done|]; split; [lia|constructor]|].
  unfold less_bytes. cbn [sum_bytes fold_right]. fold (sum_bytes buf). replace (blen (f_bytes f) + sum_bytes buf - blen (f_bytes f)) with (sum_bytes buf) by lia. pose proof (sum_bytes_nonneg buf).
  destruct (Z.ltb_spec (sum_bytes buf) 0); [lia|]. cbn [mbind exec_bind]. destruct (IH (sum_bytes buf) eq_refl) as (j & -> & Lj & Bj). exists (S j). cbn [drop length take]. split; [done|]. split; [lia|by constructor].
Qed.

Lemma push_mutation_ok b hist s c : stands_for b hist s -> sendable c -> next_offset s < u64_max ->
  exists s', push_mutation s c = Ret (s', next_offset s) /\ stands_for b (hist ++ [c]) s' /\ (floor s <= floor s')%Z.
Proof.
  intros [Hn Hr (k & Hk & Eb) Ey [Hm Hb]] Sc Lt. unfold push_mutation. rewrite encode_frame_ok by (try exact Sc; lia). cbn [mbind exec_bind]. set (fb := frame_bytes (next_offset s) c).
  destruct (evict_ok (blen fb) (max_bytes s) (fbuf s) (bytes_in_buf s) Ey) as (j & -> & Lj & Bj). cbn [mbind exec_bind]. unfold checked_u64. destruct (Z.leb_spec 0 (next_offset s + 1)), (Z.leb_spec (next_offset s + 1) u64_max); try lia. cbn [andb expect mbind exec_bind].
  eexists. split; [reflexivity|]. assert (Lb : length (fbuf s) = (length hist - k)%nat) by (rewrite Eb, frames_at_length, length_drop; done). split.
  - constructor; cbn [next_offset bytes_in_buf max_bytes fbuf].
    + rewrite length_app. cbn [length]. lia.
    + lia.
    + exists (k + j)%nat. rewrite length_app. cbn [length]. split; [lia|]. rewrite drop_app_le by lia. rewrite frames_at_app, Eb, frames_at_drop, drop_drop. f_equal; [f_equal; lia|]. cbn [frames_at]. unfold fb. rewrite length_drop.
      replace (b + Z.of_nat (k + j) + Z.of_nat (length hist - (k + j))) with (next_offset s) by lia. done.
    + rewrite sum_bytes_app. cbn [sum_bytes fold_right f_bytes]. lia.
    + split; [exact Hm|]. destruct Bj as [Bj|Bj]; [left; exact Bj|right]. rewrite Bj. cbn. lia.
  - unfold floor. cbn [next_offset fbuf]. rewrite length_app, length_drop. cbn [length]. lia.
Qed.

Lemma drop_up_to_ok b hist s w : stands_for b hist s ->
  exists s', drop_up_to s w = Ret s' /\ stands_for b hist s' /\ next_offset s' = next_offset s /\ floor s <= floor s' /\ (floor s' <= Z.max w (floor s)).
Proof.
  intros [Hn Hr (k & Hk & Eb) Ey [Hm Hb]]. unfold drop_up_to. destruct (drop_below_ok w (fbuf s) (bytes_in_buf s) Ey) as (j & -> & Lj & Fj). cbn [mbind exec_bind]. eexists. split; [reflexivity|].
  assert (Lb : length (fbuf s) = (length hist - k)%nat) by (rewrite Eb, frames_at_length, length_drop; done). split; [|split; [done|]].
  - constructor; cbn [next_offset bytes_in_buf max_bytes fbuf]; [done|done| |done|].
    + exists (k + j)%nat. split; [lia|]. rewrite Eb, frames_at_drop, drop_drop. f_equal. lia.
    + split; [exact Hm|]. rewrite length_drop. assert (Sb : sum_bytes (drop j (fbuf s)) <= sum_bytes (fbuf s)) by (rewrite <- (take_drop j (fbuf s)) at 2; rewrite sum_bytes_app; pose proof (sum_bytes_nonneg (take j (fbuf s))); lia).
      destruct Hb as [Hb|Hb]; [left; lia|right; lia].
  - unfold floor. cbn [next_offset fbuf]. rewrite length_drop. split; [lia|]. destruct j as [|j]; [lia|]. rewrite Eb, frames_at_take in Fj.
    assert (Hl : is_Some (take (S j) (drop k hist) !! j)) by (apply lookup_lt_is_Some; rewrite length_take, length_drop; lia). destruct Hl as [x Ex]. assert (G : frames_at (b + Z.of_nat k) (take (S j) (drop k hist)) !! j = Some (mkFrame (b + Z.of_nat k + Z.of_nat j) (frame_bytes (b + Z.of_nat k + Z.of_nat j) x))) by by apply frames_at_lookup.
    rewrite list.Forall_lookup in Fj. specialize (Fj j _ G). cbn [f_offset] in Fj. lia.
Qed.

Lemma partition_point_at from cmds : forall o, o <= from -> partition_point from (frames_at o cmds) = Nat.min (Z.to_nat (from - o)) (length cmds).
Proof.
  induction cmds as [|c cmds IH]; intros o Ho; cbn [frames_at partition_point length f_offset]; [lia|]. destruct (Z.ltb_spec o from) as [Lt|Ge]; [rewrite IH by lia; lia|]. replace (from - o) with 0 by lia. done.
Qed.

(** What a reader at an offset gets. *)
Lemma frames_from_ok b hist s cut from : stands_for b hist s ->
  frames_from cut s from =
    if next_offset s <? from then inr Future else if from <? floor s then inr TooOld else inl (frames_at from (drop (Z.to_nat (from - b)) hist)).
Proof.
  intros [Hn Hr (k & Hk & Eb) _ _]. unfold frames_from, floor. assert (Lb : length (fbuf s) = (length hist - k)%nat) by (rewrite Eb, frames_at_length, length_drop; done). destruct (Z.ltb_spec (next_offset s) from) as [|Le]; [done|].
  destruct (Z.eqb_spec from (next_offset s)) as [->|Ne].
  - destruct (Z.ltb_spec (next_offset s) (next_offset s - Z.of_nat (length (fbuf s)))); [lia|]. rewrite drop_all. rewrite drop_ge by lia. done.
  - unfold oldest_offset. rewrite Lb. destruct (drop k hist) as [|c tl] eqn:Ed.
    + rewrite Eb. cbn [frames_at head fmap option_fmap option_map]. apply (f_equal length) in Ed. rewrite length_drop in Ed. cbn in Ed. destruct (Z.ltb_spec from (next_offset s - Z.of_nat (length hist - k))); [done|lia].
    + rewrite Eb. cbn [frames_at head fmap option_fmap option_map f_offset]. change (mkFrame (b + Z.of_nat k) (frame_bytes (b + Z.of_nat k) c) :: frames_at (b + Z.of_nat k + 1) tl) with (frames_at (b + Z.of_nat k) (c :: tl)). rewrite <- Ed.
      replace (next_offset s - Z.of_nat (length hist - k)) with (b + Z.of_nat k) by lia. destruct (Z.ltb_spec from (b + Z.of_nat k)) as [|Ge]; [done|]. cbv zeta. set (o := b + Z.of_nat k) in *. set (l := drop k hist) in *.
      assert (Ll : length l = (length hist - k)%nat) by (unfold l; by rewrite length_drop). rewrite frames_at_take, (frames_at_drop cut), frames_at_length, (partition_point_at from (take cut l) o Ge), length_take.
      set (start := if (Nat.min (Z.to_nat (from - o)) (Nat.min cut (length l)) <? Nat.min cut (length l))%nat then _ else _).
      assert (Es : start = Z.to_nat (from - o)).
      { unfold start. destruct (Nat.ltb_spec (Nat.min (Z.to_nat (from - o)) (Nat.min cut (length l))) (Nat.min cut (length l))) as [L1|L1]; [lia|].
        destruct (Nat.le_gt_cases (length l) cut) as [Big|Small]; [lia|]. rewrite partition_point_at, length_drop by lia. lia. }
      rewrite Es. f_equal. rewrite frames_at_drop. unfold l. rewrite drop_drop. f_equal; [lia|]. f_equal. lia.
Qed.

(** ** A replica reads what was sent *)

Inductive Msg := MFrame (off : Z) (args : Cmd) | MMark (m : SnapshotMarker) | MChunk (data : list byte).

Definition msg_ok (m : Msg) : Prop :=
  match m with MFrame off args => 0 <= off <= i64_max /\ sendable args | MMark m => marker_ok m | MChunk d => blen d <= SNAPSHOT_CHUNK_MAX end.

Definition msg_bytes (m : Msg) : list byte :=
  match m with MFrame off args => frame_bytes off args | MMark m => marker_bytes m | MChunk d => chunk_bytes d end.

Definition msg_event (m : Msg) : ReplicaEvent :=
  match m with
  | MFrame off args => EvFrame (mkDf off (argv_from args))
  | MMark Begin => EvSnapshotBegin
  | MMark (End a) => EvSnapshotEnd a
  | MMark (Ping p) => EvPing p
  | MChunk d => EvSnapshotChunk d
  end.

(** Where a reader stands: in a snapshot, and the offset it expects; what each
    event asks of it and leaves it at. *)
Definition at_event (st : bool * Z) (e : ReplicaEvent) : option (bool * Z) :=
  let '(sn, ex) := st in
  match e with
  | EvFrame f => if sn then None else if d_offset f =? ex then Some (false, Z.min u64_max (ex + 1)) else None
  | EvPing _ => Some (sn, ex)
  | EvSnapshotBegin => Some (true, ex)
  | EvSnapshotChunk _ => if sn then Some (sn, ex) else None
  | EvSnapshotEnd a => Some (false, a)
  end.

Fixpoint at_events (st : bool * Z) (es : list ReplicaEvent) : option (bool * Z) :=
  match es with [] => Some st | e :: es => match at_event st e with Some st => at_events st es | None => None end end.

Definition place (c : ReplicaClient) : bool * Z := (in_snapshot c, expected_offset c).

(** The bytes not yet taken. *)
Definition pending (c : ReplicaClient) : list byte := from (cbuf c) (cursor c).

Definition client_ok (c : ReplicaClient) : Prop := 0 <= cursor c <= blen (cbuf c).

Lemma consume_ok c used : client_ok c -> 0 <= used <= blen (pending c) ->
  client_ok (consume c used) /\ pending (consume c used) = from (pending c) used /\ place (consume c used) = place c.
Proof.
  intros Hc Hu. unfold pending in *. rewrite blen_from in Hu by exact Hc. unfold consume, maybe_compact_buf, client_ok, place in *. cbn [cursor cbuf in_snapshot expected_offset].
  destruct (_ <=? _); cbn [cursor cbuf in_snapshot expected_offset]; (split; [|split; [|done]]).
  - pose proof (blen_from (cbuf c) (cursor c + used) ltac:(lia)). lia.
  - rewrite from_0, from_from by lia. done.
  - lia.
  - by rewrite from_from by lia.
Qed.

Lemma whole_rest c : client_ok c -> index_range (cbuf c) (cursor c) (blen (cbuf c)) = Ret (pending c).
Proof. intros H. unfold client_ok in H. rewrite index_range_ok by lia. by rewrite slice_to_end by lia. Qed.

(** Of two beginnings of one list one is a beginning of the other. *)
Lemma app_prefix_or {A} (a b c d : list A) : a ++ b = c ++ d -> (exists p, a = c ++ p /\ p ++ b = d) \/ (exists q, q <> [] /\ a ++ q = c /\ b = q ++ d).
Proof.
  intros E. destruct (Nat.le_gt_cases (length c) (length a)) as [Le|Gt].
  - left. exists (drop (length c) a). apply (f_equal (take (length c))) in E as E1. apply (f_equal (drop (length c))) in E as E2. rewrite take_app_length, take_app_le in E1 by lia. rewrite drop_app_length, drop_app_le in E2 by lia. split; [|exact E2]. rewrite <- E1 at 1. by rewrite take_drop.
  - right. exists (drop (length a) c). apply (f_equal (take (length a))) in E as E1. apply (f_equal (drop (length a))) in E as E2. rewrite take_app_length, take_app_le in E1 by lia. rewrite drop_app_length, drop_app_le in E2 by lia. split; [|split; [|exact E2]].
    + intros C. apply (f_equal length) in C. rewrite length_drop in C. cbn in C. lia.
    + rewrite E1 at 1. by rewrite take_drop.
Qed.

Section Stream.
Context `{Scan : CrlfScanner}.

(** A frame, outside a snapshot. *)
Lemma try_frame_total c : client_ok c -> in_snapshot c = false ->
  exists c' r, (r ← decode_frame (pending c);
    match r with
    | inr e => wire_failed c e
    | inl (frame, used) =>
        let c := consume c used in
        if negb (d_offset frame =? expected_offset c) then Ret (c, Some (inr (ErrOffsetGap (expected_offset c) (d_offset frame))))
        else Ret (mkCl (cbuf c) (cursor c) (Z.min u64_max (expected_offset c + 1)) (in_snapshot c), Some (inl (EvFrame frame)))
    end) = Ret (c', r) /\ client_ok c' /\
    match r with None => c' = c | Some (inr _) => True | Some (inl e) => at_event (place c) e = Some (place c') /\ blen (pending c') < blen (pending c) end.
Proof.
  intros Hc Es. destruct (decode_frame_total (pending c)) as (r & -> & Hr). cbn [mbind exec_bind]. destruct r as [[fr used]|e]; [|by destruct e; do 2 eexists]. destruct (consume_ok c used Hc ltac:(lia)) as (Ck & Ep & Epl). cbv zeta.
  destruct (Z.eqb_spec (d_offset fr) (expected_offset (consume c used))) as [E|Ne]; cbn [negb]; do 2 eexists; (split; [reflexivity|]); (split; [exact Ck|]); [|done]. unfold place in *. injection Epl as E1 E2. cbn [at_event in_snapshot expected_offset].
  rewrite Es, E1, Es, <- E2, E, Z.eqb_refl. split; [done|]. change (pending (mkCl _ _ _ _)) with (pending (consume c used)). rewrite Ep, blen_from by lia. lia.
Qed.

Lemma first_byte c b tl : client_ok c -> pending c = b :: tl -> index (cbuf c) (cursor c) = Ret b /\ cursor c < blen (cbuf c).
Proof.
  intros Hc E. unfold client_ok, pending in *. assert (Lt : cursor c < blen (cbuf c)) by (pose proof (blen_from (cbuf c) (cursor c) Hc) as L; rewrite E, blen_cons in L; pose proof (blen_nonneg tl); lia).
  destruct (get_lt_Some (cbuf c) (cursor c) ltac:(lia)) as [x Ex]. rewrite (from_cons_get _ _ _ (proj1 Hc) Ex) in E. injection E as -> _. unfold index. by rewrite Ex.
Qed.

Lemma consumed_less c used : client_ok c -> 0 < used <= blen (pending c) -> blen (from (pending c) used) < blen (pending c).
Proof. intros _ H. rewrite blen_from by lia. lia. Qed.

(** Whatever is in the buffer, trying is safe: an event leaves the reader where
    the event says and takes a byte at least. *)
Lemma try_total c : client_ok c -> exists c' r, try_decode_one_event c = Ret (c', r) /\ client_ok c' /\
  match r with
  | None => c' = c
  | Some (inr _) => True
  | Some (inl e) => at_event (place c) e = Some (place c') /\ blen (pending c') < blen (pending c)
  end.
Proof.
  intros Hc. unfold try_decode_one_event. destruct (Z.leb_spec (blen (cbuf c)) (cursor c)) as [|Lt]; [by exists c, None|]. destruct (index_within (cbuf c) (cursor c) ltac:(unfold client_ok in Hc; lia)) as [f ->]. cbn [mbind exec_bind].
  unfold try_decode_snapshot_marker, try_decode_snapshot_chunk, try_decode_live_frame. rewrite whole_rest by exact Hc. cbn [mbind exec_bind].
  destruct (f =b "+"%byte)%kevy.
  - destruct (marker_total (pending c)) as (r & -> & Hr). cbn [mbind exec_bind]. destruct r as [[[m used]|]|e]; [|by do 2 eexists|by destruct e; do 2 eexists].
    destruct (consume_ok c used Hc ltac:(lia)) as (Ck & Ep & Epl). pose proof (consumed_less c used Hc Hr). rewrite <- Ep in H. pose proof (f_equal snd Epl) as E2. cbn [place snd] in E2. destruct m as [|a|t]; do 2 eexists; (split; [reflexivity|]); (split; [exact Ck|]); (split; [|exact H]).
    + unfold place. cbn [at_event in_snapshot expected_offset msg_event]. by rewrite <- E2.
    + done.
    + by rewrite Epl.
  - destruct (f =b "$"%byte)%kevy; cbn [andb].
    + destruct (in_snapshot c) eqn:Es; [|destruct (f =b "*"%byte)%kevy eqn:Ef; [|by do 2 eexists]].
      * destruct (chunk_total (pending c)) as (r & -> & Hr). cbn [mbind exec_bind]. destruct r as [[d used]|e]; [|by destruct e; do 2 eexists]. destruct (consume_ok c used Hc ltac:(lia)) as (Ck & Ep & Epl). pose proof (consumed_less c used Hc Hr). rewrite <- Ep in H.
        do 2 eexists. split; [reflexivity|]. split; [exact Ck|]. split; [|exact H]. rewrite Epl. unfold place. cbn [at_event]. by rewrite Es.
      * cbn [andb]. by apply try_frame_total.
    + destruct (f =b "*"%byte)%kevy; cbn [andb]; [|by do 2 eexists]. destruct (in_snapshot c) eqn:Es; [by do 2 eexists|]. by apply try_frame_total.
Qed.
(** The bytes the reads will bring. *)
Definition data (reads : list Read) : list byte := concat (map (fun r => match r with Got b => b | _ => [] end) reads).

Lemma pending_grow c b : client_ok c -> let c' := mkCl (cbuf c ++ b) (cursor c) (expected_offset c) (in_snapshot c) in client_ok c' /\ pending c' = pending c ++ b /\ place c' = place c.
Proof. intros Hc. unfold client_ok, pending in *. cbn [cbuf cursor]. rewrite blen_app. pose proof (blen_nonneg b). rewrite from_app_l by lia. split; [lia|done]. Qed.

Lemma next_event_total reads : forall c, client_ok c -> exists c' reads' r, next_event c reads = Ret (c', reads', r) /\ client_ok c' /\
  match r with
  | Some (inl e) => at_event (place c) e = Some (place c') /\ blen (pending c') + blen (data reads') < blen (pending c) + blen (data reads)
  | _ => True
  end.
Proof.
  induction reads as [|rd reads IH]; intros c Hc; cbn [next_event]; destruct (try_total c Hc) as (c' & r & -> & Hc' & Hr); cbn [mbind exec_bind].
  - destruct r as [[e|e]|].
    + do 3 eexists. split; [reflexivity|]. split; [exact Hc'|]. cbn [data map concat]. split; [apply Hr|lia].
    + by do 3 eexists.
    + do 3 eexists. split; [reflexivity|]. split; [exact Hc'|]. unfold at_eof. by destruct (_ <? _).
  - destruct r as [[e|e]|]; [do 3 eexists; (split; [reflexivity|]); (split; [exact Hc'|]); split; [apply Hr|lia]|by do 3 eexists|]. subst c'. destruct rd as [[|x b]| |].
    + do 3 eexists. split; [reflexivity|]. split; [exact Hc|]. unfold at_eof. by destruct (_ <? _).
    + destruct (pending_grow c (x :: b) Hc) as (Hg & Eg & Pg). destruct (IH _ Hg) as (c2 & rs & r & -> & H2 & Hr2). do 3 eexists. split; [reflexivity|]. split; [exact H2|]. destruct r as [[e|]|]; try done. rewrite Pg, Eg in Hr2. split; [apply Hr2|].
      unfold data in *. cbn [map concat]. rewrite !blen_app in *. lia.
    + destruct (IH c Hc) as (c2 & rs & r & -> & H2 & Hr2). by do 3 eexists.
    + by do 3 eexists.
Qed.

Lemma events_total fuel : forall c reads, client_ok c -> blen (pending c) + blen (data reads) < Z.of_nat fuel ->
  exists c' es stop, events fuel c reads = Ret (c', map inl es ++ stop) /\ is_Some (at_events (place c) es) /\ (stop = [] \/ exists e, stop = [inr e]).
Proof.
  induction fuel as [|fuel IH]; intros c reads Hc Hf; [pose proof (blen_nonneg (pending c)); pose proof (blen_nonneg (data reads)); lia|]. cbn [events]. destruct (next_event_total reads c Hc) as (c' & rs & r & -> & Hc' & Hr). cbn [mbind exec_bind].
  destruct r as [[e|e]|].
  - destruct Hr as [Ea Lt]. destruct (IH c' rs Hc' ltac:(lia)) as (c2 & es & stop & -> & A & St). cbn [mbind exec_bind]. exists c2, (e :: es), stop. split; [done|]. split; [|exact St]. cbn [at_events]. by rewrite Ea.
  - exists c', [], [inr e]. split; [done|]. split; [done|eauto].
  - exists c', [], []. split; [done|]. split; [done|by left].
Qed.

(** *** A message in the buffer *)

Lemma msg_head m : exists b tl, msg_bytes m = b :: tl /\ b = match m with MFrame _ _ => "*"%byte | MMark _ => "+"%byte | MChunk _ => "$"%byte end.
Proof. destruct m as [off args|[| |]|d]; by do 2 eexists. Qed.

Lemma try_msg c m rest st : client_ok c -> msg_ok m -> at_event (place c) (msg_event m) = Some st -> pending c = msg_bytes m ++ rest ->
  exists c', try_decode_one_event c = Ret (c', Some (inl (msg_event m))) /\ client_ok c' /\ pending c' = rest /\ place c' = st.
Proof.
  intros Hc Hm Ha Ep. destruct (msg_head m) as (b & tl & Eb & Hb). destruct (first_byte c b (tl ++ rest) Hc) as [I Lt]; [by rewrite Ep, Eb|]. unfold try_decode_one_event. destruct (Z.leb_spec (blen (cbuf c)) (cursor c)); [lia|]. rewrite I. cbn [mbind exec_bind].
  assert (U : 0 <= blen (msg_bytes m) <= blen (pending c)) by (rewrite Ep, blen_app; pose proof (blen_nonneg rest); pose proof (blen_nonneg (msg_bytes m)); lia). destruct (consume_ok c (blen (msg_bytes m)) Hc U) as (Ck & Eq & Epl). rewrite Ep, from_app_len in Eq.
  pose proof (f_equal fst Epl) as E1. pose proof (f_equal snd Epl) as E2. cbn [place fst snd] in E1, E2. clear Eb. destruct m as [off args|m|d]; subst b; cbn [msg_ok msg_bytes msg_event at_event place d_offset] in *.
  - destruct (in_snapshot c) eqn:Es; [done|]. change ("*"%byte =b "+"%byte)%kevy with false. change ("*"%byte =b "$"%byte)%kevy with false. change ("*"%byte =b "*"%byte)%kevy with true. cbn [andb]. unfold try_decode_live_frame. rewrite whole_rest by exact Hc. cbn [mbind exec_bind].
    rewrite Ep, decode_frame_complete by apply Hm. unfold ok. cbn [mbind exec_bind]. cbv zeta. cbn [d_offset]. rewrite E2. destruct (Z.eqb_spec off (expected_offset c)) as [->|]; [|done]. cbn [negb]. eexists. split; [reflexivity|]. split; [exact Ck|]. split; [exact Eq|]. injection Ha as <-. unfold place. cbn [in_snapshot expected_offset]. by rewrite E1.
  - change ("+"%byte =b "+"%byte)%kevy with true. cbv iota. unfold try_decode_snapshot_marker. rewrite whole_rest by exact Hc. cbn [mbind exec_bind]. rewrite Ep, decode_marker_complete by exact Hm. unfold ok. cbn [mbind exec_bind].
    destruct m as [|a|t]; eexists; (split; [reflexivity|]); (split; [exact Ck|]); (split; [exact Eq|]); injection Ha as <-; unfold place; cbn [in_snapshot expected_offset]; by rewrite ?E1, ?E2.
  - destruct (in_snapshot c) eqn:Es; [|done]. change ("$"%byte =b "+"%byte)%kevy with false. change ("$"%byte =b "$"%byte)%kevy with true. cbn [andb]. unfold try_decode_snapshot_chunk. rewrite whole_rest by exact Hc. cbn [mbind exec_bind].
    rewrite Ep, decode_chunk_complete by exact Hm. unfold ok. cbn [mbind exec_bind]. eexists. split; [reflexivity|]. split; [exact Ck|]. split; [exact Eq|]. injection Ha as <-. rewrite Epl. unfold place. by rewrite Es.
Qed.

Lemma try_part c m suf st : client_ok c -> msg_ok m -> at_event (place c) (msg_event m) = Some st -> pending c ++ suf = msg_bytes m -> suf <> [] -> try_decode_one_event c = Ret (c, None).
Proof.
  intros Hc Hm Ha Ep Hn. unfold try_decode_one_event. destruct (Z.leb_spec (blen (cbuf c)) (cursor c)) as [|Lt]; [done|]. destruct (pending c) as [|b tl] eqn:Eb; [unfold pending in Eb; pose proof (blen_from (cbuf c) (cursor c) Hc) as L; rewrite Eb, blen_nil in L; lia|].
  destruct (first_byte c b tl Hc Eb) as [-> _]. cbn [mbind exec_bind]. destruct (msg_head m) as (b' & tl' & Em & Hb). rewrite Em in Ep. injection Ep as -> Ep. assert (Ep' : pending c ++ suf = msg_bytes m) by (rewrite Eb, Em; cbn [app]; by f_equal). clear Em Ep.
  destruct m as [off args|m|d]; subst b'; cbn [msg_ok msg_bytes msg_event at_event place] in *.
  - destruct (in_snapshot c) eqn:Es; [done|]. change ("*"%byte =b "+"%byte)%kevy with false. change ("*"%byte =b "$"%byte)%kevy with false. change ("*"%byte =b "*"%byte)%kevy with true. cbn [andb]. unfold try_decode_live_frame. rewrite whole_rest by exact Hc. cbn [mbind exec_bind].
    rewrite (decode_frame_prefix off args (pending c) suf) by (try apply Hm; done). done.
  - change ("+"%byte =b "+"%byte)%kevy with true. cbv iota. unfold try_decode_snapshot_marker. rewrite whole_rest by exact Hc. cbn [mbind exec_bind]. rewrite (decode_marker_prefix m (pending c) suf) by done. done.
  - destruct (in_snapshot c) eqn:Es; [|done]. change ("$"%byte =b "+"%byte)%kevy with false. change ("$"%byte =b "$"%byte)%kevy with true. cbn [andb]. unfold try_decode_snapshot_chunk. rewrite whole_rest by exact Hc. cbn [mbind exec_bind].
    rewrite (decode_chunk_prefix d (pending c) suf) by done. done.
Qed.
(** *** Messages over the reads *)

(** Reads that bring bytes, or are interrupted. *)
Definition clean (reads : list Read) : Prop := Forall (fun r => r <> Failed /\ r <> Got []) reads.

Lemma next_event_msg m rest st : msg_ok m -> forall reads c, client_ok c -> clean reads -> at_event (place c) (msg_event m) = Some st -> pending c ++ data reads = msg_bytes m ++ rest ->
  exists c' reads', next_event c reads = Ret (c', reads', Some (inl (msg_event m))) /\ client_ok c' /\ clean reads' /\ pending c' ++ data reads' = rest /\ place c' = st.
Proof.
  intros Hm. induction reads as [|rd reads IH]; intros c Hc Cl Ha E; cbn [next_event].
  all: destruct (app_prefix_or (pending c) (data _) (msg_bytes m) rest E) as [(p2 & Ep & Er)|(suf & Hn & Ep & Er)].
  1,3: destruct (try_msg c m p2 st Hc Hm Ha Ep) as (c' & -> & Hc' & Ep' & Pl); cbn [mbind exec_bind]; do 2 eexists; (split; [reflexivity|]); split; [exact Hc'|]; split; [exact Cl|]; split; [by rewrite Ep'|exact Pl].
  - cbn [data map concat] in Er. by destruct suf.
  - rewrite (try_part c m suf st Hc Hm Ha Ep Hn). cbn [mbind exec_bind]. apply list.Forall_cons in Cl as [[C1 C2] Cl]. destruct rd as [[|x b]| |]; [done| | |done].
    + destruct (pending_grow c (x :: b) Hc) as (Hg & Eg & Pg). apply IH; [exact Hg|exact Cl|by rewrite Pg|]. rewrite Eg, <- app_assoc. exact E.
    + by apply IH.
Qed.

Lemma next_event_end reads : forall c, client_ok c -> clean reads -> pending c ++ data reads = [] -> exists c' reads', next_event c reads = Ret (c', reads', None) /\ place c' = place c.
Proof.
  induction reads as [|rd reads IH]; intros c Hc Cl E; cbn [next_event]; apply app_nil in E as [Ep Ed].
  all: assert (Le : blen (cbuf c) <= cursor c) by (unfold client_ok, pending in *; pose proof (blen_from (cbuf c) (cursor c) Hc) as L; rewrite Ep, blen_nil in L; lia).
  all: unfold try_decode_one_event; destruct (Z.leb_spec (blen (cbuf c)) (cursor c)); [|lia]; cbn [mbind exec_bind].
  - unfold at_eof. destruct (Z.ltb_spec (cursor c) (blen (cbuf c))); [lia|]. by do 2 eexists.
  - apply list.Forall_cons in Cl as [[C1 C2] Cl]. unfold data in Ed. cbn [map concat] in Ed. apply app_nil in Ed as [Ed1 Ed2]. destruct rd as [[|x b]| |]; [done|done| |done]. apply IH; [exact Hc|exact Cl|]. by rewrite Ep.
Qed.

Lemma events_msgs msgs : forall fuel reads c st, Forall msg_ok msgs -> client_ok c -> clean reads -> at_events (place c) (map msg_event msgs) = Some st -> pending c ++ data reads = concat (map msg_bytes msgs) -> (length msgs < fuel)%nat ->
  exists c', events fuel c reads = Ret (c', map inl (map msg_event msgs)) /\ place c' = st.
Proof.
  induction msgs as [|m msgs IH]; intros fuel reads c st Hm Hc Cl Ha E Hf; (destruct fuel as [|fuel]; [cbn in Hf; lia|]); cbn [events].
  - destruct (next_event_end reads c Hc Cl E) as (c' & rs & -> & Pl). cbn [mbind exec_bind]. injection Ha as <-. by eexists.
  - apply list.Forall_cons in Hm as [Hm Hms]. cbn [map at_events concat] in *. destruct (at_event (place c) (msg_event m)) as [st1|] eqn:E1; [|done].
    destruct (next_event_msg m (concat (map msg_bytes msgs)) st1 Hm reads c Hc Cl E1 E) as (c1 & rs & -> & Hc1 & Cl1 & Er & Pl). cbn [mbind exec_bind]. rewrite <- Pl in Ha.
    destruct (IH fuel rs c1 st Hms Hc1 Cl1 Ha Er ltac:(cbn in Hf; lia)) as (c2 & -> & P2). cbn [mbind exec_bind]. by eexists.
Qed.
End Stream.

(** ** A link carries the primary's history *)

(** What a replica holds: the snapshot it was given, the offset it starts at,
    the commands after it, and the chunks of a snapshot still arriving. *)
Record Held := mkHeld { h_snap : option (list byte); h_start : Z; h_cmds : list Argv; h_chunks : list byte }.

Definition hold (h : Held) (e : ReplicaEvent) : Held :=
  match e with
  | EvFrame f => mkHeld (h_snap h) (h_start h) (h_cmds h ++ [d_argv f]) (h_chunks h)
  | EvPing _ => h
  | EvSnapshotBegin => mkHeld (h_snap h) (h_start h) (h_cmds h) []
  | EvSnapshotChunk d => mkHeld (h_snap h) (h_start h) (h_cmds h) (h_chunks h ++ d)
  | EvSnapshotEnd a => mkHeld (Some (h_chunks h)) a [] []
  end.

Definition held (from : Z) (es : list ReplicaEvent) : Held := fold_left hold es (mkHeld None from [] []).

(** The bytes a socket takes in a turn of [drain_streaming_outputs]. *)
Fixpoint taken (c : ReplicaConn) (writes : list Write) : list byte :=
  if blen (output c) <=? write_off c then []
  else match writes with
  | Wrote n :: writes => if n =? 0 then [] else slice (output c) (write_off c) (write_off c + n) ++ taken (mkConn (input c) (output c) (write_off c + n) (state c)) writes
  | Retry :: writes => taken c writes
  | _ => []
  end.

(** A socket takes no more than it is given. *)
Fixpoint writes_ok (c : ReplicaConn) (writes : list Write) : Prop :=
  match writes with
  | Wrote n :: writes => 0 <= n /\ write_off c + n <= blen (output c) /\ writes_ok (mkConn (input c) (output c) (write_off c + n) (state c)) writes
  | Retry :: writes => writes_ok c writes
  | _ => True
  end.

Definition queued (c : ReplicaConn) : list byte := from (output c) (write_off c).

(** A shard's feed with its history, one link, and what its socket has taken. *)
Record Link := mkLink { feed : FeedSource; base : Z; hist : list Cmd; frozen : list Cmd; used : list Z; conn : ReplicaConn; gone : list byte }.

Definition stream (l : Link) : list byte := gone l ++ queued (conn l).

Section Links.
Context `{Scan : CrlfScanner}.

(** A snapshot of the store those commands made. *)
Variable serialize : list Cmd -> list byte.

Definition ships (a b : ReplicaConn) : bool := match state a, state b with Streaming _ _ _, SnapshotShipping _ _ _ _ _ _ => true | _, _ => false end.

Inductive link_step : Link -> Link -> Prop :=
| ls_push l c s o : sendable c -> next_offset (source (feed l)) < i64_max -> push_mutation (source (feed l)) c = Ret (s, o) ->
    link_step l (mkLink (mkFeed (feed_generation (feed l)) s) (base l) (hist l ++ [c]) (frozen l) (used l) (conn l) (gone l))
| ls_drop l w s : drop_up_to (source (feed l)) w = Ret s ->
    link_step l (mkLink (mkFeed (feed_generation (feed l)) s) (base l) (hist l) (frozen l) (used l) (conn l) (gone l))
| ls_bump l g f : g ∉ used l -> in_u64 g -> bump_generation (feed l) g = Ret f ->
    link_step l (mkLink f 0 [] (frozen l) (g :: used l) (conn l) (gone l))
| ls_pump l cut due recv c : (forall b, recv = Arrived b -> b = serialize (frozen l)) -> pump_one cut due recv (feed l) (conn l) = Ret c ->
    link_step l (mkLink (feed l) (base l) (hist l) (if ships (conn l) c then hist l else frozen l) (used l) c (gone l))
| ls_write l ws : writes_ok (conn l) ws ->
    link_step l (mkLink (feed l) (base l) (hist l) (frozen l) (used l) (drain_one ws (conn l)) (gone l ++ if replica_conn_id (conn l) is Some _ then taken (conn l) ws else [])).

(** The commands a link has delivered of a history that starts at [b]. *)
Definition delivers (b : Z) (hs : list Cmd) (h : Held) (sent : Z) : Prop :=
  sent = h_start h + Z.of_nat (length (h_cmds h)) /\ (h_cmds h <> [] -> b <= h_start h) /\
  h_cmds h = argv_from <$> take (length (h_cmds h)) (drop (Z.to_nat (h_start h - b)) hs).

(** Where the replica started: the offset it asked for, or a snapshot of the
    history up to the offset it was given. *)
Definition starts (from b : Z) (hs : list Cmd) (h : Held) : Prop :=
  match h_snap h with
  | None => h_start h = from
  | Some bytes => b <= h_start h <= b + Z.of_nat (length hs) /\ bytes = serialize (take (Z.to_nat (h_start h - b)) hs)
  end.

(** The messages of a link so far, and how they stand to its state. *)
Definition carries (from : Z) (l : Link) (msgs : list Msg) : Prop :=
  let es := map msg_event msgs in
  let h := held from es in
  stream l = concat (map msg_bytes msgs) /\ Forall msg_ok msgs /\
  match state (conn l) with
  | Streaming _ sent g =>
      at_events (false, from) es = Some (false, sent) /\ g ∈ used l /\
      (g = feed_generation (feed l) -> delivers (base l) (hist l) h sent /\ starts from (base l) (hist l) h)
  | SnapshotShipping _ ack g ser buf off =>
      (exists ex, at_events (false, from) es = Some (true, ex)) /\ g ∈ used l /\ in_u64 ack /\
      (if ser then off = 0 /\ h_chunks h = [] else 0 <= off <= blen buf /\ buf = serialize (frozen l) /\ h_chunks h = take (Z.to_nat off) buf) /\
      (g = feed_generation (feed l) -> base l <= ack <= base l + Z.of_nat (length (hist l)) /\ frozen l = take (Z.to_nat (ack - base l)) (hist l))
  | Closed _ => is_Some (at_events (false, from) es)
  | _ => False
  end.

Record link_ok (from : Z) (l : Link) : Prop := {
  lo_src : stands_for (base l) (hist l) (source (feed l));
  lo_next : next_offset (source (feed l)) <= i64_max;
  lo_hist : Forall sendable (hist l);
  lo_gen : feed_generation (feed l) ∈ used l /\ in_u64 (feed_generation (feed l));
  lo_off : 0 <= write_off (conn l) <= blen (output (conn l));
  lo_msgs : exists msgs, carries from l msgs
}.
(** *** Lists of events *)

Lemma at_events_app es es' : forall st, at_events st (es ++ es') = match at_events st es with Some st => at_events st es' | None => None end.
Proof. induction es as [|e es IH]; intros st; cbn [at_events app]; [done|]. destruct (at_event st e); [apply IH|done]. Qed.

Lemma held_app from es es' : held from (es ++ es') = fold_left hold es' (held from es).
Proof. apply fold_left_app. Qed.

Fixpoint frame_msgs (o : Z) (cmds : list Cmd) : list Msg :=
  match cmds with [] => [] | c :: cmds => MFrame o c :: frame_msgs (o + 1) cmds end.

Lemma frame_msgs_bytes cmds : forall o, concat (map msg_bytes (frame_msgs o cmds)) = concat (map f_bytes (frames_at o cmds)).
Proof. induction cmds as [|c cmds IH]; intros o; cbn [frame_msgs frames_at map concat msg_bytes f_bytes]; [done|]. by rewrite IH. Qed.

Lemma frame_msgs_ok cmds : forall o, Forall sendable cmds -> 0 <= o -> o + Z.of_nat (length cmds) <= i64_max -> Forall msg_ok (frame_msgs o cmds).
Proof.
  induction cmds as [|c cmds IH]; intros o Hs Ho Hi; cbn [frame_msgs]; [done|]. apply list.Forall_cons in Hs as [Hc Hs]. cbn [length] in Hi. constructor; [cbn; split; [lia|exact Hc]|]. apply IH; [exact Hs|lia|lia].
Qed.

Lemma frame_msgs_events cmds : forall o, 0 <= o -> o + Z.of_nat (length cmds) <= i64_max -> at_events (false, o) (map msg_event (frame_msgs o cmds)) = Some (false, o + Z.of_nat (length cmds)).
Proof.
  induction cmds as [|c cmds IH]; intros o Ho Hi; cbn [frame_msgs map at_events length msg_event at_event d_offset]; [do 2 f_equal; lia|]. rewrite Z.eqb_refl. cbn [length] in Hi. rewrite Z.min_r by (unfold i64_max, u64_max in *; lia). rewrite IH by lia. do 2 f_equal. lia.
Qed.

Lemma frame_msgs_held cmds : forall o h, fold_left hold (map msg_event (frame_msgs o cmds)) h = mkHeld (h_snap h) (h_start h) (h_cmds h ++ (argv_from <$> cmds)) (h_chunks h).
Proof.
  induction cmds as [|c cmds IH]; intros o h; cbn [frame_msgs map fold_left fmap list_fmap]; [rewrite app_nil_r; by destruct h|]. rewrite IH. cbn [hold msg_event h_snap h_start h_cmds h_chunks d_argv]. by rewrite <- app_assoc.
Qed.

Lemma take_frames_ok pending cmds : forall bytes o, exists j, (j <= length cmds)%nat /\ take_frames pending bytes o (frames_at o cmds) = (concat (map f_bytes (frames_at o (take j cmds))), o + Z.of_nat j).
Proof.
  induction cmds as [|c cmds IH]; intros bytes o; cbn [frames_at take_frames f_bytes f_offset]; [exists O; by rewrite Z.add_0_r|].
  destruct (_ || _); [exists O; split; [lia|]; by rewrite Z.add_0_r|]. destruct (IH (bytes + blen (frame_bytes o c)) (o + 1)) as (j & Lj & ->). exists (S j). split; [cbn; lia|]. cbn [take frames_at map concat f_bytes]. f_equal. lia.
Qed.

(** *** The history grows *)

Lemma delivers_enough b hs h sent : delivers b hs h sent -> (length (h_cmds h) <= length (drop (Z.to_nat (h_start h - b)) hs))%nat.
Proof. intros (_ & _ & E). apply (f_equal length) in E. rewrite length_fmap, length_take in E. lia. Qed.

Lemma take_drop_snoc {A} n m (l : list A) x : (n <= length (drop m l))%nat -> take n (drop m (l ++ [x])) = take n (drop m l).
Proof.
  rewrite length_drop. intros H. destruct (Nat.le_gt_cases m (length l)) as [Le|Gt]; [rewrite drop_app_le by exact Le; rewrite take_app_le by (rewrite length_drop; lia); done|]. replace n with O by lia. done.
Qed.

Lemma delivers_snoc b hs h sent c : delivers b hs h sent -> delivers b (hs ++ [c]) h sent.
Proof. intros D. pose proof (delivers_enough b hs h sent D). destruct D as (E1 & E2 & E3). split; [exact E1|]. split; [exact E2|]. by rewrite take_drop_snoc. Qed.

Lemma starts_snoc from b hs h c : starts from b hs h -> starts from b (hs ++ [c]) h.
Proof.
  unfold starts. destruct (h_snap h) as [bytes|]; [|done]. rewrite length_app. cbn [length]. intros [R E]. split; [lia|]. by rewrite take_app_le by lia.
Qed.

(** A run of the next commands. *)
Lemma delivers_more b hs h sent j : delivers b hs h sent -> b <= sent -> (j <= length (drop (Z.to_nat (sent - b)) hs))%nat ->
  delivers b hs (mkHeld (h_snap h) (h_start h) (h_cmds h ++ (argv_from <$> take j (drop (Z.to_nat (sent - b)) hs))) (h_chunks h)) (sent + Z.of_nat j).
Proof.
  intros D Hb Hj. pose proof (delivers_enough b hs h sent D) as En. destruct D as (E1 & E2 & E3). unfold delivers. cbn [h_start h_cmds]. rewrite length_app, length_fmap, length_take. rewrite Nat.min_l by exact Hj. split; [lia|]. split.
  - intros _. destruct (h_cmds h) as [|x l]; [cbn in E1; lia|]. by apply E2.
  - assert (Bs : b <= h_start h) by (destruct (h_cmds h) as [|x l]; [cbn in E1; lia|by apply E2]). replace (Z.to_nat (sent - b)) with (Z.to_nat (h_start h - b) + length (h_cmds h))%nat by lia.
    rewrite <- drop_drop. set (t := drop (Z.to_nat (h_start h - b)) hs) in *. rewrite E3 at 1. rewrite <- fmap_app. f_equal. by rewrite <- take_take_drop.
Qed.
(** *** Every step keeps the link in order *)

Lemma queued_append c b : 0 <= write_off c <= blen (output c) -> queued (append c b) = queued c ++ b.
Proof. intros H. unfold queued, append. cbn [output write_off]. by rewrite from_app_l by lia. Qed.

Lemma push_link from l c sr o : link_ok from l -> sendable c -> next_offset (source (feed l)) < i64_max -> push_mutation (source (feed l)) c = Ret (sr, o) ->
  link_ok from (mkLink (mkFeed (feed_generation (feed l)) sr) (base l) (hist l ++ [c]) (frozen l) (used l) (conn l) (gone l)).
Proof.
  intros [Src Nx Hh Gn Wo (msgs & St & Mk & Sk)] Sc Lt E. destruct (push_mutation_ok (base l) (hist l) (source (feed l)) c Src Sc) as (s' & E' & Src' & _); [unfold i64_max, u64_max in *; lia|]. rewrite E' in E. injection E as -> _.
  constructor; cbn [feed base hist frozen used conn gone source feed_generation]; try done.
  - destruct Src' as [N' _ _ _ _]. rewrite length_app in N'. cbn [length] in N'. destruct Src as [N _ _ _ _]. lia.
  - apply list.Forall_app. split; [exact Hh|by constructor].
  - exists msgs. split; [exact St|]. split; [exact Mk|]. cbn [feed base hist frozen used conn gone source feed_generation]. destruct (state (conn l)) as [| |i sent g|i ack g ser buf off|i]; try done.
    + destruct Sk as (A & U & D). split; [exact A|]. split; [exact U|]. intros Eg. destruct (D Eg) as [D1 D2]. split; [by apply delivers_snoc|by apply starts_snoc].
    + destruct Sk as (A & U & Ia & B & D). split; [exact A|]. split; [exact U|]. split; [exact Ia|]. split; [exact B|]. intros Eg. destruct (D Eg) as [D1 D2]. rewrite length_app. cbn [length]. split; [lia|]. by rewrite take_app_le by lia.
Qed.

Lemma drop_link from l w sr : link_ok from l -> drop_up_to (source (feed l)) w = Ret sr ->
  link_ok from (mkLink (mkFeed (feed_generation (feed l)) sr) (base l) (hist l) (frozen l) (used l) (conn l) (gone l)).
Proof.
  intros [Src Nx Hh Gn Wo Ms] E. destruct (drop_up_to_ok (base l) (hist l) (source (feed l)) w Src) as (s' & E' & Src' & Nx' & _). rewrite E' in E. injection E as ->. constructor; cbn [feed base hist frozen used conn gone source feed_generation]; try done. lia.
Qed.

Lemma bump_link from l g f : link_ok from l -> g ∉ used l -> in_u64 g -> bump_generation (feed l) g = Ret f -> link_ok from (mkLink f 0 [] (frozen l) (g :: used l) (conn l) (gone l)).
Proof.
  intros [Src Nx Hh Gn Wo (msgs & St & Mk & Sk)] Fr Ig E. unfold bump_generation, source_new in E. pose proof (proj1 (sf_budget _ _ _ Src)) as Mx. destruct (Z.ltb_spec 0 (max_bytes (source (feed l)))); [|lia]. injection E as <-.
  constructor; cbn [feed base hist frozen used conn gone source feed_generation next_offset]; [|unfold i64_max; lia|constructor|split; [left|exact Ig]|exact Wo|].
  - constructor; cbn [next_offset fbuf bytes_in_buf max_bytes]; [done|unfold u64_max; lia|by exists O|done|]. split; [lia|left; lia].
  - exists msgs. split; [exact St|]. split; [exact Mk|]. cbn [feed base hist frozen used conn gone source feed_generation]. destruct (state (conn l)) as [| |i sent g'|i ack g' ser buf off|i]; try done.
    + destruct Sk as (A & U & D). split; [exact A|]. split; [by right|]. intros ->. done.
    + destruct Sk as (A & U & Ia & B & D). split; [exact A|]. split; [by right|]. split; [exact Ia|]. split; [exact B|]. intros ->. done.
Qed.

Lemma slice_from_split {A} (l : list A) s n : 0 <= s -> 0 <= n -> s + n <= blen l -> slice l s (s + n) ++ from l (s + n) = from l s.
Proof. intros H1 H2 H3. rewrite slice_from, <- from_from by lia. replace (s + n - s) with n by lia. unfold from at 2. apply take_drop. Qed.

Lemma close_ok c : queued (close c) = queued c /\ write_off (close c) = write_off c /\ output (close c) = output c /\ exists i, state (close c) = Closed i.
Proof. unfold close, queued. destruct (state c) eqn:E; cbn; eauto 6. Qed.

Lemma writable_ok ws : forall c, writes_ok c ws -> 0 <= write_off c <= blen (output c) -> (forall i o g, state c <> AckSent i o g) ->
  let c' := fst (replica_writable c ws) in
  taken c ws ++ queued c' = queued c /\ 0 <= write_off c' <= blen (output c') /\ (state c' = state c \/ exists i, state c' = Closed i).
Proof.
  assert (Dr : forall c, blen (output c) <= write_off c -> (forall i o g, state c <> AckSent i o g) -> queued (drained c) = queued c /\ 0 <= write_off (drained c) <= blen (output (drained c)) /\ state (drained c) = state c).
  { intros c Le Na. unfold queued, drained. cbn [output write_off state]. rewrite (from_ge (output c)) by exact Le. split; [done|]. split; [by vm_compute|]. destruct (state c); try done. by destruct (Na replica_id from_offset generation). }
  induction ws as [|w ws IH]; intros c Wk Ho Na; cbn [replica_writable taken]; destruct (Z.leb_spec (blen (output c)) (write_off c)) as [Le|Gt]; cbn [fst].
  1,3: destruct (Dr c Le Na) as (Q & R & S); cbn [app]; by auto.
  - by auto.
  - destruct w as [m| | |]; cbn [writes_ok] in Wk; cbn [fst app]; [|by auto|by apply IH|by auto]. destruct Wk as (M0 & M1 & Wk). destruct (Z.eqb_spec m 0) as [->|Nm]; cbn [fst app].
    + destruct (close_ok c) as (Q & W & O & S). rewrite Q, W, O. by auto.
    + destruct (IH _ Wk ltac:(cbn [write_off output]; lia) Na) as (Q & R & S). split; [|by split]. rewrite <- app_assoc, Q. unfold queued. cbn [output write_off]. by apply slice_from_split; lia.
Qed.

Lemma write_link from l ws : link_ok from l -> writes_ok (conn l) ws ->
  link_ok from (mkLink (feed l) (base l) (hist l) (frozen l) (used l) (drain_one ws (conn l)) (gone l ++ if replica_conn_id (conn l) is Some _ then taken (conn l) ws else [])).
Proof.
  intros [Src Nx Hh Gn Wo (msgs & St & Mk & Sk)] Wk. set (c := conn l) in *. assert (Na : forall i o g, state c <> AckSent i o g) by (intros i o g E; by rewrite E in Sk).
  assert (G : (if replica_conn_id c is Some _ then taken c ws else []) ++ queued (drain_one ws c) = queued c /\ 0 <= write_off (drain_one ws c) <= blen (output (drain_one ws c)) /\ (state (drain_one ws c) = state c \/ exists i, state (drain_one ws c) = Closed i)).
  { unfold drain_one. destruct (replica_conn_id c); [|by auto].
    destruct (Z.eqb_spec (pending_out c) 0) as [E0|_].
    - unfold pending_out in E0. destruct ws; cbn [taken]; (destruct (Z.leb_spec (blen (output c)) (write_off c)); [by auto|lia]).
    - destruct (writable_ok ws c Wk Wo Na) as (Q & R & S). destruct (replica_writable c ws) as [c1 fine]. cbn [fst] in Q, R, S. destruct (close_ok c1) as (Q1 & W1 & O1 & S1).
      match goal with |- context [queued ?r] => assert (E : r = c1 \/ r = close c1) end.
      { destruct (negb fine); [by right|]. destruct (state c1); try by left. destruct (_ <=? _); [by right|by left]. }
      destruct E as [-> | ->]; [by auto|]. rewrite Q1, W1, O1. by auto. }
  destruct G as (Q & R & S). constructor; cbn [feed base hist frozen used conn gone]; try done. exists msgs. split; [|split; [exact Mk|]].
  - unfold stream in *. cbn [gone conn]. by rewrite <- app_assoc, Q.
  - cbn [feed base hist frozen used conn gone]. fold c in Sk. destruct S as [->|[i ->]]; [exact Sk|]. destruct (state c) as [| |i' sent g'|i' ack g' ser buf off|i']; try done; [destruct Sk as (A & _); by rewrite A|destruct Sk as ([ex A] & _); by rewrite A].
Qed.
(** A heartbeat, wherever the link stands. *)
Lemma ping_link from l : link_ok from l -> link_ok from (mkLink (feed l) (base l) (hist l) (frozen l) (used l) (append (conn l) (marker_bytes (Ping (tail (feed l))))) (gone l)).
Proof.
  intros [Src Nx Hh Gn Wo (msgs & St & Mk & Sk)]. constructor; cbn [feed base hist frozen used conn gone]; try done; [cbn [append output write_off]; rewrite blen_app; pose proof (blen_nonneg (marker_bytes (Ping (tail (feed l))))); lia|].
  exists (msgs ++ [MMark (Ping (tail (feed l)))]). split; [|split].
  - unfold stream in *. cbn [gone conn]. rewrite queued_append, app_assoc, St, map_app, concat_app by exact Wo. cbn [map concat msg_bytes]. by rewrite app_nil_r.
  - apply list.Forall_app. split; [exact Mk|]. constructor; [|constructor]. cbn [msg_ok marker_ok tail generation offset]. split; [apply Gn|]. destruct Src as [N [R1 R2] _ _ _]. unfold in_u64. lia.
  - cbn [feed base hist frozen used conn gone append state]. rewrite map_app, at_events_app, held_app. cbn [map msg_event at_events at_event fold_left hold].
    destruct (state (conn l)) as [| |i sent g'|i ack g' ser buf off|i]; try done; [destruct Sk as (A & D); by rewrite A|destruct Sk as ([ex A] & D); rewrite A; split; [by exists ex|exact D]|destruct Sk as [[b ex] A]; by rewrite A].
Qed.

(** A snapshot begins. *)
Lemma ship_link from l i sent g : link_ok from l -> state (conn l) = Streaming i sent g ->
  link_ok from (mkLink (feed l) (base l) (hist l) (hist l) (used l) (start_snapshot_ship (conn l) (feed_generation (feed l)) (next_offset (source (feed l)))) (gone l)).
Proof.
  intros [Src Nx Hh Gn Wo (msgs & St & Mk & Sk)] Es. unfold start_snapshot_ship. rewrite Es in *. destruct Sk as (A & U & D). pose proof (sf_next _ _ _ Src) as N. pose proof (sf_range _ _ _ Src) as R. change encode_snapshot_begin with (marker_bytes Begin).
  constructor; cbn [feed base hist frozen used conn gone]; try done; [cbn [set_state append output write_off]; rewrite blen_app; pose proof (blen_nonneg (marker_bytes Begin)); lia|].
  exists (msgs ++ [MMark Begin]). split; [|split].
  - unfold stream in *. cbn [gone conn]. change (queued (set_state (append (conn l) (marker_bytes Begin)) _)) with (queued (append (conn l) (marker_bytes Begin))). rewrite queued_append, app_assoc, St, map_app, concat_app by exact Wo. done.
  - apply list.Forall_app. split; [exact Mk|]. by repeat constructor.
  - cbn [feed base hist frozen used conn gone set_state state]. rewrite map_app, at_events_app, held_app, A. cbn [map msg_event at_events at_event fold_left hold h_chunks]. split; [by eexists|]. split; [apply Gn|]. split; [unfold in_u64; lia|]. split; [done|]. intros _. split; [lia|]. rewrite take_ge by lia. done.
Qed.

(** Frames are queued. *)
Lemma fill_link from l cut i sent g : link_ok from l -> state (conn l) = Streaming i sent g ->
  let c := fill_streaming_output cut (feed l) (conn l) in
  link_ok from (mkLink (feed l) (base l) (hist l) (if ships (conn l) c then hist l else frozen l) (used l) c (gone l)).
Proof.
  intros Ok Es. pose proof (ship_link from l i sent g Ok Es) as Sh. unfold fill_streaming_output. rewrite Es. cbv zeta.
  assert (Same : link_ok from (mkLink (feed l) (base l) (hist l) (if ships (conn l) (conn l) then hist l else frozen l) (used l) (conn l) (gone l))) by (unfold ships; rewrite Es; by destruct l).
  assert (Sp : ships (conn l) (start_snapshot_ship (conn l) (feed_generation (feed l)) (next_offset (source (feed l)))) = true) by (unfold ships, start_snapshot_ship; by rewrite Es).
  destruct (Z.eqb_spec g (feed_generation (feed l))) as [Eg|]; cbn [negb]; [|by rewrite Sp]. destruct (Z.eqb_spec sent (next_offset (source (feed l)))) as [|Ns]; [exact Same|]. destruct (_ <=? pending_out _); [exact Same|].
  destruct Ok as [Src Nx Hh Gn Wo (msgs & St & Mk & Sk)]. rewrite (frames_from_ok (base l) (hist l) _ cut sent Src). destruct (Z.ltb_spec (next_offset (source (feed l))) sent) as [|Le]; [by rewrite Sp|]. destruct (Z.ltb_spec sent (floor (source (feed l)))) as [|Fl]; [by rewrite Sp|].
  set (cmds := drop (Z.to_nat (sent - base l)) (hist l)). destruct (take_frames_ok (pending_out (conn l)) cmds 0 sent) as (j & Lj & ->). destruct (concat (map f_bytes (frames_at sent (take j cmds)))) as [|x b] eqn:Eb; [exact Same|]. rewrite <- Eb. clear Same Sp Sh.
  assert (Bs : base l <= sent) by (unfold floor in Fl; destruct Src as [N _ (k & Hk & F) _ _]; rewrite F, frames_at_length, length_drop in Fl; lia). pose proof (sf_next _ _ _ Src) as N. pose proof (sf_range _ _ _ Src) as R.
  assert (Lt : length (take j cmds) = j) by (rewrite length_take; lia). assert (Lc : length cmds = (length (hist l) - Z.to_nat (sent - base l))%nat) by (unfold cmds; by rewrite length_drop).
  rewrite Es in Sk. destruct Sk as (A & U & D). destruct (D Eg) as [D1 D2]. rewrite <- frame_msgs_bytes.
  constructor; cbn [feed base hist frozen used conn gone]; try done; [cbn [set_state append output write_off]; rewrite blen_app; pose proof (blen_nonneg (concat (map msg_bytes (frame_msgs sent (take j cmds))))); lia|].
  exists (msgs ++ frame_msgs sent (take j cmds)). split; [|split].
  - unfold stream in *. cbn [gone conn]. change (queued (set_state ?c _)) with (queued c). rewrite queued_append, app_assoc, St, map_app, concat_app by exact Wo. done.
  - apply list.Forall_app. split; [exact Mk|]. apply frame_msgs_ok; [|lia|lia]. apply Forall_take. unfold cmds. by apply Forall_drop.
  - cbn [feed base hist frozen used conn gone set_state state]. rewrite map_app, at_events_app, held_app, A, frame_msgs_events, frame_msgs_held, Lt by lia. split; [done|]. split; [exact U|]. intros _. split; [apply delivers_more; [exact D1|exact Bs|fold cmds; lia]|exact D2].
Qed.

(** The snapshot goes on, or ends. *)
Lemma ship_on_link from l i ack g ser buf0 off buf c' : link_ok from l -> state (conn l) = SnapshotShipping i ack g ser buf0 off -> buf = serialize (frozen l) -> (ser = false -> buf = buf0) ->
  ship_on (conn l) i ack g buf off = Ret c' -> link_ok from (mkLink (feed l) (base l) (hist l) (frozen l) (used l) c' (gone l)).
Proof.
  intros [Src Nx Hh Gn Wo (msgs & St & Mk & Sk)] Es Eb Ef E. rewrite Es in Sk. destruct Sk as ([ex A] & U & Ia & B & D). set (h := held from (map msg_event msgs)) in *.
  assert (H : 0 <= off <= blen buf /\ h_chunks h = take (Z.to_nat off) buf) by (destruct ser; [destruct B as [-> ->]; pose proof (blen_nonneg buf); split; [lia|done]|rewrite (Ef eq_refl); split; apply B]). clear B Ef. destruct H as [Ro Ch].
  unfold ship_on in E. rewrite index_range_ok, slice_to_end in E by lia. cbn [mbind exec_bind] in E. destruct (Prelude.from buf off) as [|x rest] eqn:Er.
  - assert (Em : encode_snapshot_end ack = Ret (marker_bytes (End ack))) by exact (encode_markers_ok (End ack) Ia). rewrite Em in E. cbn [mbind exec_bind] in E. injection E as <-. assert (Eo : blen buf = off) by (pose proof (blen_from buf off Ro) as L; rewrite Er, blen_nil in L; lia).
    constructor; cbn [feed base hist frozen used conn gone]; try done; [cbn [set_state append output write_off]; rewrite blen_app; pose proof (blen_nonneg (marker_bytes (End ack))); lia|]. exists (msgs ++ [MMark (End ack)]). split; [|split].
    + unfold stream in *. cbn [gone conn]. change (queued (set_state ?c _)) with (queued c). rewrite queued_append, app_assoc, St, map_app, concat_app by exact Wo. cbn [map concat msg_bytes]. by rewrite app_nil_r.
    + apply list.Forall_app. split; [exact Mk|]. constructor; [exact Ia|constructor].
    + cbn [feed base hist frozen used conn gone set_state state]. rewrite map_app, at_events_app, held_app, A. cbn [map msg_event at_events at_event fold_left hold]. split; [done|]. split; [exact U|]. intros Eg. destruct (D Eg) as [D1 D2]. fold h. rewrite Ch, take_ge by (unfold blen in Eo; lia).
      split; [split; [cbn; lia|]; split; [done|done]|]. unfold starts. cbn [h_snap h_start]. split; [exact D1|]. by rewrite Eb, D2.
  - set (n := Z.min (blen (x :: rest)) SNAPSHOT_CHUNK_MAX) in *. set (d := take (Z.to_nat n) (x :: rest)) in *. assert (Ln : 0 < n <= SNAPSHOT_CHUNK_MAX /\ n <= blen (x :: rest)) by (unfold n, SNAPSHOT_CHUNK_MAX; rewrite blen_cons; pose proof (blen_nonneg rest); lia).
    assert (Ld : blen d = n) by (unfold d; unfold blen in *; rewrite length_take; lia). assert (Lr : blen (x :: rest) = blen buf - off) by (rewrite <- Er; by apply blen_from).
    rewrite encode_chunk_ok in E by lia. cbn [mbind exec_bind] in E. injection E as <-.
    constructor; cbn [feed base hist frozen used conn gone]; try done; [cbn [set_state append output write_off]; rewrite blen_app; pose proof (blen_nonneg (chunk_bytes d)); lia|]. exists (msgs ++ [MChunk d]). split; [|split].
    + unfold stream in *. cbn [gone conn]. change (queued (set_state ?c _)) with (queued c). rewrite queued_append, app_assoc, St, map_app, concat_app by exact Wo. cbn [map concat msg_bytes]. by rewrite app_nil_r.
    + apply list.Forall_app. split; [exact Mk|]. constructor; [|constructor]. cbn [msg_ok]. lia.
    + cbn [feed base hist frozen used conn gone set_state state]. rewrite map_app, at_events_app, held_app, A. cbn [map msg_event at_events at_event fold_left hold h_chunks]. split; [by eexists|]. split; [exact U|]. split; [exact Ia|]. split; [|exact D].
      split; [lia|]. split; [exact Eb|]. fold h. rewrite Ch. replace (Z.to_nat (off + n)) with (Z.to_nat off + Z.to_nat n)%nat by lia. rewrite <- take_take_drop. fold (Prelude.from buf off). by rewrite Er.
Qed.
Lemma ping_encodes l from : link_ok from l -> encode_ping (tail (feed l)) = Ret (marker_bytes (Ping (tail (feed l)))).
Proof.
  intros [Src Nx Hh Gn Wo Ms]. apply (encode_markers_ok (Ping (tail (feed l)))). cbn [marker_ok tail generation offset]. split; [apply Gn|]. pose proof (sf_next _ _ _ Src). pose proof (sf_range _ _ _ Src). unfold in_u64. lia.
Qed.

Lemma pump_link from l cut due recv c : link_ok from l -> (forall b, recv = Arrived b -> b = serialize (frozen l)) -> pump_one cut due recv (feed l) (conn l) = Ret c ->
  link_ok from (mkLink (feed l) (base l) (hist l) (if ships (conn l) c then hist l else frozen l) (used l) c (gone l)).
Proof.
  intros Ok Hr E. assert (Same : forall c, c = conn l -> ships (conn l) c = false -> link_ok from (mkLink (feed l) (base l) (hist l) (if ships (conn l) c then hist l else frozen l) (used l) c (gone l))) by (intros c0 -> ->; by destruct l).
  unfold pump_one in E. destruct (state (conn l)) as [| |i sent g|i ack g ser buf off|i] eqn:Es; try (injection E as <-; apply Same; [done|]; unfold ships; by rewrite Es).
  - pose proof (fill_link from l cut i sent g Ok Es) as Fk. cbv zeta in Fk. unfold maybe_append_heartbeat in E. rewrite (ping_encodes l from Ok) in E. destruct due; cbn [mbind exec_bind] in E; injection E as <-; [|exact Fk]. exact (ping_link from _ Fk).
  - assert (Ns : forall c, ships (conn l) c = false) by (intros c0; unfold ships; by rewrite Es). rewrite Ns. specialize (Same (conn l) eq_refl (Ns _)). rewrite Ns in Same. unfold pump_snapshot_chunks in E. destruct (_ <=? _); [injection E as <-; exact Same|]. rewrite Es in E.
    destruct ser.
    + destruct recv as [b| |]; [|injection E as <-; exact Same|].
      * exact (ship_on_link from l i ack g true buf off b c Ok Es (Hr b eq_refl) ltac:(done) E).
      * injection E as <-. destruct Ok as [Src Nx Hh Gn Wo (msgs & St & Mk & Sk)]. destruct (close_ok (conn l)) as (Q & W & O & [i' S]). constructor; cbn [feed base hist frozen used conn gone]; try done; [by rewrite W, O|]. exists msgs. split; [|split; [exact Mk|]].
        -- unfold stream in *. cbn [gone conn]. by rewrite Q.
        -- cbn [conn]. rewrite S. rewrite Es in Sk. destruct Sk as ([ex A] & _). by rewrite A.
    + assert (Eb : buf = serialize (frozen l)) by (destruct Ok as [_ _ _ _ _ (msgs & _ & _ & Sk)]; rewrite Es in Sk; apply Sk). exact (ship_on_link from l i ack g false buf off buf c Ok Es Eb ltac:(done) E).
Qed.

Lemma step_link from l l' : link_ok from l -> link_step l l' -> link_ok from l'.
Proof.
  intros Ok St. destruct St as [l c s o Hc Hn E|l w s E|l g f Hf Hg E|l cut due recv c Hr E|l ws Hw].
  - by apply (push_link from l c s o).
  - by apply (drop_link from l w s).
  - by apply bump_link.
  - by apply (pump_link from l cut due recv c).
  - by apply write_link.
Qed.

Lemma steps_link from l l' : link_ok from l -> rtc link_step l l' -> link_ok from l'.
Proof. intros Ok St. induction St as [|x y z S _ IH]; [exact Ok|]. by apply IH, (step_link from x). Qed.

(** A pump never panics, whatever the serializer gives. *)
Lemma pump_total from l cut due recv : link_ok from l -> exists c, pump_one cut due recv (feed l) (conn l) = Ret c.
Proof.
  intros Ok. assert (So : forall c i ack g buf off, in_u64 ack -> 0 <= off <= blen buf -> exists c', ship_on c i ack g buf off = Ret c').
  { intros c i ack g buf off Ia Ro. unfold ship_on. rewrite index_range_ok by lia. cbn [mbind exec_bind]. destruct (slice _ _ _) as [|x rest] eqn:E.
    - assert (Em : encode_snapshot_end ack = Ret (marker_bytes (End ack))) by exact (encode_markers_ok (End ack) Ia). rewrite Em. by eexists.
    - rewrite encode_chunk_ok; [by eexists|]. unfold blen, SNAPSHOT_CHUNK_MAX. rewrite length_take. lia. }
  unfold pump_one. destruct (state (conn l)) as [| |i sent g|i ack g ser buf off|i] eqn:Es; try by eexists.
  - unfold maybe_append_heartbeat. rewrite (ping_encodes l from Ok). destruct due; by eexists.
  - destruct Ok as [_ _ _ _ _ (msgs & _ & _ & Sk)]. rewrite Es in Sk. destruct Sk as (_ & _ & Ia & B & _). unfold pump_snapshot_chunks. destruct (_ <=? _); [by eexists|]. rewrite Es. destruct ser; [|apply So; [exact Ia|apply B]].
    destruct recv as [b| |]; [|by eexists|by eexists]. apply So; [exact Ia|]. destruct B as [-> _]. pose proof (blen_nonneg b). lia.
Qed.

(** A replica that has just been acknowledged: its id, the offset it asked for and
    the generation it claims. *)
Definition link_start (g b : Z) (hs : list Cmd) (s : ReplicationSource) (i : list byte) (from claimed : Z) : Link :=
  mkLink (mkFeed g s) b hs [] [claimed; g] (mkConn [] [] 0 (Streaming i from claimed)) [].

Lemma start_ok g b hs s i from claimed : stands_for b hs s -> next_offset s <= i64_max -> Forall sendable hs -> in_u64 g -> link_ok from (link_start g b hs s i from claimed).
Proof.
  intros Src Nx Hh Hg. constructor; cbn [link_start feed base hist frozen used conn gone source feed_generation]; try done; [split; [right; left|exact Hg]|]. exists []. split; [done|]. split; [constructor|]. cbn [link_start feed base hist frozen used conn gone state]. split; [done|]. split; [left|].
  intros _. split; [|done]. split; [cbn; lia|]. by split.
Qed.
End Links.

(** ** The theorems *)

(** C12: A replica follows its primary: after any writes, retention drops, generation
    changes, pumps, snapshots, heartbeats and partial socket writes, the bytes of a
    link, however they are cut and interrupted on the way, are read as one sequence
    of events, without a gap or an error; while the link streams the feed's own
    generation, what the replica then holds is the history up to the offset sent,
    its commands in order after the offset it asked for or after a snapshot of
    exactly the commands before; and no pump panics. *)
Theorem replica_follows_primary `{Scan : CrlfScanner} (serialize : list Cmd -> list byte) (g b : Z) (hs : list Cmd) (s : ReplicationSource) (i : list byte) (from claimed : Z) (l : Link)
  (Hs : stands_for b hs s) (Hn : next_offset s <= i64_max) (Hh : Forall sendable hs) (Hg : in_u64 g)
  (Hr : rtc (link_step serialize) (link_start g b hs s i from claimed) l) :
  exists es,
    (forall fuel reads, clean reads -> data reads = stream l -> (length es < fuel)%nat ->
       exists c, events fuel (mkCl [] 0 from false) reads = Ret (c, map inl es) /\
         forall i sent g', state (conn l) = Streaming i sent g' -> place c = (false, sent)) /\
    (forall i sent, state (conn l) = Streaming i sent (feed_generation (feed l)) ->
       delivers (base l) (hist l) (held from es) sent /\ starts serialize from (base l) (hist l) (held from es)) /\
    (forall cut due recv, exists c, pump_one cut due recv (feed l) (conn l) = Ret c).
Proof.
  pose proof (steps_link serialize from _ l (start_ok serialize g b hs s i from claimed Hs Hn Hh Hg) Hr) as Ok. pose proof (lo_msgs _ _ _ Ok) as (msgs & St & Mk & Sk). exists (map msg_event msgs). split; [|split].
  - intros fuel reads Cl Ed Hf. rewrite length_map in Hf. assert (A : exists st, at_events (false, from) (map msg_event msgs) = Some st /\ forall i sent g', state (conn l) = Streaming i sent g' -> st = (false, sent)).
    { destruct (state (conn l)) as [| |i' sent g'|i' ack g' ser buf off|i']; try done.
      - destruct Sk as (A & _). eexists. split; [exact A|]. by intros ? ? ? [= _ -> _].
      - destruct Sk as ([ex A] & _). eexists. split; [exact A|]. done.
      - destruct Sk as [st A]. exists st. split; [exact A|]. done. }
    destruct A as (st & A & Ast). destruct (events_msgs msgs fuel reads (mkCl [] 0 from false) st Mk) as (c & E & Pl); [by vm_compute|exact Cl|exact A|cbn [pending]; by rewrite Ed|exact Hf|]. exists c. split; [exact E|]. intros i' sent g' Es. rewrite Pl. by apply (Ast i' sent g').
  - intros i' sent Es. rewrite Es in Sk. by apply Sk.
  - intros cut due recv. by apply (pump_total serialize from).
Qed.

Lemma replica_follows_primary_witness :
  let cmd := [bs "SET"; bs "k"; bs "v"] in
  let s := mkSrc 1 (sum_bytes (frames_at 0 [cmd])) 1024 (frames_at 0 [cmd]) in
  let l := mkLink (mkFeed 7 s) 0 [cmd] [] [7; 7] (mkConn [] (frame_bytes 0 cmd) 0 (Streaming (bs "r") 1 7)) [] in
  exists es, (exists c, events (Scan := scanner_on (X86_64 true)) (S (length es)) (mkCl [] 0 0 false) [Interrupted; Got (frame_bytes 0 cmd)] = Ret (c, map inl es) /\ place c = (false, 1)) /\
    delivers 0 [cmd] (held 0 es) 1 /\ starts (fun cs => concat (map command_bytes cs)) 0 0 [cmd] (held 0 es).
Proof.
  intros cmd s l. assert (Sc : sendable cmd) by (split; [done|]; split; [by vm_compute|]; repeat constructor; by vm_compute).
  destruct (replica_follows_primary (Scan := scanner_on (X86_64 true)) (fun cs => concat (map command_bytes cs)) 7 0 [cmd] s (bs "r") 0 7 l) as (es & Ev & De & _).
  - constructor; [done|by vm_compute|exists O; split; [cbn; lia|done]|done|]. split; [by vm_compute|left; by vm_compute].
  - by vm_compute.
  - by constructor.
  - by vm_compute.
  - apply rtc_once. by apply (ls_pump (fun cs => concat (map command_bytes cs)) (link_start 7 0 [cmd] s (bs "r") 0 7) 1 false Empty (conn l)).
  - exists es. split; [|by apply (De (bs "r") 1)]. destruct (Ev (S (length es)) [Interrupted; Got (frame_bytes 0 cmd)]) as (c & E & P); [by repeat constructor|by vm_compute|lia|].
    exists c. split; [exact E|]. by apply (P (bs "r") 1 7).
Defined.

(** C14: A peer cannot derail a replica: whatever bytes arrive, however they are cut
    and however the stream ends, reading returns and never panics, with at most one
    error, at the end; the events before it are those of a link in order, each frame
    outside a snapshot and at the next offset, each chunk inside one. *)
Theorem replica_survives_any_stream `{Scan : CrlfScanner} (from : Z) (reads : list Read) :
  exists c es stop, events (S (length (data reads))) (mkCl [] 0 from false) reads = Ret (c, map inl es ++ stop) /\
    is_Some (at_events (false, from) es) /\ (stop = [] \/ exists e, stop = [inr e]).
Proof. apply events_total; [by vm_compute|]. change (pending (mkCl [] 0 from false)) with (@nil byte). unfold blen. cbn [length]. lia. Qed.

(** What a source is asked to do. *)
Inductive src_op := OpPush (c : Cmd) | OpDrop (w : Z).

Fixpoint run_source (s : ReplicationSource) (ops : list src_op) : exec ReplicationSource :=
  match ops with
  | [] => Ret s
  | OpPush c :: ops => '(s, _) ← push_mutation s c; run_source s ops
  | OpDrop w :: ops => s ← drop_up_to s w; run_source s ops
  end.

Definition pushed (ops : list src_op) : list Cmd := omap (fun o => match o with OpPush c => Some c | OpDrop _ => None end) ops.

Lemma run_source_ok ops : forall b hist s, stands_for b hist s -> Forall sendable (pushed ops) -> next_offset s + Z.of_nat (length (pushed ops)) <= u64_max ->
  exists s', run_source s ops = Ret s' /\ stands_for b (hist ++ pushed ops) s' /\ max_bytes s' = max_bytes s.
Proof.
  induction ops as [|[c|w] ops IH]; intros b hist s Hs Hp Hn; cbn [run_source pushed omap list_omap] in *; [exists s; by rewrite app_nil_r| |].
  - apply list.Forall_cons in Hp as [Hc Hp]. cbn [length] in Hn. fold (pushed ops) in *. destruct (push_mutation_ok b hist s c Hs Hc ltac:(lia)) as (s1 & E & S1 & _). rewrite E. cbn [mbind exec_bind].
    assert (N1 : next_offset s1 = next_offset s + 1) by (rewrite (sf_next _ _ _ S1), (sf_next _ _ _ Hs), length_app; cbn [length]; lia). assert (M1 : max_bytes s1 = max_bytes s) by (unfold push_mutation in E; destruct (encode_frame _ _); [|done]; cbn [mbind exec_bind] in E; destruct (evict _ _ _ _) as [[? ?]|]; [|done]; cbn [mbind exec_bind] in E; destruct (expect _); [|done]; by injection E as <-).
    destruct (IH b (hist ++ [c]) s1 S1 Hp ltac:(lia)) as (s' & -> & S' & M'). exists s'. rewrite <- app_assoc in S'. split; [done|]. split; [exact S'|congruence].
  - fold (pushed ops) in *. destruct (drop_up_to_ok b hist s w Hs) as (s1 & E & S1 & N1 & _). rewrite E. cbn [mbind exec_bind]. assert (M1 : max_bytes s1 = max_bytes s) by (unfold drop_up_to in E; destruct (drop_below _ _ _) as [[? ?]|]; [|done]; by injection E as <-).
    destruct (IH b hist s1 S1 Hp ltac:(lia)) as (s' & -> & S' & M'). exists s'. split; [done|]. split; [exact S'|congruence].
Qed.

(** C13: The backlog is the end of its history within its budget: after any pushes
    and retention drops from any first offset, with no panic, the bytes kept are
    within the budget or are one frame; a reader ahead is told so, one before the
    first kept offset is sent to a snapshot, and any other gets exactly the commands
    from its offset on, wherever the deque is cut; a feed gives them only to a cursor
    of its own generation. *)
Theorem backlog_serves_history (max b : Z) (ops : list src_op) (Hm : 0 < max) (Hb : 0 <= b) (Hp : Forall sendable (pushed ops)) (Hn : b + Z.of_nat (length (pushed ops)) <= u64_max) :
  exists s0 s1 s, source_new max = Ret s0 /\ set_next_offset s0 b = Ret s1 /\ run_source s1 ops = Ret s /\
    next_offset s = b + Z.of_nat (length (pushed ops)) /\ (bytes_in_buf s <= max \/ (length (fbuf s) <= 1)%nat) /\ bytes_in_buf s = sum_bytes (fbuf s) /\
    (forall cut from, frames_from cut s from =
       if next_offset s <? from then inr Future else if from <? floor s then inr TooOld else inl (frames_at from (drop (Z.to_nat (from - b)) (pushed ops)))) /\
    (forall cut g at_ n, feed_read cut (mkFeed g s) at_ n =
       if negb (generation at_ =? g) then inr (Resync (mkFp g (next_offset s)))
       else if next_offset s <? offset at_ then inr FutureRead
       else if offset at_ <? floor s then inr (Resync (mkFp g (next_offset s)))
       else inl (take n (frames_at (offset at_) (drop (Z.to_nat (offset at_ - b)) (pushed ops))))).
Proof.
  set (s1 := mkSrc b 0 max []). assert (S1 : stands_for b [] s1) by (constructor; cbn; [lia|lia|by exists O|done|split; [lia|left; lia]]).
  destruct (run_source_ok ops b [] s1 S1 Hp Hn) as (s & E & Sf & Mx). cbn [app] in Sf. exists (mkSrc 0 0 max []), s1, s. split; [unfold source_new; by destruct (Z.ltb_spec 0 max); [|lia]|]. split; [done|]. split; [exact E|]. split; [apply Sf|].
  split; [rewrite <- (eq_refl : max_bytes s1 = max), <- Mx; apply Sf|]. split; [apply Sf|]. split; [intros cut from; by apply frames_from_ok|].
  intros cut g at_ n. unfold feed_read. cbn [feed_generation source]. destruct (negb _); [done|]. rewrite (frames_from_ok b (pushed ops) s cut _ Sf). destruct (_ <? offset at_); [done|]. by destruct (offset at_ <? floor s).
Qed.

Lemma backlog_serves_history_witness :
  let ops := [OpPush [bs "SET"; bs "k"; bs "v"]; OpPush [bs "DEL"; bs "k"]; OpDrop 6] in
  exists s, run_source (mkSrc 5 0 1024 []) ops = Ret s /\ floor s = 6 /\ frames_from 1 s 5 = inr TooOld /\
    frames_from 0 s 6 = inl (frames_at 6 [[bs "DEL"; bs "k"]]).
Proof.
  intros ops. destruct (backlog_serves_history 1024 5 ops) as (s0 & s1 & s & E0 & E1 & E & _ & _ & _ & F & _); [lia|lia| |by vm_compute|].
  - repeat constructor; by vm_compute.
  - injection E0 as <-. injection E1 as <-. exists s. split; [exact E|]. rewrite !F. vm_compute in E. injection E as <-. repeat split; by vm_compute.
Defined.

(** The retention floor is below every consumer. *)
Lemma min_acked_le slots w s : min_acked_offset slots = Some w -> s ∈ slots -> w <= acked_offset s.
Proof.
  assert (G : forall l m, fold_left (fun m s => Z.min m (acked_offset s)) l m <= m /\ forall s, s ∈ l -> fold_left (fun m s => Z.min m (acked_offset s)) l m <= acked_offset s).
  { induction l as [|x l IH]; intros m; cbn [fold_left]; [split; [lia|intros ? H; inversion H]|]. destruct (IH (Z.min m (acked_offset x))) as [H1 H2]. split; [lia|]. intros y Hy. apply elem_of_cons in Hy as [->|Hy]; [lia|by apply H2]. }
  destruct slots as [|x l]; [done|]. intros [= <-] H. destruct (G l (acked_offset x)) as [H1 H2]. apply elem_of_cons in H as [->|H]; [exact H1|by apply H2].
Qed.

Lemma watermark_le conns slots w : watermark conns slots = Some w -> (forall c o, c ∈ conns -> live_offset c = Some o -> w <= o) /\ (forall s, s ∈ slots -> w <= acked_offset s).
Proof.
  assert (G : forall l m, let r := fold_left (fun w c => match live_offset c with Some o => min_with w o | None => w end) l m in
    (forall x, m = Some x -> exists y, r = Some y /\ y <= x) /\ (forall c o, c ∈ l -> live_offset c = Some o -> exists y, r = Some y /\ y <= o)).
  { induction l as [|x l IH]; intros m; cbn [fold_left]; [split; [intros x ->; eexists; split; [done|lia]|intros ? ? H; inversion H]|]. cbv zeta in IH. destruct (IH (match live_offset x with Some o => min_with m o | None => m end)) as [H1 H2]. split.
    - intros z ->. destruct (live_offset x) as [o|]; [|by apply H1]. destruct (H1 (Z.min z o) eq_refl) as (y & E & Le). exists y. split; [exact E|lia].
    - intros c o Hc Ho. apply elem_of_cons in Hc as [->|Hc]; [|by apply (H2 c)]. rewrite Ho in *. destruct m as [z|]; [destruct (H1 (Z.min z o) eq_refl) as (y & E & Le)|destruct (H1 o eq_refl) as (y & E & Le)]; exists y; (split; [exact E|lia]). }
  unfold watermark. destruct (G conns None) as [_ H2]. cbv zeta in *. set (r := fold_left _ conns None) in *. destruct (min_acked_offset slots) as [a|] eqn:Ea.
  - intros [= <-]. split; [intros c o Hc Ho; destruct (H2 c o Hc Ho) as (y & -> & Le); lia|intros s Hs; pose proof (min_acked_le slots a s Ea Hs); destruct r; lia].
  - intros Er. split; [intros c o Hc Ho; destruct (H2 c o Hc Ho) as (y & E & Le); rewrite Er in E; injection E as ->; exact Le|]. intros s Hs. destruct slots; [inversion Hs|done].
Qed.

(** C15: Retention loses no one: the tick drops frames only below every live link and
    every slot, so whoever could resume from the backlog before it still can, and
    gets the same frames; the feed's history and generation stay. *)
Theorem retention_keeps_consumers (b g : Z) (hs : list Cmd) (s : ReplicationSource) (conns : list ReplicaConn) (slots : list ReplicaSlot) (Hs : stands_for b hs s) :
  exists s', tick_replication_watermark (mkFeed g s) conns slots = Ret (mkFeed g s') /\ stands_for b hs s' /\ next_offset s' = next_offset s /\
    forall o cut, ((exists c, c ∈ conns /\ live_offset c = Some o) \/ (exists sl, sl ∈ slots /\ acked_offset sl = o)) -> frames_from cut s' o = frames_from cut s o.
Proof.
  unfold tick_replication_watermark. cbn [source feed_generation]. destruct (watermark conns slots) as [w|] eqn:Ew.
  - destruct (drop_up_to_ok b hs s w Hs) as (s' & -> & S' & N' & F1 & F2). cbn [mbind exec_bind]. exists s'. split; [done|]. split; [exact S'|]. split; [exact N'|]. destruct (watermark_le conns slots w Ew) as [W1 W2]. intros o cut Ho.
    assert (Le : w <= o) by (destruct Ho as [(c & Hc & Hl)|(sl & Hl & <-)]; [by apply (W1 c)|by apply W2]). rewrite (frames_from_ok b hs s' cut o S'), (frames_from_ok b hs s cut o Hs), N'. destruct (_ <? o); [done|].
    destruct (Z.ltb_spec o (floor s)), (Z.ltb_spec o (floor s')); try done; lia.
  - exists s. split; [done|]. split; [exact Hs|]. by split.
Qed.

Lemma retention_keeps_consumers_witness :
  let hs := [[bs "SET"; bs "k"; bs "v"]; [bs "DEL"; bs "k"]] in
  let s := mkSrc 2 (sum_bytes (frames_at 0 hs)) 1024 (frames_at 0 hs) in
  exists s', tick_replication_watermark (mkFeed 7 s) [mkConn [] [] 0 (Streaming (bs "a") 2 7)] [mkSlot (bs "b") 0 1] = Ret (mkFeed 7 s') /\
    fbuf s' = frames_at 1 [[bs "DEL"; bs "k"]] /\ frames_from 0 s' 1 = frames_from 0 s 1.
Proof.
  intros hs s. destruct (retention_keeps_consumers 0 7 hs s [mkConn [] [] 0 (Streaming (bs "a") 2 7)] [mkSlot (bs "b") 0 1]) as (s' & E & _ & _ & F).
  - constructor; [done|by vm_compute|exists O; split; [cbn; lia|done]|done|]. split; [by vm_compute|left; by vm_compute].
  - exists s'. split; [exact E|]. split; [clear F; vm_compute in E; injection E as <-; by vm_compute|]. apply F. right. eexists. split; [left|done].
Defined.

(** ** Two limits *)

(** A command whose frame is past the pump's byte budget is never queued on a link
    that streams: every turn leaves the link as it is, and nothing after the command
    is sent either. *)
Theorem oversized_frame_stalls (cut : nat) (g b : Z) (hs : list Cmd) (s : ReplicationSource) (c : ReplicaConn) (i : list byte) (sent : Z) (cmd : Cmd) (Hs : stands_for b hs s)
  (Hc : state c = Streaming i sent g) (Hf : floor s <= sent < next_offset s) (Hl : hs !! Z.to_nat (sent - b) = Some cmd) (Hb : PUMP_BYTE_BUDGET_PER_ITER < blen (frame_bytes sent cmd)) :
  fill_streaming_output cut (mkFeed g s) c = c.
Proof.
  unfold fill_streaming_output. rewrite Hc. cbv zeta. cbn [feed_generation source]. rewrite Z.eqb_refl. cbn [negb]. destruct (Z.eqb_spec sent (next_offset s)); [lia|]. destruct (_ <=? _); [done|]. rewrite (frames_from_ok b hs s cut sent Hs). destruct (Z.ltb_spec (next_offset s) sent); [lia|]. destruct (Z.ltb_spec sent (floor s)); [lia|].
  rewrite (drop_S _ _ _ Hl). cbn [frames_at take_frames f_bytes]. destruct (Z.ltb_spec PUMP_BYTE_BUDGET_PER_ITER (0 + blen (frame_bytes sent cmd))); [done|lia].
Qed.

(** Such a command is one a client may send. *)
Lemma oversized_is_sendable : let cmd := [bs "SET"; bs "k"; replicate 262144 x78] in sendable cmd /\ PUMP_BYTE_BUDGET_PER_ITER < blen (frame_bytes 0 cmd).
Proof.
  set (v := replicate 262144 x78). assert (Lv : blen v = 262144) by (unfold v, blen; rewrite length_replicate; reflexivity). cbv zeta. split.
  - split; [done|]. split; [by vm_compute|]. repeat constructor; [by vm_compute|by vm_compute|]. rewrite Lv. unfold MAX_BULK_LEN. lia.
  - unfold frame_bytes, command_bytes, PUMP_BYTE_BUDGET_PER_ITER. cbn [fmap list_fmap concat]. unfold bulk_bytes. rewrite !blen_app, Lv.
    repeat match goal with |- context [blen ?l] => lazymatch goal with H : 0 <= blen l |- _ => fail | _ => pose proof (blen_nonneg l) end end. pose proof (eq_refl : blen (bs "*2") = 2). lia.
Qed.

(** After FLUSHALL a slot keeps the offset its replica acknowledged before: WAIT for
    the first write of the new history counts the replica at once, which has been
    sent nothing of it. *)
Theorem wait_counts_stale_acks :
  exists f slots s1 s2, slots = insert_or_touch [] (bs "r") 3 0 /\ bump_generation (mkFeed 7 (mkSrc 3 0 1024 [])) 9 = Ret f /\ push_mutation (source f) [bs "SET"; bs "k"; bs "v"] = Ret (s1, 0) /\ s2 = mkFeed 9 s1 /\
    let c := mkConn [] [] 0 (Streaming (bs "r") 3 7) in
    repl_ack_count slots [c] (next_offset (source s2)) = 1 /\ tail s2 = mkFp 9 1 /\ output c = [].
Proof. do 4 eexists. split; [reflexivity|]. split; [reflexivity|]. split; [vm_compute; reflexivity|]. split; [reflexivity|]. cbv zeta. split; [vm_compute; reflexivity|]. by split. Qed.
